(* ===== verification/_CoqProject ===== *)
-Q . S2P
Prelude.v
GoStrings.v
GoText.v
Utf8.v
Selection.v
SelectionProjection.v
Visibility.v
Scheduling.v
EntryQueue.v
Staging.v
WriteBudgets.v
StageBatches.v
IndexDrain.v
IndexFormat.v
GoPaths.v
CodeGraph.v
Tarjan.v
Layering.v
FileTree.v
Layout.v
Jsonc.v
CodeImports.v
CodeBuild.v
ProjectionIdentity.v
UnionFind.v
Projection.v
ProjectionSections.v
GenerationBuild.v
Reprojection.v
GenerationContent.v
ToolPairing.v
ServedBounds.v
Glob.v
AutoPublish.v
CodexRecords.v
ThinkingLevel.v
CodexReplay.v
CodexCapture.v
Negotiation.v
PushTargets.v
PushSession.v
PushSafety.v
PushLedger.v
PushRun.v
HookScript.v
HookLifecycle.v
HookSafety.v
