(* ===== verification/Prelude.v ===== *)
(** * peasant: a verification library for the core of peasant

    The repository indexes coding-agent sessions: it discovers them, decides
    which ones the user selected, schedules and parses them in parallel, stages
    the parsed transcripts for one drainer, projects each classified capture
    into a managed generation and stores it, and reads committed generations
    back.  This library models the parts of that path that carry its own logic,
    translated from the Go sources, with the theorems that make them correct.

    ** Files

    - [Prelude] (this file): the error monad with [let?] and [require] (a Go
      function that returns an error), its loops [res_iter], [res_fold] and the
      lemmas on loops that collect keys or fill a map, lists, relations, runs of
      a nondeterministic machine.
    - [GoStrings], [GoText]: the [strings], [path] and [utf8] functions the sources
      call; searching, splitting and replacing text.
    - [Selection]: internal/ingest/types.go, remote.go and the compilation of the
      saved rules in internal/config/config.go: the selection matcher, its
      exclusions and candidate decisions.
    - [SelectionProjection]: internal/selectionprojection: effective projects,
      cohort multiplicities and distinct clone suffixes.
    - [Visibility]: internal/sessionorigin and internal/sessionvisibility.
    - [Scheduling]: internal/ingest/operational_parent.go and the level, heap and
      worker-pool parts of parallel.go.
    - [EntryQueue]: [SessionEntryQueue] of parallel.go, the bounded lock-free ring.
    - [Staging]: [StagingBuffer] of parallel.go, the byte arena of parsed sessions.
    - [WriteBudgets]: write_config.go and worker_headroom.go of internal/ingest: the
      write section, its defaults and validation; the one splitter and the windows cut
      by it.
    - [StageBatches]: the staging half of internal/store/harmonized_commit.go: the
      objects of prepared sessions cut into transactions, the transactions over their
      tables, and the readers of a staged blob.
    - [IndexDrain]: index_drain.go, staged_bytes_gate.go and the parser workers of
      [indexBatch] in pipeline.go: the bounded admission of parsed candidates and the
      grouping of parsed results into write batches.
    - [IndexFormat]: internal/indexformat/generation.go and enums.go, every
      validator of a generation and of a read snapshot, and the read-back of
      internal/store/generation_snapshot.go.
    - [ProjectionIdentity]: internal/ingest/projection_identity.go, alias keys and
      prior states.
    - [UnionFind], [Projection], [GenerationBuild]: internal/ingest/projection.go,
      the whole of [BuildGeneration]; [UnionFind] is the local find/union of
      [resolveUncertainSubtrees], [Projection] the validation, the resolution
      and the allocation, [GenerationBuild] the layout and everything after it.
    - [ProjectionSections], [Reprojection], [GenerationContent], [ToolPairing]: its
      theorems.

    The names of definitions are the names of the Go declarations they translate;
    a method [m] of type [T] is [T_m] or [m], a closure or loop body has a name of
    its own said in its comment.

    - [GoPaths]: byte order, [sort.Slice] by fields, [path.Dir], [Ext] and [Join].
    - [CodeGraph], [Tarjan], [Layering], [FileTree], [Layout], [Jsonc],
      [CodeImports], [CodeBuild]: internal/codegraph: the graph types and [Diff];
      [tarjanSCC]; [layerPackages]; the path tree of builder.go; [applyLayout] and
      [assignOrder]; jsonc.go; lang_go.go, lang_ts.go and lang_ts_cgo.go;
      [collectEdges] and [Build].
    - [Utf8]: valid UTF-8 rune by rune; [Glob]: [filepath.Match].
    - [ServedBounds]: internal/transcript/served_bounds.go and
      internal/defaults/bytesize.go: the display bound on served texts.
    - [AutoPublish]: internal/autopublish: the rules that publish a repository.
    - [CodexRecords], [CodexReplay], [CodexCapture]: internal/ingest/
      codex_history_replay.go with the parts of codex_history.go,
      codex_delivery.go, codex_control_records.go and codex_unknown.go it calls:
      the records of a rollout, their ordinals, checkpoints and proven bounds;
      the replay of a session from its segments as a transition on the state of
      the capture; the capture around it and its theorems.
    - [ThinkingLevel]: internal/ingest/thinking_level.go and
      internal/transcript/thinking_history.go and thinking_seed_default.go.
    - [Negotiation]: internal/village/negotiate.go, pull_contract.go and the pull
      negotiation of pull.go, internal/push/negotiate.go: contract versions.
    - [PushTargets]: the candidates, scope, selection, capture checks, preflight,
      order and concurrency of internal/push.
    - [PushSession]: [pushSession] of internal/push/pipeline.go over the receipts and
      attempts of internal/store/publications.go, and the visibility of
      internal/config/policy.go; [PushSafety] and [PushLedger] are its theorems, on
      one push and on runs that follow each other.
    - [PushRun]: [Run] of pipeline.go: its sequential half, the pool of uploads with
      the abort, the counters and the empty reasons.
    - [HookScript], [HookLifecycle], [HookSafety]: internal/githooks: the commands and
      scripts written into hooks; inspection, plans, install and uninstall over a
      file system with links and failing calls; the theorems on them.

    ** How the parts meet

    A selected candidate ([Selection], [SelectionProjection], [Visibility])
    becomes a scheduled entry ([Scheduling]); workers take entries from the queue
    ([EntryQueue]) and put parsed bytes in the arena ([Staging]), and what they parse
    reaches the store in the batches of [IndexDrain], whose candidates are staged by
    [StageBatches], all cut by the splitter of [WriteBudgets].  A classified
    capture is projected by [GenerationBuild.buildGenerationAndContent], whose
    last step is [IndexFormat.Generation_Validate]; what the validator promises
    ([IndexFormat.GenerationOk]) is used by the projection's theorems, and a
    stored generation is read back by [IndexFormat.generationReadSnapshot] and
    seeds the next projection through
    [ProjectionIdentity.PriorStateFromGeneration].  A Codex rollout reaches the
    classifier through [CodexCapture.CaptureCodexHistoryWithRetry]: its records
    are split by [CodexRecords], replayed by [CodexReplay] and captured until two
    captures agree.  Beside that path,
    [CodeBuild.Build] turns a list of paths and a reader into the import graph of
    a snapshot: [FileTree.buildTree], the resolution of [CodeImports], the edges
    of [collectEdges], the layers of [Layering] over the components of [Tarjan]
    and the numbering of [Layout].  What leaves the store is bounded by
    [ServedBounds.BoundServedDetail] before it is displayed or published, and
    [AutoPublish.DecideForEvent] decides whether a push publishes a repository: its
    pinned sessions narrow [PushTargets.getTargetSessions], [PushRun.planRun] checks
    them and settles the contract with [Negotiation.negotiate], and every step of the
    pool pushes one of them by [PushSession.pushSession], which keeps the receipts the
    next run compares with.  The hooks of [HookLifecycle] run that upload on a commit
    or a push, by the command [HookScript] wrote into them.

    ** What the theorems show

    - Projection: re-projecting a capture from the generation it produced gives
      the generation back for any allocator ([reprojection_stable]); the
      resolution of uncertain subtrees terminates and places every block by its
      connected class, in any map order ([sections_resolved]); a built generation
      returns and records exactly the bytes of its references
      ([content_complete]); a tool result carries the reference of the call with its
      own native identity and hangs from its own carrier ([tool_results_paired]); counts and titles are the documented sets
      ([strict_counts_exact]); prior states merge exactly when they agree
      ([merge_exact]).
    - Format: the validators accept exactly the well-formed documents
      ([Generation_Validate_exact], [snapshot_validation_exact]); in a valid
      generation every reference has one owner; a stored generation reads back
      valid; blob paths stay confined.
    - Codex capture: the records of a rollout tile its bytes ([records_tile]) and
      their ordinals ascend ([ordinals_ascending]); a parent that grows keeps the
      bytes proven to its child ([parent_append_stable]); every replayed node has the
      key and the ownership of the admitted record that introduced it and cites that
      record or one that completes its item ([replay_grounded]); the refs of a
      capture partition its nodes ([capture_graph]); no stored index is out of
      range ([capture_never_panics]); a rollback reverts exactly its turns
      ([rollback_exact]); a recapture reproduces the history
      ([capture_reproducible]) and an unstable source is never returned as stable
      ([retry_stable]).  Thinking levels: the seed and the history are the first
      observation and its later changes ([thinking_history_exact]).
    - Concurrency: the history of the queue, every call and every returned value
      under every interleaving of its atomic accesses, is one of a bounded FIFO queue
      ([queue_refines_fifo]), its entry accesses are race free and
      quiet calls succeed; a staged transcript is drained intact, at most once,
      and the arena accounting holds in every reachable state.
    - Index drain: under every interleaving of the parser workers, the gate and the
      drain, the write batches hold every result exactly once and keep their caps
      ([every_result_written_once]); owned bytes are accounted for and bounded
      ([staged_bytes_bounded]); no run is stuck or endless ([index_drain_terminates]);
      under accepted budgets only a result larger than a full batch may wait for the
      flush interval ([only_oversized_waits_for_timer]).
    - Write budgets: a pipeline starts with exactly the usable budgets
      ([acceptWrite_exact]), a saved section reads back ([write_config_reads_back]), and
      candidates and migrated bodies are cut greedily and alike
      ([native_windows_exact], [migration_windows_agree]).
    - Staging: the transactions hold every object in order and mark its session
      ([splitStageBatch_exact]); whatever fails, what was staged is flagged for the sweep
      and a run that ends well stored everything ([staged_objects_flagged]); a run after a broken one stores everything, byte for
      byte ([staging_resumes]).
    - Scheduling: the parents kept are acyclic and exactly the uncut ones, levels
      put parents first, the pool finishes every session under every schedule, the
      heap sorts.
    - Code graph: the components are exactly the classes of mutual reachability, in
      order ([tarjanSCC_components]); layers are longest paths with the cmd pin and
      the violations exactly the offending edges ([layerPackages_layering]); tree
      nodes carry the totals of the files below them ([buildTree_exact]); a built
      graph is well formed and every edge points down or is reported
      ([Build_graph]); imports go to the most specific module and the first
      existing candidate; a JSONC text loses exactly its comments and trailing
      commas; graph differences are exact.
    - Push: a run sends exactly the candidates every filter admits
      ([targets_exact]); a session is uploaded at most once, to a capable village, built
      from its redacted metadata and entries as a redacted document, and never when the village holds it already
      ([nothing_sent_unless_due]); its audience is moved only on request, on creation
      or to finish a first publication ([audience_kept]); receipts are recorded for
      the village's own confirmations only ([receipt_saved_iff_confirmed]) and stay one per
      transcript ([receipts_stay_unique]); publishing again is skipped
      ([published_again_is_skipped]) and a broken first publication is finished
      ([retry_finishes_first_publish]); a run accounts for every target under every
      interleaving ([run_accounts_for_every_target]), is aborted by three consecutive
      connection failures and by a lost connection only ([abort_exact]) and ends ([pool_terminates]).
    - Contracts: the emitted version lies in the advertised window
      ([negotiate_within_window]); a settled envelope is one the CLI reads
      ([pull_envelope_agrees]).
    - Git hooks: commands and scripts read back as what they were built from
      ([commands_read_back], [script_reads_back]); nothing Peasant does not own is
      changed, whatever fails ([foreign_files_untouched]); a mutation is all or nothing
      ([install_all_or_nothing]), an install takes effect and an uninstall undoes it
      ([install_takes_effect], [uninstall_undoes_install]).
    - Publishing rules: a repository is published by exactly the covering rules that
      name the event, to exactly their collectives ([DecideForEvent_exact]); the
      glob of a directory names it alone ([FolderMatch_exact]); a saved change
      reloads with the same decisions ([Update_then_Load]); the walk above a gone
      directory ends ([gone_directories_covered]).
    - Display bound: a bounded payload fits its budget exactly when reported, at a
      bound that no single byte larger fits ([BoundServedDetail_fits]); a bounded
      text is the longest rune-aligned prefix with its note ([boundServedText_ok]).
    - Selection: exclusions are exact, decisions do not depend on the order of
      rules or of map ranges, git is only skipped when it cannot matter,
      projection folds and label suffixes are what they are documented to be.

    ** Modelling choices

    Go errors are values of a [result] with a reason per return statement; a
    runtime panic (index out of range, write to a nil map) is the reason [Panic]
    or [None].  A [range] over a map is an arbitrary permutation of its entries,
    either quantified over ([Selection]) or a class ([MapOrder]).
    Shared pointers are positions in a list; machine integers are [Z] with their
    wrap-around written out where the code can reach it ([EntryQueue], [Staging]);
    goroutines are threads whose every atomic access is one step.

    Fuel: [find_root] has the length of the parent array and [visit] the number
    of entries plus one, both proved enough; [levelPasses] runs the bounded number
    of passes of the source and the bound is proved enough; [pow2_loop] has the 62
    steps its doubling can take; [advance] has the number of released spans;
    [tarjanSCC] recurses at most once per vertex and an upward walk at most once
    per byte of its path, both proved enough; the halving search has the 64 steps
    of an [int]; [Match] and its loops have the length of the pattern and
    [directoriesAbove] that of the path, proved enough; [parseLines] has the
    length of the data (every line takes a byte) and [visitValue] that of the
    record ([visit_fuel_enough]); a capture makes the three attempts of the source; a
    walk over links follows at most the 40 links the kernel follows, and
    [EvalSymlinks] the 255 of the Go library.  The windows of a list need its
    length, the chunks of a blob its bytes, both proved enough.  The pool of uploads and
    the index drain have no fuel: they are step functions, and every schedule of them ends
    ([pool_terminates], [index_drain_terminates]).

    Code outside the repository is a class or a section variable: the schema
    package ([IndexFormat.SchemaLib]), the Go, TypeScript and JSON parsers of the
    code graph ([CodeImports.ParseLib]), JSON, SHA-256 and the codec of retained
    unknown evidence ([Projection.EvidenceLib]), the random allocator
    ([ProjectionIdentity.RefAllocator]), URL parsing and lower-casing
    ([Selection]), the size of an encoded payload ([ServedBounds.DetailJson]), and
    the file system, git, YAML and the schema's remote labels
    ([AutoPublish.AutoPublishLib], [RepositoryLib], [YamlLib]), JSON and SHA-256 of
    Codex records ([CodexRecords.CodexJson]), the preparation of a record
    ([CodexReplay.CodexPrepare]), the canonical thinking levels
    ([ThinkingLevel.ThinkingLib]), and the schema's operations, the redactor and the
    builders of published documents ([PushSession.SchemaPublish], [ContentBuilder]).  Diagnostics keep their code and their data, not
    their prose.  The hypotheses on them are documented facts of those packages
    (an empty reference is invalid, the two tool entry types differ); each theorem
    that has one has a witness on a concrete instance.

    ** Not modelled

    The HTTP server and API clients, the SQLite stores and migrations, the
    terminal UI, the redaction engines and the redaction of entries, the construction of
    pushed content and metadata, annotations and collective sharing, the code map service, metrics,
    the git process, export, salts, file locks, process and browser helpers and the test
    kits: each is listed in the manifest with its reason, most of them because
    they are I/O around a library the sources only call.  Of the ingest package
    the per-harness parsers, the resolution of a Codex
    authority on disk, the preparation of a Codex record for unknown evidence, the
    Codex provenance classifier and the pipeline driver are not modelled yet. *)
From stdpp Require Export base decidable option list sorting gmap strings fin_maps relations.
From Stdlib Require Export ZArith Lia.

(** ** Scopes and notation *)

Declare Scope peasant_scope.
Delimit Scope peasant_scope with peasant.
Global Open Scope peasant_scope.

(** ** Machine integers *)

(** The two's complement reading of an [int64] sum or product. *)
Definition i64 (x : Z) : Z := ((x + 2 ^ 63) mod 2 ^ 64 - 2 ^ 63)%Z.

Lemma i64_small x : (- 2 ^ 63 ≤ x < 2 ^ 63)%Z → i64 x = x.
Proof. intros. unfold i64. rewrite Z.mod_small by lia. lia. Qed.

(** ** Fallible computations: a Go function returning [error] *)

Inductive result (E A : Type) : Type :=
  | Ok (a : A)
  | Err (e : E).
Arguments Ok {E A} a.
Arguments Err {E A} e.

Definition res_bind {E A B} (m : result E A) (k : A → result E B) : result E B :=
  match m with
  | Ok a => k a
  | Err e => Err e
  end.

Notation "'let?' x ':=' m 'in' k" := (res_bind m (λ x, k))
  (at level 10, x binder, m at level 100, k at level 200) : peasant_scope.

(** [guard? c else e in k] is Go's [if !c { return e }; k]. *)
Definition res_guard {E A} (c : bool) (e : E) (k : result E A) : result E A :=
  if c then k else Err e.

Notation "'require' c 'else' e 'in' k" := (res_guard c e k)
  (at level 10, c at level 100, e at level 100, k at level 200) : peasant_scope.

Lemma res_bind_ok {E A B} (m : result E A) (k : A → result E B) b :
  res_bind m k = Ok b ↔ ∃ a, m = Ok a ∧ k a = Ok b.
Proof. destruct m; simpl; split; [by eauto|by intros (? & [= ->] & ?)|done|by intros (? & ? & ?)]. Qed.

Lemma res_guard_ok {E A} (c : bool) (e : E) (k : result E A) a :
  res_guard c e k = Ok a ↔ c = true ∧ k = Ok a.
Proof. destruct c; simpl; split; [done|by intros [_ ?]|done|by intros [? _]]. Qed.

Lemma res_seq_ok {E B} (m : result E unit) (k : unit → result E B) b :
  res_bind m k = Ok b ↔ m = Ok tt ∧ k tt = Ok b.
Proof. rewrite res_bind_ok. split; [by intros ([] & ? & ?)|by intros [? ?]; exists tt]. Qed.

(** A Go loop that validates every element and stops at the first error. *)
Fixpoint res_iter {E A} (f : nat → A → result E unit) (i : nat) (l : list A) : result E unit :=
  match l with
  | [] => Ok tt
  | x :: l => let? _u := f i x in res_iter f (S i) l
  end.

Lemma res_iter_ok {E A} (f : nat → A → result E unit) i l :
  res_iter f i l = Ok tt ↔ ∀ j x, l !! j = Some x → f (i + j) x = Ok tt.
Proof.
  revert i. induction l as [|x l IH]; intros i; simpl; [naive_solver|].
  rewrite res_bind_ok. setoid_rewrite IH. split.
  - intros ([] & Hx & Hl) [|j] y ?; simplify_eq/=; [by rewrite Nat.add_0_r|].
    rewrite <- Nat.add_succ_comm. by apply (Hl j).
  - intros H. exists tt. split; [rewrite <- (Nat.add_0_r i); by apply (H 0)|].
    intros j y Hy. rewrite Nat.add_succ_comm. by apply (H (S j)).
Qed.

(** A Go loop that threads state through validated elements. *)
Fixpoint res_fold {E A St} (f : nat → St → A → result E St) (i : nat) (s : St) (l : list A) : result E St :=
  match l with
  | [] => Ok s
  | x :: l => let? s := f i s x in res_fold f (S i) s l
  end.

(** A loop that checks each element, rejects a key seen before and records the
    new keys: [has] reads the recorded keys off the state. *)
Section collect.
Context {E A St K : Type} (f : nat → St → A → result E St).
Context (ok : nat → A → Prop) (keys : A → list K) (add : St → A → St) (has : St → K → Prop).
Hypothesis f_ok : ∀ i s x s',
  f i s x = Ok s' ↔ ok i x ∧ (∀ k, k ∈ keys x → ¬ has s k) ∧ s' = add s x.
Hypothesis has_add : ∀ s x k, has (add s x) k ↔ has s k ∨ k ∈ keys x.
Hypothesis keys_NoDup : ∀ i x, ok i x → NoDup (keys x).

Lemma collect_has s l k : has (foldl add s l) k ↔ has s k ∨ k ∈ l ≫= keys.
Proof.
  clear keys_NoDup f_ok ok f. revert s. induction l as [|x l IH]; intros s; csimpl; [set_solver|].
  rewrite IH, has_add, elem_of_app. tauto.
Qed.

Lemma collect_ok i s l s' :
  res_fold f i s l = Ok s' ↔
  (∀ j x, l !! j = Some x → ok (i + j) x) ∧ NoDup (l ≫= keys) ∧
  (∀ k, k ∈ l ≫= keys → ¬ has s k) ∧ s' = foldl add s l.
Proof.
  revert i s. induction l as [|x l IH]; intros i s; csimpl.
  - split; [intros [= ->]|by intros (_ & _ & _ & ->)]. split_and!; [done|constructor|set_solver|done].
  - rewrite res_bind_ok. split.
    + intros (s1 & (Hx & Hfresh & ->)%f_ok & (Hl & Hnd & Hnew & ->)%IH). split_and!; [| | |done].
      * intros [|j] y Hy; simplify_eq/=; [by rewrite Nat.add_0_r|]. rewrite Nat.add_succ_r. by apply (Hl j).
      * apply NoDup_app. split_and!; [by eapply keys_NoDup| |done]. intros k Hk Hk'. apply (Hnew k Hk'), has_add. by right.
      * intros k [Hk|Hk]%elem_of_app; [auto|]. intros Hs. apply (Hnew k Hk), has_add. by left.
    + intros (Hl & (_ & Hdis & Hnd)%NoDup_app & Hnew & ->). exists (add s x). split.
      * apply f_ok. split_and!; [|set_solver|done]. specialize (Hl 0 x eq_refl). by rewrite Nat.add_0_r in Hl.
      * apply IH. split_and!; [| done | |done].
        -- intros j y Hy. specialize (Hl (S j) y Hy). by rewrite Nat.add_succ_r in Hl.
        -- intros k Hk [Hs|Hx]%has_add; [|by apply (Hdis k)]. apply (Hnew k); set_solver.
Qed.

(** The common case: a loop from an empty record, whose result is dropped. *)
Lemma collect_validates (P : A → Prop) s l :
  (∀ i x, ok i x ↔ P x) → (∀ k, ¬ has s k) →
  (∃ s', res_fold f 0 s l = Ok s') ↔ (∀ x, x ∈ l → P x) ∧ NoDup (l ≫= keys).
Proof.
  intros HP Hs. setoid_rewrite collect_ok. split.
  - intros (s' & Hl & Hnd & _). split; [|done]. intros x [j Hj]%list_elem_of_lookup. by apply (HP (0 + j)), Hl.
  - intros [Hl Hnd]. eexists. split_and!; [|done|by intros k _|done].
    intros j x Hj. apply HP, Hl. by eapply list_elem_of_lookup_2.
Qed.
End collect.

(** Keys of two kinds are distinct when each kind is. *)
Lemma NoDup_two_keys {A K L} (f : A → K) (g : A → list L) l :
  NoDup (l ≫= λ x, inl (f x) :: (inr <$> g x)) ↔ NoDup (f <$> l) ∧ NoDup (l ≫= g).
Proof.
  assert (∀ l k, inl k ∈ (l ≫= λ x, inl (f x) :: (inr <$> g x)) ↔ k ∈ f <$> l) as Hl.
  { intros l' k. rewrite list_elem_of_bind, list_elem_of_fmap. split.
    - intros (x & [[= ->]|(? & [=] & _)%list_elem_of_fmap]%elem_of_cons & ?). eauto.
    - intros (x & -> & ?). exists x. split; [by left|done]. }
  assert (∀ l k, inr k ∈ (l ≫= λ x, inl (f x) :: (inr <$> g x)) ↔ k ∈ l ≫= g) as Hr.
  { intros l' k. rewrite !list_elem_of_bind. split.
    - intros (x & [[=]|(? & [= ->] & ?)%list_elem_of_fmap]%elem_of_cons & ?). eauto.
    - intros (x & ? & ?). exists x. split; [|done]. right. by apply list_elem_of_fmap_2. }
  induction l as [|x l IH]; csimpl; [by split; [split; constructor|constructor]|].
  rewrite !NoDup_cons, !NoDup_app, IH, elem_of_app, Hl. setoid_rewrite list_elem_of_fmap.
  assert (NoDup (inr <$> g x : list (K + L)) ↔ NoDup (g x)) as Hx.
  { split; [by intros ?%NoDup_fmap_1|]. intros. by apply NoDup_fmap_2; [congruence|]. }
  split.
  - intros (Hk & (? & Hdis & ? & ?)). split_and!; [| done|tauto| |done].
    + intros ?. apply Hk. by right.
    + intros k Hk1 Hk2. eapply Hdis; [by eexists|]. by apply Hr.
  - intros ((Hk & ?) & (? & Hdis & ?)). split_and!; [| tauto| |done|done].
    + intros [(y & [=] & _)|?]; done.
    + intros k (y & -> & Hy) Hin%Hr. by eapply Hdis.
Qed.

Lemma bind_singleton {A B} (f : A → B) (l : list A) : (l ≫= λ x, [f x]) = f <$> l.
Proof. induction l as [|x l IH]; csimpl; [done|]. by rewrite IH. Qed.

(** The same with a set of keys as the record. *)
Section collect_set.
Context {E A K : Type} `{Countable K} (f : nat → gset K → A → result E (gset K)).
Context (ok : nat → A → Prop) (keys : A → list K).
Hypothesis f_ok : ∀ i s x s',
  f i s x = Ok s' ↔ ok i x ∧ (∀ k, k ∈ keys x → k ∉ s) ∧ s' = list_to_set (keys x) ∪ s.
Hypothesis keys_NoDup : ∀ i x, ok i x → NoDup (keys x).

Lemma collect_set_ok i s l s' :
  res_fold f i s l = Ok s' ↔
  (∀ j x, l !! j = Some x → ok (i + j) x) ∧ NoDup (l ≫= keys) ∧
  (∀ k, k ∈ l ≫= keys → k ∉ s) ∧ s' = list_to_set (l ≫= keys) ∪ s.
Proof.
  rewrite (collect_ok f ok keys (λ s x, list_to_set (keys x) ∪ s) (λ s k, k ∈ s)); [|done|set_solver|done].
  assert (foldl (λ s x, list_to_set (keys x) ∪ s) s l = list_to_set (l ≫= keys) ∪ s) as ->; [|done].
  clear. revert s. induction l as [|x l IH]; intros s; csimpl; [set_solver|]. rewrite IH. set_solver.
Qed.

Lemma collect_set_validates (P : A → Prop) l s' :
  (∀ i x, ok i x ↔ P x) →
  res_fold f 0 ∅ l = Ok s' ↔ (∀ x, x ∈ l → P x) ∧ NoDup (l ≫= keys) ∧ s' = list_to_set (l ≫= keys).
Proof.
  intros HP. rewrite collect_set_ok, union_empty_r_L. split.
  - intros (Hl & ? & _ & ->). split_and!; [|done|done]. intros x [j Hj]%list_elem_of_lookup. by apply (HP (0 + j)), Hl.
  - intros (Hl & ? & ->). split_and!; [|done|set_solver|done].
    intros j x Hj. apply HP, Hl. by eapply list_elem_of_lookup_2.
Qed.
End collect_set.

(** A loop that only tracks the last value validates a strictly ascending list. *)
Lemma res_fold_ascending {E A} (f : nat → Z → A → result E Z) (P : A → Prop) (ord : A → Z) :
  (∀ i p x p', f i p x = Ok p' ↔ P x ∧ (p < ord x)%Z ∧ p' = ord x) →
  ∀ l i p, (∃ p', res_fold f i p l = Ok p') ↔
    (∀ x, x ∈ l → P x) ∧ StronglySorted Z.lt (ord <$> l) ∧ Forall (Z.lt p) (ord <$> l).
Proof.
  intros Hf. induction l as [|x l IH]; intros i p; csimpl.
  { split; [|by eauto]. intros _. split_and!; [set_solver|constructor|constructor]. }
  setoid_rewrite res_bind_ok. split.
  - intros (p' & q & (Hx & Hp & ->)%Hf & Hrest).
    assert (∃ p', res_fold f (S i) (ord x) l = Ok p') as (Hl & Hs & Hq)%IH by eauto.
    split_and!; [set_solver|by constructor|]. constructor; [done|]. eapply Forall_impl; [done|]. simpl. lia.
  - intros (Hl & Hs & Hq). inversion Hs; subst. inversion Hq; subst.
    destruct (proj2 (IH (S i) (ord x))) as [p' Hp']; [set_solver|]. exists p', (ord x). split; [|done].
    apply Hf. set_solver.
Qed.

(** ** Booleans *)

Ltac bool_prop :=
  repeat match goal with
  | H : _ && _ = true |- _ => apply andb_true_iff in H as [? ?]
  | H : _ || _ = false |- _ => apply orb_false_iff in H as [? ?]
  | H : negb _ = true |- _ => apply negb_true_iff in H
  | H : negb _ = false |- _ => apply negb_false_iff in H
  | H : bool_decide _ = true |- _ => apply bool_decide_eq_true in H
  | H : bool_decide _ = false |- _ => apply bool_decide_eq_false in H
  end.

(** ** The automation database of the development *)

Create HintDb peasant.
Create Rewrite HintDb peasant_rw.
#[export] Hint Rewrite @res_bind_ok @res_guard_ok : peasant_rw.

(** ** Lists *)

Lemma filter_nil_iff {A} (P : A → Prop) `{!∀ x, Decision (P x)} l :
  filter P l = [] ↔ ∀ x, x ∈ l → ¬ P x.
Proof.
  split.
  - intros Hnil x Hx HP. assert (x ∈ filter P l) by (by apply list_elem_of_filter).
    rewrite Hnil in *. set_solver.
  - intros Hno. induction l as [|x l IH]; [by rewrite filter_nil|].
    rewrite filter_cons, decide_False by set_solver. apply IH. set_solver.
Qed.

Lemma filter_not_nil_iff {A} (P : A → Prop) `{!∀ x, Decision (P x)} l :
  filter P l ≠ [] ↔ ∃ x, x ∈ l ∧ P x.
Proof.
  split.
  - intros Hne. destruct (filter P l) as [|x k] eqn:E; [done|].
    assert (x ∈ filter P l) as Hx%list_elem_of_filter by (rewrite E; set_solver). naive_solver.
  - intros (x & Hx & HP) Hnil. by apply (filter_nil_iff P l) with x in Hnil.
Qed.

(** Filters that agree on the elements of the list. *)
Lemma filter_ext_elem {A} (P Q : A → Prop) `{!∀ x, Decision (P x), !∀ x, Decision (Q x)} (l : list A) :
  (∀ x, x ∈ l → P x ↔ Q x) → filter P l = filter Q l.
Proof.
  induction l as [|x l IH]; intros HPQ; [done|]. rewrite !filter_cons, IH by set_solver.
  destruct (HPQ x) as [??]; [by left|]. repeat case_decide; tauto.
Qed.

(** Replacing one element replaces what it contributes to an [omap]. *)
Lemma omap_insert_perm {A B} (f : A → option B) (l : list A) i x y :
  l !! i = Some x → option_list (f x) ++ omap f (<[i := y]> l) ≡ₚ option_list (f y) ++ omap f l.
Proof.
  revert i. induction l as [|u l IH]; intros [|i] Hi; simplify_eq/=.
  - destruct (f x), (f y); simpl; try done. apply perm_swap.
  - destruct (f u) as [z|]; [|by apply IH]. rewrite <- !Permutation_middle. constructor. by apply IH.
Qed.

(** A symmetric relation between all pairs of elements ignores their order. *)
Fixpoint pairwise {A} (R : A → A → Prop) (l : list A) : Prop :=
  match l with [] => True | x :: l => Forall (R x) l ∧ pairwise R l end.

Lemma pairwise_perm {A} (R : A → A → Prop) l l' :
  (∀ x y, R x y → R y x) → l ≡ₚ l' → pairwise R l → pairwise R l'.
Proof.
  intros HR. induction 1 as [|x l l' Hp IH|x y l|l1 l2 l3 _ IH1 _ IH2]; simpl; [done| | |auto].
  - intros [Hx Hl]. split; [by rewrite <- Hp|auto].
  - intros (Hy & Hx & Hl). inversion Hy; subst. split_and!; [constructor; auto|done|done].
Qed.

(** With distinct keys, an element is known by its key. *)
Lemma NoDup_fmap_unique {A K} (f : A → K) l x y : NoDup (f <$> l) → x ∈ l → y ∈ l → f x = f y → x = y.
Proof.
  intros Hnd [i Hi]%list_elem_of_lookup [j Hj]%list_elem_of_lookup E.
  assert (i = j) as ->; [|congruence]. eapply (NoDup_lookup _ i j (f x) Hnd); rewrite list_lookup_fmap;
    [by rewrite Hi|by rewrite Hj, E].
Qed.

Lemma sorted_irreflexive_NoDup {A} (R : relation A) l :
  (∀ x, ¬ R x x) → StronglySorted R l → NoDup l.
Proof.
  intros Hirr. induction 1 as [|x l _ IH Hx]; constructor; [|done].
  intros Hin. by apply (Hirr x), (proj1 (Forall_forall _ _) Hx).
Qed.

Lemma not_nil_iff {A} (l : list A) : (∃ x, x ∈ l) ↔ l ≠ [].
Proof. destruct l; [set_solver|]. split; [done|]. intros _. eexists. by left. Qed.

Lemma nil_iff_not_elem {A} (l : list A) : l = [] ↔ ∀ x, x ∉ l.
Proof. split; [set_solver|]. intros Hno. by apply elem_of_nil_inv. Qed.

(** ** Loops that fill a map *)

(** A loop whose every step writes at most one key of a map, the value being a
    function of the key. *)
Lemma written_map {E X St K V} `{Countable K} (f : nat → St → X → result E St) (get : St → gmap K V)
    (kv : X → option (K * V)) :
  (∀ i s x s', f i s x = Ok s' → get s' = match kv x with Some (k, v) => <[k := v]> (get s) | None => get s end) →
  ∀ l n s s', (∀ x y k v v', x ∈ l → y ∈ l → kv x = Some (k, v) → kv y = Some (k, v') → v = v') →
  res_fold f n s l = Ok s' →
  (∀ x k v, x ∈ l → kv x = Some (k, v) → get s' !! k = Some v) ∧
  (∀ k, (∀ x v, x ∈ l → kv x ≠ Some (k, v)) → get s' !! k = get s !! k).
Proof.
  intros Hf. induction l as [|x l IH]; intros n s s' Hfun Hfold; simpl in Hfold.
  { simplify_eq. split; [set_solver|done]. }
  apply res_bind_ok in Hfold as (s1 & H1 & Hrest). apply Hf in H1.
  destruct (IH (S n) s1 s') as [Hin Hout]; [|done|].
  { intros y z k v v' Hy Hz. apply Hfun; by right. }
  assert (∀ k v, (∀ y v', y ∈ l → kv y = Some (k, v') → v' = v) → get s1 !! k = Some v → get s' !! k = Some v) as Hkeep.
  { intros k v Hsame Hs1. destruct (decide (Exists (λ y, kv y ≫= (λ p, Some p.1) = Some k) l)) as [He|Hne].
    - apply Exists_exists in He as (y & Hy & Hk). destruct (kv y) as [[k' v']|] eqn:Ey; simplify_eq/=.
      rewrite (Hin y k v' Hy Ey). f_equal. by eapply Hsame.
    - rewrite Hout; [done|]. intros y v' Hy Ey. apply Hne, Exists_exists. exists y. by rewrite Ey. }
  split.
  - intros y k v [->|Hy]%elem_of_cons Hkv; [|by eapply Hin]. apply Hkeep; [|by rewrite H1, Hkv, lookup_insert_eq].
    intros z v' Hz Hkv'. eapply (Hfun z x); [by right|by left|done|done].
  - intros k Hno. rewrite Hout by (intros y v Hy; apply Hno; by right). rewrite H1.
    destruct (kv x) as [[k' v']|] eqn:Ex; [|done]. rewrite lookup_insert_ne; [done|]. intros ->.
    by apply (Hno x v'); [left|].
Qed.

(** ** Relations *)

Lemma tc_first {A} (R : relation A) x y : tc R x y → ∃ z, R x z ∧ rtc R z y.
Proof. destruct 1; eauto using rtc_refl, tc_rtc. Qed.

Lemma tc_last {A} (R : relation A) x y : tc R x y → ∃ z, rtc R x z ∧ R z y.
Proof.
  induction 1 as [x y Hxy|x y z Hxy _ (w & Hyw & Hwz)]; eauto using rtc_refl, rtc_l.
Qed.

(** A path: consecutive elements are related. *)
Definition path_of {A} (R : relation A) (l : list A) : Prop :=
  ∀ i a b, l !! i = Some a → l !! S i = Some b → R a b.

Lemma path_of_tc {A} (R : relation A) l i j a b :
  path_of R l → i < j → l !! i = Some a → l !! j = Some b → tc R a b.
Proof.
  intros Hp Hij. revert b. induction Hij as [|j Hij IH]; intros b Ha Hb; [apply tc_once; by eapply Hp|].
  destruct (lookup_lt_is_Some_2 l j) as [c Hc]; [apply lookup_lt_Some in Hb; lia|].
  eapply tc_r; [by apply IH|]. by eapply Hp.
Qed.

(** A path with more elements than there are positions runs into a cycle. *)
Lemma path_of_cycle (R : relation nat) n l :
  path_of R l → (∀ i, i ∈ l → i < n) → n < length l → ∃ i, tc R i i.
Proof.
  intros Hp Hlt Hlen. destruct (decide (NoDup l)) as [Hnd|Hnd].
  - assert (length l ≤ length (seq 0 n)); [|rewrite length_seq in *; lia].
    apply submseteq_length, NoDup_submseteq; [done|]. intros i Hi. apply elem_of_seq.
    specialize (Hlt i Hi). lia.
  - assert (∃ i j a, i < j ∧ l !! i = Some a ∧ l !! j = Some a) as (i & j & a & Hij & Hi & Hj).
    { clear Hp Hlt Hlen. induction l as [|x l IH]; [destruct Hnd; constructor|].
      rewrite NoDup_cons in Hnd. destruct (decide (x ∈ l)) as [Hx|Hx].
      - apply list_elem_of_lookup in Hx as [j Hj]. exists 0, (S j), x. split_and!; [lia|done|done].
      - destruct IH as (i & j & a & ? & ? & ?); [tauto|]. exists (S i), (S j), a. split_and!; [lia|done|done]. }
    exists a. by eapply path_of_tc.
Qed.

(** ** Runs of a nondeterministic machine: a schedule of actions *)

Section runs.
Context {St Act : Type} (step : St → Act → option St).

Fixpoint run_steps (s : St) (acts : list Act) : option St :=
  match acts with
  | [] => Some s
  | a :: acts => s' ← step s a; run_steps s' acts
  end.

Lemma run_steps_app s l1 l2 : run_steps s (l1 ++ l2) = s' ← run_steps s l1; run_steps s' l2.
Proof. revert s. induction l1 as [|a l1 IH]; intros s; simpl; [done|]. destruct (step s a); simpl; auto. Qed.

Lemma run_steps_inv (I : St → Prop) s acts s' :
  (∀ s a s', I s → step s a = Some s' → I s') → I s → run_steps s acts = Some s' → I s'.
Proof.
  intros Hstep. revert s. induction acts as [|a acts IH]; intros s Hs Hr; simplify_eq/=; [done|].
  destruct (step s a) as [s1|] eqn:E; simplify_eq/=. eapply IH; [|done]. by eapply Hstep.
Qed.

(** A measure that every action decreases bounds the length of every run. *)
Lemma run_steps_bound (I : St → Prop) (m : St → nat) s acts s' :
  (∀ s a s', I s → step s a = Some s' → I s' ∧ m s' < m s) → I s → run_steps s acts = Some s' →
  length acts + m s' ≤ m s.
Proof.
  intros Hstep. revert s. induction acts as [|a acts IH]; intros s Hs Hr; simplify_eq/=; [done|].
  destruct (step s a) as [s1|] eqn:E; simplify_eq/=. destruct (Hstep _ _ _ Hs E) as [Hs1 Hm].
  specialize (IH _ Hs1 Hr). lia.
Qed.
End runs.

(** ** Integers *)

(** Positions of a ring that agree modulo its size and are closer than it are equal. *)
Lemma Z_mod_window (A a b : Z) :
  (0 < A → a mod A = b mod A → - A < a - b < A → a = b)%Z.
Proof.
  intros HA Hm Hd. pose proof (Z.div_mod a A ltac:(lia)). pose proof (Z.div_mod b A ltac:(lia)).
  assert (a / A = b / A)%Z by nia. nia.
Qed.

(** ** Ranges over maps *)

(** The order in which a [range] over a map meets its entries: any permutation. *)
Class MapOrder := {
  range_str : ∀ {A}, gmap string A → list (string * A);
  range_nat : ∀ {A}, gmap nat A → list (nat * A);
  range_str_perm : ∀ A (m : gmap string A), range_str m ≡ₚ map_to_list m;
  range_nat_perm : ∀ A (m : gmap nat A), range_nat m ≡ₚ map_to_list m;
}.

Lemma elem_of_range_str `{MapOrder} {B} (m : gmap string B) k v : (k, v) ∈ range_str m ↔ m !! k = Some v.
Proof. by rewrite range_str_perm, elem_of_map_to_list. Qed.

(** One order, for examples. *)
Definition demoOrder : MapOrder := {|
  range_str A m := map_to_list m;
  range_nat A m := map_to_list m;
  range_str_perm A m := reflexivity _;
  range_nat_perm A m := reflexivity _;
|}.
