(* ===== verification/GoStrings.v ===== *)
(** * Go's [strings] and [path/filepath] on byte strings

    The part of Go's standard library the modelled packages use, on
    [String.string] read as Go's immutable byte string.  Unicode white space
    (the [unicode.White_Space] property behind [strings.TrimSpace]) is matched
    on its UTF-8 encodings, as [utf8.DecodeRune] and [utf8.DecodeLastRune]
    see it.  [filepath] is the Unix flavour. *)
From S2P Require Import Prelude.
From Stdlib Require Import Ascii String.
Local Open Scope string_scope.

Definition byte (n : N) : ascii := ascii_of_N n.

Definition str1 (c : ascii) : string := String c EmptyString.

(** The UTF-8 encoding of a code point below 2^16 (all white space is). *)
Definition utf8_encode (r : N) : string :=
  (if decide (r < 128) then str1 (byte r)
  else if decide (r < 2048) then
    String (byte (192 + r / 64)) (str1 (byte (128 + r mod 64)))
  else
    String (byte (224 + r / 4096))
      (String (byte (128 + (r / 64) mod 64)) (str1 (byte (128 + r mod 64)))))%N.

(** [unicode.IsSpace]. *)
Definition space_runes : list N :=
  [9; 10; 11; 12; 13; 32; 133; 160; 5760; 8192; 8193; 8194; 8195; 8196; 8197;
   8198; 8199; 8200; 8201; 8202; 8232; 8233; 8239; 8287; 12288]%N.

(** [strings.CutPrefix]. *)
Fixpoint cut_prefix (p s : string) : option string :=
  match p, s with
  | EmptyString, _ => Some s
  | String a p, String b s => if decide (a = b) then cut_prefix p s else None
  | String _ _, EmptyString => None
  end.

Definition HasPrefix (s p : string) : bool :=
  match cut_prefix p s with Some _ => true | None => false end.

Fixpoint cut_any (ps : list string) (s : string) : option string :=
  match ps with
  | [] => None
  | p :: ps => match cut_prefix p s with Some r => Some r | None => cut_any ps s end
  end.

(** Strip members of [ps] from the front as long as one matches; every
    stripped prefix is nonempty, so the string's length is enough fuel. *)
Fixpoint strip_all (fuel : nat) (ps : list string) (s : string) : string :=
  match fuel with
  | O => s
  | S fuel => match cut_any ps s with Some r => strip_all fuel ps r | None => s end
  end.

Definition str_rev (s : string) : string := string_of_list_ascii (rev (list_ascii_of_string s)).

Definition trim_front (ps : list string) (s : string) : string := strip_all (String.length s) ps s.
Definition trim_back (ps : list string) (s : string) : string :=
  str_rev (trim_front (str_rev <$> ps) (str_rev s)).

Definition space_strings : list string := Eval vm_compute in utf8_encode <$> space_runes.

(** [strings.TrimSpace]. *)
Definition TrimSpace (s : string) : string := trim_back space_strings (trim_front space_strings s).

(** [strings.TrimLeft] and [strings.Trim] with an ASCII cutset. *)
Definition TrimLeft (s cutset : string) : string :=
  trim_front (str1 <$> list_ascii_of_string cutset) s.
Definition Trim (s cutset : string) : string :=
  let cs := str1 <$> list_ascii_of_string cutset in trim_back cs (trim_front cs s).

(** [strings.TrimSuffix]. *)
Definition TrimSuffix (s suf : string) : string :=
  match cut_prefix (str_rev suf) (str_rev s) with Some r => str_rev r | None => s end.

(** [strings.Index] of one byte. *)
Fixpoint IndexByte (s : string) (c : ascii) : option nat :=
  match s with
  | EmptyString => None
  | String a s => if decide (a = c) then Some 0 else S <$> IndexByte s c
  end.

Definition ContainsByte (s : string) (c : ascii) : bool :=
  match IndexByte s c with Some _ => true | None => false end.

(** [s[:n]] and [s[n:]]. *)
Fixpoint str_take (n : nat) (s : string) : string :=
  match n, s with
  | S n, String a s => String a (str_take n s)
  | _, _ => EmptyString
  end.
Fixpoint str_drop (n : nat) (s : string) : string :=
  match n, s with
  | S n, String _ s => str_drop n s
  | _, _ => s
  end.

(** ** [unicode/utf8] *)

Definition between (lo hi : N) (c : ascii) : bool := (lo <=? N_of_ascii c)%N && (N_of_ascii c <=? hi)%N.
Definition continuation : ascii → bool := between 128 191.

(** [utf8.ValidString]: the well-formed byte sequences of the Unicode standard,
    so no overlong form, no surrogate and nothing above U+10FFFF. *)
Fixpoint ValidString (s : string) : bool :=
  match s with
  | EmptyString => true
  | String a s1 =>
    if between 0 127 a then ValidString s1
    else match s1 with
    | EmptyString => false
    | String b s2 =>
      if between 194 223 a then continuation b && ValidString s2
      else match s2 with
      | EmptyString => false
      | String c s3 =>
        if between 224 239 a then
          between (if decide (a = byte 224) then 160 else 128) (if decide (a = byte 237) then 159 else 191) b
          && continuation c && ValidString s3
        else match s3 with
        | EmptyString => false
        | String d s4 =>
          between 240 244 a
          && between (if decide (a = byte 240) then 144 else 128) (if decide (a = byte 244) then 143 else 191) b
          && continuation c && continuation d && ValidString s4
        end
      end
    end
  end.

Definition two_byte (a b : ascii) : bool := (between 194 223 a && continuation b)%N.
Definition three_byte (a b c : ascii) : bool :=
  (between 224 239 a
  && between (if decide (a = byte 224) then 160 else 128) (if decide (a = byte 237) then 159 else 191) b
  && continuation c)%N.
Definition four_byte (a b c d : ascii) : bool :=
  (between 240 244 a
  && between (if decide (a = byte 240) then 144 else 128) (if decide (a = byte 244) then 143 else 191) b
  && continuation c && continuation d)%N.

(** [utf8.DecodeRuneInString]: the rune and its width; a byte that starts no
    well-formed rune is U+FFFD of width one. *)
Definition RuneError : N := 65533%N.
Definition low6 (c : ascii) : N := (N_of_ascii c mod 64)%N.

Definition DecodeRuneInString (s : string) : N * nat :=
  match s with
  | EmptyString => (RuneError, 0)
  | String a s1 =>
    let n := N_of_ascii a in
    if between 0 127 a then (n, 1)
    else match s1 with
    | EmptyString => (RuneError, 1)
    | String b s2 =>
      if two_byte a b then ((n mod 32) * 64 + low6 b, 2%nat)%N
      else match s2 with
      | EmptyString => (RuneError, 1)
      | String c s3 =>
        if three_byte a b c then ((n mod 16) * 4096 + low6 b * 64 + low6 c, 3%nat)%N
        else match s3 with
        | EmptyString => (RuneError, 1)
        | String d _ =>
          if four_byte a b c d then ((n mod 8) * 262144 + low6 b * 4096 + low6 c * 64 + low6 d, 4%nat)%N
          else (RuneError, 1)
        end
      end
    end
  end.

Example decode_runes :
  DecodeRuneInString "a" = (97%N, 1) ∧ DecodeRuneInString (utf8_encode 233) = (233%N, 2) ∧
  DecodeRuneInString (utf8_encode 8364 +:+ "x") = (8364%N, 3) ∧ DecodeRuneInString (str1 (byte 200)) = (RuneError, 1).
Proof. by vm_compute. Qed.

(** ** [path/filepath] on Unix *)

Definition slash : ascii := "/"%char.
Definition backslash : ascii := "\"%char.

(** [strings.Split] on one byte. *)
Fixpoint split_on (c : ascii) (s : string) : list string :=
  match s with
  | EmptyString => [EmptyString]
  | String a s =>
      if decide (a = c) then EmptyString :: split_on c s
      else match split_on c s with
           | w :: ws => String a w :: ws
           | [] => [str1 a]
           end
  end.

Definition IsAbs (p : string) : bool := HasPrefix p "/".

(** One path element of [filepath.Clean]; [acc] holds the output elements in
    reverse.  A [..] backtracks over a real element, is dropped at the root
    and is kept at the front of a relative path. *)
Definition clean_step (rooted : bool) (acc : list string) (e : string) : list string :=
  if decide (e = "") then acc
  else if decide (e = ".") then acc
  else if decide (e = "..") then
    match acc with
    | [] => if rooted then [] else [".."]
    | a :: acc' => if decide (a = "..") then ".." :: acc else acc'
    end
  else e :: acc.

Definition clean_elements (rooted : bool) (es : list string) : list string :=
  rev (foldl (clean_step rooted) [] es).

Definition join_slash (es : list string) : string := String.concat "/" es.

(** [filepath.Clean]. *)
Definition Clean (p : string) : string :=
  if decide (p = "") then "."
  else
    let rooted := IsAbs p in
    let es := clean_elements rooted (split_on slash p) in
    if rooted then String slash (join_slash es)
    else match es with [] => "." | _ => join_slash es end.

(** [filepath.Base]. *)
Definition Base (p : string) : string :=
  if decide (p = "") then "."
  else
    let p := trim_back ["/"] p in
    if decide (p = "") then "/" else default "" (last (split_on slash p)).

Example clean_backtracks : Clean "/a/b/../c/./d//" = "/a/c/d".
Proof. reflexivity. Qed.
Example clean_relative : Clean "a/../../b" = "../b".
Proof. reflexivity. Qed.
Example base_trailing : Base "/home/u/project///" = "project".
Proof. reflexivity. Qed.
Example trim_space_unicode :
  TrimSpace (utf8_encode 8195 +:+ " main" +:+ utf8_encode 160) = "main".
Proof. reflexivity. Qed.
Example valid_utf8 :
  ValidString (utf8_encode 233 +:+ utf8_encode 8364 +:+ "x") = true ∧
  ValidString (String (byte 192) (str1 (byte 128))) = false ∧
  ValidString (String (byte 237) (String (byte 160) (str1 (byte 128)))) = false.
Proof. by vm_compute. Qed.

(** ** Splitting and joining *)

Lemma split_on_not_nil c s : split_on c s ≠ [].
Proof. destruct s as [|a s]; simpl; [done|]. case_decide; [done|]. by destruct (split_on c s). Qed.

Lemma str_app_cons a s t : String a s +:+ t = String a (s +:+ t).
Proof. done. Qed.

Lemma split_on_app c a b : split_on c (a +:+ String c b) = (split_on c a ++ split_on c b)%list.
Proof.
  induction a as [|x a IH]; [change (EmptyString +:+ String c b) with (String c b); simpl; by rewrite decide_True|].
  rewrite str_app_cons. simpl. case_decide; [by rewrite IH|]. rewrite IH.
  pose proof (split_on_not_nil c a). by destruct (split_on c a).
Qed.

Lemma str_app_nil (s : string) : s +:+ "" = s.
Proof. induction s as [|a s IH]; [done|]. by rewrite str_app_cons, IH. Qed.

Lemma str_nil_app (s : string) : "" +:+ s = s.
Proof. done. Qed.

Lemma str_app_assoc (a b c : string) : (a +:+ b) +:+ c = a +:+ (b +:+ c).
Proof. induction a as [|x a IH]; [done|]. by rewrite !str_app_cons, IH. Qed.

Lemma str_length_app s t : String.length (s +:+ t) = (String.length s + String.length t)%nat.
Proof. induction s as [|c s IH]; [done|]. rewrite str_app_cons. simpl. by rewrite IH. Qed.

Lemma join_cons e es : es ≠ [] → join_slash (e :: es) = e +:+ String slash (join_slash es).
Proof. by destruct es. Qed.

Lemma join_split s : join_slash (split_on slash s) = s.
Proof.
  induction s as [|a s IH]; [done|]. simpl. pose proof (split_on_not_nil slash s) as Hne. case_decide as Ha; subst.
  - rewrite join_cons by done. by rewrite IH.
  - destruct (split_on slash s) as [|w ws]; [done|]. destruct ws; [change (w = s) in IH; by rewrite IH|].
    rewrite join_cons by done. rewrite join_cons in IH by done. by rewrite str_app_cons, IH.
Qed.

Fixpoint byte_free (c : ascii) (s : string) : Prop :=
  match s with EmptyString => True | String a s => a ≠ c ∧ byte_free c s end.

Lemma split_on_free c s : byte_free c s → split_on c s = [s].
Proof. induction s as [|a s IH]; simpl; [done|]. intros [? ?]. rewrite decide_False by done. by rewrite IH. Qed.

Lemma split_join es : es ≠ [] → (∀ e, e ∈ es → byte_free slash e) → split_on slash (join_slash es) = es.
Proof.
  induction es as [|e es IH]; [done|]. intros _ Hf. destruct es as [|e' es].
  - simpl. apply split_on_free. set_solver.
  - rewrite join_cons by done. rewrite split_on_app, split_on_free by set_solver. rewrite IH by set_solver. done.
Qed.

Lemma split_elem_free c s e : e ∈ split_on c s → byte_free c e.
Proof.
  revert e. induction s as [|a s IH]; simpl; [set_solver|]. intros e.
  case_decide as Ha; [intros [->|?]%elem_of_cons; [done|auto]|].
  destruct (split_on c s) as [|w ws]; [intros [->|Hn]%elem_of_cons; [by split|by apply not_elem_of_nil in Hn]|].
  intros [->|?]%elem_of_cons; [|apply IH; set_solver]. split; [done|]. apply IH. by left.
Qed.

Lemma ContainsByte_free s c : ContainsByte s c = false ↔ byte_free c s.
Proof.
  unfold ContainsByte. induction s as [|a s IH]; simpl; [done|].
  case_decide; [split; [done|by intros [? _]]|]. destruct (IndexByte s c); simpl in *; naive_solver.
Qed.

Lemma byte_free_app c a b : byte_free c (a +:+ b) ↔ byte_free c a ∧ byte_free c b.
Proof. induction a as [|x a IH]; [by split; [|intros [_ ?]]|]. rewrite str_app_cons. simpl. rewrite IH. tauto. Qed.

Lemma byte_free_join c es : c ≠ slash → byte_free c (join_slash es) ↔ ∀ e, e ∈ es → byte_free c e.
Proof.
  intros Hc. induction es as [|e es IH]; [split; [set_solver|done]|]. destruct es as [|e' es].
  - simpl. set_solver.
  - rewrite join_cons by done. rewrite byte_free_app. simpl byte_free. rewrite IH. set_solver.
Qed.

(** ** Canonical relative paths *)

(** A path element that names a real entry of a directory. *)
Definition plain_element (e : string) : Prop := e ≠ "" ∧ e ≠ "." ∧ e ≠ "..".

Lemma clean_step_plain rooted acc e : plain_element e → clean_step rooted acc e = e :: acc.
Proof. intros (? & ? & ?). unfold clean_step. by rewrite !decide_False. Qed.

Lemma foldl_clean_plain rooted es acc :
  (∀ e, e ∈ es → plain_element e) → foldl (clean_step rooted) acc es = (rev es ++ acc)%list.
Proof.
  revert acc. induction es as [|e es IH]; intros acc Hes; simpl; [done|].
  rewrite clean_step_plain by set_solver. rewrite IH by set_solver. by rewrite <- app_assoc.
Qed.

(** Every element [Clean] keeps on a relative path is plain or a leading [..]. *)
Definition clean_acc (acc : list string) : Prop :=
  ∃ ups es, acc = (es ++ ups)%list ∧ (∀ u, u ∈ ups → u = "..") ∧ ∀ e, e ∈ es → plain_element e.

Lemma clean_step_acc acc e : clean_acc acc → clean_acc (clean_step false acc e).
Proof.
  intros (ups & es & -> & Hu & He). unfold clean_step. repeat case_decide; try (by exists ups, es).
  - destruct es as [|a es]; simpl.
    + destruct ups as [|u ups]; [exists [".."], []; set_solver|].
      rewrite decide_True by (apply Hu; by left). exists (".." :: u :: ups)%list, []. set_solver.
    + rewrite decide_False by (by destruct (He a) as (? & ? & ?); [left|]). exists ups, es. set_solver.
  - exists ups, (e :: es)%list. split_and!; [done|done|]. intros e' [->|?]%elem_of_cons; [by split_and!|auto].
Qed.

Lemma clean_elements_acc es : clean_acc (rev (clean_elements false es)).
Proof.
  unfold clean_elements. rewrite rev_involutive.
  assert (∀ acc, clean_acc acc → clean_acc (foldl (clean_step false) acc es)) as Hf.
  { induction es as [|e es IH]; intros acc Hacc; simpl; [done|]. apply IH. by apply clean_step_acc. }
  apply Hf. exists [], []. set_solver.
Qed.

Lemma cut_prefix_Some p s r : cut_prefix p s = Some r ↔ s = p +:+ r.
Proof.
  revert s. induction p as [|a p IH]; intros s; simpl.
  - split; [by intros [= ->]|by intros ->].
  - destruct s as [|b s]; [done|]. case_decide as Hab.
    + subst b. rewrite IH. split; [by intros ->|by intros [= ->]].
    + split; [done|]. by intros [= ? ?].
Qed.

Lemma HasPrefix_iff s p : HasPrefix s p = true ↔ ∃ r, s = p +:+ r.
Proof.
  unfold HasPrefix. setoid_rewrite <- cut_prefix_Some.
  destruct (cut_prefix p s); split; [by eexists|done..|by intros [? ?]].
Qed.

Lemma elem_of_rev {A} (x : A) l : x ∈ rev l ↔ x ∈ l.
Proof. rewrite !list_elem_of_In. symmetry. apply in_rev. Qed.

Lemma clean_incl rooted es acc e :
  e ∈ foldl (clean_step rooted) acc es → e ∈ acc ∨ (e ∈ es ∧ e ≠ "") ∨ e = "..".
Proof.
  revert acc. induction es as [|x es IH]; intros acc; simpl; [auto|].
  intros [Hacc|[[? ?]|?]]%IH; [|set_solver..]. unfold clean_step in Hacc.
  repeat case_decide; [by left..| |set_solver].
  destruct acc as [|a acc]; [destruct rooted; set_solver|]. case_decide; set_solver.
Qed.

Definition plain_path (r : string) : Prop :=
  ∃ es, es ≠ [] ∧ r = join_slash es ∧ ∀ e, e ∈ es → plain_element e ∧ byte_free slash e.

Lemma plain_path_split r es :
  es ≠ [] → r = join_slash es → (∀ e, e ∈ es → plain_element e ∧ byte_free slash e) → split_on slash r = es.
Proof. intros Hne -> He. apply split_join; [done|]. intros e ?. by apply He. Qed.

Lemma IsAbs_split r : IsAbs r = true ↔ ∃ t, r = String slash t.
Proof. unfold IsAbs. rewrite HasPrefix_iff. split; intros [t ->]; by exists t. Qed.

Lemma join_not_empty es : (∀ e, e ∈ es → e ≠ "") → es ≠ [] → join_slash es ≠ "".
Proof.
  intros He Hne. destruct es as [|e es]; [done|]. destruct es as [|e' es]; [apply (He e); by left|].
  rewrite join_cons by done. specialize (He e ltac:(by left)). by destruct e.
Qed.

Lemma join_app a b : a ≠ [] → b ≠ [] → join_slash (a ++ b) = join_slash a +:+ String slash (join_slash b).
Proof.
  intros Ha Hb. induction a as [|x a IH]; [done|]. destruct a as [|y a]; [by apply join_cons|].
  change ((x :: y :: a) ++ b)%list with (x :: ((y :: a) ++ b))%list. rewrite join_cons by done.
  rewrite IH, (join_cons x (y :: a)) by done. clear. induction x as [|c x IH]; [done|]. by rewrite !str_app_cons, IH.
Qed.

(** What [Clean] leaves is plain, unless it is absolute, empty or escapes. *)
Lemma Clean_plain f :
  IsAbs (Clean f) = false → Clean f ≠ "." → Clean f ≠ ".." → HasPrefix (Clean f) "../" = false → plain_path (Clean f).
Proof.
  unfold Clean at 1 2 3 4 5. case_decide as Hf; [done|]. destruct (IsAbs f) eqn:Habs; intros Ha Hdot Hup Hesc.
  { exfalso. apply not_true_iff_false in Ha. apply Ha, IsAbs_split. by eexists. }
  destruct (clean_elements_acc (split_on slash f)) as (ups & es & Heq & Hu & He).
  assert (clean_elements false (split_on slash f) = (rev ups ++ rev es)%list) as Hce.
  { rewrite <- rev_app_distr, <- Heq. by rewrite rev_involutive. }
  assert (∀ e, e ∈ rev es → plain_element e ∧ byte_free slash e) as Hes.
  { intros e Hin. rewrite elem_of_rev in Hin. pose proof (He e Hin) as Hp. split; [done|].
    assert (e ∈ foldl (clean_step false) [] (split_on slash f)) as Hfe.
    { unfold clean_elements in Heq. rewrite rev_involutive in Heq. rewrite Heq. apply elem_of_app. by left. }
    apply clean_incl in Hfe as [Hfe|[[Hfe _]| ->]]; [by apply not_elem_of_nil in Hfe|by eapply split_elem_free|by destruct Hp as (_ & _ & ?)]. }
  rewrite Hce in *. destruct (rev ups) as [|u us] eqn:E; simpl in *.
  - destruct (rev es) as [|e es']; [done|]. by exists (e :: es')%list.
  - exfalso. assert (u = "..") as -> by (apply Hu; rewrite <- elem_of_rev, E; by left).
    destruct (us ++ rev es)%list as [|x l]; [done|].
    apply not_true_iff_false in Hesc. apply Hesc, HasPrefix_iff. exists (join_slash (x :: l)). by rewrite join_cons.
Qed.

(** The canonical relative paths that do not escape are the plain ones. *)
Lemma plain_path_iff r :
  plain_path r ↔
  r ≠ "" ∧ IsAbs r = false ∧ Clean r = r ∧ r ≠ "." ∧ r ≠ ".." ∧ HasPrefix r "../" = false.
Proof.
  split.
  - intros (es & Hne & Hr & He). pose proof (plain_path_split r es Hne Hr He) as Hsplit.
    assert (r ≠ "") by (subst; apply join_not_empty; [by intros e [[? _] _]%He|done]).
    assert (IsAbs r = false) as Habs.
    { apply not_true_iff_false. rewrite IsAbs_split. intros [t ->].
      assert (es = "" :: split_on slash t)%list as -> by (by rewrite <- Hsplit). by destruct (He "") as [(? & _) _]; [left|]. }
    split_and!; [done|done| | | |].
    + unfold Clean. rewrite decide_False by done. rewrite Habs, Hsplit. unfold clean_elements.
      rewrite foldl_clean_plain by (by intros e [? _]%He). rewrite app_nil_r, rev_involutive. by destruct es.
    + intros ->. simpl in Hsplit. subst es. by destruct (He ".") as [(_ & ? & _) _]; [left|].
    + intros ->. simpl in Hsplit. subst es. by destruct (He "..") as [(_ & _ & ?) _]; [left|].
    + apply not_true_iff_false. rewrite HasPrefix_iff. intros [t ->].
      change ("../" +:+ t) with (".." +:+ String slash t) in Hsplit. rewrite split_on_app in Hsplit.
      simpl in Hsplit. subst es. by destruct (He "..") as [(_ & _ & ?) _]; [left|].
  - intros (Hr & Habs & Hc & Hdot & Hup & Hesc). rewrite <- Hc in *. by apply Clean_plain.
Qed.

(** Joining a plain path to any absolute directory stays strictly below it. *)
Lemma plain_path_below root r :
  IsAbs root = true → plain_path r →
  Clean (root +:+ String slash r) =
    (if decide (Clean root = "/") then "" else Clean root) +:+ String slash r.
Proof.
  intros Habs (es & Hne & Hr & He). pose proof (plain_path_split r es Hne Hr He) as Hsplit.
  apply IsAbs_split in Habs as [t ->]. rewrite str_app_cons.
  assert (∀ x, IsAbs (String slash x) = true) as Ha by (intros; apply IsAbs_split; by eexists).
  unfold Clean. rewrite !decide_False by done. rewrite !Ha.
  rewrite <- str_app_cons, split_on_app, Hsplit. unfold clean_elements.
  rewrite foldl_app, (foldl_clean_plain true es) by (by intros e [? _]%He).
  rewrite rev_app_distr, rev_involutive. set (acc := rev (foldl (clean_step true) [] (split_on slash (String slash t)))).
  assert (∀ e, e ∈ acc → e ≠ "") as Hacc.
  { intros e. subst acc. rewrite elem_of_rev. intros [Hn|[[_ ?]| ->]]%clean_incl; [by apply not_elem_of_nil in Hn|done|done]. }
  clearbody acc. destruct (decide (acc = [])) as [->|Hnil].
  - by rewrite Hr.
  - rewrite decide_False; [|intros [= E]; by apply (join_not_empty acc)]. rewrite join_app by done.
    rewrite (decide_False (P := String slash t = "")) by done. by rewrite str_app_cons, Hr.
Qed.

(** ** Sorting strings: Go's order on strings is by bytes *)

Definition string_le (a b : string) : Prop := String.leb a b = true.
#[export] Instance string_le_dec : RelDecision string_le := λ a b, decide (_ = true).

(** [sort.Strings] and [slices.Sorted]. *)
Definition sort_strings (l : list string) : list string := merge_sort string_le l.

Lemma sort_strings_perm l : sort_strings l ≡ₚ l.
Proof. apply (merge_sort_Permutation string_le). Qed.
