(* ===== verification/GoText.v ===== *)
(** * Go's replacer, fields and durations

    [strings.NewReplacer], [ReplaceAll], [Contains], [Fields], [ContainsAny] and
    [HasSuffix], and [time.Duration.String], with the lemmas on replacement line by
    line. *)
From stdpp Require Import pretty.
From S2P Require Import Prelude GoStrings.
From Stdlib Require Import Ascii.
Local Open Scope string_scope.

(** ** [strings] *)

(** The first pair of [kvs], in argument order, whose old string is a prefix. *)
Fixpoint first_match (kvs : list (string * string)) (s : string) : option (string * string) :=
  match kvs with
  | [] => None
  | kv :: kvs => if HasPrefix s kv.1 then Some kv else first_match kvs s
  end.

(** [strings.NewReplacer(kvs...).Replace]: one pass from the left, no overlap;
    [skip] bytes of a matched old string are still to be passed over.  The old
    strings are not empty. *)
Fixpoint replace_from (kvs : list (string * string)) (skip : nat) (s : string) : string :=
  match s with
  | EmptyString => ""
  | String c s' =>
    match skip with
    | S n => replace_from kvs n s'
    | O =>
      match first_match kvs s with
      | Some (k, v) => v +:+ replace_from kvs (pred (String.length k)) s'
      | None => String c (replace_from kvs O s')
      end
    end
  end.

Definition Replace (kvs : list (string * string)) (s : string) : string := replace_from kvs O s.

(** [strings.ReplaceAll] of a nonempty string. *)
Definition ReplaceAll (s old new : string) : string := Replace [(old, new)] s.

(** [strings.Contains]. *)
Fixpoint Contains (s sub : string) : bool :=
  HasPrefix s sub || match s with EmptyString => false | String _ s => Contains s sub end.

(** [strings.Fields]; [cur] is the field being read. *)
Fixpoint fields_from (skip : nat) (cur : string) (s : string) : list string :=
  let flush l := if decide (cur = "") then l else cur :: l in
  match s with
  | EmptyString => flush []
  | String c s' =>
    match skip with
    | S n => fields_from n cur s'
    | O =>
      match first_match ((λ w, (w, "")) <$> space_strings) s with
      | Some (w, _) => flush (fields_from (pred (String.length w)) "" s')
      | None => fields_from O (cur +:+ str1 c) s'
      end
    end
  end.
Definition Fields (s : string) : list string := fields_from O "" s.

(** [strings.ContainsAny] of a text, in ASCII characters. *)
Definition ContainsAny (s chars : string) : bool :=
  existsb (ContainsByte chars) (String.list_ascii_of_string s).

(** [strings.HasSuffix]. *)
Definition HasSuffix (s suf : string) : bool := HasPrefix (str_rev s) (str_rev suf).

(** ** [time.Duration.String] *)

Definition digit_char (d : Z) : ascii := ascii_of_N (48 + Z.to_N d)%N.

(** [fmtFrac]: the fraction of [v / 10^prec] without trailing zeros, then [v / 10^prec]. *)
Fixpoint fmtFrac (prec : nat) (v : Z) (print : bool) (acc : string) : string * Z :=
  match prec with
  | O => (if print then String "." acc else acc, v)
  | S prec =>
    let digit := (v mod 10)%Z in
    let print := print || bool_decide (digit ≠ 0%Z) in
    fmtFrac prec (v / 10)%Z print (if print then String (digit_char digit) acc else acc)
  end.

Definition fmtInt (v : Z) (acc : string) : string := pretty (Z.to_N v) +:+ acc.

Definition Duration_String (d : Z) : string :=
  let u := Z.abs d in
  let neg s := if decide (d < 0)%Z then String "-" s else s in
  if decide (u < 1000000000)%Z then
    if decide (u = 0)%Z then "0s"
    else
      let '(prec, unit_) :=
        if decide (u < 1000)%Z then (0, "ns")
        else if decide (u < 1000000)%Z then (3, String "194" (String "181" "s"))
        else (6, "ms") in
      let '(frac, v) := fmtFrac prec u false unit_ in
      neg (fmtInt v frac)
  else
    let '(frac, secs) := fmtFrac 9 u false "s" in
    let s := fmtInt (secs mod 60)%Z frac in
    let mins := (secs / 60)%Z in
    if decide (0 < mins)%Z then
      let s := fmtInt (mins mod 60)%Z (String "m" s) in
      let hours := (mins / 60)%Z in
      neg (if decide (0 < hours)%Z then fmtInt hours (String "h" s) else s)
    else neg s.

Example duration_default : Duration_String 5000000000 = "5s".
Proof. vm_compute. reflexivity. Qed.
Example duration_mixed : Duration_String 5430500000000 = "1h30m30.5s".
Proof. vm_compute. reflexivity. Qed.
Example duration_small : Duration_String (-1500000) = "-1.5ms".
Proof. vm_compute. reflexivity. Qed.


(** ** Bytes of a string *)

Fixpoint all_bytes (P : ascii → bool) (s : string) : bool :=
  match s with EmptyString => true | String c s => P c && all_bytes P s end.

Lemma all_bytes_app P a b : all_bytes P (a +:+ b) = all_bytes P a && all_bytes P b.
Proof. induction a as [|c a IH]; [done|]. rewrite str_app_cons. cbn [all_bytes]. by rewrite IH, andb_assoc. Qed.

Lemma all_bytes_free P c s : all_bytes P s = true → P c = false → byte_free c s.
Proof.
  intros H Hc. induction s as [|a s IH]; [done|]. cbn in *. apply andb_true_iff in H as [Ha H].
  split; [intros ->; congruence|auto].
Qed.

Lemma free_concat c sep l : byte_free c sep → Forall (byte_free c) l → byte_free c (String.concat sep l).
Proof.
  intros Hsep. induction 1 as [|s l Hs Hl IH]; [done|]. destruct l; [done|].
  cbn [String.concat]. by rewrite !byte_free_app.
Qed.

Lemma bytes_app a b : String.list_ascii_of_string (a +:+ b) = (String.list_ascii_of_string a ++ String.list_ascii_of_string b)%list.
Proof. induction a as [|c a IH]; [done|]. rewrite str_app_cons. cbn. by rewrite IH. Qed.

Lemma of_bytes_app l r : String.string_of_list_ascii (l ++ r) = String.string_of_list_ascii l +:+ String.string_of_list_ascii r.
Proof. induction l as [|c l IH]; [done|]. cbn. by rewrite IH. Qed.

Lemma str_rev_app a b : str_rev (a +:+ b) = str_rev b +:+ str_rev a.
Proof. unfold str_rev. by rewrite bytes_app, rev_app_distr, of_bytes_app. Qed.

Lemma str_rev_rev s : str_rev (str_rev s) = s.
Proof.
  unfold str_rev. by rewrite String.list_ascii_of_string_of_list_ascii, rev_involutive, String.string_of_list_ascii_of_string.
Qed.

Lemma str_take_all a b : str_take (String.length a) (a +:+ b) = a.
Proof. induction a as [|c a IH]; [by destruct b|]. rewrite str_app_cons. cbn [String.length str_take]. by rewrite IH. Qed.

(** ** The replacer *)

Lemma HasPrefix_free c k a b : byte_free c k → HasPrefix (a +:+ String c b) k = HasPrefix a k.
Proof.
  unfold HasPrefix. revert a. induction k as [|x k IH]; intros a Hk; [by destruct a|].
  destruct Hk as [Hx Hk]. destruct a as [|y a].
  - change ("" +:+ String c b) with (String c b). cbn [cut_prefix]. by rewrite decide_False by congruence.
  - rewrite str_app_cons. cbn [cut_prefix]. destruct (decide (x = y)); [|done]. by apply IH.
Qed.

Lemma HasPrefix_length s k : HasPrefix s k = true → (String.length k ≤ String.length s)%nat.
Proof. intros [r ->]%HasPrefix_iff. rewrite str_length_app. lia. Qed.

Lemma first_match_free c kvs a b :
  Forall (λ kv, byte_free c kv.1) kvs → first_match kvs (a +:+ String c b) = first_match kvs a.
Proof. induction 1 as [|kv kvs Hk Hkvs IH]; [done|]. cbn. by rewrite HasPrefix_free, IH. Qed.

Lemma first_match_Some kvs s k v : first_match kvs s = Some (k, v) → (k, v) ∈ kvs ∧ HasPrefix s k = true.
Proof.
  induction kvs as [|kv kvs IH]; [done|]. cbn. destruct (HasPrefix s kv.1) eqn:E.
  - intros [= ->]. split; [left|done].
  - intros []%IH. split; [by right|done].
Qed.

Lemma first_match_empty kvs : Forall (λ kv, kv.1 ≠ "") kvs → first_match kvs "" = None.
Proof. induction 1 as [|[k v] kvs Hk Hkvs IH]; [done|]. cbn in *. by destruct k. Qed.

Lemma replace_from_free c kvs n a b :
  Forall (λ kv, kv.1 ≠ "" ∧ byte_free c kv.1) kvs → (n ≤ String.length a)%nat →
  replace_from kvs n (a +:+ String c b) = replace_from kvs n a +:+ String c (Replace kvs b).
Proof.
  intros Hk. revert n. induction a as [|y a IH]; intros n Hn.
  - destruct n; [|cbn in Hn; lia]. change ("" +:+ String c b) with (String c b). cbn [replace_from].
    change (String c b) with ("" +:+ String c b).
    rewrite first_match_free, first_match_empty; [done|..]; by eapply Forall_impl; [done|intros ? []].
  - rewrite str_app_cons. destruct n as [|n]; cbn [replace_from].
    + rewrite <-str_app_cons, first_match_free by (by eapply Forall_impl; [done|intros ? []]).
      destruct (first_match kvs (String y a)) as [[k v]|] eqn:E.
      * apply first_match_Some in E as [_ E%HasPrefix_length]. rewrite IH by (cbn in E; lia). by rewrite str_app_assoc.
      * rewrite IH by lia. done.
    + apply IH. cbn in Hn. lia.
Qed.

Lemma split_on_cases c s : byte_free c s ∨ ∃ a b, s = a +:+ String c b ∧ byte_free c a.
Proof.
  induction s as [|x s IH]; [by left|]. destruct (decide (x = c)) as [->|Hx].
  - right. by exists "", s.
  - destruct IH as [IH|(a & b & -> & Ha)]; [by left|]. right. by exists (String x a), b.
Qed.

(** Induction over a string cut at its separators. *)
Lemma separator_ind c (P : string → Prop) :
  (∀ s, byte_free c s → P s) → (∀ a b, byte_free c a → P b → P (a +:+ String c b)) → ∀ s, P s.
Proof.
  intros Hfree Hcut s. change (P ("" +:+ s)). assert (byte_free c "") as Ha by done. revert Ha.
  generalize "" as a. induction s as [|x s IH]; intros a Ha.
  - rewrite str_app_nil. by apply Hfree.
  - destruct (decide (x = c)) as [->|Hx]; [apply Hcut; [done|by apply (IH "")]|].
    replace (a +:+ String x s) with ((a +:+ str1 x) +:+ s) by (by rewrite str_app_assoc).
    apply IH. by rewrite byte_free_app.
Qed.

(** A replacement whose old strings hold no separator works line by line. *)
Lemma split_Replace c kvs s :
  Forall (λ kv, kv.1 ≠ "" ∧ byte_free c kv.1) kvs →
  split_on c (Replace kvs s) = split_on c s ≫= λ l, split_on c (Replace kvs l).
Proof.
  intros Hk. induction s as [s Hs|a b Ha IH] using (separator_ind c).
  - rewrite (split_on_free c s Hs). cbn. by rewrite app_nil_r.
  - unfold Replace at 1. rewrite replace_from_free, split_on_app, IH by (done || lia).
    by rewrite split_on_app, (split_on_free c a Ha), bind_app; cbn; rewrite app_nil_r.
Qed.

Lemma replace_from_bytes_free c kvs n s :
  byte_free c s → Forall (λ kv, byte_free c kv.2) kvs → byte_free c (replace_from kvs n s).
Proof.
  intros Hs Hv. revert n. induction s as [|x s IH]; intros n; [done|]. destruct Hs as [Hx Hs]. destruct n; cbn [replace_from]; [|by apply IH].
  destruct (first_match _ _) as [[k v]|] eqn:E; [|by split; [|apply IH]].
  apply first_match_Some in E as [E _]. rewrite byte_free_app. split; [|by apply IH].
  rewrite Forall_forall in Hv. by apply (Hv _ E).
Qed.

Lemma replace_from_ext kvs kvs' n s :
  (∀ t u, s = t +:+ u → first_match kvs u = first_match kvs' u) → replace_from kvs n s = replace_from kvs' n s.
Proof.
  revert n. induction s as [|x s IH]; intros n H; [done|].
  assert (∀ n, replace_from kvs n s = replace_from kvs' n s) as IH'.
  { intros m. apply IH. intros t u ->. by apply (H (String x t) u). }
  destruct n; cbn [replace_from]; [|apply IH'].
  rewrite (H "" (String x s) eq_refl). destruct (first_match _ _) as [[k v]|]; by rewrite IH'.
Qed.

Lemma replace_nothing n s : (n = 0)%nat → replace_from [] n s = s.
Proof. intros ->. induction s as [|x s IH]; [done|]. cbn. by rewrite IH. Qed.

Lemma Replace_unmatched kvs s : (∀ t u, s = t +:+ u → first_match kvs u = None) → Replace kvs s = s.
Proof. intros H. unfold Replace. rewrite (replace_from_ext kvs [] 0 s), replace_nothing; [done..|]. intros t u Hu. by rewrite (H t u Hu). Qed.

Lemma Contains_false s sub t u : Contains s sub = false → s = t +:+ u → HasPrefix u sub = false.
Proof.
  intros H ->. induction t as [|x t IH].
  - change ("" +:+ u) with u in H. by destruct u; cbn [Contains] in H; apply orb_false_iff in H as [H _].
  - rewrite str_app_cons in H. cbn [Contains] in H. apply orb_false_iff in H as [_ H]. by apply IH.
Qed.

Lemma HasPrefix_app a b : HasPrefix (a +:+ b) a = true.
Proof. apply HasPrefix_iff. by exists b. Qed.

Lemma Contains_app a k b : Contains (a +:+ k +:+ b) k = true.
Proof.
  induction a as [|x a IH].
  - change ("" +:+ k +:+ b) with (k +:+ b). pose proof (HasPrefix_app k b) as H. destruct (k +:+ b); cbn [Contains]; by rewrite H.
  - rewrite str_app_cons. cbn [Contains]. rewrite IH. apply orb_true_r.
Qed.

Lemma Contains_prefix_false u k p r : HasPrefix u p = false → k = p +:+ r → HasPrefix u k = false.
Proof.
  intros H ->. apply not_true_iff_false. intros [q ->]%HasPrefix_iff.
  rewrite str_app_assoc, HasPrefix_app in H. done.
Qed.

(** A pair whose old string does not occur changes nothing. *)
Lemma Replace_absent kvs k v s : Contains s k = false → Replace (kvs ++ [(k, v)]) s = Replace kvs s.
Proof.
  intros H. apply replace_from_ext. intros t u Hu. pose proof (Contains_false _ _ _ _ H Hu) as Hp.
  induction kvs as [|kv kvs IH]; cbn [app first_match fst]; [by rewrite Hp|]. by rewrite IH.
Qed.

(** A text without the opening mark of the old strings is left alone. *)
Lemma Replace_unmarked p kvs s :
  Contains s p = false → Forall (λ kv, HasPrefix kv.1 p = true) kvs → Replace kvs s = s.
Proof.
  intros H Hk. apply Replace_unmatched. intros t u Hu. pose proof (Contains_false _ _ _ _ H Hu) as Hp.
  induction Hk as [|kv kvs [r Hr]%HasPrefix_iff Hk IH]; [done|]. cbn [first_match].
  by rewrite (Contains_prefix_false _ _ _ _ Hp Hr).
Qed.

Lemma ContainsAny_false s chars :
  ContainsAny s chars = false ↔ ∀ c, ContainsByte chars c = true → byte_free c s.
Proof.
  unfold ContainsAny. induction s as [|a s IH]; [done|]. cbn [String.list_ascii_of_string existsb byte_free].
  rewrite orb_false_iff, IH. split.
  - intros [Ha Hs] c Hc. split; [congruence|auto].
  - intros H. split; [|intros c Hc; by apply H]. apply not_true_iff_false. intros Ha. by destruct (H a Ha).
Qed.

(** ** Line endings *)

Definition nl : ascii := "010".
Definition cr : ascii := "013".
Definition crlf : string := String cr (str1 nl).

(** [strings.ReplaceAll(s, CRLF, LF)]. *)
Definition unixLines (s : string) : string := ReplaceAll s crlf (str1 nl).

Lemma unixLines_free s : byte_free cr s → unixLines s = s.
Proof.
  intros H. apply Replace_unmatched. intros t u ->. apply byte_free_app in H as [_ H].
  cbn [first_match fst]. destruct (HasPrefix u crlf) eqn:E; [|done].
  apply HasPrefix_iff in E as [r ->]. by destruct H.
Qed.

Lemma unixLines_app a b : unixLines ((a +:+ str1 nl) +:+ b) = unixLines (a +:+ str1 nl) +:+ unixLines b.
Proof.
  unfold unixLines, ReplaceAll, Replace. set (kvs := [(crlf, str1 nl)]).
  enough (∀ n, (n ≤ S (String.length a))%nat →
    replace_from kvs n ((a +:+ str1 nl) +:+ b) = replace_from kvs n (a +:+ str1 nl) +:+ replace_from kvs 0 b) as H by (apply H; lia).
  induction a as [|x a IH]; intros n Hn.
  - change (("" +:+ str1 nl) +:+ b) with (String nl b). change ("" +:+ str1 nl) with (str1 nl).
    destruct n as [|n]; [done|]. by destruct n; [|cbn in Hn; lia].
  - rewrite !str_app_cons. destruct n as [|n]; cbn [replace_from]; [|apply IH; cbn in Hn; lia].
    assert (first_match kvs (String x ((a +:+ str1 nl) +:+ b)) = first_match kvs (String x (a +:+ str1 nl))) as ->.
    { cbn [first_match kvs fst]. unfold HasPrefix, crlf. cbn [cut_prefix]. destruct (decide (cr = x)); [|done].
      unfold str1. destruct a as [|y a]; [change ("" +:+ String nl "") with (String nl "")|rewrite !str_app_cons]; cbn [cut_prefix]; [done|]. by destruct (decide (nl = y)). }
    destruct (first_match kvs _) as [[k v]|] eqn:E.
    + apply first_match_Some in E as [E _]. apply list_elem_of_singleton in E as [= -> ->].
      rewrite IH by (cbn; lia). by rewrite str_app_assoc.
    + rewrite IH by lia. done.
Qed.
