(* ===== verification/Utf8.v ===== *)
(** * Valid UTF-8, rune by rune

    [ValidString] of [GoStrings] as a sequence of encoded runes: induction over
    the runes, concatenation, prefixes and splitting at a byte. *)
From S2P Require Import Prelude GoStrings.
From Stdlib Require Import Ascii.
Local Open Scope string_scope.
Local Open Scope list_scope.
Local Open Scope nat_scope.

(** ** ASCII *)

Fixpoint ascii_only (s : string) : Prop :=
  match s with EmptyString => True | String a s => between 0 127 a = true ∧ ascii_only s end.

Lemma ascii_only_app s t : ascii_only s → ascii_only t → ascii_only (s +:+ t).
Proof. induction s as [|a s IH]; [done|]. intros [? ?] ?. rewrite str_app_cons. simpl. auto. Qed.

Lemma ascii_only_valid s : ascii_only s → ValidString s = true.
Proof. induction s as [|a s IH]; simpl; [done|]. intros [-> ?]. auto. Qed.

(** ** Runes *)

(** [utf8.RuneStart]. *)
Definition RuneStart (b : ascii) : bool := negb (continuation b).

(** The encoding of one rune: it can be split off, only its first byte starts a
    rune, and an ASCII byte occurs in it only as the whole of it. *)
Definition rune (p : string) : Prop :=
  p ≠ "" ∧ (∀ r, ValidString (p +:+ r) = ValidString r) ∧
  (∀ n a, String.get (S n) p = Some a → continuation a = true) ∧
  ∀ c, between 0 127 c = true → p = str1 c ∨ byte_free c p.

Lemma between_iff lo hi a : between lo hi a = true ↔ (lo ≤ N_of_ascii a ≤ hi)%N.
Proof. unfold between. by rewrite andb_true_iff, !N.leb_le. Qed.

Lemma between_continuation lo hi a : (128 ≤ lo)%N → (hi ≤ 191)%N → between lo hi a = true → continuation a = true.
Proof. unfold continuation. rewrite !between_iff. lia. Qed.

Lemma high_ne lo hi a c : (128 ≤ lo)%N → between lo hi a = true → between 0 127 c = true → a ≠ c.
Proof. rewrite !between_iff. intros ? ? ? ->. lia. Qed.

(** The second byte of a three or four byte rune. *)
Lemma second_byte {P Q : Prop} (dp : {P} + {¬ P}) (dq : {Q} + {¬ Q}) lo hi b :
  (128 ≤ lo)%N → (hi ≤ 191)%N →
  between (if dp then lo else 128) (if dq then hi else 191) b = true → continuation b = true.
Proof. intros ? ?. apply between_continuation; [destruct dp|destruct dq]; lia. Qed.

Lemma valid_cases s :
  ValidString s = true → s = "" ∨ ∃ p r, s = p +:+ r ∧ rune p ∧ ValidString r = true.
Proof.
  assert (∀ b c, continuation b = true → between 0 127 c = true → b ≠ c) as Hc by (intros b c; by apply high_ne).
  destruct s as [|a s1]; [by left|]. intros Hs. right. cbn [ValidString] in Hs. destruct (between 0 127 a) eqn:Ha.
  { exists (str1 a), s1. split_and!; [done| |done]. split_and!; [done| |by intros []|].
    - intros r. unfold str1. rewrite str_app_cons. cbn [ValidString]. by rewrite Ha.
    - intros c _. destruct (decide (a = c)) as [->|]; [by left|by right; split]. }
  destruct s1 as [|b s2]; [done|]. destruct (between 194 223 a) eqn:H2.
  { apply andb_true_iff in Hs as [Hb Hs]. exists (String a (str1 b)), s2. split_and!; [done| |done]. split_and!; [done| | |].
    - intros r. unfold str1. rewrite !str_app_cons. cbn [ValidString]. by rewrite Ha, H2, Hb.
    - by intros [|[|n]] x [= <-].
    - intros c Hc'. right. unfold str1. simpl. split_and!; [|by apply Hc|done]. by eapply high_ne; [|exact H2|]. }
  destruct s2 as [|c s3]; [done|]. destruct (between 224 239 a) eqn:H3.
  { apply andb_true_iff in Hs as [[Hb Hc3]%andb_true_iff Hs]. assert (continuation b = true) as Hb' by (eapply second_byte; [| |exact Hb]; lia).
    exists (String a (String b (str1 c))), s3. split_and!; [done| |done]. split_and!; [done| | |].
    - intros r. unfold str1. rewrite !str_app_cons. cbn [ValidString]. by rewrite Ha, H2, H3, Hb, Hc3.
    - by intros [|[|[|n]]] x [= <-].
    - intros x Hx. right. unfold str1. simpl. split_and!; [|by apply Hc|by apply Hc|done]. by eapply high_ne; [|exact H3|]. }
  destruct s3 as [|d s4]; [done|]. apply andb_true_iff in Hs as [[[[H4 Hb]%andb_true_iff Hc4]%andb_true_iff Hd]%andb_true_iff Hs].
  assert (continuation b = true) as Hb' by (eapply second_byte; [| |exact Hb]; lia).
  exists (String a (String b (String c (str1 d)))), s4. split_and!; [done| |done]. split_and!; [done| | |].
  - intros r. unfold str1. rewrite !str_app_cons. cbn [ValidString]. by rewrite Ha, H2, H3, H4, Hb, Hc4, Hd.
  - by intros [|[|[|[|n]]]] x [= <-].
  - intros x Hx. right. unfold str1. simpl. split_and!; [|by apply Hc|by apply Hc|by apply Hc|done]. by eapply high_ne; [|exact H4|].
Qed.

Lemma rune_length p r : rune p → (String.length r < String.length (p +:+ r))%nat.
Proof. intros (Hp & _). destruct p; [done|]. rewrite str_length_app. simpl. lia. Qed.

Lemma valid_ind (P : string → Prop) :
  P "" → (∀ p r, rune p → ValidString r = true → P r → P (p +:+ r)) → ∀ s, ValidString s = true → P s.
Proof.
  intros Hnil Hstep s. induction (well_founded_ltof _ String.length s) as [s _ IH]. intros Hs.
  destruct (valid_cases s Hs) as [->|(p & r & -> & Hp & Hr)]; [done|]. apply Hstep; [done..|].
  apply IH; [|done]. by apply rune_length.
Qed.

Lemma ValidString_app s t : ValidString s = true → ValidString (s +:+ t) = ValidString t.
Proof.
  intros Hs. revert s Hs. apply valid_ind; [done|]. intros p r (_ & Hp & _) _ IH.
  by rewrite str_app_assoc, Hp.
Qed.

Lemma get_app_r p r n : String.get (String.length p + n) (p +:+ r) = String.get n r.
Proof. induction p as [|a p IH]; [done|]. rewrite str_app_cons. simpl. apply IH. Qed.

Lemma get_app_l p r n : (n < String.length p)%nat → String.get n (p +:+ r) = String.get n p.
Proof.
  revert n. induction p as [|a p IH]; simpl; [lia|]. intros [|n] Hn; simpl; [done|]. apply IH. lia.
Qed.

Lemma get_lt s n : (n < String.length s)%nat → ∃ a, String.get n s = Some a.
Proof.
  revert n. induction s as [|x s IH]; simpl; [lia|]. intros [|n] Hn; [by eexists|]. apply IH. lia.
Qed.

Lemma str_take_app p r n : str_take (String.length p + n) (p +:+ r) = p +:+ str_take n r.
Proof. induction p as [|a p IH]; [done|]. rewrite !str_app_cons. simpl. by rewrite IH. Qed.

(** A prefix that ends where a rune starts is valid. *)
Lemma valid_prefix s :
  ValidString s = true → ∀ n, (∀ a, String.get n s = Some a → RuneStart a = true) → ValidString (str_take n s) = true.
Proof.
  revert s. refine (valid_ind _ _ _); [by intros []|]. intros p r Hrune _ IH n Hn.
  pose proof Hrune as (_ & Hp & Hcont & _). destruct (decide (String.length p ≤ n)%nat) as [Hle|Hlt].
  - replace n with (String.length p + (n - String.length p))%nat in * by lia. rewrite str_take_app, Hp.
    apply IH. intros a Ha. apply Hn. by rewrite get_app_r.
  - destruct n as [|n]; [by destruct (p +:+ r)|]. rewrite get_app_l in Hn by lia.
    destruct (get_lt p (S n)) as [a Ha]; [lia|].
    specialize (Hn a Ha). unfold RuneStart in Hn. by rewrite (Hcont n a Ha) in Hn.
Qed.


(** Splitting at an ASCII byte cuts no rune. *)
Lemma split_valid c s :
  between 0 127 c = true → ValidString s = true → ∀ e, e ∈ split_on c s → ValidString e = true.
Proof.
  intros Hc Hs. revert s Hs. refine (valid_ind _ _ _); [by intros e ->%list_elem_of_singleton|].
  intros p r (Hne & Hp & _ & Hfree) _ IH e. destruct (Hfree c Hc) as [->|Hpf].
  - change (str1 c +:+ r) with ("" +:+ String c r). rewrite split_on_app. simpl. set_solver.
  - assert (∃ w ws, split_on c r = w :: ws ∧ split_on c (p +:+ r) = (p +:+ w) :: ws) as (w & ws & Er & Ep).
    { clear -Hpf. pose proof (split_on_not_nil c r) as Hn. destruct (split_on c r) as [|w ws] eqn:Er; [done|].
      exists w, ws. split; [done|]. induction p as [|a p IH]; [by rewrite !str_nil_app|]. destruct Hpf as [Ha Hpf].
      rewrite !str_app_cons. cbn [split_on]. rewrite decide_False by done. by rewrite (IH Hpf). }
    rewrite Ep. intros [->|He]%elem_of_cons; [rewrite Hp|]; apply IH; rewrite Er; [by left|by right].
Qed.
