(* ===== verification/Selection.v ===== *)
(** * Selection matching ([internal/ingest/types.go], [internal/config/config.go])

    The matcher that decides which sessions a saved kickstart selection
    admits.  [harnessSelectionInput] is the configuration, [newSelectionMatcher]
    compiles it into a [SelectionMatcher], and [decideCandidate] applies
    positive selection followed by exact denials. *)
From S2P Require Import Prelude GoStrings.
Local Open Scope string_scope.
Local Open Scope list_scope.
Local Open Scope nat_scope.

Abbreviation SessionID := string (only parsing).
Abbreviation Harness := string (only parsing).
Abbreviation ClonePath := string (only parsing).

(** ** Library code the remote normaliser calls

    [scpPattern] is compiled by go-re2, [url.Parse] and the Unicode tables of
    [strings.ToLower] are Go's; no theorem depends on what they return. *)
Class RemoteLib := {
  (** Capture groups 1 and 2 of [scpPattern.FindStringSubmatch]. *)
  scpPattern_match : string → option (string * string);
  (** [Hostname()] and [Path] of a successful [url.Parse]. *)
  url_Parse : string → option (string * string);
  ToLower : string → string;
}.

Definition ExtGit : string := ".git".

Section normalize.
Context `{RemoteLib}.

(** The error's text is not modelled; [None] is any error. *)
Definition NormalizeRemoteURL (remote : string) : option string :=
  if decide (remote = "") then None
  else match scpPattern_match remote with
  | Some (h, p) =>
      let host := ToLower h in
      let path := Trim (TrimSuffix p ExtGit) "/" in
      if decide (path = "") then None else Some (host +:+ "/" +:+ path)
  | None =>
      if HasPrefix remote "file://" then None
      else if HasPrefix remote "https://" || HasPrefix remote "http://" ||
              HasPrefix remote "ssh://" || HasPrefix remote "git://" then
        match url_Parse remote with
        | None => None
        | Some (hostname, upath) =>
            let host := ToLower hostname in
            let path := default upath (cut_prefix "/" upath) in
            let path := Trim (TrimSuffix path ExtGit) "/" in
            if decide (host = "") then None
            else if decide (path = "") then None
            else Some (host +:+ "/" +:+ path)
        end
      else None
  end.

Definition NormalizeRemoteForMatch (remote : string) : string :=
  let remote := TrimSpace remote in
  if decide (remote = "") then ""
  else match NormalizeRemoteURL remote with
  | Some normalized => normalized
  | None =>
      let trimmed := TrimSuffix (Trim remote "/") ExtGit in
      if decide (trimmed = "") then ""
      else match IndexByte trimmed slash with
      | Some (S i) => ToLower (str_take (S i) trimmed) +:+ str_drop (S i) trimmed
      | _ => ToLower trimmed
      end
  end.
End normalize.

Definition NormalizeProjectNameForMatch (name : string) : string :=
  let name := TrimSpace name in
  if decide (name = "") then ""
  else if negb (ContainsByte name slash || ContainsByte name backslash) then name
  else
    let base := Base (Clean name) in
    if decide (base = "." ∨ base = "/") then "" else base.

Definition normalizeBranchForMatch (branch : string) : string := TrimSpace branch.

Definition exactClonePath (path : string) : option ClonePath :=
  if bool_decide (path = "") || negb (bool_decide (TrimSpace path = path)) ||
     negb (IsAbs path) || negb (bool_decide (Clean path = path))
  then None else Some path.

(** ** Data *)

Inductive DiscoveryIdentityMultiplicity :=
  | DiscoveryIdentityUnproven
  | DiscoveryIdentityUnique
  | DiscoveryIdentityAmbiguous.
#[export] Instance multiplicity_eq_dec : EqDecision DiscoveryIdentityMultiplicity.
Proof. solve_decision. Defined.

Record DiscoveryCandidate := mkCandidate {
  dc_Harness : Harness;
  dc_GitRemote : string;
  dc_ProjectName : string;
  dc_ClonePath : ClonePath;
  dc_Branch : string;
  dc_SessionID : SessionID;
  dc_RemoteMultiplicity : DiscoveryIdentityMultiplicity;
  dc_NameMultiplicity : DiscoveryIdentityMultiplicity;
}.
#[export] Instance candidate_eq_dec : EqDecision DiscoveryCandidate.
Proof. solve_decision. Defined.

Record SelectionEntry := mkEntry {
  se_GitRemote : string;
  se_Name : string;
  se_ClonePaths : list ClonePath;
  se_Branches : list string;
}.
#[export] Instance entry_eq_dec : EqDecision SelectionEntry.
Proof. solve_decision. Defined.

(** [clonePaths] and [branches] are Go maps used as sets; a nil map is empty. *)
Record projectMatcher := mkProjectMatcher {
  pm_gitRemote : string;
  pm_name : string;
  pm_clonePaths : gset ClonePath;
  pm_pathBound : bool;
  pm_branches : gset string;
  pm_entry : SelectionEntry;
}.
#[export] Instance projectMatcher_eq_dec : EqDecision projectMatcher.
Proof. solve_decision. Defined.

Record harnessMatcher := mkHarnessMatcher {
  hm_projects : list projectMatcher;
  hm_sessions : gset string;
  hm_branchExclusions : gmap ClonePath (gset string);
  hm_sessionExclusions : gset string;
}.

Abbreviation SelectionMatcher := (gmap string harnessMatcher) (only parsing).

Record projectSelectionInput := mkProjectInput {
  psi_GitRemote : string;
  psi_Name : string;
  psi_ClonePaths : list string;
  psi_Branches : list string;
}.

Record branchExclusionInput := mkBranchExclusion {
  bei_ClonePath : string;
  bei_Branches : list string;
}.

Record harnessSelectionInput := mkHarnessInput {
  hsi_Projects : list projectSelectionInput;
  hsi_Sessions : list string;
  hsi_BranchExclusions : list branchExclusionInput;
  hsi_SessionExclusions : list string;
}.

Definition emptyHarnessInput : harnessSelectionInput := mkHarnessInput [] [] [] [].

Inductive BranchMatch :=
  | BranchMatchNo
  | BranchMatchYes
  | BranchMatchWithheldConflict.
#[export] Instance branchMatch_eq_dec : EqDecision BranchMatch.
Proof. solve_decision. Defined.

Record DiscoveryDecision := mkDecision {
  dd_Match : BranchMatch;
  dd_Admitting : list SelectionEntry;
  dd_Rejecting : list SelectionEntry;
}.

Definition Conflicting (d : DiscoveryDecision) : list SelectionEntry :=
  match dd_Match d with
  | BranchMatchWithheldConflict => dd_Admitting d ++ dd_Rejecting d
  | _ => []
  end.

Record branchPolicy := mkPolicy {
  admitUnknownBranch : bool;
  autoAdmitNewBranches : bool;
}.

(** ** Project matchers *)

Definition matchesClonePath (p : projectMatcher) (clonePath : ClonePath) : bool :=
  bool_decide (clonePath ≠ "" ∧ clonePath ∈ pm_clonePaths p).

Definition matchesRemote (p : projectMatcher) (normalizedRemote : string) : bool :=
  bool_decide (normalizedRemote ≠ "" ∧ pm_gitRemote p ≠ "" ∧ pm_gitRemote p = normalizedRemote).

Definition matchesName (p : projectMatcher) (normalizedName : string) : bool :=
  bool_decide (normalizedName ≠ "" ∧ pm_name p ≠ "" ∧ pm_name p = normalizedName).

Definition admitsBranch (p : projectMatcher) (gitBranch : string) : bool :=
  if decide (pm_branches p = ∅) then true
  else if decide (gitBranch = "") then true
  else bool_decide (gitBranch ∈ pm_branches p).

Definition toBranchSet (branches : list string) : gset string := list_to_set branches.

Definition toClonePathSet (paths : list string) : gset ClonePath :=
  foldl (λ set path,
    if bool_decide (path = "") || negb (IsAbs path) || negb (bool_decide (Clean path = path))
    then set else {[path]} ∪ set) ∅ paths.

Section matcher.
Context `{RemoteLib}.

(** ** Compiling the configuration *)

Definition addBranchExclusion (m : gmap ClonePath (gset string)) (x : branchExclusionInput)
    : gmap ClonePath (gset string) :=
  match exactClonePath (bei_ClonePath x) with
  | None => m
  | Some clonePath =>
      <[clonePath := foldl (λ branches branch,
          let normalized := normalizeBranchForMatch branch in
          if decide (normalized = "") then branches else {[normalized]} ∪ branches)
        (default ∅ (m !! clonePath)) (bei_Branches x)]> m
  end.

Definition newProjectMatcher (proj : projectSelectionInput) : projectMatcher :=
  {| pm_gitRemote := NormalizeRemoteForMatch (psi_GitRemote proj);
     pm_name := NormalizeProjectNameForMatch (psi_Name proj);
     pm_clonePaths := toClonePathSet (psi_ClonePaths proj);
     pm_pathBound := bool_decide (0 < length (psi_ClonePaths proj));
     pm_branches := toBranchSet (psi_Branches proj);
     pm_entry := mkEntry (psi_GitRemote proj) (psi_Name proj)
                   (psi_ClonePaths proj) (psi_Branches proj) |}.

Definition newHarnessMatcher (input : harnessSelectionInput) : harnessMatcher :=
  {| hm_projects := newProjectMatcher <$> hsi_Projects input;
     hm_sessions := list_to_set (hsi_Sessions input);
     hm_branchExclusions := foldl addBranchExclusion ∅ (hsi_BranchExclusions input);
     hm_sessionExclusions :=
       foldl (λ s sid, if decide (sid = "") then s else {[sid]} ∪ s) ∅
         (hsi_SessionExclusions input) |}.

(** The Go loop ranges over a map and writes one entry per key. *)
Definition newSelectionMatcher (harnesses : gmap string harnessSelectionInput) : SelectionMatcher :=
  newHarnessMatcher <$> harnesses.

(** ** The builder *)

Definition AddHarness (name : string) (b : gmap string harnessSelectionInput) :=
  match b !! name with
  | Some _ => b
  | None => <[name := emptyHarnessInput]> b
  end.

(** [p := b.harnesses[harness]; ...; b.harnesses[harness] = p]: a missing
    harness reads as the zero value. *)
Definition updHarness (f : harnessSelectionInput → harnessSelectionInput) (name : string)
    (b : gmap string harnessSelectionInput) : gmap string harnessSelectionInput :=
  <[name := f (default emptyHarnessInput (b !! name))]> b.

Definition AddProjectWithClonePaths (harness gitRemote name : string)
    (clonePaths branches : list string) :=
  updHarness (λ p, {|
    hsi_Projects := hsi_Projects p ++ [mkProjectInput gitRemote name clonePaths branches];
    hsi_Sessions := hsi_Sessions p;
    hsi_BranchExclusions := hsi_BranchExclusions p;
    hsi_SessionExclusions := hsi_SessionExclusions p |}) harness.

Definition AddProject (harness gitRemote name : string) (branches : list string) :=
  AddProjectWithClonePaths harness gitRemote name [] branches.

Definition AddSession (harness sessionID : string) :=
  updHarness (λ p, {|
    hsi_Projects := hsi_Projects p;
    hsi_Sessions := hsi_Sessions p ++ [sessionID];
    hsi_BranchExclusions := hsi_BranchExclusions p;
    hsi_SessionExclusions := hsi_SessionExclusions p |}) harness.

Definition AddBranchExclusion (harness clonePath : string) (branches : list string) :=
  updHarness (λ p, {|
    hsi_Projects := hsi_Projects p;
    hsi_Sessions := hsi_Sessions p;
    hsi_BranchExclusions := hsi_BranchExclusions p ++ [mkBranchExclusion clonePath branches];
    hsi_SessionExclusions := hsi_SessionExclusions p |}) harness.

Definition AddSessionExclusion (harness sessionID : string) :=
  updHarness (λ p, {|
    hsi_Projects := hsi_Projects p;
    hsi_Sessions := hsi_Sessions p;
    hsi_BranchExclusions := hsi_BranchExclusions p;
    hsi_SessionExclusions := hsi_SessionExclusions p ++ [sessionID] |}) harness.

Definition Build (b : gmap string harnessSelectionInput) : SelectionMatcher := newSelectionMatcher b.

(** ** Matching *)

(** The final, name-only step of [matchingProjects]. *)
Definition nameMatches (projects : list projectMatcher) (c : DiscoveryCandidate)
    : list projectMatcher :=
  let normalizedName := NormalizeProjectNameForMatch (dc_ProjectName c) in
  if decide (dc_NameMultiplicity c ≠ DiscoveryIdentityUnique) then []
  else if decide (normalizedName = "") then []
  else filter (λ p, negb (pm_pathBound p) && matchesName p normalizedName = true) projects.

Definition matchingProjects (projects : list projectMatcher) (c : DiscoveryCandidate)
    : list projectMatcher :=
  let exact := if decide (dc_ClonePath c = "") then []
               else filter (λ p, matchesClonePath p (dc_ClonePath c) = true) projects in
  if decide (exact ≠ []) then exact
  else
    let normalizedName := NormalizeProjectNameForMatch (dc_ProjectName c) in
    let by_name := nameMatches projects c in
    let normalizedRemote := NormalizeRemoteForMatch (dc_GitRemote c) in
    if decide (normalizedRemote = "") then by_name
    else if decide (dc_RemoteMultiplicity c ≠ DiscoveryIdentityUnique) then []
    else
      let remoteMatches :=
        filter (λ p, matchesRemote p normalizedRemote && negb (pm_pathBound p) = true) projects in
      let remoteIsPathBound :=
        existsb (λ p, matchesRemote p normalizedRemote && pm_pathBound p) projects in
      if decide (remoteMatches ≠ []) then
        remoteMatches ++
          (if decide (dc_NameMultiplicity c = DiscoveryIdentityUnique)
           then filter (λ p, negb (pm_pathBound p) && negb (matchesRemote p normalizedRemote) &&
                             matchesName p normalizedName = true) projects
           else [])
      else if remoteIsPathBound then []
      else by_name.

Definition projectAdmits (policy : branchPolicy) (c : DiscoveryCandidate) (proj : projectMatcher) : bool :=
  let admitted := admitsBranch proj (dc_Branch c) in
  let admitted :=
    if bool_decide (pm_branches proj ≠ ∅) && bool_decide (dc_Branch c = "") &&
       negb (admitUnknownBranch policy) then false else admitted in
  if bool_decide (pm_branches proj ≠ ∅) && bool_decide (dc_Branch c ≠ "") &&
     autoAdmitNewBranches policy then true else admitted.

Definition excludesCandidate (m : harnessMatcher) (c : DiscoveryCandidate) : bool :=
  if decide (dc_SessionID c ≠ "" ∧ dc_SessionID c ∈ hm_sessionExclusions m) then true
  else match exactClonePath (dc_ClonePath c) with
  | None => false
  | Some clonePath =>
      let branch := normalizeBranchForMatch (dc_Branch c) in
      if decide (branch = "") then false
      else bool_decide (branch ∈ default ∅ (hm_branchExclusions m !! clonePath))
  end.

Definition decideCandidate (m : SelectionMatcher) (c : DiscoveryCandidate) (policy : branchPolicy)
    : DiscoveryDecision :=
  match m !! dc_Harness c with
  | None => mkDecision BranchMatchNo [] []
  | Some pm =>
      let decision :=
        if decide (hm_projects pm = [] ∧ hm_sessions pm = ∅) then mkDecision BranchMatchYes [] []
        else if decide (dc_SessionID c ∈ hm_sessions pm) then mkDecision BranchMatchYes [] []
        else
          let '(adm, rej) := foldl (λ '(adm, rej) proj,
              if projectAdmits policy c proj then (adm ++ [pm_entry proj], rej)
              else (adm, rej ++ [pm_entry proj]))
            ([], []) (matchingProjects (hm_projects pm) c) in
          let result :=
            match adm, rej with
            | [], [] => BranchMatchNo
            | _, [] => BranchMatchYes
            | [], _ => BranchMatchNo
            | _, _ => BranchMatchWithheldConflict
            end in
          mkDecision result adm rej in
      if excludesCandidate pm c then mkDecision BranchMatchNo [] [] else decision
  end.

(** ** The exported matchers *)

Definition withBranch (c : DiscoveryCandidate) (b : string) : DiscoveryCandidate :=
  {| dc_Harness := dc_Harness c; dc_GitRemote := dc_GitRemote c;
     dc_ProjectName := dc_ProjectName c; dc_ClonePath := dc_ClonePath c; dc_Branch := b;
     dc_SessionID := dc_SessionID c; dc_RemoteMultiplicity := dc_RemoteMultiplicity c;
     dc_NameMultiplicity := dc_NameMultiplicity c |}.

Definition MatchesCandidate (m : SelectionMatcher) (c : DiscoveryCandidate) : bool :=
  bool_decide (dd_Match (decideCandidate m (withBranch c "") (mkPolicy true false)) = BranchMatchYes).

Definition positionalCandidate (harness gitRemote projectName gitBranch sessionID : string) :=
  mkCandidate harness gitRemote projectName "" gitBranch sessionID
    DiscoveryIdentityUnique DiscoveryIdentityUnique.

Definition Matches (m : SelectionMatcher) (harness gitRemote projectName sessionID : string) : bool :=
  MatchesCandidate m (positionalCandidate harness gitRemote projectName "" sessionID).

Definition ExcludesCandidate (m : SelectionMatcher) (c : DiscoveryCandidate) : bool :=
  match m !! dc_Harness c with
  | None => false
  | Some selected => excludesCandidate selected c
  end.

Definition DiscoveryNeedsGit (m : SelectionMatcher) (harness sessionID : string) : bool :=
  match m !! harness with
  | None => false
  | Some selected =>
      if decide (sessionID ∈ hm_sessionExclusions selected) then false
      else if decide (hm_branchExclusions selected ≠ ∅) then true
      else if decide (hm_projects selected = []) then false
      else negb (bool_decide (sessionID ∈ hm_sessions selected))
  end.

Definition MatchBranchCandidate (m : SelectionMatcher) (c : DiscoveryCandidate) : BranchMatch :=
  dd_Match (decideCandidate m c (mkPolicy true false)).

Definition MatchBranch (m : SelectionMatcher)
    (harness gitRemote projectName gitBranch sessionID : string) : BranchMatch :=
  MatchBranchCandidate m (positionalCandidate harness gitRemote projectName gitBranch sessionID).

Definition MatchDiscoveryCandidateDecision (m : SelectionMatcher) (c : DiscoveryCandidate)
    (autoNewBranches : bool) : DiscoveryDecision :=
  decideCandidate m c (mkPolicy false autoNewBranches).

Definition MatchDiscoveryCandidate (m : SelectionMatcher) (c : DiscoveryCandidate)
    (autoNewBranches : bool) : BranchMatch :=
  dd_Match (MatchDiscoveryCandidateDecision m c autoNewBranches).

Definition MatchDiscovery (m : SelectionMatcher)
    (harness gitRemote projectName gitBranch sessionID : string) (autoNewBranches : bool) :=
  MatchDiscoveryCandidate m
    (positionalCandidate harness gitRemote projectName gitBranch sessionID) autoNewBranches.

(** ** The saved configuration ([config.CompileSelectionMatcher]) *)

Record ProjectSelection := mkProjectSelection {
  ps_GitRemote : string;
  ps_Name : string;
  ps_ClonePaths : list string;
  ps_Branches : list string;
}.

Record BranchExclusion := mkConfigBranchExclusion {
  be_ClonePath : string;
  be_Branches : list string;
}.

Record SelectionHarnessConfig := mkHarnessConfig {
  shc_Projects : list ProjectSelection;
  shc_Sessions : list string;
  shc_ExclBranches : list BranchExclusion;
  shc_ExclSessions : list string;
}.

Definition SelectionModeAll : string := "all".
Definition SelectionModeSelected : string := "selected".
Definition AllSelectionModes : list string := [SelectionModeAll; SelectionModeSelected].
Definition SelectionMode_IsValid (m : string) : bool := bool_decide (m ∈ AllSelectionModes).

Record SelectionConfig := mkSelectionConfig {
  sc_Mode : string;
  sc_AutoIngestNewBranches : bool;
  sc_Harnesses : gmap string SelectionHarnessConfig;
}.

(** The loop body for one harness: the builder calls, in order. *)
Definition compileHarness (mode : string) (b : gmap string harnessSelectionInput)
    (entry : string * SelectionHarnessConfig) : gmap string harnessSelectionInput :=
  let '(harness, selected) := entry in
  let b := AddHarness harness b in
  let b := foldl (λ b project,
    AddProjectWithClonePaths harness (ps_GitRemote project) (ps_Name project)
      (ps_ClonePaths project) (ps_Branches project) b) b (shc_Projects selected) in
  let b := foldl (λ b sid, AddSession harness sid b) b (shc_Sessions selected) in
  if decide (mode = SelectionModeSelected) then
    let b := foldl (λ b x, AddBranchExclusion harness (be_ClonePath x) (be_Branches x) b)
               b (shc_ExclBranches selected) in
    foldl (λ b sid, AddSessionExclusion harness sid b) b (shc_ExclSessions selected)
  else b.

(** Go ranges over [selection.Harnesses] in an unspecified order: [order] is
    the order this run sees. *)
Definition CompileSelectionMatcher_in (mode : string)
    (order : list (string * SelectionHarnessConfig)) : SelectionMatcher :=
  Build (foldl (compileHarness mode) ∅ order).

Definition CompileSelectionMatcher (selection : SelectionConfig) : SelectionMatcher :=
  CompileSelectionMatcher_in (sc_Mode selection) (map_to_list (sc_Harnesses selection)).
End matcher.

(** * Theorems *)

Section matcher_facts.
Context `{RemoteLib}.
Implicit Types (m : gmap string harnessMatcher) (pm : harnessMatcher) (p : projectMatcher)
  (ps : list projectMatcher).

(** ** The specification of one decision *)

(** A branch rule admits a branch. *)
Definition BranchAdmitted (policy : branchPolicy) (branches : gset string) (b : string) : Prop :=
  branches = ∅ ∨
  (b = "" ∧ admitUnknownBranch policy = true) ∨
  (b ≠ "" ∧ (autoAdmitNewBranches policy = true ∨ b ∈ branches)).

(** An exact denial: a session ID, or a branch of one physical clone. *)
Definition Denied (pm : harnessMatcher) (c : DiscoveryCandidate) : Prop :=
  (dc_SessionID c ≠ "" ∧ dc_SessionID c ∈ hm_sessionExclusions pm) ∨
  (exactClonePath (dc_ClonePath c) = Some (dc_ClonePath c) ∧
   normalizeBranchForMatch (dc_Branch c) ≠ "" ∧
   ∃ bs, hm_branchExclusions pm !! dc_ClonePath c = Some bs ∧
         normalizeBranchForMatch (dc_Branch c) ∈ bs).

Definition Unrestricted (pm : harnessMatcher) : Prop := hm_projects pm = [] ∧ hm_sessions pm = ∅.

Lemma projectAdmits_spec policy c p :
  projectAdmits policy c p = true ↔ BranchAdmitted policy (pm_branches p) (dc_Branch c).
Proof.
  unfold projectAdmits, admitsBranch, BranchAdmitted.
  destruct (admitUnknownBranch policy), (autoAdmitNewBranches policy);
    repeat case_decide; repeat case_bool_decide; simpl; naive_solver.
Qed.

Lemma exactClonePath_Some path q : exactClonePath path = Some q → q = path.
Proof. unfold exactClonePath. case_match; naive_solver. Qed.

Lemma excludesCandidate_spec pm c : excludesCandidate pm c = true ↔ Denied pm c.
Proof.
  unfold excludesCandidate, Denied. case_decide as Hs; [tauto|].
  destruct (exactClonePath (dc_ClonePath c)) as [q|] eqn:Eq; [|naive_solver].
  apply exactClonePath_Some in Eq as ->.
  case_decide as Hb; [naive_solver|]. rewrite bool_decide_eq_true.
  destruct (hm_branchExclusions pm !! dc_ClonePath c); simpl; split; try set_solver; naive_solver.
Qed.

(** The loop over the matching projects splits their entries by verdict. *)
Lemma decide_loop policy c l adm rej :
  foldl (λ '(adm, rej) proj,
      if projectAdmits policy c proj then (adm ++ [pm_entry proj], rej)
      else (adm, rej ++ [pm_entry proj])) (adm, rej) l =
  (adm ++ (pm_entry <$> filter (λ p, projectAdmits policy c p = true) l),
   rej ++ (pm_entry <$> filter (λ p, projectAdmits policy c p ≠ true) l)).
Proof.
  revert adm rej. induction l as [|p l IH]; intros adm rej; simpl.
  - by rewrite !app_nil_r.
  - rewrite !filter_cons. destruct (projectAdmits policy c p); simpl; rewrite IH;
      rewrite <- (assoc_L (++)); done.
Qed.

Definition loop_match {A} (adm rej : list A) : BranchMatch :=
  match adm, rej with
  | [], [] => BranchMatchNo
  | _, [] => BranchMatchYes
  | [], _ => BranchMatchNo
  | _, _ => BranchMatchWithheldConflict
  end.

Lemma loop_match_fmap {A B} (f : A → B) adm rej :
  loop_match (f <$> adm) (f <$> rej) = loop_match adm rej.
Proof. by destruct adm, rej. Qed.

Lemma loop_match_perm {A} (a a' r r' : list A) :
  a ≡ₚ a' → r ≡ₚ r' → loop_match a r = loop_match a' r'.
Proof.
  intros Ha Hr. destruct a, a', r, r'; try done;
    first [by apply Permutation_nil_cons in Ha | by symmetry in Ha; apply Permutation_nil_cons in Ha
          |by apply Permutation_nil_cons in Hr | by symmetry in Hr; apply Permutation_nil_cons in Hr].
Qed.

(** [decideCandidate] with its loop replaced by the two filters. *)
Definition projectDecision (policy : branchPolicy) (c : DiscoveryCandidate)
    (l : list projectMatcher) : DiscoveryDecision :=
  let adm := filter (λ p, projectAdmits policy c p = true) l in
  let rej := filter (λ p, projectAdmits policy c p ≠ true) l in
  mkDecision (loop_match adm rej) (pm_entry <$> adm) (pm_entry <$> rej).

Lemma decideCandidate_eq m c policy :
  decideCandidate m c policy =
  match m !! dc_Harness c with
  | None => mkDecision BranchMatchNo [] []
  | Some pm =>
      if excludesCandidate pm c then mkDecision BranchMatchNo [] []
      else if decide (Unrestricted pm ∨ dc_SessionID c ∈ hm_sessions pm)
           then mkDecision BranchMatchYes [] []
           else projectDecision policy c (matchingProjects (hm_projects pm) c)
  end.
Proof.
  unfold decideCandidate. destruct (m !! dc_Harness c) as [pm|]; [|done].
  destruct (excludesCandidate pm c); [done|].
  rewrite decide_loop. simpl. unfold projectDecision.
  rewrite <- (loop_match_fmap pm_entry). unfold Unrestricted.
  repeat case_decide; tauto || done.
Qed.

Lemma projectDecision_yes policy c l :
  dd_Match (projectDecision policy c l) = BranchMatchYes ↔
  l ≠ [] ∧ ∀ p, p ∈ l → BranchAdmitted policy (pm_branches p) (dc_Branch c).
Proof.
  simpl. setoid_rewrite <- projectAdmits_spec.
  destruct (filter (λ p, projectAdmits policy c p ≠ true) l) as [|r rs] eqn:Er.
  - assert (∀ p, p ∈ l → projectAdmits policy c p = true) as Hall.
    { intros p Hp. destruct (projectAdmits policy c p) eqn:E; [done|].
      exfalso. apply (proj1 (filter_nil_iff _ l) Er p Hp). by rewrite E. }
    destruct l as [|x l]; [split; [done|by intros []]|].
    rewrite filter_cons, decide_True by (apply Hall; set_solver). done.
  - assert (r ∈ filter (λ p, projectAdmits policy c p ≠ true) l) as [Hr Hl]%list_elem_of_filter
      by (rewrite Er; set_solver).
    split; [by destruct (filter (λ p, projectAdmits policy c p = true) l)|]. intros [_ Hall]. by destruct (Hr (Hall r Hl)).
Qed.

Lemma projectDecision_conflict policy c l :
  dd_Match (projectDecision policy c l) = BranchMatchWithheldConflict ↔
  (∃ p, p ∈ l ∧ BranchAdmitted policy (pm_branches p) (dc_Branch c)) ∧
  (∃ p, p ∈ l ∧ ¬ BranchAdmitted policy (pm_branches p) (dc_Branch c)).
Proof.
  simpl. setoid_rewrite <- projectAdmits_spec.
  rewrite <- (filter_not_nil_iff (λ p, projectAdmits policy c p = true)).
  rewrite <- (filter_not_nil_iff (λ p, projectAdmits policy c p ≠ true)).
  by destruct (filter (λ p, projectAdmits policy c p = true) l),
    (filter (λ p, projectAdmits policy c p ≠ true) l); simpl; naive_solver.
Qed.

(** ** The matching projects *)

(** The evidence on which a project may identify a candidate: its exact clone
    path, a remote proved unique, or a name proved unique. *)
Definition ByPath (c : DiscoveryCandidate) (p : projectMatcher) : Prop :=
  dc_ClonePath c ≠ "" ∧ dc_ClonePath c ∈ pm_clonePaths p.
Definition ByRemote (c : DiscoveryCandidate) (p : projectMatcher) : Prop :=
  dc_RemoteMultiplicity c = DiscoveryIdentityUnique ∧
  NormalizeRemoteForMatch (dc_GitRemote c) ≠ "" ∧
  pm_gitRemote p = NormalizeRemoteForMatch (dc_GitRemote c) ∧ pm_pathBound p = false.
Definition ByName (c : DiscoveryCandidate) (p : projectMatcher) : Prop :=
  dc_NameMultiplicity c = DiscoveryIdentityUnique ∧
  NormalizeProjectNameForMatch (dc_ProjectName c) ≠ "" ∧
  pm_name p = NormalizeProjectNameForMatch (dc_ProjectName c) ∧ pm_pathBound p = false.

#[export] Instance ByRemote_dec c p : Decision (ByRemote c p).
Proof. unfold ByRemote. apply _. Defined.

Lemma matchesClonePath_spec c p : matchesClonePath p (dc_ClonePath c) = true ↔ ByPath c p.
Proof. apply bool_decide_eq_true. Qed.

Lemma matchesRemote_spec p r : matchesRemote p r = true ↔ r ≠ "" ∧ pm_gitRemote p = r.
Proof. unfold matchesRemote. rewrite bool_decide_eq_true. split; [tauto|intros [? <-]; tauto]. Qed.

Lemma matchesName_spec p n : matchesName p n = true ↔ n ≠ "" ∧ pm_name p = n.
Proof. unfold matchesName. rewrite bool_decide_eq_true. split; [tauto|intros [? <-]; tauto]. Qed.

Lemma exact_filter_spec c ps p :
  p ∈ (if decide (dc_ClonePath c = "") then []
       else filter (λ p, matchesClonePath p (dc_ClonePath c) = true) ps) ↔ p ∈ ps ∧ ByPath c p.
Proof.
  rewrite <- matchesClonePath_spec. case_decide as Hc.
  - rewrite Hc. unfold matchesClonePath. rewrite bool_decide_eq_true. set_solver.
  - rewrite list_elem_of_filter. tauto.
Qed.

Lemma nameMatches_evidence ps c p : p ∈ nameMatches ps c → p ∈ ps ∧ ByName c p.
Proof.
  unfold nameMatches, ByName. case_decide as Hm; [set_solver|].
  case_decide; [set_solver|].
  rewrite list_elem_of_filter, andb_true_iff, negb_true_iff, matchesName_spec. naive_solver.
Qed.

Lemma matchingProjects_evidence ps c p :
  p ∈ matchingProjects ps c → p ∈ ps ∧ (ByPath c p ∨ ByRemote c p ∨ ByName c p).
Proof.
  unfold matchingProjects. case_decide as Hx; [rewrite exact_filter_spec; tauto|]. clear Hx.
  case_decide as Hr; [intros []%nameMatches_evidence; tauto|].
  case_decide as Hu; [set_solver|].
  case_decide as Hne.
  - rewrite elem_of_app. intros [Hp|Hp].
    + revert Hp. rewrite list_elem_of_filter, andb_true_iff, negb_true_iff, matchesRemote_spec.
      unfold ByRemote. naive_solver.
    + revert Hp. case_decide as Hn; [|set_solver].
      rewrite list_elem_of_filter, !andb_true_iff, !negb_true_iff, matchesName_spec.
      unfold ByName. naive_solver.
  - case_match; [set_solver|]. intros []%nameMatches_evidence; tauto.
Qed.
(** [Identifies ps c p]: of the projects [ps], [p] identifies candidate [c] by
    the strongest evidence available.  An exact path beats everything; a
    remote must be proved unique; a remote that only path-bound projects
    carry closes the weaker name route. *)
Definition Identifies (ps : list projectMatcher) (c : DiscoveryCandidate) (p : projectMatcher) : Prop :=
  ByPath c p ∨
  (∀ q, q ∈ ps → ¬ ByPath c q) ∧
  ((NormalizeRemoteForMatch (dc_GitRemote c) = "" ∧ ByName c p) ∨
   (NormalizeRemoteForMatch (dc_GitRemote c) ≠ "" ∧
    dc_RemoteMultiplicity c = DiscoveryIdentityUnique ∧
    (((∃ q, q ∈ ps ∧ ByRemote c q) ∧ (ByRemote c p ∨ ByName c p)) ∨
     ((∀ q, q ∈ ps → pm_gitRemote q ≠ NormalizeRemoteForMatch (dc_GitRemote c)) ∧ ByName c p)))).

Lemma nameMatches_spec ps c p : p ∈ nameMatches ps c ↔ p ∈ ps ∧ ByName c p.
Proof.
  split; [apply nameMatches_evidence|]. intros [Hp (Hm & Hn & He & Hb)].
  unfold nameMatches. rewrite !decide_False by naive_solver.
  rewrite list_elem_of_filter, andb_true_iff, negb_true_iff, matchesName_spec. done.
Qed.

Lemma remote_filter_spec ps c p :
  dc_RemoteMultiplicity c = DiscoveryIdentityUnique →
  p ∈ filter (λ p, matchesRemote p (NormalizeRemoteForMatch (dc_GitRemote c)) &&
                   negb (pm_pathBound p) = true) ps ↔ p ∈ ps ∧ ByRemote c p.
Proof.
  intros Hu. rewrite list_elem_of_filter, andb_true_iff, negb_true_iff, matchesRemote_spec.
  unfold ByRemote. tauto.
Qed.

Lemma remote_extra_spec ps c p :
  NormalizeRemoteForMatch (dc_GitRemote c) ≠ "" →
  dc_RemoteMultiplicity c = DiscoveryIdentityUnique →
  p ∈ (if decide (dc_NameMultiplicity c = DiscoveryIdentityUnique)
       then filter (λ p, negb (pm_pathBound p) &&
              negb (matchesRemote p (NormalizeRemoteForMatch (dc_GitRemote c))) &&
              matchesName p (NormalizeProjectNameForMatch (dc_ProjectName c)) = true) ps
       else []) ↔ p ∈ ps ∧ ByName c p ∧ ¬ ByRemote c p.
Proof.
  intros Hr Hu. unfold ByName, ByRemote. case_decide as Hn; [|set_solver].
  rewrite list_elem_of_filter, !andb_true_iff, !negb_true_iff, matchesName_spec.
  rewrite <- (not_true_iff_false (matchesRemote _ _)), matchesRemote_spec. tauto.
Qed.

Lemma bound_remote_spec ps r :
  existsb (λ p, matchesRemote p r && pm_pathBound p) ps = true ↔
  ∃ p, p ∈ ps ∧ r ≠ "" ∧ pm_gitRemote p = r ∧ pm_pathBound p = true.
Proof.
  rewrite existsb_exists. setoid_rewrite andb_true_iff. setoid_rewrite matchesRemote_spec.
  setoid_rewrite list_elem_of_In. naive_solver.
Qed.

Lemma exact_nil_spec ps c :
  (if decide (dc_ClonePath c = "") then []
   else filter (λ p, matchesClonePath p (dc_ClonePath c) = true) ps) = [] ↔
  ∀ q, q ∈ ps → ¬ ByPath c q.
Proof.
  split.
  - intros He q Hq Hb. assert (q ∈ ([] : list projectMatcher)) as Hin; [|set_solver].
    rewrite <- He. by apply exact_filter_spec.
  - intros Hno. destruct (if decide _ then _ else _) as [|q l] eqn:E; [done|].
    destruct (proj1 (exact_filter_spec c ps q)) as [Hq Hb]; [rewrite E; set_solver|].
    by destruct (Hno q Hq).
Qed.

Lemma remote_nil_spec ps c :
  dc_RemoteMultiplicity c = DiscoveryIdentityUnique →
  filter (λ p, matchesRemote p (NormalizeRemoteForMatch (dc_GitRemote c)) &&
               negb (pm_pathBound p) = true) ps ≠ [] ↔ ∃ q, q ∈ ps ∧ ByRemote c q.
Proof.
  intros Hu. setoid_rewrite <- (remote_filter_spec ps c); [|done]. split.
  - intros Hne. destruct (filter _ ps) as [|q l] eqn:E; [done|]. exists q. set_solver.
  - intros (q & Hq) Hnil. rewrite Hnil in Hq. set_solver.
Qed.

Theorem matchingProjects_spec ps c p :
  p ∈ matchingProjects ps c ↔ p ∈ ps ∧ Identifies ps c p.
Proof.
  unfold matchingProjects, Identifies. case_decide as Hx.
  { rewrite exact_filter_spec. assert (¬ ∀ q, q ∈ ps → ¬ ByPath c q) as Hno by
      (by rewrite <- exact_nil_spec). tauto. }
  pose proof (proj1 (exact_nil_spec ps c) Hx) as Hno; clear Hx; rename Hno into Hx.
  assert (p ∈ ps → ¬ ByPath c p) as Hp by apply Hx.
  case_decide as Hr; [rewrite nameMatches_spec; tauto|].
  case_decide as Hu; [split; [set_solver|tauto]|].
  pose proof (remote_nil_spec ps c Hu) as Hrn.
  case_decide as Hne.
  - rewrite elem_of_app, remote_filter_spec, remote_extra_spec by done.
    destruct (proj1 Hrn Hne) as (q & Hq & Hbq).
    assert (¬ ∀ q, q ∈ ps → pm_gitRemote q ≠ NormalizeRemoteForMatch (dc_GitRemote c)) as Hnr.
    { intros Hall. by apply (Hall q Hq), Hbq. }
    assert (∃ q, q ∈ ps ∧ ByRemote c q) by eauto.
    destruct (decide (ByRemote c p)); tauto.
  - assert (¬ ∃ q, q ∈ ps ∧ ByRemote c q) as Hno by tauto.
    destruct (existsb _ ps) eqn:Eb.
    + apply bound_remote_spec in Eb as (q & Hq & _ & Hg & _).
      assert (¬ ∀ q, q ∈ ps → pm_gitRemote q ≠ NormalizeRemoteForMatch (dc_GitRemote c)) as Hnr.
      { intros Hall. by apply (Hall q Hq). }
      split; [set_solver|tauto].
    + assert (∀ q, q ∈ ps → pm_gitRemote q ≠ NormalizeRemoteForMatch (dc_GitRemote c)) as Hall.
      { intros q Hq Hg. destruct (pm_pathBound q) eqn:Ebq.
        - apply not_true_iff_false in Eb. apply Eb, bound_remote_spec. eauto.
        - apply Hno. exists q. unfold ByRemote. tauto. }
      rewrite nameMatches_spec. tauto.
Qed.

(** ** The decision *)

(** Positive admission: the harness is unrestricted, the session is listed,
    or some project identifies the candidate and all that do admit its
    branch. *)
Definition AdmittedBy (policy : branchPolicy) (pm : harnessMatcher) (c : DiscoveryCandidate) : Prop :=
  Unrestricted pm ∨ dc_SessionID c ∈ hm_sessions pm ∨
  ((∃ p, p ∈ hm_projects pm ∧ Identifies (hm_projects pm) c p) ∧
   ∀ p, p ∈ hm_projects pm → Identifies (hm_projects pm) c p →
        BranchAdmitted policy (pm_branches p) (dc_Branch c)).

(** The identifying projects disagree about the branch. *)
Definition Disagreed (policy : branchPolicy) (pm : harnessMatcher) (c : DiscoveryCandidate) : Prop :=
  ¬ Unrestricted pm ∧ dc_SessionID c ∉ hm_sessions pm ∧
  (∃ p, p ∈ hm_projects pm ∧ Identifies (hm_projects pm) c p ∧
        BranchAdmitted policy (pm_branches p) (dc_Branch c)) ∧
  (∃ p, p ∈ hm_projects pm ∧ Identifies (hm_projects pm) c p ∧
        ¬ BranchAdmitted policy (pm_branches p) (dc_Branch c)).

Lemma not_denied pm c : excludesCandidate pm c = false ↔ ¬ Denied pm c.
Proof. by rewrite <- excludesCandidate_spec, not_true_iff_false. Qed.

Lemma decide_yes_iff m c policy :
  dd_Match (decideCandidate m c policy) = BranchMatchYes ↔
  ∃ pm, m !! dc_Harness c = Some pm ∧ ¬ Denied pm c ∧ AdmittedBy policy pm c.
Proof.
  rewrite decideCandidate_eq. destruct (m !! dc_Harness c) as [pm|]; [|naive_solver].
  trans (¬ Denied pm c ∧ AdmittedBy policy pm c); [|naive_solver]. rewrite <- not_denied.
  destruct (excludesCandidate pm c); [naive_solver|]. unfold AdmittedBy.
  case_decide as Hp; [tauto|]. rewrite projectDecision_yes, <- not_nil_iff.
  setoid_rewrite matchingProjects_spec. naive_solver.
Qed.

Lemma decide_conflict_iff m c policy :
  dd_Match (decideCandidate m c policy) = BranchMatchWithheldConflict ↔
  ∃ pm, m !! dc_Harness c = Some pm ∧ ¬ Denied pm c ∧ Disagreed policy pm c.
Proof.
  rewrite decideCandidate_eq. destruct (m !! dc_Harness c) as [pm|]; [|naive_solver].
  trans (¬ Denied pm c ∧ Disagreed policy pm c); [|naive_solver]. rewrite <- not_denied.
  destruct (excludesCandidate pm c); [naive_solver|]. unfold Disagreed.
  case_decide as Hp; [naive_solver|]. rewrite projectDecision_conflict.
  setoid_rewrite matchingProjects_spec. naive_solver.
Qed.

(** ** Compiled matchers *)

Lemma Build_lookup (b : gmap string harnessSelectionInput) h :
  Build b !! h = newHarnessMatcher <$> b !! h.
Proof. apply lookup_fmap. Qed.

Lemma sessionExclusions_fold l (s : gset string) sid :
  sid ∈ foldl (λ s sid, if decide (sid = "") then s else {[sid]} ∪ s) s l ↔
  sid ∈ s ∨ (sid ∈ l ∧ sid ≠ "").
Proof.
  revert s. induction l as [|x l IH]; intros s; simpl; [set_solver|].
  rewrite IH. case_decide; set_solver.
Qed.

Lemma normalized_fold l (s : gset string) br :
  br ∈ foldl (λ branches branch,
      let normalized := normalizeBranchForMatch branch in
      if decide (normalized = "") then branches else {[normalized]} ∪ branches) s l ↔
  br ∈ s ∨ (br ∈ normalizeBranchForMatch <$> l ∧ br ≠ "").
Proof.
  revert s. induction l as [|x l IH]; intros s; simpl; [set_solver|].
  rewrite IH. case_decide; set_solver.
Qed.

Lemma addBranchExclusion_spec (mp : gmap string (gset string)) x path br :
  br ∈ default ∅ (addBranchExclusion mp x !! path) ↔
  br ∈ default ∅ (mp !! path) ∨
  (exactClonePath (bei_ClonePath x) = Some path ∧
   br ∈ normalizeBranchForMatch <$> bei_Branches x ∧ br ≠ "").
Proof.
  unfold addBranchExclusion. destruct (exactClonePath (bei_ClonePath x)) as [q|]; [|naive_solver].
  destruct (decide (q = path)) as [->|Hne].
  - rewrite lookup_insert_eq. simpl. rewrite normalized_fold. naive_solver.
  - rewrite lookup_insert_ne by done. naive_solver.
Qed.

(** *** Denials *)

Definition deniesSession (h sid : string) (c : DiscoveryCandidate) : Prop :=
  dc_Harness c = h ∧ dc_SessionID c = sid ∧ sid ≠ "".
Definition deniesBranch (h path : string) (branches : list string) (c : DiscoveryCandidate) : Prop :=
  dc_Harness c = h ∧ dc_ClonePath c = path ∧ exactClonePath path = Some path ∧
  normalizeBranchForMatch (dc_Branch c) ≠ "" ∧
  normalizeBranchForMatch (dc_Branch c) ∈ normalizeBranchForMatch <$> branches.

Lemma excludes_AddSessionExclusion i h sid c :
  dc_Harness c = h →
  excludesCandidate (newHarnessMatcher
    (mkHarnessInput (hsi_Projects i) (hsi_Sessions i) (hsi_BranchExclusions i)
       (hsi_SessionExclusions i ++ [sid]))) c = true ↔
  deniesSession h sid c ∨ excludesCandidate (newHarnessMatcher i) c = true.
Proof.
  intros Hh. rewrite !excludesCandidate_spec. unfold Denied, deniesSession. simpl.
  rewrite !sessionExclusions_fold. set_solver.
Qed.

Lemma Denied_default pm c :
  Denied pm c ↔
  (dc_SessionID c ≠ "" ∧ dc_SessionID c ∈ hm_sessionExclusions pm) ∨
  (exactClonePath (dc_ClonePath c) = Some (dc_ClonePath c) ∧
   normalizeBranchForMatch (dc_Branch c) ≠ "" ∧
   normalizeBranchForMatch (dc_Branch c) ∈ default ∅ (hm_branchExclusions pm !! dc_ClonePath c)).
Proof.
  unfold Denied. destruct (hm_branchExclusions pm !! dc_ClonePath c); simpl; set_solver.
Qed.

Lemma excludes_AddBranchExclusion i h path branches c :
  dc_Harness c = h →
  excludesCandidate (newHarnessMatcher
    (mkHarnessInput (hsi_Projects i) (hsi_Sessions i)
       (hsi_BranchExclusions i ++ [mkBranchExclusion path branches])
       (hsi_SessionExclusions i))) c = true ↔
  deniesBranch h path branches c ∨ excludesCandidate (newHarnessMatcher i) c = true.
Proof.
  intros Hh. rewrite !excludesCandidate_spec, !Denied_default. unfold deniesBranch. simpl.
  rewrite foldl_app. simpl. rewrite addBranchExclusion_spec. simpl.
  assert (∀ q, exactClonePath path = Some q → q = path) as Hq by apply exactClonePath_Some.
  naive_solver.
Qed.

Definition decision_No : DiscoveryDecision := mkDecision BranchMatchNo [] [].

(** A builder step that keeps a harness's positive rules and adds the denials
    [X] changes exactly the candidates [X] covers. *)
Lemma decide_denial_law b h i f (X : Prop) `{!Decision X} c policy :
  b !! h = Some i →
  hsi_Projects (f i) = hsi_Projects i → hsi_Sessions (f i) = hsi_Sessions i →
  (X → dc_Harness c = h) →
  (dc_Harness c = h →
   excludesCandidate (newHarnessMatcher (f i)) c = true ↔
   X ∨ excludesCandidate (newHarnessMatcher i) c = true) →
  decideCandidate (Build (updHarness f h b)) c policy =
  if decide X then decision_No else decideCandidate (Build b) c policy.
Proof.
  intros Hb Hp Hs HX Hex. unfold updHarness. rewrite Hb, !decideCandidate_eq, !Build_lookup. simpl.
  destruct (decide (dc_Harness c = h)) as [Hh|Hh].
  - rewrite Hh, lookup_insert_eq, Hb. simpl. unfold Unrestricted. simpl. rewrite Hp, Hs.
    specialize (Hex Hh).
    destruct (excludesCandidate (newHarnessMatcher (f i)) c),
      (excludesCandidate (newHarnessMatcher i) c), (decide X); naive_solver.
  - rewrite lookup_insert_ne by done. rewrite decide_False by tauto. done.
Qed.

#[export] Instance deniesSession_dec h sid c : Decision (deniesSession h sid c).
Proof. unfold deniesSession. apply _. Defined.
#[export] Instance deniesBranch_dec h path branches c : Decision (deniesBranch h path branches c).
Proof. unfold deniesBranch. apply _. Defined.

(** C40: An exclusion is exact.  Adding a session or branch exclusion for a
    configured harness turns into No precisely the candidates it names (that
    session ID, or those branches of that physical clone); every other
    candidate's decision, entries included, is what it was. *)
Theorem exclusions_are_exact b h sid path branches c policy :
  is_Some (b !! h) →
  decideCandidate (Build (AddSessionExclusion h sid b)) c policy =
    (if decide (deniesSession h sid c) then decision_No
     else decideCandidate (Build b) c policy) ∧
  decideCandidate (Build (AddBranchExclusion h path branches b)) c policy =
    (if decide (deniesBranch h path branches c) then decision_No
     else decideCandidate (Build b) c policy).
Proof.
  intros [i Hi]. split.
  - eapply (decide_denial_law b h i _ (deniesSession h sid c)); try done.
    + by intros [].
    + apply excludes_AddSessionExclusion.
  - eapply (decide_denial_law b h i _ (deniesBranch h path branches c)); try done.
    + by intros [].
    + apply excludes_AddBranchExclusion.
Qed.

(** Selection is fail-closed and its three outcomes are exactly these.
    A candidate is selected iff its harness is configured, no exact denial
    names it, and it is admitted: the harness is unrestricted, its session ID
    is listed, or the projects that identify it (by exact clone path, else by
    a remote proved unique, else by a name proved unique) exist and all admit
    its branch.  It is withheld iff those projects disagree. *)
Theorem decideCandidate_outcomes m c policy :
  (dd_Match (decideCandidate m c policy) = BranchMatchYes ↔
   ∃ pm, m !! dc_Harness c = Some pm ∧ ¬ Denied pm c ∧ AdmittedBy policy pm c) ∧
  (dd_Match (decideCandidate m c policy) = BranchMatchWithheldConflict ↔
   ∃ pm, m !! dc_Harness c = Some pm ∧ ¬ Denied pm c ∧ Disagreed policy pm c).
Proof. split; [apply decide_yes_iff|apply decide_conflict_iff]. Qed.

Lemma matchingProjects_nil c : matchingProjects [] c = [].
Proof. apply elem_of_nil_inv. intros p. rewrite matchingProjects_spec. set_solver. Qed.

Lemma DiscoveryNeedsGit_sound_at m pm policy c1 c2 :
  m !! dc_Harness c1 = Some pm → "" ∉ hm_sessionExclusions pm →
  DiscoveryNeedsGit m (dc_Harness c1) (dc_SessionID c1) = false →
  dc_Harness c2 = dc_Harness c1 → dc_SessionID c2 = dc_SessionID c1 →
  decideCandidate m c2 policy = decideCandidate m c1 policy.
Proof.
  unfold DiscoveryNeedsGit. rewrite !decideCandidate_eq. intros Hm Hempty Hg -> Hs2.
  rewrite Hm in *.
  assert (∀ c, dc_SessionID c = dc_SessionID c1 →
    dc_SessionID c1 ∈ hm_sessionExclusions pm → excludesCandidate pm c = true) as Hex.
  { intros c Hc Hin. apply excludesCandidate_spec. left. rewrite Hc. split; congruence. }
  destruct (decide (dc_SessionID c1 ∈ hm_sessionExclusions pm)) as [Hin|Hin]; [by rewrite !Hex|].
  destruct (decide (hm_branchExclusions pm ≠ ∅)) as [|Hbr]; [done|].
  apply dec_stable in Hbr.
  assert (∀ c, dc_SessionID c = dc_SessionID c1 → excludesCandidate pm c = false) as Hnx.
  { intros c Hc. apply not_denied. unfold Denied. rewrite Hc, Hbr.
    intros [[_ ?]|(_ & _ & ? & Hl & _)]; [done|]. by rewrite lookup_empty in Hl. }
  rewrite !Hnx, Hs2 by done.
  destruct (decide (Unrestricted pm ∨ dc_SessionID c1 ∈ hm_sessions pm)) as [|Hu]; [done|].
  destruct (decide (hm_projects pm = [])) as [->|_]; [by rewrite !matchingProjects_nil|].
  apply negb_false_iff, bool_decide_eq_true in Hg. tauto.
Qed.

(** Skipping git resolution is sound.  When [DiscoveryNeedsGit] answers
    no for a harness and session under a compiled selection, the decision is
    the same for every remote, project name, clone path, branch and
    multiplicity the session could turn out to have. *)
Theorem DiscoveryNeedsGit_sound b policy c1 c2 :
  DiscoveryNeedsGit (Build b) (dc_Harness c1) (dc_SessionID c1) = false →
  dc_Harness c2 = dc_Harness c1 → dc_SessionID c2 = dc_SessionID c1 →
  decideCandidate (Build b) c2 policy = decideCandidate (Build b) c1 policy.
Proof.
  intros Hg Hh Hs. destruct (Build b !! dc_Harness c1) as [pm|] eqn:Hm.
  - eapply DiscoveryNeedsGit_sound_at; try done.
    rewrite Build_lookup in Hm. apply fmap_Some in Hm as (i & _ & ->). simpl.
    rewrite sessionExclusions_fold. set_solver.
  - by rewrite !decideCandidate_eq, Hh, Hm.
Qed.

(** *** The order of the configuration is irrelevant *)

Lemma branchMatch_ext (x y : BranchMatch) :
  (x = BranchMatchYes ↔ y = BranchMatchYes) →
  (x = BranchMatchWithheldConflict ↔ y = BranchMatchWithheldConflict) → x = y.
Proof. destruct x, y; intuition discriminate || done. Qed.

Lemma Identifies_ext ps ps' c p :
  (∀ q, q ∈ ps ↔ q ∈ ps') → Identifies ps c p ↔ Identifies ps' c p.
Proof. intros Hps. unfold Identifies. by setoid_rewrite Hps. Qed.

(** The verdict depends on the set of configured projects only, not on
    their order or repetition in the configuration file. *)
Theorem project_order_irrelevant m pm pm' c policy :
  m !! dc_Harness c = Some pm →
  (∀ q, q ∈ hm_projects pm ↔ q ∈ hm_projects pm') →
  hm_sessions pm' = hm_sessions pm →
  hm_branchExclusions pm' = hm_branchExclusions pm →
  hm_sessionExclusions pm' = hm_sessionExclusions pm →
  dd_Match (decideCandidate (<[dc_Harness c := pm']> m) c policy) =
  dd_Match (decideCandidate m c policy).
Proof.
  intros Hm Hps Hs Hb He.
  assert (Unrestricted pm' ↔ Unrestricted pm) as Hun.
  { unfold Unrestricted. rewrite Hs, !nil_iff_not_elem. by setoid_rewrite Hps. }
  assert (Denied pm' c ↔ Denied pm c) as Hd by (unfold Denied; by rewrite Hb, He).
  assert (∀ p, Identifies (hm_projects pm') c p ↔ Identifies (hm_projects pm) c p) as Hi
    by (intros p; symmetry; by apply Identifies_ext).
  pose proof (decide_yes_iff m c policy) as Hy. pose proof (decide_conflict_iff m c policy) as Hw.
  pose proof (decide_yes_iff (<[dc_Harness c := pm']> m) c policy) as Hy'.
  pose proof (decide_conflict_iff (<[dc_Harness c := pm']> m) c policy) as Hw'.
  rewrite lookup_insert_eq in Hy', Hw'. rewrite Hm in Hy, Hw.
  assert (AdmittedBy policy pm' c ↔ AdmittedBy policy pm c) as Ha.
  { unfold AdmittedBy. rewrite Hun, Hs. setoid_rewrite Hi. by setoid_rewrite Hps. }
  assert (Disagreed policy pm' c ↔ Disagreed policy pm c) as Hg.
  { unfold Disagreed. rewrite Hun, Hs. setoid_rewrite Hi. by setoid_rewrite Hps. }
  apply branchMatch_ext.
  - rewrite Hy, Hy'. split; intros (? & [= <-] & ?); eexists; split; try done; tauto.
  - rewrite Hw, Hw'. split; intros (? & [= <-] & ?); eexists; split; try done; tauto.
Qed.

(** What one harness's configuration compiles to. *)
Definition inputOf (mode : string) (cfg : SelectionHarnessConfig) : harnessSelectionInput :=
  {| hsi_Projects := (λ y, mkProjectInput (ps_GitRemote y) (ps_Name y) (ps_ClonePaths y) (ps_Branches y))
                       <$> shc_Projects cfg;
     hsi_Sessions := shc_Sessions cfg;
     hsi_BranchExclusions := if decide (mode = SelectionModeSelected)
       then (λ x, mkBranchExclusion (be_ClonePath x) (be_Branches x)) <$> shc_ExclBranches cfg else [];
     hsi_SessionExclusions := if decide (mode = SelectionModeSelected) then shc_ExclSessions cfg else [] |}.

Lemma updHarness_loop {A} (f : A → harnessSelectionInput → harnessSelectionInput) h l i b :
  foldl (λ b x, updHarness (f x) h b) (<[h:=i]> b) l = <[h := foldl (λ i x, f x i) i l]> b.
Proof.
  revert i. induction l as [|x l IH]; intros i; simpl; [done|].
  unfold updHarness at 2. by rewrite lookup_insert_eq, insert_insert_eq, IH.
Qed.

(** A loop that appends to one field of a record. *)
Lemma field_loop {A B R} (get : R → list B) (set : list B → R → R) (g : A → B) (i : R) l :
  (∀ k i, get (set k i) = k) → (∀ k k' i, set k (set k' i) = set k i) → (∀ i, set (get i) i = i) →
  foldl (λ i x, set (get i ++ [g x]) i) i l = set (get i ++ (g <$> l)) i.
Proof.
  intros Hgs Hss Hsg. revert i. induction l as [|x l IH]; intros i; simpl.
  - by rewrite app_nil_r, Hsg.
  - by rewrite IH, Hgs, Hss, <- (assoc_L (++)).
Qed.

Lemma compileHarness_fresh mode b h cfg :
  b !! h = None → compileHarness mode b (h, cfg) = <[h := inputOf mode cfg]> b.
Proof.
  intros Hb. unfold compileHarness, AddHarness. rewrite Hb. cbn zeta.
  unfold AddProjectWithClonePaths, AddSession, AddBranchExclusion, AddSessionExclusion.
  rewrite updHarness_loop.
  rewrite (field_loop hsi_Projects (λ k i, mkHarnessInput k (hsi_Sessions i) (hsi_BranchExclusions i)
    (hsi_SessionExclusions i))) by (done || by intros []).
  rewrite updHarness_loop.
  rewrite (field_loop hsi_Sessions (λ k i, mkHarnessInput (hsi_Projects i) k (hsi_BranchExclusions i)
    (hsi_SessionExclusions i)) id) by (done || by intros []).
  unfold inputOf. rewrite list_fmap_id. case_decide as Hmode; [|done].
  rewrite updHarness_loop.
  rewrite (field_loop hsi_BranchExclusions (λ k i, mkHarnessInput (hsi_Projects i) (hsi_Sessions i) k
    (hsi_SessionExclusions i))) by (done || by intros []).
  rewrite updHarness_loop.
  rewrite (field_loop hsi_SessionExclusions (λ k i, mkHarnessInput (hsi_Projects i) (hsi_Sessions i)
    (hsi_BranchExclusions i) k) id) by (done || by intros []).
  by rewrite list_fmap_id.
Qed.

#[local] Arguments compileHarness : simpl never.

Lemma compile_fold mode l b h :
  NoDup l.*1 → (∀ k, k ∈ l.*1 → b !! k = None) →
  foldl (compileHarness mode) b l !! h =
  match (list_to_map l : gmap string SelectionHarnessConfig) !! h with
  | Some cfg => Some (inputOf mode cfg)
  | None => b !! h
  end.
Proof.
  revert b. induction l as [|[k cfg] l IH]; intros b Hnd Hb; simpl; [by rewrite lookup_empty|].
  simpl in *. apply NoDup_cons in Hnd as [Hk Hnd].
  rewrite compileHarness_fresh by set_solver. rewrite IH; [|done|].
  - destruct (decide (k = h)) as [->|Hne].
    + rewrite lookup_insert_eq. rewrite (not_elem_of_list_to_map_1 l h) by done.
      by rewrite lookup_insert_eq.
    + by rewrite !lookup_insert_ne by done.
  - intros k' Hk'. rewrite lookup_insert_ne by set_solver. set_solver.
Qed.

(** Compiling a saved selection is deterministic although Go ranges over
    the harness map in an arbitrary order: every order of the entries gives
    the same matcher, whose entry for a harness is compiled from that
    harness's configuration alone, with exclusions only in mode selected. *)
Theorem CompileSelectionMatcher_deterministic selection order :
  order ≡ₚ map_to_list (sc_Harnesses selection) →
  CompileSelectionMatcher_in (sc_Mode selection) order = CompileSelectionMatcher selection ∧
  ∀ h, CompileSelectionMatcher selection !! h =
       (λ cfg, newHarnessMatcher (inputOf (sc_Mode selection) cfg)) <$> sc_Harnesses selection !! h.
Proof.
  intros Hord.
  assert (∀ l h, l ≡ₚ map_to_list (sc_Harnesses selection) →
    CompileSelectionMatcher_in (sc_Mode selection) l !! h =
    (λ cfg, newHarnessMatcher (inputOf (sc_Mode selection) cfg)) <$> sc_Harnesses selection !! h) as Hl.
  { intros l h Hperm. unfold CompileSelectionMatcher_in. rewrite Build_lookup.
    assert (NoDup l.*1) as Hnd by (rewrite Hperm; apply NoDup_fst_map_to_list).
    rewrite compile_fold by (done || by intros; apply lookup_empty).
    rewrite (list_to_map_proper l (map_to_list (sc_Harnesses selection))) by done.
    rewrite list_to_map_to_list, lookup_empty. by destruct (_ !! h). }
  split; [|intros h; by apply Hl].
  apply map_eq. intros h. rewrite (Hl order h Hord). symmetry. by apply Hl.
Qed.
End matcher_facts.

(** ** Concrete runs *)

(** Library answers for the examples: nothing parses as a URL and hosts are
    already lower case, so remotes compare in their stored bare form. *)
Definition plainRemotes : RemoteLib :=
  {| scpPattern_match := λ _, None; url_Parse := λ _, None; ToLower := id |}.

Definition demo_builder : gmap string harnessSelectionInput :=
  AddProject "codex" "github.com/acme/app" "" ["main"] (AddHarness "codex" ∅).

Definition demo_candidate (branch sid : string) : DiscoveryCandidate :=
  mkCandidate "codex" "github.com/acme/app" "app" "/home/u/app" branch sid
    DiscoveryIdentityUnique DiscoveryIdentityUnique.

Example demo_selected :
  @MatchBranchCandidate plainRemotes (@Build plainRemotes demo_builder) (demo_candidate "main" "s1")
  = BranchMatchYes.
Proof. vm_compute. reflexivity. Qed.
Example demo_unlisted_branch :
  @MatchBranchCandidate plainRemotes (@Build plainRemotes demo_builder) (demo_candidate "dev" "s1")
  = BranchMatchNo.
Proof. vm_compute. reflexivity. Qed.
Example demo_conflict :
  @MatchBranchCandidate plainRemotes
    (@Build plainRemotes (AddProject "codex" "" "app" ["dev"] demo_builder)) (demo_candidate "main" "s1")
  = BranchMatchWithheldConflict.
Proof. vm_compute. reflexivity. Qed.

Lemma exclusions_are_exact_witness :
  dd_Match (@decideCandidate plainRemotes
    (@Build plainRemotes (AddSessionExclusion "codex" "s1" demo_builder))
    (demo_candidate "main" "s1") (mkPolicy true false)) = BranchMatchNo ∧
  dd_Match (@decideCandidate plainRemotes
    (@Build plainRemotes (AddBranchExclusion "codex" "/home/u/app" ["dev"] demo_builder))
    (demo_candidate "main" "s1") (mkPolicy true false)) = BranchMatchYes.
Proof.
  destruct (@exclusions_are_exact plainRemotes demo_builder "codex" "s1" "/home/u/app" ["dev"]
    (demo_candidate "main" "s1") (mkPolicy true false)) as [H1 H2].
  - vm_compute. eexists. reflexivity.
  - rewrite H1, H2. split; vm_compute; reflexivity.
Defined.

Lemma DiscoveryNeedsGit_sound_witness :
  let b := AddSession "codex" "s1" demo_builder in
  DiscoveryNeedsGit (@Build plainRemotes b) "codex" "s1" = false ∧
  @decideCandidate plainRemotes (@Build plainRemotes b)
    (mkCandidate "codex" "elsewhere" "" "" "dev" "s1" DiscoveryIdentityUnproven
       DiscoveryIdentityUnproven) (mkPolicy false false) =
  @decideCandidate plainRemotes (@Build plainRemotes b) (demo_candidate "main" "s1") (mkPolicy false false).
Proof.
  intros b. split; [vm_compute; reflexivity|].
  apply (@DiscoveryNeedsGit_sound plainRemotes b); vm_compute; reflexivity.
Defined.

Lemma project_order_irrelevant_witness :
  let p := @newProjectMatcher plainRemotes (mkProjectInput "github.com/acme/app" "" [] ["main"]) in
  let q := @newProjectMatcher plainRemotes (mkProjectInput "" "app" [] ["dev"]) in
  let mk ps := mkHarnessMatcher ps ∅ ∅ ∅ in
  let c := demo_candidate "main" "s1" in
  dd_Match (@decideCandidate plainRemotes (<["codex" := mk [q; p; q]]> {["codex" := mk [p; q]]}) c
    (mkPolicy true false)) =
  dd_Match (@decideCandidate plainRemotes {["codex" := mk [p; q]]} c (mkPolicy true false)).
Proof.
  intros p q mk c.
  apply (@project_order_irrelevant plainRemotes _ (mk [p; q]) (mk [q; p; q]) c); try reflexivity.
  intros x. simpl. set_solver.
Defined.

Definition demo_config : SelectionConfig :=
  mkSelectionConfig "selected" false
    (<["codex" := mkHarnessConfig [mkProjectSelection "github.com/acme/app" "" [] ["main"]] []
        [mkConfigBranchExclusion "/home/u/app" ["dev"]] ["s9"]]>
     {["claude-code" := mkHarnessConfig [] [] [] []]}).

Lemma CompileSelectionMatcher_deterministic_witness :
  @CompileSelectionMatcher_in plainRemotes "selected" (rev (map_to_list (sc_Harnesses demo_config))) =
  @CompileSelectionMatcher plainRemotes demo_config.
Proof.
  apply (@CompileSelectionMatcher_deterministic plainRemotes demo_config).
  rewrite <- Permutation_rev. reflexivity.
Defined.
