(* ===== verification/SelectionProjection.v ===== *)
(** * Effective projects of a selection ([internal/selectionprojection])

    From a saved selection and the available project/session evidence, which
    projects are effective, by which evidence, and how many of their sessions
    are selected ([projection.go]); and the cohort rules behind identity
    multiplicity and clone labels ([cohort.go]). *)
From S2P Require Import Prelude GoStrings Selection.
Local Open Scope string_scope.
Local Open Scope list_scope.
Local Open Scope nat_scope.

Abbreviation RepositoryCohortKey := string (only parsing).
Abbreviation ParentProjectID := string (only parsing).

(** ** Data ([types.go]) *)

Record SessionCandidate := mkSessionCandidate {
  s_SessionID : SessionID;
  s_Branch : string;
  s_ParentSessionID : SessionID;
  s_ClonePath : ClonePath;
  s_RepositoryCohortKey : RepositoryCohortKey;
}.

Record ProjectCandidate := mkProjectCandidate {
  p_ParentProjectID : ParentProjectID;
  p_Harness : Harness;
  p_GitRemote : string;
  p_ProjectName : string;
  p_ClonePath : ClonePath;
  p_RepositoryCohortKey : RepositoryCohortKey;
  p_Descendants : list SessionCandidate;
}.

Inductive ProjectAdmission :=
  | ProjectNotEffective
  | ProjectEffectiveWholeProject
  | ProjectEffectiveBranch
  | ProjectEffectiveExplicitSession
  | ProjectEffectiveNestedDescendant.
#[export] Instance admission_eq_dec : EqDecision ProjectAdmission.
Proof. solve_decision. Defined.

(** The [iota] value: declaration order is specificity. *)
Definition rank (a : ProjectAdmission) : nat :=
  match a with
  | ProjectNotEffective => 0
  | ProjectEffectiveWholeProject => 1
  | ProjectEffectiveBranch => 2
  | ProjectEffectiveExplicitSession => 3
  | ProjectEffectiveNestedDescendant => 4
  end.

Record EffectiveProject := mkEffective {
  ep_Candidate : ProjectCandidate;
  ep_Admission : ProjectAdmission;
  ep_SelectedDescendantCount : nat;
}.

Inductive cohortIdentityKind :=
  | cohortIdentityRepositoryCohort
  | cohortIdentityPhysicalPath
  | cohortIdentityParentProject.
#[export] Instance identityKind_eq_dec : EqDecision cohortIdentityKind.
Proof. solve_decision. Defined.
#[export] Instance identityKind_countable : Countable cohortIdentityKind.
Proof.
  refine (inj_countable'
    (λ k, match k with
          | cohortIdentityRepositoryCohort => 0
          | cohortIdentityPhysicalPath => 1
          | cohortIdentityParentProject => 2
          end)
    (λ n, match n with
          | 0 => cohortIdentityRepositoryCohort
          | 1 => cohortIdentityPhysicalPath
          | _ => cohortIdentityParentProject
          end) _).
  by intros [].
Defined.

(** [cohortIdentity{Harness, Kind, Value}]. *)
Abbreviation cohortIdentity := (Harness * cohortIdentityKind * string)%type (only parsing).

Record identityMultiplicity := mkIdentityMultiplicity {
  im_Identities : gset cohortIdentity;
  im_Unproven : bool;
}.

Record preparedDescendant := mkPreparedDescendant {
  pd_Direct : DiscoveryCandidate;
  pd_Parent : option DiscoveryCandidate;  (** [Parent] when [HasParent] *)
}.

Record preparedProject := mkPreparedProject {
  pp_Candidate : ProjectCandidate;
  pp_Project : DiscoveryCandidate;
  pp_Descendants : list preparedDescendant;
}.

(** ** Cohort evidence *)

Definition effectiveClonePath (project : ProjectCandidate) (d : SessionCandidate) : ClonePath :=
  if decide (s_ClonePath d ≠ "") then s_ClonePath d else p_ClonePath project.

Definition effectiveRepositoryCohortKey (project : ProjectCandidate) (d : SessionCandidate)
    : RepositoryCohortKey :=
  if decide (s_RepositoryCohortKey d ≠ "") then s_RepositoryCohortKey d
  else p_RepositoryCohortKey project.

Definition candidateIdentity (candidate : ProjectCandidate) (clonePath : ClonePath)
    (key : RepositoryCohortKey) : cohortIdentity * bool :=
  if decide (key ≠ "") then ((p_Harness candidate, cohortIdentityRepositoryCohort, key), true)
  else if decide (clonePath ≠ "") then
    ((p_Harness candidate, cohortIdentityPhysicalPath, clonePath), true)
  else ((p_Harness candidate, cohortIdentityParentProject, p_ParentProjectID candidate), false).

Definition recordIdentity (mp : gmap string identityMultiplicity) (normalized : string)
    (identity : cohortIdentity) (proven : bool) : gmap string identityMultiplicity :=
  if decide (normalized = "") then mp
  else
    let m := default (mkIdentityMultiplicity ∅ false) (mp !! normalized) in
    <[normalized := mkIdentityMultiplicity ({[identity]} ∪ im_Identities m)
        (if proven then im_Unproven m else true)]> mp.

Definition explicitMultiplicity (raw normalized : string) (mp : gmap string identityMultiplicity)
    : DiscoveryIdentityMultiplicity :=
  if decide (TrimSpace raw = "") then DiscoveryIdentityUnique
  else match mp !! normalized with
  | None => DiscoveryIdentityAmbiguous
  | Some m =>
      if bool_decide (normalized = "") || im_Unproven m ||
         negb (bool_decide (size (im_Identities m) = 1))
      then DiscoveryIdentityAmbiguous else DiscoveryIdentityUnique
  end.

Definition moreSpecificAdmission (current candidate : ProjectAdmission) : ProjectAdmission :=
  if decide (rank current < rank candidate) then candidate else current.

Definition discoveryCandidate (project : ProjectCandidate) (d : SessionCandidate)
    (clonePath : ClonePath) (remote name : DiscoveryIdentityMultiplicity) : DiscoveryCandidate :=
  {| dc_Harness := p_Harness project; dc_GitRemote := p_GitRemote project;
     dc_ProjectName := p_ProjectName project; dc_ClonePath := clonePath;
     dc_Branch := s_Branch d; dc_SessionID := s_SessionID d;
     dc_RemoteMultiplicity := remote; dc_NameMultiplicity := name |}.

Definition zeroSession : SessionCandidate := mkSessionCandidate "" "" "" "" "".

Definition withSession (c : DiscoveryCandidate) (sid : SessionID) : DiscoveryCandidate :=
  {| dc_Harness := dc_Harness c; dc_GitRemote := dc_GitRemote c;
     dc_ProjectName := dc_ProjectName c; dc_ClonePath := dc_ClonePath c;
     dc_Branch := dc_Branch c; dc_SessionID := sid;
     dc_RemoteMultiplicity := dc_RemoteMultiplicity c;
     dc_NameMultiplicity := dc_NameMultiplicity c |}.

Section projection.
Context `{RemoteLib}.

Abbreviation multiplicities := (gmap string identityMultiplicity * gmap string identityMultiplicity)%type
  (only parsing).

Definition recordCandidateIdentity (st : multiplicities) (candidate : ProjectCandidate)
    (clonePath : ClonePath) (key : RepositoryCohortKey) : multiplicities :=
  let '(identity, proven) := candidateIdentity candidate clonePath key in
  (recordIdentity st.1 (NormalizeRemoteForMatch (p_GitRemote candidate)) identity proven,
   recordIdentity st.2 (NormalizeProjectNameForMatch (p_ProjectName candidate)) identity proven).

Definition recordCohort (candidates : list ProjectCandidate) : multiplicities :=
  foldl (λ st candidate,
    foldl (λ st d, recordCandidateIdentity st candidate (effectiveClonePath candidate d)
                     (effectiveRepositoryCohortKey candidate d))
      (recordCandidateIdentity st candidate (p_ClonePath candidate) (p_RepositoryCohortKey candidate))
      (p_Descendants candidate))
    (∅, ∅) candidates.

Definition prepareProject (st : multiplicities) (candidate : ProjectCandidate) : preparedProject :=
  let remote := explicitMultiplicity (p_GitRemote candidate)
                  (NormalizeRemoteForMatch (p_GitRemote candidate)) st.1 in
  let name := explicitMultiplicity (p_ProjectName candidate)
                (NormalizeProjectNameForMatch (p_ProjectName candidate)) st.2 in
  {| pp_Candidate := candidate;
     pp_Project := discoveryCandidate candidate zeroSession (p_ClonePath candidate) remote name;
     pp_Descendants := (λ d,
       let direct := discoveryCandidate candidate d (effectiveClonePath candidate d) remote name in
       mkPreparedDescendant direct
         (if decide (s_ParentSessionID d ≠ "") then Some (withSession direct (s_ParentSessionID d))
          else None)) <$> p_Descendants candidate |}.

Definition prepareCohort (candidates : list ProjectCandidate) : list preparedProject :=
  prepareProject (recordCohort candidates) <$> candidates.

(** ** Admission of one project *)

(** The candidate with its project evidence removed. *)
Definition sessionProbe (c : DiscoveryCandidate) (sid : SessionID) : DiscoveryCandidate :=
  {| dc_Harness := dc_Harness c; dc_GitRemote := ""; dc_ProjectName := ""; dc_ClonePath := "";
     dc_Branch := ""; dc_SessionID := sid; dc_RemoteMultiplicity := DiscoveryIdentityUnique;
     dc_NameMultiplicity := DiscoveryIdentityUnique |}.

Definition explicitSessionSelected (m : SelectionMatcher) (c : DiscoveryCandidate) : bool :=
  if decide (dc_SessionID c = "") then false
  else if decide (MatchBranchCandidate m (sessionProbe c (dc_SessionID c)) ≠ BranchMatchYes) then false
  else bool_decide (MatchBranchCandidate m (sessionProbe c "") ≠ BranchMatchYes).

Definition projectRuleAdmission (m : SelectionMatcher) (c : DiscoveryCandidate) : ProjectAdmission :=
  if decide (MatchBranchCandidate m c ≠ BranchMatchYes) then ProjectNotEffective
  else
    let decision := MatchDiscoveryCandidateDecision m c false in
    match dd_Admitting decision, dd_Rejecting decision with
    | [], [] => ProjectEffectiveWholeProject
    | adm, rej =>
        if existsb (λ e, bool_decide (se_Branches e = [])) adm then ProjectEffectiveWholeProject
        else if existsb (λ e, bool_decide (se_Branches e = [])) rej then ProjectEffectiveWholeProject
        else ProjectEffectiveBranch
    end.

Definition descendantAdmission (m : SelectionMatcher) (d : preparedDescendant) : ProjectAdmission :=
  if ExcludesCandidate m (pd_Direct d) then ProjectNotEffective
  else
    let admission := moreSpecificAdmission ProjectNotEffective
                       (projectRuleAdmission m (withSession (pd_Direct d) "")) in
    let admission :=
      if explicitSessionSelected m (pd_Direct d)
      then moreSpecificAdmission admission ProjectEffectiveExplicitSession else admission in
    match pd_Parent d with
    | Some parent =>
        if explicitSessionSelected m parent
        then moreSpecificAdmission admission ProjectEffectiveNestedDescendant else admission
    | None => admission
    end.

Definition projectAdmission (m : SelectionMatcher) (project : preparedProject)
    : ProjectAdmission * nat :=
  let '(admission, allDescendantsDenied, selectedDescendants) :=
    foldl (λ '(admission, allDenied, selected) d,
        let allDenied := if ExcludesCandidate m (pd_Direct d) then allDenied else false in
        let candidateAdmission := descendantAdmission m d in
        if decide (candidateAdmission = ProjectNotEffective) then (admission, allDenied, selected)
        else (moreSpecificAdmission admission candidateAdmission, allDenied, S selected))
      (ProjectNotEffective, bool_decide (pp_Descendants project ≠ []), 0)
      (pp_Descendants project) in
  let admission :=
    if negb allDescendantsDenied &&
       bool_decide (projectRuleAdmission m (pp_Project project) = ProjectEffectiveWholeProject)
    then moreSpecificAdmission admission ProjectEffectiveWholeProject else admission in
  (admission, selectedDescendants).

Definition effectiveProjects (matcher : option SelectionMatcher) (selection : SelectionConfig)
    (candidates : list ProjectCandidate) : list EffectiveProject :=
  if decide (candidates = []) then []
  else if decide (sc_Mode selection = SelectionModeAll) then
    (λ c, mkEffective c ProjectEffectiveWholeProject (length (p_Descendants c))) <$> candidates
  else match matcher with
  | None => []
  | Some m =>
      if decide (sc_Mode selection ≠ SelectionModeSelected) then []
      else omap (λ p,
             let '(admission, selectedDescendants) := projectAdmission m p in
             if decide (admission = ProjectNotEffective) then None
             else Some (mkEffective (pp_Candidate p) admission selectedDescendants))
           (prepareCohort candidates)
  end.

Definition EffectiveProjects := effectiveProjects.
End projection.

(** ** [cohort.go] *)

Record CohortEvidence := mkCohortEvidence {
  ce_Harness : Harness;
  ce_Text : string;
  ce_CohortKey : RepositoryCohortKey;
}.

(** One group: the distinct resolved keys, and whether some item has none. *)
Definition recordCohortEvidence (cohorts : gmap (string * string) (gset string * bool))
    (item : CohortEvidence) : gmap (string * string) (gset string * bool) :=
  let key := (ce_Harness item, ce_Text item) in
  if decide (ce_Text item = "") then cohorts
  else
    let '(identities, unresolved) := default (∅, false) (cohorts !! key) in
    <[key := if decide (ce_CohortKey item = "") then (identities, true)
             else ({[ce_CohortKey item]} ∪ identities, unresolved)]> cohorts.

Definition CohortMultiplicities (evidence : list CohortEvidence)
    : list DiscoveryIdentityMultiplicity :=
  let cohorts := foldl recordCohortEvidence ∅ evidence in
  (λ item,
    if decide (ce_Text item = "") then DiscoveryIdentityUnique
    else match cohorts !! (ce_Harness item, ce_Text item) with
    | Some (identities, unresolved) =>
        if negb unresolved && bool_decide (size identities = 1)
        then DiscoveryIdentityUnique else DiscoveryIdentityAmbiguous
    | None => DiscoveryIdentityAmbiguous
    end) <$> evidence.

(** [strings.FieldsFunc] on both separators: the nonempty maximal runs. *)
Definition path_fields (s : string) : list string :=
  filter (λ w, w ≠ "") (concat (split_on backslash <$> split_on slash s)).

(** [filepath.Join]. *)
Definition Join (es : list string) : string :=
  match filter (λ e, e ≠ "") es with
  | [] => ""
  | _ => Clean (join_slash es)
  end.

Definition clonePathParts (clonePath : ClonePath) : list string :=
  if decide (clonePath = "") then [] else path_fields (Clean clonePath).

Definition suffixOf (parts : list string) (width : nat) : string :=
  Join (drop (length parts - width) parts).

Definition cloneSuffixUnique (parts : list string) (width : nat) (own : ClonePath)
    (cohort : list ClonePath) : bool :=
  negb (existsb (λ candidate,
    negb (bool_decide (candidate = own)) &&
    let candidateParts := clonePathParts candidate in
    bool_decide (width ≤ length candidateParts) &&
    bool_decide (suffixOf candidateParts width = suffixOf parts width)) cohort).

(** [for width < len(parts) && !unique(width) { width++ }]; the fuel is the
    number of widths left. *)
Fixpoint widen (fuel : nat) (parts : list string) (own : ClonePath) (cohort : list ClonePath)
    (width : nat) : nat :=
  match fuel with
  | O => width
  | S fuel =>
      if bool_decide (width < length parts) && negb (cloneSuffixUnique parts width own cohort)
      then widen fuel parts own cohort (S width) else width
  end.

Definition ellipsis : string := "…".

Definition ShortestDistinctCloneSuffix (clonePath : ClonePath) (cohort : list ClonePath) : string :=
  let parts := clonePathParts clonePath in
  if decide (parts = []) then ""
  else
    let width := widen (length parts) parts clonePath cohort (min 2 (length parts)) in
    let suffix := suffixOf parts width in
    if bool_decide (width = length parts) && bool_decide (2 < length parts)
    then ellipsis +:+ "/" +:+ suffix else suffix.

Example label_two_clones :
  ShortestDistinctCloneSuffix "/home/u/work/app" ["/home/u/work/app"; "/home/u/play/app"] = "work/app".
Proof. vm_compute. reflexivity. Qed.
Example label_widened :
  ShortestDistinctCloneSuffix "/home/u/work/app" ["/home/v/work/app"; "/home/u/work/app"] = "u/work/app".
Proof. vm_compute. reflexivity. Qed.

(** * Theorems *)

(** ** Identity multiplicity *)

(** One piece of identity evidence: the normalized text it is filed under, the
    physical identity it shows, and whether that identity is proven. *)
Abbreviation identityRecord := (string * cohortIdentity * bool)%type (only parsing).

Definition recordAll (l : list identityRecord) : gmap string identityMultiplicity :=
  foldl (λ mp r, recordIdentity mp r.1.1 r.1.2 r.2) ∅ l.

(** What the map holds for [n] summarises the evidence filed under [n]. *)
Definition summary_at (l : list identityRecord) (n : string) (o : option identityMultiplicity) : Prop :=
  match o with
  | None => ∀ i b, (n, i, b) ∉ l
  | Some m =>
      (∀ i, i ∈ im_Identities m ↔ ∃ b, (n, i, b) ∈ l) ∧
      (im_Unproven m = true ↔ ∃ i, (n, i, false) ∈ l)
  end.

Definition summarises (l : list identityRecord) (mp : gmap string identityMultiplicity) : Prop :=
  ∀ n, n ≠ "" → summary_at l n (mp !! n).

Lemma summary_at_ext l l' n o :
  (∀ i b, (n, i, b) ∈ l ↔ (n, i, b) ∈ l') → summary_at l n o → summary_at l' n o.
Proof.
  intros Hl. destruct o as [m|]; simpl.
  - intros [H1 H2]. split; [intros i; rewrite H1|rewrite H2]; by setoid_rewrite Hl.
  - intros Hno i b. by rewrite <- Hl.
Qed.

Lemma elem_of_snoc (l : list identityRecord) r x : r ∈ l ++ [x] ↔ r ∈ l ∨ r = x.
Proof. by rewrite elem_of_app, list_elem_of_singleton. Qed.

Lemma recordIdentity_summarises l mp t i b :
  summarises l mp → summarises (l ++ [(t, i, b)]) (recordIdentity mp t i b).
Proof.
  intros Hmp n Hn. specialize (Hmp n Hn). unfold recordIdentity.
  assert (t ≠ n → summary_at (l ++ [(t, i, b)]) n (mp !! n)) as Hother.
  { intros Hne. eapply summary_at_ext; [|done]. intros i' b'. rewrite elem_of_snoc. naive_solver. }
  case_decide as Ht; [by apply Hother; congruence|].
  destruct (decide (t = n)) as [->|Hne]; [|rewrite lookup_insert_ne by done; by apply Hother].
  rewrite lookup_insert_eq. destruct (mp !! n) as [m|]; simpl in *.
  - destruct Hmp as [H1 H2]. split.
    + intros i'. rewrite elem_of_union, elem_of_singleton, H1. setoid_rewrite elem_of_snoc. naive_solver.
    + setoid_rewrite elem_of_snoc. destruct b; naive_solver.
  - split.
    + intros i'. setoid_rewrite elem_of_snoc. set_solver.
    + setoid_rewrite elem_of_snoc. destruct b; naive_solver.
Qed.

Lemma recordAll_summarises l : summarises l (recordAll l).
Proof.
  unfold recordAll. induction l as [|[[t i] b] l IH] using rev_ind.
  - intros n Hn. simpl. rewrite lookup_empty. intros i b. set_solver.
  - rewrite foldl_snoc. simpl. by apply recordIdentity_summarises.
Qed.

(** All the evidence filed under [n] proves one identity. *)
Definition OneProvenIdentity (l : list identityRecord) (n : string) : Prop :=
  n ≠ "" ∧ ∃ i, (n, i, true) ∈ l ∧ ∀ i' b', (n, i', b') ∈ l → i' = i ∧ b' = true.

Lemma explicitMultiplicity_iff raw n l :
  explicitMultiplicity raw n (recordAll l) = DiscoveryIdentityUnique ↔
  TrimSpace raw = "" ∨ OneProvenIdentity l n.
Proof.
  unfold explicitMultiplicity, OneProvenIdentity. case_decide as Hraw; [tauto|].
  pose proof (recordAll_summarises l n) as Hs.
  destruct (decide (n = "")) as [Hn|Hn].
  { split; [|naive_solver]. rewrite bool_decide_true by done. by destruct (_ !! n). }
  specialize (Hs Hn). rewrite bool_decide_false by done.
  destruct (recordAll l !! n) as [m|]; simpl.
  - destruct Hs as [H1 H2]. split.
    + destruct (im_Unproven m) eqn:Eu; [done|]. simpl.
      case_bool_decide as Hsz; [|done]. intros _. right. split; [done|].
      apply size_1_elem_of in Hsz as [i Hi]. setoid_rewrite Hi in H1.
      setoid_rewrite elem_of_singleton in H1.
      assert (∀ i' b', (n, i', b') ∈ l → i' = i ∧ b' = true) as Hall.
      { intros i' b' Hl. split; [apply H1; eauto|]. destruct b'; [done|].
        assert (false = true); [apply H2; eauto|done]. }
      exists i. split; [|done]. destruct (proj1 (H1 i) eq_refl) as [b Hb].
      by destruct (Hall i b Hb) as [_ ->].
    + intros [?|(_ & i & Hi & Hall)]; [done|].
      assert (im_Unproven m = false) as ->.
      { apply not_true_iff_false. rewrite H2. intros [i' Hl]. by apply Hall in Hl as []. }
      rewrite bool_decide_true; [done|].
      assert (im_Identities m = {[i]}) as ->; [|by rewrite size_singleton].
      apply set_eq. intros i'. rewrite H1, elem_of_singleton. split; [|intros ->; eauto].
      intros [b' Hb]. by destruct (Hall _ _ Hb).
  - split; [done|]. intros [?|(_ & i & Hi & _)]; [done|]. by apply Hs in Hi.
Qed.

Section projection_facts.
Context `{RemoteLib}.
Implicit Types (m : gmap string harnessMatcher) (candidates : list ProjectCandidate).

(** Every location the cohort offers: each project's own and each session's. *)
Definition locations (candidate : ProjectCandidate) : list (ClonePath * RepositoryCohortKey) :=
  (p_ClonePath candidate, p_RepositoryCohortKey candidate) ::
  ((λ d, (effectiveClonePath candidate d, effectiveRepositoryCohortKey candidate d))
     <$> p_Descendants candidate).

Definition cohortRecords (text : ProjectCandidate → string) (candidates : list ProjectCandidate)
    : list identityRecord :=
  candidates ≫= λ candidate,
    (λ loc, let '(i, b) := candidateIdentity candidate loc.1 loc.2 in (text candidate, i, b))
      <$> locations candidate.

Definition remoteText (candidate : ProjectCandidate) : string :=
  NormalizeRemoteForMatch (p_GitRemote candidate).
Definition nameText (candidate : ProjectCandidate) : string :=
  NormalizeProjectNameForMatch (p_ProjectName candidate).

Lemma recordCohort_eq candidates :
  recordCohort candidates =
  (recordAll (cohortRecords remoteText candidates), recordAll (cohortRecords nameText candidates)).
Proof.
  unfold recordCohort, recordAll.
  assert (∀ candidate st ds,
    foldl (λ st d, recordCandidateIdentity st candidate (effectiveClonePath candidate d)
                     (effectiveRepositoryCohortKey candidate d)) st ds =
    (foldl (λ mp r, recordIdentity mp r.1.1 r.1.2 r.2) st.1
       ((λ loc, let '(i, b) := candidateIdentity candidate loc.1 loc.2 in (remoteText candidate, i, b)) <$>
        ((λ d, (effectiveClonePath candidate d, effectiveRepositoryCohortKey candidate d)) <$> ds)),
     foldl (λ mp r, recordIdentity mp r.1.1 r.1.2 r.2) st.2
       ((λ loc, let '(i, b) := candidateIdentity candidate loc.1 loc.2 in (nameText candidate, i, b)) <$>
        ((λ d, (effectiveClonePath candidate d, effectiveRepositoryCohortKey candidate d)) <$> ds)))) as Hd.
  { intros candidate st ds. revert st. induction ds as [|d ds IH]; intros st; [by destruct st|].
    simpl. rewrite IH. unfold recordCandidateIdentity.
    by destruct (candidateIdentity _ _ _). }
  assert (∀ st, foldl (λ st candidate,
    foldl (λ st d, recordCandidateIdentity st candidate (effectiveClonePath candidate d)
                     (effectiveRepositoryCohortKey candidate d))
      (recordCandidateIdentity st candidate (p_ClonePath candidate) (p_RepositoryCohortKey candidate))
      (p_Descendants candidate)) st candidates =
    (foldl (λ mp r, recordIdentity mp r.1.1 r.1.2 r.2) st.1 (cohortRecords remoteText candidates),
     foldl (λ mp r, recordIdentity mp r.1.1 r.1.2 r.2) st.2 (cohortRecords nameText candidates))) as Hall;
    [|apply Hall].
  induction candidates as [|candidate candidates IH]; intros st; [by destruct st|].
  cbn [foldl]. rewrite IH, Hd. unfold cohortRecords. rewrite !bind_cons, !foldl_app.
  unfold recordCandidateIdentity, locations. simpl. by destruct (candidateIdentity _ _ _).
Qed.

(** Remote and name evidence is trusted exactly when it is unambiguous.
    In a prepared cohort a project's remote (its name) is marked unique iff
    it is blank (and so can match nothing), or every location of every
    project of the cohort filed under the same normalized remote (name)
    proves one and the same physical identity. *)
Theorem prepared_multiplicity_iff candidates i p :
  prepareCohort candidates !! i = Some p →
  (dc_RemoteMultiplicity (pp_Project p) = DiscoveryIdentityUnique ↔
   TrimSpace (p_GitRemote (pp_Candidate p)) = "" ∨
   OneProvenIdentity (cohortRecords remoteText candidates) (remoteText (pp_Candidate p))) ∧
  (dc_NameMultiplicity (pp_Project p) = DiscoveryIdentityUnique ↔
   TrimSpace (p_ProjectName (pp_Candidate p)) = "" ∨
   OneProvenIdentity (cohortRecords nameText candidates) (nameText (pp_Candidate p))).
Proof.
  unfold prepareCohort. rewrite list_lookup_fmap, recordCohort_eq.
  intros (candidate & _ & ->)%fmap_Some. simpl. split; apply explicitMultiplicity_iff.
Qed.

(** ** Explicit sessions *)

Lemma probe_matches_nothing ps c sid : matchingProjects ps (sessionProbe c sid) = [].
Proof.
  apply elem_of_nil_inv. intros p (_ & [[]|[[]|[]]])%matchingProjects_evidence; done || naive_solver.
Qed.

Lemma probe_yes m c sid :
  MatchBranchCandidate m (sessionProbe c sid) = BranchMatchYes ↔
  ∃ pm, m !! dc_Harness c = Some pm ∧ (sid = "" ∨ sid ∉ hm_sessionExclusions pm) ∧
        (Unrestricted pm ∨ sid ∈ hm_sessions pm).
Proof.
  unfold MatchBranchCandidate. rewrite decideCandidate_eq. simpl.
  destruct (m !! dc_Harness c) as [pm|]; [|naive_solver].
  trans ((sid = "" ∨ sid ∉ hm_sessionExclusions pm) ∧ (Unrestricted pm ∨ sid ∈ hm_sessions pm));
    [|naive_solver].
  assert (excludesCandidate pm (sessionProbe c sid) = false ↔
          (sid = "" ∨ sid ∉ hm_sessionExclusions pm)) as Hx.
  { rewrite not_denied. unfold Denied. simpl.
    destruct (decide (sid = "")), (decide (sid ∈ hm_sessionExclusions pm)); naive_solver. }
  destruct (excludesCandidate pm (sessionProbe c sid)).
  - split; [done|]. intros [Hs _]. by apply Hx in Hs.
  - rewrite probe_matches_nothing. case_decide; [tauto|]. split; [done|tauto].
Qed.

(** The two-probe test recognises exactly the explicitly listed sessions:
    a nonempty session ID is explicit iff its harness's allowlist holds it and
    no session exclusion denies it, provided the allowlist has no empty
    entry.  An unrestricted harness, which admits both probes, lists none. *)
Theorem explicitSessionSelected_iff m c :
  explicitSessionSelected m c = true ↔
  dc_SessionID c ≠ "" ∧ ∃ pm, m !! dc_Harness c = Some pm ∧
    dc_SessionID c ∈ hm_sessions pm ∧ dc_SessionID c ∉ hm_sessionExclusions pm ∧
    "" ∉ hm_sessions pm.
Proof.
  unfold explicitSessionSelected. case_decide as Hs; [naive_solver|].
  case_decide as Hy.
  - split; [done|]. intros (_ & pm & Hm & Hin & Hex & _). destruct Hy.
    apply probe_yes. exists pm. tauto.
  - rewrite bool_decide_eq_true, !probe_yes in *. destruct Hy as (pm & Hm & Hex & Hin).
    unfold Unrestricted in *. split.
    + intros Hno. split; [done|]. exists pm. split; [done|].
      assert (¬ (hm_projects pm = [] ∧ hm_sessions pm = ∅) ∧ "" ∉ hm_sessions pm) by
        (split; intros ?; apply Hno; exists pm; tauto).
      tauto.
    + intros (_ & pm' & Hm' & Hin' & _ & Hne) (pm'' & Hm'' & _ & Hu).
      simplify_eq. destruct Hu as [[_ Hu]|?]; [|done]. rewrite Hu in Hin'. set_solver.
Qed.

(** ** Admission *)

Lemma moreSpecific_rank a b : rank (moreSpecificAdmission a b) = max (rank a) (rank b).
Proof. unfold moreSpecificAdmission. case_decide; lia. Qed.

Lemma moreSpecific_choice a b :
  moreSpecificAdmission a b = a ∨ (moreSpecificAdmission a b = b ∧ rank a < rank b).
Proof. unfold moreSpecificAdmission. case_decide; auto. Qed.

Lemma moreSpecific_not_effective a b :
  moreSpecificAdmission a b = ProjectNotEffective ↔
  a = ProjectNotEffective ∧ b = ProjectNotEffective.
Proof. destruct a, b; unfold moreSpecificAdmission; simpl; split; naive_solver. Qed.

Definition admits m (d : preparedDescendant) : Prop := descendantAdmission m d ≠ ProjectNotEffective.

(** The state of the descendant loop after [ds]. *)
Definition descendantLoop m (ds : list preparedDescendant) (st : ProjectAdmission * bool * nat) :=
  foldl (λ '(admission, allDenied, selected) d,
      let allDenied := if ExcludesCandidate m (pd_Direct d) then allDenied else false in
      let candidateAdmission := descendantAdmission m d in
      if decide (candidateAdmission = ProjectNotEffective) then (admission, allDenied, selected)
      else (moreSpecificAdmission admission candidateAdmission, allDenied, S selected)) st ds.

Lemma descendantLoop_spec m ds nonempty adm denied n :
  descendantLoop m ds (ProjectNotEffective, nonempty, 0) = (adm, denied, n) →
  n = length (filter (admits m) ds) ∧
  (denied = true ↔ nonempty = true ∧ ∀ d, d ∈ ds → ExcludesCandidate m (pd_Direct d) = true) ∧
  (∀ d, d ∈ ds → rank (descendantAdmission m d) ≤ rank adm) ∧
  (adm = ProjectNotEffective ∨ ∃ d, d ∈ ds ∧ descendantAdmission m d = adm).
Proof.
  revert adm denied n. induction ds as [|d ds IH] using rev_ind; intros adm denied n.
  - intros [= <- <- <-]. split_and!; [done|set_solver|set_solver|by left].
  - unfold descendantLoop. rewrite foldl_snoc. fold (descendantLoop m ds (ProjectNotEffective, nonempty, 0)).
    destruct (descendantLoop m ds _) as [[adm' denied'] n'] eqn:E.
    destruct (IH _ _ _ eq_refl) as (Hn & Hd & Hr & Hc). rewrite filter_app, length_app, filter_cons.
    setoid_rewrite elem_of_app. setoid_rewrite list_elem_of_singleton.
    intros Hst.
    assert (denied = (if ExcludesCandidate m (pd_Direct d) then denied' else false)) as ->
      by (revert Hst; case_decide; by intros [= _ <- _]).
    assert ((if ExcludesCandidate m (pd_Direct d) then denied' else false) = true ↔
      nonempty = true ∧ ∀ x, x ∈ ds ∨ x = d → ExcludesCandidate m (pd_Direct x) = true) as Hden
      by (destruct (ExcludesCandidate m (pd_Direct d)) eqn:Ed; naive_solver).
    destruct (decide (descendantAdmission m d = ProjectNotEffective)) as [Hne|Hne]; simplify_eq.
    + rewrite (decide_False (P:=admits m d)) by (by intros []). split_and!; [simpl; lia|done| |naive_solver].
      intros x [?| ->]; [by apply Hr|]. rewrite Hne. simpl. lia.
    + rewrite (decide_True (P:=admits m d)) by done. split_and!; [simpl; lia|done| |].
      * intros x Hx. rewrite moreSpecific_rank. destruct Hx as [Hx| ->]; [specialize (Hr x Hx); lia|lia].
      * destruct (moreSpecific_choice adm' (descendantAdmission m d)) as [->|[-> _]]; [naive_solver|].
        right. exists d. naive_solver.
Qed.

Lemma projectAdmission_count m project :
  (projectAdmission m project).2 = length (filter (admits m) (pp_Descendants project)).
Proof.
  unfold projectAdmission. fold (descendantLoop m (pp_Descendants project)
    (ProjectNotEffective, bool_decide (pp_Descendants project ≠ []), 0)).
  destruct (descendantLoop _ _ _) as [[adm denied] n] eqn:E.
  by apply descendantLoop_spec in E as (-> & _).
Qed.

(** A project's admission and count are what its sessions and its own rule
    justify.  The count is the number of admitted descendants, an exactly
    denied descendant is never admitted, the admission is the most specific
    evidence found, and the project's own whole-project rule counts unless it
    has descendants and every one of them is denied. *)
Theorem projectAdmission_spec m project :
  let '(adm, n) := projectAdmission m project in
  let ds := pp_Descendants project in
  let wholeProject := projectRuleAdmission m (pp_Project project) = ProjectEffectiveWholeProject ∧
    (ds = [] ∨ ∃ d, d ∈ ds ∧ ExcludesCandidate m (pd_Direct d) = false) in
  n = length (filter (admits m) ds) ∧
  (∀ d, d ∈ ds → ExcludesCandidate m (pd_Direct d) = true → ¬ admits m d) ∧
  (∀ d, d ∈ ds → rank (descendantAdmission m d) ≤ rank adm) ∧
  (wholeProject → adm ≠ ProjectNotEffective) ∧
  (adm = ProjectNotEffective ∨ (∃ d, d ∈ ds ∧ descendantAdmission m d = adm) ∨
   (adm = ProjectEffectiveWholeProject ∧ wholeProject)).
Proof.
  unfold projectAdmission. fold (descendantLoop m (pp_Descendants project)
    (ProjectNotEffective, bool_decide (pp_Descendants project ≠ []), 0)).
  destruct (descendantLoop _ _ _) as [[adm denied] n] eqn:E.
  apply descendantLoop_spec in E as (Hn & Hd & Hr & Hc). rewrite bool_decide_eq_true in Hd.
  cbn zeta. set (ds := pp_Descendants project) in *.
  assert (denied = false ↔ ds = [] ∨ ∃ d, d ∈ ds ∧ ExcludesCandidate m (pd_Direct d) = false) as Hden.
  { rewrite <- not_true_iff_false, Hd. split.
    - intros Hno. destruct (decide (ds = [])) as [|Hds]; [by left|right].
      destruct (decide (Exists (λ d, ExcludesCandidate m (pd_Direct d) = false) ds)) as [Hex|Hex];
        [by apply Exists_exists in Hex|].
      destruct Hno. split; [done|]. intros d Hin. apply not_false_iff_true. intros Hf.
      apply Hex, Exists_exists. eauto.
    - intros [?|(d & Hin & Hf)] [? Hall]; [done|]. by rewrite Hall in Hf. }
  assert (∀ d, d ∈ ds → ExcludesCandidate m (pd_Direct d) = true → ¬ admits m d) as Hex.
  { intros d _ He Ha. apply Ha. unfold descendantAdmission. by rewrite He. }
  destruct (negb denied && _) eqn:Ew; simpl.
  - apply andb_true_iff in Ew as [Hdn Hw]. apply negb_true_iff in Hdn.
    apply bool_decide_eq_true in Hw. split_and!; try done.
    + intros d Hin. rewrite moreSpecific_rank. specialize (Hr d Hin). lia.
    + rewrite moreSpecific_not_effective. naive_solver.
    + destruct (moreSpecific_choice adm ProjectEffectiveWholeProject) as [->|[-> _]]; [tauto|].
      right; right. by rewrite <- Hden.
  - split_and!; try done; [|naive_solver]. intros [Hw Hds]. apply Hden in Hds as ->. simpl in Ew.
    by apply bool_decide_eq_false in Ew.
Qed.

(** One element of the result loop. *)
Definition effectiveOne m (p : preparedProject) : option EffectiveProject :=
  let '(admission, selectedDescendants) := projectAdmission m p in
  if decide (admission = ProjectNotEffective) then None
  else Some (mkEffective (pp_Candidate p) admission selectedDescendants).

Lemma effectiveOne_Some m st candidate e :
  effectiveOne m (prepareProject st candidate) = Some e →
  ep_Candidate e = candidate ∧ ep_Admission e ≠ ProjectNotEffective ∧
  ep_SelectedDescendantCount e ≤ length (p_Descendants candidate).
Proof.
  unfold effectiveOne. pose proof (projectAdmission_count m (prepareProject st candidate)) as Hn.
  destruct (projectAdmission _ _) as [adm n]. simpl in Hn.
  case_decide; intros [= <-]. simpl. split_and!; [done|done|].
  rewrite Hn. etrans; [apply length_filter|]. simpl. by rewrite length_fmap.
Qed.

Lemma effective_sound m st candidates :
  let res := omap (effectiveOne m) (prepareProject st <$> candidates) in
  sublist (ep_Candidate <$> res) candidates ∧
  Forall (λ e, ep_Admission e ≠ ProjectNotEffective ∧
               ep_SelectedDescendantCount e ≤ length (p_Descendants (ep_Candidate e))) res.
Proof.
  cbn zeta. induction candidates as [|candidate candidates [IH1 IH2]]; [by split|].
  simpl. destruct (effectiveOne m (prepareProject st candidate)) as [e|] eqn:E.
  - apply effectiveOne_Some in E as (He & Ha & Hn). simpl. rewrite He. split; [by apply sublist_skip|].
    constructor; [|done]. by rewrite He.
  - split; [by apply sublist_cons|done].
Qed.

(** Mode decides first: mode all makes every project effective with all
    its sessions, whatever the matcher; selected mode without a matcher, and
    any other mode, makes none.  Under a matcher the result keeps the
    candidates' order and every project in it is admitted. *)
Theorem effectiveProjects_modes matcher selection candidates :
  (sc_Mode selection = SelectionModeAll →
   effectiveProjects matcher selection candidates =
   (λ c, mkEffective c ProjectEffectiveWholeProject (length (p_Descendants c))) <$> candidates) ∧
  (sc_Mode selection ≠ SelectionModeAll →
   matcher = None ∨ sc_Mode selection ≠ SelectionModeSelected →
   effectiveProjects matcher selection candidates = []) ∧
  sublist (ep_Candidate <$> effectiveProjects matcher selection candidates) candidates ∧
  Forall (λ e, ep_Admission e ≠ ProjectNotEffective ∧
               ep_SelectedDescendantCount e ≤ length (p_Descendants (ep_Candidate e)))
    (effectiveProjects matcher selection candidates).
Proof.
  unfold effectiveProjects. destruct (decide (candidates = [])) as [->|Hne].
  { split_and!; done. }
  case_decide as Hall.
  { split_and!; [done|done| |].
    - rewrite <- list_fmap_compose. simpl. by rewrite list_fmap_id.
    - apply Forall_fmap, Forall_true. intros c. simpl. split; [done|lia]. }
  destruct matcher as [m|]; [|split_and!; try done; apply sublist_nil_l].
  case_decide as Hsel; [split_and!; try done; apply sublist_nil_l|].
  destruct (effective_sound m (recordCohort candidates) candidates) as [H1 H2].
  split_and!; [done| |done|done]. by intros _ [?|?].
Qed.
End projection_facts.

(** ** Cohorts *)

(** What a group's cell says about the items seen so far. *)
Definition cohort_at (l : list CohortEvidence) (key : string * string)
    (o : option (gset string * bool)) : Prop :=
  match o with
  | None => ∀ e, e ∈ l → (ce_Harness e, ce_Text e) ≠ key
  | Some (ids, unresolved) =>
      (∀ k, k ∈ ids ↔ k ≠ "" ∧ ∃ e, e ∈ l ∧ (ce_Harness e, ce_Text e) = key ∧ ce_CohortKey e = k) ∧
      (unresolved = true ↔ ∃ e, e ∈ l ∧ (ce_Harness e, ce_Text e) = key ∧ ce_CohortKey e = "")
  end.

Lemma cohort_at_skip l key o x :
  (ce_Harness x, ce_Text x) ≠ key → cohort_at l key o → cohort_at (l ++ [x]) key o.
Proof.
  intros Hx. destruct o as [[ids u]|]; simpl;
    setoid_rewrite elem_of_app; setoid_rewrite list_elem_of_singleton; [|naive_solver].
  intros [H1 H2]. split; [intros k; rewrite H1|rewrite H2]; naive_solver.
Qed.

Lemma recordCohortEvidence_at l cohorts x key :
  key.2 ≠ "" → cohort_at l key (cohorts !! key) →
  cohort_at (l ++ [x]) key (recordCohortEvidence cohorts x !! key).
Proof.
  intros Hkey Hl. unfold recordCohortEvidence. case_decide as Ht.
  { apply cohort_at_skip; [|done]. intros <-. done. }
  destruct (default (∅, false) (cohorts !! (ce_Harness x, ce_Text x))) as [ids u] eqn:E.
  destruct (decide ((ce_Harness x, ce_Text x) = key)) as [<-|Hne];
    [|rewrite lookup_insert_ne by done; by apply cohort_at_skip].
  rewrite lookup_insert_eq.
  assert (cohort_at l (ce_Harness x, ce_Text x) (Some (ids, u))) as [H1 H2].
  { destruct (cohorts !! _) as [[ids' u']|]; simpl in E; simplify_eq; [done|].
    simpl in Hl. split.
    - intros k. split; [set_solver|]. intros (_ & e & He & Hk & _). by destruct (Hl e He).
    - split; [done|]. intros (e & He & Hk & _). by destruct (Hl e He). }
  case_decide as Hc; simpl; setoid_rewrite elem_of_app; setoid_rewrite list_elem_of_singleton.
  - split.
    + intros k. rewrite H1. split; [intros (? & e & ? & ?); eauto 6|].
      intros (? & e & [?| ->] & ? & ?); [eauto|congruence].
    + split; [|done]. intros _. exists x. auto.
  - split.
    + intros k. rewrite elem_of_union, elem_of_singleton, H1. split.
      * intros [->|(? & e & ? & ?)]; [split; [done|]; exists x; auto|eauto 6].
      * intros (? & e & [?| ->] & ? & ?); [right; eauto|by left].
    + rewrite H2. split; [intros (e & ? & ?); eauto|].
      intros (e & [?| ->] & ? & ?); [eauto|congruence].
Qed.

Lemma recordCohortEvidence_all l key :
  key.2 ≠ "" → cohort_at l key (foldl recordCohortEvidence ∅ l !! key).
Proof.
  intros Hkey. induction l as [|x l IH] using rev_ind; [simpl; rewrite lookup_empty; simpl; set_solver|].
  rewrite foldl_snoc. by apply recordCohortEvidence_at.
Qed.

(** One answer per item, and an item is unique iff its text is empty or
    every item of the same harness and text carries the same nonempty cohort
    key: a missing key, or a second key, makes the whole group ambiguous. *)
Theorem CohortMultiplicities_iff evidence i item :
  evidence !! i = Some item →
  ∃ v, CohortMultiplicities evidence !! i = Some v ∧ v ≠ DiscoveryIdentityUnproven ∧
    (v = DiscoveryIdentityUnique ↔
     ce_Text item = "" ∨
     (ce_CohortKey item ≠ "" ∧
      ∀ e, e ∈ evidence → ce_Harness e = ce_Harness item → ce_Text e = ce_Text item →
           ce_CohortKey e = ce_CohortKey item)).
Proof.
  intros Hi. unfold CohortMultiplicities. rewrite list_lookup_fmap, Hi. simpl. eexists. split; [done|].
  assert (item ∈ evidence) as Hin by (by eapply list_elem_of_lookup_2).
  case_decide as Ht; [naive_solver|].
  pose proof (recordCohortEvidence_all evidence (ce_Harness item, ce_Text item) Ht) as Ha.
  destruct (foldl _ _ _ !! _) as [[ids u]|]; [|by destruct (Ha item Hin)].
  destruct Ha as [H1 H2]. split; [by case_match|].
  destruct u; simpl.
  - split; [done|]. intros [?|[Hk Hall]]; [done|].
    destruct (proj1 H2 eq_refl) as (e & He & [= Hh Htx] & Hek). rewrite (Hall e He Hh Htx) in Hek. done.
  - assert (∀ e, e ∈ evidence → (ce_Harness e, ce_Text e) = (ce_Harness item, ce_Text item) →
      ce_CohortKey e ≠ "") as Hres by (intros e He Hk Hek; assert (false = true) by (apply H2; eauto); done).
    case_bool_decide as Hsz.
    + split; [|done]. intros _. right. split; [by apply Hres|]. intros e He Hh Htx.
      apply size_1_elem_of in Hsz as [k Hk]. setoid_rewrite Hk in H1. setoid_rewrite elem_of_singleton in H1.
      assert (∀ x, x ∈ evidence → (ce_Harness x, ce_Text x) = (ce_Harness item, ce_Text item) →
        ce_CohortKey x = k) as Hone by (intros x Hx Hkx; apply H1; split; [by apply Hres|eauto]).
      rewrite !Hone; congruence.
    + split; [done|]. intros [?|[Hk Hall]]; [done|]. destruct Hsz.
      assert (ids = {[ce_CohortKey item]}) as ->; [|by rewrite size_singleton].
      apply set_eq. intros k. rewrite H1, elem_of_singleton. split.
      * intros (_ & e & He & [= Hh Htx] & <-). by apply Hall.
      * intros ->. eauto.
Qed.

Lemma widen_spec fuel parts own cohort w :
  length parts ≤ fuel + w → w ≤ length parts →
  let w' := widen fuel parts own cohort w in
  w ≤ w' ∧ w' ≤ length parts ∧
  (w' = length parts ∨ cloneSuffixUnique parts w' own cohort = true) ∧
  ∀ k, w ≤ k → k < w' → cloneSuffixUnique parts k own cohort = false.
Proof.
  revert w. induction fuel as [|fuel IH]; intros w Hf Hw; simpl; [split_and!; lia|].
  case_bool_decide as Hlt; simpl; [|split_and!; lia].
  destruct (cloneSuffixUnique parts w own cohort) eqn:E; simpl; [split_and!; [lia|lia|tauto|lia]|].
  destruct (IH (S w)) as (H1 & H2 & H3 & H4); [lia..|]. split_and!; [lia|done|done|].
  intros k Hk1 Hk2. destruct (decide (k = w)) as [->|]; [done|]. apply H4; lia.
Qed.

Lemma cloneSuffixUnique_spec parts w own cohort :
  cloneSuffixUnique parts w own cohort = true ↔
  ∀ other, other ∈ cohort → other ≠ own → w ≤ length (clonePathParts other) →
    suffixOf (clonePathParts other) w ≠ suffixOf parts w.
Proof.
  unfold cloneSuffixUnique. rewrite negb_true_iff, <- not_true_iff_false, existsb_exists.
  setoid_rewrite <- list_elem_of_In. setoid_rewrite andb_true_iff. setoid_rewrite andb_true_iff.
  setoid_rewrite negb_true_iff. setoid_rewrite bool_decide_eq_false.
  setoid_rewrite bool_decide_eq_true. naive_solver.
Qed.

(** A clone label is the shortest distinct suffix.  Starting at two path
    components the label widens only while another clone of the cohort shares
    the suffix, so every shorter width clashes and the chosen one is distinct
    unless the whole path is used; the loop always stops. *)
Theorem ShortestDistinctCloneSuffix_shortest clonePath cohort :
  let parts := clonePathParts clonePath in
  let clash w := ∃ other, other ∈ cohort ∧ other ≠ clonePath ∧
    w ≤ length (clonePathParts other) ∧ suffixOf (clonePathParts other) w = suffixOf parts w in
  (parts = [] ∧ ShortestDistinctCloneSuffix clonePath cohort = "") ∨
  ∃ w, min 2 (length parts) ≤ w ≤ length parts ∧
    ShortestDistinctCloneSuffix clonePath cohort =
      (if decide (w = length parts ∧ 2 < length parts) then ellipsis +:+ "/" else "")
        +:+ suffixOf parts w ∧
    (w < length parts → ¬ clash w) ∧
    ∀ k, min 2 (length parts) ≤ k → k < w → clash k.
Proof.
  intros parts clash. unfold ShortestDistinctCloneSuffix. fold parts. case_decide as Hp; [by left|right].
  destruct (widen_spec (length parts) parts clonePath cohort (min 2 (length parts)))
    as (H1 & H2 & H3 & H4); [lia..|].
  set (w := widen _ _ _ _ _) in *. exists w. split_and!; [lia|lia| | |].
  - repeat case_bool_decide; simpl; case_decide; tauto || done.
  - intros Hlt (other & Ho & Hne & Hl & Heq). destruct H3 as [?|H3]; [lia|].
    rewrite cloneSuffixUnique_spec in H3. by apply (H3 other).
  - intros k Hk1 Hk2. specialize (H4 k Hk1 Hk2). rewrite <- not_true_iff_false, cloneSuffixUnique_spec in H4.
    destruct (decide (Exists (λ other, other ≠ clonePath ∧ k ≤ length (clonePathParts other) ∧
      suffixOf (clonePathParts other) k = suffixOf parts k) cohort)) as [Hex|Hex].
    + apply Exists_exists in Hex as (other & ? & ?). by exists other.
    + destruct H4. intros other Ho Hne Hl Heq. apply Hex, Exists_exists. eauto.
Qed.

(** ** Concrete runs *)

Definition demo_project (id remote path : string) (ds : list SessionCandidate) : ProjectCandidate :=
  mkProjectCandidate id "codex" remote "app" path "" ds.

(** Two clones of one remote: the remote no longer identifies a project. *)
Definition demo_cohort : list ProjectCandidate :=
  [demo_project "p1" "github.com/acme/app" "/home/u/app"
     [mkSessionCandidate "s1" "main" "" "" ""];
   demo_project "p2" "github.com/acme/app" "/home/u/app2"
     [mkSessionCandidate "s2" "main" "s1" "" ""]].

Lemma prepared_multiplicity_iff_witness :
  ∃ p, @prepareCohort plainRemotes demo_cohort !! 0 = Some p ∧
       (dc_RemoteMultiplicity (pp_Project p) = DiscoveryIdentityUnique ↔
        TrimSpace (p_GitRemote (pp_Candidate p)) = "" ∨
        OneProvenIdentity (@cohortRecords (@remoteText plainRemotes) demo_cohort)
          (@remoteText plainRemotes (pp_Candidate p))).
Proof.
  eexists. split; [vm_compute; reflexivity|].
  eapply (@prepared_multiplicity_iff plainRemotes demo_cohort 0). vm_compute. reflexivity.
Defined.

Example demo_effective :
  let m := @Build plainRemotes (AddSession "codex" "s1" ∅) in
  (λ e, (p_ParentProjectID (ep_Candidate e), ep_Admission e, ep_SelectedDescendantCount e)) <$>
    @effectiveProjects plainRemotes (Some m) (mkSelectionConfig "selected" false ∅) demo_cohort =
  [("p1", ProjectEffectiveExplicitSession, 1); ("p2", ProjectEffectiveNestedDescendant, 1)].
Proof. vm_compute. reflexivity. Qed.

Lemma CohortMultiplicities_iff_witness :
  let evidence := [mkCohortEvidence "codex" "app" "k1"; mkCohortEvidence "codex" "app" "k2";
                   mkCohortEvidence "codex" "lib" "k1"] in
  ∃ v, CohortMultiplicities evidence !! 2 = Some v ∧ v ≠ DiscoveryIdentityUnproven ∧
    (v = DiscoveryIdentityUnique ↔ "lib" = "" ∨
      ("k1" ≠ "" ∧ ∀ e, e ∈ evidence → ce_Harness e = "codex" → ce_Text e = "lib" → ce_CohortKey e = "k1")).
Proof.
  intros evidence. apply (CohortMultiplicities_iff evidence 2 (mkCohortEvidence "codex" "lib" "k1")).
  reflexivity.
Defined.
