(* ===== verification/Visibility.v ===== *)
(** * Session origin and discovery visibility
    ([internal/sessionorigin], [internal/sessionvisibility])

    Who drove a recorded session: the ordered first-match rule [Classify] over
    ingest evidence, the closed menu of origins with its validating parser,
    and the two projections of a browsing policy, origin-only discovery and
    saved-selection membership. *)
From S2P Require Import Prelude GoStrings Selection.
Local Open Scope string_scope.
Local Open Scope list_scope.
Local Open Scope nat_scope.

(** ** The menu ([origin.go]) *)

(** [type Origin string]: an arbitrary string until validated. *)
Abbreviation Origin := string (only parsing).
Definition User : Origin := "user".
Definition Agent : Origin := "agent".
Definition Unknown : Origin := "unknown".
Definition All : list Origin := [User; Agent; Unknown].

Definition Origin_Valid (o : Origin) : bool :=
  if decide (o = User) then true else if decide (o = Agent) then true
  else if decide (o = Unknown) then true else false.

(** The two refusals of [Validate], without their prose. *)
Inductive OriginError :=
  | EmptyOrigin
  | OutsideMenu (value : string).

Definition Validate (o : Origin) : result OriginError unit :=
  if Origin_Valid o then Ok tt
  else if decide (o = "") then Err EmptyOrigin
  else Err (OutsideMenu o).

Definition Parse (value : string) : result OriginError Origin :=
  let? _u := Validate value in Ok value.

(** ** The rule ([classify.go]) *)

Record Evidence := mkEvidence {
  HasParent : bool;
  AgentName : string;
  TeamName : string;
  Entrypoint : string;
  PromptSource : string;
  FirstUserText : string;
}.

Inductive Signal :=
  | SignalParentLinked
  | SignalStructuredIdentity
  | SignalProgrammaticEntry
  | SignalCommandInvocation
  | SignalBootstrapText
  | SignalNoEvidence.
#[export] Instance signal_eq_dec : EqDecision Signal.
Proof. solve_decision. Defined.

(** The wrapper names of the redact catalog and the skill-invocation regexp,
    compiled by go-re2, are library values. *)
Class RedactLib := {
  WrapperCommandMessage : string;
  WrapperCommandName : string;
  WrapperTeammateMessage : string;
  bootstrapSkillInvocation : string → bool;
}.

Definition entrypointSDKCLI : string := "sdk-cli".
Definition promptSourceSDK : string := "sdk".

(** The bytes that end a tag name: ['>'], ['/'], [' '], ['\t'], ['\r'], ['\n']. *)
Definition tagBoundary : list Ascii.ascii :=
  [byte 62; byte 47; byte 32; byte 9; byte 13; byte 10].

Definition opensWithTag (text name : string) : bool :=
  if decide (name = "") then false
  else match cut_prefix (String (byte 60) name) text with
  | None => false
  | Some EmptyString => false
  | Some (String c _) => bool_decide (c ∈ tagBoundary)
  end.

Definition asciiBlanks : string :=
  String (byte 32) (String (byte 9) (String (byte 13) (String (byte 10) EmptyString))).

Definition Classify `{RedactLib} (ev : Evidence) : Origin * Signal :=
  if HasParent ev then (Agent, SignalParentLinked)
  else if decide (AgentName ev ≠ "" ∨ TeamName ev ≠ "") then (Agent, SignalStructuredIdentity)
  else if decide (Entrypoint ev = entrypointSDKCLI ∧ PromptSource ev = promptSourceSDK)
  then (Agent, SignalProgrammaticEntry)
  else
    let opening := TrimLeft (FirstUserText ev) asciiBlanks in
    if opensWithTag opening WrapperCommandMessage || opensWithTag opening WrapperCommandName
    then (User, SignalCommandInvocation)
    else if opensWithTag opening WrapperTeammateMessage || bootstrapSkillInvocation opening
    then (Agent, SignalBootstrapText)
    else (Unknown, SignalNoEvidence).

(** ** The browsing policy ([policy.go]) *)

Record Candidate := mkVisCandidate {
  v_SessionID : SessionID;
  v_Harness : Harness;
  v_GitRemote : string;
  v_ProjectName : string;
  v_ClonePath : ClonePath;
  v_GitBranch : string;
  v_Origin : Origin;
  v_ParentSessionID : SessionID;
}.

Inductive VisibilityError :=
  | UnusableOrigin (session : SessionID) (cause : OriginError)
  | InvalidMode (session : SessionID)
  | ConflictingRules (session : SessionID) (branch : string).

Definition browsingRevision : string := "browsing/v1".

Record Policy := mkVisPolicy {
  selection : SelectionConfig;
  matcher : gmap string harnessMatcher;
  revision : string;
}.

Definition New `{RemoteLib} (sel : SelectionConfig) : Policy :=
  mkVisPolicy sel (CompileSelectionMatcher sel) browsingRevision.

Definition Browsing `{RemoteLib} : Policy := New (mkSelectionConfig SelectionModeAll false ∅).

Definition toDiscovery (c : Candidate) : DiscoveryCandidate :=
  mkCandidate (v_Harness c) (v_GitRemote c) (v_ProjectName c) (v_ClonePath c) (v_GitBranch c)
    (v_SessionID c) DiscoveryIdentityUnique DiscoveryIdentityUnique.

Definition SelectedForIngest `{RemoteLib} (p : Policy) (c : Candidate) : result VisibilityError bool :=
  if negb (SelectionMode_IsValid (sc_Mode (selection p))) then Err (InvalidMode (v_SessionID c))
  else if decide (sc_Mode (selection p) = SelectionModeAll) then Ok true
  else match MatchBranchCandidate (matcher p) (toDiscovery c) with
  | BranchMatchYes => Ok true
  | BranchMatchNo => Ok false
  | BranchMatchWithheldConflict => Err (ConflictingRules (v_SessionID c) (v_GitBranch c))
  end.

Definition VisibleForDiscovery (p : Policy) (c : Candidate) : result VisibilityError bool :=
  match Validate (v_Origin c) with
  | Err e => Err (UnusableOrigin (v_SessionID c) e)
  | Ok _ => Ok (bool_decide (v_Origin c ≠ Agent))
  end.

(** * Theorems *)

Lemma Origin_Valid_iff o : Origin_Valid o = true ↔ o ∈ All.
Proof. unfold Origin_Valid, All. repeat case_decide; set_solver. Qed.

Lemma Validate_ok o : Validate o = Ok tt ↔ o ∈ All.
Proof.
  unfold Validate. rewrite <- Origin_Valid_iff. destruct (Origin_Valid o); [done|].
  by case_decide.
Qed.

(** ** Tags *)

(** The bytes of a string. *)
Definition has_byte (c : Ascii.ascii) (s : string) : Prop := c ∈ String.list_ascii_of_string s.

Lemma opensWithTag_iff text name :
  opensWithTag text name = true ↔
  name ≠ "" ∧ ∃ c rest, text = "<" +:+ name +:+ String c rest ∧ c ∈ tagBoundary.
Proof.
  unfold opensWithTag. case_decide as Hn; [naive_solver|].
  change ("<" +:+ name +:+ ?r) with (String (byte 60) (name +:+ r)).
  destruct (cut_prefix (String (byte 60) name) text) as [r|] eqn:E.
  - apply cut_prefix_Some in E as ->. destruct r as [|c rest].
    + split; [done|]. intros (_ & c & rest & Heq & _). exfalso.
      injection Heq as Heq. revert Heq. clear. induction name; [done|]. intros [= ?]. auto.
    + rewrite bool_decide_eq_true. split; [intros Hc; split; [done|]; by exists c, rest|].
      intros (_ & c' & rest' & Heq & Hc). injection Heq as Heq.
      assert (String c rest = String c' rest') as [= -> ->]; [|done].
      revert Heq. clear. induction name; [done|]. intros [= ?]. auto.
  - split; [done|]. intros (_ & c & rest & -> & _).
    assert (cut_prefix (String (byte 60) name) (String (byte 60) name +:+ String c rest) =
            Some (String c rest)) as Hc by (by apply cut_prefix_Some).
    change (String (byte 60) (name +:+ String c rest)) with
      (String (byte 60) name +:+ String c rest) in E. congruence.
Qed.

Lemma tag_name_unique n1 n2 c1 c2 r1 r2 :
  n1 +:+ String c1 r1 = n2 +:+ String c2 r2 →
  c1 ∈ tagBoundary → c2 ∈ tagBoundary →
  (∀ c, c ∈ tagBoundary → ¬ has_byte c n1) → (∀ c, c ∈ tagBoundary → ¬ has_byte c n2) →
  n1 = n2.
Proof.
  unfold has_byte. revert n2.
  induction n1 as [|a n1 IH]; intros [|b n2] Heq H1 H2 Hb1 Hb2; simpl in *; simplify_eq.
  - done.
  - by destruct (Hb2 _ H1); left.
  - by destruct (Hb1 _ H2); left.
  - f_equal. eapply IH; [done..| |]; intros c Hc Hin; [apply (Hb1 c Hc)|apply (Hb2 c Hc)]; set_solver.
Qed.

(** The tag test is exact on names: a text opens with at most one wrapper
    name, so an opening tag whose name merely starts with a wrapper's name is
    not that wrapper. *)
Theorem opensWithTag_unique text n1 n2 :
  (∀ c, c ∈ tagBoundary → ¬ has_byte c n1) → (∀ c, c ∈ tagBoundary → ¬ has_byte c n2) →
  opensWithTag text n1 = true → opensWithTag text n2 = true → n1 = n2.
Proof.
  intros Hb1 Hb2 (_ & c1 & r1 & Ht1 & Hc1)%opensWithTag_iff (_ & c2 & r2 & Ht2 & Hc2)%opensWithTag_iff.
  rewrite Ht1 in Ht2. injection Ht2 as Heq. by eapply tag_name_unique.
Qed.

(** ** Classification *)

Section classify.
Context `{RedactLib}.

(** Evidence that a program drove the session, other than its opening text. *)
Definition StructuralAgent (ev : Evidence) : Prop :=
  HasParent ev = true ∨ AgentName ev ≠ "" ∨ TeamName ev ≠ "" ∨
  (Entrypoint ev = entrypointSDKCLI ∧ PromptSource ev = promptSourceSDK).

Definition openingOf (ev : Evidence) : string := TrimLeft (FirstUserText ev) asciiBlanks.
Definition CommandWrapped (ev : Evidence) : Prop :=
  opensWithTag (openingOf ev) WrapperCommandMessage = true ∨
  opensWithTag (openingOf ev) WrapperCommandName = true.
Definition Bootstrapped (ev : Evidence) : Prop :=
  opensWithTag (openingOf ev) WrapperTeammateMessage = true ∨
  bootstrapSkillInvocation (openingOf ev) = true.

(** A session is hidden as an agent's only on positive evidence, and a
    person's command is never hidden: Agent iff there is structural evidence,
    or the opening carries a bootstrap marker and is not command-wrapped; User
    iff it is command-wrapped without structural evidence; Unknown otherwise.
    The answer is always a menu value. *)
Theorem Classify_iff ev :
  (fst (Classify ev) = Agent ↔ StructuralAgent ev ∨ (¬ CommandWrapped ev ∧ Bootstrapped ev)) ∧
  (fst (Classify ev) = User ↔ ¬ StructuralAgent ev ∧ CommandWrapped ev) ∧
  (fst (Classify ev) = Unknown ↔ ¬ StructuralAgent ev ∧ ¬ CommandWrapped ev ∧ ¬ Bootstrapped ev) ∧
  Validate (fst (Classify ev)) = Ok tt.
Proof.
  unfold Classify, StructuralAgent, CommandWrapped, Bootstrapped. fold (openingOf ev).
  destruct (HasParent ev); [split_and!; naive_solver|].
  case_decide as Hid; [split_and!; naive_solver|].
  case_decide as Hsdk; [split_and!; naive_solver|].
  destruct (opensWithTag _ WrapperCommandMessage), (opensWithTag _ WrapperCommandName); simpl;
    try (split_and!; naive_solver).
  destruct (opensWithTag _ WrapperTeammateMessage), (bootstrapSkillInvocation _); simpl;
    split_and!; naive_solver.
Qed.
End classify.

(** ** Visibility *)

(** The origin menu is closed and fail-closed: [Parse] returns a value iff
    it is on the menu and then returns it unchanged, and discovery shows a
    session iff its recorded origin is on the menu and is not Agent, refuses
    (never guesses) when the origin is not on the menu, and consults neither
    the saved selection nor any other field of the candidate. *)
Theorem discovery_is_origin_only `{RemoteLib} value sel c :
  (∀ o, Parse value = Ok o ↔ o = value ∧ value ∈ All) ∧
  (VisibleForDiscovery (New sel) c = Ok true ↔ v_Origin c ∈ All ∧ v_Origin c ≠ Agent) ∧
  (VisibleForDiscovery (New sel) c = Ok false ↔ v_Origin c = Agent) ∧
  ((∃ e, VisibleForDiscovery (New sel) c = Err e) ↔ v_Origin c ∉ All) ∧
  ∀ c', v_Origin c' = v_Origin c →
    (∀ b, VisibleForDiscovery Browsing c' = Ok b ↔ VisibleForDiscovery (New sel) c = Ok b).
Proof.
  assert (∀ o, (Validate o = Ok tt ∧ o ∈ All) ∨ (∃ e, Validate o = Err e) ∧ o ∉ All) as Hv.
  { intros o. destruct (decide (o ∈ All)) as [Hin|Hin]; [left; by rewrite Validate_ok|right].
    split; [|done]. destruct (Validate o) as [[]|e] eqn:E; [by apply Validate_ok in E|eauto]. }
  assert (Agent ∈ All) as HA by set_solver.
  unfold VisibleForDiscovery, Parse. split_and!.
  - intros o. destruct (Hv value) as [[-> ?]|[[e ->] ?]]; simpl; naive_solver.
  - destruct (Hv (v_Origin c)) as [[-> ?]|[[e ->] ?]]; [|split; [done|tauto]].
    case_bool_decide; (split; [intros [=]|intros []]); tauto || done.
  - destruct (Hv (v_Origin c)) as [[-> ?]|[[e ->] Hno]]; [|split; [done|intros Ha; destruct Hno; by rewrite Ha]].
    case_bool_decide as Ha; [split; [done|tauto]|]. split; [intros _; by first [exact Ha|apply dec_stable]|done].
  - destruct (Hv (v_Origin c)) as [[-> ?]|[[e ->] ?]]; [|naive_solver].
    split; [by intros []|done].
  - intros c' Heq b. rewrite Heq. by destruct (Validate (v_Origin c)).
Qed.

(** ** Concrete runs *)

Definition demoCatalog : RedactLib :=
  {| WrapperCommandMessage := "command-message"; WrapperCommandName := "command-name";
     WrapperTeammateMessage := "teammate-message"; bootstrapSkillInvocation := λ _, false |}.

Example classify_command :
  @Classify demoCatalog (mkEvidence false "" "" "cli" "" "  <command-name>/review</command-name>")
  = (User, SignalCommandInvocation).
Proof. vm_compute. reflexivity. Qed.
Example classify_longer_tag :
  @Classify demoCatalog (mkEvidence false "" "" "cli" "" "<command-name-v2>x") = (Unknown, SignalNoEvidence).
Proof. vm_compute. reflexivity. Qed.

Lemma opensWithTag_unique_witness :
  opensWithTag "<command-name>/review" "command-name" = true ∧ "command-name" = "command-name".
Proof.
  split; [vm_compute; reflexivity|].
  apply (opensWithTag_unique "<command-name>/review").
  1-2: intros c Hc Hin; unfold has_byte in Hin; vm_compute in Hc, Hin; set_solver.
  all: vm_compute; reflexivity.
Defined.
