(* ===== verification/Scheduling.v ===== *)
(** * Operational scheduling of an admitted cohort
    ([internal/ingest/operational_parent.go], [internal/ingest/parallel.go])

    Which parent edge gates each admitted session ([BuildSchedulingParents]:
    tentative edges, then a three-colour depth-first search that removes the
    edges of every cycle), the topological levels computed from those edges
    ([topoLevels], a fixed point with a pass bound) and the size-ordered
    dispatch of work (a [container/heap] max-heap drained into a slice). *)
From S2P Require Import Prelude GoStrings Selection.
Local Open Scope string_scope.
Local Open Scope list_scope.
Local Open Scope nat_scope.

(** ** Entries: the fields of [DiffEntry.Session] that scheduling reads *)

(** The harness names come from the schema module, which is not part of this
    repository. *)
Class HarnessLib := {
  HarnessCodex : Harness;
  HarnessOpenCode : Harness;
}.

Record DiscoveredSession := mkSession {
  d_SessionID : SessionID;
  d_Harness : Harness;
  d_ParentUUID : option SessionID;
  d_SchedulingParentID : option SessionID;
}.

Abbreviation DiffEntry := DiscoveredSession (only parsing).

Definition IndependentAdmissionHarness `{HarnessLib} (h : Harness) : bool :=
  bool_decide (h = HarnessCodex ∨ h = HarnessOpenCode).

Definition OperationalParentID (session : DiscoveredSession) : option SessionID :=
  d_SchedulingParentID session.

(** ** The operational edges *)

(** A [map[SessionID]*SessionID]: a missing key and a nil pointer read alike. *)
Abbreviation edgeMap := (gmap SessionID (option SessionID)) (only parsing).
Definition edge (edges : edgeMap) (id : SessionID) : option SessionID := mjoin (edges !! id).

(** The loop body that derives one tentative edge: [byID] is the set of
    admitted identifiers. *)
Definition tentativeEdge `{HarnessLib} (byID : gset SessionID) (parentStored : SessionID → bool)
    (session : DiscoveredSession) : option SessionID :=
  match d_ParentUUID session with
  | None => None
  | Some parent =>
    if decide (parent = d_SessionID session) then None
    else if decide (parent ∉ byID) then
      if negb (IndependentAdmissionHarness (d_Harness session)) || negb (parentStored parent)
      then None
      else Some parent
    else Some parent
  end.

Definition byID (entries : list DiffEntry) : gset SessionID :=
  list_to_set (d_SessionID <$> entries).

Definition tentativeEdges `{HarnessLib} (entries : list DiffEntry) (parentStored : SessionID → bool) : edgeMap :=
  foldl (λ edges s, <[d_SessionID s := tentativeEdge (byID entries) parentStored s]> edges)
    ∅ entries.

(** ** Breaking the cycles *)

Inductive Colour := White | Gray | Black.
#[export] Instance colour_eq_dec : EqDecision Colour.
Proof. solve_decision. Defined.

(** The state of the search: [color], [stack] (its top first) and [edges]. *)
Record search := mkSearch {
  color : gmap SessionID Colour;
  stack : list SessionID;
  edges_ : edgeMap;
}.
Definition colour_of (s : search) (id : SessionID) : Colour := default White (color s !! id).

(** [for i := len(stack)-1; i >= 0; i--]: clear from the top down to [parent]. *)
Fixpoint clear_down (stack : list SessionID) (parent : SessionID) (edges : edgeMap) : edgeMap :=
  match stack with
  | [] => edges
  | id :: stack =>
    let edges := <[id := None]> edges in
    if decide (id = parent) then edges else clear_down stack parent edges
  end.

(** [visit]: [None] only when the fuel, a bound on the recursion depth, runs out. *)
Fixpoint visit (fuel : nat) (id : SessionID) (s : search) : option search :=
  match fuel with
  | O => None
  | S fuel =>
    let s := mkSearch (<[id := Gray]> (color s)) (id :: stack s) (edges_ s) in
    let finish s := mkSearch (<[id := Black]> (color s)) (tail (stack s)) (edges_ s) in
    match edge (edges_ s) id with
    | None => Some (finish s)
    | Some parent =>
      match colour_of s parent with
      | Gray => Some (finish (mkSearch (color s) (stack s) (clear_down (stack s) parent (edges_ s))))
      | White => s ← visit fuel parent s; Some (finish s)
      | Black => Some (finish s)
      end
    end
  end.

Fixpoint visit_all (fuel : nat) (entries : list DiffEntry) (s : search) : option search :=
  match entries with
  | [] => Some s
  | e :: entries =>
    let id := d_SessionID e in
    match colour_of s id with
    | White => s ← visit fuel id s; visit_all fuel entries s
    | _ => visit_all fuel entries s
    end
  end.

(** The search never goes deeper than one frame per admitted entry and one for
    a parent outside the cohort. *)
Definition breakSchedulingCycles (entries : list DiffEntry) (edges : edgeMap) : option edgeMap :=
  s ← visit_all (S (length entries)) entries (mkSearch ∅ [] edges);
  Some (edges_ s).

Definition BuildSchedulingParents `{HarnessLib} (entries : list DiffEntry) (parentStored : SessionID → bool)
    : option edgeMap :=
  breakSchedulingCycles entries (tentativeEdges entries parentStored).

Definition withSchedulingParent (s : DiscoveredSession) (p : option SessionID) : DiscoveredSession :=
  mkSession (d_SessionID s) (d_Harness s) (d_ParentUUID s) p.

Definition ApplySchedulingParents `{HarnessLib} (entries : list DiffEntry) (parentStored : SessionID → bool)
    : option (list DiffEntry) :=
  edges ← BuildSchedulingParents entries parentStored;
  Some ((λ e, withSchedulingParent e (edge edges (d_SessionID e))) <$> entries).

(** ** Topological levels ([topoLevels]) *)

(** [sessionIndex]: the last position of each identifier. *)
Definition sessionIndex (entries : list DiffEntry) : gmap SessionID nat :=
  foldl (λ m ie, <[d_SessionID ie.2 := ie.1]> m) ∅ (imap pair entries).

(** The edge that gates an entry: the operational one, or for the harnesses
    that inherit their parent's decision the logical one. *)
Definition gatingParent `{HarnessLib} (e : DiffEntry) : option SessionID :=
  match OperationalParentID e with
  | Some parent => Some parent
  | None => if IndependentAdmissionHarness (d_Harness e) then None else d_ParentUUID e
  end.

(** [level], [maxLevel] and [changed]. *)
Record levelState := mkLevels { level : list nat; maxLevel : nat; changed : bool }.

Definition levelStep `{HarnessLib} (index : gmap SessionID nat) (st : levelState) (ie : nat * DiffEntry) : levelState :=
  match gatingParent ie.2 with
  | None => st
  | Some parent =>
    match index !! parent with
    | None => st
    | Some parentIdx =>
      let want := (level st !!! parentIdx) + 1 in
      if decide (level st !!! ie.1 < want)
      then mkLevels (<[ie.1 := want]> (level st))
             (if decide (maxLevel st < want) then want else maxLevel st) true
      else st
    end
  end.

Definition levelPass `{HarnessLib} (entries : list DiffEntry) (st : levelState) : levelState :=
  foldl (levelStep (sessionIndex entries)) (mkLevels (level st) (maxLevel st) false) (imap pair entries).

(** [for pass := 0; changed && pass <= len(entries); pass++]: [passes] counts
    the passes the bound still allows. *)
Fixpoint levelPasses `{HarnessLib} (passes : nat) (entries : list DiffEntry) (st : levelState) : levelState :=
  match passes with
  | O => st
  | S passes => if changed st then levelPasses passes entries (levelPass entries st) else st
  end.

Definition computeLevels `{HarnessLib} (entries : list DiffEntry) : levelState :=
  levelPasses (S (length entries)) entries (mkLevels (replicate (length entries) 0) 0 true).

Definition topoLevels `{HarnessLib} (entries : list DiffEntry) : list (list DiffEntry) :=
  match entries with
  | [] => []
  | _ =>
    let st := computeLevels entries in
    foldl (λ levels ie, alter (λ l, l ++ [ie.2]) (level st !!! ie.1) levels)
      (replicate (S (maxLevel st)) []) (imap pair entries)
  end.

(** ** The work-size heap ([sessionSizeHeap] over [container/heap]) *)

Section heap.
Context {E : Type}.

Record sessionSize := mkSessionSize { s_entry : E; s_size : Z }.

Definition Less (h : list sessionSize) (i j : nat) : bool :=
  match h !! i, h !! j with
  | Some a, Some b => bool_decide (s_size b < s_size a)%Z
  | _, _ => false
  end.

Definition Swap (h : list sessionSize) (i j : nat) : list sessionSize :=
  match h !! i, h !! j with
  | Some a, Some b => <[i := b]> (<[j := a]> h)
  | _, _ => h
  end.

(** [heap.down h i n]: the standard library's sift-down over [h[0..n)]; each
    turn moves [i] to a child, so [n] turns are enough. *)
Fixpoint down (fuel : nat) (h : list sessionSize) (i n : nat) : list sessionSize :=
  match fuel with
  | O => h
  | S fuel =>
    let j1 := 2 * i + 1 in
    if decide (n ≤ j1) then h
    else
      let j := if decide (j1 + 1 < n) then (if Less h (j1 + 1) j1 then j1 + 1 else j1) else j1 in
      if Less h j i then down fuel (Swap h i j) j n else h
  end.

(** [heap.Init]: [for i := n/2 - 1; i >= 0; i--] sift down. *)
Fixpoint heapify (i : nat) (h : list sessionSize) : list sessionSize :=
  match i with
  | O => h
  | S i => heapify i (down (length h) h i (length h))
  end.

Definition buildSizeHeap (items : list sessionSize) : list sessionSize :=
  heapify (length items / 2) items.

(** [heap.Pop]: swap the root with the last element, sift the new root down
    over the rest, and cut the last element off. *)
Definition heapPop (h : list sessionSize) : option (sessionSize * list sessionSize) :=
  let n := length h - 1 in
  let h := down n (Swap h 0 n) 0 n in
  x ← h !! n; Some (x, take n h).

Fixpoint drain (fuel : nat) (h : list sessionSize) : list sessionSize :=
  match fuel with
  | O => []
  | S fuel =>
    match heapPop h with
    | Some (x, h) => x :: drain fuel h
    | None => []
    end
  end.

(** [for h.Len() > 0]: one element leaves per turn. *)
Definition drainHeap (h : list sessionSize) : list sessionSize := drain (length h) h.
End heap.
Arguments sessionSize : clear implicits.

(** ** Fan-out over a worker pool ([runParallel])

    The goroutines and the context are interleaved by a schedule: a worker
    action is one receive of its [range] loop or one turn of its body, and the
    context may be cancelled between any two of them. [calls] is a ghost log of
    the positions [fn] was called on. *)

Section pool.
Context {T R : Type} (fn : T → R) (zero : R).

Inductive worker :=
  | Receiving
  | Holding (idx : nat) (item : T)
  | Returned.

Record pool := mkPool {
  ch : list (nat * T);
  workers_ : list worker;
  results : list R;
  cancelled : bool;
  calls : list nat;
}.

Inductive pool_action := Worker (w : nat) | Cancel.

(** The worker count actually started. *)
Definition startedWorkers (items : list T) (workers : Z) : nat :=
  let workers := if decide (workers ≤ 0)%Z then 1%Z else workers in
  let workers := if decide (Z.of_nat (length items) < workers)%Z then Z.of_nat (length items) else workers in
  Z.to_nat workers.

Definition runParallel_start (items : list T) (workers : Z) : pool :=
  mkPool (imap pair items) (replicate (startedWorkers items workers) Receiving)
    (replicate (length items) zero) false [].

Definition pool_step (p : pool) (a : pool_action) : option pool :=
  match a with
  | Cancel =>
    if cancelled p then None
    else Some (mkPool (ch p) (workers_ p) (results p) true (calls p))
  | Worker w =>
    st ← workers_ p !! w;
    match st with
    | Receiving =>
      match ch p with
      | [] => Some (mkPool [] (<[w := Returned]> (workers_ p)) (results p) (cancelled p) (calls p))
      | (idx, item) :: ch =>
        Some (mkPool ch (<[w := Holding idx item]> (workers_ p)) (results p) (cancelled p) (calls p))
      end
    | Holding idx item =>
      if cancelled p
      then Some (mkPool (ch p) (<[w := Returned]> (workers_ p)) (results p) true (calls p))
      else Some (mkPool (ch p) (<[w := Receiving]> (workers_ p))
             (<[idx := fn item]> (results p)) false (calls p ++ [idx]))
    | Returned => None
    end
  end.
End pool.
Arguments worker : clear implicits.
Arguments pool : clear implicits.

(** * Theorems *)

(** ** The search removes exactly the cycle edges *)

Section search.
Variable E0 : edgeMap.
Variable D : gset SessionID.
Hypothesis E0_dom : ∀ x, x ∉ D → edge E0 x = None.

Definition next (x y : SessionID) : Prop := edge E0 x = Some y.
Definition OnCycle (x : SessionID) : Prop := tc next x x.

Lemma next_functional x y z : next x y → next x z → y = z.
Proof. unfold next. congruence. Qed.

(** The stack is a path of [E0] from its bottom to its top. *)
Definition is_path (st : list SessionID) : Prop :=
  ∀ i a b, st !! i = Some a → st !! S i = Some b → next b a.

(** The invariant of the search between two calls. *)
Record search_inv (s : search) : Prop := {
  inv_gray : ∀ x, colour_of s x = Gray ↔ x ∈ stack s;
  inv_nodup : NoDup (stack s);
  inv_path : is_path (stack s);
  inv_edges : ∀ x, edge (edges_ s) x = edge E0 x ∨ (edge (edges_ s) x = None ∧ OnCycle x);
  inv_black : ∀ x, colour_of s x = Black → OnCycle x → edge (edges_ s) x = None;
  inv_back : ∀ w z, colour_of s w = Black → next w z →
    colour_of s z = Black ∨
    ∃ pre post, stack s = pre ++ z :: post ∧ Forall (λ y, edge (edges_ s) y = None) (pre ++ [z]);
  inv_white : ∀ x, colour_of s x = White → edge (edges_ s) x = edge E0 x;
}.

(** The number of admitted entries not yet visited bounds the recursion. *)
Definition whites (s : search) : nat := size (filter (λ x, colour_of s x = White) D).

Lemma edge_insert m x o y : edge (<[x := o]> m) y = if decide (x = y) then o else edge m y.
Proof. unfold edge. case_decide; subst; [by rewrite lookup_insert_eq|by rewrite lookup_insert_ne]. Qed.

Lemma colour_of_insert c x col st es y :
  colour_of (mkSearch (<[x := c]> col) st es) y =
  if decide (x = y) then c else colour_of (mkSearch col st es) y.
Proof. unfold colour_of; simpl. case_decide; subst; [by rewrite lookup_insert_eq|by rewrite lookup_insert_ne]. Qed.

Lemma clear_down_spec pre parent post m y :
  parent ∉ pre →
  edge (clear_down (pre ++ parent :: post) parent m) y =
  if decide (y ∈ pre ++ [parent]) then None else edge m y.
Proof.
  revert m. induction pre as [|a pre IH]; intros m Hni; simpl.
  - rewrite decide_True by done. rewrite edge_insert. repeat case_decide; set_solver.
  - rewrite decide_False by set_solver. rewrite IH by set_solver. rewrite edge_insert.
    repeat case_decide; set_solver.
Qed.

(** A path segment closed by an edge from its top back to its bottom is a cycle. *)
Lemma path_tc st i j a b :
  is_path st → i ≤ j → st !! i = Some a → st !! j = Some b → rtc next b a.
Proof.
  intros Hp Hij. revert b. induction Hij as [|j Hij IH]; intros b Ha Hb; [by simplify_eq|].
  destruct (lookup_lt_is_Some_2 st j) as [c Hc]; [apply lookup_lt_Some in Hb; lia|].
  eapply rtc_l; [by eapply Hp|]. by apply IH.
Qed.

Lemma closed_segment_OnCycle x pre z post y :
  is_path (x :: pre ++ z :: post) → next x z → y ∈ x :: pre ++ [z] → OnCycle y.
Proof.
  intros Hp Hxz Hy. unfold OnCycle.
  assert ((x :: pre ++ z :: post) !! S (length pre) = Some z) as Hz.
  { simpl. by rewrite list_lookup_middle. }
  assert (∃ i, i ≤ S (length pre) ∧ (x :: pre ++ z :: post) !! i = Some y) as (i & Hi & Hyi).
  { apply list_elem_of_lookup in Hy as [i Hi]. exists i.
    pose proof (lookup_lt_Some _ _ _ Hi) as Hlt. rewrite length_cons, length_app in Hlt; simpl in Hlt.
    split; [lia|]. change (x :: pre ++ z :: post) with ((x :: pre) ++ [z] ++ post).
    rewrite (assoc_L (++)). apply lookup_app_l_Some. done. }
  eapply tc_rtc_l; [by eapply (path_tc _ 0 i); [|lia| |]|].
  eapply tc_rtc_r; [by apply tc_once|]. by eapply (path_tc _ i (S (length pre))).
Qed.

Definition back_at (s : search) (w z : SessionID) : Prop :=
  colour_of s z = Black ∨
  ∃ pre post, stack s = pre ++ z :: post ∧ Forall (λ y, edge (edges_ s) y = None) (pre ++ [z]).

Lemma back_at_top s x r z :
  stack s = x :: r → back_at s x z → colour_of s z = Black ∨ edge (edges_ s) x = None.
Proof.
  intros Hst [?|(pre & post & Heq & Hall)]; [by left|right].
  rewrite Hst in Heq. destruct pre; simplify_eq/=; by inversion Hall.
Qed.

(** When the top of the stack is left, a cycle through it has been cleared. *)
Lemma top_cleared s x r :
  search_inv s → stack s = x :: r → (∀ z, next x z → back_at s x z) →
  OnCycle x → edge (edges_ s) x = None.
Proof.
  intros Hs Hst Hback Hc. apply tc_first in Hc as (z & Hxz & Hzx).
  destruct (back_at_top _ _ _ _ Hst (Hback _ Hxz)) as [Hz|]; [|done].
  clear Hxz Hback. induction Hzx as [x|z z' x Hzz' Hzx IH]; intros.
  - assert (colour_of s x = Gray) by (apply (inv_gray _ Hs); rewrite Hst; by left). congruence.
  - destruct (inv_back _ Hs _ _ Hz Hzz') as [Hz'|(pre & post & Heq & Hall)]; [by apply IH|].
    rewrite Hst in Heq. destruct pre; simplify_eq/=; by inversion Hall.
Qed.

Definition push (id : SessionID) (s : search) : search :=
  mkSearch (<[id := Gray]> (color s)) (id :: stack s) (edges_ s).
Definition finish (id : SessionID) (s : search) : search :=
  mkSearch (<[id := Black]> (color s)) (tail (stack s)) (edges_ s).

Lemma colour_push id s y : colour_of (push id s) y = if decide (id = y) then Gray else colour_of s y.
Proof. apply colour_of_insert. Qed.
Lemma colour_finish id s y : colour_of (finish id s) y = if decide (id = y) then Black else colour_of s y.
Proof. apply colour_of_insert. Qed.

(** The edge that led here is still in place. *)
Definition enters (s : search) (x : SessionID) : Prop :=
  ∀ u r, stack s = u :: r → next u x ∧ edge (edges_ s) u ≠ None.

Lemma push_inv s x :
  search_inv s → colour_of s x = White → enters s x → search_inv (push x s).
Proof.
  intros Hs Hx Hent.
  assert (x ∉ stack s) as Hni by (rewrite <- (inv_gray _ Hs); congruence).
  assert (∀ w z, colour_of s w = Black → next w z → colour_of s z = Black) as Hback.
  { intros w z Hw Hwz. destruct (inv_back _ Hs _ _ Hw Hwz) as [|(pre & post & Heq & Hall)]; [done|].
    destruct pre as [|u pre]; simplify_eq/=; destruct (Hent _ _ Heq) as [_ []]; by inversion Hall. }
  split.
  - intros y. rewrite colour_push. simpl. rewrite elem_of_cons, <- (inv_gray _ Hs).
    case_decide; naive_solver.
  - simpl. apply NoDup_cons. split; [done|apply (inv_nodup _ Hs)].
  - intros [|i] a b Ha Hb; simpl in *; simplify_eq.
    + destruct (stack s) as [|u r] eqn:E; simplify_eq/=. by eapply Hent.
    + by eapply (inv_path _ Hs).
  - apply (inv_edges _ Hs).
  - intros y. rewrite colour_push. case_decide; [done|]. apply (inv_black _ Hs).
  - intros w z. rewrite !colour_push. case_decide; [done|]. intros Hw Hwz. left.
    specialize (Hback _ _ Hw Hwz). rewrite decide_False by congruence. done.
  - intros y. rewrite colour_push. case_decide; [done|]. apply (inv_white _ Hs).
Qed.

Lemma finish_inv s x r :
  search_inv s → stack s = x :: r → (∀ z, next x z → back_at s x z) → search_inv (finish x s).
Proof.
  intros Hs Hst Hback. pose proof (inv_nodup _ Hs) as Hnd. rewrite Hst in Hnd.
  apply NoDup_cons in Hnd as [Hni Hnd].
  assert (∀ w z, back_at s w z → back_at (finish x s) w z) as Hmono.
  { intros w z [Hz|(pre & post & Heq & Hall)].
    - left. rewrite colour_finish. by case_decide.
    - rewrite Hst in Heq. destruct pre as [|u pre]; simplify_eq/=.
      + left. rewrite colour_finish. by rewrite decide_True.
      + right. exists pre, post. unfold finish; simpl. rewrite Hst; simpl. split; [done|].
        by inversion Hall. }
  split.
  - intros y. rewrite colour_finish. simpl. rewrite Hst; simpl. pose proof (inv_gray _ Hs y) as Hy.
    rewrite Hst, elem_of_cons in Hy. case_decide; [|naive_solver]. subst. split; done.
  - simpl. by rewrite Hst.
  - simpl. rewrite Hst; simpl. intros i a b Ha Hb.
    apply (inv_path _ Hs (S i)); by rewrite Hst.
  - apply (inv_edges _ Hs).
  - intros y. rewrite colour_finish. case_decide; [subst y; intros _|apply (inv_black _ Hs)].
    by apply (top_cleared s x r).
  - intros w z. rewrite (colour_finish x s w). case_decide; intros Hw Hwz; apply (Hmono w z); [subst w; auto|].
    exact (inv_back _ Hs _ _ Hw Hwz).
  - intros y. rewrite colour_finish. case_decide; [done|]. apply (inv_white _ Hs).
Qed.

(** Clearing the stack down to a gray parent. *)
Definition cleared (s : search) (parent : SessionID) : search :=
  mkSearch (color s) (stack s) (clear_down (stack s) parent (edges_ s)).

Lemma cleared_inv s x r parent :
  search_inv s → stack s = x :: r → next x parent → colour_of s parent = Gray →
  search_inv (cleared s parent) ∧ back_at (cleared s parent) x parent.
Proof.
  intros Hs Hst Hxp Hg. apply (inv_gray _ Hs) in Hg.
  apply list_elem_of_split in Hg as (pre & post & Heq).
  pose proof (inv_nodup _ Hs) as Hnd. rewrite Heq in Hnd.
  assert (parent ∉ pre) as Hni by (apply NoDup_app in Hnd as (_ & Hd & _); intros ?; eapply Hd; [done|left]).
  assert (∀ y, edge (edges_ (cleared s parent)) y =
    if decide (y ∈ pre ++ [parent]) then None else edge (edges_ s) y) as Hcl.
  { intros y. simpl. rewrite Heq. by apply clear_down_spec. }
  assert (∀ y, y ∈ pre ++ [parent] → OnCycle y) as Hcyc.
  { intros y Hy. pose proof (inv_path _ Hs) as Hp. rewrite Heq in *.
    destruct pre as [|x' pre]; simplify_eq/=.
    - apply list_elem_of_singleton in Hy as ->. by apply tc_once.
    - by eapply closed_segment_OnCycle. }
  split; [split|].
  - apply (inv_gray _ Hs).
  - apply (inv_nodup _ Hs).
  - apply (inv_path _ Hs).
  - intros y. rewrite Hcl. case_decide; [right; auto|apply (inv_edges _ Hs)].
  - intros y Hy Hc. rewrite Hcl. case_decide; [done|]. by apply (inv_black _ Hs).
  - intros w z Hw Hwz. destruct (inv_back _ Hs _ _ Hw Hwz) as [|(pre' & post' & Heq' & Hall)]; [by left|].
    right. exists pre', post'. split; [done|]. eapply Forall_impl; [done|]. intros y Hy; simpl in Hy.
    rewrite Hcl. by case_decide.
  - intros y Hy. rewrite Hcl. rewrite decide_False; [by apply (inv_white _ Hs)|].
    intros Hin. assert (colour_of s y = Gray) as Hgy by (apply (inv_gray _ Hs); rewrite Heq; set_solver).
    unfold colour_of in *; simpl in *. congruence.
  - right. exists pre, post. split; [done|]. apply Forall_forall. intros y Hy. rewrite Hcl.
    by rewrite decide_True.
Qed.

Lemma whites_push s x : x ∈ D → colour_of s x = White → whites (push x s) < whites s.
Proof.
  intros Hx Hw. unfold whites. apply subset_size. split.
  - intros y. rewrite !elem_of_filter, colour_push. case_decide; naive_solver.
  - intros Hsub. rewrite elem_of_subseteq in Hsub. specialize (Hsub x).
    rewrite !elem_of_filter, colour_push, decide_True in Hsub by done. by destruct Hsub.
Qed.

Lemma visit_unfold fuel x s :
  visit (S fuel) x s =
  match edge (edges_ s) x with
  | None => Some (finish x (push x s))
  | Some parent =>
    match colour_of (push x s) parent with
    | Gray => Some (finish x (cleared (push x s) parent))
    | White => s ← visit fuel parent (push x s); Some (finish x s)
    | Black => Some (finish x (push x s))
    end
  end.
Proof. done. Qed.

(** One visit terminates within the fuel, keeps the invariant and the stack,
    blackens its node and whitens nothing. *)
Lemma visit_spec fuel x s :
  search_inv s → colour_of s x = White → enters s x → whites s < fuel →
  ∃ s', visit fuel x s = Some s' ∧ search_inv s' ∧ stack s' = stack s ∧
    colour_of s' x = Black ∧ ∀ z, colour_of s z ≠ White → colour_of s' z ≠ White.
Proof.
  revert x s. induction fuel as [|fuel IH]; intros x s Hs Hx Hent Hfuel; [lia|].
  rewrite visit_unfold. pose proof (push_inv _ _ Hs Hx Hent) as Hp.
  pose proof (inv_white _ Hs _ Hx) as HE.
  assert (∀ z s2, colour_of s z ≠ White → (colour_of (push x s) z ≠ White → colour_of s2 z ≠ White) →
    colour_of (finish x s2) z ≠ White) as Hmono.
  { intros z s2 Hz Hs2. rewrite colour_finish. case_decide; [done|]. apply Hs2.
    rewrite colour_push. by rewrite decide_False. }
  assert (∀ s2, search_inv s2 → stack s2 = x :: stack s → (∀ z, next x z → back_at s2 x z) →
    (∀ z, colour_of (push x s) z ≠ White → colour_of s2 z ≠ White) →
    ∃ s', Some (finish x s2) = Some s' ∧ search_inv s' ∧ stack s' = stack s ∧
      colour_of s' x = Black ∧ ∀ z, colour_of s z ≠ White → colour_of s' z ≠ White) as Hfin.
  { intros s2 Hs2 Hst Hback Hm. eexists; split_and!; [done|by eapply finish_inv| | |].
    - simpl. by rewrite Hst.
    - rewrite colour_finish. by rewrite decide_True.
    - intros z Hz. by apply Hmono; [|apply Hm]. }
  destruct (edge (edges_ s) x) as [parent|] eqn:E.
  - assert (next x parent) as Hnext by done.
    assert (∀ z, next x z → z = parent) as Hfun by (intros; by eapply next_functional).
    destruct (colour_of (push x s) parent) eqn:Ec.
    + destruct (IH parent (push x s)) as (s2 & -> & Hs2 & Hst2 & Hb & Hm); [done..| | |].
      * intros u r Hu. simplify_eq/=. rewrite E. done.
      * assert (x ∈ D) as HxD by (destruct (decide (x ∈ D)); [done|]; rewrite E0_dom in HE; done).
        pose proof (whites_push s x HxD Hx). lia.
      * simpl. apply Hfin; [done|done| |done]. intros z ->%Hfun. by left.
    + destruct (cleared_inv (push x s) x (stack s) parent) as [Hc Hb]; [done..|].
      apply Hfin; [done|done| |done]. intros z ->%Hfun. done.
    + apply Hfin; [done|done| |done]. intros z ->%Hfun. by left.
  - apply Hfin; [done|done| |done]. intros z Hz. unfold next in Hz. congruence.
Qed.

Lemma visit_all_spec fuel entries s :
  search_inv s → stack s = [] → size D < fuel →
  ∃ s', visit_all fuel entries s = Some s' ∧ search_inv s' ∧ stack s' = [] ∧
    (∀ z, colour_of s z ≠ White → colour_of s' z ≠ White) ∧
    ∀ e, e ∈ entries → colour_of s' (d_SessionID e) ≠ White.
Proof.
  revert s. induction entries as [|e entries IH]; intros s Hs Hst Hfuel; simpl; [set_solver|].
  assert (∀ s1, search_inv s1 → stack s1 = [] → colour_of s1 (d_SessionID e) ≠ White →
    (∀ z, colour_of s z ≠ White → colour_of s1 z ≠ White) →
    ∃ s', visit_all fuel entries s1 = Some s' ∧ search_inv s' ∧ stack s' = [] ∧
    (∀ z, colour_of s z ≠ White → colour_of s' z ≠ White) ∧
    ∀ e', e' ∈ e :: entries → colour_of s' (d_SessionID e') ≠ White) as Hstep.
  { intros s1 H1 H2 H3 H4. destruct (IH s1) as (s' & ? & ? & ? & ? & ?); [done..|].
    exists s'. set_solver. }
  destruct (colour_of s (d_SessionID e)) eqn:Ec; [|apply Hstep; auto; congruence..].
  destruct (visit_spec fuel (d_SessionID e) s) as (s1 & -> & ? & ? & ? & ?); [done..| | |].
  - intros u r. rewrite Hst. done.
  - unfold whites. eapply Nat.le_lt_trans; [|exact Hfuel]. apply subseteq_size. intros y. rewrite elem_of_filter. by intros [].
  - simpl. apply Hstep; [done|congruence..|done].
Qed.

(** The search from scratch removes the edge of every node on a cycle, and no
    other edge. *)
Lemma search_exact fuel entries :
  (∀ x, x ∈ D → ∃ e, e ∈ entries ∧ d_SessionID e = x) → size D < fuel →
  ∃ s, visit_all fuel entries (mkSearch ∅ [] E0) = Some s ∧
    ∀ x y, edge (edges_ s) x = Some y ↔ next x y ∧ ¬ OnCycle x.
Proof.
  intros HD Hfuel. destruct (visit_all_spec fuel entries (mkSearch ∅ [] E0))
    as (s & Hv & Hs & Hst & _ & Hall); [|done..|].
  { split; simpl; try done.
    - intros x. unfold colour_of; simpl. rewrite lookup_empty. simpl. set_solver.
    - constructor.
    - intros x. left. done. }
  exists s. split; [done|]. intros x y. unfold next.
  destruct (inv_edges _ Hs x) as [Heq|[Hn Hc]]; [|rewrite Hn; naive_solver].
  rewrite Heq. split; [|naive_solver]. intros HE. split; [done|]. intros Hc.
  destruct (decide (x ∈ D)) as [Hx|Hx]; [|by rewrite E0_dom in HE].
  destruct (HD _ Hx) as (e & He & <-). specialize (Hall _ He).
  destruct (colour_of s (d_SessionID e)) eqn:Ecol; [done| |].
  - apply (inv_gray _ Hs) in Ecol. rewrite Hst in Ecol. set_solver.
  - rewrite (inv_black _ Hs) in Heq; [congruence|done..].
Qed.
End search.

(** ** The derived edges *)

Section parents.
Context `{HarnessLib}.

Lemma byID_elem entries x : x ∈ byID entries ↔ ∃ e, e ∈ entries ∧ d_SessionID e = x.
Proof. unfold byID. rewrite elem_of_list_to_set, list_elem_of_fmap. naive_solver. Qed.

Lemma byID_size entries : base.size (byID entries) ≤ length entries.
Proof.
  unfold byID. induction entries as [|e entries IH]; [done|].
  rewrite fmap_cons, list_to_set_cons, length_cons.
  rewrite size_union_alt, size_singleton.
  assert (base.size (list_to_set (d_SessionID <$> entries) ∖ {[d_SessionID e]} : gset SessionID) ≤
    base.size (list_to_set (d_SessionID <$> entries) : gset SessionID)); [|lia].
  apply subseteq_size. set_solver.
Qed.

(** A foldl of insertions keyed by session keeps the last entry of each key. *)
Lemma foldl_edges_dom (f : DiffEntry → option SessionID) entries (m : edgeMap) x :
  x ∉ byID entries → foldl (λ (edges : edgeMap) s, <[d_SessionID s := f s]> edges) m entries !! x = m !! x.
Proof.
  revert m. induction entries as [|e entries IH]; intros m Hx; simpl; [done|].
  rewrite byID_elem in Hx. rewrite IH by (rewrite byID_elem; set_solver).
  apply lookup_insert_ne. set_solver.
Qed.

Lemma foldl_edges_lookup (f : DiffEntry → option SessionID) entries (m : edgeMap) e :
  NoDup (d_SessionID <$> entries) → e ∈ entries →
  foldl (λ (edges : edgeMap) s, <[d_SessionID s := f s]> edges) m entries !! d_SessionID e = Some (f e).
Proof.
  revert m. induction entries as [|e' entries IH]; intros m; [set_solver|].
  rewrite fmap_cons, NoDup_cons, list_elem_of_fmap. intros [Hni Hnd] [<-|He]%elem_of_cons; simpl; [|by apply IH].
  rewrite foldl_edges_dom; [apply lookup_insert_eq|]. rewrite byID_elem. naive_solver.
Qed.

Lemma tentativeEdges_dom entries stored x :
  x ∉ byID entries → edge (tentativeEdges entries stored) x = None.
Proof. intros Hx. unfold edge, tentativeEdges. by rewrite foldl_edges_dom. Qed.

Lemma tentativeEdges_lookup entries stored e :
  NoDup (d_SessionID <$> entries) → e ∈ entries →
  edge (tentativeEdges entries stored) (d_SessionID e) = tentativeEdge (byID entries) stored e.
Proof. intros. unfold edge, tentativeEdges. by rewrite foldl_edges_lookup. Qed.

Lemma tentativeEdge_Some ids stored e p :
  tentativeEdge ids stored e = Some p ↔
  d_ParentUUID e = Some p ∧ p ≠ d_SessionID e ∧
  (p ∈ ids ∨ IndependentAdmissionHarness (d_Harness e) = true ∧ stored p = true).
Proof.
  unfold tentativeEdge. destruct (d_ParentUUID e) as [q|]; [|naive_solver].
  case_decide; [naive_solver|]. destruct (decide (q ∈ ids)) as [Hin|Hin].
  - rewrite decide_False by auto. split; [by intros [= <-]; eauto|by intros ([= <-] & _)].
  - rewrite decide_True by done.
    destruct (IndependentAdmissionHarness (d_Harness e)), (stored q) eqn:Hq; simpl.
    1: split; [by intros [= <-]; eauto|by intros ([= <-] & _)].
    all: split; [done|]; intros ([= <-] & _ & [?|[? ?]]); congruence || done.
Qed.

Lemma BuildSchedulingParents_spec entries stored :
  ∃ edges, BuildSchedulingParents entries stored = Some edges ∧
    ∀ x y, edge edges x = Some y ↔
      edge (tentativeEdges entries stored) x = Some y ∧
      ¬ OnCycle (tentativeEdges entries stored) x.
Proof.
  destruct (search_exact (tentativeEdges entries stored) (byID entries)) with
    (fuel := S (length entries)) (entries := entries) as (s & Hs & Hx).
  - intros x Hx. by apply tentativeEdges_dom.
  - intros x. by rewrite byID_elem.
  - pose proof (byID_size entries). lia.
  - exists (edges_ s). unfold BuildSchedulingParents, breakSchedulingCycles. by rewrite Hs.
Qed.

(** Removing the edges of the nodes on cycles leaves no cycle. *)
Lemma acyclic_of_spec (E E' : edgeMap) x :
  (∀ x y, edge E' x = Some y ↔ edge E x = Some y ∧ ¬ OnCycle E x) → ¬ OnCycle E' x.
Proof.
  intros HE Hc. apply tc_first in Hc as (y & Hxy & Hyx).
  pose proof Hxy as [Hxy' []]%HE. eapply tc_rtc_r; [by apply tc_once|].
  eapply rtc_subrel; [|done]. by intros a b [? _]%HE.
Qed.

(** [BuildSchedulingParents] always returns; its edges have no cycle; and
    with distinct identifiers an admitted session keeps an edge to a parent iff
    that is its logical parent, not itself, the parent is in the cohort (or, for
    an independently admitted harness, already stored), and the session is not
    on a cycle of such edges. No edge outside a cycle is ever removed. *)
Theorem BuildSchedulingParents_exact entries stored :
  ∃ edges, BuildSchedulingParents entries stored = Some edges ∧
    (∀ x, ¬ OnCycle edges x) ∧
    (∀ x, x ∉ byID entries → edge edges x = None) ∧
    (NoDup (d_SessionID <$> entries) → ∀ e p, e ∈ entries →
      edge edges (d_SessionID e) = Some p ↔
      d_ParentUUID e = Some p ∧ p ≠ d_SessionID e ∧
      (p ∈ byID entries ∨ IndependentAdmissionHarness (d_Harness e) = true ∧ stored p = true) ∧
      ¬ OnCycle (tentativeEdges entries stored) (d_SessionID e)).
Proof.
  destruct (BuildSchedulingParents_spec entries stored) as (edges & Hb & Hx).
  exists edges. split_and!; [done| | |].
  - intros x. by eapply acyclic_of_spec.
  - intros x Hni. destruct (edge edges x) as [p|] eqn:E; [|done].
    apply Hx in E as [E _]. by rewrite tentativeEdges_dom in E.
  - intros Hnd e p He. rewrite Hx, tentativeEdges_lookup, tentativeEdge_Some by done. tauto.
Qed.
End parents.

(** ** Levels *)

Section levels.
Context `{HarnessLib}.
Variable entries : list DiffEntry.
Let n := length entries.

(** The position of the entry that gates position [i], if it is in the batch. *)
Definition parentIdx (i : nat) : option nat :=
  e ← entries !! i; p ← gatingParent e; sessionIndex entries !! p.
Definition gatedBy (i j : nat) : Prop := parentIdx i = Some j.

Lemma sessionIndex_Some p j :
  sessionIndex entries !! p = Some j → ∃ e, entries !! j = Some e ∧ d_SessionID e = p.
Proof.
  unfold sessionIndex. induction entries as [|e l IH] using rev_ind; [done|].
  rewrite imap_app, foldl_app; simpl. rewrite Nat.add_0_r. intros [[<- <-]|[? Hl]]%lookup_insert_Some.
  - exists e. split; [|done]. by rewrite list_lookup_middle.
  - destruct (IH Hl) as (e' & He' & <-). exists e'. split; [|done]. by apply lookup_app_l_Some.
Qed.

Lemma sessionIndex_is_Some p :
  (∃ e, e ∈ entries ∧ d_SessionID e = p) → is_Some (sessionIndex entries !! p).
Proof.
  unfold sessionIndex. induction entries as [|e l IH] using rev_ind; [set_solver|].
  intros (e' & [He|He%list_elem_of_singleton]%elem_of_app & Hp);
    rewrite imap_app, foldl_app; simpl; apply lookup_insert_is_Some'; subst; eauto.
Qed.

Lemma gatedBy_lt i j : gatedBy i j → i < n ∧ j < n.
Proof.
  unfold gatedBy, parentIdx. destruct (entries !! i) as [e|] eqn:Hi; [|done]; simpl.
  destruct (gatingParent e); [|done]; simpl. intros (e' & He' & _)%sessionIndex_Some.
  split; by eapply lookup_lt_Some.
Qed.

(** One step by position. *)
Definition stepAt (st : levelState) (i : nat) : levelState :=
  match parentIdx i with
  | None => st
  | Some j =>
    if decide (level st !!! i < (level st !!! j) + 1)
    then mkLevels (<[i := (level st !!! j) + 1]> (level st))
           (if decide (maxLevel st < (level st !!! j) + 1) then (level st !!! j) + 1 else maxLevel st) true
    else st
  end.

Lemma foldl_imap_pair {A B} (f : B → nat * A → B) (g : B → nat → B) (l : list A) b :
  (∀ b i x, l !! i = Some x → f b (i, x) = g b i) →
  foldl f b (imap pair l) = foldl g b (seq 0 (length l)).
Proof.
  induction l as [|x l IH] using rev_ind; intros Hfg; [done|].
  rewrite imap_app, length_app, seq_app, !foldl_app; simpl. rewrite Nat.add_0_r.
  rewrite IH, (Hfg _ (length l) x); [done|by rewrite list_lookup_middle|].
  intros b' i y Hy. apply Hfg. by apply lookup_app_l_Some.
Qed.

Lemma levelPass_eq st :
  levelPass entries st = foldl stepAt (mkLevels (level st) (maxLevel st) false) (seq 0 n).
Proof.
  apply foldl_imap_pair. intros b i e Hi. unfold levelStep, stepAt, parentIdx. simpl.
  rewrite Hi; simpl. by destruct (gatingParent e).
Qed.

(** What every pass keeps, cycles or not: one level per entry, none above the
    recorded maximum. *)
Definition levels_wf (st : levelState) : Prop :=
  length (level st) = n ∧ ∀ i, i < n → level st !!! i ≤ maxLevel st.

Lemma stepAt_wf st i : levels_wf st → levels_wf (stepAt st i).
Proof.
  intros [Hlen Hmax]. unfold stepAt. destruct (parentIdx i) as [j|] eqn:Hj; [|done].
  case_decide as Hlt; [|done]. destruct (gatedBy_lt _ _ Hj) as [Hi _].
  split; simpl; [by rewrite length_insert|]. intros k Hk.
  assert (maxLevel st ≤ if decide (maxLevel st < (level st !!! j) + 1) then (level st !!! j) + 1
    else maxLevel st) as Hm by (case_decide; lia).
  destruct (decide (k = i)) as [->|].
  - rewrite list_lookup_total_insert_eq by lia. case_decide; lia.
  - rewrite list_lookup_total_insert_ne by done. etrans; [by apply Hmax|done].
Qed.

Lemma stepAt_mono st i k : levels_wf st → level st !!! k ≤ level (stepAt st i) !!! k.
Proof.
  intros [Hlen _]. unfold stepAt. destruct (parentIdx i) as [j|] eqn:Hj; [|done].
  case_decide as Hlt; [|done]. destruct (gatedBy_lt _ _ Hj) as [Hi _]. simpl.
  destruct (decide (k = i)) as [->|].
  - rewrite list_lookup_total_insert_eq by lia. lia.
  - by rewrite list_lookup_total_insert_ne by done.
Qed.

Lemma steps_wf l st :
  levels_wf st → levels_wf (foldl stepAt st l) ∧ ∀ k, level st !!! k ≤ level (foldl stepAt st l) !!! k.
Proof.
  revert st. induction l as [|i l IH]; intros st Hst; simpl; [done|].
  destruct (IH (stepAt st i)) as [? Hm]; [by apply stepAt_wf|]. split; [done|].
  intros k. etrans; [by apply stepAt_mono|apply Hm].
Qed.

Lemma steps_changed l st : changed st = true → changed (foldl stepAt st l) = true.
Proof.
  revert st. induction l as [|i l IH]; intros st Hst; simpl; [done|]. apply IH.
  unfold stepAt. destruct (parentIdx i); [|done]. by case_decide.
Qed.

(** A pass that reports no change found every gate already respected. *)
Definition gates_respected (st : levelState) : Prop :=
  ∀ i j, gatedBy i j → level st !!! j < level st !!! i.

Lemma steps_unchanged l st :
  changed (foldl stepAt st l) = false →
  foldl stepAt st l = st ∧ ∀ i j, i ∈ l → gatedBy i j → level st !!! j < level st !!! i.
Proof.
  revert st. induction l as [|i l IH]; intros st Hc; simpl in *; [set_solver|].
  assert (stepAt st i = st ∧ ∀ j, gatedBy i j → level st !!! j < level st !!! i) as [Hi Hg].
  { apply IH in Hc as Hc'. destruct Hc' as [Heq _]. rewrite Heq in Hc. clear Heq IH.
    unfold stepAt, gatedBy in *. destruct (parentIdx i); [|done]. case_decide; [done|].
    split; [done|]. intros j [= ->]. lia. }
  rewrite Hi in *. destruct (IH _ Hc) as [-> Hl]. split; [done|].
  intros i' j [->|]%elem_of_cons; auto.
Qed.

(** *** Convergence on an acyclic batch *)

Section acyclic.
Variable dep : nat → nat.
Hypothesis dep_root : ∀ i, parentIdx i = None → dep i = 0.
Hypothesis dep_child : ∀ i j, parentIdx i = Some j → dep i = S (dep j).
Hypothesis dep_bound : ∀ i, i < n → dep i ≤ n.

Definition below (st : levelState) : Prop := ∀ i, i < n → level st !!! i ≤ dep i.
Definition exact_to (k : nat) (st : levelState) : Prop :=
  ∀ i, i < n → dep i ≤ k → level st !!! i = dep i.

Lemma stepAt_below st i : levels_wf st → below st → below (stepAt st i).
Proof.
  intros [Hlen _] Hb. unfold stepAt. destruct (parentIdx i) as [j|] eqn:Hj; [|done].
  case_decide; [|done]. destruct (gatedBy_lt _ _ Hj) as [Hi Hjn]. intros k Hk; simpl.
  destruct (decide (k = i)) as [->|]; [|by rewrite list_lookup_total_insert_ne by done; apply Hb].
  rewrite list_lookup_total_insert_eq by lia. rewrite (dep_child _ _ Hj). specialize (Hb _ Hjn). lia.
Qed.

Lemma steps_exact k l st :
  levels_wf st → below st → exact_to k st →
  below (foldl stepAt st l) ∧ exact_to k (foldl stepAt st l) ∧
  ∀ i, i ∈ l → i < n → dep i ≤ S k → level (foldl stepAt st l) !!! i = dep i.
Proof.
  revert st. induction l as [|i l IH]; intros st Hwf Hb Hk; simpl; [set_solver|].
  pose proof (stepAt_wf _ i Hwf) as Hwf'. pose proof (stepAt_below _ i Hwf Hb) as Hb'.
  assert (exact_to k (stepAt st i)) as Hk'.
  { intros i' Hi' Hd. apply Nat.le_antisymm; [by apply Hb'|]. rewrite <- (Hk i') by done.
    by apply stepAt_mono. }
  destruct (IH _ Hwf' Hb' Hk') as (Hb2 & Hk2 & Hl2). split_and!; [done..|].
  intros i' [->|Hin]%elem_of_cons Hi' Hd; [|by apply Hl2].
  apply Nat.le_antisymm; [by apply Hb2|].
  etrans; [|by apply steps_wf]. destruct (parentIdx i) as [j|] eqn:Hj.
  - destruct (gatedBy_lt _ _ Hj) as [_ Hjn]. pose proof (dep_child _ _ Hj) as Hdj.
    assert (level st !!! j = dep j) as Hlj by (apply Hk; [done|lia]).
    unfold stepAt. rewrite Hj. case_decide; simpl; [|lia].
    destruct Hwf. rewrite list_lookup_total_insert_eq by lia. lia.
  - rewrite (dep_root _ Hj). lia.
Qed.

Lemma respected_exact st i :
  levels_wf st → below st → gates_respected st → i < n → level st !!! i = dep i.
Proof.
  intros Hwf Hb Hg. remember (dep i) as d eqn:Hd. revert i Hd.
  induction d as [|d IH]; intros i Hd Hi; [specialize (Hb i Hi); lia|].
  destruct (parentIdx i) as [j|] eqn:Hj; [|apply dep_root in Hj; lia].
  destruct (gatedBy_lt _ _ Hj) as [_ Hjn]. pose proof (dep_child _ _ Hj) as Hdj.
  specialize (IH j ltac:(lia) Hjn). specialize (Hg _ _ Hj). specialize (Hb i Hi). lia.
Qed.

Lemma passes_exact passes k st :
  levels_wf st → below st → exact_to k st → (changed st = false → gates_respected st) →
  let st' := levelPasses passes entries st in
  levels_wf st' ∧ below st' ∧ (gates_respected st' ∨ exact_to (k + passes) st').
Proof.
  revert k st. induction passes as [|passes IH]; intros k st Hwf Hb Hk Hc; simpl.
  { rewrite Nat.add_0_r. auto. }
  destruct (changed st) eqn:Ech; [|by auto]. rewrite <- Nat.add_succ_comm.
  set (st0 := mkLevels (level st) (maxLevel st) false).
  assert (levels_wf st0 ∧ below st0 ∧ exact_to k st0) as (Hwf0 & Hb0 & Hk0) by done.
  destruct (steps_exact k (seq 0 n) _ Hwf0 Hb0 Hk0) as (Hb1 & _ & Hl1).
  rewrite levelPass_eq. fold st0. apply IH.
  - by apply steps_wf.
  - done.
  - intros i Hi Hd. apply Hl1; [apply elem_of_seq; lia|done..].
  - intros [Heq Hg]%steps_unchanged. rewrite Heq. intros i j Hij. apply Hg; [|done].
    destruct (gatedBy_lt _ _ Hij). apply elem_of_seq. lia.
Qed.

Lemma computeLevels_exact i : i < n → level (computeLevels entries) !!! i = dep i.
Proof.
  intros Hi. unfold computeLevels. set (st := mkLevels _ _ _).
  assert (∀ k, k < n → level st !!! k = 0) as H0.
  { intros k Hk. simpl. by apply lookup_total_replicate_2. }
  destruct (passes_exact (S (length entries)) 0 st) as (Hwf & Hb & [Hg|He]).
  - split; [simpl; by rewrite length_replicate|]. intros k Hk. rewrite H0 by done. lia.
  - intros k Hk. rewrite H0 by done. lia.
  - intros k Hk Hd. rewrite H0 by done. lia.
  - done.
  - by apply respected_exact.
  - apply He; [done|]. specialize (dep_bound _ Hi). fold n. lia.
Qed.
End acyclic.

Lemma passes_wf passes st : levels_wf st → levels_wf (levelPasses passes entries st).
Proof.
  revert st. induction passes as [|passes IH]; intros st Hst; simpl; [done|].
  destruct (changed st); [|done]. apply IH. rewrite levelPass_eq. by apply steps_wf.
Qed.

(** *** Depths of an acyclic batch *)

Fixpoint depth (fuel i : nat) : nat :=
  match fuel with
  | O => 0
  | S fuel => match parentIdx i with None => 0 | Some j => S (depth fuel j) end
  end.

Lemma depth_path fuel i :
  depth fuel i = fuel → ∃ l, path_of gatedBy (i :: l) ∧ length l = fuel.
Proof.
  revert i. induction fuel as [|fuel IH]; intros i Hd; simpl in Hd.
  - exists []. split; [|done]. intros [|k] a b; done.
  - destruct (parentIdx i) as [j|] eqn:Hj; [|done]. destruct (IH j) as (l & Hl & <-); [lia|].
    exists (j :: l). split; [|done]. intros [|k] a b Ha Hb; simplify_eq/=; [done|by apply (Hl k)].
Qed.

Lemma depth_lt i : (∀ k, ¬ tc gatedBy k k) → 0 < n → depth n i < n.
Proof.
  intros Hac Hn. assert (∀ f, depth f i ≤ f) as Hle.
  { intros f. revert i. induction f as [|f IH]; intros i; simpl; [done|].
    destruct (parentIdx i); [|lia]. specialize (IH n0). lia. }
  destruct (decide (depth n i = n)) as [Heq|]; [|specialize (Hle n); lia].
  apply depth_path in Heq as (l & Hp & Hlen).
  destruct (path_of_cycle gatedBy n (i :: l)) as [k Hk]; [done| |simpl; lia|by destruct (Hac k)].
  intros k [m Hm]%list_elem_of_lookup. destruct m as [|m].
  - destruct (lookup_lt_is_Some_2 (i :: l) 1) as [b Hb]; [simpl; lia|].
    by destruct (gatedBy_lt _ _ (Hp 0 _ _ Hm Hb)).
  - pose proof (lookup_lt_Some _ _ _ Hm). destruct (lookup_lt_is_Some_2 (i :: l) m) as [a Ha]; [lia|].
    by destruct (gatedBy_lt _ _ (Hp m _ _ Ha Hm)).
Qed.

Lemma depth_stable fuel i : depth fuel i < fuel → depth (S fuel) i = depth fuel i.
Proof.
  revert i. induction fuel as [|fuel IH]; intros i; [lia|].
  change (depth (S (S fuel)) i) with (match parentIdx i with None => 0 | Some j => S (depth (S fuel) j) end).
  simpl depth at 1 3. destruct (parentIdx i) as [j|]; [|done]. intros Hlt. f_equal. apply IH. lia.
Qed.

Lemma acyclic_depth :
  (∀ k, ¬ tc gatedBy k k) →
  ∃ dep : nat → nat, (∀ i, parentIdx i = None → dep i = 0) ∧
    (∀ i j, parentIdx i = Some j → dep i = S (dep j)) ∧ (∀ i, i < n → dep i ≤ n).
Proof.
  intros Hac. exists (depth n). split_and!.
  - intros i Hi. destruct n; simpl; [done|]. by rewrite Hi.
  - intros i j Hij. destruct (gatedBy_lt _ _ Hij) as [Hi _].
    pose proof (depth_lt i Hac ltac:(lia)) as Hlt. destruct n as [|m]; [lia|].
    cbn [depth] in Hlt |- *. rewrite Hij in *. f_equal.
    symmetry. apply (depth_stable m j). lia.
  - intros i Hi. pose proof (depth_lt i Hac ltac:(lia)). lia.
Qed.

Lemma computeLevels_wf : levels_wf (computeLevels entries).
Proof.
  apply passes_wf. split; simpl; [by rewrite length_replicate|]. intros i Hi.
  by rewrite lookup_total_replicate_2.
Qed.

(** *** Buckets *)

Lemma concat_alter_app {A} (bs : list (list A)) k b e :
  bs !! k = Some b → concat (alter (λ l, l ++ [e]) k bs) ≡ₚ concat bs ++ [e].
Proof.
  revert k. induction bs as [|b' bs IH]; intros [|k] Hbk; simplify_eq/=.
  - rewrite <- !(assoc_L (++)). apply Permutation_app_head, Permutation_app_comm.
  - rewrite IH by done. by rewrite (assoc_L (++)).
Qed.

Lemma fill_buckets (lv : nat → nat) m :
  (∀ i, i < n → lv i ≤ m) →
  let buckets := foldl (λ levels ie, alter (λ l, l ++ [ie.2]) (lv ie.1) levels)
    (replicate (S m) []) (imap pair entries) in
  length buckets = S m ∧ concat buckets ≡ₚ entries ∧
  ∀ d l, buckets !! d = Some l → l = snd <$> filter (λ ie, lv ie.1 = d) (imap pair entries).
Proof.
  subst n. simpl. induction entries as [|e l IH] using rev_ind; intros Hlv.
  - simpl. rewrite length_replicate. split_and!; [done| |].
    + clear. induction m as [|m IH]; simpl in *; [done|]. done.
    + intros d l Hl. change ([] :: replicate m []) with (replicate (S m) ([] : list DiffEntry)) in Hl.
      by apply lookup_replicate in Hl as [-> _].
  - rewrite imap_app, foldl_app; simpl. rewrite Nat.add_0_r.
    rewrite length_app in Hlv; simpl in Hlv.
    destruct IH as (Hlen & Hperm & Hb); [intros i Hi; apply Hlv; lia|].
    set (bs := foldl _ _ _) in *. split_and!.
    + by rewrite length_alter.
    + destruct (lookup_lt_is_Some_2 bs (lv (length l))) as [b Hbk]; [rewrite Hlen; specialize (Hlv (length l)); lia|].
      etrans; [by eapply concat_alter_app|by rewrite Hperm].
    + intros d b Hd. rewrite filter_app, fmap_app, filter_cons, filter_nil; simpl.
      destruct (decide (lv (length l) = d)) as [<-|Hne].
      * rewrite list_lookup_alter_eq in Hd. destruct (bs !! lv (length l)) as [b'|] eqn:E; [|done].
        simplify_eq/=. by rewrite (Hb _ _ E).
      * rewrite list_lookup_alter_ne in Hd by done. rewrite (Hb _ _ Hd). by rewrite app_nil_r.
Qed.

Lemma topoLevels_buckets :
  concat (topoLevels entries) ≡ₚ entries ∧
  (∀ d l, topoLevels entries !! d = Some l →
    l = snd <$> filter (λ ie, level (computeLevels entries) !!! ie.1 = d) (imap pair entries)) ∧
  ∀ i, i < n → is_Some (topoLevels entries !! (level (computeLevels entries) !!! i)).
Proof.
  destruct computeLevels_wf as [_ Hmax]. unfold topoLevels.
  destruct (fill_buckets (λ i, level (computeLevels entries) !!! i) _ Hmax) as (Hlen & Hperm & Hb).
  subst n. destruct entries as [|e l]; [split_and!; [done|by intros [|d]|simpl; lia]|].
  split_and!; [exact Hperm|exact Hb|]. intros i Hi. apply lookup_lt_is_Some.
  eapply Nat.lt_le_trans; [apply Nat.lt_succ_r, (Hmax i Hi)|].
  apply Nat.eq_le_incl. symmetry. exact Hlen.
Qed.
End levels.

(** ** Schedules *)

Section schedule.
Context `{HarnessLib}.

(** On a batch whose gating edges have no cycle, the pass bound is enough:
    [topoLevels] places every entry exactly once, in input order, at the depth
    of its position, zero for a root and one more than its gating entry
    otherwise. *)
Theorem topoLevels_exact entries :
  (∀ i, ¬ tc (gatedBy entries) i i) →
  ∃ dep : nat → nat,
    (∀ i, parentIdx entries i = None → dep i = 0) ∧
    (∀ i j, parentIdx entries i = Some j → dep i = S (dep j)) ∧
    concat (topoLevels entries) ≡ₚ entries ∧
    (∀ i, i < length entries → is_Some (topoLevels entries !! dep i)) ∧
    (∀ d l, topoLevels entries !! d = Some l →
      l = snd <$> filter (λ ie, dep ie.1 = d) (imap pair entries)).
Proof.
  intros Hac. destruct (acyclic_depth entries Hac) as (dep & Hroot & Hchild & Hbound).
  exists dep. destruct (topoLevels_buckets entries) as (Hperm & Hb & Hdef).
  assert (∀ i, i < length entries → level (computeLevels entries) !!! i = dep i) as Hlv.
  { by apply computeLevels_exact. }
  split_and!; [done..| |].
  - intros i Hi. rewrite <- Hlv by done. by apply Hdef.
  - intros d l Hl. rewrite (Hb _ _ Hl). f_equal. apply filter_ext_elem. intros [i e] Hie; simpl.
    apply elem_of_lookup_imap in Hie as (k & y & [= -> ->] & Hk).
    rewrite Hlv; [done|by eapply lookup_lt_Some].
Qed.

(** The logical parent relation of a batch. *)
Definition logical (entries : list DiffEntry) (x y : SessionID) : Prop :=
  ∃ e, e ∈ entries ∧ d_SessionID e = x ∧ d_ParentUUID e = Some y.

Lemma tentativeEdges_logical entries stored x y :
  edge (tentativeEdges entries stored) x = Some y → logical entries x y.
Proof.
  unfold tentativeEdges. generalize (byID entries) as ids. intros ids. unfold logical.
  induction entries as [|e l IH] using rev_ind; [done|].
  rewrite foldl_app; simpl. rewrite edge_insert. case_decide as Hx.
  - intros (Hp & _)%tentativeEdge_Some. exists e. set_solver.
  - intros (e' & ? & ?)%IH. exists e'. set_solver.
Qed.

(** A batch in which only independently admitted sessions can be on a cycle of
    logical parents. *)
Definition legacy_acyclic (entries : list DiffEntry) : Prop :=
  ∀ e, e ∈ entries → IndependentAdmissionHarness (d_Harness e) = false →
    ¬ tc (logical entries) (d_SessionID e) (d_SessionID e).

Lemma Apply_acyclic entries stored edges i :
  BuildSchedulingParents entries stored = Some edges → legacy_acyclic entries →
  ¬ tc (gatedBy ((λ e, withSchedulingParent e (edge edges (d_SessionID e))) <$> entries)) i i.
Proof.
  intros Hb Hleg. destruct (BuildSchedulingParents_spec entries stored) as (edges' & Hb' & Hspec).
  rewrite Hb in Hb'. symmetry in Hb'. simplify_eq.
  set (es := _ <$> entries).
  assert (∀ i j, gatedBy es i j → ∃ e e', entries !! i = Some e ∧ entries !! j = Some e' ∧
    logical entries (d_SessionID e) (d_SessionID e') ∧
    (IndependentAdmissionHarness (d_Harness e) = true → edge edges (d_SessionID e) = Some (d_SessionID e'))) as Hg.
  { clear i. intros i j Hij. unfold gatedBy, parentIdx, es in Hij.
    rewrite list_lookup_fmap in Hij. destruct (entries !! i) as [e|] eqn:Hi; [|done]; simpl in Hij.
    destruct (gatingParent _) as [p|] eqn:Hp; [|done]; simpl in Hij.
    apply sessionIndex_Some in Hij as (e1 & He1 & <-).
    rewrite list_lookup_fmap in He1. destruct (entries !! j) as [e'|] eqn:Hj; [|done]; simplify_eq/=.
    exists e, e'. unfold gatingParent, OperationalParentID in Hp; simpl in Hp.
    destruct (edge edges (d_SessionID e)) as [q|] eqn:Hq.
    - simplify_eq. split_and!; [done..| |done]. apply Hspec in Hq as [Hq _]. by eapply tentativeEdges_logical.
    - destruct (IndependentAdmissionHarness (d_Harness e)) eqn:Hind; [done|].
      split_and!; [done..| |done]. exists e. split_and!; [by eapply list_elem_of_lookup_2|done|done]. }
  assert (∀ a b, tc (gatedBy es) a b → ∃ e e', entries !! a = Some e ∧ entries !! b = Some e' ∧
    tc (logical entries) (d_SessionID e) (d_SessionID e') ∧
    ((∃ k x, entries !! k = Some x ∧ IndependentAdmissionHarness (d_Harness x) = false ∧
        rtc (gatedBy es) a k ∧ tc (gatedBy es) k b) ∨
      tc (next edges) (d_SessionID e) (d_SessionID e'))) as Htc.
  { intros a b Hab. induction Hab as [a b Hab|a c b Hac Hcb (e & e' & ? & ? & Hl & Hor)].
    - destruct (Hg _ _ Hab) as (e & e' & ? & ? & ? & Hind). exists e, e'.
      split_and!; [done..|by apply tc_once|].
      destruct (IndependentAdmissionHarness (d_Harness e)) eqn:E; [right; apply tc_once; by apply Hind|left].
      exists a, e. split_and!; [done..|by apply rtc_refl|by apply tc_once].
    - destruct (Hg _ _ Hac) as (e0 & e1 & ? & ? & ? & Hind). simplify_eq. exists e0, e'.
      split_and!; [done..|by eapply tc_l|].
      destruct (IndependentAdmissionHarness (d_Harness e0)) eqn:E.
      + destruct Hor as [(k & x & ? & ? & ? & ?)|Hn]; [left|right].
        * exists k, x. split_and!; [done..|by eapply rtc_l|done].
        * eapply tc_l; [by apply Hind|done].
      + left. exists a, e0. split_and!; [done..|by apply rtc_refl|by eapply tc_l]. }
  intros Hc. destruct (Htc _ _ Hc) as (e & e' & He & He' & _ & [(k & x & Hk & Hx & Hik & Hki)|Hn]); simplify_eq.
  - assert (tc (gatedBy es) k k) as Hkk by (by eapply tc_rtc_r).
    destruct (Htc _ _ Hkk) as (y & y' & ? & ? & Hl & _); simplify_eq.
    by apply (Hleg x); [by eapply list_elem_of_lookup_2|..].
  - by eapply (acyclic_of_spec (tentativeEdges entries stored) edges).
Qed.

(** After [ApplySchedulingParents], unless a session of a parent-inheriting
    harness is itself on a cycle of logical parents, the levels schedule every
    admitted entry exactly once, and an entry whose operational parent is in
    the batch comes in a level strictly after that parent: no admitted child
    waits on a parent that waits on it. *)
Theorem scheduled_parents_first entries stored :
  legacy_acyclic entries →
  ∃ es, ApplySchedulingParents entries stored = Some es ∧
    (d_SessionID <$> es) = (d_SessionID <$> entries) ∧
    (d_ParentUUID <$> es) = (d_ParentUUID <$> entries) ∧
    concat (topoLevels es) ≡ₚ es ∧
    ∀ d l e p, topoLevels es !! d = Some l → e ∈ l → OperationalParentID e = Some p →
      p ∈ byID entries →
      ∃ d' l' e', d' < d ∧ topoLevels es !! d' = Some l' ∧ e' ∈ l' ∧ d_SessionID e' = p.
Proof.
  intros Hleg. destruct (BuildSchedulingParents_spec entries stored) as (edges & Hb & _).
  unfold ApplySchedulingParents. rewrite Hb; simpl. eexists; split; [done|].
  set (es := _ <$> entries).
  assert (∀ i, ¬ tc (gatedBy es) i i) as Hac by (intros i; by eapply Apply_acyclic).
  destruct (acyclic_depth es Hac) as (dep & Hroot & Hchild & Hbound).
  destruct (topoLevels_buckets es) as (Hperm & Hbk & Hdef).
  assert (∀ i, i < length es → level (computeLevels es) !!! i = dep i) as Hlv.
  { by apply computeLevels_exact. }
  assert ((d_SessionID <$> es) = (d_SessionID <$> entries)) as Hids.
  { unfold es. by rewrite <- list_fmap_compose. }
  split_and!; [done|unfold es; by rewrite <- list_fmap_compose|done|].
  intros d l e p Hd He Hp Hin.
  rewrite (Hbk _ _ Hd) in He. apply list_elem_of_fmap in He as ([i e1] & -> & Hie).
  apply list_elem_of_filter in Hie as [Hi Hie]. simpl in *.
  apply elem_of_lookup_imap in Hie as (i' & y & [= <- <-] & Hie).
  pose proof (lookup_lt_Some _ _ _ Hie) as Hlt. rewrite Hlv in Hi by done.
  assert (∃ e0, e0 ∈ es ∧ d_SessionID e0 = p) as Hex.
  { unfold byID in Hin. rewrite elem_of_list_to_set, <- Hids, list_elem_of_fmap in Hin. naive_solver. }
  destruct (sessionIndex_is_Some es p Hex) as [j Hj].
  assert (gatedBy es i j) as Hij.
  { unfold gatedBy, parentIdx. rewrite Hie; simpl. unfold gatingParent. by rewrite Hp; simpl. }
  pose proof (Hchild _ _ Hij) as Hdep. destruct (gatedBy_lt _ _ _ Hij) as [_ Hjlt].
  destruct (sessionIndex_Some _ _ _ Hj) as (e' & He' & Hid).
  destruct (Hdef j Hjlt) as [l' Hl']. rewrite Hlv in Hl' by done.
  exists (dep j), l', e'. split_and!; [lia|done| |done].
  rewrite (Hbk _ _ Hl'), list_elem_of_fmap. exists (j, e'). split; [done|].
  apply list_elem_of_filter. split; [simpl; by rewrite Hlv|]. apply elem_of_lookup_imap. eauto.
Qed.
End schedule.

(** ** The heap *)

Section heap_theory.
Context {E : Type}.
Implicit Types h : list (sessionSize E).

Definition sz h (i : nat) : Z := default 0%Z (s_size <$> h !! i).
Definition child (p k : nat) : Prop := k = 2 * p + 1 ∨ k = 2 * p + 2.

(** Parents from [lo] on dominate their children below [n], except at [hole]. *)
Definition ordered_but h (lo n hole : nat) : Prop :=
  ∀ p k, lo ≤ p → child p k → k < n → p ≠ hole → (sz h k ≤ sz h p)%Z.
Definition ordered h (lo n : nat) : Prop :=
  ∀ p k, lo ≤ p → child p k → k < n → (sz h k ≤ sz h p)%Z.
(** The hole's parent dominates the hole's children. *)
Definition bridged h (lo n hole : nat) : Prop :=
  ∀ p k, lo ≤ p → child p hole → child hole k → k < n → (sz h k ≤ sz h p)%Z.

Lemma sz_lookup h i x : h !! i = Some x → sz h i = s_size x.
Proof. intros Hi. unfold sz. by rewrite Hi. Qed.

Lemma Less_sz h i j : i < length h → j < length h → Less h i j = bool_decide (sz h j < sz h i)%Z.
Proof.
  intros [a Ha]%lookup_lt_is_Some [b Hb]%lookup_lt_is_Some. unfold Less.
  by rewrite (sz_lookup _ _ _ Ha), (sz_lookup _ _ _ Hb), Ha, Hb.
Qed.

Definition swapped (i j k : nat) : nat := if decide (k = i) then j else if decide (k = j) then i else k.

Lemma Swap_lookup h i j k :
  i < length h → j < length h → Swap h i j !! k = h !! swapped i j k.
Proof.
  intros [a Ha]%lookup_lt_is_Some [b Hb]%lookup_lt_is_Some. unfold Swap, swapped. rewrite Ha, Hb.
  pose proof (lookup_lt_Some _ _ _ Ha). pose proof (lookup_lt_Some _ _ _ Hb).
  repeat case_decide; subst.
  - rewrite list_lookup_insert_eq; [done|by rewrite length_insert].
  - rewrite list_lookup_insert_ne, list_lookup_insert_eq by done. done.
  - by rewrite !list_lookup_insert_ne by done.
Qed.

Lemma Swap_length h i j : length (Swap h i j) = length h.
Proof. unfold Swap. destruct (h !! i), (h !! j); by rewrite ?length_insert. Qed.

Lemma Swap_sz h i j k : i < length h → j < length h → sz (Swap h i j) k = sz h (swapped i j k).
Proof. intros. unfold sz. by rewrite Swap_lookup. Qed.

Lemma Swap_perm h i j : i < length h → j < length h → Swap h i j ≡ₚ h.
Proof.
  intros Hi Hj. apply Permutation_inj. split; [by rewrite Swap_length|].
  exists (swapped i j). split; [|intros k; by apply Swap_lookup].
  intros k1 k2. unfold swapped. repeat case_decide; congruence.
Qed.

(** The child a sift-down compares with. *)
Lemma down_unfold fuel h i n :
  down (S fuel) h i n =
  if decide (n ≤ 2 * i + 1) then h
  else
    let j := if decide (2 * i + 1 + 1 < n) then
               (if Less h (2 * i + 1 + 1) (2 * i + 1) then 2 * i + 1 + 1 else 2 * i + 1)
             else 2 * i + 1 in
    if Less h j i then down fuel (Swap h i j) j n else h.
Proof. done. Qed.

Lemma larger_child h i n :
  n ≤ length h → 2 * i + 1 < n →
  let j := if decide (2 * i + 1 + 1 < n) then
             (if Less h (2 * i + 1 + 1) (2 * i + 1) then 2 * i + 1 + 1 else 2 * i + 1)
           else 2 * i + 1 in
  child i j ∧ j < n ∧ ∀ k, child i k → k < n → (sz h k ≤ sz h j)%Z.
Proof.
  intros Hn Hi. unfold child. case_decide; simpl.
  - rewrite Less_sz by lia. case_bool_decide; (split_and!; [lia..|]); intros k [->| ->] Hk;
      rewrite ?(Nat.add_comm _ 2), ?(Nat.add_comm _ 1) in *; simpl in *; lia.
  - split_and!; [lia..|]. intros k [->| ->] Hk; [done|lia].
Qed.

Lemma down_spec fuel h lo i n :
  n ≤ length h → lo ≤ i → n - i ≤ fuel →
  ordered_but h lo n i → bridged h lo n i →
  ordered (down fuel h i n) lo n ∧ down fuel h i n ≡ₚ h ∧
  ∀ k, n ≤ k → down fuel h i n !! k = h !! k.
Proof.
  revert h i. induction fuel as [|fuel IH]; intros h i Hn Hlo Hf Ho Hb.
  { simpl. split_and!; [|done..]. intros p k Hp Hk Hkn.
    apply Ho; [done..|]. unfold child in Hk. lia. }
  rewrite down_unfold. case_decide as Hleaf.
  { split_and!; [|done..]. intros p k Hp Hk Hkn. destruct (decide (p = i)) as [->|].
    - unfold child in Hk. lia.
    - by apply Ho. }
  destruct (larger_child h i n) as (Hj & Hjn & Hmax); [done|lia|].
  cbv zeta. set (j := if decide (2 * i + 1 + 1 < n) then _ else _) in *.
  assert (i < j) as Hij by (unfold child in Hj; lia).
  rewrite Less_sz by lia. case_bool_decide as Hlt.
  - destruct (IH (Swap h i j) j) as (Ho' & Hp' & Hu'); [by rewrite Swap_length|lia..| | |].
    + intros p k Hp Hk Hkn Hpj. rewrite !Swap_sz by lia. unfold swapped.
      assert (k ≠ p) by (unfold child in Hk; lia).
      repeat case_decide; subst; try lia.
      * by apply (Hb p j).
      * exfalso. unfold child in *. lia.
      * by apply Hmax.
      * by apply Ho.
    + intros p k Hp Hpj Hk Hkn. assert (p = i) as -> by (unfold child in *; lia).
      rewrite !Swap_sz by lia. unfold swapped. unfold child in Hk. repeat case_decide; try lia.
      apply Ho; [lia|done|done|lia].
    + split_and!; [done| |].
      * rewrite Hp'. apply Swap_perm; lia.
      * intros k Hk. rewrite Hu' by done. rewrite Swap_lookup by lia. unfold swapped.
        by rewrite !decide_False by lia.
  - split_and!; [|done..]. intros p k Hp Hk Hkn. destruct (decide (p = i)) as [->|]; [|by apply Ho].
    specialize (Hmax k Hk Hkn). lia.
Qed.

Lemma heapify_spec i h :
  ordered h i (length h) → ordered (heapify i h) 0 (length h) ∧ heapify i h ≡ₚ h.
Proof.
  revert h. induction i as [|i IH]; intros h Ho; simpl; [done|].
  destruct (down_spec (length h) h i i (length h)) as (Ho' & Hp & _); [lia..| | |].
  - intros p k Hp Hk Hkn Hne. apply Ho; [lia|done..].
  - intros p k Hp Hk. unfold child in Hk. lia.
  - pose proof (Permutation_length Hp) as Hlen. rewrite <- Hlen in Ho' at 3.
    destruct (IH _ Ho') as [Ho2 Hp2]. rewrite Hlen in Ho2. split; [done|]. by rewrite Hp2.
Qed.

Lemma buildSizeHeap_spec h :
  ordered (buildSizeHeap h) 0 (length h) ∧ buildSizeHeap h ≡ₚ h.
Proof.
  apply heapify_spec. intros p k Hp Hk Hkn. exfalso. unfold child in Hk.
  pose proof (Nat.div_mod_eq (length h) 2). pose proof (Nat.mod_upper_bound (length h) 2). lia.
Qed.

(** The root dominates the heap. *)
Lemma root_max h n k : ordered h 0 n → k < n → (sz h k ≤ sz h 0)%Z.
Proof.
  intros Ho. induction k as [k IH] using lt_wf_ind. intros Hk. destruct k as [|k]; [done|].
  assert (∃ p, child p (S k)) as [p Hp].
  { exists (k / 2). unfold child. pose proof (Nat.div_mod_eq k 2).
    pose proof (Nat.mod_upper_bound k 2). lia. }
  etrans; [by apply (Ho p); [lia|..]|]. unfold child in Hp. apply IH; lia.
Qed.

Lemma heapPop_spec h :
  ordered h 0 (length h) → h ≠ [] →
  ∃ x h', heapPop h = Some (x, h') ∧ x :: h' ≡ₚ h ∧ ordered h' 0 (length h') ∧
    ∀ y, y ∈ h' → (s_size y ≤ s_size x)%Z.
Proof.
  intros Ho Hne. unfold heapPop. set (n := length h - 1).
  assert (length h = S n) as Hlen by (destruct h; simpl in *; [done|lia]).
  destruct (down_spec n (Swap h 0 n) 0 0 n) as (Ho' & Hp & Hu); [rewrite Swap_length; lia|lia..| | |].
  - intros p k _ Hk Hkn Hp0. rewrite !Swap_sz by lia. unfold swapped. unfold child in Hk.
    rewrite !decide_False by lia. by apply Ho; [lia|unfold child; lia|lia].
  - intros p k _ Hk. unfold child in Hk. lia.
  - set (h2 := down n (Swap h 0 n) 0 n) in *.
    rewrite Swap_perm in Hp by lia. pose proof (Permutation_length Hp) as Hlen2.
    destruct (lookup_lt_is_Some_2 h2 n) as [x Hx]; [lia|]. rewrite Hx; simpl.
    assert (h !! 0 = Some x) as Hroot.
    { rewrite Hu, Swap_lookup in Hx by lia. unfold swapped in Hx.
      destruct (decide (n = 0)) as [->|]; [done|]. by rewrite decide_True in Hx. }
    assert (h2 = take n h2 ++ [x]) as Heq.
    { rewrite <- (take_drop n h2) at 1. f_equal. erewrite drop_S by done. rewrite drop_ge by lia. done. }
    exists x, (take n h2). split_and!; [done| | |].
    + rewrite <- Hp. etrans; [apply Permutation_cons_append|]. by rewrite <- Heq.
    + rewrite length_take, Nat.min_l by lia. intros p k Hp0 Hk Hkn. unfold sz.
      unfold child in Hk. rewrite !lookup_take_lt by lia. by apply (Ho' p k).
    + intros y Hy. assert (y ∈ h) as [k Hk]%list_elem_of_lookup.
      { rewrite <- Hp, Heq. set_solver. }
      rewrite <- (sz_lookup _ _ _ Hk), <- (sz_lookup _ _ _ Hroot).
      apply (root_max _ (length h)); [done|by eapply lookup_lt_Some].
Qed.

Lemma drain_spec fuel h :
  ordered h 0 (length h) → length h ≤ fuel →
  drain fuel h ≡ₚ h ∧ StronglySorted (λ a b, s_size b ≤ s_size a)%Z (drain fuel h).
Proof.
  revert h. induction fuel as [|fuel IH]; intros h Ho Hlen; simpl.
  { destruct h; simpl in *; [split; [done|constructor]|lia]. }
  destruct (decide (h = [])) as [->|Hne]; [split; [done|constructor]|].
  destruct (heapPop_spec h Ho Hne) as (x & h' & -> & Hp & Ho' & Hmax).
  pose proof (Permutation_length Hp) as Hl; simpl in Hl.
  destruct (IH h' Ho') as [Hp' Hs]; [lia|]. split; [by rewrite Hp'|].
  constructor; [done|]. apply Forall_forall. intros y Hy. apply Hmax. by rewrite <- Hp'.
Qed.

(** Draining the size heap returns every queued session exactly once, the
    largest work first: the standard library's sift-down, started from the
    last parent, builds a heap, and popping it sorts. *)
Theorem drainHeap_sorts (items : list (sessionSize E)) :
  drainHeap (buildSizeHeap items) ≡ₚ items ∧
  StronglySorted (λ a b, s_size b ≤ s_size a)%Z (drainHeap (buildSizeHeap items)).
Proof.
  destruct (buildSizeHeap_spec items) as [Ho Hp].
  rewrite <- (Permutation_length Hp) in Ho.
  destruct (drain_spec _ _ Ho (Nat.le_refl _)) as [Hd Hs]. split; [|done].
  unfold drainHeap. by rewrite Hd.
Qed.
End heap_theory.

(** ** The worker pool *)

Section pool_theory.
Context {T R : Type} (fn : T → R) (zero : R).
Variable items : list T.
Variable nworkers : Z.
Implicit Types p : pool T R.

Definition holds (w : worker T) : option (nat * T) :=
  match w with Holding idx item => Some (idx, item) | _ => None end.
Definition pending p : list (nat * T) := ch p ++ omap holds (workers_ p).

Record pool_inv p : Prop := {
  pi_len : length (results p) = length items;
  pi_workers : length (workers_ p) = startedWorkers items nworkers;
  pi_items : ∀ i x, (i, x) ∈ pending p → items !! i = Some x;
  pi_sub : (pending p).*1 ++ calls p ⊆+ seq 0 (length items);
  pi_all : cancelled p = false → (pending p).*1 ++ calls p ≡ₚ seq 0 (length items);
  pi_called : ∀ i, i ∈ calls p → results p !! i = fn <$> items !! i;
  pi_uncalled : ∀ i, i < length items → i ∉ calls p → results p !! i = Some zero;
  pi_returned : cancelled p = false → Returned ∈ workers_ p → ch p = [];
}.

Lemma list_elem_of_insert_inv {A} (l : list A) i x y : y ∈ <[i := x]> l → y = x ∨ y ∈ l.
Proof.
  intros [j Hj]%list_elem_of_lookup. apply list_lookup_insert_Some in Hj as [(_ & <- & _)|[_ Hj]];
    [by left|right; by eapply list_elem_of_lookup_2].
Qed.

Lemma imap_pair_fst (l : list T) : (imap pair l).*1 = seq 0 (length l).
Proof.
  induction l as [|x l IH] using rev_ind; [done|].
  by rewrite imap_app, fmap_app, IH, length_app, seq_app; simpl; rewrite Nat.add_0_r.
Qed.

Lemma start_inv : pool_inv (runParallel_start zero items nworkers).
Proof.
  assert (∀ k, omap holds (replicate k (Receiving : worker T)) = []) as Hr.
  { intros k. induction k; simpl; auto. }
  split; unfold pending; simpl; rewrite ?Hr, ?app_nil_r, ?imap_pair_fst; try done.
  - by rewrite length_replicate.
  - by rewrite length_replicate.
  - intros i x (j & y & [= -> ->] & Hj)%elem_of_lookup_imap. done.
  - set_solver.
  - intros i Hi _. by apply lookup_replicate_2.
  - intros _ Hin%elem_of_replicate. naive_solver.
Qed.

Lemma pool_step_inv p a p' : pool_inv p → pool_step fn p a = Some p' → pool_inv p'.
Proof.
  intros Hp. destruct a as [w|]; simpl.
  2: { destruct (cancelled p) eqn:Ec; [done|]. intros [= <-].
       destruct Hp. by split; try done. }
  destruct (workers_ p !! w) as [st|] eqn:Hw; [|done]; simpl.
  pose proof (λ st', omap_insert_perm holds _ _ _ st' Hw) as Hom.
  destruct st as [|idx item|]; [| |done].
  - destruct (ch p) as [|[idx item] ch'] eqn:Ech; intros [= <-].
    + assert (pending (mkPool [] (<[w:=Returned]> (workers_ p)) (results p) (cancelled p) (calls p))
        ≡ₚ pending p) as Hpend by (unfold pending; rewrite Ech; apply (Hom Returned)).
      split; simpl; rewrite ?length_insert; try apply Hp; try (by rewrite Hpend; apply Hp); [|done].
      intros i x. rewrite Hpend. apply Hp.
    + assert (pending (mkPool ch' (<[w:=Holding idx item]> (workers_ p)) (results p) (cancelled p) (calls p))
        ≡ₚ pending p) as Hpend.
      { unfold pending. rewrite Ech; simpl. specialize (Hom (Holding idx item)). simpl in Hom.
        by rewrite Hom, <- Permutation_middle. }
      split; simpl; rewrite ?length_insert; try apply Hp; try (by rewrite Hpend; apply Hp).
      * intros i x. rewrite Hpend. apply Hp.
      * intros Hc [Hin|Hin]%list_elem_of_insert_inv; [done|].
        by rewrite (pi_returned _ Hp Hc Hin) in Ech.
  - assert (∀ st', holds st' = None → ∀ res c cs,
      pending p ≡ₚ (idx, item) :: pending (mkPool (ch p) (<[w := st']> (workers_ p)) res c cs)) as Hpend.
    { intros st' Hst' res c cs. unfold pending; simpl. specialize (Hom st'). simpl in Hom.
      rewrite Hst' in Hom; simpl in Hom. by rewrite <- Hom, <- Permutation_middle. }
    destruct (cancelled p) eqn:Ec; intros [= <-].
    + specialize (Hpend Returned eq_refl (results p) true (calls p)).
      split; simpl; rewrite ?length_insert; try apply Hp; try done.
      * intros i x Hin. apply Hp. rewrite Hpend. by right.
      * etrans; [|apply (pi_sub _ Hp)]. rewrite Hpend. simpl. by apply submseteq_cons.
    + specialize (Hpend Receiving eq_refl (<[idx := fn item]> (results p)) false (calls p ++ [idx])).
      set (p' := mkPool _ _ _ _ _) in *.
      assert ((pending p).*1 ++ calls p ≡ₚ (pending p').*1 ++ calls p') as Hall.
      { rewrite Hpend. simpl. rewrite (assoc_L (++)). by rewrite <- Permutation_cons_append. }
      assert (items !! idx = Some item) as Hitem by (apply Hp; rewrite Hpend; by left).
      assert (idx < length (results p)) as Hidx by (rewrite (pi_len _ Hp); by eapply lookup_lt_Some).
      split.
      * simpl. rewrite length_insert. apply Hp.
      * simpl. rewrite length_insert. apply Hp.
      * intros i x Hin. apply Hp. rewrite Hpend. by right.
      * rewrite <- Hall. apply Hp.
      * intros _. rewrite <- Hall. by apply Hp.
      * simpl. intros i [Hi| ->%list_elem_of_singleton]%elem_of_app.
        -- destruct (decide (i = idx)) as [->|]; [by rewrite list_lookup_insert_eq, Hitem|].
           rewrite list_lookup_insert_ne by done. by apply Hp.
        -- by rewrite list_lookup_insert_eq, Hitem.
      * simpl. intros i Hi Hni. rewrite list_lookup_insert_ne by set_solver. apply Hp; set_solver.
      * simpl. intros _ [Hin|Hin]%list_elem_of_insert_inv; [done|]. by apply (pi_returned _ Hp).
Qed.

(** The turns a worker still takes for what it holds. *)
Definition turns (w : worker T) : nat :=
  match w with Receiving => 1 | Holding _ _ => 2 | Returned => 0 end.

Definition work_left p : nat :=
  3 * length (ch p) +
  sum_list (turns <$> workers_ p) +
  (if cancelled p then 0 else 1).

Lemma sum_insert {A} (f : A → nat) l i x y :
  l !! i = Some x → sum_list (f <$> <[i := y]> l) + f x = sum_list (f <$> l) + f y.
Proof.
  revert i. induction l as [|z l IH]; intros [|i] Hi; simplify_eq/=; [lia|]. specialize (IH _ Hi). lia.
Qed.

Lemma start_work :
  work_left (runParallel_start zero items nworkers) =
  3 * length items + startedWorkers items nworkers + 1.
Proof.
  assert (∀ k, sum_list (turns <$> replicate k Receiving) = k) as Hk.
  { intros k. induction k as [|k IH]; [done|]. simpl. by f_equal. }
  unfold work_left, runParallel_start. cbn [ch workers_ cancelled]. by rewrite Hk, length_imap.
Qed.

Lemma step_work p a p' : pool_step fn p a = Some p' → work_left p' < work_left p.
Proof.
  unfold work_left. destruct a as [w|]; simpl.
  2: { destruct (cancelled p) eqn:Ec; [done|]. intros [= <-]. simpl. lia. }
  destruct (workers_ p !! w) as [st|] eqn:Hw; [|done]; simpl.
  pose proof (λ st', sum_insert turns _ _ _ st' Hw) as Hs.
  destruct st as [|idx item|]; [| |done].
  - destruct (ch p) as [|[idx item] ch'] eqn:Ech; intros [= <-]; simpl.
    + specialize (Hs Returned). simpl in Hs. lia.
    + specialize (Hs (Holding idx item)). simpl in Hs. lia.
  - destruct (cancelled p) eqn:Ec; intros [= <-]; simpl.
    + specialize (Hs Returned). simpl in Hs. lia.
    + specialize (Hs Receiving). simpl in Hs. lia.
Qed.

Lemma all_returned (ws : list (worker T)) :
  (∀ w, w ∈ ws → w = Returned) ∨ ∃ i w, ws !! i = Some w ∧ w ≠ Returned.
Proof.
  induction ws as [|u ws IH]; [left; set_solver|]. destruct u.
  1-2: by right; eexists 0, _.
  destruct IH as [IH|(i & w & ? & ?)]; [left; set_solver|right; by exists (S i), w].
Qed.

Lemma startedWorkers_pos : items ≠ [] → startedWorkers items nworkers ≠ 0.
Proof. unfold startedWorkers. destruct items; [done|]. rewrite length_cons. repeat case_decide; lia. Qed.

(** Whatever the interleaving of the workers and of a cancellation,
    [runParallel] finishes: every schedule has at most three turns per item and
    a bounded remainder, some worker can always move until all have returned,
    and then, if the context was not cancelled, [fn] was called exactly once
    per item and the results are its values in input order; under cancellation
    every slot is still either that item's own value or the zero value. *)
Theorem runParallel_correct acts p :
  run_steps (pool_step fn) (runParallel_start zero items nworkers) acts = Some p →
  length acts ≤ 3 * length items + startedWorkers items nworkers + 1 ∧
  ((∀ w, w ∈ workers_ p → w = Returned) ∨ ∃ w, is_Some (pool_step fn p (Worker w))) ∧
  ((∀ w, w ∈ workers_ p → w = Returned) → cancelled p = false →
    results p = fn <$> items ∧ calls p ≡ₚ seq 0 (length items)) ∧
  (∀ i x, items !! i = Some x → results p !! i = Some (fn x) ∨ results p !! i = Some zero).
Proof.
  intros Hrun.
  assert (pool_inv p) as Hp by (eapply run_steps_inv; [|apply start_inv|done]; by eauto using pool_step_inv).
  split_and!.
  - eapply (run_steps_bound _ (λ _, True) work_left) in Hrun; [|by eauto using step_work|done].
    rewrite start_work in Hrun. lia.
  - destruct (all_returned (workers_ p)) as [?|(w & st & Hw & Hst)]; [by left|right].
    exists w. simpl. rewrite Hw; simpl. destruct st; [destruct (ch p) as [|[]]|destruct (cancelled p)|]; eauto; done.
  - intros Hret Hc. pose proof (pi_all _ Hp Hc) as Hperm.
    assert (pending p = []) as Hnil.
    { unfold pending. assert (omap holds (workers_ p) = []) as ->.
      { clear -Hret. induction (workers_ p) as [|w ws IH]; [done|]. simpl.
        rewrite (Hret w) by (by left). apply IH. set_solver. }
      rewrite app_nil_r. destruct (decide (items = [])) as [Hi|Hi].
      - apply elem_of_nil_inv. intros [i x] Hin. assert (items !! i = Some x) as Hx.
        { apply (pi_items _ Hp). unfold pending. by apply elem_of_app; left. }
        by rewrite Hi in Hx.
      - apply (pi_returned _ Hp Hc). destruct (workers_ p) as [|w ws] eqn:Ews.
        + pose proof (pi_workers _ Hp) as Hw. rewrite Ews in Hw. by destruct (startedWorkers_pos Hi).
        + rewrite (Hret w); by left. }
    rewrite Hnil in Hperm. simpl in Hperm. split; [|done].
    apply list_eq. intros i. rewrite list_lookup_fmap. destruct (decide (i < length items)) as [Hi|Hi].
    + apply (pi_called _ Hp). rewrite Hperm. apply elem_of_seq. lia.
    + rewrite !lookup_ge_None_2; [done|lia|rewrite (pi_len _ Hp); lia].
  - intros i x Hx. destruct (decide (i ∈ calls p)) as [Hi|Hi].
    + left. by rewrite (pi_called _ Hp), Hx.
    + right. apply (pi_uncalled _ Hp); [by eapply lookup_lt_Some|done].
Qed.
End pool_theory.

(** ** Concrete runs *)

Definition demo_harnesses : HarnessLib := {| HarnessCodex := "codex"; HarnessOpenCode := "opencode" |}.

(** Two Codex sessions that name each other, and a child of one of them. *)
Definition demo_batch : list DiffEntry :=
  [mkSession "c" "codex" (Some "a") None; mkSession "a" "codex" (Some "b") None;
   mkSession "b" "codex" (Some "a") None; mkSession "k" "claude" (Some "c") None].

Example demo_levels :
  option_map (λ es, map (map d_SessionID) (@topoLevels demo_harnesses es))
    (@ApplySchedulingParents demo_harnesses demo_batch (λ _, false))
  = Some [["a"; "b"]; ["c"]; ["k"]].
Proof. vm_compute. reflexivity. Qed.

Example demo_heap :
  s_size <$> drainHeap (buildSizeHeap (mkSessionSize tt <$> [3; 9; 1; 7; 9]%Z)) = [9; 9; 7; 3; 1]%Z.
Proof. vm_compute. reflexivity. Qed.

Lemma scheduled_parents_first_witness :
  @legacy_acyclic demo_harnesses demo_batch ∧
  ∃ es, @ApplySchedulingParents demo_harnesses demo_batch (λ _, false) = Some es ∧
    concat (@topoLevels demo_harnesses es) ≡ₚ es.
Proof.
  assert (@legacy_acyclic demo_harnesses demo_batch) as Hleg.
  { intros e He Hind. assert (e = mkSession "k" "claude" (Some "c") None) as ->.
    { unfold demo_batch in He. rewrite !elem_of_cons, elem_of_nil in He.
      destruct He as [-> |[-> |[-> |[-> |[]]]]]; vm_compute in Hind; done. }
    simpl. assert (∀ x y, tc (logical demo_batch) x y → y ≠ "k") as Hk.
    { intros x y Hxy. apply tc_last in Hxy as (z & _ & e & He' & _ & Hp).
      unfold demo_batch in He'. rewrite !elem_of_cons, elem_of_nil in He'.
      destruct He' as [-> |[-> |[-> |[-> |[]]]]]; simplify_eq/=; done. }
    intros Hc. by apply Hk in Hc. }
  split; [exact Hleg|].
  destruct (@scheduled_parents_first demo_harnesses demo_batch (λ _, false) Hleg)
    as (es & Hes & _ & _ & Hp & _).
  exists es. by split.
Defined.

Lemma topoLevels_exact_witness :
  ∃ dep, parentIdx (H := demo_harnesses) [mkSession "c" "codex" None (Some "a"); mkSession "a" "codex" None None] 0 = Some 1 ∧
    dep 0 = S (dep 1).
Proof.
  destruct (@topoLevels_exact demo_harnesses
    [mkSession "c" "codex" None (Some "a"); mkSession "a" "codex" None None])
    as (dep & _ & Hd & _).
  - intros i Hc. apply tc_first in Hc as (j & Hij & Hji). destruct i as [|[|i]]; try done.
    vm_compute in Hij. simplify_eq. apply rtc_inv in Hji as [|(k & Hk & _)]; done.
  - exists dep. split; [vm_compute; reflexivity|]. apply Hd. vm_compute. reflexivity.
Defined.

Lemma runParallel_correct_witness :
  ∃ p, run_steps (pool_step (λ x : Z, (2 * x)%Z)) (runParallel_start 0%Z [10; 20]%Z 5)
    [Worker 1; Worker 0; Worker 0; Worker 1; Worker 1; Worker 0] = Some p ∧
    results p = (λ x : Z, (2 * x)%Z) <$> [10; 20]%Z.
Proof.
  eexists. split; [vm_compute; reflexivity|].
  eapply (runParallel_correct (λ x : Z, (2 * x)%Z) 0%Z [10; 20]%Z 5
    [Worker 1; Worker 0; Worker 0; Worker 1; Worker 1; Worker 0]); [vm_compute; reflexivity| |reflexivity].
  intros w Hw. vm_compute in Hw. set_solver.
Defined.
