(* ===== verification/EntryQueue.v ===== *)
(** * The bounded lock-free entry queue ([internal/ingest/parallel.go])

    Vyukov's multi-producer multi-consumer ring as the code writes it: every
    atomic load, store and compare-and-swap, and every plain access to a slot's
    entry, is one step of one goroutine, so the invariant quantifies over all
    interleavings.  [uint64] arithmetic wraps at [2^64] and [int64] conversions
    are two's complement. *)
From S2P Require Import Prelude.
Local Open Scope Z_scope.

(** ** Machine words *)

Definition wadd (a b : Z) : Z := (a + b) mod 2 ^ 64.
Definition to_i64 (x : Z) : Z := if decide (x < 2 ^ 63) then x else x - 2 ^ 64.
(** [int64] subtraction, of two values already in range. *)
Definition sub_i64 (a b : Z) : Z := to_i64 ((a - b) mod 2 ^ 64).

(** ** Construction *)

(** [for v < n { v <<= 1 }] on a 64-bit [int]; [None] when the turns run out. *)
Fixpoint pow2_loop (turns : nat) (v n : Z) : option Z :=
  match turns with
  | O => None
  | S turns => if decide (v < n) then pow2_loop turns (to_i64 (Z.shiftl v 1 mod 2 ^ 64)) n else Some v
  end.

(** [None] is the panic of [n < 1]; the turns cover every [n] up to [2^62]. *)
Definition nextPow2 (n : Z) : option Z :=
  if decide (n < 1) then None else pow2_loop 62 2 n.

Section queue.
Context {E : Type} (zero : E).

Record entrySlot := mkSlot { sequence : Z; entry : E }.

Record SessionEntryQueue := mkQueue {
  head : Z;
  tail : Z;
  closed : bool;
  mask : Z;
  slots : list entrySlot;
}.

Definition NewSessionEntryQueue (capacity : Z) : option SessionEntryQueue :=
  cap ← nextPow2 capacity;
  Some (mkQueue 0 0 false (cap - 1) ((λ i, mkSlot (Z.of_nat i) zero) <$> seq 0 (Z.to_nat cap))).

Definition Cap (q : SessionEntryQueue) : Z := to_i64 (wadd (mask q) 1).

(** [&q.slots[pos&q.mask]]; [None] would be an index panic. *)
Definition slotIdx (q : SessionEntryQueue) (pos : Z) : nat := Z.to_nat (Z.land pos (mask q)).
Definition slot (q : SessionEntryQueue) (pos : Z) : option entrySlot := slots q !! slotIdx q pos.
Definition set_slot (q : SessionEntryQueue) (pos : Z) (s : entrySlot) : SessionEntryQueue :=
  mkQueue (head q) (tail q) (closed q) (mask q) (<[slotIdx q pos := s]> (slots q)).
Definition set_head (q : SessionEntryQueue) (h : Z) : SessionEntryQueue :=
  mkQueue h (tail q) (closed q) (mask q) (slots q).
Definition set_tail (q : SessionEntryQueue) (t : Z) : SessionEntryQueue :=
  mkQueue (head q) t (closed q) (mask q) (slots q).
Definition set_closed (q : SessionEntryQueue) : SessionEntryQueue :=
  mkQueue (head q) (tail q) true (mask q) (slots q).

(** ** Goroutines *)

Inductive ret := RetOk | RetEntry (e : E) | ErrQueueFull | ErrQueueClosed | RetLen (n : Z).
Inductive op := Push (e : E) | TryPush (e : E) | Pop | Len | Close.

(** Where a goroutine stands: the access it is about to make. [try] tells
    [TryPush] from the spinning [Push]. *)
Inductive pc :=
  | Idle
  | Done (r : ret)
  | PushClosed (try : bool) (e : E)
  | PushHead (try : bool) (e : E)
  | PushSeq (try : bool) (e : E) (pos : Z)
  | PushCas (try : bool) (e : E) (pos : Z)
  | PushWrite (e : E) (pos : Z)
  | PushStore (e : E) (pos : Z)
  | PopTail
  | PopSeq (pos : Z)
  | PopCas (pos : Z)
  | PopRead (pos : Z)
  | PopClear (pos : Z) (e : E)
  | PopStore (pos : Z) (e : E)
  | PopClosed
  | LenHead
  | LenTail (h : Z)
  | CloseStore.

Definition start (o : op) : pc :=
  match o with
  | Push e => PushClosed false e
  | TryPush e => PushClosed true e
  | Pop => PopTail
  | Len => LenHead
  | Close => CloseStore
  end.

(** A turn of [Push] that did not claim a slot loops; [TryPush] gives up. *)
Definition retry (try : bool) (e : E) : pc := if try then Done ErrQueueFull else PushClosed false e.

(** [log] is ghost state: the entries whose push claimed a position, in order. *)
Record sys := mkSys { q : SessionEntryQueue; threads : list pc; log : list E }.

Definition goto (s : sys) (t : nat) (p : pc) : sys := mkSys (q s) (<[t := p]> (threads s)) (log s).
Definition with_q (s : sys) (q : SessionEntryQueue) : sys := mkSys q (threads s) (log s).

(** One access of goroutine [t]. *)
Definition run_thread (s : sys) (t : nat) (p : pc) : option sys :=
  match p with
  | Idle | Done _ => None
  | PushClosed try e =>
    Some (goto s t (if closed (q s) then Done ErrQueueClosed else PushHead try e))
  | PushHead try e => Some (goto s t (PushSeq try e (head (q s))))
  | PushSeq try e pos =>
    sl ← slot (q s) pos;
    let diff := sub_i64 (to_i64 (sequence sl)) (to_i64 pos) in
    Some (goto s t (if decide (diff = 0) then PushCas try e pos
                    else if decide (diff < 0) then retry try e else retry try e))
  | PushCas try e pos =>
    if decide (head (q s) = pos)
    then Some (mkSys (set_head (q s) (wadd pos 1)) (<[t := PushWrite e pos]> (threads s)) (log s ++ [e]))
    else Some (goto s t (retry try e))
  | PushWrite e pos =>
    sl ← slot (q s) pos;
    Some (goto (with_q s (set_slot (q s) pos (mkSlot (sequence sl) e))) t (PushStore e pos))
  | PushStore e pos =>
    sl ← slot (q s) pos;
    Some (goto (with_q s (set_slot (q s) pos (mkSlot (wadd pos 1) (entry sl)))) t (Done RetOk))
  | PopTail => Some (goto s t (PopSeq (tail (q s))))
  | PopSeq pos =>
    sl ← slot (q s) pos;
    let diff := sub_i64 (to_i64 (sequence sl)) (to_i64 (wadd pos 1)) in
    Some (goto s t (if decide (diff = 0) then PopCas pos
                    else if decide (diff < 0) then PopClosed else PopTail))
  | PopClosed => Some (goto s t (if closed (q s) then Done ErrQueueClosed else PopTail))
  | PopCas pos =>
    if decide (tail (q s) = pos)
    then Some (goto (with_q s (set_tail (q s) (wadd pos 1))) t (PopRead pos))
    else Some (goto s t PopTail)
  | PopRead pos => sl ← slot (q s) pos; Some (goto s t (PopClear pos (entry sl)))
  | PopClear pos e =>
    sl ← slot (q s) pos;
    Some (goto (with_q s (set_slot (q s) pos (mkSlot (sequence sl) zero))) t (PopStore pos e))
  | PopStore pos e =>
    sl ← slot (q s) pos;
    Some (goto (with_q s (set_slot (q s) pos (mkSlot (wadd (wadd pos (mask (q s))) 1) (entry sl))))
            t (Done (RetEntry e)))
  | LenHead => Some (goto s t (LenTail (to_i64 (head (q s)))))
  | LenTail h =>
    let n := sub_i64 h (to_i64 (tail (q s))) in
    Some (goto s t (Done (RetLen (if decide (n < 0) then 0 else n))))
  | CloseStore => Some (goto (with_q s (set_closed (q s))) t (Done RetOk))
  end.

Inductive action := Invoke (t : nat) (o : op) | Run (t : nat).

Definition step (s : sys) (a : action) : option sys :=
  match a with
  | Invoke t o =>
    p ← threads s !! t;
    match p with
    | Idle | Done _ => Some (goto s t (start o))
    | _ => None
    end
  | Run t => p ← threads s !! t; run_thread s t p
  end.

Definition boot (queue : SessionEntryQueue) (n : nat) : sys := mkSys queue (replicate n Idle) [].

(** What the callers see: the calls and what they return. *)
Inductive event := Called (t : nat) (o : op) | Returned (t : nat) (r : ret).

(** What a step shows, from the state after it. *)
Definition observe (a : action) (s : sys) : option event :=
  match a with
  | Invoke t o => Some (Called t o)
  | Run t => match threads s !! t with Some (Done r) => Some (Returned t r) | _ => None end
  end.

(** A run with its history. *)
Fixpoint run_history (s : sys) (acts : list action) : option (sys * list event) :=
  match acts with
  | [] => Some (s, [])
  | a :: acts =>
    s ← step s a;
    '(s', h) ← run_history s acts;
    Some (s', option_list (observe a s) ++ h)
  end.
End queue.
Arguments entrySlot : clear implicits.
Arguments SessionEntryQueue : clear implicits.
Arguments ret : clear implicits.
Arguments op : clear implicits.
Arguments pc : clear implicits.
Arguments sys : clear implicits.
Arguments action : clear implicits.
Arguments event : clear implicits.
Arguments observe : simpl never.

(** ** The specification: a bounded first-in first-out queue *)

Section spec.
Context {E : Type}.
Variable cap : Z.

Inductive aproc :=
  | AIdle
  | APending (o : op E)
  | ACommitted (r : ret E)
  | AReturned (r : ret E).

Record astate := mkAbs { contents : list E; aclosed : bool; procs : list aproc }.

(** A call takes effect at one instant between its invocation and its return; a step
    is labelled with what the callers see of it. *)
Inductive astep : astate → option (event E) → astate → Prop :=
  | a_stutter a : astep a None a
  | a_invoke cs c ps t o st :
      ps !! t = Some st → st = AIdle ∨ (∃ r, st = AReturned r) →
      astep (mkAbs cs c ps) (Some (Called t o)) (mkAbs cs c (<[t := APending o]> ps))
  | a_push cs c ps t o e :
      ps !! t = Some (APending o) → o = Push e ∨ o = TryPush e → Z.of_nat (length cs) < cap →
      astep (mkAbs cs c ps) None (mkAbs (cs ++ [e]) c (<[t := ACommitted RetOk]> ps))
  | a_pop cs c ps t e :
      ps !! t = Some (APending Pop) →
      astep (mkAbs (e :: cs) c ps) None (mkAbs cs c (<[t := ACommitted (RetEntry e)]> ps))
  | a_return cs c ps t r :
      ps !! t = Some (ACommitted r) →
      astep (mkAbs cs c ps) (Some (Returned t r)) (mkAbs cs c (<[t := AReturned r]> ps))
  | a_refused cs ps t o :
      ps !! t = Some (APending o) → o ≠ Len → o ≠ Close →
      astep (mkAbs cs true ps) (Some (Returned t ErrQueueClosed)) (mkAbs cs true (<[t := AReturned ErrQueueClosed]> ps))
  | a_full cs c ps t e :
      ps !! t = Some (APending (TryPush e)) →
      astep (mkAbs cs c ps) (Some (Returned t ErrQueueFull)) (mkAbs cs c (<[t := AReturned ErrQueueFull]> ps))
  | a_len cs c ps t n :
      ps !! t = Some (APending Len) → 0 ≤ n →
      astep (mkAbs cs c ps) (Some (Returned t (RetLen n))) (mkAbs cs c (<[t := AReturned (RetLen n)]> ps))
  | a_close cs c ps t :
      ps !! t = Some (APending Close) →
      astep (mkAbs cs c ps) (Some (Returned t RetOk)) (mkAbs cs true (<[t := AReturned RetOk]> ps)).

(** A run of the specification with the history its callers see. *)
Inductive aruns : astate → list (event E) → astate → Prop :=
  | aruns_nil a : aruns a [] a
  | aruns_step a l a1 h a2 : astep a l a1 → aruns a1 h a2 → aruns a (option_list l ++ h) a2.
End spec.
Arguments aproc : clear implicits.
Arguments astate : clear implicits.

(** * Theorems *)

(** ** Words that do not wrap *)

Lemma wadd_small a b : 0 ≤ a + b < 2 ^ 64 → wadd a b = a + b.
Proof. intros. unfold wadd. by apply Z.mod_small. Qed.

Lemma to_i64_small x : x < 2 ^ 63 → to_i64 x = x.
Proof. intros. unfold to_i64. by rewrite decide_True. Qed.

Lemma sub_i64_small a b : - 2 ^ 63 ≤ a - b < 2 ^ 63 → sub_i64 a b = a - b.
Proof.
  intros Hab. unfold sub_i64. destruct (decide (0 ≤ a - b)).
  - rewrite Z.mod_small by lia. apply to_i64_small. lia.
  - rewrite <- (Z.mod_unique (a - b) (2 ^ 64) (-1) (a - b + 2 ^ 64)) by lia.
    unfold to_i64. rewrite decide_False by lia. lia.
Qed.

(** The difference the queue computes between two positions in range. *)
Lemma diff_small a b : 0 ≤ a < 2 ^ 63 → 0 ≤ b < 2 ^ 63 → sub_i64 (to_i64 a) (to_i64 b) = a - b.
Proof. intros. rewrite !to_i64_small by lia. apply sub_i64_small. lia. Qed.

(** ** Capacity *)

Lemma pow2_loop_spec turns j n :
  1 ≤ j → j + Z.of_nat turns = 63 → n ≤ 2 ^ 62 → (∀ i, 1 ≤ i < j → 2 ^ i < n) →
  (0 < turns)%nat →
  ∃ k, j ≤ k ≤ 62 ∧ pow2_loop turns (2 ^ j) n = Some (2 ^ k) ∧ n ≤ 2 ^ k ∧ ∀ i, 1 ≤ i < k → 2 ^ i < n.
Proof.
  revert j. induction turns as [|turns IH]; intros j Hj Hturns Hn Hlow Ht; [lia|]. simpl.
  case_decide as Hlt.
  - assert (j < 62).
    { destruct (decide (j < 62)); [done|]. assert (j = 62) as -> by lia. lia. }
    assert (2 ^ (j + 1) ≤ 2 ^ 62) by (apply Z.pow_le_mono_r; lia).
    assert (0 < 2 ^ j) by (apply Z.pow_pos_nonneg; lia).
    assert (2 ^ (j + 1) = 2 ^ j * 2) as Hp by (rewrite Z.pow_add_r by lia; lia).
    rewrite Z.shiftl_mul_pow2 by lia. change (2 ^ 1) with 2.
    rewrite Z.mod_small by lia. rewrite to_i64_small by lia. rewrite <- Hp.
    destruct (IH (j + 1)) as (k & ? & ? & ? & ?); [lia..| |lia|].
    + intros i Hi. destruct (decide (i = j)) as [->|]; [done|]. apply Hlow. lia.
    + exists k. split_and!; [lia..|done|done|done].
  - exists j. split_and!; [lia..|done|lia|done].
Qed.

Lemma nextPow2_power n :
  1 ≤ n ≤ 2 ^ 62 → ∃ k, 1 ≤ k ≤ 62 ∧ nextPow2 n = Some (2 ^ k) ∧ n ≤ 2 ^ k ∧ ∀ i, 1 ≤ i < k → 2 ^ i < n.
Proof.
  intros Hn. unfold nextPow2. rewrite decide_False by lia.
  destruct (pow2_loop_spec 62 1 n) as (k & ? & ? & ? & Hlow); [lia..|]. by exists k.
Qed.

(** For every capacity the code can allocate, the rounding loop ends, does
    not overflow, and yields the smallest power of two that is at least the
    capacity and at least two; a capacity below one panics. *)
Theorem nextPow2_smallest n :
  n ≤ 2 ^ 62 →
  (n < 1 → nextPow2 n = None) ∧
  (1 ≤ n → ∃ k, 1 ≤ k ≤ 62 ∧ nextPow2 n = Some (2 ^ k) ∧ n ≤ 2 ^ k ∧
    ∀ i, 1 ≤ i → n ≤ 2 ^ i → 2 ^ k ≤ 2 ^ i).
Proof.
  intros Hn. split; [intros; unfold nextPow2; by rewrite decide_True|]. intros H1.
  destruct (nextPow2_power n) as (k & ? & ? & ? & Hlow); [lia|].
  exists k. split_and!; [lia..|done|done|]. intros i Hi Hni. apply Z.pow_le_mono_r; [lia|].
  destruct (decide (k ≤ i)); [done|]. specialize (Hlow i). lia.
Qed.

(** ** The invariant *)

Section theory.
Context {E : Type} (zero : E).
Variable k : Z.
Hypothesis k_range : 1 ≤ k ≤ 62.
Let C := 2 ^ k.

Lemma C_range : 2 ≤ C ≤ 2 ^ 62.
Proof.
  subst C. split; [change 2 with (2 ^ 1) at 1|]; apply Z.pow_le_mono_r; lia.
Qed.

Implicit Types s : sys E.

Definition H s : Z := Z.of_nat (length (log s)).
Definition T s : Z := tail (q s).
Definition logged s (p : Z) (e : E) : Prop := 0 ≤ p ∧ log s !! Z.to_nat p = Some e.

(** The slot of a position. *)
Definition cell s (p : Z) : entrySlot E := default (mkSlot 0 zero) (slots (q s) !! Z.to_nat (p mod C)).

(** The position whose slot a goroutine owns between its claim and its hand-off. *)
Definition owns (p : pc E) (pos : Z) : Prop :=
  match p with
  | PushWrite _ p | PushStore _ p | PopRead p | PopClear p _ | PopStore p _ => p = pos
  | _ => False
  end.

Lemma owns_fun p x y : owns p x → owns p y → x = y.
Proof. destruct p; simpl; congruence || done. Qed.

(** A published entry waiting for a consumer. *)
Definition ready s (pos : Z) : Prop :=
  sequence (cell s pos) = pos + 1 ∧ logged s pos (entry (cell s pos)).

(** What a goroutine may rely on at each point, in spite of the others. *)
Definition pc_ok s (p : pc E) : Prop :=
  match p with
  | PushSeq _ _ pos => 0 ≤ pos ≤ H s
  | PushCas _ _ pos => 0 ≤ pos ≤ H s ∧ (H s = pos → sequence (cell s pos) = pos ∧ pos - C < T s)
  | PushWrite e pos => T s ≤ pos < H s ∧ sequence (cell s pos) = pos ∧ logged s pos e
  | PushStore e pos =>
    T s ≤ pos < H s ∧ sequence (cell s pos) = pos ∧ logged s pos e ∧ entry (cell s pos) = e
  | PopSeq pos => 0 ≤ pos ≤ T s
  | PopCas pos => 0 ≤ pos ≤ T s ∧ (T s = pos → pos < H s ∧ ready s pos)
  | PopRead pos => H s - C ≤ pos < T s ∧ ready s pos
  | PopClear pos e | PopStore pos e =>
    H s - C ≤ pos < T s ∧ sequence (cell s pos) = pos + 1 ∧ logged s pos e
  | LenTail h => 0 ≤ h ≤ H s
  | _ => True
  end.

Definition owned s (pos : Z) : Prop := ∃ t p, threads s !! t = Some p ∧ owns p pos.

Record inv s : Prop := {
  inv_mask : mask (q s) = C - 1;
  inv_slots : Z.of_nat (length (slots (q s))) = C;
  inv_head : head (q s) = H s;
  inv_order : 0 ≤ T s ≤ H s ∧ H s ≤ T s + C;
  inv_pc : ∀ t p, threads s !! t = Some p → pc_ok s p;
  inv_unique : ∀ t t' p p' pos,
    threads s !! t = Some p → threads s !! t' = Some p' → owns p pos → owns p' pos → t = t';
  inv_consumed : ∀ pos, H s - C ≤ pos < T s → owned s pos ∨ sequence (cell s pos) = pos + C;
  inv_pending : ∀ pos, T s ≤ pos < H s → owned s pos ∨ ready s pos;
}.

(** Positions never reach the sign bit: fewer than [2^62] pushes. *)
Definition bounded s : Prop := H s < 2 ^ 62.

Lemma mod_window a b : a mod C = b mod C → - C < a - b < C → a = b.
Proof.
  pose proof C_range. apply Z_mod_window. lia.
Qed.

Lemma slotIdx_eq s pos : inv s → slotIdx (q s) pos = Z.to_nat (pos mod C).
Proof.
  intros Hs. unfold slotIdx. rewrite (inv_mask _ Hs).
  replace (C - 1) with (Z.ones k) by (unfold C; rewrite Z.ones_equiv; lia).
  by rewrite Z.land_ones by lia.
Qed.

Lemma slot_Some s pos : inv s → slot (q s) pos = Some (cell s pos).
Proof.
  intros Hs. pose proof C_range. unfold slot, cell. rewrite slotIdx_eq by done.
  destruct (lookup_lt_is_Some_2 (slots (q s)) (Z.to_nat (pos mod C))) as [x Hx]; [|by rewrite Hx].
  pose proof (inv_slots _ Hs). pose proof (Z.mod_pos_bound pos C). lia.
Qed.

(** A write to one slot, seen from every position. *)
Lemma cell_set s pos sl th lg p :
  inv s → cell (mkSys (set_slot (q s) pos sl) th lg) p =
    if decide (p mod C = pos mod C) then sl else cell s p.
Proof.
  intros Hs. pose proof C_range. unfold cell; simpl. rewrite slotIdx_eq by done.
  pose proof (Z.mod_pos_bound pos C). pose proof (Z.mod_pos_bound p C). pose proof (inv_slots _ Hs).
  case_decide as Heq.
  - rewrite Heq, list_lookup_insert_eq by lia. done.
  - by rewrite list_lookup_insert_ne by lia.
Qed.

Lemma logged_fun s p e e' : logged s p e → logged s p e' → e = e'.
Proof. intros [_ ?] [_ ?]. congruence. Qed.

Lemma owns_pc_ok s t p pos :
  inv s → threads s !! t = Some p → owns p pos →
  H s - C ≤ pos < H s ∧ 0 ≤ pos ∧
  ((T s ≤ pos ∧ sequence (cell s pos) = pos) ∨ (pos < T s ∧ sequence (cell s pos) = pos + 1)).
Proof.
  intros Hs Ht Ho. pose proof (inv_pc _ Hs _ _ Ht) as Hp. destruct (inv_order _ Hs).
  destruct p; simpl in *; try done; subst; unfold ready, logged in Hp; lia.
Qed.

(** *** Moves that touch only the goroutine's own state *)

Lemma owned_goto s t p p' pos :
  threads s !! t = Some p → (∀ x, owns p' x ↔ owns p x) → owned s pos → owned (goto s t p') pos.
Proof.
  intros Ht Ho (t' & p1 & Ht' & Hp1). destruct (decide (t' = t)) as [->|Hne].
  - simplify_eq. exists t, p'. split; [|by apply Ho]. simpl.
    rewrite list_lookup_insert_eq; [done|by eapply lookup_lt_Some].
  - exists t', p1. split; [|done]. simpl. by rewrite list_lookup_insert_ne.
Qed.

Lemma goto_lookup s t p' t1 p1 :
  threads (goto s t p') !! t1 = Some p1 → (t1 = t ∧ p1 = p') ∨ (t1 ≠ t ∧ threads s !! t1 = Some p1).
Proof. simpl. intros [(<- & <- & _)|[? ?]]%list_lookup_insert_Some; auto. Qed.

Lemma inv_goto s t p p' :
  inv s → threads s !! t = Some p → (∀ x, owns p' x ↔ owns p x) → pc_ok s p' → inv (goto s t p').
Proof.
  intros Hs Ht Ho Hok. split; try apply Hs.
  - intros t1 p1 [[-> ->]|[_ Ht1]]%goto_lookup; [done|by apply (inv_pc _ Hs _ _ Ht1)].
  - intros t1 t2 p1 p2 pos H1 H2 Ho1 Ho2.
    apply goto_lookup in H1 as [[-> ->]|[? H1]]; apply goto_lookup in H2 as [[-> ->]|[? H2]]; [done| | |].
    + apply Ho in Ho1. by apply (inv_unique _ Hs t t2 p p2 pos).
    + apply Ho in Ho2. by apply (inv_unique _ Hs t1 t p1 p pos).
    + by apply (inv_unique _ Hs t1 t2 p1 p2 pos).
  - intros pos Hpos. destruct (inv_consumed _ Hs _ Hpos) as [Hown|]; [left|by right].
    by eapply owned_goto.
  - intros pos Hpos. destruct (inv_pending _ Hs _ Hpos) as [Hown|]; [left|by right].
    by eapply owned_goto.
Qed.

Lemma inv_close s : inv s → inv (with_q s (set_closed (q s))).
Proof. intros Hs. split; apply Hs. Qed.

(** *** Writes to an owned slot *)

(** The positions whose slot another goroutine's facts mention. *)
Definition mentions s (p : pc E) (pos : Z) : Prop :=
  owns p pos ∨
  match p with
  | PushCas _ _ x => x = pos ∧ H s = pos
  | PopCas x => x = pos ∧ T s = pos
  | _ => False
  end.

Lemma pc_ok_cell s s' p :
  H s' = H s → T s' = T s → log s' = log s →
  (∀ pos, mentions s p pos → cell s' pos = cell s pos) → pc_ok s p → pc_ok s' p.
Proof.
  intros HH HT Hl Hc. destruct p; simpl; unfold ready, logged; rewrite ?HH, ?HT, ?Hl; try done;
    try (rewrite Hc by (by left)); try done; intros (? & Hx); split; try done; intros Heq;
    rewrite Hc by (right; simpl; split; congruence); by apply Hx.
Qed.

(** No fact of another goroutine mentions the slot a goroutine owns. *)
Lemma owned_private s t p t' p' pos pos' :
  inv s → threads s !! t = Some p → owns p pos → threads s !! t' = Some p' → t' ≠ t →
  mentions s p' pos' → pos' mod C ≠ pos mod C.
Proof.
  intros Hs Ht Ho Ht' Hne Hm Heq. pose proof C_range.
  destruct (owns_pc_ok _ _ _ _ Hs Ht Ho) as (Hw & _ & Hseq).
  assert (cell s pos' = cell s pos) as Hcell by (unfold cell; by rewrite Heq).
  destruct Hm as [Ho'|Hm].
  - destruct (owns_pc_ok _ _ _ _ Hs Ht' Ho') as (Hw' & _ & _).
    assert (pos' = pos) as -> by (apply mod_window; [done|lia]).
    by destruct Hne; eapply (inv_unique _ Hs).
  - pose proof (inv_pc _ Hs _ _ Ht') as Hok. destruct (inv_order _ Hs) as [? ?].
    destruct p'; simpl in Hm, Hok; try done; destruct Hm as [-> HH].
    + destruct Hok as [_ Hok]. destruct (Hok HH) as [Hq HT]. rewrite Hcell in Hq.
      assert (pos' - C = pos) as Hpc; [|lia].
      apply mod_window; [|lia]. rewrite <- Heq. symmetry.
      replace pos' with (pos' - C + 1 * C) at 1 by lia. apply Z.mod_add. lia.
    + destruct Hok as [_ Hok]. destruct (Hok HH) as [HltH [Hq _]]. rewrite Hcell in Hq.
      assert (pos' = pos) as ->; [apply mod_window; [done|lia]|]. lia.
Qed.

Lemma inv_write s t p p' pos sl :
  inv s → threads s !! t = Some p → owns p pos →
  let s' := mkSys (set_slot (q s) pos sl) (<[t := p']> (threads s)) (log s) in
  pc_ok s' p' →
  ((∀ x, owns p' x ↔ owns p x) ∨
   (∀ x, ¬ owns p' x) ∧ (pos < T s → sequence sl = pos + C) ∧
   (T s ≤ pos → sequence sl = pos + 1 ∧ logged s pos (entry sl))) →
  inv s'.
Proof.
  intros Hs Ht Ho s' Hok Hown. pose proof C_range.
  destruct (owns_pc_ok _ _ _ _ Hs Ht Ho) as (Hw & Hnn & _).
  assert (∀ x, cell s' x = if decide (x mod C = pos mod C) then sl else cell s x) as Hcell.
  { intros x. by apply cell_set. }
  assert (∀ x, H s - C ≤ x < H s → x ≠ pos → cell s' x = cell s x) as Hother.
  { intros x Hx Hxp. rewrite Hcell, decide_False; [done|]. intros Hm. apply Hxp, mod_window; [done|lia]. }
  assert (∀ x, x ≠ pos → owned s x → owned s' x) as Hkeep.
  { intros x Hxp (t1 & p1 & Ht1 & Ho1). destruct (decide (t1 = t)) as [->|Hne].
    - rewrite Ht in Ht1. injection Ht1 as <-. destruct Hxp. by eapply owns_fun.
    - exists t1, p1. split; [|done]. simpl. by rewrite list_lookup_insert_ne. }
  assert (owned s' pos ∨ (pos < T s → sequence sl = pos + C) ∧
    (T s ≤ pos → sequence sl = pos + 1 ∧ logged s pos (entry sl))) as Hpos.
  { destruct Hown as [Hsame|[_ Hst]]; [left|by right]. exists t, p'. split; [|by apply Hsame].
    simpl. rewrite list_lookup_insert_eq; [done|by eapply lookup_lt_Some]. }
  assert (cell s' pos = sl) as Hsl by (rewrite Hcell; by rewrite decide_True).
  split; try apply Hs.
  - simpl. rewrite length_insert. apply Hs.
  - intros t1 p1 [[-> ->]|[Hne Ht1]]%(goto_lookup s); [done|].
    eapply (pc_ok_cell s); [done..| |by apply (inv_pc _ Hs _ _ Ht1)].
    intros x Hm. rewrite Hcell, decide_False; [done|].
    exact (owned_private s t p t1 p1 pos x Hs Ht Ho Ht1 Hne Hm).
  - intros t1 t2 p1 p2 x H1 H2 Ho1 Ho2. apply (goto_lookup s) in H1, H2.
    destruct H1 as [[-> ->]|[? H1]], H2 as [[-> ->]|[? H2]]; [done| | |exact (inv_unique _ Hs _ _ _ _ _ H1 H2 Ho1 Ho2)].
    + destruct Hown as [Hsame|[Hno _]]; [|by destruct (Hno x)].
      apply Hsame in Ho1. exact (inv_unique _ Hs _ _ _ _ _ Ht H2 Ho1 Ho2).
    + destruct Hown as [Hsame|[Hno _]]; [|by destruct (Hno x)].
      apply Hsame in Ho2. exact (inv_unique _ Hs _ _ _ _ _ H1 Ht Ho1 Ho2).
  - intros x Hx. change (H s - C ≤ x < T s) in Hx. destruct (inv_order _ Hs).
    destruct (decide (x = pos)) as [->|Hne].
    + destruct Hpos as [|[Hst _]]; [by left|right]. rewrite Hsl. apply Hst. lia.
    + rewrite Hother by (done || lia). destruct (inv_consumed _ Hs x Hx); [left; by apply Hkeep|by right].
  - intros x Hx. change (T s ≤ x < H s) in Hx. destruct (inv_order _ Hs).
    destruct (decide (x = pos)) as [->|Hne].
    + destruct Hpos as [|[_ Hst]]; [by left|right]. unfold ready. rewrite Hsl. apply Hst. lia.
    + unfold ready. rewrite Hother by (done || lia).
      destruct (inv_pending _ Hs x Hx); [left; by apply Hkeep|by right].
Qed.

(** *** Claims *)

Lemma owned_claim s t p p' q' lg x :
  threads s !! t = Some p → (∀ x, ¬ owns p x) → owned s x →
  owned (mkSys q' (<[t := p']> (threads s)) lg) x.
Proof.
  intros Ht Hno (t1 & p1 & Ht1 & Ho1). exists t1, p1. split; [|done]. simpl.
  rewrite list_lookup_insert_ne; [done|]. intros ->. simplify_eq. by destruct (Hno x).
Qed.

Lemma logged_snoc s (e e' : E) pos q' th :
  logged s pos e → logged (mkSys q' th (log s ++ [e'])) pos e.
Proof. intros [? Hl]. split; [done|]. simpl. by apply lookup_app_l_Some. Qed.

Lemma inv_push_claim s t try e pos :
  inv s → threads s !! t = Some (PushCas try e pos) → H s = pos →
  inv (mkSys (set_head (q s) (pos + 1)) (<[t := PushWrite e pos]> (threads s)) (log s ++ [e])).
Proof.
  intros Hs Ht HH. set (s' := mkSys _ _ _). pose proof C_range.
  destruct (inv_pc _ Hs _ _ Ht) as [Hpos Hcas]. destruct (Hcas HH) as [Hseq HT].
  destruct (inv_order _ Hs) as [Ho1 Ho2].
  assert (H s' = H s + 1) as HH' by (unfold H; simpl; rewrite length_app; simpl; lia).
  assert (logged s' pos e) as Hlog.
  { split; [lia|]. simpl. rewrite lookup_app_r by (unfold H in HH; lia).
    replace (Z.to_nat pos - length (log s))%nat with 0%nat by (unfold H in HH; lia). done. }
  assert (∀ x y, logged s x y → logged s' x y) as Hmono by (intros; by apply logged_snoc).
  assert (∀ x, H s - C ≤ x → sequence (cell s x) = x + 1 → H s' - C ≤ x) as Hwin.
  { intros x Hx Hxs. rewrite HH'. destruct (decide (x = H s - C)) as [->|]; [|lia].
    assert (cell s (H s - C) = cell s pos) as Heq.
    { unfold cell. do 3 f_equal. rewrite <- HH. replace (H s) with (H s - C + 1 * C) at 2 by lia.
      symmetry. apply Z.mod_add. lia. }
    rewrite Heq, Hseq in Hxs. lia. }
  split; try apply Hs.
  - simpl. rewrite HH'. lia.
  - change (T s') with (T s). lia.
  - intros t1 p1 [[-> ->]|[Hne Ht1]]%(goto_lookup s).
    { simpl. change (T s') with (T s). change (cell s' pos) with (cell s pos). split_and!; [lia..|done|done]. }
    pose proof (inv_pc _ Hs _ _ Ht1) as Hok.
    destruct p1; simpl in Hok |- *; change (T s') with (T s); unfold ready in *;
      change (cell s' ?x) with (cell s x) in *; try done; try (rewrite HH'; lia).
    + destruct Hok as (? & ? & ?). split_and!; auto; lia.
    + destruct Hok as (? & ? & ? & ?). split_and!; auto; lia.
    + destruct Hok as [? Hok]. split; [lia|]. intros HTp. destruct (Hok HTp) as (? & ? & ?).
      split_and!; auto; lia.
    + destruct Hok as (? & ? & ?). specialize (Hwin pos0). split_and!; auto; lia.
    + destruct Hok as (? & ? & ?). specialize (Hwin pos0). split_and!; auto; lia.
    + destruct Hok as (? & ? & ?). specialize (Hwin pos0). split_and!; auto; lia.
  - intros t1 t2 p1 p2 x H1 H2 Hx1 Hx2. apply (goto_lookup s) in H1, H2.
    destruct H1 as [[-> ->]|[? H1]], H2 as [[-> ->]|[? H2]]; [done| | |exact (inv_unique _ Hs _ _ _ _ _ H1 H2 Hx1 Hx2)].
    + simpl in Hx1. destruct (owns_pc_ok _ _ _ _ Hs H2 Hx2). lia.
    + simpl in Hx2. destruct (owns_pc_ok _ _ _ _ Hs H1 Hx1). lia.
  - intros x Hx. change (T s') with (T s) in Hx.
    destruct (inv_consumed _ Hs x) as [|]; [lia|left|by right]. eapply owned_claim; [done|by intros ? []|done].
  - intros x Hx. change (T s') with (T s) in Hx. destruct (decide (x = pos)) as [->|].
    + left. exists t, (PushWrite e pos). split; [|done]. simpl.
      rewrite list_lookup_insert_eq; [done|by eapply lookup_lt_Some].
    + destruct (inv_pending _ Hs x) as [|[? ?]]; [lia|left|right; split; auto].
      eapply owned_claim; [done|by intros ? []|done].
Qed.

Lemma inv_pop_claim s t pos :
  inv s → threads s !! t = Some (PopCas pos) → T s = pos →
  inv (mkSys (set_tail (q s) (pos + 1)) (<[t := PopRead pos]> (threads s)) (log s)).
Proof.
  intros Hs Ht HT. set (s' := mkSys _ _ _). pose proof C_range.
  destruct (inv_pc _ Hs _ _ Ht) as [Hpos Hcas]. destruct (Hcas HT) as [HltH Hrdy].
  destruct (inv_order _ Hs) as [Ho1 Ho2].
  assert (T s' = T s + 1) as HT' by (unfold T in *; simpl; lia).
  split; try apply Hs.
  - change (H s') with (H s). lia.
  - intros t1 p1 [[-> ->]|[Hne Ht1]]%(goto_lookup s).
    { simpl. change (H s') with (H s). change (ready s' pos) with (ready s pos). split; [lia|done]. }
    pose proof (inv_pc _ Hs _ _ Ht1) as Hok. destruct Hrdy as [Hrs Hrl].
    destruct p1; simpl in Hok |- *; change (H s') with (H s); unfold ready in *;
      change (cell s' ?x) with (cell s x) in *; change (logged s') with (logged s) in *;
      rewrite ?HT'; try done; try lia.
    + destruct Hok as (? & Hq & ?). split_and!; try done; try lia.
      destruct (decide (pos0 = pos)) as [->|]; lia.
    + destruct Hok as (? & Hq & ? & ?). split_and!; try done; try lia.
      destruct (decide (pos0 = pos)) as [->|]; lia.
    + destruct Hok as (? & ? & ?). split_and!; try done; lia.
    + destruct Hok as (? & ? & ?). split_and!; try done; lia.
    + destruct Hok as (? & ? & ?). split_and!; try done; lia.
  - intros t1 t2 p1 p2 x H1 H2 Hx1 Hx2. destruct Hrdy as [Hrs _].
    apply (goto_lookup s) in H1, H2.
    destruct H1 as [[-> ->]|[? H1]], H2 as [[-> ->]|[? H2]]; [done| | |exact (inv_unique _ Hs _ _ _ _ _ H1 H2 Hx1 Hx2)].
    + simpl in Hx1. subst x. destruct (owns_pc_ok _ _ _ _ Hs H2 Hx2) as (_ & _ & ?). lia.
    + simpl in Hx2. subst x. destruct (owns_pc_ok _ _ _ _ Hs H1 Hx1) as (_ & _ & ?). lia.
  - intros x Hx. change (H s') with (H s) in Hx. destruct (decide (x = pos)) as [->|].
    + left. exists t, (PopRead pos). split; [|done]. simpl.
      rewrite list_lookup_insert_eq; [done|by eapply lookup_lt_Some].
    + destruct (inv_consumed _ Hs x) as [|]; [lia|left|by right]. eapply owned_claim; [done|by intros ? []|done].
  - intros x Hx. change (H s') with (H s) in Hx.
    destruct (inv_pending _ Hs x) as [|]; [lia|left|by right]. eapply owned_claim; [done|by intros ? []|done].
Qed.

(** *** Every step *)

Lemma retry_free try (e : E) x : ¬ owns (retry try e) x.
Proof. destruct try; by intros []. Qed.
Lemma retry_ok s try (e : E) : pc_ok s (retry try e).
Proof. by destruct try. Qed.

Lemma free_iff (p p' : pc E) : (∀ x, ¬ owns p x) → (∀ x, ¬ owns p' x) → ∀ x, owns p' x ↔ owns p x.
Proof. intros H1 H2 x. split; intros Hx; [by destruct (H2 x)|by destruct (H1 x)]. Qed.

(** What a slot can hold, whatever position it is read for. *)
Lemma seq_cases s x :
  inv s → ∃ p, H s - C ≤ p < H s ∧ p mod C = x mod C ∧ cell s x = cell s p ∧
    ((T s ≤ p ∧ (sequence (cell s x) = p ∨ ready s p)) ∨
     (p < T s ∧ ((0 ≤ p ∧ sequence (cell s x) = p + 1) ∨ sequence (cell s x) = p + C))).
Proof.
  intros Hs. pose proof C_range. destruct (inv_order _ Hs) as [Ho1 Ho2].
  set (p := H s - C + (x - (H s - C)) mod C).
  assert (p mod C = x mod C) as Hm.
  { unfold p. rewrite Z.add_mod_idemp_r by lia. f_equal. lia. }
  assert (cell s x = cell s p) as Hc by (unfold cell; by rewrite Hm).
  assert (H s - C ≤ p < H s) as Hw by (unfold p; pose proof (Z.mod_pos_bound (x - (H s - C)) C); lia).
  exists p. rewrite Hc. split_and!; [lia..|done|done|]. destruct (decide (T s ≤ p)).
  - left. split; [done|]. destruct (inv_pending _ Hs p) as [(t & q' & Ht & Ho)|]; [lia| |by right].
    destruct (owns_pc_ok _ _ _ _ Hs Ht Ho) as (_ & _ & ?). left. lia.
  - right. split; [lia|]. destruct (inv_consumed _ Hs p) as [(t & q' & Ht & Ho)|]; [lia| |by right].
    destruct (owns_pc_ok _ _ _ _ Hs Ht Ho) as (_ & ? & ?). left. lia.
Qed.

Lemma seq_values s x :
  inv s → ∃ p, H s - C ≤ p < H s ∧ p mod C = x mod C ∧
    ((T s ≤ p ∧ (sequence (cell s x) = p ∨ sequence (cell s x) = p + 1)) ∨
     (p < T s ∧ ((0 ≤ p ∧ sequence (cell s x) = p + 1) ∨ sequence (cell s x) = p + C))).
Proof.
  intros Hs. destruct (seq_cases s x Hs) as (p & ? & ? & Hc & Hcase). exists p. split_and!; [lia..|done|].
  destruct Hcase as [[? [?|[Hq _]]]|?]; [auto| |by right]. rewrite <- Hc in Hq. auto.
Qed.

Lemma seq_range s x : inv s → bounded s → 0 ≤ sequence (cell s x) < 2 ^ 63.
Proof.
  intros Hs Hb. pose proof C_range. destruct (inv_order _ Hs). unfold bounded in Hb.
  destruct (seq_values s x Hs) as (p & ? & _ & Hcase). lia.
Qed.

(** A producer that reads its own position as the sequence may claim the slot. *)
Lemma push_seen s pos :
  inv s → H s = pos → sequence (cell s pos) = pos → pos - C < T s.
Proof.
  intros Hs HH Hq. pose proof C_range. destruct (inv_order _ Hs).
  destruct (seq_values s pos Hs) as (p & ? & Hm & Hcase).
  assert (p = pos - C) as ->.
  { apply mod_window; [|lia]. rewrite Hm. replace pos with (pos - C + 1 * C) at 1 by lia.
    apply Z.mod_add. lia. }
  lia.
Qed.

(** A consumer that reads the successor of its position may take the entry. *)
Lemma pop_seen s pos :
  inv s → T s = pos → sequence (cell s pos) = pos + 1 → pos < H s ∧ ready s pos.
Proof.
  intros Hs HT Hq. pose proof C_range. destruct (inv_order _ Hs).
  destruct (seq_cases s pos Hs) as (p & ? & Hm & Hc & Hcase).
  destruct (decide (pos < H s)).
  - assert (p = pos) as -> by (apply mod_window; [done|lia]). split; [done|].
    destruct Hcase as [[_ [?|?]]|?]; [lia|done|lia].
  - assert (p = pos - C) as ->.
    { apply mod_window; [|lia]. rewrite Hm. replace pos with (pos - C + 1 * C) at 1 by lia.
      apply Z.mod_add. lia. }
    lia.
Qed.

(** The side conditions of a move between two points that own no slot. *)
Ltac free_pc :=
  try (by intros ? []); try (by intros ?; apply retry_free); try done; try apply retry_ok.

Lemma queue_run_inv s t p s' :
  inv s → bounded s' → threads s !! t = Some p → run_thread zero s t p = Some s' → inv s'.
Proof.
  intros Hs Hb Ht. pose proof C_range. pose proof (inv_order _ Hs) as [Ho1 Ho2].
  pose proof (inv_pc _ Hs _ _ Ht) as Hok.
  assert (∀ p', (∀ x, ¬ owns p x) → (∀ x, ¬ owns p' x) → pc_ok s p' → inv (goto s t p')) as Hgo.
  { intros p' Hp Hp' Hok'. by apply (inv_goto s t p p' Hs Ht (free_iff _ _ Hp Hp')). }
  destruct p; cbn [run_thread]; rewrite ?(slot_Some s) by done; simpl; try done.
  - (* PushClosed *) intros [= <-]. destruct (closed (q s)); apply Hgo; free_pc.
  - (* PushHead *) intros [= <-]. apply Hgo; [by intros ? []..|]. simpl. rewrite (inv_head _ Hs). lia.
  - (* PushSeq *)
    intros [= <-]. change (bounded s) in Hb. pose proof (seq_range s pos Hs Hb). unfold bounded in Hb.
    simpl in Hok. rewrite diff_small by lia.
    case_decide as Hd; [|case_decide;
      apply Hgo; free_pc].
    apply Hgo; [by intros ? []..|]. simpl. split; [lia|]. intros HH.
    assert (sequence (cell s pos) = pos) by lia. split; [done|]. by apply push_seen.
  - (* PushCas *)
    case_decide as Hh; intros [= <-]; [|apply Hgo; free_pc].
    rewrite (inv_head _ Hs) in Hh. unfold bounded, H in Hb; simpl in Hb. rewrite length_app in Hb; simpl in Hb.
    rewrite wadd_small by (unfold H in *; lia). by eapply inv_push_claim.
  - (* PushWrite *)
    intros [= <-].
    destruct Hok as (Hw & Hq & Hl). apply (inv_write s t _ _ pos _ Hs Ht eq_refl); [|by left].
    simpl. rewrite !cell_set, !decide_True by done. exact (conj Hw (conj Hq (conj Hl eq_refl))).
  - (* PushStore *)
    intros [= <-].
    destruct Hok as (? & ? & ? & He). apply (inv_write s t _ _ pos _ Hs Ht eq_refl); [done|right].
    split; [by intros ? []|]. unfold bounded, H in Hb; simpl in Hb. split; [lia|]. intros _. simpl.
    rewrite wadd_small by (unfold H in *; lia). by rewrite He.
  - (* PopTail *) intros [= <-]. apply Hgo; [by intros ? []..|]. simpl. unfold T in *. lia.
  - (* PopSeq *)
    intros [= <-]. change (bounded s) in Hb. pose proof (seq_range s pos Hs Hb). unfold bounded in Hb.
    simpl in Hok. rewrite wadd_small by lia. rewrite diff_small by lia.
    case_decide as Hd; [|case_decide;
      apply Hgo; free_pc].
    apply Hgo; [by intros ? []..|]. simpl. split; [lia|]. intros HT. apply pop_seen; [done..|lia].
  - (* PopCas *)
    case_decide as Hh; intros [= <-]; [|apply Hgo; free_pc].
    unfold bounded in Hb. change (H s < 2 ^ 62) in Hb. simpl in Hok.
    rewrite wadd_small by (unfold T in *; lia). exact (inv_pop_claim s t pos Hs Ht Hh).
  - (* PopRead *)
    intros [= <-]. destruct Hok as (? & ? & ?). by apply (inv_goto s t _ _ Hs Ht).
  - (* PopClear *)
    intros [= <-].
    destruct Hok as (Hw & Hq & Hl). apply (inv_write s t _ _ pos _ Hs Ht eq_refl); [|by left].
    simpl. rewrite !cell_set, !decide_True by done. exact (conj Hw (conj Hq Hl)).
  - (* PopStore *)
    intros [= <-].
    destruct Hok as (? & ? & [? ?]). apply (inv_write s t _ _ pos _ Hs Ht eq_refl); [done|right].
    split; [by intros ? []|]. unfold bounded, H in Hb; simpl in Hb. split; [|unfold T in *; lia].
    intros _. simpl. rewrite (inv_mask _ Hs). unfold H in *. rewrite !wadd_small by (rewrite ?wadd_small; lia). lia.
  - (* PopClosed *) intros [= <-]. destruct (closed (q s)); apply Hgo; free_pc.
  - (* LenHead *) intros [= <-]. change (bounded s) in Hb. unfold bounded in Hb. apply Hgo; [by intros ? []..|].
    simpl. rewrite (inv_head _ Hs), to_i64_small by lia. lia.
  - (* LenTail *) intros [= <-]. apply Hgo; free_pc.
  - (* CloseStore *)
    intros [= <-]. apply (inv_goto (with_q s (set_closed (q s))) t CloseStore); [by apply inv_close|done..].
Qed.

Lemma queue_step_inv s a s' : inv s → bounded s' → step zero s a = Some s' → inv s'.
Proof.
  intros Hs Hb. destruct a as [t o|t]; simpl; destruct (threads s !! t) as [p|] eqn:Ht; try done; simpl.
  - intros Hst. assert (s' = goto s t (start o) ∧ ∀ x, ¬ owns p x) as [-> Hp].
    { by destruct p; simplify_eq; split; try done; intros ? []. }
    apply (inv_goto s t p); [done..| |by destruct o]. apply free_iff; [done|]. by destruct o; intros ? [].
  - by apply queue_run_inv.
Qed.

Lemma run_log_mono s t p s' : run_thread zero s t p = Some s' → H s ≤ H s'.
Proof.
  destruct p; simpl; try done; try (intros [= <-]; done);
    try (destruct (slot (q s) pos); simpl; [|done]; intros [= <-]; done).
  - case_decide; intros [= <-]; [|done]. unfold H. simpl. rewrite length_app. lia.
  - case_decide; by intros [= <-].
Qed.

Lemma step_log_mono s a s' : step zero s a = Some s' → H s ≤ H s'.
Proof.
  destruct a as [t o|t]; simpl; destruct (threads s !! t) as [p|]; try done; simpl.
  - by destruct p; intros [= <-].
  - apply run_log_mono.
Qed.

Lemma runs_log_mono s acts s' : run_steps (step zero) s acts = Some s' → H s ≤ H s'.
Proof.
  revert s. induction acts as [|a acts IH]; intros s; simpl; [by intros [= <-]|].
  destruct (step zero s a) as [s1|] eqn:Hst; [|done]; simpl. intros Hr.
  etrans; [by eapply step_log_mono|by apply IH].
Qed.

Lemma runs_inv s acts s' :
  inv s → run_steps (step zero) s acts = Some s' → bounded s' → inv s'.
Proof.
  revert s. induction acts as [|a acts IH]; intros s Hs; simpl; [by intros [= <-]|].
  destruct (step zero s a) as [s1|] eqn:Hst; [|done]; simpl. intros Hr Hb.
  eapply IH; [|done..]. eapply queue_step_inv; [done| |done].
  unfold bounded in *. apply runs_log_mono in Hr. lia.
Qed.

(** The constructor's state. *)
Definition fresh : SessionEntryQueue E :=
  mkQueue 0 0 false (C - 1) ((λ i, mkSlot (Z.of_nat i) zero) <$> seq 0 (Z.to_nat C)).

Lemma boot_inv n : inv (boot fresh n).
Proof.
  pose proof C_range.
  assert (∀ t p, threads (boot fresh n) !! t = Some p → p = Idle) as Hidle.
  { intros t p Ht. simpl in Ht. by apply lookup_replicate in Ht as [-> _]. }
  split; simpl; try done; try lia.
  - rewrite length_fmap, length_seq. lia.
  - unfold H, T; simpl. lia.
  - by intros t p ->%Hidle.
  - intros t t' p p' pos Ht _ Ho. apply Hidle in Ht as ->. done.
  - intros pos. unfold H, T; simpl. intros Hpos. right. unfold cell; simpl.
    rewrite list_lookup_fmap, lookup_seq_lt by (pose proof (Z.mod_pos_bound pos C); lia). simpl.
    pose proof (Z.mod_pos_bound pos C).
    rewrite <- (Z.mod_unique pos C (-1) (pos + C)); lia.
  - intros pos. unfold H, T; simpl. lia.
Qed.

(** ** Refinement *)

Definition push_op (try : bool) (e : E) : op E := if try then TryPush e else Push e.

Definition abs_pc (lg : list E) (p : pc E) : aproc E :=
  match p with
  | Idle => AIdle
  | Done r => AReturned r
  | PushClosed try e | PushHead try e | PushSeq try e _ | PushCas try e _ => APending (push_op try e)
  | PushWrite _ _ | PushStore _ _ => ACommitted RetOk
  | PopTail | PopSeq _ | PopCas _ | PopClosed => APending Pop
  | PopRead pos => from_option (λ e, ACommitted (RetEntry e)) AIdle (lg !! Z.to_nat pos)
  | PopClear _ e | PopStore _ e => ACommitted (RetEntry e)
  | LenHead | LenTail _ => APending Len
  | CloseStore => APending Close
  end.

Definition abs s : astate E :=
  mkAbs (drop (Z.to_nat (T s)) (log s)) (closed (q s)) (abs_pc (log s) <$> threads s).

Lemma contents_length s : inv s → Z.of_nat (length (contents (abs s))) = H s - T s.
Proof. intros Hs. destruct (inv_order _ Hs). simpl. rewrite length_drop. unfold H in *. lia. Qed.

(** What the other goroutines will return does not change when the log grows. *)
Lemma abs_threads s t p' lg :
  inv s → abs_pc (log s ++ lg) <$> <[t := p']> (threads s) =
    <[t := abs_pc (log s ++ lg) p']> (abs_pc (log s) <$> threads s).
Proof.
  intros Hs. rewrite list_fmap_insert. apply list_eq. intros i.
  destruct (decide (i = t)) as [->|Hne].
  - destruct (decide (t < length (threads s))%nat).
    + rewrite !list_lookup_insert_eq by (rewrite length_fmap; lia). done.
    + rewrite !lookup_ge_None_2; [done|rewrite length_insert, length_fmap; lia..].
  - rewrite !list_lookup_insert_ne, !list_lookup_fmap by done.
    destruct (threads s !! i) as [p|] eqn:Hi; [|done]. simpl. f_equal.
    pose proof (inv_pc _ Hs _ _ Hi) as Hok. destruct p; try done. simpl in Hok |- *.
    destruct Hok as (_ & _ & _ & Hl). rewrite Hl. by erewrite lookup_app_l_Some by done.
Qed.

(** A move of goroutine [t] that changes neither the log nor the positions. *)
Lemma abs_move s q' t p' :
  inv s → tail q' = T s →
  abs (mkSys q' (<[t := p']> (threads s)) (log s)) =
    mkAbs (contents (abs s)) (closed q') (<[t := abs_pc (log s) p']> (procs (abs s))).
Proof.
  intros Hs HT. unfold abs; simpl. unfold T; simpl. rewrite HT. unfold T. f_equal.
  pose proof (abs_threads s t p' [] Hs) as Ht. by rewrite !app_nil_r in Ht.
Qed.

Lemma abs_stutter s q' t p p' :
  inv s → tail q' = T s → closed q' = closed (q s) → threads s !! t = Some p →
  abs_pc (log s) p' = abs_pc (log s) p →
  astep C (abs s) None (abs (mkSys q' (<[t := p']> (threads s)) (log s))).
Proof.
  intros Hs HT Hc Ht Hp. rewrite abs_move by done. rewrite Hp, Hc, list_insert_id; [apply a_stutter|].
  simpl. by rewrite list_lookup_fmap, Ht.
Qed.

(** What the callers see when goroutine [t] moves to [p]. *)
Definition seen (t : nat) (p : pc E) : option (event E) :=
  match p with Done r => Some (Returned t r) | _ => None end.

Lemma observe_run s t p q' p' lg :
  threads s !! t = Some p → observe (Run t) (mkSys q' (<[t := p']> (threads s)) lg) = seen t p'.
Proof. intros Ht%lookup_lt_Some. unfold observe. cbn [threads]. by rewrite list_lookup_insert_eq. Qed.

Lemma retry_refines s t p try e :
  inv s → threads s !! t = Some p → abs_pc (log s) p = APending (push_op try e) →
  astep C (abs s) (seen t (retry try e)) (abs (goto s t (retry try e))).
Proof.
  intros Hs Ht Hp. unfold goto. destruct try; simpl.
  - rewrite abs_move by done. eapply (a_full _ (contents (abs s))). simpl.
    by rewrite list_lookup_fmap, Ht; simpl; rewrite Hp.
  - by eapply abs_stutter.
Qed.

(** A claimed push appends its entry, a claimed pop takes the oldest one. *)
Lemma push_claim_refines s t try e pos :
  inv s → threads s !! t = Some (PushCas try e pos) → H s = pos →
  astep C (abs s) None (abs (mkSys (set_head (q s) (pos + 1)) (<[t := PushWrite e pos]> (threads s)) (log s ++ [e]))).
Proof.
  intros Hs Ht HH. destruct (inv_pc _ Hs _ _ Ht) as [_ Hcas]. destruct (Hcas HH) as [_ HT].
  destruct (inv_order _ Hs) as [? ?]. unfold abs at 2; simpl. rewrite abs_threads by done.
  change (T (mkSys _ _ _)) with (T s). rewrite drop_app_le by (unfold H in *; lia).
  eapply (a_push _ (contents (abs s)) _ _ _ (push_op try e)).
  - simpl. by rewrite list_lookup_fmap, Ht.
  - destruct try; auto.
  - rewrite contents_length by done. lia.
Qed.

Lemma pop_claim_refines s t pos :
  inv s → threads s !! t = Some (PopCas pos) → T s = pos →
  astep C (abs s) None (abs (mkSys (set_tail (q s) (pos + 1)) (<[t := PopRead pos]> (threads s)) (log s))).
Proof.
  intros Hs Ht HT. destruct (inv_pc _ Hs _ _ Ht) as [? Hcas]. destruct (Hcas HT) as (HltH & _ & _ & Hl).
  unfold abs; simpl. unfold T at 2; simpl. rewrite HT. rewrite (drop_S _ _ _ Hl).
  replace (Z.to_nat (pos + 1)) with (S (Z.to_nat pos)) by lia.
  pose proof (abs_threads s t (PopRead pos) [] Hs) as Hth. rewrite !app_nil_r in Hth. rewrite Hth.
  simpl. rewrite Hl; simpl. apply a_pop. by rewrite list_lookup_fmap, Ht.
Qed.

Lemma run_refines s t p s' :
  inv s → bounded s' → threads s !! t = Some p → run_thread zero s t p = Some s' →
  astep C (abs s) (observe (Run t) s') (abs s').
Proof.
  intros Hs Hb Ht. pose proof C_range. destruct (inv_order _ Hs) as [Ho1 Ho2].
  pose proof (inv_pc _ Hs _ _ Ht) as Hok.
  assert (procs (abs s) !! t = Some (abs_pc (log s) p)) as Hp by (simpl; by rewrite list_lookup_fmap, Ht).
  assert (∀ q' p', tail q' = T s → closed q' = closed (q s) → abs_pc (log s) p' = abs_pc (log s) p →
    seen t p' = None →
    astep C (abs s) (observe (Run t) (mkSys q' (<[t := p']> (threads s)) (log s)))
      (abs (mkSys q' (<[t := p']> (threads s)) (log s)))) as Hst.
  { intros q' p' ? ? ? Hn. rewrite (observe_run _ _ p), Hn by done. by eapply abs_stutter. }
  assert (∀ r, abs_pc (log s) p = ACommitted r → ∀ q', tail q' = T s → closed q' = closed (q s) →
    astep C (abs s) (observe (Run t) (mkSys q' (<[t := Done r]> (threads s)) (log s)))
      (abs (mkSys q' (<[t := Done r]> (threads s)) (log s)))) as Hret.
  { intros r Hr q' HT Hc. rewrite (observe_run _ _ p), abs_move, Hc by done. apply (a_return _ (contents (abs s))). by rewrite <- Hr. }
  destruct p; cbn [run_thread]; rewrite ?(slot_Some s) by done; simpl in Hp |- *; try done.
  - (* PushClosed *) intros [= <-]. destruct (closed (q s)) eqn:Ec; [|by apply (Hst (q s))].
    unfold goto. rewrite (observe_run _ _ _ _ _ _ Ht), abs_move by done. unfold abs at 1. simpl. rewrite Ec.
    eapply a_refused; [done|by destruct try|by destruct try].
  - (* PushHead *) intros [= <-]. by apply (Hst (q s)).
  - (* PushSeq *)
    intros [= <-]. repeat case_decide; [by apply (Hst (q s))|unfold goto; rewrite (observe_run _ _ _ _ _ _ Ht) by done; by eapply retry_refines..].
  - (* PushCas *)
    case_decide as Hh; intros [= <-]; [|unfold goto; rewrite (observe_run _ _ _ _ _ _ Ht) by done; by eapply retry_refines].
    rewrite (inv_head _ Hs) in Hh. unfold bounded, H in Hb; simpl in Hb. rewrite length_app in Hb; simpl in Hb.
    rewrite wadd_small, (observe_run _ _ _ _ _ _ Ht) by (done || unfold H in *; lia). by eapply push_claim_refines.
  - (* PushWrite *) intros [= <-]. by apply Hst.
  - (* PushStore *) intros [= <-]. by apply Hret.
  - (* PopTail *) intros [= <-]. by apply (Hst (q s)).
  - (* PopSeq *) intros [= <-]. repeat case_decide; by apply (Hst (q s)).
  - (* PopCas *)
    case_decide as Hh; intros [= <-]; [|by apply (Hst (q s))].
    unfold bounded in Hb. change (H s < 2 ^ 62) in Hb. simpl in Hok.
    rewrite wadd_small by (unfold T in *; lia). unfold goto, with_q. simpl. rewrite (observe_run _ _ _ _ _ _ Ht).
    exact (pop_claim_refines s t pos Hs Ht Hh).
  - (* PopRead *)
    intros [= <-]. apply (Hst (q s)); [done..| |done]. simpl. destruct Hok as (_ & _ & _ & Hl). by rewrite Hl.
  - (* PopClear *) intros [= <-]. by apply Hst.
  - (* PopStore *) intros [= <-]. by apply Hret.
  - (* PopClosed *)
    intros [= <-]. destruct (closed (q s)) eqn:Ec; [|by apply (Hst (q s))].
    unfold goto. rewrite (observe_run _ _ _ _ _ _ Ht), abs_move by done. unfold abs at 1. simpl. rewrite Ec. by eapply a_refused.
  - (* LenHead *) intros [= <-]. by apply (Hst (q s)).
  - (* LenTail *)
    intros [= <-]. unfold goto. rewrite (observe_run _ _ _ _ _ _ Ht), abs_move by done. eapply (a_len _ (contents (abs s))); [done|].
    case_decide; lia.
  - (* CloseStore *)
    intros [= <-]. unfold goto, with_q. simpl. rewrite (observe_run _ _ _ _ _ _ Ht), abs_move by done.
    by apply (a_close _ (contents (abs s)) (closed (q s))).
Qed.

Lemma step_refines s a s' :
  inv s → bounded s' → step zero s a = Some s' → astep C (abs s) (observe a s') (abs s').
Proof.
  intros Hs Hb. destruct a as [t o|t]; simpl; destruct (threads s !! t) as [p|] eqn:Ht; try done; simpl.
  - intros Hst. assert (s' = goto s t (start o) ∧ (p = Idle ∨ ∃ r, p = Done r)) as [-> Hp].
    { destruct p; simplify_eq; eauto. }
    unfold goto. rewrite abs_move by done.
    assert (abs_pc (log s) (start o) = APending o) as -> by (by destruct o).
    eapply (a_invoke _ (contents (abs s))); [simpl; rewrite list_lookup_fmap, Ht; done|].
    destruct Hp as [->|[r ->]]; eauto.
  - by apply run_refines.
Qed.

Lemma run_history_run s acts s' h :
  run_history zero s acts = Some (s', h) → run_steps (step zero) s acts = Some s'.
Proof.
  revert s h. induction acts as [|a acts IH]; intros s h; simpl; [by intros [= <- _]|].
  destruct (step zero s a) as [s1|]; [|done]; simpl.
  destruct (run_history zero s1 acts) as [[s2 h2]|] eqn:Er; [|done]. simpl. intros [= <- _]. by eapply IH.
Qed.

(** The history of a run is one of the specification. *)
Lemma runs_refine s acts s' h :
  inv s → run_history zero s acts = Some (s', h) → bounded s' → aruns C (abs s) h (abs s').
Proof.
  revert s h. induction acts as [|a acts IH]; intros s h Hs; simpl; [intros [= <- <-] _; apply aruns_nil|].
  destruct (step zero s a) as [s1|] eqn:Hst; [|done]; simpl.
  destruct (run_history zero s1 acts) as [[s2 h2]|] eqn:Er; [|done]. simpl. intros [= <- <-] Hb.
  assert (bounded s1) by (unfold bounded in *; apply run_history_run, runs_log_mono in Er; lia).
  econstructor; [by eapply step_refines|]. apply IH; [by eapply queue_step_inv|done..].
Qed.

(** ** Calls made while nobody holds a slot *)

(** No goroutine is between its claim and its hand-off. *)
Definition quiet s : Prop := ∀ pos, ¬ owned s pos.

Lemma queue_run1 s t p s1 acts :
  threads s !! t = Some p → run_thread zero s t p = Some s1 →
  run_steps (step zero) s (Run t :: acts) = run_steps (step zero) s1 acts.
Proof. intros Ht Hr. simpl. rewrite Ht; simpl. by rewrite Hr. Qed.

Lemma invoke1 s t p o acts :
  threads s !! t = Some p → (p = Idle ∨ ∃ r, p = Done r) →
  run_steps (step zero) s (Invoke t o :: acts) = run_steps (step zero) (goto s t (start o)) acts.
Proof. intros Ht Hp. simpl. rewrite Ht; simpl. by destruct Hp as [->|[r ->]]. Qed.

Lemma thread_set s t p p' q' lg :
  threads s !! t = Some p → threads (mkSys q' (<[t := p']> (threads s)) lg) !! t = Some p'.
Proof. intros Ht. simpl. apply list_lookup_insert_eq. by eapply lookup_lt_Some. Qed.

Lemma slot_set s pos sl :
  inv s → slot (set_slot (q s) pos sl) pos = Some sl.
Proof.
  intros Hs. pose proof (slot_Some s pos Hs) as Hsl. unfold slot, slotIdx in *; simpl.
  apply list_lookup_insert_eq. by eapply lookup_lt_Some.
Qed.

Lemma quiet_push_slot s :
  inv s → quiet s → H s - T s < C → sequence (cell s (H s)) = H s.
Proof.
  intros Hs Hq Hlt. pose proof C_range. destruct (inv_order _ Hs).
  destruct (inv_consumed _ Hs (H s - C)) as [Ho|Hc]; [lia|by destruct (Hq _ Ho)|].
  assert (cell s (H s) = cell s (H s - C)) as Heq; [|rewrite Heq; lia].
  unfold cell. do 3 f_equal. replace (H s) with (H s - C + 1 * C) at 1 by lia. apply Z.mod_add. lia.
Qed.

Lemma quiet_full_slot s :
  inv s → quiet s → H s - T s = C → sequence (cell s (H s)) = T s + 1.
Proof.
  intros Hs Hq Hfull. pose proof C_range. destruct (inv_order _ Hs).
  destruct (inv_pending _ Hs (T s)) as [Ho|[Hc _]]; [lia|by destruct (Hq _ Ho)|].
  assert (cell s (H s) = cell s (T s)) as Heq; [|by rewrite Heq].
  unfold cell. do 3 f_equal. replace (H s) with (T s + 1 * C) by lia. apply Z.mod_add. lia.
Qed.

Lemma quiet_push s t p try e :
  inv s → quiet s → H s + 1 < 2 ^ 62 → threads s !! t = Some p → (p = Idle ∨ ∃ r, p = Done r) →
  closed (q s) = false → H s - T s < C →
  ∃ s', run_steps (step zero) s (Invoke t (push_op try e) :: replicate 6 (Run t)) = Some s' ∧
    threads s' !! t = Some (Done RetOk) ∧ contents (abs s') = contents (abs s) ++ [e].
Proof.
  intros Hs Hq Hb Ht Hp Hcl Hlt. pose proof C_range. destruct (inv_order _ Hs).
  rewrite (invoke1 s t p) by done.
  assert (start (push_op try e) = PushClosed try e) as -> by (by destruct try).
  set (L := length (log s)).
  assert (∀ p', threads (goto s t p') !! t = Some p') as Hset by (intros; by eapply thread_set).
  assert (∀ p1 p2, goto (goto s t p1) t p2 = goto s t p2) as Hgg
    by (intros; unfold goto; simpl; by rewrite list_insert_insert_eq).
  simpl replicate.
  erewrite queue_run1; [|apply Hset|]; [|simpl; rewrite Hcl; by rewrite Hgg].
  erewrite queue_run1; [|apply Hset|]; [|simpl; rewrite Hgg, (inv_head _ Hs); done].
  erewrite queue_run1; [|apply Hset|].
  2: { cbn [run_thread]. change (q (goto s t _)) with (q s). rewrite (slot_Some s) by done. simpl.
       rewrite quiet_push_slot by done. rewrite diff_small by (unfold H in *; lia).
       rewrite decide_True by lia. by rewrite Hgg. }
  erewrite queue_run1; [|apply Hset|].
  2: { cbn [run_thread]. change (q (goto s t _)) with (q s).
       rewrite decide_True by apply (inv_head _ Hs). rewrite wadd_small by (unfold H in *; lia).
       simpl. by rewrite list_insert_insert_eq. }
  erewrite queue_run1; [|by eapply thread_set|].
  2: { cbn [run_thread]. simpl.
       change (slot (set_head (q s) (H s + 1)) (H s)) with (slot (q s) (H s)).
       rewrite (slot_Some s) by done. simpl. unfold goto, with_q; simpl. by rewrite list_insert_insert_eq. }
  erewrite queue_run1; [|by eapply thread_set|].
  2: { cbn [run_thread]. simpl.
       change (slot (set_slot (set_head (q s) (H s + 1)) (H s) ?sl) (H s))
         with (slot (set_slot (q s) (H s) sl) (H s)).
       rewrite slot_set by done. simpl. unfold goto, with_q; simpl. by rewrite list_insert_insert_eq. }
  eexists. split; [done|]. split; [by eapply thread_set|]. simpl.
  change (T (mkSys _ _ _)) with (T s). rewrite drop_app_le by (unfold H in *; lia). done.
Qed.

Lemma quiet_pop s t p :
  inv s → quiet s → bounded s → threads s !! t = Some p → (p = Idle ∨ ∃ r, p = Done r) → T s < H s →
  ∃ s' e, run_steps (step zero) s (Invoke t Pop :: replicate 6 (Run t)) = Some s' ∧
    threads s' !! t = Some (Done (RetEntry e)) ∧ contents (abs s) = e :: contents (abs s').
Proof.
  intros Hs Hq Hb Ht Hp Hlt. pose proof C_range. destruct (inv_order _ Hs). unfold bounded in Hb.
  destruct (inv_pending _ Hs (T s)) as [Ho|[Hseq [_ Hl]]]; [lia|by destruct (Hq _ Ho)|].
  rewrite (invoke1 s t p) by done. simpl start.
  assert (∀ p', threads (goto s t p') !! t = Some p') as Hset by (intros; by eapply thread_set).
  assert (∀ p1 p2, goto (goto s t p1) t p2 = goto s t p2) as Hgg
    by (intros; unfold goto; simpl; by rewrite list_insert_insert_eq).
  simpl replicate.
  erewrite queue_run1; [|apply Hset|]; [|simpl; rewrite Hgg; done].
  erewrite queue_run1; [|apply Hset|].
  2: { cbn [run_thread]. change (q (goto s t _)) with (q s). change (tail (q s)) with (T s).
       rewrite (slot_Some s) by done. simpl. rewrite Hseq, wadd_small, diff_small by lia.
       rewrite decide_True by lia. by rewrite Hgg. }
  erewrite queue_run1; [|apply Hset|].
  2: { cbn [run_thread]. change (q (goto s t _)) with (q s).
       rewrite decide_True by done. rewrite wadd_small by lia. unfold goto, with_q; simpl.
       by rewrite list_insert_insert_eq. }
  erewrite queue_run1; [|by eapply thread_set|].
  2: { cbn [run_thread]. simpl. change (slot (set_tail (q s) (T s + 1)) (T s)) with (slot (q s) (T s)).
       rewrite (slot_Some s) by done. unfold goto; simpl. by rewrite list_insert_insert_eq. }
  erewrite queue_run1; [|by eapply thread_set|].
  2: { cbn [run_thread]. simpl. change (slot (set_tail (q s) (T s + 1)) (T s)) with (slot (q s) (T s)).
       rewrite (slot_Some s) by done. simpl. unfold goto, with_q; simpl. by rewrite list_insert_insert_eq. }
  erewrite queue_run1; [|by eapply thread_set|].
  2: { cbn [run_thread]. simpl.
       change (slot (set_slot (set_tail (q s) (T s + 1)) (T s) ?sl) (T s))
         with (slot (set_slot (q s) (T s) sl) (T s)).
       rewrite slot_set by done. simpl. unfold goto, with_q; simpl. by rewrite list_insert_insert_eq. }
  eexists _, _. split; [done|]. split; [by eapply thread_set|]. simpl.
  change (T (mkSys _ _ _)) with (T s + 1). change (tail (q s)) with (T s).
  rewrite (drop_S _ _ _ Hl). replace (Z.to_nat (T s + 1)) with (S (Z.to_nat (T s))) by lia. done.
Qed.

Lemma quiet_push_full s t p e :
  inv s → quiet s → bounded s → threads s !! t = Some p → (p = Idle ∨ ∃ r, p = Done r) →
  closed (q s) = false → H s - T s = C →
  run_steps (step zero) s (Invoke t (TryPush e) :: replicate 3 (Run t)) = Some (goto s t (Done ErrQueueFull)).
Proof.
  intros Hs Hq Hb Ht Hp Hcl Hfull. pose proof C_range. destruct (inv_order _ Hs). unfold bounded in Hb.
  rewrite (invoke1 s t p) by done. simpl start.
  assert (∀ p', threads (goto s t p') !! t = Some p') as Hset by (intros; by eapply thread_set).
  assert (∀ p1 p2, goto (goto s t p1) t p2 = goto s t p2) as Hgg
    by (intros; unfold goto; simpl; by rewrite list_insert_insert_eq).
  simpl replicate.
  erewrite queue_run1; [|apply Hset|]; [|simpl; rewrite Hcl; by rewrite Hgg].
  erewrite queue_run1; [|apply Hset|]; [|simpl; rewrite Hgg, (inv_head _ Hs); done].
  erewrite queue_run1; [|apply Hset|]; [done|].
  cbn [run_thread]. change (q (goto s t _)) with (q s). rewrite (slot_Some s) by done. simpl.
  rewrite quiet_full_slot by done. rewrite diff_small by lia.
  rewrite decide_False, decide_True by lia. by rewrite Hgg.
Qed.

Lemma quiet_pop_empty s t p :
  inv s → quiet s → bounded s → threads s !! t = Some p → (p = Idle ∨ ∃ r, p = Done r) →
  closed (q s) = true → H s = T s →
  run_steps (step zero) s (Invoke t Pop :: replicate 3 (Run t)) = Some (goto s t (Done ErrQueueClosed)).
Proof.
  intros Hs Hq Hb Ht Hp Hcl Hempty. pose proof C_range. destruct (inv_order _ Hs). unfold bounded in Hb.
  assert (sequence (cell s (T s)) = T s) as Hseq by (rewrite <- Hempty; apply quiet_push_slot; [done..|lia]).
  rewrite (invoke1 s t p) by done. simpl start.
  assert (∀ p', threads (goto s t p') !! t = Some p') as Hset by (intros; by eapply thread_set).
  assert (∀ p1 p2, goto (goto s t p1) t p2 = goto s t p2) as Hgg
    by (intros; unfold goto; simpl; by rewrite list_insert_insert_eq).
  simpl replicate.
  erewrite queue_run1; [|apply Hset|]; [|simpl; rewrite Hgg; done].
  erewrite queue_run1; [|apply Hset|].
  2: { cbn [run_thread]. change (q (goto s t _)) with (q s). change (tail (q s)) with (T s).
       rewrite (slot_Some s) by done. simpl. rewrite Hseq, wadd_small, diff_small by lia.
       rewrite decide_False, decide_True by lia. by rewrite Hgg. }
  erewrite queue_run1; [|apply Hset|]; [done|]. simpl. rewrite Hcl. by rewrite Hgg.
Qed.
End theory.

(** ** The queue as the code constructs and runs it *)

Section runs.
Context {E : Type} (zero : E).

Lemma pow2_loop_huge turns j n :
  1 ≤ j → j + Z.of_nat turns = 63 → 2 ^ 62 < n → pow2_loop turns (2 ^ j) n = None.
Proof.
  revert j. induction turns as [|turns IH]; intros j Hj Ht Hn; simpl; [done|].
  assert (2 ^ j ≤ 2 ^ 62) by (apply Z.pow_le_mono_r; lia). rewrite decide_True by lia.
  destruct turns as [|turns]; [done|].
  assert (2 ^ (j + 1) ≤ 2 ^ 62) by (apply Z.pow_le_mono_r; lia).
  assert (0 < 2 ^ j) by (apply Z.pow_pos_nonneg; lia).
  assert (2 ^ (j + 1) = 2 ^ j * 2) as Hp by (rewrite Z.pow_add_r by lia; lia).
  rewrite Z.shiftl_mul_pow2 by lia. change (2 ^ 1) with 2.
  rewrite Z.mod_small by lia. rewrite to_i64_small by lia. rewrite <- Hp. apply IH; lia.
Qed.

Lemma New_fresh capacity queue :
  NewSessionEntryQueue zero capacity = Some queue →
  ∃ k, 1 ≤ k ≤ 62 ∧ queue = fresh zero k ∧ Cap queue = 2 ^ k ∧ capacity ≤ 2 ^ k.
Proof.
  unfold NewSessionEntryQueue. destruct (decide (1 ≤ capacity ≤ 2 ^ 62)) as [Hc|Hc].
  - destruct (nextPow2_power capacity Hc) as (k & Hk & -> & Hle & _). simpl. intros [= <-].
    pose proof (C_range k Hk). exists k. split_and!; [lia..|done| |done].
    unfold Cap; simpl. rewrite wadd_small by lia. rewrite to_i64_small by lia. lia.
  - unfold nextPow2. case_decide; [done|]. change 2 with (2 ^ 1) at 1.
    by rewrite pow2_loop_huge by lia.
Qed.

(** The states a program with [n] goroutines can reach on a new queue. *)
Definition reaches (queue : SessionEntryQueue E) (n : nat) (s : sys E) : Prop :=
  ∃ acts, run_steps (step zero) (boot queue n) acts = Some s.

Lemma queue_reaches_inv k n s :
  1 ≤ k ≤ 62 → reaches (fresh zero k) n s → bounded s → inv zero k s.
Proof. intros Hk [acts Hr] Hb. eapply runs_inv; [done|by apply boot_inv|done..]. Qed.

(** C3: The queue is linearizable to a bounded first-in first-out queue. Along every
    interleaving of any number of goroutines, with fewer than [2^62] pushes, the
    history of the run, every call with its argument and every return with its value
    in the order in which they happen, is a history of the abstract queue, in which
    each push appends its entry at one instant and only below the capacity, each
    pop takes the oldest entry at one instant and returns exactly it; and the
    abstract contents, the entries claimed by pushes and not yet by pops, never exceed
    the capacity: no entry is lost, duplicated, reordered or torn. *)
Theorem queue_refines_fifo capacity queue n acts s history :
  NewSessionEntryQueue zero capacity = Some queue →
  run_history zero (boot queue n) acts = Some (s, history) → bounded s →
  capacity ≤ Cap queue ∧
  aruns (Cap queue) (mkAbs [] false (replicate n AIdle)) history (abs s) ∧
  Z.of_nat (length (contents (abs s))) ≤ Cap queue.
Proof.
  intros (k & Hk & -> & -> & Hle)%New_fresh Hr Hb.
  assert (inv zero k s) as Hs.
  { apply (queue_reaches_inv k n s Hk); [|done]. exists acts. by eapply run_history_run. }
  split; [done|]. split.
  - replace (mkAbs [] false (replicate n AIdle)) with (abs (boot (fresh zero k) n))
      by (unfold abs; simpl; by rewrite fmap_replicate).
    by eapply runs_refine; [done|apply boot_inv|..].
  - rewrite (contents_length zero k) by done. destruct (inv_order _ _ _ Hs). lia.
Qed.

(** The plain (non-atomic) access to a slot's entry a goroutine is about to make. *)
Definition accesses (p : pc E) : option Z :=
  match p with
  | PushWrite _ pos | PopRead pos | PopClear pos _ => Some pos
  | _ => None
  end.

(** The plain accesses to [slot.entry] are race-free: in no reachable state
    are two goroutines both about to touch the entry of one slot, and each such
    access is in bounds. *)
Theorem entry_accesses_race_free capacity queue n s t t' p p' pos pos' :
  NewSessionEntryQueue zero capacity = Some queue → reaches queue n s → bounded s →
  threads s !! t = Some p → threads s !! t' = Some p' →
  accesses p = Some pos → accesses p' = Some pos' →
  (slotIdx (q s) pos = slotIdx (q s) pos' → t = t') ∧ is_Some (slot (q s) pos).
Proof.
  intros (k & Hk & -> & _)%New_fresh Hr Hb Ht Ht' Ha Ha'.
  pose proof (queue_reaches_inv k n s Hk Hr Hb) as Hs. split; [|by rewrite (slot_Some zero k)].
  rewrite !(slotIdx_eq zero k) by done. intros Hidx.
  assert (owns p pos ∧ owns p' pos') as [Ho Ho'] by (by destruct p, p'; simplify_eq/=).
  destruct (decide (t' = t)) as [|Hne]; [done|].
  pose proof (C_range k Hk).
  pose proof (Z.mod_pos_bound pos (2 ^ k)). pose proof (Z.mod_pos_bound pos' (2 ^ k)).
  destruct (owned_private zero k Hk s t p t' p' pos pos' Hs Ht Ho Ht' Hne); [by left|lia].
Qed.

(** A call made while no goroutine holds a slot is a plain queue operation
    and finishes by itself: a push below capacity appends, a [TryPush] at
    capacity reports [ErrQueueFull] and changes nothing, a pop of a non-empty
    queue returns its oldest entry, and a pop of a closed empty queue reports
    [ErrQueueClosed]. *)
Theorem quiet_calls_succeed capacity queue n s t p e :
  NewSessionEntryQueue zero capacity = Some queue → reaches queue n s → H s + 1 < 2 ^ 62 →
  quiet s → threads s !! t = Some p → (p = Idle ∨ ∃ r, p = Done r) →
  (closed (q s) = false → Z.of_nat (length (contents (abs s))) < Cap queue →
    ∀ try, ∃ s', run_steps (step zero) s (Invoke t (push_op try e) :: replicate 6 (Run t)) = Some s' ∧
      threads s' !! t = Some (Done RetOk) ∧ contents (abs s') = contents (abs s) ++ [e]) ∧
  (closed (q s) = false → Z.of_nat (length (contents (abs s))) = Cap queue →
    run_steps (step zero) s (Invoke t (TryPush e) :: replicate 3 (Run t)) = Some (goto s t (Done ErrQueueFull))) ∧
  (contents (abs s) ≠ [] →
    ∃ s' e', run_steps (step zero) s (Invoke t Pop :: replicate 6 (Run t)) = Some s' ∧
      threads s' !! t = Some (Done (RetEntry e')) ∧ contents (abs s) = e' :: contents (abs s')) ∧
  (contents (abs s) = [] → closed (q s) = true →
    run_steps (step zero) s (Invoke t Pop :: replicate 3 (Run t)) = Some (goto s t (Done ErrQueueClosed))).
Proof.
  intros (k & Hk & -> & -> & _)%New_fresh Hr Hb Hq Ht Hp.
  assert (bounded s) as Hb' by (unfold bounded; lia).
  pose proof (queue_reaches_inv k n s Hk Hr Hb') as Hs. pose proof (contents_length zero k Hk s Hs) as Hlen.
  rewrite Hlen. split_and!.
  - intros. by eapply (quiet_push zero k).
  - intros. by eapply (quiet_push_full zero k).
  - intros Hne. eapply (quiet_pop zero k); [done..|]. destruct (contents (abs s)); [done|].
    rewrite length_cons in Hlen. lia.
  - intros Hnil Hcl. rewrite Hnil in Hlen. simpl in Hlen. eapply (quiet_pop_empty zero k); [done..|lia].
Qed.
End runs.

(** ** Concrete runs *)

Definition demo_queue : SessionEntryQueue nat := fresh 0%nat 1.

Example demo_new : NewSessionEntryQueue 0%nat 1 = Some demo_queue.
Proof. vm_compute. reflexivity. Qed.

(** Goroutine 0 pops, goroutine 1 pushes and then closes. The consumer reads
    the slot while it is empty, the push completes and returns nil, the queue
    is closed, and the consumer's next load of the flag makes it report
    [ErrQueueClosed] although an accepted entry is queued. *)
Definition lost_entry : list (action nat) :=
  [Invoke 0 Pop; Run 0; Run 0; Invoke 1 (Push 7%nat); Run 1; Run 1; Run 1; Run 1; Run 1; Run 1;
   Invoke 1 Close; Run 1; Run 0]%nat.

Example pop_closed_before_drained :
  (λ s, (threads s, contents (abs s))) <$> run_steps (step 0%nat) (boot demo_queue 2) lost_entry
  = Some ([Done ErrQueueClosed; Done RetOk], [7%nat]).
Proof. vm_compute. reflexivity. Qed.

(** Two producers race for the first slot of an empty queue of capacity two:
    the loser of the compare-and-swap reports [ErrQueueFull]. *)
Definition lost_race : list (action nat) :=
  [Invoke 0 (TryPush 7); Run 0; Run 0; Run 0; Invoke 1 (TryPush 8); Run 1; Run 1; Run 1;
   Run 0; Run 1]%nat.

Example try_push_full_below_capacity :
  (λ s, (threads s !! 1%nat, contents (abs s))) <$> run_steps (step 0%nat) (boot demo_queue 2) lost_race
  = Some (Some (Done ErrQueueFull), [7%nat]).
Proof. vm_compute. reflexivity. Qed.

Definition demo_run : list (action nat) :=
  [Invoke 0 (Push 7); Run 0; Run 0; Run 0; Run 0; Invoke 1 (Push 8); Run 1; Run 1; Run 1; Run 1;
   Run 1; Run 0; Run 1; Run 0]%nat.
Definition demo_state : sys nat :=
  Eval vm_compute in default (boot demo_queue 2) (run_steps (step 0%nat) (boot demo_queue 2) demo_run).

Lemma queue_demo_reaches : reaches 0%nat demo_queue 2 demo_state.
Proof. exists demo_run. vm_compute. reflexivity. Defined.

Lemma nextPow2_smallest_witness : 5 ≤ 2 ^ 62 ∧ ∃ k, nextPow2 5 = Some (2 ^ k) ∧ 5 ≤ 2 ^ k.
Proof.
  split; [lia|]. destruct (nextPow2_smallest 5) as [_ Hn]; [lia|].
  destruct Hn as (k & _ & Hk & Hle & _); [lia|]. exists k. by split.
Defined.

(** Both pushes return, the entries are claimed and returned in their order. *)
Definition demo_pops : list (action nat) :=
  demo_run ++ [Invoke 1 Pop; Invoke 0 Pop; Run 0; Run 0; Run 0; Run 1; Run 1; Run 1; Run 1; Run 1; Run 1; Run 0; Run 0; Run 0]%nat.
Definition demo_history : list (event nat) :=
  [Called 0 (Push 7); Called 1 (Push 8); Returned 1 RetOk; Returned 0 RetOk; Called 1 Pop; Called 0 Pop;
   Returned 1 (RetEntry 8); Returned 0 (RetEntry 7)]%nat.
Definition demo_popped : sys nat :=
  Eval vm_compute in default (boot demo_queue 2) (run_steps (step 0%nat) (boot demo_queue 2) demo_pops).

Lemma queue_refines_fifo_witness :
  contents (abs demo_popped) = [] ∧
  aruns 2 (mkAbs [] false (replicate 2 AIdle)) demo_history (abs demo_popped).
Proof.
  split; [vm_compute; reflexivity|].
  destruct (queue_refines_fifo 0%nat 1 demo_queue 2 demo_pops demo_popped demo_history) as (_ & Hr & _).
  - exact demo_new.
  - vm_compute. reflexivity.
  - vm_compute. reflexivity.
  - exact Hr.
Defined.

Definition racing_state : sys nat :=
  Eval vm_compute in default (boot demo_queue 2)
    (run_steps (step 0%nat) (boot demo_queue 2) (take 10 demo_run)).

Lemma entry_accesses_race_free_witness :
  threads racing_state = [PushWrite 7%nat 0; PushWrite 8%nat 1] ∧
  is_Some (slot (q racing_state) 0).
Proof.
  split; [vm_compute; reflexivity|].
  apply (entry_accesses_race_free 0%nat 1 demo_queue 2 racing_state 0 1
    (PushWrite 7%nat 0) (PushWrite 8%nat 1) 0 1).
  - exact demo_new.
  - exists (take 10 demo_run). vm_compute. reflexivity.
  - vm_compute. reflexivity.
  - vm_compute. reflexivity.
  - vm_compute. reflexivity.
  - reflexivity.
  - reflexivity.
Defined.

Lemma quiet_calls_succeed_witness :
  run_steps (step 0%nat) demo_state (Invoke 0 (TryPush 9%nat) :: replicate 3 (Run 0))%nat =
  Some (goto demo_state 0 (Done ErrQueueFull)).
Proof.
  apply (quiet_calls_succeed 0%nat 1 demo_queue 2 demo_state 0 (Done RetOk) 9%nat).
  - exact demo_new.
  - exact queue_demo_reaches.
  - vm_compute. reflexivity.
  - intros pos (t & p & Ht & Ho). destruct t as [|[|t]]; vm_compute in Ht; by simplify_eq.
  - vm_compute. reflexivity.
  - right. by eexists.
  - vm_compute. reflexivity.
  - vm_compute. reflexivity.
Defined.
