(* ===== verification/Staging.v ===== *)
(** * The staging buffer and its byte arena ([internal/ingest/parallel.go])

    Producers copy a transcript into a ring of bytes, claim a slot and publish
    it; the drainer returns published slots whose operational parent is
    committed or failed and acknowledges them, which frees their bytes.  Every
    atomic load, compare-and-swap and store of a producer is one step; the
    drainer's calls and each acknowledgement are one step each, and
    [releaseArena] is one step because it runs under its mutex.  Arena
    coordinates grow without bound, so they are plain integers. *)
From S2P Require Import Prelude GoStrings Selection.
Local Open Scope string_scope.
Local Open Scope list_scope.
Local Open Scope Z_scope.

(** ** Arena sizes *)

Definition DefaultArenaSizeBytes : Z := 2 * 1024 * 1024 * 1024.
Definition DefaultMaxDrainBatch : nat := 512.

Fixpoint digits_value (acc : Z) (s : string) : option Z :=
  match s with
  | EmptyString => Some acc
  | String c s =>
    let d := Z.of_N (Ascii.N_of_ascii c) - 48 in
    if decide (0 ≤ d ≤ 9) then digits_value (10 * acc + d) s else None
  end.

Definition unsigned_decimal (s : string) : option Z :=
  match s with EmptyString => None | _ => digits_value 0 s end.

(** [strconv.ParseInt(s, 10, 64)], without the error's kind. *)
Definition ParseInt64 (s : string) : option Z :=
  match s with
  | EmptyString => None
  | String c rest =>
    let magnitude :=
      if decide (c = byte 45) then Z.opp <$> unsigned_decimal rest
      else if decide (c = byte 43) then unsigned_decimal rest
      else unsigned_decimal s in
    n ← magnitude; if decide (- 2 ^ 63 ≤ n < 2 ^ 63) then Some n else None
  end.

(** [env] is the value of [PEASANT_INGEST_ARENA_BYTES], empty when unset. *)
Definition resolveArenaSizeBytes (env : string) (def : Z) : Z :=
  if decide (env ≠ "") then
    match ParseInt64 env with
    | Some n => if decide (0 < n) then n else def
    | None => def
    end
  else def.

Definition stagingArenaSize (env : string) (arenaSizeBytes : Z) : Z :=
  if decide (0 < arenaSizeBytes) then arenaSizeBytes else resolveArenaSizeBytes env DefaultArenaSizeBytes.

Section staging.
Context {B : Type} (zero : B).

(** ** Data *)

(** A Go slice of bytes: the producer's own, or a window of the arena. *)
Inductive slice :=
  | Own (data : list B)
  | InArena (phys len : Z).

(** The fields of [workerResult] the buffer reads or writes; [meta] is nil or
    carries its nilable [ParentUUID]. [payload] is ghost state: the bytes the
    producer passed to [Add]. *)
Record workerResult := mkResult {
  SessionID_ : SessionID;
  transcriptData : slice;
  artifact : option slice;
  meta : option (option SessionID);
  schedulingParentID : option SessionID;
  schedulingResolved : bool;
  payload : list B;
}.

Record stagedEntry := mkStaged {
  result : workerResult;
  arenaStart : Z;
  arenaLen : Z;
  arenaPad : Z;
}.

Definition zeroResult : workerResult := mkResult "" (Own []) None None None false [].
Definition zeroEntry : stagedEntry := mkStaged zeroResult 0 0 0.

Inductive slotState := Empty | Ready | Claimed | Acked.
#[export] Instance slotState_eq_dec : EqDecision slotState.
Proof. solve_decision. Defined.

(** Where a producer stands inside [Add]. *)
Inductive producer :=
  | Idle
  | Returned (ok : bool)
  | LoadTail (r : workerResult)
  | LoadHead (r : workerResult) (tail : Z)
  | Reserve (r : workerResult) (tail head : Z)
  | Waiting (r : workerResult)
  | Copying (r : workerResult) (start pad : Z)
  | LoadCount (r : workerResult) (aStart aLen aPad : Z)
  | CasCount (r : workerResult) (aStart aLen aPad : Z) (idx : nat)
  | WriteSlot (idx : nat) (e : stagedEntry)
  | Publish (idx : nat) (e : stagedEntry).

(** [batches] are the drained batches not fully acknowledged; [ready] is the
    capacity-one wake token. *)
Record StagingBuffer := mkBuffer {
  slots : list stagedEntry;
  state : list slotState;
  count : nat;
  arena : list B;
  arenaHead : Z;
  arenaTail : Z;
  committed : gset SessionID;
  failed : gset SessionID;
  released : gmap Z Z;
  ready : bool;
  producers : list producer;
  batches : list (list nat);
}.

(** [None] is the constructor's panic. *)
Definition NewStagingBuffer (capacity : Z) (arenaSizeBytes : Z) (workers : nat) : option StagingBuffer :=
  if decide (capacity < 1) then None
  else if decide (arenaSizeBytes < 1) then None
  else Some (mkBuffer (replicate (Z.to_nat capacity) zeroEntry) (replicate (Z.to_nat capacity) Empty) 0
    (replicate (Z.to_nat arenaSizeBytes) zero) 0 0 ∅ ∅ ∅ false (replicate workers Idle) []).

Definition arenaSize (b : StagingBuffer) : Z := Z.of_nat (length (arena b)).
Definition Cap (b : StagingBuffer) : nat := length (slots b).
Definition ArenaUsed (b : StagingBuffer) : Z :=
  let used := arenaHead b - arenaTail b in if decide (used < 0) then 0 else used.
Definition Len (b : StagingBuffer) : nat :=
  length (filter (λ st, st ≠ Acked) (take (count b) (state b))).

(** ** The arena *)

(** [for { next, ok := b.released[tail]; ... }]: each turn deletes a key. *)
Fixpoint advance (fuel : nat) (released : gmap Z Z) (tail : Z) : gmap Z Z * Z :=
  match fuel with
  | O => (released, tail)
  | S fuel =>
    match released !! tail with
    | None => (released, tail)
    | Some next => advance fuel (delete tail released) next
    end
  end.

Definition releaseArena (b : StagingBuffer) (start fin : Z) : StagingBuffer :=
  let released' := <[start := fin]> (released b) in
  let '(released', tail') := advance (size released') released' (arenaTail b) in
  mkBuffer (slots b) (state b) (count b) (arena b) (arenaHead b) tail' (committed b) (failed b)
    released' (ready b) (producers b) (batches b).

(** The wrap gap a claim of [sz] bytes at [head] has to skip. *)
Definition wrapGap (arenaSize head sz : Z) : Z :=
  let physStart := head mod arenaSize in
  if decide (arenaSize < physStart + sz) then arenaSize - physStart else 0.

(** [copy(b.arena[phys:phys+sz], src)]. *)
Definition copyBytes (a : list B) (phys : Z) (src : list B) : list B :=
  take (Z.to_nat phys) a ++ src ++ drop (Z.to_nat phys + length src) a.

(** ** Producers *)

Definition set_producer (b : StagingBuffer) (t : nat) (p : producer) : StagingBuffer :=
  mkBuffer (slots b) (state b) (count b) (arena b) (arenaHead b) (arenaTail b) (committed b) (failed b)
    (released b) (ready b) (<[t := p]> (producers b)) (batches b).

(** The result as [Add] stores it after a copy. *)
Definition inArena (arenaSize : Z) (r : workerResult) (start : Z) : workerResult :=
  let view := InArena (start mod arenaSize) (Z.of_nat (length (payload r))) in
  mkResult (SessionID_ r) view ((λ _, view) <$> artifact r) (meta r)
    (schedulingParentID r) (schedulingResolved r) (payload r).

(** The start of [Add] and [copyToArena]; [None] is the panic on a transcript
    larger than the arena. *)
Definition startAdd (b : StagingBuffer) (r : workerResult) : option producer :=
  let sz := Z.of_nat (length (payload r)) in
  if decide (sz = 0) then Some (LoadCount r (-1) 0 0)
  else if decide (arenaSize b < sz) then None
  else Some (LoadTail r).

(** One access of a producer; [Waiting] moves only by [Wake] or [CtxDone]. *)
Definition run_producer (b : StagingBuffer) (t : nat) (p : producer) : option StagingBuffer :=
  match p with
  | Idle | Returned _ | Waiting _ => None
  | LoadTail r => Some (set_producer b t (LoadHead r (arenaTail b)))
  | LoadHead r tail => Some (set_producer b t (Reserve r tail (arenaHead b)))
  | Reserve r tail head =>
    let sz := Z.of_nat (length (payload r)) in
    let free := arenaSize b - (head - tail) in
    let gap := wrapGap (arenaSize b) head sz in
    let claim := gap + sz in
    if decide (claim ≤ free) then
      if decide (arenaHead b = head) then
        Some (mkBuffer (slots b) (state b) (count b) (arena b) (head + claim) (arenaTail b) (committed b)
          (failed b) (released b) (ready b) (<[t := Copying r (head + gap) gap]> (producers b)) (batches b))
      else Some (set_producer b t (LoadTail r))
    else Some (set_producer b t (Waiting r))
  | Copying r start pad =>
    Some (mkBuffer (slots b) (state b) (count b)
      (copyBytes (arena b) (start mod arenaSize b) (payload r)) (arenaHead b) (arenaTail b) (committed b)
      (failed b) (released b) (ready b)
      (<[t := LoadCount (inArena (arenaSize b) r start) start (Z.of_nat (length (payload r))) pad]> (producers b))
      (batches b))
  | LoadCount r aStart aLen aPad => Some (set_producer b t (CasCount r aStart aLen aPad (count b)))
  | CasCount r aStart aLen aPad idx =>
    if decide (length (slots b) ≤ idx)%nat then
      let b := set_producer b t (Returned false) in
      Some (if decide (0 < aLen) then releaseArena b (aStart - aPad) (aStart + aLen) else b)
    else if decide (count b = idx) then
      Some (mkBuffer (slots b) (state b) (S idx) (arena b) (arenaHead b) (arenaTail b) (committed b)
        (failed b) (released b) (ready b)
        (<[t := WriteSlot idx (mkStaged r aStart aLen aPad)]> (producers b)) (batches b))
    else Some (set_producer b t (LoadCount r aStart aLen aPad))
  | WriteSlot idx e =>
    Some (mkBuffer (<[idx := e]> (slots b)) (state b) (count b) (arena b) (arenaHead b) (arenaTail b)
      (committed b) (failed b) (released b) (ready b) (<[t := Publish idx e]> (producers b)) (batches b))
  | Publish idx e =>
    Some (mkBuffer (slots b) (<[idx := Ready]> (state b)) (count b) (arena b) (arenaHead b) (arenaTail b)
      (committed b) (failed b) (released b) true (<[t := Returned true]> (producers b)) (batches b))
  end.

(** ** The drainer *)

Definition isEligible (b : StagingBuffer) (r : workerResult) : bool :=
  if schedulingResolved r then
    match schedulingParentID r with
    | None => true
    | Some p => bool_decide (p ∈ committed b) || bool_decide (p ∈ failed b)
    end
  else
    match meta r with
    | None | Some None => true
    | Some (Some p) => bool_decide (p ∈ committed b) || bool_decide (p ∈ failed b)
    end.

(** [for i := 0; i < n; i++]: the claimed indices so far. *)
Fixpoint drain_scan (b : StagingBuffer) (i : nat) (rest : list (slotState * stagedEntry))
    (claimed : list nat) : list nat :=
  match rest with
  | [] => claimed
  | (st, se) :: rest =>
    if decide (DefaultMaxDrainBatch ≤ length claimed)%nat then claimed
    else if decide (st ≠ Ready) then drain_scan b (S i) rest claimed
    else if negb (isEligible b (result se)) then drain_scan b (S i) rest claimed
    else drain_scan b (S i) rest (claimed ++ [i])
  end.

Definition drainIndices (b : StagingBuffer) : list nat :=
  drain_scan b 0 (take (count b) (zip (state b) (slots b))) [].

(** The batch's results and the buffer with its slots claimed. *)
Definition Drain (b : StagingBuffer) : list workerResult * StagingBuffer :=
  let claimed := drainIndices b in
  (omap (λ i, result <$> slots b !! i) claimed,
   mkBuffer (slots b) (foldr (λ i st, <[i := Claimed]> st) (state b) claimed) (count b) (arena b)
     (arenaHead b) (arenaTail b) (committed b) (failed b) (released b) (ready b) (producers b)
     (batches b ++ [claimed])).

Definition Commit (b : StagingBuffer) (ids : list SessionID) : StagingBuffer :=
  mkBuffer (slots b) (state b) (count b) (arena b) (arenaHead b) (arenaTail b)
    (committed b ∪ list_to_set ids) (failed b) (released b) (ready b) (producers b) (batches b).

Definition MarkFailed (b : StagingBuffer) (ids : list SessionID) : StagingBuffer :=
  mkBuffer (slots b) (state b) (count b) (arena b) (arenaHead b) (arenaTail b) (committed b)
    (failed b ∪ list_to_set ids) (released b) (ready b) (producers b) (batches b).

(** One turn of the loop of [AckBatch] on batch [k]. *)
Definition ackOne (b : StagingBuffer) (k : nat) : option StagingBuffer :=
  batch ← batches b !! k;
  match batch with
  | [] => None
  | idx :: batch =>
    slot ← slots b !! idx;
    let b := mkBuffer (slots b) (<[idx := Acked]> (state b)) (count b) (arena b) (arenaHead b) (arenaTail b)
      (committed b) (failed b) (released b) (ready b) (producers b) (<[k := batch]> (batches b)) in
    Some (if decide (0 < arenaLen slot)
          then releaseArena b (arenaStart slot - arenaPad slot) (arenaStart slot + arenaLen slot) else b)
  end.

(** ** The machine *)

Inductive action :=
  | Add (t : nat) (r : workerResult)
  | Run (t : nat)
  | Wake (t : nat)
  | CtxDone (t : nat)
  | DoDrain
  | DoCommit (ids : list SessionID)
  | DoMarkFailed (ids : list SessionID)
  | DoAck (k : nat).

Definition step (b : StagingBuffer) (a : action) : option StagingBuffer :=
  match a with
  | Add t r =>
    p ← producers b !! t;
    match p with
    | Idle | Returned _ =>
      match transcriptData r with
      | Own data =>
        q ← startAdd b (mkResult (SessionID_ r) (Own data) (artifact r) (meta r)
                          (schedulingParentID r) (schedulingResolved r) data);
        Some (set_producer b t q)
      | InArena _ _ => None
      end
    | _ => None
    end
  | Run t => p ← producers b !! t; run_producer b t p
  | Wake t =>
    match producers b !! t with
    | Some (Waiting r) => Some (set_producer b t (LoadTail r))
    | _ => None
    end
  | CtxDone t =>
    match producers b !! t with
    | Some (Waiting r) => Some (set_producer b t (LoadCount r (-1) 0 0))
    | _ => None
    end
  | DoDrain => Some (snd (Drain b))
  | DoCommit ids => Some (Commit b ids)
  | DoMarkFailed ids => Some (MarkFailed b ids)
  | DoAck k => ackOne b k
  end.

(** The bytes a slice denotes now. *)
Definition deref (b : StagingBuffer) (s : slice) : list B :=
  match s with
  | Own data => data
  | InArena phys len => take (Z.to_nat len) (drop (Z.to_nat phys) (arena b))
  end.
End staging.
Arguments slice : clear implicits.
Arguments workerResult : clear implicits.
Arguments stagedEntry : clear implicits.
Arguments producer : clear implicits.
Arguments StagingBuffer : clear implicits.
Arguments action : clear implicits.

(** * Theorems *)

(** ** The environment override *)

(** The arena size always resolves to a usable capacity: an explicit option
    wins, else a positive decimal in the environment that fits [int64], else
    the default; anything else in the environment is ignored, never an error. *)
Theorem stagingArenaSize_positive env opt :
  0 < stagingArenaSize env opt ∧
  (0 < opt → stagingArenaSize env opt = opt) ∧
  (opt ≤ 0 → (∀ n, ParseInt64 env = Some n → 0 < n → stagingArenaSize env opt = n) ∧
    ((∀ n, ParseInt64 env = Some n → n ≤ 0) → stagingArenaSize env opt = DefaultArenaSizeBytes)) ∧
  (stagingArenaSize env opt = opt ∨ stagingArenaSize env opt < 2 ^ 63).
Proof.
  assert (∀ s n, ParseInt64 s = Some n → s ≠ "" ∧ n < 2 ^ 63) as Hparse.
  { intros [|c s] n; simpl; [done|]. intros (m & _ & Hm)%bind_Some. split; [done|].
    case_decide; simplify_eq. lia. }
  unfold stagingArenaSize, resolveArenaSizeBytes, DefaultArenaSizeBytes. case_decide as Hopt.
  { split_and!; [done|done|lia|by left]. }
  destruct (decide (env ≠ "")) as [Henv|Henv].
  - destruct (ParseInt64 env) as [n|] eqn:Hn.
    + apply Hparse in Hn as [_ ?].
      case_decide; (split_and!; [lia|lia| |lia || (right; lia)]);
        intros _; (split; [intros ? [= ->]; lia|]); intros Hle; specialize (Hle n eq_refl); lia.
    + split_and!; [done|lia|by intros _|right; lia].
  - apply dec_stable in Henv as ->. split_and!; [done|lia|by intros _|right; lia].
Qed.

(** ** Chains of spans *)

(** Spans laid end to end from [a] to [z]. *)
Fixpoint chain (a z : Z) (c : list (Z * Z)) : Prop :=
  match c with
  | [] => a = z
  | (s, e) :: c => s = a ∧ a < e ∧ chain e z c
  end.

Lemma chain_le a z c : chain a z c → a ≤ z.
Proof. revert a. induction c as [|[s e] c IH]; intros a; simpl; [lia|]. intros (-> & ? & ?%IH). lia. Qed.

Lemma chain_elem a z c s e : chain a z c → (s, e) ∈ c → a ≤ s ∧ s < e ∧ e ≤ z.
Proof.
  revert a. induction c as [|[s' e'] c IH]; intros a; simpl; [set_solver|].
  intros (-> & ? & Hc) [[= -> ->]|Hin]%elem_of_cons; [by apply chain_le in Hc; lia|].
  destruct (IH _ Hc Hin) as (? & ? & ?). lia.
Qed.

Lemma chain_snoc a z c e : chain a z c → z < e → chain a e (c ++ [(z, e)]).
Proof.
  revert a. induction c as [|[s' e'] c IH]; intros a; simpl; [intros -> ?; by split_and!|].
  intros (-> & ? & ?) ?. split_and!; [done..|by apply IH].
Qed.

(** Two spans do not overlap. *)
Definition apart (x y : Z * Z) : Prop := x.2 ≤ y.1 ∨ y.2 ≤ x.1.

Lemma chain_apart a z c : chain a z c → pairwise apart c.
Proof.
  revert a. induction c as [|[s e] c IH]; intros a; simpl; [done|]. intros (-> & ? & Hc).
  split; [|by eapply IH]. apply Forall_forall. intros [s' e'] Hin.
  destruct (chain_elem _ _ _ _ _ Hc Hin) as (? & ? & ?). left. simpl. lia.
Qed.

Lemma chain_others_apart a z c x l y :
  chain a z c → c ≡ₚ x :: l → y ∈ l → apart x y.
Proof.
  intros Hc Hp Hy. apply chain_apart in Hc.
  destruct (pairwise_perm apart c (x :: l)) as [Hx _]; [by intros ?? []; [right|left]|done..|].
  by eapply Forall_forall in Hx.
Qed.

Lemma chain_advance fuel a z c sp (rel : gmap Z Z) :
  chain a z c → c ≡ₚ sp ++ map_to_list rel → (size rel ≤ fuel)%nat →
  let '(rel', a') := advance fuel rel a in
  a ≤ a' ∧ rel' !! a' = None ∧ ∃ c', chain a' z c' ∧ c' ≡ₚ sp ++ map_to_list rel'.
Proof.
  revert a c rel. induction fuel as [|fuel IH]; intros a c rel Hc Hp Hsz; simpl.
  { assert (rel = ∅) as -> by (apply map_size_empty_inv; lia).
    split_and!; [done|by rewrite lookup_empty|by exists c]. }
  destruct (rel !! a) as [next|] eqn:Ha; [|split_and!; [done..|by exists c]].
  assert (map_to_list rel ≡ₚ (a, next) :: map_to_list (delete a rel)) as Hd
    by (symmetry; by apply map_to_list_delete).
  assert ((a, next) ∈ c) as Hin by (rewrite Hp, Hd; set_solver).
  destruct c as [|[s e] c]; [set_solver|]. destruct Hc as (-> & Hlt & Hc).
  assert (e = next) as ->.
  { apply elem_of_cons in Hin as [[= ->]|Hin]; [done|].
    destruct (chain_elem _ _ _ _ _ Hc Hin) as (? & ? & ?). lia. }
  assert (c ≡ₚ sp ++ map_to_list (delete a rel)) as Hp'.
  { apply (Permutation_cons_inv (a := (a, next))). rewrite Hp, Hd. by rewrite <- Permutation_middle. }
  specialize (IH next c (delete a rel) Hc Hp').
  assert (size (delete a rel) ≤ fuel)%nat as Hsz'.
  { rewrite map_size_delete_Some by done. lia. }
  specialize (IH Hsz'). destruct (advance fuel (delete a rel) next) as [rel' a'].
  destruct IH as (? & ? & ?). split_and!; [lia|done|done].
Qed.

(** Recording a released span and advancing keeps the chain. *)
Lemma chain_release a z c s e sp (rel : gmap Z Z) :
  chain a z c → c ≡ₚ (s, e) :: sp ++ map_to_list rel →
  let rel1 := <[s := e]> rel in
  let '(rel', a') := advance (size rel1) rel1 a in
  a ≤ a' ∧ rel' !! a' = None ∧ ∃ c', chain a' z c' ∧ c' ≡ₚ sp ++ map_to_list rel'.
Proof.
  intros Hc Hp. cbv zeta. eapply chain_advance; [done| |done].
  rewrite map_to_list_insert; [by rewrite Hp, Permutation_middle|].
  destruct (rel !! s) as [e'|] eqn:Hs; [|done]. exfalso.
  assert ((s, e') ∈ sp ++ map_to_list rel) as Hin by (apply elem_of_app; right; by apply elem_of_map_to_list).
  assert ((s, e) ∈ c ∧ (s, e') ∈ c) as [H1 H2] by (rewrite Hp; set_solver).
  destruct (chain_elem _ _ _ _ _ Hc H1) as (? & ? & ?).
  destruct (chain_elem _ _ _ _ _ Hc H2) as (? & ? & ?).
  destruct (chain_others_apart _ _ _ _ _ _ Hc Hp Hin); simpl in *; lia.
Qed.

(** ** Bytes of the ring *)

Section bytes.
Context {B : Type}.
Implicit Types a src : list B.

Definition region a (phys len : Z) : list B := take (Z.to_nat len) (drop (Z.to_nat phys) a).

Lemma copyBytes_lookup a phys src i :
  (Z.to_nat phys + length src ≤ length a)%nat →
  copyBytes a phys src !! i =
    if decide (Z.to_nat phys ≤ i < Z.to_nat phys + length src)%nat
    then src !! (i - Z.to_nat phys)%nat else a !! i.
Proof.
  intros Hlen. unfold copyBytes. destruct (decide (i < Z.to_nat phys)%nat) as [Hlt|Hge].
  - rewrite lookup_app_l by (rewrite length_take; lia). rewrite lookup_take_lt by done.
    by rewrite decide_False by lia.
  - rewrite lookup_app_r by (rewrite length_take; lia). rewrite length_take, Nat.min_l by lia.
    destruct (decide (i < Z.to_nat phys + length src)%nat).
    + rewrite lookup_app_l by lia. by rewrite decide_True by lia.
    + rewrite lookup_app_r by lia. rewrite lookup_drop, decide_False by lia. f_equal. lia.
Qed.

Lemma copyBytes_length a phys src :
  (Z.to_nat phys + length src ≤ length a)%nat → length (copyBytes a phys src) = length a.
Proof. intros. unfold copyBytes. rewrite !length_app, length_take, length_drop. lia. Qed.

Lemma region_lookup a phys len i :
  region a phys len !! i = if decide (i < Z.to_nat len)%nat then a !! (Z.to_nat phys + i)%nat else None.
Proof.
  unfold region. case_decide.
  - rewrite lookup_take_lt by done. by rewrite lookup_drop.
  - apply lookup_ge_None_2. rewrite length_take. lia.
Qed.

Lemma region_written a phys src :
  0 ≤ phys → phys + Z.of_nat (length src) ≤ Z.of_nat (length a) →
  region (copyBytes a phys src) phys (Z.of_nat (length src)) = src.
Proof.
  intros H0 Hle. apply list_eq. intros i. rewrite region_lookup, Nat2Z.id.
  case_decide.
  - rewrite copyBytes_lookup, decide_True by lia. f_equal. lia.
  - symmetry. apply lookup_ge_None_2. lia.
Qed.

Lemma region_untouched a phys src p len :
  0 ≤ phys → phys + Z.of_nat (length src) ≤ Z.of_nat (length a) →
  0 ≤ p → 0 ≤ len → p + len ≤ phys ∨ phys + Z.of_nat (length src) ≤ p →
  region (copyBytes a phys src) p len = region a p len.
Proof.
  intros H0 Hle Hp Hlen Hd. apply list_eq. intros i. rewrite !region_lookup. case_decide; [|done].
  rewrite copyBytes_lookup, decide_False by lia. done.
Qed.

(** Payloads that are apart in linear coordinates, inside one window of the
    ring's size and not straddling its end, are apart in the slab. *)
Lemma payloads_apart A s1 l1 s2 l2 lo :
  0 < A → lo ≤ s1 → lo ≤ s2 → s1 + l1 ≤ lo + A → s2 + l2 ≤ lo + A → 0 < l1 → 0 < l2 →
  s1 mod A + l1 ≤ A → s2 mod A + l2 ≤ A →
  s1 + l1 ≤ s2 ∨ s2 + l2 ≤ s1 →
  s1 mod A + l1 ≤ s2 mod A ∨ s2 mod A + l2 ≤ s1 mod A.
Proof.
  intros HA ? ? ? ? ? ? Hs1 Hs2 Hd.
  pose proof (Z.mod_pos_bound s1 A HA). pose proof (Z.mod_pos_bound s2 A HA).
  destruct (decide (s1 mod A + l1 ≤ s2 mod A)) as [|Hn1]; [by left|].
  destruct (decide (s2 mod A + l2 ≤ s1 mod A)) as [|Hn2]; [by right|]. exfalso.
  set (i := Z.max (s1 mod A) (s2 mod A)).
  assert (s1 + (i - s1 mod A) = s2 + (i - s2 mod A)) as Heq; [|lia].
  apply (Z_mod_window A); [done| |lia].
  assert (∀ s, s mod A ≤ i < A → (s + (i - s mod A)) mod A = i) as Hmod.
  { intros s Hi. replace (s + (i - s mod A)) with (i + (s / A) * A).
    - rewrite Z.mod_add by lia. apply Z.mod_small. pose proof (Z.mod_pos_bound s A HA). lia.
    - pose proof (Z.div_mod s A ltac:(lia)). lia. }
  rewrite !Hmod; lia.
Qed.
End bytes.

(** ** The invariant *)

Section theory.
Context {B : Type} (zero : B).
Implicit Types b : StagingBuffer B.

(** A span of the ring someone still owes a release for: its bounds, the first
    byte of its payload, and the payload once it has been copied. *)
Record hold := mkHold { h_begin : Z; h_end : Z; h_start : Z; h_data : option (list B) }.
Definition span (h : hold) : Z * Z := (h_begin h, h_end h).

Definition entry_hold (e : stagedEntry B) : option hold :=
  if decide (0 < arenaLen e)
  then Some (mkHold (arenaStart e - arenaPad e) (arenaStart e + arenaLen e) (arenaStart e)
               (Some (payload (result e))))
  else None.

Definition producer_hold (p : producer B) : option hold :=
  match p with
  | Copying r start pad =>
    Some (mkHold (start - pad) (start + Z.of_nat (length (payload r))) start None)
  | LoadCount r start len pad | CasCount r start len pad _ => entry_hold (mkStaged r start len pad)
  | WriteSlot _ e | Publish _ e => entry_hold e
  | _ => None
  end.

Definition slot_hold (x : slotState * stagedEntry B) : option hold :=
  match x.1 with Ready | Claimed => entry_hold x.2 | _ => None end.

Definition held b : list hold :=
  omap producer_hold (producers b) ++ omap slot_hold (zip (state b) (slots b)).

Definition hold_ok (a : list B) (h : hold) : Prop :=
  h_begin h ≤ h_start h < h_end h ∧
  h_start h mod Z.of_nat (length a) + (h_end h - h_start h) ≤ Z.of_nat (length a) ∧
  ∀ d, h_data h = Some d → h_end h - h_start h = Z.of_nat (length d) ∧
    region a (h_start h mod Z.of_nat (length a)) (h_end h - h_start h) = d.

(** What the stored result's slice says about its copy. *)
Definition entry_ok b (e : stagedEntry B) : Prop :=
  if decide (0 < arenaLen e)
  then transcriptData (result e) = InArena (arenaStart e mod arenaSize b) (arenaLen e) ∧
    arenaLen e = Z.of_nat (length (payload (result e)))
  else transcriptData (result e) = Own (payload (result e)).

Definition own_payload (r : workerResult B) : Prop :=
  transcriptData r = Own (payload r) ∧ (0 < length (payload r))%nat.

Definition producer_ok b (p : producer B) : Prop :=
  match p with
  | LoadTail r | Waiting r => own_payload r
  | LoadHead r tail => own_payload r ∧ tail ≤ arenaTail b
  | Reserve r tail head => own_payload r ∧ tail ≤ arenaTail b ∧ head ≤ arenaHead b
  | Copying r _ _ => own_payload r
  | LoadCount r st len pad => entry_ok b (mkStaged r st len pad)
  | CasCount r st len pad idx => entry_ok b (mkStaged r st len pad) ∧ (idx ≤ count b)%nat
  | WriteSlot idx e => entry_ok b e ∧ (idx < count b)%nat ∧ state b !! idx = Some Empty
  | Publish idx e =>
    entry_ok b e ∧ (idx < count b)%nat ∧ state b !! idx = Some Empty ∧ slots b !! idx = Some e
  | _ => True
  end.

Definition writes_idx (p : producer B) : option nat :=
  match p with WriteSlot idx _ | Publish idx _ => Some idx | _ => None end.

(** [extra] lists spans about to be released. *)
Record inv_with (extra : list (Z * Z)) b : Prop := {
  i_len : length (state b) = length (slots b);
  i_count : (count b ≤ length (slots b))%nat;
  i_size : 0 < arenaSize b;
  i_cap : arenaHead b ≤ arenaTail b + arenaSize b;
  i_chain : ∃ c, chain (arenaTail b) (arenaHead b) c ∧
    c ≡ₚ extra ++ (span <$> held b) ++ map_to_list (released b);
  i_settled : released b !! arenaTail b = None;
  i_holds : Forall (hold_ok (arena b)) (held b);
  i_prod : ∀ t p, producers b !! t = Some p → producer_ok b p;
  i_owner : ∀ t t' p p' idx, producers b !! t = Some p → producers b !! t' = Some p' →
    writes_idx p = Some idx → writes_idx p' = Some idx → t = t';
  i_fresh : ∀ i, (count b ≤ i < length (slots b))%nat → state b !! i = Some Empty;
  i_slots : ∀ i st e, state b !! i = Some st → st ≠ Empty → slots b !! i = Some e → entry_ok b e;
  i_batches : NoDup (concat (batches b)) ∧ ∀ i, i ∈ concat (batches b) ↔ state b !! i = Some Claimed;
}.

Abbreviation inv := (inv_with []).

(** *** Moves of one producer *)

Lemma set_lookup (l : list (producer B)) t p' t1 p1 :
  <[t := p']> l !! t1 = Some p1 → (t1 = t ∧ p1 = p') ∨ (t1 ≠ t ∧ l !! t1 = Some p1).
Proof. intros [(<- & <- & _)|[? ?]]%list_lookup_insert_Some; auto. Qed.

Lemma held_producer b t p p' :
  producers b !! t = Some p →
  option_list (producer_hold p) ++ held (set_producer b t p') ≡ₚ
  option_list (producer_hold p') ++ held b.
Proof.
  intros Ht. unfold held; simpl. rewrite !(assoc_L (++)).
  by rewrite (omap_insert_perm producer_hold _ _ _ p' Ht).
Qed.

Lemma held_without b t p :
  producers b !! t = Some p →
  held b ≡ₚ option_list (producer_hold p) ++ held (set_producer b t Idle).
Proof. intros Ht. by rewrite (held_producer b t p Idle Ht). Qed.

Lemma held_with b t p p' :
  producers b !! t = Some p →
  held (set_producer b t p') ≡ₚ option_list (producer_hold p') ++ held (set_producer b t Idle).
Proof.
  intros Ht. assert (producers (set_producer b t p') !! t = Some p') as Ht'.
  { simpl. apply list_lookup_insert_eq. by eapply lookup_lt_Some. }
  rewrite (held_without _ _ _ Ht'). unfold set_producer; simpl. by rewrite list_insert_insert_eq.
Qed.

Lemma owner_set b t p p' :
  inv b → producers b !! t = Some p → writes_idx p' = writes_idx p ∨ writes_idx p' = None →
  ∀ t1 t2 p1 p2 idx, <[t := p']> (producers b) !! t1 = Some p1 → <[t := p']> (producers b) !! t2 = Some p2 →
    writes_idx p1 = Some idx → writes_idx p2 = Some idx → t1 = t2.
Proof.
  intros Hb Ht Hw t1 t2 p1 p2 idx H1 H2 Hw1 Hw2.
  apply set_lookup in H1 as [[-> ->]|[? H1]]; apply set_lookup in H2 as [[-> ->]|[? H2]]; [done| | |].
  - destruct Hw as [Hw|Hw]; rewrite Hw in Hw1; [|done]. by eapply (i_owner _ _ Hb t t2 p p2).
  - destruct Hw as [Hw|Hw]; rewrite Hw in Hw2; [|done]. by eapply (i_owner _ _ Hb t1 t p1 p).
  - by eapply (i_owner _ _ Hb t1 t2 p1 p2).
Qed.

(** A move that holds the same span, or none, before and after. *)
Lemma move_inv b t p p' :
  inv b → producers b !! t = Some p → producer_hold p' = producer_hold p →
  writes_idx p' = writes_idx p ∨ writes_idx p' = None → producer_ok b p' →
  inv (set_producer b t p').
Proof.
  intros Hb Ht Hh Hw Hok.
  assert (held (set_producer b t p') ≡ₚ held b) as Hheld.
  { pose proof (held_producer b t p p' Ht) as Hp. rewrite Hh in Hp. by apply Permutation_app_inv_l in Hp. }
  split; try apply Hb.
  - destruct (i_chain _ _ Hb) as (c & Hc & Hp). exists c. split; [done|]. simpl in *. by rewrite Hheld.
  - rewrite Hheld. apply Hb.
  - intros t1 p1 [[-> ->]|[_ H1]]%set_lookup; [done|by eapply (i_prod _ _ Hb)].
  - by apply (owner_set b t p p').
Qed.

Lemma entry_ok_size b b' e : arenaSize b' = arenaSize b → entry_ok b e → entry_ok b' e.
Proof. unfold entry_ok. by intros ->. Qed.

(** What a producer relies on survives the progress of the others. *)
Lemma producer_ok_mono b b' p :
  arenaSize b' = arenaSize b → arenaTail b ≤ arenaTail b' → arenaHead b ≤ arenaHead b' →
  (count b ≤ count b')%nat →
  (∀ idx, writes_idx p = Some idx → state b' !! idx = state b !! idx ∧ slots b' !! idx = slots b !! idx) →
  producer_ok b p → producer_ok b' p.
Proof.
  intros Hsz Ht Hh Hc Hidx. pose proof (entry_ok_size b b') as He.
  destruct p; simpl in *; try done.
  - intros [? ?]. split; [done|lia].
  - intros (? & ? & ?). split_and!; [done|lia|lia].
  - by apply He.
  - intros [? ?]. split; [by apply He|lia].
  - intros (? & ? & ?). destruct (Hidx idx eq_refl) as [-> _]. split_and!; [by apply He|lia|done].
  - intros (? & ? & ? & ?). destruct (Hidx idx eq_refl) as [-> ->]. split_and!; [by apply He|lia|done|done].
Qed.

Lemma wrapGap_bounds A head sz :
  0 < A → 0 ≤ wrapGap A head sz ∧
  (sz ≤ A → (head + wrapGap A head sz) mod A + sz ≤ A).
Proof.
  intros HA. unfold wrapGap. pose proof (Z.mod_pos_bound head A HA). case_decide; split; try lia; intros Hsz;
    [|rewrite Z.add_0_r; lia].
  replace (head + (A - head mod A)) with (0 + (head / A + 1) * A).
  - rewrite Z.mod_add, Z.mod_0_l by lia. lia.
  - pose proof (Z.div_mod head A ltac:(lia)). lia.
Qed.

(** A successful reservation extends the chain at its head. *)
Lemma reserve_inv b t r tail :
  inv b → producers b !! t = Some (Reserve r tail (arenaHead b)) →
  let sz := Z.of_nat (length (payload r)) in
  let gap := wrapGap (arenaSize b) (arenaHead b) sz in
  gap + sz ≤ arenaSize b - (arenaHead b - tail) →
  inv (mkBuffer (slots b) (state b) (count b) (arena b) (arenaHead b + (gap + sz)) (arenaTail b)
    (committed b) (failed b) (released b) (ready b)
    (<[t := Copying r (arenaHead b + gap) gap]> (producers b)) (batches b)).
Proof.
  intros Hb Ht sz gap Hfree. set (b' := mkBuffer _ _ _ _ _ _ _ _ _ _ _ _).
  pose proof (i_prod _ _ Hb _ _ Ht) as ((Hown & Hpos) & Htail & _).
  destruct (wrapGap_bounds (arenaSize b) (arenaHead b) sz (i_size _ _ Hb)) as [Hgap Hmod]. fold gap in Hgap, Hmod.
  destruct (i_chain _ _ Hb) as (c & Hc & Hp). pose proof (chain_le _ _ _ Hc).
  set (h := mkHold (arenaHead b) (arenaHead b + (gap + sz)) (arenaHead b + gap) None).
  assert (held b' ≡ₚ h :: held b) as Hheld.
  { pose proof (held_producer b t _ (Copying r (arenaHead b + gap) gap) Ht) as Hh. simpl in Hh.
    change (held b') with (held (set_producer b t (Copying r (arenaHead b + gap) gap))). rewrite Hh.
    assert (mkHold (arenaHead b + gap - gap) (arenaHead b + gap + Z.of_nat (length (payload r)))
      (arenaHead b + gap) None = h) as -> by (unfold h, sz; f_equal; lia). done. }
  split; try apply Hb.
  - change (arenaHead b + (gap + sz) ≤ arenaTail b + arenaSize b). lia.
  - exists (c ++ [(arenaHead b, arenaHead b + (gap + sz))]). split; [apply chain_snoc; [done|lia]|].
    simpl in *. rewrite Hheld, Hp. simpl. by rewrite <- Permutation_cons_append.
  - rewrite Hheld. constructor; [|apply Hb]. split_and!; simpl; [lia|lia| |done].
    replace (arenaHead b + (gap + sz) - (arenaHead b + gap)) with sz by lia. apply Hmod. lia.
  - intros t1 p1 [[-> ->]|[_ H1]]%set_lookup; [by split|].
    eapply (producer_ok_mono b); [done|done|simpl; lia|done|done|by eapply (i_prod _ _ Hb)].
  - eapply (owner_set b t); [done..|by right].
Qed.

(** The copy writes the owner's bytes and nobody else's. *)
Lemma copy_inv b t r start pad :
  inv b → producers b !! t = Some (Copying r start pad) →
  inv (mkBuffer (slots b) (state b) (count b)
    (copyBytes (arena b) (start mod arenaSize b) (payload r)) (arenaHead b) (arenaTail b)
    (committed b) (failed b) (released b) (ready b)
    (<[t := LoadCount (inArena (arenaSize b) r start) start (Z.of_nat (length (payload r))) pad]> (producers b))
    (batches b)).
Proof.
  intros Hb Ht. set (b' := mkBuffer _ _ _ _ _ _ _ _ _ _ _ _).
  set (sz := Z.of_nat (length (payload r))). pose proof (i_size _ _ Hb) as HA.
  pose proof (i_prod _ _ Hb _ _ Ht) as [_ Hpos].
  set (h0 := mkHold (start - pad) (start + sz) start None).
  set (h1 := mkHold (start - pad) (start + sz) start (Some (payload r))).
  assert (held b ≡ₚ h0 :: held (set_producer b t Idle)) as Hheld by (by apply (held_without b t _ Ht)).
  assert (held b' ≡ₚ h1 :: held (set_producer b t Idle)) as Hheld'.
  { change (held b') with (held (set_producer b t (LoadCount (inArena (arenaSize b) r start) start sz pad))).
    rewrite (held_with b t _ _ Ht). simpl. unfold entry_hold; simpl. rewrite decide_True by lia. done. }
  set (rest := held (set_producer b t Idle)) in *.
  assert ((span <$> held b') ≡ₚ (span <$> held b)) as Hspans by (by rewrite Hheld, Hheld').
  pose proof (i_holds _ _ Hb) as Hholds. rewrite Hheld in Hholds.
  apply Forall_cons in Hholds as [(Hw & Hstr & _) Hrest]. simpl in Hw, Hstr. fold (arenaSize b) in Hstr.
  replace (start + sz - start) with sz in Hstr by lia.
  pose proof (Z.mod_pos_bound start (arenaSize b) HA) as Hphys.
  assert (length (copyBytes (arena b) (start mod arenaSize b) (payload r)) = length (arena b)) as Hlen.
  { apply copyBytes_length. unfold arenaSize, sz in *. lia. }
  assert (arenaSize b' = arenaSize b) as Hsz by (unfold arenaSize; simpl; by rewrite Hlen).
  destruct (i_chain _ _ Hb) as (c & Hc & Hp). simpl in Hp.
  split; try apply Hb.
  - by rewrite Hsz.
  - rewrite Hsz. apply Hb.
  - exists c. split; [done|]. simpl. by rewrite Hspans.
  - rewrite Hheld'. constructor.
    + split_and!; simpl; rewrite ?Hlen; fold (arenaSize b); try lia.
      intros d [= <-]. split; [lia|]. replace (start + sz - start) with sz by lia.
      apply region_written; unfold arenaSize, sz in *; lia.
    + apply Forall_forall. intros h Hin. pose proof (proj1 (Forall_forall _ _) Hrest h Hin) as (Hhw & Hhs & Hhd).
      assert (apart (span h0) (span h)) as Hap.
      { eapply (chain_others_apart _ _ c _ ((span <$> rest) ++ map_to_list (released b))); [done| |].
        - rewrite Hp, Hheld. done.
        - apply elem_of_app. left. by apply list_elem_of_fmap_2. }
      assert (span h0 ∈ c ∧ span h ∈ c) as [H0c Hhc] by (rewrite Hp, Hheld; set_solver).
      destruct h as [hb he hs hd]. simpl in *.
      destruct (chain_elem _ _ _ _ _ Hc H0c) as (Ha1 & _ & Ha2).
      destruct (chain_elem _ _ _ _ _ Hc Hhc) as (Hb1 & _ & Hb2). simpl in Hb1, Hb2.
      change (h_begin h0) with (start - pad) in Ha1. change (h_end h0) with (start + sz) in Ha2.
      pose proof (i_cap _ _ Hb). fold (arenaSize b) in Hhs.
      split_and!; simpl; rewrite ?Hlen; fold (arenaSize b); try lia.
      intros d Hd. destruct (Hhd d Hd) as [? Hr]. split; [done|]. fold (arenaSize b) in Hr. rewrite <- Hr.
      pose proof (Z.mod_pos_bound hs (arenaSize b) HA).
      apply region_untouched; try (unfold arenaSize, sz in *; lia).
      destruct (payloads_apart (arenaSize b) start sz hs (he - hs) (arenaTail b)); unfold apart in Hap;
        simpl in Hap; lia.
  - intros t1 p1 [[-> ->]|[_ H1]]%set_lookup.
    + simpl. unfold entry_ok; simpl. rewrite decide_True by lia. rewrite Hsz. done.
    + eapply (producer_ok_mono b); [done..|by eapply (i_prod _ _ Hb)].
  - eapply (owner_set b t); [done..|by right].
  - intros i st e H1 H2 H3. eapply entry_ok_size; [done|]. by eapply (i_slots _ _ Hb).
Qed.

(** *** Releases *)

Lemma release_inv b s e : inv_with [(s, e)] b → inv (releaseArena b s e).
Proof.
  intros Hb. destruct (i_chain _ _ Hb) as (c & Hc & Hp). simpl in Hp.
  pose proof (chain_release _ _ _ _ _ _ _ Hc Hp) as Hrel. unfold releaseArena. cbv zeta in Hrel.
  destruct (advance _ _ _) as [rel' tail']. destruct Hrel as (Hle & Hset & c' & Hc' & Hp').
  split; try apply Hb; simpl.
  - change (arenaHead b ≤ tail' + arenaSize b). pose proof (i_cap _ _ Hb). lia.
  - by exists c'.
  - done.
  - intros t p Ht. eapply (producer_ok_mono b); [done|simpl; lia|done|done|done|by eapply (i_prod _ _ Hb)].
Qed.

(** A producer gives up its span. *)
Lemma drop_inv b t p p' h :
  inv b → producers b !! t = Some p → producer_hold p = Some h → producer_hold p' = None →
  writes_idx p' = None → producer_ok b p' → inv_with [span h] (set_producer b t p').
Proof.
  intros Hb Ht Hh Hno Hw Hok.
  assert (held b ≡ₚ h :: held (set_producer b t p')) as Hheld.
  { pose proof (held_producer b t p p' Ht) as Hp. rewrite Hh, Hno in Hp. simpl in Hp. by rewrite Hp. }
  pose proof (i_holds _ _ Hb) as Hholds. rewrite Hheld in Hholds. apply Forall_cons in Hholds as [_ Hholds].
  destruct (i_chain _ _ Hb) as (c & Hc & Hp).
  split; try apply Hb; [exists c; split; [done|]; simpl in *; by rewrite Hp, Hheld|done| |].
  - intros t1 p1 [[-> ->]|[_ H1]]%set_lookup; [done|by eapply (i_prod _ _ Hb)].
  - eapply (owner_set b t); [done..|by right].
Qed.

Lemma exhausted_inv b t r st len pad idx :
  inv b → producers b !! t = Some (CasCount r st len pad idx) →
  inv (if decide (0 < len) then releaseArena (set_producer b t (Returned false)) (st - pad) (st + len)
       else set_producer b t (Returned false)).
Proof.
  intros Hb Ht. case_decide as Hlen.
  - apply release_inv. eapply (drop_inv b t _ (Returned false)
      (mkHold (st - pad) (st + len) st (Some (payload r))) Hb Ht); [|done..].
    simpl. unfold entry_hold; simpl. by rewrite decide_True.
  - eapply (move_inv b t); [done..| |by right|done]. simpl. unfold entry_hold; simpl.
    by rewrite decide_False.
Qed.

(** *** Slots *)

Lemma zip_insert_state (st : list slotState) (sl : list (stagedEntry B)) i x e :
  sl !! i = Some e → zip (<[i := x]> st) sl = <[i := (x, e)]> (zip st sl).
Proof. intros He. rewrite insert_zip_with. by rewrite (list_insert_id sl i e). Qed.

Lemma zip_insert_slot (st : list slotState) (sl : list (stagedEntry B)) i x e :
  st !! i = Some x → zip st (<[i := e]> sl) = <[i := (x, e)]> (zip st sl).
Proof. intros Hx. rewrite insert_zip_with. by rewrite (list_insert_id st i x). Qed.

Lemma zip_lookup (st : list slotState) (sl : list (stagedEntry B)) i x e :
  st !! i = Some x → sl !! i = Some e → zip st sl !! i = Some (x, e).
Proof. intros. apply lookup_zip_Some. by split. Qed.

(** An index someone owns is not yet visible to the drainer. *)
Lemma owned_idx b t p idx :
  inv b → producers b !! t = Some p → writes_idx p = Some idx →
  (idx < count b)%nat ∧ state b !! idx = Some Empty.
Proof.
  intros Hb Ht Hw. pose proof (i_prod _ _ Hb _ _ Ht) as Hok. destruct p; simplify_eq/=; tauto.
Qed.

Lemma claim_inv b t r st len pad :
  inv b → producers b !! t = Some (CasCount r st len pad (count b)) → (count b < length (slots b))%nat →
  inv (mkBuffer (slots b) (state b) (S (count b)) (arena b) (arenaHead b) (arenaTail b) (committed b)
    (failed b) (released b) (ready b)
    (<[t := WriteSlot (count b) (mkStaged r st len pad)]> (producers b)) (batches b)).
Proof.
  intros Hb Ht Hlt. set (b' := mkBuffer _ _ _ _ _ _ _ _ _ _ _ _).
  assert (held b' ≡ₚ held b) as Hheld.
  { pose proof (held_producer b t _ (WriteSlot (count b) (mkStaged r st len pad)) Ht) as Hp.
    simpl in Hp. by apply Permutation_app_inv_l in Hp. }
  destruct (i_chain _ _ Hb) as (c & Hc & Hp).
  split; try apply Hb; [simpl; lia| | | | |].
  - exists c. split; [done|]. simpl in *. by rewrite Hheld.
  - rewrite Hheld. apply Hb.
  - intros t1 p1 [[-> ->]|[_ H1]]%set_lookup.
    + pose proof (i_prod _ _ Hb _ _ Ht) as [? _]. split_and!; [done|simpl; lia|].
      apply (i_fresh _ _ Hb). lia.
    + eapply (producer_ok_mono b); [done..|simpl; lia|done|by eapply (i_prod _ _ Hb)].
  - intros t1 t2 p1 p2 idx H1 H2 Hw1 Hw2.
    apply set_lookup in H1 as [[-> ->]|[? H1]]; apply set_lookup in H2 as [[-> ->]|[? H2]]; [done| | |].
    + simpl in Hw1. simplify_eq. destruct (owned_idx _ _ _ _ Hb H2 Hw2). lia.
    + simpl in Hw2. simplify_eq. destruct (owned_idx _ _ _ _ Hb H1 Hw1). lia.
    + by eapply (i_owner _ _ Hb t1 t2 p1 p2).
  - intros i Hi. apply (i_fresh _ _ Hb). simpl in Hi. lia.
Qed.

Lemma write_inv b t idx e :
  inv b → producers b !! t = Some (WriteSlot idx e) →
  inv (mkBuffer (<[idx := e]> (slots b)) (state b) (count b) (arena b) (arenaHead b) (arenaTail b)
    (committed b) (failed b) (released b) (ready b) (<[t := Publish idx e]> (producers b)) (batches b)).
Proof.
  intros Hb Ht. set (b' := mkBuffer _ _ _ _ _ _ _ _ _ _ _ _).
  pose proof (i_prod _ _ Hb _ _ Ht) as (Hok & Hidx & Hst). pose proof (i_count _ _ Hb).
  destruct (lookup_lt_is_Some_2 (slots b) idx) as [e0 He0]; [lia|].
  assert (held b' ≡ₚ held b) as Hheld.
  { pose proof (held_producer b t _ (Publish idx e) Ht) as Hp. simpl in Hp.
    apply Permutation_app_inv_l in Hp. rewrite <- Hp. unfold held; simpl. apply Permutation_app_head.
    rewrite (zip_insert_slot _ _ _ _ _ Hst).
    pose proof (omap_insert_perm slot_hold _ _ _ (Empty, e) (zip_lookup _ _ _ _ _ Hst He0)) as Hz.
    by simpl in Hz. }
  destruct (i_chain _ _ Hb) as (c & Hc & Hp).
  split; try apply Hb; simpl; rewrite ?length_insert; try apply Hb.
  - exists c. split; [done|]. simpl in *. by rewrite Hheld.
  - rewrite Hheld. apply Hb.
  - intros t1 p1 [[-> ->]|[Hne H1]]%set_lookup.
    + split_and!; try done. simpl. apply list_lookup_insert_eq. lia.
    + eapply (producer_ok_mono b); [done..| |by eapply (i_prod _ _ Hb)].
      intros i Hi. split; [done|]. simpl. apply list_lookup_insert_ne. intros ->.
      by destruct Hne; eapply (i_owner _ _ Hb t1 t).
  - eapply (owner_set b t); [done..|by left].
  - intros i st e1 H1 H2 H3. apply list_lookup_insert_Some in H3 as [(<- & _ & _)|[_ H3]]; [congruence|].
    by eapply (i_slots _ _ Hb).
Qed.

Lemma publish_inv b t idx e :
  inv b → producers b !! t = Some (Publish idx e) →
  inv (mkBuffer (slots b) (<[idx := Ready]> (state b)) (count b) (arena b) (arenaHead b) (arenaTail b)
    (committed b) (failed b) (released b) true (<[t := Returned true]> (producers b)) (batches b)).
Proof.
  intros Hb Ht. set (b' := mkBuffer _ _ _ _ _ _ _ _ _ _ _ _).
  pose proof (i_prod _ _ Hb _ _ Ht) as (Hok & Hidx & Hst & Hsl). pose proof (i_count _ _ Hb).
  pose proof (i_len _ _ Hb).
  assert (held b' ≡ₚ held b) as Hheld.
  { rewrite (held_without b t _ Ht). unfold held; simpl.
    pose proof (omap_insert_perm producer_hold _ _ _ (Returned true) Ht) as Hp1.
    pose proof (omap_insert_perm producer_hold _ _ _ Idle Ht) as Hp2. simpl in Hp1, Hp2.
    rewrite (zip_insert_state _ _ _ _ _ Hsl).
    pose proof (omap_insert_perm slot_hold _ _ _ (Ready, e) (zip_lookup _ _ _ _ _ Hst Hsl)) as Hz.
    simpl in Hz. rewrite Hz. unfold slot_hold at 1; simpl.
    rewrite <- Hp1 in Hp2. apply Permutation_app_inv_l in Hp2. rewrite Hp2.
    rewrite !(assoc_L (++)). apply Permutation_app_tail, Permutation_app_comm. }
  destruct (i_chain _ _ Hb) as (c & Hc & Hp).
  split; try apply Hb; simpl; rewrite ?length_insert; try apply Hb.
  - exists c. split; [done|]. simpl in *. by rewrite Hheld.
  - rewrite Hheld. apply Hb.
  - intros t1 p1 [[-> ->]|[Hne H1]]%set_lookup; [done|].
    eapply (producer_ok_mono b); [done..| |by eapply (i_prod _ _ Hb)].
    intros i Hi. split; [|done]. simpl. apply list_lookup_insert_ne. intros ->.
    by destruct Hne; eapply (i_owner _ _ Hb t1 t).
  - eapply (owner_set b t); [done..|by right].
  - intros i Hi. rewrite list_lookup_insert_ne by lia. by apply (i_fresh _ _ Hb).
  - intros i st e1 H1 H2 H3. apply list_lookup_insert_Some in H1 as [(<- & _ & _)|[_ H1]].
    + by simplify_eq.
    + by eapply (i_slots _ _ Hb).
  - destruct (i_batches _ _ Hb) as [Hnd Hcl]. split; [done|]. intros i. rewrite Hcl.
    destruct (decide (i = idx)) as [->|]; [rewrite list_lookup_insert_eq by lia; naive_solver|].
    by rewrite list_lookup_insert_ne.
Qed.

(** *** The drainer *)

(** The indices a drain may take, from [i] on. *)
Fixpoint candidates b (i : nat) (rest : list (slotState * stagedEntry B)) : list nat :=
  match rest with
  | [] => []
  | (st, se) :: rest =>
    if decide (st = Ready ∧ isEligible b (result se) = true) then i :: candidates b (S i) rest
    else candidates b (S i) rest
  end.

Lemma drain_scan_spec b i rest claimed :
  drain_scan b i rest claimed =
  claimed ++ take (DefaultMaxDrainBatch - length claimed) (candidates b i rest).
Proof.
  revert i claimed. induction rest as [|[st se] rest IH]; intros i claimed; simpl.
  { by rewrite take_nil, app_nil_r. }
  destruct (decide (DefaultMaxDrainBatch ≤ length claimed)%nat) as [Hfull|Hroom].
  { replace (DefaultMaxDrainBatch - length claimed)%nat with 0%nat by lia. by rewrite app_nil_r. }
  rewrite !IH. destruct (decide (st ≠ Ready)) as [Hst|Hst].
  - rewrite (decide_False (P := st = Ready ∧ _)) by tauto. done.
  - apply dec_stable in Hst. destruct (isEligible b (result se)) eqn:He; simpl.
    + rewrite decide_True by done. rewrite length_app; simpl.
      replace (DefaultMaxDrainBatch - length claimed)%nat with
        (S (DefaultMaxDrainBatch - (length claimed + 1)))%nat by lia.
      simpl. by rewrite <- (assoc_L (++)).
    + rewrite (decide_False (P := st = Ready ∧ _)) by (by intros []). done.
Qed.

Lemma candidates_elem b i rest j :
  j ∈ candidates b i rest ↔
  (i ≤ j)%nat ∧ ∃ se, rest !! (j - i)%nat = Some (Ready, se) ∧ isEligible b (result se) = true.
Proof.
  revert i. induction rest as [|[st se] rest IH]; intros i; simpl; [set_solver|].
  assert (j ∈ candidates b (S i) rest ↔ (i < j)%nat ∧
    ∃ se', ((st, se) :: rest) !! (j - i)%nat = Some (Ready, se') ∧ isEligible b (result se') = true) as Hrest.
  { rewrite IH. split; intros [Hle (x & Hx & ?)]; (split; [lia|exists x; split; [|done]]).
    - replace (j - i)%nat with (S (j - S i)) by lia. done.
    - replace (j - i)%nat with (S (j - S i)) in Hx by lia. done. }
  case_decide as Hc.
  - rewrite elem_of_cons, Hrest. destruct Hc as [-> He]. split.
    + intros [->|[? ?]]; [|split; [lia|done]]. split; [done|]. exists se. by rewrite Nat.sub_diag.
    + intros [Hle Hx]. destruct (decide (j = i)); [by left|right]. split; [lia|done].
  - rewrite Hrest. split; [intros [? ?]; split; [lia|done]|].
    intros [Hle (x & Hx & He)]. destruct (decide (j = i)) as [->|]; [|split; [lia|by exists x]].
    rewrite Nat.sub_diag in Hx. simpl in Hx. simplify_eq. by destruct Hc.
Qed.

Lemma candidates_sorted b i rest : StronglySorted lt (candidates b i rest).
Proof.
  revert i. induction rest as [|[st se] rest IH]; intros i; simpl; [constructor|].
  case_decide; [|done]. constructor; [done|]. apply Forall_forall.
  intros j [? _]%candidates_elem. lia.
Qed.

Lemma drainIndices_eq b :
  drainIndices b = take DefaultMaxDrainBatch (candidates b 0 (take (count b) (zip (state b) (slots b)))).
Proof. unfold drainIndices. rewrite drain_scan_spec. simpl length. by rewrite Nat.sub_0_r. Qed.

(** A published slot whose gate is open. *)
Definition drainable b (i : nat) : Prop :=
  (i < count b)%nat ∧ state b !! i = Some Ready ∧
  ∃ e, slots b !! i = Some e ∧ isEligible b (result e) = true.

Lemma candidates_drainable b i :
  i ∈ candidates b 0 (take (count b) (zip (state b) (slots b))) ↔ drainable b i.
Proof.
  rewrite candidates_elem, Nat.sub_0_r. unfold drainable. split.
  - intros [_ (e & He & Hel)]. apply lookup_take_Some in He as [He ?].
    apply lookup_zip_Some in He as [? ?]. eauto.
  - intros (Hlt & Hst & e & He & Hel). split; [lia|]. exists e. split; [|done].
    apply lookup_take_Some. split; [|done]. apply lookup_zip_Some. by split.
Qed.

Lemma drainIndices_drainable b i : i ∈ drainIndices b → drainable b i.
Proof. rewrite drainIndices_eq. intros (j & Hj & _)%elem_of_take. apply candidates_drainable.
  by eapply list_elem_of_lookup_2. Qed.

Lemma drainIndices_NoDup b : NoDup (drainIndices b).
Proof.
  rewrite drainIndices_eq. eapply sublist_NoDup; [|apply sublist_take].
  apply (sorted_irreflexive_NoDup lt); [intros ?; lia|apply candidates_sorted].
Qed.

Lemma claimed_lookup (cl : list nat) (st : list slotState) j :
  foldr (λ i st, <[i := Claimed]> st) st cl !! j =
  if decide (j ∈ cl ∧ (j < length st)%nat) then Some Claimed else st !! j.
Proof.
  assert (∀ cl, length (foldr (λ i st, <[i := Claimed]> st) st cl) = length st) as Hlen.
  { intros cl'. induction cl' as [|i cl' IH]; simpl; [done|]. by rewrite length_insert. }
  induction cl as [|i cl IH]; [rewrite decide_False by set_solver; done|]. cbn [foldr].
  destruct (decide (j = i)) as [->|Hne].
  - destruct (decide (i < length st)%nat).
    + rewrite list_lookup_insert_eq by (by rewrite Hlen). rewrite decide_True by set_solver. done.
    + rewrite decide_False by tauto. rewrite !lookup_ge_None_2; [done|lia|rewrite length_insert, Hlen; lia].
  - rewrite list_lookup_insert_ne, IH by done. repeat case_decide; set_solver.
Qed.

Lemma held_claimed (cl : list nat) (st : list slotState) (sl : list (stagedEntry B)) :
  (∀ i, i ∈ cl → st !! i = Some Ready) → length st = length sl →
  omap slot_hold (zip (foldr (λ i st, <[i := Claimed]> st) st cl) sl) ≡ₚ omap slot_hold (zip st sl).
Proof.
  intros Hr Hlen. induction cl as [|i cl IH]; simpl; [done|].
  rewrite <- IH by set_solver. assert (st !! i = Some Ready) as Hi by (apply Hr; by left).
  pose proof (lookup_lt_Some _ _ _ Hi). destruct (lookup_lt_is_Some_2 sl i) as [e He]; [lia|].
  set (st1 := foldr _ st cl). rewrite (zip_insert_state _ _ _ _ _ He).
  assert (∃ x, st1 !! i = Some x ∧ (x = Ready ∨ x = Claimed)) as (x & Hx & Hor).
  { unfold st1. rewrite claimed_lookup. case_decide; eauto. }
  pose proof (omap_insert_perm slot_hold _ _ _ (Claimed, e) (zip_lookup _ _ _ _ _ Hx He)) as Hp.
  assert (slot_hold (x, e) = slot_hold (Claimed, e)) as Heq by (by destruct Hor as [-> | ->]).
  rewrite Heq in Hp. by apply Permutation_app_inv_l in Hp.
Qed.

Lemma drain_inv b : inv b → inv (Drain b).2.
Proof.
  intros Hb. set (b' := (Drain b).2). pose proof (i_len _ _ Hb) as Hlen. pose proof (i_count _ _ Hb).
  assert (∀ i, i ∈ drainIndices b → state b !! i = Some Ready) as Hr.
  { intros i Hi. by apply drainIndices_drainable in Hi as (_ & ? & _). }
  assert (held b' ≡ₚ held b) as Hheld.
  { unfold held; simpl. apply Permutation_app_head. by apply held_claimed. }
  assert (∀ i, state b' !! i = if decide (i ∈ drainIndices b) then Some Claimed else state b !! i) as Hst.
  { intros i. simpl. rewrite claimed_lookup. destruct (decide (i ∈ drainIndices b)) as [Hi|Hi].
    - pose proof (lookup_lt_Some _ _ _ (Hr i Hi)). by rewrite decide_True.
    - by rewrite decide_False by tauto. }
  assert (length (state b') = length (state b)) as Hlen'.
  { simpl. generalize (drainIndices b) as cl. induction cl as [|i cl IH]; simpl; [done|].
    by rewrite length_insert. }
  destruct (i_chain _ _ Hb) as (c & Hc & Hp).
  split; try apply Hb.
  - by rewrite Hlen'.
  - exists c. split; [done|]. simpl in *. by rewrite Hheld.
  - rewrite Hheld. apply Hb.
  - intros t p Ht. eapply (producer_ok_mono b); [done..| |by eapply (i_prod _ _ Hb)].
    intros idx Hidx. split; [|done]. rewrite Hst. case_decide as Hin; [|done].
    destruct (owned_idx _ _ _ _ Hb Ht Hidx) as [_ He]. rewrite (Hr _ Hin) in He. done.
  - intros i Hi. rewrite Hst. case_decide as Hin; [|by apply (i_fresh _ _ Hb)].
    apply drainIndices_drainable in Hin as [? _]. simpl in Hi. lia.
  - intros i st e Hi Hne He. rewrite Hst in Hi. change (entry_ok b e).
    case_decide as Hin; [|by eapply (i_slots _ _ Hb)]. by eapply (i_slots _ _ Hb); [by apply Hr|..].
  - destruct (i_batches _ _ Hb) as [Hnd Hcl]. change (batches b') with (batches b ++ [drainIndices b]).
    rewrite concat_app. simpl. rewrite app_nil_r. split.
    + apply NoDup_app. split_and!; [done| |apply drainIndices_NoDup].
      intros i Hi Hin. apply Hcl in Hi. rewrite (Hr _ Hin) in Hi. done.
    + intros i. rewrite elem_of_app, Hcl, Hst. case_decide as Hin; [naive_solver|]. naive_solver.
Qed.

Lemma commit_inv b ids : inv b → inv (Commit b ids).
Proof. intros Hb. split; apply Hb. Qed.
Lemma failed_inv b ids : inv b → inv (MarkFailed b ids).
Proof. intros Hb. split; apply Hb. Qed.

Lemma concat_insert_tail {X} (l : list (list X)) k x r :
  l !! k = Some (x :: r) → concat l ≡ₚ x :: concat (<[k := r]> l).
Proof.
  revert k. induction l as [|y l IH]; intros [|k] Hk; simplify_eq/=; [done|].
  rewrite (IH _ Hk). by rewrite <- Permutation_middle.
Qed.

Lemma ack_inv b k b' : inv b → ackOne b k = Some b' → inv b'.
Proof.
  intros Hb. unfold ackOne. destruct (batches b !! k) as [[|idx r]|] eqn:Hk; simpl; [done| |done].
  destruct (slots b !! idx) as [e|] eqn:He; simpl; [|done]. intros [= <-].
  set (b1 := mkBuffer _ _ _ _ _ _ _ _ _ _ _ _).
  destruct (i_batches _ _ Hb) as [Hnd Hcl]. pose proof (concat_insert_tail _ _ _ _ Hk) as Hcat.
  assert (state b !! idx = Some Claimed) as Hst by (apply Hcl; rewrite Hcat; by left).
  pose proof (lookup_lt_Some _ _ _ Hst) as Hlt. pose proof (i_len _ _ Hb).
  assert (∀ i, state b1 !! i = if decide (i = idx) then Some Acked else state b !! i) as Hst1.
  { intros i. simpl. case_decide; subst; [by rewrite list_lookup_insert_eq|by rewrite list_lookup_insert_ne]. }
  assert (held b ≡ₚ option_list (entry_hold e) ++ held b1) as Hheld.
  { unfold held; simpl. rewrite (zip_insert_state _ _ _ _ _ He).
    pose proof (omap_insert_perm slot_hold _ _ _ (Acked, e) (zip_lookup _ _ _ _ _ Hst He)) as Hz.
    simpl in Hz. rewrite <- Hz. unfold slot_hold at 1; simpl.
    rewrite !(assoc_L (++)). apply Permutation_app_tail, Permutation_app_comm. }
  assert (inv_with (span <$> option_list (entry_hold e)) b1) as Hb1.
  { destruct (i_chain _ _ Hb) as (c & Hc & Hp). split; try apply Hb.
    - simpl. by rewrite length_insert.
    - exists c. split; [done|]. simpl in *. rewrite Hp, Hheld, fmap_app. by rewrite <- (assoc_L (++)).
    - pose proof (i_holds _ _ Hb) as Hh. rewrite Hheld in Hh. by apply Forall_app in Hh as [_ Hh].
    - intros t p Ht. eapply (producer_ok_mono b); [done..| |by eapply (i_prod _ _ Hb)].
      intros i Hi. split; [|done]. rewrite Hst1. case_decide as Heq; [|done]. subst i.
      destruct (owned_idx _ _ _ _ Hb Ht Hi) as [_ Hemp]. congruence.
    - intros i Hi. rewrite Hst1. case_decide as Heq; [|by apply (i_fresh _ _ Hb)].
      subst i. rewrite (i_fresh _ _ Hb) in Hst by done. done.
    - intros i st e1 Hi Hne He1. rewrite Hst1 in Hi. change (entry_ok b e1).
      case_decide as Heq; [subst; by eapply (i_slots _ _ Hb)|by eapply (i_slots _ _ Hb)].
    - change (batches b1) with (<[k := r]> (batches b)). rewrite Hcat in Hnd.
      apply NoDup_cons in Hnd as [Hni Hnd]. split; [done|]. intros i. rewrite Hst1.
      specialize (Hcl i). rewrite Hcat, elem_of_cons in Hcl.
      case_decide as Heq; [subst; naive_solver|naive_solver]. }
  unfold entry_hold in Hb1. destruct (decide (0 < arenaLen e)) as [Hl|Hl]; [by apply release_inv|done].
Qed.

(** ** Every reachable buffer *)

Lemma arena_run_inv b t p b' : inv b → producers b !! t = Some p → run_producer b t p = Some b' → inv b'.
Proof.
  intros Hb Ht. pose proof (i_prod _ _ Hb _ _ Ht) as Hok.
  destruct p as [| |r|r tail|r tail head|r|r st pad|r st len pad|r st len pad idx|idx e|idx e];
    cbn [run_producer]; try done.
  - intros [= <-]. eapply (move_inv b t); [done..|by left|]. by split.
  - intros [= <-]. destruct Hok as [? ?]. eapply (move_inv b t); [done..|by left|]. by split_and!.
  - cbv zeta. destruct Hok as (? & ? & ?). case_decide as Hfit.
    + case_decide as Hcas; intros [= <-]; [subst head; by eapply reserve_inv|].
      eapply (move_inv b t); [done..|by left|done].
    + intros [= <-]. eapply (move_inv b t); [done..|by left|done].
  - intros [= <-]. by apply copy_inv.
  - intros [= <-]. eapply (move_inv b t); [done..|by left|]. by split.
  - cbv zeta. destruct Hok as [? ?]. case_decide as Hfull; [intros [= <-]; by eapply exhausted_inv|].
    case_decide as Hcas; intros [= <-]; [subst idx; apply claim_inv; [done..|lia]|].
    eapply (move_inv b t); [done..|by left|done].
  - intros [= <-]. by apply write_inv.
  - intros [= <-]. by eapply publish_inv.
Qed.

Lemma arena_step_inv b a b' : inv b → step b a = Some b' → inv b'.
Proof.
  intros Hb. destruct a as [t r|t|t|t| |ids|ids|k]; simpl.
  - destruct (producers b !! t) as [p|] eqn:Ht; [|done]; simpl. intros Hst.
    assert (producer_hold p = None ∧ writes_idx p = None ∧ ∃ data q, transcriptData r = Own data ∧
      startAdd b (mkResult (SessionID_ r) (Own data) (artifact r) (meta r) (schedulingParentID r)
        (schedulingResolved r) data) = Some q ∧ b' = set_producer b t q) as (Hh & Hw & data & q' & Hd & Hq & ->).
    { destruct p; try done; destruct (transcriptData r) as [data|]; try done;
        (destruct (startAdd _ _) as [q'|] eqn:E; [|done]); simplify_eq/=; (split_and!; [done..|]); eauto. }
    unfold startAdd in Hq. cbn [payload] in Hq. repeat case_decide; simplify_eq.
    + eapply (move_inv b t p); [done..|by left|]. simpl. unfold entry_ok; simpl. done.
    + eapply (move_inv b t p); [done..|by left|]. split; [done|]. simpl. lia.
  - destruct (producers b !! t) as [p|] eqn:Ht; [|done]; simpl. by apply arena_run_inv.
  - destruct (producers b !! t) as [[]|] eqn:Ht; try done. intros [= <-].
    eapply (move_inv b t); [done..|by left|]. apply (i_prod _ _ Hb _ _ Ht).
  - destruct (producers b !! t) as [[]|] eqn:Ht; try done. intros [= <-].
    pose proof (i_prod _ _ Hb _ _ Ht) as [? _].
    eapply (move_inv b t); [done..|by left|]. simpl. unfold entry_ok; simpl. done.
  - intros [= <-]. by apply drain_inv.
  - intros [= <-]. by apply commit_inv.
  - intros [= <-]. by apply failed_inv.
  - by apply ack_inv.
Qed.

Lemma new_inv capacity size workers b :
  NewStagingBuffer zero capacity size workers = Some b → inv b.
Proof.
  unfold NewStagingBuffer. repeat case_decide; [done..|]. intros [= <-].
  assert (omap producer_hold (replicate workers (Idle (B := B))) = []) as Hp.
  { induction workers; simpl; [done|]. done. }
  assert (∀ n, omap slot_hold (zip (replicate n Empty) (replicate n (zeroEntry (B := B)))) = []) as Hs.
  { intros n. induction n; simpl; [done|]. done. }
  split; unfold held, arenaSize; simpl; rewrite ?Hp, ?Hs, ?length_replicate; try done; try lia.
  - exists []. split; [done|]. simpl. by rewrite map_to_list_empty.
  - intros t p Ht. by apply lookup_replicate in Ht as [-> _].
  - intros t t' p p' idx Ht. by apply lookup_replicate in Ht as [-> _].
  - intros i Hi. apply lookup_replicate. split; [done|lia].
  - intros i st e Hi. by apply lookup_replicate in Hi as [-> _].
  - split; [constructor|]. intros i. split; [set_solver|]. by intros [? _]%lookup_replicate.
Qed.
End theory.

(** ** What the buffer promises *)

Section properties.
Context {B : Type} (zero : B).
Implicit Types b : StagingBuffer B.

(** The states a run with any number of producers can reach. *)
Definition reaches (capacity size : Z) (workers : nat) b : Prop :=
  ∃ b0 acts, NewStagingBuffer zero capacity size workers = Some b0 ∧ run_steps step b0 acts = Some b.

Lemma arena_reaches_inv capacity size workers b : reaches capacity size workers b → inv_with [] b.
Proof.
  intros (b0 & acts & Hnew & Hrun). eapply run_steps_inv; [|by eapply new_inv|done].
  intros s a s' Hs. by apply arena_step_inv.
Qed.

Lemma slot_held b i st e :
  state b !! i = Some st → st = Ready ∨ st = Claimed → slots b !! i = Some e → 0 < arenaLen e →
  mkHold (arenaStart e - arenaPad e) (arenaStart e + arenaLen e) (arenaStart e) (Some (payload (result e)))
    ∈ held b.
Proof.
  intros Hst Hor He Hl. unfold held. apply elem_of_app. right. apply list_elem_of_omap.
  exists (st, e). split; [eapply list_elem_of_lookup_2, (zip_lookup _ _ i); done|].
  unfold slot_hold, entry_hold; simpl. rewrite decide_True by done. by destruct Hor as [-> | ->].
Qed.

Lemma published_intact b i st e :
  inv_with [] b → state b !! i = Some st → st = Ready ∨ st = Claimed → slots b !! i = Some e →
  deref b (transcriptData (result e)) = payload (result e).
Proof.
  intros Hb Hst Hor He.
  assert (entry_ok b e) as Hok by (eapply (i_slots _ _ Hb); [done|by destruct Hor as [-> | ->]|done]).
  unfold entry_ok in Hok. case_decide as Hl; [|by rewrite Hok].
  destruct Hok as [-> Hlen]. simpl.
  pose proof (proj1 (Forall_forall _ _) (i_holds _ _ Hb) _ (slot_held _ _ _ _ Hst Hor He Hl)) as (_ & _ & Hd).
  destruct (Hd _ eq_refl) as [_ Hr]. simpl in Hr.
  replace (arenaStart e + arenaLen e - arenaStart e) with (arenaLen e) in Hr by lia. exact Hr.
Qed.

(** C14: Whatever producers, drains and acknowledgements interleave, the bytes
    of a published result are exactly the bytes its producer passed to [Add],
    from its publication until its acknowledgement: no other producer's copy
    overwrites them, wrapped or not, and a result staged without a copy keeps
    its own bytes. *)
Theorem staged_bytes_intact capacity size workers b i st e :
  reaches capacity size workers b →
  state b !! i = Some st → st = Ready ∨ st = Claimed → slots b !! i = Some e →
  deref b (transcriptData (result e)) = payload (result e).
Proof.
  intros Hb%arena_reaches_inv. by apply published_intact.
Qed.

(** The ring's accounting is exact. The spans someone still holds and the
    spans released out of order tile the used part of the ring without gap or
    overlap, which never exceeds the arena; once nobody holds a span the ring
    is empty again, wrap gaps included, and then any transcript of at most half
    the arena has room. *)
Theorem arena_accounting capacity size workers b :
  reaches capacity size workers b →
  (∃ c, chain (arenaTail b) (arenaHead b) c ∧ c ≡ₚ (span <$> held b) ++ map_to_list (released b)) ∧
  0 ≤ arenaHead b - arenaTail b ≤ arenaSize b ∧ ArenaUsed b = arenaHead b - arenaTail b ∧
  (held b = [] → ArenaUsed b = 0 ∧ released b = ∅ ∧
    ∀ sz, 0 ≤ sz → 2 * sz ≤ arenaSize b →
      wrapGap (arenaSize b) (arenaHead b) sz + sz ≤ arenaSize b - (arenaHead b - arenaTail b)).
Proof.
  intros Hb%arena_reaches_inv. destruct (i_chain _ _ Hb) as (c & Hc & Hp). simpl in Hp.
  pose proof (chain_le _ _ _ Hc). pose proof (i_cap _ _ Hb). pose proof (i_size _ _ Hb) as HA.
  assert (ArenaUsed b = arenaHead b - arenaTail b) as Hused by (unfold ArenaUsed; case_decide; lia).
  split_and!; [by exists c|lia|lia|done|]. intros Hnil. rewrite Hnil in Hp. simpl in Hp.
  assert (c = []) as ->.
  { destruct c as [|[s e] c]; [done|]. destruct Hc as (-> & _ & _). exfalso.
    assert ((arenaTail b, e) ∈ map_to_list (released b)) as Hin by (rewrite <- Hp; by left).
    apply elem_of_map_to_list in Hin. by rewrite (i_settled _ _ Hb) in Hin. }
  simpl in Hc. split_and!; [lia| |].
  - apply map_to_list_empty_iff. symmetry. by apply Permutation_nil_l.
  - intros sz Hsz H2. unfold wrapGap. pose proof (Z.mod_pos_bound (arenaHead b) (arenaSize b) HA).
    case_decide; lia.
Qed.

(** The parent whose commit or failure opens a result's gate. *)
Definition gate (r : workerResult B) : option SessionID :=
  if schedulingResolved r then schedulingParentID r else mjoin (meta r).

Lemma isEligible_iff b r : isEligible b r = true ↔ ∀ p, gate r = Some p → p ∈ committed b ∨ p ∈ failed b.
Proof.
  unfold isEligible, gate. destruct (schedulingResolved r).
  - destruct (schedulingParentID r) as [p|]; [|naive_solver].
    rewrite orb_true_iff, !bool_decide_eq_true. naive_solver.
  - destruct (meta r) as [[p|]|]; simpl; [|naive_solver..].
    rewrite orb_true_iff, !bool_decide_eq_true. naive_solver.
Qed.

(** A drain returns, in slot order and at most 512 at a time, exactly the
    published results whose gate is open, a result with a parent only when that
    parent was committed or failed before, and marks exactly those slots; the
    prefix it returns is a maximal one. *)
Theorem Drain_exact b :
  ∃ all, StronglySorted lt all ∧
    (∀ i, i ∈ all ↔ (i < count b)%nat ∧ state b !! i = Some Ready ∧
      ∃ e, slots b !! i = Some e ∧ ∀ p, gate (result e) = Some p → p ∈ committed b ∨ p ∈ failed b) ∧
    batches (Drain b).2 = batches b ++ [take DefaultMaxDrainBatch all] ∧
    (Drain b).1 = omap (λ i, result <$> slots b !! i) (take DefaultMaxDrainBatch all) ∧
    (∀ i, state (Drain b).2 !! i =
      if decide (i ∈ take DefaultMaxDrainBatch all) then Some Claimed else state b !! i).
Proof.
  exists (candidates b 0 (take (count b) (zip (state b) (slots b)))). rewrite <- !drainIndices_eq.
  split_and!; [apply candidates_sorted| |done|done|].
  - intros i. rewrite candidates_drainable. unfold drainable. by setoid_rewrite isEligible_iff.
  - intros i. simpl. rewrite claimed_lookup. destruct (decide (i ∈ drainIndices b)) as [Hi|Hi].
    + rewrite decide_True; [done|]. split; [done|].
      apply drainIndices_drainable in Hi as (_ & Hst & _). by eapply lookup_lt_Some.
    + by rewrite decide_False by tauto.
Qed.

Definition rank (st : slotState) : nat :=
  match st with Empty => 0 | Ready => 1 | Claimed => 2 | Acked => 3 end.

Lemma release_state b s e : state (releaseArena b s e) = state b.
Proof. unfold releaseArena. by destruct (advance _ _ _). Qed.

Lemma step_rank b a b' i st :
  inv_with [] b → step b a = Some b' → state b !! i = Some st →
  ∃ st', state b' !! i = Some st' ∧ (rank st ≤ rank st')%nat.
Proof.
  intros Hb Hst Hi. pose proof (lookup_lt_Some _ _ _ Hi) as Hlt.
  assert (∀ j st', (j = i → (rank st ≤ rank st')%nat) → state b' = <[j := st']> (state b) →
    ∃ st', state b' !! i = Some st' ∧ (rank st ≤ rank st')%nat) as Hset.
  { intros j st' Hr ->. destruct (decide (j = i)) as [->|].
    - rewrite list_lookup_insert_eq by done. eauto.
    - rewrite list_lookup_insert_ne by done. eauto. }
  assert (state b' = state b → ∃ st', state b' !! i = Some st' ∧ (rank st ≤ rank st')%nat) as Hsame
    by (intros ->; eauto).
  destruct a as [t r|t|t|t| |ids|ids|k]; simpl in Hst.
  - apply Hsame. destruct (producers b !! t) as [p|]; [|done]. simpl in Hst.
    destruct p; try done; destruct (transcriptData r); try done;
      by destruct (startAdd _ _); simplify_eq/=.
  - destruct (producers b !! t) as [p|] eqn:Ht; [|done]. simpl in Hst.
    pose proof (i_prod _ _ Hb _ _ Ht) as Hok.
    destruct p; simpl in Hst; try done; repeat case_decide; simplify_eq; try by apply Hsame.
    + apply Hsame. by rewrite release_state.
    + eapply (Hset idx Ready); [|done]. intros ->. destruct Hok as (_ & _ & He & _). simplify_eq/=; lia.
  - apply Hsame. by destruct (producers b !! t) as [[]|]; simplify_eq.
  - apply Hsame. by destruct (producers b !! t) as [[]|]; simplify_eq.
  - simplify_eq. simpl. rewrite claimed_lookup. case_decide as Hin; [|eauto].
    destruct Hin as [Hin _]. apply drainIndices_drainable in Hin as (_ & Hr & _).
    exists Claimed. split; [done|]. simplify_eq. simpl. lia.
  - by simplify_eq; apply Hsame.
  - by simplify_eq; apply Hsame.
  - unfold ackOne in Hst. destruct (batches b !! k) as [[|idx r]|]; simplify_eq/=.
    destruct (slots b !! idx); simplify_eq/=. eapply (Hset idx Acked); [intros _; destruct st; simpl; lia|].
    case_decide; [by rewrite release_state|done].
Qed.

(** No result is drained twice: once a slot has been claimed by a drain it
    stays claimed or acknowledged along every later run, and no later drain
    returns it. *)
Theorem drained_at_most_once capacity size workers b i acts b' :
  reaches capacity size workers b → i ∈ drainIndices b →
  run_steps step (Drain b).2 acts = Some b' → i ∉ drainIndices b'.
Proof.
  intros Hb%arena_reaches_inv Hi Hrun Hi'.
  assert (state (Drain b).2 !! i = Some Claimed) as Hst.
  { simpl. rewrite claimed_lookup. apply drainIndices_drainable in Hi as Hd. destruct Hd as (_ & Hs & _).
    rewrite decide_True; [done|]. split; [done|]. by eapply lookup_lt_Some. }
  assert (inv_with [] b' ∧ ∃ st, state b' !! i = Some st ∧ (2 ≤ rank st)%nat) as (_ & st & Hs & Hr).
  { eapply (run_steps_inv step (λ x, inv_with [] x ∧ ∃ st, state x !! i = Some st ∧ (2 ≤ rank st)%nat)); [| |done].
    - intros x a x' (Hx & st & Hs & Hr) Hstep. split; [by eapply arena_step_inv|].
      destruct (step_rank _ _ _ _ _ Hx Hstep Hs) as (st' & ? & ?). exists st'. split; [done|lia].
    - split; [by apply drain_inv|]. by eexists. }
  apply drainIndices_drainable in Hi' as (_ & Hrdy & _). simplify_eq. simpl in Hr. lia.
Qed.

(** *** An addition run by itself *)

Lemma arena_run1 b t p b1 acts :
  producers b !! t = Some p → run_producer b t p = Some b1 →
  run_steps step b (Run t :: acts) = run_steps step b1 acts.
Proof. intros Ht Hr. simpl. rewrite Ht; simpl. by rewrite Hr. Qed.

Lemma set_twice b t p1 p2 : set_producer (set_producer b t p1) t p2 = set_producer b t p2.
Proof. unfold set_producer; simpl. by rewrite list_insert_insert_eq. Qed.

Lemma add_reserves b t r acts :
  inv_with [] b → (∃ p, producers b !! t = Some p) → own_payload r →
  let sz := Z.of_nat (length (payload r)) in
  let gap := wrapGap (arenaSize b) (arenaHead b) sz in
  gap + sz ≤ arenaSize b - (arenaHead b - arenaTail b) →
  run_steps step (set_producer b t (LoadTail r)) (Run t :: Run t :: Run t :: acts) =
  run_steps step (mkBuffer (slots b) (state b) (count b) (arena b) (arenaHead b + (gap + sz)) (arenaTail b)
    (committed b) (failed b) (released b) (ready b)
    (<[t := Copying r (arenaHead b + gap) gap]> (producers b)) (batches b)) acts.
Proof.
  intros Hb [p Ht] _ sz gap Hfit.
  assert (∀ p', producers (set_producer b t p') !! t = Some p') as Hset.
  { intros p'. simpl. apply list_lookup_insert_eq. by eapply lookup_lt_Some. }
  erewrite arena_run1; [|apply Hset|done]. rewrite set_twice.
  erewrite arena_run1; [|apply Hset|done]. rewrite set_twice.
  erewrite arena_run1; [done|apply Hset|]. cbn [run_producer]. cbv zeta.
  change (arenaTail (set_producer b t _)) with (arenaTail b).
  change (arenaHead (set_producer b t _)) with (arenaHead b).
  change (arenaSize (set_producer b t _)) with (arenaSize b). fold sz. fold gap.
  rewrite !decide_True by done. simpl. by rewrite list_insert_insert_eq.
Qed.

(** From the claim of bytes to the publication of the slot. *)
Lemma add_publishes b t r start pad :
  inv_with [] b → producers b !! t = Some (Copying r start pad) → (count b < Cap b)%nat →
  ∃ b', run_steps step b (replicate 5 (Run t)) = Some b' ∧
    producers b' !! t = Some (Returned true) ∧ count b' = S (count b) ∧ ready b' = true ∧
    state b' !! count b = Some Ready ∧
    slots b' !! count b = Some (mkStaged (inArena (arenaSize b) r start) start (Z.of_nat (length (payload r))) pad).
Proof.
  intros Hb Ht Hcnt. unfold Cap in Hcnt. pose proof (i_len _ _ Hb).
  set (len := Z.of_nat (length (payload r))). set (r1 := inArena (arenaSize b) r start).
  pose proof (lookup_lt_Some _ _ _ Ht) as Hlt. simpl replicate.
  erewrite arena_run1; [|exact Ht|done].
  erewrite arena_run1; [|simpl; by apply list_lookup_insert_eq|done].
  unfold set_producer at 1; simpl producers. rewrite list_insert_insert_eq. fold len r1.
  erewrite arena_run1; [|simpl; by apply list_lookup_insert_eq|].
  2: { cbn [run_producer]. cbv zeta. simpl. rewrite decide_False by lia. rewrite decide_True by done.
       by rewrite list_insert_insert_eq. }
  erewrite arena_run1; [|simpl; by apply list_lookup_insert_eq|].
  2: { cbn [run_producer]. simpl. by rewrite list_insert_insert_eq. }
  erewrite arena_run1; [|simpl; by apply list_lookup_insert_eq|].
  2: { cbn [run_producer]. simpl. by rewrite list_insert_insert_eq. }
  eexists. split; [done|]. simpl. split_and!; try done; apply list_lookup_insert_eq; lia.
Qed.

(** An [Add] whose claim fits the free space completes by itself: nine
    steps stage the result in the next slot, published, with the drainer
    woken, and the stored slice denotes the producer's bytes. *)
Theorem Add_completes capacity size workers b t r data :
  reaches capacity size workers b →
  producers b !! t = Some Idle → (count b < Cap b)%nat → transcriptData r = Own data →
  0 < Z.of_nat (length data) →
  wrapGap (arenaSize b) (arenaHead b) (Z.of_nat (length data)) + Z.of_nat (length data)
    ≤ arenaSize b - (arenaHead b - arenaTail b) →
  ∃ b' e, run_steps step b (Add t r :: replicate 8 (Run t)) = Some b' ∧
    producers b' !! t = Some (Returned true) ∧ count b' = S (count b) ∧ ready b' = true ∧
    state b' !! count b = Some Ready ∧ slots b' !! count b = Some e ∧
    payload (result e) = data ∧ deref b' (transcriptData (result e)) = data.
Proof.
  intros Hb%arena_reaches_inv Ht Hcnt Hown Hpos Hfit. pose proof (i_size _ _ Hb) as HA.
  set (r' := mkResult (SessionID_ r) (Own data) (artifact r) (meta r) (schedulingParentID r)
    (schedulingResolved r) data).
  destruct (i_chain _ _ Hb) as (c & Hc & _). apply chain_le in Hc.
  destruct (wrapGap_bounds (arenaSize b) (arenaHead b) (Z.of_nat (length data)) HA) as [Hgap _].
  assert (step b (Add t r) = Some (set_producer b t (LoadTail r'))) as Hadd.
  { simpl. rewrite Ht; simpl. rewrite Hown. unfold startAdd; simpl.
    by rewrite !decide_False by lia. }
  assert (own_payload r') as Hop by (split; [done|simpl; lia]).
  pose proof (arena_step_inv _ _ _ Hb Hadd) as Hb1.
  set (gap := wrapGap (arenaSize b) (arenaHead b) (Z.of_nat (length data))) in *.
  set (b2 := mkBuffer (slots b) (state b) (count b) (arena b) (arenaHead b + (gap + Z.of_nat (length data)))
    (arenaTail b) (committed b) (failed b) (released b) (ready b)
    (<[t := Copying r' (arenaHead b + gap) gap]> (producers b)) (batches b)).
  assert (∀ acts, run_steps step b (Add t r :: Run t :: Run t :: Run t :: acts) = run_steps step b2 acts) as Hres.
  { intros acts. change (run_steps step b (Add t r :: ?l)) with (s ← step b (Add t r); run_steps step s l).
    rewrite Hadd. cbn [mbind option_bind]. apply (add_reserves b t r' acts); [done|by eexists|done..]. }
  assert (inv_with [] b2) as Hb2.
  { eapply (run_steps_inv step (inv_with []) b); [by eauto using arena_step_inv|done|apply (Hres [])]. }
  assert (producers b2 !! t = Some (Copying r' (arenaHead b + gap) gap)) as Ht2.
  { simpl. apply list_lookup_insert_eq. by eapply lookup_lt_Some. }
  destruct (add_publishes b2 t r' _ _ Hb2 Ht2 Hcnt) as (b' & Hrun & Hret & Hcount & Hrdy & Hst & Hsl).
  exists b', (mkStaged (inArena (arenaSize b2) r' (arenaHead b + gap)) (arenaHead b + gap)
    (Z.of_nat (length data)) gap).
  split_and!; try done; [exact (eq_trans (Hres _) Hrun)|].
  assert (inv_with [] b') as Hb' by (eapply run_steps_inv; [|exact Hb2|exact Hrun]; by eauto using arena_step_inv).
  exact (published_intact b' _ Ready _ Hb' Hst (or_introl eq_refl) Hsl).
Qed.
End properties.

(** ** Concrete runs *)

Definition demo_result (id : string) (parent : option SessionID) (data : list nat) : workerResult nat :=
  mkResult id (Own data) None None parent true [].

(** A four-byte arena: two results, a drain, an acknowledgement, and a third
    result that wraps. *)
Definition demo_actions : list (action nat) :=
  (Add 0 (demo_result "root" None [1; 2; 3]%nat) :: replicate 8 (Run 0)) ++
  [DoDrain; DoAck 0; DoCommit ["root"]] ++
  (Add 1 (demo_result "child" (Some "root") [7; 8]%nat) :: replicate 8 (Run 1)).

Definition demo_buffer : StagingBuffer nat :=
  Eval vm_compute in default (mkBuffer [] [] 0 [] 0 0 ∅ ∅ ∅ false [] [])
    (b ← NewStagingBuffer 0%nat 3 4 2; run_steps step b demo_actions).

Lemma arena_demo_reaches : reaches 0%nat 3 4 2 demo_buffer.
Proof. eexists _, demo_actions. split; [reflexivity|]. vm_compute. reflexivity. Defined.

Example demo_wrapped :
  (arena demo_buffer, arenaTail demo_buffer, arenaHead demo_buffer, drainIndices demo_buffer)
  = ([7; 8; 3; 0]%nat, 3, 6, [1%nat]).
Proof. vm_compute. reflexivity. Qed.

Lemma staged_bytes_intact_witness :
  ∃ e, slots demo_buffer !! 1%nat = Some e ∧ deref demo_buffer (transcriptData (result e)) = [7; 8]%nat.
Proof.
  eexists. split; [reflexivity|].
  etrans; [eapply (staged_bytes_intact 0%nat 3 4 2 demo_buffer 1%nat Ready)|].
  - exact arena_demo_reaches.
  - reflexivity.
  - by left.
  - reflexivity.
  - vm_compute. reflexivity.
Defined.

Lemma arena_accounting_witness : ArenaUsed demo_buffer = 6 - 3 ∧ 0 ≤ 6 - 3 ≤ 4.
Proof.
  destruct (arena_accounting 0%nat 3 4 2 demo_buffer) as (_ & Hb & Hu & _).
  - exact arena_demo_reaches.
  - split; [exact Hu|exact Hb].
Defined.

Lemma drained_at_most_once_witness : (1%nat ∉ drainIndices (Drain demo_buffer).2).
Proof.
  apply (drained_at_most_once 0%nat 3 4 2 demo_buffer 1%nat [] (Drain demo_buffer).2).
  - exact arena_demo_reaches.
  - vm_compute. set_solver.
  - reflexivity.
Defined.

Lemma Add_completes_witness :
  ∃ b, NewStagingBuffer 0%nat 3 4 2 = Some b ∧
  ∃ b' e, run_steps step b (Add 0 (demo_result "root" None [1; 2; 3]%nat) :: replicate 8 (Run 0)) = Some b' ∧
    slots b' !! 0%nat = Some e ∧ deref b' (transcriptData (result e)) = [1; 2; 3]%nat.
Proof.
  eexists. split; [reflexivity|].
  destruct (Add_completes 0%nat 3 4 2 (default demo_buffer (NewStagingBuffer 0%nat 3 4 2)) 0
    (demo_result "root" None [1; 2; 3]%nat) [1; 2; 3]%nat) as (b' & e & Hr & _ & _ & _ & _ & Hs & _ & Hd).
  - eexists _, []. by split.
  - reflexivity.
  - vm_compute. lia.
  - reflexivity.
  - vm_compute. reflexivity.
  - vm_compute. discriminate.
  - exists b', e. split; [exact Hr|]. by split.
Defined.
