(* ===== verification/WriteBudgets.v ===== *)
(** * The write budgets

    [internal/ingest/write_config.go] and [worker_headroom.go]: the [write] section of
    the configuration, its YAML form, defaults and validation; and the one splitter,
    [ExceedsWriteBudget] of [pipeline.go], with the two loops that cut a list of jobs
    into windows by it: the stage and activation windows of
    [generation_batch_pipeline.go] and the body sub-transactions of
    [internal/store/harmonized_migrate_session.go].

    Durations and byte counts are [int64] and wrap around ([i64]). *)
From S2P Require Import Prelude.
Local Open Scope list_scope.
Local Open Scope Z_scope.

(** ** Configuration *)

Record WriteConfig := {
  HoldTarget : Z;              (* nanoseconds *)
  ActivationSessions : Z;
  BatchBytes : Z;
  BatchSessions : Z;
  BufferBytes : Z;
  StagedMemoryBytes : Z;
  FlushIntervalMs : Z;
  SweepRows : Z;
  HarvestTarget : Z;           (* nanoseconds *)
}.

Definition Millisecond : Z := 1000000.
Definition Minute : Z := 60000000000.
Definition SQLiteBusyTimeout : Z := 5000000000.
Definition WriteDefaultHoldTarget : Z := Z.quot (SQLiteBusyTimeout * 4) 5.
Definition WriteDefaultActivationSessions : Z := 64.
Definition WriteDefaultBatchBytes : Z := Z.shiftl 32 20.
Definition WriteDefaultBatchSessions : Z := 64.
Definition WriteDefaultBufferBytes : Z := Z.shiftl 16 20.
Definition WriteDefaultFlushIntervalMs : Z := 500.
Definition WriteDefaultSweepRows : Z := 5000.
Definition WriteDefaultHarvestTarget : Z := 20 * Minute.

(** The on-disk shape: an absent key is [None]. *)
Record writeConfigYAML := {
  y_HoldTargetMs : option Z;
  y_ActivationSessions : option Z;
  y_BatchBytes : option Z;
  y_BatchSessions : option Z;
  y_BufferBytes : option Z;
  y_StagedMemoryBytes : option Z;
  y_FlushIntervalMs : option Z;
  y_SweepRows : option Z;
  y_HarvestTargetMins : option Z;
}.

Definition writeKeys : list string :=
  ["holdTargetMs"; "activationSessions"; "batchBytes"; "batchSessions"; "bufferBytes"; "stagedMemoryBytes";
   "flushIntervalMs"; "sweepRows"; "harvestTargetMinutes"]%string.

(** The YAML library: the keys of a mapping node, decoding into the shape and
    encoding it. *)
Class WriteYaml := {
  yaml_Node : Type;
  MappingKeys : yaml_Node → option (list string);   (* [None]: not a mapping *)
  yaml_Decode : yaml_Node → option writeConfigYAML;
  yaml_Encode : writeConfigYAML → yaml_Node;
}.

Inductive WriteError :=
  | UnknownWriteKey (key : string)
  | WriteDecode
  | HoldNotPositive | HoldOverBusyTimeout
  | ActivationSessionsBelow1 | BatchBytesBelow1 | BatchSessionsBelow1 | BufferBytesBelow1
  | StagedBelowMinimum (minStaged : Z)
  | FlushIntervalBelow1 | SweepRowsBelow1
  | HarvestNotPositive
  | HeadroomShort (reserved : Z).

Section yaml.
Context {Y : WriteYaml}.

(** The first key that is not one of [writeKeys]. *)
Fixpoint unknownKey (keys : list string) : option string :=
  match keys with
  | [] => None
  | key :: keys => if decide (key ∈ writeKeys) then unknownKey keys else Some key
  end.

Definition UnmarshalYAML (w : WriteConfig) (value : yaml_Node) : result WriteError WriteConfig :=
  match unknownKey (default [] (MappingKeys value)) with
  | Some key => Err (UnknownWriteKey key)
  | None =>
    match yaml_Decode value with
    | None => Err WriteDecode
    | Some raw => Ok {|
        HoldTarget := from_option (λ ms, i64 (ms * Millisecond)) (HoldTarget w) (y_HoldTargetMs raw);
        ActivationSessions := default (ActivationSessions w) (y_ActivationSessions raw);
        BatchBytes := default (BatchBytes w) (y_BatchBytes raw);
        BatchSessions := default (BatchSessions w) (y_BatchSessions raw);
        BufferBytes := default (BufferBytes w) (y_BufferBytes raw);
        StagedMemoryBytes := default (StagedMemoryBytes w) (y_StagedMemoryBytes raw);
        FlushIntervalMs := default (FlushIntervalMs w) (y_FlushIntervalMs raw);
        SweepRows := default (SweepRows w) (y_SweepRows raw);
        HarvestTarget := from_option (λ m, i64 (m * Minute)) (HarvestTarget w) (y_HarvestTargetMins raw) |}
    end
  end.

Definition MarshalYAML (w : WriteConfig) : writeConfigYAML :=
  {| y_HoldTargetMs := Some (Z.quot (HoldTarget w) Millisecond);
     y_ActivationSessions := Some (ActivationSessions w);
     y_BatchBytes := Some (BatchBytes w);
     y_BatchSessions := Some (BatchSessions w);
     y_BufferBytes := Some (BufferBytes w);
     y_StagedMemoryBytes := Some (StagedMemoryBytes w);
     y_FlushIntervalMs := Some (FlushIntervalMs w);
     y_SweepRows := Some (SweepRows w);
     y_HarvestTargetMins := Some (Z.quot (HarvestTarget w) Minute) |}.
End yaml.

(** ** Defaults and validation *)

Definition derivedStagedMemoryBytes (w : WriteConfig) (workers : Z) : Z :=
  let workers := if decide (workers < 1) then 1 else workers in
  i64 (i64 (2 * BatchBytes w) + i64 (workers * BufferBytes w)).

Definition set_Staged (w : WriteConfig) (n : Z) : WriteConfig :=
  {| HoldTarget := HoldTarget w; ActivationSessions := ActivationSessions w; BatchBytes := BatchBytes w;
     BatchSessions := BatchSessions w; BufferBytes := BufferBytes w; StagedMemoryBytes := n;
     FlushIntervalMs := FlushIntervalMs w; SweepRows := SweepRows w; HarvestTarget := HarvestTarget w |}.

Definition DefaultWriteConfig (workers : Z) : WriteConfig :=
  let workers := if decide (workers < 1) then 1 else workers in
  let cfg := {| HoldTarget := WriteDefaultHoldTarget; ActivationSessions := WriteDefaultActivationSessions;
                BatchBytes := WriteDefaultBatchBytes; BatchSessions := WriteDefaultBatchSessions;
                BufferBytes := WriteDefaultBufferBytes; StagedMemoryBytes := 0;
                FlushIntervalMs := WriteDefaultFlushIntervalMs; SweepRows := WriteDefaultSweepRows;
                HarvestTarget := WriteDefaultHarvestTarget |} in
  set_Staged cfg (derivedStagedMemoryBytes cfg workers).

(** [defaultWriteConfig] of the config package: the cap is left to the use sites. *)
Definition defaultWriteConfig : WriteConfig := set_Staged (DefaultWriteConfig 1) 0.

(** [if w.X == 0 { w.X = def.X }]. *)
Definition orDefault (x def : Z) : Z := if decide (x = 0) then def else x.

Definition WithDefaults (w : WriteConfig) (workers : Z) : WriteConfig :=
  let def := DefaultWriteConfig workers in
  let w := {| HoldTarget := orDefault (HoldTarget w) (HoldTarget def);
              ActivationSessions := orDefault (ActivationSessions w) (ActivationSessions def);
              BatchBytes := orDefault (BatchBytes w) (BatchBytes def);
              BatchSessions := orDefault (BatchSessions w) (BatchSessions def);
              BufferBytes := orDefault (BufferBytes w) (BufferBytes def);
              StagedMemoryBytes := StagedMemoryBytes w;
              FlushIntervalMs := orDefault (FlushIntervalMs w) (FlushIntervalMs def);
              SweepRows := orDefault (SweepRows w) (SweepRows def);
              HarvestTarget := orDefault (HarvestTarget w) (HarvestTarget def) |} in
  set_Staged w (orDefault (StagedMemoryBytes w) (derivedStagedMemoryBytes w workers)).

Definition Validate (w : WriteConfig) : result WriteError unit :=
  require bool_decide (0 < HoldTarget w) else HoldNotPositive in
  require bool_decide (HoldTarget w ≤ SQLiteBusyTimeout) else HoldOverBusyTimeout in
  require bool_decide (1 ≤ ActivationSessions w) else ActivationSessionsBelow1 in
  require bool_decide (1 ≤ BatchBytes w) else BatchBytesBelow1 in
  require bool_decide (1 ≤ BatchSessions w) else BatchSessionsBelow1 in
  require bool_decide (1 ≤ BufferBytes w) else BufferBytesBelow1 in
  let minStaged := i64 (i64 (2 * BatchBytes w) + BufferBytes w) in
  require bool_decide (minStaged ≤ StagedMemoryBytes w) else StagedBelowMinimum minStaged in
  require bool_decide (1 ≤ FlushIntervalMs w) else FlushIntervalBelow1 in
  require bool_decide (1 ≤ SweepRows w) else SweepRowsBelow1 in
  require bool_decide (0 < HarvestTarget w) else HarvestNotPositive in
  Ok tt.

Definition validatedWithDefaults (w : WriteConfig) (workers : Z) : result WriteError WriteConfig :=
  let resolved := WithDefaults w workers in
  let? _u := Validate resolved in Ok resolved.

Definition checkCapacities (w : WriteConfig) (workers : Z) : result WriteError unit :=
  let reserved := i64 (workers * BufferBytes w) in
  require bool_decide (reserved ≤ StagedMemoryBytes w) else HeadroomShort reserved in Ok tt.

(** What [NewPipeline] checks before the first session is read. *)
Definition acceptWrite (w : WriteConfig) (workers : Z) : result WriteError WriteConfig :=
  let? resolved := validatedWithDefaults w workers in
  let? _u := checkCapacities resolved workers in Ok resolved.

(** [parallelWorkers]. *)
Definition parallelWorkers (Parallelism NumCPU : Z) : Z := if decide (0 < Parallelism) then Parallelism else NumCPU.

(** [Pipeline.writeConfig]. *)
Definition writeConfig (w : WriteConfig) (Parallelism NumCPU : Z) : WriteConfig :=
  WithDefaults w (parallelWorkers Parallelism NumCPU).

Definition FlushInterval (w : WriteConfig) : Z := i64 (FlushIntervalMs w * Millisecond).

(** ** The splitter *)

Definition ExceedsWriteBudget (cfg : WriteConfig) (pendingCount pendingBytes nextBytes : Z) (sessionCaps : option Z) : bool :=
  let cap := match sessionCaps with Some cap => cap | None => BatchSessions cfg end in
  if decide (cap ≤ pendingCount) then true
  else bool_decide (0 < pendingCount) && bool_decide (BatchBytes cfg < pendingBytes + nextBytes).

Section windows.
Context {A : Type} (size : A → Z) (cfg : WriteConfig).

(** One window: jobs are taken until the splitter stops it. *)
Fixpoint window (cap count bytes : Z) (jobs : list A) : list A * list A :=
  match jobs with
  | [] => ([], [])
  | job :: rest =>
    if ExceedsWriteBudget cfg count bytes (size job) (Some cap) then ([], jobs)
    else let '(w, rest) := window cap (count + 1) (bytes + size job) rest in (job :: w, rest)
  end.

(** The loop of [stageAndCommitNativeBatches] over the windows of one cap. *)
Fixpoint windows (fuel : nat) (cap : Z) (jobs : list A) : option (list (list A)) :=
  match jobs with
  | [] => Some []
  | _ =>
    match fuel with
    | O => None
    | S fuel =>
      let '(w, rest) := window cap 0 0 jobs in
      ws ← windows fuel cap rest; Some (w :: ws)
    end
  end.

(** A stage transaction feeds the activation transactions of its window. *)
Definition stageAndCommitNativeBatches (fuel : nat) (ready : list A) : option (list (list A * list (list A))) :=
  ws ← windows fuel (BatchSessions cfg) ready;
  mapM (λ w, acts ← windows fuel (ActivationSessions cfg) w; Some (w, acts)) ws.

(** The body sub-transactions of [stageMigrateObjects]: the positions flushed
    together, when every flush succeeds. *)
Fixpoint subTransactions (pending : list A) (pendingBytes : Z) (bodies : list A) : list (list A) :=
  match bodies with
  | [] => if decide (0 < length pending)%nat then [pending] else []
  | body :: bodies =>
    if bool_decide (0 < length pending)%nat
       && ExceedsWriteBudget cfg (Z.of_nat (length pending)) pendingBytes (size body) None
    then pending :: subTransactions [body] (size body) bodies
    else subTransactions (pending ++ [body]) (pendingBytes + size body) bodies
  end.

(** *** Windows *)

Definition sizes (l : list A) : Z := foldr (λ x n, size x + n) 0 l.

(** A write window: not empty, within its cap, and within the byte cap unless it is
    a single job. *)
Definition window_ok (cap : Z) (w : list A) : Prop :=
  w ≠ [] ∧ Z.of_nat (length w) ≤ cap ∧ (sizes w ≤ BatchBytes cfg ∨ length w = 1%nat).

Lemma sizes_app l1 l2 : sizes (l1 ++ l2) = sizes l1 + sizes l2.
Proof. induction l1 as [|x l1 IH]; cbn; [done|]. unfold sizes in IH. rewrite IH. unfold sizes. lia. Qed.

Lemma exceeds_true n b x caps :
  ExceedsWriteBudget cfg n b x caps = true ↔ match caps with Some cap => cap | None => BatchSessions cfg end ≤ n ∨ (0 < n ∧ BatchBytes cfg < b + x).
Proof. unfold ExceedsWriteBudget. destruct (decide _); [tauto|]. rewrite andb_true_iff, !bool_decide_eq_true. tauto. Qed.

Lemma exceeds_false n b x caps :
  ExceedsWriteBudget cfg n b x caps = false ↔ n < match caps with Some cap => cap | None => BatchSessions cfg end ∧ (n ≤ 0 ∨ b + x ≤ BatchBytes cfg).
Proof. rewrite <-not_true_iff_false, exceeds_true. lia. Qed.

(** What a window continues: [pre] was taken, with its count and bytes. *)
Lemma window_spec cap pre jobs :
  (pre = [] → 1 ≤ cap) → (pre ≠ [] → window_ok cap pre) → jobs ≠ [] →
  let '(w, rest) := window cap (Z.of_nat (length pre)) (sizes pre) jobs in
  jobs = w ++ rest ∧ window_ok cap (pre ++ w)
  ∧ (∀ x, head rest = Some x → ¬ window_ok cap (pre ++ w ++ [x])).
Proof.
  revert pre. induction jobs as [|job jobs IH]; intros pre Hcap Hpre Hne; [done|]. clear Hne. cbn.
  destruct (ExceedsWriteBudget _ _ _ _ _) eqn:E.
  - apply exceeds_true in E. cbn beta iota in E.
    assert (pre ≠ []) as Hne.
    { intros ->. specialize (Hcap eq_refl). cbn in E. lia. }
    rewrite app_nil_r. split; [done|]. split; [by apply Hpre|]. intros x [= <-] (_ & Hlen & Hb).
    assert (0 < length pre)%nat by (destruct pre; cbn; [done|lia]).
    rewrite app_nil_l, length_app in *. cbn [length] in *. rewrite sizes_app in Hb. cbn in Hb. lia.
  - apply exceeds_false in E. cbn beta iota in E.
    assert (window_ok cap (pre ++ [job])) as Hok.
    { split; [by destruct pre|]. rewrite length_app, sizes_app. cbn [length sizes foldr]. split; [lia|].
      destruct E as [_ [E|E]]; [right; lia|left; lia]. }
    assert (window cap (Z.of_nat (length pre) + 1) (sizes pre + size job) jobs
            = window cap (Z.of_nat (length (pre ++ [job]))) (sizes (pre ++ [job])) jobs) as ->.
    { f_equal; [rewrite length_app; cbn [length]; lia|rewrite sizes_app; cbn; lia]. }
    destruct (decide (jobs = [])) as [->|Hne]; [by cbn|].
    specialize (IH (pre ++ [job])). destruct (window _ _ _ jobs) as [w rest].
    destruct IH as (-> & Hw & Hmax); [by destruct pre|done|done|].
    rewrite <-app_assoc in Hw. cbn in Hw. split; [done|]. split; [done|].
    intros x Hx. specialize (Hmax x Hx). by rewrite <-app_assoc in Hmax.
Qed.

Lemma window_first cap jobs w rest :
  1 ≤ cap → jobs ≠ [] → window cap 0 0 jobs = (w, rest) →
  jobs = w ++ rest ∧ window_ok cap w ∧ (∀ x, head rest = Some x → ¬ window_ok cap (w ++ [x])).
Proof.
  intros Hcap Hne E. pose proof (window_spec cap [] jobs (λ _, Hcap) (λ H, False_ind _ (H eq_refl)) Hne) as H.
  change (Z.of_nat (@length A [])) with 0 in H. change (sizes []) with 0 in H. by rewrite E in H.
Qed.

(** The greedy cut of a list into windows, each as long as it can be. *)
Inductive greedy (cap : Z) : list A → list (list A) → Prop :=
  | greedy_nil : greedy cap [] []
  | greedy_cons w rest ws :
      window_ok cap w → (∀ x, head rest = Some x → ¬ window_ok cap (w ++ [x])) →
      greedy cap rest ws → greedy cap (w ++ rest) (w :: ws).

Lemma greedy_concat cap jobs ws : greedy cap jobs ws → concat ws = jobs ∧ Forall (window_ok cap) ws.
Proof. induction 1 as [|w rest ws Hw Hm H [<- IH]]; [by split|]. split; [done|by constructor]. Qed.

Lemma windows_greedy fuel cap jobs :
  1 ≤ cap → (length jobs ≤ fuel)%nat → ∃ ws, windows fuel cap jobs = Some ws ∧ greedy cap jobs ws.
Proof.
  intros Hcap. revert jobs. induction fuel as [|fuel IH]; intros jobs Hf.
  { destruct jobs; cbn in Hf; [|lia]. exists []. split; [done|constructor]. }
  destruct (decide (jobs = [])) as [->|Hne]; [exists []; split; [done|constructor]|].
  destruct (window cap 0 0 jobs) as [w rest] eqn:E.
  destruct (window_first _ _ _ _ Hcap Hne E) as (Hj & Hw & Hm).
  assert (0 < length w)%nat as Hlw by (destruct Hw as [Hw _]; destruct w; cbn; [done|lia]).
  destruct (IH rest) as (ws & Hws & Hg). { rewrite Hj, length_app in Hf. lia. }
  exists (w :: ws). split; [|rewrite Hj; by constructor].
  destruct jobs as [|job jobs]; [done|]. cbn [windows]. by rewrite E, Hws.
Qed.

(** A cap below one never ends the outer loop. *)
Lemma windows_stuck fuel cap jobs : cap < 1 → jobs ≠ [] → windows fuel cap jobs = None.
Proof.
  intros Hcap. revert jobs. induction fuel as [|fuel IH]; intros [|job jobs] Hne; try done. cbn.
  assert (ExceedsWriteBudget cfg 0 0 (size job) (Some cap) = true) as -> by (apply exceeds_true; left; cbn; lia).
  by rewrite IH.
Qed.

(** Two greedy cuts are the same. *)
Lemma window_ok_prefix cap w l x : (∀ y, 0 ≤ size y) → w ≠ [] → window_ok cap (w ++ x :: l) → window_ok cap (w ++ [x]).
Proof.
  intros Hs Hw (_ & Hlen & Hb). assert (0 ≤ sizes l) as Hl.
  { clear -Hs. induction l as [|y l IH]; [done|]. cbn. pose proof (Hs y). unfold sizes in IH. lia. }
  split; [by destruct w|]. rewrite !length_app, !sizes_app in *. cbn [length sizes foldr] in *. fold (sizes l) in Hb. lia.
Qed.

Lemma greedy_unique cap jobs ws ws' : (∀ y, 0 ≤ size y) → greedy cap jobs ws → greedy cap jobs ws' → ws = ws'.
Proof.
  intros Hs Hg. revert ws'. induction Hg as [|w rest ws Hw Hm Hg IH]; intros ws' Hg'.
  - inversion Hg' as [|w' rest' ws'' Hw' Hm' Hg'' E]; [done|]. destruct Hw' as [Hw' _]. by destruct w'.
  - remember (w ++ rest) as jobs eqn:Hj. destruct Hg' as [|w' rest' ws'' Hw' Hm' Hg''].
    + destruct Hw as [Hw _]. by destruct w.
    + apply app_eq_inv in Hj as [(l & -> & ->)|(l & -> & ->)].
      * destruct l as [|x l]; [rewrite app_nil_r in *; f_equal; by apply IH|].
        destruct (Hm x eq_refl). eapply window_ok_prefix; [done| |exact Hw']. by destruct Hw.
      * destruct l as [|x l]; [rewrite app_nil_r in *; f_equal; by apply IH|].
        destruct (Hm' x eq_refl). eapply window_ok_prefix; [done| |exact Hw]. by destruct Hw'.
Qed.

(** The sub-transactions are the greedy cut by the session cap. *)
Lemma subTransactions_greedy pending bodies :
  1 ≤ BatchSessions cfg → window_ok (BatchSessions cfg) pending →
  greedy (BatchSessions cfg) (pending ++ bodies) (subTransactions pending (sizes pending) bodies).
Proof.
  intros Hcap. revert pending. induction bodies as [|body bodies IH]; intros pending Hp; cbn.
  - assert (0 < length pending)%nat by (destruct Hp as [Hp _]; destruct pending; cbn; [done|lia]).
    rewrite decide_True by done. rewrite app_nil_r. rewrite <-(app_nil_r pending) at 1. constructor; [done|done|constructor].
  - assert (0 < length pending)%nat as Hl by (destruct Hp as [Hp _]; destruct pending; cbn; [done|lia]).
    rewrite bool_decide_eq_true_2 by done. cbn.
    assert (Hone : ∀ x, window_ok (BatchSessions cfg) [x]).
    { intros x. split; [done|]. split; [cbn [length]; lia|by right]. }
    destruct (ExceedsWriteBudget _ _ _ _ _) eqn:E.
    + apply exceeds_true in E. cbn beta iota in E. constructor; [done| |].
      * intros x [= <-] (_ & Hlen & Hb). rewrite length_app, sizes_app in *. cbn [length sizes foldr] in *. lia.
      * specialize (IH [body] (Hone body)). cbn in IH. by rewrite Z.add_0_r in IH.
    + apply exceeds_false in E. cbn beta iota in E. specialize (IH (pending ++ [body])).
      rewrite sizes_app, <-app_assoc in IH. cbn in IH. rewrite Z.add_0_r in IH. apply IH.
      split; [by destruct pending|]. rewrite length_app, sizes_app. cbn [length sizes foldr]. lia.
Qed.
End windows.

(** ** What is accepted *)

(** The sums the validation computes fit an [int64]. *)
Definition sums_fit (w : WriteConfig) (workers : Z) : Prop :=
  - 2 ^ 63 ≤ 2 * BatchBytes w < 2 ^ 63 ∧ - 2 ^ 63 ≤ workers * BufferBytes w < 2 ^ 63
  ∧ - 2 ^ 63 ≤ 2 * BatchBytes w + BufferBytes w < 2 ^ 63
  ∧ - 2 ^ 63 ≤ 2 * BatchBytes w + workers * BufferBytes w < 2 ^ 63.

(** Every knob within its documented bound. *)
Definition usable (w : WriteConfig) : Prop :=
  0 < HoldTarget w ≤ SQLiteBusyTimeout ∧ 1 ≤ ActivationSessions w ∧ 1 ≤ BatchBytes w ∧ 1 ≤ BatchSessions w
  ∧ 1 ≤ BufferBytes w ∧ 1 ≤ FlushIntervalMs w ∧ 1 ≤ SweepRows w ∧ 0 < HarvestTarget w.

(** Room for two batches in flight and the buffers of the workers. *)
Definition room (w : WriteConfig) (workers : Z) : Prop :=
  2 * BatchBytes w + BufferBytes w ≤ StagedMemoryBytes w ∧ workers * BufferBytes w ≤ StagedMemoryBytes w.

Lemma Validate_iff w workers :
  sums_fit w workers →
  Validate w = Ok tt ↔ usable w ∧ 2 * BatchBytes w + BufferBytes w ≤ StagedMemoryBytes w.
Proof.
  intros (H1 & _ & H3 & _). unfold Validate, usable.
  rewrite (i64_small (2 * _)) by done. rewrite i64_small by done.
  rewrite !res_guard_ok, !bool_decide_eq_true. intuition lia.
Qed.

(** What the drain relies on of accepted budgets. *)
Lemma Validate_room w :
  Validate w = Ok tt → 2 * BatchBytes w + BufferBytes w < 2 ^ 63 →
  (1 ≤ BatchBytes w ∧ 1 ≤ BufferBytes w) ∧ 2 * BatchBytes w + BufferBytes w ≤ StagedMemoryBytes w.
Proof.
  intros Hv Hfit. unfold Validate in Hv. rewrite !res_guard_ok, !bool_decide_eq_true in Hv.
  destruct Hv as (_ & _ & _ & HB & _ & Hbuf & Hmin & _). rewrite (i64_small (2 * _)), i64_small in Hmin by lia. lia.
Qed.

Lemma orDefault_idem x d : orDefault (orDefault x d) d = orDefault x d.
Proof. unfold orDefault. repeat case_decide; congruence. Qed.

Lemma WithDefaults_idem w workers : WithDefaults (WithDefaults w workers) workers = WithDefaults w workers.
Proof. unfold WithDefaults, set_Staged, derivedStagedMemoryBytes. cbn. by rewrite !orDefault_idem. Qed.

Lemma derived_cap w workers :
  1 ≤ workers → StagedMemoryBytes w = 0 →
  StagedMemoryBytes (WithDefaults w workers) = derivedStagedMemoryBytes (WithDefaults w workers) workers.
Proof. intros _ Hw. unfold WithDefaults, orDefault at 1, derivedStagedMemoryBytes. cbn. by rewrite Hw. Qed.

(** C24: with at least one worker and sums that fit an int64, a pipeline starts with exactly the write budgets that, after the defaults, keep every documented bound and leave room for two batches and the buffers of all workers; a cap left unset is derived and always leaves that room; and resolving the budgets again at a use site gives the validated ones. *)
Theorem acceptWrite_exact w workers cfg :
  1 ≤ workers → sums_fit (WithDefaults w workers) workers →
  (acceptWrite w workers = Ok cfg ↔ cfg = WithDefaults w workers ∧ usable cfg ∧ room cfg workers)
  ∧ (StagedMemoryBytes w = 0 → usable (WithDefaults w workers) → room (WithDefaults w workers) workers)
  ∧ WithDefaults (WithDefaults w workers) workers = WithDefaults w workers.
Proof.
  intros Hw Hfit. split; [|split; [|apply WithDefaults_idem]].
  - unfold acceptWrite, validatedWithDefaults. rewrite res_bind_ok. setoid_rewrite res_seq_ok.
    setoid_rewrite (Validate_iff _ workers Hfit). unfold checkCapacities, room.
    destruct Hfit as (_ & H2 & _ & _). split.
    + intros (w' & ((Hu & Hr) & [= <-]) & Hc & [= <-]). rewrite i64_small in Hc by done.
      apply res_guard_ok in Hc as [Hc%bool_decide_eq_true _]. done.
    + intros (-> & Hu & Hr & Hc). exists (WithDefaults w workers). split; [done|]. split; [|done].
      rewrite i64_small by done. by rewrite bool_decide_eq_true_2.
  - intros H0 Hu. unfold room. rewrite derived_cap by done. unfold derivedStagedMemoryBytes.
    destruct Hfit as (H1 & H2 & H3 & H4). rewrite decide_False by lia.
    rewrite (i64_small (2 * _)), (i64_small (workers * _)), i64_small by done.
    destruct Hu as (_ & _ & ? & _ & ? & _). nia.
Qed.

(** ** Round trip *)

Class WriteYamlLaws (Y : WriteYaml) := {
  yaml_Decode_Encode : ∀ raw, yaml_Decode (yaml_Encode raw) = Some raw;
  yaml_keys_Encode : ∀ raw, ∃ keys, MappingKeys (yaml_Encode raw) = Some keys ∧ keys ⊆ writeKeys;
}.

Lemma unknownKey_none keys : keys ⊆ writeKeys → unknownKey keys = None.
Proof.
  induction keys as [|key keys IH]; intros Hk; cbn; [done|].
  rewrite decide_True by (apply Hk; left). apply IH. intros k Hin. apply Hk. by right.
Qed.

Lemma whole_unit x unit : 0 < unit → - 2 ^ 63 ≤ x < 2 ^ 63 → Z.rem x unit = 0 → i64 (Z.quot x unit * unit) = x.
Proof.
  intros Hu Hx Hr. assert (Z.quot x unit * unit = x) as -> by (pose proof (Z.quot_rem' x unit); lia).
  by apply i64_small.
Qed.

(** A saved write section reads back as the budgets it was written from, over any other budgets, when its durations are whole milliseconds and minutes. *)
Theorem write_config_reads_back {Y : WriteYaml} {HY : WriteYamlLaws Y} base w :
  - 2 ^ 63 ≤ HoldTarget w < 2 ^ 63 → - 2 ^ 63 ≤ HarvestTarget w < 2 ^ 63 →
  Z.rem (HoldTarget w) Millisecond = 0 → Z.rem (HarvestTarget w) Minute = 0 →
  UnmarshalYAML base (yaml_Encode (MarshalYAML w)) = Ok w.
Proof.
  intros Hh Hm Hrh Hrm. unfold UnmarshalYAML. destruct (yaml_keys_Encode (MarshalYAML w)) as (keys & -> & Hk). cbn.
  rewrite (unknownKey_none _ Hk), yaml_Decode_Encode. cbn. rewrite !whole_unit by done. by destruct w.
Qed.

(** ** The windows of the write lanes *)

(** C22: under accepted budgets the stage and activation windows end and cut the candidates in order: every stage window and every activation window in it is non-empty, within its session cap, within the byte cap unless it is a single candidate, and as long as those caps allow; a cap below one would never end. *)
Theorem native_windows_exact {A} (size : A → Z) cfg (ready : list A) :
  usable cfg →
  (∃ plan, stageAndCommitNativeBatches size cfg (length ready) ready = Some plan
    ∧ greedy size cfg (BatchSessions cfg) ready (fst <$> plan)
    ∧ Forall (λ wa, greedy size cfg (ActivationSessions cfg) wa.1 wa.2) plan
    ∧ concat ((λ wa, concat wa.2) <$> plan) = ready)
  ∧ (∀ fuel cap, cap < 1 → ready ≠ [] → windows size cfg fuel cap ready = None).
Proof.
  intros (_ & Ha & _ & Hb & _). split; [|intros fuel cap; apply windows_stuck].
  destruct (windows_greedy size cfg (length ready) (BatchSessions cfg) ready Hb (le_n _)) as (ws & Hws & Hg).
  assert (∀ w, w ∈ ws → (length w ≤ length ready)%nat) as Hlen.
  { intros w (l1 & l2 & E)%list_elem_of_split. apply greedy_concat in Hg as [<- _].
    rewrite E, concat_app, length_app. cbn. rewrite length_app. lia. }
  assert (∃ plan, mapM (λ w, acts ← windows size cfg (length ready) (ActivationSessions cfg) w; Some (w, acts)) ws = Some plan
    ∧ fst <$> plan = ws ∧ Forall (λ wa, greedy size cfg (ActivationSessions cfg) wa.1 wa.2) plan
    ∧ concat ((λ wa, concat wa.2) <$> plan) = concat ws) as (plan & Hp & Hf & Hall & Hc).
  { clear Hws Hg. induction ws as [|w ws IH]; [by exists []|].
    destruct (windows_greedy size cfg (length ready) (ActivationSessions cfg) w Ha) as (acts & Hw & Hga); [apply Hlen; left|].
    destruct IH as (plan & Hp & Hf & Hall & Hc); [intros w' Hw'; apply Hlen; by right|].
    exists ((w, acts) :: plan). cbn. rewrite Hw. cbn. rewrite Hp. cbn. rewrite Hf, Hc.
    split; [done|]. split; [done|]. split; [by constructor|]. by rewrite (proj1 (greedy_concat _ _ _ _ _ Hga)). }
  exists plan. unfold stageAndCommitNativeBatches. rewrite Hws. cbn. rewrite Hp, Hf, Hc.
  split; [done|]. split; [done|]. split; [done|]. by destruct (greedy_concat _ _ _ _ _ Hg).
Qed.

(** C23: the migration cuts the bodies of a session exactly as the harvest cuts candidates: its sub-transactions are the windows of the one splitter at the session cap. *)
Theorem migration_windows_agree {A} (size : A → Z) cfg (bodies : list A) :
  usable cfg → (∀ body, 0 ≤ size body) →
  windows size cfg (length bodies) (BatchSessions cfg) bodies = Some (subTransactions size cfg [] 0 bodies).
Proof.
  intros (_ & _ & _ & Hb & _) Hs.
  destruct (windows_greedy size cfg (length bodies) (BatchSessions cfg) bodies Hb (le_n _)) as (ws & -> & Hg).
  f_equal. eapply greedy_unique; [exact Hs|exact Hg|].
  destruct bodies as [|body bodies]; [constructor|]. cbn [subTransactions length].
  rewrite bool_decide_eq_false_2 by lia. cbn [andb app].
  replace (0 + size body) with (sizes size [body]) by (cbn; lia).
  apply (subTransactions_greedy size cfg [body] bodies Hb).
  split; [done|]. split; [cbn [length]; lia|by right].
Qed.

(** ** Concrete runs *)

Module Demo.
(** Nodes are documents; every present key is a key of the mapping. *)
Definition present (raw : writeConfigYAML) : list string :=
  omap (λ kv : string * option Z, match kv.2 with Some _ => Some kv.1 | None => None end)
    (zip writeKeys [y_HoldTargetMs raw; y_ActivationSessions raw; y_BatchBytes raw; y_BatchSessions raw; y_BufferBytes raw;
                    y_StagedMemoryBytes raw; y_FlushIntervalMs raw; y_SweepRows raw; y_HarvestTargetMins raw]).
#[export] Instance demo_yaml : WriteYaml :=
  {| yaml_Node := writeConfigYAML; MappingKeys raw := Some (present raw); yaml_Decode raw := Some raw; yaml_Encode raw := raw |}.
#[export] Instance demo_yaml_laws : WriteYamlLaws demo_yaml.
Proof.
  split; [done|]. intros raw. exists (present raw). split; [done|].
  intros k Hk. apply list_elem_of_omap in Hk as ((k', v) & Hin & Hk). apply elem_of_zip_l in Hin.
  cbn in Hk. by destruct v; simplify_eq.
Qed.

Definition absent : writeConfigYAML :=
  {| y_HoldTargetMs := None; y_ActivationSessions := None; y_BatchBytes := None; y_BatchSessions := None; y_BufferBytes := None;
     y_StagedMemoryBytes := None; y_FlushIntervalMs := None; y_SweepRows := None; y_HarvestTargetMins := None |}.
Definition zeroWrite : WriteConfig := Build_WriteConfig 0 0 0 0 0 0 0 0 0.

Definition accepted (w : WriteConfig) (workers : Z) : bool := match acceptWrite w workers with Ok _ => true | Err _ => false end.

Example defaults_accepted :
  (λ cfg, (StagedMemoryBytes cfg, HoldTarget cfg)) <$>
    match acceptWrite zeroWrite 8 with Ok cfg => Some cfg | Err _ => None end = Some (201326592, 4000000000).
Proof. vm_compute. reflexivity. Qed.

(** A hold target of 584 years is read as 448 microseconds and accepted. *)
Example hold_target_wraps :
  let doc := {| y_HoldTargetMs := Some 18446744073710; y_ActivationSessions := None; y_BatchBytes := None; y_BatchSessions := None;
                y_BufferBytes := None; y_StagedMemoryBytes := None; y_FlushIntervalMs := None; y_SweepRows := None;
                y_HarvestTargetMins := None |} in
  match UnmarshalYAML zeroWrite doc with
  | Ok cfg => HoldTarget cfg = 448384 ∧ accepted cfg 8 = true
  | Err _ => False
  end.
Proof. vm_compute. by split. Qed.

(** The room asked of the cap wraps around: a cap of one buffer is accepted beside
    batches of [2^62] bytes. *)
Example staged_minimum_wraps :
  let w := Build_WriteConfig 0 0 (2 ^ 62) 0 0 16777216 0 0 0 in
  accepted w 1 = true ∧ StagedMemoryBytes w < 2 * BatchBytes w.
Proof. vm_compute. by split. Qed.
End Demo.
Import Demo.

Lemma acceptWrite_exact_witness : acceptWrite Demo.zeroWrite 8 = Ok (WithDefaults Demo.zeroWrite 8).
Proof.
  apply (acceptWrite_exact Demo.zeroWrite 8 (WithDefaults Demo.zeroWrite 8)).
  - lia.
  - vm_compute. repeat split; done.
  - split; [reflexivity|]. vm_compute. repeat split; done.
Defined.

Lemma write_config_reads_back_witness :
  UnmarshalYAML Demo.zeroWrite (yaml_Encode (MarshalYAML (DefaultWriteConfig 8))) = Ok (DefaultWriteConfig 8).
Proof.
  apply (write_config_reads_back Demo.zeroWrite (DefaultWriteConfig 8)); vm_compute; first [done|by split].
Defined.

Lemma demo_usable : usable (DefaultWriteConfig 8).
Proof. vm_compute. repeat split; done. Qed.

Lemma native_windows_exact_witness :
  ∃ plan, stageAndCommitNativeBatches id (DefaultWriteConfig 8) 3 [10; 40000000; 7] = Some plan
    ∧ concat ((λ wa, concat wa.2) <$> plan) = [10; 40000000; 7].
Proof.
  destruct (native_windows_exact id (DefaultWriteConfig 8) [10; 40000000; 7] demo_usable) as [(plan & Hp & _ & _ & Hc) _].
  exists plan. split; [exact Hp|exact Hc].
Defined.

Lemma migration_windows_agree_witness :
  windows (Z.max 0) (DefaultWriteConfig 8) 3 64 [10; 40000000; 7] = Some (subTransactions (Z.max 0) (DefaultWriteConfig 8) [] 0 [10; 40000000; 7]).
Proof.
  apply (migration_windows_agree (Z.max 0) (DefaultWriteConfig 8) [10; 40000000; 7] demo_usable).
  intros body. apply Z.le_max_l.
Defined.
