(* ===== verification/StageBatches.v ===== *)
(** * Staging transactions

    [internal/store/harmonized_commit.go]: the objects of prepared candidates are cut
    into transactions by the one splitter ([stageUnits], [splitStageBatch]), every
    transaction sets the crash flag of its sessions before it inserts their objects
    ([stageBatchTxn], [insertStagedBodyOnConn], [insertStagedBlobOnConn]), and staging
    proves every object present before the commit ([stageHarmonizedBatch],
    [verifyStagedObjects]); with the two readers of a staged blob,
    [readMigrateBlobBytes] and the byte proof of the repair gate.

    The database is its four tables.  A statement is data; executing it applies its
    conflict clause and the foreign keys and checks of [schema_v62.go], and may fail
    for any other reason; a failed transaction is rolled back. *)
From Stdlib Require Import Init.Byte.
From S2P Require Import Prelude WriteBudgets.
Local Open Scope list_scope.
Local Open Scope Z_scope.

(** ** Data *)

Definition SessionID : Type := string.
Definition Digest : Type := string.
Notation bytes := (list byte).

(** A body row: its digest and the length of [serializeEntry]. *)
Record EntryRecord := { er_Digest : Digest; er_Length : N }.
Record preparedBlob := { pb_digest : Digest; pb_data : bytes }.

(** What staging reads of [preparedHarmonized]; [ph_storable] is the answer of
    [validateEntriesForStorage]. *)
Record preparedHarmonized := {
  ph_sessionID : SessionID;
  ph_bodies : list EntryRecord;
  ph_bodyDigests : list Digest;
  ph_blobs : list preparedBlob;
  ph_storable : bool;
}.

Inductive stageUnit := BodyUnit (body : EntryRecord) | BlobUnit (blob : preparedBlob).

Definition unit_bytes (u : stageUnit) : Z :=
  match u with BodyUnit body => Z.of_N (er_Length body) | BlobUnit blob => Z.of_nat (length (pb_data blob)) end.

Definition stageUnits (prepared : preparedHarmonized) : list stageUnit :=
  (BodyUnit <$> ph_bodies prepared) ++ (BlobUnit <$> ph_blobs prepared).

Definition sum_units (l : list stageUnit) : Z := foldr (λ u n, unit_bytes u + n) 0 l.

Record stagedSessionObjects := { ss_session : SessionID; ss_units : list stageUnit; ss_bytes : Z }.
Record stageBatch := { sb_sessions : list SessionID; sb_units : list (SessionID * stageUnit); sb_last : bool }.

Definition objectsOf (candidate : preparedHarmonized) : stagedSessionObjects :=
  let units := stageUnits candidate in
  {| ss_session := ph_sessionID candidate; ss_units := units; ss_bytes := sum_units units |}.

(** ** Cutting the objects into transactions *)

(** The variables of [splitStageBatch]; a session is in [currentSessionSet] when it is
    in [currentSessions]. *)
Record splitState := mkSplit {
  batches : list stageBatch;
  current : list (SessionID * stageUnit);
  currentSessions : list SessionID;
  currentBytes : Z;
}.

Definition flush (st : splitState) : splitState :=
  if decide (current st = []) then st
  else mkSplit (batches st ++ [{| sb_sessions := currentSessions st; sb_units := current st; sb_last := false |}]) [] [] 0.

Definition append (session : SessionID) (st : splitState) (u : stageUnit) : splitState :=
  mkSplit (batches st) (current st ++ [(session, u)]) (currentSessions st) (currentBytes st + unit_bytes u).

Definition mark (session : SessionID) (st : splitState) : splitState :=
  if decide (session ∈ currentSessions st) then st
  else mkSplit (batches st) (current st) (currentSessions st ++ [session]) (currentBytes st).

Section split.
Context (cfg : WriteConfig).

(** A unit of a session over the byte cap. *)
Definition oversizedUnit (session : SessionID) (st : splitState) (u : stageUnit) : splitState :=
  let st := if bool_decide (current st ≠ []) && ExceedsWriteBudget cfg 1 (currentBytes st) (unit_bytes u) None
            then flush st else st in
  mark session (append session st u).

Definition splitSession (st : splitState) (s : stagedSessionObjects) : splitState :=
  let st := if ExceedsWriteBudget cfg (Z.of_nat (length (currentSessions st))) (currentBytes st) (ss_bytes s) None
            then flush st else st in
  if decide (BatchBytes cfg < ss_bytes s) then foldl (oversizedUnit (ss_session s)) st (ss_units s)
  else mark (ss_session s) (foldl (append (ss_session s)) st (ss_units s)).

Definition set_last (n i : nat) (b : stageBatch) : stageBatch :=
  {| sb_sessions := sb_sessions b; sb_units := sb_units b; sb_last := bool_decide (S i = n) |}.

Definition splitStageBatch (sessions : list stagedSessionObjects) : list stageBatch :=
  let batches := batches (flush (foldl splitSession (mkSplit [] [] [] 0) sessions)) in
  imap (set_last (length batches)) batches.
End split.

(** ** The database *)

Record database := mkDB {
  db_sessions : gmap SessionID bool;                       (* [content_sweep_pending] *)
  session_entry_bodies : gset (SessionID * Digest);
  session_content : gmap (SessionID * Digest) Z;           (* [byte_length] *)
  session_content_chunks : gmap (SessionID * Digest) (gmap nat bytes);   (* by [chunk_index] *)
}.

Inductive statement :=
  | SetSweepPending (session : SessionID)
  | InsertBody (session : SessionID) (digest : Digest)
  | InsertContent (session : SessionID) (digest : Digest) (byteLength : Z)
  | InsertChunk (session : SessionID) (digest : Digest) (index : nat) (data : bytes).

Definition fullContentChunkBytes : nat := 64 * 1024.
Lemma fullContentChunkBytes_Z : Z.of_nat fullContentChunkBytes = 65536.
Proof. unfold fullContentChunkBytes. lia. Qed.
#[global] Opaque fullContentChunkBytes.

(** The chunks stored for a blob. *)
Definition chunksOf (db : database) (session : SessionID) (digest : Digest) : gmap nat bytes :=
  default ∅ (session_content_chunks db !! (session, digest)).

(** An insert that meets a row with its key does nothing; one that does not is checked. *)
Definition exec (s : statement) (db : database) : option database :=
  match s with
  | SetSweepPending session =>
    Some (mkDB (alter (λ _, true) session (db_sessions db)) (session_entry_bodies db) (session_content db) (session_content_chunks db))
  | InsertBody session digest =>
    if decide ((session, digest) ∈ session_entry_bodies db) then Some db
    else if decide (is_Some (db_sessions db !! session)) then
      Some (mkDB (db_sessions db) ({[(session, digest)]} ∪ session_entry_bodies db) (session_content db) (session_content_chunks db))
    else None
  | InsertContent session digest byteLength =>
    if decide (is_Some (session_content db !! (session, digest))) then Some db
    else if decide (is_Some (db_sessions db !! session)) then
      Some (mkDB (db_sessions db) (session_entry_bodies db) (<[(session, digest) := byteLength]> (session_content db)) (session_content_chunks db))
    else None
  | InsertChunk session digest index data =>
    if decide (is_Some (chunksOf db session digest !! index)) then Some db
    else if decide (is_Some (session_content db !! (session, digest)) ∧ (1 ≤ length data ≤ fullContentChunkBytes)%nat) then
      Some (mkDB (db_sessions db) (session_entry_bodies db) (session_content db) (<[(session, digest) := <[index := data]> (chunksOf db session digest)]> (session_content_chunks db)))
    else None
  end.

(** The chunk loop of [insertStagedBlobOnConn] from chunk [index] on; a chunk has at
    least a byte, so the length of the data is fuel enough. *)
Fixpoint chunkRows (size : nat) (fuel index : nat) (data : bytes) : list (nat * bytes) :=
  match fuel with
  | O => []
  | S fuel =>
    if decide (index * size < length data)%nat then
      let end_ := Nat.min ((index + 1) * size) (length data) in
      (index, take (end_ - index * size) (drop (index * size) data))
      :: (if decide (end_ = length data) then [] else chunkRows size fuel (S index) data)
    else []
  end.

Definition insertStagedBlobOnConn (session : SessionID) (blob : preparedBlob) : list statement :=
  InsertContent session (pb_digest blob) (Z.of_nat (length (pb_data blob)))
  :: ((λ row, InsertChunk session (pb_digest blob) row.1 row.2)
      <$> chunkRows fullContentChunkBytes (length (pb_data blob)) 0 (pb_data blob)).

Definition insertUnit (entry : SessionID * stageUnit) : list statement :=
  match entry.2 with
  | BodyUnit body => [InsertBody entry.1 (er_Digest body)]
  | BlobUnit blob => insertStagedBlobOnConn entry.1 blob
  end.

(** The statements of [stageBatchTxn] in order. *)
Definition batchStatements (batch : stageBatch) : list statement :=
  (SetSweepPending <$> sb_sessions batch) ++ (sb_units batch ≫= insertUnit).

(** [fails n]: the [n]-th statement fails for a reason of its own. *)
Fixpoint execAll (fails : nat → bool) (n : nat) (ss : list statement) (db : database) : option database :=
  match ss with
  | [] => Some db
  | s :: ss => if fails n then None else db ← exec s db; execAll fails (S n) ss db
  end.

(** A transaction commits all of its statements or none.  The statement after the last
    is [COMMIT]; when it fails everything is rolled back, and its error goes to
    [txnErr], which the function that already returned [nil] does not read. *)
Definition stageBatchTxn (fails : nat → bool) (batch : stageBatch) (db : database) : database * bool :=
  match execAll fails 0 (batchStatements batch) db with
  | Some db' => if fails (length (batchStatements batch)) then (db, true) else (db', true)
  | None => (db, false)
  end.

(** ** Staging a batch of candidates *)

Inductive StageError :=
  | Cancelled
  | NotStorable (session : SessionID)
  | NoConnection
  | TxnFailed (n : nat)
  | VerifyFailed (session : SessionID) (digest : Digest)
  | BodyMissing (session : SessionID) (digest : Digest)
  | BlobMissing (session : SessionID) (digest : Digest).

(** What surrounds a run: whether the context has ended at a point, whether a
    connection is refused, which statement of a transaction or of a verification
    fails, and what other writers do before a transaction and before the
    verification; connections are numbered in the order they are taken. *)
Record world := {
  ctxDone : nat → bool;
  takeFails : nat → bool;
  stmtFails : nat → nat → bool;
  others : nat → database → database;
}.

Section stage.
Context (w : world) (cfg : WriteConfig).

(** The loop over the candidates, with the oversize advisories it reports. *)
Fixpoint collect (i : nat) (prepared : list preparedHarmonized) : list (SessionID * Z) * result StageError (list stagedSessionObjects) :=
  match prepared with
  | [] => ([], Ok [])
  | candidate :: rest =>
    if ctxDone w i then ([], Err Cancelled)
    else if negb (ph_storable candidate) then ([], Err (NotStorable (ph_sessionID candidate)))
    else
      let objects := objectsOf candidate in
      let advisory := if decide (BatchBytes cfg < ss_bytes objects) then [(ss_session objects, ss_bytes objects)] else [] in
      let '(advisories, sessions) := collect (S i) rest in
      (advisory ++ advisories, let? sessions := sessions in Ok (objects :: sessions))
  end.

(** The loop over the transactions; [k] counts the points where the context is asked. *)
Fixpoint runTxns (k n : nat) (txns : list stageBatch) (db : database) : database * result StageError unit :=
  match txns with
  | [] => (db, Ok tt)
  | txn :: rest =>
    let db := others w n db in
    if ctxDone w k then (db, Err Cancelled)
    else if takeFails w n then (db, Err NoConnection)
    else
      let '(db, ok) := stageBatchTxn (stmtFails w n) txn db in
      if ok then runTxns (S k) (S n) rest db else (db, Err (TxnFailed n))
  end.

Definition verifyStagedObjects (fails : nat → bool) (db : database) (prepared : preparedHarmonized) : result StageError unit :=
  let? _u := res_iter (λ j digest,
    require negb (fails j) else VerifyFailed (ph_sessionID prepared) digest in
    require bool_decide ((ph_sessionID prepared, digest) ∈ session_entry_bodies db)
    else BodyMissing (ph_sessionID prepared) digest in Ok tt) 0 (ph_bodyDigests prepared) in
  res_iter (λ j blob,
    require negb (fails (length (ph_bodyDigests prepared) + j)%nat) else VerifyFailed (ph_sessionID prepared) (pb_digest blob) in
    require bool_decide (is_Some (session_content db !! (ph_sessionID prepared, pb_digest blob)))
    else BlobMissing (ph_sessionID prepared) (pb_digest blob) in Ok tt) 0 (ph_blobs prepared).

Definition stageHarmonizedBatch (prepared : list preparedHarmonized) (db : database) :
    database * list (SessionID * Z) * result StageError unit :=
  if decide (length prepared = 0)%nat then (db, [], Ok tt)
  else
    let '(advisories, sessions) := collect 0 prepared in
    match sessions with
    | Err e => (db, advisories, Err e)
    | Ok sessions =>
      let txns := splitStageBatch cfg sessions in
      let '(db, r) := runTxns (length prepared) 0 txns db in
      match r with
      | Err e => (db, advisories, Err e)
      | Ok _ =>
        let db := others w (length txns) db in
        (db, advisories,
         res_iter (λ i candidate,
           if takeFails w (length txns + i)%nat then Err NoConnection
           else verifyStagedObjects (stmtFails w (length txns + i)%nat) db candidate) 0 prepared)
      end
    end.
End stage.

(** ** Reading a blob *)

(** [SELECT … ORDER BY chunk_index]: the rows of a blob by ascending index; every
    stored index is below the bound. *)
Definition indexBound (rows : gmap nat bytes) : nat := map_fold (λ index _ bound, Nat.max (S index) bound) O rows.
Definition blobChunks (db : database) (session : SessionID) (digest : Digest) : list (nat * bytes) :=
  let rows := chunksOf db session digest in
  omap (λ index, pair index <$> rows !! index) (seq 0 (indexBound rows)).

Definition readMigrateBlobBytes (db : database) (session : SessionID) (digest : Digest) : option bytes :=
  let payload := concat (snd <$> blobChunks db session digest) in
  if decide (payload ≠ []) then Some payload
  else if decide (session_content db !! (session, digest) = Some 0) then Some []
  else None.

(** The byte proof of the repair gate: whether the stored blob is damaged. *)
Definition blobDamaged (SHA256 : bytes → Digest) (db : database) (session : SessionID) (digest : Digest) : bool :=
  match session_content db !! (session, digest) with
  | None => true
  | Some byteLength =>
    let rows := blobChunks db session digest in
    let total := Z.of_nat (length (concat (snd <$> rows))) in
    let contiguous := bool_decide (fst <$> rows = seq 0 (length rows)) in
    let wantChunks := Z.quot (byteLength + 65535) 65536 in
    if negb contiguous || bool_decide (Z.of_nat (length rows) ≠ wantChunks) || bool_decide (total ≠ byteLength) then true
    else bool_decide (SHA256 (concat (snd <$> rows)) ≠ digest)
  end.

(** ** The cut of the objects *)

Definition tagged (s : stagedSessionObjects) : list (SessionID * stageUnit) := pair (ss_session s) <$> ss_units s.
Definition sum_tagged (l : list (SessionID * stageUnit)) : Z := sum_units (snd <$> l).

Lemma sum_units_app l1 l2 : sum_units (l1 ++ l2) = sum_units l1 + sum_units l2.
Proof. induction l1 as [|u l1 IH]; cbn; [done|]. unfold sum_units in IH. rewrite IH. unfold sum_units. lia. Qed.
Lemma sum_units_nonneg l : 0 ≤ sum_units l.
Proof. induction l as [|u l IH]; cbn; [done|]. unfold sum_units in IH. assert (0 ≤ unit_bytes u) by (destruct u; cbn; lia). lia. Qed.
Lemma sum_tagged_app l1 l2 : sum_tagged (l1 ++ l2) = sum_tagged l1 + sum_tagged l2.
Proof. unfold sum_tagged. by rewrite fmap_app, sum_units_app. Qed.
Lemma sum_tagged_of s : sum_tagged (tagged s) = sum_units (ss_units s).
Proof. unfold sum_tagged, tagged. rewrite <-list_fmap_compose. f_equal. by apply list_fmap_id. Qed.

Section cut.
Context (cfg : WriteConfig).

(** A transaction: not empty, within the byte cap unless it is a single object, and
    marking every session it holds an object of, once. *)
Definition txn_ok (sessions : list SessionID) (units : list (SessionID * stageUnit)) : Prop :=
  units ≠ [] ∧ (sum_tagged units ≤ BatchBytes cfg ∨ length units = 1%nat)
  ∧ NoDup sessions ∧ ∀ e, e ∈ units → e.1 ∈ sessions.

(** The state after the objects [acc]. *)
Record split_ok (acc : list (SessionID * stageUnit)) (st : splitState) : Prop := {
  so_done : concat (sb_units <$> batches st) ++ current st = acc;
  so_batches : Forall (λ b, txn_ok (sb_sessions b) (sb_units b)) (batches st);
  so_bytes : currentBytes st = sum_tagged (current st);
  so_fits : current st ≠ [] → currentBytes st ≤ BatchBytes cfg ∨ length (current st) = 1%nat;
  so_nodup : NoDup (currentSessions st);
  so_marked : ∀ e, e ∈ current st → e.1 ∈ currentSessions st;
}.

Lemma flush_ok acc st : split_ok acc st → split_ok acc (flush st).
Proof.
  intros [Hd Hb Hby Hf Hn Hm]. unfold flush. case_decide as E; [by split|]. split; cbn; try done.
  - rewrite fmap_app, concat_app. cbn. by rewrite !app_nil_r.
  - apply Forall_app. split; [done|]. constructor; [|done]. rewrite Hby in Hf. split; [done|]. split; [by apply Hf|done].
  - constructor.
  - by intros e ?%not_elem_of_nil.
Qed.

Lemma flush_current st : current (flush st) = [].
Proof. unfold flush. by case_decide. Qed.

Lemma mark_fields session st :
  batches (mark session st) = batches st ∧ current (mark session st) = current st
  ∧ currentBytes (mark session st) = currentBytes st.
Proof. unfold mark. by case_decide. Qed.

Lemma mark_sessions session st :
  NoDup (currentSessions st) →
  NoDup (currentSessions (mark session st)) ∧ ∀ x, x ∈ currentSessions (mark session st) ↔ x ∈ currentSessions st ∨ x = session.
Proof.
  intros Hn. unfold mark. case_decide as E; cbn.
  - split; [done|]. intros x. split; [by left|]. by intros [?| ->].
  - split.
    + apply NoDup_app. split; [done|]. split; [|apply NoDup_singleton]. by intros x Hx ->%list_elem_of_singleton.
    + intros x. by rewrite elem_of_app, list_elem_of_singleton.
Qed.

(** Objects of one session join the current transaction. *)
Lemma units_join_ok acc st session units st' :
  split_ok acc st → units ≠ [] → currentBytes st + sum_units units ≤ BatchBytes cfg ∨ (current st = [] ∧ length units = 1%nat) →
  batches st' = batches st → current st' = current st ++ (pair session <$> units) →
  currentSessions st' = currentSessions st → currentBytes st' = currentBytes st + sum_units units →
  split_ok (acc ++ (pair session <$> units)) (mark session st').
Proof.
  intros [Hd Hb Hby Hf Hn Hm] Hu Hfit E1 E2 E3 E4. destruct (mark_fields session st') as (M1 & M2 & M3).
  destruct (mark_sessions session st') as [Mn Ms]; [by rewrite E3|].
  assert (sum_tagged (pair session <$> units) = sum_units units) as Hs
    by apply (sum_tagged_of {| ss_session := session; ss_units := units; ss_bytes := 0 |}).
  split; rewrite ?M1, ?M2, ?M3, ?E1, ?E2, ?E4.
  - by rewrite app_assoc, Hd.
  - done.
  - by rewrite Hby, sum_tagged_app, Hs.
  - intros _. destruct Hfit as [?|[-> Hl]]; [by left|right]. cbn. by rewrite length_fmap.
  - done.
  - intros e [He|He]%elem_of_app; apply Ms; [left; rewrite E3; by apply Hm|right].
    by apply list_elem_of_fmap in He as (u & -> & _).
Qed.

Lemma oversizedUnit_ok acc st session u :
  split_ok acc st → split_ok (acc ++ [(session, u)]) (oversizedUnit cfg session st u).
Proof.
  intros Hok. unfold oversizedUnit.
  set (st0 := if _ && _ then _ else _).
  assert (split_ok acc st0 ∧ (current st0 = [] ∨ currentBytes st0 + unit_bytes u ≤ BatchBytes cfg)) as [H0 Hfit].
  { unfold st0. destruct (_ && _) eqn:E.
    - split; [by apply flush_ok|]. left. apply flush_current.
    - split; [done|]. apply andb_false_iff in E as [E|E].
      + apply bool_decide_eq_false in E. left. by destruct (current st); [|destruct E].
      + apply exceeds_false in E as [_ E]. right. lia. }
  apply (units_join_ok _ st0 session [u]); try done.
  - destruct Hfit as [Hc|Hb]; [by right|left; cbn; lia].
  - cbn. lia.
Qed.

Lemma oversized_ok acc st session units :
  split_ok acc st → split_ok (acc ++ (pair session <$> units)) (foldl (oversizedUnit cfg session) st units).
Proof.
  revert acc st. induction units as [|u units IH]; intros acc st Hok; cbn; [by rewrite app_nil_r|].
  specialize (IH _ _ (oversizedUnit_ok _ _ session u Hok)). by rewrite <-app_assoc in IH.
Qed.

Lemma append_all session units st :
  foldl (append session) st units
  = mkSplit (batches st) (current st ++ (pair session <$> units)) (currentSessions st) (currentBytes st + sum_units units).
Proof.
  revert st. induction units as [|u units IH]; intros st; cbn.
  - rewrite app_nil_r, Z.add_0_r. by destruct st.
  - rewrite IH. unfold append. cbn. rewrite <-app_assoc. cbn. f_equal. fold (sum_units units). lia.
Qed.

(** Before an ordinary session the current transaction has room for it. *)
Lemma room_before acc st s :
  split_ok acc st → ss_bytes s = sum_units (ss_units s) → ss_bytes s ≤ BatchBytes cfg →
  let st0 := if ExceedsWriteBudget cfg (Z.of_nat (length (currentSessions st))) (currentBytes st) (ss_bytes s) None
             then flush st else st in
  split_ok acc st0 ∧ currentBytes st0 + sum_units (ss_units s) ≤ BatchBytes cfg.
Proof.
  intros Hok Hs Hle. cbv zeta.
  assert (∀ st1, split_ok acc st1 → current st1 = [] → currentBytes st1 = 0) as Hz.
  { intros st1 [_ _ Hb _ _ _] Hc. rewrite Hb, Hc. done. }
  destruct (ExceedsWriteBudget _ _ _ _ _) eqn:E.
  - pose proof (flush_ok _ _ Hok) as Hok'. split; [done|]. rewrite (Hz _ Hok' (flush_current st)). lia.
  - split; [done|]. apply exceeds_false in E as [_ [E|E]]; [|lia].
    assert (currentSessions st = []) as Hcs by (destruct (currentSessions st); cbn in E; [done|lia]).
    rewrite (Hz _ Hok); [lia|]. destruct (current st) as [|e l] eqn:Hc; [done|].
    pose proof (so_marked _ _ Hok e) as Hm. rewrite Hc, Hcs in Hm. destruct (not_elem_of_nil e.1). apply Hm. left.
Qed.

Lemma mark_idle acc st session : split_ok acc st → split_ok acc (mark session st).
Proof.
  intros [Hd Hb Hby Hf Hn Hm]. destruct (mark_fields session st) as (M1 & M2 & M3).
  destruct (mark_sessions session st Hn) as [Mn Ms]. split; rewrite ?M1, ?M2, ?M3; try done.
  intros e He. apply Ms. left. by apply Hm.
Qed.

Lemma splitSession_ok acc st s :
  split_ok acc st → ss_bytes s = sum_units (ss_units s) → split_ok (acc ++ tagged s) (splitSession cfg st s).
Proof.
  intros Hok Hs. unfold splitSession. case_decide as Hbig.
  - apply oversized_ok. case_match; [by apply flush_ok|done].
  - destruct (room_before _ _ _ Hok Hs) as [H0 Hfit]; [lia|]. set (st0 := if ExceedsWriteBudget _ _ _ _ _ then _ else _) in *.
    rewrite append_all. destruct (decide (ss_units s = [])) as [E|E].
    + unfold tagged. rewrite E. cbn. rewrite !app_nil_r, Z.add_0_r. destruct st0 as [b c cs cb]. by apply mark_idle.
    + apply (units_join_ok _ st0); try done. by left.
Qed.

Lemma split_fold_ok acc st sessions :
  split_ok acc st → Forall (λ s, ss_bytes s = sum_units (ss_units s)) sessions →
  split_ok (acc ++ (sessions ≫= tagged)) (foldl (splitSession cfg) st sessions).
Proof.
  revert acc st. induction sessions as [|s sessions IH]; intros acc st Hok Hs; cbn; [by rewrite app_nil_r|].
  apply Forall_cons in Hs as [H1 H2]. rewrite app_assoc. apply IH; [|done]. by apply splitSession_ok.
Qed.

(** *** An ordinary session stays in one transaction *)

Definition within (l m : list (SessionID * stageUnit)) : Prop := ∃ pre post : list (SessionID * stageUnit), m = pre ++ l ++ post.
Definition kept (l : list (SessionID * stageUnit)) (st : splitState) : Prop :=
  (∃ b, b ∈ batches st ∧ within l (sb_units b)) ∨ within l (current st).

Lemma kept_flush l st : l ≠ [] → kept l st → kept l (flush st).
Proof.
  intros Hl Hk. unfold flush. case_decide as E; [done|]. left. destruct Hk as [(b & Hb & Hw)|Hw].
  - exists b. split; [apply elem_of_app; by left|done].
  - eexists. split; [apply elem_of_app; right; left|done].
Qed.

Lemma kept_append l st st' more :
  kept l st → batches st' = batches st → current st' = current st ++ more → kept l st'.
Proof.
  intros Hk E1 E2. unfold kept. rewrite E1, E2. destruct Hk as [?|(pre & post & ->)]; [by left|right].
  exists pre, (post ++ more). by rewrite <-!app_assoc.
Qed.

Lemma kept_splitSession l st s : l ≠ [] → kept l st → kept l (splitSession cfg st s).
Proof.
  intros Hl Hk. unfold splitSession.
  assert (kept l (if ExceedsWriteBudget cfg (Z.of_nat (length (currentSessions st))) (currentBytes st) (ss_bytes s) None
                  then flush st else st)) as H0 by (case_match; [by apply kept_flush|done]).
  set (st0 := if ExceedsWriteBudget _ _ _ _ _ then _ else _) in *. case_decide.
  - clearbody st0. revert st0 H0. induction (ss_units s) as [|u units IH]; intros st0 H0; cbn; [done|]. apply IH.
    unfold oversizedUnit. set (st1 := if _ && _ then _ else _).
    assert (kept l st1) as H1 by (unfold st1; case_match; [by apply kept_flush|done]).
    destruct (mark_fields (ss_session s) (append (ss_session s) st1 u)) as (M1 & M2 & _).
    by apply (kept_append l st1 _ [(ss_session s, u)]).
  - rewrite append_all. destruct (mark_fields (ss_session s) (mkSplit (batches st0) (current st0 ++ (pair (ss_session s) <$> ss_units s))
      (currentSessions st0) (currentBytes st0 + sum_units (ss_units s)))) as (M1 & M2 & _).
    by eapply (kept_append l st0).
Qed.

Lemma kept_ordinary st s : ss_bytes s ≤ BatchBytes cfg → kept (tagged s) (splitSession cfg st s).
Proof.
  intros Hle. unfold splitSession. set (st0 := if ExceedsWriteBudget _ _ _ _ _ then _ else _).
  rewrite decide_False by lia. rewrite append_all.
  destruct (mark_fields (ss_session s) (mkSplit (batches st0) (current st0 ++ (pair (ss_session s) <$> ss_units s))
      (currentSessions st0) (currentBytes st0 + sum_units (ss_units s)))) as (M1 & M2 & _).
  right. rewrite M2. cbn. exists (current st0), []. by rewrite app_nil_r.
Qed.

Lemma kept_fold l st sessions : l ≠ [] → kept l st → kept l (foldl (splitSession cfg) st sessions).
Proof. intros Hl. revert st. induction sessions as [|s sessions IH]; intros st Hk; cbn; [done|]. by apply IH, kept_splitSession. Qed.

(** *** The session cap *)

Definition owned (sessions : list SessionID) (units : list (SessionID * stageUnit)) : Prop :=
  Z.of_nat (length sessions) ≤ BatchSessions cfg ∧ ∀ x, x ∈ sessions → ∃ u, (x, u) ∈ units.
Definition cap_ok (st : splitState) : Prop :=
  owned (currentSessions st) (current st) ∧ Forall (λ b, owned (sb_sessions b) (sb_units b)) (batches st).

Lemma flush_cap st : 1 ≤ BatchSessions cfg → cap_ok st → cap_ok (flush st) ∧ currentSessions (flush st) = [].
Proof.
  intros Hc [Ho Hb]. unfold flush. case_decide as E.
  - split; [done|]. destruct (currentSessions st) as [|x l] eqn:Hs; [done|].
    destruct Ho as [_ Ho]. destruct (Ho x) as [u Hu]; [left|]. rewrite E in Hu. by apply not_elem_of_nil in Hu.
  - split; [|done]. split; cbn.
    + split; [cbn [length]; lia|]. by intros x ?%not_elem_of_nil.
    + apply Forall_app. split; [done|by constructor].
Qed.

Lemma mark_cap session st u :
  cap_ok st → (length (currentSessions st) < Z.to_nat (BatchSessions cfg))%nat ∨ session ∈ currentSessions st →
  (session, u) ∈ current st → cap_ok (mark session st).
Proof.
  intros [[Hl Ho] Hb] Hcap Hu. unfold mark. case_decide as E; [by split|]. destruct Hcap as [Hcap|]; [|done].
  split; [|done]. split; cbn.
  - rewrite length_app. cbn [length]. lia.
  - intros x [Hx| ->%list_elem_of_singleton]%elem_of_app; [by apply Ho|by exists u].
Qed.

Lemma append_cap session st units :
  cap_ok st →
  cap_ok (mkSplit (batches st) (current st ++ (pair session <$> units)) (currentSessions st) (currentBytes st + sum_units units)).
Proof.
  intros [[Hl Ho] Hb]. split; [|done]. split; [done|]. cbn. intros x Hx. destruct (Ho x Hx) as [u Hu]. exists u.
  apply elem_of_app. by left.
Qed.

Lemma oversized_cap session units st :
  1 ≤ BatchSessions cfg → cap_ok st → currentSessions st = [] ∨ currentSessions st = [session] →
  cap_ok (foldl (oversizedUnit cfg session) st units).
Proof.
  intros Hc. revert st. induction units as [|u units IH]; intros st Hok Hs; cbn; [done|].
  unfold oversizedUnit at 2. set (st0 := if _ && _ then _ else _).
  assert (cap_ok st0 ∧ (currentSessions st0 = [] ∨ currentSessions st0 = [session])) as [H0 Hs0].
  { unfold st0. case_match; [|done]. destruct (flush_cap st Hc Hok) as [Hf Hn]. split; [done|by left]. }
  clearbody st0. apply IH.
  - apply (mark_cap _ _ u).
    + pose proof (append_cap session st0 [u] H0) as Ha. cbn in Ha. by rewrite Z.add_0_r in Ha.
    + cbn [append currentSessions]. destruct Hs0 as [Hs0|Hs0]; rewrite Hs0; [left; cbn; lia|right; left].
    + cbn. apply elem_of_app. right. left.
  - unfold mark. cbn. case_decide as E; [done|]. cbn. right. destruct Hs0 as [Hs0|Hs0]; rewrite Hs0 in *; [done|]. by destruct E; left.
Qed.

Lemma splitSession_cap acc st s :
  1 ≤ BatchSessions cfg → split_ok acc st → cap_ok st → ss_units s ≠ [] → cap_ok (splitSession cfg st s).
Proof.
  intros Hc Hok Hcap Hu. unfold splitSession. set (st0 := if ExceedsWriteBudget _ _ _ _ _ then _ else _).
  assert (cap_ok st0 ∧ (length (currentSessions st0) < Z.to_nat (BatchSessions cfg))%nat
          ∧ (BatchBytes cfg < ss_bytes s → currentSessions st0 = [])) as (H0 & Hlt & Hbig).
  { unfold st0. destruct (ExceedsWriteBudget _ _ _ _ _) eqn:E.
    - destruct (flush_cap st Hc Hcap) as [Hf Hn]. rewrite Hn. split; [done|]. split; [cbn; lia|done].
    - apply exceeds_false in E as [E1 E2]. split; [done|]. split; [lia|]. intros Hb.
      pose proof (sum_units_nonneg (snd <$> current st)) as Hnn. pose proof (so_bytes _ _ Hok) as Hby. unfold sum_tagged in Hby.
      destruct (currentSessions st); cbn [length] in *; [done|lia]. }
  case_decide as Hd.
  - apply oversized_cap; [done|done|]. left. by apply Hbig.
  - rewrite append_all. destruct (ss_units s) as [|u units] eqn:Eu; [done|].
    apply (mark_cap _ _ u); [by apply append_cap|by left|]. cbn. apply elem_of_app. right. left.
Qed.

Lemma split_fold_cap acc st sessions :
  1 ≤ BatchSessions cfg → split_ok acc st → cap_ok st →
  Forall (λ s, ss_bytes s = sum_units (ss_units s)) sessions → Forall (λ s, ss_units s ≠ []) sessions →
  cap_ok (foldl (splitSession cfg) st sessions).
Proof.
  intros Hc. revert acc st. induction sessions as [|s sessions IH]; intros acc st Hok Hcap Hs Hu; cbn; [done|].
  apply Forall_cons in Hs as [H1 H2]. apply Forall_cons in Hu as [H3 H4].
  eapply IH; [by apply splitSession_ok|by eapply splitSession_cap|done|done].
Qed.
End cut.

Definition noSplit : splitState := mkSplit [] [] [] 0.
Lemma noSplit_ok cfg : split_ok cfg [] noSplit.
Proof. split; cbn; first [done|constructor|by intros e ?%not_elem_of_nil]. Qed.

Lemma set_last_units n bs i : concat (sb_units <$> imap (λ k, set_last n (i + k)) bs) = concat (sb_units <$> bs).
Proof.
  revert i. induction bs as [|b bs IH]; intros i; [done|]. cbn. f_equal.
  rewrite <-(IH (S i)). f_equal. f_equal. apply imap_ext. intros k x _. unfold compose. f_equal. lia.
Qed.

Lemma set_last_elem n bs b :
  b ∈ imap (set_last n) bs → ∃ b0, b0 ∈ bs ∧ sb_sessions b = sb_sessions b0 ∧ sb_units b = sb_units b0.
Proof. intros (i & b0 & -> & Hb)%elem_of_lookup_imap_1. exists b0. split; [by eapply list_elem_of_lookup_2|done]. Qed.

(** C21: cutting the objects of prepared sessions into staging transactions loses, repeats and reorders nothing; every transaction is non-empty, within the byte cap unless it is a single object, and marks each session it holds an object of exactly once, so the crash flag is set before any object; a session within the byte cap lies in one transaction; with sessions that have objects no transaction exceeds the session cap or marks a session for nothing; and only the last transaction is the last. *)
Theorem splitStageBatch_exact cfg sessions :
  Forall (λ s, ss_bytes s = sum_units (ss_units s)) sessions →
  let txns := splitStageBatch cfg sessions in
  concat (sb_units <$> txns) = sessions ≫= tagged
  ∧ Forall (λ b, txn_ok cfg (sb_sessions b) (sb_units b)) txns
  ∧ (∀ s, s ∈ sessions → ss_bytes s ≤ BatchBytes cfg → ss_units s ≠ [] → ∃ b, b ∈ txns ∧ within (tagged s) (sb_units b))
  ∧ (1 ≤ BatchSessions cfg → Forall (λ s, ss_units s ≠ []) sessions → Forall (λ b, owned cfg (sb_sessions b) (sb_units b)) txns)
  ∧ (∀ i b, txns !! i = Some b → sb_last b = bool_decide (S i = length txns)).
Proof.
  intros Hs. cbv zeta. unfold splitStageBatch. fold noSplit.
  set (st := foldl (splitSession cfg) noSplit sessions).
  pose proof (split_fold_ok cfg [] noSplit sessions (noSplit_ok cfg) Hs) as Hok. cbn [app] in Hok.
  pose proof (flush_ok cfg _ _ Hok) as [Hd Hb _ _ _ _]. fold st in Hd, Hb. rewrite flush_current, app_nil_r in Hd.
  set (bs := batches (flush st)) in *.
  assert (∀ P : list SessionID → list (SessionID * stageUnit) → Prop,
    Forall (λ b, P (sb_sessions b) (sb_units b)) bs → Forall (λ b, P (sb_sessions b) (sb_units b)) (imap (set_last (length bs)) bs)) as Hall.
  { intros P HP. apply Forall_forall. intros b (b0 & Hb0 & -> & ->)%set_last_elem. rewrite Forall_forall in HP. by apply HP. }
  split; [etrans; [exact (set_last_units (length bs) bs 0)|exact Hd]|]. split; [by apply Hall|]. split; [|split].
  - intros s (l1 & l2 & ->)%list_elem_of_split Hle Hu.
    assert (tagged s ≠ []) as Ht by (unfold tagged; by destruct (ss_units s)).
    assert (kept (tagged s) (flush st)) as Hk.
    { apply kept_flush; [done|]. unfold st. rewrite foldl_app. cbn. apply kept_fold; [done|]. by apply kept_ordinary. }
    destruct Hk as [(b & Hbi & Hw)|(pre & post & Hw)].
    + apply list_elem_of_lookup in Hbi as [i Hi]. exists (set_last (length bs) i b). split; [|done].
      apply list_elem_of_lookup. exists i. rewrite list_lookup_imap. fold bs in Hi. by rewrite Hi.
    + rewrite flush_current in Hw. by destruct pre, (tagged s).
  - intros Hc Hu. apply Hall.
    assert (cap_ok cfg noSplit) as H0.
    { split; [|constructor]. split; [cbn [noSplit currentSessions length]; lia|]. by intros x ?%not_elem_of_nil. }
    by destruct (flush_cap cfg st Hc (split_fold_cap cfg _ _ _ Hc (noSplit_ok cfg) H0 Hs Hu)) as [[_ Hcap] _].
  - intros i b Hi. rewrite length_imap. rewrite list_lookup_imap in Hi.
    destruct (bs !! i); cbn in Hi; [|done]. by simplify_eq.
Qed.

(** ** Chunks *)

Section chunks.
Context (size : nat) (size_pos : (0 < size)%nat).

Lemma chunkRows_spec fuel index data :
  (index * size ≤ length data)%nat → (length data ≤ fuel + index * size)%nat →
  let rows := chunkRows size fuel index data in
  concat (snd <$> rows) = drop (index * size) data
  ∧ fst <$> rows = seq index (length rows)
  ∧ Forall (λ row, 1 ≤ length row.2 ≤ size)%nat rows
  ∧ (length rows * size < length data - index * size + size)%nat
  ∧ (length data - index * size ≤ length rows * size)%nat.
Proof.
  revert index. induction fuel as [|fuel IH]; intros index Hi Hf; cbn zeta.
  { cbn. rewrite drop_ge by lia. repeat split; try lia. constructor. }
  cbn [chunkRows]. case_decide as Hlt; [|cbn; rewrite drop_ge by lia; repeat split; try lia; constructor].
  set (end_ := Nat.min ((index + 1) * size) (length data)).
  assert (index * size < end_ ≤ index * size + size ∧ end_ ≤ length data)%nat as (He1 & He2) by (unfold end_; lia).
  assert (length (take (end_ - index * size) (drop (index * size) data)) = end_ - index * size)%nat as Hlen.
  { rewrite length_take, length_drop. lia. }
  assert (take (end_ - index * size) (drop (index * size) data) ++ drop end_ data = drop (index * size) data) as Hcat.
  { rewrite <-(take_drop (end_ - index * size) (drop (index * size) data)) at 2. rewrite drop_drop. do 2 f_equal. lia. }
  case_decide as Hend.
  - assert (drop end_ data = []) as Hz by (apply drop_ge; lia). rewrite Hz, app_nil_r in Hcat.
    cbn [fmap list_fmap concat snd fst length seq]. rewrite app_nil_r.
    split; [done|]. split; [done|]. split; [constructor; [cbn [snd]; rewrite Hlen; lia|constructor]|]. split; nia.
  - assert (end_ = S index * size)%nat as Hes by (unfold end_ in *; lia).
    destruct (IH (S index)) as (IH1 & IH2 & IH3 & IH4 & IH5); [lia|lia|].
    cbn [fmap list_fmap concat snd fst length seq]. rewrite IH1, IH2, <-Hes.
    split; [done|]. split; [done|]. split; [constructor; [cbn [snd]; rewrite Hlen; lia|done]|]. split; nia.
Qed.
End chunks.

(** ** The crash flag *)

(** The flag of a session is set, or the session is unknown. *)
Definition raised (db : database) (session : SessionID) : Prop := db_sessions db !! session ≠ Some false.

(** Every blob header belongs to a known session: the foreign key of [session_content]. *)
Definition foreign_ok (db : database) : Prop := ∀ k, is_Some (session_content db !! k) → is_Some (db_sessions db !! k.1).

(** Every object that was not there at first belongs to a session whose flag is set. *)
Record flagged_since (db0 db : database) : Prop := {
  fs_body : ∀ k, k ∈ session_entry_bodies db → k ∈ session_entry_bodies db0 ∨ db_sessions db !! k.1 = Some true;
  fs_content : ∀ k, is_Some (session_content db !! k) → is_Some (session_content db0 !! k) ∨ db_sessions db !! k.1 = Some true;
  fs_chunk : ∀ session digest i, is_Some (chunksOf db session digest !! i) →
    is_Some (chunksOf db0 session digest !! i) ∨ db_sessions db !! session = Some true;
}.

Lemma raised_known db session : raised db session → is_Some (db_sessions db !! session) → db_sessions db !! session = Some true.
Proof. unfold raised. intros Hr [[] Hs]; [done|]. congruence. Qed.

Definition statement_session (s : statement) : SessionID :=
  match s with SetSweepPending x | InsertBody x _ | InsertContent x _ _ | InsertChunk x _ _ _ => x end.

(** Executing a statement raises its own flag only, and clears none. *)
Lemma exec_sessions s db db' :
  exec s db = Some db' →
  db_sessions db' = match s with SetSweepPending x => alter (λ _, true) x (db_sessions db) | _ => db_sessions db end.
Proof. intros H. destruct s; cbn in H; repeat case_decide; by simplify_eq. Qed.

Lemma exec_true s db db' x : exec s db = Some db' → db_sessions db !! x = Some true → db_sessions db' !! x = Some true.
Proof.
  intros H Hx. rewrite (exec_sessions _ _ _ H). destruct s as [y| | |]; try done.
  destruct (decide (x = y)) as [->|Hne]; [by rewrite lookup_alter_eq, Hx|by rewrite lookup_alter_ne].
Qed.

Lemma exec_raised s db db' x : exec s db = Some db' → raised db x ∨ s = SetSweepPending x → raised db' x.
Proof.
  unfold raised. intros H Hx. rewrite (exec_sessions _ _ _ H). destruct s as [y| | |]; [|by destruct Hx..].
  destruct (decide (x = y)) as [->|Hne]; [rewrite lookup_alter_eq; by destruct (db_sessions db !! y)|].
  rewrite lookup_alter_ne by done. destruct Hx as [Hx|[= ->]]; done.
Qed.

Lemma chunksOf_insert db ss bs cs k i data session digest :
  chunksOf (mkDB ss bs cs (<[k := <[i := data]> (chunksOf db k.1 k.2)]> (session_content_chunks db))) session digest
  = if decide (k = (session, digest)) then <[i := data]> (chunksOf db session digest) else chunksOf db session digest.
Proof.
  unfold chunksOf at 1. cbn. case_decide as E; [subst k; by rewrite lookup_insert_eq|].
  rewrite lookup_insert_ne by done. done.
Qed.

Lemma exec_flagged db0 s db db' :
  flagged_since db0 db ∧ foreign_ok db → raised db (statement_session s) ∨ s = SetSweepPending (statement_session s) →
  exec s db = Some db' → flagged_since db0 db' ∧ foreign_ok db'.
Proof.
  intros [[Hb Hc Hk] Hf] Hr H. assert (∀ x, db_sessions db !! x = Some true → db_sessions db' !! x = Some true) as Ht
    by (intros x; by eapply exec_true).
  assert (Hsame : session_entry_bodies db' = session_entry_bodies db → session_content db' = session_content db →
    session_content_chunks db' = session_content_chunks db → flagged_since db0 db').
  { intros E1 E2 E3. split.
    - intros k. rewrite E1. intros Hk'. destruct (Hb k Hk'); [by left|right; auto].
    - intros k. rewrite E2. intros Hk'. destruct (Hc k Hk'); [by left|right; auto].
    - intros session digest i. unfold chunksOf. rewrite E3. intros Hk'. destruct (Hk session digest i Hk'); [by left|right; auto]. }
  assert (Hfsame : session_content db' = session_content db → foreign_ok db').
  { intros E k. rewrite E, (exec_sessions _ _ _ H). intros Hk'. specialize (Hf k Hk').
    destruct s as [y| | |]; try done. destruct (decide (k.1 = y)) as [<-|Hne];
      [rewrite lookup_alter_eq; by destruct (db_sessions db !! k.1)|by rewrite lookup_alter_ne]. }
  destruct s as [x|x d|x d n|x d i data]; cbn in H, Hr.
  - simplify_eq. split; [by apply Hsame|by apply Hfsame].
  - destruct Hr as [Hr|]; [|done]. case_decide; [by simplify_eq; split; [by apply Hsame|]|].
    case_decide as Hx; [|done]. simplify_eq. cbn in *. split; [|by apply Hfsame]. split; cbn; [|done|done].
    intros k [->%elem_of_singleton|Hin]%elem_of_union; [right; by apply raised_known|by apply Hb].
  - destruct Hr as [Hr|]; [|done]. case_decide; [by simplify_eq; split; [by apply Hsame|]|].
    case_decide as Hx; [|done]. simplify_eq. cbn in *. split; [split; cbn; [done| |done]|].
    + intros k Hk'. destruct (decide (k = (x, d))) as [->|Hne]; [right; by apply raised_known|].
      rewrite lookup_insert_ne in Hk' by done. by apply Hc.
    + intros k Hk'. cbn in *. destruct (decide (k = (x, d))) as [->|Hne]; [done|].
      rewrite lookup_insert_ne in Hk' by done. by apply Hf.
  - destruct Hr as [Hr|]; [|done]. case_decide; [by simplify_eq; split; [by apply Hsame|]|].
    case_decide as Hx; [|done]. destruct Hx as [Hx _]. simplify_eq. split; [split; [done|done|]|by apply Hfsame].
    intros session digest j. rewrite (chunksOf_insert db _ _ _ (x, d)). cbn [db_sessions].
    case_decide as E; [|by apply Hk]. simplify_eq. intros Hj.
    right. apply raised_known; [done|]. by apply (Hf (session, digest)).
Qed.

Lemma execAll_app fails n ss1 ss2 db :
  execAll fails n (ss1 ++ ss2) db = execAll fails n ss1 db ≫= execAll fails (n + length ss1)%nat ss2.
Proof.
  revert n db. induction ss1 as [|s ss1 IH]; intros n db; cbn; [by rewrite Nat.add_0_r|].
  destruct (fails n); [done|]. destruct (exec s db) as [db'|]; [|done]. cbn. rewrite IH. by rewrite Nat.add_succ_r.
Qed.

(** What holds of a batch: a statement is preceded by the flag of its session. *)
Lemma execAll_flagged db0 fails n ss db db' :
  flagged_since db0 db ∧ foreign_ok db →
  (∀ s, s ∈ ss → raised db (statement_session s) ∨ s = SetSweepPending (statement_session s)) →
  execAll fails n ss db = Some db' →
  (flagged_since db0 db' ∧ foreign_ok db') ∧ ∀ x, raised db x ∨ SetSweepPending x ∈ ss → raised db' x.
Proof.
  revert n db. induction ss as [|s ss IH]; intros n db Hdb Hr H; cbn in H.
  { simplify_eq. split; [done|]. intros x [?|?%not_elem_of_nil]; done. }
  destruct (fails n); [done|]. apply bind_Some in H as (db1 & H1 & H2).
  assert (∀ x, raised db x ∨ s = SetSweepPending x → raised db1 x) as Hr1 by (intros x; by eapply exec_raised).
  destruct (IH (S n) db1) as [IH1 IH2]; [eapply exec_flagged; [done| |done]; apply Hr; left| |done|].
  - intros s' Hs'. destruct (Hr s') as [?|?]; [by right|left; apply Hr1; by left|by right].
  - split; [done|]. intros x [Hx|[Hx|Hx]%elem_of_cons]; apply IH2; [left; apply Hr1; by left|left; apply Hr1; by right|by right].
Qed.

Lemma insertUnit_session e s : s ∈ insertUnit e → statement_session s = e.1.
Proof.
  destruct e as [x []]; cbn.
  - by intros ->%list_elem_of_singleton.
  - intros [->|(row & -> & _)%list_elem_of_fmap]%elem_of_cons; done.
Qed.

Lemma stageBatchTxn_flagged cfg db0 fails txn db db' ok :
  txn_ok cfg (sb_sessions txn) (sb_units txn) → flagged_since db0 db ∧ foreign_ok db →
  stageBatchTxn fails txn db = (db', ok) → flagged_since db0 db' ∧ foreign_ok db'.
Proof.
  intros (_ & _ & _ & Hm) Hdb H. unfold stageBatchTxn in H. destruct (execAll _ _ _ _) as [db1|] eqn:E; [|by simplify_eq].
  destruct (fails (length (batchStatements txn))); simplify_eq; [done|].
  unfold batchStatements in E. rewrite execAll_app in E. apply bind_Some in E as (db2 & E1 & E2).
  assert (∀ s, s ∈ SetSweepPending <$> sb_sessions txn → raised db (statement_session s) ∨ s = SetSweepPending (statement_session s)) as Hset.
  { intros s (x & -> & Hx)%list_elem_of_fmap. by right. }
  destruct (execAll_flagged db0 _ _ _ _ _ Hdb Hset E1) as [H2 Hr2].
  eapply execAll_flagged; [exact H2| |exact E2].
  intros s (e & Hs & He)%list_elem_of_bind. left. apply Hr2. right. rewrite (insertUnit_session _ _ Hs).
  apply list_elem_of_fmap. exists e.1. split; [done|]. by apply Hm.
Qed.

Lemma runTxns_flagged w cfg db0 k n txns db :
  (∀ m d, flagged_since db0 d ∧ foreign_ok d → flagged_since db0 (others w m d) ∧ foreign_ok (others w m d)) →
  Forall (λ b, txn_ok cfg (sb_sessions b) (sb_units b)) txns → flagged_since db0 db ∧ foreign_ok db →
  flagged_since db0 (runTxns w k n txns db).1 ∧ foreign_ok (runTxns w k n txns db).1.
Proof.
  intros Ho. revert k n db. induction txns as [|txn txns IH]; intros k n db Ht Hdb; [done|]. cbn.
  apply Forall_cons in Ht as [H1 H2]. destruct (ctxDone w k); [by apply Ho|]. destruct (takeFails w n); [by apply Ho|].
  destruct (stageBatchTxn _ _ _) as [db1 ok] eqn:E.
  assert (flagged_since db0 db1 ∧ foreign_ok db1) by (eapply stageBatchTxn_flagged; [done|by apply Ho|done]).
  by destruct ok; [apply IH|].
Qed.

Lemma collect_objects w cfg i prepared sessions :
  (collect w cfg i prepared).2 = Ok sessions → sessions = objectsOf <$> prepared.
Proof.
  revert i sessions. induction prepared as [|c prepared IH]; intros i sessions H; cbn in H; [by simplify_eq|].
  destruct (ctxDone w i); [done|]. destruct (negb _); [done|]. specialize (IH (S i)).
  destruct (collect w cfg (S i) prepared) as [advisories [l|e]]; cbn in H; [|done]. simplify_eq. cbn. f_equal. by apply IH.
Qed.

Lemma objectsOf_sums prepared : Forall (λ s, ss_bytes s = sum_units (ss_units s)) (objectsOf <$> prepared).
Proof. apply Forall_fmap, Forall_forall. done. Qed.

(** The digests of a candidate are stored. *)
Definition stored (db : database) (p : preparedHarmonized) : Prop :=
  (∀ d, d ∈ ph_bodyDigests p → (ph_sessionID p, d) ∈ session_entry_bodies db) ∧
  (∀ b, b ∈ ph_blobs p → is_Some (session_content db !! (ph_sessionID p, pb_digest b))).

Lemma verify_stored fails db p : verifyStagedObjects fails db p = Ok tt → stored db p.
Proof.
  unfold verifyStagedObjects. intros [H1 H2]%res_seq_ok.
  pose proof (proj1 (res_iter_ok _ _ _) H1) as Hb. pose proof (proj1 (res_iter_ok _ _ _) H2) as Hc.
  split; intros x [j Hj]%list_elem_of_lookup.
  - specialize (Hb _ _ Hj). rewrite !res_guard_ok in Hb. destruct Hb as (_ & Hb & _). by bool_prop.
  - specialize (Hc _ _ Hj). rewrite !res_guard_ok in Hc. destruct Hc as (_ & Hc & _). by bool_prop.
Qed.

(** C20: whatever fails, is cancelled or is interrupted, a commit included, every object a staging run leaves behind belongs to a session whose crash flag is set, so the next sweep finds it; concurrent writers are only asked to keep that.  A run that ends well has every body and blob digest of every candidate stored, even when the error of a failed commit was lost on the way. *)
Theorem staged_objects_flagged w cfg prepared db :
  foreign_ok db →
  (∀ n d, flagged_since db d ∧ foreign_ok d → flagged_since db (others w n d) ∧ foreign_ok (others w n d)) →
  let '(db', _, r) := stageHarmonizedBatch w cfg prepared db in
  flagged_since db db' ∧ (r = Ok tt → ∀ p, p ∈ prepared → stored db' p).
Proof.
  intros Hf Ho. assert (flagged_since db db ∧ foreign_ok db) as Hdb by (split; [split; by left|done]).
  unfold stageHarmonizedBatch. case_decide as Hn.
  { split; [apply Hdb|]. destruct prepared; [|done]. by intros _ p ?%not_elem_of_nil. }
  destruct (collect w cfg 0 prepared) as [advisories [sessions|e]] eqn:E; [|by split; [apply Hdb|]].
  assert (sessions = objectsOf <$> prepared) as -> by (apply (collect_objects w cfg 0); by rewrite E).
  destruct (splitStageBatch_exact cfg _ (objectsOf_sums prepared)) as (_ & Ht & _).
  pose proof (runTxns_flagged w cfg db (length prepared) 0 _ db Ho Ht Hdb) as [H1 H2].
  destruct (runTxns _ _ _ _ _) as [db1 [u|e]]; cbn in *; [|done]. split; [by apply Ho|].
  rewrite res_iter_ok. intros Hv p [j Hj]%list_elem_of_lookup. specialize (Hv j p Hj).
  destruct (takeFails w _); [done|]. by eapply verify_stored.
Qed.

(** ** What was staged reads back *)

(** The bytes of chunk [i] of a blob. *)
Definition chunkOf (data : bytes) (i : nat) : option bytes :=
  (snd <$> chunkRows fullContentChunkBytes (length data) 0 data) !! i.

Section readback.
Context (dataOf : Digest → bytes) (known : list SessionID).

(** Content addressing: every stored header and chunk is one of the bytes its digest
    names; and the given sessions have rows. *)
Record addressed (db : database) : Prop := {
  ad_length : ∀ x d n, session_content db !! (x, d) = Some n → n = Z.of_nat (length (dataOf d));
  ad_chunk : ∀ x d i c, chunksOf db x d !! i = Some c → chunkOf (dataOf d) i = Some c;
  ad_known : ∀ x, x ∈ known → is_Some (db_sessions db !! x);
}.

Definition addressed_statement (s : statement) : Prop :=
  match s with
  | InsertContent _ d n => n = Z.of_nat (length (dataOf d))
  | InsertChunk _ d i c => chunkOf (dataOf d) i = Some c
  | _ => True
  end.

Definition honest (blob : preparedBlob) : Prop := pb_data blob = dataOf (pb_digest blob).
Definition honest_unit (e : SessionID * stageUnit) : Prop := match e.2 with BlobUnit blob => honest blob | _ => True end.

Lemma exec_known s db db' x : exec s db = Some db' → is_Some (db_sessions db !! x) → is_Some (db_sessions db' !! x).
Proof.
  intros H Hx. rewrite (exec_sessions _ _ _ H). destruct s as [y| | |]; try done.
  destruct (decide (x = y)) as [->|Hne]; [|by rewrite lookup_alter_ne].
  rewrite lookup_alter_eq. destruct Hx as [b ->]. done.
Qed.

Lemma exec_addressed s db db' : addressed db → addressed_statement s → exec s db = Some db' → addressed db'.
Proof.
  intros [Hl Hc Hk] Hs H. assert (∀ x, x ∈ known → is_Some (db_sessions db' !! x)) as Hk'
    by (intros x Hx; eapply exec_known; [done|by apply Hk]).
  destruct s as [x|x d|x d n|x d i c]; cbn in H, Hs.
  - simplify_eq. by split.
  - repeat case_decide; simplify_eq; by split.
  - repeat case_decide; simplify_eq; [by split|]. split; [|done|done]. intros y d' m. cbn.
    destruct (decide ((y, d') = (x, d))) as [E|E]; [simplify_eq; rewrite lookup_insert_eq; by intros [= <-]|].
    rewrite lookup_insert_ne by done. apply Hl.
  - repeat case_decide; simplify_eq; [by split|]. split; [done| |done]. intros y d' j c'.
    rewrite (chunksOf_insert db _ _ _ (x, d)). case_decide as E; [|apply Hc]. simplify_eq.
    destruct (decide (i = j)) as [->|Hne]; [rewrite lookup_insert_eq; by intros [= <-]|].
    rewrite lookup_insert_ne by done. apply Hc.
Qed.

Lemma chunkRows_at data i row :
  chunkRows fullContentChunkBytes (length data) 0 data !! i = Some row → row.1 = i ∧ chunkOf data i = Some row.2.
Proof.
  intros H. assert (0 < fullContentChunkBytes)%nat as Hp by (pose proof fullContentChunkBytes_Z; lia).
  destruct (chunkRows_spec _ Hp (length data) 0 data) as (_ & Hseq & _); [lia|lia|].
  split; [|unfold chunkOf; by rewrite list_lookup_fmap, H].
  assert ((fst <$> chunkRows fullContentChunkBytes (length data) 0 data) !! i = Some row.1) as Hf by by rewrite list_lookup_fmap, H.
  rewrite Hseq in Hf. apply lookup_seq in Hf as [-> _]. done.
Qed.

Lemma insertUnit_addressed e s : honest_unit e → s ∈ insertUnit e → addressed_statement s.
Proof.
  destruct e as [x []]; cbn; [by intros _ ->%list_elem_of_singleton|]. unfold honest_unit, honest. cbn.
  intros Hh [->|(row & -> & Hr)%list_elem_of_fmap]%elem_of_cons; cbn; [by rewrite Hh|].
  apply list_elem_of_lookup in Hr as [i Hi]. apply chunkRows_at in Hi as [-> Hi]. by rewrite <-Hh.
Qed.

Lemma execAll_addressed fails n ss db db' :
  addressed db → (∀ s, s ∈ ss → addressed_statement s) → execAll fails n ss db = Some db' → addressed db'.
Proof.
  revert n db. induction ss as [|s ss IH]; intros n db Ha Hs H; cbn in H; [by simplify_eq|].
  destruct (fails n); [done|]. apply bind_Some in H as (db1 & H1 & H2).
  eapply IH; [eapply exec_addressed; [exact Ha|apply Hs; left|done]| |exact H2]. intros t Ht. apply Hs. by right.
Qed.

Lemma stageBatchTxn_addressed fails txn db :
  addressed db → Forall honest_unit (sb_units txn) → addressed (stageBatchTxn fails txn db).1.
Proof.
  intros Ha Hu. unfold stageBatchTxn. destruct (execAll _ _ _ _) eqn:E; [|done]. destruct (fails _); [done|].
  eapply execAll_addressed; [exact Ha| |exact E].
  intros s [(x & -> & _)%list_elem_of_fmap|(e & Hs & He)%list_elem_of_bind]%elem_of_app; [done|].
  eapply insertUnit_addressed; [|done]. by eapply Forall_forall in Hu.
Qed.

(** *** What a statement leaves *)

Definition present (s : statement) (db : database) : Prop :=
  match s with
  | SetSweepPending x => raised db x
  | InsertBody x d => (x, d) ∈ session_entry_bodies db
  | InsertContent x d _ => is_Some (session_content db !! (x, d))
  | InsertChunk x d i _ => is_Some (chunksOf db x d !! i)
  end.

Lemma exec_keeps s db db' t : exec s db = Some db' → present t db → present t db'.
Proof.
  intros H Ht. destruct t as [x|x d|x d n|x d i c]; cbn in *.
  - eapply exec_raised; [exact H|by left].
  - destruct s; cbn in H; repeat case_decide; simplify_eq; cbn; set_solver.
  - destruct s as [| |y d' m|]; cbn in H; repeat case_decide; simplify_eq; cbn; try done.
    destruct (decide ((x, d) = (y, d'))) as [E|E]; [rewrite E, lookup_insert_eq; done|by rewrite lookup_insert_ne].
  - destruct s as [| | |y d' j c']; cbn in H; repeat case_decide; simplify_eq; try done.
    rewrite (chunksOf_insert db _ _ _ (y, d')). case_decide as E; [|done]. simplify_eq.
    destruct (decide (i = j)) as [->|Hne]; [by rewrite lookup_insert_eq|by rewrite lookup_insert_ne].
Qed.

Lemma exec_present s db db' : exec s db = Some db' → present s db'.
Proof.
  intros H. destruct s as [x|x d|x d n|x d i c]; cbn.
  - eapply exec_raised; [exact H|by right].
  - cbn in H. repeat case_decide; simplify_eq; cbn; set_solver.
  - cbn in H. repeat case_decide; simplify_eq; cbn; [done|]. by rewrite lookup_insert_eq.
  - cbn in H. repeat case_decide; simplify_eq; [done|].
    rewrite (chunksOf_insert db _ _ _ (x, d)), decide_True by done. by rewrite lookup_insert_eq.
Qed.

Lemma execAll_present fails n ss db db' :
  execAll fails n ss db = Some db' → (∀ t, present t db → present t db') ∧ ∀ s, s ∈ ss → present s db'.
Proof.
  revert n db. induction ss as [|s ss IH]; intros n db H; cbn in H.
  { simplify_eq. split; [done|]. by intros s ?%not_elem_of_nil. }
  destruct (fails n); [done|]. apply bind_Some in H as (db1 & H1 & H2). destruct (IH _ _ H2) as [IH1 IH2].
  split; [intros t Ht; by eapply IH1, exec_keeps|].
  intros t [->|Ht]%elem_of_cons; [by eapply IH1, exec_present|by apply IH2].
Qed.

(** *** A run that meets no failure *)

Lemma execAll_step_ok fails n s ss db :
  fails n = false → (∃ db1, exec s db = Some db1 ∧ ∃ db', execAll fails (S n) ss db1 = Some db') →
  ∃ db', execAll fails n (s :: ss) db = Some db'.
Proof. intros Hf (db1 & H1 & db' & H2). exists db'. cbn. by rewrite Hf, H1. Qed.

Lemma chunks_ok fails n x d rows db :
  (∀ m, fails m = false) → is_Some (session_content db !! (x, d)) →
  Forall (λ row, 1 ≤ length row.2 ≤ fullContentChunkBytes)%nat rows →
  ∃ db', execAll fails n ((λ row, InsertChunk x d row.1 row.2) <$> rows) db = Some db'.
Proof.
  intros Hf. revert n db. induction rows as [|row rows IH]; intros n db Hc Hr; [by eexists|].
  apply Forall_cons in Hr as [H1 H2]. apply execAll_step_ok; [done|].
  assert (∃ db1, exec (InsertChunk x d row.1 row.2) db = Some db1) as [db1 E].
  { cbn. case_decide; [by eexists|]. rewrite decide_True by done. by eexists. }
  exists db1. split; [done|]. apply IH; [|done]. by apply (exec_keeps _ _ _ (InsertContent x d 0) E).
Qed.

Lemma insertUnit_ok fails n e db :
  (∀ m, fails m = false) → is_Some (db_sessions db !! e.1) → ∃ db', execAll fails n (insertUnit e) db = Some db'.
Proof.
  intros Hf Hx. destruct e as [x [body|blob]]; cbn [insertUnit fst snd].
  - apply execAll_step_ok; [done|]. cbn. case_decide; [by eauto|]. rewrite decide_True by done. by eauto.
  - apply execAll_step_ok; [done|].
    assert (∃ db1, exec (InsertContent x (pb_digest blob) (Z.of_nat (length (pb_data blob)))) db = Some db1) as [db1 E].
    { cbn. case_decide; [by eexists|]. rewrite decide_True by done. by eexists. }
    exists db1. split; [done|]. apply chunks_ok; [done|by apply (exec_present _ _ _ E)|].
    assert (0 < fullContentChunkBytes)%nat as Hp by (pose proof fullContentChunkBytes_Z; lia).
    destruct (chunkRows_spec _ Hp (length (pb_data blob)) 0 (pb_data blob)) as (_ & _ & Hr & _); [lia|lia|done].
Qed.

Lemma execAll_known fails n ss db db' x :
  execAll fails n ss db = Some db' → is_Some (db_sessions db !! x) → is_Some (db_sessions db' !! x).
Proof.
  revert n db. induction ss as [|s ss IH]; intros n db H Hx; cbn in H; [by simplify_eq|].
  destruct (fails n); [done|]. apply bind_Some in H as (db1 & H1 & H2). eapply IH; [done|]. by eapply exec_known.
Qed.

Lemma units_ok fails n units db :
  (∀ m, fails m = false) → (∀ e, e ∈ units → is_Some (db_sessions db !! e.1)) →
  ∃ db', execAll fails n (units ≫= insertUnit) db = Some db'.
Proof.
  intros Hf. revert n db. induction units as [|e units IH]; intros n db Hx; [by eexists|].
  cbn [mbind list_bind]. rewrite execAll_app. destruct (insertUnit_ok fails n e db Hf) as [db1 E]; [apply Hx; left|].
  rewrite E. cbn [mbind option_bind]. apply IH. intros e' He'. eapply execAll_known; [exact E|]. apply Hx. by right.
Qed.

Lemma flags_ok fails n sessions db :
  (∀ m, fails m = false) → ∃ db', execAll fails n (SetSweepPending <$> sessions) db = Some db'.
Proof.
  intros Hf. revert n db. induction sessions as [|x sessions IH]; intros n db; [by eexists|].
  apply execAll_step_ok; [done|]. eexists. split; [done|]. apply IH.
Qed.

Lemma txn_succeeds fails txn db :
  (∀ m, fails m = false) → (∀ e, e ∈ sb_units txn → is_Some (db_sessions db !! e.1)) →
  ∃ db', stageBatchTxn fails txn db = (db', true) ∧ execAll fails 0 (batchStatements txn) db = Some db'.
Proof.
  intros Hf Hx. unfold stageBatchTxn. rewrite Hf. unfold batchStatements. rewrite execAll_app.
  destruct (flags_ok fails 0 (sb_sessions txn) db Hf) as [db1 E]. rewrite E. cbn [mbind option_bind].
  destruct (units_ok fails (0 + length (SetSweepPending <$> sb_sessions txn))%nat (sb_units txn) db1 Hf) as [db' E'].
  { intros e He. eapply execAll_known; [exact E|by apply Hx]. }
  exists db'. by rewrite E'.
Qed.

(** A world in which nothing fails and nobody else writes. *)
Definition quiet (w : world) : Prop :=
  (∀ k, ctxDone w k = false) ∧ (∀ n, takeFails w n = false) ∧ (∀ n m, stmtFails w n m = false) ∧ (∀ n db, others w n db = db).

Lemma runTxns_quiet w k n txns db :
  quiet w → addressed db → Forall (λ b, Forall honest_unit (sb_units b)) txns →
  (∀ b e, b ∈ txns → e ∈ sb_units b → e.1 ∈ known) →
  ∃ db', runTxns w k n txns db = (db', Ok tt) ∧ addressed db'
    ∧ (∀ t, present t db → present t db') ∧ ∀ b s, b ∈ txns → s ∈ batchStatements b → present s db'.
Proof.
  intros (Hc & Ht & Hf & Ho). revert k n db. induction txns as [|txn txns IH]; intros k n db Ha Hh Hk.
  { exists db. repeat split; try done; [by destruct Ha..|]. by intros b s ?%not_elem_of_nil. }
  apply Forall_cons in Hh as [H1 H2]. cbn. rewrite Ho, Hc, Ht.
  destruct (txn_succeeds (stmtFails w n) txn db (Hf n)) as (db1 & E & E').
  { intros e He. apply (ad_known _ Ha). apply (Hk txn); [left|done]. }
  rewrite E. pose proof (stageBatchTxn_addressed (stmtFails w n) txn db Ha H1) as Ha1. rewrite E in Ha1. cbn in Ha1.
  destruct (execAll_present _ _ _ _ _ E') as [Hkeep Hnew].
  destruct (IH (S k) (S n) db1 Ha1 H2) as (db' & Hr & Ha' & Hkeep' & Hnew').
  { intros b e Hb. apply Hk. by right. }
  exists db'. split; [done|]. split; [done|]. split; [auto|].
  intros b s [->|Hb]%elem_of_cons Hs; [by apply Hkeep', Hnew|by eapply Hnew'].
Qed.

(** *** Reading a whole blob *)

Lemma indexBound_le (rows : gmap nat bytes) i : is_Some (rows !! i) → (i < indexBound rows)%nat.
Proof.
  unfold indexBound. revert i. apply (map_fold_weak_ind (λ b m, ∀ i, is_Some (m !! i) → (i < b)%nat)).
  - intros i. rewrite lookup_empty. by intros [? ?].
  - intros j c m b _ IH i. destruct (decide (j = i)) as [->|Hne]; [intros _; lia|].
    rewrite lookup_insert_ne by done. intros Hi%IH. lia.
Qed.

Lemma rows_in_order (m : gmap nat bytes) (l : list bytes) bound :
  (∀ i, m !! i = l !! i) → (length l ≤ bound)%nat →
  omap (λ index, pair index <$> m !! index) (seq 0 bound) = imap pair l.
Proof.
  intros Hm Hb. replace bound with (length l + (bound - length l))%nat by lia. rewrite seq_app, omap_app.
  assert (omap (λ index, pair index <$> m !! index) (seq (0 + length l) (bound - length l)) = []) as ->.
  { generalize (bound - length l)%nat. intros k. assert (∀ a, (length l ≤ a)%nat → omap (λ index, pair index <$> m !! index) (seq a k) = []) as H.
    { induction k as [|k IH]; intros a Ha; [done|]. cbn. rewrite Hm, lookup_ge_None_2 by lia. cbn. apply IH. lia. }
    apply H. lia. }
  rewrite app_nil_r. clear Hb.
  assert (∀ a (g : nat → nat * bytes → nat * bytes) l', (∀ i, m !! (a + i)%nat = l' !! i) →
    omap (λ index, pair index <$> m !! index) (seq a (length l')) = imap (λ i c, ((a + i)%nat, c)) l') as H.
  { intros a _ l'. revert a. induction l' as [|c l' IH]; intros a Ha; [done|]. cbn.
    pose proof (Ha O) as H0. rewrite Nat.add_0_r in H0. rewrite H0. cbn. f_equal; [by rewrite Nat.add_0_r|].
    rewrite (IH (S a)); [|intros i; by rewrite Nat.add_succ_comm, Ha].
    apply imap_ext. intros i x _. cbn. f_equal. lia. }
  apply (H O (λ _ x, x)). done.
Qed.

Lemma blob_reads_back (SHA256 : bytes → Digest) db session blob :
  addressed db → honest blob → (∀ s, s ∈ insertStagedBlobOnConn session blob → present s db) →
  readMigrateBlobBytes db session (pb_digest blob) = Some (pb_data blob)
  ∧ (SHA256 (pb_data blob) = pb_digest blob → blobDamaged SHA256 db session (pb_digest blob) = false).
Proof.
  intros Ha Hh Hp. set (rows := chunkRows fullContentChunkBytes (length (pb_data blob)) 0 (pb_data blob)).
  assert (0 < fullContentChunkBytes)%nat as Hpos by (pose proof fullContentChunkBytes_Z; lia).
  destruct (chunkRows_spec _ Hpos (length (pb_data blob)) 0 (pb_data blob)) as (Hcat & Hseq & _ & Hlt & Hle); [lia|lia|].
  fold rows in Hcat, Hseq, Hlt, Hle. cbn [Nat.mul drop] in Hcat.
  assert (session_content db !! (session, pb_digest blob) = Some (Z.of_nat (length (pb_data blob)))) as Hlen.
  { destruct (Hp (InsertContent session (pb_digest blob) (Z.of_nat (length (pb_data blob))))) as [n Hn]; [left|].
    rewrite Hn. f_equal. rewrite (ad_length _ Ha _ _ _ Hn). by rewrite Hh. }
  assert (∀ i, chunksOf db session (pb_digest blob) !! i = (snd <$> rows) !! i) as Hrows.
  { intros i. destruct (chunksOf db session (pb_digest blob) !! i) as [c|] eqn:E.
    - apply (ad_chunk _ Ha) in E. rewrite <-Hh in E. by rewrite <-E.
    - rewrite list_lookup_fmap. destruct (rows !! i) as [row|] eqn:Er; [|done].
      destruct (Hp (InsertChunk session (pb_digest blob) row.1 row.2)) as [c Hc].
      { right. apply list_elem_of_fmap. exists row. split; [done|]. by eapply list_elem_of_lookup_2. }
      apply chunkRows_at in Er as [<- _]. congruence. }
  assert (blobChunks db session (pb_digest blob) = imap pair (snd <$> rows)) as Hb.
  { unfold blobChunks. apply rows_in_order; [done|].
    destruct (length (snd <$> rows)) as [|n] eqn:El; [lia|]. apply indexBound_le. rewrite Hrows.
    apply lookup_lt_is_Some. lia. }
  assert (snd <$> blobChunks db session (pb_digest blob) = snd <$> rows) as Hsnd.
  { rewrite Hb. apply list_eq. intros i. rewrite list_lookup_fmap, list_lookup_imap. by destruct ((snd <$> rows) !! i). }
  assert (fst <$> blobChunks db session (pb_digest blob) = seq 0 (length rows)) as Hfst.
  { rewrite Hb. apply list_eq. intros i. rewrite list_lookup_fmap, list_lookup_imap, list_lookup_fmap.
    destruct (rows !! i) as [row|] eqn:Er; cbn.
    - symmetry. apply lookup_seq. split; [done|]. by eapply lookup_lt_Some.
    - symmetry. apply lookup_seq_ge. by apply lookup_ge_None. }
  assert (length (blobChunks db session (pb_digest blob)) = length rows) as Hl by (by rewrite Hb, length_imap, length_fmap).
  split.
  - unfold readMigrateBlobBytes. rewrite Hsnd, Hcat. case_decide as E; [done|].
    assert (pb_data blob = []) as Hz by (by destruct (pb_data blob); [|destruct E]).
    rewrite Hlen, Hz. cbn [length]. by rewrite decide_True.
  - intros Hsha. unfold blobDamaged. rewrite Hlen. cbv zeta. rewrite Hsnd, Hfst, Hl, Hcat.
    assert (Z.of_nat (length rows) = Z.quot (Z.of_nat (length (pb_data blob)) + 65535) 65536) as Hcount.
    { pose proof fullContentChunkBytes_Z. rewrite Z.quot_div_nonneg by lia.
      apply Z.div_unique with (r := Z.of_nat (length (pb_data blob)) + 65535 - 65536 * Z.of_nat (length rows)); [left|]; nia. }
    rewrite bool_decide_eq_true_2 by done. rewrite (bool_decide_eq_false_2 (Z.of_nat (length rows) ≠ _)) by (intros []; done).
    rewrite (bool_decide_eq_false_2 (Z.of_nat (length (pb_data blob)) ≠ _)) by (intros []; done). cbn.
    by apply bool_decide_eq_false_2; intros [].
Qed.
End readback.

(** What preparation guarantees of a candidate. *)
Definition prepared_ok (dataOf : Digest → bytes) (p : preparedHarmonized) : Prop :=
  ph_storable p = true ∧ ph_bodyDigests p = er_Digest <$> ph_bodies p ∧ Forall (honest dataOf) (ph_blobs p).

Lemma unit_of_candidate prepared e :
  e ∈ (objectsOf <$> prepared) ≫= tagged → ∃ p, p ∈ prepared ∧ e.1 = ph_sessionID p ∧ e.2 ∈ stageUnits p.
Proof.
  intros (s & He & (p & -> & Hp)%list_elem_of_fmap)%list_elem_of_bind.
  apply list_elem_of_fmap in He as (u & -> & Hu). by exists p.
Qed.

Lemma elem_of_txns cfg sessions e :
  Forall (λ s, ss_bytes s = sum_units (ss_units s)) sessions →
  (e ∈ sessions ≫= tagged ↔ ∃ b, b ∈ splitStageBatch cfg sessions ∧ e ∈ sb_units b).
Proof.
  intros Hs. destruct (splitStageBatch_exact cfg sessions Hs) as (Hcat & _).
  rewrite <-Hcat. rewrite list_elem_of_In, in_concat. setoid_rewrite <-list_elem_of_In. split.
  - intros (l & (b & -> & Hb)%list_elem_of_fmap & He). by exists b.
  - intros (b & Hb & He). exists (sb_units b). split; [|done]. apply list_elem_of_fmap. by exists b.
Qed.

Lemma runTxns_addressed dataOf known w k n txns db :
  (∀ m d, addressed dataOf known d → addressed dataOf known (others w m d)) →
  Forall (λ b, Forall (honest_unit dataOf) (sb_units b)) txns → addressed dataOf known db →
  addressed dataOf known (runTxns w k n txns db).1.
Proof.
  intros Ho. revert k n db. induction txns as [|txn txns IH]; intros k n db Hh Ha; [done|]. cbn.
  apply Forall_cons in Hh as [H1 H2]. destruct (ctxDone w k); [by apply Ho|]. destruct (takeFails w n); [by apply Ho|].
  pose proof (stageBatchTxn_addressed dataOf known (stmtFails w n) txn _ (Ho n _ Ha) H1) as Ha'.
  destruct (stageBatchTxn _ _ _) as [db1 []]; [by apply IH|done].
Qed.

Lemma honest_txns dataOf cfg prepared :
  Forall (prepared_ok dataOf) prepared →
  Forall (λ b, Forall (honest_unit dataOf) (sb_units b)) (splitStageBatch cfg (objectsOf <$> prepared)).
Proof.
  intros Hp. apply Forall_forall. intros b Hb. apply Forall_forall. intros e He.
  destruct (unit_of_candidate prepared e) as (p & Hin & _ & Hu).
  { apply (elem_of_txns cfg); [apply objectsOf_sums|by exists b]. }
  eapply Forall_forall in Hp as (_ & _ & Hbl); [|exact Hin]. unfold honest_unit.
  apply elem_of_app in Hu as [(body & -> & _)%list_elem_of_fmap|(blob & -> & Hblob)%list_elem_of_fmap]; [done|].
  by eapply Forall_forall in Hbl.
Qed.

(** A run, whatever it meets, leaves the database content addressed. *)
Lemma stage_addressed dataOf known w cfg prepared db :
  Forall (prepared_ok dataOf) prepared → addressed dataOf known db →
  (∀ n d, addressed dataOf known d → addressed dataOf known (others w n d)) →
  addressed dataOf known (stageHarmonizedBatch w cfg prepared db).1.1.
Proof.
  intros Hp Ha Ho. unfold stageHarmonizedBatch. case_decide; [done|].
  destruct (collect w cfg 0 prepared) as [advisories [sessions|e]] eqn:E; [|done].
  assert (sessions = objectsOf <$> prepared) as -> by (apply (collect_objects w cfg 0); by rewrite E).
  pose proof (runTxns_addressed dataOf known w (length prepared) 0 _ db Ho (honest_txns dataOf cfg prepared Hp) Ha) as H1.
  destruct (runTxns _ _ _ _ _) as [db1 [u|e]]; cbn in *; [by apply Ho|done].
Qed.

Lemma collect_quiet w cfg i prepared :
  quiet w → Forall (λ p, ph_storable p = true) prepared → ∃ a, collect w cfg i prepared = (a, Ok (objectsOf <$> prepared)).
Proof.
  intros Hq. revert i. induction prepared as [|p prepared IH]; intros i Hp; [by eexists|].
  apply Forall_cons in Hp as [H1 H2]. destruct (IH (S i) H2) as [a Ea]. cbn. destruct Hq as (Hc & _).
  rewrite Hc, H1, Ea. by eexists.
Qed.

Lemma verify_ok fails db p :
  (∀ m, fails m = false) →
  (∀ d, d ∈ ph_bodyDigests p → (ph_sessionID p, d) ∈ session_entry_bodies db) →
  (∀ b, b ∈ ph_blobs p → is_Some (session_content db !! (ph_sessionID p, pb_digest b))) →
  verifyStagedObjects fails db p = Ok tt.
Proof.
  intros Hf Hb Hc. unfold verifyStagedObjects. apply res_seq_ok. split; apply res_iter_ok; intros j x Hx; rewrite Hf; cbn [negb res_guard].
  - rewrite bool_decide_eq_true_2; [done|]. apply Hb. by eapply list_elem_of_lookup_2.
  - rewrite bool_decide_eq_true_2; [done|]. apply Hc. by eapply list_elem_of_lookup_2.
Qed.

(** C19: staging can be resumed: after a first run that met any failure, a run that meets none ends well with every object of every candidate stored: each body digest is there, each blob reads back as exactly its bytes and passes the repair gate, and the crash flag of every candidate with objects is set. *)
Theorem staging_resumes dataOf SHA256 w0 w cfg first prepared db :
  quiet w →
  Forall (prepared_ok dataOf) first → Forall (prepared_ok dataOf) prepared →
  addressed dataOf (ph_sessionID <$> prepared) db →
  (∀ n d, addressed dataOf (ph_sessionID <$> prepared) d → addressed dataOf (ph_sessionID <$> prepared) (others w0 n d)) →
  let db1 := (stageHarmonizedBatch w0 cfg first db).1.1 in
  let '(db2, _, r) := stageHarmonizedBatch w cfg prepared db1 in
  r = Ok tt ∧ ∀ p, p ∈ prepared →
    (∀ d, d ∈ ph_bodyDigests p → (ph_sessionID p, d) ∈ session_entry_bodies db2)
    ∧ (∀ b, b ∈ ph_blobs p → readMigrateBlobBytes db2 (ph_sessionID p) (pb_digest b) = Some (pb_data b)
         ∧ (SHA256 (pb_data b) = pb_digest b → blobDamaged SHA256 db2 (ph_sessionID p) (pb_digest b) = false))
    ∧ (stageUnits p ≠ [] → db_sessions db2 !! ph_sessionID p = Some true).
Proof.
  intros Hq Hp0 Hp Ha Ho. cbv zeta. pose proof (stage_addressed dataOf _ w0 cfg first db Hp0 Ha Ho) as Ha1.
  set (db1 := (stageHarmonizedBatch w0 cfg first db).1.1) in *. clearbody db1.
  unfold stageHarmonizedBatch. case_decide as Hl; [destruct prepared; [|done]; split; [done|]; by intros p ?%not_elem_of_nil|].
  assert (Forall (λ p, ph_storable p = true) prepared) as Hst by (eapply Forall_impl; [exact Hp|]; by intros p (? & _)).
  destruct (collect_quiet w cfg 0 prepared Hq Hst) as [a ->].
  set (txns := splitStageBatch cfg (objectsOf <$> prepared)).
  assert (Hin : ∀ e, e ∈ (objectsOf <$> prepared) ≫= tagged ↔ ∃ b, b ∈ txns ∧ e ∈ sb_units b)
    by (intros e; apply elem_of_txns, objectsOf_sums).
  destruct (runTxns_quiet dataOf (ph_sessionID <$> prepared) w (length prepared) 0 txns db1 Hq Ha1) as (db2 & Hr & Ha2 & _ & Hnew).
  { by apply honest_txns. }
  { intros b e Hb He. destruct (unit_of_candidate prepared e) as (p & Hpi & -> & _); [apply Hin; by exists b|].
    apply list_elem_of_fmap. by exists p. }
  rewrite Hr. destruct Hq as (_ & Ht & Hfq & Hoq). rewrite Hoq.
  assert (Hunit : ∀ p u, p ∈ prepared → u ∈ stageUnits p →
    (∀ s, s ∈ insertUnit (ph_sessionID p, u) → present s db2) ∧ raised db2 (ph_sessionID p)).
  { intros p u Hpi Hu. destruct (proj1 (Hin (ph_sessionID p, u))) as (b & Hb & He).
    { apply list_elem_of_bind. exists (objectsOf p). split; [|apply list_elem_of_fmap; by exists p].
      unfold tagged. apply list_elem_of_fmap. by exists u. }
    split.
    - intros s Hs. apply (Hnew b); [done|]. apply elem_of_app. right. apply list_elem_of_bind. by exists (ph_sessionID p, u).
    - destruct (splitStageBatch_exact cfg _ (objectsOf_sums prepared)) as (_ & Hok & _). fold txns in Hok.
      eapply Forall_forall in Hok as (_ & _ & _ & Hm); [|exact Hb].
      apply (Hnew b (SetSweepPending (ph_sessionID p))); [done|]. apply elem_of_app. left.
      apply list_elem_of_fmap. exists (ph_sessionID p). split; [done|]. by apply (Hm _ He). }
  assert (Hbody : ∀ p d, p ∈ prepared → d ∈ ph_bodyDigests p → (ph_sessionID p, d) ∈ session_entry_bodies db2).
  { intros p d Hpi Hd. pose proof Hp as Hp'. eapply Forall_forall in Hp' as (_ & Hdg & _); [|exact Hpi].
    rewrite Hdg in Hd. apply list_elem_of_fmap in Hd as (body & -> & Hbody).
    destruct (Hunit p (BodyUnit body) Hpi) as [H1 _]; [apply elem_of_app; left; apply list_elem_of_fmap; by exists body|].
    apply (H1 (InsertBody (ph_sessionID p) (er_Digest body))). left. }
  assert (Hblob : ∀ p b, p ∈ prepared → b ∈ ph_blobs p → ∀ s, s ∈ insertStagedBlobOnConn (ph_sessionID p) b → present s db2).
  { intros p b Hpi Hb. apply (Hunit p (BlobUnit b) Hpi). apply elem_of_app. right. apply list_elem_of_fmap. by exists b. }
  split.
  - apply res_iter_ok. intros j p Hj. rewrite Ht. pose proof (list_elem_of_lookup_2 _ _ _ Hj) as Hpi.
    apply verify_ok; [apply Hfq|intros d; by apply Hbody|]. intros b Hb.
    apply (Hblob p b Hpi Hb (InsertContent (ph_sessionID p) (pb_digest b) (Z.of_nat (length (pb_data b))))). left.
  - intros p Hpi. split; [intros d; by apply Hbody|]. split.
    + intros b Hb. eapply blob_reads_back; [exact Ha2| |by apply Hblob].
      eapply Forall_forall in Hp as (_ & _ & Hh); [|exact Hpi]. by eapply Forall_forall in Hh.
    + intros Hne. destruct (stageUnits p) as [|u us] eqn:Eu; [done|].
      destruct (Hunit p u Hpi) as [_ Hra]; [rewrite Eu; left|]. apply raised_known; [done|].
      apply (ad_known _ _ _ Ha2). apply list_elem_of_fmap. by exists p.
Qed.

(** ** Concrete runs *)

Module Demo.
Local Open Scope string_scope.
Definition cfg (batchBytes batchSessions : Z) : WriteConfig := Build_WriteConfig 0 64 batchBytes batchSessions 0 0 0 0 0.
Definition body (d : Digest) (n : N) : EntryRecord := {| er_Digest := d; er_Length := n |}.
Definition candidate (x : SessionID) (bodies : list EntryRecord) (blobs : list preparedBlob) : preparedHarmonized :=
  {| ph_sessionID := x; ph_bodies := bodies; ph_bodyDigests := er_Digest <$> bodies; ph_blobs := blobs; ph_storable := true |}.
Definition shape (txns : list stageBatch) : list (list SessionID * list Z) :=
  (λ b, (sb_sessions b, unit_bytes ∘ snd <$> sb_units b)) <$> txns.

(** With a session cap of one every object of an oversized session is a transaction of
    its own, however small. *)
Example single_session_cap :
  shape (splitStageBatch (cfg 100 1) [objectsOf (candidate "s" (body "d" <$> [40; 40; 40]%N) [])])
  = [(["s"], [40]); (["s"], [40]); (["s"], [40])]
  ∧ shape (splitStageBatch (cfg 100 2) [objectsOf (candidate "s" (body "d" <$> [40; 40; 40]%N) [])])
  = [(["s"], [40; 40]); (["s"], [40])].
Proof. vm_compute. by split. Qed.

(** The last transaction of an oversized session takes the next session with it. *)
Example oversized_tail_shared :
  shape (splitStageBatch (cfg 100 64) (objectsOf <$> [candidate "big" (body "d" <$> [90; 30]%N) []; candidate "small" (body "e" <$> [20]%N) []]))
  = [(["big"], [90]); (["big"; "small"], [30; 20])].
Proof. vm_compute. done. Qed.

Definition text : bytes := [x68; x69].
Definition dataOf (d : Digest) : bytes := if String.eqb d "hi" then text else [].
Definition blob (d : Digest) : preparedBlob := {| pb_digest := d; pb_data := dataOf d |}.
Definition one : preparedHarmonized := candidate "s1" [body "b1" 3] [blob "hi"; blob "empty"].
Definition two : preparedHarmonized := candidate "s2" [body "b1" 3; body "b2" 200] [].
Definition db : database := mkDB {["s1" := false; "s2" := false]} ∅ ∅ ∅.

Definition calm : world :=
  {| ctxDone _ := false; takeFails _ := false; stmtFails _ _ := false; others _ db := db |}.
(** The third transaction fails at its second statement. *)
Definition crash : world :=
  {| ctxDone _ := false; takeFails _ := false; stmtFails n m := bool_decide (n = 2%nat ∧ m = 1%nat); others _ db := db |}.

Definition result_of (w : world) (db : database) : database * result StageError unit :=
  let '(db, _, r) := stageHarmonizedBatch w (cfg 100 2) [one; two] db in (db, r).

Example crash_keeps_first :
  (λ p : database * result StageError unit, (session_entry_bodies p.1, db_sessions p.1, p.2)) (result_of crash db)
  = ({[("s1", "b1"); ("s2", "b1")]}, {["s1" := true; "s2" := true]}, Err (TxnFailed 2)).
Proof. vm_compute. reflexivity. Qed.

(** The commit of the first transaction fails.  The transaction counts as committed;
    only the verification notices that its objects are missing. *)
Definition lostCommit : world :=
  {| ctxDone _ := false; takeFails _ := false; others _ db := db;
     stmtFails n m := bool_decide (n = 0%nat ∧
       Some m = (length ∘ batchStatements) <$> head (splitStageBatch (cfg 100 2) (objectsOf <$> [one; two]))) |}.

Example lost_commit_reported_late :
  ((λ txn, stageBatchTxn (stmtFails lostCommit 0) txn db) <$> head (splitStageBatch (cfg 100 2) (objectsOf <$> [one; two])),
   (result_of lostCommit db).2) = (Some (db, true), Err (BodyMissing "s1" "b1")).
Proof. vm_compute. reflexivity. Qed.

Lemma db_foreign : foreign_ok db.
Proof. intros k. cbn. rewrite lookup_empty. by intros [? ?]. Qed.
Lemma db_addressed : addressed dataOf ["s1"; "s2"] db.
Proof.
  split.
  - intros x d n. cbn. by rewrite lookup_empty.
  - intros x d i c. unfold chunksOf. cbn. rewrite lookup_empty. cbn. by rewrite lookup_empty.
  - intros x [->|[->|?%not_elem_of_nil]%elem_of_cons]%elem_of_cons; [by eexists..|done].
Qed.
Lemma demo_prepared : Forall (prepared_ok dataOf) [one; two].
Proof. repeat (constructor; [split; [done|]; split; [done|]; repeat constructor|]). constructor. Qed.
End Demo.

Lemma splitStageBatch_exact_witness :
  concat (sb_units <$> splitStageBatch (Demo.cfg 100 2) (objectsOf <$> [Demo.one; Demo.two]))
  = (objectsOf <$> [Demo.one; Demo.two]) ≫= tagged.
Proof.
  apply (splitStageBatch_exact (Demo.cfg 100 2) (objectsOf <$> [Demo.one; Demo.two])).
  repeat constructor.
Defined.

Lemma staged_objects_flagged_witness :
  flagged_since Demo.db (Demo.result_of Demo.lostCommit Demo.db).1 ∧ (Demo.result_of Demo.lostCommit Demo.db).2 ≠ Ok tt.
Proof.
  pose proof (staged_objects_flagged Demo.lostCommit (Demo.cfg 100 2) [Demo.one; Demo.two] Demo.db Demo.db_foreign (λ _ _ H, H)) as H.
  split; [|by vm_compute].
  unfold Demo.result_of. destruct (stageHarmonizedBatch _ _ _ _) as [[db a] r]. by destruct H.
Defined.

Lemma staging_resumes_witness :
  (Demo.result_of Demo.calm (stageHarmonizedBatch Demo.crash (Demo.cfg 100 2) [Demo.one; Demo.two] Demo.db).1.1).2 = Ok tt.
Proof.
  assert (quiet Demo.calm) as Hq by (repeat split; done).
  pose proof (staging_resumes Demo.dataOf (λ _, ""%string) Demo.crash Demo.calm (Demo.cfg 100 2) [Demo.one; Demo.two] [Demo.one; Demo.two]
    Demo.db Hq Demo.demo_prepared Demo.demo_prepared Demo.db_addressed (λ _ _ H, H)) as H.
  unfold Demo.result_of. cbv zeta in H. destruct (stageHarmonizedBatch Demo.calm _ _ _) as [[db a] r]. apply H.
Defined.
