(* ===== verification/IndexDrain.v ===== *)
(** * The index drain and the bound on staged bytes

    The write half of the INDEX stage ([internal/ingest]): parser workers that admit
    a managed candidate only within the staged byte budget ([staged_bytes_gate.go]),
    a channel of parsed results, and the drain that groups them into write batches
    ([index_drain.go] with the splitter [ExceedsWriteBudget], and the loop of
    [indexBatch] in [pipeline.go]).

    Every critical section, channel operation and recorded result is one step.  A
    condition wait is a worker that moves only after a broadcast; the capacity-one
    channel [blocked] is a token; a select takes any of its ready arms, and the flush
    interval may end whenever a partial batch waits.  Parsing and writing are opaque:
    an item is what a parse gave, with the bytes of its write.  Within a flush results
    are recorded in any order, as the writer does, each releasing its own bytes. *)
From S2P Require Import Prelude WriteBudgets.
Local Open Scope list_scope.
Local Open Scope Z_scope.

(** ** Data *)

(** A parsed result: its position in the input, whether it is a managed candidate,
    and [indexParseWriteBytes], which is a sum of lengths. *)
Record indexParseResult := { ir_ID : nat; ir_Candidate : bool; ir_Length : N }.
Definition ir_Bytes (r : indexParseResult) : Z := Z.of_N (ir_Length r).
#[export] Instance indexParseResult_eq_dec : EqDecision indexParseResult.
Proof. solve_decision. Defined.

(** A candidate that was refused by a cancelled admission. *)
Definition refuse (r : indexParseResult) : indexParseResult :=
  {| ir_ID := ir_ID r; ir_Candidate := false; ir_Length := 0 |}.

(** [stagedBytesGate]: the bytes used, their peak, and the token of [blocked]. *)
Record stagedBytesGate := { cap_ : Z; used : Z; peak : Z; blocked : bool }.
Definition newStagedBytesGate (cap : Z) : stagedBytesGate := {| cap_ := cap; used := 0; peak := 0; blocked := false |}.

(** One turn of [acquire] under the mutex: admitted, refused by the context, or to
    wait for a broadcast with the token sent. *)
Inductive admission := Admitted_ (g : stagedBytesGate) | ContextEnded | MustWait (g : stagedBytesGate).
Definition acquire (cancelled : bool) (n : Z) (g : stagedBytesGate) : admission :=
  if decide (used g ≠ 0 ∧ cap_ g - used g < n) then
    if cancelled then ContextEnded
    else MustWait {| cap_ := cap_ g; used := used g; peak := peak g; blocked := true |}
  else if cancelled then ContextEnded
  else Admitted_ {| cap_ := cap_ g; used := used g + n; peak := Z.max (peak g) (used g + n); blocked := blocked g |}.
Definition release (n : Z) (g : stagedBytesGate) : stagedBytesGate :=
  {| cap_ := cap_ g; used := used g - n; peak := peak g; blocked := blocked g |}.
Definition unblock (g : stagedBytesGate) : stagedBytesGate :=
  {| cap_ := cap_ g; used := used g; peak := peak g; blocked := false |}.

(** Where a parser worker stands; [Sending] owns the bytes of a candidate. *)
Inductive worker :=
  | Receiving
  | Admitting (r : indexParseResult)
  | Waiting (r : indexParseResult)
  | Woken (r : indexParseResult)
  | Sending (r : indexParseResult)
  | Returned.

Definition has_returned (w : worker) : bool := match w with Returned => true | _ => false end.
Definition wake (w : worker) : worker := match w with Waiting r => Woken r | _ => w end.

(** The drain waits for input with a partial batch, or records a batch and then
    admits the result that did not fit. *)
Inductive drain_phase :=
  | Filling
  | Flushing (rest : list indexParseResult) (next : option indexParseResult)
  | Drained.

Record system := mkSystem {
  input : list indexParseResult;
  workers : list worker;
  gate : stagedBytesGate;
  cancelled : bool;
  parsed : list indexParseResult;        (* the channel, oldest first *)
  closed : bool;
  phase : drain_phase;
  pending : list indexParseResult;
  flushed : list (list indexParseResult);
}.

Section drain.
Context (cfg : WriteConfig) (capacity : nat).

Definition start (items : list indexParseResult) (n : nat) : system :=
  mkSystem items (replicate n Receiving) (newStagedBytesGate (StagedMemoryBytes cfg)) false [] false Filling [] [].

Definition sum_bytes (l : list indexParseResult) : Z := foldr (λ r n, ir_Bytes r + n) 0 l.

(** [flushPending] with what is admitted afterwards. *)
Definition flushPending (s : system) (next : option indexParseResult) : system :=
  mkSystem (input s) (workers s) (gate s) (cancelled s) (parsed s) (closed s) (Flushing (pending s) next) []
    (flushed s ++ [pending s]).

(** The second half of [admit]: the result joins the batch, which may now be full. *)
Definition join (r : indexParseResult) (s : system) : system :=
  let pending := pending s ++ [r] in
  let s := mkSystem (input s) (workers s) (gate s) (cancelled s) (parsed s) (closed s) Filling pending (flushed s) in
  if ExceedsWriteBudget cfg (Z.of_nat (length pending)) (sum_bytes pending) 0 None || bool_decide (BatchBytes cfg ≤ sum_bytes pending)
  then flushPending s None else s.

Definition admit_result (r : indexParseResult) (s : system) : system :=
  if ExceedsWriteBudget cfg (Z.of_nat (length (pending s))) (sum_bytes (pending s)) (ir_Bytes r) None
     && bool_decide (pending s ≠ [])
  then flushPending s (Some r) else join r s.

(** One result is recorded: a candidate's bytes are released with a broadcast; after
    the last one the drain goes on. *)
Definition record_ (i : nat) (s : system) : option system :=
  match phase s with
  | Flushing rest next =>
    r ← rest !! i;
    let rest := delete i rest in
    let '(g, ws) := if ir_Candidate r then (release (ir_Bytes r) (gate s), wake <$> workers s) else (gate s, workers s) in
    let s := mkSystem (input s) ws g (cancelled s) (parsed s) (closed s) (Flushing rest next) (pending s) (flushed s) in
    Some (match rest, next with
          | [], Some r => join r s
          | [], None => mkSystem (input s) ws g (cancelled s) (parsed s) (closed s) Filling (pending s) (flushed s)
          | _, _ => s
          end)
  | _ => None
  end.

Definition set_worker (s : system) (w : nat) (x : worker) : system :=
  mkSystem (input s) (<[w := x]> (workers s)) (gate s) (cancelled s) (parsed s) (closed s) (phase s) (pending s) (flushed s).

(** A worker inside [admitNativeResult]. *)
Definition admitNativeResult (s : system) (w : nat) (r : indexParseResult) : system :=
  if negb (ir_Candidate r) then set_worker s w (Sending r)
  else
    let with_gate g x := mkSystem (input s) (<[w := x]> (workers s)) g (cancelled s) (parsed s) (closed s) (phase s) (pending s) (flushed s) in
    match acquire (cancelled s) (ir_Bytes r) (gate s) with
    | Admitted_ g => with_gate g (Sending r)
    | ContextEnded => set_worker s w (Sending (refuse r))
    | MustWait g => with_gate g (Waiting r)
    end.

(** The drain may receive, time out, or be woken by the token only while it fills. *)
Inductive event :=
  | Take (w : nat) | Admit_ (w : nat) | Send (w : nat) | Return_ (w : nat)
  | Close | Cancel
  | Receive | FlushInterval | Blocked | EndOfInput
  | Recorded (i : nat).

Definition step (e : event) (s : system) : option system :=
  match e with
  | Take w =>
    match workers s !! w, input s with
    | Some Receiving, r :: input =>
      Some (mkSystem input (<[w := Admitting r]> (workers s)) (gate s) (cancelled s) (parsed s) (closed s) (phase s) (pending s) (flushed s))
    | _, _ => None
    end
  | Admit_ w =>
    match workers s !! w with
    | Some (Admitting r) | Some (Woken r) => Some (admitNativeResult s w r)
    | _ => None
    end
  | Send w =>
    match workers s !! w with
    | Some (Sending r) =>
      if decide (length (parsed s) < capacity)%nat then
        Some (mkSystem (input s) (<[w := Receiving]> (workers s)) (gate s) (cancelled s) (parsed s ++ [r]) (closed s) (phase s) (pending s) (flushed s))
      else None
    | _ => None
    end
  | Return_ w =>
    match workers s !! w, input s with Some Receiving, [] => Some (set_worker s w Returned) | _, _ => None end
  | Close =>
    if forallb has_returned (workers s) && negb (closed s) then
      Some (mkSystem (input s) (workers s) (gate s) (cancelled s) (parsed s) true (phase s) (pending s) (flushed s))
    else None
  | Cancel =>
    if cancelled s then None
    else Some (mkSystem (input s) (wake <$> workers s) (gate s) true (parsed s) (closed s) (phase s) (pending s) (flushed s))
  | Receive =>
    match phase s, parsed s with
    | Filling, r :: parsed =>
      Some (admit_result r (mkSystem (input s) (workers s) (gate s) (cancelled s) parsed (closed s) Filling (pending s) (flushed s)))
    | _, _ => None
    end
  | FlushInterval =>
    match phase s with Filling => if decide (pending s ≠ []) then Some (flushPending s None) else None | _ => None end
  | Blocked =>
    match phase s with
    | Filling =>
      if decide (pending s ≠ [] ∧ blocked (gate s) = true) then
        Some (flushPending (mkSystem (input s) (workers s) (unblock (gate s)) (cancelled s) (parsed s) (closed s) Filling (pending s) (flushed s)) None)
      else None
    | _ => None
    end
  | EndOfInput =>
    match phase s, parsed s with
    | Filling, [] =>
      if decide (closed s = true) then
        if decide (pending s = []) then
          Some (mkSystem (input s) (workers s) (gate s) (cancelled s) [] (closed s) Drained [] (flushed s))
        else Some (flushPending s None)
      else None
    | _, _ => None
    end
  | Recorded i => record_ i s
  end.

Fixpoint steps (es : list event) (s : system) : option system :=
  match es with [] => Some s | e :: es => s ← step e s; steps es s end.
End drain.

(** ** What every reachable system keeps *)

(** The result a worker holds. *)
Definition held_by (w : worker) : list indexParseResult :=
  match w with Admitting r | Waiting r | Woken r | Sending r => [r] | Receiving | Returned => [] end.

(** The results whose admission is over. *)
Definition admitted_by (w : worker) : list indexParseResult := match w with Sending r => [r] | _ => [] end.

Definition recording (s : system) : list indexParseResult := match phase s with Flushing rest _ => rest | _ => [] end.
Definition after_flush (s : system) : list indexParseResult :=
  match phase s with Flushing _ (Some r) => [r] | _ => [] end.

(** The results the drain has, and those of them still to record. *)
Definition drained (s : system) : list indexParseResult := concat (flushed s) ++ pending s ++ after_flush s.
Definition unrecorded (s : system) : list indexParseResult := after_flush s ++ pending s ++ recording s.

(** The results the drain has or will receive, in its order. *)
Definition sent (s : system) : list indexParseResult := drained s ++ parsed s.

(** The results whose bytes are still owned. *)
Definition owners (s : system) : list indexParseResult := (workers s ≫= admitted_by) ++ parsed s ++ unrecorded s.
Arguments owners : simpl never.

Definition staged (r : indexParseResult) : Z := if ir_Candidate r then ir_Bytes r else 0.
Definition staged_bytes (l : list indexParseResult) : Z := foldr (λ r n, staged r + n) 0 l.

Lemma staged_bytes_app l1 l2 : staged_bytes (l1 ++ l2) = staged_bytes l1 + staged_bytes l2.
Proof. induction l1 as [|r l1 IH]; cbn; [done|]. unfold staged_bytes in IH. rewrite IH. unfold staged_bytes. lia. Qed.

#[global] Instance staged_bytes_perm : Proper ((≡ₚ) ==> eq) staged_bytes.
Proof. induction 1; unfold staged_bytes in *; cbn; lia. Qed.

(** [x] is what became of the input result [y]. *)
Definition outcome (c : bool) (x y : indexParseResult) : Prop :=
  x = y ∨ (c = true ∧ ir_Candidate y = true ∧ x = refuse y).
Definition accounted (c : bool) (items l : list indexParseResult) : Prop :=
  ∃ l', l ≡ₚ l' ∧ Forall2 (outcome c) l' items.

(** Every result the system has. *)
Definition every (s : system) : list indexParseResult := sent s ++ (workers s ≫= held_by) ++ input s.

Section facts.
Context (cfg : WriteConfig) (capacity : nat).

(** A write batch: not empty, within the session cap, and within the byte cap unless
    it is a single result. *)
Definition batch_ok (b : list indexParseResult) : Prop :=
  b ≠ [] ∧ (1 ≤ BatchSessions cfg → Z.of_nat (length b) ≤ BatchSessions cfg)
  ∧ (sum_bytes b ≤ BatchBytes cfg ∨ length b = 1%nat).

(** What waits for more input is under the caps. *)
Definition partial_ok (b : list indexParseResult) : Prop :=
  b ≠ [] → Z.of_nat (length b) < BatchSessions cfg ∧ sum_bytes b < BatchBytes cfg.

Definition drain_ok (s : system) : Prop :=
  Forall batch_ok (flushed s) ∧
  match phase s with
  | Filling => partial_ok (pending s)
  | Flushing rest _ => rest ≠ [] ∧ pending s = []
  | Drained => pending s = []
  end.

Definition closing_ok (s : system) : Prop :=
  (Returned ∈ workers s → input s = [])
  ∧ (closed s = true → Forall (λ w, w = Returned) (workers s))
  ∧ (phase s = Drained → closed s = true ∧ parsed s = []).

Definition gate_ok (s : system) : Prop :=
  cap_ (gate s) = StagedMemoryBytes cfg
  ∧ used (gate s) = staged_bytes (owners s)
  ∧ (used (gate s) ≤ cap_ (gate s) ∨ ∃ r, r ∈ owners s ∧ used (gate s) = staged r)
  ∧ (∀ r, Waiting r ∈ workers s →
       ir_Candidate r = true ∧ cancelled s = false ∧ used (gate s) ≠ 0 ∧ cap_ (gate s) - used (gate s) < ir_Bytes r).

Definition peak_ok (B : Z) (s : system) : Prop := used (gate s) ≤ peak (gate s) ∧ peak (gate s) ≤ B.

(** *** Batches *)

Lemma sum_bytes_app l1 l2 : sum_bytes (l1 ++ l2) = sum_bytes l1 + sum_bytes l2.
Proof. induction l1 as [|r l1 IH]; cbn; [done|]. unfold sum_bytes in IH. rewrite IH. unfold sum_bytes. lia. Qed.

Lemma exceeds_spec n b x :
  ExceedsWriteBudget cfg n b x None = true ↔ BatchSessions cfg ≤ n ∨ (0 < n ∧ BatchBytes cfg < b + x).
Proof. apply exceeds_true. Qed.

Lemma partial_batch b : b ≠ [] → partial_ok b → batch_ok b.
Proof. intros Hb [? ?]%(λ p, p Hb). repeat split; [done|lia|left; lia]. Qed.

Lemma flushPending_ok s next :
  Forall batch_ok (flushed s) → pending s ≠ [] → batch_ok (pending s) → drain_ok (flushPending s next).
Proof. intros Hf Hp Hb. split; cbn; [|done]. apply Forall_app. split; [done|]. by constructor. Qed.

Lemma join_ok r s :
  Forall batch_ok (flushed s) → partial_ok (pending s) →
  (pending s ≠ [] → ExceedsWriteBudget cfg (Z.of_nat (length (pending s))) (sum_bytes (pending s)) (ir_Bytes r) None = false) →
  drain_ok (join cfg r s).
Proof.
  intros Hf Hp Hx. unfold join.
  destruct (_ || _) eqn:Hfull.
  - apply flushPending_ok; cbn; [done|by destruct (pending s)|].
    destruct (decide (pending s = [])) as [E|E].
    + rewrite E. split; [done|]. split; [cbn [app length]; lia|by right].
    + specialize (Hx E). destruct (Hp E) as [Hn Hb].
      assert (¬ (0 < Z.of_nat (length (pending s)) ∧ BatchBytes cfg < sum_bytes (pending s) + ir_Bytes r)) as Hnot.
      { intros H. assert (ExceedsWriteBudget cfg (Z.of_nat (length (pending s))) (sum_bytes (pending s)) (ir_Bytes r) None = true)
          by (apply exceeds_spec; by right). congruence. }
      assert (0 < length (pending s))%nat by (destruct (pending s); cbn; [done|lia]).
      split; [by destruct (pending s)|]. rewrite length_app, sum_bytes_app. cbn [length sum_bytes foldr]. split; [lia|left; lia].
  - apply orb_false_iff in Hfull as [He Hb]. apply bool_decide_eq_false in Hb. split; cbn; [done|].
    intros _. assert (¬ BatchSessions cfg ≤ Z.of_nat (length (pending s ++ [r]))); [|lia].
    intros H. assert (ExceedsWriteBudget cfg (Z.of_nat (length (pending s ++ [r]))) (sum_bytes (pending s ++ [r])) 0 None = true)
      by (apply exceeds_spec; by left). cbn in He. congruence.
Qed.

Lemma admit_result_ok r s : Forall batch_ok (flushed s) → partial_ok (pending s) → drain_ok (admit_result cfg r s).
Proof.
  intros Hf Hp. unfold admit_result. destruct (_ && _) eqn:E.
  - apply andb_true_iff in E as [_ E]. apply bool_decide_eq_true in E.
    apply flushPending_ok; [done|done|by apply partial_batch].
  - apply join_ok; [done|done|]. intros Hne. apply andb_false_iff in E as [E|E]; [done|].
    by apply bool_decide_eq_false in E.
Qed.

(** *** Workers *)

Lemma workers_split {A} (f : worker → list A) ws w x :
  ws !! w = Some x → ∃ rest, ws ≫= f ≡ₚ f x ++ rest ∧ ∀ y, <[w := y]> ws ≫= f ≡ₚ f y ++ rest.
Proof.
  intros Hw. assert (Hl := lookup_lt_Some _ _ _ Hw).
  exists ((take w ws ++ drop (S w) ws) ≫= f). split.
  - rewrite <-(take_drop_middle _ _ _ Hw) at 1. rewrite !bind_app. cbn. rewrite !app_assoc.
    by apply Permutation_app; [apply Permutation_app_comm|].
  - intros y. rewrite insert_take_drop by done. rewrite !bind_app. cbn. rewrite !app_assoc.
    by apply Permutation_app; [apply Permutation_app_comm|].
Qed.

Lemma wake_bind {A} (f : worker → list A) ws : (∀ w, f (wake w) = f w) → (wake <$> ws) ≫= f = ws ≫= f.
Proof. intros Hf. induction ws as [|w ws IH]; cbn; [done|]. rewrite Hf. f_equal. exact IH. Qed.

Lemma wake_held ws : (wake <$> ws) ≫= held_by = ws ≫= held_by.
Proof. apply wake_bind. by intros []. Qed.
Lemma wake_admitted ws : (wake <$> ws) ≫= admitted_by = ws ≫= admitted_by.
Proof. apply wake_bind. by intros []. Qed.

Lemma elem_of_insert_inv {A} (l : list A) i x y : y ∈ <[i := x]> l → y = x ∨ y ∈ l.
Proof.
  intros [j Hj]%list_elem_of_lookup. apply list_lookup_insert_Some in Hj as [(-> & -> & _)|[_ Hj]]; [by left|].
  right. by eapply list_elem_of_lookup_2.
Qed.

Lemma wake_not_waiting (ws : list worker) r : Waiting r ∉ wake <$> ws.
Proof. intros (w & Hw & _)%list_elem_of_fmap. by destruct w. Qed.

Lemma wake_returned (ws : list worker) : Returned ∈ wake <$> ws → Returned ∈ ws.
Proof. intros (w & Hw & ?)%list_elem_of_fmap. by destruct w; simplify_eq/=. Qed.

Lemma wake_all_returned (ws : list worker) : Forall (λ w, w = Returned) ws → Forall (λ w, w = Returned) (wake <$> ws).
Proof. intros H. apply Forall_fmap. eapply Forall_impl; [exact H|]. by intros w ->. Qed.

(** *** The drain's invariant is kept by every step *)

Lemma step_drain_ok e s s' : drain_ok s → step cfg capacity e s = Some s' → drain_ok s'.
Proof.
  intros [Hf Hp] Hs. destruct e as [w|w|w|w| | | | | | |i]; cbn in Hs.
  - repeat case_match; simplify_eq; by split.
  - unfold admitNativeResult, set_worker in Hs. repeat case_match; simplify_eq; by split.
  - repeat case_match; simplify_eq; by split.
  - unfold set_worker in Hs. repeat case_match; simplify_eq; by split.
  - repeat case_match; simplify_eq; by split.
  - repeat case_match; simplify_eq; by split.
  - repeat case_match; simplify_eq. by apply admit_result_ok.
  - repeat case_match; simplify_eq. apply flushPending_ok; [done|done|by apply partial_batch].
  - destruct (phase s); [|done..]. case_decide as E; [|done]. simplify_eq. destruct E as [E _].
    apply flushPending_ok; [done|done|by apply partial_batch].
  - repeat case_match; simplify_eq; [by split|]. apply flushPending_ok; [done|done|by apply partial_batch].
  - unfold record_ in Hs. destruct (phase s) as [|rest next|]; [done| |done]. destruct Hp as [_ Hp].
    destruct (rest !! i); [|done]. cbn in Hs.
    repeat case_match; simplify_eq; cbn.
    all: try (split; cbn; [done|]; by rewrite ?Hp).
    all: apply join_ok; cbn; rewrite ?Hp; done.
Qed.

(** *** What the drain leaves alone, and where a result goes *)

Definition undrained (s s' : system) : Prop :=
  input s' = input s ∧ workers s' = workers s ∧ gate s' = gate s ∧ cancelled s' = cancelled s
  ∧ parsed s' = parsed s ∧ closed s' = closed s ∧ phase s' ≠ Drained.

Lemma flushPending_moves s next :
  undrained s (flushPending s next)
  ∧ drained (flushPending s next) = concat (flushed s) ++ pending s ++ match next with Some r => [r] | None => [] end
  ∧ unrecorded (flushPending s next) = match next with Some r => [r] | None => [] end ++ pending s.
Proof. unfold drained, unrecorded. cbn. rewrite concat_app. cbn. rewrite app_nil_r, <-app_assoc.
  by repeat split. Qed.

Lemma join_moves r s :
  undrained s (join cfg r s)
  ∧ drained (join cfg r s) = concat (flushed s) ++ pending s ++ [r]
  ∧ unrecorded (join cfg r s) = pending s ++ [r].
Proof.
  unfold join. case_match.
  - destruct (flushPending_moves (mkSystem (input s) (workers s) (gate s) (cancelled s) (parsed s) (closed s) Filling (pending s ++ [r]) (flushed s)) None)
      as (Hu & Hd & Hr). cbn in Hd, Hr. rewrite !app_nil_r in Hd. split; [exact Hu|]. split; [|exact Hr]. unfold drained. cbn. by rewrite !app_nil_r.
  - unfold drained, unrecorded. cbn. rewrite !app_nil_r. by repeat split.
Qed.

Lemma admit_result_moves r s :
  phase s = Filling →
  undrained s (admit_result cfg r s)
  ∧ drained (admit_result cfg r s) = drained s ++ [r]
  ∧ unrecorded (admit_result cfg r s) ≡ₚ unrecorded s ++ [r].
Proof.
  intros Hp. unfold admit_result, drained at 2, unrecorded at 2, after_flush, recording. rewrite Hp. cbn. rewrite ?app_nil_r.
  case_match.
  - destruct (flushPending_moves s (Some r)) as (Hu & Hd & Hr). rewrite Hd, Hr, <-!app_assoc.
    repeat split; try apply Hu. apply Permutation_app_comm.
  - destruct (join_moves r s) as (Hu & Hd & Hr). rewrite Hd, Hr, <-?app_assoc. repeat split; try apply Hu. done.
Qed.

(** A recorded result. *)
Lemma record_moves i s s' :
  pending s = [] → record_ cfg i s = Some s' →
  ∃ r, r ∈ recording s ∧ unrecorded s ≡ₚ r :: unrecorded s' ∧ drained s' = drained s ∧ phase s' ≠ Drained
    ∧ input s' = input s ∧ cancelled s' = cancelled s ∧ parsed s' = parsed s ∧ closed s' = closed s
    ∧ gate s' = (if ir_Candidate r then release (ir_Bytes r) (gate s) else gate s)
    ∧ workers s' = (if ir_Candidate r then wake <$> workers s else workers s).
Proof.
  intros Hp Hs. unfold record_ in Hs. destruct (phase s) as [|rest next|] eqn:Hph; [done| |done].
  destruct (rest !! i) as [r|] eqn:Hr; [|done]. cbn in Hs.
  exists r. unfold recording at 1, unrecorded at 1, drained at 2, after_flush, recording. rewrite Hph, Hp. cbn.
  split; [by eapply list_elem_of_lookup_2|].
  assert (rest ≡ₚ r :: delete i rest) as Hrest by by apply delete_Permutation.
  destruct (ir_Candidate r).
  all: destruct (delete i rest) as [|r' rest'] eqn:Ed; [destruct next as [r'|]|].
  all: simplify_eq.
  all: try match goal with |- context [join cfg ?x ?y] =>
         destruct (join_moves x y) as ((?&?&?&?&?&?&?) & Hd & Hu) end.
  all: cbn in *; repeat split; try done.
  all: rewrite ?Hd, ?Hu, ?Hrest, ?Hp; unfold drained, unrecorded; cbn; rewrite ?Hp, ?app_nil_r; try done.
  all: first [apply perm_swap|destruct next; cbn; first [done|apply perm_swap]].
Qed.

(** *** Accounting *)

Lemma accounted_perm c items l l' : l ≡ₚ l' → accounted c items l → accounted c items l'.
Proof. intros Hl (l0 & H0 & Hf). exists l0. split; [by rewrite <-Hl|done]. Qed.

Lemma accounted_cancel items l c : accounted c items l → accounted true items l.
Proof.
  intros (l0 & H0 & Hf). exists l0. split; [done|]. eapply Forall2_impl; [exact Hf|].
  intros x y [->|(_ & H)]; [by left|by right].
Qed.

Lemma accounted_refuse items r l : ir_Candidate r = true → accounted true items (r :: l) → accounted true items (refuse r :: l).
Proof.
  intros Hr (l0 & H0 & Hf).
  assert (r ∈ l0) as (l1 & l2 & ->)%list_elem_of_split by (rewrite <-H0; left).
  apply Forall2_app_inv_l in Hf as (i1 & i2 & H1 & H2 & ->).
  apply Forall2_cons_inv_l in H2 as (y & i2' & Hy & H2 & ->).
  exists (l1 ++ refuse r :: l2). split.
  - rewrite <-Permutation_middle in H0 |- *. apply Permutation_cons_inv in H0. by rewrite H0.
  - apply Forall2_app; [done|]. constructor; [|done]. right.
    destruct Hy as [->|(_ & Hy & ->)]; [done|]. done.
Qed.

Lemma accounted_elem c items l x : accounted c items l → x ∈ l → ∃ y, y ∈ items ∧ ir_Bytes x ≤ ir_Bytes y.
Proof.
  intros (l0 & H0 & Hf) Hx. rewrite H0 in Hx. apply list_elem_of_lookup in Hx as [j Hj].
  destruct (Forall2_lookup_l _ _ _ _ _ Hf Hj) as (y & Hy & Hxy). exists y.
  split; [by eapply list_elem_of_lookup_2|]. destruct Hxy as [->|(_ & _ & ->)]; unfold ir_Bytes; cbn; lia.
Qed.

Lemma every_unfold s :
  every s = concat (flushed s) ++ pending s ++ after_flush s ++ parsed s ++ (workers s ≫= held_by) ++ input s.
Proof. unfold every, sent, drained. by rewrite <-!app_assoc. Qed.

(** Moving one worker moves what it holds. *)
Lemma set_worker_every s w x y :
  workers s !! w = Some x → ∃ rest, every s ≡ₚ held_by x ++ rest ∧ every (set_worker s w y) ≡ₚ held_by y ++ rest.
Proof.
  intros Hw. destruct (workers_split held_by _ _ _ Hw) as (rest & H1 & H2).
  exists (sent s ++ rest ++ input s). unfold every. split.
  - rewrite H1, <-app_assoc, !app_assoc. f_equiv. f_equiv. apply Permutation_app_comm.
  - change (sent (set_worker s w y)) with (sent s). cbn. rewrite H2, <-app_assoc, !app_assoc.
    f_equiv. f_equiv. apply Permutation_app_comm.
Qed.

Lemma flushed_every s s' next :
  undrained s s' → drained s' = drained s ++ next → every s' ≡ₚ next ++ every s.
Proof.
  intros (Hi & Hw & _ & _ & Hp & _) Hd. unfold every, sent. rewrite Hi, Hw, Hp, Hd.
  rewrite <-!app_assoc. apply Permutation_app_swap_app.
Qed.

(** Every step but a refused admission keeps the results. *)
Lemma step_every e s s' :
  drain_ok s → step cfg capacity e s = Some s' →
  every s' ≡ₚ every s
  ∨ (cancelled s = true ∧ ∃ r rest, ir_Candidate r = true ∧ every s ≡ₚ r :: rest ∧ every s' ≡ₚ refuse r :: rest).
Proof.
  intros [_ Hp] Hs. destruct e as [w|w|w|w| | | | | | |i]; cbn in Hs.
  - left. destruct (workers s !! w) as [[]|] eqn:Hw; try done. destruct (input s) as [|r l] eqn:Hi; [done|].
    simplify_eq. destruct (workers_split held_by _ _ _ Hw) as (rest & H1 & H2).
    rewrite !every_unfold. unfold after_flush. cbn. rewrite Hi, H1, H2. cbn. by rewrite !Permutation_middle.
  - assert (∃ r x, workers s !! w = Some x ∧ held_by x = [r] ∧ s' = admitNativeResult s w r) as (r & x & Hw & Hx & ->).
    { destruct (workers s !! w) as [[]|]; simplify_eq; eauto. }
    assert (∀ g y, ∃ rest, every s ≡ₚ r :: rest ∧
      every (mkSystem (input s) (<[w := y]> (workers s)) g (cancelled s) (parsed s) (closed s) (phase s) (pending s) (flushed s))
      ≡ₚ held_by y ++ rest) as Hg.
    { intros g y. destruct (set_worker_every s w x y Hw) as (rest & H1 & H2). exists rest. by rewrite Hx in H1. }
    unfold admitNativeResult. destruct (ir_Candidate r) eqn:Hc; cbn.
    + unfold acquire. destruct (decide _); destruct (cancelled s) eqn:Hca.
      all: try (left; edestruct Hg as (rest & -> & ->); done).
      all: right; split; [done|]; edestruct (Hg (gate s)) as (rest & H1 & H2); exists r, rest; split; [done|]; split; [done|].
      all: unfold set_worker; rewrite Hca; exact H2.
    + left. edestruct (Hg (gate s)) as (rest & -> & H2). exact H2.
  - left. destruct (workers s !! w) as [[]|] eqn:Hw; try done. case_decide; [|done]. simplify_eq.
    destruct (workers_split held_by _ _ _ Hw) as (rest & H1 & H2).
    rewrite !every_unfold. unfold after_flush. cbn. rewrite H1, H2. cbn. rewrite <-!app_assoc. done.
  - left. destruct (workers s !! w) as [[]|] eqn:Hw; try done. case_match; [|done]. simplify_eq.
    destruct (set_worker_every s w _ Returned Hw) as (rest & H1 & H2). by rewrite H1, H2.
  - left. destruct (_ && _); [|done]. simplify_eq. reflexivity.
  - left. destruct (cancelled s); [done|]. simplify_eq. rewrite !every_unfold. unfold after_flush. cbn. by rewrite wake_held.
  - left. destruct (phase s) eqn:Hph; [|done..]. destruct (parsed s) as [|r l] eqn:Hpa; [done|]. simplify_eq.
    set (s0 := mkSystem _ _ _ _ _ _ _ _ _). destruct (admit_result_moves r s0 eq_refl) as (Hu & Hd & _).
    rewrite (flushed_every _ _ _ Hu Hd). rewrite !every_unfold. unfold after_flush. cbn. rewrite Hph, Hpa.
    cbn. by rewrite !Permutation_middle.
  - left. destruct (phase s) eqn:Hph; [|done..]. case_decide; [|done]. simplify_eq.
    destruct (flushPending_moves s None) as (Hu & Hd & _).
    rewrite (flushed_every s _ [] Hu); [done|]. rewrite Hd. unfold drained, after_flush. by rewrite Hph, !app_nil_r.
  - left. destruct (phase s) eqn:Hph; [|done..]. case_decide; [|done]. simplify_eq.
    set (s0 := mkSystem _ _ _ _ _ _ _ _ _). destruct (flushPending_moves s0 None) as (Hu & Hd & _).
    rewrite (flushed_every s0 _ [] Hu); [|rewrite Hd; unfold drained, after_flush; cbn; by rewrite !app_nil_r].
    rewrite !every_unfold. unfold after_flush. cbn. by rewrite Hph.
  - left. destruct (phase s) eqn:Hph; [|done..]. destruct (parsed s) as [|r l] eqn:Hpa; [|done].
    repeat case_decide; [| |done]; simplify_eq.
    + rewrite !every_unfold. unfold after_flush. cbn. by rewrite Hph, Hpa, H0.
    + destruct (flushPending_moves s None) as (Hu & Hd & _).
      rewrite (flushed_every s _ [] Hu); [done|]. rewrite Hd. unfold drained, after_flush. by rewrite Hph, !app_nil_r.
  - left. assert (pending s = []) as Hpe by (unfold record_ in Hs; by destruct (phase s); [|destruct Hp|]).
    destruct (record_moves _ _ _ Hpe Hs) as (r & _ & _ & Hd & _ & Hi & _ & Hpa & _ & _ & Hw).
    unfold every, sent. rewrite Hd, Hi, Hpa, Hw. case_match; by rewrite ?wake_held.
Qed.

(** What a step does to the fields the drain does not own. *)
Lemma record_fields i s s' : drain_ok s → record_ cfg i s = Some s' → pending s = [].
Proof. intros [_ Hp] Hs. unfold record_ in Hs. by destruct (phase s); [|destruct Hp|]. Qed.

Lemma step_cancelled e s s' :
  drain_ok s → step cfg capacity e s = Some s' → cancelled s' = cancelled s ∨ cancelled s' = true.
Proof.
  intros Hd Hs. destruct e as [w|w|w|w| | | | | | |i]; cbn in Hs.
  2: unfold admitNativeResult, set_worker in Hs.
  11: { left. by destruct (record_moves _ _ _ (record_fields _ _ _ Hd Hs) Hs) as (? & _ & _ & _ & _ & _ & Hc & _). }
  7: { destruct (phase s); [|done..]. destruct (parsed s) as [|r l]; [done|]. simplify_eq. left.
       match goal with |- context [admit_result _ ?r ?s0] => by destruct (admit_result_moves r s0 eq_refl) as ((_ & _ & _ & Hc & _) & _) end. }
  all: clear Hd; repeat case_match; simplify_eq; by (left + right).
Qed.

Lemma step_accounted items e s s' :
  drain_ok s → accounted (cancelled s) items (every s) → step cfg capacity e s = Some s' →
  accounted (cancelled s') items (every s').
Proof.
  intros Hd Ha Hs. destruct (step_every _ _ _ Hd Hs) as [He|(Hc & r & rest & Hr & H1 & H2)].
  - apply (accounted_perm _ _ _ _ (symmetry He)).
    destruct (step_cancelled _ _ _ Hd Hs) as [->| ->]; [done|by eapply accounted_cancel].
  - assert (cancelled s' = true) as -> by (destruct (step_cancelled _ _ _ Hd Hs); congruence).
    apply (accounted_perm _ _ _ _ (symmetry H2)). apply accounted_refuse; [done|].
    rewrite Hc in Ha. by apply (accounted_perm _ _ _ _ H1).
Qed.

Lemma closing_same s s' :
  input s' = input s → workers s' = workers s → parsed s' = parsed s → closed s' = closed s → phase s' ≠ Drained →
  closing_ok s → closing_ok s'.
Proof. intros Hi Hw Hp Hc Hph (H1 & H2 & H3). unfold closing_ok. by rewrite Hi, Hw, Hp, Hc. Qed.

Lemma closing_worker s w x y inp par g c :
  workers s !! w = Some x → x ≠ Returned → (y = Returned → inp = []) → (input s = [] → inp = []) →
  closing_ok s →
  closing_ok (mkSystem inp (<[w := y]> (workers s)) g c par (closed s) (phase s) (pending s) (flushed s)).
Proof.
  intros Hw Hx Hy Hi (H1 & H2 & H3). assert (closed s ≠ true) as Hc.
  { intros Hc. specialize (H2 Hc). rewrite Forall_lookup in H2. naive_solver. }
  split; [|split]; cbn.
  - intros [<-|Hin]%elem_of_insert_inv; [by apply Hy|]. auto.
  - intros H. by destruct Hc.
  - intros Hph. destruct (H3 Hph) as [H _]. by destruct Hc.
Qed.

Lemma has_returned_spec ws : forallb has_returned ws = true → Forall (λ w, w = Returned) ws.
Proof. rewrite forallb_forall, Forall_forall. intros H x Hx%list_elem_of_In. apply H in Hx. by destruct x. Qed.

Lemma step_closing_ok e s s' :
  drain_ok s → closing_ok s → step cfg capacity e s = Some s' → closing_ok s'.
Proof.
  intros Hd Hc Hs. destruct e as [w|w|w|w| | | | | | |i]; cbn in Hs.
  - destruct (workers s !! w) as [[]|] eqn:Hw; try done. destruct (input s) eqn:Hi; [done|]. simplify_eq.
    eapply closing_worker; [done|done|done|congruence|done].
  - assert (∃ r x, workers s !! w = Some x ∧ x ≠ Returned ∧ s' = admitNativeResult s w r) as (r & x & Hw & Hx & ->).
    { destruct (workers s !! w) as [[]|]; simplify_eq; eauto. }
    unfold admitNativeResult, set_worker. repeat case_match; by eapply closing_worker.
  - destruct (workers s !! w) as [[]|] eqn:Hw; try done. case_decide; [|done]. simplify_eq. by eapply closing_worker.
  - destruct (workers s !! w) as [[]|] eqn:Hw; try done. case_match; [|done]. simplify_eq. by eapply closing_worker.
  - destruct (forallb _ _) eqn:Hr; [|done]. destruct Hc as (H1 & H2 & H3). destruct (closed s) eqn:Hcl; [done|].
    cbn in Hs. simplify_eq. split; [done|]. split; [by intros _; apply has_returned_spec|].
    intros Hph. by destruct (H3 Hph).
  - destruct (cancelled s); [done|]. simplify_eq. destruct Hc as (H1 & H2 & H3). split; [|split]; cbn; [|by intros; apply wake_all_returned; auto|done].
    intros Hin%wake_returned. auto.
  - destruct (phase s) eqn:Hph; [|done..]. destruct (parsed s) as [|r l]; [done|]. simplify_eq.
    set (s0 := mkSystem _ _ _ _ _ _ _ _ _). destruct (admit_result_moves r s0 eq_refl) as ((Hi&Hw&_&_&Hp&Hcl&Hne) & _).
    apply (closing_same s0); [done..|]. destruct Hc as (H1 & H2 & H3). by split; [|split].
  - destruct (phase s); [|done..]. case_decide; [|done]. simplify_eq. by apply (closing_same s).
  - destruct (phase s); [|done..]. case_decide; [|done]. simplify_eq. by apply (closing_same s).
  - destruct (phase s); [|done..]. destruct (parsed s) eqn:Hpa; [|done]. repeat case_decide; [| |done]; simplify_eq.
    + destruct Hc as (H1 & H2 & H3). by split; [|split].
    + by apply (closing_same s).
  - destruct (record_moves _ _ _ (record_fields _ _ _ Hd Hs) Hs) as (r & _ & _ & _ & Hne & Hi & _ & Hp & Hcl & _ & Hw).
    destruct (ir_Candidate r); [|by apply (closing_same s)].
    destruct Hc as (H1 & H2 & H3). unfold closing_ok. rewrite Hi, Hw, Hcl.
    split; [|split]; [intros Hin%wake_returned; auto|by intros; apply wake_all_returned; auto|done].
Qed.

(** *** The bytes of the gate *)

Lemma staged_nonneg r : 0 ≤ staged r.
Proof. unfold staged, ir_Bytes. case_match; lia. Qed.
Lemma staged_bytes_nonneg l : 0 ≤ staged_bytes l.
Proof. induction l as [|r l IH]; [done|]. cbn. pose proof (staged_nonneg r). unfold staged_bytes in IH. lia. Qed.
Lemma staged_bytes_elem r l : r ∈ l → staged r ≤ staged_bytes l.
Proof.
  intros (l1 & l2 & ->)%list_elem_of_split. rewrite staged_bytes_app. cbn.
  pose proof (staged_bytes_nonneg l1). pose proof (staged_bytes_nonneg l2). unfold staged_bytes in *. lia.
Qed.

Lemma gate_same s s' :
  cap_ (gate s') = cap_ (gate s) → used (gate s') = used (gate s) → cancelled s' = cancelled s → owners s' ≡ₚ owners s →
  (∀ r, Waiting r ∈ workers s' → Waiting r ∈ workers s) → gate_ok s → gate_ok s'.
Proof.
  intros Hc Hu Hca Ho Hw (H1 & H2 & H3 & H4). unfold gate_ok. rewrite Hc, Hu, Hca, Ho.
  split; [done|]. split; [done|]. split; [|by intros r Hr; apply H4, Hw].
  destruct H3 as [H3|(r & Hr & H3)]; [by left|right]. exists r. by rewrite Ho.
Qed.

Lemma owners_worker s w x :
  workers s !! w = Some x → ∃ rest, owners s ≡ₚ admitted_by x ++ rest ∧
  ∀ y inp g c, owners (mkSystem inp (<[w := y]> (workers s)) g c (parsed s) (closed s) (phase s) (pending s) (flushed s))
    ≡ₚ admitted_by y ++ rest.
Proof.
  intros Hw. destruct (workers_split admitted_by _ _ _ Hw) as (rest & H1 & H2).
  exists (rest ++ parsed s ++ unrecorded s). unfold owners, unrecorded, after_flush, recording. cbn. split.
  - by rewrite H1, <-app_assoc.
  - intros. by rewrite H2, <-app_assoc.
Qed.

Lemma gate_worker_idle s w x y inp :
  workers s !! w = Some x → admitted_by x = admitted_by y → (∀ r, y ≠ Waiting r) →
  gate_ok s →
  gate_ok (mkSystem inp (<[w := y]> (workers s)) (gate s) (cancelled s) (parsed s) (closed s) (phase s) (pending s) (flushed s)).
Proof.
  intros Hw Hxy Hy. apply gate_same; try done.
  - destruct (owners_worker s w x Hw) as (rest & -> & H). rewrite H. by rewrite Hxy.
  - cbn. intros r [<-|?]%elem_of_insert_inv; [by destruct (Hy r)|done].
Qed.

(** An admission: the worker owned nothing, and now owns [r] or waits. *)
Lemma gate_admit s w r x :
  workers s !! w = Some x → held_by x = [r] → admitted_by x = [] → gate_ok s → gate_ok (admitNativeResult s w r).
Proof.
  intros Hw Hx Ha Hg. pose proof Hg as (H1 & H2 & H3 & H4).
  destruct (owners_worker s w x Hw) as (rest & Ho & Ho'). rewrite Ha in Ho. cbn in Ho.
  assert (Hzero : ∀ r', staged r' = 0 → gate_ok (set_worker s w (Sending r'))).
  { intros r' Hr'. unfold gate_ok, set_worker. rewrite Ho'. cbn. split; [done|]. split; [|split].
    - rewrite H2, Ho. cbn. fold (staged_bytes rest). lia.
    - destruct H3 as [H3|(r0 & Hr0 & H3)]; [by left|right]. exists r0. split; [|done]. rewrite Ho'. right. by rewrite <-Ho.
    - intros r0 [?|?]%elem_of_insert_inv; [done|by apply H4]. }
  unfold admitNativeResult. destruct (ir_Candidate r) eqn:Hc; cbn; [|by apply Hzero; unfold staged; rewrite Hc].
  assert (staged r = ir_Bytes r) as Hst by (unfold staged; by rewrite Hc).
  unfold acquire. destruct (decide _) as [[Hu Hn]|Hfit]; destruct (cancelled s) eqn:Hca; try (by apply Hzero).
  - unfold gate_ok. rewrite Ho'. cbn. rewrite <-Ho. split; [done|]. split; [done|]. split.
    + destruct H3 as [H3|(r0 & Hr0 & H3)]; [by left|right]. exists r0. rewrite Ho'. cbn. by rewrite <-Ho.
    + intros r0 [?|Hin]%elem_of_insert_inv; [by simplify_eq|]. by apply H4.
  - pose proof (staged_nonneg r). pose proof (staged_bytes_nonneg rest). rewrite Ho in H2.
    unfold gate_ok. rewrite Ho'. cbn. fold (staged_bytes rest). rewrite Hst. split; [done|]. split; [lia|]. split.
    + destruct (decide (used (gate s) = 0)) as [E|E]; [right; exists r; split; [rewrite Ho'; left|lia]|left; lia].
    + intros r0 [?|Hin]%elem_of_insert_inv; [done|]. destruct (H4 _ Hin) as (? & ? & ? & ?).
      split; [done|]. split; [done|]. split; lia.
Qed.

(** A release: everything that waited is woken, and what is left still fits. *)
Lemma gate_release s s' r :
  owners s ≡ₚ r :: owners s' → 0 ≤ StagedMemoryBytes cfg → cancelled s' = cancelled s →
  gate s' = (if ir_Candidate r then release (ir_Bytes r) (gate s) else gate s) →
  workers s' = (if ir_Candidate r then wake <$> workers s else workers s) →
  gate_ok s → gate_ok s'.
Proof.
  intros Ho Hcap Hca Hgt Hws (H1 & H2 & H3 & H4).
  assert (cap_ (gate s') = cap_ (gate s) ∧ used (gate s') = used (gate s) - staged r) as [Hc Hu].
  { rewrite Hgt. unfold staged. case_match; cbn; split; lia. }
  rewrite Ho in H2. cbn in H2. fold (staged_bytes (owners s')) in H2.
  pose proof (staged_bytes_nonneg (owners s')). pose proof (staged_nonneg r).
  unfold gate_ok. rewrite Hc, Hu. split; [done|]. split; [lia|]. split.
  - destruct H3 as [H3|(r0 & Hr0 & H3)]; [left; lia|]. rewrite Ho in Hr0. apply elem_of_cons in Hr0 as [->|Hr0].
    + left. lia.
    + right. exists r0. split; [done|]. pose proof (staged_bytes_elem _ _ Hr0). lia.
  - intros r0. rewrite Hws, Hca. unfold staged. case_match; [by intros ?%wake_not_waiting|]. rewrite Z.sub_0_r. apply H4.
Qed.

Lemma unrecorded_owners s s' :
  undrained s s' → unrecorded s' ≡ₚ unrecorded s → gate_ok s → gate_ok s'.
Proof.
  intros (Hi & Hw & Hg & Hc & Hp & _) Hu. apply gate_same; rewrite ?Hg, ?Hw, ?Hc; try done.
  unfold owners. by rewrite Hw, Hp, Hu.
Qed.

Lemma step_gate_ok e s s' :
  0 ≤ StagedMemoryBytes cfg → drain_ok s → gate_ok s → step cfg capacity e s = Some s' → gate_ok s'.
Proof.
  intros Hcap Hd Hg Hs. destruct e as [w|w|w|w| | | | | | |i]; cbn in Hs.
  - destruct (workers s !! w) as [[]|] eqn:Hw; try done. destruct (input s); [done|]. simplify_eq.
    by eapply gate_worker_idle.
  - destruct (workers s !! w) as [[]|] eqn:Hw; try done; simplify_eq; by eapply gate_admit.
  - destruct (workers s !! w) as [[]|] eqn:Hw; try done. case_decide; [|done]. simplify_eq.
    destruct (owners_worker s w _ Hw) as (rest & Ho & Ho').
    revert Hg. apply gate_same; try done; cbn; [|by intros r0 [?|?]%elem_of_insert_inv].
    destruct (workers_split admitted_by _ _ _ Hw) as (rest' & H1 & H2).
    unfold owners. cbn. rewrite H1, H2. cbn. rewrite <-!app_assoc. cbn. by rewrite !Permutation_middle.
  - destruct (workers s !! w) as [[]|] eqn:Hw; try done. case_match; [|done]. simplify_eq. by eapply gate_worker_idle.
  - destruct (_ && _); [|done]. simplify_eq. revert Hg. by apply gate_same.
  - destruct (cancelled s); [done|]. simplify_eq. destruct Hg as (H1 & H2 & H3 & H4).
    unfold gate_ok, owners. cbn. rewrite wake_admitted. split; [done|]. split; [done|]. split; [done|].
    by intros r ?%wake_not_waiting.
  - destruct (phase s) eqn:Hph; [|done..]. destruct (parsed s) as [|r l] eqn:Hpa; [done|]. simplify_eq.
    set (s0 := mkSystem _ _ _ _ _ _ _ _ _).
    destruct (admit_result_moves r s0 eq_refl) as ((_ & Hw & Hgt & Hc & Hp & _) & _ & Hu).
    revert Hg. apply gate_same; rewrite ?Hgt, ?Hw, ?Hc; try done.
    unfold owners. rewrite Hw, Hp, Hu, Hpa. unfold unrecorded, after_flush, recording, s0. cbn. rewrite Hph. cbn.
    f_equiv. rewrite (Permutation_app_comm (pending s)). cbn. rewrite (Permutation_app_comm _ [r]). cbn.
    by rewrite <-Permutation_middle.
  - destruct (phase s) eqn:Hph; [|done..]. case_decide; [|done]. simplify_eq.
    destruct (flushPending_moves s None) as (Hu & _ & Hr). eapply (unrecorded_owners s); [done| |done].
    rewrite Hr. unfold unrecorded, after_flush, recording. by rewrite Hph, !app_nil_r.
  - destruct (phase s) eqn:Hph; [|done..]. case_decide; [|done]. simplify_eq.
    set (s0 := mkSystem _ _ _ _ _ _ _ _ _). destruct (flushPending_moves s0 None) as (Hu & _ & Hr).
    eapply (unrecorded_owners s0); [done| |].
    + rewrite Hr. unfold unrecorded, after_flush, recording. cbn. by rewrite !app_nil_r.
    + revert Hg. apply gate_same; try done. unfold s0, owners, unrecorded, after_flush, recording. cbn. by rewrite Hph.
  - destruct (phase s) eqn:Hph; [|done..]. destruct (parsed s) eqn:Hpa; [|done]. repeat case_decide; [| |done]; simplify_eq.
    + revert Hg. apply gate_same; try done. unfold owners, unrecorded, after_flush, recording. cbn. by rewrite Hph, Hpa, H0.
    + destruct (flushPending_moves s None) as (Hu & _ & Hr). eapply (unrecorded_owners s); [done| |done].
      rewrite Hr. unfold unrecorded, after_flush, recording. by rewrite Hph, !app_nil_r.
  - destruct (record_moves _ _ _ (record_fields _ _ _ Hd Hs) Hs) as (r & _ & Hu & _ & _ & _ & Hc & Hp & _ & Hgt & Hw).
    eapply gate_release; [|done..]. unfold owners. rewrite Hu, Hp, Hw, !Permutation_middle.
    case_match; by rewrite ?wake_admitted.
Qed.

(** *** What is reachable *)

Record reachable_ok (items : list indexParseResult) (n : nat) (s : system) : Prop := {
  ro_drain : drain_ok s;
  ro_accounted : accounted (cancelled s) items (every s);
  ro_closing : closing_ok s;
  ro_gate : gate_ok s;
  ro_workers : length (workers s) = n;
}.

Lemma record_workers i s s' : drain_ok s → record_ cfg i s = Some s' → length (workers s') = length (workers s).
Proof.
  intros Hd Hs.
  destruct (record_moves _ _ _ (record_fields _ _ _ Hd Hs) Hs) as (r & _ & _ & _ & _ & _ & _ & _ & _ & _ & ->).
  case_match; by rewrite ?length_fmap.
Qed.

Lemma step_workers e s s' : drain_ok s → step cfg capacity e s = Some s' → length (workers s') = length (workers s).
Proof.
  intros Hd Hs. destruct e as [w|w|w|w| | | | | | |i]; cbn in Hs.
  11: by eapply record_workers.
  2: unfold admitNativeResult, set_worker in Hs.
  7: { destruct (phase s); [|done..]. destruct (parsed s) as [|r l]; [done|]. simplify_eq.
       match goal with |- context [admit_result _ ?r ?s0] => by destruct (admit_result_moves r s0 eq_refl) as ((_ & -> & _) & _) end. }
  all: clear Hd; repeat case_match; simplify_eq; cbn; by rewrite ?length_insert, ?length_fmap.
Qed.

Lemma start_ok items n : 0 ≤ StagedMemoryBytes cfg → reachable_ok items n (start cfg items n).
Proof.
  intros Hcap. assert (Hb : ∀ {A} (f : worker → list A), f Receiving = [] → replicate n Receiving ≫= f = []).
  { intros A f Hf. induction n as [|k IH]; cbn; [done|]. rewrite Hf. exact IH. }
  split; cbn.
  - split; [constructor|done].
  - exists items. unfold every, sent, drained, after_flush. cbn. rewrite Hb by done. split; [done|].
    clear. induction items; constructor; [by left|done].
  - split; [|done]. cbn. by intros [? _]%elem_of_replicate.
  - split; [done|]. unfold owners, unrecorded. cbn. rewrite Hb by done. split; [done|]. split; [|by intros r [? _]%elem_of_replicate].
    by left.
  - apply length_replicate.
Qed.

Lemma reachable_step items n e s s' :
  0 ≤ StagedMemoryBytes cfg → reachable_ok items n s → step cfg capacity e s = Some s' → reachable_ok items n s'.
Proof.
  intros Hcap [Hd Ha Hc Hg Hw] Hs. split.
  - by eapply step_drain_ok.
  - by eapply step_accounted.
  - by eapply step_closing_ok.
  - by eapply step_gate_ok.
  - by rewrite (step_workers _ _ _ Hd Hs).
Qed.

Lemma reachable_steps items n es s s' :
  0 ≤ StagedMemoryBytes cfg → reachable_ok items n s → steps cfg capacity es s = Some s' → reachable_ok items n s'.
Proof.
  intros Hcap. revert s. induction es as [|e es IH]; intros s Hs Hst; cbn in Hst; [by simplify_eq|].
  apply bind_Some in Hst as (s1 & H1 & H2). eapply IH; [|done]. by eapply reachable_step.
Qed.

Lemma reached items n es s :
  0 ≤ StagedMemoryBytes cfg → steps cfg capacity es (start cfg items n) = Some s → reachable_ok items n s.
Proof. intros Hcap. by apply reachable_steps, start_ok. Qed.

(** *** The peak *)

Lemma step_peak B e s s' :
  StagedMemoryBytes cfg ≤ B → (∀ r, r ∈ every s → ir_Bytes r ≤ B) → drain_ok s → gate_ok s → peak_ok B s →
  step cfg capacity e s = Some s' → peak_ok B s'.
Proof.
  intros HB Hr Hd Hg [Hu Hp] Hs. destruct e as [w|w|w|w| | | | | | |i]; cbn in Hs.
  11: { destruct (record_moves _ _ _ (record_fields _ _ _ Hd Hs) Hs) as (r & _ & _ & _ & _ & _ & _ & _ & _ & Hgt & _).
        unfold peak_ok. rewrite Hgt. case_match; [|done]. cbn. unfold ir_Bytes. lia. }
  7: { destruct (phase s); [|done..]. destruct (parsed s) as [|r l]; [done|]. simplify_eq. unfold peak_ok.
       match goal with |- context [admit_result _ ?r ?s0] => by destruct (admit_result_moves r s0 eq_refl) as ((_ & _ & -> & _) & _) end. }
  2: { assert (∃ r x, workers s !! w = Some x ∧ held_by x = [r] ∧ s' = admitNativeResult s w r) as (r & x & Hw & Hx & ->).
       { destruct (workers s !! w) as [[]|]; simplify_eq; eauto. }
       assert (ir_Bytes r ≤ B) as Hle.
       { apply Hr. destruct (set_worker_every s w x Returned Hw) as (rest & -> & _). rewrite Hx. left. }
       destruct Hg as (Hc & _). unfold peak_ok, admitNativeResult. destruct (ir_Candidate r); cbn; [|done].
       unfold acquire. destruct (decide _) as [|Hfit]; destruct (cancelled s); cbn; try done.
       assert (used (gate s) = 0 ∨ used (gate s) + ir_Bytes r ≤ cap_ (gate s)) by lia. lia. }
  all: clear Hd Hr Hg; unfold set_worker, peak_ok in *; repeat case_match; simplify_eq; done.
Qed.

(** *** The measure that every step decreases *)

Section measure.
Context (K : nat).

Definition weight (w : worker) : nat :=
  match w with
  | Returned => 0 | Receiving => 1
  | Admitting _ => K + 8 | Woken _ => K + 7 | Waiting _ => K + 6 | Sending _ => K + 5
  end.
Definition drain_weight (s : system) : nat :=
  length (after_flush s) * (K + 2) + length (pending s) * (K + 1) + length (recording s) * K.
Definition measure (s : system) : nat :=
  length (input s) * (K + 8) + sum_list_with weight (workers s) + length (parsed s) * (K + 3) + drain_weight s
  + (if cancelled s then 0 else K) + (if closed s then 0 else 1) + match phase s with Drained => 0 | _ => 1 end.

Lemma weight_insert ws w x y :
  ws !! w = Some x → (sum_list_with weight (<[w := y]> ws) + weight x = sum_list_with weight ws + weight y)%nat.
Proof.
  revert w. induction ws as [|z ws IH]; intros [|w] Hw; cbn in *; [done|done|simplify_eq; lia|].
  rewrite <-!Nat.add_assoc. f_equal. exact (IH w Hw).
Qed.

Lemma weight_wake (ws : list worker) : (sum_list_with weight (wake <$> ws) ≤ sum_list_with weight ws + length ws)%nat.
Proof. induction ws as [|[] ws IH]; cbn in *; lia. Qed.

Lemma flush_weight s next :
  (drain_weight (flushPending s next) ≤ length (pending s) * K + (if next then K + 2 else 0))%nat.
Proof. unfold drain_weight, after_flush, recording. cbn. destruct next; cbn [length]; lia. Qed.

Lemma join_weight r s : (drain_weight (join cfg r s) ≤ (length (pending s) + 1) * (K + 1))%nat.
Proof.
  unfold join. case_match.
  - etrans; [apply flush_weight|]. cbn [pending]. rewrite length_app. cbn [length]. lia.
  - unfold drain_weight, after_flush, recording. cbn [phase pending]. rewrite length_app. cbn [length]. lia.
Qed.

Lemma admit_weight r s : (drain_weight (admit_result cfg r s) ≤ length (pending s) * (K + 1) + (K + 2))%nat.
Proof.
  unfold admit_result. case_match.
  - etrans; [apply flush_weight|]. cbn. lia.
  - etrans; [apply join_weight|]. lia.
Qed.

(** Recording a result frees its weight, less what the broadcast wakes. *)
Lemma record_weight i s s' :
  drain_ok s → record_ cfg i s = Some s' → (drain_weight s' + K ≤ drain_weight s)%nat.
Proof.
  intros Hd Hs. pose proof (record_fields _ _ _ Hd Hs) as Hp. unfold record_ in Hs.
  destruct (phase s) as [|rest next|] eqn:Hph; [done| |done].
  destruct (rest !! i) as [r|] eqn:Hr; [|done]. cbn in Hs.
  assert (length rest = S (length (delete i rest))) as Hl.
  { pose proof (lookup_lt_Some _ _ _ Hr). rewrite length_delete by done. lia. }
  unfold drain_weight at 2, after_flush, recording. rewrite Hph, Hp, Hl.
  destruct (if ir_Candidate r then _ else _) as [g ws].
  destruct (delete i rest) as [|r' rest']; [destruct next as [r'|]|]; simplify_eq.
  - etrans; [apply Nat.add_le_mono_r, join_weight|]. cbn [pending]. rewrite Hp. cbn [length]. lia.
  - unfold drain_weight, after_flush, recording. cbn [phase pending length]. rewrite Hp. cbn [length]. lia.
  - unfold drain_weight, after_flush, recording. cbn [phase pending]. rewrite Hp. destruct next; cbn [length]; lia.
Qed.

Lemma phase_weight s s' : undrained s s' → match phase s' with Drained => 0%nat | _ => 1%nat end = 1%nat.
Proof. intros (_ & _ & _ & _ & _ & _ & H). by destruct (phase s'). Qed.

Lemma filling_weight s :
  phase s = Filling → drain_weight s = (length (pending s) * (K + 1))%nat.
Proof. intros H. unfold drain_weight, after_flush, recording. rewrite H. cbn [length]. lia. Qed.

(** A flush of what was pending, whatever happens to the gate. *)
Lemma measure_flush s g :
  phase s = Filling → pending s ≠ [] →
  (measure (flushPending (mkSystem (input s) (workers s) g (cancelled s) (parsed s) (closed s) Filling (pending s) (flushed s)) None)
   < measure s)%nat.
Proof.
  intros Hph Hp. set (s0 := mkSystem _ _ _ _ _ _ _ _ _). unfold measure.
  pose proof (flush_weight s0 None) as Hf. rewrite Hph, (filling_weight s Hph).
  unfold s0 in *. cbn [input workers parsed cancelled closed phase pending flushPending] in *.
  assert (0 < length (pending s))%nat by (destruct (pending s); cbn; [done|lia]). cbn beta iota in Hf. nia.
Qed.

Lemma measure_worker s w x y inp g par :
  workers s !! w = Some x →
  (length inp * (K + 8) + weight y + length par * (K + 3) < length (input s) * (K + 8) + weight x + length (parsed s) * (K + 3))%nat →
  (measure (mkSystem inp (<[w := y]> (workers s)) g (cancelled s) par (closed s) (phase s) (pending s) (flushed s)) < measure s)%nat.
Proof.
  intros Hw Hlt. unfold measure.
  change (drain_weight (mkSystem _ _ _ _ _ _ _ _ _)) with (drain_weight s). cbn [input workers parsed cancelled closed phase].
  pose proof (weight_insert _ _ _ y Hw). lia.
Qed.

Lemma step_decreases e s s' :
  drain_ok s → (length (workers s) < K)%nat → step cfg capacity e s = Some s' → (measure s' < measure s)%nat.
Proof.
  intros Hd HK Hs. destruct e as [w|w|w|w| | | | | | |i]; cbn in Hs.
  - destruct (workers s !! w) as [[]|] eqn:Hw; try done. destruct (input s) as [|r l] eqn:Hi; [done|]. simplify_eq.
    eapply measure_worker; [done|]. rewrite Hi. cbn [length weight]. lia.
  - assert (∃ r x, workers s !! w = Some x ∧ (K + 7 ≤ weight x)%nat ∧ s' = admitNativeResult s w r) as (r & x & Hw & Hx & ->).
    { destruct (workers s !! w) as [[]|] eqn:Hw; simplify_eq; (do 2 eexists; split; [done|split; [|done]]); cbn; lia. }
    clear Hs. unfold admitNativeResult, set_worker. repeat case_match; (eapply measure_worker; [exact Hw|]); cbn [weight]; lia.
  - destruct (workers s !! w) as [[]|] eqn:Hw; try done. case_decide; [|done]. simplify_eq.
    eapply measure_worker; [done|]. rewrite length_app. cbn [length weight]. lia.
  - destruct (workers s !! w) as [[]|] eqn:Hw; try done. case_match; [|done]. simplify_eq.
    eapply measure_worker; [done|]. cbn [weight]. lia.
  - destruct (forallb _ _); [|done]. destruct (closed s) eqn:Hcl; [done|]. cbn in Hs. simplify_eq. unfold measure.
    change (drain_weight (mkSystem _ _ _ _ _ _ _ _ _)) with (drain_weight s). cbn [input workers parsed cancelled closed phase].
    rewrite Hcl. lia.
  - destruct (cancelled s) eqn:Hc; [done|]. simplify_eq. unfold measure.
    change (drain_weight (mkSystem _ _ _ _ _ _ _ _ _)) with (drain_weight s). cbn [input workers parsed cancelled closed phase].
    rewrite Hc. pose proof (weight_wake (workers s)). lia.
  - destruct (phase s) eqn:Hph; [|done..]. destruct (parsed s) as [|r l] eqn:Hpa; [done|]. simplify_eq.
    set (s0 := mkSystem _ _ _ _ _ _ _ _ _). destruct (admit_result_moves r s0 eq_refl) as (Hu & _).
    pose proof (phase_weight _ _ Hu) as Hpw. destruct Hu as (Hi & Hw & _ & Hc & Hp & Hcl & _).
    pose proof (admit_weight r s0) as Ha. unfold measure.
    rewrite Hi, Hw, Hc, Hp, Hcl, Hpw, Hph, Hpa, (filling_weight s Hph). unfold s0 in *.
    cbn [input workers parsed cancelled closed phase pending length] in *. lia.
  - destruct (phase s) eqn:Hph; [|done..]. case_decide; [|done]. simplify_eq.
    pose proof (measure_flush s (gate s)) as Hm. rewrite <-Hph in Hm. by apply Hm.
  - destruct (phase s) eqn:Hph; [|done..]. case_decide as Hb; [|done]. simplify_eq.
    apply measure_flush; [done|by destruct Hb].
  - destruct (phase s) eqn:Hph; [|done..]. destruct (parsed s) eqn:Hpa; [|done]. repeat case_decide; [| |done]; simplify_eq.
    + unfold measure. rewrite (filling_weight s Hph). unfold drain_weight, after_flush, recording.
      cbn [input workers parsed cancelled closed phase pending length]. rewrite Hph, Hpa. cbn [length]. lia.
    + by apply (measure_flush s (gate s)).
  - pose proof (record_weight _ _ _ Hd Hs) as Hwt.
    destruct (record_moves _ _ _ (record_fields _ _ _ Hd Hs) Hs) as (r & _ & _ & _ & Hne & Hi & Hc & Hp & Hcl & _ & Hw).
    assert (match phase s' with Drained => 0 | _ => 1 end = 1)%nat as Hpw by by destruct (phase s').
    assert (match phase s with Drained => 0 | _ => 1 end = 1)%nat as Hpw' by (unfold record_ in Hs; by destruct (phase s)).
    unfold measure. rewrite Hi, Hc, Hp, Hcl, Hpw, Hpw', Hw.
    pose proof (weight_wake (workers s)). destruct (ir_Candidate r); lia.
Qed.

Lemma steps_bounded items n es s s' :
  0 ≤ StagedMemoryBytes cfg → (n < K)%nat → reachable_ok items n s → steps cfg capacity es s = Some s' →
  (length es + measure s' ≤ measure s)%nat.
Proof.
  intros Hcap HK. revert s. induction es as [|e es IH]; intros s Hr Hst; cbn in Hst; [simplify_eq; cbn; lia|].
  apply bind_Some in Hst as (s1 & H1 & H2). pose proof (reachable_step _ _ _ _ _ Hcap Hr H1) as Hr1.
  specialize (IH s1 Hr1 H2). destruct Hr as [Hd _ _ _ Hw].
  assert (measure s1 < measure s)%nat by (eapply step_decreases; [done|by rewrite Hw|done]). cbn [length]. lia.
Qed.

Lemma measure_start items n : measure (start cfg items n) = (length items * (K + 8) + n + K + 2)%nat.
Proof.
  unfold measure, drain_weight, after_flush, recording. cbn [start input workers parsed cancelled closed phase pending length].
  assert (sum_list_with weight (replicate n Receiving) = n) as ->; [|lia]. induction n as [|k IH]; [done|]. cbn in *. lia.
Qed.
End measure.

(** *** Progress *)

Definition active (w : worker) : bool := match w with Waiting _ | Returned => false | _ => true end.

Lemma active_step s w x :
  (parsed s = []) → (0 < capacity)%nat → workers s !! w = Some x → active x = true →
  ∃ e s', e ≠ Cancel ∧ e ≠ FlushInterval ∧ step cfg capacity e s = Some s'.
Proof.
  intros Hp Hcap Hw Hx. destruct x as [|r|r|r|r|]; try done.
  - destruct (input s) as [|r l] eqn:Hi; [exists (Return_ w)|exists (Take w)]; cbn; rewrite Hw, Hi; eauto.
  - exists (Admit_ w). cbn. rewrite Hw. eauto.
  - exists (Admit_ w). cbn. rewrite Hw. eauto.
  - exists (Send w). cbn. rewrite Hw, Hp. cbn [length]. rewrite decide_True by lia. eauto.
Qed.

Lemma idle_owns_nothing (ws : list worker) : existsb active ws = false → ws ≫= admitted_by = [].
Proof. induction ws as [|w ws IH]; [done|]. intros [Hw Hws]%orb_false_iff. cbn. rewrite (IH Hws). by destruct w. Qed.

Lemma idle_returned (ws : list worker) :
  existsb active ws = false → (∀ r, Waiting r ∉ ws) → forallb has_returned ws = true.
Proof.
  induction ws as [|w ws IH]; [done|]. intros [Hw Hws]%orb_false_iff Hr. cbn. apply andb_true_iff. split.
  - destruct w as [| |r| | |]; try done. destruct (Hr r). left.
  - apply IH; [done|]. intros r Hin. apply (Hr r). by right.
Qed.

Lemma progress items n s :
  (0 < capacity)%nat → reachable_ok items n s → phase s ≠ Drained → ∃ e s', e ≠ Cancel ∧ step cfg capacity e s = Some s'.
Proof.
  intros Hcap [[_ Hd] _ _ (_ & Hu & _ & Hwait) _] Hph. destruct (phase s) as [|rest next|] eqn:Hp; [| |done].
  2: { destruct Hd as [Hne _]. destruct rest as [|r rest]; [done|]. exists (Recorded 0).
       unfold step, record_. rewrite Hp. cbn. destruct (ir_Candidate r); eauto. }
  destruct (parsed s) as [|r l] eqn:Hpa; [|exists Receive; cbn; rewrite Hp, Hpa; eauto].
  destruct (decide (pending s = [])) as [Hpe|Hpe].
  2: { exists FlushInterval. cbn. rewrite Hp, decide_True by done. eauto. }
  destruct (existsb active (workers s)) eqn:Ha.
  { apply existsb_exists in Ha as (x & Hx & Hxa). apply list_elem_of_In, list_elem_of_lookup in Hx as [w Hw].
    destruct (active_step _ _ _ Hpa Hcap Hw Hxa) as (e & s' & ? & _ & ?). eauto. }
  assert (used (gate s) = 0) as H0.
  { rewrite Hu. unfold owners, unrecorded, after_flush, recording. by rewrite (idle_owns_nothing _ Ha), Hpa, Hp, Hpe. }
  assert (forallb has_returned (workers s) = true) as Hall.
  { apply idle_returned; [done|]. intros r Hr. by destruct (Hwait r Hr) as (_ & _ & ? & _). }
  destruct (closed s) eqn:Hcl.
  - exists EndOfInput. cbn. rewrite Hp, Hpa, decide_True, decide_True by done. eauto.
  - exists Close. cbn. rewrite Hall, Hcl. cbn. eauto.
Qed.

(** Once every worker has returned and nothing is on its way, the drain is told so. *)
Lemma ends_by_itself s :
  phase s = Filling → parsed s = [] → existsb active (workers s) = false → (∀ r, Waiting r ∉ workers s) →
  ∃ e s', e ≠ Cancel ∧ e ≠ FlushInterval ∧ step cfg capacity e s = Some s'.
Proof.
  intros Hp Hpa Ha Hwait. pose proof (idle_returned _ Ha Hwait) as Hall. destruct (closed s) eqn:Hcl.
  - exists EndOfInput. cbn. rewrite Hp, Hpa, decide_True by done. case_decide; eauto.
  - exists Close. cbn. rewrite Hall, Hcl. cbn. eauto.
Qed.

(** Nothing but the timer or a cancellation moves the system. *)
Definition stalled (s : system) : Prop :=
  phase s ≠ Drained ∧ ∀ e, e ≠ FlushInterval → e ≠ Cancel → step cfg capacity e s = None.

Lemma stalled_shape s :
  (0 < capacity)%nat → drain_ok s → gate_ok s → stalled s →
  phase s = Filling ∧ owners s = pending s ∧ pending s ≠ [] ∧ ∃ r, Waiting r ∈ workers s.
Proof.
  intros Hcap [_ Hd] (_ & Hu & _ & Hwait) [Hph Hno].
  assert (∀ e s', e ≠ Cancel ∧ e ≠ FlushInterval ∧ step cfg capacity e s = Some s' → False) as Hmove.
  { intros e s' (? & ? & Hs). by rewrite Hno in Hs. }
  destruct (phase s) as [|rest next|] eqn:Hp; [| |done].
  2: { destruct Hd as [Hne _]. destruct rest as [|r rest]; [done|]. exfalso. specialize (Hno (Recorded 0)).
       unfold step, record_ in Hno. rewrite Hp in Hno. cbn in Hno. destruct (ir_Candidate r); by discriminate Hno. }
  destruct (parsed s) as [|r l] eqn:Hpa.
  2: { exfalso. specialize (Hno Receive). cbn in Hno. rewrite Hp, Hpa in Hno. by discriminate Hno. }
  destruct (existsb active (workers s)) eqn:Ha.
  { apply existsb_exists in Ha as (x & Hx & Hxa). apply list_elem_of_In, list_elem_of_lookup in Hx as [w Hw].
    destruct (active_step _ _ _ Hpa Hcap Hw Hxa) as (e & s' & H). by destruct (Hmove e s'). }
  assert (owners s = pending s) as Ho.
  { unfold owners, unrecorded, after_flush, recording. by rewrite (idle_owns_nothing _ Ha), Hpa, Hp, app_nil_r. }
  assert (¬ ∀ r, Waiting r ∉ workers s) as Hsome.
  { intros H. destruct (ends_by_itself s Hp Hpa Ha H) as (e & s' & Hs). by destruct (Hmove e s'). }
  assert (∃ r, Waiting r ∈ workers s) as Hw.
  { destruct (existsb (λ w, match w with Waiting _ => true | _ => false end) (workers s)) eqn:E.
    - apply existsb_exists in E as (x & Hx%list_elem_of_In & Hxw). destruct x; try done. eauto.
    - destruct Hsome. intros r Hr. enough (existsb (λ w, match w with Waiting _ => true | _ => false end) (workers s) = true) by congruence.
      apply existsb_exists. exists (Waiting r). split; [by apply list_elem_of_In|done]. }
  split; [done|]. split; [done|]. split; [|done]. intros Hpe. destruct Hw as [r Hr].
  destruct (Hwait r Hr) as (_ & _ & H0 & _). by rewrite Hu, Ho, Hpe in H0.
Qed.

Lemma staged_le_sum l : staged_bytes l ≤ sum_bytes l.
Proof. induction l as [|r l IH]; [done|]. cbn. assert (staged r ≤ ir_Bytes r) by (unfold staged, ir_Bytes; case_match; lia). unfold staged_bytes, sum_bytes in *. lia. Qed.

(** Every run can be completed without a cancellation. *)
Lemma completes items n s :
  0 ≤ StagedMemoryBytes cfg → (0 < capacity)%nat → reachable_ok items n s →
  ∃ es s', Cancel ∉ es ∧ steps cfg capacity es s = Some s' ∧ phase s' = Drained.
Proof.
  intros Hcap Hch. remember (measure (S n) s) as m eqn:Hm. revert s Hm.
  induction (lt_wf m) as [m _ IH]. intros s -> Hr.
  assert (phase s = Drained ∨ phase s ≠ Drained) as [Hp|Hp] by (destruct (phase s); [by right|by right|by left]).
  { exists [], s. split; [by apply not_elem_of_nil|done]. }
  destruct (progress _ _ _ Hch Hr Hp) as (e & s1 & He & Hs).
  assert (measure (S n) s1 < measure (S n) s)%nat as Hlt.
  { pose proof Hr as [Hd _ _ _ Hw]. eapply step_decreases; [done| |done]. rewrite Hw. lia. }
  destruct (IH _ Hlt s1 eq_refl) as (es & s' & Hes & Hst & Hdr); [by eapply reachable_step|].
  exists (e :: es), s'. split; [by apply not_elem_of_cons|]. cbn. by rewrite Hs.
Qed.

(** A drained system has nothing left anywhere but in the batches. *)
Lemma drained_all items n s :
  (0 < n)%nat → reachable_ok items n s → phase s = Drained →
  every s = concat (flushed s) ∧ owners s = [].
Proof.
  intros Hn [[_ Hd] _ (Hin & Hret & Hcl) _ Hw] Hp. rewrite Hp in Hd. destruct (Hcl Hp) as [Hc Hpa].
  specialize (Hret Hc).
  assert (Hb : ∀ {A} (f : worker → list A), f Returned = [] → workers s ≫= f = []).
  { intros A f Hf. clear -Hret Hf. induction Hret as [|w ws -> _ IH]; [done|]. cbn. by rewrite Hf, IH. }
  assert (input s = []) as Hi.
  { apply Hin. destruct (workers s) as [|w ws]; [cbn in Hw; lia|]. apply Forall_cons in Hret as [-> _]. left. }
  rewrite every_unfold. unfold owners, unrecorded, after_flush, recording. rewrite Hp, Hpa, Hd, Hi, !Hb by done.
  by rewrite !app_nil_r.
Qed.

Lemma accounted_exact items l : accounted false items l → l ≡ₚ items.
Proof.
  intros (l0 & -> & Hf). enough (l0 = items) as -> by done.
  induction Hf as [|x y l1 l2 [->|(? & _)] _ IH]; [done| |done]. by rewrite IH.
Qed.
End facts.

(** ** What the drain promises *)

(** C15: when the drain ends, the write batches hold every parsed result exactly once and nothing else; a cancelled admission can only turn a managed candidate into its refusal, and without a cancellation the batches are the input up to order.  Every batch is non-empty, within the session cap and, unless it is a single result, within the byte cap; and no bytes stay owned. *)
Theorem every_result_written_once cfg capacity items n es s :
  0 ≤ StagedMemoryBytes cfg → (0 < n)%nat →
  steps cfg capacity es (start cfg items n) = Some s → phase s = Drained →
  accounted (cancelled s) items (concat (flushed s))
  ∧ (cancelled s = false → concat (flushed s) ≡ₚ items)
  ∧ Forall (batch_ok cfg) (flushed s)
  ∧ used (gate s) = 0.
Proof.
  intros Hcap Hn Hs Hp. pose proof (reached _ _ _ _ _ _ Hcap Hs) as Hr.
  destruct (drained_all _ _ _ _ Hn Hr Hp) as [He Ho]. destruct Hr as [[Hf _] Ha _ (_ & Hu & _) _]. rewrite He in Ha.
  split; [done|]. split; [intros Hc; rewrite Hc in Ha; by apply accounted_exact|]. split; [done|]. by rewrite Hu, Ho.
Qed.

(** C16: in every reachable state the gate counts exactly the bytes of the candidates that were admitted and not yet recorded; they fit the staged byte budget unless a single candidate owns all of them; and the recorded peak is within the budget or the largest result. *)
Theorem staged_bytes_bounded cfg capacity items n B es s :
  0 ≤ StagedMemoryBytes cfg ≤ B → (∀ r, r ∈ items → ir_Bytes r ≤ B) →
  steps cfg capacity es (start cfg items n) = Some s →
  used (gate s) = staged_bytes (owners s)
  ∧ (used (gate s) ≤ StagedMemoryBytes cfg ∨ ∃ r, r ∈ owners s ∧ used (gate s) = staged r)
  ∧ used (gate s) ≤ peak (gate s) ≤ B.
Proof.
  intros [Hcap HB] Hit Hs.
  assert (Hall : ∀ s0, reachable_ok cfg items n s0 → peak_ok B s0 → ∀ es, steps cfg capacity es s0 = Some s → peak_ok B s).
  { intros s0 Hr Hp es'. revert s0 Hr Hp. clear Hs. induction es' as [|e es' IH]; intros s0 Hr Hp Hs; cbn in Hs; [by simplify_eq|].
    apply bind_Some in Hs as (s1 & H1 & H2). apply (IH s1); [by eapply reachable_step| |done].
    destruct Hr as [Hd Ha _ Hg _]. eapply step_peak; try done. intros r Hr.
    destruct (accounted_elem _ _ _ _ Ha Hr) as (y & Hy & ?). pose proof (Hit y Hy). lia. }
  pose proof (Hall _ (start_ok cfg items n Hcap) ltac:(split; cbn; lia) _ Hs) as Hp.
  destruct (reached _ _ _ _ _ _ Hcap Hs) as [_ _ _ (Hc & Hu & Hb & _) _]. rewrite Hc in Hb. done.
Qed.

(** C17: the workers and the drain never deadlock and never run on: with at least one channel slot no run is longer than a bound in the number of results and workers, and every reachable state can be driven to the drained state without a cancellation. *)
Theorem index_drain_terminates cfg capacity items n es s :
  0 ≤ StagedMemoryBytes cfg → (0 < capacity)%nat →
  steps cfg capacity es (start cfg items n) = Some s →
  (length es ≤ length items * (n + 9) + 2 * n + 3)%nat
  ∧ ∃ es' s', Cancel ∉ es' ∧ steps cfg capacity es' s = Some s' ∧ phase s' = Drained.
Proof.
  intros Hcap Hch Hs. split.
  - pose proof (steps_bounded cfg capacity (S n) items n es _ _ Hcap (Nat.lt_succ_diag_r n) (start_ok cfg items n Hcap) Hs) as H.
    rewrite measure_start in H. lia.
  - eapply completes; [done|done|]. by eapply reached.
Qed.

(** C18: no wakeup is lost, and only an oversized result ever waits for the timer.  In every reachable state a parser waits only while its bytes do not fit next to the bytes still owned.  Under budgets the program accepts, when nothing but the flush interval or a cancellation can move the system any more, the partial batch of the drain owns all the staged bytes, each waiting result alone is larger than a full batch and the worker buffers together, and the flush interval is there to release the batch. *)
Theorem only_oversized_waits_for_timer cfg capacity items n es s :
  Validate cfg = Ok tt → 2 * BatchBytes cfg + BufferBytes cfg < 2 ^ 63 → (0 < capacity)%nat →
  steps cfg capacity es (start cfg items n) = Some s →
  (∀ r, Waiting r ∈ workers s → used (gate s) ≠ 0 ∧ StagedMemoryBytes cfg < used (gate s) + ir_Bytes r)
  ∧ (stalled cfg capacity s →
     owners s = pending s ∧ pending s ≠ []
     ∧ (∃ r, Waiting r ∈ workers s) ∧ (∀ r, Waiting r ∈ workers s → BatchBytes cfg + BufferBytes cfg < ir_Bytes r)
     ∧ step cfg capacity FlushInterval s = Some (flushPending s None)).
Proof.
  intros Hval Hfit Hch Hs. pose proof (Validate_room cfg Hval Hfit) as [(HB & Hbuf) Hroom].
  assert (0 ≤ StagedMemoryBytes cfg) as Hcap by lia.
  destruct (reached _ _ _ _ _ _ Hcap Hs) as [Hd _ _ Hg _]. pose proof Hg as (Hc & Hu & _ & Hwait). rewrite Hc in Hwait.
  split; [intros r Hr; destruct (Hwait r Hr) as (_ & _ & ? & ?); lia|]. intros Hst.
  destruct (stalled_shape cfg capacity s Hch Hd Hg Hst) as (Hp & Ho & Hne & Hw). split_and!; [done..| |].
  - intros r Hr. destruct (Hwait r Hr) as (_ & _ & _ & Hlt). destruct Hd as [_ Hd]. rewrite Hp in Hd.
    destruct (Hd Hne) as [_ Hsum]. rewrite Hu, Ho in Hlt. pose proof (staged_le_sum (pending s)). lia.
  - cbn. rewrite Hp. by rewrite decide_True.
Qed.

(** ** Concrete runs *)

Definition demo_cfg : WriteConfig := Build_WriteConfig 0 0 100 2 0 50 0 0 0.
Definition demo_items : list indexParseResult :=
  [ {| ir_ID := 0; ir_Candidate := true; ir_Length := 40 |};
    {| ir_ID := 1; ir_Candidate := true; ir_Length := 120 |};
    {| ir_ID := 2; ir_Candidate := false; ir_Length := 5 |} ].

(** Worker 0 owns 40 bytes; worker 1's 120 bytes wait until the drain, woken by the
    token, records them; the oversized result then goes alone. *)
Definition demo_run : list event :=
  [ Take 0; Admit_ 0; Send 0; Receive; Take 1; Admit_ 1; Blocked; Recorded 0; Admit_ 1; Send 1; Receive; Recorded 0;
    Take 0; Admit_ 0; Send 0; Return_ 0; Return_ 1; Close; Receive; EndOfInput; Recorded 0; EndOfInput ].

Example demo_drained :
  (flip (steps demo_cfg 2) (start demo_cfg demo_items 2) demo_run) ≫= (λ s,
    Some (phase s, map (map ir_ID) (flushed s), used (gate s), peak (gate s)))
  = Some (Drained, [[0]; [1]; [2]]%nat, 0, 120).
Proof. vm_compute. reflexivity. Qed.

Definition demo_end : system :=
  match steps demo_cfg 2 demo_run (start demo_cfg demo_items 2) with Some s => s | None => start demo_cfg [] 0 end.

Lemma every_result_written_once_witness : concat (flushed demo_end) ≡ₚ demo_items ∧ used (gate demo_end) = 0.
Proof.
  destruct (every_result_written_once demo_cfg 2 demo_items 2 demo_run demo_end) as (_ & Hp & _ & Hu).
  - cbn. lia.
  - lia.
  - vm_compute. reflexivity.
  - vm_compute. reflexivity.
  - split; [|exact Hu]. apply Hp. vm_compute. reflexivity.
Defined.

Definition demo_blocked : system :=
  match steps demo_cfg 2 (take 6 demo_run) (start demo_cfg demo_items 2) with Some s => s | None => start demo_cfg [] 0 end.

Lemma staged_bytes_bounded_witness : used (gate demo_blocked) = staged_bytes (owners demo_blocked) ∧ peak (gate demo_blocked) ≤ 120.
Proof.
  destruct (staged_bytes_bounded demo_cfg 2 demo_items 2 120 (take 6 demo_run) demo_blocked) as (Hu & _ & Hp).
  - cbn. lia.
  - intros r Hr. unfold demo_items in Hr. apply list_elem_of_In in Hr. destruct Hr as [<-|[<-|[<-|[]]]]; cbn; lia.
  - vm_compute. reflexivity.
  - split; [exact Hu|]. apply Hp.
Defined.

Lemma index_drain_terminates_witness :
  ∃ es' s', Cancel ∉ es' ∧ steps demo_cfg 2 es' demo_blocked = Some s' ∧ phase s' = Drained.
Proof.
  apply (index_drain_terminates demo_cfg 2 demo_items 2 (take 6 demo_run) demo_blocked).
  - cbn. lia.
  - lia.
  - vm_compute. reflexivity.
Defined.

(** Budgets the program accepts. *)
Definition demo_budget : WriteConfig := Build_WriteConfig 1 1 1000 10 1 2001 1 1 1.

(** The drain is told to let a partial batch of no bytes go; the bytes the waiting
    parser needs are in the next one. *)
Definition demo_stall : list event :=
  [ Take 0; Admit_ 0; Send 0; Receive; Take 0; Admit_ 0; Take 1; Admit_ 1; Blocked; Recorded 0; Send 0; Receive; Return_ 0 ].
Definition demo_stalled : system :=
  match steps demo_budget 2 demo_stall
    (start demo_budget [ {| ir_ID := 0; ir_Candidate := false; ir_Length := 7 |}; {| ir_ID := 1; ir_Candidate := true; ir_Length := 900 |};
                         {| ir_ID := 2; ir_Candidate := true; ir_Length := 2000 |} ] 2)
  with Some s => s | None => start demo_budget [] 0 end.

(** The token of a blocked parser can be spent on a batch that owns nothing: the parser
    then waits for bytes the drain holds while the drain waits. *)
Example demo_token_lost : Validate demo_budget = Ok tt ∧ stalled demo_budget 2 demo_stalled.
Proof.
  split; [reflexivity|]. split; [by vm_compute|]. intros e Hf Hc.
  by destruct e as [[|[|w]]|[|[|w]]|[|[|w]]|[|[|w]]| | | | | | |i].
Qed.

Lemma only_oversized_waits_for_timer_witness :
  (∃ r, Waiting r ∈ workers demo_stalled) ∧ (∀ r, Waiting r ∈ workers demo_stalled → 1001 < ir_Bytes r)
  ∧ step demo_budget 2 FlushInterval demo_stalled = Some (flushPending demo_stalled None).
Proof.
  destruct (only_oversized_waits_for_timer demo_budget 2
    [ {| ir_ID := 0; ir_Candidate := false; ir_Length := 7 |}; {| ir_ID := 1; ir_Candidate := true; ir_Length := 900 |};
      {| ir_ID := 2; ir_Candidate := true; ir_Length := 2000 |} ] 2 demo_stall demo_stalled) as [_ Hst].
  - reflexivity.
  - vm_compute. reflexivity.
  - lia.
  - vm_compute. reflexivity.
  - destruct Hst as (_ & _ & Hw & Hb & Hf); [|split; [exact Hw|split; [exact Hb|exact Hf]]]. apply demo_token_lost.
Defined.
