(* ===== verification/IndexFormat.v ===== *)
(** * The managed generation and its validators ([internal/indexformat])

    A generation is the immutable stored projection of one session: ordered
    partitions of entries, context segments, content records and aliases.  Each
    [Validate] method is one definition that reports the first failing check;
    an error carries the site the message names and the reason, not the text.
    The wire contract ([github.com/peasant-labs/schema]) is the class
    [SchemaLib]. *)
From stdpp Require Import pretty.
From S2P Require Import Prelude GoStrings.
Local Open Scope string_scope.
Local Open Scope list_scope.
Local Open Scope Z_scope.

(** ** Closed local enumerations ([enums.go]) *)

Definition CoordinateKindCodexOrdinalRange := "codex_ordinal_range".
Definition CoordinateKindCodexReferenceRange := "codex_reference_range".
Definition CoordinateKindOpenCodeSequenceRange := "opencode_sequence_range".
Definition CoordinateKindSnapshotOnly := "snapshot_only".
Definition CoordinateKindUnknown := "unknown".
Definition AllCoordinateKinds : list string :=
  [CoordinateKindCodexOrdinalRange; CoordinateKindCodexReferenceRange; CoordinateKindOpenCodeSequenceRange;
   CoordinateKindSnapshotOnly; CoordinateKindUnknown].

Definition SegmentInclusionInherited := "inherited".
Definition SegmentInclusionSameThreadSurvivingOwn := "same_thread_surviving_own".
Definition SegmentInclusionUncertainEarlierHistory := "uncertain_earlier_history".
Definition SegmentInclusionExcludedReverted := "excluded_reverted".
Definition SegmentInclusionInvalidIncomplete := "invalid_incomplete".
Definition AllSegmentInclusions : list string :=
  [SegmentInclusionInherited; SegmentInclusionSameThreadSurvivingOwn; SegmentInclusionUncertainEarlierHistory;
   SegmentInclusionExcludedReverted; SegmentInclusionInvalidIncomplete].

Definition GenerationCompletenessComplete := "complete".
Definition GenerationCompletenessIncompleteNew := "incomplete_new".
Definition AllGenerationCompletenesses : list string :=
  [GenerationCompletenessComplete; GenerationCompletenessIncompleteNew].

(** [for _, known := range all { if v == known { return true } }]. *)
Fixpoint known (all : list string) (v : string) : bool :=
  match all with
  | [] => false
  | k :: all => if decide (v = k) then true else known all v
  end.

Definition CoordinateKind_IsValid (v : string) : bool := known AllCoordinateKinds v.
Definition SegmentInclusion_IsValid (v : string) : bool := known AllSegmentInclusions v.
Definition GenerationCompleteness_IsValid (v : string) : bool := known AllGenerationCompletenesses v.

Definition NewCoordinateKind (raw : string) : option string :=
  if CoordinateKind_IsValid raw then Some raw else None.
Definition NewSegmentInclusion (raw : string) : option string :=
  if SegmentInclusion_IsValid raw then Some raw else None.
Definition NewGenerationCompleteness (raw : string) : option string :=
  if GenerationCompleteness_IsValid raw then Some raw else None.

(** ** Bounds *)

Definition MaxNativeAliasKeyBytes : nat := 512.
Definition MaxNativeMetadataIDBytes : nat := 96.
Definition MaxNativeMetadataCustomTypeBytes : nat := 128.

(** ** Errors *)

Inductive Reason :=
  | BadRole | BadEntryType | BadProvenance | ForeignSession | UnknownHarness | ForeignHarness
  | NegativeIndex | NegativeDepth | RootWithParent | PartWithoutParent | BadToolKind | BadStopReason
  | RepeatedIndex | BadRef | RepeatedRef | MissingParent | ParentNotCarrier
  | MetadataElsewhere | BadMetadataKind | BadMetadataSource | BadMetadataID | NullData | BadCustomType
  | RepeatedMetadataID | RepeatedMetadataSource
  | BadEarlierState
  | EmptyPath | AbsolutePath | NotCanonicalPath | EscapingPath | NegativeLength | EmptyDigest
  | EmptyAliasKey | InvalidAliasKey | LongAliasKey
  | BadCoordinateKind | MissingBounds | NegativeStart | InvertedRange | InventedRange
  | HalfByteRange | NegativeByteStart | InvertedByteRange
  | NegativeOrdinal | BadInclusion | BadLogicalSession | InvalidPhysicalSource | OrdinalNotIncreasing
  | EmptyGenerationID | BadCompleteness | EmptyEvidenceDigest
  | BadSchemaVersion | BadSessionID | BadSubmissionCount | NegativeTurnCount | BadRootSession | BadPurpose
  | BadRelationships
  | RefOwnedTwice | MetadataIDOwnedTwice | ContentOutside | AliasRepeats | AliasOutside | TitleNotMain
  | CountAbsent | CountPresent
  | InvalidLegacyPath | BadSession | BadIndexVersion | LegacyGenerationID | LegacyCompleteness
  | LegacySourceMissing | LegacyPartitions | LegacyTitleRefs | EmptySnapshotGeneration | LegacySourceSet
  | MirrorID | MirrorHarness | MirrorTurnCount | MirrorSubmissionCount | MirrorRoot | MirrorPurpose
  | MirrorRelationships | ParentDisagrees | LegacyParentDisagrees | MetadataParentDisagrees.

(** The place a message names: a part of the document and a position in it. *)
Record verr := Reject { site : string; position : nat; reason : Reason }.

Abbreviation check := (result verr unit).

(** ** The wire contract *)

(** [schema.ContentProvenance]: the classified evidence of one block. *)
Record ContentProvenance := mkProvenance {
  p_Origin : string;
  p_Ownership : string;
  p_Delivery : string;
  p_Evidence : string;
  p_Actor : string;
  p_InputModality : string;
  p_SubmissionRef : string;
}.

(** The validators of the schema package, as its documentation states them:
    each closed set as its membership test, each [Validate] or [New...] as
    whether it returns a nil error. *)
Class SchemaLib := {
  Role_IsValid : string → bool;
  EntryType_IsValid : string → bool;
  ContentProvenance_Validate : ContentProvenance → bool;
  Harness_IsKnown : string → bool;
  Harnesses : list string;
  ToolCallKind_IsValid : string → bool;
  StopReason_IsValid : string → bool;
  SourceEntryRef_Validate : string → bool;
  SessionID_New : string → bool;
  EarlierHistoryState_IsValid : string → bool;
  NativeMetadataKind_IsValid : string → bool;
  NativeMetadataSourceType_IsValid : string → bool;
  SubmissionCount_Validate : option Z → bool;
  SessionPurpose_IsValid : string → bool;
  SessionRelationshipStartedBy : string;
  RelationshipTargetKnown : string;
  RelationshipTargetKnownRetained : string;
  RelationshipDetail : Type;
  RelationshipDetail_eq :: EqDecision RelationshipDetail;
  SessionDetail : Type;
}.

Section indexformat.
Context `{SchemaLib}.

(** ** Data *)

(** The fields of [schema.SessionEntry] the validators and the projection use. *)
Record SessionEntry := mkEntry {
  e_SessionID : string;
  e_Harness : string;
  EntryIndex : Z;
  Depth : Z;
  ParentIndex : option Z;
  e_Role : string;
  EntryType : string;
  Provenance : option ContentProvenance;
  ToolKind : option string;
  StopReason : option string;
  SourceEntryRef : string;
  TimestampMs : option Z;
  PartType : option string;
  HasThinking : bool;
  TokensIn : option Z;
  TokensOut : option Z;
  e_Extra : option string;
  RawByteLength : option Z;
  HasToolUse : bool;
  ToolInput : option string;
  ToolOutput : option string;
  ContentPreview : option string;
  e_ToolCallID : option string;
  ToolNamesCSV : option string;
}.

Record NativeMetadataRecord := mkNative {
  n_ID : string;
  n_Kind : string;
  n_EntryRef : string;
  n_SourceType : string;
  n_Data : string;
  n_CustomType : string;
  n_MessageRole : string;
  n_ToolCallID : option string;
}.

Record Partition := mkPartition { Entries : list SessionEntry; NativeMetadata : list NativeMetadataRecord }.
Record EarlierPartition := mkEarlier { State : string; Content : Partition }.

Record ContentRecord := mkContent {
  c_Ref : string;
  RelativeBlob : string;
  ByteLength : Z;
  Digest : string;
}.

Record NativeAlias := mkAlias { NativeKey : string; a_Ref : string }.

Record SegmentCoordinates := mkCoordinates {
  Kind : string;
  Start : option Z;
  EndExclusive : option Z;
  DecodedByteStart : option Z;
  DecodedByteEndExclusive : option Z;
}.

Record ContextSegment := mkSegment {
  Ordinal : Z;
  LogicalSessionID : option string;
  PhysicalSourceID : string;
  Coordinates : SegmentCoordinates;
  Inclusion : string;
  CapturedRefs : list string;
}.

(** The scalar fields of [schema.SessionStats] the validators read. *)
Record SessionStats := mkStats { InputSubmissionCount : option Z; TurnCount : Z }.

Record SessionRelationship := mkRelationship {
  r_Kind : string;
  TargetState : string;
  TargetLocalID : option string;
  r_detail : RelationshipDetail;
}.
#[export] Instance SessionRelationship_eq : EqDecision SessionRelationship.
Proof. solve_decision. Defined.

(** [Relationships] is a slice: [None] is nil, which differs from empty for
    [reflect.DeepEqual]. *)
Record UnifiedMetadata := mkMetadata {
  SchemaVersion : Z;
  m_SessionID : string;
  ModelHarness : string;
  Stats : SessionStats;
  RootSessionID : option string;
  Purpose : string;
  Relationships : option (list SessionRelationship);
  ParentUUID : option string;
}.

Record Generation := mkGeneration {
  g_ID : string;
  g_Completeness : string;
  g_Metadata : UnifiedMetadata;
  g_Main : Partition;
  g_Earlier : list EarlierPartition;
  Segments : list ContextSegment;
  g_Content : list ContentRecord;
  Aliases : list NativeAlias;
  SourceEvidenceDigest : string;
  g_TitleRefs : list string;
}.

Record LegacySource := mkLegacy { l_Harness : string; l_Path : string }.

Record SessionDetailPayload := mkSession {
  s_ID : string;
  s_Harness : string;
  s_TurnCount : Z;
  s_InputSubmissionCount : option Z;
  ParentSessionID : option string;
  s_RootSessionID : option string;
  s_Purpose : string;
  s_Relationships : option (list SessionRelationship);
  s_detail : SessionDetail;
}.

Record ReadSnapshot := mkSnapshot {
  Session : SessionDetailPayload;
  s_Metadata : UnifiedMetadata;
  s_TitleRefs : list string;
  GenerationID : string;
  s_Completeness : string;
  s_IndexVersion : Z;
  s_Main : Partition;
  s_Earlier : list EarlierPartition;
  s_Content : list ContentRecord;
  Legacy : LegacySource;
}.

(** Validators of whole schema documents. *)
Context (ValidateSessionRelationships : option (list SessionRelationship) → bool).
Context (ValidateSessionDetailPayload : SessionDetailPayload → bool).

(** A nilable value is absent or valid. *)
Definition absent_or (valid : string → bool) (x : option string) : bool :=
  match x with None => true | Some v => valid v end.

(** ** Partitions *)

Definition validatePartitionEntry (path : string) (sessionID harness : string) (i : nat) (entry : SessionEntry) : check :=
  require Role_IsValid (e_Role entry) else Reject path i BadRole in
  require EntryType_IsValid (EntryType entry) else Reject path i BadEntryType in
  require match Provenance entry with None => true | Some p => ContentProvenance_Validate p end
    else Reject path i BadProvenance in
  require bool_decide (e_SessionID entry = sessionID) else Reject path i ForeignSession in
  require Harness_IsKnown (e_Harness entry) else Reject path i UnknownHarness in
  require bool_decide (e_Harness entry = harness) else Reject path i ForeignHarness in
  require bool_decide (¬ EntryIndex entry < 0) else Reject path i NegativeIndex in
  require bool_decide (¬ Depth entry < 0) else Reject path i NegativeDepth in
  require bool_decide (¬ (Depth entry = 0 ∧ ParentIndex entry ≠ None)) else Reject path i RootWithParent in
  require bool_decide (¬ (Depth entry > 0 ∧ ParentIndex entry = None)) else Reject path i PartWithoutParent in
  require absent_or ToolCallKind_IsValid (ToolKind entry) else Reject path i BadToolKind in
  require absent_or StopReason_IsValid (StopReason entry) else Reject path i BadStopReason in
  Ok tt.

(** [entryIndexes], [indexDepth] and [refs] of [Partition.Validate]. *)
Record scan := mkScan { entryIndexes : gset Z; indexDepth : gmap Z Z; refs : gset string }.

Definition scanEntry (path sessionID harness : string) (i : nat) (s : scan) (entry : SessionEntry) : result verr scan :=
  let? _u := validatePartitionEntry path sessionID harness i entry in
  require bool_decide (EntryIndex entry ∉ entryIndexes s) else Reject path i RepeatedIndex in
  let s := mkScan ({[EntryIndex entry]} ∪ entryIndexes s) (<[EntryIndex entry := Depth entry]> (indexDepth s)) (refs s) in
  if decide (SourceEntryRef entry = "") then Ok s
  else
    require SourceEntryRef_Validate (SourceEntryRef entry) else Reject path i BadRef in
    require bool_decide (SourceEntryRef entry ∉ refs s) else Reject path i RepeatedRef in
    Ok (mkScan (entryIndexes s) (indexDepth s) ({[SourceEntryRef entry]} ∪ refs s)).

Definition checkParent (path : string) (indexDepth : gmap Z Z) (i : nat) (entry : SessionEntry) : check :=
  match ParentIndex entry with
  | None => Ok tt
  | Some parent =>
    match indexDepth !! parent with
    | None => Err (Reject path i MissingParent)
    | Some parentDepth =>
      require bool_decide (parentDepth = 0) else Reject path i ParentNotCarrier in Ok tt
    end
  end.

Definition isJSONNull (data : string) : bool := bool_decide (TrimSpace data = "null").

(** One record of [validatePartitionNativeMetadata]; the state is [ids] and
    [sources]. *)
Definition checkNative (path : string) (entryRefs : gset string) (i : nat) (s : gset string * gset string)
    (record : NativeMetadataRecord) : result verr (gset string * gset string) :=
  require SourceEntryRef_Validate (n_EntryRef record) else Reject path i BadRef in
  require bool_decide (n_EntryRef record ∈ entryRefs) else Reject path i MetadataElsewhere in
  require NativeMetadataKind_IsValid (n_Kind record) else Reject path i BadMetadataKind in
  require NativeMetadataSourceType_IsValid (n_SourceType record) else Reject path i BadMetadataSource in
  require bool_decide (n_ID record ≠ "") && ValidString (n_ID record)
      && bool_decide (String.length (n_ID record) ≤ MaxNativeMetadataIDBytes)%nat
    else Reject path i BadMetadataID in
  require bool_decide (n_Data record ≠ "") && negb (isJSONNull (n_Data record)) else Reject path i NullData in
  require bool_decide (n_CustomType record = "") || (ValidString (n_CustomType record)
      && bool_decide (String.length (n_CustomType record) ≤ MaxNativeMetadataCustomTypeBytes)%nat)
    else Reject path i BadCustomType in
  require bool_decide (n_ID record ∉ s.1) else Reject path i RepeatedMetadataID in
  require bool_decide (n_EntryRef record ∉ s.2) else Reject path i RepeatedMetadataSource in
  Ok ({[n_ID record]} ∪ s.1, {[n_EntryRef record]} ∪ s.2).

Definition validatePartitionNativeMetadata (records : list NativeMetadataRecord) (entryRefs : gset string)
    (path : string) : check :=
  let? _s := res_fold (checkNative path entryRefs) 0 (∅, ∅) records in Ok tt.

Definition Partition_Validate (p : Partition) (path sessionID harness : string) : check :=
  let? s := res_fold (scanEntry path sessionID harness) 0 (mkScan ∅ ∅ ∅) (Entries p) in
  let? _u := res_iter (checkParent path (indexDepth s)) 0 (Entries p) in
  validatePartitionNativeMetadata (NativeMetadata p) (refs s) path.

Definition entryRefs (p : Partition) : gset string :=
  list_to_set (filter (λ r, r ≠ "") (SourceEntryRef <$> Entries p)).

Definition EarlierPartition_Validate (sessionID harness : string) (index : nat) (e : EarlierPartition) : check :=
  require EarlierHistoryState_IsValid (State e) else Reject "earlier" index BadEarlierState in
  Partition_Validate (Content e) ("earlier[" +:+ pretty index +:+ "]") sessionID harness.

(** ** Content records and aliases *)

Definition ValidateOwnedRelativeBlob (relative : string) : option Reason :=
  if decide (relative = "") then Some EmptyPath
  else if IsAbs relative || HasPrefix relative "/" || ContainsByte relative backslash then Some AbsolutePath
  else
    let cleaned := Clean relative in
    if decide (cleaned ≠ relative) then Some NotCanonicalPath
    else if bool_decide (cleaned = ".") || bool_decide (cleaned = "..") || HasPrefix cleaned "../"
    then Some EscapingPath
    else None.

Definition ContentRecord_Validate (i : nat) (c : ContentRecord) : check :=
  require SourceEntryRef_Validate (c_Ref c) else Reject "content" i BadRef in
  match ValidateOwnedRelativeBlob (RelativeBlob c) with
  | Some r => Err (Reject "content" i r)
  | None =>
    require bool_decide (¬ ByteLength c < 0) else Reject "content" i NegativeLength in
    require bool_decide (TrimSpace (Digest c) ≠ "") else Reject "content" i EmptyDigest in
    Ok tt
  end.

Definition NativeAlias_Validate (i : nat) (a : NativeAlias) : check :=
  require bool_decide (NativeKey a ≠ "") else Reject "aliases" i EmptyAliasKey in
  require ValidString (NativeKey a) else Reject "aliases" i InvalidAliasKey in
  require bool_decide (String.length (NativeKey a) ≤ MaxNativeAliasKeyBytes)%nat else Reject "aliases" i LongAliasKey in
  require SourceEntryRef_Validate (a_Ref a) else Reject "aliases" i BadRef in
  Ok tt.

(** ** Context segments *)

(** The two [case] lists of [SegmentCoordinates.Validate]. *)
Definition rangeKind (k : string) : bool :=
  bool_decide (k ∈ [CoordinateKindCodexOrdinalRange; CoordinateKindCodexReferenceRange; CoordinateKindOpenCodeSequenceRange]).
Definition rangelessKind (k : string) : bool :=
  bool_decide (k ∈ [CoordinateKindSnapshotOnly; CoordinateKindUnknown]).

(** The bounds every optional range has to meet. *)
Definition checkRange (start fin : Z) (negative inverted : verr) : check :=
  require bool_decide (¬ start < 0) else negative in
  require bool_decide (¬ fin <= start) else inverted in
  Ok tt.

Definition SegmentCoordinates_Validate (i : nat) (c : SegmentCoordinates) : check :=
  require CoordinateKind_IsValid (Kind c) else Reject "segments" i BadCoordinateKind in
  let? _u :=
    if rangeKind (Kind c) then
      match Start c, EndExclusive c with
      | Some start, Some fin => checkRange start fin (Reject "segments" i NegativeStart) (Reject "segments" i InvertedRange)
      | _, _ => Err (Reject "segments" i MissingBounds)
      end
    else if rangelessKind (Kind c) then
      match Start c, EndExclusive c with
      | None, None => Ok tt
      | _, _ => Err (Reject "segments" i InventedRange)
      end
    else Ok tt in
  match DecodedByteStart c, DecodedByteEndExclusive c with
  | None, None => Ok tt
  | Some start, Some fin => checkRange start fin (Reject "segments" i NegativeByteStart) (Reject "segments" i InvertedByteRange)
  | _, _ => Err (Reject "segments" i HalfByteRange)
  end.

Definition checkCaptured (ordinal : nat) (_ : nat) (seen : gset string) (ref : string) : result verr (gset string) :=
  require SourceEntryRef_Validate ref else Reject "segments" ordinal BadRef in
  require bool_decide (ref ∉ seen) else Reject "segments" ordinal RepeatedRef in
  Ok ({[ref]} ∪ seen).

Definition ContextSegment_Validate (i : nat) (s : ContextSegment) : check :=
  require bool_decide (¬ Ordinal s < 0) else Reject "segments" i NegativeOrdinal in
  require SegmentInclusion_IsValid (Inclusion s) else Reject "segments" i BadInclusion in
  require absent_or SessionID_New (LogicalSessionID s) else Reject "segments" i BadLogicalSession in
  require ValidString (PhysicalSourceID s) else Reject "segments" i InvalidPhysicalSource in
  let? _u := SegmentCoordinates_Validate i (Coordinates s) in
  let? _s := res_fold (checkCaptured i) 0 ∅ (CapturedRefs s) in
  Ok tt.

(** The loop of [validateSegments]; the state is [previous]. *)
Definition checkSegment (i : nat) (previous : Z) (s : ContextSegment) : result verr Z :=
  let? _u := ContextSegment_Validate i s in
  require bool_decide (¬ Ordinal s <= previous) else Reject "segments" i OrdinalNotIncreasing in
  Ok (Ordinal s).

Definition validateSegments (segments : list ContextSegment) : check :=
  let? _p := res_fold checkSegment 0 (-1) segments in Ok tt.

Definition segmentCapturedRefs (segments : list ContextSegment) : gset string :=
  list_to_set (filter (λ r, r ≠ "") (segments ≫= CapturedRefs)).

(** ** Metadata *)

Fixpoint isKnownHarness_in (all : list string) (harness : string) : bool :=
  match all with
  | [] => false
  | k :: all => if decide (harness = k) then true else isKnownHarness_in all harness
  end.
Definition isKnownHarness (harness : string) : bool := isKnownHarness_in Harnesses harness.

Definition validateUnifiedMetadata (metadata : UnifiedMetadata) (path : string) : check :=
  require bool_decide (¬ SchemaVersion metadata <= 0) else Reject path 0 BadSchemaVersion in
  require SessionID_New (m_SessionID metadata) else Reject path 0 BadSessionID in
  require isKnownHarness (ModelHarness metadata) else Reject path 0 UnknownHarness in
  require SubmissionCount_Validate (InputSubmissionCount (Stats metadata)) else Reject path 0 BadSubmissionCount in
  require bool_decide (¬ TurnCount (Stats metadata) < 0) else Reject path 0 NegativeTurnCount in
  require absent_or SessionID_New (RootSessionID metadata) else Reject path 0 BadRootSession in
  require SessionPurpose_IsValid (Purpose metadata) else Reject path 0 BadPurpose in
  require ValidateSessionRelationships (Relationships metadata) else Reject path 0 BadRelationships in
  Ok tt.

(** ** Generations *)

(** The loops of [validateGlobalEntryRefUniqueness]: main, then each earlier
    section, over one [owners] map (only its keys decide). *)
Definition ownRef (site : string) (i : nat) (owners : gset string) (entry : SessionEntry) : result verr (gset string) :=
  if decide (SourceEntryRef entry = "") then Ok owners
  else
    require bool_decide (SourceEntryRef entry ∉ owners) else Reject site i RefOwnedTwice in
    Ok ({[SourceEntryRef entry]} ∪ owners).

Definition validateGlobalEntryRefUniqueness (main : Partition) (earlier : list EarlierPartition) : check :=
  let? owners := res_fold (ownRef "main") 0 ∅ (Entries main) in
  let? _o := res_fold (λ section owners e, res_fold (ownRef ("earlier[" +:+ pretty section +:+ "]")) 0 owners (Entries (Content e)))
               0 owners earlier in
  Ok tt.

Definition ownMetadataID (site : string) (i : nat) (owners : gset string) (r : NativeMetadataRecord) : result verr (gset string) :=
  require bool_decide (n_ID r ∉ owners) else Reject site i MetadataIDOwnedTwice in
  Ok ({[n_ID r]} ∪ owners).

Definition validateGlobalNativeMetadataIDUniqueness (main : Partition) (earlier : list EarlierPartition) : check :=
  let? owners := res_fold (ownMetadataID "main") 0 ∅ (NativeMetadata main) in
  let? _o := res_fold (λ section owners e,
                 res_fold (ownMetadataID ("earlier[" +:+ pretty section +:+ "]")) 0 owners (NativeMetadata (Content e)))
               0 owners earlier in
  Ok tt.

(** [entryRefs := g.Main.entryRefs()] extended with every earlier section's. *)
Definition allEntryRefs (main : Partition) (earlier : list EarlierPartition) : gset string :=
  foldl (λ refs e, refs ∪ entryRefs (Content e)) (entryRefs main) earlier.

Definition checkContent (i : nat) (contentRefs : gset string) (record : ContentRecord) : result verr (gset string) :=
  let? _u := ContentRecord_Validate i record in
  require bool_decide (c_Ref record ∉ contentRefs) else Reject "content" i RepeatedRef in
  Ok ({[c_Ref record]} ∪ contentRefs).

Definition checkAlias (i : nat) (aliasKeys : gset string) (alias : NativeAlias) : result verr (gset string) :=
  let? _u := NativeAlias_Validate i alias in
  require bool_decide (NativeKey alias ∉ aliasKeys) else Reject "aliases" i AliasRepeats in
  Ok ({[NativeKey alias]} ∪ aliasKeys).

Definition checkTitle (mainRefs : gset string) (i : nat) (ref : string) : check :=
  require SourceEntryRef_Validate ref else Reject "titleRefs" i BadRef in
  require bool_decide (ref ∈ mainRefs) else Reject "titleRefs" i TitleNotMain in
  Ok tt.

Definition validateCompletenessCountPresence (completeness : string) (count : option Z) : check :=
  if decide (completeness = GenerationCompletenessComplete) then
    match count with None => Err (Reject "stats" 0 CountAbsent) | Some _ => Ok tt end
  else if decide (completeness = GenerationCompletenessIncompleteNew) then
    match count with Some _ => Err (Reject "stats" 0 CountPresent) | None => Ok tt end
  else Ok tt.

Definition Generation_Validate (g : Generation) : check :=
  require bool_decide (TrimSpace (g_ID g) ≠ "") else Reject "generation" 0 EmptyGenerationID in
  require GenerationCompleteness_IsValid (g_Completeness g) else Reject "generation" 0 BadCompleteness in
  require bool_decide (TrimSpace (SourceEvidenceDigest g) ≠ "") else Reject "generation" 0 EmptyEvidenceDigest in
  let? _u := validateUnifiedMetadata (g_Metadata g) "generation.metadata" in
  let ownerSession := m_SessionID (g_Metadata g) in
  let ownerHarness := ModelHarness (g_Metadata g) in
  let? _u := Partition_Validate (g_Main g) "main" ownerSession ownerHarness in
  let? _u := res_iter (EarlierPartition_Validate ownerSession ownerHarness) 0 (g_Earlier g) in
  let? _u := validateGlobalEntryRefUniqueness (g_Main g) (g_Earlier g) in
  let? _u := validateGlobalNativeMetadataIDUniqueness (g_Main g) (g_Earlier g) in
  let? _u := validateSegments (Segments g) in
  let entryRefs' := allEntryRefs (g_Main g) (g_Earlier g) in
  let retainedRefs := segmentCapturedRefs (Segments g) in
  let? contentRefs := res_fold checkContent 0 ∅ (g_Content g) in
  require bool_decide (contentRefs ⊆ entryRefs' ∪ retainedRefs) else Reject "content" 0 ContentOutside in
  let? _k := res_fold checkAlias 0 ∅ (Aliases g) in
  let? _u := res_iter (λ i alias,
      require bool_decide (a_Ref alias ∈ entryRefs') || bool_decide (a_Ref alias ∈ retainedRefs)
        else Reject "aliases" i AliasOutside in Ok tt) 0 (Aliases g) in
  let? _u := res_iter (checkTitle (entryRefs (g_Main g))) 0 (g_TitleRefs g) in
  validateCompletenessCountPresence (g_Completeness g) (InputSubmissionCount (Stats (g_Metadata g))).

(** ** Read snapshots *)

Definition LegacySource_IsZero (l : LegacySource) : bool :=
  bool_decide (l_Harness l = "") && bool_decide (l_Path l = "").

Definition LegacySource_Validate (l : LegacySource) : check :=
  if bool_decide (l_Harness l = "") && bool_decide (l_Path l = "") then Ok tt
  else
    require isKnownHarness (l_Harness l) else Reject "legacySource" 0 UnknownHarness in
    require ValidString (l_Path l) else Reject "legacySource" 0 InvalidLegacyPath in
    Ok tt.

Definition durableStartedByTarget (relationships : list SessionRelationship) : option string :=
  match filter (λ r, r_Kind r = SessionRelationshipStartedBy ∧
                     (TargetState r = RelationshipTargetKnown ∨ TargetState r = RelationshipTargetKnownRetained))
          relationships with
  | [] => None
  | r :: _ => TargetLocalID r
  end.

(** Go's [len] and [range] on a possibly nil slice. *)
Definition slice {A} (l : option (list A)) : list A := default [] l.

(** [left != nil && right != nil], and the two values differ. *)
Definition disagree (left right : option string) : bool :=
  match left, right with Some l, Some r => bool_decide (l ≠ r) | _, _ => false end.

Definition validateParentMirrors (session : SessionDetailPayload) (metadata : UnifiedMetadata) : check :=
  let durable := durableStartedByTarget (slice (s_Relationships session)) in
  let? _u :=
    match ParentSessionID session with
    | None => Ok tt
    | Some parent =>
      require negb (disagree durable (Some parent)) else Reject "session" 0 ParentDisagrees in
      require negb (bool_decide (slice (s_Relationships session) = []) && disagree (ParentUUID metadata) (Some parent))
        else Reject "session" 0 LegacyParentDisagrees in
      Ok tt
    end in
  require negb (disagree (ParentUUID metadata) durable) else Reject "metadata" 0 MetadataParentDisagrees in
  Ok tt.

Definition equalOptional {A} `{EqDecision A} (left right : option A) : bool :=
  match left, right with
  | Some l, Some r => bool_decide (l = r)
  | None, None => true
  | _, _ => false
  end.

Definition validateSnapshotMirrors (session : SessionDetailPayload) (metadata : UnifiedMetadata) : check :=
  require bool_decide (s_ID session = m_SessionID metadata) else Reject "session" 0 MirrorID in
  require bool_decide (s_Harness session = ModelHarness metadata) else Reject "session" 0 MirrorHarness in
  require bool_decide (s_TurnCount session = TurnCount (Stats metadata)) else Reject "session" 0 MirrorTurnCount in
  require equalOptional (s_InputSubmissionCount session) (InputSubmissionCount (Stats metadata))
    else Reject "session" 0 MirrorSubmissionCount in
  require equalOptional (s_RootSessionID session) (RootSessionID metadata) else Reject "session" 0 MirrorRoot in
  require bool_decide (s_Purpose session = Purpose metadata) else Reject "session" 0 MirrorPurpose in
  require bool_decide (s_Relationships session = Relationships metadata) else Reject "session" 0 MirrorRelationships in
  validateParentMirrors session metadata.

Definition validateLegacy (s : ReadSnapshot) : check :=
  require bool_decide (GenerationID s = "") else Reject "snapshot" 0 LegacyGenerationID in
  require bool_decide (s_Completeness s = "") else Reject "snapshot" 0 LegacyCompleteness in
  require negb (LegacySource_IsZero (Legacy s)) else Reject "snapshot" 0 LegacySourceMissing in
  let hasMainContent := bool_decide (Entries (s_Main s) ≠ []) || bool_decide (NativeMetadata (s_Main s) ≠ []) in
  let hasOtherContent := bool_decide (s_Earlier s ≠ []) || bool_decide (s_Content s ≠ []) in
  require negb (hasMainContent || hasOtherContent) else Reject "snapshot" 0 LegacyPartitions in
  require bool_decide (s_TitleRefs s = []) else Reject "snapshot" 0 LegacyTitleRefs in
  Ok tt.

Definition validateSnapshotEntryRefUniqueness := validateGlobalEntryRefUniqueness.
Definition validateSnapshotCompletenessCountPresence := validateCompletenessCountPresence.

Definition validateGeneration (s : ReadSnapshot) : check :=
  require bool_decide (GenerationID s ≠ "") else Reject "snapshot" 0 EmptySnapshotGeneration in
  require GenerationCompleteness_IsValid (s_Completeness s) else Reject "snapshot" 0 BadCompleteness in
  require LegacySource_IsZero (Legacy s) else Reject "snapshot" 0 LegacySourceSet in
  let ownerSession := m_SessionID (s_Metadata s) in
  let ownerHarness := ModelHarness (s_Metadata s) in
  let? _u := Partition_Validate (s_Main s) "main" ownerSession ownerHarness in
  let? _u := res_iter (EarlierPartition_Validate ownerSession ownerHarness) 0 (s_Earlier s) in
  let? _u := validateSnapshotEntryRefUniqueness (s_Main s) (s_Earlier s) in
  let? contentRefs := res_fold checkContent 0 ∅ (s_Content s) in
  require bool_decide (contentRefs ⊆ allEntryRefs (s_Main s) (s_Earlier s)) else Reject "content" 0 ContentOutside in
  let? _u := res_iter (checkTitle (entryRefs (s_Main s))) 0 (s_TitleRefs s) in
  validateSnapshotCompletenessCountPresence (s_Completeness s) (InputSubmissionCount (Stats (s_Metadata s))).

Definition ReadSnapshot_Validate (s : ReadSnapshot) : check :=
  require ValidateSessionDetailPayload (Session s) else Reject "session" 0 BadSession in
  let? _u := validateUnifiedMetadata (s_Metadata s) "snapshot.metadata" in
  let? _u := validateSnapshotMirrors (Session s) (s_Metadata s) in
  let? _u := LegacySource_Validate (Legacy s) in
  if decide (s_IndexVersion s = 1) then validateLegacy s
  else if decide (s_IndexVersion s = 2) then validateGeneration s
  else Err (Reject "snapshot" 0 BadIndexVersion).

(** ** The store's read of a committed generation ([store/generation_snapshot.go]) *)

(** [startedByTarget] skips a known target without a local identity. *)
Fixpoint startedByTarget (relationships : list SessionRelationship) : option string :=
  match relationships with
  | [] => None
  | r :: relationships =>
    if decide (r_Kind r ≠ SessionRelationshipStartedBy) then startedByTarget relationships
    else if decide (TargetState r = RelationshipTargetKnown ∨ TargetState r = RelationshipTargetKnownRetained) then
      match TargetLocalID r with
      | Some target => if decide (target ≠ "") then Some target else startedByTarget relationships
      | None => startedByTarget relationships
      end
    else startedByTarget relationships
  end.

Definition snapshotLogicalParent (metadata : UnifiedMetadata) : option string :=
  match startedByTarget (slice (Relationships metadata)) with
  | Some target => Some target
  | None => ParentUUID metadata
  end.

Definition emittedContentRecords (main : Partition) (earlier : list EarlierPartition) (content : list ContentRecord) :
    list ContentRecord :=
  let emitted := list_to_set (filter (λ r, r ≠ "")
    ((SourceEntryRef <$> Entries main) ++ (earlier ≫= λ e, SourceEntryRef <$> Entries (Content e)))) : gset string in
  filter (λ record, c_Ref record ∈ emitted) content.

(** [generationReadSnapshotOnConn]: [main], [earlier] and [content] are the
    rows the queries return for the generation, [stats] the captured stats row
    when there is one, [detail] the session's other fields. *)
Definition generationReadSnapshot (g : Generation) (main : Partition) (earlier : list EarlierPartition)
    (content : list ContentRecord) (stats : option SessionStats) (detail : SessionDetail) : ReadSnapshot :=
  let doc := g_Metadata g in
  let metadata := mkMetadata (SchemaVersion doc) (m_SessionID doc) (ModelHarness doc) (default (Stats doc) stats)
    (RootSessionID doc) (Purpose doc) (Relationships doc) (ParentUUID doc) in
  let content := emittedContentRecords main earlier content in
  let session := mkSession (m_SessionID doc) (ModelHarness metadata) (TurnCount (Stats metadata))
    (InputSubmissionCount (Stats metadata)) (snapshotLogicalParent metadata) (RootSessionID metadata)
    (Purpose metadata) (Relationships metadata) detail in
  mkSnapshot session metadata (g_TitleRefs g) (g_ID g) (g_Completeness g) 2 main earlier content
    (mkLegacy "" "").

(** * What the validators promise *)

(** ** Enumerations *)

Lemma known_iff all v : known all v = true ↔ v ∈ all.
Proof.
  induction all as [|k all IH]; simpl; [set_solver|]. rewrite elem_of_cons.
  case_decide; subst; [split; [by left|done]|]. rewrite IH. split; [by right|by intros [?|?]].
Qed.

Lemma absent_or_iff valid x : absent_or valid x = true ↔ ∀ v, x = Some v → valid v = true.
Proof. destruct x; naive_solver. Qed.

Lemma isKnownHarness_iff h : isKnownHarness h = true ↔ h ∈ Harnesses.
Proof.
  unfold isKnownHarness. induction Harnesses as [|k all IH]; simpl; [set_solver|]. rewrite elem_of_cons.
  case_decide; subst; [split; [by left|done]|]. rewrite IH. split; [by right|by intros [?|?]].
Qed.

(** ** A valid partition *)

Record EntryOk (sessionID harness : string) (e : SessionEntry) : Prop := {
  eo_role : Role_IsValid (e_Role e) = true;
  eo_type : EntryType_IsValid (EntryType e) = true;
  eo_provenance : ∀ p, Provenance e = Some p → ContentProvenance_Validate p = true;
  eo_session : e_SessionID e = sessionID;
  eo_known : Harness_IsKnown (e_Harness e) = true;
  eo_harness : e_Harness e = harness;
  eo_index : 0 ≤ EntryIndex e;
  eo_depth : 0 ≤ Depth e;
  eo_root : ParentIndex e = None ↔ Depth e = 0;
  eo_tool : ∀ k, ToolKind e = Some k → ToolCallKind_IsValid k = true;
  eo_stop : ∀ r, StopReason e = Some r → StopReason_IsValid r = true;
  eo_ref : SourceEntryRef e ≠ "" → SourceEntryRef_Validate (SourceEntryRef e) = true;
}.

Definition refs_of (p : Partition) : list string := filter (λ r, r ≠ "") (SourceEntryRef <$> Entries p).

Record NativeOk (r : NativeMetadataRecord) : Prop := {
  no_ref : SourceEntryRef_Validate (n_EntryRef r) = true;
  no_kind : NativeMetadataKind_IsValid (n_Kind r) = true;
  no_source : NativeMetadataSourceType_IsValid (n_SourceType r) = true;
  no_id : n_ID r ≠ "" ∧ ValidString (n_ID r) = true ∧ (String.length (n_ID r) ≤ 96)%nat;
  no_data : n_Data r ≠ "" ∧ TrimSpace (n_Data r) ≠ "null";
  no_custom : n_CustomType r ≠ "" → ValidString (n_CustomType r) = true ∧ (String.length (n_CustomType r) ≤ 128)%nat;
}.

Record PartitionOk (sessionID harness : string) (p : Partition) : Prop := {
  po_entries : ∀ e, e ∈ Entries p → EntryOk sessionID harness e;
  po_index : NoDup (EntryIndex <$> Entries p);
  po_refs : NoDup (refs_of p);
  po_parents : ∀ e parent, e ∈ Entries p → ParentIndex e = Some parent →
    ∃ c, c ∈ Entries p ∧ EntryIndex c = parent ∧ Depth c = 0;
  po_native : ∀ r, r ∈ NativeMetadata p → NativeOk r ∧ n_EntryRef r ∈ refs_of p;
  po_ids : NoDup (n_ID <$> NativeMetadata p);
  po_sources : NoDup (n_EntryRef <$> NativeMetadata p);
}.

Definition ref_key (e : SessionEntry) : list string := if decide (SourceEntryRef e = "") then [] else [SourceEntryRef e].

Lemma bind_ref_key p : Entries p ≫= ref_key = refs_of p.
Proof.
  unfold refs_of, ref_key. induction (Entries p) as [|e l IH]; csimpl; [done|].
  rewrite IH, filter_cons. by repeat case_decide.
Qed.

Lemma elem_of_entryRefs p r : r ∈ entryRefs p ↔ r ∈ refs_of p.
Proof. unfold entryRefs. by rewrite elem_of_list_to_set. Qed.

Lemma elem_of_refs_of p r : r ∈ refs_of p ↔ r ≠ "" ∧ ∃ e, e ∈ Entries p ∧ SourceEntryRef e = r.
Proof. unfold refs_of. rewrite list_elem_of_filter, list_elem_of_fmap. naive_solver. Qed.

Lemma validatePartitionEntry_ok path sid h i e :
  validatePartitionEntry path sid h i e = Ok tt ∧
    (SourceEntryRef e ≠ "" → SourceEntryRef_Validate (SourceEntryRef e) = true) ↔ EntryOk sid h e.
Proof.
  unfold validatePartitionEntry. repeat setoid_rewrite res_guard_ok. rewrite !bool_decide_eq_true, !absent_or_iff. split.
  - intros ((? & ? & Hp & ? & ? & ? & ? & ? & Hroot & Hpart & ? & ? & _) & ?).
    split; try assumption; [|lia|lia|].
    + intros p E. by rewrite E in Hp.
    + destruct (ParentIndex e); split; [done| |intros _|done].
      * intros. by destruct Hroot.
      * destruct (decide (Depth e = 0)); [done|]. exfalso. apply Hpart. split; [lia|done].
  - intros [? ? Hp ? ? ? ? ? Hroot ? ? ?]. split_and!; try assumption; try lia; [| | |done].
    + destruct (Provenance e) as [p|]; [|done]. by apply Hp.
    + intros [Hz Hs]. apply Hs. tauto.
    + intros [Hz Hs]. apply Hroot in Hs. lia.
Qed.

Definition scan_keys (e : SessionEntry) : list (Z + string) := inl (EntryIndex e) :: (inr <$> ref_key e).
Definition scan_has (s : scan) (k : Z + string) : Prop :=
  match k with inl i => i ∈ entryIndexes s | inr r => r ∈ refs s end.
Definition scan_add (s : scan) (e : SessionEntry) : scan :=
  mkScan ({[EntryIndex e]} ∪ entryIndexes s) (<[EntryIndex e := Depth e]> (indexDepth s))
    (list_to_set (ref_key e) ∪ refs s).

Lemma ref_key_cases e :
  (SourceEntryRef e = "" ∧ ref_key e = []) ∨ (SourceEntryRef e ≠ "" ∧ ref_key e = [SourceEntryRef e]).
Proof. unfold ref_key. case_decide; auto. Qed.

Lemma scanEntry_ok path sid h i s e s' :
  scanEntry path sid h i s e = Ok s' ↔
  EntryOk sid h e ∧ (∀ k, k ∈ scan_keys e → ¬ scan_has s k) ∧ s' = scan_add s e.
Proof.
  rewrite <- (validatePartitionEntry_ok path sid h i). unfold scanEntry, scan_keys, scan_add.
  generalize (validatePartitionEntry path sid h i e) as v. intros v. rewrite res_bind_ok. setoid_rewrite res_guard_ok. setoid_rewrite bool_decide_eq_true.
  setoid_rewrite elem_of_cons. setoid_rewrite list_elem_of_fmap.
  destruct (ref_key_cases e) as [[Hr ->]|[Hr ->]].
  - rewrite decide_True by done. simpl. rewrite union_empty_l_L. split.
    + intros ([] & ? & Hi & [= <-]). split_and!; [done|congruence| |done]. intros k [->|(? & _ & ?)]; [done|set_solver].
    + intros ((? & _) & Hk & ->). exists tt. split_and!; [done| |done]. apply (Hk (inl _)). by left.
  - rewrite decide_False by done. simpl. repeat setoid_rewrite res_guard_ok. setoid_rewrite bool_decide_eq_true.
    rewrite union_empty_r_L. split.
    + intros ([] & ? & Hi & ? & Href & [= <-]). split_and!; [done|auto| |done].
      intros k [->|(r & -> & Hin)]; [done|]. apply list_elem_of_singleton in Hin as ->. done.
    + intros ((? & ?) & Hk & ->). exists tt. split_and!; [done| |auto| |done].
      * apply (Hk (inl _)). by left.
      * apply (Hk (inr _)). right. exists (SourceEntryRef e). split; [done|by left].
Qed.

Lemma scan_has_add s e k : scan_has (scan_add s e) k ↔ scan_has s k ∨ k ∈ scan_keys e.
Proof.
  unfold scan_keys. rewrite elem_of_cons, list_elem_of_fmap. destruct k as [i|r]; simpl.
  - rewrite elem_of_union, elem_of_singleton. naive_solver.
  - rewrite elem_of_union, elem_of_list_to_set. naive_solver.
Qed.

Lemma scan_keys_NoDup e : NoDup (scan_keys e).
Proof.
  unfold scan_keys. destruct (ref_key_cases e) as [[_ ->]|[_ ->]]; simpl;
    repeat constructor; set_solver.
Qed.

Definition scan_all (p : Partition) : scan := foldl scan_add (mkScan ∅ ∅ ∅) (Entries p).

Lemma scan_ok path sid h p s :
  res_fold (scanEntry path sid h) 0 (mkScan ∅ ∅ ∅) (Entries p) = Ok s ↔
  (∀ e, e ∈ Entries p → EntryOk sid h e) ∧ NoDup (EntryIndex <$> Entries p) ∧ NoDup (refs_of p) ∧
  s = scan_all p.
Proof.
  rewrite (collect_ok _ (λ _, EntryOk sid h) scan_keys scan_add scan_has)
    by (apply scan_has_add || (intros; apply scan_keys_NoDup) || intros; apply scanEntry_ok).
  unfold scan_keys. rewrite (NoDup_two_keys EntryIndex ref_key), bind_ref_key. split.
  - intros (He & (? & ?) & _ & ->). split_and!; try done.
    intros e [j Hj]%list_elem_of_lookup. by apply (He j).
  - intros (He & ? & ? & ->). split_and!; try done.
    + intros j e Hj. apply He. by eapply list_elem_of_lookup_2.
    + intros [i|r] _; simpl; set_solver.
Qed.

Lemma scan_refs p r : r ∈ refs (scan_all p) ↔ r ∈ refs_of p.
Proof.
  rewrite <- bind_ref_key. unfold scan_all.
  pose proof (collect_has scan_keys scan_add scan_has scan_has_add (mkScan ∅ ∅ ∅) (Entries p) (inr r)) as Hc.
  simpl in Hc. rewrite Hc, !list_elem_of_bind. unfold scan_keys.
  setoid_rewrite elem_of_cons. setoid_rewrite list_elem_of_fmap. set_solver.
Qed.

(** With distinct indices the depth table maps each index to its entry's depth. *)
Lemma scan_depth p i d :
  NoDup (EntryIndex <$> Entries p) →
  indexDepth (scan_all p) !! i = Some d ↔ ∃ e, e ∈ Entries p ∧ EntryIndex e = i ∧ Depth e = d.
Proof.
  unfold scan_all. induction (Entries p) as [|e l IH] using rev_ind; intros Hnd.
  { simpl. rewrite lookup_empty. set_solver. }
  rewrite foldl_app. simpl. rewrite fmap_app in Hnd. apply NoDup_app in Hnd as (Hnd & Hdis & _).
  destruct (decide (EntryIndex e = i)) as [<-|Hne].
  - rewrite lookup_insert_eq. split; [intros [= <-]; exists e; set_solver|].
    intros (e' & [He'| ->%list_elem_of_singleton]%elem_of_app & Hi & <-); [|done].
    destruct (Hdis (EntryIndex e')); [by apply list_elem_of_fmap_2|]. rewrite Hi. by left.
  - rewrite lookup_insert_ne by done. rewrite IH by done. setoid_rewrite elem_of_app.
    setoid_rewrite list_elem_of_singleton. split; [naive_solver|].
    intros (e' & [?| ->] & ? & ?); [eauto|done].
Qed.

Lemma checkParent_ok path p i e :
  NoDup (EntryIndex <$> Entries p) →
  checkParent path (indexDepth (scan_all p)) i e = Ok tt ↔
  ∀ parent, ParentIndex e = Some parent → ∃ c, c ∈ Entries p ∧ EntryIndex c = parent ∧ Depth c = 0.
Proof.
  intros Hnd. unfold checkParent. destruct (ParentIndex e) as [parent|]; [|naive_solver].
  destruct (indexDepth (scan_all p) !! parent) as [d|] eqn:E.
  - apply scan_depth in E as (c & Hc & Hi & Hd); [|done]. rewrite res_guard_ok, bool_decide_eq_true. split.
    + intros [-> _] ? [= <-]. eauto.
    + intros Hp. destruct (Hp parent eq_refl) as (c' & Hc' & Hi' & Hd'). split; [|done].
      assert (indexDepth (scan_all p) !! parent = Some d) as E1 by (apply scan_depth; eauto).
      assert (indexDepth (scan_all p) !! parent = Some 0) as E2 by (apply scan_depth; eauto). congruence.
  - split; [done|]. intros Hp. destruct (Hp parent eq_refl) as (c & Hc & Hi & Hd). exfalso.
    assert (indexDepth (scan_all p) !! parent = Some (Depth c)) by (apply scan_depth; eauto). congruence.
Qed.

(** ** Native metadata *)

Definition native_keys (r : NativeMetadataRecord) : list (string + string) := inl (n_ID r) :: (inr <$> [n_EntryRef r]).
Definition native_has (s : gset string * gset string) (k : string + string) : Prop :=
  match k with inl i => i ∈ s.1 | inr r => r ∈ s.2 end.

Lemma checkNative_ok path er i s r s' :
  checkNative path er i s r = Ok s' ↔
  (NativeOk r ∧ n_EntryRef r ∈ er) ∧ (∀ k, k ∈ native_keys r → ¬ native_has s k) ∧
  s' = ({[n_ID r]} ∪ s.1, {[n_EntryRef r]} ∪ s.2).
Proof.
  unfold checkNative, native_keys, isJSONNull. simpl. repeat setoid_rewrite res_guard_ok.
  rewrite !andb_true_iff, orb_true_iff, andb_true_iff, negb_true_iff, bool_decide_eq_false, !bool_decide_eq_true.
  setoid_rewrite elem_of_cons. setoid_rewrite list_elem_of_singleton. split.
  - intros (? & ? & ? & ? & ((? & ?) & ?) & (? & ?) & Hc & ? & ? & [= <-]). split_and!; [|done| |done].
    + split; try done. intros. by destruct Hc.
    + by intros k [->| ->].
  - intros ((Hr & ?) & Hk & ->). destruct Hr as [? ? ? (? & ? & ?) (? & ?) Hcustom]. split_and!; try done.
    + destruct (decide (n_CustomType r = "")); [by left|right; auto].
    + apply (Hk (inl _)). by left.
    + apply (Hk (inr _)). by right.
Qed.

Lemma validatePartitionNativeMetadata_ok records er path :
  validatePartitionNativeMetadata records er path = Ok tt ↔
  (∀ r, r ∈ records → NativeOk r ∧ n_EntryRef r ∈ er) ∧
  NoDup (n_ID <$> records) ∧ NoDup (n_EntryRef <$> records).
Proof.
  unfold validatePartitionNativeMetadata.
  rewrite <- (bind_singleton n_EntryRef), <- (NoDup_two_keys n_ID (λ r, [n_EntryRef r])).
  rewrite res_bind_ok, <- (collect_validates (checkNative path er) (λ _ r, NativeOk r ∧ n_EntryRef r ∈ er) native_keys
    (λ s r, ({[n_ID r]} ∪ s.1, {[n_EntryRef r]} ∪ s.2)) native_has); [naive_solver| | | |done|].
  - intros. apply checkNative_ok.
  - intros s r [k|k]; unfold native_keys; simpl; set_solver.
  - intros ? r _. unfold native_keys. simpl. repeat constructor; set_solver.
  - intros [k|k]; simpl; set_solver.
Qed.

Lemma Partition_Validate_ok p path sid h :
  Partition_Validate p path sid h = Ok tt ↔ PartitionOk sid h p.
Proof.
  unfold Partition_Validate. rewrite res_bind_ok. setoid_rewrite scan_ok. setoid_rewrite res_seq_ok.
  setoid_rewrite res_iter_ok. setoid_rewrite validatePartitionNativeMetadata_ok. split.
  - intros (s & (He & Hi & Hr & ->) & Hp & Hn & ? & ?). split; try done.
    + intros e parent [j Hj]%list_elem_of_lookup. apply (checkParent_ok path p (0 + j)); [done|]. by apply Hp.
    + intros r Hr'. rewrite <- scan_refs. by apply Hn.
  - intros [He Hi Hr Hp Hn ? ?]. exists (scan_all p). split; [done|]. split_and!; try done.
    + intros j e Hj. apply checkParent_ok; [done|]. intros parent. apply Hp. by eapply list_elem_of_lookup_2.
    + intros r Hr'. rewrite scan_refs. by apply Hn.
Qed.

(** A partition's validity does not depend on the order of its rows. *)
Record PartitionRows (p p' : Partition) : Prop := {
  pr_entries : Entries p ≡ₚ Entries p';
  pr_native : NativeMetadata p ≡ₚ NativeMetadata p';
}.

Lemma PartitionRows_refs p p' : PartitionRows p p' → refs_of p ≡ₚ refs_of p'.
Proof. intros [He _]. unfold refs_of. by rewrite He. Qed.

Lemma PartitionOk_rows sid h p p' : PartitionRows p p' → PartitionOk sid h p → PartitionOk sid h p'.
Proof.
  intros Hrows [He Hi Hr Hp Hn Hids Hsrc]. pose proof (PartitionRows_refs _ _ Hrows) as Hrefs.
  destruct Hrows as [Hpe Hpn]. split.
  - intros e. rewrite <- Hpe. apply He.
  - by rewrite <- Hpe.
  - by rewrite <- Hrefs.
  - intros e parent. rewrite <- Hpe. intros Hin Hpar. destruct (Hp e parent Hin Hpar) as (c & Hc & ?).
    exists c. by rewrite <- Hpe.
  - intros r. rewrite <- Hpn, <- Hrefs. apply Hn.
  - by rewrite <- Hpn.
  - by rewrite <- Hpn.
Qed.

(** ** Content, aliases and segments *)

Lemma ValidateOwnedRelativeBlob_ok r :
  ValidateOwnedRelativeBlob r = None ↔ plain_path r ∧ ContainsByte r backslash = false.
Proof.
  unfold ValidateOwnedRelativeBlob. rewrite plain_path_iff. case_decide; [naive_solver|].
  assert (HasPrefix r "/" = IsAbs r) as -> by done.
  destruct (IsAbs r); [naive_solver|]. destruct (ContainsByte r backslash); [naive_solver|]. simpl.
  case_decide as Hc; [naive_solver|]. rewrite Hc.
  destruct (bool_decide_reflect (r = ".")), (bool_decide_reflect (r = "..")), (HasPrefix r "../"); naive_solver.
Qed.

Record ContentOk (c : ContentRecord) : Prop := {
  co_ref : SourceEntryRef_Validate (c_Ref c) = true;
  co_blob : plain_path (RelativeBlob c) ∧ ContainsByte (RelativeBlob c) backslash = false;
  co_length : 0 ≤ ByteLength c;
  co_digest : TrimSpace (Digest c) ≠ "";
}.

Lemma ContentRecord_Validate_ok i c : ContentRecord_Validate i c = Ok tt ↔ ContentOk c.
Proof.
  unfold ContentRecord_Validate. rewrite res_guard_ok.
  pose proof (ValidateOwnedRelativeBlob_ok (RelativeBlob c)) as Hb.
  destruct (ValidateOwnedRelativeBlob (RelativeBlob c)).
  - split; [by intros [_ ?]|]. intros [_ Hblob _ _]. by apply Hb in Hblob.
  - rewrite !res_guard_ok, !bool_decide_eq_true. split.
    + intros (? & ? & ? & _). split; [done|by apply Hb|lia|done].
    + intros [? _ ? ?]. split_and!; [done|lia|done|done].
Qed.

Record AliasOk (a : NativeAlias) : Prop := {
  ao_key : NativeKey a ≠ "" ∧ ValidString (NativeKey a) = true ∧ (String.length (NativeKey a) ≤ 512)%nat;
  ao_ref : SourceEntryRef_Validate (a_Ref a) = true;
}.

Lemma NativeAlias_Validate_ok i a : NativeAlias_Validate i a = Ok tt ↔ AliasOk a.
Proof.
  unfold NativeAlias_Validate. rewrite !res_guard_ok, !bool_decide_eq_true. split.
  - by intros (? & ? & ? & ? & _).
  - by intros [(? & ? & ?) ?].
Qed.

Definition range_ok (start fin : option Z) : Prop := ∃ s f, start = Some s ∧ fin = Some f ∧ 0 ≤ s < f.

(** A range kind has a nonempty range of nonnegative coordinates; the other two
    kinds have none. *)
Record CoordinatesOk (c : SegmentCoordinates) : Prop := {
  sc_kind : Kind c ∈ AllCoordinateKinds;
  sc_range : Kind c ≠ CoordinateKindSnapshotOnly → Kind c ≠ CoordinateKindUnknown → range_ok (Start c) (EndExclusive c);
  sc_none : Kind c = CoordinateKindSnapshotOnly ∨ Kind c = CoordinateKindUnknown → Start c = None ∧ EndExclusive c = None;
  sc_bytes : (DecodedByteStart c = None ∧ DecodedByteEndExclusive c = None) ∨
    range_ok (DecodedByteStart c) (DecodedByteEndExclusive c);
}.

Lemma checkRange_ok s f e1 e2 : checkRange s f e1 e2 = Ok tt ↔ range_ok (Some s) (Some f).
Proof.
  unfold checkRange, range_ok. rewrite !res_guard_ok, !bool_decide_eq_true. split.
  - intros (? & ? & _). exists s, f. split_and!; [done|done|lia|lia].
  - intros (? & ? & [= <-] & [= <-] & ?). split_and!; [lia|lia|done].
Qed.

Lemma kind_cases k :
  k ∈ AllCoordinateKinds →
  (rangeKind k = true ∧ rangelessKind k = false ∧ k ≠ CoordinateKindSnapshotOnly ∧ k ≠ CoordinateKindUnknown) ∨
  (rangeKind k = false ∧ rangelessKind k = true ∧ (k = CoordinateKindSnapshotOnly ∨ k = CoordinateKindUnknown)).
Proof.
  unfold AllCoordinateKinds. rewrite !elem_of_cons, elem_of_nil. intros [->|[->|[->|[->|[->|[]]]]]].
  1-3: left; split_and!; [vm_compute; reflexivity..| |]; done.
  1-2: right; split_and!; [vm_compute; reflexivity..|auto].
Qed.

Lemma SegmentCoordinates_Validate_ok i c : SegmentCoordinates_Validate i c = Ok tt ↔ CoordinatesOk c.
Proof.
  unfold SegmentCoordinates_Validate. rewrite res_guard_ok, res_seq_ok. unfold CoordinateKind_IsValid. rewrite known_iff.
  assert (∀ (x y : option Z) e1 e2 (e3 : verr),
    match x, y with Some s, Some f => checkRange s f e1 e2 | _, _ => Err e3 end = Ok tt ↔ range_ok x y) as Hrange.
  { intros [s|] [f|] e1 e2 e3; rewrite ?checkRange_ok; [done|..]; (split; [done|intros (? & ? & ? & ? & ?); done]). }
  assert (∀ (x y : option Z) e1 e2 (e3 : verr),
    match x, y with None, None => Ok tt | Some s, Some f => checkRange s f e1 e2 | _, _ => Err e3 end = Ok tt ↔
    (x = None ∧ y = None) ∨ range_ok x y) as Hopt.
  { intros [s|] [f|] e1 e2 e3; rewrite ?checkRange_ok; [naive_solver| | |split; auto];
      (split; [done|intros [[? ?]|(? & ? & ? & ? & ?)]; done]). }
  rewrite Hopt. split.
  - intros (Hk & Hcase & ?). destruct (kind_cases _ Hk) as [(E1 & E2 & ? & ?)|(E1 & E2 & Hn)]; rewrite E1 in Hcase.
    + apply Hrange in Hcase. split; try done. tauto.
    + rewrite E2 in Hcase. split; try done; [tauto|]. by destruct (Start c), (EndExclusive c).
  - intros [Hk Hr Hn ?]. split_and!; [done| |done].
    destruct (kind_cases _ Hk) as [(-> & _ & ? & ?)|(-> & -> & Hk')]; [by apply Hrange, Hr|].
    by destruct (Hn Hk') as [-> ->].
Qed.

Record SegmentOk (s : ContextSegment) : Prop := {
  so_ordinal : 0 ≤ Ordinal s;
  so_inclusion : Inclusion s ∈ AllSegmentInclusions;
  so_logical : ∀ id, LogicalSessionID s = Some id → SessionID_New id = true;
  so_physical : ValidString (PhysicalSourceID s) = true;
  so_coordinates : CoordinatesOk (Coordinates s);
  so_captured : ∀ r, r ∈ CapturedRefs s → SourceEntryRef_Validate r = true;
  so_unique : NoDup (CapturedRefs s);
}.

(** A loop that validates elements and rejects a repeated key. *)
Lemma unique_fold {A} (f : nat → gset string → A → result verr (gset string)) (P : A → Prop) (key : A → string) :
  (∀ i s x s', f i s x = Ok s' ↔ P x ∧ key x ∉ s ∧ s' = {[key x]} ∪ s) →
  ∀ l s', res_fold f 0 ∅ l = Ok s' ↔ (∀ x, x ∈ l → P x) ∧ NoDup (key <$> l) ∧ s' = list_to_set (key <$> l).
Proof.
  intros Hf l s'. rewrite <- bind_singleton.
  apply (collect_set_validates f (λ _, P) (λ x, [key x])); [|by intros; apply NoDup_singleton|done].
  intros i s x s1. rewrite Hf. simpl. rewrite union_empty_r_L. setoid_rewrite list_elem_of_singleton. naive_solver.
Qed.

Lemma ContextSegment_Validate_ok i s : ContextSegment_Validate i s = Ok tt ↔ SegmentOk s.
Proof.
  unfold ContextSegment_Validate. rewrite !res_guard_ok, !bool_decide_eq_true, absent_or_iff, res_seq_ok, res_bind_ok.
  rewrite SegmentCoordinates_Validate_ok. unfold SegmentInclusion_IsValid. rewrite known_iff.
  setoid_rewrite (unique_fold (checkCaptured i) (λ r, SourceEntryRef_Validate r = true) id).
  - rewrite list_fmap_id. split.
    + intros (? & ? & ? & ? & ? & seen & (? & ? & _) & _). split; (done || lia).
    + intros [? ? ? ? ? ? ?]. split_and!; [lia|done..|]. eexists. split_and!; done.
  - intros j seen r s'. unfold checkCaptured. rewrite !res_guard_ok, bool_decide_eq_true. naive_solver.
Qed.

Lemma validateSegments_ok l :
  validateSegments l = Ok tt ↔ (∀ s, s ∈ l → SegmentOk s) ∧ StronglySorted Z.lt (Ordinal <$> l).
Proof.
  unfold validateSegments. rewrite res_bind_ok. 
  assert ((∃ p, res_fold checkSegment 0 (-1) l = Ok p) ↔
    (∀ s, s ∈ l → SegmentOk s) ∧ StronglySorted Z.lt (Ordinal <$> l) ∧ Forall (Z.lt (-1)) (Ordinal <$> l)) as Hl.
  { apply res_fold_ascending. intros i p s p'. unfold checkSegment.
    rewrite res_seq_ok, ContextSegment_Validate_ok, res_guard_ok, bool_decide_eq_true, Z.nle_gt. naive_solver. }
  split.
  - intros (p & Hp & _). destruct (proj1 Hl) as (? & ? & _); eauto.
  - intros [Hok Hs]. destruct (proj2 Hl) as [p Hp]; [|eauto]. split_and!; [done|done|].
    apply Forall_fmap, Forall_forall. intros s Hs'. simpl. destruct (Hok s Hs'). lia.
Qed.

(** ** Ownership across partitions *)

Definition all_refs (main : Partition) (earlier : list EarlierPartition) : list string :=
  refs_of main ++ (earlier ≫= λ e, refs_of (Content e)).
Definition all_ids (main : Partition) (earlier : list EarlierPartition) : list string :=
  (n_ID <$> NativeMetadata main) ++ (earlier ≫= λ e, n_ID <$> NativeMetadata (Content e)).

(** Main, then each earlier section, over one map of owners. *)
Lemma owners_ok {A} (own : string → nat → gset string → A → result verr (gset string)) (items : Partition → list A)
    (keys : A → list string) (main : Partition) (earlier : list EarlierPartition) :
  (∀ site i s x s', own site i s x = Ok s' ↔ (∀ k, k ∈ keys x → k ∉ s) ∧ s' = list_to_set (keys x) ∪ s) →
  (∀ x, NoDup (keys x)) →
  (∃ o o', res_fold (own "main") 0 ∅ (items main) = Ok o ∧
    res_fold (λ section owners e, res_fold (own ("earlier[" +:+ pretty section +:+ "]")) 0 owners (items (Content e)))
      0 o earlier = Ok o') ↔
  NoDup ((items main ≫= keys) ++ (earlier ≫= λ e, items (Content e) ≫= keys)).
Proof.
  intros Hown Hkeys.
  assert (∀ site i s l s', res_fold (own site) i s l = Ok s' ↔
    NoDup (l ≫= keys) ∧ (∀ k, k ∈ l ≫= keys → k ∉ s) ∧ s' = list_to_set (l ≫= keys) ∪ s) as Hin.
  { intros site i s l s'. rewrite (collect_set_ok (own site) (λ _ _, True) keys); [naive_solver| |done].
    intros. rewrite Hown. naive_solver. }
  setoid_rewrite Hin.
  setoid_rewrite (collect_set_ok _ (λ _ e, NoDup (items (Content e) ≫= keys)) (λ e, items (Content e) ≫= keys));
    [|by intros; rewrite Hin|done].
  rewrite NoDup_app. split.
  - intros (o & o' & (? & _ & ->) & _ & ? & Hdis & _). split_and!; [done| |done]. intros k Hk Hk'.
    apply (Hdis k Hk'). set_solver.
  - intros (Hm & Hdis & He). eexists _, _. split_and!; [done|set_solver|done| |done| |done].
    + intros j e Hj. apply list_elem_of_lookup_2 in Hj. clear -He Hj. induction earlier as [|x l IH]; [set_solver|].
      csimpl in He. apply NoDup_app in He as (? & _ & ?). apply elem_of_cons in Hj as [->|?]; auto.
    + intros k Hk Hk'. apply (Hdis k); set_solver.
Qed.

Lemma validateGlobalEntryRefUniqueness_ok main earlier :
  validateGlobalEntryRefUniqueness main earlier = Ok tt ↔ NoDup (all_refs main earlier).
Proof.
  assert (all_refs main earlier = (Entries main ≫= ref_key) ++ (earlier ≫= λ e, Entries (Content e) ≫= ref_key)) as ->.
  { unfold all_refs. rewrite bind_ref_key. f_equal. apply list_bind_ext; [|done]. intros e. by rewrite bind_ref_key. }
  rewrite <- (owners_ok ownRef Entries ref_key).
  - unfold validateGlobalEntryRefUniqueness. setoid_rewrite res_bind_ok. setoid_rewrite res_bind_ok. naive_solver.
  - intros site i s e s'. unfold ownRef. destruct (ref_key_cases e) as [[Hr ->]|[Hr ->]].
    + rewrite decide_True by done. simpl. rewrite union_empty_l_L.
      split; [intros [= <-]; split; [set_solver|done]|by intros [_ ->]].
    + rewrite decide_False, res_guard_ok, bool_decide_eq_true by done. simpl. rewrite union_empty_r_L.
      setoid_rewrite list_elem_of_singleton. naive_solver.
  - intros e. destruct (ref_key_cases e) as [[_ ->]|[_ ->]]; [constructor|apply NoDup_singleton].
Qed.

Lemma validateGlobalNativeMetadataIDUniqueness_ok main earlier :
  validateGlobalNativeMetadataIDUniqueness main earlier = Ok tt ↔ NoDup (all_ids main earlier).
Proof.
  assert (all_ids main earlier = (NativeMetadata main ≫= λ r, [n_ID r]) ++
    (earlier ≫= λ e, NativeMetadata (Content e) ≫= λ r, [n_ID r])) as ->.
  { unfold all_ids. by rewrite bind_singleton. }
  rewrite <- (owners_ok ownMetadataID NativeMetadata (λ r, [n_ID r])).
  - unfold validateGlobalNativeMetadataIDUniqueness. setoid_rewrite res_bind_ok. setoid_rewrite res_bind_ok. naive_solver.
  - intros site i s r s'. unfold ownMetadataID. rewrite res_guard_ok, bool_decide_eq_true. simpl.
    rewrite union_empty_r_L. setoid_rewrite list_elem_of_singleton. naive_solver.
  - intros r. apply NoDup_singleton.
Qed.

Lemma elem_of_allEntryRefs main earlier r : r ∈ allEntryRefs main earlier ↔ r ∈ all_refs main earlier.
Proof.
  unfold allEntryRefs, all_refs. rewrite elem_of_app, <- elem_of_entryRefs. generalize (entryRefs main) as s.
  induction earlier as [|e l IH]; intros s; csimpl; [set_solver|].
  rewrite IH, elem_of_union, elem_of_entryRefs, elem_of_app. tauto.
Qed.

(** ** Metadata *)

Record MetadataOk (m : UnifiedMetadata) : Prop := {
  mo_schema : 0 < SchemaVersion m;
  mo_session : SessionID_New (m_SessionID m) = true;
  mo_harness : ModelHarness m ∈ Harnesses;
  mo_count : SubmissionCount_Validate (InputSubmissionCount (Stats m)) = true;
  mo_turns : 0 ≤ TurnCount (Stats m);
  mo_root : ∀ r, RootSessionID m = Some r → SessionID_New r = true;
  mo_purpose : SessionPurpose_IsValid (Purpose m) = true;
  mo_relationships : ValidateSessionRelationships (Relationships m) = true;
}.

Lemma validateUnifiedMetadata_ok m path : validateUnifiedMetadata m path = Ok tt ↔ MetadataOk m.
Proof.
  unfold validateUnifiedMetadata. rewrite !res_guard_ok, !bool_decide_eq_true, absent_or_iff, isKnownHarness_iff. split.
  - intros (? & ? & ? & ? & ? & ? & ? & ? & _). split; (done || lia).
  - intros [? ? ? ? ? ? ? ?]. split_and!; (done || lia).
Qed.

(** ** A valid generation *)

(** The parts a generation and its read snapshot share. *)
Record BodyOk (m : UnifiedMetadata) (completeness : string) (main : Partition) (earlier : list EarlierPartition)
    (content : list ContentRecord) (titles : list string) : Prop := {
  bo_main : PartitionOk (m_SessionID m) (ModelHarness m) main;
  bo_earlier : ∀ e, e ∈ earlier →
    EarlierHistoryState_IsValid (State e) = true ∧ PartitionOk (m_SessionID m) (ModelHarness m) (Content e);
  bo_owner : NoDup (all_refs main earlier);
  bo_content : ∀ c, c ∈ content → ContentOk c;
  bo_content_unique : NoDup (c_Ref <$> content);
  bo_titles : ∀ r, r ∈ titles → SourceEntryRef_Validate r = true ∧ r ∈ refs_of main;
  bo_completeness : completeness ∈ AllGenerationCompletenesses;
  bo_count : completeness = GenerationCompletenessComplete ↔ InputSubmissionCount (Stats m) ≠ None;
}.

Record GenerationOk (g : Generation) : Prop := {
  go_id : TrimSpace (g_ID g) ≠ "";
  go_evidence : TrimSpace (SourceEvidenceDigest g) ≠ "";
  go_metadata : MetadataOk (g_Metadata g);
  go_body : BodyOk (g_Metadata g) (g_Completeness g) (g_Main g) (g_Earlier g) (g_Content g) (g_TitleRefs g);
  go_metadata_ids : NoDup (all_ids (g_Main g) (g_Earlier g));
  go_segments : (∀ s, s ∈ Segments g → SegmentOk s) ∧ StronglySorted Z.lt (Ordinal <$> Segments g);
  go_content : ∀ c, c ∈ g_Content g →
    c_Ref c ∈ all_refs (g_Main g) (g_Earlier g) ∨ (c_Ref c ≠ "" ∧ ∃ s, s ∈ Segments g ∧ c_Ref c ∈ CapturedRefs s);
  go_aliases : ∀ a, a ∈ Aliases g → AliasOk a ∧
    (a_Ref a ∈ all_refs (g_Main g) (g_Earlier g) ∨ (a_Ref a ≠ "" ∧ ∃ s, s ∈ Segments g ∧ a_Ref a ∈ CapturedRefs s));
  go_alias_keys : NoDup (NativeKey <$> Aliases g);
}.

Lemma elem_of_segmentCapturedRefs segs r :
  r ∈ segmentCapturedRefs segs ↔ r ≠ "" ∧ ∃ s, s ∈ segs ∧ r ∈ CapturedRefs s.
Proof.
  unfold segmentCapturedRefs. rewrite elem_of_list_to_set, list_elem_of_filter, list_elem_of_bind. naive_solver.
Qed.

Lemma earlier_ok sid h earlier :
  res_iter (EarlierPartition_Validate sid h) 0 earlier = Ok tt ↔
  ∀ e, e ∈ earlier → EarlierHistoryState_IsValid (State e) = true ∧ PartitionOk sid h (Content e).
Proof.
  rewrite res_iter_ok. unfold EarlierPartition_Validate. setoid_rewrite res_guard_ok.
  setoid_rewrite Partition_Validate_ok. setoid_rewrite list_elem_of_lookup. naive_solver.
Qed.

Lemma content_ok l refs :
  res_fold checkContent 0 ∅ l = Ok refs ↔
  (∀ c, c ∈ l → ContentOk c) ∧ NoDup (c_Ref <$> l) ∧ refs = list_to_set (c_Ref <$> l).
Proof.
  apply (unique_fold checkContent ContentOk c_Ref). intros i s c s'. unfold checkContent.
  rewrite res_seq_ok, ContentRecord_Validate_ok, res_guard_ok, bool_decide_eq_true. naive_solver.
Qed.

Lemma aliases_ok l keys :
  res_fold checkAlias 0 ∅ l = Ok keys ↔
  (∀ a, a ∈ l → AliasOk a) ∧ NoDup (NativeKey <$> l) ∧ keys = list_to_set (NativeKey <$> l).
Proof.
  apply (unique_fold checkAlias AliasOk NativeKey). intros i s c s'. unfold checkAlias.
  rewrite res_seq_ok, NativeAlias_Validate_ok, res_guard_ok, bool_decide_eq_true. naive_solver.
Qed.

Lemma titles_ok p l :
  res_iter (checkTitle (entryRefs p)) 0 l = Ok tt ↔
  ∀ r, r ∈ l → SourceEntryRef_Validate r = true ∧ r ∈ refs_of p.
Proof.
  rewrite res_iter_ok. unfold checkTitle. setoid_rewrite res_guard_ok. setoid_rewrite res_guard_ok.
  setoid_rewrite bool_decide_eq_true. setoid_rewrite elem_of_entryRefs. setoid_rewrite list_elem_of_lookup. naive_solver.
Qed.

Lemma completeness_ok c count :
  c ∈ AllGenerationCompletenesses →
  validateCompletenessCountPresence c count = Ok tt ↔ (c = GenerationCompletenessComplete ↔ count ≠ None).
Proof.
  unfold AllGenerationCompletenesses. rewrite !elem_of_cons, elem_of_nil. unfold validateCompletenessCountPresence.
  intros [->|[->|[]]].
  - rewrite decide_True by done. destruct count; [done|]. split; [done|]. intros [Hc _]. by destruct Hc.
  - rewrite decide_False by done. rewrite decide_True by done. destruct count; split; try done.
    intros [_ Hc]. by assert (GenerationCompletenessIncompleteNew = GenerationCompletenessComplete) by auto.
Qed.

Lemma Generation_Validate_ok g : Generation_Validate g = Ok tt ↔ GenerationOk g.
Proof.
  unfold Generation_Validate. rewrite !res_guard_ok, !bool_decide_eq_true.
  rewrite !res_seq_ok, validateUnifiedMetadata_ok, Partition_Validate_ok, earlier_ok,
    validateGlobalEntryRefUniqueness_ok, validateGlobalNativeMetadataIDUniqueness_ok, validateSegments_ok.
  unfold GenerationCompleteness_IsValid. rewrite known_iff, res_bind_ok. setoid_rewrite content_ok.
  setoid_rewrite res_guard_ok. setoid_rewrite res_bind_ok. setoid_rewrite aliases_ok. setoid_rewrite res_seq_ok.
  setoid_rewrite res_seq_ok. setoid_rewrite titles_ok. setoid_rewrite bool_decide_eq_true. setoid_rewrite res_iter_ok.
  setoid_rewrite res_guard_ok. setoid_rewrite orb_true_iff. setoid_rewrite bool_decide_eq_true.
  setoid_rewrite elem_of_allEntryRefs. setoid_rewrite elem_of_segmentCapturedRefs.
  split.
  - intros (? & ? & ? & ? & ? & ? & ? & ? & ? & ? & (? & ? & ->) & Hsub & ? & (Hal & ? & _) & Hout & ? & Hcount).
    split; try done; [split; try done; by apply completeness_ok| |].
    + intros c Hc. assert (c_Ref c ∈ (list_to_set (c_Ref <$> g_Content g) : gset string)) as Hin.
      { apply elem_of_list_to_set, list_elem_of_fmap. eauto. }
      apply Hsub in Hin. rewrite elem_of_union, elem_of_allEntryRefs, elem_of_segmentCapturedRefs in Hin. done.
    + intros a Ha. split; [by apply Hal|]. apply list_elem_of_lookup in Ha as [j Hj]. by apply (Hout j).
  - intros [? ? ? [? ? ? ? ? ? ? Hcount] ? [? ?] Hcont Hal ?]. split_and!; try done.
    eexists. split_and!; [done|done|done| |].
    + intros r [c [-> Hc]]%elem_of_list_to_set%list_elem_of_fmap.
      rewrite elem_of_union, elem_of_allEntryRefs, elem_of_segmentCapturedRefs. by apply Hcont.
    + eexists. split_and!; [intros a Ha; by apply Hal|done|done| |done|by apply completeness_ok].
      intros j a Ha. split; [|done]. apply Hal. by eapply list_elem_of_lookup_2.
Qed.

(** ** A valid snapshot *)

Record ParentsOk (session : SessionDetailPayload) (m : UnifiedMetadata) : Prop := {
  pa_durable : ∀ p d, ParentSessionID session = Some p →
    durableStartedByTarget (slice (s_Relationships session)) = Some d → p = d;
  pa_legacy : ∀ p q, slice (s_Relationships session) = [] → ParentSessionID session = Some p →
    ParentUUID m = Some q → q = p;
  pa_metadata : ∀ q d, ParentUUID m = Some q →
    durableStartedByTarget (slice (s_Relationships session)) = Some d → q = d;
}.

Record MirrorsOk (session : SessionDetailPayload) (m : UnifiedMetadata) : Prop := {
  mi_id : s_ID session = m_SessionID m;
  mi_harness : s_Harness session = ModelHarness m;
  mi_turns : s_TurnCount session = TurnCount (Stats m);
  mi_count : s_InputSubmissionCount session = InputSubmissionCount (Stats m);
  mi_root : s_RootSessionID session = RootSessionID m;
  mi_purpose : s_Purpose session = Purpose m;
  mi_relationships : s_Relationships session = Relationships m;
  mi_parents : ParentsOk session m;
}.

Lemma disagree_false x y : negb (disagree x y) = true ↔ ∀ a b, x = Some a → y = Some b → a = b.
Proof.
  rewrite negb_true_iff. destruct x as [a|], y as [b|]; simpl; try naive_solver.
  rewrite bool_decide_eq_false. split; [intros Hab ? ? [= <-] [= <-]; by apply dec_stable|].
  intros Hab Hne. by apply Hne, (Hab a b).
Qed.

Lemma validateParentMirrors_ok session m : validateParentMirrors session m = Ok tt ↔ ParentsOk session m.
Proof.
  unfold validateParentMirrors. rewrite res_seq_ok, res_guard_ok, disagree_false.
  destruct (ParentSessionID session) as [p|] eqn:E.
  - rewrite !res_guard_ok, disagree_false, negb_true_iff, andb_false_iff, bool_decide_eq_false. 
    rewrite <- negb_true_iff, disagree_false. split.
    + intros ((Hd & Hl & _) & Hm & _). split; [|intros ? ? Hrel|done].
      * intros ? d [= <-]%(eq_trans (eq_sym E)) Hdur. symmetry. by apply Hd.
      * intros [= <-]%(eq_trans (eq_sym E)) Hq. destruct Hl as [?|Hl]; [done|]. by apply Hl.
    + intros [Hd Hl Hm]. split_and!; [| |done|done|done].
      * intros d p' Hdur [= <-]. symmetry. by apply Hd.
      * destruct (decide (slice (s_Relationships session) = [])); [right|by left].
        intros q p' Hq [= <-]. by apply Hl.
  - split; [intros (_ & Hm & _); by split; try (by rewrite E)|]. by intros [_ _ Hm].
Qed.

Lemma equalOptional_iff {A} `{EqDecision A} (x y : option A) : equalOptional x y = true ↔ x = y.
Proof. destruct x, y; simpl; rewrite ?bool_decide_eq_true; split; congruence. Qed.

Lemma validateSnapshotMirrors_ok session m : validateSnapshotMirrors session m = Ok tt ↔ MirrorsOk session m.
Proof.
  unfold validateSnapshotMirrors. rewrite !res_guard_ok, !bool_decide_eq_true, !equalOptional_iff, validateParentMirrors_ok.
  split; [intros (? & ? & ? & ? & ? & ? & ? & ?); by split|intros [? ? ? ? ? ? ? ?]; by split_and!].
Qed.

(** A legacy read names its transcript and nothing of a generation. *)
Record LegacyOk (s : ReadSnapshot) : Prop := {
  le_version : s_IndexVersion s = 1;
  le_generation : GenerationID s = "";
  le_completeness : s_Completeness s = "";
  le_source : l_Harness (Legacy s) ∈ Harnesses ∧ ValidString (l_Path (Legacy s)) = true ∧
    ¬ (l_Harness (Legacy s) = "" ∧ l_Path (Legacy s) = "");
  le_content : Entries (s_Main s) = [] ∧ NativeMetadata (s_Main s) = [] ∧ s_Earlier s = [] ∧ s_Content s = [];
  le_titles : s_TitleRefs s = [];
}.

(** A generation read is self-contained and never names the mutable source. *)
Record ManagedOk (s : ReadSnapshot) : Prop := {
  ma_version : s_IndexVersion s = 2;
  ma_generation : GenerationID s ≠ "";
  ma_source : Legacy s = mkLegacy "" "";
  ma_body : BodyOk (s_Metadata s) (s_Completeness s) (s_Main s) (s_Earlier s) (s_Content s) (s_TitleRefs s);
  ma_content : ∀ c, c ∈ s_Content s → c_Ref c ∈ all_refs (s_Main s) (s_Earlier s);
}.

Lemma LegacySource_IsZero_iff l : LegacySource_IsZero l = true ↔ l = mkLegacy "" "".
Proof.
  unfold LegacySource_IsZero. rewrite andb_true_iff, !bool_decide_eq_true. destruct l. simpl. naive_solver.
Qed.

Lemma validateGeneration_ok s :
  s_IndexVersion s = 2 → validateGeneration s = Ok tt ↔ ManagedOk s.
Proof.
  intros Hv. unfold validateGeneration, validateSnapshotEntryRefUniqueness, validateSnapshotCompletenessCountPresence.
  rewrite !res_guard_ok, bool_decide_eq_true, LegacySource_IsZero_iff, !res_seq_ok, Partition_Validate_ok, earlier_ok,
    validateGlobalEntryRefUniqueness_ok.
  unfold GenerationCompleteness_IsValid. rewrite known_iff, res_bind_ok. setoid_rewrite content_ok.
  setoid_rewrite res_guard_ok. setoid_rewrite res_seq_ok. setoid_rewrite titles_ok. setoid_rewrite bool_decide_eq_true.
  split.
  - intros (? & ? & ? & ? & ? & ? & ? & (? & ? & ->) & Hsub & ? & ?).
    split; try done; [split; try done; by apply completeness_ok|].
    intros c Hc. apply elem_of_allEntryRefs, Hsub, elem_of_list_to_set. by apply list_elem_of_fmap_2.
  - intros [? ? ? [? ? ? ? ? ? ? ?] Hcont]. split_and!; try done. eexists.
    split_and!; [done|done|done| |done|by apply completeness_ok].
    intros r [c [-> Hc]]%elem_of_list_to_set%list_elem_of_fmap. by apply elem_of_allEntryRefs, Hcont.
Qed.

Lemma validateLegacy_ok s :
  LegacySource_Validate (Legacy s) = Ok tt ∧ s_IndexVersion s = 1 ∧ validateLegacy s = Ok tt ↔ LegacyOk s.
Proof.
  unfold validateLegacy, LegacySource_Validate, LegacySource_IsZero.
  rewrite !res_guard_ok, !negb_true_iff, !orb_false_iff, !bool_decide_eq_true, !bool_decide_eq_false.
  destruct (bool_decide (l_Harness (Legacy s) = "") && bool_decide (l_Path (Legacy s) = "")) eqn:E.
  - apply andb_true_iff in E as [Eh%bool_decide_eq_true Ep%bool_decide_eq_true]. split; [by intros (_ & _ & _ & _ & ? & _)|].
    intros [? ? ? (_ & _ & Hne) _ _]. by destruct Hne.
  - rewrite andb_false_iff, !bool_decide_eq_false in E. rewrite !res_guard_ok, isKnownHarness_iff. split.
    + intros ((? & ? & _) & ? & ? & ? & _ & ((Hm & Hn) & (He & Hc)) & ? & _). split; try done.
      * split_and!; [done|done|]. tauto.
      * split_and!; by apply dec_stable.
    + intros [? ? ? (? & ? & ?) (-> & -> & -> & ->) ?]. split_and!; done || tauto.
Qed.

(** A snapshot is a valid legacy read or a valid generation read, never both. *)
Record SnapshotOk (s : ReadSnapshot) : Prop := {
  ss_session : ValidateSessionDetailPayload (Session s) = true;
  ss_metadata : MetadataOk (s_Metadata s);
  ss_mirrors : MirrorsOk (Session s) (s_Metadata s);
  ss_body : LegacyOk s ∨ ManagedOk s;
}.

Lemma ReadSnapshot_Validate_ok s : ReadSnapshot_Validate s = Ok tt ↔ SnapshotOk s.
Proof.
  unfold ReadSnapshot_Validate. rewrite res_guard_ok, !res_seq_ok, validateUnifiedMetadata_ok, validateSnapshotMirrors_ok.
  pose proof (validateLegacy_ok s) as Hleg. split.
  - intros (? & ? & ? & Hsrc & Hbody). split; try done.
    case_decide; [left; by apply Hleg|]. case_decide; [right; by apply validateGeneration_ok|done].
  - intros [? ? ? Hbody]. split_and!; try done; destruct Hbody as [Hl|Hm].
    + by apply Hleg in Hl as (? & _).
    + unfold LegacySource_Validate. by rewrite (ma_source _ Hm).
    + apply Hleg in Hl as (_ & Hv & ?). by rewrite decide_True.
    + pose proof (ma_version _ Hm) as Hv. rewrite decide_False, decide_True by (done || lia).
      by apply validateGeneration_ok.
Qed.

(** ** What a committed generation reads back as *)

Lemma all_refs_rows main main' earlier earlier' :
  PartitionRows main main' →
  Forall2 (λ e e', State e = State e' ∧ PartitionRows (Content e) (Content e')) earlier earlier' →
  all_refs main earlier ≡ₚ all_refs main' earlier'.
Proof.
  intros Hm He. unfold all_refs. apply Permutation_app; [by apply PartitionRows_refs|].
  induction He as [|e e' l l' [_ Hrows] _ IH]; csimpl; [done|].
  apply Permutation_app; [by apply PartitionRows_refs|done].
Qed.

Lemma elem_of_emitted main earlier content c :
  c ∈ emittedContentRecords main earlier content ↔ c ∈ content ∧ c_Ref c ∈ all_refs main earlier.
Proof.
  unfold emittedContentRecords, all_refs. rewrite list_elem_of_filter, elem_of_list_to_set, list_elem_of_filter.
  rewrite !elem_of_app, !list_elem_of_bind. setoid_rewrite elem_of_refs_of. setoid_rewrite list_elem_of_fmap.
  split; [|naive_solver]. intros ((Hne & Hin) & ?). split; [done|].
  destruct Hin as [(e & Heq & ?)|(e & (x & Heq & ?) & ?)]; [left|right]; naive_solver.
Qed.

Lemma emitted_keys main earlier content :
  NoDup (c_Ref <$> content) → NoDup (c_Ref <$> emittedContentRecords main earlier content).
Proof.
  unfold emittedContentRecords. induction content as [|c l IH]; csimpl; [done|]. intros [Hc Hl]%NoDup_cons.
  rewrite filter_cons. case_decide; [|by apply IH]. csimpl. apply NoDup_cons. split; [|by apply IH].
  intros (c' & Hr & [_ Hin]%list_elem_of_filter)%list_elem_of_fmap. apply Hc. rewrite Hr. by apply list_elem_of_fmap_2.
Qed.

(** A relationship to a known parent names it, as the schema requires. *)
Definition known_targets_named (rels : list SessionRelationship) : Prop :=
  ∀ r, r ∈ rels → TargetState r = RelationshipTargetKnown ∨ TargetState r = RelationshipTargetKnownRetained →
    ∃ target, TargetLocalID r = Some target ∧ target ≠ "".

Lemma durable_startedBy rels : known_targets_named rels → durableStartedByTarget rels = startedByTarget rels.
Proof.
  intros Hn. unfold durableStartedByTarget. induction rels as [|r l IH]; [done|]. rewrite filter_cons. simpl.
  assert (known_targets_named l) as Hl by (intros r' ?; apply Hn; by right).
  destruct (decide (r_Kind r ≠ SessionRelationshipStartedBy)).
  - rewrite decide_False by tauto. by apply IH.
  - destruct (decide (TargetState r = RelationshipTargetKnown ∨ TargetState r = RelationshipTargetKnownRetained)) as [Hk|Hk].
    + rewrite decide_True by (split; [by apply dec_stable|done]).
      destruct (Hn r) as (target & -> & ?); [by left|done|]. by rewrite decide_True.
    + rewrite decide_False by tauto. by apply IH.
Qed.

Lemma read_back_body g main earlier content stats detail :
  GenerationOk g → PartitionRows (g_Main g) main →
  Forall2 (λ e e', State e = State e' ∧ PartitionRows (Content e) (Content e')) (g_Earlier g) earlier →
  content ≡ₚ g_Content g →
  (InputSubmissionCount (default (Stats (g_Metadata g)) stats) = None ↔ InputSubmissionCount (Stats (g_Metadata g)) = None) →
  ManagedOk (generationReadSnapshot g main earlier content stats detail).
Proof.
  intros [? ? ? [Hmain He Hown Hc Hcu Ht Hcomp Hcount] ? ? ? ? ?] Hm Hrows Hcont Hstats.
  pose proof (all_refs_rows _ _ _ _ Hm Hrows) as Hrefs. split; simpl; [done| |done| |].
  - intros Hnil. by rewrite Hnil in *.
  - split; simpl; try done.
    + by eapply PartitionOk_rows.
    + intros e' Hin. apply list_elem_of_lookup in Hin as [j Hj].
      destruct (Forall2_lookup_r _ _ _ _ _ Hrows Hj) as (e & Hje & Hst & Hr).
      destruct (He e) as [? ?]; [by eapply list_elem_of_lookup_2|]. rewrite <- Hst. split; [done|].
      by eapply PartitionOk_rows.
    + by rewrite <- Hrefs.
    + intros c [Hin _]%elem_of_emitted. apply Hc. by rewrite <- Hcont.
    + apply emitted_keys. by rewrite Hcont.
    + intros r Hr. rewrite <- (PartitionRows_refs _ _ Hm). by apply Ht.
    + rewrite Hcount. tauto.
  - intros c [_ Hin]%elem_of_emitted. done.
Qed.

(** C4: What the store commits it can read back. For a generation that passed
    [Generation.Validate], the snapshot the store builds from its rows, in
    whatever order the queries return them, passes [ReadSnapshot.Validate]
    unless the document's parent contradicts its own started-by relationship;
    and it carries the content of exactly the blocks the generation emits. *)
Theorem stored_generation_reads_back g main earlier content stats detail :
  (∀ rels, ValidateSessionRelationships rels = true → known_targets_named (slice rels)) →
  Generation_Validate g = Ok tt →
  PartitionRows (g_Main g) main →
  Forall2 (λ e e', State e = State e' ∧ PartitionRows (Content e) (Content e')) (g_Earlier g) earlier →
  content ≡ₚ g_Content g →
  (∀ st, stats = Some st → 0 ≤ TurnCount st ∧ SubmissionCount_Validate (InputSubmissionCount st) = true ∧
    (InputSubmissionCount st = None ↔ InputSubmissionCount (Stats (g_Metadata g)) = None)) →
  let s := generationReadSnapshot g main earlier content stats detail in
  ValidateSessionDetailPayload (Session s) = true →
  (ReadSnapshot_Validate s = Ok tt ↔
    ∀ q d, ParentUUID (g_Metadata g) = Some q → startedByTarget (slice (Relationships (g_Metadata g))) = Some d → q = d) ∧
  (∀ c, c ∈ s_Content s ↔ c ∈ g_Content g ∧ c_Ref c ∈ all_refs (g_Main g) (g_Earlier g)).
Proof.
  intros Hlaw Hg%Generation_Validate_ok Hm Hrows Hcont Hstats s Hsession.
  pose proof (durable_startedBy _ (Hlaw _ (mo_relationships _ (go_metadata _ Hg)))) as Hdur.
  split; [|intros c; unfold s; simpl; rewrite elem_of_emitted, Hcont, (all_refs_rows _ _ _ _ Hm Hrows); done].
  rewrite ReadSnapshot_Validate_ok. split.
  - intros [_ _ Hmi _]. intros q d Hq Hd. apply (pa_metadata _ _ (mi_parents _ _ Hmi) q d Hq). simpl.
    by rewrite Hdur.
  - intros Hpar. split; [done| | |right].
    + destruct (go_metadata _ Hg) as [? ? ? ? ? ? ? ?]. split; try done; simpl;
        destruct stats as [st|]; try done; by destruct (Hstats st eq_refl) as (? & ? & _).
    + split; try done. split; simpl; rewrite ?Hdur; unfold snapshotLogicalParent; simpl.
      * intros p d Hp Hd. rewrite Hd in Hp. congruence.
      * intros p q -> Hp Hq. simpl in Hp. congruence.
      * done.
    + apply read_back_body; try done. destruct stats as [st|]; [|done]. by destruct (Hstats st eq_refl) as (_ & _ & ?).
Qed.

(** ** Self-containment *)

(** A block of a generation: [None] is the main partition. *)
Definition section_of (g : Generation) (sec : option nat) : option Partition :=
  match sec with None => Some (g_Main g) | Some k => Content <$> g_Earlier g !! k end.
Definition block_at (g : Generation) (b : option nat * nat) : option SessionEntry :=
  p ← section_of g b.1; Entries p !! b.2.

Definition owns_ref (g : Generation) (r : string) (b : option nat * nat) : Prop :=
  ∃ e, block_at g b = Some e ∧ SourceEntryRef e = r.

Definition captures (g : Generation) (r : string) : Prop := ∃ s, s ∈ Segments g ∧ r ∈ CapturedRefs s.

Lemma bind_position {A B} (k : A → list B) l i j x y a :
  NoDup (l ≫= k) → l !! i = Some x → l !! j = Some y → a ∈ k x → a ∈ k y → i = j.
Proof.
  revert i j. induction l as [|z l IH]; intros [|i] [|j] Hnd Hi Hj Hx Hy; simplify_eq/=; [done| | |];
    apply NoDup_app in Hnd as (? & Hdis & ?).
  - destruct (Hdis a Hx). apply list_elem_of_bind. eauto using list_elem_of_lookup_2.
  - destruct (Hdis a Hy). apply list_elem_of_bind. eauto using list_elem_of_lookup_2.
  - f_equal. by eapply IH.
Qed.

Lemma bind_part_NoDup {A B} (k : A → list B) l n x : NoDup (l ≫= k) → l !! n = Some x → NoDup (k x).
Proof.
  revert n. induction l as [|z l IH]; intros [|n] Hnd Hn; simplify_eq/=; apply NoDup_app in Hnd as (? & _ & ?); eauto.
Qed.

Definition parts (g : Generation) : list Partition := g_Main g :: (Content <$> g_Earlier g).
Definition part_index (sec : option nat) : nat := match sec with None => 0 | Some k => S k end.

Lemma section_parts g sec : section_of g sec = parts g !! part_index sec.
Proof. destruct sec; simpl; [|done]. by rewrite list_lookup_fmap. Qed.

Lemma parts_refs g : all_refs (g_Main g) (g_Earlier g) = parts g ≫= refs_of.
Proof. unfold all_refs, parts. csimpl. f_equal. induction (g_Earlier g) as [|e l IH]; csimpl; [done|]. by rewrite IH. Qed.

Lemma owns_unique g r b1 b2 :
  NoDup (all_refs (g_Main g) (g_Earlier g)) → r ≠ "" → owns_ref g r b1 → owns_ref g r b2 → b1 = b2.
Proof.
  rewrite parts_refs. destruct b1 as [s1 i1], b2 as [s2 i2]. unfold owns_ref, block_at. simpl.
  intros Hnd Hr (e1 & (p1 & Hp1 & He1)%bind_Some & Hr1) (e2 & (p2 & Hp2 & He2)%bind_Some & Hr2).
  rewrite section_parts in Hp1, Hp2.
  assert (∀ i p e, Entries p !! i = Some e → SourceEntryRef e = r → r ∈ ref_key e ∧ r ∈ refs_of p) as Hkey.
  { intros i p e Hi He. split.
    - unfold ref_key. rewrite decide_False by congruence. rewrite He. by left.
    - apply elem_of_refs_of. eauto using list_elem_of_lookup_2. }
  destruct (Hkey _ _ _ He1 Hr1) as [Hk1 Hin1], (Hkey _ _ _ He2 Hr2) as [Hk2 Hin2].
  assert (part_index s1 = part_index s2) as Hs by (eapply (bind_position refs_of (parts g)); eassumption).
  assert (s1 = s2) as -> by (destruct s1, s2; simpl in *; congruence). rewrite Hp1 in Hp2. injection Hp2 as <-.
  f_equal. eapply (bind_position ref_key); [|exact He1|exact He2|done|done].
  rewrite bind_ref_key. by apply (bind_part_NoDup refs_of (parts g) (part_index s2)).
Qed.

Lemma owned_in_refs g r : r ∈ all_refs (g_Main g) (g_Earlier g) → r ≠ "" ∧ ∃ b, owns_ref g r b.
Proof.
  rewrite parts_refs, list_elem_of_bind. intros (p & (Hr & e & [i Hi]%list_elem_of_lookup & He)%elem_of_refs_of & Hp).
  split; [done|]. apply list_elem_of_lookup in Hp as [n Hn].
  exists ((match n with O => None | S k => Some k end), i), e. unfold block_at. simpl. rewrite section_parts.
  assert (part_index (match n with O => None | S k => Some k end) = n) as -> by (by destruct n).
  by rewrite Hn.
Qed.

Lemma main_in_refs g r : r ∈ refs_of (g_Main g) → r ≠ "" ∧ ∃ i, owns_ref g r (None, i).
Proof.
  intros (Hr & e & [i Hi]%list_elem_of_lookup & He)%elem_of_refs_of. split; [done|]. by exists i, e.
Qed.

Lemma block_partition g sec i e :
  GenerationOk g → block_at g (sec, i) = Some e →
  ∃ p, section_of g sec = Some p ∧ Entries p !! i = Some e ∧ PartitionOk (m_SessionID (g_Metadata g)) (ModelHarness (g_Metadata g)) p.
Proof.
  intros Hg (p & Hp & He)%bind_Some. exists p. split_and!; [done|done|]. destruct (go_body _ Hg) as [Hm Hear _ _ _ _ _ _].
  destruct sec as [k|]; simpl in Hp; [|by injection Hp as <-].
  apply fmap_Some in Hp as (x & Hx & ->). apply Hear. by eapply list_elem_of_lookup_2.
Qed.

(** C25: A generation that validates resolves every reference it holds to exactly
    one place: a tool part to one depth-zero carrier of its own partition, a
    title to one main block, a content record or alias to one block or to a
    captured segment, a native record to one block of its own partition; and no
    two blocks share an identity. *)
Theorem generation_self_contained g :
  Generation_Validate g = Ok tt →
  (∀ r b1 b2, r ≠ "" → owns_ref g r b1 → owns_ref g r b2 → b1 = b2) ∧
  (∀ sec i e, block_at g (sec, i) = Some e → Depth e ≠ 0 →
    exists! j, ∃ c, block_at g (sec, j) = Some c ∧ ParentIndex e = Some (EntryIndex c) ∧ Depth c = 0) ∧
  (∀ r, r ∈ g_TitleRefs g → exists! b, owns_ref g r b ∧ b.1 = None) ∧
  (∀ r, r ∈ (c_Ref <$> g_Content g) ++ (a_Ref <$> Aliases g) → captures g r ∨ exists! b, owns_ref g r b) ∧
  (∀ sec p n, section_of g sec = Some p → n ∈ NativeMetadata p → exists! i, owns_ref g (n_EntryRef n) (sec, i)).
Proof.
  intros Hg%Generation_Validate_ok. pose proof (go_body _ Hg) as Hb.
  assert (∀ r b1 b2, r ≠ "" → owns_ref g r b1 → owns_ref g r b2 → b1 = b2) as Hu.
  { intros r b1 b2. apply owns_unique, (bo_owner _ _ _ _ _ _ Hb). }
  assert (∀ r, r ∈ all_refs (g_Main g) (g_Earlier g) → exists! b, owns_ref g r b) as Hres.
  { intros r (Hr & b & Ho)%owned_in_refs. exists b. split; [done|]. intros b' Ho'. by eapply Hu. }
  split_and!; [done| | | |].
  - intros sec i e He Hd. destruct (block_partition _ _ _ _ Hg He) as (p & Hp & Hi & Hok).
    assert (e ∈ Entries p) as Hin by (by eapply list_elem_of_lookup_2).
    destruct (ParentIndex e) as [parent|] eqn:E; [|by apply (eo_root _ _ _ (po_entries _ _ _ Hok e Hin)) in E].
    destruct (po_parents _ _ _ Hok e parent Hin E) as (c & [j Hj]%list_elem_of_lookup & Hc & Hd0).
    assert (∀ k, block_at g (sec, k) = Entries p !! k) as Hsec by (intros; unfold block_at; simpl; by rewrite Hp).
    exists j. split; [exists c; rewrite Hsec, Hc; by split_and!|]. intros k (c' & Hk & [= Hc'] & _). rewrite Hsec in Hk.
    eapply NoDup_lookup; [exact (po_index _ _ _ Hok)|by rewrite list_lookup_fmap, Hj|].
    by rewrite list_lookup_fmap, Hk, Hc, Hc'.
  - intros r Hr. destruct (bo_titles _ _ _ _ _ _ Hb r Hr) as [_ Hin]. apply main_in_refs in Hin as (Hne & i & Ho).
    exists (None, i). split; [done|]. intros b [Ho' _]. by eapply Hu.
  - intros r [(c & -> & Hc)%list_elem_of_fmap|(a & -> & Ha)%list_elem_of_fmap]%elem_of_app.
    + destruct (go_content _ Hg c Hc) as [?|[_ ?]]; [right; auto|by left].
    + destruct (go_aliases _ Hg a Ha) as [_ [?|[_ ?]]]; [right; auto|by left].
  - intros sec p n Hp Hn.
    assert (PartitionOk (m_SessionID (g_Metadata g)) (ModelHarness (g_Metadata g)) p) as Hok.
    { destruct sec as [k|]; simpl in Hp; [|injection Hp as <-; apply Hb].
      apply fmap_Some in Hp as (x & Hx & ->). apply Hb. by eapply list_elem_of_lookup_2. }
    destruct (po_native _ _ _ Hok n Hn) as [_ (Hr & e & [i Hi]%list_elem_of_lookup & He)%elem_of_refs_of].
    assert (owns_ref g (n_EntryRef n) (sec, i)) as Ho.
    { exists e. unfold block_at. simpl. by rewrite Hp. }
    exists i. split; [done|]. intros j Ho'. by assert ((sec, i) = (sec, j)) as [= ->] by (by eapply Hu).
Qed.

(** [Generation.Validate] accepts a generation exactly when it is well
    formed: identity, evidence and completeness with its count, valid metadata,
    valid partitions with globally unique refs and metadata ids, strictly
    ascending segments, and bounded content, aliases and titles that resolve. *)
Theorem Generation_Validate_exact g : Generation_Validate g = Ok tt ↔ GenerationOk g.
Proof. apply Generation_Validate_ok. Qed.

(** [ReadSnapshot.Validate] accepts exactly the snapshots whose session
    mirrors its metadata and that are either a legacy read without any
    generation content or a self-contained generation read without a mutable
    source; no snapshot is both. *)
Theorem snapshot_validation_exact s :
  (ReadSnapshot_Validate s = Ok tt ↔ SnapshotOk s) ∧ ¬ (LegacyOk s ∧ ManagedOk s).
Proof.
  split; [apply ReadSnapshot_Validate_ok|]. intros [Hl Hm]. pose proof (le_version _ Hl). pose proof (ma_version _ Hm). lia.
Qed.

End indexformat.

(** An owned blob path is accepted exactly when it is a backslash-free list
    of plain names, and an accepted path, joined to any absolute directory,
    cleans to the directory followed by the path itself: it stays below it. *)
Theorem owned_blob_confined r :
  (ValidateOwnedRelativeBlob r = None ↔ plain_path r ∧ ContainsByte r backslash = false) ∧
  (∀ dir, ValidateOwnedRelativeBlob r = None → IsAbs dir = true →
    Clean (dir +:+ String slash r) = (if decide (Clean dir = "/") then "" else Clean dir) +:+ String slash r).
Proof.
  split; [apply ValidateOwnedRelativeBlob_ok|]. intros dir [Hr _]%ValidateOwnedRelativeBlob_ok Habs.
  by apply plain_path_below.
Qed.

(** * Concrete instances *)

(** A small wire contract: three roles, one harness, nonempty references. *)
Definition demoSchema : SchemaLib := {|
  Role_IsValid r := bool_decide (r ∈ ["user"; "assistant"; "tool"]);
  EntryType_IsValid t := bool_decide (t ∈ ["text"; "tool_use"; "tool_result"]);
  ContentProvenance_Validate _ := true;
  Harness_IsKnown h := bool_decide (h = "codex");
  Harnesses := ["codex"];
  ToolCallKind_IsValid k := bool_decide (k = "shell");
  StopReason_IsValid r := bool_decide (r = "end");
  SourceEntryRef_Validate r := bool_decide (r ≠ "");
  SessionID_New s := bool_decide (s ≠ "");
  EarlierHistoryState_IsValid s := bool_decide (s = "uncertain");
  NativeMetadataKind_IsValid k := bool_decide (k = "message");
  NativeMetadataSourceType_IsValid k := bool_decide (k = "native");
  SubmissionCount_Validate c := match c with Some n => bool_decide (0 ≤ n) | None => true end;
  SessionPurpose_IsValid p := bool_decide (p = "");
  SessionRelationshipStartedBy := "started_by";
  RelationshipTargetKnown := "known";
  RelationshipTargetKnownRetained := "known_retained";
  RelationshipDetail := unit;
  RelationshipDetail_eq := _;
  SessionDetail := unit;
|}.
#[local] Existing Instance demoSchema.

Definition demoRelationships (rels : option (list SessionRelationship)) : bool :=
  forallb (λ r, match TargetLocalID r with Some t => bool_decide (t ≠ "") | None => false end) (slice rels).

Definition demoEntry (i depth : Z) (parent : option Z) (ref : string) : SessionEntry :=
  mkEntry "s1" "codex" i depth parent "assistant" "text" None None None ref
    None None false None None None None false None None None None None.

Definition demoGeneration : Generation :=
  mkGeneration "g1" GenerationCompletenessComplete
    (mkMetadata 1 "s1" "codex" (mkStats (Some 1) 2) None ""
      (Some [mkRelationship "started_by" "known" (Some "p1") tt]) (Some "p1"))
    (mkPartition [demoEntry 0 0 None "r0"; demoEntry 1 1 (Some 0) "r1"] [mkNative "n1" "message" "r0" "native" "{}" "" "" None])
    [mkEarlier "uncertain" (mkPartition [demoEntry 0 0 None "r2"] [])]
    [mkSegment 0 None "src" (mkCoordinates CoordinateKindSnapshotOnly None None None None) SegmentInclusionInherited ["r9"]]
    [mkContent "r0" "content/r0.json" 10 "d0"; mkContent "r9" "content/r9.json" 10 "d9"]
    [mkAlias "k1" "r1"; mkAlias "k9" "r9"] "evidence" ["r0"].

Example blob_escape : ValidateOwnedRelativeBlob "content/../../secret" = Some NotCanonicalPath ∧
  ValidateOwnedRelativeBlob "../secret" = Some EscapingPath ∧ ValidateOwnedRelativeBlob "/etc/passwd" = Some AbsolutePath ∧
  ValidateOwnedRelativeBlob "content/r0.json" = None.
Proof. by vm_compute. Qed.

Example generation_bad_parent :
  Generation_Validate demoRelationships
    (mkGeneration "g1" "complete" (g_Metadata demoGeneration)
      (mkPartition [demoEntry 0 0 None "r0"; demoEntry 1 1 (Some 7) "r1"] []) [] [] [] [] "e" []) =
  Err (Reject "main" 1 MissingParent).
Proof. by vm_compute. Qed.

Lemma demoGeneration_valid : Generation_Validate demoRelationships demoGeneration = Ok tt.
Proof. by vm_compute. Qed.

Lemma generation_self_contained_witness :
  Generation_Validate demoRelationships demoGeneration = Ok tt ∧
  exists! b, owns_ref demoGeneration "r0" b ∧ b.1 = None.
Proof.
  split; [exact demoGeneration_valid|].
  apply (generation_self_contained demoRelationships demoGeneration demoGeneration_valid). by left.
Defined.

Lemma stored_generation_reads_back_witness :
  let s := generationReadSnapshot demoGeneration
    (mkPartition [demoEntry 1 1 (Some 0) "r1"; demoEntry 0 0 None "r0"] (NativeMetadata (g_Main demoGeneration)))
    (g_Earlier demoGeneration) (g_Content demoGeneration) None tt in
  ReadSnapshot_Validate demoRelationships (λ _, true) s = Ok tt ∧ (c_Ref <$> s_Content s) = ["r0"].
Proof.
  split; [|by vm_compute].
  apply (stored_generation_reads_back demoRelationships (λ _, true) demoGeneration).
  - intros rels Hr r Hin _. unfold demoRelationships in Hr. rewrite forallb_forall in Hr.
    specialize (Hr r). apply list_elem_of_In in Hin. specialize (Hr Hin).
    destruct (TargetLocalID r) as [t|]; [|done]. exists t. by apply bool_decide_eq_true in Hr.
  - exact demoGeneration_valid.
  - split; [apply perm_swap|done].
  - repeat constructor.
  - done.
  - done.
  - done.
  - intros q d [= <-] Hd. vm_compute in Hd. congruence.
Defined.

Lemma owned_blob_confined_witness :
  ValidateOwnedRelativeBlob "content/r0.json" = None ∧
  Clean ("/data/./gen/" +:+ String slash "content/r0.json") = "/data/gen/content/r0.json".
Proof.
  split; [by vm_compute|]. by rewrite (proj2 (owned_blob_confined "content/r0.json") "/data/./gen/").
Defined.
