(* ===== verification/GoPaths.v ===== *)
(** * Orders on strings and slash-separated paths, as Go's [sort] and [path] have them

    [sort.Slice] with a comparison that goes field by field is [sort_by] of the
    list of fields.  [path] is the slash-only flavour, the same as
    [filepath.Clean] of [GoStrings] for cleaning. *)
From S2P Require Import Prelude GoStrings.
From Stdlib Require Import Ascii String.
Local Open Scope string_scope.
Local Open Scope list_scope.

(** ** The byte order *)

#[export] Instance string_le_total : Total string_le.
Proof. intros a b. apply String.leb_total. Qed.

#[export] Instance string_le_antisymm : AntiSymm eq string_le.
Proof. intros a b. apply String.leb_antisym. Qed.

Lemma string_le_nil s : string_le "" s.
Proof. by destruct s. Qed.

Lemma string_le_cons a s b t :
  string_le (String a s) (String b t) ↔ (N_of_ascii a < N_of_ascii b)%N ∨ (a = b ∧ string_le s t).
Proof.
  unfold string_le, String.leb. simpl. unfold Ascii.compare. destruct (N.compare_spec (N_of_ascii a) (N_of_ascii b)) as [E|E|E].
  - apply (f_equal ascii_of_N) in E. rewrite !ascii_N_embedding in E. subst b. split; [by right|].
    intros [?|[_ ?]]; [lia|done].
  - naive_solver.
  - split; [done|]. intros [?|[-> _]]; lia.
Qed.

#[export] Instance string_le_trans : Transitive string_le.
Proof.
  intros s. induction s as [|a s IH]; intros [|b t] [|c u]; try done.
  rewrite !string_le_cons. intros [?|[-> ?]] [?|[-> ?]]; [left; lia|by left|by left|right]. split; [done|]. by eapply IH.
Qed.

Lemma string_le_refl s : string_le s s.
Proof. by destruct (total string_le s s). Qed.

Lemma sort_strings_sorted l : StronglySorted string_le (sort_strings l).
Proof. apply (StronglySorted_merge_sort string_le). Qed.

Lemma sort_strings_unique l l' : l ≡ₚ l' → sort_strings l = sort_strings l'.
Proof.
  intros Hp. apply (StronglySorted_unique string_le); [apply sort_strings_sorted..|]. by rewrite !sort_strings_perm.
Qed.

(** ** Comparing field by field *)

Fixpoint keys_le (a b : list string) : Prop :=
  match a, b with
  | [], _ => True
  | _ :: _, [] => False
  | x :: a, y :: b => if decide (x = y) then keys_le a b else string_le x y
  end.

#[export] Instance keys_le_dec : RelDecision keys_le.
Proof.
  intros a. induction a as [|x a IH]; intros [|y b]; simpl; [by left|by left|right; by intros []|].
  destruct (decide (x = y)); [apply IH|apply _].
Defined.

#[export] Instance keys_le_total : Total keys_le.
Proof.
  intros a. induction a as [|x a IH]; intros [|y b]; simpl; [by left|by left|by right|].
  destruct (decide (x = y)) as [->|Hne]; [rewrite decide_True by done; apply IH|].
  rewrite decide_False by done. apply (total string_le).
Qed.

#[export] Instance keys_le_antisymm : AntiSymm eq keys_le.
Proof.
  intros a. induction a as [|x a IH]; intros [|y b]; simpl; try done.
  destruct (decide (x = y)) as [->|Hne]; [rewrite decide_True by done; intros; f_equal; by apply IH|].
  rewrite decide_False by done. intros ? ?. by destruct Hne; apply (anti_symm string_le).
Qed.

#[export] Instance keys_le_trans : Transitive keys_le.
Proof.
  intros a. induction a as [|x a IH]; intros [|y b] [|z c]; simpl; try done.
  repeat case_decide; subst; try done; [by apply IH| |].
  - intros ? ?. by destruct H; apply (anti_symm string_le).
  - intros ? ?. by transitivity y.
Qed.

Section sort_by.
Context {A : Type} (key : A → list string).

Definition by_key (x y : A) : Prop := keys_le (key x) (key y).

#[export] Instance by_key_dec : RelDecision by_key.
Proof. intros x y. apply keys_le_dec. Defined.
#[export] Instance by_key_total : Total by_key.
Proof. intros x y. apply (total keys_le). Qed.
#[export] Instance by_key_trans : Transitive by_key.
Proof. intros x y z. apply (transitivity (R := keys_le)). Qed.

(** [sort.Slice]: where two elements agree on every field the order is whatever
    [sort.Slice] leaves; here they keep theirs. *)
Definition sort_by (l : list A) : list A := merge_sort by_key l.

Lemma sort_by_perm l : sort_by l ≡ₚ l.
Proof. apply (merge_sort_Permutation by_key). Qed.

Lemma elem_of_sort_by x l : x ∈ sort_by l ↔ x ∈ l.
Proof. by rewrite sort_by_perm. Qed.

Lemma sort_by_sorted l : StronglySorted by_key (sort_by l).
Proof. apply (StronglySorted_merge_sort by_key). Qed.

(** With distinct keys any sort gives the same list. *)
Lemma sorted_by_unique l l' :
  NoDup (key <$> l) → l ≡ₚ l' → StronglySorted by_key l' → l' = sort_by l.
Proof.
  intros Hnd Hp Hs. apply (StronglySorted_unique_strong by_key); [|done|apply sort_by_sorted|by rewrite sort_by_perm].
  intros x y Hx Hy Hxy Hyx. rewrite sort_by_perm in Hy. rewrite <- Hp in Hx.
  apply (NoDup_fmap_unique key l); [done..|]. by apply (anti_symm keys_le).
Qed.

Lemma sort_by_unique l l' : NoDup (key <$> l) → l ≡ₚ l' → sort_by l = sort_by l'.
Proof.
  intros Hnd Hp. symmetry. apply sorted_by_unique; [done|by rewrite sort_by_perm|apply sort_by_sorted].
Qed.
End sort_by.

(** ** [path] *)

(** The bytes before and from the last slash on. *)
Definition lastElem (p : string) : string := default "" (last (split_on slash p)).
Definition dirElems (p : string) : list string := removelast (split_on slash p).

(** [path.Split]'s directory keeps its slash, which [Clean] drops again. *)
Definition Dir (p : string) : string :=
  match dirElems p with
  | [] => Clean ""
  | es => Clean (join_slash es +:+ "/")
  end.

(** The extension of the last element: from its last dot on. *)
Definition Ext (p : string) : string :=
  match reverse (split_on "."%char (lastElem p)) with
  | [] | [_] => ""
  | e :: _ => "." +:+ e
  end.

(** [path.Join]: the non-empty elements with a slash between, cleaned. *)
Definition Join (es : list string) : string :=
  match filter (λ e, e ≠ "") es with
  | [] => ""
  | es => Clean (join_slash es)
  end.

Example dir_nested : Dir "a/b/c.go" = "a/b".
Proof. reflexivity. Qed.
Example dir_top : Dir "c.go" = ".".
Proof. reflexivity. Qed.
Example dir_absolute : Dir "/a" = "/".
Proof. reflexivity. Qed.
Example ext_last_dot : Ext "a.b/x.tar.gz" = ".gz" ∧ Ext "a.b/x" = "" ∧ Ext ".go" = ".go".
Proof. by vm_compute. Qed.
Example join_cleans : Join ["web/src"; ""; "../lib/./api"] = "web/lib/api" ∧ Join ["a"; "../../x"] = "../x".
Proof. by vm_compute. Qed.

(** ** Plain paths *)

Lemma plain_path_elems p : plain_path p →
  split_on slash p ≠ [] ∧ (∀ e, e ∈ split_on slash p → plain_element e ∧ byte_free slash e) ∧ p = join_slash (split_on slash p).
Proof.
  intros (es & Hne & Hp & He). rewrite (plain_path_split p es) by done. done.
Qed.
