(* ===== verification/CodeGraph.v ===== *)
(** * The import graph and its differences ([internal/codegraph/graph.go], [diff.go])

    Graphs are compared by key: a node by its ID, an edge by its end points, a
    violation as a whole.  The code builds sets of keys, filters and sorts. *)
From S2P Require Import Prelude GoStrings GoPaths.
Local Open Scope string_scope.
Local Open Scope list_scope.

Inductive NodeKind := NodeKindModule | NodeKindPackage | NodeKindFile.

#[export] Instance NodeKind_eq_dec : EqDecision NodeKind.
Proof. solve_decision. Defined.

(** The zero value is a file without import extraction. *)
Inductive Language := LanguageNone | LanguageGo | LanguageTypeScript.

#[export] Instance Language_eq_dec : EqDecision Language.
Proof. solve_decision. Defined.

#[export] Instance Language_countable : Countable Language.
Proof.
  apply (inj_countable' (λ l, match l with LanguageNone => 0 | LanguageGo => 1 | LanguageTypeScript => 2 end)
    (λ n, match n with 0 => LanguageNone | 1 => LanguageGo | _ => LanguageTypeScript end)).
  by intros [].
Defined.

Definition Language_String (l : Language) : string :=
  match l with LanguageNone => "" | LanguageGo => "go" | LanguageTypeScript => "typescript" end.

Record Node := mkNode {
  ID : string;
  Parent : string;
  Kind : NodeKind;
  Name : string;
  n_Language : Language;
  Layer : nat;
  Order : nat;
  Loc : nat;
  FileCount : nat;
}.

Record Edge := mkEdge { From : string; To : string; Count : nat }.

Inductive ViolationKind := ViolationCycle | ViolationWrongWay.

#[export] Instance ViolationKind_eq_dec : EqDecision ViolationKind.
Proof. solve_decision. Defined.

Definition ViolationKind_String (k : ViolationKind) : string :=
  match k with ViolationCycle => "cycle" | ViolationWrongWay => "wrong_way" end.

Record Violation := mkViolation { v_Kind : ViolationKind; v_From : string; v_To : string }.

#[export] Instance Violation_eq_dec : EqDecision Violation.
Proof. solve_decision. Defined.

Record Graph := mkGraph { Nodes : list Node; Edges : list Edge; Violations : list Violation }.

(** ** Sets of keys *)

(** A Go map from keys to [true], filled by a loop over [l]. *)
Definition keySet {A K} `{Countable K} (key : A → K) (l : list A) : gmap K bool :=
  foldl (λ set x, <[key x := true]> set) ∅ l.

(** Reading a missing key of such a map gives [false]. *)
Definition has_key {K} `{Countable K} (set : gmap K bool) (k : K) : bool := default false (set !! k).

Definition edgeKey (e : Edge) : string * string := (From e, To e).
Definition violationKey (v : Violation) : string * string * string := (ViolationKind_String (v_Kind v), v_From v, v_To v).

Definition nodeIDSet (g : Graph) : gmap string bool := keySet ID (Nodes g).
Definition edgeKeySet (g : Graph) : gmap (string * string) bool := keySet edgeKey (Edges g).

(** ** Sorting *)

Definition node_fields (n : Node) : list string := [ID n].
Definition edge_fields (e : Edge) : list string := [From e; To e].
Definition violation_fields (v : Violation) : list string := [ViolationKind_String (v_Kind v); v_From v; v_To v].

Definition sortNodes : list Node → list Node := sort_by node_fields.
Definition sortEdges : list Edge → list Edge := sort_by edge_fields.
Definition sortViolations : list Violation → list Violation := sort_by violation_fields.

(** ** [Graph.Languages] *)

Definition Languages (g : Graph) : list string :=
  let set := foldl (λ (set : gmap string bool) n,
      if decide (Kind n = NodeKindFile ∧ n_Language n ≠ LanguageNone) then <[Language_String (n_Language n) := true]> set
      else set) ∅ (Nodes g) in
  sort_strings (map_to_list set).*1.

(** ** [Diff] *)

Record GraphDiff := mkDiff {
  AddedNodes : list Node;
  RemovedNodes : list Node;
  AddedEdges : list Edge;
  RemovedEdges : list Edge;
  NewViolations : list Violation;
}.

Definition emptyGraph : Graph := mkGraph [] [] [].

(** The elements of [l] whose key is not in [set], in their order. *)
Definition missing {A K} `{Countable K} (key : A → K) (set : gmap K bool) (l : list A) : list A :=
  filter (λ x, has_key set (key x) = false) l.

Definition Diff (base head : option Graph) : GraphDiff :=
  let base := default emptyGraph base in
  let head := default emptyGraph head in
  let baseNodes := nodeIDSet base in
  let headNodes := nodeIDSet head in
  let added := missing ID baseNodes (Nodes head) in
  let removed := missing ID headNodes (Nodes base) in
  let baseEdges := edgeKeySet base in
  let headEdges := edgeKeySet head in
  let addedEdges := missing edgeKey baseEdges (Edges head) in
  let removedEdges := missing edgeKey headEdges (Edges base) in
  let baseViol := keySet violationKey (Violations base) in
  let newViolations := missing violationKey baseViol (Violations head) in
  mkDiff (sortNodes added) (sortNodes removed) (sortEdges addedEdges) (sortEdges removedEdges) (sortViolations newViolations).

(** * Correctness *)

Lemma has_keySet {A K} `{Countable K} (key : A → K) (l : list A) k : has_key (keySet key l) k = true ↔ k ∈ key <$> l.
Proof.
  unfold keySet. assert (∀ set : gmap K bool,
    has_key (foldl (λ set x, <[key x := true]> set) set l) k = true ↔ has_key set k = true ∨ k ∈ key <$> l) as Hg.
  { induction l as [|x l IH]; intros set; simpl; [set_solver|]. rewrite IH. unfold has_key.
    destruct (decide (k = key x)) as [->|Hne]; [rewrite lookup_insert_eq; set_solver|].
    rewrite lookup_insert_ne by done. set_solver. }
  rewrite Hg. unfold has_key. rewrite lookup_empty. simpl. naive_solver.
Qed.

Lemma has_keySet_false {A K} `{Countable K} (key : A → K) (l : list A) k : has_key (keySet key l) k = false ↔ k ∉ key <$> l.
Proof. rewrite <- (has_keySet key l k). by destruct (has_key _ _). Qed.

Lemma violationKey_inj v w : violationKey v = violationKey w → v = w.
Proof. destruct v as [[] ? ?], w as [[] ? ?]; unfold violationKey; simpl; congruence. Qed.

Lemma violation_fields_inj v w : violation_fields v = violation_fields w → v = w.
Proof. intros [= ? ? ?]. apply violationKey_inj. unfold violationKey. congruence. Qed.

Lemma elem_of_missing {A K} `{Countable K} (key : A → K) (l0 l : list A) x :
  x ∈ missing key (keySet key l0) l ↔ x ∈ l ∧ key x ∉ key <$> l0.
Proof. unfold missing. rewrite list_elem_of_filter, has_keySet_false. tauto. Qed.

(** The keys of the head are those of the base, less the removed, with the added. *)
Lemma missing_patch {A K} `{Countable K} (key : A → K) (base head : list A) k :
  k ∈ key <$> head ↔
  (k ∈ key <$> base ∧ k ∉ key <$> missing key (keySet key head) base) ∨ k ∈ key <$> missing key (keySet key base) head.
Proof.
  rewrite !list_elem_of_fmap. setoid_rewrite elem_of_missing. split.
  - intros (x & -> & Hx). destruct (decide (key x ∈ key <$> base)) as [Hb|Hb]; [left|right; eauto].
    apply list_elem_of_fmap in Hb as Hb'. split; [done|]. intros (y & E & _ & Hy). apply Hy. rewrite <- E. by apply list_elem_of_fmap_2.
  - intros [[(y & -> & Hy) Hn]|(x & -> & Hx & _)]; [|eauto].
    destruct (decide (key y ∈ key <$> head)) as [Hh|Hh]; [by apply list_elem_of_fmap in Hh|]. destruct Hn. eauto.
Qed.

(** [Diff] is exact: each of its lists is sorted and holds precisely the
    elements whose key the other graph does not have (a nil graph has none), so
    that removing and adding those keys turns the base into the head, for nodes
    by ID and for edges by their end points, and a violation is new precisely
    when the head has it and the base does not. *)
Theorem Diff_exact base head :
  let b := default emptyGraph base in
  let h := default emptyGraph head in
  let d := Diff base head in
  (∀ n, n ∈ AddedNodes d ↔ n ∈ Nodes h ∧ ID n ∉ ID <$> Nodes b) ∧
  (∀ n, n ∈ RemovedNodes d ↔ n ∈ Nodes b ∧ ID n ∉ ID <$> Nodes h) ∧
  (∀ k, k ∈ ID <$> Nodes h ↔ (k ∈ ID <$> Nodes b ∧ k ∉ ID <$> RemovedNodes d) ∨ k ∈ ID <$> AddedNodes d) ∧
  (∀ e, e ∈ AddedEdges d ↔ e ∈ Edges h ∧ edgeKey e ∉ edgeKey <$> Edges b) ∧
  (∀ e, e ∈ RemovedEdges d ↔ e ∈ Edges b ∧ edgeKey e ∉ edgeKey <$> Edges h) ∧
  (∀ k, k ∈ edgeKey <$> Edges h ↔
    (k ∈ edgeKey <$> Edges b ∧ k ∉ edgeKey <$> RemovedEdges d) ∨ k ∈ edgeKey <$> AddedEdges d) ∧
  (∀ v, v ∈ NewViolations d ↔ v ∈ Violations h ∧ v ∉ Violations b) ∧
  StronglySorted (by_key node_fields) (AddedNodes d) ∧ StronglySorted (by_key node_fields) (RemovedNodes d) ∧
  StronglySorted (by_key edge_fields) (AddedEdges d) ∧ StronglySorted (by_key edge_fields) (RemovedEdges d) ∧
  StronglySorted (by_key violation_fields) (NewViolations d).
Proof.
  intros b h d. subst d. unfold Diff. fold b h. cbn [AddedNodes RemovedNodes AddedEdges RemovedEdges NewViolations].
  unfold nodeIDSet, edgeKeySet, sortNodes, sortEdges, sortViolations. split_and!; try apply sort_by_sorted.
  1,2,4,5: intros ?; by rewrite elem_of_sort_by, elem_of_missing.
  1,2: intros k; rewrite !sort_by_perm; apply missing_patch.
  intros v. rewrite elem_of_sort_by, elem_of_missing. rewrite list_elem_of_fmap. split; intros [? Hn]; split; [done| |done|].
  - intros ?. apply Hn. eauto.
  - intros (w & E & Hw). apply violationKey_inj in E. by subst.
Qed.

(** Comparing a graph with itself finds nothing. *)
Theorem Diff_self g : Diff (Some g) (Some g) = mkDiff [] [] [] [] [].
Proof.
  unfold Diff. simpl.
  assert (∀ {A K} `{Countable K} (key : A → K) (l : list A), missing key (keySet key l) l = []) as Hm.
  { intros A K E C key l. apply nil_iff_not_elem. intros x [Hx Hn]%elem_of_missing. apply Hn. by apply list_elem_of_fmap_2. }
  unfold nodeIDSet, edgeKeySet. by rewrite !Hm.
Qed.
