(* ===== verification/Tarjan.v ===== *)
(** * Strongly connected components ([internal/codegraph/layering.go], [tarjanSCC])

    The three maps, the stack and the list of components are the state of the
    recursion; [None] is a recursion that outlives its fuel or a pop from an
    empty stack, and neither happens.  The components come out as exactly the
    classes of mutual reachability, each after everything it points to. *)
From S2P Require Import Prelude GoStrings.

Record tstate := mkT {
  t_index : gmap string nat;
  t_low : gmap string nat;
  t_onStack : gmap string bool;
  t_stack : list string;   (* top first *)
  t_counter : nat;
  t_sccs : list (list string);
}.

Definition low_of (s : tstate) (v : string) : nat := default 0 (t_low s !! v).
Definition index_of (s : tstate) (v : string) : nat := default 0 (t_index s !! v).
Definition on_stack (s : tstate) (v : string) : bool := default false (t_onStack s !! v).

Definition set_low (s : tstate) (v : string) (n : nat) : tstate :=
  mkT (t_index s) (<[v := n]> (t_low s)) (t_onStack s) (t_stack s) (t_counter s) (t_sccs s).

(** The first five lines of [strongconnect]. *)
Definition enter (v : string) (s : tstate) : tstate :=
  mkT (<[v := t_counter s]> (t_index s)) (<[v := t_counter s]> (t_low s)) (<[v := true]> (t_onStack s))
    (v :: t_stack s) (S (t_counter s)) (t_sccs s).

(** The inner [for]: pop down to [v]. *)
Fixpoint popUntil (v : string) (stack : list string) (onStack : gmap string bool) (members : list string) :
    option (list string * gmap string bool * list string) :=
  match stack with
  | [] => None
  | w :: stack =>
    let onStack := <[w := false]> onStack in
    if decide (w = v) then Some (stack, onStack, members ++ [w]) else popUntil v stack onStack (members ++ [w])
  end.

Definition close (v : string) (s : tstate) : option tstate :=
  if decide (low_of s v = index_of s v) then
    '(stack, onStack, members) ← popUntil v (t_stack s) (t_onStack s) [];
    Some (mkT (t_index s) (t_low s) onStack stack (t_counter s) (t_sccs s ++ [sort_strings members]))
  else Some s.

Section tarjan.
Context (adj : gmap string (list string)).

Definition succs (v : string) : list string := default [] (adj !! v).

(** One neighbour of the loop over [adj[v]]; [rec] is the recursive call. *)
Definition visitSucc (rec : string → tstate → option tstate) (v w : string) (s : tstate) : option tstate :=
  match t_index s !! w with
  | None =>
    s ← rec w s;
    Some (if decide (low_of s w < low_of s v) then set_low s v (low_of s w) else s)
  | Some i => Some (if on_stack s w && bool_decide (i < low_of s v) then set_low s v i else s)
  end.

Fixpoint expand (rec : string → tstate → option tstate) (v : string) (ws : list string) (s : tstate) : option tstate :=
  match ws with
  | [] => Some s
  | w :: ws => s ← visitSucc rec v w s; expand rec v ws s
  end.

Fixpoint strongconnect (fuel : nat) (v : string) (s : tstate) : option tstate :=
  match fuel with
  | O => None
  | S fuel => s ← expand (strongconnect fuel) v (succs v) (enter v s); close v s
  end.

Fixpoint visitAll (fuel : nat) (vertices : list string) (s : tstate) : option tstate :=
  match vertices with
  | [] => Some s
  | v :: vertices =>
    match t_index s !! v with
    | None => s ← strongconnect fuel v s; visitAll fuel vertices s
    | Some _ => visitAll fuel vertices s
    end
  end.

(** A vertex is entered once, so their number bounds the depth. *)
Definition nodes (vertices : list string) : list string := vertices ++ (map_to_list adj ≫= snd).

Definition tarjanSCC (vertices : list string) : option (list (list string)) :=
  t_sccs <$> visitAll (S (length (nodes vertices))) vertices (mkT ∅ ∅ ∅ [] 0 []).

(** * Correctness *)

Definition edge (x y : string) : Prop := y ∈ succs x.
Notation reach := (rtc edge).

(** Mutual reachability. *)
Definition mutual (x y : string) : Prop := reach x y ∧ reach y x.

(** A list that is one whole class. *)
Definition is_scc (c : list string) : Prop := ∃ x, x ∈ c ∧ ∀ y, y ∈ c ↔ mutual x y.

(** The vertices of interest: closed under edges, within a finite set. *)
Context (R : string → Prop) (N : gset string).
Hypothesis R_closed : ∀ x y, R x → edge x y → R y.
Hypothesis R_finite : ∀ x, R x → x ∈ N.

(** [gray] are the vertices whose call is active. *)
Record wf (gray : gset string) (s : tstate) : Prop := {
  wf_nodup : NoDup (t_stack s ++ mjoin (t_sccs s));
  wf_visited : ∀ x, is_Some (t_index s !! x) ↔ x ∈ t_stack s ++ mjoin (t_sccs s);
  wf_R : ∀ x, is_Some (t_index s !! x) → R x;
  wf_on : ∀ x, on_stack s x = true ↔ x ∈ t_stack s;
  wf_counter : ∀ x i, t_index s !! x = Some i → i < t_counter s;
  wf_sorted : ∀ l1 x l2 y, t_stack s = l1 ++ x :: l2 → y ∈ l2 → index_of s y < index_of s x;
  wf_gray : ∀ g, g ∈ gray → g ∈ t_stack s;
  wf_black : ∀ x y, is_Some (t_index s !! x) → x ∉ gray → edge x y → is_Some (t_index s !! y);
  wf_down : ∀ x, x ∈ t_stack s → ∃ g, g ∈ gray ∧ index_of s g ≤ index_of s x ∧ reach x g;
  wf_up : ∀ g x, g ∈ gray → x ∈ t_stack s → index_of s g ≤ index_of s x → reach g x;
  wf_sccs : ∀ c, c ∈ t_sccs s → is_scc c;
  wf_topo : ∀ i c x y, t_sccs s !! i = Some c → x ∈ c → edge x y →
    ∃ j d, j ≤ i ∧ t_sccs s !! j = Some d ∧ y ∈ d;
}.

(** What earlier vertices keep across a call. *)
Record extends (s s' : tstate) : Prop := {
  ex_index : ∀ x i, t_index s !! x = Some i → t_index s' !! x = Some i;
  ex_low : ∀ x, is_Some (t_index s !! x) → t_low s' !! x = t_low s !! x;
  ex_new : ∀ x i, t_index s !! x = None → t_index s' !! x = Some i → t_counter s ≤ i;
  ex_counter : t_counter s ≤ t_counter s';
  ex_sccs : ∃ more, t_sccs s' = t_sccs s ++ more;
}.

(** The outcome of [strongconnect v] from [s]. *)
Record post (v : string) (s s' : tstate) : Prop := {
  po_extends : extends s s';
  po_index : t_index s' !! v = Some (t_counter s);
  po_low : low_of s' v ≤ t_counter s;
  po_witness : (low_of s' v = t_counter s) ∨
    ∃ y, y ∈ t_stack s' ∧ index_of s' y = low_of s' v ∧ reach v y;
  po_segment : ∃ seg, t_stack s' = seg ++ t_stack s ∧
    ∀ x y, x ∈ seg → edge x y → y ∈ t_stack s → low_of s' v ≤ index_of s' y;
}.

(** ** Bookkeeping *)

Lemma index_of_Some s x i : t_index s !! x = Some i → index_of s x = i.
Proof. unfold index_of. by intros ->. Qed.

Lemma extends_refl s : extends s s.
Proof. split; [done|done|congruence|done|by exists []; rewrite app_nil_r]. Qed.

Lemma extends_index_of s s' x : extends s s' → is_Some (t_index s !! x) → index_of s' x = index_of s x.
Proof. intros He [i Hi]. rewrite (index_of_Some s x i Hi). by apply index_of_Some, He. Qed.

Lemma extends_trans s1 s2 s3 : extends s1 s2 → extends s2 s3 → extends s1 s3.
Proof.
  intros [Hi Hl Hn Hc [m1 Hm1]] [Hi' Hl' Hn' Hc' [m2 Hm2]]. split.
  - auto.
  - intros x Hx. rewrite Hl'; [by apply Hl|]. destruct Hx as [i ?]. exists i. auto.
  - intros x i Hx Hxi. destruct (t_index s2 !! x) as [k|] eqn:E.
    + specialize (Hi' _ _ E). simplify_eq. by eapply Hn.
    + specialize (Hn' _ _ E Hxi). lia.
  - lia.
  - exists (m1 ++ m2). by rewrite Hm2, Hm1, app_assoc.
Qed.

Lemma wf_stack_visited gray s x : wf gray s → x ∈ t_stack s → is_Some (t_index s !! x).
Proof. intros Hwf Hx. apply (wf_visited _ _ Hwf), elem_of_app. by left. Qed.

Lemma wf_scc_closed gray s x y : wf gray s → x ∈ mjoin (t_sccs s) → reach x y → y ∈ mjoin (t_sccs s).
Proof.
  intros Hwf Hx Hr. induction Hr as [|x z y Hxz _ IH]; [done|]. apply IH.
  apply list_elem_of_join in Hx as (c & Hc & [i Hi]%list_elem_of_lookup).
  destruct (wf_topo _ _ Hwf i c x z Hi Hc Hxz) as (j & d & _ & Hj & Hz). apply list_elem_of_join. exists d.
  split; [done|]. by eapply list_elem_of_lookup_2.
Qed.

Lemma wf_scc_not_stack gray s x : wf gray s → x ∈ mjoin (t_sccs s) → x ∉ t_stack s.
Proof. intros Hwf Hx Hs. pose proof (wf_nodup _ _ Hwf) as (_ & Hdis & _)%NoDup_app. by apply (Hdis x). Qed.

(** The stack below a vertex has smaller indices, and is what is below it. *)
Lemma wf_below gray s l1 x l2 y : wf gray s → t_stack s = l1 ++ x :: l2 → y ∈ t_stack s →
  y ∈ l2 ↔ index_of s y < index_of s x.
Proof.
  intros Hwf Hst Hy. split; [by eapply wf_sorted|]. intros Hlt. rewrite Hst in Hy.
  apply elem_of_app in Hy as [Hy|[->|Hy]%elem_of_cons]; [|lia|done].
  apply list_elem_of_split in Hy as (k1 & k2 & ->).
  assert (index_of s x < index_of s y); [|lia].
  eapply (wf_sorted _ _ Hwf k1 y (k2 ++ x :: l2)); [by rewrite Hst, <- app_assoc|]. apply elem_of_app. right. by left.
Qed.

Lemma wf_set_low gray s v n : wf gray s → wf gray (set_low s v n).
Proof. by intros []. Qed.

(** ** Entering a vertex *)

Record pre (gray : gset string) (v : string) (s : tstate) : Prop := {
  pre_wf : wf gray s;
  pre_fresh : t_index s !! v = None;
  pre_R : R v;
  pre_gray : ∀ g, g ∈ gray → reach g v;
}.

Lemma pre_not_stack gray v s : pre gray v s → v ∉ t_stack s.
Proof. intros [Hwf Hf _ _] Hv. apply (wf_stack_visited _ _ _ Hwf) in Hv as [? ?]. congruence. Qed.

Lemma enter_index_of v s x : x ≠ v → index_of (enter v s) x = index_of s x.
Proof. intros. unfold index_of, enter. simpl. by rewrite lookup_insert_ne. Qed.

Lemma enter_index_self v s : index_of (enter v s) v = t_counter s.
Proof. unfold index_of, enter. simpl. by rewrite lookup_insert_eq. Qed.

Lemma enter_extends v s : t_index s !! v = None → extends s (enter v s).
Proof.
  intros Hf. split; simpl.
  - intros x i Hx. rewrite lookup_insert_ne; [done|]. congruence.
  - intros x [i Hx]. rewrite lookup_insert_ne; [done|]. congruence.
  - intros x i Hx [[<- <-]|[_ ?]]%lookup_insert_Some; [done|congruence].
  - lia.
  - exists []. by rewrite app_nil_r.
Qed.

Lemma enter_wf gray v s : pre gray v s → wf ({[v]} ∪ gray) (enter v s).
Proof.
  intros Hpre. pose proof (pre_not_stack _ _ _ Hpre) as Hvs. destruct Hpre as [Hwf Hf HR Hg].
  assert (∀ x, x ∈ t_stack s → x ≠ v) as Hne by (by intros x Hx ->).
  assert (∀ x, x ∈ t_stack s → index_of s x < t_counter s) as Hlt.
  { intros x Hx. destruct (wf_stack_visited _ _ _ Hwf Hx) as [i Hi]. rewrite (index_of_Some _ _ _ Hi).
    by eapply wf_counter. }
  split; simpl.
  - constructor; [|by apply Hwf]. intros Hv. apply (wf_visited _ _ Hwf) in Hv as [? ?]. congruence.
  - intros x. rewrite lookup_insert_is_Some, elem_of_cons. rewrite (wf_visited _ _ Hwf x).
    destruct (decide (x = v)); naive_solver.
  - intros x. rewrite lookup_insert_is_Some. intros [<-|[_ Hx]]; [done|]. by apply (wf_R _ _ Hwf).
  - intros x. unfold on_stack. simpl. rewrite elem_of_cons. destruct (decide (x = v)) as [->|Hxv].
    + rewrite lookup_insert_eq. simpl. naive_solver.
    + rewrite lookup_insert_ne by done. rewrite <- (wf_on _ _ Hwf x). unfold on_stack. naive_solver.
  - intros x i [[_ <-]|[_ Hi]]%lookup_insert_Some; [lia|]. apply (wf_counter _ _ Hwf) in Hi. lia.
  - intros [|z l1] x l2 y [= <- Hst] Hy.
    + rewrite <- Hst in Hy. rewrite enter_index_self, enter_index_of by auto. by apply Hlt.
    + assert (x ∈ t_stack s) by (rewrite Hst; apply elem_of_app; right; by left).
      assert (y ∈ t_stack s) by (rewrite Hst; apply elem_of_app; right; by right).
      rewrite !enter_index_of by auto. by eapply wf_sorted.
  - intros g [->%elem_of_singleton|Hgg]%elem_of_union; [by left|right]. by eapply wf_gray.
  - intros x y. rewrite !lookup_insert_is_Some. intros Hx Hxg Hxy.
    assert (x ≠ v ∧ x ∉ gray) as [? ?] by set_solver. destruct (decide (v = y)); [by left|right; split; [done|]].
    eapply (wf_black _ _ Hwf x); [|done|done]. naive_solver.
  - intros x [->|Hx]%elem_of_cons; [exists v; split_and!; [set_solver|done|reflexivity]|].
    destruct (wf_down _ _ Hwf x Hx) as (g & Hgg & Hle & Hr). exists g.
    assert (g ∈ t_stack s) by (by eapply wf_gray). rewrite !enter_index_of by auto. split_and!; [set_solver|done|done].
  - intros g x Hgg Hx Hle.
    destruct (decide (g = v)) as [->|Hgv].
    { apply elem_of_cons in Hx as [->|Hx]; [reflexivity|]. rewrite enter_index_self, enter_index_of in Hle by auto.
      specialize (Hlt x Hx). lia. }
    assert (g ∈ gray) as Hgray by set_solver. apply elem_of_cons in Hx as [->|Hx]; [by apply Hg|].
    rewrite !enter_index_of in Hle by auto. by eapply wf_up.
  - by apply Hwf.
  - by apply Hwf.
Qed.

(** ** The loop over the neighbours *)

(** [n] is what [low[v]] is, or is about to be. *)
Record mid (gray : gset string) (v : string) (s0 : tstate) (done : list string) (s : tstate) (n : nat) : Prop := {
  mi_wf : wf ({[v]} ∪ gray) s;
  mi_extends : extends s0 s;
  mi_index : t_index s !! v = Some (t_counter s0);
  mi_low : n ≤ t_counter s0;
  mi_witness : ∃ y, y ∈ t_stack s ∧ index_of s y = n ∧ reach v y;
  mi_segment : ∃ seg, t_stack s = seg ++ v :: t_stack s0 ∧
    ∀ x y, x ∈ seg → edge x y → y ∈ t_stack s0 → n ≤ index_of s y;
  mi_done : ∀ w, w ∈ done → is_Some (t_index s !! w) ∧ (w ∈ t_stack s0 → n ≤ index_of s w);
}.

Lemma enter_mid gray v s : pre gray v s → mid gray v s [] (enter v s) (low_of (enter v s) v).
Proof.
  intros Hpre.
  assert (low_of (enter v s) v = t_counter s) as -> by (unfold low_of, enter; simpl; by rewrite lookup_insert_eq).
  split.
  - by apply enter_wf.
  - by apply enter_extends, Hpre.
  - apply lookup_insert_eq.
  - done.
  - exists v. rewrite enter_index_self. split_and!; [by left|done|reflexivity].
  - exists []. split; [done|set_solver].
  - set_solver.
Qed.

Lemma low_set_low s v n : low_of (set_low s v n) v = n.
Proof. unfold low_of, set_low. simpl. by rewrite lookup_insert_eq. Qed.

Lemma mid_set_low gray v s0 done s n k :
  mid gray v s0 done s n → t_index s0 !! v = None → mid gray v s0 done (set_low s v k) n.
Proof.
  intros [Hwf Hext Hi Hl Hwit Hseg Hdone] Hf. split; [by apply wf_set_low| |done..].
  destruct Hext as [? Hlow ? ? ?]. split; [done| |done..]. intros x Hx. simpl. rewrite lookup_insert_ne; [by apply Hlow|].
  intros <-. rewrite Hf in Hx. by destruct Hx.
Qed.

(** Lowering to an index on the stack that [v] reaches. *)
Lemma mid_lower gray v s0 done s n n' :
  mid gray v s0 done s n → n' ≤ n → (∃ y, y ∈ t_stack s ∧ index_of s y = n' ∧ reach v y) →
  mid gray v s0 done s n'.
Proof.
  intros [Hwf Hext Hi Hl _ (seg & Hst & Hseg) Hdone] Hn Hy. split; [done..|lia|done| |].
  - exists seg. split; [done|]. intros x y Hx Hxy Hy0. specialize (Hseg x y Hx Hxy Hy0). lia.
  - intros w Hw. destruct (Hdone w Hw) as [? Hw0]. split; [done|]. intros Hin. specialize (Hw0 Hin). lia.
Qed.

Lemma mid_snoc gray v s0 done s n w :
  mid gray v s0 done s n → is_Some (t_index s !! w) → (w ∈ t_stack s0 → n ≤ index_of s w) →
  mid gray v s0 (done ++ [w]) s n.
Proof.
  intros [] ? ?. split; [done..|]. intros x [Hx| ->%list_elem_of_singleton]%elem_of_app; auto.
Qed.

(** The child [w] has returned with a low value at least [n]. *)
Lemma mid_child gray v s0 done s n w s1 :
  mid gray v s0 done s n → wf ({[v]} ∪ gray) s1 → post w s s1 → n ≤ low_of s1 w → mid gray v s0 (done ++ [w]) s1 n.
Proof.
  intros [Hwf Hext Hi Hl (y & Hy & Hyn & Hvy) (seg & Hst & Hseg) Hdone] Hwf1 [Hext1 Hiw _ _ (segw & Hstw & Hsegw)] Hn.
  assert (∀ x, x ∈ t_stack s → index_of s1 x = index_of s x) as Hidx.
  { intros x Hx. apply extends_index_of; [done|]. by eapply wf_stack_visited. }
  assert (∀ x, x ∈ t_stack s0 → x ∈ t_stack s) as Hin.
  { intros x Hx. rewrite Hst. apply elem_of_app. right. by right. }
  split; [done|by eapply extends_trans|by apply Hext1|done| | |].
  - exists y. rewrite Hidx by done. split_and!; [|done|done]. rewrite Hstw. apply elem_of_app. by right.
  - exists (segw ++ seg). split; [by rewrite Hstw, Hst, app_assoc|].
    intros x z [Hx|Hx]%elem_of_app Hxz Hz0.
    + specialize (Hsegw x z Hx Hxz (Hin z Hz0)). lia.
    + rewrite Hidx by auto. eauto.
  - intros x [Hx| ->%list_elem_of_singleton]%elem_of_app.
    + destruct (Hdone x Hx) as [[i Hxi] Hx0]. split; [exists i; by apply Hext1|]. intros Hs. rewrite Hidx by auto. auto.
    + split; [by eexists|]. intros Hw0. apply Hin in Hw0. apply (wf_stack_visited _ _ _ Hwf) in Hw0 as [i Hwi].
      apply Hext1 in Hwi as Hwi1. rewrite (index_of_Some _ _ _ Hiw). simplify_eq.
      apply (wf_counter _ _ Hwf) in Hwi. lia.
Qed.

Lemma visitSucc_ok rec gray v s0 done s w :
  mid gray v s0 done s (low_of s v) → t_index s0 !! v = None → edge v w →
  (t_index s !! w = None → ∃ s1, rec w s = Some s1 ∧ wf ({[v]} ∪ gray) s1 ∧ post w s s1) →
  ∃ s', visitSucc rec v w s = Some s' ∧ mid gray v s0 (done ++ [w]) s' (low_of s' v).
Proof.
  intros Hmid Hf Hvw Hrec. unfold visitSucc. destruct (t_index s !! w) as [i|] eqn:Hw.
  - pose proof (index_of_Some _ _ _ Hw) as Hwi. eexists. split; [done|].
    pose proof (wf_on _ _ (mi_wf _ _ _ _ _ _ Hmid) w) as Hon.
    assert (w ∈ t_stack s0 → w ∈ t_stack s) as Hin.
    { destruct (mi_segment _ _ _ _ _ _ Hmid) as (seg & -> & _). intros ?. apply elem_of_app. right. by right. }
    destruct (on_stack s w && bool_decide (i < low_of s v)) eqn:E; bool_prop.
    + rewrite low_set_low. apply mid_set_low; [|done]. apply mid_snoc; [|by eexists|intros; lia].
      eapply mid_lower; [done|lia|]. exists w. split_and!; [by apply Hon|done|]. by apply rtc_once.
    + apply mid_snoc; [done|by eexists|]. intros Hw0. destruct (on_stack s w); [|by apply Hin, Hon in Hw0].
      simpl in E. bool_prop. lia.
  - destruct (Hrec eq_refl) as (s1 & -> & Hwf1 & Hpost). simpl. eexists. split; [done|].
    assert (is_Some (t_index s !! v)) as Hv by (eexists; apply (mi_index _ _ _ _ _ _ Hmid)).
    assert (low_of s1 v = low_of s v) as Hlv by (unfold low_of; by rewrite (ex_low _ _ (po_extends _ _ _ Hpost) v Hv)).
    rewrite Hlv. case_decide as Hlt; [|rewrite Hlv; apply mid_child with s; [done|done|done|lia]].
    rewrite low_set_low. apply mid_set_low; [|done].
    apply mid_child with s; [|done|done|done]. eapply mid_lower; [exact Hmid|lia|].
    assert (t_counter s0 < t_counter s) as Hcnt.
    { eapply (wf_counter _ _ (mi_wf _ _ _ _ _ _ Hmid) v), (mi_index _ _ _ _ _ _ Hmid). }
    pose proof (mi_low _ _ _ _ _ _ Hmid). destruct (po_witness _ _ _ Hpost) as [?|(y & Hy & Hyn & Hwy)]; [lia|].
    (* The witness is below [w], hence was on the stack before. *)
    assert (y ∈ t_stack s ∧ is_Some (t_index s !! y)) as [Hys Hyv].
    { destruct (wf_stack_visited _ _ _ Hwf1 Hy) as [i Hi]. pose proof (index_of_Some _ _ _ Hi).
      destruct (t_index s !! y) as [k|] eqn:E.
      - split; [|by eexists]. assert (is_Some (t_index s !! y)) as Hs by (by eexists).
        apply (wf_visited _ _ (mi_wf _ _ _ _ _ _ Hmid)), elem_of_app in Hs as [?|Hs]; [done|].
        destruct (wf_scc_not_stack _ _ y Hwf1); [|done]. destruct (ex_sccs _ _ (po_extends _ _ _ Hpost)) as [more ->].
        apply list_elem_of_join in Hs as (c & ? & ?). apply list_elem_of_join. exists c. split; [done|].
        apply elem_of_app. by left.
      - pose proof (ex_new _ _ (po_extends _ _ _ Hpost) _ _ E Hi). lia. }
    exists y. rewrite <- (extends_index_of _ _ _ (po_extends _ _ _ Hpost) Hyv). split_and!; [done|done|].
    eapply rtc_l; [exact Hvw|done].
Qed.

(** ** Leaving a vertex *)

Definition clearAll (on : gmap string bool) (ws : list string) : gmap string bool :=
  foldl (λ on w, <[w := false]> on) on ws.

Lemma popUntil_spec v seg rest : v ∉ seg → ∀ on mem,
  popUntil v (seg ++ v :: rest) on mem = Some (rest, clearAll on (seg ++ [v]), mem ++ seg ++ [v]).
Proof.
  induction seg as [|w seg IH]; intros Hv on mem; simpl; [by rewrite decide_True|].
  rewrite decide_False by set_solver. rewrite IH by set_solver. by rewrite <- app_assoc.
Qed.

Lemma clearAll_lookup ws : ∀ on x,
  clearAll on ws !! x = if decide (x ∈ ws) then Some false else on !! x.
Proof.
  induction ws as [|w ws IH]; intros on x; [done|]. unfold clearAll in *. simpl. rewrite IH.
  destruct (decide (x ∈ ws)); [by rewrite decide_True by (by right)|]. destruct (decide (x = w)) as [->|].
  - rewrite lookup_insert_eq, decide_True by (by left). done.
  - rewrite lookup_insert_ne by done. rewrite decide_False; [done|]. set_solver.
Qed.

(** Dropping [v] from the active vertices, once its neighbours are visited and
    the vertices left on the stack reach an older active one. *)
Lemma wf_black_done gray v s0 s n x y :
  mid gray v s0 (succs v) s n → is_Some (t_index s !! x) → x ∉ gray → edge x y → is_Some (t_index s !! y).
Proof.
  intros Hmid Hx Hg Hxy. destruct (decide (x = v)) as [->|].
  - by apply (mi_done _ _ _ _ _ _ Hmid).
  - eapply (wf_black _ _ (mi_wf _ _ _ _ _ _ Hmid)); [done|set_solver|done].
Qed.

Section leave.
Context (gray : gset string) (v : string) (s0 s : tstate) (seg : list string).
Hypothesis Hpre : pre gray v s0.
Hypothesis Hmid : mid gray v s0 (succs v) s (low_of s v).
Hypothesis Hst : t_stack s = seg ++ v :: t_stack s0.
Hypothesis Hlow : ∀ x y, x ∈ seg → edge x y → y ∈ t_stack s0 → low_of s v ≤ index_of s y.

Lemma leave_wf : wf ({[v]} ∪ gray) s.
Proof. by apply Hmid. Qed.

Lemma leave_index : index_of s v = t_counter s0.
Proof. apply index_of_Some, (mi_index _ _ _ _ _ _ Hmid). Qed.

Lemma leave_on_stack x : x ∈ t_stack s ↔ x ∈ seg ++ [v] ∨ x ∈ t_stack s0.
Proof. rewrite Hst. set_solver. Qed.

Lemma leave_disjoint x : x ∈ seg ++ [v] → x ∉ t_stack s0.
Proof.
  intros Hx Hx0. pose proof (wf_nodup _ _ leave_wf) as (Hnd & _)%NoDup_app.
  rewrite Hst in Hnd. replace (seg ++ v :: t_stack s0) with ((seg ++ [v]) ++ t_stack s0) in Hnd by (by rewrite <- app_assoc).
  apply NoDup_app in Hnd as (_ & Hdis & _). by apply (Hdis x).
Qed.

Lemma leave_v_not_seg : v ∉ seg.
Proof.
  pose proof (wf_nodup _ _ leave_wf) as (Hnd & _)%NoDup_app. rewrite Hst in Hnd.
  apply NoDup_app in Hnd as (_ & Hdis & _). intros Hv. apply (Hdis v Hv). by left.
Qed.

Lemma leave_below x : x ∈ t_stack s0 → index_of s x < index_of s v.
Proof. intros Hx. by apply (wf_sorted _ _ leave_wf seg v (t_stack s0)). Qed.

Lemma leave_above x : x ∈ seg ++ [v] → index_of s v ≤ index_of s x.
Proof.
  intros [(k1 & k2 & Hk)%list_elem_of_split| ->%list_elem_of_singleton]%elem_of_app; [|done].
  apply Nat.lt_le_incl, (wf_sorted _ _ leave_wf k1 x (k2 ++ v :: t_stack s0)).
  - by rewrite Hst, Hk, <- app_assoc.
  - apply elem_of_app. right. by left.
Qed.

Lemma leave_gray g : g ∈ gray → g ∈ t_stack s0.
Proof. apply (wf_gray _ _ (pre_wf _ _ _ Hpre)). Qed.

Lemma leave_low x y : x ∈ seg ++ [v] → edge x y → y ∈ t_stack s0 → low_of s v ≤ index_of s y.
Proof.
  intros [Hx| ->%list_elem_of_singleton]%elem_of_app Hxy Hy; [by eapply Hlow|].
  by apply (mi_done _ _ _ _ _ _ Hmid).
Qed.

(** [v] reaches an older vertex: it stays on the stack. *)
Lemma leave_open : low_of s v ≠ index_of s v → wf gray s ∧ post v s0 s.
Proof.
  intros Hne. pose proof leave_wf as Hwf. pose proof (mi_low _ _ _ _ _ _ Hmid) as Hle. pose proof leave_index as Hi.
  pose proof (mi_witness _ _ _ _ _ _ Hmid) as (y & Hy & Hyn & Hvy).
  split; [split; try apply Hwf|split].
  - intros g Hg. rewrite leave_on_stack. right. by apply leave_gray.
  - intros x z. by eapply wf_black_done.
  - intros x Hx. destruct (wf_down _ _ Hwf x Hx) as (g & Hg & Hgx & Hr).
    destruct (decide (g = v)) as [->|]; [|exists g; set_solver].
    destruct (wf_down _ _ Hwf y Hy) as (g' & Hg' & Hgy & Hr'). exists g'.
    assert (g' ≠ v) by (intros ->; lia). split_and!; [set_solver|lia|]. etrans; [exact Hr|]. by etrans.
  - intros g x Hg. apply (wf_up _ _ Hwf). set_solver.
  - apply Hmid.
  - by rewrite (mi_index _ _ _ _ _ _ Hmid).
  - done.
  - right. eauto.
  - exists (seg ++ [v]). split; [by rewrite Hst, <- app_assoc|]. apply leave_low.
Qed.

(** [v] is the oldest vertex it reaches: the segment above it is its class. *)
Hypothesis Heq : low_of s v = index_of s v.

Lemma leave_edge x y : x ∈ seg ++ [v] → edge x y → y ∈ seg ++ [v] ∨ y ∈ mjoin (t_sccs s).
Proof.
  intros Hx Hxy. assert (x ∈ t_stack s) as Hxs by (apply leave_on_stack; by left).
  assert (is_Some (t_index s !! y)) as Hy.
  { eapply wf_black_done; [exact Hmid|by eapply wf_stack_visited, Hxs; apply leave_wf| |done].
    intros Hg. by apply (leave_disjoint x Hx), leave_gray. }
  apply (wf_visited _ _ leave_wf), elem_of_app in Hy as [Hy|Hy]; [|by right]. left.
  apply leave_on_stack in Hy as [?|Hy]; [done|]. pose proof (leave_low x y Hx Hxy Hy). pose proof (leave_below y Hy). lia.
Qed.

Lemma leave_reach x y : x ∈ seg ++ [v] → reach x y → y ∈ seg ++ [v] ∨ y ∈ mjoin (t_sccs s).
Proof.
  intros Hx Hr. induction Hr as [|x z y Hxz Hr IH]; [by left|].
  destruct (leave_edge x z Hx Hxz) as [?|?]; [by apply IH|]. right. by eapply wf_scc_closed; [apply leave_wf|..].
Qed.

Lemma leave_not_emitted x : x ∈ t_stack s → x ∉ mjoin (t_sccs s).
Proof. intros Hx He. by eapply wf_scc_not_stack; [apply leave_wf|..]. Qed.

Lemma leave_class y : y ∈ seg ++ [v] ↔ mutual v y.
Proof.
  assert (v ∈ seg ++ [v]) as Hv by (apply elem_of_app; right; by left).
  split.
  - intros Hy. assert (y ∈ t_stack s) as Hys by (apply leave_on_stack; by left). split.
    + apply (wf_up _ _ leave_wf); [set_solver|done|by apply leave_above].
    + destruct (wf_down _ _ leave_wf y Hys) as (g & [->%elem_of_singleton|Hg]%elem_of_union & _ & Hr); [done|].
      apply leave_gray in Hg. destruct (leave_reach y g Hy Hr) as [Hin|Hin].
      * by apply leave_disjoint in Hin.
      * apply leave_not_emitted in Hin; [done|]. apply leave_on_stack. by right.
  - intros [Hvy Hyv]. destruct (leave_reach v y Hv Hvy) as [?|Hy]; [done|].
    eapply wf_scc_closed in Hyv; [|apply leave_wf|done]. apply leave_not_emitted in Hyv; [done|].
    apply leave_on_stack. by left.
Qed.

Definition leave_state : tstate :=
  mkT (t_index s) (t_low s) (clearAll (t_onStack s) (seg ++ [v])) (t_stack s0) (t_counter s)
    (t_sccs s ++ [sort_strings (seg ++ [v])]).

Lemma leave_close : close v s = Some leave_state.
Proof. unfold close. rewrite decide_True by done. rewrite Hst. by rewrite popUntil_spec by apply leave_v_not_seg. Qed.

Lemma leave_perm : t_stack leave_state ++ mjoin (t_sccs leave_state) ≡ₚ t_stack s ++ mjoin (t_sccs s).
Proof.
  simpl. rewrite list.join_app. simpl. rewrite app_nil_r, sort_strings_perm, Hst. solve_Permutation.
Qed.

Lemma leave_done : wf gray leave_state ∧ post v s0 leave_state.
Proof.
  pose proof leave_wf as Hwf. pose proof leave_perm as Hperm.
  assert (∀ x, index_of leave_state x = index_of s x) as Hidx by done.
  split; [split|split].
  - rewrite Hperm. apply Hwf.
  - intros x. rewrite Hperm. apply Hwf.
  - apply Hwf.
  - intros x. unfold on_stack. simpl. rewrite clearAll_lookup. case_decide as Hx; simpl.
    + split; [done|]. intros Hx0. by apply leave_disjoint in Hx0.
    + change (on_stack s x = true ↔ x ∈ t_stack s0). rewrite (wf_on _ _ Hwf), leave_on_stack. tauto.
  - apply Hwf.
  - intros l1 x l2 y Hs Hy. rewrite !Hidx. simpl in Hs.
    apply (wf_sorted _ _ Hwf ((seg ++ [v]) ++ l1) x l2); [|done]. by rewrite Hst, Hs, <- !app_assoc.
  - intros g Hg. by apply leave_gray.
  - intros x y. apply (wf_black_done _ _ _ _ _ x y Hmid).
  - simpl. intros x Hx. destruct (wf_down _ _ Hwf x) as (g & Hg & Hgx & Hr); [apply leave_on_stack; by right|].
    exists g. split_and!; [|done|done]. assert (g ≠ v); [|set_solver]. intros ->. pose proof (leave_below x Hx). lia.
  - simpl. intros g x Hg Hx. rewrite !Hidx. apply (wf_up _ _ Hwf); [set_solver|]. apply leave_on_stack. by right.
  - simpl. intros c [Hc| ->%list_elem_of_singleton]%elem_of_app; [by apply (wf_sccs _ _ Hwf)|].
    exists v. split; [rewrite sort_strings_perm; apply elem_of_app; right; by left|]. intros y. rewrite sort_strings_perm. apply leave_class.
  - simpl. intros i c x y Hi Hx Hxy. apply lookup_app_Some in Hi as [Hi|[Hlen Hi]].
    + destruct (wf_topo _ _ Hwf i c x y Hi Hx Hxy) as (j & d & ? & Hj & ?). exists j, d. split_and!; [done| |done].
      by apply lookup_app_l_Some.
    + apply list_lookup_singleton_Some in Hi as [H0 <-]. rewrite sort_strings_perm in Hx.
      destruct (leave_edge x y Hx Hxy) as [Hy|(d & Hd & [j Hj]%list_elem_of_lookup)%list_elem_of_join].
      * exists i, (sort_strings (seg ++ [v])). split_and!; [done| |by rewrite sort_strings_perm].
        rewrite lookup_app_r by done. by rewrite H0.
      * pose proof (lookup_lt_Some _ _ _ Hj). exists j, d. split_and!; [lia|by apply lookup_app_l_Some|done].
  - destruct (mi_extends _ _ _ _ _ _ Hmid) as [? ? ? ? [more Hmore]]. split; [done..|]. simpl. rewrite Hmore.
    eexists. by rewrite <- app_assoc.
  - apply (mi_index _ _ _ _ _ _ Hmid).
  - apply (mi_low _ _ _ _ _ _ Hmid).
  - left. by rewrite <- leave_index, <- Heq.
  - exists []. split; [done|set_solver].
Qed.
End leave.

Lemma close_ok gray v s0 s :
  pre gray v s0 → mid gray v s0 (succs v) s (low_of s v) → ∃ s', close v s = Some s' ∧ wf gray s' ∧ post v s0 s'.
Proof.
  intros Hpre Hmid. destruct (mi_segment _ _ _ _ _ _ Hmid) as (seg & Hst & Hlow).
  destruct (decide (low_of s v = index_of s v)) as [Heq|Hne].
  - exists (leave_state v s0 s seg). split; [by eapply leave_close|by eapply leave_done].
  - exists s. split; [unfold close; by rewrite decide_False|by eapply leave_open].
Qed.

(** ** The recursion *)

(** Vertices of [N] not yet entered: what bounds the depth. *)
Definition unvisited (s : tstate) : nat := size (N ∖ dom (t_index s)).

Lemma extends_unvisited s s' : extends s s' → unvisited s' ≤ unvisited s.
Proof.
  intros He. unfold unvisited. apply subseteq_size. intros x [Hx Hn]%elem_of_difference. apply elem_of_difference. split; [done|].
  intros [i Hi]%elem_of_dom. apply Hn, elem_of_dom. exists i. by apply He.
Qed.

Lemma enter_unvisited gray v s : pre gray v s → unvisited (enter v s) < unvisited s.
Proof.
  intros [_ Hf HR _]. unfold unvisited. apply subset_size. split.
  - intros x [Hx Hn]%elem_of_difference. apply elem_of_difference. split; [done|].
    intros [i Hi]%elem_of_dom. apply Hn, elem_of_dom. eexists. by apply (ex_index _ _ (enter_extends v s Hf)).
  - intros Hsub. assert (v ∈ N ∖ dom (t_index s)) as Hv.
    { apply elem_of_difference. split; [by apply R_finite|]. rewrite elem_of_dom, Hf. by intros [? ?]. }
    apply Hsub, elem_of_difference in Hv as [_ []]. apply elem_of_dom. eexists. apply lookup_insert_eq.
Qed.

(** What [strongconnect] does with [fuel] for the vertices left. *)
Definition rec_ok (rec : string → tstate → option tstate) (fuel : nat) : Prop :=
  ∀ gray w s, pre gray w s → unvisited s ≤ fuel → ∃ s', rec w s = Some s' ∧ wf gray s' ∧ post w s s'.

Lemma mid_pre gray v s0 done s n w :
  mid gray v s0 done s n → R v → (∀ g, g ∈ gray → reach g v) → edge v w → t_index s !! w = None →
  pre ({[v]} ∪ gray) w s.
Proof.
  intros Hmid HR Hg Hvw Hw. split; [apply Hmid|done|by eapply R_closed|].
  intros g [->%elem_of_singleton|Hgg]%elem_of_union; [by apply rtc_once|].
  eapply rtc_r; [by apply Hg|done].
Qed.

Lemma expand_ok rec fuel gray v s0 ws : rec_ok rec fuel → pre gray v s0 → ∀ done s,
  mid gray v s0 done s (low_of s v) → unvisited s ≤ fuel → (∀ w, w ∈ ws → edge v w) →
  ∃ s', expand rec v ws s = Some s' ∧ mid gray v s0 (done ++ ws) s' (low_of s' v).
Proof.
  intros Hrec Hpre. induction ws as [|w ws IH]; intros done s Hmid Hfuel Hws; simpl.
  { exists s. by rewrite app_nil_r. }
  destruct (visitSucc_ok rec gray v s0 done s w Hmid (pre_fresh _ _ _ Hpre)) as (s1 & Hv & Hmid1).
  - apply Hws. by left.
  - intros Hw. apply Hrec; [|done]. eapply mid_pre; [exact Hmid|apply (pre_R _ _ _ Hpre)|apply (pre_gray _ _ _ Hpre)|apply Hws; by left|done].
  - rewrite Hv. simpl. destruct (IH (done ++ [w]) s1 Hmid1) as (s2 & He & Hmid2).
    + etrans; [|exact Hfuel]. revert Hv. unfold visitSucc. destruct (t_index s !! w) as [i|] eqn:Hw.
      * intros [= <-]. by destruct (_ && _).
      * destruct (Hrec ({[v]} ∪ gray) w s) as (s' & Hr & _ & Hpost);
          [eapply mid_pre; [exact Hmid|apply (pre_R _ _ _ Hpre)|apply (pre_gray _ _ _ Hpre)|apply Hws; by left|done]|done|].
        rewrite Hr. intros [= <-]. pose proof (extends_unvisited _ _ (po_extends _ _ _ Hpost)). by case_decide.
    + intros x Hx. apply Hws. by right.
    + exists s2. split; [done|]. by rewrite <- app_assoc in Hmid2.
Qed.

Lemma strongconnect_ok fuel : rec_ok (strongconnect fuel) fuel.
Proof.
  induction fuel as [|fuel IH]; intros gray v s Hpre Hfuel; pose proof (enter_unvisited _ _ _ Hpre) as Hlt; [lia|].
  simpl. destruct (expand_ok (strongconnect fuel) fuel gray v s (succs v) IH Hpre [] (enter v s)) as (s1 & -> & Hmid).
  - by apply enter_mid.
  - lia.
  - done.
  - by apply close_ok.
Qed.

Lemma wf_no_gray s : wf ∅ s → t_stack s = [].
Proof using Type.
  clear R_closed R_finite N.
  intros Hwf. destruct (t_stack s) as [|x st] eqn:E; [done|]. destruct (wf_down _ _ Hwf x) as (g & Hg & _).
  - rewrite E. by left.
  - set_solver.
Qed.

Lemma visitAll_ok fuel vertices : (∀ v, v ∈ vertices → R v) → ∀ s, wf ∅ s → unvisited s ≤ fuel →
  ∃ s', visitAll fuel vertices s = Some s' ∧ wf ∅ s' ∧ extends s s' ∧ ∀ v, v ∈ vertices → is_Some (t_index s' !! v).
Proof.
  induction vertices as [|v vs IH]; intros HR s Hwf Hfuel; simpl.
  { exists s. split_and!; [done|done|apply extends_refl|set_solver]. }
  assert (∀ x, x ∈ vs → R x) as HRs by (intros x Hx; apply HR; by right).
  destruct (t_index s !! v) as [i|] eqn:Hv.
  - destruct (IH HRs s Hwf Hfuel) as (s' & He & Hwf' & Hext & Hall). exists s'. split_and!; [done..|].
    intros x [->|Hx]%elem_of_cons; [|by apply Hall]. eexists. by apply Hext.
  - destruct (strongconnect_ok fuel ∅ v s) as (s1 & -> & Hwf1 & Hpost); [|done|].
    { split; [done|done|apply HR; by left|set_solver]. }
    pose proof (extends_unvisited _ _ (po_extends _ _ _ Hpost)).
    destruct (IH HRs s1 Hwf1 ltac:(lia)) as (s' & He & Hwf' & Hext & Hall). exists s'. simpl. split_and!; [done..| |].
    + eapply extends_trans; [apply Hpost|done].
    + intros x [->|Hx]%elem_of_cons; [|by apply Hall]. eexists. apply Hext, (po_index _ _ _ Hpost).
Qed.

Lemma wf_init : wf ∅ (mkT ∅ ∅ ∅ [] 0 []).
Proof using Type.
  clear R_closed R_finite N.
  split; simpl.
  - constructor.
  - intros x. rewrite lookup_empty. split; [by intros [? ?]|set_solver].
  - intros x. rewrite lookup_empty. by intros [? ?].
  - intros x. unfold on_stack. simpl. rewrite lookup_empty. split; [done|set_solver].
  - intros x i. by rewrite lookup_empty.
  - intros l1 x l2 y Hl. by destruct l1.
  - set_solver.
  - intros x y. rewrite lookup_empty. by intros [? ?].
  - set_solver.
  - set_solver.
  - set_solver.
  - done.
Qed.
End tarjan.

(** The vertices that matter are those the starting ones reach. *)
Definition reachable (adj : gmap string (list string)) (vertices : list string) (x : string) : Prop :=
  ∃ v, v ∈ vertices ∧ rtc (edge adj) v x.

Lemma list_to_set_size (l : list string) : size (list_to_set l : gset string) ≤ length l.
Proof.
  induction l as [|x l IH]; [done|]. simpl. rewrite size_union_alt, size_singleton.
  assert (size ((list_to_set l : gset string) ∖ {[x]}) ≤ size (list_to_set l : gset string)) by (apply subseteq_size; set_solver).
  lia.
Qed.

Lemma edge_nodes adj vertices x y : edge adj x y → y ∈ nodes adj vertices.
Proof.
  unfold edge, succs. destruct (adj !! x) as [ys|] eqn:E; [|set_solver]. simpl. intros Hy. apply elem_of_app. right.
  apply list_elem_of_bind. exists (x, ys). split; [done|]. by apply elem_of_map_to_list.
Qed.

Lemma reachable_nodes adj vertices x : reachable adj vertices x → x ∈ nodes adj vertices.
Proof.
  intros (v & Hv & Hr). destruct (rtc_inv_r _ _ Hr) as [<-|(z & _ & Hzx)].
  - apply elem_of_app. by left.
  - by eapply edge_nodes.
Qed.

(** What [tarjanSCC] promises its callers. *)
Record sccs_of (adj : gmap string (list string)) (vertices : list string) (sccs : list (list string)) : Prop := {
  so_nodup : NoDup (mjoin sccs);
  so_cover : ∀ x, x ∈ mjoin sccs ↔ reachable adj vertices x;
  so_scc : ∀ c, c ∈ sccs → is_scc adj c;
  so_topo : ∀ i c x y, sccs !! i = Some c → x ∈ c → edge adj x y → ∃ j d, j ≤ i ∧ sccs !! j = Some d ∧ y ∈ d;
}.

Lemma tarjanSCC_ok adj vertices : ∃ sccs, tarjanSCC adj vertices = Some sccs ∧ sccs_of adj vertices sccs.
Proof.
  set (R := reachable adj vertices). set (N := list_to_set (nodes adj vertices) : gset string).
  assert (∀ x y, R x → edge adj x y → R y) as HRc.
  { intros x y (v & Hv & Hr) Hxy. exists v. split; [done|]. by eapply rtc_r. }
  assert (∀ x, R x → x ∈ N) as HRf by (intros x Hx; by apply elem_of_list_to_set, reachable_nodes).
  assert (∀ v, v ∈ vertices → R v) as HR by (intros v Hv; by exists v).
  destruct (visitAll_ok adj R N HRc HRf (S (length (nodes adj vertices))) vertices HR (mkT ∅ ∅ ∅ [] 0 []))
    as (s & Hs & Hwf & _ & Hall); [apply wf_init| |].
  { unfold unvisited. etrans; [apply subseteq_size, subseteq_difference_l; done|].
    unfold N. etrans; [apply list_to_set_size|]. lia. }
  exists (t_sccs s). unfold tarjanSCC. rewrite Hs. split; [done|].
  pose proof (wf_no_gray adj R s Hwf) as Hst. pose proof (wf_visited _ _ _ _ Hwf) as Hvis.
  pose proof (wf_nodup _ _ _ _ Hwf) as Hnd. rewrite Hst in Hnd, Hvis. simpl in Hnd, Hvis.
  split; [done| |apply Hwf|apply Hwf].
  intros x. rewrite <- Hvis. split; [apply Hwf|]. intros (v & Hv & Hr). specialize (Hall v Hv).
  clear Hv. induction Hr as [|x z y Hxz Hr IH]; [done|]. apply IH. eapply (wf_black _ _ _ _ Hwf); [done|set_solver|done].
Qed.

(** C27: the recursion ends, never pops an empty stack, and returns the strongly
    connected components of everything the given vertices reach: every such
    vertex is in exactly one list, every list is one whole class of mutual
    reachability, and a component comes after every component it points to. *)
Theorem tarjanSCC_components adj vertices : ∃ sccs, tarjanSCC adj vertices = Some sccs ∧
  NoDup (mjoin sccs) ∧ (∀ x, x ∈ mjoin sccs ↔ ∃ v, v ∈ vertices ∧ rtc (edge adj) v x) ∧
  (∀ c, c ∈ sccs → ∃ x, x ∈ c ∧ ∀ y, y ∈ c ↔ rtc (edge adj) x y ∧ rtc (edge adj) y x) ∧
  ∀ i c x y, sccs !! i = Some c → x ∈ c → edge adj x y → ∃ j d, j ≤ i ∧ sccs !! j = Some d ∧ y ∈ d.
Proof.
  destruct (tarjanSCC_ok adj vertices) as (sccs & Hs & Hso). exists sccs. split; [done|].
  split_and!; [apply Hso|apply Hso|apply Hso|apply Hso].
Qed.
