(* ===== verification/Layering.v ===== *)
(** * Layering the package digraph ([internal/codegraph/layering.go], [layerPackages])

    Condensation by [tarjanSCC], longest-path layers relaxed over the emission
    order, the cmd pin, and the two kinds of violation.  [None] is an index out
    of range, which does not happen when every edge starts at a package. *)
From S2P Require Import Prelude GoStrings GoPaths CodeGraph Tarjan.
Local Open Scope string_scope.
Local Open Scope list_scope.
Local Open Scope nat_scope.

Definition cmdDirName : string := "cmd".

Definition topSegment (p : string) : string :=
  match IndexByte p slash with
  | Some i => str_take i p
  | None => p
  end.

(** [adj[e.From] = append(adj[e.From], e.To)] over the edges. *)
Definition adjacency (edges : list Edge) : gmap string (list string) :=
  foldl (λ adj e, <[From e := default [] (adj !! From e) ++ [To e]]> adj) ∅ edges.

(** [for i, members := range sccs { for _, m := range members { f[m] = val(i) } }]. *)
Fixpoint number_members (val : nat → nat) (i : nat) (sccs : list (list string)) (f : gmap string nat) : gmap string nat :=
  match sccs with
  | [] => f
  | members :: sccs => number_members val (S i) sccs (foldl (λ f m, <[m := val i]> f) f members)
  end.

(** A missing key reads as 0. *)
Definition get0 (f : gmap string nat) (k : string) : nat := default 0 (f !! k).

Definition cycleViolation (sccs : list (list string)) (sccOf : gmap string nat) (e : Edge) : option (list Violation) :=
  if decide (get0 sccOf (From e) = get0 sccOf (To e)) then
    c ← sccs !! get0 sccOf (From e);
    Some (if decide (1 < length c) then [mkViolation ViolationCycle (From e) (To e)] else [])
  else Some [].

Definition wrongWayViolation (layerSCC : list nat) (sccOf : gmap string nat) (e : Edge) : option (list Violation) :=
  let from := get0 sccOf (From e) in
  let to := get0 sccOf (To e) in
  if decide (from ≠ to) then
    lto ← layerSCC !! to;
    lfrom ← layerSCC !! from;
    Some (if decide (lto ≤ lfrom) then [mkViolation ViolationWrongWay (From e) (To e)] else [])
  else Some [].

(** The violations of a loop over the edges, appended in order. *)
Definition collectViolations (f : Edge → option (list Violation)) (edges : list Edge) : option (list Violation) :=
  mjoin <$> mapM f edges.

Definition condense (sccOf : gmap string nat) (edges : list Edge) : gmap nat (gset nat) :=
  foldl (λ condensed e,
    let from := get0 sccOf (From e) in
    let to := get0 sccOf (To e) in
    if decide (from = to) then condensed else <[from := {[to]} ∪ default ∅ (condensed !! from)]> condensed) ∅ edges.

(** [slices.Sorted(maps.Keys(condensed[i]))]. *)
Definition sortedSuccs (condensed : gmap nat (gset nat)) (i : nat) : list nat :=
  merge_sort le (elements (default ∅ (condensed !! i))).

Definition relaxEdge (i succ : nat) (layerSCC : list nat) : option (list nat) :=
  li ← layerSCC !! i;
  ls ← layerSCC !! succ;
  Some (if decide (ls < li + 1) then <[succ := li + 1]> layerSCC else layerSCC).

Fixpoint relaxSuccs (i : nat) (succs : list nat) (layerSCC : list nat) : option (list nat) :=
  match succs with
  | [] => Some layerSCC
  | succ :: succs => layerSCC ← relaxEdge i succ layerSCC; relaxSuccs i succs layerSCC
  end.

(** [for i := n - 1; i >= 0; i--]. *)
Fixpoint relaxFrom (condensed : gmap nat (gset nat)) (n : nat) (layerSCC : list nat) : option (list nat) :=
  match n with
  | O => Some layerSCC
  | S i => layerSCC ← relaxSuccs i (sortedSuccs condensed i) layerSCC; relaxFrom condensed i layerSCC
  end.

Definition isPinned (members : list string) : bool := existsb (λ m, bool_decide (topSegment m = cmdDirName)) members.

Definition pinCmd (sccs : list (list string)) (layerSCC : list nat) : list nat :=
  foldl (λ l '(i, members), if isPinned members then <[i := 0]> l else l) layerSCC (imap pair sccs).

Definition layerPackages (pkgs : list string) (edges : list Edge) : option (gmap string nat * list Violation) :=
  let adj := adjacency edges in
  sccs ← tarjanSCC adj pkgs;
  let sccOf := number_members id 0 sccs ∅ in
  cycles ← collectViolations (cycleViolation sccs sccOf) edges;
  let condensed := condense sccOf edges in
  layerSCC ← relaxFrom condensed (length sccs) (replicate (length sccs) 0);
  let layerSCC := pinCmd sccs layerSCC in
  wrong ← collectViolations (wrongWayViolation layerSCC sccOf) edges;
  let layerOf := number_members (λ i, default 0 (layerSCC !! i)) 0 sccs ∅ in
  Some (layerOf, sortViolations (cycles ++ wrong)).

Example layers_of_a_cycle :
  layerPackages ["a"; "b"; "c"; "cmd/x"] [mkEdge "a" "b" 1; mkEdge "b" "a" 1; mkEdge "b" "c" 2; mkEdge "c" "cmd/x" 1] =
  Some (list_to_map [("a", 0); ("b", 0); ("c", 1); ("cmd/x", 0)],
        [mkViolation ViolationCycle "a" "b"; mkViolation ViolationCycle "b" "a"; mkViolation ViolationWrongWay "c" "cmd/x"]).
Proof. vm_compute. reflexivity. Qed.

(** * Correctness *)

(** ** The folds *)

Lemma adjacency_succs edges x : succs (adjacency edges) x = To <$> filter (λ e, From e = x) edges.
Proof.
  unfold succs, adjacency.
  assert (∀ adj : gmap string (list string),
    default [] (foldl (λ adj e, <[From e := default [] (adj !! From e) ++ [To e]]> adj) adj edges !! x) =
    default [] (adj !! x) ++ (To <$> filter (λ e, From e = x) edges)) as Hg.
  { induction edges as [|e edges IH]; intros adj; simpl; [by rewrite app_nil_r|]. rewrite IH, filter_cons.
    destruct (decide (From e = x)) as [->|Hne].
    - rewrite lookup_insert_eq. simpl. by rewrite <- app_assoc.
    - by rewrite lookup_insert_ne. }
  by rewrite Hg, lookup_empty.
Qed.

Lemma adjacency_edge edges x y : edge (adjacency edges) x y ↔ ∃ e, e ∈ edges ∧ From e = x ∧ To e = y.
Proof.
  unfold edge. rewrite adjacency_succs, list_elem_of_fmap. setoid_rewrite list_elem_of_filter. naive_solver.
Qed.

Lemma fold_insert_lookup {V} (v : V) (ms : list string) (f : gmap string V) x :
  foldl (λ f m, <[m := v]> f) f ms !! x = if decide (x ∈ ms) then Some v else f !! x.
Proof.
  revert f. induction ms as [|m ms IH]; intros f; simpl; [done|]. rewrite IH.
  destruct (decide (x ∈ ms)); [by rewrite decide_True by (by right)|]. destruct (decide (x = m)) as [->|].
  - by rewrite lookup_insert_eq, decide_True by (by left).
  - rewrite lookup_insert_ne by done. rewrite decide_False; [done|]. set_solver.
Qed.

Lemma number_members_other val x sccs : x ∉ mjoin sccs → ∀ i f, number_members val i sccs f !! x = f !! x.
Proof.
  induction sccs as [|c sccs IH]; intros Hx i f; simpl; [done|]. simpl in Hx. apply not_elem_of_app in Hx as [? ?].
  rewrite IH by done. rewrite fold_insert_lookup. by rewrite decide_False.
Qed.

Lemma number_members_lookup val x sccs : NoDup (mjoin sccs) → ∀ i f j c,
  sccs !! j = Some c → x ∈ c → number_members val i sccs f !! x = Some (val (i + j)).
Proof.
  induction sccs as [|c' sccs IH]; intros Hnd i f j c Hj Hx; simpl; [done|].
  simpl in Hnd. apply NoDup_app in Hnd as (_ & Hdis & Hnd). destruct j as [|j]; simpl in Hj.
  - simplify_eq. rewrite number_members_other by auto. rewrite fold_insert_lookup, decide_True by done.
    by rewrite Nat.add_0_r.
  - rewrite (IH Hnd (S i) _ j c Hj Hx). do 2 f_equal. lia.
Qed.

Lemma collectViolations_spec f g edges : (∀ e, e ∈ edges → f e = Some (g e)) →
  collectViolations f edges = Some (edges ≫= g).
Proof.
  intros Hf. unfold collectViolations. induction edges as [|e edges IH]; [done|]. simpl.
  rewrite Hf by (by left). simpl. specialize (IH ltac:(intros e' He'; apply Hf; by right)).
  destruct (mapM f edges) as [vs|]; [|discriminate IH].
  injection IH as IH. change (Some (g e ++ mjoin vs) = Some (g e ++ (edges ≫= g))). by rewrite <- IH.
Qed.

(** ** Longest chains *)

Definition lay (l : list nat) (k : nat) : nat := default 0 (l !! k).

Lemma lay_lookup l k : k < length l → l !! k = Some (lay l k).
Proof. intros [n Hn]%lookup_lt_is_Some_2. unfold lay. by rewrite Hn. Qed.

Lemma lay_insert l k n j : k < length l → lay (<[k := n]> l) j = if decide (j = k) then n else lay l j.
Proof.
  intros Hk. unfold lay. destruct (decide (j = k)) as [->|]; [by rewrite list_lookup_insert_eq|].
  by rewrite list_lookup_insert_ne.
Qed.

Lemma relaxEdge_ok i s l : i < length l → s < length l → s ≠ i → ∃ l',
  relaxEdge i s l = Some l' ∧ length l' = length l ∧
  ∀ k, lay l' k = if decide (k = s) then lay l k `max` S (lay l i) else lay l k.
Proof.
  intros Hi Hs Hne. unfold relaxEdge. rewrite !lay_lookup by done. simpl. eexists. split; [done|].
  case_decide as Hlt.
  - rewrite length_insert. split; [done|]. intros k. rewrite lay_insert by done. case_decide; [subst; lia|done].
  - split; [done|]. intros k. case_decide; [subst; lia|done].
Qed.

Lemma relaxSuccs_ok i ss : (∀ s, s ∈ ss → s < i) → ∀ l, i < length l → ∃ l',
  relaxSuccs i ss l = Some l' ∧ length l' = length l ∧
  ∀ k, lay l' k = if decide (k ∈ ss) then lay l k `max` S (lay l i) else lay l k.
Proof.
  induction ss as [|s ss IH]; intros Hss l Hi; simpl.
  { exists l. split_and!; [done|done|]. done. }
  assert (s < i) as Hs by (apply Hss; by left).
  destruct (relaxEdge_ok i s l) as (l1 & -> & Hlen & Hl1); [lia..|]. simpl.
  destruct (IH ltac:(intros; apply Hss; by right) l1 ltac:(lia)) as (l2 & -> & Hlen2 & Hl2).
  exists l2. split_and!; [done|lia|]. intros k. rewrite Hl2, !Hl1. rewrite (decide_False (P := i = s)) by lia.
  destruct (decide (k = s)) as [->|Hk].
  - rewrite (decide_True (P := s ∈ s :: ss)) by (by left). case_decide; lia.
  - destruct (decide (k ∈ ss)); [rewrite decide_True by (by right)|rewrite decide_False by set_solver]; lia.
Qed.

Section relax.
Context (condensed : gmap nat (gset nat)) (len : nat).
Definition down (i j : nat) : Prop := j ∈ default ∅ (condensed !! i).
Hypothesis Hdown : ∀ i j, down i j → j < i ∧ i < len.

Inductive ichain : nat → nat → Prop :=
| ichain_O j : j < len → ichain 0 j
| ichain_S n i j : ichain n i → down i j → ichain (S n) j.

Lemma elem_of_sortedSuccs i j : j ∈ sortedSuccs condensed i ↔ down i j.
Proof. unfold sortedSuccs. by rewrite merge_sort_Permutation, elem_of_elements. Qed.

Lemma relaxFrom_ok n : ∀ l, n ≤ len → length l = len →
  (∀ k, k < len → ichain (lay l k) k) → (∀ i j, n ≤ i → down i j → S (lay l i) ≤ lay l j) →
  ∃ l', relaxFrom condensed n l = Some l' ∧ length l' = len ∧
    (∀ k, k < len → ichain (lay l' k) k) ∧ ∀ i j, down i j → S (lay l' i) ≤ lay l' j.
Proof.
  induction n as [|i IH]; intros l Hn Hlen Hch Hmax; simpl.
  { exists l. split_and!; [done..|]. intros i j. apply Hmax. lia. }
  destruct (relaxSuccs_ok i (sortedSuccs condensed i)) with (l := l) as (l1 & -> & Hlen1 & Hl1).
  { intros s Hs%elem_of_sortedSuccs. by apply Hdown. }
  { lia. }
  simpl.
  apply IH; [lia|lia| |].
  - intros k Hk. rewrite Hl1. case_decide as Hd; [|by apply Hch]. apply elem_of_sortedSuccs in Hd.
    destruct (Nat.max_dec (lay l k) (S (lay l i))) as [->| ->]; [by apply Hch|].
    eapply ichain_S; [|exact Hd]. apply Hch. lia.
  - intros i' j Hi' Hd. rewrite !Hl1. rewrite (decide_False (P := i' ∈ _)).
    2:{ intros [? _]%elem_of_sortedSuccs%Hdown. lia. }
    destruct (decide (i' = i)) as [->|Hne].
    + rewrite decide_True by (by apply elem_of_sortedSuccs). lia.
    + assert (S (lay l i') ≤ lay l j) by (apply Hmax; [lia|done]). case_decide; lia.
Qed.

Lemma ichain_bound l : (∀ i j, down i j → S (lay l i) ≤ lay l j) → ∀ n j, ichain n j → n ≤ lay l j.
Proof. intros Hl n j Hc. induction Hc as [|n i j _ IH Hd]; [lia|]. apply Hl in Hd. lia. Qed.
End relax.

Lemma condense_spec (cls : gmap string nat) edges i j :
  down (condense cls edges) i j ↔ ∃ e, e ∈ edges ∧ get0 cls (From e) = i ∧ get0 cls (To e) = j ∧ i ≠ j.
Proof.
  unfold down, condense.
  match goal with |- context [foldl ?f ∅ edges] => set (step := f) end.
  assert (∀ m, j ∈ default ∅ (foldl step m edges !! i) ↔ j ∈ default ∅ (m !! i) ∨
    ∃ e, e ∈ edges ∧ get0 cls (From e) = i ∧ get0 cls (To e) = j ∧ i ≠ j) as Hg.
  { induction edges as [|e edges IH]; intros m; simpl; [set_solver|]. rewrite IH. unfold step at 1. simpl. case_decide as He.
    - setoid_rewrite elem_of_cons. naive_solver congruence.
    - setoid_rewrite elem_of_cons. destruct (decide (get0 cls (From e) = i)) as [<-|Hi].
      + rewrite lookup_insert_eq. simpl. rewrite elem_of_union, elem_of_singleton. naive_solver.
      + rewrite lookup_insert_ne by done. naive_solver. }
  rewrite Hg, lookup_empty. simpl. set_solver.
Qed.

(** ** The pin *)

Lemma isPinned_true ms : isPinned ms = true ↔ ∃ y, y ∈ ms ∧ topSegment y = cmdDirName.
Proof.
  unfold isPinned. rewrite existsb_exists. setoid_rewrite <- list_elem_of_In.
  by setoid_rewrite bool_decide_eq_true.
Qed.

Lemma pinCmd_spec sccs l : length l = length sccs →
  length (pinCmd sccs l) = length l ∧
  ∀ k c, sccs !! k = Some c → lay (pinCmd sccs l) k = if isPinned c then 0 else lay l k.
Proof.
  intros Hlen. unfold pinCmd.
  assert (∀ ss b (l : list nat), b + length ss ≤ length l →
    let l' := foldl (λ l '(i, members), if isPinned members then <[i := 0]> l else l) l (imap (λ i c, (b + i, c)) ss) in
    length l' = length l ∧ (∀ k, k < b → lay l' k = lay l k) ∧
    ∀ k c, ss !! k = Some c → lay l' (b + k) = if isPinned c then 0 else lay l (b + k)) as Hg.
  { clear. induction ss as [|c ss IH]; intros b l Hb; simpl in *; [done|]. rewrite Nat.add_0_r.
    specialize (IH (S b) (if isPinned c then <[b := 0]> l else l)).
    rewrite (imap_ext _ (λ i c, (S b + i, c))) by (intros; cbn; f_equal; lia).
    destruct IH as (IH1 & IH2 & IH3); [destruct (isPinned c); rewrite ?length_insert; lia|].
    split_and!.
    - rewrite IH1. destruct (isPinned c); [apply length_insert|done].
    - intros k Hk. rewrite IH2 by lia. destruct (isPinned c); [|done]. rewrite lay_insert by lia. by rewrite decide_False by lia.
    - intros [|k] c' Hk; simpl in Hk.
      + simplify_eq. rewrite Nat.add_0_r, IH2 by lia. destruct (isPinned c'); [|done].
        rewrite lay_insert by lia. by rewrite decide_True.
      + replace (b + S k) with (S b + k) by lia. rewrite (IH3 k _ Hk). destruct (isPinned c'); [done|].
        destruct (isPinned c); [|done]. rewrite lay_insert by lia. by rewrite decide_False by lia. }
  specialize (Hg sccs 0 l ltac:(lia)). destruct Hg as (H1 & _ & H3). split; [apply H1|apply H3].
Qed.

(** ** The classes and their layers *)

(** [chain n x]: [n] edges between different classes, one after the other, end in the class of [x]. *)
Inductive chain (edges : list Edge) : nat → string → Prop :=
| chain_O x : chain edges 0 x
| chain_S n e x : e ∈ edges → chain edges n (From e) → ¬ mutual (adjacency edges) (From e) (To e) →
    mutual (adjacency edges) (To e) x → chain edges (S n) x.

(** The length of the longest chain. *)
Definition longest (edges : list Edge) (x : string) (n : nat) : Prop :=
  chain edges n x ∧ ∀ m, chain edges m x → m ≤ n.

(** A class with a package under the cmd directory. *)
Definition cmdClass (edges : list Edge) (x : string) : Prop :=
  ∃ y, mutual (adjacency edges) x y ∧ topSegment y = cmdDirName.

Lemma mutual_refl adj x : mutual adj x x.
Proof. by split. Qed.

Lemma mutual_sym adj x y : mutual adj x y → mutual adj y x.
Proof. by intros []. Qed.

Lemma mutual_trans adj x y z : mutual adj x y → mutual adj y z → mutual adj x z.
Proof. intros [? ?] [? ?]. split; by etrans. Qed.

Section layers.
Context (pkgs : list string) (edges : list Edge) (sccs : list (list string)).
Hypothesis Hfrom : ∀ e, e ∈ edges → From e ∈ pkgs.
Notation adj := (adjacency edges).
Hypothesis Hso : sccs_of adj pkgs sccs.

Definition sccOf : gmap string nat := number_members id 0 sccs ∅.
Definition cls (x : string) : nat := get0 sccOf x.
Notation vertex := (reachable adj pkgs).

Lemma vertex_iff x : vertex x ↔ x ∈ pkgs ∨ ∃ e, e ∈ edges ∧ To e = x.
Proof.
  split.
  - intros (v & Hv & Hr). destruct (rtc_inv_r _ _ Hr) as [<-|(z & _ & Hz)]; [by left|right].
    apply adjacency_edge in Hz as (e & ? & _ & ?). eauto.
  - intros [Hx|(e & He & <-)]; [by exists x|]. exists (From e). split; [by apply Hfrom|].
    apply rtc_once, adjacency_edge. eauto.
Qed.

Lemma vertex_from e : e ∈ edges → vertex (From e).
Proof. intros He. apply vertex_iff. left. by apply Hfrom. Qed.

Lemma vertex_to e : e ∈ edges → vertex (To e).
Proof. intros He. apply vertex_iff. right. eauto. Qed.

Lemma val_lookup val j c x : sccs !! j = Some c → x ∈ c → number_members val 0 sccs ∅ !! x = Some (val j).
Proof. intros Hj Hx. by rewrite (number_members_lookup val x sccs (so_nodup _ _ _ Hso) 0 ∅ j c). Qed.

Lemma cls_of j c x : sccs !! j = Some c → x ∈ c → cls x = j.
Proof. intros Hj Hx. unfold cls, get0, sccOf. by rewrite (val_lookup id j c x). Qed.

Lemma cls_lookup x : vertex x → ∃ c, sccs !! cls x = Some c ∧ x ∈ c.
Proof.
  intros (c & Hx & [j Hj]%list_elem_of_lookup)%(so_cover _ _ _ Hso)%list_elem_of_join.
  exists c. by rewrite (cls_of j c x).
Qed.

Lemma cls_lt x : vertex x → cls x < length sccs.
Proof. intros (c & Hc & _)%cls_lookup. by eapply lookup_lt_Some. Qed.

Lemma class_members c x : c ∈ sccs → x ∈ c → ∀ y, y ∈ c ↔ mutual adj x y.
Proof.
  intros Hc Hx y. destruct (so_scc _ _ _ Hso c Hc) as (r & Hr & Hm). rewrite Hm. apply Hm in Hx.
  split; intros H; [by eapply mutual_trans; [apply mutual_sym|]|by eapply mutual_trans].
Qed.

Lemma cls_mutual x y : vertex x → vertex y → cls x = cls y ↔ mutual adj x y.
Proof.
  intros (c & Hc & Hxc)%cls_lookup (d & Hd & Hyd)%cls_lookup. assert (c ∈ sccs) by (by eapply list_elem_of_lookup_2). split.
  - intros E. rewrite E in Hc. assert (c = d) as -> by congruence. by apply (class_members d).
  - intros Hm. apply (class_members c x) in Hm; [|done..]. symmetry. by apply (cls_of _ c).
Qed.

Notation C := (condense sccOf edges).

Lemma down_edge i j : down C i j ↔ ∃ e, e ∈ edges ∧ cls (From e) = i ∧ cls (To e) = j ∧ i ≠ j.
Proof. apply condense_spec. Qed.

Lemma down_topo i j : down C i j → j < i ∧ i < length sccs.
Proof.
  intros (e & He & <- & <- & Hne)%down_edge. split; [|by apply cls_lt, vertex_from].
  destruct (cls_lookup _ (vertex_from e He)) as (c & Hc & Hfc).
  destruct (so_topo _ _ _ Hso _ _ _ (To e) Hc Hfc) as (j & d & Hle & Hj & Ht); [apply adjacency_edge; eauto|].
  rewrite (cls_of j d (To e) Hj Ht) in *. lia.
Qed.

Lemma chain_ichain n x : vertex x → chain edges n x → ichain C (length sccs) n (cls x).
Proof.
  intros Hx Hc. revert Hx. induction Hc as [x|n e x He _ IH Hn Hm]; intros Hx.
  { by apply ichain_O, cls_lt. }
  pose proof (vertex_from e He). pose proof (vertex_to e He). apply ichain_S with (cls (From e)); [by apply IH|].
  apply down_edge. exists e. rewrite <- cls_mutual in Hm by done. rewrite <- cls_mutual in Hn by done.
  split_and!; [done|done|done|]. by rewrite <- Hm.
Qed.

Lemma ichain_chain n j : ichain C (length sccs) n j → ∀ x, vertex x → cls x = j → chain edges n x.
Proof.
  intros Hc. induction Hc as [j _|n i j _ IH (e & He & <- & <- & Hne)%down_edge]; intros x Hx Hj; [constructor|].
  pose proof (vertex_from e He). pose proof (vertex_to e He). apply chain_S with e; [done|by apply IH| |].
  - by rewrite <- cls_mutual.
  - by apply cls_mutual.
Qed.

Lemma cycle_spec e : e ∈ edges → ∃ vs, cycleViolation sccs sccOf e = Some vs ∧ ∀ v, v ∈ vs ↔
  v = mkViolation ViolationCycle (From e) (To e) ∧ mutual adj (From e) (To e) ∧
  ∃ z, z ≠ From e ∧ mutual adj (From e) z.
Proof.
  intros He. pose proof (vertex_from e He) as Hf. pose proof (vertex_to e He) as Ht.
  destruct (cls_lookup _ Hf) as (c & Hc & Hfc). assert (c ∈ sccs) as Hcs by (by eapply list_elem_of_lookup_2).
  assert (NoDup c) as Hnd.
  { pose proof (so_nodup _ _ _ Hso) as Hnd. apply list_elem_of_split in Hcs as (a & b & ->).
    rewrite list.join_app in Hnd. simpl in Hnd. apply NoDup_app in Hnd as (_ & _ & Hnd). by apply NoDup_app in Hnd as [? _]. }
  unfold cycleViolation. fold (cls (From e)) (cls (To e)). case_decide as E.
  - rewrite Hc. simpl. eexists. split; [done|]. intros v. rewrite cls_mutual in E by done.
    setoid_rewrite <- (class_members c (From e) Hcs Hfc).
    destruct c as [|x [|y c]]; simpl; [by apply not_elem_of_nil in Hfc| |].
    + split; [by intros ?%not_elem_of_nil|]. intros (_ & _ & z & Hz & ->%list_elem_of_singleton).
      by apply list_elem_of_singleton in Hfc.
    + rewrite list_elem_of_singleton. split; [|naive_solver]. intros ->. split_and!; [done|by apply (class_members (x :: y :: c) (From e) Hcs Hfc)|].
      apply NoDup_cons in Hnd as [Hxy _]. destruct (decide (x = From e)) as [->|]; [|exists x; set_solver].
      exists y. split; [|set_solver]. intros ->. apply Hxy. by left.
  - eexists. split; [done|]. rewrite cls_mutual in E by done. set_solver.
Qed.

(** The pinned layer of a class, from layers satisfying the two relaxation facts. *)
Context (l0 : list nat).
Hypothesis Hlen : length l0 = length sccs.
Hypothesis Hach : ∀ k, k < length sccs → ichain C (length sccs) (lay l0 k) k.
Hypothesis Hmax : ∀ i j, down C i j → S (lay l0 i) ≤ lay l0 j.
Notation pinned := (pinCmd sccs l0).

Lemma layer_longest x : vertex x → longest edges x (lay l0 (cls x)).
Proof.
  intros Hx. split.
  - eapply ichain_chain; [by apply Hach, cls_lt|done|done].
  - intros m Hm. apply (ichain_bound C (length sccs)); [apply Hmax|]. by apply chain_ichain.
Qed.

Lemma pinned_cmd x : vertex x → cmdClass edges x → lay pinned (cls x) = 0.
Proof.
  intros (c & Hc & Hxc)%cls_lookup (y & Hm & Hy). rewrite (proj2 (pinCmd_spec sccs l0 Hlen) _ c Hc).
  replace (isPinned c) with true; [done|]. symmetry. apply isPinned_true. exists y. split; [|done].
  apply (class_members c x); [by eapply list_elem_of_lookup_2|done..].
Qed.

Lemma pinned_other x : vertex x → ¬ cmdClass edges x → lay pinned (cls x) = lay l0 (cls x).
Proof.
  intros (c & Hc & Hxc)%cls_lookup Hn. rewrite (proj2 (pinCmd_spec sccs l0 Hlen) _ c Hc).
  destruct (isPinned c) eqn:E; [|done]. destruct Hn. apply isPinned_true in E as (y & Hy & ?). exists y. split; [|done].
  apply (class_members c x); [by eapply list_elem_of_lookup_2|done..].
Qed.

Lemma cmdClass_dec x : vertex x → cmdClass edges x ∨ ¬ cmdClass edges x.
Proof.
  intros (c & Hc & Hxc)%cls_lookup. assert (c ∈ sccs) by (by eapply list_elem_of_lookup_2). destruct (isPinned c) eqn:E; [left|right].
  - apply isPinned_true in E as (y & Hy & ?). exists y. split; [|done]. by apply (class_members c x).
  - intros (y & Hm & Hy). apply not_true_iff_false in E. apply E, isPinned_true. exists y. split; [|done].
    by apply (class_members c x).
Qed.

(** An edge between classes is wrong-way precisely when it enters a cmd class. *)
Lemma wrong_way_iff e : e ∈ edges → ¬ mutual adj (From e) (To e) →
  lay pinned (cls (To e)) ≤ lay pinned (cls (From e)) ↔ cmdClass edges (To e).
Proof.
  intros He Hn. pose proof (vertex_from e He) as Hf. pose proof (vertex_to e He) as Ht.
  assert (S (lay l0 (cls (From e))) ≤ lay l0 (cls (To e))) as Hlt.
  { apply Hmax, down_edge. exists e. split_and!; [done..|]. by rewrite cls_mutual. }
  split.
  - intros Hle. destruct (cmdClass_dec (To e) Ht) as [?|Hc]; [done|]. rewrite (pinned_other _ Ht Hc) in Hle.
    destruct (cmdClass_dec (From e) Hf) as [Hc'|Hc']; [rewrite (pinned_cmd _ Hf Hc') in Hle|rewrite (pinned_other _ Hf Hc') in Hle]; lia.
  - intros Hc. rewrite (pinned_cmd _ Ht Hc). lia.
Qed.

Lemma wrongWay_spec e : e ∈ edges → ∃ vs, wrongWayViolation pinned sccOf e = Some vs ∧ ∀ v, v ∈ vs ↔
  v = mkViolation ViolationWrongWay (From e) (To e) ∧ ¬ mutual adj (From e) (To e) ∧ cmdClass edges (To e).
Proof.
  intros He. pose proof (vertex_from e He) as Hf. pose proof (vertex_to e He) as Ht.
  pose proof (proj1 (pinCmd_spec sccs l0 Hlen)) as Hpl. unfold wrongWayViolation. fold (cls (From e)) (cls (To e)).
  case_decide as E.
  - rewrite cls_mutual in E by done. pose proof (wrong_way_iff e He E) as Hw.
    rewrite !lay_lookup by (rewrite Hpl, Hlen; by apply cls_lt). simpl. eexists. split; [done|]. intros v.
    case_decide; [rewrite list_elem_of_singleton; naive_solver|]. split; [by intros ?%not_elem_of_nil|naive_solver].
  - eexists. split; [done|]. rewrite cls_mutual in E by done. set_solver.
Qed.

Lemma layerOf_lookup x : vertex x →
  number_members (λ i, default 0 (pinned !! i)) 0 sccs ∅ !! x = Some (lay pinned (cls x)).
Proof. intros (c & Hc & Hx)%cls_lookup. by rewrite (val_lookup _ (cls x) c x). Qed.

Lemma layerOf_none x : ¬ vertex x → number_members (λ i, default 0 (pinned !! i)) 0 sccs ∅ !! x = None.
Proof. intros Hx. rewrite number_members_other; [apply lookup_empty|]. by rewrite (so_cover _ _ _ Hso). Qed.
End layers.

Lemma collectViolations_elem f (P : Edge → Violation → Prop) edges :
  (∀ e, e ∈ edges → ∃ vs, f e = Some vs ∧ ∀ v, v ∈ vs ↔ P e v) →
  ∃ all, collectViolations f edges = Some all ∧ ∀ v, v ∈ all ↔ ∃ e, e ∈ edges ∧ P e v.
Proof.
  intros Hf. exists (edges ≫= λ e, default [] (f e)). split.
  - apply collectViolations_spec. intros e He. by destruct (Hf e He) as (vs & -> & _).
  - intros v. rewrite list_elem_of_bind. split.
    + intros (e & Hv & He). destruct (Hf e He) as (vs & E & Hvs). rewrite E in Hv. exists e. split; [done|]. by apply Hvs.
    + intros (e & He & Hv). destruct (Hf e He) as (vs & E & Hvs). exists e. split; [|done]. rewrite E. by apply Hvs.
Qed.

(** What [layerPackages] promises [applyLayout]. *)
Record layering_of (pkgs : list string) (edges : list Edge) (layerOf : gmap string nat) (violations : list Violation) : Prop := {
  lo_dom : ∀ x, is_Some (layerOf !! x) ↔ x ∈ pkgs ∨ ∃ e, e ∈ edges ∧ To e = x;
  lo_cmd : ∀ x n, layerOf !! x = Some n → cmdClass edges x → n = 0;
  lo_longest : ∀ x n, layerOf !! x = Some n → ¬ cmdClass edges x → longest edges x n;
  lo_violations : ∀ v, v ∈ violations ↔ ∃ e, e ∈ edges ∧
    ((v = mkViolation ViolationCycle (From e) (To e) ∧ mutual (adjacency edges) (From e) (To e) ∧
        ∃ z, z ≠ From e ∧ mutual (adjacency edges) (From e) z) ∨
     (v = mkViolation ViolationWrongWay (From e) (To e) ∧ ¬ mutual (adjacency edges) (From e) (To e) ∧ cmdClass edges (To e)));
  lo_sorted : StronglySorted (by_key violation_fields) violations;
  lo_down : ∀ e nf nt, e ∈ edges → layerOf !! From e = Some nf → layerOf !! To e = Some nt →
    ¬ mutual (adjacency edges) (From e) (To e) → nf < nt ∨ mkViolation ViolationWrongWay (From e) (To e) ∈ violations;
}.

Lemma layerPackages_ok pkgs edges : (∀ e, e ∈ edges → From e ∈ pkgs) →
  ∃ layerOf violations, layerPackages pkgs edges = Some (layerOf, violations) ∧ layering_of pkgs edges layerOf violations.
Proof.
  intros Hfrom. destruct (tarjanSCC_ok (adjacency edges) pkgs) as (sccs & Hs & Hso).
  destruct (relaxFrom_ok (condense (sccOf sccs) edges) (length sccs)) with (n := length sccs) (l := replicate (length sccs) 0)
    as (l0 & Hl0 & Hlen & Hach & Hmax).
  { intros i j. by apply (down_topo pkgs). }
  { done. }
  { by rewrite length_replicate. }
  { intros k Hk. unfold lay. rewrite lookup_replicate_2 by done. by constructor. }
  { intros i j Hi Hd. apply (down_topo pkgs) in Hd; [lia|done|done]. }
  destruct (collectViolations_elem _ _ edges (cycle_spec pkgs edges sccs Hfrom Hso)) as (cs & Hcs & Hcyc).
  destruct (collectViolations_elem _ _ edges (wrongWay_spec pkgs edges sccs Hfrom Hso l0 Hlen Hach Hmax)) as (ws & Hws & Hwrong).
  unfold layerPackages. rewrite Hs. simpl. fold (sccOf sccs). rewrite Hcs. simpl. rewrite Hl0. simpl. rewrite Hws. simpl.
  eexists _, _. split; [done|].
  assert (∀ x, is_Some (number_members (λ i, default 0 (pinCmd sccs l0 !! i)) 0 sccs ∅ !! x) → reachable (adjacency edges) pkgs x) as Hv.
  { intros x [n Hn]. destruct (decide (x ∈ mjoin sccs)) as [Hx|Hx]; [by apply (so_cover _ _ _ Hso)|].
    rewrite number_members_other in Hn by done. by rewrite lookup_empty in Hn. }
  assert (∀ x n, number_members (λ i, default 0 (pinCmd sccs l0 !! i)) 0 sccs ∅ !! x = Some n →
    reachable (adjacency edges) pkgs x ∧ n = lay (pinCmd sccs l0) (cls sccs x)) as Hval.
  { intros x n Hn. assert (reachable (adjacency edges) pkgs x) as Hx by (apply Hv; by eexists). split; [done|].
    rewrite (layerOf_lookup pkgs edges sccs Hso) in Hn by done. by injection Hn. }
  assert (∀ v, v ∈ sortViolations (cs ++ ws) ↔ v ∈ cs ∨ v ∈ ws) as Hvio.
  { intros v. unfold sortViolations. by rewrite elem_of_sort_by, elem_of_app. }
  split.
  - intros x. rewrite <- (vertex_iff pkgs edges Hfrom). split; [apply Hv|]. intros Hx. eexists. by apply (layerOf_lookup pkgs edges).
  - intros x n [Hx ->]%Hval Hc. by eapply pinned_cmd.
  - intros x n [Hx ->]%Hval Hc. rewrite (pinned_other pkgs edges sccs Hso l0 Hlen x Hx Hc). by apply (layer_longest pkgs).
  - intros v. rewrite Hvio, Hcyc, Hwrong. naive_solver.
  - apply sort_by_sorted.
  - intros e nf nt He [Hf ->]%Hval [Ht ->]%Hval Hn. rewrite Hvio, Hwrong.
    pose proof (wrong_way_iff pkgs edges sccs Hfrom Hso l0 Hlen Hmax e He Hn) as Hw.
    destruct (Nat.lt_ge_cases (lay (pinCmd sccs l0) (cls sccs (From e))) (lay (pinCmd sccs l0) (cls sccs (To e)))) as [?|?];
      [by left|right; right]. exists e. split_and!; [done..|]. by apply Hw.
Qed.

(** C29: the layers of packages whose edges all start at a package.  Every
    package and every target of an edge has a layer: 0 in a class with a cmd
    package, else the length of the longest chain of edges between classes that
    ends there.  The violations, sorted, are exactly the edges within a class of
    several members and the edges that enter a class with a cmd package from
    another class; every other edge between classes points strictly down. *)
Theorem layerPackages_layering pkgs edges : (∀ e, e ∈ edges → From e ∈ pkgs) →
  ∃ layerOf violations, layerPackages pkgs edges = Some (layerOf, violations) ∧ layering_of pkgs edges layerOf violations.
Proof. apply layerPackages_ok. Qed.

Lemma layerPackages_layering_witness :
  let edges := [mkEdge "a" "b" 1; mkEdge "b" "a" 1; mkEdge "b" "c" 2; mkEdge "c" "cmd/x" 1] in
  (∀ e, e ∈ edges → From e ∈ ["a"; "b"; "c"; "cmd/x"]) ∧
  ∃ layerOf violations, layerPackages ["a"; "b"; "c"; "cmd/x"] edges = Some (layerOf, violations) ∧
    layering_of ["a"; "b"; "c"; "cmd/x"] edges layerOf violations.
Proof.
  intros edges. assert (∀ e, e ∈ edges → From e ∈ ["a"; "b"; "c"; "cmd/x"]) as H by (unfold edges; apply Forall_forall; repeat constructor; set_solver).
  split; [exact H|]. exact (layerPackages_layering _ edges H).
Defined.
