(* ===== verification/FileTree.v ===== *)
(** * The path tree of a snapshot ([internal/codegraph/builder.go])

    [normalizeFiles] and [buildTree].  A node
    pointer is its key in [tree_nodes]; file contents are byte strings.  [None]
    is the dereference of a nil node or an upward walk that does not end. *)
From S2P Require Import Prelude GoStrings GoPaths CodeGraph.
From Stdlib Require Import Ascii.
Local Open Scope string_scope.
Local Open Scope list_scope.
Local Open Scope nat_scope.

Definition parentDir (p : string) : string :=
  let d := Dir p in
  if decide (d = ".") then "" else d.

(** [for d := start; d != ""; d = parentDir(d)]: the values of [d]. *)
Fixpoint upward (fuel : nat) (d : string) : option (list string) :=
  if decide (d = "") then Some []
  else match fuel with
       | O => None
       | S fuel => ds ← upward fuel (parentDir d); Some (d :: ds)
       end.

(** The loop from [parentDir(p)]; a step shortens a plain path. *)
Definition ancestors (p : string) : option (list string) := upward (String.length p) (parentDir p).

Definition lowerByte (c : ascii) : ascii :=
  if between 65 90 c then byte (N_of_ascii c + 32) else c.

(** [strings.ToLower], for a comparison with ASCII extensions whose letters have
    no other upper case. *)
Fixpoint toLower (s : string) : string :=
  match s with
  | "" => ""
  | String c s => String (lowerByte c) (toLower s)
  end.

Definition goExt : string := ".go".
Definition tsExt : string := ".ts".
Definition tsxExt : string := ".tsx".

Definition languageForFile (p : string) : Language :=
  let e := toLower (Ext p) in
  if decide (e = goExt) then LanguageGo
  else if decide (e = tsExt ∨ e = tsxExt) then LanguageTypeScript
  else LanguageNone.

Definition newline : ascii := byte 10.

Fixpoint countByte (c : ascii) (s : string) : nat :=
  match s with
  | "" => 0
  | String b s => (if decide (b = c) then 1 else 0) + countByte c s
  end.

Fixpoint lastByte (s : string) : option ascii :=
  match s with
  | "" => None
  | String b "" => Some b
  | String _ s => lastByte s
  end.

Definition countLines (content : string) : nat :=
  if decide (content = "") then 0
  else
    let n := countByte newline content in
    if decide (lastByte content ≠ Some newline) then n + 1 else n.

(** A [map[string]bool] whose keys are only set to [true]. *)
Definition sortedKeys (set : gmap string bool) : list string := sort_strings (map_to_list set).*1.

Definition normalizeFiles (files : list string) : list string :=
  sortedKeys (foldl (λ (set : gmap string bool) f,
    let p := Clean f in
    if decide (p = "" ∨ p = "." ∨ p = ".." ∨ IsAbs p = true ∨ HasPrefix p "../" = true) then set else <[p := true]> set) ∅ files).

Record fileTree := mkTree {
  nodes : gmap string Node;
  fileSet : gmap string bool;
  dirSet : gmap string bool;
  dirHasSource : gmap string bool;
}.

Definition sortedFiles (t : fileTree) : list string := sortedKeys (fileSet t).

Definition emptyNode (id parent : string) (kind : NodeKind) (name : string) : Node :=
  mkNode id parent kind name LanguageNone 0 0 0 0.

Definition set_Language (l : Language) (n : Node) : Node :=
  mkNode (ID n) (Parent n) (Kind n) (Name n) l (Layer n) (Order n) (Loc n) (FileCount n).
Definition set_Layer (k : nat) (n : Node) : Node :=
  mkNode (ID n) (Parent n) (Kind n) (Name n) (n_Language n) k (Order n) (Loc n) (FileCount n).
Definition set_Order (k : nat) (n : Node) : Node :=
  mkNode (ID n) (Parent n) (Kind n) (Name n) (n_Language n) (Layer n) k (Loc n) (FileCount n).
Definition add_file (loc : nat) (n : Node) : Node :=
  mkNode (ID n) (Parent n) (Kind n) (Name n) (n_Language n) (Layer n) (Order n) (Loc n + loc) (FileCount n + 1).

(** ** [buildTree] *)

(** The loop that marks the ancestors of every path. *)
Fixpoint markDirs (paths : list string) (set : gmap string bool) : option (gmap string bool) :=
  match paths with
  | [] => Some set
  | p :: paths => ds ← ancestors p; markDirs paths (foldl (λ (s : gmap string bool) d, <[d := true]> s) set ds)
  end.

Definition dirNode (d : string) : Node :=
  emptyNode d (parentDir d) (if ContainsByte d slash then NodeKindPackage else NodeKindModule) (Base d).

Definition fileNode (p : string) (content : string) : Node :=
  mkNode p (parentDir p) NodeKindFile (Base p) (languageForFile p) 0 0 (countLines content) 1.

(** One directory of the rollup of a file with [lang] and [loc]. *)
Definition rollDir (lang : Language) (loc : nat) (d : string)
    (st : gmap string Node * gmap string (gmap Language bool)) : option (gmap string Node * gmap string (gmap Language bool)) :=
  let '(ns, langs) := st in
  n ← ns !! d;
  Some (<[d := add_file loc n]> ns,
        if decide (lang = LanguageNone) then langs
        else <[d := <[lang := true]> (default ∅ (langs !! d))]> langs).

Fixpoint rollUp (lang : Language) (loc : nat) (ds : list string)
    (st : gmap string Node * gmap string (gmap Language bool)) : option (gmap string Node * gmap string (gmap Language bool)) :=
  match ds with
  | [] => Some st
  | d :: ds => st ← rollDir lang loc d st; rollUp lang loc ds st
  end.

(** The state of the loop over the files. *)
Record rollState := mkRoll {
  r_nodes : gmap string Node;
  r_source : gmap string bool;
  r_langs : gmap string (gmap Language bool);
}.

(** One file of the loop. *)
Definition addFile (contents : gmap string string) (p : string) (st : rollState) : option rollState :=
  let lang := languageForFile p in
  let loc := countLines (default "" (contents !! p)) in
  let dir := parentDir p in
  let ns := <[p := fileNode p (default "" (contents !! p))]> (r_nodes st) in
  let source := if decide (lang ≠ LanguageNone ∧ dir ≠ "") then <[dir := true]> (r_source st) else r_source st in
  ds ← ancestors p;
  '(ns, langs) ← rollUp lang loc ds (ns, r_langs st);
  Some (mkRoll ns source langs).

Fixpoint addFiles (contents : gmap string string) (ps : list string) (st : rollState) : option rollState :=
  match ps with
  | [] => Some st
  | p :: ps => st ← addFile contents p st; addFiles contents ps st
  end.

(** [for d, set := range dirLangs]: a set of one language is given to the node. *)
Definition uniformLanguage (d : string) (set : gmap Language bool) (ns : gmap string Node) : option (gmap string Node) :=
  match (map_to_list set).*1 with
  | [lang] => n ← ns !! d; Some (<[d := set_Language lang n]> ns)
  | _ => Some ns
  end.

Fixpoint uniformLanguages (dirLangs : list (string * gmap Language bool)) (ns : gmap string Node) : option (gmap string Node) :=
  match dirLangs with
  | [] => Some ns
  | (d, set) :: dirLangs => ns ← uniformLanguage d set ns; uniformLanguages dirLangs ns
  end.

Section tree.
Context {MO : MapOrder}.

Definition buildTree (paths : list string) (contents : gmap string string) : option fileTree :=
  dirs ← markDirs paths ∅;
  let files := foldl (λ (s : gmap string bool) p, if has_key dirs p then s else <[p := true]> s) ∅ paths in
  let ns := foldl (λ (ns : gmap string Node) d, <[d := dirNode d]> ns) ∅ (sortedKeys dirs) in
  st ← addFiles contents (sortedKeys files) (mkRoll ns ∅ ∅);
  ns ← uniformLanguages (range_str (r_langs st)) (r_nodes st);
  Some (mkTree ns files dirs (r_source st)).

End tree.

Example rollup_small : let _ := demoOrder in
  let paths := normalizeFiles ["cmd/x/main.go"; "lib/./a.ts"; "lib/b.md"; "../out"; "/abs"; "lib/sub/c.GO"] in
  paths = ["cmd/x/main.go"; "lib/a.ts"; "lib/b.md"; "lib/sub/c.GO"] ∧
  (t ← buildTree paths {["lib/a.ts" := "one" +:+ String newline "two"]};
   n ← nodes t !! "lib";
   Some (Kind n, Loc n, FileCount n, n_Language n, sortedKeys (dirHasSource t))) =
  Some (NodeKindModule, 2, 3, LanguageNone, ["cmd/x"; "lib"; "lib/sub"]).
Proof. vm_compute. done. Qed.

(** * Paths *)

Lemma Dir_join es e : (∀ x, x ∈ es ++ [e] → plain_element x ∧ byte_free slash x) →
  Dir (join_slash (es ++ [e])) = if decide (es = []) then "." else join_slash es.
Proof.
  intros He. unfold Dir, dirElems.
  rewrite split_join; [|by destruct es|by intros x Hx; apply He].
  rewrite removelast_last. destruct es as [|x es]; [done|]. rewrite decide_False by done.
  assert (∀ y, y ∈ x :: es → plain_element y ∧ byte_free slash y) as Hes.
  { intros y Hy. apply He, elem_of_app. by left. }
  set (l := x :: es) in *. assert (l ≠ []) as Hl by done. clearbody l.
  assert (plain_path (join_slash l)) as Hp by (by exists l).
  pose proof (proj1 (plain_path_iff _) Hp) as (Hne & Habs & _).
  pose proof (plain_path_split _ l Hl eq_refl Hes) as Hsp.
  unfold Clean. rewrite decide_False by (by destruct (join_slash l)).
  assert (IsAbs (join_slash l +:+ "/") = false) as ->.
  { apply not_true_iff_false. rewrite IsAbs_split. intros [t E]. apply not_true_iff_false in Habs. apply Habs, IsAbs_split.
    destruct (join_slash l) as [|c t']; [done|]. injection E as -> _. by exists t'. }
  change "/" with (String slash ""). rewrite split_on_app, Hsp. unfold clean_elements.
  rewrite foldl_app, (foldl_clean_plain false l) by (by intros y [? _]%Hes). rewrite app_nil_r.
  change (split_on slash "") with [""]. simpl. unfold clean_step. rewrite decide_True by done. rewrite rev_involutive.
  by destruct l.
Qed.

Lemma parentDir_join es e : (∀ x, x ∈ es ++ [e] → plain_element x ∧ byte_free slash x) →
  parentDir (join_slash (es ++ [e])) = join_slash es.
Proof.
  intros He. unfold parentDir. rewrite Dir_join by done. destruct (decide (es = [])) as [->|Hes]; [by rewrite decide_True|].
  rewrite decide_False; [done|]. intros E.
  assert (plain_path (join_slash es)) as Hp.
  { exists es. split_and!; [done..|]. intros x Hx. apply He, elem_of_app. by left. }
  apply plain_path_iff in Hp as (_ & _ & _ & ? & _). done.
Qed.

(** The directories above the path of [rev res], nearest first. *)
Fixpoint ups (res : list string) : list string :=
  match res with
  | [] => []
  | _ :: r => join_slash (rev res) :: ups r
  end.

Lemma upward_plain fuel res : length res ≤ fuel → (∀ x, x ∈ res → plain_element x ∧ byte_free slash x) →
  upward fuel (join_slash (rev res)) = Some (ups res).
Proof.
  revert res. induction fuel as [|fuel IH]; intros res Hf He.
  { destruct res; [done|]. simpl in Hf. lia. }
  destruct res as [|e r]; [done|]. cbn [upward].
  assert (∀ x, x ∈ rev (e :: r) → plain_element x ∧ byte_free slash x) as Hr by (intros x Hx; by apply He, elem_of_rev).
  rewrite decide_False.
  - simpl rev in *. rewrite parentDir_join by done. rewrite IH; [done|simpl in Hf; lia|]. intros x Hx. apply He. by right.
  - apply join_not_empty; [by intros x [[? _] _]%Hr|]. simpl. by destruct (rev r).
Qed.

Lemma elem_of_ups res d : d ∈ ups res ↔ ∃ es fs, es ≠ [] ∧ rev res = es ++ fs ∧ d = join_slash es.
Proof.
  induction res as [|e r IH]; simpl.
  - split; [by intros ?%not_elem_of_nil|]. by intros ([|] & fs & ? & ? & _).
  - rewrite elem_of_cons, IH. split.
    + intros [->|(es & fs & ? & -> & ->)]; [exists (rev r ++ [e]), []; rewrite app_nil_r; by destruct (rev r)|].
      exists es, (fs ++ [e]). by rewrite app_assoc.
    + intros (es & fs & Hes & Heq & ->). destruct fs as [|f fs _] using rev_ind.
      * left. by rewrite app_nil_r in Heq; subst.
      * right. rewrite app_assoc in Heq. apply app_inj_tail in Heq as [-> ->]. eauto.
Qed.

Lemma length_join_slash es : (∀ e, e ∈ es → e ≠ "") → length es ≤ String.length (join_slash es).
Proof.
  induction es as [|e es IH]; intros He; [simpl; lia|]. destruct es as [|e' es].
  - simpl. specialize (He e ltac:(by left)). destruct e; simpl; [done|lia].
  - rewrite join_cons by done. rewrite str_length_app. cbn [String.length]. specialize (IH ltac:(intros x Hx; apply He; by right)).
    simpl in *. lia.
Qed.

(** [d] is a directory somewhere above [p]. *)
Definition below (d p : string) : Prop := HasPrefix p (d +:+ "/") = true.

#[export] Instance below_dec : RelDecision below.
Proof. unfold below. intros d p. apply _. Defined.

Lemma below_split d p : below d p ↔ ∃ r, p = d +:+ String slash r.
Proof.
  unfold below. rewrite HasPrefix_iff. split; intros [r ->]; exists r; induction d as [|c d IH]; try done;
    rewrite !str_app_cons; by f_equal.
Qed.

Lemma below_elems d p : plain_path p → below d p ↔
  ∃ es fs, es ≠ [] ∧ fs ≠ [] ∧ split_on slash p = es ++ fs ∧ d = join_slash es.
Proof.
  intros Hp. rewrite below_split. split.
  - intros [r ->]. exists (split_on slash d), (split_on slash r). rewrite split_on_app, join_split.
    split_and!; [apply split_on_not_nil..|done|done].
  - intros (es & fs & Hes & Hfs & Hsp & ->). exists (join_slash fs). rewrite <- join_app by done. rewrite <- Hsp.
    by rewrite join_split.
Qed.

Lemma below_plain d p : plain_path p → below d p → plain_path d.
Proof.
  intros Hp (es & fs & Hes & _ & Hsp & ->)%below_elems; [|done]. exists es. split_and!; [done..|].
  intros e He. apply (plain_path_elems p Hp). rewrite Hsp. apply elem_of_app. by left.
Qed.

Lemma below_trans d e p : below d e → below e p → below d p.
Proof.
  rewrite !below_split. intros [r ->] [r' ->]. exists (r +:+ String slash r').
  induction d as [|c d IH]; [done|]. rewrite !str_app_cons. by f_equal.
Qed.

Lemma below_longer d p : below d p → String.length d < String.length p.
Proof. intros [r ->]%below_split. rewrite str_length_app. simpl. lia. Qed.

Lemma ups_NoDup res : (∀ e, e ∈ res → byte_free slash e) → NoDup (ups res).
Proof.
  induction res as [|e r IH]; intros He; simpl; [constructor|]. constructor; [|apply IH; intros x Hx; apply He; by right].
  intros (es & fs & Hes & Hr & Hj)%elem_of_ups.
  assert (∀ x, x ∈ rev r ++ [e] → byte_free slash x) as Hfree.
  { intros x. change (rev r ++ [e]) with (rev (e :: r)). rewrite elem_of_rev. apply He. }
  apply (f_equal (split_on slash)) in Hj. rewrite !split_join in Hj; [|done| |by destruct (rev r)|done].
  - apply (f_equal length) in Hj. apply (f_equal length) in Hr. rewrite length_app in *. simpl in *. lia.
  - intros x Hx. apply Hfree. rewrite Hr. apply elem_of_app. left. apply elem_of_app. by left.
Qed.

(** The walk up from a plain path ends, and meets each directory above it once. *)
Lemma ancestors_plain p : plain_path p → ∃ ds, ancestors p = Some ds ∧ NoDup ds ∧ ∀ d, d ∈ ds ↔ below d p.
Proof.
  intros Hp. destruct (plain_path_elems p Hp) as (Hne & He & Hj).
  destruct (split_on slash p) as [|e es _] eqn:E using rev_ind; [done|]. exists (ups (rev es)).
  assert (∀ x, x ∈ rev es → plain_element x ∧ byte_free slash x) as Hes.
  { intros x Hx. apply He, elem_of_app. left. by apply elem_of_rev. }
  split_and!.
  - unfold ancestors. rewrite Hj, parentDir_join by done. rewrite <- (rev_involutive es) at 2. apply upward_plain; [|done].
    rewrite length_rev. transitivity (length (es ++ [e])); [rewrite length_app; lia|].
    apply length_join_slash. by intros x [[? _] _]%He.
  - apply ups_NoDup. by intros x [_ ?]%Hes.
  - intros d. rewrite elem_of_ups, below_elems by done. rewrite E, rev_involutive. split.
    + intros (as_ & fs & ? & -> & ->). exists as_, (fs ++ [e]). rewrite app_assoc. split_and!; [done|by destruct fs|done|done].
    + intros (as_ & fs & ? & Hfs & Heq & ->). destruct fs as [|f fs _] using rev_ind; [done|].
      rewrite app_assoc in Heq. apply app_inj_tail in Heq as [-> _]. eauto.
Qed.

Lemma parentDir_plain p : plain_path p → parentDir p = "" ∨ (plain_path (parentDir p) ∧ below (parentDir p) p).
Proof.
  intros Hp. destruct (plain_path_elems p Hp) as (Hne & He & Hj).
  destruct (split_on slash p) as [|e es _] eqn:E using rev_ind; [done|]. rewrite Hj at 1 2 3. rewrite !parentDir_join by done.
  destruct es as [|x es]; [by left|right].
  assert (below (join_slash (x :: es)) p) as Hb by (apply below_elems; [done|]; exists (x :: es), [e]; by rewrite E).
  split; [by eapply below_plain|done].
Qed.

(** * Sets that are maps to [true] *)

Record is_set (m : gmap string bool) (P : string → Prop) : Prop := {
  is_in : ∀ k, m !! k = Some true ↔ P k;
  is_no : ∀ k, m !! k ≠ Some false;
}.

Lemma is_set_empty : is_set ∅ (λ _, False).
Proof. split; intros k; by rewrite lookup_empty. Qed.

Lemma is_set_ext m P Q : (∀ k, P k ↔ Q k) → is_set m P → is_set m Q.
Proof. intros HPQ [Hi Hn]. split; [|done]. intros k. by rewrite Hi, HPQ. Qed.

Lemma is_set_insert m P k : is_set m P → is_set (<[k := true]> m) (λ x, x = k ∨ P x).
Proof.
  intros [Hi Hn]. split; intros x; destruct (decide (x = k)) as [->|Hne]; rewrite ?lookup_insert_eq, ?lookup_insert_ne by done;
    [naive_solver|rewrite Hi; naive_solver|done|apply Hn].
Qed.

Lemma is_set_inserts m P ks : is_set m P → is_set (foldl (λ (s : gmap string bool) k, <[k := true]> s) m ks) (λ x, x ∈ ks ∨ P x).
Proof.
  revert m P. induction ks as [|k ks IH]; intros m P Hm; simpl.
  - eapply is_set_ext; [|done]. set_solver.
  - eapply is_set_ext; [|by apply IH, is_set_insert]. intros x. simpl. rewrite elem_of_cons. tauto.
Qed.

Lemma is_set_keys m P k : is_set m P → k ∈ sortedKeys m ↔ P k.
Proof.
  intros [Hi Hn]. unfold sortedKeys. rewrite sort_strings_perm, list_elem_of_fmap. rewrite <- Hi. split.
  - intros ([k' b] & -> & Hb%elem_of_map_to_list). simpl. destruct b; [done|]. by apply Hn in Hb.
  - intros Hk. exists (k, true). split; [done|]. by apply elem_of_map_to_list.
Qed.

Lemma sortedKeys_NoDup m : NoDup (sortedKeys m).
Proof. unfold sortedKeys. rewrite sort_strings_perm. apply NoDup_fst_map_to_list. Qed.

Lemma is_set_has m P k : is_set m P → has_key m k = true ↔ P k.
Proof.
  intros [Hi Hn]. rewrite <- Hi. unfold has_key. destruct (m !! k) as [[]|]; simpl; naive_solver.
Qed.

(** * [normalizeFiles] *)

Lemma normalizeFiles_elem files p : p ∈ normalizeFiles files ↔ plain_path p ∧ ∃ f, f ∈ files ∧ Clean f = p.
Proof.
  unfold normalizeFiles. match goal with |- context [foldl ?f _ _] => set (step := f) end.
  assert (∀ m P, is_set m P → is_set (foldl step m files) (λ p, P p ∨ (plain_path p ∧ ∃ f, f ∈ files ∧ Clean f = p))) as Hg.
  { induction files as [|f files IH]; intros m P Hm; cbn [foldl].
    - eapply is_set_ext; [|done]. set_solver.
    - assert (plain_path (Clean f) ↔
        ¬ (Clean f = "" ∨ Clean f = "." ∨ Clean f = ".." ∨ IsAbs (Clean f) = true ∨ HasPrefix (Clean f) "../" = true)) as Hplain.
      { split.
        - intros (? & Ha & _ & ? & ? & Hp)%plain_path_iff. rewrite Ha, Hp. naive_solver.
        - intros Hn. apply Clean_plain; [|naive_solver..|]; apply not_true_iff_false; naive_solver. }
      unfold step at 2. cbv zeta. case_decide as Hd.
      + eapply is_set_ext; [|by apply IH]. intros x. setoid_rewrite elem_of_cons. naive_solver.
      + eapply is_set_ext; [|by apply IH, is_set_insert]. intros x. setoid_rewrite elem_of_cons. naive_solver. }
  rewrite (is_set_keys _ _ p (Hg ∅ _ is_set_empty)). naive_solver.
Qed.

(** The files of a snapshot are, sorted and each once, the cleaned forms of
    the given paths that name something strictly inside the repository: relative
    paths of real elements, without a dot or dot-dot element. *)
Theorem normalizeFiles_exact files :
  (∀ p, p ∈ normalizeFiles files ↔ plain_path p ∧ ∃ f, f ∈ files ∧ Clean f = p) ∧
  NoDup (normalizeFiles files) ∧ StronglySorted string_le (normalizeFiles files).
Proof.
  split_and!; [apply normalizeFiles_elem|apply sortedKeys_NoDup|apply sort_strings_sorted].
Qed.

(** * [buildTree] *)

Definition filesBelow (d : string) (fs : list string) : list string := filter (below d) fs.

Section build.
Context (contents : gmap string string).

Definition content (p : string) : string := default "" (contents !! p).

(** The node of directory [d] once the files [fs] are rolled up. *)
Definition dirTotals (fs : list string) (d : string) : Node :=
  mkNode d (parentDir d) (if ContainsByte d slash then NodeKindPackage else NodeKindModule) (Base d) LanguageNone 0 0
    (sum_list_with (λ f, countLines (content f)) (filesBelow d fs)) (length (filesBelow d fs)).

Lemma markDirs_ok paths : (∀ p, p ∈ paths → plain_path p) → ∀ m P, is_set m P →
  ∃ m', markDirs paths m = Some m' ∧ is_set m' (λ d, P d ∨ ∃ p, p ∈ paths ∧ below d p).
Proof.
  induction paths as [|p paths IH]; intros Hp m P Hm; simpl.
  { exists m. split; [done|]. eapply is_set_ext; [|done]. set_solver. }
  destruct (ancestors_plain p) as (ds & -> & _ & Hds); [apply Hp; by left|]. simpl.
  destruct (IH ltac:(intros x Hx; apply Hp; by right) _ _ (is_set_inserts _ _ ds Hm)) as (m' & -> & Hm').
  exists m'. split; [done|]. eapply is_set_ext; [|done]. intros d. simpl. rewrite Hds. setoid_rewrite elem_of_cons. naive_solver.
Qed.

Lemma addFile_fileSet dirs P paths : is_set dirs P → ∀ m Q, is_set m Q →
  is_set (foldl (λ (s : gmap string bool) p, if has_key dirs p then s else <[p := true]> s) m paths)
    (λ p, Q p ∨ (p ∈ paths ∧ ¬ P p)).
Proof.
  intros Hd. induction paths as [|p paths IH]; intros m Q Hm; simpl.
  - eapply is_set_ext; [|done]. set_solver.
  - pose proof (is_set_has dirs P p Hd) as Hk. destruct (has_key dirs p).
    + eapply is_set_ext; [|by apply IH]. intros x. simpl. rewrite elem_of_cons. naive_solver.
    + eapply is_set_ext; [|by apply IH, is_set_insert]. intros x. simpl. rewrite elem_of_cons. naive_solver.
Qed.

Lemma dirNodes_lookup ds (ns : gmap string Node) k :
  foldl (λ (ns : gmap string Node) d, <[d := dirNode d]> ns) ns ds !! k = if decide (k ∈ ds) then Some (dirNode k) else ns !! k.
Proof.
  revert ns. induction ds as [|d ds IH]; intros ns; cbn [foldl]; [done|]. rewrite IH. destruct (decide (k ∈ ds)).
  - by rewrite decide_True by (by right).
  - destruct (decide (k = d)) as [->|]; [by rewrite lookup_insert_eq, decide_True by (by left)|].
    rewrite lookup_insert_ne by done. rewrite decide_False; [done|]. set_solver.
Qed.

Lemma rollUp_ok lang loc ds : NoDup ds → ∀ ns langs, (∀ d, d ∈ ds → is_Some (ns !! d)) → ∃ ns' langs',
  rollUp lang loc ds (ns, langs) = Some (ns', langs') ∧
  (∀ k, ns' !! k = if decide (k ∈ ds) then add_file loc <$> ns !! k else ns !! k) ∧
  (∀ k, langs' !! k = if decide (k ∈ ds ∧ lang ≠ LanguageNone) then Some (<[lang := true]> (default ∅ (langs !! k))) else langs !! k).
Proof.
  induction ds as [|d ds IH]; intros Hnd ns langs Hns.
  { exists ns, langs. split_and!; [done|done|]. intros k. rewrite decide_False; [done|]. by intros [?%not_elem_of_nil _]. }
  apply NoDup_cons in Hnd as [Hd Hnd]. destruct (Hns d ltac:(by left)) as [n Hn]. cbn [rollUp]. unfold rollDir at 1. rewrite Hn. simpl.
  set (langs1 := if decide (lang = LanguageNone) then langs else _).
  destruct (IH Hnd (<[d := add_file loc n]> ns) langs1) as (ns' & langs' & -> & Hns' & Hlangs').
  { intros d' Hd'. rewrite lookup_insert_is_Some'. right. apply Hns. by right. }
  exists ns', langs'. split_and!; [done| |].
  - intros k. rewrite Hns'. destruct (decide (k = d)) as [->|Hkd].
    + rewrite decide_False by done. rewrite lookup_insert_eq, decide_True by (by left). by rewrite Hn.
    + rewrite lookup_insert_ne by done. destruct (decide (k ∈ ds)); [by rewrite decide_True by (by right)|].
      rewrite decide_False; [done|]. set_solver.
  - intros k. rewrite Hlangs'. unfold langs1. destruct (decide (lang = LanguageNone)) as [Hl|Hl].
    + rewrite !decide_False by tauto. done.
    + destruct (decide (k = d)) as [->|Hkd].
      * rewrite decide_False by tauto. rewrite lookup_insert_eq. rewrite decide_True; [done|]. split; [by left|done].
      * rewrite !lookup_insert_ne by done. destruct (decide (k ∈ ds ∧ lang ≠ LanguageNone)) as [[? ?]|Hn'].
        -- rewrite decide_True; [done|]. split; [by right|done].
        -- rewrite decide_False; [done|]. intros [[?|?]%elem_of_cons ?]; [done|]. by apply Hn'.
Qed.

(** [D] are the directories. *)
Record rolled (D : string → Prop) (fs : list string) (st : rollState) : Prop := {
  ro_file : ∀ f, f ∈ fs → r_nodes st !! f = Some (fileNode f (content f));
  ro_dir : ∀ d, D d → r_nodes st !! d = Some (dirTotals fs d);
  ro_none : ∀ k, k ∉ fs → ¬ D k → r_nodes st !! k = None;
  ro_source : is_set (r_source st) (λ d, ∃ f, f ∈ fs ∧ parentDir f = d ∧ d ≠ "" ∧ languageForFile f ≠ LanguageNone);
  ro_langs : ∀ d l, default ∅ (r_langs st !! d) !! l = Some true ↔
    l ≠ LanguageNone ∧ ∃ f, f ∈ fs ∧ below d f ∧ languageForFile f = l;
  ro_true : ∀ d l, default ∅ (r_langs st !! d) !! l ≠ Some false;
}.

Lemma dirTotals_snoc fs f d :
  dirTotals (fs ++ [f]) d = if decide (below d f) then add_file (countLines (content f)) (dirTotals fs d) else dirTotals fs d.
Proof.
  unfold dirTotals, filesBelow. rewrite filter_app, filter_cons, filter_nil. case_decide; [|by rewrite app_nil_r].
  unfold add_file. simpl. rewrite sum_list_with_app, length_app. simpl. by rewrite Nat.add_0_r.
Qed.

Lemma addFile_ok D fs st f :
  rolled D fs st → plain_path f → f ∉ fs → ¬ D f → (∀ d, below d f → D d) →
  ∃ st', addFile contents f st = Some st' ∧ rolled D (fs ++ [f]) st'.
Proof.
  intros [Hf Hd Hn Hs Hl Ht] Hp Hnew HDf HD. unfold addFile. destruct (ancestors_plain f Hp) as (ds & -> & Hnd & Hds). simpl.
  assert (∀ d, D d → d ≠ f) as Hne by (intros d ? ->; done).
  destruct (rollUp_ok (languageForFile f) (countLines (content f)) ds Hnd
    (<[f := fileNode f (content f)]> (r_nodes st)) (r_langs st)) as (ns & langs & Hr & Hns & Hlangs).
  { intros d Hdd%Hds%HD. rewrite lookup_insert_ne by (intros ->; done). rewrite (Hd d Hdd). by eexists. }
  unfold content in Hr. rewrite Hr. simpl. eexists. split; [done|].
  assert (f ∉ ds) as Hfds by (intros ?%Hds%below_longer; lia).
  split; simpl.
  - intros x [Hx| ->%list_elem_of_singleton]%elem_of_app; rewrite Hns.
    + rewrite decide_False; [|intros Hx'%Hds%HD; specialize (Hf x Hx); rewrite (Hd x Hx') in Hf; by injection Hf as Hf; destruct (ContainsByte x slash)].
      rewrite lookup_insert_ne by (intros ->; done). by apply Hf.
    + rewrite decide_False by done. apply lookup_insert_eq.
  - intros d Hdd. rewrite Hns, lookup_insert_ne by (intros ->; done). rewrite dirTotals_snoc, (Hd d Hdd). simpl.
    destruct (decide (d ∈ ds)) as [Hin|Hin]; rewrite Hds in Hin; [by rewrite decide_True|by rewrite decide_False].
  - intros k [Hk Hkf]%not_elem_of_app HDk. rewrite Hns. rewrite decide_False by (by intros ?%Hds%HD).
    rewrite lookup_insert_ne by (intros ->; apply Hkf; by left). by apply Hn.
  - destruct (decide (languageForFile f ≠ LanguageNone ∧ parentDir f ≠ "")) as [Hc|Hc].
    + eapply is_set_ext; [|apply is_set_insert, Hs]. intros d. simpl. setoid_rewrite elem_of_app.
      setoid_rewrite list_elem_of_singleton. split.
      * intros [->|(x & ? & ? & ? & ?)]; [exists f; tauto|exists x; tauto].
      * intros (x & [?| ->] & <- & ? & ?); [right; by exists x|by left].
    + eapply is_set_ext; [|apply Hs]. intros d. simpl. setoid_rewrite elem_of_app. setoid_rewrite list_elem_of_singleton.
      split; [intros (x & ? & ? & ? & ?); exists x; tauto|]. intros (x & [?| ->] & <- & ? & ?); [by exists x|]. by destruct Hc.
  - intros d l. rewrite Hlangs. setoid_rewrite elem_of_app. setoid_rewrite list_elem_of_singleton.
    destruct (decide (d ∈ ds ∧ languageForFile f ≠ LanguageNone)) as [[Hin Hlf]|Hno]; simpl.
    + apply Hds in Hin. destruct (decide (l = languageForFile f)) as [->|Hll].
      * rewrite lookup_insert_eq. split; [|done]. intros _. split; [done|]. exists f. tauto.
      * rewrite lookup_insert_ne by done. rewrite Hl. split.
        -- intros (? & x & ? & ? & ?). split; [done|]. exists x. tauto.
        -- intros (? & x & [?| ->] & ? & Hx); [|by rewrite Hx in Hll]. split; [done|]. by exists x.
    + rewrite Hl. rewrite Hds in Hno. split.
      * intros (? & x & ? & ? & ?). split; [done|]. exists x. tauto.
      * intros (? & x & [?| ->] & ? & Hx); [split; [done|]; by exists x|]. rewrite Hx in Hno. tauto.
  - intros d l. rewrite Hlangs. destruct (decide (d ∈ ds ∧ languageForFile f ≠ LanguageNone)); [|apply Ht]. simpl. destruct (decide (l = languageForFile f)) as [->|Hll];
      [by rewrite lookup_insert_eq|rewrite lookup_insert_ne by done; apply Ht].
Qed.

Lemma addFiles_ok D ps : NoDup ps → (∀ f, f ∈ ps → plain_path f ∧ ¬ D f ∧ ∀ d, below d f → D d) → ∀ fs st,
  rolled D fs st → (∀ f, f ∈ ps → f ∉ fs) → ∃ st', addFiles contents ps st = Some st' ∧ rolled D (fs ++ ps) st'.
Proof.
  induction ps as [|f ps IH]; intros Hnd Hps fs st Hst Hdis; simpl; [exists st; by rewrite app_nil_r|].
  apply NoDup_cons in Hnd as [Hf Hnd]. destruct (Hps f ltac:(by left)) as (Hp & HDf & HD).
  destruct (addFile_ok D fs st f) as (st1 & -> & Hst1); [done|done|apply Hdis; by left|done|done|]. simpl.
  destruct (IH Hnd ltac:(intros x Hx; apply Hps; by right) (fs ++ [f]) st1 Hst1) as (st2 & -> & Hst2).
  - intros x Hx [?| ->%list_elem_of_singleton]%elem_of_app; [|done]. by apply (Hdis x); [right|].
  - exists st2. split; [done|]. by rewrite <- app_assoc in Hst2.
Qed.

(** The language a set of languages gives its directory, when there is one. *)
Definition singleLang (set : gmap Language bool) : option Language :=
  match (map_to_list set).*1 with [l] => Some l | _ => None end.

Lemma singleLang_Some set l :
  (∀ l', set !! l' ≠ Some false) → singleLang set = Some l ↔ ∀ l', set !! l' = Some true ↔ l' = l.
Proof.
  intros Ht. assert (∀ l', set !! l' = Some true ↔ l' ∈ (map_to_list set).*1) as Hin.
  { intros l'. rewrite list_elem_of_fmap. split.
    - intros Hl. exists (l', true). split; [done|]. by apply elem_of_map_to_list.
    - intros ([k b] & -> & Hb%elem_of_map_to_list). simpl. destruct b; [done|]. by apply Ht in Hb. }
  unfold singleLang. pose proof (NoDup_fst_map_to_list set) as Hnd. setoid_rewrite Hin.
  destruct ((map_to_list set).*1) as [|a [|b ls]].
  - split; [done|]. intros Hl. exfalso. by apply (not_elem_of_nil l), Hl.
  - setoid_rewrite list_elem_of_singleton. split; [by intros [= ->]|]. intros Hl. f_equal. by apply Hl.
  - split; [done|]. intros Hl. exfalso. apply NoDup_cons in Hnd as [Hab _]. apply Hab.
    assert (a = l) as -> by (apply Hl; by left). assert (b = l) as -> by (apply Hl; right; by left). by left.
Qed.

Definition with_language (o : option Language) (n : Node) : Node :=
  match o with Some l => set_Language l n | None => n end.

Lemma uniformLanguages_ok entries : NoDup entries.*1 → ∀ ns : gmap string Node,
  (∀ d set, (d, set) ∈ entries → is_Some (singleLang set) → is_Some (ns !! d)) →
  ∃ ns', uniformLanguages entries ns = Some ns' ∧ (∀ k, k ∉ entries.*1 → ns' !! k = ns !! k) ∧
    ∀ d set, (d, set) ∈ entries → ns' !! d = with_language (singleLang set) <$> ns !! d.
Proof.
  induction entries as [|[d set] entries IH]; intros Hnd ns Hns.
  { exists ns. split_and!; [done|done|]. by intros d set ?%not_elem_of_nil. }
  simpl in Hnd. apply NoDup_cons in Hnd as [Hd Hnd].
  assert (∃ ns1, uniformLanguage d set ns = Some ns1 ∧ (∀ k, k ≠ d → ns1 !! k = ns !! k) ∧
    ns1 !! d = with_language (singleLang set) <$> ns !! d) as (ns1 & Hu & Hother & Hself).
  { specialize (Hns d set ltac:(by left)). unfold uniformLanguage, singleLang in *.
    destruct ((map_to_list set).*1) as [|l [|l' ls]]; simpl.
    - exists ns. split_and!; [done..|]. by destruct (ns !! d).
    - destruct Hns as [n Hn]; [done|]. rewrite Hn. simpl. eexists. split_and!; [done| |apply lookup_insert_eq].
      intros k Hk. by rewrite lookup_insert_ne.
    - exists ns. split_and!; [done..|]. by destruct (ns !! d). }
  cbn [uniformLanguages]. rewrite Hu. simpl. destruct (IH Hnd ns1) as (ns' & -> & Ho & Hs).
  { intros k s Hk Hsome. assert (k ≠ d). { intros ->. apply Hd. apply (list_elem_of_fmap_2 fst _ (d, s)) in Hk. done. }
    rewrite Hother by done. apply (Hns k s); [by right|done]. }
  exists ns'. split_and!; [done| |].
  - intros k [Hk Hk']%not_elem_of_cons. rewrite Ho by done. by apply Hother.
  - intros k s [[= -> ->]|Hk]%elem_of_cons; [by rewrite Ho|]. rewrite (Hs k s Hk), Hother; [done|].
    intros ->. apply Hd. by apply (list_elem_of_fmap_2 fst _ (d, s)) in Hk.
Qed.

(** The language of the source files below [d], when they share one. *)
Definition uniform (fs : list string) (d : string) (l : Language) : Prop :=
  ∀ l0, l0 ≠ LanguageNone → l = l0 ↔
    (∃ f, f ∈ fs ∧ below d f ∧ languageForFile f = l0) ∧
    ∀ f, f ∈ fs → below d f → languageForFile f = LanguageNone ∨ languageForFile f = l0.

(** The tree of a list of paths: its directories are everything above a path,
    its files the paths that are not directories. *)
Definition isDir (paths : list string) (d : string) : Prop := ∃ p, p ∈ paths ∧ below d p.
Definition isFile (paths : list string) (f : string) : Prop := f ∈ paths ∧ ¬ isDir paths f.

Record tree_of (paths : list string) (t : fileTree) : Prop := {
  to_dirs : is_set (dirSet t) (isDir paths);
  to_files : is_set (fileSet t) (isFile paths);
  to_source : is_set (dirHasSource t) (λ d, ∃ f, isFile paths f ∧ parentDir f = d ∧ d ≠ "" ∧ languageForFile f ≠ LanguageNone);
  to_file : ∀ f, isFile paths f → nodes t !! f = Some (fileNode f (content f));
  to_dir : ∀ d, isDir paths d → ∃ l, uniform (sortedFiles t) d l ∧
    nodes t !! d = Some (set_Language l (dirTotals (sortedFiles t) d));
  to_none : ∀ k, ¬ isFile paths k → ¬ isDir paths k → nodes t !! k = None;
}.

Lemma languages_single (fs : list string) d l0 : l0 ≠ LanguageNone →
  (∀ l, (l ≠ LanguageNone ∧ ∃ f, f ∈ fs ∧ below d f ∧ languageForFile f = l) ↔ l = l0) ↔
  (∃ f, f ∈ fs ∧ below d f ∧ languageForFile f = l0) ∧
  ∀ f, f ∈ fs → below d f → languageForFile f = LanguageNone ∨ languageForFile f = l0.
Proof.
  intros Hl0. split.
  - intros Hl. split; [by apply Hl|]. intros f Hf Hb. destruct (decide (languageForFile f = LanguageNone)); [by left|right].
    apply Hl. eauto.
  - intros [Hex Hall] l. split; [|intros ->; done]. intros (Hl & f & Hf & Hb & E). destruct (Hall f Hf Hb); congruence.
Qed.

Lemma buildTree_ok {MO : MapOrder} paths : (∀ p, p ∈ paths → plain_path p) →
  ∃ t, buildTree paths contents = Some t ∧ tree_of paths t.
Proof.
  intros Hp. unfold buildTree. destruct (markDirs_ok paths Hp ∅ _ is_set_empty) as (dirs & -> & Hdirs0). simpl.
  assert (is_set dirs (isDir paths)) as Hdirs by (eapply is_set_ext; [|exact Hdirs0]; intros d; unfold isDir; tauto).
  set (files := foldl _ ∅ paths).
  assert (is_set files (isFile paths)) as Hfiles.
  { eapply is_set_ext; [|apply (addFile_fileSet dirs _ paths Hdirs ∅ _ is_set_empty)]. intros k. unfold isFile. simpl. tauto. }
  set (ns0 := foldl _ ∅ (sortedKeys dirs)).
  destruct (addFiles_ok (isDir paths) (sortedKeys files)) with (fs := @nil string) (st := mkRoll ns0 ∅ ∅) as (st & Hst & Hro).
  - apply sortedKeys_NoDup.
  - intros f [Hf Hn]%(is_set_keys files _ f Hfiles). split_and!; [by apply Hp|done|]. intros d Hd. by exists f.
  - split; simpl.
    + by intros f ?%not_elem_of_nil.
    + intros d Hd. unfold ns0. rewrite dirNodes_lookup, decide_True; [done|]. by apply (is_set_keys dirs _ d Hdirs).
    + intros k _ Hk. unfold ns0. rewrite dirNodes_lookup, decide_False; [by rewrite lookup_empty|].
      by rewrite (is_set_keys dirs _ k Hdirs).
    + eapply is_set_ext; [|apply is_set_empty]. intros d. simpl. split; [done|]. by intros (f & ?%not_elem_of_nil & _).
    + intros d l. rewrite lookup_empty. simpl. rewrite lookup_empty. split; [done|]. by intros (_ & f & ?%not_elem_of_nil & _).
    + intros d l. rewrite lookup_empty. simpl. by rewrite lookup_empty.
  - by intros f _ ?%not_elem_of_nil.
  - rewrite Hst. simpl. simpl in Hro.
    assert (∀ d l, singleLang (default ∅ (r_langs st !! d)) = Some l → ∃ f, f ∈ sortedKeys files ∧ below d f) as Hsome.
    { intros d l Hl. rewrite singleLang_Some in Hl by apply (ro_true _ _ _ Hro).
      pose proof (proj2 (Hl l) eq_refl) as Hll. apply (ro_langs _ _ _ Hro) in Hll as (_ & f & ? & ? & _). eauto. }
    destruct (uniformLanguages_ok (range_str (r_langs st))) with (ns := r_nodes st) as (ns & -> & Hother & Hdone).
    + rewrite range_str_perm. apply NoDup_fst_map_to_list.
    + intros d set Hin%elem_of_range_str [l Hl]. destruct (Hsome d l) as (f & Hf & Hb); [by rewrite Hin|].
      apply (is_set_keys files _ f Hfiles) in Hf as [Hf _]. rewrite (ro_dir _ _ _ Hro d) by (by exists f). by eexists.
    + simpl. eexists. split; [done|].
      assert (∀ k, ns !! k = with_language (singleLang (default ∅ (r_langs st !! k))) <$> r_nodes st !! k) as Hns.
      { intros k. destruct (r_langs st !! k) as [set|] eqn:E; [by apply Hdone, elem_of_range_str|]. simpl. rewrite Hother.
        - by destruct (r_nodes st !! k).
        - intros ([k' set] & -> & Hk%elem_of_range_str)%list_elem_of_fmap. simpl in E. congruence. }
      split; simpl; [done|done| | | |].
      * eapply is_set_ext; [|apply (ro_source _ _ _ Hro)]. intros d. simpl. by setoid_rewrite (is_set_keys files _ _ Hfiles).
      * intros f Hf. rewrite Hns, (ro_file _ _ _ Hro) by (by apply (is_set_keys files _ f Hfiles)). simpl.
        destruct (singleLang _) as [l|] eqn:E; [|done]. destruct (Hsome f l E) as (p & Hpin & Hb).
        apply (is_set_keys files _ p Hfiles) in Hpin as [Hpin _]. destruct Hf as [_ []]. by exists p.
      * intros d Hd. rewrite Hns, (ro_dir _ _ _ Hro d Hd). simpl.
        exists (default LanguageNone (singleLang (default ∅ (r_langs st !! d)))). split.
        -- intros l0 Hl0. transitivity (singleLang (default ∅ (r_langs st !! d)) = Some l0).
           { destruct (singleLang _) as [l|]; simpl; [|by split; [intros <-|]]. by split; [intros ->|intros [= ->]]. }
           rewrite singleLang_Some by apply (ro_true _ _ _ Hro). setoid_rewrite (ro_langs _ _ _ Hro). apply languages_single; done.
        -- by destruct (singleLang _).
      * intros k Hf Hd. rewrite Hns, (ro_none _ _ _ Hro k); [done| |done]. by rewrite (is_set_keys files _ k Hfiles).
Qed.
End build.

(** The tree of a snapshot: whatever paths are given, building it ends and
    yields one node per file and per directory above a file; a path that is also
    a directory is only that; every directory carries the lines and the number
    of exactly the files somewhere below it, and a language precisely when the
    source files below it share one; and the directories marked as having source
    are the parents of source files. *)
Theorem buildTree_exact {MO : MapOrder} files contents :
  ∃ t, buildTree (normalizeFiles files) contents = Some t ∧ tree_of contents (normalizeFiles files) t.
Proof. apply buildTree_ok. by intros p [? _]%normalizeFiles_elem. Qed.
