(* ===== verification/Layout.v ===== *)
(** * Layers and orders of the tree's nodes ([internal/codegraph/layering.go])

    [applyLayout] and [assignOrder], over the tree of [FileTree] and the layers
    of [Layering].  [None] is the dereference of a nil node. *)
From S2P Require Import Prelude GoStrings GoPaths CodeGraph Tarjan Layering FileTree.
Local Open Scope string_scope.
Local Open Scope list_scope.
Local Open Scope nat_scope.

(** [minAncestor] of one package: every directory above it. *)
Definition lowerAncestors (layer : nat) (ds : list string) (m : gmap string nat) : gmap string nat :=
  foldl (λ (m : gmap string nat) a,
    match m !! a with
    | Some cur => if decide (layer < cur) then <[a := layer]> m else m
    | None => <[a := layer]> m
    end) m ds.

Fixpoint minAncestors (layerOf : gmap string nat) (pkgs : list string) (m : gmap string nat) : option (gmap string nat) :=
  match pkgs with
  | [] => Some m
  | pkg :: pkgs => ds ← ancestors pkg; minAncestors layerOf pkgs (lowerAncestors (get0 layerOf pkg) ds m)
  end.

Definition dirLayer (layerOf minAncestor : gmap string nat) (d : string) : nat :=
  match layerOf !! d with
  | Some layer => layer
  | None => default 0 (minAncestor !! d)
  end.

Fixpoint layerDirs (layerOf minAncestor : gmap string nat) (ds : list string) (ns : gmap string Node) : option (gmap string Node) :=
  match ds with
  | [] => Some ns
  | d :: ds => n ← ns !! d; layerDirs layerOf minAncestor ds (<[d := set_Layer (dirLayer layerOf minAncestor d) n]> ns)
  end.

Fixpoint layerFiles (fs : list string) (ns : gmap string Node) : option (gmap string Node) :=
  match fs with
  | [] => Some ns
  | f :: fs =>
    n ← ns !! f;
    layer ← (if decide (Parent n ≠ "") then p ← ns !! Parent n; Some (Layer p) else Some 0);
    layerFiles fs (<[f := set_Layer layer n]> ns)
  end.

Definition order_fields (ns : gmap string Node) (id : string) : list string :=
  match ns !! id with Some n => [Parent n; Name n] | None => [] end.

Definition groupByLayer (entries : list (string * Node)) : gmap nat (list string) :=
  foldl (λ (m : gmap nat (list string)) '(id, n), <[Layer n := default [] (m !! Layer n) ++ [id]]> m) ∅ entries.

(** [for i, n := range nodes { n.Order = i }]. *)
Definition numberOrder (ids : list string) (ns : gmap string Node) : gmap string Node :=
  foldl (λ (ns : gmap string Node) '(i, id), alter (set_Order i) id ns) ns (imap pair ids).

Section layout.
Context {MO : MapOrder}.

Definition assignOrder (ns : gmap string Node) : gmap string Node :=
  let byLayer := groupByLayer (range_str ns) in
  foldl (λ (ns : gmap string Node) layer,
    numberOrder (sort_by (order_fields ns) (default [] (byLayer !! layer))) ns) ns (merge_sort le (map_to_list byLayer).*1).

Definition applyLayout (t : fileTree) (edges : list Edge) : option (fileTree * list Violation) :=
  let pkgs := sortedKeys (dirHasSource t) in
  '(layerOf, violations) ← layerPackages pkgs edges;
  minAncestor ← minAncestors layerOf pkgs ∅;
  ns ← layerDirs layerOf minAncestor (sortedKeys (dirSet t)) (nodes t);
  ns ← layerFiles (sortedFiles t) ns;
  Some (mkTree (assignOrder ns) (fileSet t) (dirSet t) (dirHasSource t), violations).

(** ** [minAncestor] *)

Lemma lowerAncestors_lookup layer ds m a : NoDup ds →
  lowerAncestors layer ds m !! a =
    if decide (a ∈ ds) then Some (match m !! a with Some cur => layer `min` cur | None => layer end) else m !! a.
Proof.
  unfold lowerAncestors. intros Hnd. revert m. induction Hnd as [|d ds Hd _ IH]; intros m; [done|]. cbn [foldl]. rewrite IH.
  set (m1 := match m !! d with Some cur => _ | None => _ end).
  assert (m1 !! d = Some (match m !! d with Some cur => layer `min` cur | None => layer end)) as Hself.
  { unfold m1. destruct (m !! d) as [cur|] eqn:E; [|apply lookup_insert_eq]. destruct (decide (layer < cur)).
    - rewrite lookup_insert_eq. f_equal. lia.
    - rewrite E. f_equal. lia. }
  assert (∀ k, k ≠ d → m1 !! k = m !! k) as Hother.
  { intros k Hk. unfold m1. destruct (m !! d) as [cur|]; [destruct (decide (layer < cur)); [by rewrite lookup_insert_ne|done]|by rewrite lookup_insert_ne]. }
  destruct (decide (a = d)) as [->|Ha].
  - rewrite decide_False by done. rewrite Hself, decide_True; [done|by left].
  - rewrite Hother by done. destruct (decide (a ∈ ds)); [by rewrite decide_True by (by right)|].
    rewrite decide_False; [done|]. set_solver.
Qed.

(** [least layerOf pkgs a o]: [o] is the least layer of the packages below [a]. *)
Definition least (layerOf : gmap string nat) (pkgs : list string) (a : string) (o : option nat) : Prop :=
  match o with
  | None => ∀ pkg, pkg ∈ pkgs → ¬ below a pkg
  | Some k => (∃ pkg, pkg ∈ pkgs ∧ below a pkg ∧ get0 layerOf pkg = k) ∧
      ∀ pkg, pkg ∈ pkgs → below a pkg → k ≤ get0 layerOf pkg
  end.

Lemma minAncestors_ok layerOf pkgs : (∀ p, p ∈ pkgs → plain_path p) → ∀ seen m, (∀ a, least layerOf seen a (m !! a)) →
  ∃ m', minAncestors layerOf pkgs m = Some m' ∧ ∀ a, least layerOf (seen ++ pkgs) a (m' !! a).
Proof.
  induction pkgs as [|p pkgs IH]; intros Hp seen m Hm; cbn [minAncestors]; [exists m; by rewrite app_nil_r|].
  destruct (ancestors_plain p) as (ds & -> & Hnd & Hds); [apply Hp; by left|]. simpl.
  destruct (IH ltac:(intros x Hx; apply Hp; by right) (seen ++ [p]) (lowerAncestors (get0 layerOf p) ds m)) as (m' & -> & Hm').
  - intros a. rewrite lowerAncestors_lookup by done. specialize (Hm a).
    assert (∀ pkg, pkg ∈ seen ++ [p] ↔ pkg ∈ seen ∨ pkg = p) as Hin by (intros; by rewrite elem_of_app, list_elem_of_singleton).
    destruct (decide (a ∈ ds)) as [Ha|Ha]; rewrite Hds in Ha.
    + simpl. setoid_rewrite Hin. destruct (m !! a) as [cur|]; simpl in Hm.
      * destruct Hm as [(q & Hq & Hqb & Hql) Hmin]. split.
        -- destruct (Nat.min_spec (get0 layerOf p) cur) as [[_ ->]|[_ ->]]; [exists p; auto|exists q; auto].
        -- intros pkg [Hpk| ->] Hb; [specialize (Hmin pkg Hpk Hb)|]; lia.
      * split; [exists p; auto|]. intros pkg [Hpk| ->] Hb; [|lia]. by destruct (Hm pkg Hpk).
    + destruct (m !! a) as [cur|]; simpl in *; setoid_rewrite Hin.
      * destruct Hm as [(q & Hq & Hqb & Hql) Hmin]. split; [exists q; auto|]. intros pkg [Hpk| ->] Hb; [by apply Hmin|done].
      * intros pkg [Hpk| ->]; [by apply Hm|done].
  - exists m'. split; [done|]. by rewrite <- app_assoc in Hm'.
Qed.

(** ** Layers *)

Lemma layerDirs_ok layerOf minA ds : NoDup ds → ∀ ns : gmap string Node, (∀ d, d ∈ ds → is_Some (ns !! d)) →
  ∃ ns', layerDirs layerOf minA ds ns = Some ns' ∧
    ∀ k, ns' !! k = if decide (k ∈ ds) then set_Layer (dirLayer layerOf minA k) <$> ns !! k else ns !! k.
Proof.
  intros Hnd. induction Hnd as [|d ds Hd _ IH]; intros ns Hns; cbn [layerDirs]; [by exists ns|].
  destruct (Hns d ltac:(by left)) as [n Hn]. rewrite Hn. simpl.
  destruct (IH (<[d := set_Layer (dirLayer layerOf minA d) n]> ns)) as (ns' & -> & Hns').
  { intros k Hk. apply lookup_insert_is_Some'. right. apply Hns. by right. }
  exists ns'. split; [done|]. intros k. rewrite Hns'. destruct (decide (k = d)) as [->|Hk].
  - rewrite decide_False by done. rewrite lookup_insert_eq, decide_True by (by left). by rewrite Hn.
  - rewrite lookup_insert_ne by done. destruct (decide (k ∈ ds)); [by rewrite decide_True by (by right)|].
    rewrite decide_False; [done|]. set_solver.
Qed.

Definition parentLayer (ns : gmap string Node) (n : Node) : nat :=
  if decide (Parent n = "") then 0 else match ns !! Parent n with Some p => Layer p | None => 0 end.

Lemma layerFiles_ok fs : NoDup fs → ∀ ns : gmap string Node,
  (∀ f, f ∈ fs → ∃ n, ns !! f = Some n ∧ (Parent n = "" ∨ (Parent n ∉ fs ∧ is_Some (ns !! Parent n)))) →
  ∃ ns', layerFiles fs ns = Some ns' ∧
    ∀ k, ns' !! k = if decide (k ∈ fs) then (λ n, set_Layer (parentLayer ns n) n) <$> ns !! k else ns !! k.
Proof.
  intros Hnd. induction Hnd as [|f fs Hf Hnd IH]; intros ns Hns; cbn [layerFiles]; [by exists ns|].
  destruct (Hns f ltac:(by left)) as (n & Hn & Hpar). rewrite Hn. simpl.
  assert ((if decide (Parent n ≠ "") then p ← ns !! Parent n; Some (Layer p) else Some 0) = Some (parentLayer ns n)) as ->.
  { unfold parentLayer. destruct (decide (Parent n = "")) as [->|Hp]; [by rewrite decide_False by tauto|].
    rewrite decide_True by done. destruct Hpar as [|[_ [p ->]]]; done. }
  simpl. set (ns1 := <[f := set_Layer (parentLayer ns n) n]> ns).
  assert (∀ f', f' ∈ fs → ∀ n', ns !! f' = Some n' → Parent n' = "" ∨ ns1 !! Parent n' = ns !! Parent n') as Hsame.
  { intros f' Hf' n' Hn'. destruct (Hns f' ltac:(by right)) as (n'' & Hn'' & [?|[Hp _]]); simplify_eq; [by left|right].
    unfold ns1. rewrite lookup_insert_ne; [done|]. intros ->. apply Hp. by left. }
  destruct (IH ns1) as (ns' & -> & Hns').
  { intros f' Hf'. destruct (Hns f' ltac:(by right)) as (n' & Hn' & Hp'). exists n'. split.
    - unfold ns1. rewrite lookup_insert_ne; [done|]. by intros ->.
    - destruct Hp' as [?|[Hp' Hex]]; [by left|right]. split; [intros ?; apply Hp'; by right|].
      unfold ns1. rewrite lookup_insert_ne; [done|]. intros ->. apply Hp'. by left. }
  exists ns'. split; [done|]. intros k. rewrite Hns'. destruct (decide (k = f)) as [->|Hk].
  - rewrite decide_False by done. rewrite decide_True by (by left). unfold ns1. by rewrite lookup_insert_eq, Hn.
  - assert (ns1 !! k = ns !! k) as -> by (unfold ns1; by rewrite lookup_insert_ne).
    destruct (decide (k ∈ fs)) as [Hin|Hin]; [rewrite decide_True by (by right)|rewrite decide_False; [done|set_solver]].
    destruct (ns !! k) as [n'|] eqn:E; [|done]. simpl. do 2 f_equal. unfold parentLayer.
    destruct (Hsame k Hin n' E) as [Hp|Hp]; [by rewrite !decide_True by done|by rewrite Hp].
Qed.

(** ** Orders *)

Lemma groupByLayer_lookup entries L :
  default [] (groupByLayer entries !! L) = fst <$> filter (λ e : string * Node, Layer e.2 = L) entries.
Proof.
  unfold groupByLayer. match goal with |- context [foldl ?f _ _] => set (step := f) end.
  assert (∀ m, default [] (foldl step m entries !! L) =
    default [] (m !! L) ++ (fst <$> filter (λ e : string * Node, Layer e.2 = L) entries)) as Hg.
  { induction entries as [|[id n] entries IH]; intros m; cbn [foldl]; [by rewrite app_nil_r|].
    rewrite IH, filter_cons. simpl. destruct (decide (Layer n = L)) as [<-|Hne].
    - rewrite lookup_insert_eq. simpl. by rewrite <- app_assoc.
    - by rewrite lookup_insert_ne. }
  by rewrite Hg, lookup_empty.
Qed.

Lemma groupByLayer_dom entries L : L ∉ (map_to_list (groupByLayer entries)).*1 → groupByLayer entries !! L = None.
Proof.
  intros HL. destruct (_ !! L) as [ids|] eqn:E; [|done]. destruct HL. apply elem_of_map_to_list in E.
  by apply (list_elem_of_fmap_2 fst _ (L, ids)).
Qed.

Lemma numberOrder_lookup ids : NoDup ids → ∀ b (ns : gmap string Node),
  let ns' := foldl (λ (ns : gmap string Node) '(i, id), alter (set_Order i) id ns) ns (imap (λ i id, (b + i, id)) ids) in
  (∀ k, k ∉ ids → ns' !! k = ns !! k) ∧ ∀ i k, ids !! i = Some k → ns' !! k = set_Order (b + i) <$> ns !! k.
Proof.
  induction 1 as [|id ids Hid Hnd IH]; intros b ns; simpl; [done|]. rewrite Nat.add_0_r.
  rewrite (imap_ext _ (λ i id, (S b + i, id))) by (intros; cbn; f_equal; lia).
  destruct (IH (S b) (alter (set_Order b) id ns)) as [Hother Hin]. split.
  - intros k [Hk Hk']%not_elem_of_cons. rewrite Hother by done. by rewrite lookup_alter_ne.
  - intros [|i] k Hk; simpl in Hk.
    + simplify_eq. rewrite Hother by done. rewrite lookup_alter_eq. by rewrite Nat.add_0_r.
    + rewrite (Hin i k Hk). assert (k ≠ id) by (intros ->; by apply Hid, (list_elem_of_lookup_2 _ i)).
      rewrite lookup_alter_ne by done. f_equal. f_equal. lia.
Qed.

(** The nodes of one layer, in the order they are numbered. *)
Definition numbered (ns ns' : gmap string Node) (L : nat) : Prop :=
  ∃ ids, StronglySorted (by_key (order_fields ns)) ids ∧ NoDup ids ∧
    (∀ k, k ∈ ids ↔ ∃ n, ns !! k = Some n ∧ Layer n = L) ∧
    ∀ i k, ids !! i = Some k → ns' !! k = set_Order i <$> ns !! k.

(** The nodes up to their orders. *)
Definition reordered (ns ns' : gmap string Node) : Prop :=
  ∀ k, match ns !! k with Some n => ∃ o, ns' !! k = Some (set_Order o n) | None => ns' !! k = None end.

Lemma reordered_fields ns ns' k : reordered ns ns' → order_fields ns' k = order_fields ns k.
Proof.
  intros Hr. specialize (Hr k). unfold order_fields. destruct (ns !! k) as [n|]; [|by rewrite Hr].
  destruct Hr as [o ->]. done.
Qed.

Lemma StronglySorted_key {A} (f g : A → list string) l : (∀ x, f x = g x) → StronglySorted (by_key f) l → StronglySorted (by_key g) l.
Proof. intros Hfg. rewrite <- (list_fmap_id l) at 2. apply StronglySorted_fmap. intros x y. unfold by_key. by rewrite !Hfg. Qed.

Lemma number_layer ns cur L entries (Ls : list nat) :
  entries ≡ₚ map_to_list ns → reordered ns cur → L ∉ Ls → (∀ L', L' ∈ Ls → numbered ns cur L') →
  let cur' := numberOrder (sort_by (order_fields cur) (default [] (groupByLayer entries !! L))) cur in
  reordered ns cur' ∧ ∀ L', L' ∈ Ls ++ [L] → numbered ns cur' L'.
Proof.
  intros Hent Hre HL Hdone. rewrite groupByLayer_lookup. set (ids := sort_by _ _). intros cur'.
  assert (ids ≡ₚ fst <$> filter (λ e : string * Node, Layer e.2 = L) (map_to_list ns)) as Hperm.
  { unfold ids. by rewrite sort_by_perm, Hent. }
  assert (NoDup ids) as Hnd.
  { rewrite Hperm. eapply sublist_NoDup; [apply (NoDup_fst_map_to_list ns)|]. apply (fmap_sublist fst), sublist_filter. }
  assert (∀ k, k ∈ ids ↔ ∃ n, ns !! k = Some n ∧ Layer n = L) as Hin.
  { intros k. rewrite Hperm, list_elem_of_fmap. split.
    - intros ([k' n] & -> & [Hl Hk%elem_of_map_to_list]%list_elem_of_filter). eauto.
    - intros (n & Hn & Hl). exists (k, n). split; [done|]. apply list_elem_of_filter. split; [done|]. by apply elem_of_map_to_list. }
  destruct (numberOrder_lookup ids Hnd 0 cur) as [Hother Hself]. change (foldl _ cur _) with cur' in Hother, Hself.
  assert (∀ i k n, ids !! i = Some k → ns !! k = Some n → cur' !! k = Some (set_Order i n)) as Hset.
  { intros i k n Hi Hn. rewrite (Hself i k Hi). specialize (Hre k). rewrite Hn in Hre. destruct Hre as [o ->]. done. }
  split.
  - intros k. destruct (decide (k ∈ ids)) as [Hk|Hk].
    + apply Hin in Hk as Hk'. destruct Hk' as (n & Hn & _). rewrite Hn. apply list_elem_of_lookup in Hk as [i Hi]. eauto.
    + rewrite (Hother k Hk). apply Hre.
  - intros L' [HL'| ->%list_elem_of_singleton]%elem_of_app.
    + destruct (Hdone L' HL') as (ids' & ? & ? & Hin' & Hnum). exists ids'. split_and!; [done..|]. intros i k Hi.
      rewrite Hother; [by apply Hnum|]. rewrite Hin. intros (n & Hn & Hl).
      apply list_elem_of_lookup_2, Hin' in Hi as (n' & Hn' & Hl'). simplify_eq. done.
    + exists ids. split_and!; [|done|done|].
      * eapply StronglySorted_key; [intros; by apply reordered_fields|apply sort_by_sorted].
      * intros i k Hi. destruct (proj1 (Hin k) (list_elem_of_lookup_2 _ _ _ Hi)) as (n & Hn & _). rewrite Hn.
        exact (Hset i k n Hi Hn).
Qed.

Lemma assignOrder_ok ns : reordered ns (assignOrder ns) ∧ ∀ L, numbered ns (assignOrder ns) L.
Proof.
  unfold assignOrder. set (byLayer := groupByLayer (range_str ns)). set (Ls := merge_sort le (map_to_list byLayer).*1).
  assert (NoDup Ls) as Hnd by (unfold Ls; rewrite merge_sort_Permutation; apply NoDup_fst_map_to_list).
  assert (∀ todo past cur, NoDup (past ++ todo) → reordered ns cur → (∀ L, L ∈ past → numbered ns cur L) →
    let ns' := foldl (λ (ns : gmap string Node) layer,
      numberOrder (sort_by (order_fields ns) (default [] (byLayer !! layer))) ns) cur todo in
    reordered ns ns' ∧ ∀ L, L ∈ past ++ todo → numbered ns ns' L) as Hg.
  { induction todo as [|L todo IH]; intros past cur Hnd' Hre Hpast; cbn [foldl]; [by rewrite app_nil_r|].
    destruct (number_layer ns cur L (range_str ns) past) as [Hre' Hnum']; [apply range_str_perm|done| |done|].
    { apply NoDup_app in Hnd' as (_ & Hdis & _). intros Hin. apply (Hdis L Hin). by left. }
    fold byLayer in Hre', Hnum'. rewrite cons_middle, app_assoc in Hnd'. specialize (IH (past ++ [L]) _ Hnd' Hre' Hnum').
    rewrite <- app_assoc in IH. exact IH. }
  destruct (Hg Ls [] ns) as [Hre Hnum]; [done| |by intros L ?%not_elem_of_nil|].
  { intros k. destruct (ns !! k) as [n|] eqn:E; [|done]. exists (Order n). by destruct n. }
  split; [done|]. intros L. destruct (decide (L ∈ Ls)) as [HL|HL]; [by apply Hnum|]. exists [].
  assert (byLayer !! L = None) as Hnone.
  { apply groupByLayer_dom. unfold Ls in HL. by rewrite merge_sort_Permutation in HL. }
  split_and!; [constructor|constructor| |done]. intros k. split; [by intros ?%not_elem_of_nil|].
  intros (n & Hn & Hl). pose proof (groupByLayer_lookup (range_str ns) L) as Hgl. fold byLayer in Hgl. rewrite Hnone in Hgl.
  assert (k ∈ fst <$> filter (λ e : string * Node, Layer e.2 = L) (range_str ns)) as Hk.
  { apply (list_elem_of_fmap_2 fst _ (k, n)), list_elem_of_filter. split; [done|]. by apply elem_of_range_str. }
  rewrite <- Hgl in Hk. by apply not_elem_of_nil in Hk.
Qed.

(** ** [applyLayout] *)

(** What [applyLayout] does to the tree of [paths], given the packages' layers. *)
Record laid_out (paths pkgs : list string) (layerOf : gmap string nat) (t t' : fileTree) : Prop := {
  la_sets : fileSet t' = fileSet t ∧ dirSet t' = dirSet t ∧ dirHasSource t' = dirHasSource t;
  la_same : ∀ k, match nodes t !! k with
    | Some n => ∃ l o, nodes t' !! k = Some (set_Order o (set_Layer l n))
    | None => nodes t' !! k = None end;
  la_dir : ∀ d n, isDir paths d → nodes t' !! d = Some n →
    match layerOf !! d with
    | Some l => Layer n = l
    | None => ∃ o, least layerOf pkgs d o ∧ Layer n = default 0 o end;
  la_file : ∀ f n, isFile paths f → nodes t' !! f = Some n →
    if decide (Parent n = "") then Layer n = 0 else ∃ p, nodes t' !! Parent n = Some p ∧ Layer n = Layer p;
  la_order : ∀ L, ∃ ids, StronglySorted (by_key (order_fields (nodes t'))) ids ∧ NoDup ids ∧
    (∀ k, k ∈ ids ↔ ∃ n, nodes t' !! k = Some n ∧ Layer n = L) ∧
    ∀ i k n, ids !! i = Some k → nodes t' !! k = Some n → Order n = i;
}.

Section apply.
Context (contents : gmap string string) (paths : list string) (t : fileTree).
Hypothesis Hplain : ∀ p, p ∈ paths → plain_path p.
Hypothesis Ht : tree_of contents paths t.

Lemma isDir_plain d : isDir paths d → plain_path d.
Proof. intros (p & Hp & Hb). by eapply below_plain; [apply Hplain|]. Qed.

Lemma parent_isDir k : isFile paths k ∨ isDir paths k → parentDir k = "" ∨ isDir paths (parentDir k).
Proof.
  intros Hk. assert (plain_path k) as Hp by (destruct Hk as [[? _]|?]; [by apply Hplain|by apply isDir_plain]).
  destruct (parentDir_plain k Hp) as [?|[_ Hb]]; [by left|right].
  destruct Hk as [[? _]|(p & Hpp & Hb')]; [by exists k|]. exists p. split; [done|]. by eapply below_trans.
Qed.

Lemma source_isDir d : d ∈ sortedKeys (dirHasSource t) → isDir paths d.
Proof.
  intros (f & Hf & <- & Hne & _)%(is_set_keys _ _ d (to_source _ _ _ Ht)). by destruct (parent_isDir f) as [?|?]; [left| |].
Qed.

Lemma node_fields_of k n : nodes t !! k = Some n → (isFile paths k ∨ isDir paths k) ∧ Parent n = parentDir k.
Proof.
  intros Hn. destruct (decide (k ∈ sortedKeys (fileSet t))) as [Hf|Hf]; rewrite (is_set_keys _ _ k (to_files _ _ _ Ht)) in Hf.
  { rewrite (to_file _ _ _ Ht k Hf) in Hn. simplify_eq. split; [by left|done]. }
  destruct (decide (k ∈ sortedKeys (dirSet t))) as [Hd|Hd]; rewrite (is_set_keys _ _ k (to_dirs _ _ _ Ht)) in Hd.
  { destruct (to_dir _ _ _ Ht k Hd) as (l & _ & E). rewrite E in Hn. simplify_eq. split; [by right|done]. }
  by rewrite (to_none _ _ _ Ht k Hf Hd) in Hn.
Qed.

Lemma applyLayout_ok edges : (∀ e, e ∈ edges → From e ∈ sortedKeys (dirHasSource t)) →
  ∃ layerOf violations t', applyLayout t edges = Some (t', violations) ∧
    layering_of (sortedKeys (dirHasSource t)) edges layerOf violations ∧
    laid_out paths (sortedKeys (dirHasSource t)) layerOf t t'.
Proof.
  intros Hfrom. unfold applyLayout. set (pkgs := sortedKeys (dirHasSource t)) in *.
  destruct (layerPackages_ok pkgs edges Hfrom) as (layerOf & vs & -> & Hlay). cbn [mbind option_bind].
  destruct (minAncestors_ok layerOf pkgs) with (seen := @nil string) (m := ∅ : gmap string nat) as (minA & -> & Hmin).
  { intros d Hd. by apply isDir_plain, source_isDir. }
  { intros a. rewrite lookup_empty. by intros p ?%not_elem_of_nil. }
  cbn [mbind option_bind app] in *.
  destruct (layerDirs_ok layerOf minA (sortedKeys (dirSet t)) (sortedKeys_NoDup _) (nodes t)) as (ns1 & -> & Hns1).
  { intros d Hd%(is_set_keys _ _ d (to_dirs _ _ _ Ht)). destruct (to_dir _ _ _ Ht d Hd) as (? & _ & ->). by eexists. }
  cbn [mbind option_bind].
  assert (∀ k, k ∈ sortedFiles t ↔ isFile paths k) as Hfiles by (intros; apply is_set_keys, Ht).
  assert (∀ k, k ∈ sortedKeys (dirSet t) ↔ isDir paths k) as Hdirs by (intros; apply is_set_keys, Ht).
  assert (∀ f, isFile paths f → ns1 !! f = nodes t !! f) as Hfile1.
  { intros f Hf. rewrite Hns1. rewrite decide_False; [done|]. rewrite Hdirs. apply Hf. }
  destruct (layerFiles_ok (sortedFiles t) (sortedKeys_NoDup _) ns1) as (ns2 & -> & Hns2).
  { intros f Hf%Hfiles. rewrite Hfile1 by done. eexists. split; [by apply (to_file _ _ _ Ht)|]. simpl.
    destruct (parent_isDir f) as [?|Hd]; [by left|by left|right]. split.
    - rewrite Hfiles. intros [_ Hn]. done.
    - rewrite Hns1, decide_True by (by apply Hdirs). destruct (to_dir _ _ _ Ht _ Hd) as (? & _ & ->). by eexists. }
  cbn [mbind option_bind]. destruct (assignOrder_ok ns2) as [Hre Hnum]. eexists _, _, _. split; [done|]. split; [done|].
  assert (∀ d, isDir paths d → ns2 !! d = set_Layer (dirLayer layerOf minA d) <$> nodes t !! d) as Hd2.
  { intros d Hd. rewrite Hns2, decide_False; [|rewrite Hfiles; by intros [_ ?]]. by rewrite Hns1, decide_True by (by apply Hdirs). }
  assert (∀ k n', assignOrder ns2 !! k = Some n' → ∃ n o, ns2 !! k = Some n ∧ n' = set_Order o n) as Hinv.
  { intros k n' Hn'. specialize (Hre k). destruct (ns2 !! k) as [n|]; [|congruence]. destruct Hre as [o Ho]. exists n, o.
    split; [done|]. congruence. }
  split; simpl.
  - done.
  - intros k. specialize (Hre k). rewrite Hns2, Hns1 in Hre. destruct (nodes t !! k) as [n|]; [|by repeat case_decide].
    repeat case_decide; simpl in Hre; destruct Hre as [o ->]; [by eexists _, o|by eexists _, o|by eexists _, o|].
    exists (Layer n), o. by destruct n.
  - intros d n' Hd (n & o & Hn & ->)%Hinv. rewrite (Hd2 d Hd) in Hn. apply fmap_Some in Hn as (n0 & _ & ->). simpl.
    unfold dirLayer. destruct (layerOf !! d) as [l|]; [done|]. by exists (minA !! d).
  - intros f n' Hf (n & o & Hn & ->)%Hinv.
    rewrite Hns2, decide_True in Hn by (by apply Hfiles).
    rewrite (Hfile1 f Hf), (to_file _ _ _ Ht f Hf) in Hn. injection Hn as <-. simpl.
    unfold parentLayer. simpl. destruct (decide (parentDir f = "")) as [?|Hne]; [done|].
    destruct (parent_isDir f) as [?|Hd]; [by left|done|]. destruct (to_dir _ _ _ Ht _ Hd) as (l & _ & Hp).
    specialize (Hre (parentDir f)). rewrite (Hd2 _ Hd), Hp in Hre. destruct Hre as [o' Ho'].
    eexists. split; [exact Ho'|]. by rewrite Hns1, decide_True, Hp by (by apply Hdirs).
  - intros L. destruct (Hnum L) as (ids & Hs & Hnd & Hin & Hord). exists ids. split_and!; [|done| |].
    + eapply StronglySorted_key; [|exact Hs]. intros k. symmetry. by apply reordered_fields.
    + intros k. rewrite Hin. specialize (Hre k). split.
      * intros (n & Hn & Hl). rewrite Hn in Hre. destruct Hre as [o ->]. by eexists.
      * intros (n' & (n & o & Hn & ->)%Hinv & Hl). by exists n.
    + intros i k n Hi Hn. rewrite (Hord i k Hi) in Hn. apply fmap_Some in Hn as (n0 & _ & ->). done.
Qed.
End apply.
End layout.
