(* ===== verification/Jsonc.v ===== *)
(** * JSON with comments ([internal/codegraph/jsonc.go])

    The two passes over a tsconfig, as loops over the bytes with their state.  The
    correctness theorem reads the text as a list of pieces (code bytes, string
    literals, comments) and blanks the comments. *)
From S2P Require Import Prelude GoStrings.
From Stdlib Require Import Ascii.
Local Open Scope string_scope.
Local Open Scope list_scope.
Local Open Scope nat_scope.

Definition space : ascii := " "%char.
Definition quote : ascii := byte 34.
Definition star : ascii := "*"%char.
Definition comma : ascii := ","%char.
Definition newline : ascii := byte 10.

Definition nextIs (c : ascii) (s : string) : bool :=
  match s with String b _ => bool_decide (b = c) | "" => false end.

(** ** [stripJSONCComments] *)

Inductive jsoncState := stateCode | stateString | stateLineComment | stateBlockComment.

Fixpoint stripFrom (state : jsoncState) (escaped : bool) (s : string) : string :=
  match s with
  | "" => ""
  | String c s =>
    match state with
    | stateCode =>
      if decide (c = quote) then String c (stripFrom stateString escaped s)
      else if bool_decide (c = slash) && nextIs slash s then String space (stripFrom stateLineComment escaped s)
      else if bool_decide (c = slash) && nextIs star s then String space (stripFrom stateBlockComment escaped s)
      else String c (stripFrom stateCode escaped s)
    | stateString =>
      if escaped then String c (stripFrom stateString false s)
      else if decide (c = backslash) then String c (stripFrom stateString true s)
      else if decide (c = quote) then String c (stripFrom stateCode escaped s)
      else String c (stripFrom stateString escaped s)
    | stateLineComment =>
      if decide (c = newline) then String c (stripFrom stateCode escaped s)
      else String space (stripFrom stateLineComment escaped s)
    | stateBlockComment =>
      match s with
      | String d s' =>
        if bool_decide (c = star) && bool_decide (d = slash) then String space (String space (stripFrom stateCode escaped s'))
        else String (if decide (c = newline) then c else space) (stripFrom stateBlockComment escaped s)
      | "" => String (if decide (c = newline) then c else space) ""
      end
    end
  end.

Definition stripJSONCComments (data : string) : string := stripFrom stateCode false data.

(** ** [stripTrailingCommas] *)

Definition isJSONSpace (c : ascii) : bool :=
  bool_decide (c = space) || bool_decide (c = byte 9) || bool_decide (c = newline) || bool_decide (c = byte 13).

(** Whether the first byte after white space closes a brace or bracket. *)
Fixpoint closesNext (s : string) : bool :=
  match s with
  | "" => false
  | String c s => if isJSONSpace c then closesNext s else bool_decide (c = "}"%char) || bool_decide (c = "]"%char)
  end.

Fixpoint commasFrom (inString escaped : bool) (s : string) : string :=
  match s with
  | "" => ""
  | String c s =>
    if inString then
      if escaped then String c (commasFrom true false s)
      else if decide (c = backslash) then String c (commasFrom true true s)
      else if decide (c = quote) then String c (commasFrom false escaped s)
      else String c (commasFrom true escaped s)
    else
      if decide (c = quote) then String c (commasFrom true escaped s)
      else if decide (c = comma) then
        if closesNext s then commasFrom false escaped s else String c (commasFrom false escaped s)
      else String c (commasFrom false escaped s)
  end.

Definition stripTrailingCommas (data : string) : string := commasFrom false false data.

Definition quoted (s : string) : string := String quote (s +:+ str1 quote).

Example strip_small :
  stripJSONCComments ("{" +:+ quoted "a//b" +:+ ": 1, // c" +:+ String newline "/* d */}") =
  "{" +:+ quoted "a//b" +:+ ": 1,     " +:+ String newline "       }" ∧
  stripTrailingCommas ("[1, {" +:+ quoted ",}" +:+ ":2, }, ]") = "[1, {" +:+ quoted ",}" +:+ ":2 } ]".
Proof. by vm_compute. Qed.

(** The opening's star is also read as the closing's: a comment that starts with
    slash-star-slash ends there, and the rest of it is kept as code. *)
Example strip_slash_star_slash :
  stripJSONCComments "/*/ x */1" = "    x */1".
Proof. by vm_compute. Qed.

(** * Correctness *)

(** ** Bytes keep their places *)

(** [o] is [c], or blanks it where it is not a line end. *)
Definition kept (c o : ascii) : Prop := o = c ∨ (o = space ∧ c ≠ newline).

Fixpoint kept_all (s o : string) : Prop :=
  match s, o with
  | "", "" => True
  | String c s, String d o => kept c d ∧ kept_all s o
  | _, _ => False
  end.

Lemma kept_refl c : kept c c.
Proof. by left. Qed.

Lemma kept_space c : c ≠ newline → kept c space.
Proof. by right. Qed.

Lemma kept_all_length s o : kept_all s o → String.length o = String.length s.
Proof. revert o. induction s as [|c s IH]; intros [|d o]; simpl; try done. intros [_ ?%IH]. by f_equal. Qed.

Lemma slash_not_newline : slash ≠ newline.
Proof. done. Qed.

Lemma stripFrom_kept s : ∀ st e, kept_all s (stripFrom st e s).
Proof.
  enough (∀ n s, String.length s ≤ n → ∀ st e, kept_all s (stripFrom st e s)) as Hn by (by eapply Hn).
  clear s. induction n as [|n IH]; intros [|c s] Hs st e; simpl in *; try done; [lia|].
  assert (∀ st e, kept_all s (stripFrom st e s)) as IHs by (intros; apply IH; lia).
  destruct st.
  - destruct (decide (c = quote)); [split; [by left|done]|].
    destruct (bool_decide_reflect (c = slash)) as [->|]; simpl; [|split; [by left|done]].
    destruct (nextIs slash s); [split; [by right|done]|]. destruct (nextIs star s); split; try apply IHs; [by right|by left].
  - destruct e; [split; [by left|done]|]. repeat case_decide; (split; [by left|done]).
  - case_decide; split; try apply IHs; [by left|by right].
  - destruct s as [|d s'].
    + case_decide; split; [by left|done|by right|done].
    + destruct (bool_decide_reflect (c = star)) as [->|]; simpl.
      * destruct (bool_decide_reflect (d = slash)) as [->|]; simpl.
        -- split_and!; [by right|by right|]. apply IH. simpl in Hs. lia.
        -- split; [by right|exact (IHs stateBlockComment e)].
      * split; [|exact (IHs stateBlockComment e)]. case_decide; [by left|by right].
Qed.

(** ** Pieces *)

(** A byte of a string literal, escaped or not. *)
Inductive schar := Plain (c : ascii) | Escaped (c : ascii).

Inductive piece :=
| Code (c : ascii)
| Literal (body : list schar)
| LineComment (text : string)      (* up to and without the line end *)
| BlockComment (text : string).

Definition schar_ok (c : schar) : Prop := match c with Plain c => c ≠ quote ∧ c ≠ backslash | Escaped _ => True end.

(** Code has no quote and no slash, a line comment no line end; a block comment
    ends at its first star-slash and does not start with a slash. *)
Definition piece_ok (p : piece) : Prop :=
  match p with
  | Code c => c ≠ quote ∧ c ≠ slash
  | Literal body => Forall schar_ok body
  | LineComment text => byte_free newline text
  | BlockComment text => nextIs slash text = false ∧ ∀ a b, text +:+ "*" ≠ a +:+ "*/" +:+ b
  end.

Definition schar_text (c : schar) : string := match c with Plain c => str1 c | Escaped c => String backslash (str1 c) end.
Definition body_text (body : list schar) : string := foldr (λ c s, schar_text c +:+ s) "" body.

Definition piece_text (p : piece) : string :=
  match p with
  | Code c => str1 c
  | Literal body => String quote (body_text body +:+ str1 quote)
  | LineComment text => "//" +:+ text +:+ str1 newline
  | BlockComment text => "/*" +:+ text +:+ "*/"
  end.

(** Blanks in place of every byte but the line ends. *)
Fixpoint blank (s : string) : string :=
  match s with
  | "" => ""
  | String c s => String (if decide (c = newline) then c else space) (blank s)
  end.

(** What is left of a piece. *)
Definition piece_blank (p : piece) : string :=
  match p with
  | Code _ | Literal _ => piece_text p
  | LineComment _ | BlockComment _ => blank (piece_text p)
  end.

Definition doc_text (ps : list piece) : string := foldr (λ p s, piece_text p +:+ s) "" ps.
Definition doc_blank (ps : list piece) : string := foldr (λ p s, piece_blank p +:+ s) "" ps.

Lemma stripFrom_body body s : Forall schar_ok body →
  stripFrom stateString false (body_text body +:+ String quote s) = body_text body +:+ String quote (stripFrom stateCode false s).
Proof.
  induction 1 as [|c body Hc _ IH]; simpl; [done|]. destruct c as [c|c]; simpl in *; rewrite !str_nil_app.
  - rewrite decide_False, decide_False by tauto. by rewrite IH.
  - by rewrite IH.
Qed.

Lemma stripFrom_line text s : byte_free newline text →
  stripFrom stateLineComment false (text +:+ String newline s) = blank text +:+ String newline (stripFrom stateCode false s).
Proof.
  induction text as [|c text IH]; simpl; [done|]. intros [Hc Ht]. rewrite decide_False by done. by rewrite IH, decide_False.
Qed.

Lemma stripFrom_block text s : (∀ a b, text +:+ "*" ≠ a +:+ "*/" +:+ b) →
  stripFrom stateBlockComment false (text +:+ "*/" +:+ s) = blank text +:+ "  " +:+ stripFrom stateCode false s.
Proof.
  induction text as [|c text IH]; intros Ht; [done|].
  assert (∀ a b, text +:+ "*" ≠ a +:+ "*/" +:+ b) as Ht' by (intros a b E; apply (Ht (String c a) b); by rewrite !str_app_cons, E).
  rewrite str_app_cons. cbn [stripFrom]. destruct (text +:+ "*/" +:+ s) as [|d s'] eqn:E; [by destruct text|].
  destruct (bool_decide (c = star) && bool_decide (d = slash)) eqn:Hcd.
  - exfalso. apply andb_true_iff in Hcd as [->%bool_decide_eq_true ->%bool_decide_eq_true].
    destruct text as [|d text]; [done|]. injection E as -> _. by apply (Ht "" (text +:+ "*")).
  - by rewrite (IH Ht').
Qed.

Lemma blank_app a b : blank (a +:+ b) = blank a +:+ blank b.
Proof. induction a as [|c a IH]; [done|]. rewrite str_app_cons. simpl. by rewrite IH. Qed.

Lemma stripFrom_piece p s : piece_ok p →
  stripFrom stateCode false (piece_text p +:+ s) = piece_blank p +:+ stripFrom stateCode false s.
Proof.
  intros Hp. destruct p as [c|body|text|text]; simpl in Hp |- *.
  - destruct Hp as [Hq Hs]. rewrite decide_False by done. by rewrite !bool_decide_eq_false_2 by done.
  - change (String quote (stripFrom stateString false ((body_text body +:+ str1 quote) +:+ s)) =
      String quote ((body_text body +:+ str1 quote) +:+ stripFrom stateCode false s)).
    rewrite !str_app_assoc. change (str1 quote +:+ s) with (String quote s). by rewrite stripFrom_body.
  - change (String space (String space (stripFrom stateLineComment false ((text +:+ str1 newline) +:+ s))) =
      String space (String space (blank (text +:+ str1 newline) +:+ stripFrom stateCode false s))).
    rewrite blank_app, !str_app_assoc. change (str1 newline +:+ s) with (String newline s). by rewrite stripFrom_line.
  - destruct Hp as [Hsl Ht].
    assert (∀ a b, ("*" +:+ text) +:+ "*" ≠ a +:+ "*/" +:+ b) as Ht'.
    { intros [|x a] b E; [|injection E as _ E; by apply (Ht a b)]. injection E as E.
      destruct text as [|y text]; [done|]. injection E as -> _. discriminate Hsl. }
    change (String space (stripFrom stateBlockComment false (("*" +:+ text +:+ "*/") +:+ s)) =
      String space (blank ("*" +:+ text +:+ "*/") +:+ stripFrom stateCode false s)).
    rewrite !blank_app. pose proof (stripFrom_block ("*" +:+ text) s Ht') as Hb. rewrite blank_app in Hb.
    rewrite !str_app_assoc in *. by rewrite Hb.
Qed.

(** ** Trailing commas *)

(** The pieces with every comment blanked to code. *)
Definition expand (ps : list piece) : list piece :=
  ps ≫= λ p, match p with
    | LineComment _ | BlockComment _ => Code <$> String.list_ascii_of_string (piece_blank p)
    | _ => [p] end.

Lemma doc_text_app ps qs : doc_text (ps ++ qs) = doc_text ps +:+ doc_text qs.
Proof. induction ps as [|p ps IH]; [done|]. simpl. by rewrite IH, str_app_assoc. Qed.

Lemma doc_text_codes s : doc_text (Code <$> String.list_ascii_of_string s) = s.
Proof.
  induction s as [|c s IH]; [done|].
  change (String c (doc_text (Code <$> String.list_ascii_of_string s)) = String c s). by rewrite IH.
Qed.

Lemma doc_text_expand ps : doc_text (expand ps) = doc_blank ps.
Proof.
  induction ps as [|p ps IH]; [done|]. unfold expand in *. rewrite bind_cons, doc_text_app, IH. simpl. f_equal.
  destruct p; [by simpl|simpl; by rewrite str_app_nil|apply doc_text_codes..].
Qed.

Lemma blank_codes_ok s : Forall piece_ok (Code <$> String.list_ascii_of_string (blank s)).
Proof. induction s as [|c s IH]; simpl; [done|]. constructor; [|done]. simpl. by case_decide; subst. Qed.

Definition no_comment (p : piece) : Prop := match p with LineComment _ | BlockComment _ => False | _ => True end.

Lemma expand_pieces_ok ps : Forall piece_ok ps → Forall (λ p, piece_ok p ∧ no_comment p) (expand ps).
Proof.
  induction 1 as [|p ps Hp _ IH]; [constructor|]. unfold expand in *. rewrite bind_cons. apply Forall_app. split; [|done].
  assert (∀ s, Forall (λ p, piece_ok p ∧ no_comment p) (Code <$> String.list_ascii_of_string (blank s))) as Hb.
  { intros s. apply Forall_and. split; [apply blank_codes_ok|]. by apply Forall_fmap, Forall_true. }
  destruct p; [by repeat constructor; apply Hp|by repeat constructor|apply Hb..].
Qed.

(** Whether the first piece after white space closes a brace or bracket. *)
Fixpoint closes (ps : list piece) : bool :=
  match ps with
  | Code c :: ps => if isJSONSpace c then closes ps else bool_decide (c = "}"%char) || bool_decide (c = "]"%char)
  | _ => false
  end.

(** The text without the commas that a closing follows. *)
Fixpoint doc_commas (ps : list piece) : string :=
  match ps with
  | [] => ""
  | Code c :: ps => if bool_decide (c = comma) && closes ps then doc_commas ps else str1 c +:+ doc_commas ps
  | p :: ps => piece_text p +:+ doc_commas ps
  end.

Lemma closesNext_closes ps : Forall (λ p, piece_ok p ∧ no_comment p) ps → closesNext (doc_text ps) = closes ps.
Proof.
  induction 1 as [|p ps [Hp Hn] _ IH]; [done|]. destruct p; try done.
  change (doc_text (Code c :: ps)) with (String c (doc_text ps)). simpl. by rewrite IH.
Qed.

Lemma commasFrom_body body s : Forall schar_ok body →
  commasFrom true false (body_text body +:+ String quote s) = body_text body +:+ String quote (commasFrom false false s).
Proof.
  induction 1 as [|c body Hc _ IH]; simpl; [done|]. destruct c as [c|c]; simpl in *; rewrite !str_nil_app.
  - rewrite decide_False, decide_False by tauto. by rewrite IH.
  - by rewrite IH.
Qed.

Lemma commasFrom_doc ps : Forall (λ p, piece_ok p ∧ no_comment p) ps → commasFrom false false (doc_text ps) = doc_commas ps.
Proof.
  induction 1 as [|p ps [Hp Hn] Hps IH]; [done|]. destruct p as [c|body| |]; try done.
  - change (doc_text (Code c :: ps)) with (String c (doc_text ps)). simpl. rewrite (decide_False (P := c = quote)) by apply Hp.
    rewrite IH, closesNext_closes by done. destruct (decide (c = comma)) as [->|]; [|by rewrite bool_decide_eq_false_2].
    by destruct (closes ps).
  - change (commasFrom false false (String quote (body_text body +:+ str1 quote) +:+ doc_text ps) =
      String quote (body_text body +:+ str1 quote) +:+ doc_commas ps).
    rewrite str_app_cons, str_app_assoc. change (str1 quote +:+ doc_text ps) with (String quote (doc_text ps)).
    cbn [commasFrom]. rewrite decide_True by done. rewrite commasFrom_body by done. by rewrite IH, str_app_cons, str_app_assoc.
Qed.

(** The text handed to the JSON parser.  Stripping comments keeps every
    byte in its place: what is not kept is blanked, and no line end is lost.  On
    a text that is a sequence of code bytes, string literals (escapes included)
    and comments, it blanks exactly the comments, whatever comment or quote
    look-alikes the literals and the comments contain; and the second pass then
    drops exactly the commas outside literals that a closing brace or bracket
    follows across white space and comments.  The only comments excluded are
    those whose text starts with a slash, see [strip_slash_star_slash]. *)
Theorem jsonc_sanitized :
  (∀ data, kept_all data (stripJSONCComments data)) ∧
  (∀ ps, Forall piece_ok ps → stripJSONCComments (doc_text ps) = doc_blank ps) ∧
  ∀ ps, Forall piece_ok ps → stripTrailingCommas (stripJSONCComments (doc_text ps)) = doc_commas (expand ps).
Proof.
  assert (∀ ps, Forall piece_ok ps → stripJSONCComments (doc_text ps) = doc_blank ps) as Hs.
  { unfold stripJSONCComments. induction 1 as [|p ps Hp _ IH]; [done|]. simpl. by rewrite stripFrom_piece, IH. }
  split_and!; [intros; apply stripFrom_kept|done|]. intros ps Hps. rewrite Hs by done. rewrite <- doc_text_expand.
  apply commasFrom_doc. by apply expand_pieces_ok.
Qed.
