(* ===== verification/CodeImports.v ===== *)
(** * Resolving imports ([internal/codegraph/lang_go.go], [lang_ts.go], [lang_ts_cgo.go])

    Which file or directory of the snapshot an import names.  Parsing Go and
    TypeScript sources and JSON is the class [ParseLib]; everything the code does
    with what the parsers return is here. *)
From S2P Require Import Prelude GoStrings GoText GoPaths CodeGraph FileTree Jsonc.
From Stdlib Require Import Ascii.
Local Open Scope string_scope.
Local Open Scope list_scope.
Local Open Scope nat_scope.

(** The parsers: [None] is a parse error. *)
Class ParseLib := {
  goImportLiterals : string → string → option (list string);   (* go/parser, ImportsOnly: the import path literals *)
  Unquote : string → option string;                             (* strconv.Unquote *)
  tsAvailable : bool;                                           (* newTSExtractor succeeds *)
  tsSpecifiers : bool → string → option (list string);          (* tree-sitter with the TSX grammar or not: the query's captures *)
  unmarshalTSConfig : string → option (string * gmap string (list string));   (* compilerOptions: baseUrl, paths *)
}.

(** ** [strings] *)

(** [strings.Index] of a substring. *)
Fixpoint Index (s sub : string) : option nat :=
  if HasPrefix s sub then Some 0
  else match s with
       | "" => None
       | String _ s => S <$> Index s sub
       end.

Definition CutSuffix (s suf : string) : option string := str_rev <$> cut_prefix (str_rev suf) (str_rev s).

(** [strings.Replace(s, old, new, 1)] of a one-byte [old]. *)
Definition replaceByte (s : string) (old : ascii) (new : string) : string :=
  match IndexByte s old with
  | Some i => str_take i s +:+ new +:+ str_drop (i + 1) s
  | None => s
  end.

(** [strings.Lines]: the lines with their ends. *)
Fixpoint Lines (s : string) : list string :=
  match s with
  | "" => []
  | String c s =>
    if decide (c = FileTree.newline) then str1 c :: Lines s
    else match Lines s with
         | [] => [str1 c]
         | l :: ls => String c l :: ls
         end
  end.

(** ** Go modules *)

Definition goModFileName : string := "go.mod".

Record goModule := mkModule { m_dir : string; m_path : string }.

(** The module path of one line of a go.mod, if it is the module directive. *)
Definition moduleLine (line : string) : option string :=
  let line := TrimSpace line in
  let line := match Index line "//" with Some i => TrimSpace (str_take i line) | None => line end in
  match cut_prefix "module" line with
  | Some (String c r) =>
    if decide (c = " "%char ∨ c = byte 9) then
      let rest := Trim (TrimSpace (String c r)) (str1 quote) in
      if decide (rest = "") then None else Some rest
    else None
  | _ => None
  end.

Fixpoint firstModule (lines : list string) : string :=
  match lines with
  | [] => ""
  | line :: lines => match moduleLine line with Some m => m | None => firstModule lines end
  end.

Definition parseGoModulePath (content : string) : string := firstModule (Lines content).

(** Longer module paths first, then by path. *)
Definition module_le (a b : goModule) : Prop :=
  String.length (m_path b) < String.length (m_path a) ∨
  (String.length (m_path a) = String.length (m_path b) ∧ string_le (m_path a) (m_path b)).

#[export] Instance module_le_dec : RelDecision module_le.
Proof. intros a b. unfold module_le. apply _. Defined.

Definition listedModule (contents : gmap string string) (p : string) : option goModule :=
  if decide (Base p ≠ goModFileName) then None
  else
    data ← contents !! p;
    let modulePath := parseGoModulePath data in
    if decide (modulePath = "") then None else Some (mkModule (parentDir p) modulePath).

Definition collectGoModules (paths : list string) (contents : gmap string string) (read : string → option string) :
    list goModule :=
  let mods := omap (listedModule contents) paths in
  let rootSeen := existsb (λ m, bool_decide (m_dir m = "")) mods in
  let root :=
    if rootSeen then []
    else match read goModFileName with
         | Some data =>
           let modulePath := parseGoModulePath data in
           if decide (modulePath ≠ "") then [mkModule "" modulePath] else []
         | None => []
         end in
  merge_sort module_le (mods ++ root).

Fixpoint resolveGoImport (importPath : string) (mods : list goModule) : option string :=
  match mods with
  | [] => None
  | m :: mods =>
    if decide (importPath = m_path m) then Some (m_dir m)
    else match cut_prefix (m_path m +:+ "/") importPath with
         | Some rest => Some (Join [m_dir m; rest])
         | None => resolveGoImport importPath mods
         end
  end.

Section imports.
Context {PL : ParseLib}.

(** The loop over the import specs. *)
Definition unquoteAll (lits : list string) : list string :=
  omap (λ lit, match Unquote lit with Some p => if decide (p = "") then None else Some p | None => None end) lits.

Definition goFileImports (filePath src : string) : list string :=
  match goImportLiterals filePath src with
  | Some lits => unquoteAll lits
  | None => []
  end.

(** ** TypeScript configurations *)

Definition tsConfigFileName : string := "tsconfig.json".

Record tsPathPattern := mkPattern { p_pattern : string; p_targets : list string }.
Record tsConfig := mkConfig { c_dir : string; c_baseURL : string; c_patterns : list tsPathPattern }.

Definition patternPrefix (pattern : string) : string :=
  match IndexByte pattern star with Some i => str_take i pattern | None => pattern end.

(** Longer literal prefixes first, then by pattern. *)
Definition pattern_le (a b : tsPathPattern) : Prop :=
  String.length (patternPrefix (p_pattern b)) < String.length (patternPrefix (p_pattern a)) ∨
  (String.length (patternPrefix (p_pattern a)) = String.length (patternPrefix (p_pattern b)) ∧
   string_le (p_pattern a) (p_pattern b)).

#[export] Instance pattern_le_dec : RelDecision pattern_le.
Proof. intros a b. unfold pattern_le. apply _. Defined.

Definition parseTSConfig (dir data : string) : option tsConfig :=
  '(base, paths) ← unmarshalTSConfig (stripTrailingCommas (stripJSONCComments data));
  let patterns := (λ k, mkPattern k (default [] (paths !! k))) <$> sort_strings (map_to_list paths).*1 in
  Some (mkConfig dir base (merge_sort pattern_le patterns)).

Definition addConfig (cfgs : gmap string tsConfig) (o : option tsConfig) : gmap string tsConfig :=
  match o with Some cfg => <[c_dir cfg := cfg]> cfgs | None => cfgs end.

Definition collectTSConfigs (paths : list string) (contents : gmap string string) (read : string → option string) :
    gmap string tsConfig :=
  let cfgs := foldl (λ cfgs p,
    if decide (Base p ≠ tsConfigFileName) then cfgs
    else match contents !! p with
         | Some data => addConfig cfgs (parseTSConfig (parentDir p) data)
         | None => cfgs
         end) ∅ paths in
  match cfgs !! "" with
  | Some _ => cfgs
  | None => match read tsConfigFileName with Some data => addConfig cfgs (parseTSConfig "" data) | None => cfgs end
  end.

(** ** Resolving a specifier *)

Definition tsResolveExts : list string := [tsExt; tsxExt].
Definition tsJSExts : list string := [".js"; ".jsx"; ".mjs"; ".cjs"].

Section resolve.
Context (files : gmap string bool).

(** The first of the candidates that is a file of the snapshot. *)
Fixpoint firstFile (candidates : list string) : option string :=
  match candidates with
  | [] => None
  | c :: cs => if has_key files c then Some c else firstFile cs
  end.

Fixpoint resolveJSExts (base : string) (exts : list string) : option string :=
  match exts with
  | [] => None
  | jsExt :: exts =>
    match CutSuffix base jsExt with
    | Some trimmed =>
      match firstFile ((λ ext, trimmed +:+ ext) <$> tsResolveExts) with
      | Some c => Some c
      | None => resolveJSExts base exts
      end
    | None => resolveJSExts base exts
    end
  end.

Definition resolveTSFile (base : string) : option string :=
  if decide (base = "" ∨ base = "." ∨ HasPrefix base "../" = true) then None
  else if has_key files base then Some base
  else match resolveJSExts base tsJSExts with
       | Some c => Some c
       | None =>
         match firstFile ((λ ext, base +:+ ext) <$> tsResolveExts) with
         | Some c => Some c
         | None => firstFile ((λ ext, base +:+ "/index" +:+ ext) <$> tsResolveExts)
         end
       end.

(** What the star of a pattern stands for in [spec], when the pattern matches. *)
Definition matchPattern (pattern spec : string) : option string :=
  match IndexByte pattern star with
  | None => if decide (spec = pattern) then Some "" else None
  | Some i =>
    let prefix := str_take i pattern in
    let suffix := str_drop (i + 1) pattern in
    if bool_decide (String.length prefix + String.length suffix ≤ String.length spec) && HasPrefix spec prefix && HasSuffix spec suffix
    then Some (str_take (String.length spec - String.length suffix - String.length prefix) (str_drop (String.length prefix) spec))
    else None
  end.

Fixpoint resolveTargets (c : tsConfig) (matched : string) (targets : list string) : option string :=
  match targets with
  | [] => None
  | target :: targets =>
    match resolveTSFile (Join [c_dir c; c_baseURL c; replaceByte target star matched]) with
    | Some r => Some r
    | None => resolveTargets c matched targets
    end
  end.

Fixpoint resolvePatterns (c : tsConfig) (spec : string) (patterns : list tsPathPattern) : option string :=
  match patterns with
  | [] => None
  | p :: patterns =>
    match matchPattern (p_pattern p) spec with
    | Some matched =>
      match resolveTargets c matched (p_targets p) with
      | Some r => Some r
      | None => resolvePatterns c spec patterns
      end
    | None => resolvePatterns c spec patterns
    end
  end.

Definition resolveAlias (c : tsConfig) (spec : string) : option string := resolvePatterns c spec (c_patterns c).

(** [for d := fileDir; ; d = parentDir(d)]: the nearest configuration with
    aliases decides; [None] is a walk that does not end. *)
Fixpoint resolveUp (fuel : nat) (cfgs : gmap string tsConfig) (spec d : string) : option (option string) :=
  match cfgs !! d with
  | Some (mkConfig _ _ (_ :: _) as cfg) => Some (resolveAlias cfg spec)
  | _ =>
    if decide (d = "") then Some None
    else match fuel with
         | O => None
         | S fuel => resolveUp fuel cfgs spec (parentDir d)
         end
  end.

Definition isRelative (spec : string) : bool :=
  HasPrefix spec "./" || HasPrefix spec "../" || bool_decide (spec = ".") || bool_decide (spec = "..").

Definition resolveTSImport (spec fileDir : string) (cfgs : gmap string tsConfig) : option (option string) :=
  if decide (spec = "") then Some None
  else if isRelative spec then Some (resolveTSFile (Join [fileDir; spec]))
  else resolveUp (String.length fileDir) cfgs spec fileDir.
End resolve.

(** [tsExtractor.imports]. *)
Definition ts_imports (filePath src : string) : option (list string) :=
  specs ← tsSpecifiers (bool_decide (toLower (Ext filePath) = tsxExt)) src;
  Some (filter (λ spec, spec ≠ "") specs).
End imports.

(** * Correctness *)

(** ** Go imports: the most specific module decides *)

(** [m] declares the package [imp]: itself or something below it. *)
Definition declares (m : goModule) (imp : string) : Prop := imp = m_path m ∨ ∃ r, imp = m_path m +:+ "/" +:+ r.

(** The directory of the package. *)
Definition packageDir (m : goModule) (imp : string) (d : string) : Prop :=
  (imp = m_path m ∧ d = m_dir m) ∨ ∃ r, imp = m_path m +:+ "/" +:+ r ∧ d = Join [m_dir m; r].

#[export] Instance module_le_total : Total module_le.
Proof.
  intros a b. unfold module_le. destruct (lt_eq_lt_dec (String.length (m_path a)) (String.length (m_path b))) as [[?|E]|?];
    [right; by left| |left; by left]. rewrite E. destruct (total string_le (m_path a) (m_path b)); [left|right]; by right.
Qed.

#[export] Instance module_le_trans : Transitive module_le.
Proof.
  intros a b c. unfold module_le. intros [?|[? Hab]] [?|[? Hbc]]; [left; lia|left; lia|left; lia|right]. split; [lia|].
  by etrans.
Qed.

Lemma str_assoc3 (a b c : string) : (a +:+ b) +:+ c = a +:+ b +:+ c.
Proof. induction a as [|x a IH]; [done|]. by rewrite !str_app_cons, IH. Qed.

Lemma resolveGoImport_first imp mods :
  match resolveGoImport imp mods with
  | Some d => ∃ pre m post, mods = pre ++ m :: post ∧ packageDir m imp d ∧ ∀ m', m' ∈ pre → ¬ declares m' imp
  | None => ∀ m, m ∈ mods → ¬ declares m imp
  end.
Proof.
  induction mods as [|m mods IH]; simpl; [by intros m ?%not_elem_of_nil|].
  case_decide as He.
  { exists [], m, mods. split_and!; [done|by left|by intros m' ?%not_elem_of_nil]. }
  destruct (cut_prefix (m_path m +:+ "/") imp) as [r|] eqn:Ec.
  { apply cut_prefix_Some in Ec. rewrite str_assoc3 in Ec.
    exists [], m, mods. split_and!; [done|right; eauto|by intros m' ?%not_elem_of_nil]. }
  assert (¬ declares m imp) as Hn.
  { intros [?|[r Hr]]; [done|]. rewrite <- str_assoc3 in Hr. apply cut_prefix_Some in Hr. congruence. }
  destruct (resolveGoImport imp mods) as [d|].
  - destruct IH as (pre & m0 & post & -> & ? & Hpre). exists (m :: pre), m0, post. split_and!; [done|done|].
    intros m' [->|?]%elem_of_cons; [done|by apply Hpre].
  - intros m' [->|?]%elem_of_cons; [done|by apply IH].
Qed.

(** An import of the snapshot's own packages is resolved by the most specific
    of the collected modules: the answer is the package's directory in a module
    that declares it and than which no declaring module has a longer path; there
    is none precisely when no collected module declares the import. *)
Theorem resolveGoImport_longest paths contents read imp :
  let mods := collectGoModules paths contents read in
  match resolveGoImport imp mods with
  | Some d => ∃ m, m ∈ mods ∧ packageDir m imp d ∧
      ∀ m', m' ∈ mods → declares m' imp → String.length (m_path m') ≤ String.length (m_path m)
  | None => ∀ m, m ∈ mods → ¬ declares m imp
  end.
Proof.
  intros mods. pose proof (resolveGoImport_first imp mods) as Hf. destruct (resolveGoImport imp mods) as [d|]; [|done].
  destruct Hf as (pre & m & post & E & Hd & Hpre). exists m. split; [rewrite E; apply elem_of_app; right; by left|].
  split; [done|]. intros m' Hm' Hdecl. rewrite E in Hm'. apply elem_of_app in Hm' as [Hm'|[->|Hm']%elem_of_cons]; [|done|].
  - by destruct (Hpre m' Hm').
  - assert (StronglySorted module_le mods) as Hs by apply (StronglySorted_merge_sort module_le).
    rewrite E in Hs. apply StronglySorted_app_1_r in Hs. apply StronglySorted_inv in Hs as [_ Hs].
    rewrite Forall_forall in Hs. specialize (Hs m' Hm'). unfold module_le in Hs. lia.
Qed.

(** ** TypeScript files: the candidates in their order *)

Definition candidates (base : string) : list string :=
  base :: (tsJSExts ≫= λ jsExt, match CutSuffix base jsExt with
    | Some trimmed => (λ ext, trimmed +:+ ext) <$> tsResolveExts | None => [] end)
  ++ ((λ ext, base +:+ ext) <$> tsResolveExts) ++ ((λ ext, base +:+ "/index" +:+ ext) <$> tsResolveExts).

Lemma firstFile_app files cs ds :
  firstFile files (cs ++ ds) = match firstFile files cs with Some c => Some c | None => firstFile files ds end.
Proof. induction cs as [|c cs IH]; simpl; [done|]. by destruct (has_key files c). Qed.

Lemma resolveJSExts_firstFile files base exts :
  resolveJSExts files base exts = firstFile files (exts ≫= λ jsExt, match CutSuffix base jsExt with
    | Some trimmed => (λ ext, trimmed +:+ ext) <$> tsResolveExts | None => [] end).
Proof.
  induction exts as [|x exts IH]; [done|]. rewrite bind_cons, firstFile_app. cbn [resolveJSExts].
  destruct (CutSuffix base x) as [t|]; [by rewrite IH|done].
Qed.

Lemma firstFile_Some files cs r : firstFile files cs = Some r ↔
  ∃ pre post, cs = pre ++ r :: post ∧ has_key files r = true ∧ ∀ c, c ∈ pre → has_key files c = false.
Proof.
  induction cs as [|c cs IH]; simpl.
  - split; [done|]. by intros ([|] & ? & ? & _).
  - destruct (has_key files c) eqn:E.
    + split; [intros [= <-]; exists [], cs; split_and!; [done|done|by intros ? ?%not_elem_of_nil]|].
      intros ([|c' pre] & post & [= -> ->] & Hr & Hpre); [done|]. rewrite Hpre in E by (by left). done.
    + rewrite IH. split.
      * intros (pre & post & -> & Hr & Hpre). exists (c :: pre), post. split_and!; [done|done|].
        intros c' [->|?]%elem_of_cons; [done|by apply Hpre].
      * intros ([|c' pre] & post & [= -> ->] & Hr & Hpre); [congruence|]. exists pre, post. split_and!; [done|done|].
        intros x Hx. apply Hpre. by right.
Qed.

(** A TypeScript path resolves to a file of the snapshot and to the first
    in the documented order: the exact path, the source behind a compiled
    extension, the path with a TypeScript extension, the directory's index; a
    path that is empty or leaves the repository resolves to nothing. *)
Theorem resolveTSFile_first files base r :
  resolveTSFile files base = Some r ↔
  base ≠ "" ∧ base ≠ "." ∧ HasPrefix base "../" = false ∧
  ∃ pre post, candidates base = pre ++ r :: post ∧ has_key files r = true ∧ ∀ c, c ∈ pre → has_key files c = false.
Proof.
  rewrite <- firstFile_Some. unfold resolveTSFile. case_decide as Hd.
  { split; [done|]. intros (? & ? & Hp & _). rewrite Hp in Hd. by destruct Hd as [?|[?|?]]. }
  apply Decidable.not_or in Hd as [? Hd]. apply Decidable.not_or in Hd as [? Hd]. apply not_true_iff_false in Hd.
  transitivity (firstFile files (candidates base) = Some r); [|tauto]. unfold candidates. cbn [firstFile].
  destruct (has_key files base); [done|]. by rewrite !firstFile_app, resolveJSExts_firstFile.
Qed.
