(* ===== verification/CodeBuild.v ===== *)
(** * Building the graph ([internal/codegraph/builder.go], [Build] and [collectEdges])

    The context is polled once per file, in each of the two loops; [poll n] is the
    answer to the [n]th poll.  Errors are [buildErr]; [BuildPanic] collects what
    the tree, the layering or an upward walk would crash on. *)
From S2P Require Import Prelude GoStrings GoPaths CodeGraph Tarjan Layering FileTree Layout CodeImports.
Local Open Scope string_scope.
Local Open Scope list_scope.
Local Open Scope nat_scope.

Inductive buildErr := ErrNilReader | ErrContext | ErrExtractor | BuildPanic.

Definition from_option {A} (o : option A) : result buildErr A := match o with Some a => Ok a | None => Err BuildPanic end.

Section build.
Context {MO : MapOrder} {PL : ParseLib}.

(** ** [collectEdges] *)

(** The targets of one Go file from [fromDir]. *)
Definition goTargets (t : fileTree) (mods : list goModule) (fromDir : string) (imps : list string) : list string :=
  omap (λ imp,
    match resolveGoImport imp mods with
    | Some target =>
      if decide (target = "" ∨ target = fromDir ∨ has_key (dirHasSource t) target = false) then None else Some target
    | None => None
    end) imps.

(** The targets of one TypeScript file. *)
Fixpoint tsTargets (t : fileTree) (cfgs : gmap string tsConfig) (fromDir : string) (specs : list string) : option (list string) :=
  match specs with
  | [] => Some []
  | spec :: specs =>
    r ← resolveTSImport (fileSet t) spec fromDir cfgs;
    rest ← tsTargets t cfgs fromDir specs;
    match r with
    | None => Some rest
    | Some resolved =>
      let toDir := parentDir resolved in
      if decide (toDir = "" ∨ toDir = fromDir) then Some rest else Some (toDir :: rest)
    end
  end.

(** The body of the loop for file [p]: the targets it counts. *)
Definition fileTargets (t : fileTree) (contents : gmap string string) (mods : list goModule) (cfgs : gmap string tsConfig)
    (p : string) : result buildErr (list string) :=
  match contents !! p with
  | None => Ok []
  | Some src =>
    let fromDir := parentDir p in
    if decide (fromDir = "") then Ok []
    else match languageForFile p with
         | LanguageGo => Ok (goTargets t mods fromDir (goFileImports p src))
         | LanguageTypeScript =>
           if tsAvailable then
             match ts_imports p src with
             | None => Ok []
             | Some specs => from_option (tsTargets t cfgs fromDir specs)
             end
           else Err ErrExtractor
         | LanguageNone => Ok []
         end
  end.

Definition bump (counts : gmap (string * string) nat) (k : string * string) : gmap (string * string) nat :=
  <[k := default 0 (counts !! k) + 1]> counts.

Fixpoint collectFrom (t : fileTree) (contents : gmap string string) (mods : list goModule) (cfgs : gmap string tsConfig)
    (poll : nat → bool) (i : nat) (ps : list string) (counts : gmap (string * string) nat) :
    result buildErr (gmap (string * string) nat) :=
  match ps with
  | [] => Ok counts
  | p :: ps =>
    if poll i then Err ErrContext
    else
      let? targets := fileTargets t contents mods cfgs p in
      collectFrom t contents mods cfgs poll (S i) ps (foldl (λ m target, bump m (parentDir p, target)) counts targets)
  end.

(** The keys of [counts] are distinct, so the sorted list does not depend on the
    order of the range ([sort_by_unique]). *)
Definition collectEdges (poll : nat → bool) (i : nat) (t : fileTree) (contents : gmap string string) (mods : list goModule)
    (cfgs : gmap string tsConfig) : result buildErr (list Edge) :=
  let? counts := collectFrom t contents mods cfgs poll i (sortedFiles t) ∅ in
  Ok (sortEdges ((λ '((from, to), n), mkEdge from to n) <$> map_to_list counts)).

(** ** [Build] *)

Fixpoint readAll (poll : nat → bool) (read : string → option string) (i : nat) (ps : list string) (contents : gmap string string) :
    result buildErr (gmap string string) :=
  match ps with
  | [] => Ok contents
  | p :: ps =>
    if poll i then Err ErrContext
    else readAll poll read (S i) ps (match read p with Some data => <[p := data]> contents | None => contents end)
  end.

Definition Build (poll : nat → bool) (files : list string) (read : option (string → option string)) : result buildErr Graph :=
  match read with
  | None => Err ErrNilReader
  | Some read =>
    let paths := normalizeFiles files in
    let? contents := readAll poll read 0 paths ∅ in
    let? tree := from_option (buildTree paths contents) in
    let mods := collectGoModules paths contents read in
    let cfgs := collectTSConfigs paths contents read in
    let? edges := collectEdges poll (length paths) tree contents mods cfgs in
    let? laid := from_option (applyLayout tree edges) in
    let '(tree, violations) := laid in
    Ok (mkGraph (omap (λ id, nodes tree !! id) (sort_strings (map_to_list (nodes tree)).*1)) edges violations)
  end.
End build.

(** Sources are lists of import literals separated by line ends, for examples. *)
Definition demoParse : ParseLib := {|
  goImportLiterals _ src := Some (split_on FileTree.newline src);
  Unquote s := Some s;
  tsAvailable := true;
  tsSpecifiers _ src := Some (split_on FileTree.newline src);
  unmarshalTSConfig src := Some ("", {["@/*" := ["./src/*"]]});
|}.

Definition demoFiles : list (string * string) :=
  [("go.mod", "module ex.com/m // root" +:+ str1 FileTree.newline);
   ("cmd/m/main.go", "ex.com/m/lib");
   ("lib/a.go", "ex.com/m/cmd/m");
   ("web/tsconfig.json", "");
   ("web/src/app/x.ts", "@/ui/y.js" +:+ str1 FileTree.newline +:+ "../css/z.css");
   ("web/src/ui/y.tsx", "");
   ("web/src/css/z.css", "")].

Definition demoRead (p : string) : option string := (list_to_map demoFiles : gmap string string) !! p.

(** A stylesheet's directory becomes the target of an edge and gets a layer,
    though it has no source file. *)
Example build_small : let _ := demoOrder in let _ := demoParse in
  match Build (λ _, false) demoFiles.*1 (Some demoRead) with
  | Ok g =>
    Edges g = [mkEdge "cmd/m" "lib" 1; mkEdge "lib" "cmd/m" 1; mkEdge "web/src/app" "web/src/css" 1;
      mkEdge "web/src/app" "web/src/ui" 1] ∧
    Violations g = [mkViolation ViolationCycle "cmd/m" "lib"; mkViolation ViolationCycle "lib" "cmd/m"] ∧
    (λ n, (ID n, Layer n, Order n)) <$> filter (λ n, Kind n ≠ NodeKindFile) (Nodes g) =
      [("cmd", 0, 0); ("cmd/m", 0, 4); ("lib", 0, 2); ("web", 0, 3); ("web/src", 0, 7); ("web/src/app", 0, 9);
       ("web/src/css", 1, 0); ("web/src/ui", 1, 1)]
  | Err _ => False
  end.
Proof. vm_compute. done. Qed.

(** * Correctness *)

Lemma firstFile_has files cs r : firstFile files cs = Some r → has_key files r = true.
Proof. induction cs as [|c cs IH]; simpl; [done|]. destruct (has_key files c) eqn:E; [by intros [= <-]|done]. Qed.

Section resolve.
Context (files : gmap string bool).

Lemma resolveJSExts_has base exts r : resolveJSExts files base exts = Some r → has_key files r = true.
Proof.
  induction exts as [|x exts IH]; cbn [resolveJSExts]; [done|]. destruct (CutSuffix base x) as [t|]; [|done].
  destruct (firstFile files ((λ ext, t +:+ ext) <$> tsResolveExts)) as [c|] eqn:E; [|done]. intros [= <-]. by apply firstFile_has in E.
Qed.

Lemma resolveTSFile_has base r : resolveTSFile files base = Some r → has_key files r = true.
Proof.
  unfold resolveTSFile. case_decide; [done|]. destruct (has_key files base) eqn:E; [by intros [= <-]|].
  destruct (resolveJSExts files base tsJSExts) as [c|] eqn:E1; [intros [= <-]; by apply resolveJSExts_has in E1|].
  destruct (firstFile files ((λ ext, base +:+ ext) <$> tsResolveExts)) as [c|] eqn:E2; [intros [= <-]; by apply firstFile_has in E2|]. apply firstFile_has.
Qed.

Lemma resolveTargets_has c m ts r : resolveTargets files c m ts = Some r → has_key files r = true.
Proof.
  induction ts as [|t ts IH]; simpl; [done|]. destruct (resolveTSFile files _) as [x|] eqn:E; [|done].
  intros [= <-]. by apply resolveTSFile_has in E.
Qed.

Lemma resolveAlias_has c spec r : resolveAlias files c spec = Some r → has_key files r = true.
Proof.
  unfold resolveAlias. induction (c_patterns c) as [|p ps IH]; simpl; [done|]. destruct (matchPattern _ _) as [m|]; [|done].
  destruct (resolveTargets files c m (p_targets p)) as [x|] eqn:E; [|done]. intros [= <-]. by apply resolveTargets_has in E.
Qed.

Lemma resolveUp_ok cfgs spec fuel d : plain_path d ∨ d = "" → String.length d ≤ fuel →
  ∃ o, resolveUp files fuel cfgs spec d = Some o ∧ ∀ r, o = Some r → has_key files r = true.
Proof.
  revert d. induction fuel as [|fuel IH]; intros d Hd Hf; simpl.
  - assert (d = "") as -> by (destruct d; [done|simpl in Hf; lia]).
    destruct (cfgs !! "") as [[dir base [|p ps]]|]; [by exists None| |by exists None].
    eexists. split; [done|]. intros r. apply resolveAlias_has.
  - assert (∃ o, (if decide (d = "") then Some None else resolveUp files fuel cfgs spec (parentDir d)) = Some o ∧
      ∀ r, o = Some r → has_key files r = true) as Hgo.
    { case_decide as Hne; [by exists None|]. destruct Hd as [Hd|?]; [|done]. destruct (parentDir_plain d Hd) as [->|[Hp Hb]].
      - apply IH; [by right|simpl; lia].
      - apply IH; [by left|]. apply below_longer in Hb. lia. }
    destruct (cfgs !! d) as [[dir base [|p ps]]|]; [done| |done].
    eexists. split; [done|]. intros r. apply resolveAlias_has.
Qed.

Lemma resolveTSImport_ok spec d cfgs : plain_path d →
  ∃ o, resolveTSImport files spec d cfgs = Some o ∧ ∀ r, o = Some r → has_key files r = true.
Proof.
  intros Hd. unfold resolveTSImport. case_decide; [by exists None|]. destruct (isRelative spec).
  - eexists. split; [done|]. intros r. apply resolveTSFile_has.
  - apply resolveUp_ok; [by left|done].
Qed.
End resolve.

Section correct.
Context {MO : MapOrder} {PL : ParseLib}.

Section edges.
Context (contents : gmap string string) (paths : list string) (t : fileTree).
Hypothesis Hplain : ∀ p, p ∈ paths → plain_path p.
Hypothesis Ht : tree_of contents paths t.
Context (mods : list goModule) (cfgs : gmap string tsConfig).

(** A target of file [p] is a directory of the snapshot other than its own. *)
Definition target_ok (p target : string) : Prop :=
  isDir paths target ∧ target ≠ "" ∧ target ≠ parentDir p ∧ parentDir p ∈ sortedKeys (dirHasSource t).

Lemma goTargets_ok p imps target : isFile paths p → parentDir p ≠ "" → languageForFile p = LanguageGo →
  target ∈ goTargets t mods (parentDir p) imps → target_ok p target.
Proof.
  intros Hp Hne Hl (imp & _ & H)%list_elem_of_omap. destruct (resolveGoImport imp mods) as [tg|]; [|done].
  case_decide as Hd; [done|]. injection H as ->. apply Decidable.not_or in Hd as [? Hd].
  apply Decidable.not_or in Hd as [? Hd]. assert (has_key (dirHasSource t) target = true) as Hk by (by destruct (has_key _ _)).
  rewrite (is_set_has _ _ _ (to_source _ _ _ Ht)) in Hk. split_and!; [|done|done|].
  - apply (source_isDir contents paths t Hplain Ht), (is_set_keys _ _ _ (to_source _ _ _ Ht)). done.
  - apply (is_set_keys _ _ _ (to_source _ _ _ Ht)). exists p. by rewrite Hl.
Qed.

Lemma tsTargets_ok p specs : isFile paths p → parentDir p ≠ "" → languageForFile p ≠ LanguageNone →
  ∃ ts, tsTargets t cfgs (parentDir p) specs = Some ts ∧ ∀ target, target ∈ ts → target_ok p target.
Proof.
  intros Hp Hne Hl. assert (plain_path (parentDir p)) as Hpp.
  { destruct (parentDir_plain p) as [?|[? _]]; [apply Hplain, Hp|done|done]. }
  induction specs as [|spec specs (ts & Hts & Hok)]; cbn [tsTargets]; [exists []; split; [done|by intros x ?%not_elem_of_nil]|].
  destruct (resolveTSImport_ok (fileSet t) spec (parentDir p) cfgs Hpp) as (o & -> & Ho). simpl. rewrite Hts. simpl.
  destruct o as [r|]; [|by exists ts]. case_decide as Hd; [by exists ts|]. eexists. split; [done|].
  intros target [->|?]%elem_of_cons; [|by apply Hok]. apply Decidable.not_or in Hd as [? ?].
  specialize (Ho r eq_refl). rewrite (is_set_has _ _ _ (to_files _ _ _ Ht)) in Ho. split_and!; [|done|done|].
  - destruct (parent_isDir paths Hplain r) as [?|?]; [by left|done|done].
  - apply (is_set_keys _ _ _ (to_source _ _ _ Ht)). exists p. done.
Qed.

Definition targetsOf (p : string) : list string := match fileTargets t contents mods cfgs p with Ok ts => ts | Err _ => [] end.

Lemma fileTargets_ok p : isFile paths p →
  match fileTargets t contents mods cfgs p with
  | Ok ts => ∀ target, target ∈ ts → target_ok p target
  | Err e => e = ErrExtractor ∧ tsAvailable = false
  end.
Proof.
  intros Hp. unfold fileTargets. destruct (contents !! p) as [src|]; [|by intros x ?%not_elem_of_nil].
  case_decide as Hne; [by intros x ?%not_elem_of_nil|]. destruct (languageForFile p) eqn:Hl.
  - by intros x ?%not_elem_of_nil.
  - intros target Hin. by eapply goTargets_ok.
  - destruct tsAvailable eqn:Hts; [|done]. destruct (ts_imports p src) as [specs|]; [|by intros x ?%not_elem_of_nil].
    destruct (tsTargets_ok p specs Hp Hne) as (ts & -> & Hok); [by rewrite Hl|]. done.
Qed.

(** The import pairs of the files [ps]. *)
Definition importPairs (ps : list string) : list (string * string) := ps ≫= λ p, pair (parentDir p) <$> targetsOf p.

Definition occurrences (k : string * string) (l : list (string * string)) : nat := length (filter (λ x, x = k) l).

(** [counts] holds the number of times each pair occurs in [l]. *)
Definition counts_of (l : list (string * string)) (counts : gmap (string * string) nat) : Prop :=
  ∀ k, counts !! k = if decide (occurrences k l = 0) then None else Some (occurrences k l).

Lemma bump_counts l counts k : counts_of l counts → counts_of (l ++ [k]) (bump counts k).
Proof.
  intros Hc k'. unfold bump, occurrences in *. rewrite filter_app, length_app, filter_cons, filter_nil.
  destruct (decide (k = k')) as [->|Hne]; simpl.
  - rewrite lookup_insert_eq, decide_False by lia. rewrite (Hc k'). case_decide as E; unfold occurrences in *; [by rewrite E|done].
  - rewrite lookup_insert_ne by done. rewrite Nat.add_0_r. apply Hc.
Qed.

Lemma bump_all from targets : ∀ l counts, counts_of l counts →
  counts_of (l ++ (pair from <$> targets)) (foldl (λ m target, bump m (from, target)) counts targets).
Proof.
  induction targets as [|x targets IH]; intros l counts Hc; cbn [foldl]; [by rewrite app_nil_r|].
  specialize (IH _ _ (bump_counts l counts (from, x) Hc)). by rewrite <- app_assoc in IH.
Qed.

Lemma collectFrom_ok poll ps : (∀ p, p ∈ ps → isFile paths p) → ∀ i l counts, counts_of l counts →
  match collectFrom t contents mods cfgs poll i ps counts with
  | Ok counts' => counts_of (l ++ importPairs ps) counts'
  | Err e => (e = ErrContext ∧ ∃ n, poll n = true) ∨ (e = ErrExtractor ∧ tsAvailable = false)
  end.
Proof.
  induction ps as [|p ps IH]; intros Hps i l counts Hc; cbn [collectFrom]; [by rewrite app_nil_r|].
  destruct (poll i) eqn:Hpoll; [left; eauto|].
  pose proof (fileTargets_ok p (Hps p ltac:(by left))) as Hf. unfold importPairs. rewrite bind_cons. unfold targetsOf at 1.
  destruct (fileTargets t contents mods cfgs p) as [ts|e]; cbn [res_bind]; [|by right].
  rewrite app_assoc. apply IH; [intros x Hx; apply Hps; by right|]. by apply bump_all.
Qed.

Lemma importPairs_ok ps k : (∀ p, p ∈ ps → isFile paths p) → k ∈ importPairs ps → ∃ p, p ∈ ps ∧ k.1 = parentDir p ∧ target_ok p k.2.
Proof.
  intros Hps (p & (x & -> & Hx)%list_elem_of_fmap & Hp)%list_elem_of_bind. exists p. split_and!; [done|done|].
  pose proof (fileTargets_ok p (Hps p Hp)) as Hf. unfold targetsOf in Hx. destruct (fileTargets _ _ _ _ p); [|by apply not_elem_of_nil in Hx].
  by apply Hf.
Qed.

(** The edges of the snapshot: one for each pair that is imported, with its count. *)
Definition edges_of (edges : list Edge) : Prop :=
  (∀ e, e ∈ edges ↔ Count e = occurrences (From e, To e) (importPairs (sortedFiles t)) ∧ 0 < Count e) ∧
  NoDup (edgeKey <$> edges) ∧ StronglySorted (by_key edge_fields) edges.

Lemma collectEdges_ok poll i :
  match collectEdges poll i t contents mods cfgs with
  | Ok edges => edges_of edges ∧
      ∀ e, e ∈ edges → From e ∈ sortedKeys (dirHasSource t) ∧ isDir paths (To e) ∧ From e ≠ To e
  | Err e => (e = ErrContext ∧ ∃ n, poll n = true) ∨ (e = ErrExtractor ∧ tsAvailable = false)
  end.
Proof.
  assert (∀ p, p ∈ sortedFiles t → isFile paths p) as Hfiles by (intros p; apply is_set_keys, Ht).
  unfold collectEdges. pose proof (collectFrom_ok poll (sortedFiles t) Hfiles i [] ∅) as Hc.
  destruct (collectFrom _ _ _ _ _ _ _ _) as [counts|e]; cbn [res_bind]; [|apply Hc; intros k; by rewrite lookup_empty].
  assert (counts_of (importPairs (sortedFiles t)) counts) as Hcounts by (apply Hc; intros k; by rewrite lookup_empty).
  clear Hc. set (mk := λ '((from, to), n), mkEdge from to n).
  assert (∀ e, e ∈ sortEdges (mk <$> map_to_list counts) ↔
    Count e = occurrences (From e, To e) (importPairs (sortedFiles t)) ∧ 0 < Count e) as Hin.
  { intros e. unfold sortEdges. rewrite elem_of_sort_by, list_elem_of_fmap. split.
    - intros ([[f g] n] & -> & Hn%elem_of_map_to_list). simpl. rewrite Hcounts in Hn. case_decide; simplify_eq. lia.
    - intros [He Hpos]. exists ((From e, To e), Count e). split; [by destruct e|]. apply elem_of_map_to_list.
      rewrite Hcounts, <- He. by rewrite decide_False by lia. }
  split; [split_and!|].
  - exact Hin.
  - unfold sortEdges. rewrite sort_by_perm. rewrite <- list_fmap_compose. rewrite (list_fmap_ext _ fst).
    + apply NoDup_fst_map_to_list.
    + by intros i' [[f g] n] _.
  - apply sort_by_sorted.
  - intros e [He Hpos]%Hin. assert ((From e, To e) ∈ importPairs (sortedFiles t)) as Hk.
    { destruct (filter (λ x, x = (From e, To e)) (importPairs (sortedFiles t))) as [|x l] eqn:E.
      - unfold occurrences in He. rewrite E in He. simpl in He. lia.
      - assert (x ∈ x :: l) as Hx by (by left). rewrite <- E in Hx. apply list_elem_of_filter in Hx as [-> Hx]. done. }
    destruct (importPairs_ok _ _ Hfiles Hk) as (p & _ & Hp & Hd & _ & Hne & Hsrc). simpl in *. rewrite Hp. done.
Qed.
End edges.

(** ** The whole of [Build] *)

(** The contents are what [read] gave for the files of the snapshot. *)
Definition contents_of (read : string → option string) (ps : list string) (contents : gmap string string) : Prop :=
  ∀ p, contents !! p = if decide (p ∈ ps) then read p else None.

Lemma readAll_ok poll read ps : ∀ i seen contents, contents_of read seen contents → NoDup (seen ++ ps) →
  match readAll poll read i ps contents with
  | Ok contents' => contents_of read (seen ++ ps) contents'
  | Err e => e = ErrContext ∧ ∃ n, poll n = true
  end.
Proof.
  induction ps as [|p ps IH]; intros i seen contents Hc Hnd; cbn [readAll]; [by rewrite app_nil_r|].
  destruct (poll i) eqn:E; [eauto|]. rewrite cons_middle, app_assoc in Hnd |- *. apply IH; [|done]. intros k.
  apply NoDup_app in Hnd as (Hnd & _ & _). apply NoDup_app in Hnd as (_ & Hdis & _).
  destruct (decide (k = p)) as [->|Hk].
  - rewrite decide_True by (apply elem_of_app; right; by left). destruct (read p); [apply lookup_insert_eq|].
    rewrite Hc, decide_False; [done|]. intros Hin. apply (Hdis p Hin). by left.
  - transitivity (contents !! k); [destruct (read p); [by rewrite lookup_insert_ne|done]|]. rewrite Hc.
    destruct (decide (k ∈ seen)); [rewrite decide_True; [done|]; apply elem_of_app; by left|].
    rewrite decide_False; [done|]. intros [?| ->%list_elem_of_singleton]%elem_of_app; done.
Qed.

(** What [Build] returns for [files] read by [read]. *)
Record build_of (files : list string) (read : string → option string) (g : Graph) (t t' : fileTree)
    (contents : gmap string string) (layerOf : gmap string nat) : Prop := {
  bo_contents : contents_of read (normalizeFiles files) contents;
  bo_tree : tree_of contents (normalizeFiles files) t;
  bo_edges : edges_of contents t (collectGoModules (normalizeFiles files) contents read)
    (collectTSConfigs (normalizeFiles files) contents read) (Edges g);
  bo_ends : ∀ e, e ∈ Edges g →
    From e ∈ sortedKeys (dirHasSource t) ∧ isDir (normalizeFiles files) (To e) ∧ From e ≠ To e;
  bo_layers : layering_of (sortedKeys (dirHasSource t)) (Edges g) layerOf (Violations g);
  bo_laid : laid_out (normalizeFiles files) (sortedKeys (dirHasSource t)) layerOf t t';
  bo_nodes : ∀ n, n ∈ Nodes g ↔ ∃ k, nodes t' !! k = Some n;
  bo_ids : ID <$> Nodes g = sort_strings (map_to_list (nodes t')).*1;
}.

Lemma omap_nodes (ns : gmap string Node) (l : list string) : (∀ k, k ∈ l → ∃ n, ns !! k = Some n ∧ ID n = k) →
  ID <$> omap (λ k, ns !! k) l = l.
Proof.
  induction l as [|k l IH]; intros Hl; [done|]. destruct (Hl k ltac:(by left)) as (n & Hn & Hid). simpl. rewrite Hn.
  change (ID n :: (ID <$> omap (λ k, ns !! k) l) = k :: l). rewrite Hid, IH; [done|]. intros x Hx. apply Hl. by right.
Qed.

(** Every node is stored under its ID. *)
Lemma laid_ID contents paths pkgs layerOf t t' k n :
  tree_of contents paths t → laid_out paths pkgs layerOf t t' → nodes t' !! k = Some n →
  ID n = k ∧ Parent n = parentDir k ∧ (isFile paths k ∨ isDir paths k) ∧ (Kind n = NodeKindFile ↔ isFile paths k).
Proof.
  intros Ht Hl Hn. pose proof (la_same _ _ _ _ _ Hl k) as Hs. destruct (nodes t !! k) as [n0|] eqn:E; [|congruence].
  destruct Hs as (l & o & Hs). rewrite Hn in Hs. injection Hs as ->. simpl.
  destruct (node_fields_of contents paths t Ht k n0 E) as [[Hf|Hd] Hpar].
  - rewrite (to_file _ _ _ Ht k Hf) in E. injection E as <-. split_and!; [done|done|by left|done].
  - destruct (to_dir _ _ _ Ht k Hd) as (lang & _ & E'). rewrite E' in E. injection E as <-.
    split_and!; [done|done|by right|]. simpl. split; [by destruct (ContainsByte k slash)|]. by intros [_ ?].
Qed.

Lemma Build_ok poll files read :
  match Build poll files read with
  | Ok g => ∃ r t t' contents layerOf, read = Some r ∧ build_of files r g t t' contents layerOf
  | Err e => (e = ErrNilReader ∧ read = None) ∨ (e = ErrContext ∧ ∃ n, poll n = true) ∨
      (e = ErrExtractor ∧ tsAvailable = false)
  end.
Proof.
  unfold Build. destruct read as [read|]; [|by left]. set (paths := normalizeFiles files).
  assert (∀ p, p ∈ paths → plain_path p) as Hplain by (by intros p [? _]%normalizeFiles_elem).
  pose proof (readAll_ok poll read paths 0 [] ∅) as Hr. destruct (readAll _ _ _ _ _) as [contents|e]; cbn [res_bind].
  2:{ right. left. apply Hr; [intros k; by rewrite lookup_empty|apply sortedKeys_NoDup]. }
  assert (contents_of read paths contents) as Hcont by (apply Hr; [intros k; by rewrite lookup_empty|apply sortedKeys_NoDup]).
  destruct (buildTree_ok contents paths Hplain) as (t & -> & Ht). cbn [from_option res_bind].
  pose proof (collectEdges_ok contents paths t Hplain Ht (collectGoModules paths contents read)
    (collectTSConfigs paths contents read) poll (length paths)) as Hce.
  destruct (collectEdges _ _ _ _ _ _) as [edges|e]; cbn [res_bind]; [|by right]. destruct Hce as [Hedges Hends].
  destruct (applyLayout_ok contents paths t Hplain Ht edges) as (layerOf & vs & t' & -> & Hlay & Hlaid);
    [by intros e [? _]%Hends|]. cbn [from_option res_bind].
  exists read, t, t', contents, layerOf. split; [done|].
  assert (∀ k, k ∈ sort_strings (map_to_list (nodes t')).*1 ↔ is_Some (nodes t' !! k)) as Hkeys.
  { intros k. rewrite sort_strings_perm, list_elem_of_fmap. split.
    - intros ([k' n] & -> & Hk%elem_of_map_to_list). by eexists.
    - intros [n Hn]. exists (k, n). split; [done|]. by apply elem_of_map_to_list. }
  split; simpl; [done..| |].
  - intros n. rewrite list_elem_of_omap. split; [intros (k & _ & Hk); eauto|].
    intros (k & Hk). exists k. split; [|done]. apply Hkeys. by eexists.
  - apply omap_nodes. intros k [n Hn]%Hkeys. exists n. split; [done|]. by eapply laid_ID.
Qed.

(** A directory that ends an edge is a node with the layer of its class. *)
Lemma end_node files read g t t' contents layerOf d l :
  build_of files read g t t' contents layerOf → isDir (normalizeFiles files) d → layerOf !! d = Some l →
  ∃ n, n ∈ Nodes g ∧ ID n = d ∧ Kind n ≠ NodeKindFile ∧ Layer n = l.
Proof.
  intros Hb Hd Hl. pose proof (bo_laid _ _ _ _ _ _ _ Hb) as Hlaid. pose proof (bo_tree _ _ _ _ _ _ _ Hb) as Ht.
  destruct (to_dir _ _ _ Ht d Hd) as (lang & _ & Hn0). pose proof (la_same _ _ _ _ _ Hlaid d) as Hs. rewrite Hn0 in Hs.
  destruct Hs as (l' & o & Hn). destruct (laid_ID _ _ _ _ _ _ _ _ Ht Hlaid Hn) as (Hid & _ & _ & Hk).
  pose proof (la_dir _ _ _ _ _ Hlaid d _ Hd Hn) as Hlay. rewrite Hl in Hlay. eexists. split_and!; [|done| |done].
  - apply (bo_nodes _ _ _ _ _ _ _ Hb). eauto.
  - rewrite Hk. by intros [_ ?].
Qed.

(** C28: building the graph, whatever the paths, the contents and what the
    parsers return.  It fails only without a reader, when the context was done
    at a poll, or when the TypeScript extractor is not available; it never
    dereferences a nil node or walks up forever.  Otherwise the nodes are sorted
    with distinct IDs, every parent is a directory node and a file is in its
    layer, and every edge joins two different directory nodes and either points
    strictly down or is reported as a violation, and nothing else is: a cycle
    violation is an edge within a class of mutual imports, a wrong-way violation
    an edge into the class of a cmd package from another class. *)
Theorem Build_graph poll files read :
  match Build poll files read with
  | Err e => (e = ErrNilReader ∧ read = None) ∨ (e = ErrContext ∧ ∃ n, poll n = true) ∨
      (e = ErrExtractor ∧ tsAvailable = false)
  | Ok g =>
    StronglySorted string_le (ID <$> Nodes g) ∧ NoDup (ID <$> Nodes g) ∧
    (∀ n, n ∈ Nodes g → Parent n ≠ "" →
      ∃ p, p ∈ Nodes g ∧ ID p = Parent n ∧ Kind p ≠ NodeKindFile ∧ (Kind n = NodeKindFile → Layer n = Layer p)) ∧
    (∀ e, e ∈ Edges g → 0 < Count e ∧ From e ≠ To e ∧ ∃ f t, f ∈ Nodes g ∧ t ∈ Nodes g ∧ ID f = From e ∧ ID t = To e ∧
      Kind f ≠ NodeKindFile ∧ Kind t ≠ NodeKindFile ∧
      (Layer f < Layer t ∨ ∃ v, v ∈ Violations g ∧ v_From v = From e ∧ v_To v = To e)) ∧
    (∀ v, v ∈ Violations g → ∃ e, e ∈ Edges g ∧ v_From v = From e ∧ v_To v = To e ∧
      match v_Kind v with
      | ViolationCycle => mutual (adjacency (Edges g)) (From e) (To e)
      | ViolationWrongWay => ¬ mutual (adjacency (Edges g)) (From e) (To e) ∧ cmdClass (Edges g) (To e)
      end)
  end.
Proof.
  pose proof (Build_ok poll files read) as HB. destruct (Build poll files read) as [g|e]; [|done].
  destruct HB as (r & t & t' & contents & layerOf & _ & Hb). pose proof (bo_laid _ _ _ _ _ _ _ Hb) as Hlaid.
  pose proof (bo_tree _ _ _ _ _ _ _ Hb) as Ht. pose proof (bo_layers _ _ _ _ _ _ _ Hb) as Hlay.
  assert (∀ p, p ∈ normalizeFiles files → plain_path p) as Hplain by (by intros p [? _]%normalizeFiles_elem).
  split_and!.
  - rewrite (bo_ids _ _ _ _ _ _ _ Hb). apply sort_strings_sorted.
  - rewrite (bo_ids _ _ _ _ _ _ _ Hb), sort_strings_perm. apply NoDup_fst_map_to_list.
  - intros n (k & Hn)%(bo_nodes _ _ _ _ _ _ _ Hb) Hne.
    destruct (laid_ID _ _ _ _ _ _ _ _ Ht Hlaid Hn) as (_ & Hpar & Hk & Hkind). rewrite Hpar in Hne |- *.
    destruct (parent_isDir _ Hplain k Hk) as [?|Hd]; [done|].
    destruct (to_dir _ _ _ Ht _ Hd) as (lang & _ & Hp0). pose proof (la_same _ _ _ _ _ Hlaid (parentDir k)) as Hs.
    rewrite Hp0 in Hs. destruct Hs as (l & o & Hp). destruct (laid_ID _ _ _ _ _ _ _ _ Ht Hlaid Hp) as (Hid & _ & _ & Hpk).
    eexists. split_and!; [apply (bo_nodes _ _ _ _ _ _ _ Hb); eauto|done|rewrite Hpk; by intros [_ ?]|].
    intros Hf%Hkind. pose proof (la_file _ _ _ _ _ Hlaid k n Hf Hn) as Hlf. rewrite Hpar, decide_False in Hlf by done.
    destruct Hlf as (p & Hp' & ->). rewrite Hp in Hp'. by injection Hp' as <-.
  - intros e He. destruct (bo_ends _ _ _ _ _ _ _ Hb e He) as (Hf & Hto & Hne).
    split; [by apply (bo_edges _ _ _ _ _ _ _ Hb)|]. split; [done|].
    destruct (proj2 (lo_dom _ _ _ _ Hlay (From e))) as [nf Hnf]; [by left|].
    destruct (proj2 (lo_dom _ _ _ _ Hlay (To e))) as [nt Hnt]; [right; eauto|].
    destruct (end_node _ _ _ _ _ _ _ (From e) nf Hb) as (f & ? & ? & ? & Hlf); [by apply (source_isDir contents _ t)|done|].
    destruct (end_node _ _ _ _ _ _ _ (To e) nt Hb Hto Hnt) as (tn & ? & ? & ? & Hlt).
    exists f, tn. split_and!; [done..|]. rewrite Hlf, Hlt.
    destruct (decide (mkViolation ViolationCycle (From e) (To e) ∈ Violations g)) as [Hv|Hv]; [right; eexists; by split|].
    destruct (lo_down _ _ _ _ Hlay e nf nt He Hnf Hnt) as [?|?]; [|by left|right; by eexists].
    intros Hm. apply Hv, (lo_violations _ _ _ _ Hlay). exists e. split; [done|]. left. split_and!; [done|done|].
    exists (To e). by split.
  - intros v (e & He & Hv)%(lo_violations _ _ _ _ Hlay). exists e. split; [done|].
    destruct Hv as [(-> & ? & _)|(-> & ? & ?)]; done.
Qed.
End correct.
