(* ===== verification/ProjectionIdentity.v ===== *)
(** * Stable projection identities ([internal/ingest/projection_identity.go])

    The alias keys a generation persists, the prior state rebuilt from a
    generation and the merge of two prior states.  The allocator of fresh
    references is the class [RefAllocator], a state that may fail. *)
From S2P Require Import Prelude GoStrings GoText IndexFormat.
Local Open Scope string_scope.
Local Open Scope list_scope.

(** ** Allocation *)

(** [RefAllocator]: minting may fail; the state is what the source of
    randomness becomes. *)
Class RefAllocator (A : Type) := {
  NewEntryRef : A → option (string * A);
  NewSubmissionRef : A → option (string * A);
}.

(** ** Alias keys *)

Definition projectionBlockAliasPrefix := "block:".
Definition projectionAcceptAliasPrefix := "accept:".

(** [encodeAliasKey]; the error is not distinguished further. *)
Definition encodeAliasKey (prefix raw : string) : option string :=
  if decide (raw = "") then None
  else
    let key := prefix +:+ raw in
    if negb (ValidString key) then None
    else if decide (MaxNativeAliasKeyBytes < String.length key)%nat then None
    else Some key.

Definition encodeBlockAliasKey (nativeKey : string) : option string :=
  encodeAliasKey projectionBlockAliasPrefix nativeKey.
Definition encodeSubmissionAliasKey (submissionKey : string) : option string :=
  encodeAliasKey projectionAcceptAliasPrefix submissionKey.

(** [strings.TrimPrefix]. *)
Definition TrimPrefix (s prefix : string) : string := default s (cut_prefix prefix s).

(** ** Prior state *)

Record ProjectionPriorState := mkPrior {
  prior_Entries : gmap string string;
  prior_Submissions : gmap string string;
}.

Definition NewProjectionPriorState : ProjectionPriorState := mkPrior ∅ ∅.

(** [clone] builds the two maps again, key by key. *)
Definition clone (s : ProjectionPriorState) : ProjectionPriorState :=
  mkPrior (map_fold (λ key ref out, <[key := ref]> out) (prior_Entries NewProjectionPriorState) (prior_Entries s))
    (map_fold (λ key ref out, <[key := ref]> out) (prior_Submissions NewProjectionPriorState) (prior_Submissions s)).

Section prior.
Context `{SchemaLib}.

(** [index]: the provenance of each emitted reference. *)
Definition indexProvenance (byRef : gmap string ContentProvenance) (entries : list SessionEntry) :
    gmap string ContentProvenance :=
  foldl (λ byRef entry,
    match Provenance entry with
    | Some p => if decide (SourceEntryRef entry ≠ "") then <[SourceEntryRef entry := p]> byRef else byRef
    | None => byRef
    end) byRef entries.

Definition generationProvenance (g : Generation) : gmap string ContentProvenance :=
  foldl (λ byRef e, indexProvenance byRef (Entries (Content e))) (indexProvenance ∅ (Entries (g_Main g))) (g_Earlier g).

(** One alias of [PriorStateFromGeneration]. *)
Definition recordAlias (byRef : gmap string ContentProvenance) (state : ProjectionPriorState) (alias : NativeAlias) :
    ProjectionPriorState :=
  if HasPrefix (NativeKey alias) projectionBlockAliasPrefix then
    mkPrior (<[TrimPrefix (NativeKey alias) projectionBlockAliasPrefix := a_Ref alias]> (prior_Entries state))
      (prior_Submissions state)
  else if HasPrefix (NativeKey alias) projectionAcceptAliasPrefix then
    let key := TrimPrefix (NativeKey alias) projectionAcceptAliasPrefix in
    match byRef !! a_Ref alias with
    | Some provenance =>
      if decide (p_SubmissionRef provenance ≠ "") then
        mkPrior (prior_Entries state) (<[key := p_SubmissionRef provenance]> (prior_Submissions state))
      else state
    | None => state
    end
  else state.

Definition PriorStateFromGeneration (g : Generation) : ProjectionPriorState :=
  foldl (recordAlias (generationProvenance g)) NewProjectionPriorState (Aliases g).
End prior.

(** ** Merging the latest attempt *)

(** The range over a map of [attempt]; [None] is [ErrPriorAliasConflict]. *)
Definition mergeRefs (merged attempt : gmap string string) : option (gmap string string) :=
  map_fold (λ key ref out,
    merged ← out;
    match merged !! key with
    | Some existing => if decide (existing = ref) then Some (<[key := ref]> merged) else None
    | None => Some (<[key := ref]> merged)
    end) (Some merged) attempt.

Definition MergeLatestAttemptAliases (authority attempt : ProjectionPriorState) : option ProjectionPriorState :=
  let merged := clone authority in
  entries ← mergeRefs (prior_Entries merged) (prior_Entries attempt);
  submissions ← mergeRefs (prior_Submissions merged) (prior_Submissions attempt);
  Some (mkPrior entries submissions).

(** * Theorems *)

Lemma encodeAliasKey_Some prefix raw key : encodeAliasKey prefix raw = Some key → key = prefix +:+ raw ∧ raw ≠ "".
Proof.
  unfold encodeAliasKey. case_decide; [done|]. destruct (negb _); [done|]. case_decide; [done|]. by intros [= <-].
Qed.

Lemma TrimPrefix_app p s : TrimPrefix (p +:+ s) p = s.
Proof. unfold TrimPrefix. assert (cut_prefix p (p +:+ s) = Some s) as -> by (by apply cut_prefix_Some). done. Qed.

(** A block alias and an acceptance alias never share a key. *)
Lemma accept_not_block s : HasPrefix (projectionAcceptAliasPrefix +:+ s) projectionBlockAliasPrefix = false.
Proof. done. Qed.

Lemma clone_id s : clone s = s.
Proof.
  destruct s as [e sub]. unfold clone. simpl. f_equal.
  - induction e as [|k v m Hk Hf IH] using map_first_key_ind; [done|]. by rewrite map_fold_insert_first_key, IH.
  - induction sub as [|k v m Hk Hf IH] using map_first_key_ind; [done|]. by rewrite map_fold_insert_first_key, IH.
Qed.

Lemma mergeRefs_spec m1 m2 : mergeRefs m1 m2 = if decide (map_agree m1 m2) then Some (m1 ∪ m2) else None.
Proof.
  unfold mergeRefs. induction m2 as [|k v m2 Hk Hf IH] using map_first_key_ind.
  { rewrite map_fold_empty, decide_True by apply map_agree_empty_r. by rewrite map_union_empty. }
  rewrite map_fold_insert_first_key, IH by done. clear IH.
  assert (map_agree m1 (<[k:=v]> m2) ↔ map_agree m1 m2 ∧ ∀ r, m1 !! k = Some r → r = v) as Hag.
  { rewrite !map_agree_spec. split.
    - intros Ha. split; [|intros r Hr; by apply (Ha k); [|rewrite lookup_insert_eq]].
      intros i x y Hx Hy. apply (Ha i); [done|]. rewrite lookup_insert_ne; [done|]. by intros <-; rewrite Hk in Hy.
    - intros [Ha Hv] i x y Hx [[<- <-]|[? Hy]]%lookup_insert_Some; eauto. }
  destruct (decide (map_agree m1 m2)) as [Ha|Ha]; simpl; [|by rewrite decide_False by tauto].
  destruct (m1 !! k) as [r|] eqn:E.
  - rewrite (lookup_union_Some_l _ _ _ _ E). case_decide as Hr.
    + subst. rewrite decide_True by (apply Hag; naive_solver). f_equal. apply map_eq. intros i.
      rewrite lookup_insert, !lookup_union. destruct (decide (k = i)) as [->|]; [by rewrite E, union_Some_l|].
      by rewrite lookup_insert_ne.
    + rewrite decide_False; [done|]. intros [_ Hv]%Hag. by apply Hr, Hv.
  - rewrite lookup_union_r, Hk by done. rewrite decide_True by (apply Hag; naive_solver). f_equal.
    by rewrite insert_union_r.
Qed.

(** The merge of the latest attempt into the authority succeeds exactly when
    the two agree on every native key they share, and then holds every identity
    of both and nothing else; in particular the order of the two does not
    matter and no identity of the authority is rebound. *)
Theorem merge_exact authority attempt :
  let agree := map_agree (prior_Entries authority) (prior_Entries attempt) ∧
               map_agree (prior_Submissions authority) (prior_Submissions attempt) in
  (agree → ∃ merged, MergeLatestAttemptAliases authority attempt = Some merged ∧
    MergeLatestAttemptAliases attempt authority = Some merged ∧
    (∀ k r, prior_Entries merged !! k = Some r ↔ prior_Entries authority !! k = Some r ∨ prior_Entries attempt !! k = Some r) ∧
    (∀ k r, prior_Submissions merged !! k = Some r ↔
      prior_Submissions authority !! k = Some r ∨ prior_Submissions attempt !! k = Some r)) ∧
  (¬ agree → MergeLatestAttemptAliases authority attempt = None).
Proof.
  assert (∀ (m1 m2 : gmap string string) k r, map_agree m1 m2 →
    (m1 ∪ m2) !! k = Some r ↔ m1 !! k = Some r ∨ m2 !! k = Some r) as Hu.
  { intros m1 m2 k r Ha. rewrite map_agree_spec in Ha. rewrite lookup_union_Some_raw. split; [naive_solver|].
    intros [?|Hr]; [by left|]. destruct (m1 !! k) as [x|] eqn:E; [left; f_equal; by eapply Ha|by right]. }
  unfold MergeLatestAttemptAliases. rewrite !clone_id, !mergeRefs_spec. split.
  - intros [He Hs]. rewrite !(decide_True _ _ He), !(decide_True _ _ Hs). simpl.
    eexists. split_and!; [done| |intros; by apply Hu..].
    rewrite !decide_True by (by symmetry). simpl. do 2 f_equal; apply map_eq; intros k; apply option_eq; intros r;
      rewrite !Hu by (done || by symmetry); tauto.
  - intros Hno. destruct (decide (map_agree (prior_Entries authority) _)); simpl; [|done].
    destruct (decide (map_agree (prior_Submissions authority) _)); simpl; [|done]. by destruct Hno.
Qed.

Lemma merge_exact_witness :
  let authority := mkPrior {["k1" := "e1"]} ∅ in
  let attempt := mkPrior {["k1" := "e1"; "k2" := "e2"]} ∅ in
  MergeLatestAttemptAliases authority attempt = MergeLatestAttemptAliases attempt authority.
Proof.
  intros authority attempt.
  destruct (proj1 (merge_exact authority attempt)) as (m & -> & -> & _); [|done].
  split; [|apply map_agree_empty_l]. apply map_agree_spec. intros i x y. unfold authority, attempt. simpl.
  rewrite lookup_singleton_Some. intros [<- <-]. vm_compute. congruence.
Defined.
