(* ===== verification/UnionFind.v ===== *)
(** * The union-find of [resolveUncertainSubtrees] ([internal/ingest/projection.go])

    The parent array, [find] with path halving and [union], with fuel the length
    of the array; the array always represents the equivalence closure of the
    edges united so far, and the fuel is always enough. *)
From S2P Require Import Prelude.

(** [find] with path halving; [None] is a loop that outlives the fuel. *)
Fixpoint find_root (fuel : nat) (parent : list nat) (x : nat) : option (list nat * nat) :=
  match fuel with
  | O => None
  | S fuel =>
    px ← parent !! x;
    if decide (px = x) then Some (parent, x)
    else
      grand ← parent !! px;
      find_root fuel (<[x := grand]> parent) grand
  end.

Definition find (parent : list nat) (x : nat) : option (list nat * nat) := find_root (length parent) parent x.

Definition union_ (parent : list nat) (a b : nat) : option (list nat) :=
  '(parent, ra) ← find parent a;
  '(parent, rb) ← find parent b;
  Some (if decide (ra = rb) then parent else <[rb := ra]> parent).

(** [for k := 1; k < len(members); k++ { union(members[0], members[k]) }]. *)
Definition unionMembers (parent : list nat) (members : list nat) : option (list nat) :=
  match members with
  | [] => Some parent
  | m0 :: rest => foldl (λ acc m, parent ← acc; union_ parent m0 m) (Some parent) rest
  end.

(** ** Climbing to the root *)

Inductive climbs (parent : list nat) : nat → nat → nat → Prop :=
  | climbs_root x : parent !! x = Some x → climbs parent x 0 x
  | climbs_step x p d r : parent !! x = Some p → p ≠ x → climbs parent p d r → climbs parent x (S d) r.

Lemma climbs_det parent x d r : climbs parent x d r → ∀ d' r', climbs parent x d' r' → d' = d ∧ r' = r.
Proof.
  induction 1 as [x Hx|x p d r Hx Hne _ IH]; intros d' r' Hc; inversion Hc; simplify_eq; [done|].
  split; [f_equal|]; eapply IH; eauto.
Qed.

Lemma climbs_at_root parent x d r : climbs parent x d r → parent !! r = Some r.
Proof. by induction 1. Qed.

(** The nodes passed are distinct, so a climb is shorter than the array. *)
Lemma climbs_path parent x d r :
  climbs parent x d r → ∃ l, length l = S d ∧ ∀ i y, l !! i = Some y → climbs parent y (d - i) r.
Proof.
  induction 1 as [x Hx|x p d r Hx Hne Hc (l & Hl & IH)].
  - exists [x]. split; [done|]. intros [|i] y ?; simplify_eq/=. by constructor.
  - exists (x :: l). split; [simpl; lia|]. intros [|i] y Hy; simplify_eq/=; [by econstructor|]. by apply IH.
Qed.

Lemma climbs_bound parent x d r : climbs parent x d r → d < length parent.
Proof.
  intros (l & Hl & Hp)%climbs_path.
  assert (NoDup l) as Hnd.
  { apply NoDup_alt. intros i j y Hi Hj. pose proof (Hp _ _ Hi) as Hci. pose proof (Hp _ _ Hj) as Hcj.
    destruct (climbs_det _ _ _ _ Hci _ _ Hcj). apply lookup_lt_Some in Hi, Hj. lia. }
  assert (length l ≤ length (seq 0 (length parent))); [|rewrite length_seq in *; lia].
  apply submseteq_length, NoDup_submseteq; [done|]. intros y [i Hi]%list_elem_of_lookup. apply elem_of_seq.
  specialize (Hp _ _ Hi). destruct Hp as [y Hy|y p d' r' Hy _ _]; apply lookup_lt_Some in Hy; lia.
Qed.

(** Path halving shortens climbs and keeps their roots. *)
Lemma halve_climbs parent x px grand :
  parent !! x = Some px → px ≠ x → parent !! px = Some grand →
  ∀ d y r, climbs parent y d r → ∃ d', d' ≤ d ∧ climbs (<[x := grand]> parent) y d' r.
Proof.
  intros Hx Hne Hpx d. induction (lt_wf d) as [d _ IH]. intros y r Hc.
  assert (x < length parent) as Hlt by (by eapply lookup_lt_Some).
  destruct (decide (y = x)) as [->|Hyx].
  - inversion Hc as [|? p d1 ? Hp Hpne Hc1]; simplify_eq. inversion Hc1 as [|? g d2 ? Hg Hgne Hc2]; simplify_eq.
    + exists 1. split; [lia|]. eapply climbs_step; [by rewrite list_lookup_insert_eq|done|].
      apply climbs_root. by rewrite list_lookup_insert_ne.
    + destruct (IH d2 ltac:(lia) _ _ Hc2) as (d' & Hd' & Hc').
      assert (grand ≠ x) by (intros ->; destruct (climbs_det _ _ _ _ Hc _ _ Hc2); lia).
      exists (S d'). split; [lia|]. eapply climbs_step; [by rewrite list_lookup_insert_eq|done|done].
  - inversion Hc as [|? p d1 ? Hp Hpne Hc1]; simplify_eq.
    + exists 0. split; [lia|]. apply climbs_root. by rewrite list_lookup_insert_ne.
    + destruct (IH d1 ltac:(lia) _ _ Hc1) as (d' & Hd' & Hc'). exists (S d'). split; [lia|].
      eapply climbs_step; [by rewrite list_lookup_insert_ne|done|done].
Qed.

(** ** The represented partition *)

(** [parent] is a forest over [0..n-1] whose roots are given by [rep]. *)
Record represents (parent : list nat) (n : nat) (rep : nat → nat) : Prop := {
  rp_length : length parent = n;
  rp_climbs : ∀ x, x < n → ∃ d, climbs parent x d (rep x);
}.

Lemma represents_ext parent n rep rep' :
  represents parent n rep → (∀ x, x < n → rep' x = rep x) → represents parent n rep'.
Proof. intros [Hl Hc] He. split; [done|]. intros x Hx. rewrite He by done. by apply Hc. Qed.

Lemma find_root_ok fuel : ∀ parent n rep x d,
  represents parent n rep → climbs parent x d (rep x) → d < fuel →
  ∃ parent', find_root fuel parent x = Some (parent', rep x) ∧ represents parent' n rep.
Proof.
  induction fuel as [|fuel IH]; intros parent n rep x d Hrep Hc Hd; [lia|]. simpl.
  assert (parent !! x = Some x ∧ rep x = x ∨
          ∃ px d1, parent !! x = Some px ∧ px ≠ x ∧ climbs parent px d1 (rep x) ∧ d = S d1)
    as [[Hx ->]|(px & d1 & Hpx & Hne & Hc1 & ->)].
  { inversion Hc; subst; [left; split; congruence|right; eauto 10]. }
  { rewrite Hx. simpl. rewrite decide_True by done. eauto. }
  rewrite Hpx. simpl. rewrite decide_False by done.
  assert (∃ grand d2, parent !! px = Some grand ∧ climbs parent grand d2 (rep x) ∧ d2 ≤ d1) as (grand & d2 & Hg & Hc2 & Hd2).
  { inversion Hc1; subst; [eauto|]. do 2 eexists. split_and!; [done|done|lia]. }
  rewrite Hg. simpl. pose proof (halve_climbs _ _ _ _ Hpx Hne Hg) as Hh.
  assert (grand < n) as Hgn.
  { rewrite <- (rp_length _ _ _ Hrep). destruct Hc2 as [? Hl|? ? ? ? Hl _ _]; by apply lookup_lt_Some in Hl. }
  assert (rep grand = rep x) as Hgr.
  { destruct (rp_climbs _ _ _ Hrep _ Hgn) as [? Hcg]. by eapply climbs_det. }
  destruct (Hh _ _ _ Hc2) as (d' & Hd' & Hc'). rewrite <- Hgr in Hc' |- *.
  eapply IH; [|exact Hc'|lia]. destruct Hrep as [Hlen Hall]. split; [by rewrite length_insert|].
  intros y Hy. destruct (Hall y Hy) as [? Hcy]. destruct (Hh _ _ _ Hcy) as (? & _ & ?). eauto.
Qed.

Lemma find_ok parent n rep x :
  represents parent n rep → x < n →
  ∃ parent', find parent x = Some (parent', rep x) ∧ represents parent' n rep.
Proof.
  intros Hrep Hx. destruct (rp_climbs _ _ _ Hrep x Hx) as [d Hc].
  eapply find_root_ok; [done|done|by eapply climbs_bound].
Qed.

(** Hanging the root [b] under another root [a]. *)
Lemma link_climbs parent a b :
  parent !! a = Some a → parent !! b = Some b → a ≠ b →
  ∀ x d r, climbs parent x d r → ∃ d', climbs (<[b := a]> parent) x d' (if decide (r = b) then a else r).
Proof.
  intros Ha Hb Hne. assert (b < length parent) by (by eapply lookup_lt_Some).
  induction 1 as [x Hx|x p d r Hx Hpx Hc [d' IH]].
  - case_decide as Hxb.
    + subst. exists 1. eapply climbs_step; [by rewrite list_lookup_insert_eq|done|].
      apply climbs_root. by rewrite list_lookup_insert_ne.
    + exists 0. apply climbs_root. by rewrite list_lookup_insert_ne.
  - exists (S d'). eapply climbs_step; [|done|done]. rewrite list_lookup_insert_ne; [done|]. intros ->. congruence.
Qed.

Lemma union_ok parent n rep a b :
  represents parent n rep → a < n → b < n →
  ∃ parent', union_ parent a b = Some parent' ∧
    represents parent' n (λ y, if decide (rep y = rep b) then rep a else rep y).
Proof.
  intros Hrep Ha Hb. unfold union_.
  destruct (find_ok _ _ _ _ Hrep Ha) as (p1 & -> & Hrep1). simpl.
  destruct (find_ok _ _ _ _ Hrep1 Hb) as (p2 & -> & Hrep2). simpl. eexists. split; [done|].
  case_decide as Heq; [eapply represents_ext; [done|]; intros; case_decide; congruence|].
  destruct (rp_climbs _ _ _ Hrep2 _ Ha) as [da Hca]. destruct (rp_climbs _ _ _ Hrep2 _ Hb) as [db Hcb].
  apply climbs_at_root in Hca, Hcb. destruct Hrep2 as [Hl Hall]. split; [by rewrite length_insert|].
  intros y Hy. destruct (Hall y Hy) as [d Hc]. by eapply link_climbs.
Qed.

(** ** Edges *)

(** Two nodes share a root exactly when the edges connect them. *)
Definition classes (parent : list nat) (n : nat) (E : relation nat) : Prop :=
  ∃ rep, represents parent n rep ∧ ∀ x y, x < n → y < n → rep x = rep y ↔ rtsc E x y.

Lemma rtsc_sub {A} (R S : relation A) : (∀ u v, R u v → rtsc S u v) → ∀ u v, rtsc R u v → rtsc S u v.
Proof.
  intros Hs u v. induction 1 as [|u w v [Hr|Hr] _ IH]; [reflexivity|..]; (etrans; [|exact IH]).
  - by apply Hs.
  - symmetry. by apply Hs.
Qed.

Lemma rtsc_step {A} (R : relation A) u v : R u v → rtsc R u v.
Proof. intros. apply rtc_once. by left. Qed.

Lemma classes_ext parent n E E' :
  classes parent n E → (∀ u v, E u v → rtsc E' u v) → (∀ u v, E' u v → rtsc E u v) → classes parent n E'.
Proof.
  intros (rep & Hrep & HE) H1 H2. exists rep. split; [done|]. intros x y Hx Hy. rewrite HE by done.
  split; by apply rtsc_sub.
Qed.

Lemma rtsc_add {A} (E : relation A) a b x y :
  rtsc (λ u v, E u v ∨ (u = a ∧ v = b)) x y ↔
  rtsc E x y ∨ (rtsc E x a ∧ rtsc E b y) ∨ (rtsc E x b ∧ rtsc E a y).
Proof.
  split.
  - induction 1 as [x|x u y Hs _ IH]; [left; reflexivity|].
    assert (rtsc E x u ∨ (x = a ∧ u = b) ∨ (x = b ∧ u = a)) as [Hxu|[[-> ->]|[-> ->]]].
    { destruct Hs as [[?|?]|[?|?]]; [|naive_solver| |naive_solver]; left; apply rtc_once; [by left|by right]. }
    + destruct IH as [?|[[? ?]|[? ?]]]; [left|right; left; split; [|done]|right; right; split; [|done]];
        by etrans.
    + destruct IH as [?|[[? ?]|[? ?]]]; [right; left; split; [reflexivity|done]..|]. by left.
    + destruct IH as [?|[[? ?]|[? ?]]]; [right; right; split; [reflexivity|done]| |right; right; split; [reflexivity|done]].
      by left.
  - assert (∀ u v, rtsc E u v → rtsc (λ u v, E u v ∨ (u = a ∧ v = b)) u v) as Hm.
    { intros u v. apply rtc_subrel. intros ? ? [?|?]; [left|right]; by left. }
    assert (rtsc (λ u v, E u v ∨ (u = a ∧ v = b)) a b) as Hab by (apply rtsc_step; by right).
    intros [?|[[Hx Hy]|[Hx Hy]]]; [by apply Hm| |].
    + etrans; [by apply Hm|]. etrans; [done|]. by apply Hm.
    + etrans; [by apply Hm|]. etrans; [symmetry; exact Hab|]. by apply Hm.
Qed.

Lemma classes_init n : classes (seq 0 n) n (λ _ _, False).
Proof.
  exists id. split.
  - split; [by rewrite length_seq|]. intros x Hx. exists 0. apply climbs_root. by apply lookup_seq_lt.
  - intros x y _ _. unfold id. split; [intros ->; reflexivity|].
    by induction 1 as [|? ? ? [[]|[]] _ _].
Qed.

Lemma union_classes parent n E a b :
  classes parent n E → a < n → b < n →
  ∃ parent', union_ parent a b = Some parent' ∧ classes parent' n (λ u v, E u v ∨ (u = a ∧ v = b)).
Proof.
  intros (rep & Hrep & HE) Ha Hb. destruct (union_ok _ _ _ _ _ Hrep Ha Hb) as (parent' & Hu & Hrep').
  exists parent'. split; [done|]. eexists. split; [exact Hrep'|]. intros x y Hx Hy. simpl.
  rewrite rtsc_add, <- !HE by done. repeat case_decide; intuition congruence.
Qed.

Lemma unionMembers_classes parent n E members :
  classes parent n E → Forall (λ m, m < n) members →
  ∃ parent', unionMembers parent members = Some parent' ∧
    classes parent' n (λ u v, E u v ∨ (u ∈ members ∧ v ∈ members)).
Proof.
  intros Hc Hlt. destruct Hlt as [|m0 rest H0 Hlt]; simpl.
  { exists parent. split; [done|]. eapply classes_ext; [done|..]; intros u v; [|intros [?|[? _]]];
      [intros; apply rtsc_step; by left|by apply rtsc_step|set_solver]. }
  assert (∃ parent', foldl (λ acc m, parent ← acc; union_ parent m0 m) (Some parent) rest = Some parent' ∧
            classes parent' n (λ u v, E u v ∨ (u = m0 ∧ v ∈ rest))) as (p' & Hp & Hc').
  { revert parent E Hc. induction Hlt as [|m rest Hm _ IH]; intros parent E Hc; csimpl.
    - exists parent. split; [done|]. eapply classes_ext; [done|..]; intros u v; [|intros [?|[_ ?]]];
        [intros; apply rtsc_step; by left|by apply rtsc_step|set_solver].
    - destruct (union_classes _ _ _ _ _ Hc H0 Hm) as (p' & -> & Hc').
      destruct (IH _ _ Hc') as (p'' & -> & Hc''). exists p''. split; [done|].
      eapply classes_ext; [done|..]; intros u v Hs; apply rtsc_step; set_solver. }
  exists p'. split; [done|]. eapply classes_ext; [done|..]; intros u v.
  - intros [?|[-> ?]]; apply rtsc_step; [by left|right; set_solver].
  - assert (∀ w, w ∈ m0 :: rest → rtsc (λ u v, E u v ∨ (u = m0 ∧ v ∈ rest)) m0 w) as Hm0.
    { intros w [->|?]%elem_of_cons; [reflexivity|]. apply rtsc_step. by right. }
    intros [?|[Hu Hv]]; [apply rtsc_step; by left|]. etrans; [symmetry|]; by apply Hm0.
Qed.
