(* ===== verification/Projection.v ===== *)
(** * Projecting a classified capture into a generation ([internal/ingest/projection.go])

    [BuildGeneration] resolves every block's partition, allocates stable
    references, lays the entries out, folds tool subtrees and validates the
    result.  Pointers between resolved blocks are positions in the list of
    blocks, so an update through one alias is visible through the others; a Go
    [range] over a map is any order of its entries ([MapOrder]).  JSON encoding,
    hashing and the retained-evidence codec are the class [EvidenceLib]; the
    error of a failing step carries its reason and the native key it names. *)
From stdpp Require Import pretty.
From S2P Require Import Prelude GoStrings IndexFormat ProjectionIdentity UnionFind.
Local Open Scope string_scope.
Local Open Scope list_scope.
Local Open Scope Z_scope.

(** ** What the projection calls *)

Record OmittedRecord := mkOmitted { o_Reason : string; Line : Z; Bytes : Z; LimitBytes : Z }.
Record OmittedRecordAt := mkOmittedAt { o_Record : OmittedRecord; o_ToolCallID : option string }.

(** [encoding/json], the digest, the schema's evidence validators and the codec
    of retained unknown evidence ([retained_unknown.go]). [Object_Unmarshal] is
    [json.Unmarshal] into a map of raw messages: an error, null or an object. *)
Class EvidenceLib := {
  RetainedUnknown : Type;
  ru_Harness : RetainedUnknown → string;
  NewRetainedUnknown : RetainedUnknown → bool;
  RetainedUnknownOf : option string → option (list RetainedUnknown);
  RetainedUnknown_Marshal : list RetainedUnknown → string;
  Object_Unmarshal : string → option (option (gmap string string));
  Object_Marshal : gmap string string → string;
  String_Marshal : string → string;
  JSON_Valid : string → bool;
  OmittedRecord_Marshal : OmittedRecord → string;
  OmittedRecord_Unmarshal : string → option (option OmittedRecord);
  HumanByteSize : Z → string;
  Sum256 : string → string;
  NewObservedModelID : string → bool;
  ValidateThinkingLevelEvidence : string → string → string → bool;
  NativePiMessageRole_IsValid : string → bool;
  SubmissionRef_Validate : string → bool;
  RoleAssistant : string;
  RoleTool : string;
  RoleSystem : string;
  EntryTypeToolUse : string;
  EntryTypeToolResult : string;
  EntryTypeSystem : string;
  ContentOriginSubmittedInput : string;
  ContentOwnershipLocal : string;
  DeliveryOriginSessionAdmission : string;
  EvidenceNativeTyped : string;
  EvidenceLifecycleTyped : string;
  ActorOriginHarness : string;
  ActorOriginAgentDelegate : string;
  InputModalityText : string;
}.

(** ** Errors *)

Inductive PReason :=
  | EmptyID | MalformedSession | SessionDisagrees | HarnessDisagrees | EmptyDigestOfSource | UnknownCompleteness
  | UnknownEarlierState | ForeignEvidence | InheritedExtra | ExtraNotObject | ExtraReserved
  | OmittedInherited | OmittedDepth | OmittedOutsideMain | OmittedExtra | OmittedRetained | OmittedCarrier
  | OmittedCallKey | OmittedCallID | OmittedSizes | OmittedRecordBad | OmittedUncertain | OmittedCorrelated
  | CallIDInherited | CallIDDepth | CallIDKeyed | CallIDRole | CallIDEmpty
  | InheritedRetained | InheritedUncertain | InheritedAttachment | SectionOutside | SectionNotEarlier
  | SectionMainEarlier | UncertainMain | NegativeTokensIn | NegativeTokensOut | BadObservedModel | ModelRole
  | ManyAttachments | AttachmentID | AttachmentKind | AttachmentSource | AttachmentCustomType | AttachmentNull
  | AttachmentJSON | AttachmentRole
  | EmptyNativeKey | RepeatedNativeKey | NoEarlierForPair | NoEarlierForSubtree | MissingCarrier | CarrierDepth
  | NoEarlierForComponent | OmittedMoved | InvalidPriorRef | AllocationFailed | InvalidFreshRef | ReusedRef
  | SubmissionWithoutProvenance | SubmissionOrigin | EntryRole | EntryKind | EntryDepth | ThinkingEvidence
  | ExtraUndecodable | NegativeRawLength | RetainedInvalid | OmittedEncoding
  | EntryNotResolved | CarrierNotLaidOut | CallWithoutKey | OrphanResult | AttachmentSplit
  | EntryProvenance | InheritedProvenance | RefTwice | AliasKey | NoRetained | AliasCollision | SegmentMissing
  | SegmentNoRef | Panic.

Inductive perr :=
  | Bad (reason : PReason) (key : string)
  | BadContent (e : verr)
  | BadAlias (e : verr)
  | BadGeneration (e : verr).

Section projection.
Context `{SchemaLib, EvidenceLib, MapOrder}.
Context (ValidateSessionRelationships : option (list SessionRelationship) → bool).

(** ** Data *)

Record ClassifiedNativeAttachment := mkAttachment {
  att_ID : string;
  att_Kind : string;
  att_SourceType : string;
  att_CustomType : string;
  att_Data : string;
  AttachmentToolCallKey : string;
  att_MessageRole : string;
}.

Record ClassifiedUsage := mkUsage { u_TokensIn : option Z; u_TokensOut : option Z }.

Record ProjectionSection := mkSection { sec_Earlier : bool; sec_Index : Z }.

Record ClassifiedBlock := mkBlock {
  b_RetainedUnknown : list RetainedUnknown;
  b_NativeKey : string;
  SubmissionKey : string;
  AmbiguousPairKey : string;
  NativeCorrelationKey : string;
  b_Section : ProjectionSection;
  Uncertain : bool;
  UncertainSubtree : bool;
  Inherited : bool;
  SegmentOrdinal : Z;
  b_Role : string;
  b_EntryType : string;
  b_Depth : Z;
  CarrierNativeKey : string;
  ToolCallKey : string;
  ToolName : string;
  b_ToolKind : string;
  b_Content : string;
  ToolArguments : string;
  ToolResult : string;
  b_Provenance : option ContentProvenance;
  b_TimestampMs : option Z;
  b_PartType : option string;
  b_HasThinking : bool;
  Usage : option ClassifiedUsage;
  ObservedModel : option string;
  ThinkingLevel : string;
  ThinkingLevelRaw : string;
  NativeAttachments : list ClassifiedNativeAttachment;
  b_Extra : string;
  b_RawByteLength : option Z;
  Omitted : option OmittedRecordAt;
  b_ToolCallID : option string;
}.

Record ClassifiedCapture := mkCapture {
  cap_ID : string;
  cap_SessionID : string;
  cap_Harness : string;
  cap_Metadata : UnifiedMetadata;
  cap_SourceEvidenceDigest : string;
  cap_Completeness : string;
  EarlierStates : list string;
  Blocks : list ClassifiedBlock;
  cap_Segments : list ContextSegment;
  Prior : ProjectionPriorState;
}.

Record resolvedBlock := mkResolved {
  block : ClassifiedBlock;
  section : Z;
  inherited : bool;
  ref : string;
  dropped : bool;
  dropTo : option nat;
  entryIndex : Z;
}.

Definition set_Uncertain (b : ClassifiedBlock) : ClassifiedBlock :=
  mkBlock (b_RetainedUnknown b) (b_NativeKey b) (SubmissionKey b) (AmbiguousPairKey b) (NativeCorrelationKey b)
    (b_Section b) true (UncertainSubtree b) (Inherited b) (SegmentOrdinal b) (b_Role b) (b_EntryType b) (b_Depth b)
    (CarrierNativeKey b) (ToolCallKey b) (ToolName b) (b_ToolKind b) (b_Content b) (ToolArguments b) (ToolResult b)
    (b_Provenance b) (b_TimestampMs b) (b_PartType b) (b_HasThinking b) (Usage b) (ObservedModel b) (ThinkingLevel b)
    (ThinkingLevelRaw b) (NativeAttachments b) (b_Extra b) (b_RawByteLength b) (Omitted b) (b_ToolCallID b).

Definition set_Provenance (b : ClassifiedBlock) (p : option ContentProvenance) : ClassifiedBlock :=
  mkBlock (b_RetainedUnknown b) (b_NativeKey b) (SubmissionKey b) (AmbiguousPairKey b) (NativeCorrelationKey b)
    (b_Section b) (Uncertain b) (UncertainSubtree b) (Inherited b) (SegmentOrdinal b) (b_Role b) (b_EntryType b)
    (b_Depth b) (CarrierNativeKey b) (ToolCallKey b) (ToolName b) (b_ToolKind b) (b_Content b) (ToolArguments b)
    (ToolResult b) p (b_TimestampMs b) (b_PartType b) (b_HasThinking b) (Usage b) (ObservedModel b) (ThinkingLevel b)
    (ThinkingLevelRaw b) (NativeAttachments b) (b_Extra b) (b_RawByteLength b) (Omitted b) (b_ToolCallID b).

Definition set_block (rb : resolvedBlock) (b : ClassifiedBlock) : resolvedBlock :=
  mkResolved b (section rb) (inherited rb) (ref rb) (dropped rb) (dropTo rb) (entryIndex rb).
Definition set_section (rb : resolvedBlock) (s : Z) : resolvedBlock :=
  mkResolved (block rb) s (inherited rb) (ref rb) (dropped rb) (dropTo rb) (entryIndex rb).
Definition set_ref (rb : resolvedBlock) (r : string) : resolvedBlock :=
  mkResolved (block rb) (section rb) (inherited rb) r (dropped rb) (dropTo rb) (entryIndex rb).
Definition set_dropTo (rb : resolvedBlock) (owner : nat) (s : Z) : resolvedBlock :=
  mkResolved (block rb) s (inherited rb) (ref rb) true (Some owner) (entryIndex rb).
Definition set_entryIndex (rb : resolvedBlock) (i : Z) : resolvedBlock :=
  mkResolved (block rb) (section rb) (inherited rb) (ref rb) (dropped rb) (dropTo rb) i.

(** The native key an error names. *)
Definition key_of (rb : resolvedBlock) : string := b_NativeKey (block rb).

Definition check' := result perr unit.

(** ** Omission records ([jsonl_records.go]) *)

Definition OmittedRecordTooLarge := "record_too_large".
Definition OmittedRecordExtraKey := "omittedRecord".
Definition retainedUnknownKey := "retainedUnknown".

Definition ParseOmittedRecordReason (s : string) : bool := bool_decide (s = OmittedRecordTooLarge).

Definition NewOmittedRecord (reason : string) (line size limit : Z) : option OmittedRecord :=
  if negb (ParseOmittedRecordReason reason) then None
  else if decide (line < 1) then None
  else if decide (size <= limit) then None
  else Some (mkOmitted reason line size limit).

Definition OmittedRecord_Extra (o : OmittedRecord) : option string :=
  if negb (ParseOmittedRecordReason (o_Reason o)) then None else Some (OmittedRecord_Marshal o).

Definition ParseOmittedRecord (extra : string) : option OmittedRecord :=
  match OmittedRecord_Unmarshal extra with
  | None => None
  | Some None => None
  | Some (Some r) => NewOmittedRecord (o_Reason r) (Line r) (Bytes r) (LimitBytes r)
  end.

Definition OmissionPlaceholderNote (record : OmittedRecord) : string :=
  "only showing preview of tool output: full output is over the " +:+ HumanByteSize (LimitBytes record) +:+ " limit".

Definition OmittedRecordOf (entry : SessionEntry) : option OmittedRecord :=
  match e_Extra entry with None => None | Some extra => ParseOmittedRecord extra end.

(** ** Validating a capture *)

Definition validateClassifiedUsage (b : ClassifiedBlock) : check' :=
  match Usage b with
  | None => Ok tt
  | Some u =>
    require match u_TokensIn u with Some n => bool_decide (¬ n < 0) | None => true end
      else Bad NegativeTokensIn (b_NativeKey b) in
    require match u_TokensOut u with Some n => bool_decide (¬ n < 0) | None => true end
      else Bad NegativeTokensOut (b_NativeKey b) in
    Ok tt
  end.

Definition validateClassifiedObservedModel (b : ClassifiedBlock) : check' :=
  match ObservedModel b with
  | None => Ok tt
  | Some observed =>
    require NewObservedModelID observed else Bad BadObservedModel (b_NativeKey b) in
    require bool_decide (b_Role b = RoleAssistant) else Bad ModelRole (b_NativeKey b) in
    Ok tt
  end.

Definition validateClassifiedExtra (b : ClassifiedBlock) : check' :=
  if decide (b_Extra b = "") then Ok tt
  else
    require negb (Inherited b) else Bad InheritedExtra (b_NativeKey b) in
    match Object_Unmarshal (b_Extra b) with
    | None | Some None => Err (Bad ExtraNotObject (b_NativeKey b))
    | Some (Some object) =>
      require forallb (λ reserved, bool_decide (object !! reserved = None))
        [retainedUnknownKey; "model_id"; OmittedRecordExtraKey]
        else Bad ExtraReserved (b_NativeKey b) in
      Ok tt
    end.

Definition validateClassifiedChannels (b : ClassifiedBlock) : check' :=
  let k := b_NativeKey b in
  let? _u := validateClassifiedExtra b in
  match Omitted b with
  | Some omitted =>
    let record := o_Record omitted in
    require negb (Inherited b) else Bad OmittedInherited k in
    require bool_decide (b_Depth b = 0) else Bad OmittedDepth k in
    require bool_decide (sec_Index (b_Section b) = 0) && negb (sec_Earlier (b_Section b)) else Bad OmittedOutsideMain k in
    require bool_decide (b_Extra b = "") else Bad OmittedExtra k in
    require match b_RetainedUnknown b with [] => true | _ => false end else Bad OmittedRetained k in
    require bool_decide (CarrierNativeKey b = "") else Bad OmittedCarrier k in
    require bool_decide (ToolCallKey b = "") else Bad OmittedCallKey k in
    require bool_decide (b_ToolCallID b = None) else Bad OmittedCallID k in
    require bool_decide (¬ Bytes record < 0) && bool_decide (¬ LimitBytes record < 0) else Bad OmittedSizes k in
    require match NewOmittedRecord (o_Reason record) (Line record) (Bytes record) (LimitBytes record) with
            | Some _ => true | None => false end else Bad OmittedRecordBad k in
    require negb (UncertainSubtree b) && bool_decide (AmbiguousPairKey b = "") else Bad OmittedUncertain k in
    require bool_decide (NativeCorrelationKey b = "") else Bad OmittedCorrelated k in
    Ok tt
  | None =>
    match b_ToolCallID b with
    | None => Ok tt
    | Some id =>
      require negb (Inherited b) else Bad CallIDInherited k in
      require bool_decide (b_Depth b = 0) else Bad CallIDDepth k in
      require bool_decide (CarrierNativeKey b = "") && bool_decide (ToolCallKey b = "") else Bad CallIDKeyed k in
      require bool_decide (b_Role b = RoleTool) && bool_decide (b_EntryType b = EntryTypeToolResult)
        else Bad CallIDRole k in
      require bool_decide (id ≠ "") else Bad CallIDEmpty k in
      Ok tt
    end
  end.

Definition projectionAttachmentDataIsNull (data : string) : bool :=
  let trimmed := TrimSpace data in bool_decide (trimmed = "") || bool_decide (trimmed = "null").

Definition validateAttachment (k : string) (a : ClassifiedNativeAttachment) : check' :=
  require bool_decide (att_ID a ≠ "") && bool_decide (String.length (att_ID a) ≤ MaxNativeMetadataIDBytes)%nat
    else Bad AttachmentID k in
  require NativeMetadataKind_IsValid (att_Kind a) else Bad AttachmentKind k in
  require NativeMetadataSourceType_IsValid (att_SourceType a) else Bad AttachmentSource k in
  require bool_decide (att_CustomType a = "")
      || bool_decide (String.length (att_CustomType a) ≤ MaxNativeMetadataCustomTypeBytes)%nat
    else Bad AttachmentCustomType k in
  require bool_decide (TrimSpace (att_Data a) ≠ "") && negb (projectionAttachmentDataIsNull (att_Data a))
    else Bad AttachmentNull k in
  require JSON_Valid (att_Data a) else Bad AttachmentJSON k in
  require bool_decide (att_MessageRole a = "") || NativePiMessageRole_IsValid (att_MessageRole a)
    else Bad AttachmentRole k in
  Ok tt.

Definition validateClassifiedAttachments (b : ClassifiedBlock) : check' :=
  match NativeAttachments b with
  | [] => Ok tt
  | [a] => validateAttachment (b_NativeKey b) a
  | _ => Err (Bad ManyAttachments (b_NativeKey b))
  end.

(** One block of the loop of [validateCapture]. *)
Definition validateBlock (capture : ClassifiedCapture) (b : ClassifiedBlock) : check' :=
  let k := b_NativeKey b in
  require forallb (λ r, bool_decide (ru_Harness r = cap_Harness capture)) (b_RetainedUnknown b)
    else Bad ForeignEvidence k in
  let? _u := validateClassifiedChannels b in
  if Inherited b then
    require match b_RetainedUnknown b with [] => true | _ => false end else Bad InheritedRetained k in
    require negb (Uncertain b) && negb (UncertainSubtree b) && bool_decide (AmbiguousPairKey b = "")
      else Bad InheritedUncertain k in
    require match NativeAttachments b with [] => true | _ => false end else Bad InheritedAttachment k in
    let? _u := validateClassifiedUsage b in
    validateClassifiedObservedModel b
  else
    let index := sec_Index (b_Section b) in
    require bool_decide (¬ index < 0) && bool_decide (index <= Z.of_nat (length (EarlierStates capture)))
      else Bad SectionOutside k in
    require bool_decide (¬ (index > 0 ∧ sec_Earlier (b_Section b) = false)) else Bad SectionNotEarlier k in
    require bool_decide (¬ (index = 0 ∧ sec_Earlier (b_Section b) = true)) else Bad SectionMainEarlier k in
    require bool_decide (¬ (Uncertain b = true ∧ index = 0)) else Bad UncertainMain k in
    let? _u := validateClassifiedUsage b in
    let? _u := validateClassifiedObservedModel b in
    validateClassifiedAttachments b.

(** The allocator is never nil here. *)
Definition validateCapture (capture : ClassifiedCapture) : check' :=
  require bool_decide (TrimSpace (cap_ID capture) ≠ "") else Bad EmptyID "" in
  require SessionID_New (cap_SessionID capture) else Bad MalformedSession "" in
  require bool_decide (m_SessionID (cap_Metadata capture) = cap_SessionID capture) else Bad SessionDisagrees "" in
  require bool_decide (ModelHarness (cap_Metadata capture) = cap_Harness capture) else Bad HarnessDisagrees "" in
  require bool_decide (TrimSpace (cap_SourceEvidenceDigest capture) ≠ "") else Bad EmptyDigestOfSource "" in
  require GenerationCompleteness_IsValid (cap_Completeness capture) else Bad UnknownCompleteness "" in
  require forallb EarlierHistoryState_IsValid (EarlierStates capture) else Bad UnknownEarlierState "" in
  res_iter (λ _, validateBlock capture) 0 (Blocks capture).

(** ** Resolving partitions *)

(** [byCall], [byCorrelation] and [groups]: the members of each nonempty key, in
    block order; inherited blocks take no part. *)
Fixpoint groupBy (key : ClassifiedBlock → string) (i : nat) (resolved : list resolvedBlock)
    (groups : gmap string (list nat)) : gmap string (list nat) :=
  match resolved with
  | [] => groups
  | rb :: rest =>
    groupBy key (S i) rest
      (if inherited rb then groups
       else if decide (key (block rb) = "") then groups
       else <[key (block rb) := default [] (groups !! key (block rb)) ++ [i]]> groups)
  end.

Definition unionGroups (groups : gmap string (list nat)) (parent : list nat) : option (list nat) :=
  foldl (λ acc (g : string * list nat), parent ← acc; unionMembers parent g.2) (Some parent) (range_str groups).

(** The carrier edge of block [i]. *)
Definition carrierEdge (resolved : list resolvedBlock) (byKey : gmap string nat) (i : nat) (parent : list nat)
    (rb : resolvedBlock) : result perr (list nat) :=
  if inherited rb || bool_decide (b_Depth (block rb) = 0) then Ok parent
  else
    match byKey !! CarrierNativeKey (block rb) with
    | None => Err (Bad MissingCarrier (key_of rb))
    | Some c =>
      match resolved !! c with
      | None => Err (Bad Panic (key_of rb))
      | Some carrier =>
        require bool_decide (b_Depth (block carrier) = 0) else Bad CarrierDepth (key_of rb) in
        match union_ parent i c with Some parent => Ok parent | None => Err (Bad Panic (key_of rb)) end
      end
    end.

(** [components]: the members of each root, in block order. *)
Fixpoint components (i : nat) (resolved : list resolvedBlock) (parent : list nat) (comps : gmap nat (list nat)) :
    option (gmap nat (list nat)) :=
  match resolved with
  | [] => Some comps
  | rb :: rest =>
    if inherited rb then components (S i) rest parent comps
    else
      '(parent, root) ← find parent i;
      components (S i) rest parent (<[root := default [] (comps !! root) ++ [i]]> comps)
  end.

Definition uncertainBlock (b : ClassifiedBlock) : bool :=
  Uncertain b || UncertainSubtree b || bool_decide (AmbiguousPairKey b ≠ "").

(** One member of a certain component follows its own carrier. *)
Definition followCarrier (byKey : gmap string nat) (resolved : list resolvedBlock) (i : nat) : list resolvedBlock :=
  match resolved !! i with
  | None => resolved
  | Some rb =>
    if decide (b_Depth (block rb) = 0) then resolved
    else
      match c ← byKey !! CarrierNativeKey (block rb); resolved !! c with
      | Some carrier => <[i := set_section rb (section carrier)]> resolved
      | None => resolved
      end
  end.

(** One member of an uncertain component moves to the first earlier section. *)
Definition moveEarlier (resolved : list resolvedBlock) (i : nat) : list resolvedBlock :=
  match resolved !! i with
  | None => resolved
  | Some rb => <[i := set_block (set_section rb 1) (set_Uncertain (block rb))]> resolved
  end.

Definition settle (byKey : gmap string nat) (hasEarlier : bool) (resolved : list resolvedBlock) (members : list nat) :
    result perr (list resolvedBlock) :=
  let uncertain := existsb (λ i, match resolved !! i with Some rb => uncertainBlock (block rb) | None => false end) members in
  if negb uncertain then Ok (foldl (followCarrier byKey) resolved members)
  else
    require hasEarlier else Bad NoEarlierForComponent "" in
    Ok (foldl moveEarlier resolved members).

Definition resolveUncertainSubtrees (resolved : list resolvedBlock) (byKey : gmap string nat) (hasEarlier : bool) :
    result perr (list resolvedBlock) :=
  let? parent := res_fold (carrierEdge resolved byKey) 0 (seq 0 (length resolved)) resolved in
  match (parent ← unionGroups (groupBy ToolCallKey 0 resolved ∅) parent;
         parent ← unionGroups (groupBy NativeCorrelationKey 0 resolved ∅) parent;
         components 0 resolved parent ∅) with
  | None => Err (Bad Panic "")
  | Some comps =>
    res_fold (λ _ resolved (c : nat * list nat), settle byKey hasEarlier resolved c.2) 0 resolved (range_nat comps)
  end.

(** ** Mirrors *)

Definition dropMirror (owner : nat) (resolved : list resolvedBlock) (i : nat) : list resolvedBlock :=
  match resolved !! owner, resolved !! i with
  | Some o, Some rb => <[i := set_dropTo rb owner (section o)]> resolved
  | _, _ => resolved
  end.

Definition collapseGroup (resolved : list resolvedBlock) (group : list nat) : list resolvedBlock :=
  match group with
  | [] => resolved
  | owner :: mirrors => foldl (dropMirror owner) resolved mirrors
  end.

Definition collapseProvedMirrors (resolved : list resolvedBlock) : list resolvedBlock :=
  foldl (λ resolved (g : string * list nat), collapseGroup resolved g.2) resolved
    (range_str (groupBy NativeCorrelationKey 0 resolved ∅)).

(** ** [resolveProjectionBlocks] *)

Definition indexBlock (i : nat) (st : list resolvedBlock * gmap string nat) (b : ClassifiedBlock) :
    result perr (list resolvedBlock * gmap string nat) :=
  require bool_decide (TrimSpace (b_NativeKey b) ≠ "") else Bad EmptyNativeKey (b_NativeKey b) in
  require bool_decide (st.2 !! b_NativeKey b = None) else Bad RepeatedNativeKey (b_NativeKey b) in
  Ok (st.1 ++ [mkResolved b (sec_Index (b_Section b)) (Inherited b) "" false None 0], <[b_NativeKey b := i]> st.2).

(** The first pass over uncertainty, on one block. *)
Definition markUncertain (hasEarlier : bool) (rb : resolvedBlock) : result perr resolvedBlock :=
  if inherited rb then Ok rb
  else
    let? rb :=
      if decide (AmbiguousPairKey (block rb) = "") then Ok rb
      else require hasEarlier else Bad NoEarlierForPair (key_of rb) in
           Ok (set_block (set_section rb 1) (set_Uncertain (block rb))) in
    if UncertainSubtree (block rb) then
      require hasEarlier else Bad NoEarlierForSubtree (key_of rb) in
      Ok (set_block (set_section rb 1) (set_Uncertain (block rb)))
    else Ok rb.

Fixpoint res_map {E A B} (f : A → result E B) (l : list A) : result E (list B) :=
  match l with
  | [] => Ok []
  | x :: l => let? y := f x in let? ys := res_map f l in Ok (y :: ys)
  end.

Definition checkOmitted (rb : resolvedBlock) : check' :=
  match Omitted (block rb) with
  | None => Ok tt
  | Some _ =>
    require bool_decide (section rb = 0) && negb (Uncertain (block rb)) else Bad OmittedMoved (key_of rb) in Ok tt
  end.

Definition resolveProjectionBlocks (capture : ClassifiedCapture) : result perr (list resolvedBlock) :=
  let? st := res_fold indexBlock 0 ([], ∅) (Blocks capture) in
  let '(resolved, byKey) := st in
  let hasEarlier := bool_decide (0 < length (EarlierStates capture))%nat in
  let? resolved := res_map (markUncertain hasEarlier) resolved in
  let? resolved := resolveUncertainSubtrees resolved byKey hasEarlier in
  let resolved := collapseProvedMirrors resolved in
  let? _u := res_iter (λ _, checkOmitted) 0 resolved in
  Ok resolved.

(** ** Allocation *)

Section allocation.
Context {A : Type} `{RefAllocator A}.

(** The loop of [allocateBlockRefs]; the state is the blocks with references so
    far, [used] and the allocator. *)
Definition allocateBlockRef (prior : ProjectionPriorState) (_ : nat) (st : list resolvedBlock * gmap string string * A)
    (rb : resolvedBlock) : result perr (list resolvedBlock * gmap string string * A) :=
  let '(out, used, alloc) := st in
  if dropped rb then Ok (out ++ [rb], used, alloc)
  else
    let k := key_of rb in
    let? ref :=
      match prior_Entries prior !! k with
      | None => Ok ""
      | Some priorRef => require SourceEntryRef_Validate priorRef else Bad InvalidPriorRef k in Ok priorRef
      end in
    let? fresh :=
      if bool_decide (ref = "") || bool_decide (default "" (used !! ref) ≠ "") then
        match NewEntryRef alloc with
        | None => Err (Bad AllocationFailed k)
        | Some (fresh, alloc) => require SourceEntryRef_Validate fresh else Bad InvalidFreshRef k in Ok (fresh, alloc)
        end
      else Ok (ref, alloc) in
    let '(ref, alloc) := fresh in
    require bool_decide (used !! ref = None) else Bad ReusedRef k in
    Ok (out ++ [set_ref rb ref], <[ref := k]> used, alloc).

(** [rb.ref = rb.dropTo.ref] for every dropped block. *)
Definition aliasMirror (resolved : list resolvedBlock) (rb : resolvedBlock) : resolvedBlock :=
  if dropped rb then
    match owner ← dropTo rb; resolved !! owner with Some o => set_ref rb (ref o) | None => rb end
  else rb.

Definition allocateBlockRefs (resolved : list resolvedBlock) (prior : ProjectionPriorState) (alloc : A) :
    result perr (list resolvedBlock * A) :=
  let? st := res_fold (allocateBlockRef prior) 0 ([], ∅, alloc) resolved in
  let '(resolved, _, alloc) := st in
  Ok (aliasMirror resolved <$> resolved, alloc).

(** The first loop of [allocateSubmissionRefs]. *)
Definition allocateSubmissionRef (prior : ProjectionPriorState) (_ : nat) (st : gmap string string * A)
    (rb : resolvedBlock) : result perr (gmap string string * A) :=
  let '(byKey, alloc) := st in
  let k := SubmissionKey (block rb) in
  if dropped rb || bool_decide (k = "") then Ok (byKey, alloc)
  else
    match b_Provenance (block rb) with
    | None => Err (Bad SubmissionWithoutProvenance (key_of rb))
    | Some p =>
      require bool_decide (p_Origin p = ContentOriginSubmittedInput) else Bad SubmissionOrigin (key_of rb) in
      match prior_Submissions prior !! k with
      | Some ref => Ok (<[k := ref]> byKey, alloc)
      | None =>
        match byKey !! k with
        | Some _ => Ok (byKey, alloc)
        | None =>
          match NewSubmissionRef alloc with
          | None => Err (Bad AllocationFailed k)
          | Some (ref, alloc) =>
            require SubmissionRef_Validate ref else Bad InvalidFreshRef k in Ok (<[k := ref]> byKey, alloc)
          end
        end
      end
    end.

Definition with_SubmissionRef (p : ContentProvenance) (r : string) : ContentProvenance :=
  mkProvenance (p_Origin p) (p_Ownership p) (p_Delivery p) (p_Evidence p) (p_Actor p) (p_InputModality p) r.

(** The second loop, on one block. *)
Definition stampSubmission (byKey : gmap string string) (rb : resolvedBlock) : resolvedBlock :=
  if dropped rb || bool_decide (SubmissionKey (block rb) = "") then rb
  else
    match b_Provenance (block rb) with
    | None => rb
    | Some p =>
      set_block rb (set_Provenance (block rb)
        (Some (with_SubmissionRef p (default "" (byKey !! SubmissionKey (block rb))))))
    end.

Definition allocateSubmissionRefs (resolved : list resolvedBlock) (prior : ProjectionPriorState) (alloc : A) :
    result perr (list resolvedBlock * A) :=
  let? st := res_fold (allocateSubmissionRef prior) 0 (∅, alloc) resolved in
  let '(byKey, alloc) := st in
  Ok (stampSubmission byKey <$> resolved, alloc).
End allocation.
End projection.

(** ** A small instance for examples *)

#[local] Existing Instance demoSchema.

(** Extension documents are opaque and empty, nothing is hashed. *)
Definition demoEvidence : EvidenceLib := {|
  RetainedUnknown := unit;
  ru_Harness _ := "codex";
  NewRetainedUnknown _ := true;
  RetainedUnknownOf _ := Some [];
  RetainedUnknown_Marshal _ := "[]";
  Object_Unmarshal s := if decide (s = "") then None else Some (Some ∅);
  Object_Marshal _ := "{}";
  String_Marshal s := s;
  JSON_Valid _ := true;
  OmittedRecord_Marshal _ := "{omitted}";
  OmittedRecord_Unmarshal s := if decide (s = "{omitted}") then Some (Some (mkOmitted "record_too_large" 1 9 8)) else None;
  HumanByteSize _ := "8 B";
  Sum256 s := s +:+ "#";
  NewObservedModelID _ := true;
  ValidateThinkingLevelEvidence _ _ _ := true;
  NativePiMessageRole_IsValid _ := true;
  SubmissionRef_Validate r := bool_decide (r ≠ "");
  RoleAssistant := "assistant";
  RoleTool := "tool";
  RoleSystem := "system";
  EntryTypeToolUse := "tool_use";
  EntryTypeToolResult := "tool_result";
  EntryTypeSystem := "system";
  ContentOriginSubmittedInput := "submitted_input";
  ContentOwnershipLocal := "local";
  DeliveryOriginSessionAdmission := "session_admission";
  EvidenceNativeTyped := "native_typed";
  EvidenceLifecycleTyped := "lifecycle_typed";
  ActorOriginHarness := "harness";
  ActorOriginAgentDelegate := "agent_delegate";
  InputModalityText := "text";
|}.
#[local] Existing Instance demoEvidence.

(** A block at [depth] of section [sec], under [carrier], of call [call]. *)
Definition demoBlock (key : string) (sec : Z) (uncertain : bool) (kind : string) (depth : Z) (carrier call : string) :
    ClassifiedBlock :=
  mkBlock [] key "" "" "" (mkSection (bool_decide (sec ≠ 0)) sec) uncertain false false 0 "assistant" kind depth
    carrier call "" "" ("text of " +:+ key) ("arguments of " +:+ key) ("result of " +:+ key) None None None false None None "" ""
    [] "" None None None.

(** A submitted prompt of native submission [sub]. *)
Definition demoPrompt (key sub : string) : ClassifiedBlock :=
  mkBlock [] key sub "" "" (mkSection false 0) false false false 0 "user" "text" 0
    "" "" "" "" ("prompt " +:+ key) "" ""
    (Some (mkProvenance "submitted_input" "local" "session_admission" "native_typed" "unknown" "text" ""))
    None None false None None "" "" [] "" None None None.

Definition demoCapture (earlier : list string) (blocks : list ClassifiedBlock) (prior : ProjectionPriorState) :
    ClassifiedCapture :=
  mkCapture "g1" "s1" "codex" (mkMetadata 1 "s1" "codex" (mkStats None 0) None "" None None) "evidence"
    GenerationCompletenessComplete earlier blocks [] prior.

(** The block as inherited evidence, and a capture that declares its segment. *)
Definition demoInherited (b : ClassifiedBlock) (sec : Z) : ClassifiedBlock :=
  mkBlock [] (b_NativeKey b) (SubmissionKey b) "" "" (mkSection (bool_decide (sec ≠ 0)) sec) false false true 0 (b_Role b)
    (b_EntryType b) (b_Depth b) (CarrierNativeKey b) "" "" "" (b_Content b) "" "" (b_Provenance b) None None false None None
    "" "" [] "" None None None.

Definition demoSegmented (c : ClassifiedCapture) : ClassifiedCapture :=
  mkCapture (cap_ID c) (cap_SessionID c) (cap_Harness c) (cap_Metadata c) (cap_SourceEvidenceDigest c) (cap_Completeness c)
    (EarlierStates c) (Blocks c)
    [mkSegment 0 None "src" (mkCoordinates CoordinateKindSnapshotOnly None None None None) SegmentInclusionInherited []]
    (Prior c).

(** References numbered as they are minted. *)
Definition demoAllocator : RefAllocator nat := {|
  NewEntryRef n := Some ("r" +:+ pretty n, S n);
  NewSubmissionRef n := Some ("q" +:+ pretty n, S n);
|}.
