(* ===== verification/ProjectionSections.v ===== *)
(** * Where a projected block lands ([resolveUncertainSubtrees])

    The components the union-find computes are the connected classes of three
    relations between blocks: a depth-1 block and its carrier, a shared native
    call identity, a proved native correlation.  A component with uncertain
    evidence moves whole to the first earlier section; in every other component
    a tool block follows its own carrier. *)
From S2P Require Import Prelude GoStrings IndexFormat ProjectionIdentity UnionFind Projection.
Local Open Scope string_scope.
Local Open Scope list_scope.
Local Open Scope Z_scope.
Local Open Scope nat_scope.

(** ** Positions selected from a list *)

Fixpoint indices {A} (sel : nat → A → bool) (i : nat) (l : list A) : list nat :=
  match l with
  | [] => []
  | x :: l => if sel i x then i :: indices sel (S i) l else indices sel (S i) l
  end.

Lemma elem_of_indices {A} (sel : nat → A → bool) i l j :
  j ∈ indices sel i l ↔ ∃ x, i ≤ j ∧ l !! (j - i) = Some x ∧ sel j x = true.
Proof.
  revert i. induction l as [|x l IH]; intros i; simpl.
  { split; [set_solver|]. by intros (? & _ & [=] & _). }
  assert (j ∈ indices sel (S i) l ↔ i ≠ j ∧ ∃ y, i ≤ j ∧ (x :: l) !! (j - i) = Some y ∧ sel j y = true) as Htl.
  { rewrite IH. split.
    - intros (y & Hij & Hy & Hs). split; [lia|]. exists y. split_and!; [lia| |done].
      by replace (j - i) with (S (j - S i)) by lia.
    - intros (Hne & y & Hij & Hy & Hs). exists y. split_and!; [lia| |done].
      by replace (j - i) with (S (j - S i)) in Hy by lia. }
  destruct (sel i x) eqn:Es; [rewrite elem_of_cons|]; rewrite Htl; split.
  - intros [->|[_ ?]]; [|done]. exists x. by rewrite Nat.sub_diag.
  - intros ?. destruct (decide (j = i)); [by left|right]. by split.
  - by intros [_ ?].
  - intros (y & Hij & Hy & Hs). split; [|by eauto]. intros ->. rewrite Nat.sub_diag in Hy. simplify_eq/=. congruence.
Qed.

Lemma NoDup_indices {A} (sel : nat → A → bool) i l : NoDup (indices sel i l).
Proof.
  revert i. induction l as [|x l IH]; intros i; simpl; [constructor|]. destruct (sel i x); [|done].
  constructor; [|done]. intros (? & ? & _)%elem_of_indices. lia.
Qed.

(** Appending positions under a key, over a whole list. *)
Section group.
Context {A K : Type} `{Countable K} (sel : nat → A → bool) (key : nat → A → K).

Fixpoint grouped (i : nat) (l : list A) (m : gmap K (list nat)) : gmap K (list nat) :=
  match l with
  | [] => m
  | x :: l => grouped (S i) l (if sel i x then <[key i x := default [] (m !! key i x) ++ [i]]> m else m)
  end.

Lemma lookup_grouped l : ∀ i m k,
  grouped i l m !! k =
  match indices (λ j x, sel j x && bool_decide (key j x = k)) i l with
  | [] => m !! k
  | js => Some (default [] (m !! k) ++ js)
  end.
Proof.
  induction l as [|x l IH]; intros i m k; simpl; [done|]. rewrite IH.
  destruct (sel i x); simpl; [|done]. case_bool_decide as Hk.
  - rewrite <- Hk, lookup_insert_eq. simpl. destruct (indices _ _ _); [done|]. by rewrite <- app_assoc.
  - by rewrite lookup_insert_ne.
Qed.

Lemma grouped_Some l k js :
  grouped 0 l ∅ !! k = Some js ↔
  js ≠ [] ∧ js = indices (λ j x, sel j x && bool_decide (key j x = k)) 0 l.
Proof.
  rewrite lookup_grouped, lookup_empty. simpl. destruct (indices _ _ _); [naive_solver|].
  split; [by intros [= <-]|by intros [_ ->]].
Qed.
End group.

Section sections.
Context {SL : SchemaLib} {EL : EvidenceLib} {MO : MapOrder}.

Lemma groupBy_grouped key i l m :
  groupBy key i l m =
  grouped (λ _ rb, negb (inherited rb) && bool_decide (key (block rb) ≠ "")) (λ _ rb, key (block rb)) i l m.
Proof.
  revert i m. induction l as [|rb l IH]; intros i m; simpl; [done|]. rewrite IH. f_equal.
  destruct (inherited rb); simpl; [done|]. case_decide as E; case_bool_decide; congruence.
Qed.

(** Two blocks share a nonempty key. *)
Definition same_key (key : ClassifiedBlock → string) (resolved : list resolvedBlock) (i j : nat) : Prop :=
  ∃ x y, resolved !! i = Some x ∧ resolved !! j = Some y ∧ inherited x = false ∧ inherited y = false ∧
    key (block x) ≠ "" ∧ key (block x) = key (block y).

Lemma groupBy_same_key key resolved i j :
  (∃ k js, groupBy key 0 resolved ∅ !! k = Some js ∧ i ∈ js ∧ j ∈ js) ↔ same_key key resolved i j.
Proof.
  rewrite groupBy_grouped. split.
  - intros (k & js & [_ ->]%grouped_Some & (x & _ & Hx & Hsx)%elem_of_indices & (y & _ & Hy & Hsy)%elem_of_indices).
    rewrite Nat.sub_0_r in Hx, Hy. bool_prop. exists x, y. split_and!; congruence.
  - intros (x & y & Hx & Hy & Hix & Hiy & Hk & Hxy).
    assert (∀ z w, z ∈ [i; j] → resolved !! z = Some w → inherited w = false → key (block w) = key (block x) →
      z ∈ indices (λ _ rb, negb (inherited rb) && bool_decide (key (block rb) ≠ "") &&
                     bool_decide (key (block rb) = key (block x))) 0 resolved) as Hin.
    { intros z w _ Hw Hiw Hkw. apply elem_of_indices. exists w. rewrite Nat.sub_0_r. split_and!; [lia|done|].
      rewrite Hiw, Hkw. by rewrite !bool_decide_true. }
    eexists (key (block x)), _. rewrite grouped_Some. split_and!; [|done|..].
    + apply not_nil_iff. exists i. apply (Hin i x); [set_solver|done..].
    + apply (Hin i x); [set_solver|done..].
    + apply (Hin j y); [set_solver|done|done|done].
Qed.

Lemma groupBy_bound key resolved k js :
  groupBy key 0 resolved ∅ !! k = Some js → Forall (λ m, m < length resolved) js.
Proof.
  rewrite groupBy_grouped. intros [_ ->]%grouped_Some. apply Forall_forall.
  intros j (x & _ & Hx & _)%elem_of_indices. rewrite Nat.sub_0_r in Hx. by eapply lookup_lt_Some.
Qed.

Lemma unionGroups_classes n E groups parent :
  classes parent n E → (∀ k js, groups !! k = Some js → Forall (λ m, m < n) js) →
  ∃ parent', unionGroups groups parent = Some parent' ∧
    classes parent' n (λ u v, E u v ∨ ∃ k js, groups !! k = Some js ∧ u ∈ js ∧ v ∈ js).
Proof.
  intros Hc Hlt. unfold unionGroups.
  assert (∀ l parent E, (∀ g, g ∈ l → groups !! g.1 = Some g.2) → classes parent n E →
    ∃ parent', foldl (λ acc (g : string * list nat), parent ← acc; unionMembers parent g.2) (Some parent) l = Some parent' ∧
      classes parent' n (λ u v, E u v ∨ ∃ g, g ∈ l ∧ u ∈ g.2 ∧ v ∈ g.2)) as Hl.
  { induction l as [|g l IH]; intros p F Hg Hp; simpl.
    - exists p. split; [done|]. eapply classes_ext; [done|..]; intros; apply rtsc_step; set_solver.
    - destruct (unionMembers_classes p n F g.2 Hp) as (p' & -> & Hp'); [by eapply Hlt, Hg; left|].
      destruct (IH p' _ ltac:(intros; apply Hg; by right) Hp') as (p'' & -> & Hp'').
      exists p''. split; [done|]. eapply classes_ext; [done|..]; intros u v Hs; apply rtsc_step; set_solver. }
  destruct (Hl (range_str groups) parent E) as (p' & Hf & Hp'); [by intros [k js] ?%elem_of_range_str|done|].
  exists p'. split; [done|].
  eapply classes_ext; [done|..]; intros u v [?|Hg]; apply rtsc_step; [by left|right|by left|right].
  - destruct Hg as ([k js] & ?%elem_of_range_str & ? & ?). eauto.
  - destruct Hg as (k & js & ?%elem_of_range_str & ? & ?). by exists (k, js).
Qed.

(** ** The three edges *)

Definition carrier_of (resolved : list resolvedBlock) (byKey : gmap string nat) (i c : nat) : Prop :=
  ∃ rb, resolved !! i = Some rb ∧ inherited rb = false ∧ b_Depth (block rb) ≠ 0%Z ∧
    byKey !! CarrierNativeKey (block rb) = Some c.

Definition linked (resolved : list resolvedBlock) (byKey : gmap string nat) (i j : nat) : Prop :=
  carrier_of resolved byKey i j ∨ same_key ToolCallKey resolved i j ∨ same_key NativeCorrelationKey resolved i j.

(** Every tool block names a depth-0 carrier of the capture. *)
Definition carriersOk (resolved : list resolvedBlock) (byKey : gmap string nat) (rb : resolvedBlock) : Prop :=
  inherited rb = false → b_Depth (block rb) ≠ 0%Z →
  ∃ c carrier, byKey !! CarrierNativeKey (block rb) = Some c ∧ resolved !! c = Some carrier ∧ b_Depth (block carrier) = 0%Z.

(** What the index of native keys and the list of blocks share. *)
Definition indexed (resolved : list resolvedBlock) (byKey : gmap string nat) : Prop :=
  ∀ k c, byKey !! k = Some c → c < length resolved.

(** The refusals of the function, as opposed to a fault of the model. *)
Definition refused {A} (r : result perr A) : Prop := ∃ reason k, r = Err (Bad reason k) ∧ reason ≠ Panic.

Lemma carrierEdge_spec resolved byKey n E parent i rb :
  indexed resolved byKey → classes parent n E → n = length resolved → resolved !! i = Some rb →
  (carriersOk resolved byKey rb ∧ ∃ parent', carrierEdge resolved byKey i parent rb = Ok parent' ∧
     classes parent' n (λ u v, E u v ∨ (u = i ∧ carrier_of resolved byKey i v))) ∨
  (¬ carriersOk resolved byKey rb ∧ refused (carrierEdge resolved byKey i parent rb)).
Proof.
  intros Hix Hc -> Hi. unfold carrierEdge, carriersOk, carrier_of.
  assert (∀ P : nat → Prop, (∀ v, ¬ P v) → classes parent (length resolved) (λ u v, E u v ∨ (u = i ∧ P v))) as Hsame.
  { intros P HP. eapply classes_ext; [done|..]; intros u v; [|intros [?|[_ ?]]];
      [intros; apply rtsc_step; by left|by apply rtsc_step|by destruct (HP v)]. }
  destruct (inherited rb) eqn:Hin; simpl.
  { left. split; [done|]. eexists. split; [done|]. apply Hsame. intros v (? & ? & ? & _). congruence. }
  case_bool_decide as Hd; simpl.
  { left. split; [done|]. eexists. split; [done|]. apply Hsame. intros v (? & ? & _ & ? & _). congruence. }
  destruct (byKey !! CarrierNativeKey (block rb)) as [c|] eqn:Hk.
  2:{ right. split; [|do 2 eexists; split; [done|discriminate]]. intros Hex. by destruct Hex as (? & ? & ? & _). }
  pose proof (Hix _ _ Hk) as Hlt. destruct (lookup_lt_is_Some_2 _ _ Hlt) as [carrier Hcar]. rewrite Hcar.
  destruct (decide (b_Depth (block carrier) = 0%Z)) as [H0|H0]; unfold res_guard.
  2:{ right. rewrite bool_decide_false by done. split; [|do 2 eexists; split; [done|discriminate]].
      intros Hex. destruct Hex as (? & ? & ? & ? & ?); [done..|]. congruence. }
  rewrite bool_decide_true by done. left. split; [by eauto|].
  destruct (union_classes _ _ _ i c Hc) as (p' & -> & Hp'); [by eapply lookup_lt_Some|done|].
  exists p'. split; [done|]. eapply classes_ext; [done|..]; intros u v [?|[-> Hv]]; apply rtsc_step;
    [by left|right; naive_solver|by left|right; naive_solver].
Qed.

Lemma carrierEdges_spec resolved byKey n : indexed resolved byKey → n = length resolved →
  ∀ l i parent E, (∀ j rb, l !! j = Some rb → resolved !! (i + j) = Some rb) → classes parent n E →
  (Forall (carriersOk resolved byKey) l ∧ ∃ parent', res_fold (carrierEdge resolved byKey) i parent l = Ok parent' ∧
     classes parent' n (λ u v, E u v ∨ (i ≤ u ∧ u < i + length l ∧ carrier_of resolved byKey u v))) ∨
  (¬ Forall (carriersOk resolved byKey) l ∧ refused (res_fold (carrierEdge resolved byKey) i parent l)).
Proof.
  intros Hix Hn. induction l as [|rb l IH]; intros i parent E Hl Hc; simpl.
  { left. split; [constructor|]. exists parent. split; [done|].
    eapply classes_ext; [done|..]; intros u v; [intros; apply rtsc_step; by left|].
    intros [?|[? [? _]]]; [by apply rtsc_step|lia]. }
  assert (resolved !! i = Some rb) as Hi by (rewrite <- (Nat.add_0_r i); by apply Hl).
  destruct (carrierEdge_spec resolved byKey n E parent i rb Hix Hc Hn Hi) as [(Hok & p' & -> & Hp')|(Hno & e & k & -> & He)].
  2:{ right. split; [by inversion 1|]. simpl. by exists e, k. }
  simpl. edestruct (IH (S i) p') as [(Hoks & p'' & -> & Hp'')|(Hno & He)]; [|exact Hp'|left|right].
  - intros j x Hj. rewrite Nat.add_succ_comm. by apply (Hl (S j)).
  - split; [by constructor|]. exists p''. split; [done|]. eapply classes_ext; [done|..]; intros u v Huv; apply rtsc_step.
    + destruct Huv as [[?|[-> ?]]|(? & ? & ?)]; [by left|right..]; (split_and!; [lia|lia|done]).
    + destruct Huv as [?|(? & ? & ?)]; [by left; left|]. destruct (decide (u = i)) as [->|]; [by left; right|].
      right. split_and!; [lia|lia|done].
  - split; [by inversion 1|done].
Qed.

(** The array after all three loops. *)
Lemma linked_classes resolved byKey : indexed resolved byKey →
  (Forall (carriersOk resolved byKey) resolved ∧ ∃ p0 p1 p2,
     res_fold (carrierEdge resolved byKey) 0 (seq 0 (length resolved)) resolved = Ok p0 ∧
     unionGroups (groupBy ToolCallKey 0 resolved ∅) p0 = Some p1 ∧
     unionGroups (groupBy NativeCorrelationKey 0 resolved ∅) p1 = Some p2 ∧
     classes p2 (length resolved) (linked resolved byKey)) ∨
  (¬ Forall (carriersOk resolved byKey) resolved ∧
     refused (res_fold (carrierEdge resolved byKey) 0 (seq 0 (length resolved)) resolved)).
Proof.
  intros Hix. destruct (carrierEdges_spec resolved byKey _ Hix eq_refl resolved 0 (seq 0 (length resolved)) (λ _ _, False))
    as [(Hok & p0 & H0 & Hc0)|?]; [done|apply classes_init|left|by right]. split; [done|].
  destruct (unionGroups_classes _ _ (groupBy ToolCallKey 0 resolved ∅) p0 Hc0) as (p1 & H1 & Hc1);
    [intros ? ?; apply groupBy_bound|].
  destruct (unionGroups_classes _ _ (groupBy NativeCorrelationKey 0 resolved ∅) p1 Hc1) as (p2 & H2 & Hc2);
    [intros ? ?; apply groupBy_bound|].
  exists p0, p1, p2. split_and!; [done..|]. eapply classes_ext; [exact Hc2|..]; intros u v Huv; apply rtsc_step;
    cbv beta in Huv |- *; unfold linked in *; rewrite !groupBy_same_key in *.
  - destruct Huv as [[[[]|(_ & _ & ?)]|?]|?]; tauto.
  - destruct Huv as [Hca|[?|?]]; [left; left; right|tauto..]. split_and!; [lia| |done].
    destruct Hca as (? & ?%lookup_lt_Some & _). lia.
Qed.

(** ** Components *)

Lemma components_grouped n rep : ∀ l i parent m,
  represents parent n rep → i + length l ≤ n →
  components i l parent m = Some (grouped (λ _ rb, negb (inherited rb)) (λ j _, rep j) i l m).
Proof.
  induction l as [|rb l IH]; intros i parent m Hrep Hle; simpl; [done|]. simpl in Hle.
  destruct (inherited rb); simpl; [apply (IH (S i) parent); [done|lia]|].
  destruct (find_ok _ _ _ i Hrep) as (p' & -> & Hrep'); [lia|]. simpl. apply (IH (S i) p'); [done|lia].
Qed.

Definition comp_members (resolved : list resolvedBlock) (rep : nat → nat) (r : nat) : list nat :=
  indices (λ j rb, negb (inherited rb) && bool_decide (rep j = r)) 0 resolved.

Lemma elem_of_comp_members resolved rep r j :
  j ∈ comp_members resolved rep r ↔ ∃ rb, resolved !! j = Some rb ∧ inherited rb = false ∧ rep j = r.
Proof.
  unfold comp_members. rewrite elem_of_indices. setoid_rewrite Nat.sub_0_r.
  setoid_rewrite andb_true_iff. setoid_rewrite negb_true_iff. setoid_rewrite bool_decide_eq_true. naive_solver lia.
Qed.

(** ** Settling one component *)

Definition moved (rb : resolvedBlock) : resolvedBlock := set_block (set_section rb 1) (set_Uncertain (block rb)).

(** The block after it followed its carrier, read off [cur]. *)
Definition followed (byKey : gmap string nat) (cur : list resolvedBlock) (rb : resolvedBlock) : resolvedBlock :=
  if decide (b_Depth (block rb) = 0%Z) then rb
  else match c ← byKey !! CarrierNativeKey (block rb); cur !! c with
       | Some carrier => set_section rb (section carrier)
       | None => rb
       end.

Lemma moveEarlier_fold members : ∀ cur, NoDup members →
  length (foldl moveEarlier cur members) = length cur ∧
  ∀ j, foldl moveEarlier cur members !! j = if decide (j ∈ members) then moved <$> cur !! j else cur !! j.
Proof.
  induction members as [|m ms IH]; intros cur Hnd; simpl; [done|].
  inversion Hnd as [|? ? Hm Hnd']; subst. destruct (IH (moveEarlier cur m) Hnd') as [Hl Hj]. rewrite Hl.
  assert (∀ j, moveEarlier cur m !! j = if decide (j = m) then moved <$> cur !! j else cur !! j) as Hone.
  { intros j. unfold moveEarlier. destruct (cur !! m) as [rb|] eqn:E; case_decide; subst.
    - rewrite list_lookup_insert_eq, E; [done|]. by eapply lookup_lt_Some.
    - by rewrite list_lookup_insert_ne.
    - by rewrite E.
    - done. }
  split; [unfold moveEarlier; destruct (cur !! m); by rewrite ?length_insert|].
  intros j. rewrite Hj, Hone. repeat case_decide; set_solver.
Qed.

Lemma followCarrier_lookup byKey cur m j :
  followCarrier byKey cur m !! j = if decide (j = m) then followed byKey cur <$> cur !! j else cur !! j.
Proof.
  unfold followCarrier, followed. destruct (cur !! m) as [rb|] eqn:E; [|case_decide; subst; by rewrite ?E].
  case_decide; [case_decide; subst; [|done]; rewrite E; simpl; by rewrite decide_True|].
  destruct (c ← byKey !! _; cur !! c) as [carrier|] eqn:Ec; case_decide; subst.
  - rewrite list_lookup_insert_eq, E by (by eapply lookup_lt_Some). simpl. by rewrite decide_False, Ec.
  - by rewrite list_lookup_insert_ne.
  - rewrite E. simpl. by rewrite decide_False, Ec.
  - done.
Qed.

Lemma followCarrier_length byKey cur m : length (followCarrier byKey cur m) = length cur.
Proof. unfold followCarrier. repeat (case_match || case_decide); by rewrite ?length_insert. Qed.

(** A carrier is a root, so following never changes what a later block reads. *)
Lemma followCarrier_fold byKey members : ∀ cur, NoDup members →
  (∀ j rb, j ∈ members → cur !! j = Some rb → b_Depth (block rb) ≠ 0%Z →
     ∃ c carrier, byKey !! CarrierNativeKey (block rb) = Some c ∧ cur !! c = Some carrier ∧ b_Depth (block carrier) = 0%Z) →
  length (foldl (followCarrier byKey) cur members) = length cur ∧
  ∀ j, foldl (followCarrier byKey) cur members !! j =
       if decide (j ∈ members) then followed byKey cur <$> cur !! j else cur !! j.
Proof.
  induction members as [|m ms IH]; intros cur Hnd Hcar; simpl; [done|].
  inversion Hnd as [|? ? Hm Hnd']; subst.
  assert (∀ c carrier, cur !! c = Some carrier → b_Depth (block carrier) = 0%Z →
            followCarrier byKey cur m !! c = Some carrier) as Hroot.
  { intros c carrier Hc H0. rewrite followCarrier_lookup. case_decide; [|done]. rewrite Hc. simpl.
    unfold followed. by rewrite decide_True. }
  assert (∀ j, j ≠ m → followCarrier byKey cur m !! j = cur !! j) as Hother.
  { intros j Hj. rewrite followCarrier_lookup. by rewrite decide_False. }
  destruct (IH (followCarrier byKey cur m) Hnd') as [Hl Hlook].
  { intros j rb Hj. rewrite Hother by set_solver. intros Hrb Hd.
    destruct (Hcar j rb ltac:(by right) Hrb Hd) as (c & carrier & ? & ? & ?). eauto 10. }
  split; [by rewrite Hl, followCarrier_length|]. intros j. rewrite Hlook.
  destruct (decide (j ∈ ms)) as [Hj|Hj].
  - rewrite decide_True by (by right). rewrite Hother by set_solver.
    destruct (cur !! j) as [rb|] eqn:E; [|done]. simpl. f_equal. unfold followed. case_decide as Hd; [done|].
    destruct (Hcar j rb ltac:(by right) E Hd) as (c & carrier & -> & Hc & H0). simpl.
    by rewrite Hc, (Hroot c carrier).
  - rewrite followCarrier_lookup. destruct (decide (j = m)) as [->|]; [by rewrite decide_True by (by left)|].
    rewrite decide_False; [done|]. set_solver.
Qed.

(** ** All components *)

(** Block [i] is tied to a block whose place is not certain. *)
Definition tainted (resolved : list resolvedBlock) (byKey : gmap string nat) (i : nat) : Prop :=
  ∃ j rb, rtsc (linked resolved byKey) i j ∧ resolved !! j = Some rb ∧ inherited rb = false ∧
    uncertainBlock (block rb) = true.

(** The place of block [rb] at [i] after the resolution. *)
Definition settled (resolved : list resolvedBlock) (byKey : gmap string nat) (i : nat) (rb rb' : resolvedBlock) : Prop :=
  (inherited rb = true → rb' = rb) ∧
  (inherited rb = false → tainted resolved byKey i → rb' = moved rb) ∧
  (inherited rb = false → ¬ tainted resolved byKey i →
     if decide (b_Depth (block rb) = 0%Z) then rb' = rb
     else ∃ c carrier, byKey !! CarrierNativeKey (block rb) = Some c ∧ resolved !! c = Some carrier ∧
            rb' = set_section rb (section carrier)).

Section settling.
Context (resolved : list resolvedBlock) (byKey : gmap string nat) (hasEarlier : bool) (rep : nat → nat).
Hypothesis carriers : Forall (carriersOk resolved byKey) resolved.
Hypothesis rep_linked : ∀ x y, x < length resolved → y < length resolved →
  rep x = rep y ↔ rtsc (linked resolved byKey) x y.

Definition uncertainRoot (r : nat) : bool :=
  existsb (λ i, match resolved !! i with Some rb => uncertainBlock (block rb) | None => false end)
    (comp_members resolved rep r).

Lemma uncertainRoot_tainted i : i < length resolved →
  uncertainRoot (rep i) = true ↔ tainted resolved byKey i.
Proof.
  intros Hi. unfold uncertainRoot, tainted. rewrite existsb_exists. split.
  - intros (j & (rb & Hj & Hin & Hr)%list_elem_of_In%elem_of_comp_members & Hu). rewrite Hj in Hu.
    exists j, rb. split_and!; [|done..]. apply rep_linked; [done|by eapply lookup_lt_Some|done].
  - intros (j & rb & Hij & Hj & Hin & Hu). exists j. rewrite Hj. split; [|done].
    apply list_elem_of_In, elem_of_comp_members. exists rb. split_and!; [done..|].
    symmetry. apply rep_linked; [done|by eapply lookup_lt_Some|done].
Qed.

(** The list when the components of [done] have been settled. *)
Definition settledRoots (done : list nat) (cur : list resolvedBlock) : Prop :=
  length cur = length resolved ∧
  ∀ i rb, resolved !! i = Some rb → ∃ rb', cur !! i = Some rb' ∧
    (inherited rb = false → rep i ∈ done → settled resolved byKey i rb rb') ∧
    (inherited rb = true ∨ rep i ∉ done → rb' = rb).

Lemma settle_step done r cur :
  settledRoots done cur → r ∉ done →
  (uncertainRoot r = false ∨ hasEarlier = true) →
  ∃ cur', settle byKey hasEarlier cur (comp_members resolved rep r) = Ok cur' ∧ settledRoots (r :: done) cur'.
Proof.
  intros [Hlen Hcur] Hr Hearlier. unfold settle.
  assert (∀ i, i ∈ comp_members resolved rep r → cur !! i = resolved !! i) as Hsame.
  { intros i (rb & Hi & _ & Hri)%elem_of_comp_members. destruct (Hcur i rb Hi) as (rb' & -> & _ & Heq).
    rewrite Hi. f_equal. apply Heq. right. congruence. }
  assert (existsb (λ i, match cur !! i with Some rb => uncertainBlock (block rb) | None => false end)
            (comp_members resolved rep r) = uncertainRoot r) as ->.
  { unfold uncertainRoot. apply eq_true_iff_eq. rewrite !existsb_exists.
    split; intros (i & Hi & Hu); exists i; (split; [done|]); apply list_elem_of_In in Hi;
      [by rewrite <- Hsame|by rewrite Hsame]. }
  pose proof (NoDup_indices (λ j rb, negb (inherited rb) && bool_decide (rep j = r)) 0 resolved) as Hnd.
  fold (comp_members resolved rep r) in Hnd.
  (* The update [f] of every member gives the next list. *)
  assert (∀ cur' (f : resolvedBlock → resolvedBlock), length cur' = length cur →
    (∀ j, cur' !! j = if decide (j ∈ comp_members resolved rep r) then f <$> cur !! j else cur !! j) →
    (∀ i rb, i ∈ comp_members resolved rep r → resolved !! i = Some rb → settled resolved byKey i rb (f rb)) →
    settledRoots (r :: done) cur') as Hnext.
  { intros cur' f Hl Hlook Hf. split; [lia|]. intros i rb Hi. rewrite Hlook. case_decide as Him.
    - rewrite Hsame, Hi by done. simpl. eexists. split; [done|]. split; [intros; by apply Hf|].
      apply elem_of_comp_members in Him as (rb0 & ? & ? & ?). intros [?|Hno]; [congruence|]. set_solver.
    - destruct (Hcur i rb Hi) as (rb' & -> & Hin & Hout). eexists. split; [done|]. split.
      + intros Hib [Hri|?]%elem_of_cons; [|auto]. destruct Him. apply elem_of_comp_members. eauto.
      + intros Hor. apply Hout. set_solver. }
  destruct (uncertainRoot r) eqn:Hun; simpl.
  - destruct Hearlier as [?| ->]; [done|]. simpl. eexists. split; [done|].
    destruct (moveEarlier_fold _ cur Hnd) as [Hl Hlook]. eapply Hnext; [exact Hl|exact Hlook|].
    intros i rb (? & Hi & Hib & Hri)%elem_of_comp_members Hi'. simplify_eq.
    split_and!; [congruence|done|]. intros _ []. apply uncertainRoot_tainted; [by eapply lookup_lt_Some|done].
  - eexists. split; [done|].
    assert (∀ j rb, j ∈ comp_members resolved rep r → cur !! j = Some rb → b_Depth (block rb) ≠ 0%Z →
      ∃ c carrier, byKey !! CarrierNativeKey (block rb) = Some c ∧ resolved !! c = Some carrier ∧
        cur !! c = Some carrier ∧ b_Depth (block carrier) = 0%Z) as Hcar.
    { intros j rb Hj Hrb Hd. rewrite Hsame in Hrb by done. pose proof Hj as (? & ? & Hib & Hrj)%elem_of_comp_members.
      simplify_eq. rewrite Forall_forall in carriers.
      destruct (carriers rb) as (c & carrier & Hk & Hc & H0); [by eapply list_elem_of_lookup_2|done..|].
      exists c, carrier. split_and!; [done|done| |done]. destruct (Hcur c carrier Hc) as (car' & -> & _ & Heq).
      f_equal. apply Heq. destruct (inherited carrier) eqn:Hic; [by left|right].
      replace (rep c) with (rep j); [done|].
      apply rep_linked; [by eapply lookup_lt_Some..|]. apply rtsc_step. left. by exists rb. }
    destruct (followCarrier_fold byKey _ cur Hnd) as [Hl Hlook]; [by naive_solver|].
    eapply Hnext; [exact Hl|exact Hlook|].
    intros i rb Hm Hi. pose proof Hm as (? & ? & Hib & Hri)%elem_of_comp_members. simplify_eq.
    split_and!; [congruence| |].
    { intros _ Ht. apply uncertainRoot_tainted in Ht; [congruence|by eapply lookup_lt_Some]. }
    intros _ _. unfold followed. case_decide as Hd; [done|].
    destruct (Hcar i rb Hm ltac:(by rewrite Hsame) Hd) as (c & carrier & Hk & Hc & Hc' & _).
    exists c, carrier. split_and!; [done..|]. by rewrite Hk; simpl; rewrite Hc'.
Qed.

Lemma settle_refused done r cur :
  settledRoots done cur → r ∉ done → uncertainRoot r = true → hasEarlier = false →
  refused (settle byKey hasEarlier cur (comp_members resolved rep r)).
Proof.
  intros [Hlen Hcur] Hr Hun ->. unfold settle.
  assert (existsb (λ i, match cur !! i with Some rb => uncertainBlock (block rb) | None => false end)
            (comp_members resolved rep r) = true) as ->; [|by do 2 eexists].
  unfold uncertainRoot in Hun. apply existsb_exists in Hun as (i & Hi & Hu). apply existsb_exists. exists i.
  split; [done|]. apply list_elem_of_In, elem_of_comp_members in Hi as (rb & Hi & _ & Hri).
  destruct (Hcur i rb Hi) as (rb' & -> & _ & Heq). rewrite Hi in Hu. rewrite Heq; [done|]. right. congruence.
Qed.

Lemma settle_fold : ∀ cs n done cur,
  NoDup (fst <$> cs) → (∀ c, c ∈ cs → c.2 = comp_members resolved rep c.1 ∧ c.1 ∉ done) → settledRoots done cur →
  let fold := res_fold (λ _ l (c : nat * list nat), settle byKey hasEarlier l c.2) n cur cs in
  (∃ cur', fold = Ok cur' ∧ settledRoots (rev (fst <$> cs) ++ done) cur' ∧
     ∀ c, c ∈ cs → uncertainRoot c.1 = false ∨ hasEarlier = true) ∨
  (refused fold ∧ hasEarlier = false ∧ ∃ c, c ∈ cs ∧ uncertainRoot c.1 = true).
Proof.
  induction cs as [|[r js] cs IH]; intros n done cur Hnd Hcs Hset; simpl.
  { left. exists cur. split_and!; [done|done|set_solver]. }
  inversion Hnd as [|? ? Hr Hnd']; subst. destruct (Hcs (r, js)) as [Hjs Hdone]; [by left|]. simpl in *. subst js.
  assert ((uncertainRoot r = false ∨ hasEarlier = true) ∨ (uncertainRoot r = true ∧ hasEarlier = false)) as [Hok|[Hun He]]
    by (destruct (uncertainRoot r), hasEarlier; auto).
  - destruct (settle_step done r cur Hset Hdone Hok) as (cur1 & -> & Hset1). simpl.
    destruct (IH (S n) (r :: done) cur1 Hnd') as [(cur' & -> & Hset' & Hall)|(Href & He & c & Hc & Hun)].
    + intros c Hc. destruct (Hcs c) as [? ?]; [by right|]. split; [done|]. intros [Heq|?]%elem_of_cons; [|done].
      apply Hr. rewrite <- Heq. by apply list_elem_of_fmap_2.
    + done.
    + left. exists cur'. split_and!; [done| |].
      * by rewrite <- app_assoc.
      * intros c [->|?]%elem_of_cons; auto.
    + right. split_and!; [done..|]. exists c. split; [by right|done].
  - right. split_and!; [|done|by exists (r, comp_members resolved rep r); split; [left|]].
    destruct (settle_refused done r cur Hset Hdone Hun He) as (e & k & -> & ?). by exists e, k.
Qed.
End settling.

(** ** The result *)

(** Carriers are there and so is a place for uncertain blocks. *)
Definition resolvable (resolved : list resolvedBlock) (byKey : gmap string nat) (hasEarlier : bool) : Prop :=
  Forall (carriersOk resolved byKey) resolved ∧
  (hasEarlier = true ∨ ∀ i rb, resolved !! i = Some rb → inherited rb = false → ¬ tainted resolved byKey i).

Lemma resolveUncertain_cases resolved byKey hasEarlier :
  indexed resolved byKey →
  (resolvable resolved byKey hasEarlier ∧
   ∃ resolved', resolveUncertainSubtrees resolved byKey hasEarlier = Ok resolved' ∧
     length resolved' = length resolved ∧
     ∀ i rb, resolved !! i = Some rb → ∃ rb', resolved' !! i = Some rb' ∧ settled resolved byKey i rb rb') ∨
  (¬ resolvable resolved byKey hasEarlier ∧ refused (resolveUncertainSubtrees resolved byKey hasEarlier)).
Proof.
  intros Hix. unfold resolveUncertainSubtrees.
  destruct (linked_classes resolved byKey Hix) as [(Hcar & p0 & p1 & p2 & -> & H1 & H2 & rep & Hrep & Hlink)|[Hno (e & k & -> & He)]].
  2:{ right. split; [by intros [? _]|]. simpl. by exists e, k. }
  simpl. rewrite H1. simpl. rewrite H2. simpl. rewrite (components_grouped _ _ _ _ _ _ Hrep) by done.
  set (comps := grouped _ _ _ _ _).
  assert (∀ r js, (r, js) ∈ range_nat comps ↔ js ≠ [] ∧ js = comp_members resolved rep r) as Hcomps.
  { intros r js. rewrite range_nat_perm, elem_of_map_to_list. unfold comps. apply grouped_Some. }
  destruct (settle_fold resolved byKey hasEarlier rep Hcar Hlink (range_nat comps) 0 [] resolved)
    as [(cur' & -> & [Hlen Hset] & Hall)|(Href & He & [r js] & Hc & Hun)].
  - rewrite range_nat_perm. apply NoDup_fst_map_to_list.
  - intros [r js] Hc%Hcomps. split; [by destruct Hc|set_solver].
  - split; [done|]. intros i rb Hi. exists rb. split_and!; [done|set_solver|done].
  - assert (resolvable resolved byKey hasEarlier) as Hok.
    { split; [done|]. destruct hasEarlier; [by left|right]. intros i rb Hi Hib Ht.
      apply (uncertainRoot_tainted _ _ _ Hlink) in Ht; [|by eapply lookup_lt_Some].
      destruct (Hall (rep i, comp_members resolved rep (rep i))) as [Hf|?]; [|simpl in Hf; congruence|done].
      apply Hcomps. split; [|done]. apply not_nil_iff. exists i. apply elem_of_comp_members. eauto. }
    left. split; [done|]. exists cur'. split_and!; [done..|]. intros i rb Hi.
    destruct (Hset i rb Hi) as (rb' & Hi' & Hin & Hout). exists rb'. split; [done|].
    destruct (inherited rb) eqn:Hib; [split_and!; [auto|congruence..]|]. apply Hin; [done|].
    rewrite app_nil_r. apply elem_of_rev. apply list_elem_of_fmap. exists (rep i, comp_members resolved rep (rep i)).
    split; [done|]. apply Hcomps. split; [|done]. apply not_nil_iff. exists i. apply elem_of_comp_members. eauto.
  - right. split; [|done]. intros [_ [?|Hno]]; [congruence|]. apply Hcomps in Hc as [Hne ->].
    apply not_nil_iff in Hne as [i (rb & Hi & Hib & <-)%elem_of_comp_members]. destruct (Hno i rb Hi Hib).
    apply (uncertainRoot_tainted _ _ _ Hlink); [by eapply lookup_lt_Some|done].
Qed.

(** C2: The union-find loops terminate within their fuel and the resolution is
    determined by the connected classes alone, whatever the order the maps are
    ranged over.  It succeeds exactly when every tool block names a depth-0
    carrier and, if some block is tied to uncertain evidence by carriers, call
    identities or proved correlations, an earlier section exists.  Then every
    block of such a class is uncertain and in the first earlier section, an
    inherited block is untouched, and in every other class a carrier keeps its
    section and a tool block gets its own carrier's. *)
Theorem sections_resolved (resolved : list resolvedBlock) (byKey : gmap string nat) (hasEarlier : bool) :
  indexed resolved byKey →
  let ok := Forall (carriersOk resolved byKey) resolved ∧
    (hasEarlier = true ∨ ∀ i rb, resolved !! i = Some rb → inherited rb = false → ¬ tainted resolved byKey i) in
  (ok → ∃ resolved', resolveUncertainSubtrees resolved byKey hasEarlier = Ok resolved' ∧
     length resolved' = length resolved ∧
     ∀ i rb, resolved !! i = Some rb → ∃ rb', resolved' !! i = Some rb' ∧ settled resolved byKey i rb rb') ∧
  (¬ ok → refused (resolveUncertainSubtrees resolved byKey hasEarlier)).
Proof.
  intros Hix ok. destruct (resolveUncertain_cases resolved byKey hasEarlier Hix) as [[Hok Hres]|[Hno Href]].
  - by split; intros.
  - by split.
Qed.
End sections.

#[local] Existing Instance demoSchema.
#[local] Existing Instance demoEvidence.
#[local] Existing Instance demoOrder.

Definition demoResolved : list resolvedBlock :=
  (λ b, mkResolved b (sec_Index (b_Section b)) (Inherited b) "" false None 0) <$>
  [demoBlock "turn" 0 false "text" 0 "" ""; demoBlock "call" 0 false "tool_use" 1 "turn" "c1";
   demoBlock "result" 2 true "tool_result" 1 "turn" "c1"; demoBlock "other" 0 false "text" 0 "" ""].
Definition demoKeys : gmap string nat := list_to_map [("turn", 0); ("call", 1); ("result", 2); ("other", 3)].

(** An uncertain result pulls its call and their carrier into earlier history. *)
Example uncertain_result_moves_turn :
  (let? l := resolveUncertainSubtrees demoResolved demoKeys true in Ok (section <$> l)) = Ok [1; 1; 1; 0]%Z.
Proof. by vm_compute. Qed.

Lemma sections_resolved_witness :
  (∃ resolved', resolveUncertainSubtrees demoResolved demoKeys true = Ok resolved' ∧ length resolved' = 4) ∧
  refused (resolveUncertainSubtrees demoResolved demoKeys false).
Proof.
  assert (indexed demoResolved demoKeys) as Hix.
  { intros k c Hk. unfold demoKeys in Hk. apply elem_of_list_to_map_2 in Hk. set_unfold in Hk. naive_solver lia. }
  assert (Forall (carriersOk demoResolved demoKeys) demoResolved) as Hcar.
  { repeat constructor; intros _ Hd; try (by destruct Hd); exists 0, (mkResolved (demoBlock "turn" 0 false "text" 0 "" "") 0 false "" false None 0);
      split_and!; by vm_compute. }
  split.
  - destruct (proj1 (sections_resolved demoResolved demoKeys true Hix)) as (l & Hl & Hlen & _); [by split; [|left]|].
    exists l. by split.
  - apply (proj2 (sections_resolved demoResolved demoKeys false Hix)). intros [_ [?|Hno]]; [done|].
    apply (Hno 2 (mkResolved (demoBlock "result" 2 true "tool_result" 1 "turn" "c1") 2 false "" false None 0)%Z); [done..|].
    by exists 2, (mkResolved (demoBlock "result" 2 true "tool_result" 1 "turn" "c1") 2 false "" false None 0)%Z.
Defined.
