(* ===== verification/GenerationBuild.v ===== *)
(** * Building a generation ([internal/ingest/projection.go], second half)

    From the resolved and allocated blocks to the validated generation: one
    entry per emitted block, tool parents and call identities, native metadata,
    content records with their bytes, aliases, captured segments and the strict
    counts, ending in [Generation_Validate].  The blocks' [entryIndex] is
    written by the layout and read through the carrier. *)
From stdpp Require Import pretty.
From S2P Require Import Prelude GoStrings IndexFormat ProjectionIdentity Projection.
Local Open Scope string_scope.
Local Open Scope list_scope.
Local Open Scope Z_scope.

Section build.
Context `{SchemaLib, EvidenceLib, MapOrder}.
Context (ValidateSessionRelationships : option (list SessionRelationship) → bool).

(** ** Entries *)

(** Updates of one field of an entry. *)
Definition with_EntryIndex (e : SessionEntry) (i : Z) : SessionEntry :=
  mkEntry (e_SessionID e) (e_Harness e) i (Depth e) (ParentIndex e) (e_Role e) (EntryType e) (Provenance e)
    (ToolKind e) (StopReason e) (SourceEntryRef e) (TimestampMs e) (PartType e) (HasThinking e) (TokensIn e)
    (TokensOut e) (e_Extra e) (RawByteLength e) (HasToolUse e) (ToolInput e) (ToolOutput e) (ContentPreview e)
    (e_ToolCallID e) (ToolNamesCSV e).

Definition with_parent (e : SessionEntry) (parent : option Z) (call : option string) : SessionEntry :=
  mkEntry (e_SessionID e) (e_Harness e) (EntryIndex e) (Depth e) parent (e_Role e) (EntryType e) (Provenance e)
    (ToolKind e) (StopReason e) (SourceEntryRef e) (TimestampMs e) (PartType e) (HasThinking e) (TokensIn e)
    (TokensOut e) (e_Extra e) (RawByteLength e) (HasToolUse e) (ToolInput e) (ToolOutput e) (ContentPreview e)
    call (ToolNamesCSV e).

Definition nonEmptyString (value : string) : option string := if decide (value = "") then None else Some value.

(** [model_observation.go]; writing into the nil map a JSON null leaves panics. *)
Definition addModelObservation (extraJSON : option string) (modelID : string) : result perr (option string) :=
  if negb (NewObservedModelID modelID) then Ok extraJSON
  else
    match match extraJSON with None => Some (Some ∅) | Some text => Object_Unmarshal text end with
    | None => Ok extraJSON
    | Some None => Err (Bad Panic modelID)
    | Some (Some extra) =>
      match extra !! "model_id" with
      | Some _ => Ok extraJSON
      | None => Ok (Some (Object_Marshal (<["model_id" := String_Marshal modelID]> extra)))
      end
    end.

Definition ThinkingLevelExtraKey := "thinking_level".
Definition ThinkingLevelRawExtraKey := "thinking_level_raw".

(** The thinking-level step of [projectionEntry]. *)
Definition addThinkingLevel (b : ClassifiedBlock) (extraJSON : option string) : result perr (option string) :=
  if decide (ThinkingLevel b = "" ∧ ThinkingLevelRaw b = "") then Ok extraJSON
  else
    require ValidateThinkingLevelEvidence (b_Role b) (ThinkingLevel b) (ThinkingLevelRaw b)
      else Bad ThinkingEvidence (b_NativeKey b) in
    match match extraJSON with None => Some (Some ∅) | Some text => Object_Unmarshal text end with
    | None => Err (Bad ExtraUndecodable (b_NativeKey b))
    | Some None => Err (Bad Panic (b_NativeKey b))
    | Some (Some extra) =>
      let extra := if decide (ThinkingLevel b = "") then extra
                   else <[ThinkingLevelExtraKey := String_Marshal (ThinkingLevel b)]> extra in
      let extra := if decide (ThinkingLevelRaw b = "") then extra
                   else <[ThinkingLevelRawExtraKey := String_Marshal (ThinkingLevelRaw b)]> extra in
      Ok (Some (Object_Marshal extra))
    end.

(** [AttachRetainedUnknown] on the entry's extension fields. *)
Definition AttachRetainedUnknown (k : string) (extraJSON : option string) (records : list RetainedUnknown) :
    result perr (option string) :=
  match records with
  | [] => Ok extraJSON
  | _ =>
    match RetainedUnknownOf extraJSON with
    | None => Err (Bad RetainedInvalid k)
    | Some prior =>
      require forallb NewRetainedUnknown records else Bad RetainedInvalid k in
      match match extraJSON with None => Some (Some ∅) | Some text => Object_Unmarshal text end with
      | None | Some None => Err (Bad RetainedInvalid k)
      | Some (Some fields) =>
        Ok (Some (Object_Marshal (<[retainedUnknownKey := RetainedUnknown_Marshal (prior ++ records)]> fields)))
      end
    end
  end.

(** [int] is 64 bits wide, so the size always fits. *)
Definition omissionChannelEntry (capture : ClassifiedCapture) (rb : resolvedBlock) (omitted : OmittedRecordAt) :
    result perr SessionEntry :=
  match OmittedRecord_Extra (o_Record omitted) with
  | None => Err (Bad OmittedEncoding (key_of rb))
  | Some extra =>
    let rawByteLength := Bytes (o_Record omitted) in
    Ok (mkEntry (cap_SessionID capture) (cap_Harness capture) 0 0 None RoleTool EntryTypeToolResult None None None
      (ref rb) None None false None None (Some extra)
      (if decide (rawByteLength > 0) then Some rawByteLength else None) false None None
      (Some (OmissionPlaceholderNote (o_Record omitted))) (o_ToolCallID omitted) None)
  end.

Definition projectionEntry (capture : ClassifiedCapture) (rb : resolvedBlock) : result perr SessionEntry :=
  let b := block rb in
  match Omitted b with
  | Some omitted => omissionChannelEntry capture rb omitted
  | None =>
    require Role_IsValid (b_Role b) else Bad EntryRole (key_of rb) in
    require EntryType_IsValid (b_EntryType b) else Bad EntryKind (key_of rb) in
    require bool_decide (¬ b_Depth b < 0) else Bad EntryDepth (key_of rb) in
    let? extra :=
      match ObservedModel b with
      | None => Ok (nonEmptyString (b_Extra b))
      | Some observed => addModelObservation (nonEmptyString (b_Extra b)) observed
      end in
    let? extra := addThinkingLevel b extra in
    require match b_RawByteLength b with Some n => bool_decide (¬ n < 0) | None => true end
      else Bad NegativeRawLength (key_of rb) in
    let? extra := AttachRetainedUnknown (key_of rb) extra (b_RetainedUnknown b) in
    let isUse := bool_decide (b_EntryType b = EntryTypeToolUse) in
    let isResult := negb isUse && bool_decide (b_EntryType b = EntryTypeToolResult) in
    Ok (mkEntry (cap_SessionID capture) (cap_Harness capture) 0 (b_Depth b) None (b_Role b) (b_EntryType b)
      (b_Provenance b) (nonEmptyString (b_ToolKind b)) None (ref rb) (b_TimestampMs b) (b_PartType b)
      (b_HasThinking b) (Usage b ≫= u_TokensIn) (Usage b ≫= u_TokensOut) extra (b_RawByteLength b) isUse
      (if isUse then nonEmptyString (ToolArguments b) else None)
      (if isResult then nonEmptyString (ToolResult b) else None)
      (nonEmptyString (if isUse then ToolArguments b else if isResult then ToolResult b else b_Content b))
      (b_ToolCallID b) (nonEmptyString (ToolName b)))
  end.

(** ** Layout *)

Record projectionPartitions := mkPartitions { p_main : Partition; p_earlier : list EarlierPartition }.

Definition appendEntry (p : Partition) (e : SessionEntry) : Partition := mkPartition (Entries p ++ [e]) (NativeMetadata p).
Definition with_Content (e : EarlierPartition) (p : Partition) : EarlierPartition := mkEarlier (State e) p.

(** One block of [layoutProjectionPartitions]; an index outside [out.earlier]
    panics. *)
Definition layoutBlock (capture : ClassifiedCapture) (_ : nat) (st : projectionPartitions * list resolvedBlock)
    (rb : resolvedBlock) : result perr (projectionPartitions * list resolvedBlock) :=
  let '(out, done) := st in
  if dropped rb || inherited rb then Ok (out, done ++ [rb])
  else
    let? entry := projectionEntry capture rb in
    if decide (section rb = 0) then
      let i := Z.of_nat (length (Entries (p_main out))) in
      Ok (mkPartitions (appendEntry (p_main out) (with_EntryIndex entry i)) (p_earlier out),
          done ++ [set_entryIndex rb i])
    else if decide (section rb < 0) then Err (Bad Panic (key_of rb))
    else
      let at' := Z.to_nat (section rb - 1) in
      match p_earlier out !! at' with
      | None => Err (Bad Panic (key_of rb))
      | Some e =>
        let i := Z.of_nat (length (Entries (Content e))) in
        Ok (mkPartitions (p_main out)
              (<[at' := with_Content e (appendEntry (Content e) (with_EntryIndex entry i))]> (p_earlier out)),
            done ++ [set_entryIndex rb i])
      end.

Definition layoutProjectionPartitions (capture : ClassifiedCapture) (resolved : list resolvedBlock) :
    result perr (projectionPartitions * list resolvedBlock) :=
  let empty := mkPartition [] [] in
  res_fold (layoutBlock capture) 0 (mkPartitions empty ((λ state, mkEarlier state empty) <$> EarlierStates capture), [])
    resolved.

(** ** Tool parents *)

(** [indexByRef] and [byNative]: the last undropped block of each key. *)
Definition indexUndropped (key : resolvedBlock → string) (resolved : list resolvedBlock) : gmap string resolvedBlock :=
  foldl (λ m rb, if dropped rb then m else <[key rb := rb]> m) ∅ resolved.

(** One entry of [assign]; [calls] maps a partition and a native call identity
    to the call entry's [ToolCallID]. *)
Definition assignEntry (indexByRef byNative : gmap string resolvedBlock) (section : Z) (_ : nat)
    (st : list SessionEntry * gmap (Z * string) string) (entry : SessionEntry) :
    result perr (list SessionEntry * gmap (Z * string) string) :=
  let '(out, calls) := st in
  match indexByRef !! SourceEntryRef entry with
  | None => Err (Bad EntryNotResolved (SourceEntryRef entry))
  | Some rb =>
    if decide (b_Depth (block rb) = 0) then Ok (out ++ [entry], calls)
    else
      match byNative !! CarrierNativeKey (block rb) with
      | None => Err (Bad CarrierNotLaidOut (key_of rb))
      | Some carrier =>
        let parent := Some (entryIndex carrier) in
        let call := (section, ToolCallKey (block rb)) in
        if decide (EntryType entry = EntryTypeToolUse) then
          require bool_decide (ToolCallKey (block rb) ≠ "") else Bad CallWithoutKey (key_of rb) in
          Ok (out ++ [with_parent entry parent (Some (ref rb))], <[call := ref rb]> calls)
        else if decide (EntryType entry = EntryTypeToolResult) then
          match calls !! call with
          | None => Err (Bad OrphanResult (key_of rb))
          | Some id => Ok (out ++ [with_parent entry parent (Some id)], calls)
          end
        else Ok (out ++ [with_parent entry parent (e_ToolCallID entry)], calls)
      end
  end.

Definition assign (indexByRef byNative : gmap string resolvedBlock) (section : Z) (p : Partition)
    (calls : gmap (Z * string) string) : result perr (Partition * gmap (Z * string) string) :=
  let? st := res_fold (assignEntry indexByRef byNative section) 0 ([], calls) (Entries p) in
  Ok (mkPartition st.1 (NativeMetadata p), st.2).

Definition assignEarlier (indexByRef byNative : gmap string resolvedBlock) (i : nat)
    (st : list EarlierPartition * gmap (Z * string) string) (e : EarlierPartition) :
    result perr (list EarlierPartition * gmap (Z * string) string) :=
  let? r := assign indexByRef byNative (Z.of_nat i + 1) (Content e) st.2 in
  Ok (st.1 ++ [with_Content e r.1], r.2).

Definition remapToolParents (partitions : projectionPartitions) (resolved : list resolvedBlock) :
    result perr projectionPartitions :=
  let indexByRef := indexUndropped ref resolved in
  let byNative := indexUndropped key_of resolved in
  let? main := assign indexByRef byNative 0 (p_main partitions) ∅ in
  let? earlier := res_fold (assignEarlier indexByRef byNative) 0 ([], main.2) (p_earlier partitions) in
  Ok (mkPartitions main.1 earlier.1).

(** ** Native metadata *)

(** [toolIDs]: the call references of each partition. *)
Definition collectToolIDs (resolved : list resolvedBlock) : gmap (Z * string) string :=
  foldl (λ m rb,
    if dropped rb || bool_decide (b_Depth (block rb) ≠ 1) || bool_decide (b_EntryType (block rb) ≠ EntryTypeToolUse)
    then m
    else if decide (ToolCallKey (block rb) = "") then m
    else <[(section rb, ToolCallKey (block rb)) := ref rb]> m) ∅ resolved.

Definition appendNative (p : Partition) (r : NativeMetadataRecord) : Partition :=
  mkPartition (Entries p) (NativeMetadata p ++ [r]).

(** One attachment of block [rb]. *)
Definition attachNative (toolIDs : gmap (Z * string) string) (rb : resolvedBlock) (_ : nat) (ps : projectionPartitions)
    (a : ClassifiedNativeAttachment) : result perr projectionPartitions :=
  let? call :=
    if decide (AttachmentToolCallKey a = "") then Ok None
    else
      match toolIDs !! (section rb, AttachmentToolCallKey a) with
      | None => Err (Bad AttachmentSplit (key_of rb))
      | Some id => Ok (Some id)
      end in
  let record := mkNative (att_ID a) (att_Kind a) (ref rb) (att_SourceType a) (att_Data a) (att_CustomType a)
                  (att_MessageRole a) call in
  if decide (section rb = 0) then Ok (mkPartitions (appendNative (p_main ps) record) (p_earlier ps))
  else if decide (section rb < 0) then Err (Bad Panic (key_of rb))
  else
    let at' := Z.to_nat (section rb - 1) in
    match p_earlier ps !! at' with
    | None => Err (Bad Panic (key_of rb))
    | Some e => Ok (mkPartitions (p_main ps) (<[at' := with_Content e (appendNative (Content e) record)]> (p_earlier ps)))
    end.

Definition attachProjectionNativeMetadata (ps : projectionPartitions) (resolved : list resolvedBlock) :
    result perr projectionPartitions :=
  let toolIDs := collectToolIDs resolved in
  res_fold (λ _ ps rb,
    if dropped rb || inherited rb then Ok ps
    else res_fold (attachNative toolIDs rb) 0 ps (NativeAttachments (block rb))) 0 ps resolved.

(** ** Checks on the layout *)

(** The two loops most checks share: main, then each earlier section. *)
Definition partitionEntries (ps : projectionPartitions) : list SessionEntry :=
  Entries (p_main ps) ++ (p_earlier ps ≫= λ e, Entries (Content e)).

Definition validateProjectionProvenance (ps : projectionPartitions) : check' :=
  res_iter (λ _ entry,
    match Provenance entry with
    | None => Ok tt
    | Some p => require ContentProvenance_Validate p else Bad EntryProvenance (SourceEntryRef entry) in Ok tt
    end) 0 (partitionEntries ps).

Definition validateInheritedProvenance (resolved : list resolvedBlock) : check' :=
  res_iter (λ _ rb,
    if dropped rb || negb (inherited rb) then Ok tt
    else
      match b_Provenance (block rb) with
      | None => Ok tt
      | Some p => require ContentProvenance_Validate p else Bad InheritedProvenance (key_of rb) in Ok tt
      end) 0 resolved.

Definition validateUniqueProjectionRefs (ps : projectionPartitions) : check' :=
  let? _s := res_fold (λ _ seen entry,
      require bool_decide (SourceEntryRef entry ∉ seen) else Bad RefTwice (SourceEntryRef entry) in
      Ok ({[SourceEntryRef entry]} ∪ seen)) 0 (∅ : gset string) (partitionEntries ps) in
  Ok tt.

(** ** Content *)

(** [hex.EncodeToString]. *)
Definition hexDigit (n : N) : Ascii.ascii := Ascii.ascii_of_N (if decide (n < 10)%N then 48 + n else 87 + n)%N.
Fixpoint hexEncode (s : string) : string :=
  match s with
  | EmptyString => ""
  | String c s => String (hexDigit (Ascii.N_of_ascii c / 16)) (String (hexDigit (Ascii.N_of_ascii c mod 16)) (hexEncode s))
  end.

Definition projectionContentPath (ref : string) : string := "content/" +:+ ref.

Definition inheritedBlockContent (b : ClassifiedBlock) : string :=
  if decide (b_EntryType b = EntryTypeToolUse) then ToolArguments b
  else if decide (b_EntryType b = EntryTypeToolResult) then ToolResult b
  else b_Content b.

Definition projectionEntryContent (e : SessionEntry) : string :=
  default "" (if decide (EntryType e = EntryTypeToolUse) then ToolInput e
              else if decide (EntryType e = EntryTypeToolResult) then ToolOutput e
              else ContentPreview e).

Definition contentRecord (ref value : string) : ContentRecord :=
  mkContent ref (projectionContentPath ref) (Z.of_nat (String.length value)) (hexEncode (Sum256 value)).

(** [add] of [buildProjectionContent]. *)
Definition addContent (_ : nat) (st : list ContentRecord * gmap string string) (rv : string * string) :
    result perr (list ContentRecord * gmap string string) :=
  match ContentRecord_Validate 0 (contentRecord rv.1 rv.2) with
  | Err e => Err (BadContent e)
  | Ok _ => Ok (st.1 ++ [contentRecord rv.1 rv.2], <[rv.1 := rv.2]> st.2)
  end.

(** What is added, in order: every emitted entry, then every inherited block. *)
Definition contentSources (ps : projectionPartitions) (resolved : list resolvedBlock) : list (string * string) :=
  ((λ e, (SourceEntryRef e, projectionEntryContent e)) <$> partitionEntries ps) ++
  (resolved ≫= λ rb, if dropped rb || negb (inherited rb) then [] else [(ref rb, inheritedBlockContent (block rb))]).

(** The order of [sort.Slice] on references; they are distinct in a validated
    generation, so an unstable sort gives the same list. *)
Definition ref_le (a b : ContentRecord) : Prop := String.leb (c_Ref a) (c_Ref b) = true.
#[local] Instance ref_le_dec : RelDecision ref_le := λ a b, decide (_ = true).

Definition buildProjectionContent (ps : projectionPartitions) (resolved : list resolvedBlock) :
    result perr (list ContentRecord * gmap string string) :=
  let? st := res_fold addContent 0 ([], ∅) (contentSources ps resolved) in
  Ok (merge_sort ref_le st.1, st.2).

(** ** Aliases *)

(** The first loop: block aliases of the undropped blocks, and the first
    reference of each submission key. *)
Definition aliasBlock (_ : nat) (st : gmap string string * gmap string string) (rb : resolvedBlock) :
    result perr (gmap string string * gmap string string) :=
  if dropped rb then Ok st
  else
    match encodeBlockAliasKey (key_of rb) with
    | None => Err (Bad AliasKey (key_of rb))
    | Some key =>
      let s := SubmissionKey (block rb) in
      Ok (<[key := ref rb]> st.1,
          if decide (s = "") then st.2
          else match st.2 !! s with Some _ => st.2 | None => <[s := ref rb]> st.2 end)
    end.

(** The second loop: a dropped block aliases its owner. *)
Definition aliasDropped (resolved : list resolvedBlock) (_ : nat) (byAlias : gmap string string) (rb : resolvedBlock) :
    result perr (gmap string string) :=
  if negb (dropped rb) then Ok byAlias
  else
    match encodeBlockAliasKey (key_of rb) with
    | None => Err (Bad AliasKey (key_of rb))
    | Some key =>
      match owner ← dropTo rb; resolved !! owner with
      | None => Err (Bad NoRetained (key_of rb))
      | Some o => Ok (<[key := ref o]> byAlias)
      end
    end.

(** The third loop, in any order of the map. *)
Definition aliasSubmission (_ : nat) (byAlias : gmap string string) (s : string * string) : result perr (gmap string string) :=
  match encodeSubmissionAliasKey s.1 with
  | None => Err (Bad AliasKey s.1)
  | Some key =>
    require match byAlias !! key with Some existing => bool_decide (existing = s.2) | None => true end
      else Bad AliasCollision s.1 in
    Ok (<[key := s.2]> byAlias)
  end.

Definition buildProjectionAliases (resolved : list resolvedBlock) : result perr (list NativeAlias) :=
  let? st := res_fold aliasBlock 0 (∅, ∅) resolved in
  let? byAlias := res_fold (aliasDropped resolved) 0 st.1 resolved in
  let? byAlias := res_fold aliasSubmission 0 byAlias (range_str st.2) in
  let keys := sort_strings (fst <$> range_str byAlias) in
  res_map (λ key,
    let alias := mkAlias key (default "" (byAlias !! key)) in
    match NativeAlias_Validate 0 alias with Err e => Err (BadAlias e) | Ok _ => Ok alias end) keys.

(** ** Captured segments *)

Definition with_CapturedRefs (s : ContextSegment) (refs : list string) : ContextSegment :=
  mkSegment (Ordinal s) (LogicalSessionID s) (PhysicalSourceID s) (Coordinates s) (Inclusion s) refs.

(** [byOrdinal]: the last segment of each ordinal. *)
Definition byOrdinal (segments : list ContextSegment) : gmap Z nat :=
  list_to_map (rev (imap (λ i s, (Ordinal s, i)) segments)).

(** One inherited block; the segment's captured references already are what
    [seen] holds for it. *)
Definition attachInherited (ordinals : gmap Z nat) (_ : nat) (out : list ContextSegment) (rb : resolvedBlock) :
    result perr (list ContextSegment) :=
  if dropped rb || negb (inherited rb) then Ok out
  else
    match i ← ordinals !! SegmentOrdinal (block rb); s ← out !! i; Some (i, s) with
    | None => Err (Bad SegmentMissing (key_of rb))
    | Some (i, s) =>
      require bool_decide (ref rb ≠ "") else Bad SegmentNoRef (key_of rb) in
      if decide (ref rb ∈ CapturedRefs s) then Ok out
      else Ok (<[i := with_CapturedRefs s (CapturedRefs s ++ [ref rb])]> out)
    end.

Definition attachInheritedSegmentRefs (segments : list ContextSegment) (resolved : list resolvedBlock) :
    result perr (list ContextSegment) :=
  res_fold (attachInherited (byOrdinal segments)) 0 segments resolved.

(** ** Strict counts *)

Definition IsRetainedUnknownCarrier (e : SessionEntry) : bool :=
  bool_decide (e_Role e = RoleSystem) && bool_decide (EntryType e = EntryTypeSystem) &&
  bool_decide (ContentPreview e = None) && bool_decide (ToolInput e = None) && bool_decide (ToolOutput e = None) &&
  match RetainedUnknownOf (e_Extra e) with Some (_ :: _) => true | _ => false end.

Definition isOmissionPlaceholder (e : SessionEntry) : bool :=
  bool_decide (e_Role e = RoleTool) && bool_decide (EntryType e = EntryTypeToolResult) &&
  bool_decide (is_Some (e_Extra e)) && bool_decide (is_Some (OmittedRecordOf e)).

Definition eligibleInputProvenance (provenance : option ContentProvenance) : bool :=
  match provenance with
  | None => false
  | Some p =>
    bool_decide (p_SubmissionRef p ≠ "") && bool_decide (p_Origin p = ContentOriginSubmittedInput) &&
    bool_decide (p_Ownership p = ContentOwnershipLocal) && bool_decide (p_Delivery p = DeliveryOriginSessionAdmission) &&
    (bool_decide (p_Evidence p = EvidenceNativeTyped) || bool_decide (p_Evidence p = EvidenceLifecycleTyped)) &&
    negb (bool_decide (p_Actor p = ActorOriginHarness) || bool_decide (p_Actor p = ActorOriginAgentDelegate))
  end.

(** One entry of the loop; the state is the turn count, the distinct submission
    references and the title references. *)
Definition countEntry (st : Z * gset string * list string) (e : SessionEntry) : Z * gset string * list string :=
  let '(turnCount, submissions, titleRefs) := st in
  if IsRetainedUnknownCarrier e || isOmissionPlaceholder e then st
  else
    let turnCount := if decide (Depth e = 0) then turnCount + 1 else turnCount in
    match Provenance e with
    | Some p =>
      if eligibleInputProvenance (Some p) then
        (turnCount, {[p_SubmissionRef p]} ∪ submissions,
         if bool_decide (p_InputModality p = InputModalityText) && bool_decide (TrimSpace (projectionEntryContent e) ≠ "")
         then titleRefs ++ [SourceEntryRef e] else titleRefs)
      else (turnCount, submissions, titleRefs)
    | None => (turnCount, submissions, titleRefs)
    end.

Definition with_Stats (m : UnifiedMetadata) (stats : SessionStats) : UnifiedMetadata :=
  mkMetadata (SchemaVersion m) (m_SessionID m) (ModelHarness m) stats (RootSessionID m) (Purpose m) (Relationships m)
    (ParentUUID m).

Definition applyStrictCounts (g : Generation) (completeness : string) : Generation :=
  let '(turnCount, submissions, titleRefs) := foldl countEntry (0, ∅, []) (Entries (g_Main g)) in
  let count := if decide (completeness = GenerationCompletenessComplete) then Some (Z.of_nat (size submissions)) else None in
  mkGeneration (g_ID g) (g_Completeness g) (with_Stats (g_Metadata g) (mkStats count turnCount)) (g_Main g) (g_Earlier g)
    (Segments g) (g_Content g) (Aliases g) (SourceEvidenceDigest g) titleRefs.

(** ** [buildGenerationAndContent] *)

Section allocator.
Context {A : Type} `{RefAllocator A}.

Definition buildGenerationAndContent (capture : ClassifiedCapture) (alloc : A) :
    result perr (Generation * gmap string string) :=
  let? _u := validateCapture capture in
  let prior := clone (Prior capture) in
  let? resolved := resolveProjectionBlocks capture in
  let? st := allocateBlockRefs resolved prior alloc in
  let '(resolved, alloc) := st in
  let? st := allocateSubmissionRefs resolved prior alloc in
  let '(resolved, _) := st in
  let? st := layoutProjectionPartitions capture resolved in
  let '(partitions, resolved) := st in
  let? partitions := remapToolParents partitions resolved in
  let? partitions := attachProjectionNativeMetadata partitions resolved in
  let? _u := validateProjectionProvenance partitions in
  let? _u := validateInheritedProvenance resolved in
  let? _u := validateUniqueProjectionRefs partitions in
  let? content := buildProjectionContent partitions resolved in
  let? aliases := buildProjectionAliases resolved in
  let? segments := attachInheritedSegmentRefs (cap_Segments capture) resolved in
  let generation := applyStrictCounts
    (mkGeneration (cap_ID capture) (cap_Completeness capture) (cap_Metadata capture) (p_main partitions)
       (p_earlier partitions) segments content.1 aliases (cap_SourceEvidenceDigest capture) [])
    (cap_Completeness capture) in
  match Generation_Validate ValidateSessionRelationships generation with
  | Err e => Err (BadGeneration e)
  | Ok _ => Ok (generation, content.2)
  end.

Definition BuildGeneration (capture : ClassifiedCapture) (alloc : A) : result perr Generation :=
  let? gc := buildGenerationAndContent capture alloc in Ok gc.1.
End allocator.
End build.

(** ** Two captures the builder mishandles *)

#[local] Existing Instance demoSchema.
#[local] Existing Instance demoEvidence.
#[local] Existing Instance demoOrder.
#[local] Existing Instance demoAllocator.

(** A tool call of an inherited carrier: the carrier is never laid out, so the
    call takes its zero index and hangs from an unrelated prompt. *)
Example inherited_carrier_wrong_parent :
  (let? g := BuildGeneration demoRelationships (demoSegmented (demoCapture []
      [demoPrompt "p1" "s1"; demoInherited (demoBlock "turn" 0 false "text" 0 "" "") 0;
       demoBlock "call" 0 false "tool_use" 1 "turn" "c1"] NewProjectionPriorState)) 0%nat in
   Ok ((λ e, (SourceEntryRef e, ParentIndex e)) <$> Entries (g_Main g))) =
  Ok [("r0", None); ("r2", Some 0)].
Proof. by vm_compute. Qed.

(** The section of an inherited block is ignored by the validation and followed
    by its tool call, which then indexes outside the earlier sections. *)
Example inherited_carrier_panics :
  BuildGeneration demoRelationships (demoSegmented (demoCapture []
      [demoPrompt "p1" "s1"; demoInherited (demoBlock "turn" 0 false "text" 0 "" "") 7;
       demoBlock "call" 0 false "tool_use" 1 "turn" "c1"] NewProjectionPriorState)) 0%nat = Err (Bad Panic "call").
Proof. by vm_compute. Qed.
