(* ===== verification/Reprojection.v ===== *)
(** * Projecting again from the stored generation

    A generation's aliases and provenance carry every identity the projection
    allocated: the prior state rebuilt from it ([PriorStateFromGeneration])
    makes a second projection of the same capture reproduce the generation,
    whatever the allocator would mint. *)
From stdpp Require Import pretty.
From S2P Require Import Prelude GoStrings GoText IndexFormat ProjectionIdentity UnionFind Projection GenerationBuild.
Local Open Scope string_scope.
Local Open Scope list_scope.
Local Open Scope Z_scope.
Local Open Scope nat_scope.

Section reprojection.
Context {SL : SchemaLib} {EL : EvidenceLib} {MO : MapOrder}.
Context (ValidateSessionRelationships : option (list SessionRelationship) → bool).

(** ** What the resolution leaves alone *)

(** A resolved block up to its place, its certainty and its mirror. *)
Definition core (rb : resolvedBlock) : ClassifiedBlock * bool := (set_Uncertain (block rb), inherited rb).

Lemma core_insert (l : list resolvedBlock) i x rb : l !! i = Some rb → core x = core rb → core <$> <[i := x]> l = core <$> l.
Proof. intros Hi Hx. rewrite list_fmap_insert, Hx. apply list_insert_id. by rewrite list_lookup_fmap, Hi. Qed.

Lemma core_foldl {B} (f : list resolvedBlock → B → list resolvedBlock) (xs : list B) l :
  (∀ l x, core <$> f l x = core <$> l) → core <$> foldl f l xs = core <$> l.
Proof. intros Hf. revert l. induction xs as [|x xs IH]; intros l; simpl; [done|]. by rewrite IH, Hf. Qed.

Lemma core_followCarrier byKey l i : core <$> followCarrier byKey l i = core <$> l.
Proof.
  unfold followCarrier. destruct (l !! i) as [rb|] eqn:E; [|done]. case_decide; [done|].
  destruct (c ← _; _); [|done]. by eapply core_insert.
Qed.

Lemma core_moveEarlier l i : core <$> moveEarlier l i = core <$> l.
Proof. unfold moveEarlier. destruct (l !! i) as [rb|] eqn:E; [|done]. by eapply core_insert. Qed.

Lemma core_dropMirror owner l i : core <$> dropMirror owner l i = core <$> l.
Proof.
  unfold dropMirror. destruct (l !! owner); [|done]. destruct (l !! i) as [rb|] eqn:E; [|done]. by eapply core_insert.
Qed.

Lemma core_settle byKey hasEarlier l members l' :
  settle byKey hasEarlier l members = Ok l' → core <$> l' = core <$> l.
Proof.
  unfold settle. destruct (existsb _ _); simpl.
  - destruct hasEarlier; simpl; [|done]. intros [= <-]. apply core_foldl, core_moveEarlier.
  - intros [= <-]. apply core_foldl, core_followCarrier.
Qed.

Lemma core_resolveUncertain l byKey hasEarlier l' :
  resolveUncertainSubtrees l byKey hasEarlier = Ok l' → core <$> l' = core <$> l.
Proof.
  unfold resolveUncertainSubtrees. intros (p & _ & Hl)%res_bind_ok.
  destruct (p1 ← _; p2 ← _; _) as [comps|]; [|done]. revert Hl. generalize 0, (range_nat comps).
  intros n cs. revert n l. induction cs as [|c cs IH]; intros n l; simpl; [by intros [= <-]|].
  intros (l1 & Hs & Hl)%res_bind_ok. rewrite (IH _ _ Hl). by eapply core_settle.
Qed.

Lemma core_collapse l : core <$> collapseProvedMirrors l = core <$> l.
Proof.
  apply core_foldl. intros l0 [k [|owner mirrors]]; simpl; [done|]. apply core_foldl, core_dropMirror.
Qed.

Lemma core_markUncertain hasEarlier l l' :
  res_map (markUncertain hasEarlier) l = Ok l' → core <$> l' = core <$> l.
Proof.
  revert l'. induction l as [|rb l IH]; intros l'; simpl; [by intros [= <-]|].
  intros (rb' & Hrb & (l1 & Hl & [= <-])%res_bind_ok)%res_bind_ok. csimpl. rewrite (IH _ Hl). f_equal. clear IH Hl.
  unfold markUncertain in Hrb. destruct (inherited rb); [by simplify_eq|].
  apply res_bind_ok in Hrb as (rb1 & H1 & H2).
  assert (core rb1 = core rb) as <-.
  { case_decide; [by simplify_eq|]. apply res_guard_ok in H1 as [_ [= <-]]. done. }
  destruct (UncertainSubtree _); [|by simplify_eq]. by apply res_guard_ok in H2 as [_ [= <-]].
Qed.

(** The keys of a resolved capture are its blocks' and are distinct. *)
Lemma indexBlock_fold bs : ∀ n st st', res_fold indexBlock n st bs = Ok st' →
  core <$> st'.1 = (core <$> st.1) ++ ((λ b, (set_Uncertain b, Inherited b)) <$> bs) ∧
  NoDup (b_NativeKey <$> bs) ∧
  (∀ b, b ∈ bs → st.2 !! b_NativeKey b = None ∧ TrimSpace (b_NativeKey b) ≠ "").
Proof.
  induction bs as [|b bs IH]; intros n st st'; simpl.
  { intros [= <-]. split_and!; [by rewrite app_nil_r|constructor|set_solver]. }
  intros (st1 & Hb & Hrest)%res_bind_ok. unfold indexBlock in Hb. rewrite !res_guard_ok in Hb.
  destruct Hb as (Htrim & Hfresh & [= <-]). bool_prop. destruct (IH _ _ _ Hrest) as (Hc & Hnd & Hnew). simpl in *.
  split_and!.
  - rewrite Hc. rewrite fmap_app. csimpl. by rewrite <- app_assoc.
  - constructor; [|done]. intros (b' & Hk & Hb')%list_elem_of_fmap. destruct (Hnew b' Hb') as [Hn _].
    rewrite Hk, lookup_insert_eq in Hn. done.
  - intros b' [->|Hb']%elem_of_cons; [done|]. destruct (Hnew b' Hb') as [Hn ?]. split; [|done].
    apply lookup_insert_None in Hn. tauto.
Qed.

Lemma resolve_core capture resolved : resolveProjectionBlocks capture = Ok resolved →
  core <$> resolved = (λ b, (set_Uncertain b, Inherited b)) <$> Blocks capture ∧
  NoDup (key_of <$> resolved) ∧ ∀ rb, rb ∈ resolved → key_of rb ≠ "".
Proof.
  unfold resolveProjectionBlocks. intros ([l byKey] & Hi & H1)%res_bind_ok. simpl in H1.
  apply res_bind_ok in H1 as (l1 & Hm & H1). apply res_bind_ok in H1 as (l2 & Hu & H1).
  apply res_seq_ok in H1 as [_ [= <-]].
  destruct (indexBlock_fold _ _ _ _ Hi) as (Hc & Hnd & Hkeys). simpl in *.
  assert (core <$> collapseProvedMirrors l2 = (λ b, (set_Uncertain b, Inherited b)) <$> Blocks capture) as Hcore.
  { by rewrite core_collapse, (core_resolveUncertain _ _ _ _ Hu), (core_markUncertain _ _ _ Hm), Hc. }
  assert (key_of <$> collapseProvedMirrors l2 = b_NativeKey <$> Blocks capture) as Hk.
  { transitivity ((λ c : ClassifiedBlock * bool, b_NativeKey c.1) <$> (core <$> collapseProvedMirrors l2)).
    - by rewrite <- list_fmap_compose.
    - rewrite Hcore, <- list_fmap_compose. done. }
  split_and!; [done|by rewrite Hk|]. intros rb Hrb.
  assert (key_of rb ∈ b_NativeKey <$> Blocks capture) as (b & -> & Hb)%list_elem_of_fmap
    by (rewrite <- Hk; by apply list_elem_of_fmap_2).
  destruct (Hkeys b Hb) as [_ Hne]. intros E. apply Hne. by rewrite E.
Qed.

(** ** Block references *)

(** The schema's reference types refuse an empty reference. *)
Hypothesis EntryRef_nonempty : SourceEntryRef_Validate "" = false.
Hypothesis SubmissionRef_nonempty : SubmissionRef_Validate "" = false.

Definition assigned (rb rb' : resolvedBlock) : Prop := rb' = if dropped rb then rb else set_ref rb (ref rb').

(** Two undropped blocks of [l] with one reference are one block. *)
Definition distinct_refs (l : list resolvedBlock) : Prop :=
  ∀ i j x y, l !! i = Some x → l !! j = Some y → dropped x = false → dropped y = false → ref x = ref y → i = j.

Section alloc.
Context {A : Type} `{!RefAllocator A}.

Lemma allocateBlockRef_ok prior n out used (alloc : A) rb st :
  allocateBlockRef prior n (out, used, alloc) rb = Ok st →
  ∃ rb', assigned rb rb' ∧ st.1.1 = out ++ [rb'] ∧
    (if dropped rb then st.1.2 = used ∧ st.2 = alloc
     else used !! ref rb' = None ∧ SourceEntryRef_Validate (ref rb') = true ∧ st.1.2 = <[ref rb' := key_of rb]> used).
Proof.
  unfold allocateBlockRef, assigned. destruct (dropped rb) eqn:Hd.
  { intros [= <-]. by exists rb. }
  intros (pref & Hp & ([r al] & Hf & (Hu & Hst)%res_guard_ok)%res_bind_ok)%res_bind_ok. simplify_eq/=.
  exists (set_ref rb r). split_and!; [done|done|by bool_prop| |done].
  destruct (bool_decide (pref = "") || _) eqn:Hfresh.
  - destruct (NewEntryRef alloc) as [[fresh al']|]; [|done]. apply res_guard_ok in Hf as [? [= -> ->]]. done.
  - bool_prop. simplify_eq. destruct (prior_Entries prior !! key_of rb); [|by simplify_eq].
    by apply res_guard_ok in Hp as [? [= ->]].
Qed.

(** The same assignment comes out of any prior state that records it. *)
Lemma allocateBlockRef_again {A'} `{!RefAllocator A'} prior' n out used (alloc' : A') rb rb' :
  assigned rb rb' → (dropped rb = false → used !! ref rb' = None ∧ SourceEntryRef_Validate (ref rb') = true ∧
    prior_Entries prior' !! key_of rb = Some (ref rb')) →
  allocateBlockRef prior' n (out, used, alloc') rb =
  Ok (out ++ [rb'], if dropped rb then used else <[ref rb' := key_of rb]> used, alloc').
Proof.
  unfold allocateBlockRef, assigned. intros Has Hok. destruct (dropped rb) eqn:Hd; [by subst|].
  destruct Hok as (Hu & Hv & ->); [done|]. unfold res_guard. rewrite Hv. simpl.
  rewrite bool_decide_false by (intros E; rewrite E in Hv; congruence). rewrite Hu. simpl. rewrite <- Has. by rewrite bool_decide_true.
Qed.

Lemma allocateBlockRefs_fold prior l : ∀ n out used (alloc : A) st,
  res_fold (allocateBlockRef prior) n (out, used, alloc) l = Ok st →
  ∃ l', st.1.1 = out ++ l' ∧ Forall2 assigned l l' ∧
    (∀ rb, rb ∈ l' → dropped rb = false → used !! ref rb = None ∧ SourceEntryRef_Validate (ref rb) = true) ∧
    distinct_refs l' ∧
    (∀ A' (RA' : RefAllocator A') prior' (alloc' : A'),
       (∀ rb, rb ∈ l' → dropped rb = false → prior_Entries prior' !! key_of rb = Some (ref rb)) →
       res_fold (allocateBlockRef prior') n (out, used, alloc') l = Ok (st.1, alloc')).
Proof.
  induction l as [|rb l IH]; intros n out used alloc st; simpl.
  { intros [= <-]. exists []. split_and!; [by rewrite app_nil_r|constructor|set_solver|by intros ? ? ? ? ?|done]. }
  intros ([[out1 used1] al1] & H1 & Hrest)%res_bind_ok.
  destruct (allocateBlockRef_ok prior n out used alloc rb _ H1) as (rb' & Has & Hout & Hin). simpl in Hout, Hin.
  destruct (IH _ _ _ _ _ Hrest) as (l' & Hl & Hf2 & Hval & Hdis & Hagain). subst out1.
  assert (dropped rb' = dropped rb ∧ key_of rb' = key_of rb) as [Hd Hk].
  { rewrite Has. destruct (dropped rb) eqn:E; simpl; by rewrite ?E. }
  exists (rb' :: l'). split_and!.
  - by rewrite Hl, <- app_assoc.
  - by constructor.
  - intros x [->|Hx]%elem_of_cons Hdx.
    + rewrite Hd in Hdx. rewrite Hdx in Hin. tauto.
    + destruct (Hval x Hx Hdx) as [Hu ?]. split; [|done]. destruct (dropped rb); [by destruct Hin as [<- _]|].
      destruct Hin as (_ & _ & ->). by apply lookup_insert_None in Hu as [? _].
  - intros [|i] [|j] x y Hx Hy Hdx Hdy Hr; simplify_eq/=; [done|exfalso|exfalso|f_equal; by eapply Hdis].
    + rewrite Hd in Hdx. rewrite Hdx in Hin. destruct Hin as (_ & _ & ->).
      destruct (Hval y) as [Hu _]; [by eapply list_elem_of_lookup_2|done|]. by rewrite Hr, lookup_insert_eq in Hu.
    + rewrite Hd in Hdy. rewrite Hdy in Hin. destruct Hin as (_ & _ & ->).
      destruct (Hval x) as [Hu _]; [by eapply list_elem_of_lookup_2|done|]. by rewrite <- Hr, lookup_insert_eq in Hu.
  - intros A' RA' prior' alloc' Hp. setoid_rewrite (allocateBlockRef_again prior' n out used alloc' rb rb' Has).
    + simpl. replace (if dropped rb then used else <[ref rb' := key_of rb]> used) with used1.
      * apply Hagain. intros x Hx. apply Hp. by right.
      * destruct (dropped rb); tauto.
    + intros Hdr. rewrite Hdr in Hin. destruct Hin as (? & ? & _). split_and!; [done..|].
      rewrite <- Hk. apply Hp; [by left|congruence].
Qed.

(** What [allocateBlockRefs] leaves of each block. *)
Lemma allocateBlockRefs_ok l prior (alloc : A) l1 alloc1 :
  allocateBlockRefs l prior alloc = Ok (l1, alloc1) →
  core <$> l1 = core <$> l ∧ dropped <$> l1 = dropped <$> l ∧ distinct_refs l1 ∧
  (∀ rb, rb ∈ l1 → dropped rb = false → SourceEntryRef_Validate (ref rb) = true) ∧
  (∀ A' (RA' : RefAllocator A') prior' (alloc' : A'),
     (∀ rb, rb ∈ l1 → dropped rb = false → prior_Entries prior' !! key_of rb = Some (ref rb)) →
     allocateBlockRefs l prior' alloc' = Ok (l1, alloc')).
Proof.
  unfold allocateBlockRefs. intros ([[mid used] al] & Hfold & [= <- <-])%res_bind_ok.
  destruct (allocateBlockRefs_fold _ _ _ _ _ _ _ Hfold) as (l' & Hl & Hf2 & Hval & Hdis & Hagain).
  simpl in *. subst l'.
  assert (∀ rb, core (aliasMirror mid rb) = core rb ∧ dropped (aliasMirror mid rb) = dropped rb ∧
            key_of (aliasMirror mid rb) = key_of rb ∧ (dropped rb = false → aliasMirror mid rb = rb)) as Hal.
  { intros rb. unfold aliasMirror. destruct (dropped rb) eqn:E; [|done]. by destruct (owner ← _; _). }
  assert (core <$> mid = core <$> l ∧ dropped <$> mid = dropped <$> l) as [Hcore Hdr].
  { clear -Hf2. induction Hf2 as [|x y l l' Hxy _ [IH1 IH2]]; [done|]. csimpl. rewrite IH1, IH2. unfold assigned in Hxy. destruct (dropped x) eqn:E; rewrite Hxy; split; simpl; by rewrite ?E. }
  split_and!.
  - rewrite <- Hcore, <- list_fmap_compose. apply list_fmap_ext. intros _ rb _. apply Hal.
  - rewrite <- Hdr, <- list_fmap_compose. apply list_fmap_ext. intros _ rb _. apply Hal.
  - intros i j x y. rewrite !list_lookup_fmap. intros (x0 & Hx & ->)%fmap_Some (y0 & Hy & ->)%fmap_Some Hdx Hdy.
    destruct (Hal x0) as (_ & Ed & _ & Ex). destruct (Hal y0) as (_ & Ed' & _ & Ey).
    rewrite Ex, Ey by congruence. intros. by eapply Hdis; [exact Hx|exact Hy|congruence..].
  - intros rb (x & -> & Hx)%list_elem_of_fmap Hdx. destruct (Hal x) as (_ & Ed & _ & Ex).
    rewrite Ex by congruence. apply Hval; [done|congruence].
  - intros A' RA' prior' alloc' Hp. rewrite (Hagain A' RA' prior' alloc'); [done|].
    intros rb Hrb Hd. destruct (Hal rb) as (_ & Ed & Ek & Ex).
    rewrite <- Ek. rewrite <- (Ex Hd) at 2. apply Hp; [by apply list_elem_of_fmap_2|congruence].
Qed.

(** ** Submission references *)

(** A block the submission pass looks at. *)
Definition submits (rb : resolvedBlock) : Prop := dropped rb = false ∧ SubmissionKey (block rb) ≠ "".

Definition submitted (rb : resolvedBlock) : Prop :=
  ∃ p, b_Provenance (block rb) = Some p ∧ p_Origin p = ContentOriginSubmittedInput.

Lemma allocateSubmissionRef_ok prior n byKey (alloc : A) rb st :
  (∀ k x r, byKey !! k = Some x → prior_Submissions prior !! k = Some r → x = r) →
  allocateSubmissionRef prior n (byKey, alloc) rb = Ok st →
  byKey ⊆ st.1 ∧ (∀ k x r, st.1 !! k = Some x → prior_Submissions prior !! k = Some r → x = r) ∧
  (submits rb → submitted rb ∧ is_Some (st.1 !! SubmissionKey (block rb))) ∧
  (∀ k x, st.1 !! k = Some x → byKey !! k = Some x ∨ prior_Submissions prior !! k = Some x ∨ x ≠ "").
Proof.
  unfold allocateSubmissionRef, submits, submitted. intros Hinv.
  destruct (dropped rb); simpl; [intros [= <-]; split_and!; naive_solver|].
  case_bool_decide as Hk; [intros [= <-]; split_and!; naive_solver|].
  destruct (b_Provenance (block rb)) as [p|]; [|done]. intros [Ho Hst]%res_guard_ok. bool_prop.
  set (k := SubmissionKey (block rb)) in *.
  assert (∀ ref, (byKey !! k = None ∨ byKey !! k = Some ref) → byKey ⊆ <[k := ref]> byKey) as Hsub.
  { intros ref [?|?]; [by apply insert_subseteq|]. by rewrite insert_id. }
  destruct (prior_Submissions prior !! k) as [ref|] eqn:Hp.
  { simplify_eq/=. split_and!.
    - apply Hsub. destruct (byKey !! k) as [x|] eqn:E; [right; f_equal; by eapply Hinv|by left].
    - intros k' x r [[<- <-]|[? ?]]%lookup_insert_Some ?; [congruence|by eapply Hinv].
    - intros _. split; [by eauto|]. by rewrite lookup_insert_eq.
    - intros k' x [[<- <-]|[? ?]]%lookup_insert_Some; tauto. }
  destruct (byKey !! k) as [x|] eqn:E; [simplify_eq/=; split_and!; [done|done|by eauto|by left]|].
  destruct (NewSubmissionRef alloc) as [[ref al]|]; [|done]. apply res_guard_ok in Hst as [Hv [= <-]]. simpl.
  split_and!.
  - apply Hsub. by left.
  - intros k' x r [[<- <-]|[? ?]]%lookup_insert_Some ?; [congruence|by eapply Hinv].
  - intros _. split; [by eauto|]. by rewrite lookup_insert_eq.
  - intros k' x [[<- <-]|[? ?]]%lookup_insert_Some; [|by left]. right. right. intros ->. congruence.
Qed.

Lemma allocateSubmissionRefs_fold prior l : ∀ n byKey (alloc : A) st,
  (∀ k x r, byKey !! k = Some x → prior_Submissions prior !! k = Some r → x = r) →
  res_fold (allocateSubmissionRef prior) n (byKey, alloc) l = Ok st →
  byKey ⊆ st.1 ∧ (∀ k x r, st.1 !! k = Some x → prior_Submissions prior !! k = Some r → x = r) ∧
  (∀ rb, rb ∈ l → submits rb → submitted rb ∧ is_Some (st.1 !! SubmissionKey (block rb))) ∧
  (∀ k x, st.1 !! k = Some x → byKey !! k = Some x ∨ prior_Submissions prior !! k = Some x ∨ x ≠ "").
Proof.
  induction l as [|rb l IH]; intros n byKey alloc st Hinv Hf.
  { simpl in Hf. simplify_eq/=. split_and!; [done|done|set_solver|by left]. }
  cbn [res_fold] in Hf. apply res_bind_ok in Hf as ([byKey1 al1] & H1 & Hrest).
  destruct (allocateSubmissionRef_ok _ n _ _ _ _ Hinv H1) as (Hs1 & Hinv1 & Hrb & Hval1). simpl in *.
  destruct (IH _ _ _ _ Hinv1 Hrest) as (Hs2 & Hinv2 & Hl & Hval2). split_and!; [by etrans|done| |].
  - intros x [->|Hx]%elem_of_cons Hsub; [|by apply Hl]. destruct (Hrb Hsub) as [? [r Hr]]. split; [done|].
    exists r. by eapply lookup_weaken.
  - intros k x Hx. destruct (Hval2 k x Hx) as [Hb|?]; [|tauto]. destruct (Hval1 k x Hb); tauto.
Qed.

(** Any prior state that knows the submitting keys allocates nothing. *)
Lemma allocateSubmissionRefs_known prior l : ∀ n byKey (alloc : A),
  (∀ rb, rb ∈ l → submits rb → submitted rb ∧ is_Some (prior_Submissions prior !! SubmissionKey (block rb))) →
  ∃ byKey', res_fold (allocateSubmissionRef prior) n (byKey, alloc) l = Ok (byKey', alloc).
Proof.
  induction l as [|rb l IH]; intros n byKey alloc Hl; [by eexists|]. cbn [res_fold].
  assert (∃ byKey1, allocateSubmissionRef prior n (byKey, alloc) rb = Ok (byKey1, alloc)) as (byKey1 & ->).
  { unfold allocateSubmissionRef. destruct (dropped rb) eqn:Hd; simpl; [by eexists|]. case_bool_decide as Hk; [by eexists|].
    destruct (Hl rb) as ((p & -> & ->) & r & ->); [by left|done|]. unfold res_guard. rewrite bool_decide_true by done.
    by eexists. }
  apply IH. intros x Hx. apply Hl. by right.
Qed.
End alloc.

Lemma nothing_bound (m : gmap string string) k x r : (∅ : gmap string string) !! k = Some x → m !! k = Some r → x = r.
Proof. by intros ?%lookup_empty_Some. Qed.

Lemma allocateSubmissionRefs_ok {A} `{!RefAllocator A} l prior (alloc : A) l2 alloc2 :
  (∀ k r, prior_Submissions prior !! k = Some r → r ≠ "") →
  allocateSubmissionRefs l prior alloc = Ok (l2, alloc2) →
  ∃ byKey, l2 = stampSubmission byKey <$> l ∧
    (∀ rb, rb ∈ l → submits rb → submitted rb ∧ ∃ r, byKey !! SubmissionKey (block rb) = Some r ∧ r ≠ "") ∧
    (∀ A' (RA' : RefAllocator A') prior' (alloc' : A'),
       (∀ rb, rb ∈ l → submits rb → prior_Submissions prior' !! SubmissionKey (block rb) = byKey !! SubmissionKey (block rb)) →
       allocateSubmissionRefs l prior' alloc' = Ok (l2, alloc')).
Proof.
  intros Hne. unfold allocateSubmissionRefs. intros ([byKey al] & Hf & [= <- <-])%res_bind_ok.
  destruct (allocateSubmissionRefs_fold _ _ _ _ _ _ (nothing_bound _) Hf) as (_ & _ & Hl & Hval). simpl in *.
  exists byKey. split_and!; [done| |].
  - intros rb Hrb Hs. destruct (Hl rb Hrb Hs) as [? [r Hr]]. split; [done|]. exists r. split; [done|].
    destruct (Hval _ _ Hr) as [Hn|[?|?]]; [by apply lookup_empty_Some in Hn|by eapply Hne|done].
  - intros A' RA' prior' alloc' Hp.
    destruct (allocateSubmissionRefs_known prior' l 0 ∅ alloc') as (byKey' & Hf').
    { intros rb Hrb Hs. destruct (Hl rb Hrb Hs). by rewrite Hp. }
    rewrite Hf'. simpl. do 2 f_equal.
    destruct (allocateSubmissionRefs_fold _ _ _ _ _ _ (nothing_bound _) Hf') as (_ & Hinv & Hl' & _). simpl in *.
    apply list_fmap_ext. intros i rb Hi%list_elem_of_lookup_2. unfold stampSubmission.
    destruct (dropped rb) eqn:Hd; simpl; [done|]. case_bool_decide as Hk; [done|].
    destruct (b_Provenance _); [|done]. do 5 f_equal.
    destruct (Hl rb Hi (conj Hd Hk)) as [_ [r Hr]]. destruct (Hl' rb Hi (conj Hd Hk)) as [_ [r' Hr']].
    rewrite Hr, Hr'. f_equal. eapply Hinv; [done|]. by rewrite Hp.
Qed.

(** ** Aliases *)

(** A proof by cases on whether a step encodes its key. *)
Lemma encodeBlock_Some k key : encodeBlockAliasKey k = Some key → key = projectionBlockAliasPrefix +:+ k.
Proof. by intros [? _]%encodeAliasKey_Some. Qed.
Lemma encodeSubmission_Some k key : encodeSubmissionAliasKey k = Some key → key = projectionAcceptAliasPrefix +:+ k.
Proof. by intros [? _]%encodeAliasKey_Some. Qed.

(** The second component of the first loop: the first reference of each key. *)
Lemma firstSubmission l : ∀ n st st', res_fold aliasBlock n st l = Ok st' →
  (∀ k v, st.2 !! k = Some v → st'.2 !! k = Some v) ∧
  (∀ k v, st'.2 !! k = Some v → st.2 !! k = Some v ∨
     ∃ rb, rb ∈ l ∧ submits rb ∧ SubmissionKey (block rb) = k ∧ v = ref rb) ∧
  (∀ rb, rb ∈ l → submits rb → is_Some (st'.2 !! SubmissionKey (block rb))).
Proof.
  induction l as [|rb l IH]; intros n st st' Hf; simpl in Hf.
  { simplify_eq. split_and!; [done|by left|set_solver]. }
  apply res_bind_ok in Hf as (st1 & H1 & Hrest). destruct (IH _ _ _ Hrest) as (Hk & Hfrom & Hall).
  assert ((∀ k v, st.2 !! k = Some v → st1.2 !! k = Some v) ∧
    (∀ k v, st1.2 !! k = Some v → st.2 !! k = Some v ∨ submits rb ∧ SubmissionKey (block rb) = k ∧ v = ref rb) ∧
    (submits rb → is_Some (st1.2 !! SubmissionKey (block rb)))) as (Hk1 & Hfrom1 & Hall1).
  { unfold aliasBlock, submits in *. destruct (dropped rb); [simplify_eq; split_and!; naive_solver|].
    destruct (encodeBlockAliasKey _); [|done]. simplify_eq/=. case_decide as Hs; [split_and!; naive_solver|].
    destruct (st.2 !! SubmissionKey (block rb)) as [v0|] eqn:E; [split_and!; eauto|].
    split_and!.
    - intros k v Hv. rewrite lookup_insert_ne; [done|]. intros <-. congruence.
    - intros k v [[<- <-]|[_ ?]]%lookup_insert_Some; [by right|by left].
    - intros _. by rewrite lookup_insert_eq. }
  split_and!; [auto| |].
  - intros k v Hv. destruct (Hfrom k v Hv) as [Hv1|(x & ? & ?)]; [|right; exists x; split; [by right|done]].
    destruct (Hfrom1 k v Hv1) as [?|(? & ? & ?)]; [by left|]. right. exists rb. split; [by left|done].
  - intros x [->|Hx]%elem_of_cons Hs; [|auto]. destruct (Hall1 Hs) as [v Hv]. exists v. auto.
Qed.

Lemma res_map_ok {E X Y} (f : X → result E Y) l ys : res_map f l = Ok ys ↔ Forall2 (λ x y, f x = Ok y) l ys.
Proof.
  revert ys. induction l as [|x l IH]; intros ys; simpl.
  - split; [by intros [= <-]|by inversion 1].
  - rewrite res_bind_ok. setoid_rewrite res_bind_ok. split.
    + intros (y & Hy & ys' & Hys & [= <-]). constructor; [done|by apply IH].
    + inversion 1; subst. eexists. split; [done|]. eexists. split; [by apply IH|done].
Qed.

Lemma prefix_inj p a b : p +:+ a = p +:+ b → a = b.
Proof. intros E. by rewrite <- (TrimPrefix_app p a), E, TrimPrefix_app. Qed.

Lemma accept_ne_block s k : projectionAcceptAliasPrefix +:+ s ≠ projectionBlockAliasPrefix +:+ k.
Proof. done. Qed.

(** The three loops as writes. *)
Section alias_loops.
Context (res : list resolvedBlock).
Hypothesis keys_NoDup : NoDup (key_of <$> res).

Lemma key_of_inj x y : x ∈ res → y ∈ res → key_of x = key_of y → x = y.
Proof. by apply NoDup_fmap_unique. Qed.

Lemma aliasBlock_loop st : res_fold aliasBlock 0 (∅, ∅) res = Ok st →
  ∀ rb, rb ∈ res → dropped rb = false → st.1 !! (projectionBlockAliasPrefix +:+ key_of rb) = Some (ref rb).
Proof.
  intros Hf rb Hrb Hd.
  pose (kv rb := if dropped rb then None else Some (projectionBlockAliasPrefix +:+ key_of rb, ref rb)).
  refine (proj1 (written_map aliasBlock fst kv _ res 0 (∅, ∅) st _ Hf) rb _ _ Hrb _); [| |by unfold kv; rewrite Hd].
  - intros i s x s' Hx. unfold aliasBlock in Hx. unfold kv. destruct (dropped x); [by simplify_eq|].
    destruct (encodeBlockAliasKey _) as [key|] eqn:Ek; [|done]. apply encodeBlock_Some in Ek as ->. by simplify_eq.
  - intros x y k v v' Hx Hy. unfold kv. destruct (dropped x), (dropped y); try done. intros [= <- <-] [= E <-].
    f_equal. apply key_of_inj; [done..|]. by apply prefix_inj in E.
Qed.

Lemma aliasDropped_loop b b' : res_fold (aliasDropped res) 0 b res = Ok b' →
  ∀ k, (∀ rb, rb ∈ res → dropped rb = true → k ≠ projectionBlockAliasPrefix +:+ key_of rb) → b' !! k = b !! k.
Proof.
  intros Hf k Hk.
  pose (kv rb := if dropped rb then match owner ← dropTo rb; res !! owner with
       Some o => Some (projectionBlockAliasPrefix +:+ key_of rb, ref o) | None => None end else None).
  refine (proj2 (written_map (aliasDropped res) id kv _ res 0 b b' _ Hf) k _).
  - intros i s x s' Hx. unfold aliasDropped in Hx. unfold kv, id. destruct (dropped x); simpl in Hx; [|by simplify_eq].
    destruct (encodeBlockAliasKey _) as [key|] eqn:Ek; [|done]. apply encodeBlock_Some in Ek as ->.
    by destruct (owner ← _; _); simplify_eq.
  - intros x y j v v' Hx Hy. unfold kv. destruct (dropped x), (dropped y); try done.
    destruct (owner ← dropTo x; _) eqn:Ex; [|done]. destruct (owner ← dropTo y; _) eqn:Ey; [|done].
    intros [= <- <-] [= E <-]. apply prefix_inj, key_of_inj in E; [|done..]. congruence.
  - intros x v Hx Hkv. unfold kv in Hkv. destruct (dropped x) eqn:Hd; [|done].
    destruct (owner ← _; _); [|done]. simplify_eq. by apply (Hk x).
Qed.

Lemma aliasSubmission_loop b b' (s : gmap string string) : res_fold aliasSubmission 0 b (range_str s) = Ok b' →
  (∀ k r, s !! k = Some r → b' !! (projectionAcceptAliasPrefix +:+ k) = Some r) ∧
  (∀ k, b' !! (projectionBlockAliasPrefix +:+ k) = b !! (projectionBlockAliasPrefix +:+ k)).
Proof.
  intros Hf. pose (kv (x : string * string) := Some (projectionAcceptAliasPrefix +:+ x.1, x.2)).
  destruct (written_map aliasSubmission id kv) with (l := range_str s) (n := 0) (s := b) (s' := b') as [Hin Hout]; [| |done|].
  - intros i m x m' Hx. unfold aliasSubmission in Hx. unfold kv, id.
    destruct (encodeSubmissionAliasKey _) as [key|] eqn:Ek; [|done]. apply encodeSubmission_Some in Ek as ->.
    by apply res_guard_ok in Hx as [_ [= <-]].
  - intros [k1 r1] [k2 r2] j v v' H1%elem_of_range_str H2%elem_of_range_str [= <- <-] [= E <-]. simpl in *.
    apply prefix_inj in E. congruence.
  - split.
    + intros k r Hr%elem_of_range_str. by apply (Hin (k, r)).
    + intros k. apply Hout. by intros [k' r] v _ [= E _].
Qed.
End alias_loops.

(** The persisted aliases: one per key, the allocated reference of every kept
    block, and of each submission one of its blocks. *)
Lemma buildProjectionAliases_ok res als :
  NoDup (key_of <$> res) → buildProjectionAliases res = Ok als →
  NoDup (NativeKey <$> als) ∧
  (∀ rb, rb ∈ res → dropped rb = false → mkAlias (projectionBlockAliasPrefix +:+ key_of rb) (ref rb) ∈ als) ∧
  (∀ rb, rb ∈ res → submits rb → ∃ rb0, rb0 ∈ res ∧ submits rb0 ∧ SubmissionKey (block rb0) = SubmissionKey (block rb) ∧
     mkAlias (projectionAcceptAliasPrefix +:+ SubmissionKey (block rb)) (ref rb0) ∈ als).
Proof.
  intros Hnd. unfold buildProjectionAliases. intros ([b s] & H1 & (b2 & H2 & (b3 & H3 & Hals)%res_bind_ok)%res_bind_ok)%res_bind_ok.
  simpl in *. set (keys := sort_strings _) in Hals.
  assert (als = (λ k, mkAlias k (default "" (b3 !! k))) <$> keys) as ->.
  { clear -Hals. apply res_map_ok in Hals. induction Hals as [|k a ks l Ha _ IH]; [done|]. csimpl. rewrite <- IH. f_equal.
    simpl in Ha. by destruct (NativeAlias_Validate _ _); simplify_eq. }
  assert (NoDup keys) as Hndk.
  { unfold keys. rewrite sort_strings_perm, range_str_perm. apply NoDup_fst_map_to_list. }
  assert (∀ k v, b3 !! k = Some v → mkAlias k v ∈ (λ k, mkAlias k (default "" (b3 !! k))) <$> keys) as Hin.
  { intros k v Hv. apply list_elem_of_fmap. exists k. rewrite Hv. split; [done|]. unfold keys.
    rewrite sort_strings_perm. apply list_elem_of_fmap. exists (k, v). split; [done|].
    by apply elem_of_range_str. }
  pose proof (aliasBlock_loop res Hnd _ H1) as Hb. pose proof (aliasDropped_loop res Hnd _ _ H2) as Hb2.
  destruct (aliasSubmission_loop _ _ _ H3) as [Hacc Hblk]. destruct (firstSubmission _ _ _ _ H1) as (_ & Hfrom & Hall).
  simpl in *. split_and!.
  - rewrite <- list_fmap_compose. simpl. by rewrite list_fmap_id.
  - intros rb Hrb Hd. apply Hin. rewrite Hblk, Hb2; [by apply Hb|]. intros x Hx Hdx E.
    apply prefix_inj, (key_of_inj res Hnd) in E; [|done..]. congruence.
  - intros rb Hrb Hs. destruct (Hall rb Hrb Hs) as [v Hv]. destruct (Hfrom _ _ Hv) as [Hn|(rb0 & ? & ? & ? & ->)];
      [by apply lookup_empty_Some in Hn|]. exists rb0. split_and!; [done..|]. by apply Hin, Hacc.
Qed.

(** ** The prior state rebuilt from aliases *)

Lemma recordAlias_other byRef st alias k :
  NativeKey alias ≠ projectionBlockAliasPrefix +:+ k →
  prior_Entries (recordAlias byRef st alias) !! k = prior_Entries st !! k.
Proof.
  intros Hne. unfold recordAlias. destruct (HasPrefix (NativeKey alias) projectionBlockAliasPrefix) eqn:E.
  - simpl. apply HasPrefix_iff in E as [rest E]. rewrite E, TrimPrefix_app in *. rewrite lookup_insert_ne; [done|]. by intros ->.
  - destruct (HasPrefix _ projectionAcceptAliasPrefix); [|done]. destruct (byRef !! _); [|done]. by case_decide.
Qed.

Lemma recordAlias_other_sub byRef st alias k :
  NativeKey alias ≠ projectionAcceptAliasPrefix +:+ k →
  prior_Submissions (recordAlias byRef st alias) !! k = prior_Submissions st !! k.
Proof.
  intros Hne. unfold recordAlias. destruct (HasPrefix (NativeKey alias) projectionBlockAliasPrefix); [done|].
  destruct (HasPrefix (NativeKey alias) projectionAcceptAliasPrefix) eqn:E; [|done].
  apply HasPrefix_iff in E as [rest E]. rewrite E, TrimPrefix_app in *.
  destruct (byRef !! _); [|done]. case_decide; [|done]. simpl. rewrite lookup_insert_ne; [done|]. by intros ->.
Qed.

(** A write that no later element repeats is what the fold leaves. *)
Lemma foldl_last_write {X Y St} (step : St → X → St) (get : St → Y) (own : X → Prop) v a l : ∀ st,
  (∀ st, own a → get (step st a) = v) → (∀ st x, ¬ own x → get (step st x) = get st) → own a →
  (∀ x, x ∈ l → own x → x = a) → a ∈ l → NoDup l → get (foldl step st l) = v.
Proof.
  intros st Ha Hother Hown. revert st. induction l as [|x l IH]; intros st Huniq Hin Hnd; [set_solver|].
  inversion Hnd; subst. simpl. apply elem_of_cons in Hin as [<-|Hin]; [|by apply IH; [set_solver|..]].
  assert (∀ st, (∀ x, x ∈ l → ¬ own x) → get (foldl step st l) = get st) as Hskip.
  { clear -Hother. induction l as [|y l IH]; intros st Hno; [done|]. simpl. rewrite IH by set_solver. apply Hother. set_solver. }
  rewrite Hskip; [by apply Ha|]. intros y Hy Hoy. rewrite (Huniq y) in Hy; [done|by right|done].
Qed.

Lemma PriorState_entry g k r :
  NoDup (NativeKey <$> Aliases g) → mkAlias (projectionBlockAliasPrefix +:+ k) r ∈ Aliases g →
  prior_Entries (PriorStateFromGeneration g) !! k = Some r.
Proof.
  intros Hnd Hin. unfold PriorStateFromGeneration.
  eapply (foldl_last_write _ (λ st, prior_Entries st !! k) (λ a, NativeKey a = projectionBlockAliasPrefix +:+ k) _
    (mkAlias (projectionBlockAliasPrefix +:+ k) r));
    [| |done| |exact Hin|by eapply NoDup_fmap_1].
  - intros st _. unfold recordAlias. cbn [NativeKey]. rewrite HasPrefix_app, TrimPrefix_app. simpl. by rewrite lookup_insert_eq.
  - intros st x. apply recordAlias_other.
  - intros x Hx Hk. by eapply (NoDup_fmap_unique NativeKey).
Qed.

Lemma PriorState_submission g k r p :
  NoDup (NativeKey <$> Aliases g) → mkAlias (projectionAcceptAliasPrefix +:+ k) r ∈ Aliases g →
  generationProvenance g !! r = Some p → p_SubmissionRef p ≠ "" →
  prior_Submissions (PriorStateFromGeneration g) !! k = Some (p_SubmissionRef p).
Proof.
  intros Hnd Hin Hr Hne. unfold PriorStateFromGeneration.
  eapply (foldl_last_write _ (λ st, prior_Submissions st !! k) (λ a, NativeKey a = projectionAcceptAliasPrefix +:+ k) _
    (mkAlias (projectionAcceptAliasPrefix +:+ k) r));
    [| |done| |exact Hin|by eapply NoDup_fmap_1].
  - intros st _. unfold recordAlias. cbn [NativeKey]. rewrite accept_not_block, HasPrefix_app, TrimPrefix_app.
    simpl. rewrite Hr, decide_True by done. simpl. by rewrite lookup_insert_eq.
  - intros st x. apply recordAlias_other_sub.
  - intros x Hx Hk. by eapply (NoDup_fmap_unique NativeKey).
Qed.

(** ** Provenance of the emitted entries *)

Lemma generationProvenance_entries g ps :
  g_Main g = p_main ps → g_Earlier g = p_earlier ps →
  generationProvenance g = indexProvenance ∅ (partitionEntries ps).
Proof.
  intros Hm He. unfold generationProvenance, partitionEntries. rewrite Hm, He.
  assert (∀ m l1 l2, indexProvenance m (l1 ++ l2) = indexProvenance (indexProvenance m l1) l2) as Happ.
  { intros. apply foldl_app. }
  rewrite Happ. clear Hm He. generalize (indexProvenance ∅ (Entries (p_main ps))).
  induction (p_earlier ps) as [|e es IH]; intros m; csimpl; [done|]. by rewrite Happ, IH.
Qed.

Lemma indexProvenance_lookup l : ∀ m e p,
  NoDup (SourceEntryRef <$> l) → e ∈ l → SourceEntryRef e ≠ "" → Provenance e = Some p →
  indexProvenance m l !! SourceEntryRef e = Some p.
Proof.
  intros m e p Hnd Hin Hne Hp.
  eapply (foldl_last_write _ (λ m, m !! SourceEntryRef e) (λ x, SourceEntryRef x = SourceEntryRef e) _ e);
    [| |done| |exact Hin|by eapply NoDup_fmap_1].
  - intros m' _. rewrite Hp, decide_True by done. by rewrite lookup_insert_eq.
  - intros m' x Hx. destruct (Provenance x); [|done]. case_decide; [|done]. by rewrite lookup_insert_ne.
  - intros x Hx Hk. by eapply NoDup_fmap_unique.
Qed.

(** ** The layout keeps references and provenance *)

Definition tagged (e : SessionEntry) : string * option ContentProvenance := (SourceEntryRef e, Provenance e).
Definition tags (ps : projectionPartitions) : list (string * option ContentProvenance) := tagged <$> partitionEntries ps.

(** A block up to its position in its partition. *)
Definition unplaced (rb : resolvedBlock) : resolvedBlock := set_entryIndex rb 0.

Lemma elem_of_tags ps t :
  t ∈ tags ps ↔ t ∈ tagged <$> Entries (p_main ps) ∨
    ∃ i e, p_earlier ps !! i = Some e ∧ t ∈ tagged <$> Entries (Content e).
Proof.
  unfold tags, partitionEntries. rewrite fmap_app, elem_of_app. f_equiv. rewrite list_elem_of_fmap. split.
  - intros (e & -> & (ep & He & [i Hi]%list_elem_of_lookup)%list_elem_of_bind). exists i, ep. split; [done|].
    by apply list_elem_of_fmap_2.
  - intros (i & ep & Hi & (e & -> & He)%list_elem_of_fmap). exists e. split; [done|]. apply list_elem_of_bind.
    exists ep. split; [done|]. by eapply list_elem_of_lookup_2.
Qed.

Lemma projectionEntry_tag capture rb e :
  projectionEntry capture rb = Ok e → Omitted (block rb) = None → tagged e = (ref rb, b_Provenance (block rb)).
Proof.
  unfold projectionEntry. intros He Ho. rewrite Ho in He. rewrite !res_guard_ok in He. destruct He as (_ & _ & _ & He).
  apply res_bind_ok in He as (x1 & _ & He). apply res_bind_ok in He as (x2 & _ & He).
  apply res_guard_ok in He as [_ He]. by apply res_bind_ok in He as (x3 & _ & [= <-]).
Qed.

Lemma layoutBlock_ok capture n out done rb st :
  layoutBlock capture n (out, done) rb = Ok st →
  (∃ rb', st.2 = done ++ [rb'] ∧ unplaced rb' = unplaced rb) ∧
  (∀ t, t ∈ tags out → t ∈ tags st.1) ∧
  (dropped rb = false → inherited rb = false → Omitted (block rb) = None →
     (ref rb, b_Provenance (block rb)) ∈ tags st.1).
Proof.
  unfold layoutBlock. destruct (dropped rb || inherited rb) eqn:Hdi.
  { intros [= <-]. split_and!; [by exists rb|done|]. intros Hd Hi. by rewrite Hd, Hi in Hdi. }
  intros (entry & He & Hst)%res_bind_ok. setoid_rewrite elem_of_tags.
  assert (∀ i, Omitted (block rb) = None → tagged (with_EntryIndex entry i) = (ref rb, b_Provenance (block rb))) as Htag.
  { intros i Ho. by rewrite <- (projectionEntry_tag _ _ _ He Ho). }
  case_decide as H0; simplify_eq/=.
  { split_and!; [by eexists|..].
    - intros t [Ht|Ht]; [left|by right]. rewrite fmap_app, elem_of_app. by left.
    - intros _ _ Ho. left. rewrite fmap_app, elem_of_app. right. apply list_elem_of_singleton. by rewrite Htag. }
  case_decide; [done|]. destruct (p_earlier out !! _) as [ep|] eqn:Hat; simplify_eq/=.
  pose proof (lookup_lt_Some _ _ _ Hat) as Hlt. split_and!; [by eexists|..].
  - intros t [?|(i & e & Hi & Ht)]; [by left|right]. destruct (decide (Z.to_nat (section rb - 1) = i)) as [<-|Hne].
    + eexists _, _. split; [by apply list_lookup_insert_eq|]. simplify_eq/=. rewrite fmap_app, elem_of_app. by left.
    + exists i, e. split; [by rewrite list_lookup_insert_ne|done].
  - intros _ _ Ho. right. eexists _, _. split; [by apply list_lookup_insert_eq|]. simpl.
    rewrite fmap_app, elem_of_app. right. apply list_elem_of_singleton. by rewrite Htag.
Qed.

Lemma layout_ok capture l : ∀ n st st', res_fold (layoutBlock capture) n st l = Ok st' →
  (∃ l', st'.2 = st.2 ++ l' ∧ unplaced <$> l' = unplaced <$> l) ∧
  (∀ t, t ∈ tags st.1 → t ∈ tags st'.1) ∧
  (∀ rb, rb ∈ l → dropped rb = false → inherited rb = false → Omitted (block rb) = None →
     (ref rb, b_Provenance (block rb)) ∈ tags st'.1).
Proof.
  induction l as [|rb l IH]; intros n [out done] st'; cbn [res_fold].
  { intros [= <-]. split_and!; [exists []; by rewrite app_nil_r|done|set_solver]. }
  intros ([out1 done1] & H1 & Hrest)%res_bind_ok. destruct (layoutBlock_ok _ _ _ _ _ _ H1) as ((rb' & Hd1 & Hu) & Hkeep & Hnew).
  simpl in *. destruct (IH _ _ _ Hrest) as ((l' & Hd & Hl') & Hkeep' & Hnew'). simpl in *. split_and!.
  - exists (rb' :: l'). rewrite Hd, Hd1, <- app_assoc. csimpl. split; [done|]. by rewrite Hu, Hl'.
  - auto.
  - intros x [->|Hx]%elem_of_cons; [|by apply Hnew']. auto.
Qed.

Lemma assign_tags indexByRef byNative sec p calls r :
  assign indexByRef byNative sec p calls = Ok r → tagged <$> Entries r.1 = tagged <$> Entries p.
Proof.
  unfold assign. intros ([out c] & Hf & [= <-])%res_bind_ok. simpl.
  assert (∀ l n st st', res_fold (assignEntry indexByRef byNative sec) n st l = Ok st' →
    tagged <$> st'.1 = (tagged <$> st.1) ++ (tagged <$> l)) as Hl; [|exact (Hl _ _ _ _ Hf)].
  clear. induction l as [|e l IH]; intros n [out calls] st'; cbn [res_fold].
  { intros [= <-]. by rewrite app_nil_r. }
  intros ([out1 calls1] & H1 & Hrest)%res_bind_ok. rewrite (IH _ _ _ Hrest). csimpl.
  assert (∃ e', out1 = out ++ [e'] ∧ tagged e' = tagged e) as (e' & -> & He').
  { unfold assignEntry in H1. repeat (case_match || case_decide); simplify_eq; eauto;
      apply res_guard_ok in H1 as [_ [= <- <-]]; eauto. }
  rewrite fmap_app. csimpl. by rewrite He', <- app_assoc.
Qed.

Lemma remap_tags ps resolved ps' : remapToolParents ps resolved = Ok ps' → tags ps' = tags ps.
Proof.
  unfold remapToolParents. intros ([m c] & Hm%assign_tags & ([es c'] & Hf & [= <-])%res_bind_ok)%res_bind_ok.
  simpl in *. unfold tags, partitionEntries. rewrite !fmap_app. simpl. rewrite Hm. f_equal.
  assert (∀ ibr bn l n st st', res_fold (assignEarlier ibr bn) n st l = Ok st' →
    tagged <$> (st'.1 ≫= λ e, Entries (Content e)) =
    (tagged <$> (st.1 ≫= λ e, Entries (Content e))) ++ (tagged <$> (l ≫= λ e, Entries (Content e)))) as Hl;
    [|exact (Hl _ _ _ _ _ _ Hf)].
  clear. intros ibr bn. induction l as [|e l IH]; intros n st st'; cbn [res_fold].
  { intros [= <-]. by rewrite app_nil_r. }
  intros (st1 & ([p c] & Hp%assign_tags & [= <-])%res_bind_ok & Hrest)%res_bind_ok.
  rewrite (IH _ _ _ Hrest). csimpl. rewrite bind_app, !fmap_app. csimpl. cbn [fst] in Hp. rewrite app_nil_r, Hp. by rewrite <- app_assoc.
Qed.

(** The rows of each partition. *)
Definition rows (ps : projectionPartitions) : list (list SessionEntry) :=
  Entries (p_main ps) :: ((λ e, Entries (Content e)) <$> p_earlier ps).

Lemma tags_rows ps : tags ps = tagged <$> mjoin (rows ps).
Proof.
  unfold tags, partitionEntries, rows. simpl. do 2 f_equal.
  induction (p_earlier ps) as [|e es IH]; csimpl; [done|]. by rewrite IH.
Qed.

Lemma attach_rows ps resolved ps' :
  attachProjectionNativeMetadata ps resolved = Ok ps' → rows ps' = rows ps.
Proof.
  assert (∀ toolIDs rb l n ps ps', res_fold (attachNative toolIDs rb) n ps l = Ok ps' → rows ps' = rows ps) as Hone.
  { intros toolIDs rb. induction l as [|a l IH]; intros n p p'; cbn [res_fold]; [by intros [= <-]|].
    intros (p1 & H1 & Hrest)%res_bind_ok. rewrite (IH _ _ _ Hrest). clear IH Hrest.
    unfold attachNative in H1. apply res_bind_ok in H1 as (call & _ & H1). case_decide; [by simplify_eq|].
    case_decide; [done|]. destruct (p_earlier p !! _) as [e|] eqn:E; [|done]. simplify_eq.
    unfold rows. simpl. f_equal. rewrite list_fmap_insert. simpl. apply list_insert_id. by rewrite list_lookup_fmap, E. }
  unfold attachProjectionNativeMetadata. generalize (collectToolIDs resolved) as ids. intros ids. generalize 0 at 2.
  revert ps. induction resolved as [|rb l IH]; intros ps n; cbn [res_fold]; [by intros [= <-]|].
  intros (p1 & H1 & Hrest)%res_bind_ok. rewrite (IH _ _ Hrest).
  destruct (dropped rb || inherited rb); [by simplify_eq|]. by eapply Hone.
Qed.

Lemma attach_entries ps resolved ps' :
  attachProjectionNativeMetadata ps resolved = Ok ps' → tags ps' = tags ps.
Proof. intros Ha. by rewrite !tags_rows, (attach_rows _ _ _ Ha). Qed.

Lemma validateUnique_NoDup ps :
  validateUniqueProjectionRefs ps = Ok tt → NoDup (SourceEntryRef <$> partitionEntries ps).
Proof.
  unfold validateUniqueProjectionRefs. intros (s & Hf & _)%res_bind_ok.
  apply (collect_set_ok _ (λ _ _, True) (λ e, [SourceEntryRef e])) in Hf.
  - destruct Hf as (_ & Hnd & _). by rewrite bind_singleton in Hnd.
  - intros i st e st'. rewrite res_guard_ok, bool_decide_eq_true. simpl. rewrite union_empty_r_L. split.
    + intros [Hn [= <-]]. split_and!; [done|by intros k ->%list_elem_of_singleton|done].
    + intros (_ & Hn & ->). split; [|done]. apply Hn. by left.
  - intros _ e _. apply NoDup_singleton.
Qed.

(** ** The theorem *)

Definition with_Prior (c : ClassifiedCapture) (p : ProjectionPriorState) : ClassifiedCapture :=
  mkCapture (cap_ID c) (cap_SessionID c) (cap_Harness c) (cap_Metadata c) (cap_SourceEvidenceDigest c) (cap_Completeness c)
    (EarlierStates c) (Blocks c) (cap_Segments c) p.

(** The references and native identities the layout and the stamp keep. *)
Definition ident (rb : resolvedBlock) := (key_of rb, ref rb, dropped rb, SubmissionKey (block rb)).

Lemma stamp_keeps byKey rb :
  ident (stampSubmission byKey rb) = ident rb ∧ inherited (stampSubmission byKey rb) = inherited rb ∧
  Omitted (block (stampSubmission byKey rb)) = Omitted (block rb).
Proof. unfold stampSubmission. destruct (dropped rb || _); [done|]. by destruct (b_Provenance _). Qed.

(** Every block after the layout is a stamped block of before. *)
Lemma laid_out byKey (res1 res3 : list resolvedBlock) :
  unplaced <$> res3 = unplaced <$> (stampSubmission byKey <$> res1) →
  ident <$> res3 = ident <$> res1 ∧
  ∀ x, x ∈ res3 → ∃ y, y ∈ res1 ∧ unplaced x = unplaced (stampSubmission byKey y) ∧ ident x = ident y.
Proof.
  intros Hu.
  assert (∀ x, ident (unplaced x) = ident x) as Hid by done.
  split.
  - transitivity (ident <$> (unplaced <$> res3)); [by rewrite <- list_fmap_compose|]. rewrite Hu, <- !list_fmap_compose.
    apply list_fmap_ext. intros _ x _. simpl. rewrite Hid. apply stamp_keeps.
  - intros x Hx. assert (unplaced x ∈ unplaced <$> res3) as Hin by (by apply list_elem_of_fmap_2).
    rewrite Hu, <- list_fmap_compose in Hin. apply list_elem_of_fmap in Hin as (y & Hxy & Hy). simpl in Hxy.
    exists y. split_and!; [done..|]. rewrite <- (Hid x), Hxy, Hid. apply stamp_keeps.
Qed.

Section stored.
Context (byKey : gmap string string) (res1 res3 : list resolvedBlock) (ps : projectionPartitions) (g : Generation).
Hypothesis placed : unplaced <$> res3 = unplaced <$> (stampSubmission byKey <$> res1).
Hypothesis keys_distinct : NoDup (key_of <$> res1).
Hypothesis refs_valid : ∀ rb, rb ∈ res1 → dropped rb = false → SourceEntryRef_Validate (ref rb) = true.
Hypothesis submissions_known : ∀ rb, rb ∈ res1 → submits rb →
  submitted rb ∧ ∃ r, byKey !! SubmissionKey (block rb) = Some r ∧ r ≠ "".
Hypothesis submissions_emitted : ∀ rb, rb ∈ res1 → submits rb → inherited rb = false ∧ Omitted (block rb) = None.
Hypothesis laid : ∀ rb, rb ∈ stampSubmission byKey <$> res1 → dropped rb = false → inherited rb = false →
  Omitted (block rb) = None → (ref rb, b_Provenance (block rb)) ∈ tags ps.
Hypothesis main_stored : g_Main g = p_main ps.
Hypothesis earlier_stored : g_Earlier g = p_earlier ps.
Hypothesis refs_distinct : NoDup (SourceEntryRef <$> partitionEntries ps).
Hypothesis aliases_stored : buildProjectionAliases res3 = Ok (Aliases g).

Lemma res3_keys_distinct : NoDup (key_of <$> res3).
Proof.
  destruct (laid_out _ _ _ placed) as [Hid _].
  assert (∀ l : list resolvedBlock, key_of <$> l = (λ t, t.1.1.1) <$> (ident <$> l)) as Hk by (intros; by rewrite <- list_fmap_compose).
  by rewrite Hk, Hid, <- Hk.
Qed.

Lemma res1_in_res3 rb : rb ∈ res1 → ∃ x, x ∈ res3 ∧ ident x = ident rb.
Proof.
  intros Hrb. destruct (laid_out _ _ _ placed) as [Hid _].
  assert (ident rb ∈ ident <$> res3) as (x & Hx & ?)%list_elem_of_fmap by (rewrite Hid; by apply list_elem_of_fmap_2). eauto.
Qed.

Lemma stored_entry rb : rb ∈ res1 → dropped rb = false →
  prior_Entries (PriorStateFromGeneration g) !! key_of rb = Some (ref rb).
Proof.
  intros Hrb Hd. destruct (res1_in_res3 rb Hrb) as (x & Hx & Hid). unfold ident in Hid.
  injection Hid as Hkx Hrx Hdx _.
  destruct (buildProjectionAliases_ok _ _ res3_keys_distinct aliases_stored) as (Hnd & Hblock & _).
  apply PriorState_entry; [done|]. rewrite <- Hkx, <- Hrx. apply Hblock; congruence.
Qed.

(** The entry of a submitted block carries its stamped provenance. *)
Lemma stored_provenance rb : rb ∈ res1 → submits rb →
  ∃ p, generationProvenance g !! ref rb = Some p ∧
    Some (p_SubmissionRef p) = byKey !! SubmissionKey (block rb) ∧ p_SubmissionRef p ≠ "".
Proof.
  intros Hrb Hs. pose proof Hs as [Hd Hk]. destruct (submissions_known rb Hrb Hs) as [(p & Hp & _) (r & Hr & Hne)].
  destruct (submissions_emitted rb Hrb Hs) as [Hi Ho]. destruct (stamp_keeps byKey rb) as (Hid & Hsi & Hso).
  unfold ident in Hid. injection Hid as Hk' Hr' Hd' Hs'.
  assert (b_Provenance (block (stampSubmission byKey rb)) = Some (with_SubmissionRef p r)) as Hstamp.
  { unfold stampSubmission. rewrite Hd, Hp, bool_decide_false, Hr by done. done. }
  exists (with_SubmissionRef p r). split_and!; [|by rewrite Hr|done].
  rewrite (generationProvenance_entries g ps main_stored earlier_stored).
  opose proof (laid (stampSubmission byKey rb) _ _ _ _) as Hin; [by apply list_elem_of_fmap_2|congruence..|].
  rewrite Hstamp, Hr' in Hin. apply list_elem_of_fmap in Hin as (e & [= Href Hprov] & He).
  rewrite Href. apply indexProvenance_lookup; [done|done| |done].
  rewrite <- Href. intros E. specialize (refs_valid rb Hrb Hd). rewrite E in refs_valid. congruence.
Qed.

Lemma stored_submission rb : rb ∈ res1 → submits rb →
  prior_Submissions (PriorStateFromGeneration g) !! SubmissionKey (block rb) = byKey !! SubmissionKey (block rb).
Proof.
  intros Hrb [Hd Hk]. destruct (res1_in_res3 rb Hrb) as (x & Hx & Hid). unfold ident in Hid.
  injection Hid as _ _ Hdx Hsx.
  destruct (buildProjectionAliases_ok _ _ res3_keys_distinct aliases_stored) as (Hnd & _ & Hacc).
  destruct (Hacc x Hx) as (x0 & Hx0 & [Hd0 Hk0] & Hs0 & Hal); [split; congruence|].
  destruct (laid_out _ _ _ placed) as [_ Hback]. destruct (Hback x0 Hx0) as (y & Hy & _ & Hidy).
  unfold ident in Hidy. injection Hidy as _ Hry Hdy Hsy.
  destruct (stored_provenance y Hy) as (p & Hp & Hpk & Hpne); [split; congruence|].
  rewrite <- Hsx. erewrite PriorState_submission; [|exact Hnd|exact Hal|by rewrite Hry|done].
  rewrite Hpk. f_equal. congruence.
Qed.
End stored.

(** ** After the allocation nothing depends on the allocator *)

(** [buildGenerationAndContent] from the layout on. *)
Definition assemble (capture : ClassifiedCapture) (resolved : list resolvedBlock) :
    result perr (Generation * gmap string string) :=
  let? st := layoutProjectionPartitions capture resolved in
  let '(partitions, resolved) := st in
  let? partitions := remapToolParents partitions resolved in
  let? partitions := attachProjectionNativeMetadata partitions resolved in
  let? _u := validateProjectionProvenance partitions in
  let? _u := validateInheritedProvenance resolved in
  let? _u := validateUniqueProjectionRefs partitions in
  let? content := buildProjectionContent partitions resolved in
  let? aliases := buildProjectionAliases resolved in
  let? segments := attachInheritedSegmentRefs (cap_Segments capture) resolved in
  let generation := applyStrictCounts
    (mkGeneration (cap_ID capture) (cap_Completeness capture) (cap_Metadata capture) (p_main partitions)
       (p_earlier partitions) segments content.1 aliases (cap_SourceEvidenceDigest capture) [])
    (cap_Completeness capture) in
  match Generation_Validate ValidateSessionRelationships generation with
  | Err e => Err (BadGeneration e)
  | Ok _ => Ok (generation, content.2)
  end.

Lemma build_assemble {A} `{!RefAllocator A} capture (alloc : A) :
  buildGenerationAndContent ValidateSessionRelationships capture alloc =
  let? _u := validateCapture capture in
  let? resolved := resolveProjectionBlocks capture in
  let? st := allocateBlockRefs resolved (Prior capture) alloc in
  let? st := allocateSubmissionRefs st.1 (Prior capture) st.2 in
  assemble capture st.1.
Proof.
  unfold buildGenerationAndContent. rewrite clone_id. destruct (validateCapture capture); [simpl|done].
  destruct (resolveProjectionBlocks capture) as [res|]; [simpl|done].
  destruct (allocateBlockRefs res _ alloc) as [[res1 al]|]; [simpl|done].
  by destruct (allocateSubmissionRefs res1 _ al) as [[??]|].
Qed.

(** The steps of a successful assembly. *)
Lemma assemble_steps capture resolved g bytes :
  assemble capture resolved = Ok (g, bytes) →
  ∃ ps0 res3 ps1 ps, layoutProjectionPartitions capture resolved = Ok (ps0, res3) ∧
    remapToolParents ps0 res3 = Ok ps1 ∧ attachProjectionNativeMetadata ps1 res3 = Ok ps ∧
    NoDup (SourceEntryRef <$> partitionEntries ps) ∧
    buildProjectionContent ps res3 = Ok (g_Content g, bytes) ∧ buildProjectionAliases res3 = Ok (Aliases g) ∧
    g_Main g = p_main ps ∧ g_Earlier g = p_earlier ps ∧
    Generation_Validate ValidateSessionRelationships g = Ok tt.
Proof.
  unfold assemble. intros ([ps0 res3] & Hlay & Hb)%res_bind_ok.
  apply res_bind_ok in Hb as (ps1 & Hremap & Hb). apply res_bind_ok in Hb as (ps & Hatt & Hb).
  apply res_seq_ok in Hb as [_ Hb]. apply res_seq_ok in Hb as [_ Hb].
  apply res_seq_ok in Hb as [Hvu%validateUnique_NoDup Hb].
  apply res_bind_ok in Hb as ([content bs] & Hcont & Hb). apply res_bind_ok in Hb as (aliases & Hal & Hb).
  apply res_bind_ok in Hb as (segments & _ & Hb). exists ps0, res3, ps1, ps.
  destruct (Generation_Validate _ _) as [[]|] eqn:Hval; [|done]. injection Hb as <- <-. revert Hval.
  unfold applyStrictCounts. destruct (foldl countEntry _ _) as [[??]?]. done.
Qed.

(** The parts of an assembled generation that carry identities. *)
Lemma assemble_ok capture resolved g bytes :
  assemble capture resolved = Ok (g, bytes) →
  ∃ ps res3, unplaced <$> res3 = unplaced <$> resolved ∧
    (∀ rb, rb ∈ resolved → dropped rb = false → inherited rb = false → Omitted (block rb) = None →
       (ref rb, b_Provenance (block rb)) ∈ tags ps) ∧
    g_Main g = p_main ps ∧ g_Earlier g = p_earlier ps ∧ NoDup (SourceEntryRef <$> partitionEntries ps) ∧
    buildProjectionAliases res3 = Ok (Aliases g).
Proof.
  intros (ps0 & res3 & ps1 & ps & Hlay & Hremap & Hatt & Hnd & _ & Hal & Hm & He & _)%assemble_steps.
  destruct (layout_ok _ _ _ _ _ Hlay) as ((l' & Hl' & Hplaced) & _ & Hlaid). cbn [fst snd app] in *. subst l'.
  exists ps, res3. split_and!; [done| |done..].
  intros. rewrite (attach_entries _ _ _ Hatt), (remap_tags _ _ _ Hremap). by apply Hlaid.
Qed.

(** A block that names a submission is emitted when the capture's is. *)
Lemma submissions_emitted_of capture res0 res1 :
  (∀ b, b ∈ Blocks capture → SubmissionKey b ≠ "" → Inherited b = false ∧ Omitted b = None) →
  core <$> res0 = (λ b, (set_Uncertain b, Inherited b)) <$> Blocks capture → core <$> res1 = core <$> res0 →
  ∀ rb, rb ∈ res1 → submits rb → inherited rb = false ∧ Omitted (block rb) = None.
Proof.
  intros Hblocks Hcore Hcore1 rb Hrb [_ Hk].
  assert (core rb ∈ core <$> res1) as Hin by (by apply list_elem_of_fmap_2).
  rewrite Hcore1, Hcore in Hin. apply list_elem_of_fmap in Hin as (b & Hcb & Hin).
  pose proof (f_equal fst Hcb) as Heq. pose proof (f_equal snd Hcb) as Hi. cbn [fst snd core] in Heq, Hi. rewrite Hi.
  change (Omitted (block rb)) with (Omitted (set_Uncertain (block rb))). rewrite Heq.
  change (SubmissionKey (block rb)) with (SubmissionKey (set_Uncertain (block rb))) in Hk. rewrite Heq in Hk.
  exact (Hblocks b Hin Hk).
Qed.

Lemma keys_of_core (l l' : list resolvedBlock) : core <$> l = core <$> l' → key_of <$> l = key_of <$> l'.
Proof.
  assert (∀ l : list resolvedBlock, key_of <$> l = (λ c : ClassifiedBlock * bool, b_NativeKey c.1) <$> (core <$> l)) as Hk
    by (intros; by rewrite <- list_fmap_compose).
  intros E. by rewrite !Hk, E.
Qed.

(** C1: Projecting the same capture again from the generation it produced gives
    that generation and its content bytes back, identity for identity, for any
    allocator of any kind, one that always fails included: the aliases and the
    stamped provenance a generation persists carry every reference the
    projection handed out, mirrors and submissions included.  Both projections range
    over their maps in one order.  The schema's
    reference types refuse an empty reference, no prior submission reference is
    empty, and every block that names a submission is emitted. *)
Theorem reprojection_stable {A} `{!RefAllocator A} (capture : ClassifiedCapture) (alloc : A)
    (g : Generation) (bytes : gmap string string) :
  (∀ k r, prior_Submissions (Prior capture) !! k = Some r → r ≠ "") →
  (∀ b, b ∈ Blocks capture → SubmissionKey b ≠ "" → Inherited b = false ∧ Omitted b = None) →
  buildGenerationAndContent ValidateSessionRelationships capture alloc = Ok (g, bytes) →
  ∀ A' (RA' : RefAllocator A') (alloc' : A'),
    buildGenerationAndContent ValidateSessionRelationships (with_Prior capture (PriorStateFromGeneration g)) alloc' =
    Ok (g, bytes).
Proof.
  intros Hprior Hblocks Hb A' RA' alloc'. rewrite build_assemble in Hb. rewrite build_assemble.
  change (validateCapture (with_Prior capture _)) with (validateCapture capture).
  change (resolveProjectionBlocks (with_Prior capture _)) with (resolveProjectionBlocks capture).
  change (Prior (with_Prior capture (PriorStateFromGeneration g))) with (PriorStateFromGeneration g).
  apply res_seq_ok in Hb as [Hv Hb]. rewrite Hv. cbn [res_bind].
  apply res_bind_ok in Hb as (res0 & Hres & Hb). rewrite Hres. cbn [res_bind].
  destruct (resolve_core _ _ Hres) as (Hcore & Hnd & _).
  apply res_bind_ok in Hb as ([res1 alloc1] & Halloc & Hb).
  destruct (allocateBlockRefs_ok _ _ _ _ _ Halloc) as (Hcore1 & _ & _ & Hval & Hagain).
  apply res_bind_ok in Hb as ([res2 alloc2] & Hsub & Hb).
  destruct (allocateSubmissionRefs_ok _ _ _ _ _ Hprior Hsub) as (byKey & -> & Hknown & Hsagain).
  destruct (assemble_ok _ _ _ _ Hb) as (ps & res3 & Hplaced & Hlaid & Hm & He & Hndr & Hal).
  pose proof (submissions_emitted_of capture res0 res1 Hblocks Hcore Hcore1) as Hemit.
  rewrite <- (keys_of_core _ _ Hcore1) in Hnd. cbn [fst snd] in *.
  rewrite (Hagain A' RA' (PriorStateFromGeneration g) alloc') by (intros; by eapply stored_entry). cbn [res_bind fst snd].
  rewrite (Hsagain A' RA' (PriorStateFromGeneration g) alloc') by (intros; by eapply stored_submission).
  exact Hb.
Qed.
End reprojection.

(** ** An example *)

#[local] Existing Instance demoSchema.
#[local] Existing Instance demoEvidence.
#[local] Existing Instance demoOrder.
#[local] Existing Instance demoAllocator.

(** Nothing can be minted. *)
#[local] Instance noAllocator : RefAllocator unit := {| NewEntryRef _ := None; NewSubmissionRef _ := None |}.

Definition demoTurn : list ClassifiedBlock :=
  [demoPrompt "p1" "s1"; demoBlock "turn" 0 false "text" 0 "" ""; demoBlock "call" 0 false "tool_use" 1 "turn" "c1";
   demoBlock "result" 0 false "tool_result" 1 "turn" "c1"; demoPrompt "p2" "s1"].

Lemma reprojection_stable_witness :
  ∃ g bytes,
    buildGenerationAndContent demoRelationships (demoCapture [] demoTurn NewProjectionPriorState) 0 = Ok (g, bytes) ∧
    buildGenerationAndContent demoRelationships
      (with_Prior (demoCapture [] demoTurn NewProjectionPriorState) (PriorStateFromGeneration g)) tt = Ok (g, bytes).
Proof.
  eexists _, _. split; [vm_compute; reflexivity|].
  eapply (reprojection_stable demoRelationships _ _ (demoCapture [] demoTurn NewProjectionPriorState) 0).
  - intros k r Hk. cbn in Hk. by apply lookup_empty_Some in Hk.
  - intros b Hb _. unfold demoTurn in Hb. simpl in Hb. set_unfold in Hb. naive_solver.
  - vm_compute. reflexivity.
  Unshelve. all: reflexivity.
Defined.

(** Without the emission hypothesis an identity is lost: the acceptance alias of
    a submission whose first block is inherited names a reference with no entry,
    so the second projection mints a new submission reference. *)
Example inherited_submission_reminted :
  let capture := demoSegmented (demoCapture [] [demoInherited (demoPrompt "p1" "s1") 0; demoPrompt "p2" "s1"]
                                  NewProjectionPriorState) in
  let refs g := (λ e, p_SubmissionRef <$> Provenance e) <$> Entries (g_Main g) in
  (let? gc := buildGenerationAndContent demoRelationships capture 0 in
   let? again := buildGenerationAndContent demoRelationships (with_Prior capture (PriorStateFromGeneration gc.1)) 50 in
   Ok (refs gc.1, refs again.1)) = Ok ([Some "q2"], [Some "q50"]).
Proof. by vm_compute. Qed.
