(* ===== verification/GenerationContent.v ===== *)
(** * What a built generation holds

    The bytes a generation's records name and the strict counts, each against a
    direct description. *)
From stdpp Require Import pretty.
From S2P Require Import Prelude GoStrings IndexFormat ProjectionIdentity UnionFind Projection GenerationBuild Reprojection.
Local Open Scope string_scope.
Local Open Scope list_scope.
Local Open Scope Z_scope.

Section generation.
Context {SL : SchemaLib} {EL : EvidenceLib} {MO : MapOrder}.
Context (ValidateSessionRelationships : option (list SessionRelationship) → bool).

(** ** Strict counts *)

(** A row that stands for conversation. *)
Definition counted (e : SessionEntry) : bool := negb (IsRetainedUnknownCarrier e || isOmissionPlaceholder e).

(** The submission a row counts for, when it passes the strict predicate. *)
Definition countedSubmission (e : SessionEntry) : option string :=
  if counted e && eligibleInputProvenance (Provenance e) then p_SubmissionRef <$> Provenance e else None.

Definition titled (e : SessionEntry) : bool :=
  counted e && eligibleInputProvenance (Provenance e) &&
  match Provenance e with Some p => bool_decide (p_InputModality p = InputModalityText) | None => false end &&
  bool_decide (TrimSpace (projectionEntryContent e) ≠ "").

Lemma countEntry_spec st e :
  countEntry st e =
  (st.1.1 + (if counted e && bool_decide (Depth e = 0) then 1 else 0),
   match countedSubmission e with Some r => {[r]} ∪ st.1.2 | None => st.1.2 end,
   st.2 ++ (if titled e then [SourceEntryRef e] else [])).
Proof.
  destruct st as [[n s] t]. unfold countEntry, countedSubmission, titled, counted. simpl.
  destruct (IsRetainedUnknownCarrier e || isOmissionPlaceholder e); simpl; [by rewrite Z.add_0_r, app_nil_r|].
  assert ((if decide (Depth e = 0) then n + 1 else n) = n + (if bool_decide (Depth e = 0) then 1 else 0)) as ->.
  { case_decide; case_bool_decide; lia. }
  destruct (Provenance e) as [p|]; simpl; [|by rewrite app_nil_r].
  destruct (_ && _ && _ && _ && _ && _); simpl; [|by rewrite app_nil_r].
  by destruct (bool_decide _ && bool_decide _); rewrite ?app_nil_r.
Qed.

Lemma countEntry_fold es : ∀ st,
  foldl countEntry st es =
  (st.1.1 + Z.of_nat (length (filter (λ e, counted e && bool_decide (Depth e = 0)) es)),
   list_to_set (omap countedSubmission es) ∪ st.1.2,
   st.2 ++ (SourceEntryRef <$> filter titled es)).
Proof.
  induction es as [|e es IH]; intros [[n s] t]; cbn [foldl].
  { simpl. by rewrite Z.add_0_r, union_empty_l_L, app_nil_r. }
  rewrite IH, countEntry_spec. cbn [fst snd]. rewrite !filter_cons. csimpl. f_equal; [f_equal|].
  - destruct (counted e && _); simpl; lia.
  - destruct (countedSubmission e); simpl; set_solver.
  - rewrite <- app_assoc. by destruct (titled e).
Qed.

(** The stored counts and title references are what they are documented to
    be.  The turn count is the number of depth-0 rows of the main stream that
    are neither evidence-only rows nor omission notices; the submission count of
    a complete capture is the number of distinct submissions among the rows that
    pass the strict predicate, however many rows a submission has, and an
    incomplete capture stores none; the title references are exactly the
    admitted, non-blank text rows, in order.  Nothing else of the generation
    changes. *)
Theorem strict_counts_exact g completeness :
  let main := Entries (g_Main g) in
  let g' := applyStrictCounts g completeness in
  TurnCount (Stats (g_Metadata g')) =
    Z.of_nat (length (filter (λ e, counted e ∧ Depth e = 0) main)) ∧
  InputSubmissionCount (Stats (g_Metadata g')) =
    (if decide (completeness = GenerationCompletenessComplete)
     then Some (Z.of_nat (size (list_to_set (omap countedSubmission main) : gset string))) else None) ∧
  g_TitleRefs g' = SourceEntryRef <$> filter titled main ∧
  (g_ID g', g_Main g', g_Earlier g', Segments g', g_Content g', Aliases g', SourceEvidenceDigest g', g_Completeness g') =
  (g_ID g, g_Main g, g_Earlier g, Segments g, g_Content g, Aliases g, SourceEvidenceDigest g, g_Completeness g).
Proof.
  intros main g'. unfold g', applyStrictCounts. rewrite countEntry_fold. simpl. split_and!; [|by rewrite union_empty_r_L|done|done].
  rewrite Z.add_0_l. do 2 f_equal. apply filter_ext_elem. intros e _. rewrite andb_True, bool_decide_spec. done.
Qed.

(** ** Content *)

Lemma addContent_fold l : ∀ n st st', res_fold addContent n st l = Ok st' →
  st'.1 = st.1 ++ ((λ rv, contentRecord rv.1 rv.2) <$> l).
Proof.
  induction l as [|[r v] l IH]; intros n st st'; cbn [res_fold].
  { intros [= <-]. by rewrite app_nil_r. }
  intros (st1 & H1 & Hrest)%res_bind_ok. rewrite (IH _ _ _ Hrest). unfold addContent in H1.
  destruct (ContentRecord_Validate _ _); simplify_eq/=. by rewrite <- app_assoc.
Qed.

(** With distinct references the records and the bytes are those added. *)
Lemma buildProjectionContent_ok ps resolved content bytes :
  buildProjectionContent ps resolved = Ok (content, bytes) → NoDup (c_Ref <$> content) →
  Sorted ref_le content ∧
  content ≡ₚ (λ rv, contentRecord rv.1 rv.2) <$> contentSources ps resolved ∧
  ∀ r v, bytes !! r = Some v ↔ (r, v) ∈ contentSources ps resolved.
Proof.
  unfold buildProjectionContent. intros ([records b] & Hf & [= <- <-])%res_bind_ok Hnd. simpl.
  pose proof (addContent_fold _ _ _ _ Hf) as Hrec. simpl in Hrec. subst records.
  set (sources := contentSources ps resolved) in *.
  assert (NoDup (fst <$> sources)) as Hkeys.
  { rewrite (merge_sort_Permutation ref_le), <- list_fmap_compose in Hnd. exact Hnd. }
  split_and!; [|by rewrite (merge_sort_Permutation ref_le)|].
  { apply Sorted_merge_sort. intros x y. unfold ref_le. destruct (String.leb_total (c_Ref x) (c_Ref y)); auto. }
  destruct (written_map addContent snd (λ rv, Some rv)) with (l := sources) (n := 0%nat)
    (s := (@nil ContentRecord, ∅ : gmap string string)) (s' := ((λ rv, contentRecord rv.1 rv.2) <$> sources, b)) as [Hin Hout].
  - intros i [cs m] [r v] s' Ha. unfold addContent in Ha. destruct (ContentRecord_Validate _ _); by simplify_eq.
  - intros x y k v v' Hx Hy [= ->] [= ->]. by pose proof (NoDup_fmap_unique fst sources (k, v) (k, v') Hkeys Hx Hy eq_refl) as [= ->].
  - exact Hf.
  - simpl in *. intros r v. split; [|intros; by eapply Hin].
    intros Hr. destruct (decide (r ∈ fst <$> sources)) as [([r' v'] & -> & Hs)%list_elem_of_fmap|Hno].
    + cbn [fst] in Hr. rewrite (Hin _ _ _ Hs eq_refl) in Hr. by simplify_eq/=.
    + rewrite Hout in Hr; [by apply lookup_empty_Some in Hr|]. intros [r' v'] w Hx [= -> ->]. apply Hno.
      by apply (list_elem_of_fmap_2 fst) in Hx.
Qed.

(** The entries of the main stream and of every earlier section. *)
Definition emitted (g : Generation) (e : SessionEntry) : Prop :=
  e ∈ Entries (g_Main g) ∨ ∃ s, s ∈ g_Earlier g ∧ e ∈ Entries (Content s).

(** C13: A built generation comes with all of its bytes and no others.  Every
    emitted entry's full content is returned under its reference and recorded
    with its path, length and digest, content-less entries included; the records
    are sorted by reference, no two share one, each is the record of exactly the
    bytes returned for it, and bytes are returned for the recorded references
    only. *)
Theorem content_complete {A} `{!RefAllocator A} (capture : ClassifiedCapture) (alloc : A) g bytes :
  buildGenerationAndContent ValidateSessionRelationships capture alloc = Ok (g, bytes) →
  (∀ e, emitted g e → bytes !! SourceEntryRef e = Some (projectionEntryContent e) ∧
     contentRecord (SourceEntryRef e) (projectionEntryContent e) ∈ g_Content g) ∧
  (∀ c, c ∈ g_Content g → ∃ v, bytes !! c_Ref c = Some v ∧ c = contentRecord (c_Ref c) v) ∧
  (∀ r, is_Some (bytes !! r) ↔ r ∈ c_Ref <$> g_Content g) ∧
  NoDup (c_Ref <$> g_Content g) ∧ Sorted ref_le (g_Content g).
Proof.
  rewrite build_assemble. intros (? & _ & (? & _ & (? & _ & (st & _ & Hb)%res_bind_ok)%res_bind_ok)%res_bind_ok)%res_bind_ok.
  apply assemble_steps in Hb as (ps0 & res3 & ps1 & ps & _ & _ & _ & _ & Hcont & _ & Hm & He & Hval).
  apply Generation_Validate_ok in Hval. pose proof (bo_content_unique _ _ _ _ _ _ (go_body _ _ Hval)) as Hnd.
  destruct (buildProjectionContent_ok _ _ _ _ Hcont Hnd) as (Hsorted & Hperm & Hbytes).
  assert (∀ e, emitted g e → (SourceEntryRef e, projectionEntryContent e) ∈ contentSources ps res3) as Hem.
  { intros e Hin. unfold contentSources. apply elem_of_app. left. apply list_elem_of_fmap. exists e. split; [done|].
    unfold partitionEntries. rewrite <- Hm, <- He. apply elem_of_app. destruct Hin as [?|(s & ? & ?)]; [by left|right].
    apply list_elem_of_bind. by exists s. }
  split_and!; [..|done|done].
  - intros e Hin%Hem. split; [by apply Hbytes|]. rewrite Hperm. by apply (list_elem_of_fmap_2 (λ rv, contentRecord rv.1 rv.2)) in Hin.
  - intros c. rewrite Hperm. intros ([r v] & -> & Hin)%list_elem_of_fmap. exists v. split; [by apply Hbytes|done].
  - intros r. rewrite Hperm, <- list_fmap_compose. rewrite list_elem_of_fmap. split.
    + intros [v Hv%Hbytes]. by exists (r, v).
    + intros ([r' v] & -> & Hin%Hbytes). by exists v.
Qed.

End generation.

(** ** Examples *)

#[local] Existing Instance demoSchema.
#[local] Existing Instance demoEvidence.
#[local] Existing Instance demoOrder.
#[local] Existing Instance demoAllocator.

Definition demoBuilt : result perr (Generation * gmap string string) :=
  buildGenerationAndContent demoRelationships (demoCapture [] demoTurn NewProjectionPriorState) 0%nat.

Example demo_counts :
  (let? gc := demoBuilt in Ok (Stats (g_Metadata gc.1), g_TitleRefs gc.1)) = Ok (mkStats (Some 1) 3, ["r0"; "r4"]).
Proof. by vm_compute. Qed.

Lemma content_complete_witness :
  ∃ g bytes, demoBuilt = Ok (g, bytes) ∧ length (Entries (g_Main g)) = 5%nat ∧
    ∀ e, e ∈ Entries (g_Main g) → bytes !! SourceEntryRef e = Some (projectionEntryContent e).
Proof.
  eexists _, _. split; [vm_compute; reflexivity|]. split; [reflexivity|]. intros e He.
  eapply (content_complete demoRelationships (demoCapture [] demoTurn NewProjectionPriorState) 0%nat);
    [vm_compute; reflexivity|by left].
Defined.
