(* ===== verification/ToolPairing.v ===== *)
(** * Tool results and their calls ([remapToolParents])

    Every row of a built generation comes from one resolved block; a nested tool
    result carries the reference of the latest call row with its own native call
    identity and hangs from the row of its own native carrier. *)
From stdpp Require Import pretty.
From S2P Require Import Prelude GoStrings IndexFormat ProjectionIdentity UnionFind Projection ProjectionSections GenerationBuild Reprojection GenerationContent.
Local Open Scope string_scope.
Local Open Scope list_scope.
Local Open Scope Z_scope.

Section pairing.
Context {SL : SchemaLib} {EL : EvidenceLib} {MO : MapOrder}.
Context (ValidateSessionRelationships : option (list SessionRelationship) → bool).

(** ** Rows and blocks *)

(** The row of a block in partition [s]. *)
Record rowOf (resolved : list resolvedBlock) (s : nat) (e : SessionEntry) (rb : resolvedBlock) : Prop := {
  ro_in : rb ∈ resolved;
  ro_kept : dropped rb = false;
  ro_own : inherited rb = false;
  ro_section : section rb = Z.of_nat s;
  ro_ref : ref rb = SourceEntryRef e;
  ro_index : entryIndex rb = EntryIndex e;
}.

(** A row shows its block's depth, an omission notice apart. *)
Definition depthOf (e : SessionEntry) (rb : resolvedBlock) : Prop :=
  Depth e = 0 ∧ EntryType e = EntryTypeToolResult ∨ Depth e = b_Depth (block rb).

Record laid (out : projectionPartitions) (placed : list resolvedBlock) : Prop := {
  la_rows : ∀ s es e, rows out !! s = Some es → e ∈ es →
    ParentIndex e = None ∧ ∃ rb, rowOf placed s e rb ∧ depthOf e rb;
  la_blocks : ∀ rb, rb ∈ placed → dropped rb = false → inherited rb = false →
    ∃ s es e, rows out !! s = Some es ∧ e ∈ es ∧ rowOf placed s e rb;
}.

Lemma rowOf_mono placed placed' s e rb : placed ⊆ placed' → rowOf placed s e rb → rowOf placed' s e rb.
Proof. intros Hs []. split; auto. Qed.

Lemma projectionEntry_row capture rb e : projectionEntry capture rb = Ok e →
  ParentIndex e = None ∧ SourceEntryRef e = ref rb ∧ depthOf e rb.
Proof.
  unfold projectionEntry, omissionChannelEntry, depthOf. destruct (Omitted (block rb)) as [om|].
  { destruct (OmittedRecord_Extra _); [|done]. intros [= <-]. split_and!; [done|done|by left]. }
  rewrite !res_guard_ok. intros (_ & _ & _ & He). apply res_bind_ok in He as (x1 & _ & He).
  apply res_bind_ok in He as (x2 & _ & He). apply res_guard_ok in He as [_ He].
  apply res_bind_ok in He as (x3 & _ & [= <-]). split_and!; [done|done|by right].
Qed.

(** One block of the layout: nothing is laid out or one row is added to its
    partition. *)
Lemma layoutBlock_rows capture n out placed rb st :
  layoutBlock capture n (out, placed) rb = Ok st →
  (dropped rb || inherited rb = true ∧ st = (out, placed ++ [rb])) ∨
  (dropped rb = false ∧ inherited rb = false ∧ ∃ k es e, rows out !! k = Some es ∧ section rb = Z.of_nat k ∧
     ParentIndex e = None ∧ SourceEntryRef e = ref rb ∧ depthOf e rb ∧ EntryIndex e = Z.of_nat (length es) ∧
     rows st.1 = <[k := es ++ [e]]> (rows out) ∧ st.2 = placed ++ [set_entryIndex rb (Z.of_nat (length es))]).
Proof.
  unfold layoutBlock. destruct (dropped rb || inherited rb) eqn:Hdi; [intros [= <-]; by left|].
  apply orb_false_iff in Hdi as [Hd Hi]. intros (entry & (Hp & Hr & Hdep)%projectionEntry_row & Hst)%res_bind_ok.
  right. split; [done|]. split; [done|]. case_decide as H0; simplify_eq/=.
  { exists 0%nat, (Entries (p_main out)), (with_EntryIndex entry (Z.of_nat (length (Entries (p_main out))))). done. }
  case_decide; [done|]. destruct (p_earlier out !! _) as [ep|] eqn:Hat; simplify_eq/=.
  exists (S (Z.to_nat (section rb - 1))), (Entries (Content ep)),
    (with_EntryIndex entry (Z.of_nat (length (Entries (Content ep))))).
  unfold rows. simpl. rewrite list_lookup_fmap, Hat, list_fmap_insert. simpl. split_and!; try done. lia.
Qed.

Lemma laid_step capture n out placed rb st :
  layoutBlock capture n (out, placed) rb = Ok st → laid out placed → laid st.1 st.2.
Proof.
  intros [[Hdi ->]|(Hd & Hi & k & es & e & Hk & Hsec & Hp & Hr & Hdep & Hix & Erows & ->)]%layoutBlock_rows [Hrows Hblocks].
  - simpl. split.
    + intros s l x Hl Hx. destruct (Hrows s l x Hl Hx) as (? & y & Hy & ?). split; [done|]. exists y.
      split; [|done]. by eapply rowOf_mono; [apply list_subseteq_app_l|].
    + intros x [Hx| ->%list_elem_of_singleton]%elem_of_app Hxd Hxi; [|by rewrite Hxd, Hxi in Hdi].
      destruct (Hblocks x Hx Hxd Hxi) as (s & l & y & ? & ? & Hy). exists s, l, y. split; [done|]. split; [done|].
      by eapply rowOf_mono; [apply list_subseteq_app_l|].
  - set (rb' := set_entryIndex rb _). pose proof (lookup_lt_Some _ _ _ Hk) as Hlt.
    assert (rowOf (placed ++ [rb']) k e rb') as Hrow.
    { split; simpl; try done. apply elem_of_app. right. by left. }
    split; rewrite Erows.
    + intros s l x Hl Hx. destruct (decide (s = k)) as [->|Hne].
      * rewrite list_lookup_insert_eq in Hl by done. injection Hl as <-.
        apply elem_of_app in Hx as [Hx| ->%list_elem_of_singleton]; [|split; [done|by exists rb']].
        destruct (Hrows k es x Hk Hx) as (? & y & Hy & ?). split; [done|]. exists y.
        split; [|done]. by eapply rowOf_mono; [apply list_subseteq_app_l|].
      * rewrite list_lookup_insert_ne in Hl by done. destruct (Hrows s l x Hl Hx) as (? & y & Hy & ?).
        split; [done|]. exists y. split; [|done]. by eapply rowOf_mono; [apply list_subseteq_app_l|].
    + intros x [Hx| ->%list_elem_of_singleton]%elem_of_app Hxd Hxi.
      * destruct (Hblocks x Hx Hxd Hxi) as (s & l & y & Hl & Hy & Hyr). destruct (decide (s = k)) as [->|Hne].
        -- exists k, (es ++ [e]), y. rewrite list_lookup_insert_eq by done. simplify_eq.
           split; [done|]. split; [apply elem_of_app; by left|]. by eapply rowOf_mono; [apply list_subseteq_app_l|].
        -- exists s, l, y. rewrite list_lookup_insert_ne by done. split; [done|]. split; [done|].
           by eapply rowOf_mono; [apply list_subseteq_app_l|].
      * exists k, (es ++ [e]), e. rewrite list_lookup_insert_eq by done. split; [done|].
        split; [apply elem_of_app; right; by left|done].
Qed.

Lemma layout_laid capture l out placed :
  layoutProjectionPartitions capture l = Ok (out, placed) → laid out placed.
Proof.
  unfold layoutProjectionPartitions. set (st := (_, [])). intros Hf.
  assert (laid st.1 st.2) as H0.
  { split; simpl; [|by intros rb ?%not_elem_of_nil]. intros [|s] es e Hs; simpl in Hs; simplify_eq.
    - by intros ?%not_elem_of_nil.
    - rewrite !list_lookup_fmap in Hs. destruct (EarlierStates capture !! s); simplify_eq/=. by intros ?%not_elem_of_nil. }
  change (laid (out, placed).1 (out, placed).2). clearbody st.
  revert st Hf H0. generalize 0%nat. induction l as [|rb l IH]; intros n [o p] Hf H0; cbn [res_fold] in Hf.
  { by injection Hf as <- <-. }
  apply res_bind_ok in Hf as (st1 & H1 & Hf). apply (IH _ st1 Hf). by eapply laid_step.
Qed.

(** ** Assigning parents *)

(** The fields of a row that the assignment keeps. *)
Definition row_id (e : SessionEntry) := (SourceEntryRef e, EntryIndex e, EntryType e, Depth e).

Definition row_ids (es : list SessionEntry) := row_id <$> es.

Section assign.
Context (indexByRef byNative : gmap string resolvedBlock).
Hypothesis use_not_result : EntryTypeToolUse ≠ EntryTypeToolResult.
Hypothesis refs_indexed : ∀ r rb, indexByRef !! r = Some rb → ref rb = r.

(** A nested call row with this native call identity. *)
Definition nestedCall (u : SessionEntry) (native : string) : Prop :=
  EntryType u = EntryTypeToolUse ∧ ∃ ru, indexByRef !! SourceEntryRef u = Some ru ∧
    b_Depth (block ru) ≠ 0 ∧ ToolCallKey (block ru) = native.

(** The latest such row, which answers to its own reference. *)
Definition latestCall (es : list SessionEntry) (native : string) (u : SessionEntry) : Prop :=
  ∃ j, es !! j = Some u ∧ nestedCall u native ∧ e_ToolCallID u = Some (SourceEntryRef u) ∧
    ∀ j' u', (j < j')%nat → es !! j' = Some u' → ¬ nestedCall u' native.

(** What the assignment makes of a row, given the rows before it. *)
Definition answered (before : list SessionEntry) (e : SessionEntry) : Prop :=
  ∃ rb, indexByRef !! SourceEntryRef e = Some rb ∧
    (b_Depth (block rb) ≠ 0 →
     (∃ carrier, byNative !! CarrierNativeKey (block rb) = Some carrier ∧ ParentIndex e = Some (entryIndex carrier)) ∧
     (EntryType e = EntryTypeToolResult →
      ∃ u, latestCall before (ToolCallKey (block rb)) u ∧ e_ToolCallID e = Some (SourceEntryRef u))).

Definition paired (es : list SessionEntry) : Prop := ∀ i e, es !! i = Some e → answered (take i es) e.

(** The calls recorded for a section are the latest ones of its rows. *)
Definition calls_of (section : Z) (calls : gmap (Z * string) string) (es : list SessionEntry) : Prop :=
  ∀ native id, calls !! (section, native) = Some id → ∃ u, latestCall es native u ∧ SourceEntryRef u = id.

Lemma paired_nil : paired [].
Proof. intros i e Hi. by rewrite lookup_nil in Hi. Qed.

Lemma paired_snoc es e : paired es → answered es e → paired (es ++ [e]).
Proof.
  intros Hp He i x Hi. apply lookup_app_Some in Hi as [Hi|[Hlen Hi]].
  - rewrite take_app_le by (apply lookup_lt_Some in Hi; lia). by apply Hp.
  - apply list_lookup_singleton_Some in Hi as [H0 <-]. replace i with (length es) by lia. by rewrite take_app_length.
Qed.

Lemma latestCall_keep es native u x : latestCall es native u → ¬ nestedCall x native → latestCall (es ++ [x]) native u.
Proof.
  intros (j & Hj & Hn & Hid & Hlast) Hx. exists j. split; [by apply lookup_app_l_Some|]. split; [done|]. split; [done|].
  intros j' u' Hlt [Hj'|[_ [_ <-]%list_lookup_singleton_Some]]%lookup_app_Some; [by eapply Hlast|done].
Qed.

Lemma latestCall_new es native x :
  nestedCall x native → e_ToolCallID x = Some (SourceEntryRef x) → latestCall (es ++ [x]) native x.
Proof.
  intros Hn Hid. exists (length es). split; [by rewrite lookup_app_r, Nat.sub_diag by lia|]. split; [done|]. split; [done|].
  intros j' u' Hlt Hj'%lookup_lt_Some. rewrite length_app in Hj'. simpl in Hj'. lia.
Qed.

Lemma calls_keep section calls es x :
  calls_of section calls es → (∀ native, ¬ nestedCall x native) → calls_of section calls (es ++ [x]).
Proof.
  intros Hc Hx native id Hid. destruct (Hc native id Hid) as (u & Hu & ?). exists u. split; [|done].
  by apply latestCall_keep.
Qed.

Lemma not_call e native : EntryType e ≠ EntryTypeToolUse → ¬ nestedCall e native.
Proof. by intros Hne [Hu _]. Qed.

Lemma assignEntry_paired section n st e st' :
  assignEntry indexByRef byNative section n st e = Ok st' → paired st.1 → calls_of section st.2 st.1 →
  paired st'.1 ∧ calls_of section st'.2 st'.1 ∧ (∃ e', st'.1 = st.1 ++ [e'] ∧ row_id e' = row_id e) ∧
  ∀ s native, s ≠ section → st'.2 !! (s, native) = st.2 !! (s, native).
Proof.
  destruct st as [out calls]. intros Ha Hp Hc. simpl in *. unfold assignEntry in Ha.
  destruct (indexByRef !! SourceEntryRef e) as [rb|] eqn:Hrb; [|done]. pose proof (refs_indexed _ _ Hrb) as Href.
  case_decide as Hd.
  { simplify_eq/=. split; [apply paired_snoc; [done|by exists rb]|]. split; [|split; [by exists e|done]].
    apply calls_keep; [done|]. intros native (_ & ru & Hru & Hdu & _). congruence. }
  destruct (byNative !! _) as [carrier|] eqn:Hcar; [|done].
  case_decide as Hu.
  { apply res_guard_ok in Ha as [_ [= <-]]. simpl. set (e' := with_parent e _ _).
    assert (nestedCall e' (ToolCallKey (block rb))) as Hcall by (split; [done|]; by exists rb).
    assert (e_ToolCallID e' = Some (SourceEntryRef e')) as Hid by (simpl; by rewrite Href).
    split; [apply paired_snoc; [done|]|split; [|split; [by exists e'|]]].
    - exists rb. split; [done|]. intros _. split; [by exists carrier|]. intros Hr. simpl in Hr. congruence.
    - intros native id [[E <-]|[Hne Hold]]%lookup_insert_Some.
      + injection E as <-. exists e'. split; [by apply latestCall_new|by symmetry].
      + destruct (Hc native id Hold) as (u & Hu' & ?). exists u. split; [|done]. apply latestCall_keep; [done|].
        intros (_ & ru & Hru & _ & <-). simpl in Hru. naive_solver.
    - intros s native Hs. rewrite lookup_insert_ne; [done|]. congruence. }
  case_decide as Hr.
  { destruct (calls !! _) as [id|] eqn:Hid; [|done]. simplify_eq/=. set (e' := with_parent e _ _).
    split; [apply paired_snoc; [done|]|split; [by apply calls_keep; [|intros native; apply not_call]|by split; [exists e'|]]].
    exists rb. split; [done|]. intros _. split; [by exists carrier|]. intros _.
    destruct (Hc _ _ Hid) as (u & Hu' & <-). by exists u. }
  simplify_eq/=. set (e' := with_parent e _ _).
  split; [apply paired_snoc; [done|]|split; [by apply calls_keep; [|intros native; apply not_call]|by split; [exists e'|]]].
  exists rb. split; [done|]. intros _. split; [by exists carrier|]. intros Hr'. by destruct Hr.
Qed.

Lemma assign_paired section p calls r :
  assign indexByRef byNative section p calls = Ok r → (∀ native, calls !! (section, native) = None) →
  paired (Entries r.1) ∧ row_id <$> Entries r.1 = row_id <$> Entries p ∧
  ∀ s native, s ≠ section → r.2 !! (s, native) = calls !! (s, native).
Proof.
  unfold assign. intros ([out calls'] & Hf & [= <-])%res_bind_ok Hnone. simpl.
  assert (∀ l n st st', res_fold (assignEntry indexByRef byNative section) n st l = Ok st' →
    paired st.1 → calls_of section st.2 st.1 →
    paired st'.1 ∧ row_id <$> st'.1 = (row_id <$> st.1) ++ (row_id <$> l) ∧
    ∀ s native, s ≠ section → st'.2 !! (s, native) = st.2 !! (s, native)) as Hl.
  { clear -refs_indexed use_not_result. induction l as [|e l IH]; intros n st st'; cbn [res_fold].
    { intros [= <-] ? _. split; [done|]. split; [by rewrite app_nil_r|done]. }
    intros (st1 & H1 & Hrest)%res_bind_ok Hp Hc.
    destruct (assignEntry_paired _ _ _ _ _ H1 Hp Hc) as (Hp1 & Hc1 & (e' & He' & Hid) & Ho1).
    destruct (IH _ _ _ Hrest Hp1 Hc1) as (Hp2 & Hid2 & Ho2). split; [done|]. split.
    - rewrite Hid2, He', fmap_app, <- app_assoc. csimpl. by rewrite Hid.
    - intros s native Hs. by rewrite Ho2, Ho1. }
  apply (Hl _ _ _ _ Hf); [apply paired_nil|]. intros native id Hid. simpl in Hid. by rewrite Hnone in Hid.
Qed.
End assign.

Lemma indexUndropped_spec (key : resolvedBlock → string) resolved r rb :
  indexUndropped key resolved !! r = Some rb → rb ∈ resolved ∧ dropped rb = false ∧ key rb = r.
Proof.
  unfold indexUndropped. intros Hl.
  assert (∀ l m, (∀ r rb, m !! r = Some rb → rb ∈ resolved ∧ dropped rb = false ∧ key rb = r) → l ⊆ resolved →
    ∀ r rb, foldl (λ (m : gmap string resolvedBlock) rb, if dropped rb then m else <[key rb := rb]> m) m l !! r = Some rb →
      rb ∈ resolved ∧ dropped rb = false ∧ key rb = r) as Hf.
  { induction l as [|x l IH]; intros m Hm Hs; [done|]. cbn [foldl]. apply IH; [|set_solver].
    destruct (dropped x) eqn:Ex; [done|]. intros r' rb' [[<- <-]|[_ ?]]%lookup_insert_Some; [|by apply Hm].
    split; [set_solver|done]. }
  by apply (Hf resolved ∅) in Hl; [|intros ? ? ?%lookup_empty_Some|].
Qed.

Lemma remap_paired ps resolved ps' :
  EntryTypeToolUse ≠ EntryTypeToolResult → remapToolParents ps resolved = Ok ps' →
  Forall (paired (indexUndropped ref resolved) (indexUndropped key_of resolved)) (rows ps') ∧
  row_ids <$> rows ps' = row_ids <$> rows ps.
Proof.
  intros Hne. unfold remapToolParents.
  set (ibr := indexUndropped ref resolved). set (bn := indexUndropped key_of resolved).
  assert (∀ r rb, ibr !! r = Some rb → ref rb = r) as Hibr by (by intros r rb (_ & _ & ?)%indexUndropped_spec).
  intros ([m c] & Hm & ([es c'] & Hf & [= <-])%res_bind_ok)%res_bind_ok. simpl in *.
  destruct (assign_paired _ _ Hne Hibr _ _ _ _ Hm) as (Hpm & Hid & Hc); [done|]. unfold rows. simpl. simpl in Hid.
  assert (∀ l n st st', res_fold (assignEarlier ibr bn) n st l = Ok st' →
    Forall (paired ibr bn) ((λ e, Entries (Content e)) <$> st.1) →
    (∀ s native, Z.of_nat n < s → st.2 !! (s, native) = None) →
    Forall (paired ibr bn) ((λ e, Entries (Content e)) <$> st'.1) ∧
    (row_ids ∘ (λ e, Entries (Content e))) <$> st'.1 =
    ((row_ids ∘ (λ e, Entries (Content e))) <$> st.1) ++ ((row_ids ∘ (λ e, Entries (Content e))) <$> l)) as Hl.
  { clear -Hibr Hne. induction l as [|e l IH]; intros n st st'; cbn [res_fold].
    { intros [= <-] ? _. split; [done|by rewrite app_nil_r]. }
    intros (st1 & ([p c] & Ha & [= <-])%res_bind_ok & Hrest)%res_bind_ok Hp Hc. simpl in *.
    destruct (assign_paired _ _ Hne Hibr _ _ _ _ Ha) as (Hp1 & Hid1 & Hc1); [intros; apply Hc; lia|]. simpl in Hid1.
    destruct (IH _ _ _ Hrest) as [HF HI].
    - simpl. rewrite fmap_app, Forall_app. split; [done|]. by repeat constructor.
    - intros s native Hs. simpl. rewrite Hc1, Hc; [done|lia|lia].
    - split; [done|]. rewrite HI. simpl. rewrite fmap_app, <- app_assoc. csimpl. do 2 f_equal. exact Hid1. }
  destruct (Hl _ _ _ _ Hf) as [HF HI]; [constructor|intros s native Hs; simpl in *; rewrite Hc; [done|lia]|].
  split; [by constructor|]. unfold row_ids at 1 3. rewrite Hid. f_equal. rewrite <- !list_fmap_compose. exact HI.
Qed.

(** ** A nested block is in its carrier's partition *)

(** What places a block and names its carrier. *)
Definition place (rb : resolvedBlock) :=
  (section rb, dropped rb, inherited rb, key_of rb, b_Depth (block rb), CarrierNativeKey (block rb)).

(** Blocks of the session are in the section of their carrier, if that is theirs too. *)
Definition carried (l : list resolvedBlock) : Prop :=
  ∀ x y, x ∈ l → y ∈ l → dropped x = false → dropped y = false → inherited x = false → inherited y = false →
    b_Depth (block x) ≠ 0 → key_of y = CarrierNativeKey (block x) → section x = section y.

Lemma carried_place l l' : place <$> l' = place <$> l → carried l → carried l'.
Proof.
  intros E Hc x y Hx Hy Hdx Hdy Hix Hiy Hd Hk.
  assert (∀ z, z ∈ l' → ∃ z', z' ∈ l ∧ place z = place z') as Hl.
  { intros z Hz. assert (place z ∈ place <$> l') as Hin by (by apply list_elem_of_fmap_2).
    rewrite E in Hin. apply list_elem_of_fmap in Hin as (z' & ? & ?). eauto. }
  destruct (Hl x Hx) as (x' & Hx' & Ex). destruct (Hl y Hy) as (y' & Hy' & Ey). unfold place in *.
  injection Ex as E1 E2 E3 E4 E5 E6. injection Ey as F1 F2 F3 F4 F5 F6. rewrite E1, F1. apply Hc; congruence.
Qed.

(** The index of native keys finds every block by its key. *)
Definition keyed (l : list resolvedBlock) (byKey : gmap string nat) : Prop :=
  indexed l byKey ∧ ∀ i rb, l !! i = Some rb → byKey !! key_of rb = Some i.

Lemma indexBlock_keyed bs : ∀ n st st', res_fold indexBlock n st bs = Ok st' → n = length st.1 →
  keyed st.1 st.2 → Forall (λ rb, dropped rb = false) st.1 →
  keyed st'.1 st'.2 ∧ Forall (λ rb, dropped rb = false) st'.1.
Proof.
  induction bs as [|b bs IH]; intros n [l m] st'; cbn [res_fold]; [by intros [= <-]|].
  intros (st1 & H1 & Hrest)%res_bind_ok Hn [Hix Hk] Hd. unfold indexBlock in H1.
  apply res_guard_ok in H1 as [_ H1]. apply res_guard_ok in H1 as [Hnew%bool_decide_eq_true [= <-]]. simpl in *. subst n.
  apply (IH _ _ _ Hrest); simpl.
  - rewrite length_app. simpl. lia.
  - split.
    + intros k c. rewrite length_app. simpl. intros [[_ <-]|[_ Hc%Hix]]%lookup_insert_Some; lia.
    + intros i rb [Hi|[Hge Hi]]%lookup_app_Some.
      * rewrite lookup_insert_ne; [by apply Hk|]. intros E. apply Hk in Hi. congruence.
      * apply list_lookup_singleton_Some in Hi as [Hi <-]. simpl. rewrite lookup_insert_eq. f_equal. lia.
  - apply Forall_app. split; [done|by repeat constructor].
Qed.

Lemma markUncertain_keeps hasEarlier rb rb' :
  markUncertain hasEarlier rb = Ok rb' → key_of rb' = key_of rb ∧ dropped rb' = dropped rb.
Proof.
  unfold markUncertain. destruct (inherited rb); [by intros [= <-]|].
  intros (rb1 & H1 & H2)%res_bind_ok. assert (key_of rb1 = key_of rb ∧ dropped rb1 = dropped rb) as [<- <-].
  { case_decide; [by simplify_eq|]. by apply res_guard_ok in H1 as [_ [= <-]]. }
  destruct (UncertainSubtree _); [|by simplify_eq]. by apply res_guard_ok in H2 as [_ [= <-]].
Qed.

Lemma markUncertain_keyed hasEarlier l l' byKey :
  res_map (markUncertain hasEarlier) l = Ok l' → keyed l byKey → Forall (λ rb, dropped rb = false) l →
  keyed l' byKey ∧ Forall (λ rb, dropped rb = false) l'.
Proof.
  intros Hm%res_map_ok [Hix Hk] Hd. pose proof (Forall2_length _ _ _ Hm) as Hlen. split; [split|].
  - intros k c Hc%Hix. lia.
  - intros i rb Hi. destruct (Forall2_lookup_r _ _ _ _ _ Hm Hi) as (x & Hx & [-> _]%markUncertain_keeps). by apply Hk.
  - rewrite Forall_lookup in Hd |- *. intros i rb Hi.
    destruct (Forall2_lookup_r _ _ _ _ _ Hm Hi) as (x & Hx & [_ ->]%markUncertain_keeps). by eapply Hd.
Qed.

(** A decidable fact may be proved by cases on any proposition. *)
Lemma by_cases (T Q : Prop) `{Decision Q} : (T → Q) → (¬ T → Q) → Q.
Proof. destruct (decide Q); tauto. Qed.

Definition carrier_id (rb : resolvedBlock) :=
  (inherited rb, key_of rb, b_Depth (block rb), CarrierNativeKey (block rb), dropped rb).

Lemma settled_keeps l byKey i rb rb' : settled l byKey i rb rb' → carrier_id rb' = carrier_id rb.
Proof.
  intros (H1 & H2 & H3). destruct (inherited rb) eqn:Hi; [by rewrite H1|].
  refine (by_cases (tainted l byKey i) _ _ _); intros Ht; [by rewrite (H2 eq_refl Ht)|].
  specialize (H3 eq_refl Ht). case_decide; [by rewrite H3|]. by destruct H3 as (c & carrier & _ & _ & ->).
Qed.

Lemma resolveUncertain_carried l byKey hasEarlier l' :
  keyed l byKey → resolveUncertainSubtrees l byKey hasEarlier = Ok l' →
  carried l' ∧ dropped <$> l' = dropped <$> l.
Proof.
  intros [Hix Hk] Hr. destruct (resolveUncertain_cases l byKey hasEarlier Hix) as [[[Hcar _] Hres]|[_ (reason & k & E & _)]];
    [|congruence].
  destruct Hres as (l1 & E & Hlen & Hset). rewrite Hr in E. injection E as <-.
  assert (∀ i x, l' !! i = Some x → ∃ rb, l !! i = Some rb ∧ settled l byKey i rb x) as Hback.
  { intros i x Hx. destruct (lookup_lt_is_Some_2 l i) as [rb Hrb].
    { rewrite <- Hlen. by eapply lookup_lt_Some. }
    exists rb. split; [done|]. destruct (Hset i rb Hrb) as (rb' & ? & ?). by simplify_eq. }
  split.
  - intros x y [i Hi]%list_elem_of_lookup [c Hc]%list_elem_of_lookup _ _ Hix' Hiy Hd Hky.
    destruct (Hback i x Hi) as (rx & Hrx & Hsx). destruct (Hback c y Hc) as (ry & Hry & Hsy).
    pose proof (settled_keeps _ _ _ _ _ Hsx) as [= Ex1 Ex2 Ex3 Ex4 _].
    pose proof (settled_keeps _ _ _ _ _ Hsy) as [= Ey1 Ey2 Ey3 Ey4 _].
    rewrite Ex1 in Hix'. rewrite Ey1 in Hiy. rewrite Ex3 in Hd. rewrite Ey2, Ex4 in Hky.
    pose proof (Hk c ry Hry) as Hkc. rewrite Hky in Hkc.
    assert (b_Depth (block ry) = 0) as Hd0.
    { destruct (Forall_lookup_1 _ _ _ _ Hcar Hrx Hix' Hd) as (c' & ry' & ? & ? & ?). by simplify_eq. }
    assert (linked l byKey i c) as Hlink by (left; by exists rx).
    destruct Hsx as (_ & Hx2 & Hx3). destruct Hsy as (_ & Hy2 & Hy3).
    refine (by_cases (tainted l byKey i) _ _ _); intros Ht.
    + rewrite (Hx2 Hix' Ht), Hy2; [done|done|]. destruct Ht as (j & rj & Hj & ?). exists j, rj. split; [|done].
      eapply rtc_l; [|exact Hj]. by right.
    + specialize (Hx3 Hix' Ht). rewrite decide_False in Hx3 by done. destruct Hx3 as (c' & ry' & Hc' & Hry' & ->). simpl.
      assert (c' = c) as -> by congruence. assert (ry' = ry) as -> by congruence.
      assert (¬ tainted l byKey c) as Hnc.
      { intros (j & rj & Hj & ?). apply Ht. exists j, rj. split; [|done]. eapply rtc_l; [|exact Hj]. by left. }
      specialize (Hy3 Hiy Hnc). rewrite decide_True in Hy3 by done. by rewrite Hy3.
  - apply list_eq. intros i. rewrite !list_lookup_fmap. destruct (l' !! i) as [x|] eqn:Hi.
    + destruct (Hback i x Hi) as (rb & -> & Hs). pose proof (settled_keeps _ _ _ _ _ Hs) as [= _ _ _ _ Ed].
      simpl. by rewrite Ed.
    + apply lookup_ge_None in Hi. by rewrite (proj2 (lookup_ge_None l i)) by lia.
Qed.

(** Mirrors only touch the blocks they drop. *)
Definition undropped_from (l l' : list resolvedBlock) : Prop :=
  ∀ i x, l' !! i = Some x → dropped x = false → l !! i = Some x.

Lemma collapse_undropped l : undropped_from l (collapseProvedMirrors l).
Proof.
  unfold collapseProvedMirrors.
  assert (∀ owner ms l0, undropped_from l0 (foldl (dropMirror owner) l0 ms)) as Hg.
  { induction ms as [|m ms IH]; intros l0; [by intros ?|]. cbn [foldl]. intros i x Hx Hd.
    apply (IH (dropMirror owner l0 m) i x Hx) in Hd as Hx'. unfold dropMirror in Hx'.
    destruct (l0 !! owner) as [o|], (l0 !! m) as [rb|] eqn:Hm; try done.
    apply list_lookup_insert_Some in Hx' as [(_ & <- & _)|[_ ?]]; done. }
  assert (∀ gs l0, undropped_from l0 (foldl (λ r (g : string * list nat), collapseGroup r g.2) l0 gs)) as Hall.
  { induction gs as [|[k g] gs IH]; intros l0; [by intros ?|]. cbn [foldl]. intros i x Hx Hd.
    apply (IH _ i x Hx) in Hd as Hx'. destruct g as [|owner ms]; [done|]. exact (Hg owner ms l0 i x Hx' Hd). }
  apply Hall.
Qed.

Lemma resolve_carried capture resolved : resolveProjectionBlocks capture = Ok resolved → carried resolved.
Proof.
  unfold resolveProjectionBlocks. intros ([l byKey] & Hi & H1)%res_bind_ok. simpl in H1.
  apply res_bind_ok in H1 as (l1 & Hm & H1). apply res_bind_ok in H1 as (l2 & Hu & H1).
  apply res_seq_ok in H1 as [_ [= <-]].
  destruct (indexBlock_keyed _ _ _ _ Hi) as [Hk Hd]; [done| |constructor|].
  { simpl. split; [by intros k c ?%lookup_empty_Some|by intros i rb]. }
  destruct (markUncertain_keyed _ _ _ _ Hm Hk Hd) as [Hk1 Hd1].
  destruct (resolveUncertain_carried _ _ _ _ Hk1 Hu) as [Hc _].
  intros x y [i Hx]%list_elem_of_lookup [j Hy]%list_elem_of_lookup Hdx Hdy.
  pose proof (collapse_undropped _ _ _ Hx Hdx) as Hx'. pose proof (collapse_undropped _ _ _ Hy Hdy) as Hy'.
  by apply Hc; [eapply list_elem_of_lookup_2|eapply list_elem_of_lookup_2| |].
Qed.

(** ** The blocks the rows come from *)

Section allocator.
Context {A : Type} `{!RefAllocator A}.

(** The schema's reference types refuse an empty reference. *)
Hypothesis EntryRef_nonempty : SourceEntryRef_Validate "" = false.
Hypothesis SubmissionRef_nonempty : SubmissionRef_Validate "" = false.

(** The blocks as [remapToolParents] reads them. *)
Definition placedBlocks (capture : ClassifiedCapture) (alloc : A) : result perr (list resolvedBlock) :=
  let? resolved := resolveProjectionBlocks capture in
  let? st := allocateBlockRefs resolved (Prior capture) alloc in
  let? st := allocateSubmissionRefs st.1 (Prior capture) st.2 in
  let? st := layoutProjectionPartitions capture st.1 in
  Ok st.2.

Lemma allocateBlockRefs_place l prior (alloc : A) l1 alloc1 :
  allocateBlockRefs l prior alloc = Ok (l1, alloc1) → place <$> l1 = place <$> l.
Proof.
  unfold allocateBlockRefs. intros ([[mid used] al] & Hfold & [= <- <-])%res_bind_ok.
  destruct (allocateBlockRefs_fold EntryRef_nonempty SubmissionRef_nonempty _ _ _ _ _ _ _ Hfold) as (l' & Hl & Hf2 & _). simpl in *. subst l'.
  assert (∀ rb, place (aliasMirror mid rb) = place rb) as Hal.
  { intros rb. unfold aliasMirror. destruct (dropped rb) eqn:E; [|done]. destruct (owner ← _; _); [|done].
    unfold place. simpl. by rewrite E. }
  transitivity (place <$> mid); [rewrite <- list_fmap_compose; apply list_fmap_ext; intros _ rb _; apply Hal|].
  clear -Hf2. induction Hf2 as [|x y l l' Hxy _ IH]; [done|]. csimpl. rewrite IH. unfold assigned in Hxy.
  by destruct (dropped x) eqn:E; rewrite Hxy; unfold place; simpl; rewrite ?E.
Qed.

Lemma stamp_place byKey rb : place (stampSubmission byKey rb) = place rb.
Proof. unfold stampSubmission. destruct (dropped rb || _); [done|]. by destruct (b_Provenance _). Qed.

(** Undropped blocks are told apart by their reference and by their native key. *)
Definition identified (l : list resolvedBlock) : Prop :=
  ∀ x y, x ∈ l → y ∈ l → dropped x = false → dropped y = false → ref x = ref y ∨ key_of x = key_of y → x = y.

Lemma distinct_refs_ident l l' : ident <$> l' = ident <$> l → distinct_refs l → distinct_refs l'.
Proof.
  intros E Hd i j x y Hx Hy Hdx Hdy Hr.
  assert (∀ i z, l' !! i = Some z → ∃ z', l !! i = Some z' ∧ ident z' = ident z) as Hb.
  { intros k z Hz. apply (f_equal (.!! k)) in E. rewrite !list_lookup_fmap, Hz in E.
    destruct (l !! k) as [z'|]; [|done]. exists z'. split; [done|]. cbn in E. congruence. }
  destruct (Hb i x Hx) as (x' & Hx' & [= _ E1 E2 _]). destruct (Hb j y Hy) as (y' & Hy' & [= _ F1 F2 _]).
  apply (Hd i j x' y'); congruence.
Qed.

Lemma placed_facts capture (alloc : A) res1 alloc1 res2 alloc2 res0 out placed :
  resolveProjectionBlocks capture = Ok res0 → allocateBlockRefs res0 (Prior capture) alloc = Ok (res1, alloc1) →
  allocateSubmissionRefs res1 (Prior capture) alloc1 = Ok (res2, alloc2) →
  layoutProjectionPartitions capture res2 = Ok (out, placed) → carried placed ∧ identified placed.
Proof.
  intros Hres Hal Hsub Hlay. destruct (resolve_core _ _ Hres) as (_ & Hnd & _).
  destruct (allocateBlockRefs_ok EntryRef_nonempty SubmissionRef_nonempty _ _ _ _ _ Hal) as (Hcore & _ & Hdis & _).
  unfold allocateSubmissionRefs in Hsub. apply res_bind_ok in Hsub as ([byKey al] & _ & [= <- _]).
  destruct (layout_ok EntryRef_nonempty SubmissionRef_nonempty _ _ _ _ _ Hlay) as ((l' & Hl' & Hu) & _). cbn [fst snd app] in *. subst l'.
  destruct (laid_out _ _ _ Hu) as [Hid _].
  assert (place <$> placed = place <$> res0) as Hp.
  { rewrite <- (allocateBlockRefs_place _ _ _ _ _ Hal).
    transitivity (place <$> (unplaced <$> placed)); [by rewrite <- list_fmap_compose|]. rewrite Hu, <- !list_fmap_compose.
    apply list_fmap_ext. intros _ x _. apply (stamp_place byKey). }
  split; [eapply carried_place; [exact Hp|by eapply resolve_carried]|].
  rewrite <- (keys_of_core _ _ Hcore) in Hnd. pose proof (distinct_refs_ident _ _ Hid Hdis) as Hrefs.
  pose proof (res3_keys_distinct _ _ _ Hu Hnd) as Hkeys.
  intros x y [i Hx]%list_elem_of_lookup [j Hy]%list_elem_of_lookup Hdx Hdy [Hr|Hk].
  - assert (i = j) as -> by (by eapply Hrefs). congruence.
  - apply (NoDup_fmap_unique key_of placed); try done; by eapply list_elem_of_lookup_2.
Qed.

(** A nested call row of partition [s] whose block has this native call identity. *)
Definition callRow (placed : list resolvedBlock) (s : nat) (u : SessionEntry) (native : string) : Prop :=
  EntryType u = EntryTypeToolUse ∧ Depth u ≠ 0 ∧ ∃ ru, rowOf placed s u ru ∧ ToolCallKey (block ru) = native.

Lemma rowOf_id placed s e e' rb : row_id e = row_id e' → rowOf placed s e' rb → rowOf placed s e rb.
Proof. intros [= E1 E2 _ _] []. split; congruence. Qed.

Lemma depthOf_id e e' rb : row_id e = row_id e' → depthOf e' rb → depthOf e rb.
Proof. unfold depthOf. by intros [= _ _ -> ->]. Qed.

(** The rows of one partition after the assignment, and the blocks they come from. *)
Section rows.
Context (out : projectionPartitions) (placed : list resolvedBlock) (s : nat) (es0 es : list SessionEntry).
Hypothesis out_laid : laid out placed.
Hypothesis placed_identified : identified placed.
Hypothesis rows_before : rows out !! s = Some es0.
Hypothesis rows_kept : row_ids es = row_ids es0.
Hypothesis use_not_result : EntryTypeToolUse ≠ EntryTypeToolResult.

Local Notation byRef := (indexUndropped ref placed).

Lemma row_before x : x ∈ es → ∃ x0, x0 ∈ es0 ∧ row_id x = row_id x0.
Proof.
  intros Hx. assert (row_id x ∈ row_ids es0) as (x0 & ? & ?)%list_elem_of_fmap
    by (rewrite <- rows_kept; by apply list_elem_of_fmap_2).
  eauto.
Qed.

Lemma row_block x : x ∈ es → ∃ rb, rowOf placed s x rb ∧ depthOf x rb.
Proof.
  intros (x0 & Hx0 & E)%row_before. destruct (la_rows _ _ out_laid s es0 x0 rows_before Hx0) as (_ & rb & Hr & Hd).
  exists rb. split; [by eapply rowOf_id|by eapply depthOf_id].
Qed.

Lemma row_indexed x rb rb' : rowOf placed s x rb → byRef !! SourceEntryRef x = Some rb' → rb' = rb.
Proof.
  intros [Hin Hd _ _ Hr _] (Hin' & Hd' & Hr')%indexUndropped_spec. apply placed_identified; try done. left. congruence.
Qed.

Lemma nestedCall_row u native : u ∈ es → is_Some (byRef !! SourceEntryRef u) →
  nestedCall byRef u native ↔ callRow placed s u native.
Proof.
  intros Hu [ru' Hru']. destruct (row_block u Hu) as (ru & Hrow & Hdep).
  pose proof (row_indexed _ _ _ Hrow Hru') as ->. split.
  - intros (Ht & r & Hr & Hd & Hk). simplify_eq. split; [done|]. destruct Hdep as [[_ ?]|Ed]; [congruence|].
    split; [by rewrite Ed|by exists ru].
  - intros (Ht & Hd & r & Hr & Hk). split; [done|]. exists ru.
    pose proof (row_indexed _ _ _ Hr Hru') as E. subst r. split; [done|]. destruct Hdep as [[? _]|Ed]; [done|].
    split; [by rewrite <- Ed|done].
Qed.

(** The carrier's own row is the one found under its index. *)
Lemma carrier_row rb rc c e :
  carried placed → rowOf placed s e rb → b_Depth (block rb) ≠ 0 →
  rc ∈ placed → dropped rc = false → inherited rc = false → key_of rc = CarrierNativeKey (block rb) →
  NoDup (EntryIndex <$> es) → c ∈ es → EntryIndex c = entryIndex rc → rowOf placed s c rc.
Proof.
  intros Hcar [Hin Hd Hi Hsec _ _] Hdep Hrc Hdc Hic Hk Hnd Hc Hix.
  destruct (la_blocks _ _ out_laid rc Hrc Hdc Hic) as (s' & es' & c' & Hes' & Hc' & Hrow).
  assert (s' = s) as ->.
  { pose proof (Hcar rb rc Hin Hrc Hd Hdc Hi Hic Hdep Hk) as Es. rewrite Hsec, (ro_section _ _ _ _ Hrow) in Es. lia. }
  simplify_eq. assert (row_id c' ∈ row_ids es) as (x & Ex & Hx)%list_elem_of_fmap
    by (rewrite rows_kept; by apply list_elem_of_fmap_2).
  assert (x = c) as ->.
  { apply (NoDup_fmap_unique EntryIndex es); [done..|]. injection Ex as _ E2 _ _. rewrite Hix, (ro_index _ _ _ _ Hrow). done. }
  by eapply rowOf_id; [symmetry|].
Qed.
End rows.

(** The partitions of a generation, main first. *)
Definition partitions_of (g : Generation) : list Partition := g_Main g :: (Content <$> g_Earlier g).

Lemma partitions_rows g ps : g_Main g = p_main ps → g_Earlier g = p_earlier ps → Entries <$> partitions_of g = rows ps.
Proof. intros Hm He. unfold partitions_of, rows. csimpl. by rewrite Hm, He, <- list_fmap_compose. Qed.

(** C26: In a built generation a nested tool result is paired with its call and hung
    from its carrier by native identity.  Undropped blocks are told apart by
    reference and by native key, and the result's row is the row of one block of its
    partition.  Both it and a nested tool-use row before it, in the same partition,
    carry the reference of that row as call identity, and that row is the latest one
    before the result whose block has the native call identity of the result's
    block.  Its parent index is the position given to the block whose native key is
    the carrier key of the result's block, it is the index of a depth-0 row of the
    partition and, when the carrier is not inherited, that row is the carrier's own.
    (The schema's two tool entry types are distinct and its reference types refuse
    an empty reference.) *)
Theorem tool_results_paired (capture : ClassifiedCapture) (alloc : A) g bytes :
  EntryTypeToolUse ≠ EntryTypeToolResult →
  buildGenerationAndContent ValidateSessionRelationships capture alloc = Ok (g, bytes) →
  ∃ placed, placedBlocks capture alloc = Ok placed ∧ identified placed ∧
    ∀ s p i e, partitions_of g !! s = Some p → Entries p !! i = Some e → EntryType e = EntryTypeToolResult →
      0 < Depth e → ∃ rb, rowOf placed s e rb ∧
      (∃ j u, (j < i)%nat ∧ Entries p !! j = Some u ∧ callRow placed s u (ToolCallKey (block rb)) ∧
         e_ToolCallID u = Some (SourceEntryRef u) ∧ e_ToolCallID e = Some (SourceEntryRef u) ∧
         ∀ j' u', (j < j' < i)%nat → Entries p !! j' = Some u' → ¬ callRow placed s u' (ToolCallKey (block rb))) ∧
      (∃ rc c, rc ∈ placed ∧ dropped rc = false ∧ key_of rc = CarrierNativeKey (block rb) ∧
         c ∈ Entries p ∧ Depth c = 0 ∧ ParentIndex e = Some (EntryIndex c) ∧ EntryIndex c = entryIndex rc ∧
         (inherited rc = false → rowOf placed s c rc)).
Proof.
  intros Hne. rewrite build_assemble.
  intros (_ & _ & (res0 & Hres & ([res1 al1] & Hal & ([res2 al2] & Hsub & Hb)%res_bind_ok)%res_bind_ok)%res_bind_ok)%res_bind_ok.
  cbn [fst snd] in *. apply assemble_steps in Hb as (ps0 & placed & ps1 & ps & Hlay & Hremap & Hatt & _ & _ & _ & Hm & He & Hval).
  destruct (placed_facts _ _ _ _ _ _ _ _ _ Hres Hal Hsub Hlay) as [Hcar Hid].
  exists placed. split; [|split; [done|]].
  { unfold placedBlocks. rewrite Hres. simpl. rewrite Hal. simpl. rewrite Hsub. simpl. by rewrite Hlay. }
  apply layout_laid in Hlay. destruct (remap_paired _ _ _ Hne Hremap) as [Hpaired Hrows].
  rewrite <- (attach_rows _ _ _ Hatt) in Hpaired, Hrows. rewrite <- (partitions_rows _ _ Hm He) in Hpaired, Hrows.
  intros s p i e Hp Hi Hr Hd. apply Generation_Validate_ok in Hval. destruct (go_body _ _ Hval) as [Hmain Hearly _ _ _ _ _ _].
  assert (PartitionOk (m_SessionID (g_Metadata g)) (ModelHarness (g_Metadata g)) p) as Hok.
  { apply list_elem_of_lookup_2, elem_of_cons in Hp as [->|(x & -> & Hx)%list_elem_of_fmap]; [done|]. by apply Hearly. }
  pose proof (list_elem_of_lookup_2 _ _ _ Hi) as Hin.
  assert (∃ es0, rows ps0 !! s = Some es0 ∧ row_ids (Entries p) = row_ids es0) as (es0 & Hs0 & Hkept).
  { apply (f_equal (.!! s)) in Hrows. rewrite !list_lookup_fmap, Hp in Hrows. destruct (rows ps0 !! s) as [es0|]; [|done].
    exists es0. split; [done|]. by injection Hrows. }
  rewrite Forall_forall in Hpaired.
  specialize (Hpaired (Entries p) (list_elem_of_fmap_2 _ _ _ (list_elem_of_lookup_2 _ _ _ Hp))).
  assert (∀ j x, Entries p !! j = Some x → is_Some (indexUndropped ref placed !! SourceEntryRef x)) as Hsome.
  { intros j x Hx. destruct (Hpaired j x Hx) as (y & -> & _). done. }
  destruct (row_block _ _ _ _ _ Hlay Hs0 Hkept e Hin) as (rb & Hrow & Hdep).
  destruct (Hpaired i e Hi) as (rb' & Hrb' & Hans). pose proof (row_indexed _ _ Hid _ _ _ Hrow Hrb') as ->.
  assert (b_Depth (block rb) ≠ 0) as Hnd by (destruct Hdep as [[? _]|<-]; lia).
  destruct (Hans Hnd) as [(rc & Hrc & Hpar) Hcall]. exists rb. split; [done|]. split.
  - destruct (Hcall Hr) as (u & (j & Hj & Hn & Hidu & Hlast) & Hide). apply lookup_take_Some in Hj as [Hj Hlt].
    assert (∀ k x native, Entries p !! k = Some x → nestedCall (indexUndropped ref placed) x native ↔ callRow placed s x native) as Hrowc.
    { intros k x native Hx. eapply nestedCall_row; try done; [by eapply list_elem_of_lookup_2|by eapply Hsome]. }
    exists j, u. split; [done|]. split; [done|]. split; [by eapply Hrowc|]. split; [done|]. split; [done|].
    intros j' u' [Hj1 Hj2] Hu' Hc%(Hrowc j'); [|done]. eapply (Hlast j' u'); [done| |exact Hc]. by rewrite lookup_take_lt.
  - apply indexUndropped_spec in Hrc as (Hin' & Hdr & Hk).
    destruct (po_parents _ _ _ Hok e _ Hin Hpar) as (c & Hc & Hcx & Hc0). exists rc, c.
    split; [done|]. split; [done|]. split; [done|]. split; [done|]. split; [done|]. split; [by rewrite Hcx|].
    split; [done|]. intros Hic. by eapply carrier_row; [..|apply (po_index _ _ _ Hok)|exact Hc|exact Hcx].
Qed.
End allocator.
End pairing.

(** ** Examples *)

#[local] Existing Instance demoSchema.
#[local] Existing Instance demoEvidence.
#[local] Existing Instance demoOrder.
#[local] Existing Instance demoAllocator.

(** Two calls of one carrier whose results arrive in the other order. *)
Definition demoCalls : ClassifiedCapture :=
  demoCapture []
    [demoPrompt "p1" "s1"; demoBlock "turn" 0 false "text" 0 "" ""; demoBlock "a" 0 false "tool_use" 1 "turn" "c1";
     demoBlock "b" 0 false "tool_use" 1 "turn" "c2"; demoBlock "rb" 0 false "tool_result" 1 "turn" "c2";
     demoBlock "ra" 0 false "tool_result" 1 "turn" "c1"] NewProjectionPriorState.

Example demo_calls_paired :
  (let? g := BuildGeneration demoRelationships demoCalls 0%nat in
   Ok ((λ e, (SourceEntryRef e, ParentIndex e, e_ToolCallID e)) <$> Entries (g_Main g))) =
  Ok [("r0", None, None); ("r1", None, None); ("r2", Some 1, Some "r2"); ("r3", Some 1, Some "r3");
      ("r4", Some 1, Some "r3"); ("r5", Some 1, Some "r2")].
Proof. by vm_compute. Qed.

Lemma tool_results_paired_witness :
  ∃ g bytes placed e, buildGenerationAndContent demoRelationships demoCalls 0%nat = Ok (g, bytes) ∧
    Entries (g_Main g) !! 5%nat = Some e ∧ EntryType e = "tool_result" ∧
    ∃ rb rc c, rowOf placed 0 e rb ∧ key_of rc = CarrierNativeKey (block rb) ∧
      c ∈ Entries (g_Main g) ∧ ParentIndex e = Some (EntryIndex c).
Proof.
  assert (∃ g bytes e, buildGenerationAndContent demoRelationships demoCalls 0%nat = Ok (g, bytes) ∧
    Entries (g_Main g) !! 5%nat = Some e ∧ EntryType e = "tool_result" ∧ 0 < Depth e) as (g & bytes & e & Hb & He & Ht & Hd).
  { eexists _, _, _. split; [vm_compute; reflexivity|]. by vm_compute. }
  assert (SourceEntryRef_Validate "" = false) as H1 by reflexivity.
  assert (SubmissionRef_Validate "" = false) as H2 by reflexivity.
  assert (EntryTypeToolUse ≠ EntryTypeToolResult) as H3 by discriminate.
  destruct (tool_results_paired demoRelationships H1 H2 demoCalls 0%nat g bytes H3 Hb) as (placed & _ & _ & Hrows).
  destruct (Hrows 0%nat (g_Main g) 5%nat e eq_refl He Ht Hd) as (rb & Hrow & _ & rc & c & _ & _ & Hk & Hc & _ & Hp & _).
  exists g, bytes, placed, e. split; [exact Hb|]. split; [exact He|]. split; [exact Ht|].
  exists rb, rc, c. split; [exact Hrow|]. split; [exact Hk|]. split; [exact Hc|exact Hp].
Defined.
