(* ===== verification/ServedBounds.v ===== *)
(** * The display bound on served text

    internal/transcript/served_bounds.go with the size rendering of
    internal/defaults/bytesize.go: the texts of a session detail are cut to one
    shared number of bytes, each with a visible note, so that the encoded
    document fits its budget.  Sizes are [Z]; a text is a byte string.

    [servedTextField.target] is a pointer into the payload.  Here the payload's
    texts are listed in document order ([texts]) and assigned through the list of
    fields by [write], which puts the i-th text where the i-th was read. *)
From stdpp Require Import pretty.
From S2P Require Import Prelude GoStrings Utf8.

From Stdlib Require Import Ascii.
Local Open Scope string_scope.
Local Open Scope list_scope.
Local Open Scope Z_scope.

Definition slen (s : string) : Z := Z.of_nat (String.length s).

(** ** [HumanByteSize] *)

(** The integer nearest to [n / d], the even one of two. *)
Definition round_half_even (n d : Z) : Z :=
  let q := n / d in
  let r := n mod d in
  if decide (2 * r < d) then q
  else if decide (d < 2 * r) then q + 1
  else if Z.even q then q else q + 1.

(** [float64(size)]: the sizes above 2^53 are rounded to 53 bits. *)
Definition float64_of_int (size : Z) : Z :=
  if decide (size < 2 ^ 53) then size
  else let u := 2 ^ (Z.log2 size - 52) in round_half_even size u * u.

Definition unit_ : Z := 1024.
Definition units : list string := ["KiB"; "MiB"; "GiB"; "TiB"].

(** [trimWholeByteSize] of the value [tenths / 10] that [%.1f] rounds to. *)
Definition trimWholeByteSize (tenths : Z) : string :=
  if decide (tenths mod 10 = 0) then pretty (tenths / 10)
  else pretty (tenths / 10) +:+ "." +:+ pretty (tenths mod 10).

(** The loop over the units.  The divisions by 1024 are exact in binary floating
    point, so [value] is the fraction [num / den] and is never stored rounded. *)
Fixpoint human_units (us : list string) (num den : Z) : string :=
  match us with
  | [] => ""
  | suffix :: us =>
    let den := den * unit_ in
    if decide (100 * num < 102395 * den ∨ us = []) then
      trimWholeByteSize (round_half_even (10 * num) den) +:+ " " +:+ suffix
    else human_units us num den
  end.

Definition HumanByteSize (size : Z) : string :=
  if decide (size < unit_) then pretty (if decide (size < 0) then 0 else size) +:+ " B"
  else human_units units (float64_of_int size) 1.

Example human_sizes :
  HumanByteSize <$> [-3; 1023; 1024; 1995; 1997; 1048575; 268435456; 2 ^ 60] =
  ["0 B"; "1023 B"; "1 KiB"; "1.9 KiB"; "2 KiB"; "1 MiB"; "256 MiB"; "1048576 TiB"].
Proof. by vm_compute. Qed.

(** ** [json.Marshal] of a string *)

Definition hex_digit (n : N) : ascii := if decide (n < 10)%N then byte (48 + n) else byte (87 + n).
Definition quote : ascii := "034"%char.

(** An ASCII byte: quotes, controls and the HTML characters are escaped. *)
Definition json_ascii (a : ascii) : string :=
  let n := N_of_ascii a in
  if decide (a = quote ∨ a = backslash) then String backslash (str1 a)
  else if decide (n = 8)%N then "\b" else if decide (n = 12)%N then "\f"
  else if decide (n = 10)%N then "\n" else if decide (n = 13)%N then "\r"
  else if decide (n = 9)%N then "\t"
  else if decide ((n < 32)%N ∨ n ∈ [38; 60; 62]%N) then
    "\u00" +:+ String (hex_digit (n / 16)) (str1 (hex_digit (n mod 16)))
  else str1 a.

(** The body between the quotes; a byte that starts no well-formed rune is the
    replacement character, and the two line separators are escaped. *)
Fixpoint json_body (s : string) : string :=
  match s with
  | EmptyString => EmptyString
  | String a s1 =>
    if between 0 127 a then json_ascii a +:+ json_body s1
    else match s1 with
    | EmptyString => "\ufffd"
    | String b s2 =>
      if two_byte a b then String a (String b (json_body s2))
      else match s2 with
      | EmptyString => "\ufffd" +:+ json_body s1
      | String c s3 =>
        if three_byte a b c then
          (if decide (a = byte 226 ∧ b = byte 128 ∧ (c = byte 168 ∨ c = byte 169))
           then "\u202" +:+ str1 (hex_digit (N_of_ascii c mod 16))
           else String a (String b (str1 c))) +:+ json_body s3
        else match s3 with
        | EmptyString => "\ufffd" +:+ json_body s1
        | String d s4 =>
          if four_byte a b c d then String a (String b (String c (String d (json_body s4))))
          else "\ufffd" +:+ json_body s1
        end
      end
    end
  end.

Definition json_string (s : string) : string := String quote (json_body s +:+ str1 quote).

Definition jsonEncodedStringLen (s : string) : Z := slen (json_string s).

Example json_escapes :
  json_string ("a<" +:+ str1 quote +:+ str1 (byte 10) +:+ str1 (byte 1) +:+ str1 (byte 200)
               +:+ utf8_encode 8232 +:+ utf8_encode 233) =
  str1 quote +:+ "a\u003c\" +:+ str1 quote +:+ "\n\u0001\ufffd\u2028" +:+ utf8_encode 233 +:+ str1 quote.
Proof. by vm_compute. Qed.

(** ** Kinds and budgets *)

(** A [uint8]. *)
Definition ServedTextKind : Type := N.
Definition ServedTextToolResult : ServedTextKind := 0%N.
Definition ServedTextToolArguments : ServedTextKind := 1%N.
Definition ServedTextTurnContent : ServedTextKind := 2%N.

Definition ServedTextKind_String (k : ServedTextKind) : string :=
  if decide (k = ServedTextToolResult) then "tool result"
  else if decide (k = ServedTextToolArguments) then "tool arguments"
  else if decide (k = ServedTextTurnContent) then "turn content"
  else "served text".

Definition ServedTextKind_IsValid (k : ServedTextKind) : bool := (k <=? ServedTextTurnContent)%N.

Record ServedDocumentBudget := { perField : Z; document : Z }.

Inductive BudgetError := UnusableSizes | FieldExceedsDocument.

Definition NewServedDocumentBudget (perField document : Z) : result BudgetError ServedDocumentBudget :=
  if decide (perField < 0 ∨ document <= 0) then Err UnusableSizes
  else if decide (document < perField) then Err FieldExceedsDocument
  else Ok {| perField := perField; document := document |}.

Definition SessionDetailDocumentCapBytes : Z := Z.shiftl 128 20.
Definition ServedDetailDocumentMarginBytes : Z := Z.shiftl 1 20.
Definition ServedDetailDocumentBudgetBytes : Z := SessionDetailDocumentCapBytes - ServedDetailDocumentMarginBytes.
Definition ServedTextFieldBudgetBytes : Z := Z.shiftl 1 20.

Definition DefaultServedDocumentBudget : ServedDocumentBudget :=
  {| perField := ServedTextFieldBudgetBytes; document := ServedDetailDocumentBudgetBytes |}.

(** ** One text *)

(** The loop of [cutServedTextAt]. *)
Fixpoint back_off (text : string) (cut : nat) : nat :=
  match cut with
  | O => O
  | S cut' =>
    match String.get cut text with
    | Some b => if RuneStart b then cut else back_off text cut'
    | None => cut
    end
  end.

Definition cutServedTextAt (text : string) (showBytes : Z) : nat :=
  if decide (showBytes <= 0) then O
  else if decide (slen text <= showBytes) then String.length text
  else back_off text (Z.to_nat showBytes).

Definition servedBoundNote (kind : ServedTextKind) (shown recorded : Z) : string :=
  str1 (byte 10) +:+ "[" +:+ ServedTextKind_String kind +:+ " bounded for display: showing "
  +:+ HumanByteSize shown +:+ " of " +:+ HumanByteSize recorded
  +:+ "; the full record is kept by the peasant store that recorded this session]".

Definition boundServedText (kind : ServedTextKind) (text : string) (showBytes : Z) : string :=
  if decide (slen text <= showBytes) then text
  else
    let shown := str_take (cutServedTextAt text showBytes) text in
    let bounded := shown +:+ servedBoundNote kind (slen shown) (slen text) in
    if decide (slen text <= slen bounded) then text else bounded.

(** ** The payload *)

(** What carries bounded texts: its texts in document order, and the assignment
    of texts from a supply, which returns what is left of the supply. *)
Class Texts (A : Type) := {
  texts : A → list (ServedTextKind * string);
  write : list string → A → A * list string;
}.

Fixpoint write_list {A} `{Texts A} (ts : list string) (l : list A) : list A * list string :=
  match l with
  | [] => ([], ts)
  | x :: l =>
    let (x', ts1) := write ts x in
    let (l', ts2) := write_list ts1 l in
    (x' :: l', ts2)
  end.

#[export] Instance list_Texts {A} `{Texts A} : Texts (list A) := {
  texts l := l ≫= texts;
  write := write_list;
}.

(** The schema's structs; [X] is everything the bound does not touch. *)
Record ToolCall (X : Type) := { Arguments_ : string; Result : string; call_rest : X }.
Record Turn (X : Type) := { Content : string; ToolCalls : list (ToolCall X); turn_rest : X }.
Record HistorySection (X : Type) := { section_Turns : list (Turn X); section_rest : X }.
Record SessionDetailPayload (X : Type) := {
  Turns : list (Turn X);
  EarlierHistory : list (HistorySection X);
  detail_rest : X;
}.
Arguments Arguments_ {X}.
Arguments Result {X}.
Arguments call_rest {X}.
Arguments Content {X}.
Arguments ToolCalls {X}.
Arguments turn_rest {X}.
Arguments section_Turns {X}.
Arguments section_rest {X}.
Arguments Turns {X}.
Arguments EarlierHistory {X}.
Arguments detail_rest {X}.

#[export] Instance ToolCall_Texts {X} : Texts (ToolCall X) := {
  texts c := [(ServedTextToolArguments, Arguments_ c); (ServedTextToolResult, Result c)];
  write ts c :=
    match ts with
    | a :: r :: ts => ({| Arguments_ := a; Result := r; call_rest := call_rest c |}, ts)
    | _ => (c, ts)
    end;
}.

#[export] Instance Turn_Texts {X} : Texts (Turn X) := {
  texts t := (ServedTextTurnContent, Content t) :: texts (ToolCalls t);
  write ts t :=
    match ts with
    | c :: ts =>
      let (calls, ts) := write ts (ToolCalls t) in
      ({| Content := c; ToolCalls := calls; turn_rest := turn_rest t |}, ts)
    | [] => (t, [])
    end;
}.

#[export] Instance HistorySection_Texts {X} : Texts (HistorySection X) := {
  texts s := texts (section_Turns s);
  write ts s :=
    let (turns, ts) := write ts (section_Turns s) in
    ({| section_Turns := turns; section_rest := section_rest s |}, ts);
}.

#[export] Instance SessionDetailPayload_Texts {X} : Texts (SessionDetailPayload X) := {
  texts d := texts (Turns d) ++ texts (EarlierHistory d);
  write ts d :=
    let (turns, ts) := write ts (Turns d) in
    let (history, ts) := write ts (EarlierHistory d) in
    ({| Turns := turns; EarlierHistory := history; detail_rest := detail_rest d |}, ts);
}.

(** [servedTextField]; its target is its position. *)
Record servedTextField := { original : string; encoded : Z; kind : ServedTextKind }.

Definition servedField (f : ServedTextKind * string) : servedTextField :=
  {| original := f.2; encoded := jsonEncodedStringLen f.2; kind := f.1 |}.

Definition collectServedTextFields {A} `{Texts A} (d : A) : list servedTextField := servedField <$> texts d.

Definition boundField (showBytes : Z) (f : servedTextField) : string :=
  boundServedText (kind f) (original f) showBytes.

Definition applyServedBound {A} `{Texts A} (fields : list servedTextField) (showBytes : Z) (d : A) : A :=
  (write (boundField showBytes <$> fields) d).1.

Definition servedTextWasBounded (showBytes : Z) (f : servedTextField) : bool :=
  negb (bool_decide (boundField showBytes f = original f)).

(** ** The search *)

Definition servedDocumentSize (fields : list servedTextField) (base showBytes : Z) : Z :=
  foldl (λ size f,
    if decide (slen (original f) <= showBytes) then size + encoded f
    else size + jsonEncodedStringLen (boundField showBytes f)) base fields.

Section search.
Context (fits : Z → bool).

(** The halving loop. *)
Fixpoint halve (fuel : nat) (low high best : Z) : Z :=
  match fuel with
  | O => best
  | S fuel =>
    if decide (low <= high) then
      let middle := low + (high - low) / 2 in
      if fits middle then halve fuel (middle + 1) high middle
      else halve fuel low (middle - 1) best
    else best
  end.

(** [for best > 0 && !fits(best) { best-- }]. *)
Fixpoint step_down (fuel : nat) (best : Z) : Z :=
  match fuel with
  | O => best
  | S fuel => if decide (0 < best) then if fits best then best else step_down fuel (best - 1) else best
  end.

Fixpoint step_up (steps : nat) (limit best : Z) : Z :=
  match steps with
  | O => best
  | S steps =>
    if decide (best < limit) then if fits (best + 1) then step_up steps limit (best + 1) else best else best
  end.
End search.

Definition servedBoundSearchDipBytes : nat := 8.

(** An [int] is below 2^63, so 64 halvings are enough. *)
Definition servedFittingBound (fields : list servedTextField) (base : Z) (budget : ServedDocumentBudget) : Z * bool :=
  let fits b := bool_decide (servedDocumentSize fields base b <= document budget) in
  if fits (perField budget) then (perField budget, true)
  else if negb (fits 0) then (0, false)
  else
    let best := halve fits 64 1 (perField budget) 0 in
    let best := step_down fits (Z.to_nat best) best in
    (step_up fits servedBoundSearchDipBytes (perField budget) best, true).

(** ** [BoundServedDetail] *)

Record ServedBoundReport := { AppliedBytes : Z; BoundedFields : nat; WithinDocumentBudget : bool }.

(** [len(json.Marshal(detail))], [None] when the payload does not encode. *)
Class DetailJson (A : Type) := marshalLen : A → option Z.

Definition servedDocumentBaseSize {A} `{Texts A, DetailJson A} (d : A) (fields : list servedTextField) : option Z :=
  n ← marshalLen (write ((λ _, EmptyString) <$> fields) d).1;
  Some (n - 2 * Z.of_nat (length fields)).

Definition BoundServedDetail {A} `{Texts A, DetailJson A} (detail : option A) (budget : ServedDocumentBudget)
    : option A * ServedBoundReport :=
  let report := {| AppliedBytes := perField budget; BoundedFields := 0; WithinDocumentBudget := true |} in
  match detail with
  | None => (None, report)
  | Some d =>
    let fields := collectServedTextFields d in
    if decide (fields = []) then (Some d, report)
    else
      let d := applyServedBound fields (perField budget) d in
      let '(d, bound, within) :=
        match servedDocumentBaseSize d fields with
        | Some base =>
          let (bound, within) := servedFittingBound fields base budget in
          (applyServedBound fields bound d, bound, within)
        | None => (d, perField budget, true)
        end in
      (Some d, {| AppliedBytes := bound;
                  BoundedFields := length (filter (λ f, servedTextWasBounded bound f = true) fields);
                  WithinDocumentBudget := within |})
  end.

(** ** Assigning texts *)

Definition n_texts {A} `{Texts A} (a : A) : nat := length (texts a).

(** Assigning from a long enough supply takes one text per field, in order, and
    changes nothing else. *)
Record write_ok {A} `{Texts A} (a : A) : Prop := {
  write_rest : ∀ ts, (n_texts a ≤ length ts)%nat → (write ts a).2 = drop (n_texts a) ts;
  write_texts : ∀ ts, (n_texts a ≤ length ts)%nat →
    texts (write ts a).1 = zip (texts a).*1 (take (n_texts a) ts);
  write_write : ∀ ts ts', (n_texts a ≤ length ts)%nat → (n_texts a ≤ length ts')%nat →
    write ts' (write ts a).1 = write ts' a;
  write_id : ∀ ts, write ((texts a).*2 ++ ts) a = (a, ts);
}.

Class TextsLaws (A : Type) `{Texts A} : Prop := write_law (a : A) : write_ok a.

(** Two parts side by side share a supply. *)
Lemma zip_split {A B} (k1 k2 : list A) (l : list B) n1 n2 :
  length k1 = n1 → zip (k1 ++ k2) (take (n1 + n2) l) = zip k1 (take n1 l) ++ zip k2 (take n2 (drop n1 l)).
Proof.
  intros <-. revert l. induction k1 as [|k k1 IH]; intros l; simpl; [done|].
  destruct l as [|x l]; simpl; [by rewrite take_nil, zip_with_nil_r|]. by rewrite IH.
Qed.

Section pair_laws.
Context {A B : Type} `{Texts A, Texts B} (a : A) (b : B).
Hypothesis Ha : write_ok a.
Hypothesis Hb : write_ok b.

Definition write2 (ts : list string) (a : A) (b : B) : A * B * list string :=
  let (a', ts) := write ts a in let (b', ts) := write ts b in (a', b', ts).

Lemma write2_eq ts :
  (n_texts a + n_texts b ≤ length ts)%nat →
  write2 ts a b = ((write ts a).1, (write (drop (n_texts a) ts) b).1, drop (n_texts a + n_texts b) ts).
Proof.
  intros Hts. unfold write2. pose proof (write_rest a Ha ts ltac:(lia)) as Ea.
  pose proof (write_rest b Hb (drop (n_texts a) ts) ltac:(rewrite length_drop; lia)) as Eb.
  destruct (write ts a) as [a' ts']. simpl in *. subst ts'.
  destruct (write (drop (n_texts a) ts) b) as [b' ts']. simpl in *. by rewrite Eb, drop_drop.
Qed.

Lemma write2_texts ts :
  (n_texts a + n_texts b ≤ length ts)%nat →
  texts (write2 ts a b).1.1 ++ texts (write2 ts a b).1.2 =
  zip (texts a ++ texts b).*1 (take (n_texts a + n_texts b) ts).
Proof.
  intros Hts. rewrite write2_eq by done. simpl.
  rewrite (write_texts a Ha), (write_texts b Hb) by (rewrite ?length_drop; lia).
  by rewrite fmap_app, zip_split by (by rewrite length_fmap).
Qed.

Lemma write2_write ts ts' :
  (n_texts a + n_texts b ≤ length ts)%nat → (n_texts a + n_texts b ≤ length ts')%nat →
  write2 ts' (write2 ts a b).1.1 (write2 ts a b).1.2 = write2 ts' a b.
Proof.
  intros Hts Hts'. rewrite (write2_eq ts) by done. simpl. unfold write2.
  pose proof (write_rest a Ha ts' ltac:(lia)) as Ea. rewrite (write_write a Ha) by lia.
  destruct (write ts' a) as [a' ts1]. simpl in Ea. subst ts1.
  by rewrite (write_write b Hb) by (rewrite length_drop; lia).
Qed.

Lemma write2_id ts : write2 ((texts a ++ texts b).*2 ++ ts) a b = (a, b, ts).
Proof. unfold write2. by rewrite fmap_app, <- (assoc_L (++)), (write_id a Ha), (write_id b Hb). Qed.

(** A value that assigns its two parts in turn is lawful. *)
Lemma write_ok_pair {C} `{Texts C} (mk : A → B → C) :
  (∀ a b, texts (mk a b) = texts a ++ texts b) →
  (∀ ts a b, write ts (mk a b) = let '(a', b', ts') := write2 ts a b in (mk a' b', ts')) →
  write_ok (mk a b).
Proof.
  intros Ht Hw. assert (n_texts (mk a b) = n_texts a + n_texts b)%nat as Hn
    by (unfold n_texts; by rewrite Ht, length_app).
  split.
  - intros ts Hts. rewrite Hn in *. by rewrite Hw, write2_eq.
  - intros ts Hts. rewrite Hn in *. pose proof (write2_texts ts Hts) as Hp. rewrite Hw, Ht, <- Hp.
    destruct (write2 ts a b) as [[a' b'] ts']. apply Ht.
  - intros ts ts' Hts Hts'. rewrite Hn in *. pose proof (write2_write ts ts' Hts Hts') as Hp.
    rewrite !Hw, <- Hp. destruct (write2 ts a b) as [[a' b'] ts1]. apply Hw.
  - intros ts. by rewrite Ht, Hw, write2_id.
Qed.
End pair_laws.

#[export] Instance list_laws {A} `{TextsLaws A} : TextsLaws (list A).
Proof.
  intros l. induction l as [|x l IH]; [by split|].
  apply (write_ok_pair x l (write_law x) IH cons); [done|]. intros ts y k. unfold write2. simpl.
  destruct (write ts y) as [y' ts1]. by destruct (write_list ts1 k).
Qed.

#[export] Instance ToolCall_laws {X} : TextsLaws (ToolCall X).
Proof.
  intros [a r x]. split; unfold n_texts; simpl; [..|done].
  - intros [|? [|? ?]] ?; simpl in *; [lia..|done].
  - intros [|? [|? ?]] ?; simpl in *; [lia..|done].
  - intros [|? [|? ?]] [|? [|? ?]] ? ?; simpl in *; try lia; done.
Qed.

(** A turn's content alone. *)
Inductive content := ContentOf (s : string).
Instance content_Texts : Texts content := {
  texts '(ContentOf s) := [(ServedTextTurnContent, s)];
  write ts c := match ts with s :: ts => (ContentOf s, ts) | [] => (c, []) end;
}.

Lemma turn_content_ok c : write_ok c.
Proof.
  destruct c as [s]. split; unfold n_texts; simpl; [..|done].
  - intros [|? ?] ?; simpl in *; [lia|done].
  - intros [|? ?] ?; simpl in *; [lia|done].
  - intros [|? ?] [|? ?] ? ?; simpl in *; try lia; done.
Qed.

Lemma calls_nil {X} (calls : list (ToolCall X)) : write_list [] calls = (calls, []).
Proof. induction calls as [|c calls IH]; simpl; [done|]. by rewrite IH. Qed.

#[export] Instance Turn_laws {X} : TextsLaws (Turn X).
Proof.
  intros [s calls x].
  apply (write_ok_pair (ContentOf s) calls (turn_content_ok _) (write_law calls)
    (λ '(ContentOf s) calls, {| Content := s; ToolCalls := calls; turn_rest := x |})).
  - by intros [s'] calls'.
  - intros [|s1 ts] [s'] calls'; unfold write2; simpl; [by rewrite calls_nil|by destruct (write_list ts calls')].
Qed.

#[export] Instance HistorySection_laws {X} : TextsLaws (HistorySection X).
Proof.
  intros [turns x]. destruct (write_law turns) as [Hr Ht Hw Hi]. unfold n_texts in *. simpl in *. split; unfold n_texts; simpl.
  - intros ts Hts. specialize (Hr ts Hts). by destruct (write_list ts turns).
  - intros ts Hts. specialize (Ht ts Hts). by destruct (write_list ts turns).
  - intros ts ts' Hts Hts'. specialize (Hw ts ts' Hts Hts'). destruct (write_list ts turns). simpl in *. by rewrite Hw.
  - intros ts. by rewrite Hi.
Qed.

#[export] Instance SessionDetailPayload_laws {X} : TextsLaws (SessionDetailPayload X).
Proof.
  intros [turns history x].
  apply (write_ok_pair turns history (write_law turns) (write_law history)
    (λ turns history, {| Turns := turns; EarlierHistory := history; detail_rest := x |})); [done|].
  intros ts t h. unfold write2. simpl. destruct (write_list ts t) as [t' ts1]. by destruct (write_list ts1 h).
Qed.

(** ** The search finds a bound that fits below one that does not *)

Section search_spec.
Context (fits : Z → bool) (limit : Z).
Hypothesis limit_unfit : fits limit = false.
Hypothesis zero_fits : fits 0 = true.

Lemma halve_spec fuel low high :
  high - low < 2 ^ Z.of_nat fuel - 1 → 1 <= low → low - 1 <= high <= limit → fits (low - 1) = true →
  (high = limit ∨ fits (high + 1) = false) →
  let b := halve fits fuel low high (low - 1) in
  0 <= b < limit ∧ fits b = true ∧ fits (b + 1) = false.
Proof.
  assert (∀ low, 1 <= low → low - 1 <= limit → fits (low - 1) = true →
    (low - 1 = limit ∨ fits (low - 1 + 1) = false) →
    0 <= low - 1 < limit ∧ fits (low - 1) = true ∧ fits (low - 1 + 1) = false) as Hstop.
  { intros l ? ? Hl [E|Hn]; [rewrite E in *; congruence|]. split_and!; [lia| |done|done].
    destruct (decide (l - 1 = limit)) as [E|]; [rewrite E in *; congruence|lia]. }
  revert low high. induction fuel as [|fuel IH]; intros low high Hfuel Hlow Hrange Hbest Hhigh; simpl.
  { assert (high = low - 1) as -> by lia. apply Hstop; [lia..|done|done]. }
  destruct (decide (low <= high)) as [Hle|Hgt].
  - pose proof (Z.div_mod (high - low) 2 ltac:(lia)). pose proof (Z.mod_pos_bound (high - low) 2 ltac:(lia)).
    rewrite Nat2Z.inj_succ, Z.pow_succ_r in Hfuel by lia.
    set (mid := low + (high - low) / 2) in *. destruct (fits mid) eqn:Hmid.
    + specialize (IH (mid + 1) high). replace (mid + 1 - 1) with mid in IH by lia. apply IH; [lia..|done|done].
    + apply IH; [lia..|done|]. right. by replace (mid - 1 + 1) with mid by lia.
  - assert (high = low - 1) as -> by lia. apply Hstop; [lia..|done|done].
Qed.

Lemma step_down_fits fuel b : fits b = true → step_down fits fuel b = b.
Proof. intros Hb. destruct fuel; simpl; [done|]. rewrite Hb. by case_decide. Qed.

Lemma step_up_stops steps b : fits (b + 1) = false → step_up fits steps limit b = b.
Proof. intros Hb. destruct steps; simpl; [done|]. rewrite Hb. by case_decide. Qed.
End search_spec.

(** The three outcomes of [servedFittingBound]. *)
Lemma servedFittingBound_cases fields base budget :
  0 <= perField budget < 2 ^ 63 →
  let size b := servedDocumentSize fields base b in
  let (b, ok) := servedFittingBound fields base budget in
  size (perField budget) <= document budget ∧ b = perField budget ∧ ok = true ∨
  document budget < size (perField budget) ∧ document budget < size 0 ∧ b = 0 ∧ ok = false ∨
  0 <= b < perField budget ∧ size b <= document budget < size (b + 1) ∧ ok = true.
Proof.
  intros Hper size. set (fits b := bool_decide (size b <= document budget)).
  assert (servedFittingBound fields base budget =
    if fits (perField budget) then (perField budget, true)
    else if negb (fits 0) then (0, false)
    else
      let best := halve fits 64 1 (perField budget) 0 in
      (step_up fits servedBoundSearchDipBytes (perField budget) (step_down fits (Z.to_nat best) best), true)) as -> by reflexivity.
  assert (∀ b, fits b = true ↔ size b <= document budget) as Hfits by (intros; apply bool_decide_eq_true).
  assert (∀ b, fits b = false ↔ ¬ size b <= document budget) as Hunfit by (intros; apply bool_decide_eq_false).
  destruct (fits (perField budget)) eqn:Hlim; [left; by rewrite <- Hfits|].
  destruct (fits 0) eqn:Hzero; cbn [negb]; [|right; left; rewrite Hunfit in *; split_and!; [lia..|done|done]].
  pose proof (halve_spec fits _ Hlim Hzero 64 1 (perField budget)) as Hs. change (1 - 1) with 0 in Hs.
  cbv zeta in *. set (best := halve fits 64 1 (perField budget) 0) in *. clearbody best.
  assert (perField budget ≠ 0) by congruence.
  destruct Hs as (Hb & Hfit & Hnext); [change (2 ^ Z.of_nat 64) with (2 ^ 64); lia|lia..|done|by left|].
  rewrite step_down_fits by done. rewrite step_up_stops by done. right; right.
  apply Hfits in Hfit. apply Hunfit in Hnext. split_and!; [lia..|done].
Qed.

(** ** The bounded document *)

Lemma servedDocumentSize_sum {A} `{Texts A} (d : A) base b :
  servedDocumentSize (collectServedTextFields d) base b =
  base + foldr Z.add 0 (jsonEncodedStringLen ∘ boundField b <$> collectServedTextFields d).
Proof.
  unfold servedDocumentSize, collectServedTextFields. revert base.
  induction (texts d) as [|f l IH]; intros base; csimpl; [lia|]. rewrite IH. clear IH.
  assert (slen f.2 <= b → boundField b (servedField f) = f.2) as Hwhole.
  { intros Hle. unfold boundField, boundServedText. simpl. by rewrite decide_True. }
  destruct (decide (slen f.2 <= b)) as [Hle|]; [rewrite (Hwhole Hle)|]; simpl; lia.
Qed.

(** [json.Marshal] writes a struct's string field as the encoded string and
    leaves the other bytes alone. *)
Class DetailJsonLaws (A : Type) `{Texts A, DetailJson A} : Prop :=
  marshal_texts (d : A) ts ts' n :
    length ts = n_texts d → length ts' = n_texts d → marshalLen (write ts d).1 = Some n →
    marshalLen (write ts' d).1 =
      Some (n - foldr Z.add 0 (jsonEncodedStringLen <$> ts) + foldr Z.add 0 (jsonEncodedStringLen <$> ts')).

Section bounded.
Context {A : Type} `{DetailJsonLaws A, !TextsLaws A}.

Lemma n_fields (d : A) : length (collectServedTextFields d) = n_texts d.
Proof. unfold collectServedTextFields. by rewrite length_fmap. Qed.

Lemma applyServedBound_write (d : A) b b' :
  applyServedBound (collectServedTextFields d) b' (applyServedBound (collectServedTextFields d) b d) =
  applyServedBound (collectServedTextFields d) b' d.
Proof. unfold applyServedBound. by rewrite (write_write d (write_law d)) by (by rewrite length_fmap, n_fields). Qed.

Lemma marshal_bounded (d : A) base b b' :
  servedDocumentBaseSize (applyServedBound (collectServedTextFields d) b d) (collectServedTextFields d) = Some base →
  marshalLen (applyServedBound (collectServedTextFields d) b' d) =
    Some (servedDocumentSize (collectServedTextFields d) base b').
Proof.
  unfold servedDocumentBaseSize, applyServedBound.
  rewrite (write_write d (write_law d)) by (by rewrite length_fmap, n_fields).
  intros (n & Hn & [= <-])%bind_Some.
  rewrite (marshal_texts d ((λ _, EmptyString) <$> collectServedTextFields d) _ n) by (by rewrite ?length_fmap, ?n_fields).
  rewrite servedDocumentSize_sum, list_fmap_compose. f_equal.
  assert (foldr Z.add 0 (jsonEncodedStringLen <$> ((λ _, EmptyString) <$> collectServedTextFields d)) =
    2 * Z.of_nat (length (collectServedTextFields d))) as ->; [|lia].
  clear Hn. induction (collectServedTextFields d) as [|f l IH]; csimpl; [done|]. rewrite IH.
  change (jsonEncodedStringLen EmptyString) with 2. lia.
Qed.

Definition bound_text (b : Z) (f : ServedTextKind * string) : ServedTextKind * string :=
  (f.1, boundServedText f.1 f.2 b).

Lemma applyServedBound_texts (d : A) b :
  texts (applyServedBound (collectServedTextFields d) b d) = bound_text b <$> texts d.
Proof.
  unfold applyServedBound. rewrite (write_texts d (write_law d)) by (by rewrite length_fmap, n_fields).
  rewrite take_ge by (by rewrite length_fmap, n_fields). unfold collectServedTextFields. clear.
  induction (texts d) as [|[k s] l IH]; csimpl; [done|]. by rewrite IH.
Qed.

Lemma applyServedBound_frame (d : A) b ts :
  length ts = n_texts d → write ts (applyServedBound (collectServedTextFields d) b d) = write ts d.
Proof.
  intros Hts. unfold applyServedBound. apply (write_write d (write_law d)); [by rewrite length_fmap, n_fields|lia].
Qed.

Lemma base_encodes (d : A) n b :
  marshalLen d = Some n → is_Some (servedDocumentBaseSize (applyServedBound (collectServedTextFields d) b d) (collectServedTextFields d)).
Proof.
  intros Hn. unfold servedDocumentBaseSize.
  rewrite applyServedBound_frame by (by rewrite length_fmap, n_fields).
  pose proof (write_id d (write_law d) []) as Hid. rewrite (app_nil_r (texts d).*2) in Hid.
  rewrite (marshal_texts d (texts d).*2 _ n); [by eexists|by rewrite length_fmap|by rewrite length_fmap, n_fields|by rewrite Hid].
Qed.

Lemma bounded_count (d : A) b :
  length (filter (λ f, servedTextWasBounded b f = true) (collectServedTextFields d)) =
  length (filter (λ p, p.1 ≠ p.2) (zip (texts d) (bound_text b <$> texts d))).
Proof.
  unfold collectServedTextFields. induction (texts d) as [|[k s] l IH]; csimpl; [done|]. rewrite !filter_cons.
  assert (servedTextWasBounded b (servedField (k, s)) = true ↔ (k, s) ≠ bound_text b (k, s)) as Hb.
  { unfold servedTextWasBounded, boundField, bound_text. simpl. rewrite negb_true_iff, bool_decide_eq_false.
    split; [by intros Hb [= E]|]. intros Hb E. by rewrite E in Hb. }
  destruct (decide (servedTextWasBounded b (servedField (k, s)) = true)) as [Hc|Hc]; rewrite Hb in Hc.
  - rewrite decide_True by done. simpl. by rewrite IH.
  - by rewrite decide_False.
Qed.

(** C33: A payload that encodes and has a text is bounded so that it fits its
    document budget whenever any bound can make it fit: the report says whether
    the encoded result fits; it fails only at bound zero, where every text is down
    to its note; and below the per-field bound one more byte per text would not
    fit.  Every text is the bounded text of the original at the reported bound,
    nothing else of the payload changes, and the count is of the texts changed. *)
Theorem BoundServedDetail_fits (d : A) budget n0 :
  0 <= perField budget < 2 ^ 63 → marshalLen d = Some n0 → texts d ≠ [] →
  ∃ d' r n,
    BoundServedDetail (Some d) budget = (Some d', r) ∧ marshalLen d' = Some n ∧
    0 <= AppliedBytes r <= perField budget ∧
    (WithinDocumentBudget r = true ↔ n <= document budget) ∧
    (WithinDocumentBudget r = false → AppliedBytes r = 0) ∧
    (WithinDocumentBudget r = true → AppliedBytes r < perField budget →
     ∃ m, marshalLen (applyServedBound (collectServedTextFields d) (AppliedBytes r + 1) d) = Some m ∧ document budget < m) ∧
    texts d' = bound_text (AppliedBytes r) <$> texts d ∧
    (∀ ts, length ts = n_texts d → write ts d' = write ts d) ∧
    BoundedFields r = length (filter (λ p, p.1 ≠ p.2) (zip (texts d) (texts d'))).
Proof.
  intros Hper Hn0 Hne. unfold BoundServedDetail. rewrite decide_False by (intros E%fmap_nil_inv; done).
  destruct (base_encodes d n0 (perField budget) Hn0) as [base Hbase]. rewrite Hbase.
  pose proof (servedFittingBound_cases (collectServedTextFields d) base budget Hper) as Hcases.
  destruct (servedFittingBound _ base budget) as [b ok]. cbv zeta in Hcases. rewrite applyServedBound_write.
  eexists _, _, (servedDocumentSize (collectServedTextFields d) base b). split; [reflexivity|]. simpl.
  rewrite !(marshal_bounded d base (perField budget)) by done. rewrite applyServedBound_texts, bounded_count.
  split_and!; [done|lia|lia| | | |done|intros; by apply applyServedBound_frame|done].
  - destruct Hcases as [(? & -> & ->)|[(? & ? & -> & ->)|(? & ? & ->)]]; split; done || lia.
  - destruct Hcases as [(? & -> & ->)|[(? & ? & -> & ->)|(? & ? & ->)]]; done.
  - intros Hok Hlt. eexists. split; [done|].
    destruct Hcases as [(? & -> & _)|[(_ & _ & _ & ->)|(? & ? & _)]]; [lia|done|lia].
Qed.
End bounded.

(** ** One bounded text *)

Lemma pretty_digit_ascii n : (n < 10)%N → between 0 127 (pretty_N_char n) = true.
Proof.
  intros Hn. assert (n ∈ [0; 1; 2; 3; 4; 5; 6; 7; 8; 9]%N) as Hin.
  { rewrite !elem_of_cons. lia. }
  repeat (apply elem_of_cons in Hin as [->|Hin]; [done|]). by apply not_elem_of_nil in Hin.
Qed.

Lemma pretty_N_ascii (n : N) s : ascii_only s → ascii_only (pretty_N_go n s).
Proof.
  revert s. induction (N.lt_wf_0 n) as [n _ IH]; intros s Hs. destruct (decide (0 < n)%N) as [Hn|Hn].
  - rewrite pretty_N_go_step by done. apply IH; [apply N.div_lt; lia|]. simpl. split; [|done].
    apply pretty_digit_ascii, N.mod_lt. lia.
  - assert (n = 0%N) as -> by lia. by rewrite pretty_N_go_0.
Qed.

Lemma pretty_Z_ascii (z : Z) : ascii_only (pretty z).
Proof.
  assert (∀ n : N, ascii_only (pretty n)) as HN.
  { intros n. unfold pretty, pretty_N. case_decide; [by vm_compute|]. by apply pretty_N_ascii. }
  destruct z; [by vm_compute|apply (HN (Npos p))|apply (ascii_only_app "-" _); [by vm_compute|apply (HN (Npos p))]].
Qed.

Lemma human_units_ascii us num den : (∀ u, u ∈ us → ascii_only u) → ascii_only (human_units us num den).
Proof.
  revert den. induction us as [|u us IH]; intros den Hus; [done|]. cbn [human_units].
  destruct (decide _) as [_|_]; [|apply IH; set_solver].
  apply ascii_only_app; [|apply ascii_only_app; [by vm_compute|apply Hus; by left]].
  unfold trimWholeByteSize. destruct (decide _) as [_|_]; [apply pretty_Z_ascii|].
  apply ascii_only_app; [apply pretty_Z_ascii|]. apply ascii_only_app; [by vm_compute|apply pretty_Z_ascii].
Qed.

Lemma HumanByteSize_ascii n : ascii_only (HumanByteSize n).
Proof.
  unfold HumanByteSize. destruct (decide _) as [_|_].
  - apply ascii_only_app; [apply pretty_Z_ascii|by vm_compute].
  - apply human_units_ascii. unfold units. set_unfold. intros u Hu. destruct_or!; try done; subst; by vm_compute.
Qed.

Lemma note_ascii k a b : ascii_only (servedBoundNote k a b).
Proof.
  unfold servedBoundNote. repeat (apply ascii_only_app; [first [apply HumanByteSize_ascii|by vm_compute|idtac]|]);
    [|by vm_compute].
  unfold ServedTextKind_String. repeat destruct (decide _); by vm_compute.
Qed.

(** ** The cut *)

Lemma back_off_spec text n :
  (n < String.length text)%nat →
  (back_off text n ≤ n)%nat ∧ (∀ a, back_off text n ≠ O → String.get (back_off text n) text = Some a → RuneStart a = true) ∧
  ∀ j a, (back_off text n < j ≤ n)%nat → String.get j text = Some a → RuneStart a = false.
Proof.
  induction n as [|n IH]; intros Hn; simpl; [split_and!; [lia|done|lia]|].
  destruct (get_lt text (S n) Hn) as [b Hb]. rewrite Hb.
  destruct (RuneStart b) eqn:Hr; [split_and!; [lia|congruence|lia]|].
  destruct IH as (Hle & Hs & Hj); [lia|]. split_and!; [lia|done|]. intros j a Hjn Ha.
  destruct (decide (j = S n)) as [->|]; [congruence|]. apply (Hj j a); [lia|done].
Qed.

Lemma str_take_length n s : (n ≤ String.length s)%nat → String.length (str_take n s) = n.
Proof. revert n. induction s as [|a s IH]; intros [|n] Hn; simpl in *; [done|lia|done|]. by rewrite IH by lia. Qed.

(** What a bound does to one text. *)
Record bounded_text (kind : ServedTextKind) (text : string) (showBytes : Z) (res : string) : Prop := {
  bounded_short : slen text <= showBytes → res = text;
  bounded_shorter : res ≠ text → slen res < slen text;
  bounded_prefix : res ≠ text → ∃ cut : nat,
    0 <= Z.of_nat cut <= Z.max 0 showBytes ∧
    res = str_take cut text +:+ servedBoundNote kind (Z.of_nat cut) (slen text) ∧
    (∀ a, cut ≠ O → String.get cut text = Some a → RuneStart a = true) ∧
    (∀ j a, (cut < j)%nat → Z.of_nat j <= showBytes → String.get j text = Some a → RuneStart a = false);
  bounded_valid : ValidString text = true → ValidString res = true;
}.

(** [boundServedText] leaves a text alone when it fits the bound or when its
    note would not shorten it; otherwise the result is strictly shorter, a prefix
    of the text followed by the note that names the two sizes, and the prefix is
    the longest one within the bound that ends where a rune starts.  A valid text
    stays valid UTF-8. *)
Theorem boundServedText_ok kind text showBytes :
  bounded_text kind text showBytes (boundServedText kind text showBytes).
Proof.
  unfold boundServedText. destruct (decide (slen text <= showBytes)) as [Hle|Hgt]; [by split|].
  set (cut := cutServedTextAt text showBytes).
  assert ((cut ≤ String.length text)%nat ∧ Z.of_nat cut <= Z.max 0 showBytes ∧
    (∀ a, cut ≠ O → String.get cut text = Some a → RuneStart a = true) ∧
    (∀ j a, (cut < j)%nat → Z.of_nat j <= showBytes → String.get j text = Some a → RuneStart a = false)) as (Hlen & Hc & Hs & Hj).
  { subst cut. unfold cutServedTextAt, slen in *. destruct (decide (showBytes <= 0)); [split_and!; [lia..|done|lia]|].
    rewrite decide_False by lia. destruct (back_off_spec text (Z.to_nat showBytes)) as (? & Hs & Hj); [lia|].
    split_and!; [lia|lia|intros; by apply Hs|]. intros j a ? ? Ha. apply (Hj j a); [lia|done]. }
  clearbody cut. assert (slen (str_take cut text) = Z.of_nat cut) as Hsl by (unfold slen; by rewrite str_take_length).
  rewrite Hsl. set (bounded := _ +:+ _). destruct (decide (slen text <= slen bounded)) as [Hb|Hb]; [by split|].
  split; [lia|lia|exists cut; by split_and!; [lia|..]|]. intros Hv. subst bounded.
  destruct cut as [|cut]; [destruct text; apply ascii_only_valid, note_ascii|].
  rewrite ValidString_app; [apply ascii_only_valid, note_ascii|]. apply valid_prefix; [done|]. intros a Ha. by apply Hs.
Qed.

(** ** The rendering of a size *)

Lemma round_half_even_near n d : 0 < d → Z.abs (2 * (round_half_even n d * d - n)) <= d.
Proof.
  intros Hd. unfold round_half_even. pose proof (Z.div_mod n d ltac:(lia)). pose proof (Z.mod_pos_bound n d Hd).
  destruct (decide (2 * (n mod d) < d)); [nia|]. destruct (decide (d < 2 * (n mod d))); [nia|].
  destruct (Z.even (n / d)); nia.
Qed.

(** A unit is left only for a value that would not render below 1024 in it. *)
Lemma human_units_spec us v den :
  0 < den → us ≠ [] → 102395 * den <= 100 * v →
  ∃ k u q, us !! k = Some u ∧ human_units us v den = trimWholeByteSize q +:+ " " +:+ u ∧
    Z.abs (2 * (q * (den * 1024 ^ Z.of_nat (S k)) - 10 * v)) <= den * 1024 ^ Z.of_nat (S k) ∧
    10 <= q ∧ ((S k < length us)%nat → q < 10240).
Proof.
  revert den. induction us as [|u us IH]; intros den Hden Hus Hv; [done|]. cbn [human_units]. change unit_ with 1024.
  destruct (decide _) as [Hstop|Hgo].
  - exists O, u, (round_half_even (10 * v) (den * 1024)). change (1024 ^ Z.of_nat 1) with 1024.
    pose proof (round_half_even_near (10 * v) (den * 1024) ltac:(lia)) as Hr.
    split_and!; [done|done|done|nia|]. intros Hlen. destruct Hstop as [?| ->]; [nia|simpl in Hlen; lia].
  - destruct (IH (den * 1024)) as (k & u' & q & Hk & Hq & Hnear & Hmin & Hmax);
      [lia|intros E; apply Hgo; by right|destruct (Z.lt_ge_cases (100 * v) (102395 * (den * 1024))); [by destruct Hgo; left|lia]|].
    exists (S k), u', q. replace (den * 1024 ^ Z.of_nat (S (S k))) with (den * 1024 * 1024 ^ Z.of_nat (S k))
      by (rewrite (Nat2Z.inj_succ (S k)), Z.pow_succ_r by lia; ring).
    split_and!; [done..|]. intros Hlen. apply Hmax. simpl in Hlen. lia.
Qed.

(** From a kibibyte on, [HumanByteSize] shows the tenth of a unit nearest to
    the size, at least one whole unit, and below the largest unit never "1024":
    such a size is reported as one of the next unit. *)
Theorem HumanByteSize_accurate size :
  1024 <= size < 2 ^ 53 →
  ∃ k suffix tenths,
    units !! k = Some suffix ∧ HumanByteSize size = trimWholeByteSize tenths +:+ " " +:+ suffix ∧
    Z.abs (2 * (tenths * 1024 ^ Z.of_nat (S k) - 10 * size)) <= 1024 ^ Z.of_nat (S k) ∧
    10 <= tenths ∧ ((k < 3)%nat → tenths < 10240).
Proof.
  intros Hsize. unfold HumanByteSize, float64_of_int, unit_. rewrite decide_False by lia. rewrite decide_True by lia.
  destruct (human_units_spec units size 1) as (k & u & q & Hk & Hq & Hnear & Hmin & Hmax); [lia|done|lia|].
  rewrite Z.mul_1_l in Hnear. exists k, u, q. split_and!; [done..|]. intros ?. apply Hmax. simpl. lia.
Qed.

Lemma HumanByteSize_accurate_witness :
  ∃ k suffix tenths,
    units !! k = Some suffix ∧ HumanByteSize 1048575 = trimWholeByteSize tenths +:+ " " +:+ suffix ∧
    Z.abs (2 * (tenths * 1024 ^ Z.of_nat (S k) - 10 * 1048575)) <= 1024 ^ Z.of_nat (S k) ∧
    10 <= tenths ∧ ((k < 3)%nat → tenths < 10240).
Proof. apply (HumanByteSize_accurate 1048575). split; [by vm_compute|by vm_compute]. Defined.

(** ** A concrete encoder and payload *)

(** An encoder with a fixed frame around the texts. *)
Definition frameJson {A} `{Texts A} (frame : Z) : DetailJson A :=
  λ d, Some (frame + foldr Z.add 0 (jsonEncodedStringLen <$> (texts d).*2)).

Lemma frameJson_laws {A} `{TextsLaws A} frame : @DetailJsonLaws A _ (frameJson frame).
Proof.
  assert (∀ (d : A) ts, length ts = n_texts d → (texts (write ts d).1).*2 = ts) as Ht.
  { intros d ts Hlen. rewrite (write_texts d (write_law d)) by lia. rewrite take_ge by lia.
    apply snd_zip. rewrite length_fmap. unfold n_texts in Hlen. lia. }
  intros d ts ts' n Hts Hts' [= <-]. unfold marshalLen, frameJson. rewrite !Ht by done. f_equal. lia.
Qed.

Fixpoint repeat_a (n : nat) : string := match n with O => EmptyString | S n => String "a" (repeat_a n) end.

Definition demo_detail : SessionDetailPayload () :=
  let turn c r := {| Content := c; ToolCalls := [{| Arguments_ := "{}"; Result := r; call_rest := tt |}]; turn_rest := tt |} in
  {| Turns := [turn "hello" (repeat_a 900)];
     EarlierHistory := [{| section_Turns := [turn (repeat_a 600) "ok"]; section_rest := tt |}];
     detail_rest := tt |}.

Definition demo_budget : ServedDocumentBudget := {| perField := 800; document := 1000 |}.

Lemma BoundServedDetail_fits_witness :
  let json := frameJson (A := SessionDetailPayload ()) 50 in
  ∃ d' r n,
    BoundServedDetail (Some demo_detail) demo_budget = (Some d', r) ∧ marshalLen d' = Some n ∧
    0 <= AppliedBytes r <= perField demo_budget ∧
    (WithinDocumentBudget r = true ↔ n <= document demo_budget) ∧
    (WithinDocumentBudget r = false → AppliedBytes r = 0) ∧
    (WithinDocumentBudget r = true → AppliedBytes r < perField demo_budget →
     ∃ m, marshalLen (applyServedBound (collectServedTextFields demo_detail) (AppliedBytes r + 1) demo_detail) = Some m
       ∧ document demo_budget < m) ∧
    texts d' = bound_text (AppliedBytes r) <$> texts demo_detail ∧
    (∀ ts, length ts = n_texts demo_detail → write ts d' = write ts demo_detail) ∧
    BoundedFields r = length (filter (λ p, p.1 ≠ p.2) (zip (texts demo_detail) (texts d'))).
Proof.
  intros json. pose proof (@frameJson_laws (SessionDetailPayload ()) _ _ 50) as Hlaws.
  apply (@BoundServedDetail_fits _ _ json Hlaws _ demo_detail demo_budget 1573);
    [split; by vm_compute|by vm_compute|done].
Defined.

(** Two texts over the budget share one bound below the per-field bound. *)
Example demo_bounded :
  (@BoundServedDetail _ _ (frameJson (A := SessionDetailPayload ()) 50) (Some demo_detail) demo_budget).2 =
  {| AppliedBytes := 331; BoundedFields := 2; WithinDocumentBudget := true |}.
Proof. by vm_compute. Qed.

(** The chosen bound need not be the largest that fits: where the shown size
    crosses from "1.9 KiB" to "2 KiB" the note loses two bytes, so the document at
    1997 bytes is as small as at 1995 while 1996 is too large. *)
Definition dip_field : servedTextField := servedField (ServedTextTurnContent, repeat_a 3000).
Definition dip_budget : ServedDocumentBudget := {| perField := 2500; document := 2134 |}.

Example largest_bound_dip :
  servedFittingBound [dip_field] 0 dip_budget = (1995, true) ∧
  servedDocumentSize [dip_field] 0 1997 <= document dip_budget.
Proof. by vm_compute. Qed.

(** A payload without a text is reported within any budget. *)
Example unmeasured_within :
  let d := {| Turns := []; EarlierHistory := []; detail_rest := tt |} in
  let json := frameJson (A := SessionDetailPayload ()) 5000 in
  marshalLen d = Some 5000 ∧ WithinDocumentBudget (BoundServedDetail (Some d) demo_budget).2 = true.
Proof. by vm_compute. Qed.

(** The production budget is coherent: the constructor accepts it, below the cap. *)
Example default_budget :
  NewServedDocumentBudget (perField DefaultServedDocumentBudget) (document DefaultServedDocumentBudget) =
    Ok DefaultServedDocumentBudget ∧
  document DefaultServedDocumentBudget < SessionDetailDocumentCapBytes.
Proof. by vm_compute. Qed.
