(* ===== verification/Glob.v ===== *)
(** * Go's [filepath.Match] on Unix, which is [path.Match]

    A pattern is cut into chunks, each a run of stars followed by text without a
    star; a chunk is matched at the current position or, after a star, at the
    first position before the next slash where it matches.  A malformed pattern is
    reported even where the match has already failed. *)
From S2P Require Import Prelude GoStrings.
From Stdlib Require Import Ascii.
Local Open Scope string_scope.
Local Open Scope list_scope.
Local Open Scope nat_scope.

Inductive MatchError := ErrBadPattern | OutOfFuel.

Definition star : ascii := "*"%char.
Definition question : ascii := "?"%char.
Definition lbracket : ascii := "["%char.
Definition rbracket : ascii := "]"%char.
Definition caret : ascii := "^"%char.
Definition dash : ascii := "-"%char.

(** ** Chunks *)

(** The text up to the next star outside a class, and what follows. *)
Fixpoint scan_text (inrange : bool) (p : string) : string * string :=
  match p with
  | EmptyString => (EmptyString, EmptyString)
  | String a p1 =>
    if decide (a = backslash) then
      match p1 with
      | EmptyString => (str1 a, EmptyString)
      | String b p2 => let (c, r) := scan_text inrange p2 in (String a (String b c), r)
      end
    else if decide (a = lbracket) then let (c, r) := scan_text true p1 in (String a c, r)
    else if decide (a = rbracket) then let (c, r) := scan_text false p1 in (String a c, r)
    else if decide (a = star ∧ inrange = false) then (EmptyString, p)
    else let (c, r) := scan_text inrange p1 in (String a c, r)
  end.

(** [scanChunk]. *)
Fixpoint scanChunk (p : string) : bool * string * string :=
  match p with
  | String a p1 =>
    if decide (a = star) then let '(_, chunk, rest) := scanChunk p1 in (true, chunk, rest)
    else let (chunk, rest) := scan_text false p in (false, chunk, rest)
  | EmptyString => (false, EmptyString, EmptyString)
  end.

(** ** Classes *)

Definition getEsc (chunk : string) : result MatchError (N * string) :=
  match chunk with
  | EmptyString => Err ErrBadPattern
  | String a chunk1 =>
    require bool_decide (a ≠ dash ∧ a ≠ rbracket) else ErrBadPattern in
    let chunk := if decide (a = backslash) then chunk1 else chunk in
    require bool_decide (chunk ≠ "") else ErrBadPattern in
    let (r, n) := DecodeRuneInString chunk in
    require negb (bool_decide (r = RuneError ∧ n = 1)) else ErrBadPattern in
    let nchunk := str_drop n chunk in
    require bool_decide (nchunk ≠ "") else ErrBadPattern in
    Ok (r, nchunk)
  end.

(** The ranges of a class; every range takes a byte, so the length is enough fuel. *)
Fixpoint class_ranges (fuel : nat) (chunk : string) (r : N) (match_ : bool) (nrange : nat) : result MatchError (bool * string) :=
  match fuel with
  | O => Err OutOfFuel
  | S fuel =>
    let range :=
      let? lo := getEsc chunk in
      let? hi :=
        match lo.2 with
        | String a chunk => if decide (a = dash) then getEsc chunk else Ok lo
        | EmptyString => Ok lo
        end in
      class_ranges fuel hi.2 r (match_ || ((lo.1 <=? r) && (r <=? hi.1))%N) (S nrange) in
    match chunk with
    | String a chunk1 => if decide (a = rbracket ∧ 0 < nrange) then Ok (match_, chunk1) else range
    | EmptyString => range
    end
  end.

(** ** [matchChunk]: the rest of the text, [None] when the chunk does not match. *)
Fixpoint match_chunk (fuel : nat) (chunk s : string) (failed : bool) : result MatchError (option string) :=
  match fuel with
  | O => Err OutOfFuel
  | S fuel =>
    match chunk with
    | EmptyString => Ok (if failed then None else Some s)
    | String a chunk1 =>
      let failed := failed || bool_decide (s = "") in
      let literal a chunk1 :=
        match s with
        | String b s1 =>
          if failed then match_chunk fuel chunk1 s failed
          else match_chunk fuel chunk1 s1 (bool_decide (a ≠ b))
        | EmptyString => match_chunk fuel chunk1 s failed
        end in
      if decide (a = lbracket) then
        let (r, n) := if failed then (0%N, 0) else DecodeRuneInString s in
        let '(negated, chunk1) :=
          match chunk1 with
          | String b chunk2 => if decide (b = caret) then (true, chunk2) else (false, chunk1)
          | EmptyString => (false, chunk1)
          end in
        let? res := class_ranges (S (String.length chunk1)) chunk1 r false 0 in
        match_chunk fuel res.2 (str_drop n s) (failed || bool_decide (res.1 = negated))
      else if decide (a = question) then
        if failed then match_chunk fuel chunk1 s failed
        else match_chunk fuel chunk1 (str_drop (DecodeRuneInString s).2 s) (HasPrefix s "/")
      else if decide (a = backslash) then
        match chunk1 with
        | EmptyString => Err ErrBadPattern
        | String b chunk2 => literal b chunk2
        end
      else literal a chunk1
    end
  end.

Definition matchChunk (chunk s : string) : result MatchError (option string) :=
  match_chunk (S (String.length chunk)) chunk s false.

(** ** [Match] *)

(** After a star: the first later position, before a slash, where the chunk
    matches; the last chunk must exhaust the name. *)
Fixpoint skip_match (chunk : string) (last : bool) (name : string) : result MatchError (option string) :=
  match name with
  | EmptyString => Ok None
  | String c name1 =>
    if decide (c = slash) then Ok None
    else
      let? m := matchChunk chunk name1 in
      match m with
      | Some t => if last && bool_decide (t ≠ "") then skip_match chunk last name1 else Ok (Some t)
      | None => skip_match chunk last name1
      end
  end.

(** A failed match still checks the rest of the pattern. *)
Fixpoint check_rest (fuel : nat) (pattern : string) : result MatchError bool :=
  match fuel with
  | O => Err OutOfFuel
  | S fuel =>
    if decide (pattern = "") then Ok false
    else
      let '(_, chunk, rest) := scanChunk pattern in
      let? _m := matchChunk chunk "" in check_rest fuel rest
  end.

(** The loop over the chunks: every chunk takes at least one byte of the pattern. *)
Fixpoint match_ (fuel : nat) (pattern name : string) : result MatchError bool :=
  match fuel with
  | O => Err OutOfFuel
  | S fuel =>
    if decide (pattern = "") then Ok (bool_decide (name = ""))
    else
      let '(st, chunk, rest) := scanChunk pattern in
      if st && bool_decide (chunk = "") then Ok (negb (ContainsByte name slash))
      else
        let? m := matchChunk chunk name in
        match m with
        | Some t =>
          if decide (t = "" ∨ rest ≠ "") then match_ fuel rest t
          else if st then
            let? m := skip_match chunk (bool_decide (rest = "")) name in
            match m with Some t => match_ fuel rest t | None => check_rest fuel rest end
          else check_rest fuel rest
        | None =>
          if st then
            let? m := skip_match chunk (bool_decide (rest = "")) name in
            match m with Some t => match_ fuel rest t | None => check_rest fuel rest end
          else check_rest fuel rest
        end
  end.

Definition Match (pattern name : string) : result MatchError bool :=
  match_ (S (String.length pattern)) pattern name.

Example match_examples :
  (λ '(p, n), Match p n) <$>
    [("abc", "abc"); ("*c", "abc"); ("a*/b", "abc/b"); ("a*/b", "a/c/b"); ("ab[c]", "abc"); ("ab[^b-d]", "abc");
     ("a\*b", "a*b"); ("a\*b", "ab"); ("a?b", "a/b"); ("[a-ζ]*", "α"); ("a*b*c*d*e*/f", "axbxcxdxexxx/f");
     ("a*b?c*x", "abxbbxdbxebxczzx"); ("[x-]", "x"); ("[", "a"); ("a[", "ab"); ("a[", "x"); ("*x", "xxx"); ("a*", "ab/c")] =
  [Ok true; Ok true; Ok true; Ok false; Ok true; Ok false;
   Ok true; Ok false; Ok false; Ok true; Ok true;
   Ok true; Err ErrBadPattern; Err ErrBadPattern; Err ErrBadPattern; Err ErrBadPattern; Ok true; Ok false].
Proof. by vm_compute. Qed.

(** ** Pieces of a pattern *)

Lemma scan_text_split p : ∀ inr c r, scan_text inr p = (c, r) → p = c +:+ r.
Proof.
  induction (well_founded_ltof _ String.length p) as [p _ IH]. intros inr c r.
  destruct p as [|a p1]; simpl; [by intros [= <- <-]|].
  assert (∀ inr c r, scan_text inr p1 = (c, r) → p1 = c +:+ r) as IH1 by (apply IH; unfold ltof; simpl; lia).
  destruct (decide (a = backslash)).
  - destruct p1 as [|b p2]; [by intros [= <- <-]|]. destruct (scan_text inr p2) as [c2 r2] eqn:E. intros [= <- <-].
    apply IH in E as ->; [done|]. unfold ltof. simpl. lia.
  - destruct (decide (a = lbracket)).
    { destruct (scan_text true p1) as [c1 r1] eqn:E. intros [= <- <-]. by apply IH1 in E as ->. }
    destruct (decide (a = rbracket)).
    { destruct (scan_text false p1) as [c1 r1] eqn:E. intros [= <- <-]. by apply IH1 in E as ->. }
    destruct (decide (a = star ∧ inr = false)); [by intros [= <- <-]|].
    destruct (scan_text inr p1) as [c1 r1] eqn:E. intros [= <- <-]. by apply IH1 in E as ->.
Qed.

Fixpoint stars (n : nat) : string := match n with O => EmptyString | S n => String star (stars n) end.

Lemma scanChunk_split p st c r :
  scanChunk p = (st, c, r) → ∃ n, p = stars n +:+ (c +:+ r) ∧ st = bool_decide (0 < n).
Proof.
  revert st c r. induction p as [|a p IH]; intros st c r; cbn [scanChunk].
  - intros [= <- <- <-]. by exists 0.
  - destruct (decide (a = star)) as [->|].
    + destruct (scanChunk p) as [[st' c'] r'] eqn:E. intros [= <- <- <-].
      destruct (IH _ _ _ eq_refl) as (n & -> & _). by exists (S n).
    + destruct (scan_text false (String a p)) as [c' r'] eqn:E. intros [= <- <- <-]. exists 0.
      by apply scan_text_split in E as ->.
Qed.

(** A nonempty pattern gives up at least one byte. *)
Lemma scan_text_progress inr a p c r : a ≠ star → scan_text inr (String a p) = (c, r) → c ≠ "".
Proof.
  intros Ha. simpl. destruct (decide (a = backslash)); [destruct p as [|b p]; [by intros [= <- <-]|destruct (scan_text inr p); by intros [= <- <-]]|].
  destruct (decide (a = lbracket)); [destruct (scan_text true p); by intros [= <- <-]|].
  destruct (decide (a = rbracket)); [destruct (scan_text false p); by intros [= <- <-]|].
  destruct (decide (a = star ∧ inr = false)) as [[? _]|]; [done|]. destruct (scan_text inr p); by intros [= <- <-].
Qed.

Lemma scanChunk_progress p st c r : p ≠ "" → scanChunk p = (st, c, r) → String.length r < String.length p ∧ (st = false → c ≠ "").
Proof.
  intros Hp Hs. destruct (scanChunk_split _ _ _ _ Hs) as (n & E & Hst).
  assert (st = false → c ≠ "") as Hc.
  { intros ->. destruct n; [|done]. destruct p as [|a p]; [done|]. simpl in Hs.
    destruct (decide (a = star)); [by destruct (scanChunk p) as [[??]?]|].
    destruct (scan_text false (String a p)) as [c' r'] eqn:Es.
    change (match _ with (c, r) => _ end) with (let (c, r) := scan_text false (String a p) in (false, c, r)) in Hs.
    rewrite Es in Hs. simplify_eq. by eapply scan_text_progress. }
  split; [|done]. rewrite E, !str_length_app. destruct n; [|simpl; lia].
  specialize (Hc Hst). destruct c; [done|]. simpl. lia.
Qed.

Lemma scanChunk_empty p st r : scanChunk p = (st, "", r) → r = "".
Proof.
  revert st. induction p as [|a p IH]; intros st; cbn [scanChunk]; [by intros [= _ <-]|].
  destruct (decide (a = star)).
  - destruct (scanChunk p) as [[st' c'] r'] eqn:E. intros [= _ -> <-]. by eapply IH.
  - destruct (scan_text false (String a p)) as [c' r'] eqn:E. apply scan_text_progress in E; [|done]. by intros [= _ ? _].
Qed.

(** ** Fuel *)

Lemma rune_width s : s ≠ "" → 1 ≤ (DecodeRuneInString s).2 ≤ String.length s.
Proof.
  destruct s as [|a s1]; [done|]. intros _. unfold DecodeRuneInString. destruct (between 0 127 a); [simpl; lia|].
  destruct s1 as [|b s2]; [simpl; lia|]. destruct (two_byte a b); [simpl; lia|].
  destruct s2 as [|c s3]; [simpl; lia|]. destruct (three_byte a b c); [simpl; lia|].
  destruct s3 as [|d s4]; [simpl; lia|]. destruct (four_byte a b c d); simpl; lia.
Qed.

Lemma str_drop_length n s : String.length (str_drop n s) = String.length s - n.
Proof. revert n. induction s as [|a s IH]; intros [|n]; simpl; [done..|]. apply IH. Qed.

Lemma getEsc_shrinks chunk res : getEsc chunk = Ok res → String.length res.2 < String.length chunk.
Proof.
  destruct chunk as [|a chunk1]; [done|]. cbn [getEsc]. rewrite !res_guard_ok. intros (_ & Hne & H). bool_prop.
  set (ck := if decide (a = backslash) then chunk1 else String a chunk1) in *.
  pose proof (rune_width ck Hne). destruct (DecodeRuneInString ck) as [r n] eqn:E.
  rewrite !res_guard_ok in H. destruct H as (_ & _ & [= <-]). simpl in *. rewrite str_drop_length.
  assert (String.length ck ≤ S (String.length chunk1)) by (subst ck; destruct (decide _); simpl; lia). lia.
Qed.

Lemma getEsc_fuel chunk : getEsc chunk ≠ Err OutOfFuel.
Proof.
  destruct chunk as [|a chunk1]; [done|]. cbn [getEsc]. destruct (DecodeRuneInString _) as [r n].
  unfold res_guard. repeat case_match; done.
Qed.

Lemma class_ranges_total fuel chunk r m k :
  String.length chunk < fuel →
  class_ranges fuel chunk r m k ≠ Err OutOfFuel ∧
  ∀ res, class_ranges fuel chunk r m k = Ok res → String.length res.2 ≤ String.length chunk.
Proof.
  revert chunk m k. induction fuel as [|fuel IH]; intros chunk m k Hf; [lia|]. cbn [class_ranges].
  set (range := res_bind (getEsc chunk) _).
  assert (range ≠ Err OutOfFuel ∧ ∀ res, range = Ok res → String.length res.2 ≤ String.length chunk) as Hr.
  { subst range. destruct (getEsc chunk) as [lo|e] eqn:Elo; simpl; [|split; [|done]; intros [= ->]; by apply getEsc_fuel in Elo].
    apply getEsc_shrinks in Elo. set (hi := match lo.2 with String _ _ => _ | EmptyString => _ end).
    assert (hi ≠ Err OutOfFuel ∧ ∀ res, hi = Ok res → String.length res.2 ≤ String.length lo.2) as [Hhi Hle].
    { subst hi. destruct lo.2 as [|b ck] eqn:E; [split; [done|]; intros ? [= <-]; by rewrite E|].
      destruct (decide (b = dash)); [|split; [done|]; intros ? [= <-]; by rewrite E].
      split; [apply getEsc_fuel|]. intros res Hres%getEsc_shrinks. simpl. lia. }
    destruct hi as [hi'|e]; simpl; [|split; [congruence|done]]. specialize (Hle _ eq_refl).
    destruct (IH hi'.2 (m || ((lo.1 <=? r) && (r <=? hi'.1))%N) (S k)) as [? Hres]; [lia|]. split; [done|].
    intros res ?%Hres. lia. }
  destruct chunk as [|a chunk1]; [done|]. destruct (decide (a = rbracket ∧ 0 < k)); [|done].
  split; [done|]. intros res [= <-]. simpl. lia.
Qed.

Lemma match_chunk_fuel fuel chunk s failed : String.length chunk < fuel → match_chunk fuel chunk s failed ≠ Err OutOfFuel.
Proof.
  revert chunk s failed. induction fuel as [|fuel IH]; intros chunk s failed Hf; [lia|]. cbn [match_chunk].
  destruct chunk as [|a chunk1]; [done|]. simpl in Hf.
  destruct (decide (a = lbracket)).
  { destruct (if failed || bool_decide (s = "") then (0%N, 0) else DecodeRuneInString s) as [r n].
    destruct (match chunk1 with String b chunk2 => _ | EmptyString => _ end) as [neg ck] eqn:Eck.
    assert (String.length ck ≤ String.length chunk1) as Hck.
    { destruct chunk1 as [|b chunk2]; [by simplify_eq|]. destruct (decide (b = caret)); simplify_eq; simpl; lia. }
    destruct (class_ranges_total (S (String.length ck)) ck r false 0) as [Hno Hle]; [lia|].
    destruct (class_ranges (S (String.length ck)) ck r false 0) as [res|err]; simpl; [|congruence].
    apply IH. specialize (Hle _ eq_refl). lia. }
  destruct (decide (a = question)); [destruct (failed || _); apply IH; lia|].
  destruct (decide (a = backslash)).
  - destruct chunk1 as [|b chunk2]; [done|]. simpl in Hf. destruct s; [|destruct (failed || _)]; apply IH; lia.
  - destruct s; [|destruct (failed || _)]; apply IH; lia.
Qed.

Lemma matchChunk_fuel chunk s : matchChunk chunk s ≠ Err OutOfFuel.
Proof. apply match_chunk_fuel. lia. Qed.

Lemma skip_match_fuel chunk last name : skip_match chunk last name ≠ Err OutOfFuel.
Proof.
  induction name as [|c name IH]; simpl; [done|]. destruct (decide (c = slash)); [done|].
  pose proof (matchChunk_fuel chunk name). destruct (matchChunk chunk name) as [[t|]|e]; simpl; [|done|congruence].
  by destruct (last && _).
Qed.

Lemma check_rest_fuel fuel pattern : String.length pattern < fuel → check_rest fuel pattern ≠ Err OutOfFuel.
Proof.
  revert pattern. induction fuel as [|fuel IH]; intros pattern Hf; [lia|]. cbn [check_rest].
  destruct (decide (pattern = "")); [done|]. destruct (scanChunk pattern) as [[st c] r] eqn:E.
  apply scanChunk_progress in E as [E _]; [|done]. pose proof (matchChunk_fuel c "").
  destruct (matchChunk c "") as [m|e]; simpl; [apply IH; lia|congruence].
Qed.

Lemma Match_fuel pattern name : Match pattern name ≠ Err OutOfFuel.
Proof.
  unfold Match. assert (∀ fuel, String.length pattern < fuel → match_ fuel pattern name ≠ Err OutOfFuel) as Hm; [|apply Hm; lia].
  intros fuel. revert pattern name. induction fuel as [|fuel IH]; intros pattern name Hf; [lia|]. cbn [match_].
  destruct (decide (pattern = "")); [done|]. destruct (scanChunk pattern) as [[st c] r] eqn:E.
  apply scanChunk_progress in E as [E _]; [|done]. destruct (st && _); [done|].
  pose proof (matchChunk_fuel c name). pose proof (skip_match_fuel c (bool_decide (r = "")) name).
  assert (check_rest fuel r ≠ Err OutOfFuel) by (apply check_rest_fuel; lia).
  assert (∀ t, match_ fuel r t ≠ Err OutOfFuel) by (intros t; apply IH; lia).
  destruct (matchChunk c name) as [[t|]|e]; simpl; [destruct (decide _); [done|]| |congruence];
    (destruct st; [|done]); destruct (skip_match c _ name) as [[u|]|e']; simpl; congruence || done.
Qed.

(** ** Patterns without wildcards *)

Definition meta : string := "*?[\".

(** The pattern is the text with some of its bytes escaped, every glob
    character among them. *)
Inductive literal : string → string → Prop :=
  | lit_nil : literal "" ""
  | lit_plain a p t : ContainsByte meta a = false → literal p t → literal (String a p) (String a t)
  | lit_escaped a p t : literal p t → literal (String backslash (String a p)) (String a t).

Lemma meta_free a : ContainsByte meta a = false → a ≠ star ∧ a ≠ question ∧ a ≠ lbracket ∧ a ≠ backslash.
Proof. rewrite ContainsByte_free. simpl. naive_solver. Qed.

Lemma literal_scan p t : literal p t → scan_text false p = (p, "").
Proof.
  induction 1 as [|a p t Ha _ IH|a p t _ IH]; [done| |].
  - apply meta_free in Ha as (? & ? & ? & ?). cbn [scan_text]. rewrite decide_False, decide_False by done.
    rewrite IH. by repeat destruct (decide _) as [[? _]|_] || destruct (decide _).
  - cbn [scan_text]. rewrite decide_True by done. by rewrite IH.
Qed.

Lemma literal_scanChunk p t : literal p t → scanChunk p = (false, p, "").
Proof.
  intros Hl. destruct p as [|a p]; [done|]. cbn [scanChunk]. rewrite (literal_scan _ _ Hl).
  destruct (decide (a = star)) as [->|]; [|done]. inversion Hl as [|? ? ? Ha|]; subst. by apply meta_free in Ha as (? & _).
Qed.

Lemma literal_chunk p t : literal p t → ∀ fuel s failed, String.length p < fuel →
  match_chunk fuel p s failed = Ok (if failed then None else cut_prefix t s).
Proof.
  induction 1 as [|a p t Ha _ IH|a p t _ IH]; intros fuel s failed Hf; (destruct fuel as [|fuel]; [lia|]); cbn [match_chunk].
  - by destruct failed.
  - apply meta_free in Ha as (? & ? & ? & ?). rewrite !decide_False by done. simpl in Hf.
    destruct s as [|b s]; [rewrite IH by lia; by destruct failed|]. rewrite bool_decide_eq_false_2, orb_false_r by done.
    destruct failed; rewrite IH by lia; [done|]. simpl. case_bool_decide; [by rewrite decide_False|]. rewrite decide_True; [done|].
    by destruct (decide (a = b)).
  - rewrite decide_False, decide_False, decide_True by done. simpl in Hf.
    destruct s as [|b s]; [rewrite IH by lia; by destruct failed|]. rewrite bool_decide_eq_false_2, orb_false_r by done.
    destruct failed; rewrite IH by lia; [done|]. simpl. case_bool_decide; [by rewrite decide_False|]. rewrite decide_True; [done|].
    by destruct (decide (a = b)).
Qed.

Lemma literal_Match p t n : literal p t → Match p n = Ok (bool_decide (n = t)).
Proof.
  intros Hl. unfold Match. cbn [match_]. destruct (decide (p = "")) as [->|Hp]; [by inversion Hl|].
  rewrite (literal_scanChunk _ _ Hl). simpl. unfold matchChunk. rewrite (literal_chunk _ _ Hl) by lia.
  destruct (cut_prefix t n) as [r|] eqn:E; simpl.
  - apply cut_prefix_Some in E as ->. destruct (decide (r = "" ∨ "" ≠ "")) as [[->|?]|Hr]; [|done|].
    + rewrite str_app_nil, bool_decide_eq_true_2 by done. destruct p as [|a p]; [done|]. simpl. done.
    + destruct p as [|a p]; [done|]. simpl. rewrite bool_decide_eq_false_2; [done|].
      intros E. apply (f_equal String.length) in E. rewrite str_length_app in E. destruct r; [tauto|]. simpl in E. lia.
  - destruct p as [|a p]; [done|]. simpl. rewrite bool_decide_eq_false_2; [done|]. intros ->.
    assert (cut_prefix t t = Some "") as E' by (apply cut_prefix_Some; by rewrite str_app_nil). congruence.
Qed.

(** ** A pattern without a class keeps the number of path segments *)

Fixpoint slashes (s : string) : nat :=
  match s with EmptyString => 0 | String a s => (if decide (a = slash) then 1 else 0) + slashes s end.

Lemma slashes_app s t : slashes (s +:+ t) = slashes s + slashes t.
Proof. induction s as [|a s IH]; [done|]. rewrite str_app_cons. simpl. rewrite IH. lia. Qed.

Lemma slashes_stars n : slashes (stars n) = 0.
Proof. by induction n. Qed.

Lemma slashes_free s : ContainsByte s slash = false → slashes s = 0.
Proof.
  rewrite ContainsByte_free. induction s as [|a s IH]; simpl; [done|]. intros [? ?]. by rewrite decide_False, IH.
Qed.

(** Dropping one rune that is not a slash drops no slash. *)
Lemma drop_rune_slashes s :
  s ≠ "" → HasPrefix s "/" = false → slashes (str_drop (DecodeRuneInString s).2 s) = slashes s.
Proof.
  assert (∀ a, continuation a = true → a ≠ slash) as Hcont by (intros a Ha ->; by vm_compute in Ha).
  assert (∀ lo hi a, (128 ≤ lo)%N → between lo hi a = true → a ≠ slash) as Hhigh.
  { intros lo hi a Hlo Ha ->. unfold between in Ha. apply andb_true_iff in Ha as [Ha%N.leb_le _].
    change (N_of_ascii slash) with 47%N in Ha. lia. }
  destruct s as [|a s1]; [done|]. intros _ Hp.
  assert (a ≠ slash) as Ha by (intros ->; by vm_compute in Hp). unfold DecodeRuneInString.
  assert (∀ s, slashes (String a s) = slashes s) as Hh by (intros; simpl; by rewrite decide_False).
  destruct (between 0 127 a); [by rewrite Hh|].
  destruct s1 as [|b s2]; [by rewrite Hh|]. destruct (two_byte a b) eqn:H2.
  { unfold two_byte in H2. bool_prop. rewrite Hh. simpl. by rewrite decide_False by auto. }
  destruct s2 as [|c s3]; [by rewrite Hh|]. destruct (three_byte a b c) eqn:H3.
  { unfold three_byte in H3. bool_prop. rewrite Hh. simpl. rewrite decide_False, decide_False; [done|auto|].
    eapply Hhigh; [|done]. destruct (decide _); lia. }
  destruct s3 as [|d s4]; [by rewrite Hh|]. destruct (four_byte a b c d) eqn:H4; [|by rewrite Hh].
  unfold four_byte in H4. bool_prop. rewrite Hh. simpl. rewrite decide_False, decide_False, decide_False; [done|auto..|].
  eapply Hhigh; [|done]. destruct (decide _); lia.
Qed.

Lemma match_chunk_failed fuel chunk s t : match_chunk fuel chunk s true ≠ Ok (Some t).
Proof.
  revert chunk s. induction fuel as [|fuel IH]; intros chunk s; [done|]. cbn [match_chunk]. destruct chunk as [|a chunk1]; [done|].
  cbn [orb]. destruct (decide (a = lbracket)).
  { destruct (match chunk1 with String b chunk2 => _ | EmptyString => _ end) as [neg ck].
    destruct (class_ranges (S (String.length ck)) ck 0%N false 0); cbn [res_bind]; [apply IH|done]. }
  destruct (decide (a = question)); [apply IH|].
  destruct (decide (a = backslash)); [destruct chunk1; [done|]|]; destruct s; apply IH.
Qed.

Lemma match_chunk_slashes fuel chunk s t :
  byte_free lbracket chunk → match_chunk fuel chunk s false = Ok (Some t) → slashes s = slashes chunk + slashes t.
Proof.
  revert chunk s. induction fuel as [|fuel IH]; intros chunk s Hfree; [done|]. cbn [match_chunk].
  destruct chunk as [|a chunk1]; [by intros [= ->]|]. destruct Hfree as [Ha Hfree]. rewrite decide_False by done.
  destruct s as [|b s1].
  { simpl. destruct (decide (a = question)); [intros Hm; by apply match_chunk_failed in Hm|].
    destruct (decide (a = backslash)); [destruct chunk1; [done|]|]; intros Hm; by apply match_chunk_failed in Hm. }
  rewrite bool_decide_eq_false_2 by done. cbn [orb]. destruct (decide (a = question)) as [->|Hq].
  { destruct (HasPrefix (String b s1) "/") eqn:Hp; [intros Hm; by apply match_chunk_failed in Hm|].
    intros Hm%IH; [|done]. by rewrite drop_rune_slashes in Hm. }
  assert (∀ c ck, byte_free lbracket ck → match_chunk fuel ck s1 (bool_decide (c ≠ b)) = Ok (Some t) →
    slashes (String b s1) = slashes (String c ck) + slashes t) as Hlit.
  { intros c ck Hck. case_bool_decide as Hcb; [intros Hm; by apply match_chunk_failed in Hm|]. intros Hm%IH; [|done].
    simpl. destruct (decide (c = b)) as [->|]; [lia|done]. }
  destruct (decide (a = backslash)) as [->|]; [|by apply Hlit]. destruct chunk1 as [|c ck]; [done|].
  destruct Hfree as [? ?]. intros Hm%Hlit; [|done]. by rewrite Hm.
Qed.

Lemma skip_match_slashes chunk last name t :
  byte_free lbracket chunk → skip_match chunk last name = Ok (Some t) → slashes name = slashes chunk + slashes t.
Proof.
  intros Hfree. induction name as [|c name IH]; simpl; [done|]. destruct (decide (c = slash)); [done|].
  destruct (matchChunk chunk name) as [[u|]|e] eqn:E; simpl; [|auto|done].
  destruct (last && bool_decide (u ≠ "")); [auto|]. intros [= ->]. by eapply match_chunk_slashes.
Qed.

Lemma check_rest_false fuel pattern : check_rest fuel pattern ≠ Ok true.
Proof.
  revert pattern. induction fuel as [|fuel IH]; intros pattern; [done|]. cbn [check_rest].
  destruct (decide (pattern = "")); [done|]. destruct (scanChunk pattern) as [[st c] r].
  destruct (matchChunk c ""); simpl; [apply IH|done].
Qed.

Lemma Match_slashes pattern name :
  byte_free lbracket pattern → Match pattern name = Ok true → slashes name = slashes pattern.
Proof.
  unfold Match. generalize (S (String.length pattern)). intros fuel.
  revert pattern name. induction fuel as [|fuel IH]; intros pattern name Hfree; [done|]. cbn [match_].
  destruct (decide (pattern = "")) as [->|]; [intros [= ->%bool_decide_eq_true]; done|].
  destruct (scanChunk pattern) as [[st c] r] eqn:E. pose proof E as (k & -> & _)%scanChunk_split.
  apply byte_free_app in Hfree as [_ [Hc Hr]%byte_free_app]. rewrite !slashes_app, slashes_stars, Nat.add_0_l.
  destruct (st && bool_decide (c = "")) eqn:Hst.
  { intros [= Hn%negb_true_iff]. apply andb_true_iff in Hst as [_ ->%bool_decide_eq_true].
    apply scanChunk_empty in E as ->. by rewrite slashes_free. }
  assert (∀ t, slashes name = slashes c + slashes t → match_ fuel r t = Ok true → slashes name = slashes c + slashes r) as Hgo.
  { intros t Ht Hm%IH; [|done]. lia. }
  assert (∀ last, (let? m := skip_match c last name in
    match m with Some t => match_ fuel r t | None => check_rest fuel r end) = Ok true → slashes name = slashes c + slashes r) as Hskip.
  { intros last. destruct (skip_match c last name) as [[t|]|e] eqn:Es; simpl; [|by intros ?%check_rest_false|done].
    intros Hm. eapply Hgo; [|done]. by eapply skip_match_slashes. }
  destruct (matchChunk c name) as [[t|]|e] eqn:Em; simpl; [destruct (decide _)| |done].
  - intros Hm. eapply Hgo; [|done]. by eapply match_chunk_slashes.
  - destruct st; [apply Hskip|by intros ?%check_rest_false].
  - destruct st; [apply Hskip|by intros ?%check_rest_false].
Qed.
