(* ===== verification/AutoPublish.v ===== *)
(** * Auto-publish rules

    internal/autopublish/rules.go, the repositories of repositories.go and the
    rules file of file.go.  A rule is the developer's consent to publish; the
    matcher decides which rules cover a repository.

    The home directory, symbolic links, git and the file system are parameters, and
    so are the schema package's kinds, request check and remote label. *)
From S2P Require Import Prelude GoStrings GoText Utf8 GoPaths Glob.
From Stdlib Require Import Ascii.
Local Open Scope string_scope.
Local Open Scope list_scope.
Local Open Scope nat_scope.

(** ** Strings *)

(** [strings.Cut]. *)
Fixpoint CutString (s sep : string) : option (string * string) :=
  match cut_prefix sep s with
  | Some after => Some ("", after)
  | None =>
    match s with
    | EmptyString => None
    | String a s =>
      match CutString s sep with
      | Some (before, after) => Some (String a before, after)
      | None => None
      end
    end
  end.

(** [strings.TrimPrefix]. *)
Definition TrimPrefix (s p : string) : string := default s (cut_prefix p s).

(** ** Data *)

(** A Go slice: [None] is nil. *)
Definition elements (l : option (list string)) : list string := default [] l.

Record Rule := {
  ID : string;
  Kind : string;
  Match_ : string;
  Events : option (list string);
  Collectives : option (list string);
}.

#[export] Instance Rule_eq_dec : EqDecision Rule.
Proof. solve_decision. Defined.

Definition nonNil (l : option (list string)) : option (list string) := Some (elements l).

(** [schema.AutoPublishRuleRequest]. *)
Record RuleRequest := {
  req_Kind : string;
  req_Match : string;
  req_Events : option (list string);
  req_Collectives : option (list string);
}.

Definition Request (r : Rule) : RuleRequest :=
  {| req_Kind := Kind r; req_Match := Match_ r; req_Events := nonNil (Events r); req_Collectives := nonNil (Collectives r) |}.

Definition RuleFromRequest (id : string) (request : RuleRequest) : Rule :=
  {| ID := id; Kind := req_Kind request; Match_ := req_Match request;
     Events := req_Events request; Collectives := req_Collectives request |}.

Record Repository := {
  Root : string;
  MainRoot : string;
  Gone : string;
  Remote : string;
  Origin : string;
}.

Record Decision := {
  d_Rules : list string;
  d_Collectives : list string;
  d_Events : list string;
  d_Paused : list string;
}.

Definition Covered (d : Decision) : bool := bool_decide (0 < length (d_Rules d) ∨ 0 < length (d_Paused d)).

Inductive Outcome := Unbound | Paused | Bound.

Definition Decision_Outcome (d : Decision) : Outcome :=
  if decide (0 < length (d_Rules d)) then Bound
  else if decide (0 < length (d_Paused d)) then Paused
  else Unbound.

(** ** What the rules call outside this package *)

Class AutoPublishLib := {
  AutoPublishRuleFolder : string;
  AutoPublishRuleRemote : string;
  RequestValidate : RuleRequest → bool;
  RemoteLabel : string → option string;
  ToLower : string → string;
  UserHomeDir : option string;
  EvalSymlinks : string → option string;
}.

(** internal/githooks: the managed events. *)
Definition AllEvents : list string := ["post-commit"; "pre-push"].

Definition ParseEvent (raw : string) : option string :=
  let event := TrimSpace raw in
  if decide (event ∈ AllEvents) then Some event else None.

(** internal/village: [^[0-9a-f]{8}-[0-9a-f]{4}-[0-9a-f]{4}-[0-9a-f]{4}-[0-9a-f]{12}$]. *)
Definition lower_hex (a : ascii) : bool := between 48 57 a || between 97 102 a.

Definition IsCollectiveID (id : string) : bool :=
  bool_decide (String.length <$> split_on dash id = [8; 4; 4; 4; 12])
  && forallb (λ part, forallb lower_hex (String.list_ascii_of_string part)) (split_on dash id).

Example collective_ids :
  IsCollectiveID <$> ["0123abcd-4567-89ab-cdef-0123456789ab"; "0123ABCD-4567-89ab-cdef-0123456789ab"; "0123abcd-4567-89ab-cdef"; ""] =
  [true; false; false; false].
Proof. by vm_compute. Qed.

(** ** Folder globs *)

Definition globMeta : string := "*?[\".

Definition splitPath (p : string) : list string := filter (λ segment, segment ≠ "") (split_on slash p).

(** The loop of [matchSegments] over the number of skipped segments. *)
Fixpoint any_suffix (f : list string → bool) (path : list string) : bool :=
  f path || match path with [] => false | _ :: path => any_suffix f path end.

Fixpoint matchSegments (pattern path : list string) : bool :=
  match pattern with
  | [] => bool_decide (path = [])
  | g :: pattern =>
    if decide (g = "**") then any_suffix (matchSegments pattern) path
    else
      match path with
      | [] => false
      | segment :: path =>
        match Match g segment with
        | Ok ok => ok && matchSegments pattern path
        | Err _ => false
        end
      end
  end.

(** One rune of [FolderMatch]: an invalid byte is written as U+FFFD. *)
Fixpoint escapeSegment (s : string) : string :=
  match s with
  | EmptyString => EmptyString
  | String a s1 =>
    let replaced := utf8_encode RuneError +:+ escapeSegment s1 in
    if between 0 127 a then
      if ContainsByte globMeta a then String backslash (String a (escapeSegment s1)) else String a (escapeSegment s1)
    else match s1 with
    | EmptyString => replaced
    | String b s2 =>
      if two_byte a b then String a (String b (escapeSegment s2))
      else match s2 with
      | EmptyString => replaced
      | String c s3 =>
        if three_byte a b c then String a (String b (String c (escapeSegment s3)))
        else match s3 with
        | EmptyString => replaced
        | String d s4 =>
          if four_byte a b c d then String a (String b (String c (String d (escapeSegment s4)))) else replaced
        end
      end
    end
  end.

Definition FolderMatch (root : string) : string :=
  String slash (join_slash (escapeSegment <$> splitPath (Clean root))).

Fixpoint literalCount (segments : list string) : nat :=
  match segments with
  | [] => 0
  | s :: segments => if ContainsAny s globMeta then 0 else S (literalCount segments)
  end.

(** The directories above a path, itself first, until [filepath.Dir] stops moving. *)
Fixpoint above (fuel : nat) (dir : string) : list string :=
  match fuel with
  | O => []
  | S fuel => if decide (dir = "" ∨ dir = Dir dir) then [] else dir :: above fuel (Dir dir)
  end.

Definition directoriesAbove (dir : string) : list string := above (String.length dir + 4) dir.

Section rules.
Context `{L : AutoPublishLib}.

Definition folderSegments (pattern : string) : option (list string) :=
  let pattern := TrimSpace pattern in
  pattern ←
    (if bool_decide (pattern = "~") || HasPrefix pattern "~/" then
       home ← UserHomeDir; Some (Join [home; TrimPrefix pattern "~"])
     else Some pattern);
  if IsAbs pattern then Some (splitPath (Clean pattern)) else None.

Fixpoint resolveDown (literal : nat) (segments : list string) : list string :=
  match literal with
  | O => segments
  | S literal' =>
    match EvalSymlinks (String slash (join_slash (take literal segments))) with
    | Some real => splitPath real ++ drop literal segments
    | None => resolveDown literal' segments
    end
  end.

Definition resolveLiteralPrefix (segments : list string) : list string :=
  resolveDown (literalCount segments) segments.

Definition folderMatches (pattern root : string) : bool :=
  if decide (TrimSpace root = "") then false
  else
    match folderSegments pattern with
    | None => false
    | Some segments =>
      let path := splitPath (Clean root) in
      if matchSegments segments path then true
      else
        let resolved := resolveLiteralPrefix segments in
        negb (bool_decide (resolved = segments)) && matchSegments resolved path
    end.

(** ** Remote patterns *)

Definition isDigit (a : ascii) : bool := between 48 57 a.

Definition isPort (rest : string) : bool :=
  match CutString rest "/" with
  | Some (port, _) => negb (bool_decide (port = "")) && forallb isDigit (String.list_ascii_of_string port)
  | None => false
  end.

Definition remotePatternLabel (pattern : string) : option string :=
  let pattern := TrimSpace pattern in
  let pattern :=
    if negb (Contains pattern "://") && negb (Contains pattern "@") then
      match CutString pattern ":" with
      | Some (host, rest) =>
        if negb (bool_decide (host = "")) && negb (Contains host "/") && negb (isPort rest)
        then "git@" +:+ pattern else pattern
      | None => pattern
      end
    else pattern in
  ToLower <$> RemoteLabel pattern.

Definition remoteMatches (pattern remote : string) : bool :=
  match RemoteLabel remote with
  | None => false
  | Some label =>
    match remotePatternLabel pattern with
    | None => false
    | Some want =>
      match Match want (ToLower label) with
      | Ok matched => matched
      | Err _ => false
      end
    end
  end.

Definition RemoteMatch (remote : string) : string :=
  match RemoteLabel remote with
  | None => ""
  | Some label =>
    let '(host, repoPath) := default (label, "") (CutString label ":") in
    host +:+ "/" +:+ repoPath
  end.

(** ** Validation *)

Inductive MatchInvalid := FolderUnreadable | FolderMalformed | RemoteUnreadable | RemoteMalformed | RemoteDoubleStar | RemoteNoRepository | UnknownKind.

Definition badPattern (pattern : string) : bool :=
  match Match pattern "" with Err ErrBadPattern => true | _ => false end.

Definition validateMatch (kind match_ : string) : result MatchInvalid unit :=
  if decide (kind = AutoPublishRuleFolder) then
    match folderSegments match_ with
    | None => Err FolderUnreadable
    | Some segments => res_iter (λ _ segment, if badPattern segment then Err FolderMalformed else Ok tt) 0 segments
    end
  else if decide (kind = AutoPublishRuleRemote) then
    match remotePatternLabel match_ with
    | None => Err RemoteUnreadable
    | Some label =>
      if badPattern label then Err RemoteMalformed
      else if Contains match_ "**" then Err RemoteDoubleStar
      else
        let repoPath := match CutString label ":" with Some (_, after) => after | None => "" end in
        if Contains repoPath "/" then Ok tt else Err RemoteNoRepository
    end
  else Err UnknownKind.

Inductive RuleInvalid := BadIdentifier | BadRequest | BadMatch (e : MatchInvalid) | BadCollective (id : string).

Definition Rule_Validate (r : Rule) : result RuleInvalid unit :=
  if bool_decide (TrimSpace (ID r) = "" ∨ TrimSpace (ID r) ≠ ID r) || ContainsAny (ID r) "/?#" then Err BadIdentifier
  else if negb (RequestValidate (Request r)) then Err BadRequest
  else
    match validateMatch (Kind r) (Match_ r) with
    | Err e => Err (BadMatch e)
    | Ok _ => res_iter (λ _ collective, if IsCollectiveID collective then Ok tt else Err (BadCollective collective)) 0 (elements (Collectives r))
    end.

(** ** Coverage and decisions *)

Definition Covers (r : Rule) (repo : Repository) : bool :=
  if decide (Kind r = AutoPublishRuleFolder) then
    if folderMatches (Match_ r) (Root repo)
       || (negb (bool_decide (MainRoot repo = "")) && folderMatches (Match_ r) (MainRoot repo)) then true
    else existsb (folderMatches (Match_ r)) (directoriesAbove (Gone repo))
  else if decide (Kind r = AutoPublishRuleRemote) then
    remoteMatches (Match_ r) (Remote repo) || remoteMatches (Match_ r) (Origin repo)
  else false.

Definition hookEvents (r : Rule) : option (list string) := mapM ParseEvent (elements (Events r)).

(** [if !slices.Contains(out, x) { out = append(out, x) }]. *)
Definition add_new (out : list string) (x : string) : list string :=
  if decide (x ∈ out) then out else out ++ [x].

Definition decideRule (repo : Repository) (event : string) (d : Decision) (r : Rule) : Decision :=
  if negb (Covers r repo) then d
  else if decide (elements (Events r) = []) then
    {| d_Rules := d_Rules d; d_Collectives := d_Collectives d; d_Events := d_Events d; d_Paused := d_Paused d ++ [ID r] |}
  else if decide (event ≠ "" ∧ event ∉ elements (Events r)) then d
  else
    {| d_Rules := d_Rules d ++ [ID r];
       d_Collectives := foldl add_new (d_Collectives d) (elements (Collectives r));
       d_Events := foldl add_new (d_Events d) (elements (Events r));
       d_Paused := d_Paused d |}.

Definition DecideForEvent (rules : list Rule) (repo : Repository) (event : string) : Decision :=
  foldl (decideRule repo event) {| d_Rules := []; d_Collectives := []; d_Events := []; d_Paused := [] |} rules.

Definition Decide (rules : list Rule) (repo : Repository) : Decision := DecideForEvent rules repo "".

(** ** Recorded repositories *)

Definition covered (r : Rule) (repositories : list Repository) : list Repository :=
  filter (λ repo, Covers r repo = true) repositories.

(** [ErrNotCovered] is [None]. *)
Definition coveredTarget (r : Rule) (path : string) (recorded : list Repository) : option Repository :=
  head (filter (λ repo, Clean (Root repo) = Clean path) (covered r recorded)).
End rules.

(** ** Resolving a session's repository *)

(** The file system and git: a directory's root and remotes, [None] on error. *)
Class RepositoryLib := {
  filepath_Abs : string → option string;
  isDirectory : string → bool;
  readFile : string → option string;
  ResolveRepositoryRoot : string → option string;
  RemoteURL : string → option string;
  OriginRemoteURL : string → option string;
}.

Section repositories.
Context `{G : RepositoryLib}.

Definition resolveRoot (dir : string) : option string :=
  if decide (TrimSpace dir = "") then None
  else
    absolute ← filepath_Abs dir;
    if isDirectory absolute then ResolveRepositoryRoot absolute else None.

Definition readRemotes (root : string) : string * string :=
  (default "" (RemoteURL root), default "" (OriginRemoteURL root)).

Definition mainRoot (root : string) : string :=
  match readFile (Join [root; ".git"]) with
  | None => ""
  | Some raw =>
    match cut_prefix "gitdir:" (TrimSpace raw) with
    | None => ""
    | Some gitdir =>
      let gitdir := TrimSpace gitdir in
      let gitdir := if IsAbs gitdir then gitdir else Join [root; gitdir] in
      match CutString (Clean gitdir) "/.git/worktrees/" with
      | Some (main, _) => main
      | None => ""
      end
    end
  end.

Definition Resolve (dir : string) (remotes : bool) : option Repository :=
  root ← resolveRoot dir;
  let '(remote, origin) := if remotes then readRemotes root else ("", "") in
  Some {| Root := root; MainRoot := mainRoot root; Gone := ""; Remote := remote; Origin := origin |}.

Definition SessionRepository (dir recordedRemote : string) (remotes : bool) : Repository :=
  if decide (TrimSpace dir = "") then
    {| Root := ""; MainRoot := ""; Gone := ""; Remote := recordedRemote; Origin := recordedRemote |}
  else
    match Resolve dir remotes with
    | None => {| Root := ""; MainRoot := ""; Gone := dir; Remote := recordedRemote; Origin := recordedRemote |}
    | Some repo => repo
    end.

(** The root under which a recorded directory is listed. *)
Definition recordedRoot (dir : string) : option string :=
  root ← resolveRoot dir;
  Some (let main := mainRoot root in if decide (main = "") then root else main).

Definition recordedRepository (root : string) : Repository :=
  let '(remote, origin) := readRemotes root in
  {| Root := root; MainRoot := ""; Gone := ""; Remote := remote; Origin := origin |}.

(** [Recorded] of the directories the store lists; the set of roots is ranged over
    in map order and the result sorted by root. *)
Definition Recorded `{MapOrder} (dirs : list string) : list Repository :=
  let roots : gmap string () := foldl (λ roots dir,
    match recordedRoot dir with Some root => <[root := tt]> roots | None => roots end) ∅ dirs in
  sort_by (λ repo, [Root repo]) ((λ r, recordedRepository r.1) <$> range_str roots).
End repositories.

(** ** The rules file *)

Record document := { Version : Z; AutoPublish_ : option (list Rule) }.

(** yaml.v3: the first document of a stream ([None] is an error other than the
    end of the stream, an empty stream is the zero document), whether the stream
    ends there, and the encoder. *)
Class YamlLib := {
  yaml_Decode : string → option document;
  yaml_AtEnd : string → bool;
  yaml_Marshal : document → option string;
}.

Inductive ReadFile := Missing | Unreadable | Contents (raw : string).

Inductive FileError :=
  | FileUnreadable | FileUndecodable | FileTrailing | FileVersion | FileNilList (id : string)
  | FileInvalid (e : RuleInvalid) | FileDuplicate (id : string)
  | FileDirectory | FileLocked | FileChange | FileEncode | FileWrite.

Definition fileVersion : Z := 1.

Section file.
Context `{L : AutoPublishLib, Y : YamlLib}.

Definition validateRule (ids : gset string) (r : Rule) : result FileError (gset string) :=
  match Rule_Validate r with
  | Err e => Err (FileInvalid e)
  | Ok _ =>
    require bool_decide (ID r ∉ ids) else FileDuplicate (ID r) in
    Ok ({[ID r]} ∪ ids)
  end.

Definition validateRules (rules : list Rule) : result FileError unit :=
  let? _ids := res_fold (λ _ ids r, validateRule ids r) 0 ∅ rules in Ok tt.

Definition checkLists (r : Rule) : result FileError unit :=
  if decide (Events r = None ∨ Collectives r = None) then Err (FileNilList (ID r)) else Ok tt.

Definition parse (raw : string) : result FileError (list Rule) :=
  match yaml_Decode raw with
  | None => Err FileUndecodable
  | Some doc =>
    require yaml_AtEnd raw else FileTrailing in
    require bool_decide (Version doc = fileVersion ∨ Version doc = 0%Z) else FileVersion in
    let rules := default [] (AutoPublish_ doc) in
    let? _lists := res_iter (λ _ r, checkLists r) 0 rules in
    let? _valid := validateRules rules in
    Ok rules
  end.

Definition Load (file : ReadFile) : result FileError (list Rule) :=
  match file with
  | Missing => Ok []
  | Unreadable => Err FileUnreadable
  | Contents raw => parse raw
  end.

(** [Update]: the directory and the lock can be had or not, [writeAtomic] replaces
    the file or leaves it.  The result is the error and the file afterwards. *)
Definition Update (mkdirOk lockOk : bool) (writeOk : bool) (file : ReadFile)
    (change : list Rule → option (list Rule)) : result FileError unit * ReadFile :=
  let outcome :=
    require mkdirOk else FileDirectory in
    require lockOk else FileLocked in
    let? rules := Load file in
    match change rules with
    | None => Err FileChange
    | Some changed =>
      let? _valid := validateRules changed in
      match yaml_Marshal {| Version := fileVersion; AutoPublish_ := Some changed |} with
      | None => Err FileEncode
      | Some raw => if writeOk then Ok raw else Err FileWrite
      end
    end in
  match outcome with
  | Ok raw => (Ok tt, Contents raw)
  | Err e => (Err e, file)
  end.
End file.

(** ** Decisions *)

(** The first occurrences, in order. *)
Definition first_occurrences (l : list string) : list string := reverse (remove_dups (reverse l)).

Lemma add_new_first l : foldl add_new [] l = first_occurrences l.
Proof.
  induction l as [|x l IH] using rev_ind; [done|]. rewrite foldl_app, IH. unfold first_occurrences. simpl.
  rewrite reverse_snoc. simpl. unfold add_new.
  assert (x ∈ reverse (remove_dups (reverse l)) ↔ x ∈ reverse l) as Hx by (by rewrite elem_of_reverse, elem_of_remove_dups).
  destruct (decide_rel elem_of x (reverse l)) as [Hin|Hin].
  - by rewrite decide_True by tauto.
  - rewrite decide_False by tauto. by rewrite reverse_cons.
Qed.

Section decisions.
Context `{L : AutoPublishLib} (repo : Repository) (event : string).

(** The rule publishes the repository at the event. *)
Definition publishes (r : Rule) : Prop :=
  Covers r repo = true ∧ elements (Events r) ≠ [] ∧ (event = "" ∨ event ∈ elements (Events r)).
Definition pauses (r : Rule) : Prop := Covers r repo = true ∧ elements (Events r) = [].

#[export] Instance publishes_dec r : base.Decision (publishes r).
Proof. unfold publishes. apply _. Defined.
#[export] Instance pauses_dec r : base.Decision (pauses r).
Proof. unfold pauses. apply _. Defined.

Definition decision_of (rules : list Rule) : Decision :=
  {| d_Rules := ID <$> filter publishes rules;
     d_Collectives := foldl add_new [] (filter publishes rules ≫= elements ∘ Collectives);
     d_Events := foldl add_new [] (filter publishes rules ≫= elements ∘ Events);
     d_Paused := ID <$> filter pauses rules |}.

Lemma decideRule_snoc rules r : decideRule repo event (decision_of rules) r = decision_of (rules ++ [r]).
Proof.
  unfold decideRule, decision_of. rewrite !filter_app, !filter_cons, !filter_nil.
  destruct (Covers r repo) eqn:Hc; simpl.
  - destruct (decide (elements (Events r) = [])) as [He|He].
    + rewrite (decide_False (P := publishes r)) by (by intros (_ & ? & _)). rewrite (decide_True (P := pauses r)) by done.
      by rewrite !app_nil_r, fmap_app.
    + rewrite (decide_False (P := pauses r)) by (by intros (_ & ?)).
      destruct (decide (event ≠ "" ∧ event ∉ elements (Events r))) as [[? ?]|Hev].
      * rewrite (decide_False (P := publishes r)) by (by intros (_ & _ & [?|?])). by rewrite !app_nil_r.
      * rewrite (decide_True (P := publishes r)).
        -- rewrite !fmap_app, !bind_app, !foldl_app, !app_nil_r. csimpl. by rewrite !app_nil_r.
        -- split_and!; [done..|]. destruct (decide (event = "")); [by left|right].
           destruct (decide (event ∈ elements (Events r))); tauto.
  - rewrite (decide_False (P := publishes r)) by (intros (? & _); congruence).
    rewrite (decide_False (P := pauses r)) by (intros (? & _); congruence). by rewrite !app_nil_r.
Qed.

Lemma DecideForEvent_of rules : DecideForEvent rules repo event = decision_of rules.
Proof.
  unfold DecideForEvent. induction rules as [|r rules IH] using rev_ind; [done|].
  by rewrite foldl_app, IH, <- decideRule_snoc.
Qed.
End decisions.

(** What the outcome of a decision says: a rule publishes, or else a rule is paused. *)
Lemma outcome_of `{L : AutoPublishLib} rules repo event o :
  Decision_Outcome (DecideForEvent rules repo event) = o ↔
  match o with
  | Bound => ∃ r, r ∈ rules ∧ publishes repo event r
  | Paused => (∀ r, r ∈ rules → ¬ publishes repo event r) ∧ ∃ r, r ∈ rules ∧ pauses repo r
  | Unbound => (∀ r, r ∈ rules → ¬ publishes repo event r) ∧ ∀ r, r ∈ rules → ¬ pauses repo r
  end.
Proof.
  rewrite DecideForEvent_of. unfold Decision_Outcome. simpl. rewrite !length_fmap.
  pose proof (filter_nil_iff (publishes repo event) rules) as Hp. pose proof (filter_not_nil_iff (publishes repo event) rules) as Hp'.
  pose proof (filter_nil_iff (pauses repo) rules) as Hq. pose proof (filter_not_nil_iff (pauses repo) rules) as Hq'.
  destruct o; rewrite <-?Hp, <-?Hp', <-?Hq, <-?Hq';
    destruct (filter (publishes repo event) rules), (filter (pauses repo) rules); simpl; naive_solver.
Qed.

Lemma covered_of `{L : AutoPublishLib} rules repo event :
  Covered (DecideForEvent rules repo event) = true ↔
  (∃ r, r ∈ rules ∧ publishes repo event r) ∨ ∃ r, r ∈ rules ∧ pauses repo r.
Proof.
  assert (∀ A (l : list A), 0 < length l ↔ l ≠ []) as Hl by (intros A [|x l]; simpl; split; (lia || done)).
  rewrite DecideForEvent_of. unfold Covered. simpl. by rewrite !length_fmap, bool_decide_eq_true, <-!filter_not_nil_iff, !Hl.
Qed.

(** A covering rule publishes at no event in particular, or is paused. *)
Lemma covers_iff `{L : AutoPublishLib} repo r :
  Covers r repo = true ↔ publishes repo "" r ∨ pauses repo r.
Proof. unfold publishes, pauses. destruct (decide (elements (Events r) = [])); naive_solver. Qed.

(** C39: The matcher publishes with exactly the rules that cover the repository and
    name the event (any event when none is asked for), pauses with the covering
    rules that name none, both in file order; the collectives are those of the
    publishing rules alone, each once at its first mention, and so are the events.
    The outcome is bound exactly when a rule publishes, and a repository that no rule
    covers is unbound and not covered.  When no event is asked for ([Decide]) the
    converse holds too: covered means that some rule covers the repository, unbound
    that none does, and paused that some does and none of those names an event. *)
Theorem DecideForEvent_exact `{L : AutoPublishLib} rules repo event :
  let d := DecideForEvent rules repo event in
  d_Rules d = ID <$> filter (publishes repo event) rules ∧
  d_Paused d = ID <$> filter (pauses repo) rules ∧
  d_Collectives d = first_occurrences (filter (publishes repo event) rules ≫= elements ∘ Collectives) ∧
  d_Events d = first_occurrences (filter (publishes repo event) rules ≫= elements ∘ Events) ∧
  (∀ c, c ∈ d_Collectives d ↔ ∃ r, r ∈ rules ∧ publishes repo event r ∧ c ∈ elements (Collectives r)) ∧
  (Decision_Outcome d = Bound ↔ ∃ r, r ∈ rules ∧ publishes repo event r) ∧
  ((∀ r, r ∈ rules → Covers r repo = false) → Decision_Outcome d = Unbound ∧ Covered d = false) ∧
  let d := Decide rules repo in
  (Covered d = true ↔ ∃ r, r ∈ rules ∧ Covers r repo = true) ∧
  (Decision_Outcome d = Unbound ↔ ∀ r, r ∈ rules → Covers r repo = false) ∧
  (Decision_Outcome d = Paused ↔
     (∃ r, r ∈ rules ∧ Covers r repo = true) ∧ ∀ r, r ∈ rules → Covers r repo = true → elements (Events r) = []).
Proof.
  assert (∀ r, Covers r repo = false ↔ ¬ publishes repo "" r ∧ ¬ pauses repo r) as Hno.
  { intros r. rewrite <-not_true_iff_false, covers_iff. tauto. }
  intros d. split_and!.
  1-5: subst d; rewrite DecideForEvent_of; unfold decision_of; cbn [d_Rules d_Paused d_Collectives d_Events]; rewrite ?add_new_first; try done.
  - intros c. unfold first_occurrences. rewrite elem_of_reverse, elem_of_remove_dups, elem_of_reverse, list_elem_of_bind.
    split; [intros (r & ? & [? ?]%list_elem_of_filter); eauto|intros (r & ? & ? & ?)]. exists r. by rewrite list_elem_of_filter.
  - exact (outcome_of rules repo event Bound).
  - intros Hnone. assert (Decision_Outcome d = Unbound) as Hu.
    { apply (outcome_of rules repo event Unbound). split; intros r Hr; [intros [Hc _]|intros [Hc _]]; by rewrite Hnone in Hc. }
    split; [done|]. apply not_true_iff_false. subst d. rewrite covered_of.
    intros [(r & Hr & Hc & _)|(r & Hr & Hc & _)]; by rewrite Hnone in Hc.
  - intros d'. subst d'. unfold Decide. split_and!.
    + rewrite covered_of. split; [intros [(r & Hr & Hc & _)|(r & Hr & Hc & _)]; eauto|].
      intros (r & Hr & [Hc|Hc]%covers_iff); eauto.
    + rewrite outcome_of. setoid_rewrite Hno. naive_solver.
    + rewrite outcome_of. unfold publishes, pauses. split.
      * intros [Hno' (r & Hr & Hc & _)]. split; [eauto|]. intros r' Hr' Hc'.
        destruct (decide (elements (Events r') = [])); [done|]. destruct (Hno' r' Hr'). auto.
      * intros [(r & Hr & Hc) Hall]. split; [|eauto]. intros r' Hr' (Hc' & He & _). auto.
Qed.

(** The documents call a repository unbound when no rule covers it; asked about one
    event, the matcher also answers so for a repository whose covering rule names only
    another event. *)
Example other_event_reads_as_unbound `{L : AutoPublishLib} r repo :
  Covers r repo = true → Events r = Some ["post-commit"] →
  let d := DecideForEvent [r] repo "pre-push" in Decision_Outcome d = Unbound ∧ Covered d = false.
Proof. intros Hc He. unfold DecideForEvent, decideRule. simpl. by rewrite Hc, He. Qed.

(** ** Folder globs *)

(** What a folder glob names: [**] any number of segments, anything else one
    segment by [filepath.Match]. *)
Inductive glob_path : list string → list string → Prop :=
  | gp_nil : glob_path [] []
  | gp_any skipped pattern path : glob_path pattern path → glob_path ("**" :: pattern) (skipped ++ path)
  | gp_segment g s pattern path :
      g ≠ "**" → Match g s = Ok true → glob_path pattern path → glob_path (g :: pattern) (s :: path).

Lemma any_suffix_iff f path : any_suffix f path = true ↔ ∃ skipped rest, path = skipped ++ rest ∧ f rest = true.
Proof.
  induction path as [|x path IH]; simpl; rewrite orb_true_iff.
  - split; [intros [Hf|?]; [by exists [], []|done]|]. intros ([|] & rest & E & Hf); [simpl in E; subst; by left|done].
  - rewrite IH. split.
    + intros [Hf|(sk & rest & -> & Hf)]; [by exists [], (x :: path)|by exists (x :: sk), rest].
    + intros ([|y sk] & rest & E & Hf); simplify_eq/=; [by left|right; by exists sk, rest].
Qed.

(** [matchSegments] decides exactly the paths the glob names. *)
Theorem matchSegments_iff pattern path : matchSegments pattern path = true ↔ glob_path pattern path.
Proof.
  split.
  - revert path. induction pattern as [|g pattern IH]; intros path; simpl.
    { intros ->%bool_decide_eq_true. constructor. }
    destruct (decide (g = "**")) as [->|Hg]; [intros (sk & rest & -> & Hr)%any_suffix_iff; constructor; auto|].
    destruct path as [|s path]; [done|]. destruct (Match g s) as [ok|] eqn:Em; [|done].
    intros [-> ?]%andb_true_iff. by constructor; [| |apply IH].
  - induction 1 as [|sk pattern path _ IH|g s pattern path Hg Hm _ IH]; simpl; [done| |].
    + apply any_suffix_iff. eauto.
    + by rewrite decide_False, Hm.
Qed.

(** ** Absolute paths *)

Lemma clean_rooted es acc :
  (∀ e, e ∈ acc → plain_element e) → ∀ e, e ∈ foldl (clean_step true) acc es → plain_element e.
Proof.
  revert acc. induction es as [|x es IH]; intros acc Hacc; simpl; [done|]. apply IH.
  unfold clean_step. repeat destruct (decide _); [done|done| |].
  - destruct acc as [|a acc]; [done|]. destruct (decide (a = "..")); [|set_solver].
    subst a. destruct (Hacc "..") as (_ & _ & ?); [by left|done].
  - intros e [->|?]%elem_of_cons; [by split_and!|auto].
Qed.

(** The elements of an absolute path. *)
Definition absElements (p : string) : list string := clean_elements true (split_on slash p).

Lemma absElements_plain p e : e ∈ absElements p → plain_element e ∧ byte_free slash e ∧ e ∈ split_on slash p.
Proof.
  unfold absElements, clean_elements. rewrite elem_of_rev. intros He.
  assert (plain_element e) as Hp by (eapply clean_rooted; [|done]; intros ? Hn; by apply not_elem_of_nil in Hn).
  apply clean_incl in He as [He|[[He _]| ->]]; [by apply not_elem_of_nil in He| |by destruct Hp as (_ & _ & ?)].
  split_and!; [done|by eapply split_elem_free|done].
Qed.

Lemma Clean_absolute p : IsAbs p = true → Clean p = String slash (join_slash (absElements p)).
Proof. intros Ha. unfold Clean. rewrite Ha. destruct (decide (p = "")) as [->|]; done. Qed.

Lemma splitPath_absolute es :
  (∀ e, e ∈ es → plain_element e ∧ byte_free slash e) → splitPath (String slash (join_slash es)) = es.
Proof.
  intros He. unfold splitPath. change (String slash (join_slash es)) with ("" +:+ String slash (join_slash es)).
  rewrite split_on_app. simpl. rewrite filter_cons, decide_False by tauto. destruct (decide (es = [])) as [->|Hne]; [done|].
  rewrite split_join; [|done|set_solver]. clear Hne. induction es as [|e es IH]; [done|].
  rewrite filter_cons, decide_True by (by destruct (He e) as [(? & _) _]; [left|]). f_equal. apply IH. intros ? ?. apply He. by right.
Qed.

Lemma splitPath_Clean p : IsAbs p = true → splitPath (Clean p) = absElements p.
Proof.
  intros Ha. rewrite Clean_absolute by done. apply splitPath_absolute. intros e (? & ? & _)%absElements_plain. done.
Qed.

Lemma Clean_of_elements es :
  (∀ e, e ∈ es → plain_element e ∧ byte_free slash e) →
  Clean (String slash (join_slash es)) = String slash (join_slash es).
Proof.
  intros He. rewrite Clean_absolute by done. do 2 f_equal. unfold absElements, clean_elements.
  change (String slash (join_slash es)) with ("" +:+ String slash (join_slash es)). rewrite split_on_app. simpl.
  destruct (decide (es = [])) as [->|Hne]; [done|]. rewrite split_join; [|done|set_solver].
  rewrite foldl_clean_plain by (intros e Hin; by apply He). by rewrite app_nil_r, rev_involutive.
Qed.

Lemma Clean_absolute_eq p q :
  IsAbs p = true → IsAbs q = true → Clean p = Clean q ↔ absElements p = absElements q.
Proof.
  intros Hp Hq. split; [intros E; by rewrite <- !splitPath_Clean, E|]. intros E. by rewrite !Clean_absolute, E.
Qed.

(** ** Escaped names *)

Lemma escape_literal s : ValidString s = true → literal (escapeSegment s) s.
Proof.
  induction (well_founded_ltof _ String.length s) as [s _ IH]. unfold ltof in IH.
  assert (∀ a p t, between 0 127 a = false → literal p t → literal (String a p) (String a t)) as Hhigh.
  { intros a p t Ha. apply lit_plain. apply ContainsByte_free. simpl.
    split_and!; try done; intros <-; by vm_compute in Ha. }
  assert (∀ a, (128 ≤ N_of_ascii a)%N → between 0 127 a = false) as Hge.
  { intros a Ha. apply not_true_iff_false. rewrite between_iff. lia. }
  assert (∀ a, continuation a = true → between 0 127 a = false) as Hcont.
  { intros a Ha%between_iff. apply Hge. lia. }
  destruct s as [|a s1]; [constructor|]. cbn [ValidString escapeSegment]. destruct (between 0 127 a) eqn:Ha.
  { intros Hs. assert (literal (escapeSegment s1) s1) by (apply IH; [simpl; lia|done]).
    destruct (ContainsByte globMeta a) eqn:Hm; by constructor. }
  destruct s1 as [|b s2]; [done|]. destruct (between 194 223 a) eqn:H2.
  { intros [Hb Hs]%andb_true_iff. assert (two_byte a b = true) as -> by (unfold two_byte; by rewrite H2, Hb).
    repeat (apply Hhigh; [by auto|]). apply IH; [simpl; lia|done]. }
  assert (two_byte a b = false) as -> by (unfold two_byte; by rewrite H2).
  destruct s2 as [|c s3]; [done|]. destruct (between 224 239 a) eqn:H3.
  { intros [[Hb Hc]%andb_true_iff Hs]%andb_true_iff.
    assert (three_byte a b c = true) as -> by (unfold three_byte; by rewrite H3, Hb, Hc).
    assert (continuation b = true) by (eapply second_byte; [| |exact Hb]; lia).
    repeat (apply Hhigh; [by auto|]). apply IH; [simpl; lia|done]. }
  assert (three_byte a b c = false) as -> by (unfold three_byte; by rewrite H3).
  destruct s3 as [|d s4]; [done|]. intros [[[[H4 Hb]%andb_true_iff Hc]%andb_true_iff Hd]%andb_true_iff Hs]%andb_true_iff.
  assert (four_byte a b c d = true) as -> by (unfold four_byte; by rewrite H4, Hb, Hc, Hd).
  assert (continuation b = true) by (eapply second_byte; [| |exact Hb]; lia).
  repeat (apply Hhigh; [by auto|]). apply IH; [simpl; lia|done].
Qed.

Lemma literal_free c p t : c ≠ backslash → literal p t → byte_free c t → byte_free c p.
Proof. induction 2 as [|a p t _ _ IH|a p t _ IH]; simpl; [done|intros []; auto|intros []; auto]. Qed.

Lemma literal_plain p t : literal p t → plain_element t → plain_element p.
Proof.
  intros Hl (H1 & H2 & H3). split_and!; intros ->.
  - by inversion Hl.
  - inversion Hl as [|? ? ? _ Hr|]; subst. by inversion Hr; subst.
  - inversion Hl as [|? ? ? _ Hr|]; subst. inversion Hr as [|? ? ? _ Hr'|]; subst. by inversion Hr'; subst.
Qed.

(** A pattern without a glob character is the name itself. *)
Lemma literal_self p t : literal p t → ContainsAny p globMeta = false → p = t.
Proof.
  unfold ContainsAny. induction 1 as [|a p t _ _ IH|a p t _ _]; simpl; [done| |done].
  intros [_ ?]%orb_false_iff. by rewrite IH.
Qed.

Lemma literal_not_doublestar t : ¬ literal "**" t.
Proof. intros Hl. inversion Hl as [|? ? ? Ha|]; subst. by vm_compute in Ha. Qed.

Lemma matchSegments_literal ps ts path : Forall2 literal ps ts → matchSegments ps path = bool_decide (path = ts).
Proof.
  intros Hl. revert path. induction Hl as [|p t ps ts Hp _ IH]; intros path; simpl; [by apply bool_decide_ext|].
  rewrite decide_False by (intros ->; by eapply literal_not_doublestar). destruct path as [|s path]; [done|].
  rewrite (literal_Match _ _ _ Hp), IH. destruct (decide (s = t)) as [->|Hs].
  - rewrite bool_decide_eq_true_2 by done. simpl. apply bool_decide_ext. naive_solver.
  - rewrite bool_decide_eq_false_2 by done. simpl. symmetry. apply bool_decide_eq_false_2. naive_solver.
Qed.

Lemma literalCount_self ps ts k : Forall2 literal ps ts → k ≤ literalCount ps → take k ps = take k ts.
Proof.
  intros Hl. revert k. induction Hl as [|p t ps ts Hp _ IH]; intros [|k] Hk; simpl in *; try done.
  destruct (ContainsAny p globMeta) eqn:Hc; [lia|]. rewrite (literal_self _ _ Hp Hc). f_equal. apply IH. lia.
Qed.

Lemma strip_all_suffix (ps : list string) fuel s :
  ∃ dropped, s = dropped +:+ strip_all fuel ps s ∧ ∀ c, (∀ p, p ∈ ps → byte_free c p) → byte_free c dropped.
Proof.
  revert s. induction fuel as [|fuel IH]; intros s; simpl; [by exists ""|].
  destruct (cut_any ps s) as [r|] eqn:E; [|by exists ""].
  assert (∃ p, p ∈ ps ∧ s = p +:+ r) as (p & Hp & ->).
  { clear IH. induction ps as [|p ps IHp]; simpl in E; [done|]. destruct (cut_prefix p s) eqn:Ep.
    - simplify_eq. apply cut_prefix_Some in Ep. exists p. split; [by left|done].
    - destruct (IHp E) as (q & ? & ?). exists q. split; [by right|done]. }
  destruct (IH r) as (d & Hd & Hfree). exists (p +:+ d). split; [by rewrite str_app_assoc, <- Hd|].
  intros c Hc. apply byte_free_app. auto.
Qed.

Lemma byte_free_list c s : byte_free c s ↔ c ∉ String.list_ascii_of_string s.
Proof. induction s as [|a s IH]; simpl; [set_solver|]. rewrite IH, not_elem_of_cons. naive_solver. Qed.

Lemma byte_free_rev c s : byte_free c (str_rev s) ↔ byte_free c s.
Proof.
  rewrite !byte_free_list. unfold str_rev. rewrite String.list_ascii_of_string_of_list_ascii. by rewrite elem_of_rev.
Qed.

(** Trimming white space to nothing leaves no other byte. *)
Lemma TrimSpace_empty c s : (∀ p, p ∈ space_strings → byte_free c p) → TrimSpace s = "" → byte_free c s.
Proof.
  intros Hfree. unfold TrimSpace, trim_back, trim_front. set (t := strip_all _ space_strings s). intros Ht.
  assert (byte_free c t) as Hct.
  { apply byte_free_rev. destruct (strip_all_suffix (str_rev <$> space_strings) (String.length (str_rev t)) (str_rev t)) as (d & E & Hd).
    rewrite E. apply byte_free_app. split.
    - apply Hd. intros p (q & -> & Hq)%list_elem_of_fmap. apply byte_free_rev. auto.
    - apply byte_free_rev. by rewrite Ht. }
  destruct (strip_all_suffix space_strings (String.length s) s) as (d & E & Hd). rewrite E.
  apply byte_free_app. split; [auto|exact Hct].
Qed.

Lemma TrimSpace_absolute p : IsAbs p = true → TrimSpace p ≠ "".
Proof.
  intros [t ->]%IsAbs_split Ht. apply (TrimSpace_empty slash) in Ht; [by destruct Ht|].
  intros q Hq. apply ContainsByte_free.
  assert (forallb (λ q, negb (ContainsByte q slash)) space_strings = true) as Hall by (by vm_compute).
  rewrite forallb_forall in Hall. apply list_elem_of_In, Hall, negb_true_iff in Hq. done.
Qed.

Lemma resolveDown_self `{L : AutoPublishLib} ps ts k :
  Forall2 literal ps ts → (∀ e, e ∈ ts → plain_element e ∧ byte_free slash e) → k ≤ literalCount ps →
  (∀ j real, EvalSymlinks (String slash (join_slash (take j ts))) = Some real → real = String slash (join_slash (take j ts))) →
  resolveDown k ps = ps.
Proof.
  intros Hl Hts Hk Hreal. induction k as [|k IH]; cbn [resolveDown]; [done|].
  rewrite (literalCount_self _ _ _ Hl Hk). destruct (EvalSymlinks _) as [real|] eqn:E; [|apply IH; lia].
  apply Hreal in E as ->. rewrite splitPath_absolute.
  - by rewrite <- (literalCount_self _ _ _ Hl Hk), take_drop.
  - intros e He. apply Hts. rewrite <- (take_drop (S k) ts). apply elem_of_app. by left.
Qed.

(** The glob [FolderMatch] writes for a directory covers that directory and no
    other, whatever glob characters its name holds.  The name must be valid UTF-8
    without surrounding white space, and the directory free of symlinks, as Git
    reports a root. *)
Theorem FolderMatch_exact `{L : AutoPublishLib} root other :
  IsAbs root = true → ValidString root = true → TrimSpace (FolderMatch root) = FolderMatch root →
  (∀ j real, let prefix := String slash (join_slash (take j (absElements root))) in
     EvalSymlinks prefix = Some real → real = prefix) →
  IsAbs other = true →
  folderMatches (FolderMatch root) other = true ↔ Clean other = Clean root.
Proof.
  intros Hroot Hvalid Htrim Hreal Hother. set (ts := absElements root). set (ps := escapeSegment <$> ts).
  assert (∀ e, e ∈ ts → plain_element e ∧ byte_free slash e) as Hts by (intros e (? & ? & _)%absElements_plain; done).
  assert (∀ e, e ∈ ts → literal (escapeSegment e) e) as Hlit.
  { intros e (_ & _ & He)%absElements_plain. apply escape_literal. by eapply (split_valid slash root). }
  assert (Forall2 literal ps ts) as Hl.
  { subst ps. clear -Hlit. induction ts as [|e ts IH]; csimpl; constructor; [apply Hlit; by left|].
    apply IH. intros ? ?. apply Hlit. by right. }
  assert (∀ e, e ∈ ps → plain_element e ∧ byte_free slash e) as Hps.
  { intros e (t & -> & Ht)%list_elem_of_fmap. destruct (Hts t Ht). split; [by eapply literal_plain; [apply Hlit|]|].
    by eapply literal_free; [|apply Hlit|]. }
  assert (folderSegments (FolderMatch root) = Some ps) as Hseg.
  { unfold folderSegments. rewrite Htrim. unfold FolderMatch. rewrite splitPath_Clean by done. fold ts. fold ps.
    rewrite bool_decide_eq_false_2 by done. simpl. rewrite Clean_of_elements by done. by rewrite splitPath_absolute. }
  unfold folderMatches. rewrite decide_False by (by apply TrimSpace_absolute). rewrite Hseg.
  rewrite splitPath_Clean by done. rewrite !(matchSegments_literal ps ts) by done.
  unfold resolveLiteralPrefix. rewrite (resolveDown_self ps ts) by done.
  rewrite (Clean_absolute_eq other root) by done. fold ts.
  rewrite (bool_decide_eq_true_2 (ps = ps)) by done. destruct (bool_decide (absElements other = ts)) eqn:E; bool_prop; naive_solver.
Qed.

(** ** Examples *)

(** No home directory; one symlink, to a directory whose name is a glob. *)
Definition demoLib (links : string → option string) : AutoPublishLib := {|
  AutoPublishRuleFolder := "folder";
  AutoPublishRuleRemote := "remote";
  RequestValidate _ := true;
  RemoteLabel r := match CutString r "/" with Some (host, p) => Some (host +:+ ":" +:+ p) | None => None end;
  ToLower s := s;
  UserHomeDir := Some "/home/u";
  EvalSymlinks := links;
|}.

Lemma FolderMatch_exact_witness :
  let L := demoLib Some in
  folderMatches (FolderMatch "/w/a*b [old]/x") "/w/a*b [old]/x/" = true ↔ Clean "/w/a*b [old]/x/" = Clean "/w/a*b [old]/x".
Proof.
  intros L. apply (@FolderMatch_exact L); [by vm_compute..| |by vm_compute]. intros j real prefix E. by injection E as <-.
Defined.

(** The resolved prefix is matched as a glob: a rule for one directory, reached
    through a symlink to [/data/a*], covers the sibling [/data/ab]. *)
Example resolved_prefix_is_a_glob :
  let L := demoLib (λ p, if decide (p = "/link") then Some "/data/a*" else Some p) in
  folderMatches (FolderMatch "/link") "/data/ab" = true.
Proof. by vm_compute. Qed.

(** A directory whose name ends in a space is not covered by its own glob. *)
Example trailing_space_uncovered :
  let L := demoLib Some in
  folderMatches (FolderMatch "/w/a ") "/w/a " = false ∧ folderMatches (FolderMatch "/w/a ") "/w/a" = true.
Proof. by vm_compute. Qed.

(** ** Remote patterns *)

(** A remote pattern without a character class reaches no deeper than its own
    levels: it only names remotes whose label has as many path separators. *)
Theorem remote_levels `{L : AutoPublishLib} pattern remote :
  remoteMatches pattern remote = true →
  ∃ want label, remotePatternLabel pattern = Some want ∧ RemoteLabel remote = Some label ∧
    Match want (ToLower label) = Ok true ∧
    (byte_free lbracket want → slashes (ToLower label) = slashes want).
Proof.
  unfold remoteMatches. destruct (RemoteLabel remote) as [label|]; [|done].
  destruct (remotePatternLabel pattern) as [want|]; [|done]. intros Hm. exists want, label. split_and!; [done..| |].
  - destruct (Match want (ToLower label)) as [ok|]; [by subst ok|done].
  - intros Hfree. apply Match_slashes; [done|]. destruct (Match want (ToLower label)) as [ok|]; [by subst ok|done].
Qed.

Lemma remote_levels_witness :
  let L := demoLib Some in
  remoteMatches "github.com/owner/*" "github.com/owner/repo" = true ∧
  ∃ want label, remotePatternLabel "github.com/owner/*" = Some want ∧ RemoteLabel "github.com/owner/repo" = Some label ∧
    Match want (ToLower label) = Ok true ∧ (byte_free lbracket want → slashes (ToLower label) = slashes want).
Proof. intros L. split; [by vm_compute|]. apply (@remote_levels L). by vm_compute. Defined.

(** ** The directories above a path *)

(** The loop has ended after [n] directories. *)
Definition ends (n : nat) (dir : string) : Prop := ∀ k, above (n + k) dir = above n dir.

Lemma ends_stop dir : dir = "" ∨ dir = Dir dir → ends 1 dir.
Proof. intros Hd k. simpl. by rewrite !decide_True. Qed.

Lemma ends_step n dir : ends n (Dir dir) → ends (S n) dir.
Proof. intros Hn k. simpl. destruct (decide _); [done|]. by rewrite Hn. Qed.

Lemma ends_le n m dir : n ≤ m → ends n dir → ends m dir.
Proof. intros Hm Hn k. replace m with (n + (m - n)) by lia. by rewrite <- Nat.add_assoc, !Hn. Qed.

Lemma Dir_absolute es e :
  (∀ x, x ∈ es ++ [e] → plain_element x ∧ byte_free slash x) →
  Dir (String slash (join_slash (es ++ [e]))) = String slash (join_slash es).
Proof.
  intros He. unfold Dir, dirElems. change (String slash (join_slash (es ++ [e]))) with ("" +:+ String slash (join_slash (es ++ [e]))).
  rewrite split_on_app, split_join; [|by destruct es|set_solver]. simpl split_on.
  change ([""] ++ es ++ [e])%list with (("" :: es) ++ [e])%list. rewrite removelast_last.
  assert (∀ x, x ∈ es → plain_element x ∧ byte_free slash x) as Hes by (intros x ?; apply He, elem_of_app; by left).
  destruct (decide (es = [])) as [->|Hne]; [done|]. rewrite join_cons by done.
  change ("" +:+ String slash (join_slash es)) with (String slash (join_slash es)). rewrite str_app_cons.
  rewrite Clean_absolute by done. do 2 f_equal. unfold absElements, clean_elements.
  change (String slash (join_slash es +:+ "/")) with ("" +:+ String slash (join_slash es +:+ String slash "")).
  rewrite split_on_app, split_on_app, split_join; [|done|set_solver]. rewrite !foldl_app.
  rewrite (foldl_clean_plain true es) by (intros x ?; by apply Hes). simpl. rewrite app_nil_r. change (rev (rev es) = es). by rewrite rev_involutive.
Qed.

Lemma ends_absolute es :
  (∀ x, x ∈ es → plain_element x ∧ byte_free slash x) → ends (S (length es)) (String slash (join_slash es)).
Proof.
  induction es as [|e es IH] using rev_ind; intros He; [apply ends_stop; by right|].
  rewrite length_app, Nat.add_1_r. apply ends_step. rewrite Dir_absolute by done. apply IH. intros x ?. apply He, elem_of_app. by left.
Qed.

(** The directories above a clean absolute path are the proper prefixes of it. *)
Lemma above_absolute es n :
  (∀ x, x ∈ es → plain_element x ∧ byte_free slash x) → length es < n →
  above n (String slash (join_slash es)) =
  (λ k, String slash (join_slash (take k es))) <$> rev (seq 1 (length es)).
Proof.
  revert n. induction es as [|e es IH] using rev_ind; intros n He Hn.
  { destruct n; [lia|]. cbn [above]. rewrite decide_True; [done|by right]. }
  rewrite length_app, Nat.add_1_r in *. destruct n as [|n]; [lia|]. cbn [above].
  rewrite Dir_absolute by done. rewrite decide_False.
  - rewrite IH; [|intros x ?; apply He, elem_of_app; by left|lia]. rewrite seq_S, rev_app_distr. simpl. f_equal.
    + by rewrite take_ge by (rewrite length_app; simpl; lia).
    + apply list_fmap_ext. intros i k Hk. apply list_elem_of_lookup_2, elem_of_rev, elem_of_seq in Hk.
      by rewrite take_app_le by lia.
  - intros [?|E]; [done|]. injection E as E. apply (f_equal String.length) in E.
    destruct (He e) as [(? & _) _]; [set_solver|]. destruct (decide (es = [])) as [->|Hne]; [by destruct e|].
    rewrite join_app in E by done. rewrite str_length_app in E. simpl in E. lia.
Qed.

(** Element lists that cleaning a relative path leaves alone. *)
Definition settled (l : list string) : Prop := foldl (clean_step false) [] l = rev l.

Lemma foldl_clean_length rooted l acc : length (foldl (clean_step rooted) acc l) ≤ length acc + length l.
Proof.
  revert acc. induction l as [|e l IH]; intros acc; simpl; [lia|].
  assert (length (clean_step rooted acc e) ≤ S (length acc)) by
    (unfold clean_step; repeat destruct (decide _); [lia..| |simpl; lia]; destruct acc as [|a acc];
     [destruct rooted; simpl; lia|destruct (decide _); simpl; lia]).
  specialize (IH (clean_step rooted acc e)). lia.
Qed.

Lemma foldl_clean_ups l acc :
  (∀ u, u ∈ acc → u = "..") → (∀ u, u ∈ l → u = "..") → foldl (clean_step false) acc l = rev l ++ acc.
Proof.
  revert acc. induction l as [|u l IH]; intros acc Hacc Hl; simpl; [done|].
  assert (u = "..") as -> by (apply Hl; by left).
  assert (clean_step false acc ".." = ".." :: acc) as ->.
  { unfold clean_step. simpl. destruct acc as [|a acc]; [done|]. by rewrite (Hacc a) by by left. }
  rewrite IH by set_solver. by rewrite <- app_assoc.
Qed.

Lemma cleaned_settled l : settled (clean_elements false l).
Proof.
  destruct (clean_elements_acc l) as (ups & es & E & Hu & He). unfold settled. rewrite E.
  apply (f_equal (@rev string)) in E. rewrite rev_involutive, rev_app_distr in E. rewrite E, foldl_app.
  rewrite (foldl_clean_ups (rev ups) []); [|intros ? Hn; by apply not_elem_of_nil in Hn|intros u Hin; apply Hu; by rewrite <- elem_of_rev].
  rewrite foldl_clean_plain by (intros e Hin; apply He; by rewrite <- elem_of_rev).
  by rewrite !rev_involutive, app_nil_r.
Qed.

Lemma settled_prefix l e : settled (l ++ [e]) → settled l.
Proof.
  unfold settled. rewrite foldl_app, rev_app_distr. simpl. pose proof (foldl_clean_length false l []) as Hlen.
  pose proof (clean_incl false l []) as Hin. set (acc := foldl _ [] l) in *. intros E. simpl in Hlen.
  apply (f_equal (@tail string)) in E as Ht. simpl in Ht. rewrite <- Ht. unfold clean_step in *.
  assert (length acc < length (e :: rev l)) by (simpl; rewrite length_rev; lia).
  repeat destruct (decide _); [apply (f_equal length) in E; lia..| |done].
  destruct acc as [|a acc]; [done|]. destruct (decide (a = "..")); [done|].
  apply (f_equal length) in E. simpl in *. lia.
Qed.

Lemma Dir_settled l e :
  settled l → (∀ x, x ∈ l ++ [e] → x ≠ "" ∧ byte_free slash x) →
  Dir (join_slash (l ++ [e])) = if decide (l = []) then "." else join_slash l.
Proof.
  intros Hl He. unfold Dir, dirElems. rewrite split_join; [|by destruct l|set_solver]. rewrite removelast_last.
  destruct (decide (l = [])) as [->|Hne]; [done|].
  assert (∀ x, x ∈ l → x ≠ "" ∧ byte_free slash x) as Hx by (intros x ?; apply He, elem_of_app; by left).
  assert (split_on slash (join_slash l +:+ "/") = l ++ [""]) as Hs.
  { change "/" with (String slash ""). rewrite split_on_app, split_join; [done|done|set_solver]. }
  assert (join_slash l ≠ "") by (apply join_not_empty; [set_solver|done]).
  assert (Clean (join_slash l +:+ "/") = join_slash l) as Hc; [|by destruct l].
  unfold Clean. rewrite decide_False by (intros E; apply (f_equal String.length) in E; rewrite str_length_app in E; simpl in E; lia).
  destruct (IsAbs (join_slash l +:+ "/")) eqn:Ha.
  - apply IsAbs_split in Ha as [t Et]. rewrite Et in Hs. change (String slash t) with ("" +:+ String slash t) in Hs.
    rewrite split_on_app in Hs. destruct l as [|x l]; [done|]. injection Hs as <- _. by destruct (Hx "") as [? _]; [left|].
  - unfold clean_elements. rewrite Hs, foldl_app, Hl. simpl. unfold clean_step. simpl. rewrite rev_involutive. by destruct l.
Qed.

Lemma ends_relative l :
  settled l → (∀ x, x ∈ l → x ≠ "" ∧ byte_free slash x) → ends (S (S (length l))) (join_slash l).
Proof.
  induction l as [|e l IH] using rev_ind; intros Hl Hx; [by apply (ends_le 1), ends_stop; [lia|left]|].
  rewrite length_app, Nat.add_1_r. apply ends_step. pose proof (settled_prefix l e Hl) as Hp.
  rewrite Dir_settled by done. destruct (decide (l = [])) as [->|]; [by apply (ends_le 1), ends_stop; [lia|right]|].
  apply IH; [done|]. intros x ?. apply Hx, elem_of_app. by left.
Qed.

Lemma split_length c s : length (split_on c s) ≤ S (String.length s).
Proof.
  induction s as [|a s IH]; simpl; [lia|]. destruct (decide (a = c)); [simpl; lia|].
  destruct (split_on c s); simpl in *; lia.
Qed.

Lemma ends_Clean q : ends (String.length q + 3) (Clean q).
Proof.
  pose proof (split_length slash q) as Hs. destruct (IsAbs q) eqn:Ha.
  - rewrite Clean_absolute by done. eapply ends_le; [|apply ends_absolute; intros x (? & ? & _)%absElements_plain; done].
    unfold absElements, clean_elements. rewrite length_rev. pose proof (foldl_clean_length true (split_on slash q) []). simpl in *. lia.
  - unfold Clean. rewrite Ha. destruct (decide (q = "")); [by apply (ends_le 1), ends_stop; [lia|right]|].
    pose proof (cleaned_settled (split_on slash q)) as Hset.
    assert (∀ x, x ∈ clean_elements false (split_on slash q) → x ≠ "" ∧ byte_free slash x) as Hx.
    { intros x. unfold clean_elements. rewrite elem_of_rev. intros [Hn|[[Hin ?]| ->]]%clean_incl;
        [by apply not_elem_of_nil in Hn|split; [done|by eapply split_elem_free]|by vm_compute]. }
    assert (length (clean_elements false (split_on slash q)) ≤ length (split_on slash q)) as Hl.
    { unfold clean_elements. rewrite length_rev. pose proof (foldl_clean_length false (split_on slash q) []). simpl in *. lia. }
    destruct (clean_elements false (split_on slash q)) as [|x l]; [by apply (ends_le 1), ends_stop; [lia|right]|].
    eapply ends_le; [|by apply ends_relative]. lia.
Qed.

(** Whatever the path, the loop ends within the fuel. *)
Lemma directoriesAbove_ends dir : ends (String.length dir + 4) dir.
Proof.
  replace (String.length dir + 4) with (S (String.length dir + 3)) by lia. apply ends_step. unfold Dir, dirElems.
  destruct (exists_last (split_on_not_nil slash dir)) as (l & e & E). pose proof (join_split dir) as Hj.
  rewrite E, removelast_last in *. destruct l as [|x l]; [apply (ends_le 3), (ends_Clean ""); lia|].
  eapply ends_le; [|apply ends_Clean]. rewrite <- Hj, join_app by done. rewrite !str_length_app. simpl. lia.
Qed.

(** The loop over the directories above a gone repository ends for every path
    within the fuel given to it, and for a clean absolute path it visits exactly
    the path and its parents below the root: a folder rule covers the gone directory
    when its glob names one of them. *)
Theorem gone_directories_covered `{L : AutoPublishLib} r repo :
  (∀ k, above (String.length (Gone repo) + 4 + k) (Gone repo) = directoriesAbove (Gone repo)) ∧
  (Kind r = AutoPublishRuleFolder → Root repo = "" → MainRoot repo = "" →
   IsAbs (Gone repo) = true → Clean (Gone repo) = Gone repo →
   Covers r repo = true ↔
   ∃ k, 1 ≤ k ≤ length (absElements (Gone repo)) ∧
     folderMatches (Match_ r) (String slash (join_slash (take k (absElements (Gone repo))))) = true).
Proof.
  split; [apply directoriesAbove_ends|]. intros Hk Hr Hm Ha Hc. unfold Covers. rewrite decide_True by done. rewrite Hr, Hm.
  assert (folderMatches (Match_ r) "" = false) as -> by done. rewrite (bool_decide_eq_true_2 ("" = "")) by done. cbn [orb andb negb].
  rewrite Clean_absolute in Hc by done. unfold directoriesAbove. rewrite <- Hc at 2.
  rewrite above_absolute; [|intros x (? & ? & _)%absElements_plain; done|].
  - rewrite existsb_exists. setoid_rewrite <- list_elem_of_In. setoid_rewrite list_elem_of_fmap.
    setoid_rewrite elem_of_rev. setoid_rewrite elem_of_seq. split.
    + intros (d & (k & -> & Hkl) & Hf). exists k. split; [lia|done].
    + intros (k & Hkl & Hf). eexists. split; [|done]. exists k. split; [done|lia].
  - unfold absElements, clean_elements. rewrite length_rev.
    pose proof (foldl_clean_length true (split_on slash (Gone repo)) []). pose proof (split_length slash (Gone repo)). simpl in *. lia.
Qed.

Definition demo_rule : Rule :=
  {| ID := "r1"; Kind := "folder"; Match_ := "/w/*"; Events := Some ["pre-push"];
     Collectives := Some ["0123abcd-4567-89ab-cdef-0123456789ab"] |}.

Definition demo_gone : Repository := {| Root := ""; MainRoot := ""; Gone := "/w/repo/sub"; Remote := ""; Origin := "" |}.

Lemma gone_directories_covered_witness :
  let L := demoLib Some in
  (∀ k, above (String.length (Gone demo_gone) + 4 + k) (Gone demo_gone) = directoriesAbove (Gone demo_gone)) ∧
  (Covers demo_rule demo_gone = true ↔
   ∃ k, 1 ≤ k ≤ length (absElements (Gone demo_gone)) ∧
     folderMatches (Match_ demo_rule) (String slash (join_slash (take k (absElements (Gone demo_gone))))) = true).
Proof.
  intros L. destruct (@gone_directories_covered L demo_rule demo_gone) as [Hends Hcov]. split; [done|].
  apply Hcov; by vm_compute.
Defined.

Example demo_gone_covered : let L := demoLib Some in Covers demo_rule demo_gone = true.
Proof. by vm_compute. Qed.

(** ** The rules file *)

Section file_facts.
Context `{L : AutoPublishLib, Y : YamlLib}.

Lemma validateRules_ok rules :
  validateRules rules = Ok tt ↔ (∀ r, r ∈ rules → Rule_Validate r = Ok tt) ∧ NoDup (ID <$> rules).
Proof.
  unfold validateRules. rewrite res_bind_ok.
  assert (∀ ids, res_fold (λ _, validateRule) 0 ∅ rules = Ok ids ↔
    (∀ r, r ∈ rules → Rule_Validate r = Ok tt) ∧ NoDup (ID <$> rules) ∧ ids = list_to_set (ID <$> rules)) as Hfold.
  { intros ids. rewrite <- bind_singleton.
    apply (collect_set_validates (λ _, validateRule) (λ _ r, Rule_Validate r = Ok tt) (λ r, [ID r])); [|intros; apply NoDup_singleton|done].
    intros _ ids' r res. unfold validateRule. destruct (Rule_Validate r) as [[]|e]; [|naive_solver].
    rewrite res_guard_ok, bool_decide_eq_true. assert (list_to_set [ID r] = ({[ID r]} : gset string)) as -> by set_solver. split.
    - intros [? [= <-]]. split_and!; [done|set_solver|done].
    - intros (_ & Hr & ->). split; [apply Hr; by left|done]. }
  split; [intros (ids & (? & ? & _)%Hfold & _); done|]. intros [? ?]. eexists. by rewrite Hfold.
Qed.

(** What the encoder writes for a rule: a nil list as an empty one. *)
Definition savedRule (r : Rule) : Rule :=
  {| ID := ID r; Kind := Kind r; Match_ := Match_ r; Events := nonNil (Events r); Collectives := nonNil (Collectives r) |}.

Lemma savedRule_valid r : Rule_Validate (savedRule r) = Rule_Validate r.
Proof. done. Qed.

Lemma savedRule_decides repo event d r : decideRule repo event d (savedRule r) = decideRule repo event d r.
Proof. done. Qed.

Lemma saved_decides rules repo event : DecideForEvent (savedRule <$> rules) repo event = DecideForEvent rules repo event.
Proof.
  unfold DecideForEvent. generalize {| d_Rules := []; d_Collectives := []; d_Events := []; d_Paused := [] |}.
  induction rules as [|r rules IH]; intros d; csimpl; [done|]. by rewrite IH.
Qed.

(** yaml.v3 reads back the one document it wrote, an empty sequence for a nil one. *)
Definition yaml_roundtrip : Prop := ∀ doc raw,
  yaml_Marshal doc = Some raw →
  yaml_AtEnd raw = true ∧
  yaml_Decode raw = Some {| Version := Version doc; AutoPublish_ := Some (savedRule <$> default [] (AutoPublish_ doc)) |}.
End file_facts.

(** A change of the rules either fails and leaves the file as it was, or it
    starts from the rules the file holds and reloads as the rules the change
    made, which decide every repository and event alike. *)
Theorem Update_then_Load `{L : AutoPublishLib, Y : YamlLib} mkdirOk lockOk writeOk file change res file' :
  yaml_roundtrip → Update mkdirOk lockOk writeOk file change = (res, file') →
  match res with
  | Err _ => file' = file
  | Ok _ =>
    ∃ rules changed, Load file = Ok rules ∧ change rules = Some changed ∧
      Load file' = Ok (savedRule <$> changed) ∧
      (∀ r, r ∈ changed → Rule_Validate r = Ok tt) ∧ NoDup (ID <$> changed) ∧
      ∀ repo event, DecideForEvent (savedRule <$> changed) repo event = DecideForEvent changed repo event
  end.
Proof.
  intros Hyaml. unfold Update. destruct (res_guard mkdirOk FileDirectory _) as [raw|e] eqn:E; intros [= <- <-]; [|done].
  rewrite !res_guard_ok, res_bind_ok in E. destruct E as (_ & _ & rules & Hload & E).
  destruct (change rules) as [changed|] eqn:Hch; [|done]. rewrite res_bind_ok in E. destruct E as ([] & Hvalid & E).
  destruct (yaml_Marshal _) as [raw'|] eqn:Hm; [|done]. destruct writeOk; [|done]. injection E as ->.
  pose proof Hvalid as [Hrules Hids]%validateRules_ok.
  exists rules, changed. split_and!; [done|done| |done|done|intros; apply saved_decides].
  destruct (Hyaml _ _ Hm) as [Hend Hdec]. cbn [Load]. unfold parse. rewrite Hdec, Hend. cbn [Version AutoPublish_ from_option id res_guard].
  rewrite bool_decide_eq_true_2 by (by left). cbn [res_guard].
  assert (res_iter (λ _ r, checkLists r) 0 (savedRule <$> changed) = Ok tt) as ->.
  { apply res_iter_ok. intros j r (r' & -> & _)%list_lookup_fmap_Some. unfold checkLists.
    rewrite decide_False; [done|]. by intros [?|?]. }
  cbn [res_bind]. assert (validateRules (savedRule <$> changed) = Ok tt) as ->; [|done].
  apply validateRules_ok. split; [|by rewrite <- list_fmap_compose].
  intros r (r' & -> & Hr')%list_elem_of_fmap. rewrite savedRule_valid. auto.
Qed.

(** An encoder that keeps one document. *)
Definition demoYaml : YamlLib := {|
  yaml_Decode raw := if decide (raw = "rules") then Some {| Version := 1; AutoPublish_ := Some [demo_rule] |} else None;
  yaml_AtEnd _ := true;
  yaml_Marshal doc := if decide (Version doc = 1%Z ∧ AutoPublish_ doc = Some [demo_rule]) then Some "rules" else None;
|}.

Lemma Update_then_Load_witness :
  let L := demoLib Some in let Y := demoYaml in
  ∃ rules changed, Load Missing = Ok rules ∧ Some [demo_rule] = Some changed ∧
    Load (Contents "rules") = Ok (savedRule <$> changed) ∧
    (∀ r, r ∈ changed → Rule_Validate r = Ok tt) ∧ NoDup (ID <$> changed) ∧
    ∀ repo event, DecideForEvent (savedRule <$> changed) repo event = DecideForEvent changed repo event.
Proof.
  intros L Y. apply (@Update_then_Load L Y true true true Missing (λ _, Some [demo_rule]) (Ok tt) (Contents "rules")); [|by vm_compute].
  intros [v rules] raw Hm. unfold yaml_Marshal, Y, demoYaml in Hm. simpl in Hm.
  destruct (decide (v = 1%Z ∧ rules = Some [demo_rule])) as [[-> ->]|]; [|done]. injection Hm as <-. done.
Defined.

(** ** Recorded repositories *)

Section recorded.
Context `{G : RepositoryLib, MapOrder}.

Lemma recorded_roots (dirs : list string) root :
  (foldl (λ (roots : gmap string ()) dir,
     match recordedRoot dir with Some root => <[root := tt]> roots | None => roots end) ∅ dirs) !! root = Some tt ↔
  ∃ dir, dir ∈ dirs ∧ recordedRoot dir = Some root.
Proof.
  induction dirs as [|d dirs IH] using rev_ind; [simpl; set_solver|]. rewrite foldl_app. simpl.
  setoid_rewrite elem_of_app. setoid_rewrite list_elem_of_singleton.
  destruct (recordedRoot d) as [r|] eqn:E; [|rewrite IH; naive_solver].
  destruct (decide (r = root)) as [->|]; [rewrite lookup_insert_eq; naive_solver|].
  rewrite lookup_insert_ne by done. rewrite IH. naive_solver.
Qed.

Lemma Root_recorded root : Root (recordedRepository root) = root.
Proof. done. Qed.

(** Every repository is listed once, by root, under its main worktree, whatever
    the order in which the set of roots is ranged over. *)
Lemma Recorded_exact dirs :
  (∀ repo, repo ∈ Recorded dirs ↔ ∃ dir root, dir ∈ dirs ∧ recordedRoot dir = Some root ∧ repo = recordedRepository root) ∧
  NoDup (Root <$> Recorded dirs) ∧ StronglySorted (by_key (λ repo, [Root repo])) (Recorded dirs).
Proof.
  unfold Recorded. split_and!; [|rewrite sort_by_perm|apply sort_by_sorted].
  - intros repo. rewrite elem_of_sort_by, list_elem_of_fmap. split.
    + intros ([root []] & -> & (dir & ? & ?)%elem_of_range_str%recorded_roots). eauto.
    + intros (dir & root & ? & ? & ->). exists (root, tt). split; [done|]. apply elem_of_range_str, recorded_roots. eauto.
  - rewrite <- list_fmap_compose. rewrite range_str_perm.
    rewrite (list_fmap_ext _ fst) by (intros ? [root []] _; apply Root_recorded). apply NoDup_fst_map_to_list.
Qed.
End recorded.
