(* ===== verification/CodexRecords.v ===== *)
(** * Codex rollout records, segments and fingerprints

    The decoded side of [src/internal/ingest/codex_history_replay.go] and the
    authority types of [codex_history.go]: splitting the bytes of a rollout into
    records with native ordinals, the checkpoint and the bounded bytes of a
    segment, the proof obligations of a reference, ownership, and the capture
    fingerprint.  [CodexReplay] reduces the records.

    Bytes are strings.  [encoding/json], [time.Parse] and SHA-256 are the class
    [CodexJson]; [int64] sums wrap around ([i64]). *)
From stdpp Require Import pretty.
From S2P Require Import Prelude GoStrings IndexFormat.
From Stdlib Require Import Ascii.

Local Open Scope string_scope.
Local Open Scope list_scope.
Local Open Scope Z_scope.

(** ** Data *)

(** [encoding/json] leaves a [json.RawMessage] nil (here empty) when the key is
    absent. *)
Record codexHistoryEnvelope := mkEnvelope {
  en_Timestamp : string;
  en_Type : string;
  en_Payload : string;
  en_Metadata : string;
}.

(** A diagnostic without its fixed prose. *)
Record DiagnosticEntry := mkDiagnostic { d_ErrorType : string; d_Location : string }.

Record codexHistoryRecord := mkRecord {
  cr_RawJSON : string;
  cr_TraversalPosition : Z;
  cr_LineIndex : Z;
  cr_Ordinal : Z;
  cr_HasOrdinal : bool;
  cr_Regressed : bool;
  cr_Blank : bool;
  cr_ByteStart : Z;
  cr_ByteEndExclusive : Z;
  cr_EnvelopeType : string;
  cr_TimestampMs : option Z;
  cr_Payload : string;
  cr_Metadata : string;
  cr_Partial : bool;
  cr_Malformed : bool;
}.

(** [CodexHistoryMode] and [CodexOwnership], closed sets of strings. *)
Inductive CodexHistoryMode :=
  | CodexHistoryModeLegacy | CodexHistoryModePaginated | CodexHistoryModeUnsupported.
#[export] Instance CodexHistoryMode_eq : EqDecision CodexHistoryMode.
Proof. solve_decision. Defined.

Definition CodexHistoryMode_String (m : CodexHistoryMode) : string :=
  match m with
  | CodexHistoryModeLegacy => "legacy"
  | CodexHistoryModePaginated => "paginated"
  | CodexHistoryModeUnsupported => "unsupported"
  end.

Inductive CodexOwnership :=
  | CodexOwnershipOwn | CodexOwnershipInherited | CodexOwnershipUncertainEarlier
  | CodexOwnershipReverted | CodexOwnershipExcluded.
#[export] Instance CodexOwnership_eq : EqDecision CodexOwnership.
Proof. solve_decision. Defined.

Definition CodexAuthorityNativeCurrentPointer := "native_current_pointer".
Definition CodexAuthorityDetachedFile := "detached_file".
Definition AllCodexSourceAuthorityKinds : list string :=
  [CodexAuthorityNativeCurrentPointer; CodexAuthorityDetachedFile].
Definition CodexSourceAuthorityKind_IsValid (k : string) : bool :=
  bool_decide (k ∈ AllCodexSourceAuthorityKinds).

(** The mode of a reference is the string its session_meta declared, resolved or
    not. *)
Record CodexReference := mkReference {
  rf_LogicalSessionID : option string;
  rf_Pointer : string;
  rf_PhysicalSourceID : string;
  rf_Mode : string;
  rf_HistoryKind : string;
  rf_ThroughCompleted : bool;
  rf_Coordinates : SegmentCoordinates;
  rf_Inclusion : string;
  rf_CopyBoundary : option Z;
  rf_OriginalOwnershipProven : bool;
}.

Record CodexSourceAuthority := mkAuthority {
  au_StableThreadID : string;
  au_Kind : string;
  au_CurrentPointer : string;
  au_PhysicalSourceID : string;
  au_HistoryMode : string;
  au_RootID : string;
  au_ParentID : string;
  au_ForkSourceID : string;
  au_HistoryBaseThreadID : string;
  au_CopyBoundary : option Z;
  au_OriginalOwnershipProven : bool;
  au_References : list CodexReference;
  au_DerivationDiagnostics : list DiagnosticEntry;
  au_DerivationIncomplete : bool;
}.

Record codexDecodedSegment := mkDecoded {
  sg_descriptor : CodexReference;
  sg_isCurrent : bool;
  sg_ordinal : Z;
  sg_data : string;
  sg_records : list codexHistoryRecord;
  sg_readFailed : bool;
  sg_proofFailed : bool;
}.

Record codexDecodedCheckpoint := mkCheckpoint {
  cp_validRecords : Z;
  cp_maxOrdinal : Z;
  cp_hasValid : bool;
}.

(** The decoding the records rely on.  [decodeOrdinalProbe] reads the raw
    [ordinal] of a payload, [decodeInt64] is [json.Unmarshal] into an [int64]
    (which null leaves at zero), [decodeString] into a [string];
    [Object_Unmarshal] and [Array_Unmarshal] decode into a map and a byteSlice of raw
    messages, null giving the empty one. *)
Class CodexJson := {
  decodeEnvelope : string → option codexHistoryEnvelope;
  decodeOrdinalProbe : string → option string;
  decodeInt64 : string → option Z;
  decodeString : string → option string;
  decodeTypePayload : string → option (string * string);
  Object_Unmarshal : string → option (gmap string string);
  Object_Marshal : gmap string string → option string;
  Array_Unmarshal : string → option (list string);
  Delivery_Fields : string → option (string * string);
  Time_UnixMilli : string → option Z;
  Sum256_Hex : string → string;
}.


Definition codexTypeSessionMeta := "session_meta".
Definition codexTypeTurnContext := "turn_context".
Definition codexTypeResponse := "response_item".
Definition codexTypeEventMsg := "event_msg".
Definition codexTypeCompacted := "compacted".
Definition codexTypeWorldState := "world_state".

Definition codexNativeEnvelopeKinds : list string :=
  [codexTypeSessionMeta; codexTypeTurnContext; codexTypeResponse; codexTypeEventMsg; codexTypeCompacted;
   codexTypeWorldState].

Definition recognizedCodexEnvelopeType (envelopeType : string) : bool :=
  bool_decide (envelopeType ∈ codexNativeEnvelopeKinds).

Definition newlineByte : ascii := "010"%char.

(** [len(bytes.TrimSpace(raw)) == 0 || bytes.Equal(bytes.TrimSpace(raw), "null")]. *)
Definition absent_or_null (raw : string) : bool :=
  bool_decide (TrimSpace raw = "" ∨ TrimSpace raw = "null").

Section records.
Context `{J : CodexJson}.

(** ** Deliveries *)

Inductive codexDeliveryShape :=
  | codexDeliveryAbsent | codexDeliveryNull | codexDeliveryObject | codexDeliveryScalar
  | codexDeliveryUnsupported.

Record codexDelivery := mkDelivery {
  dl_Shape : codexDeliveryShape;
  dl_Target : string;
  dl_CallID : string;
  dl_Raw : string;
}.

Definition noDelivery : codexDelivery := mkDelivery codexDeliveryAbsent "" "" "".

(** [codexDeliveryCorrelation.isCorrelated] on the embedded correlation. *)
Definition correlation_isCorrelated (target callID : string) : bool :=
  bool_decide (target ≠ "" ∨ callID ≠ "").

Definition isCorrelated (d : codexDelivery) : bool :=
  match dl_Shape d with
  | codexDeliveryObject => correlation_isCorrelated (dl_Target d) (dl_CallID d)
  | _ => false
  end.

(** [codexDelivery.UnmarshalJSON]; a JSON value is never blank. *)
Definition codexDelivery_UnmarshalJSON (raw : string) : option codexDelivery :=
  match TrimSpace raw with
  | String "n" _ => Some (mkDelivery codexDeliveryNull "" "" raw)
  | String "034" _ => Some (mkDelivery codexDeliveryScalar "" "" raw)
  | String "{" _ =>
      fields ← Object_Unmarshal (TrimSpace raw);
      let stringField (key : string) : bool :=
        match fields !! key with
        | Some field => match TrimSpace field with String "034" _ => true | _ => false end
        | None => true
        end in
      if stringField "target" && stringField "call_id" then
        '(target, callID) ← Delivery_Fields (TrimSpace raw);
        Some (mkDelivery
          (if correlation_isCorrelated target callID then codexDeliveryObject else codexDeliveryUnsupported)
          target callID raw)
      else None
  | _ => Some (mkDelivery codexDeliveryUnsupported "" "" raw)
  end.

Definition needsRetention (d : codexDelivery) : bool :=
  match dl_Shape d with codexDeliveryScalar | codexDeliveryUnsupported => true | _ => false end.

(** ** Traversal coordinates *)

(** [positions[pointer] = int64(len(positions))]. *)
Definition visitAt (pointer : string) (positions : gmap string Z) : gmap string Z :=
  <[pointer := Z.of_nat (size positions)]> positions.

(** The closure [visit] of [codexTraversalPointers]; every nested value is a proper
    part of the one it is read from, so the length of the record is fuel enough
    ([visit_fuel_enough]). *)
Fixpoint visitValue (fuel : nat) (value pointer : string) (positions : gmap string Z) : gmap string Z :=
  match fuel with
  | O => positions
  | S fuel =>
      let positions := visitAt pointer positions in
      match Object_Unmarshal value with
      | None => positions
      | Some object =>
          let field (k : string) : string := default "" (object !! k) in
          let positions := foldl (λ positions name,
            match Array_Unmarshal (field name) with
            | None => positions
            | Some blocks =>
                foldl (λ positions (ib : nat * string),
                  visitValue fuel ib.2 (pointer +:+ "/" +:+ name +:+ "/" +:+ pretty ib.1) positions)
                  positions (imap pair blocks)
            end) positions ["content"; "summary"] in
          let item := field "item" in
          let positions :=
            if bool_decide (item ≠ "" ∧ item ≠ "null") then visitValue fuel item (pointer +:+ "/item") positions
            else positions in
          let raw := field "delivery" in
          match codexDelivery_UnmarshalJSON raw with
          | Some delivery =>
              if bool_decide (raw ≠ "") && needsRetention delivery
              then visitAt (pointer +:+ "/delivery") positions else positions
          | None => positions
          end
      end
  end.

Definition codexTraversalPointers (raw : string) : gmap string Z :=
  let positions : gmap string Z := {["" := 0]} in
  match decodeTypePayload raw with
  | None => positions
  | Some (type, payload) =>
      if bool_decide (type = codexTypeResponse ∨ type = codexTypeEventMsg)
      then visitValue (String.length raw) payload "/payload" positions
      else positions
  end.

(** ** Splitting the bytes into records *)

Definition codexExplicitRecordOrdinal (payload : string) : option Z :=
  if absent_or_null payload then None
  else
    ordinal ← decodeOrdinalProbe (TrimSpace payload);
    if decide (TrimSpace ordinal = "") then None else decodeInt64 ordinal.

(** [parseTimestampMillis] of [claude.go]: zero when absent or unparseable. *)
Definition parseTimestampMillis (ts : string) : Z :=
  if decide (ts = "") then 0 else default 0 (Time_UnixMilli ts).

(** The record of one line before it is interpreted. *)
Definition lineRecord (recordLine : string) (traversal line start stop : Z) (partial : bool) : codexHistoryRecord :=
  mkRecord (TrimSuffix recordLine (str1 newlineByte)) traversal line 0 false false false start stop "" None "" ""
    partial false.

Definition setMalformed (r : codexHistoryRecord) : codexHistoryRecord :=
  mkRecord (cr_RawJSON r) (cr_TraversalPosition r) (cr_LineIndex r) (cr_Ordinal r) (cr_HasOrdinal r)
    (cr_Regressed r) (cr_Blank r) (cr_ByteStart r) (cr_ByteEndExclusive r) (cr_EnvelopeType r)
    (cr_TimestampMs r) (cr_Payload r) (cr_Metadata r) (cr_Partial r) true.

Definition setRegressed (r : codexHistoryRecord) : codexHistoryRecord :=
  mkRecord (cr_RawJSON r) (cr_TraversalPosition r) (cr_LineIndex r) (cr_Ordinal r) (cr_HasOrdinal r)
    true (cr_Blank r) (cr_ByteStart r) (cr_ByteEndExclusive r) (cr_EnvelopeType r)
    (cr_TimestampMs r) (cr_Payload r) (cr_Metadata r) (cr_Partial r) (cr_Malformed r).

Definition setBlank (r : codexHistoryRecord) : codexHistoryRecord :=
  mkRecord (cr_RawJSON r) (cr_TraversalPosition r) (cr_LineIndex r) (cr_Ordinal r) (cr_HasOrdinal r)
    (cr_Regressed r) true (cr_ByteStart r) (cr_ByteEndExclusive r) (cr_EnvelopeType r)
    (cr_TimestampMs r) (cr_Payload r) (cr_Metadata r) (cr_Partial r) (cr_Malformed r).

Definition setOrdinal (o : Z) (r : codexHistoryRecord) : codexHistoryRecord :=
  mkRecord (cr_RawJSON r) (cr_TraversalPosition r) (cr_LineIndex r) o true
    (cr_Regressed r) (cr_Blank r) (cr_ByteStart r) (cr_ByteEndExclusive r) (cr_EnvelopeType r)
    (cr_TimestampMs r) (cr_Payload r) (cr_Metadata r) (cr_Partial r) (cr_Malformed r).

Definition setEnvelope (env : codexHistoryEnvelope) (ts : option Z) (r : codexHistoryRecord) : codexHistoryRecord :=
  mkRecord (cr_RawJSON r) (cr_TraversalPosition r) (cr_LineIndex r) (cr_Ordinal r) (cr_HasOrdinal r)
    (cr_Regressed r) (cr_Blank r) (cr_ByteStart r) (cr_ByteEndExclusive r) (en_Type env)
    ts (en_Payload env) (en_Metadata env) (cr_Partial r) (cr_Malformed r).

(** The [switch] of [parseCodexHistoryRecords] on one line, with the new
    [maxAssigned]. *)
Definition interpretLine (record : codexHistoryRecord) (trimmed : string) (maxAssigned : Z) :
    codexHistoryRecord * Z :=
  if cr_Partial record then (record, maxAssigned)
  else if decide (trimmed = "") then (setBlank record, maxAssigned)
  else
    match decodeEnvelope trimmed with
    | None => (setMalformed record, maxAssigned)
    | Some env =>
        if bool_decide (en_Type env = "" ∧ TrimSpace (en_Payload env) = "" ∧ TrimSpace (en_Metadata env) = "")
        then (setMalformed record, maxAssigned)
        else if negb (recognizedCodexEnvelopeType (en_Type env)) then (setEnvelope env None record, maxAssigned)
        else
          let ms := parseTimestampMillis (en_Timestamp env) in
          let record := setEnvelope env (if decide (ms > 0) then Some ms else None) record in
          match codexExplicitRecordOrdinal (en_Payload env) with
          | Some explicit =>
              if decide (explicit < 0) then (setMalformed record, maxAssigned)
              else if decide (explicit ≤ maxAssigned) then (setRegressed record, maxAssigned)
              else (setOrdinal explicit record, explicit)
          | None => let o := i64 (maxAssigned + 1) in (setOrdinal o record, o)
          end
    end.

(** The first line of the remaining bytes, with its newline, and whether the
    newline is missing. *)
Definition firstLine (rest : string) : string * bool :=
  match IndexByte rest newlineByte with
  | Some relative => (str_take (S relative) rest, false)
  | None => (rest, true)
  end.

(** The loop of [parseCodexHistoryRecords]: [rest] is [data[offset:]].  Every
    round consumes a byte, so the length of the data is fuel enough. *)
Fixpoint parseLines (fuel : nat) (rest : string) (offset line traversalPosition maxAssigned : Z) :
    list codexHistoryRecord :=
  match fuel with
  | O => []
  | S fuel =>
      if decide (rest = "") then []
      else
        let '(recordLine, partial) := firstLine rest in
        let stop := offset + Z.of_nat (String.length recordLine) in
        let trimmed := TrimSpace recordLine in
        let record := lineRecord recordLine traversalPosition line offset stop partial in
        let '(record, maxAssigned) := interpretLine record trimmed maxAssigned in
        record :: parseLines fuel (str_drop (String.length recordLine) rest) stop (line + 1)
                    (traversalPosition + Z.of_nat (size (codexTraversalPointers trimmed))) maxAssigned
  end.

Definition parseCodexHistoryRecords (data : string) : list codexHistoryRecord :=
  parseLines (String.length data) data 0 0 0 (-1).

(** ** Segments *)

(** The two [case] lists over coordinate kinds. *)
Definition ordinalKind (k : string) : bool :=
  bool_decide (k ∈ [CoordinateKindCodexOrdinalRange; CoordinateKindCodexReferenceRange;
                    CoordinateKindOpenCodeSequenceRange]).
Definition unboundedKind (k : string) : bool :=
  bool_decide (k ∈ [CoordinateKindSnapshotOnly; CoordinateKindUnknown]).

Definition effectiveInclusion (s : codexDecodedSegment) : string :=
  if sg_readFailed s then SegmentInclusionInvalidIncomplete
  else if SegmentInclusion_IsValid (rf_Inclusion (sg_descriptor s)) then rf_Inclusion (sg_descriptor s)
  else if sg_isCurrent s then SegmentInclusionSameThreadSurvivingOwn
  else SegmentInclusionUncertainEarlierHistory.

(** One round of the two checkpoint folds, on a record with an ordinal. *)
Definition foldCheckpoint (c : codexDecodedCheckpoint) (record : codexHistoryRecord) : codexDecodedCheckpoint :=
  if negb (cp_hasValid c) || bool_decide (cr_Ordinal record > cp_maxOrdinal c)
  then mkCheckpoint (cp_validRecords c + 1) (cr_Ordinal record) true
  else mkCheckpoint (cp_validRecords c + 1) (cp_maxOrdinal c) (cp_hasValid c).

Definition ordinalRecords (records : list codexHistoryRecord) : list codexHistoryRecord :=
  filter (λ r, cr_HasOrdinal r = true) records.

Definition emptyCheckpoint : codexDecodedCheckpoint := mkCheckpoint 0 (-1) false.

Definition decodedCheckpoint (s : codexDecodedSegment) : codexDecodedCheckpoint :=
  foldl foldCheckpoint emptyCheckpoint (ordinalRecords (sg_records s)).

Definition maxOrdinalPtr (c : codexDecodedCheckpoint) : option Z :=
  if cp_hasValid c then Some (cp_maxOrdinal c) else None.

(** [p != nil && x < *p], and so on. *)
Definition isBelow (x : Z) (p : option Z) : bool := match p with Some b => bool_decide (x < b) | None => false end.
Definition atOrPast (x : Z) (p : option Z) : bool := match p with Some b => bool_decide (b ≤ x) | None => false end.

Definition codexRecordInBounds (s : codexDecodedSegment) (record : codexHistoryRecord) (clampEnd : option Z) : bool :=
  let coords := rf_Coordinates (sg_descriptor s) in
  if ordinalKind (Kind coords) then
    negb (isBelow (cr_Ordinal record) (Start coords))
    && negb (atOrPast (cr_Ordinal record) (EndExclusive coords))
    && negb (atOrPast (cr_Ordinal record) clampEnd)
  else true.

Definition boundedCheckpoint (s : codexDecodedSegment) : codexDecodedCheckpoint :=
  foldl foldCheckpoint emptyCheckpoint
    (filter (λ r, codexRecordInBounds s r None = true) (ordinalRecords (sg_records s))).

(** [data[first:last]]. *)
Definition byteSlice (data : string) (first last : Z) : string :=
  str_take (Z.to_nat (last - first)) (str_drop (Z.to_nat first) data).

Definition partialTail (s : codexDecodedSegment) : string :=
  match List.find cr_Partial (sg_records s) with
  | Some record => byteSlice (sg_data s) (cr_ByteStart record) (cr_ByteEndExclusive record)
  | None => ""
  end.

(** The first start and the last end of some records, [(-1, -1)] of none; a round
    keeps the first start once it is not negative. *)
Definition widenSpan (span : Z * Z) (record : codexHistoryRecord) : Z * Z :=
  (if decide (span.1 < 0) then cr_ByteStart record else span.1, cr_ByteEndExclusive record).
Definition byteSpan (records : list codexHistoryRecord) : Z * Z := foldl widenSpan (-1, -1) records.

Definition boundedData (s : codexDecodedSegment) : string :=
  let coords := rf_Coordinates (sg_descriptor s) in
  match Start coords, EndExclusive coords with
  | None, None => sg_data s
  | _, _ =>
      let start := default 0 (Start coords) in
      let stop := Z.of_nat (String.length (sg_data s)) in
      let '(first, last) := byteSpan (filter (λ r,
        ¬ cr_Ordinal r < start ∧ atOrPast (cr_Ordinal r) (EndExclusive coords) = false)
        (ordinalRecords (sg_records s))) in
      if decide (first < 0) then ""
      else byteSlice (sg_data s) first (if decide (last > stop) then stop else last)
  end.

(** ** Proof obligations of a reference *)

Definition codexReferenceBoundsValid (ref : CodexReference) : bool :=
  let coords := rf_Coordinates ref in
  let range (start stop : option Z) : bool :=
    match start, stop with
    | Some start, Some stop => negb (bool_decide (start < 0 ∨ stop ≤ start))
    | _, _ => false
    end in
  (negb (ordinalKind (Kind coords)) || range (Start coords) (EndExclusive coords))
  && bool_decide (is_Some (DecodedByteStart coords) ↔ is_Some (DecodedByteEndExclusive coords))
  && (bool_decide (DecodedByteStart coords = None)
      || range (DecodedByteStart coords) (DecodedByteEndExclusive coords)).

Definition codexIsValidRecordEdge (s : codexDecodedSegment) (offset : Z) (wantStart : bool) : bool :=
  existsb (λ r, if wantStart then bool_decide (cr_ByteStart r = offset)
                else bool_decide (cr_ByteEndExclusive r = offset)) (ordinalRecords (sg_records s)).

Definition codexByteBoundariesAlign (s : codexDecodedSegment) (start stop : Z) : bool :=
  (bool_decide (start = 0) || codexIsValidRecordEdge s start true) && codexIsValidRecordEdge s stop false.

Definition codexReferenceLocation (threadID : string) (index : Z) : string :=
  "thread " +:+ threadID +:+ " reference " +:+ pretty index.

(** [codexProveReference]: the diagnostic of the failed proof, [None] when proved. *)
Definition codexProveReference (s : codexDecodedSegment) (currentMode : CodexHistoryMode) (threadID : string)
    (index : Z) : option DiagnosticEntry :=
  let refuse (errorType : string) := Some (mkDiagnostic errorType (codexReferenceLocation threadID index)) in
  let d := sg_descriptor s in
  let coords := rf_Coordinates d in
  if bool_decide (rf_HistoryKind d = "through") && negb (rf_ThroughCompleted d)
  then refuse "codex_reference_coverage_incomplete"
  else if bool_decide (currentMode = CodexHistoryModePaginated ∧
      rf_Mode d ≠ CodexHistoryMode_String CodexHistoryModePaginated)
  then refuse "codex_reference_mode_unsupported"
  else
    let covered : bool :=
      if ordinalKind (Kind coords) then
        let checkpoint := decodedCheckpoint s in
        match Start coords, EndExclusive coords with
        | Some start, Some stop =>
            negb (negb (cp_hasValid checkpoint)
                  || bool_decide (stop > i64 (cp_maxOrdinal checkpoint + 1))
                  || bool_decide (start > cp_maxOrdinal checkpoint))
        | _, _ => false
        end
      else true in
    if negb covered then refuse "codex_reference_coverage_incomplete"
    else
      match DecodedByteStart coords, DecodedByteEndExclusive coords with
      | Some start, Some stop =>
          if bool_decide (stop > Z.of_nat (String.length (sg_data s)))
          then refuse "codex_reference_byte_boundary_invalid"
          else if negb (codexByteBoundariesAlign s start stop)
          then refuse "codex_reference_byte_boundary_invalid"
          else None
      | _, _ => None
      end.

Definition codexRangeCoordinates (records : list codexHistoryRecord) (declared : SegmentCoordinates) :
    SegmentCoordinates :=
  if unboundedKind (Kind declared) then declared
  else if ordinalKind (Kind declared) && bool_decide (is_Some (Start declared) ∧ is_Some (EndExclusive declared))
  then declared
  else
    let checkpoint := foldl foldCheckpoint emptyCheckpoint (ordinalRecords records) in
    let stop := if cp_hasValid checkpoint then i64 (cp_maxOrdinal checkpoint + 1) else 0 in
    mkCoordinates CoordinateKindCodexOrdinalRange (Some 0) (Some stop) None None.

(** ** Ownership and membership *)

Definition codexSegmentOwnership (s : codexDecodedSegment) (ordinal : Z) : CodexOwnership :=
  let d := sg_descriptor s in
  if sg_isCurrent s then
    if isBelow ordinal (rf_CopyBoundary d) then
      if rf_OriginalOwnershipProven d then CodexOwnershipInherited else CodexOwnershipUncertainEarlier
    else CodexOwnershipOwn
  else if decide (rf_Inclusion d = SegmentInclusionInherited) then CodexOwnershipInherited
  else if decide (rf_Inclusion d = SegmentInclusionSameThreadSurvivingOwn) then CodexOwnershipOwn
  else if decide (rf_Inclusion d = SegmentInclusionUncertainEarlierHistory) then CodexOwnershipUncertainEarlier
  else if decide (rf_Inclusion d = SegmentInclusionExcludedReverted) then CodexOwnershipReverted
  else if decide (rf_Inclusion d = SegmentInclusionInvalidIncomplete) then CodexOwnershipReverted
  else CodexOwnershipUncertainEarlier.

Definition codexUnknownInBounds (s : codexDecodedSegment) (record : codexHistoryRecord) : bool :=
  let coords := rf_Coordinates (sg_descriptor s) in
  if sg_isCurrent s then true
  else if bool_decide (Start coords = None ∧ EndExclusive coords = None) then true
  else
    let '(first, last) :=
      byteSpan (filter (λ r, codexRecordInBounds s r None = true) (ordinalRecords (sg_records s))) in
    bool_decide (0 ≤ first ∧ first ≤ cr_ByteStart record ∧ cr_ByteEndExclusive record ≤ last).

Definition codexUnknownOwnership (s : codexDecodedSegment) (record : codexHistoryRecord) : CodexOwnership :=
  let d := sg_descriptor s in
  let earlier :=
    if rf_OriginalOwnershipProven d then CodexOwnershipInherited else CodexOwnershipUncertainEarlier in
  match rf_CopyBoundary d with
  | None => codexSegmentOwnership s 0
  | Some boundary =>
      match List.find (λ r, cr_HasOrdinal r && bool_decide (boundary ≤ cr_Ordinal r)) (sg_records s) with
      | Some known =>
          if decide (cr_ByteStart record < cr_ByteStart known) then earlier
          else codexSegmentOwnership s (cr_Ordinal known)
      | None => earlier
      end
  end.

(** ** History modes *)

Definition resolveCodexHistoryMode (raw : string) : CodexHistoryMode :=
  let trimmed := TrimSpace raw in
  if decide (trimmed = "") then CodexHistoryModeLegacy
  else if decide (trimmed = "null") then CodexHistoryModeUnsupported
  else
    match decodeString raw with
    | None => CodexHistoryModeUnsupported
    | Some value =>
        if decide (value = CodexHistoryMode_String CodexHistoryModeLegacy) then CodexHistoryModeLegacy
        else if decide (value = CodexHistoryMode_String CodexHistoryModePaginated) then CodexHistoryModePaginated
        else CodexHistoryModeUnsupported
    end.

(** ** The capture fingerprint *)

(** [binary.BigEndian.PutUint64] of a length. *)
Definition PutUint64 (n : N) : string :=
  String.string_of_list_ascii ((λ k : N, ascii_of_N (N.shiftr n (8 * k) mod 256)) <$> [7; 6; 5; 4; 3; 2; 1; 0]%N).

(** [writeLengthPrefixed] and [writeHashedLengthPrefixed]. *)
Definition lengthPrefixed (value : string) : string :=
  PutUint64 (N.of_nat (String.length value)) +:+ value.

Definition writeAll (fields : list string) : string := String.concat "" (lengthPrefixed <$> fields).

Definition codexOptionalInt64 (value : option Z) : string :=
  match value with None => "<nil>" | Some v => pretty v end.

(** [%t]. *)
Definition showBool (b : bool) : string := if b then "true" else "false".

Definition HarnessCodex := "codex".

Definition referenceFields (ref : CodexReference) : list string :=
  [rf_Pointer ref; rf_PhysicalSourceID ref; rf_Mode ref; rf_HistoryKind ref; showBool (rf_ThroughCompleted ref);
   rf_Inclusion ref; Kind (rf_Coordinates ref); codexOptionalInt64 (Start (rf_Coordinates ref));
   codexOptionalInt64 (EndExclusive (rf_Coordinates ref));
   codexOptionalInt64 (DecodedByteStart (rf_Coordinates ref));
   codexOptionalInt64 (DecodedByteEndExclusive (rf_Coordinates ref));
   codexOptionalInt64 (rf_CopyBoundary ref); showBool (rf_OriginalOwnershipProven ref)].

Definition authorityFields (a : CodexSourceAuthority) : list string :=
  [HarnessCodex; au_StableThreadID a; au_Kind a; au_CurrentPointer a; au_PhysicalSourceID a;
   TrimSpace (au_HistoryMode a); au_RootID a; au_ParentID a; au_ForkSourceID a; au_HistoryBaseThreadID a;
   codexOptionalInt64 (au_CopyBoundary a); showBool (au_OriginalOwnershipProven a)]
  ++ (au_References a ≫= referenceFields).

Definition codexAuthoritySignature (a : CodexSourceAuthority) : string := writeAll (authorityFields a).

Definition segmentFields (s : codexDecodedSegment) : list string :=
  let coords := rf_Coordinates (sg_descriptor s) in
  let checkpoint := boundedCheckpoint s in
  let bounded := boundedData s in
  let tail := partialTail s in
  [rf_PhysicalSourceID (sg_descriptor s); rf_Mode (sg_descriptor s); Kind coords;
   codexOptionalInt64 (Start coords); codexOptionalInt64 (EndExclusive coords);
   pretty (cp_validRecords checkpoint); codexOptionalInt64 (maxOrdinalPtr checkpoint);
   pretty (Z.of_nat (String.length bounded)); Sum256_Hex bounded;
   pretty (Z.of_nat (String.length tail)); Sum256_Hex tail].

Definition codexFingerprint (a : CodexSourceAuthority) (completeness : string)
    (segments : list codexDecodedSegment) : string :=
  Sum256_Hex (writeAll (codexAuthoritySignature a :: completeness :: (segments ≫= segmentFields))).
End records.

(** ** Lines and slices *)

Lemma str_drop_app (a b : string) : str_drop (String.length a) (a +:+ b) = b.
Proof. induction a as [|x a IH]; [done|]. by rewrite str_app_cons. Qed.

Lemma str_drop_full (a : string) : str_drop (String.length a) a = "".
Proof. induction a as [|x a IH]; [done|]. exact IH. Qed.

Lemma str_take_full (a : string) : str_take (String.length a) a = a.
Proof. induction a as [|x a IH]; [done|]. simpl. by rewrite IH. Qed.

Lemma str_take_exact (a b : string) : str_take (String.length a) (a +:+ b) = a.
Proof. induction a as [|x a IH]; [by destruct b|]. rewrite str_app_cons. simpl. by rewrite IH. Qed.

Lemma slice_mid (a b c : string) (i j : Z) :
  i = Z.of_nat (String.length a) → j = i + Z.of_nat (String.length b) → byteSlice (a +:+ (b +:+ c)) i j = b.
Proof.
  intros -> ->. unfold byteSlice. rewrite Nat2Z.id, str_drop_app.
  replace (Z.to_nat _) with (String.length b) by lia. apply str_take_exact.
Qed.

Definition endLine (l : string) : string := l +:+ str1 newlineByte.

Lemma endLine_length l : String.length (endLine l) = S (String.length l).
Proof. unfold endLine. rewrite str_length_app. simpl. lia. Qed.

Lemma endLine_not_nil l r : endLine l +:+ r ≠ "".
Proof. unfold endLine. by destruct l. Qed.

Lemma IndexByte_free l c : byte_free c l → IndexByte l c = None.
Proof. induction l as [|a l IH]; simpl; [done|]. intros [? ?]. rewrite decide_False by done. by rewrite IH. Qed.

Lemma IndexByte_mid l c r : byte_free c l → IndexByte (l +:+ String c r) c = Some (String.length l).
Proof.
  induction l as [|a l IH]; simpl; intros Hf; [by rewrite decide_True|].
  destruct Hf as [? Hf]. rewrite decide_False by done. by rewrite IH.
Qed.

Lemma firstLine_tail l : byte_free newlineByte l → firstLine l = (l, true).
Proof. intros. unfold firstLine. by rewrite IndexByte_free. Qed.

Lemma firstLine_line l r : byte_free newlineByte l → firstLine (endLine l +:+ r) = (endLine l, false).
Proof.
  intros Hl. unfold firstLine, endLine. rewrite str_app_assoc. change (str1 newlineByte +:+ r) with (String newlineByte r).
  rewrite IndexByte_mid by done. f_equal.
  replace (S (String.length l)) with (String.length (endLine l)) by apply endLine_length.
  change (String newlineByte r) with (str1 newlineByte +:+ r). rewrite <- str_app_assoc. apply str_take_exact.
Qed.

(** A text is a run of complete lines and a tail. *)
Lemma lines_ind (P : string → Prop) :
  P "" → (∀ l, l ≠ "" → byte_free newlineByte l → P l) →
  (∀ l r, byte_free newlineByte l → P r → P (endLine l +:+ r)) → ∀ s, P s.
Proof.
  intros Hnil Htail Hline.
  assert (∀ s, ∃ l r, byte_free newlineByte l ∧ (s = l ∨ s = endLine l +:+ r ∧ (String.length r < String.length s)%nat))
    as Hsplit.
  { induction s as [|a s (l & r & Hl & Hs)]; [by exists "", ""; split; [|left]|].
    destruct (decide (a = newlineByte)) as [->|Ha].
    - exists "", s. split; [done|]. right. split; [done|simpl; lia].
    - exists (String a l), r. split; [done|]. destruct Hs as [->|[-> ?]]; [by left|right].
      split; [done|]. simpl in *. lia. }
  intros s. remember (String.length s) as n eqn:Hn. revert s Hn.
  induction (Nat.lt_wf_0 n) as [n _ IH]. intros s ->.
  destruct (Hsplit s) as (l & r & Hl & [->|[-> Hlt]]).
  - destruct (decide (l = "")) as [->|]; auto.
  - apply Hline; [done|]. by eapply IH.
Qed.

Section record_lemmas.
Context `{J : CodexJson}.

(** *** The parser's state and its two equations *)

Definition parseFrom (rest : string) (offset line trav mx : Z) : list codexHistoryRecord :=
  parseLines (String.length rest) rest offset line trav mx.

Lemma firstLine_split rest : rest ≠ "" →
  ∃ l p, firstLine rest = (l, p) ∧ l ≠ "" ∧ rest = l +:+ str_drop (String.length l) rest.
Proof.
  induction rest as [|l Hl Hf|l r Hf IH] using lines_ind; intros Hr; [done| |].
  - exists l, true. rewrite firstLine_tail by done. split_and!; [done|done|].
    by rewrite str_drop_full, str_app_nil.
  - exists (endLine l), false. rewrite firstLine_line by done.
    split_and!; [done|by rewrite <- (str_app_nil (endLine l)); apply endLine_not_nil|].
    by rewrite str_drop_app.
Qed.

Lemma parseLines_fuel f f' rest offset line trav mx :
  (String.length rest ≤ f)%nat → (String.length rest ≤ f')%nat →
  parseLines f rest offset line trav mx = parseLines f' rest offset line trav mx.
Proof.
  revert f' rest offset line trav mx. induction f as [|f IH]; intros f' rest offset line trav mx Hf Hf'.
  { destruct rest; simpl in *; [|lia]. by destruct f'. }
  destruct f' as [|f']; [destruct rest; simpl in *; [done|lia]|].
  cbn [parseLines]. case_decide as Hr; [done|].
  destruct (firstLine_split _ Hr) as (l & p & El & Hl & Hs). rewrite El.
  destruct (interpretLine _ _ _) as [r mx']. f_equal.
  assert (String.length (str_drop (String.length l) rest) < String.length rest)%nat.
  { rewrite Hs at 2. rewrite str_length_app. destruct l; simpl; [done|lia]. }
  apply IH; lia.
Qed.

(** One step of the parser on a line: the record, and what the next line starts from. *)
Definition lineStep (l : string) (partial : bool) (offset line trav mx : Z) : codexHistoryRecord * Z :=
  interpretLine (lineRecord l trav line offset (offset + Z.of_nat (String.length l)) partial) (TrimSpace l) mx.
Definition nextTrav (l : string) (trav : Z) : Z :=
  trav + Z.of_nat (size (codexTraversalPointers (TrimSpace l))).

Lemma parseFrom_nil offset line trav mx : parseFrom "" offset line trav mx = [].
Proof. done. Qed.

Lemma parseFrom_cut l p rest offset line trav mx :
  rest ≠ "" → firstLine rest = (l, p) →
  parseFrom rest offset line trav mx =
    (lineStep l p offset line trav mx).1 ::
      parseFrom (str_drop (String.length l) rest) (offset + Z.of_nat (String.length l)) (line + 1)
        (nextTrav l trav) (lineStep l p offset line trav mx).2.
Proof.
  intros Hr El. unfold parseFrom. destruct (String.length rest) as [|n] eqn:En; [by destruct rest|].
  cbn [parseLines]. rewrite decide_False by done. rewrite El. fold (lineStep l p offset line trav mx).
  destruct (lineStep l p offset line trav mx) as [r mx'] eqn:Es. simpl. f_equal.
  destruct (firstLine_split _ Hr) as (l' & p' & El' & Hl & Hs). rewrite El in El'. simplify_eq.
  assert (String.length (str_drop (String.length l') rest) < S n)%nat.
  { rewrite <- En. rewrite Hs at 2. rewrite str_length_app. destruct l'; simpl; [done|lia]. }
  apply parseLines_fuel; lia.
Qed.

Lemma parseFrom_tail l offset line trav mx : l ≠ "" → byte_free newlineByte l →
  parseFrom l offset line trav mx = [(lineStep l true offset line trav mx).1].
Proof.
  intros Hl Hf. rewrite (parseFrom_cut l true) by (done || by apply firstLine_tail).
  by rewrite str_drop_full.
Qed.

Lemma parseFrom_line l rest offset line trav mx : byte_free newlineByte l →
  parseFrom (endLine l +:+ rest) offset line trav mx =
    (lineStep (endLine l) false offset line trav mx).1 ::
      parseFrom rest (offset + Z.of_nat (String.length (endLine l))) (line + 1)
        (nextTrav (endLine l) trav) (lineStep (endLine l) false offset line trav mx).2.
Proof.
  intros Hf. rewrite (parseFrom_cut (endLine l) false) by (apply endLine_not_nil || by apply firstLine_line).
  by rewrite str_drop_app.
Qed.
(** *** What a line becomes *)

(** The physical position of a record is that of its line. *)
Record line_of (l : string) (partial : bool) (offset line : Z) (r : codexHistoryRecord) : Prop := {
  lo_raw : cr_RawJSON r = TrimSuffix l (str1 newlineByte);
  lo_line : cr_LineIndex r = line;
  lo_start : cr_ByteStart r = offset;
  lo_stop : cr_ByteEndExclusive r = offset + Z.of_nat (String.length l);
  lo_partial : cr_Partial r = partial;
}.

(** A record with an ordinal is a complete, decoded record of a recognized type. *)
Record proper (r : codexHistoryRecord) : Prop := {
  pr_complete : cr_Partial r = false;
  pr_decoded : cr_Malformed r = false;
  pr_advances : cr_Regressed r = false;
  pr_filled : cr_Blank r = false;
  pr_type : recognizedCodexEnvelopeType (cr_EnvelopeType r) = true;
}.

(** The ordinal a line takes from the checkpoint [mx], and the checkpoint it leaves. *)
Definition assigns (mx : Z) (r : codexHistoryRecord) (mx' : Z) : Prop :=
  (cr_HasOrdinal r = false ∧ mx' = mx) ∨
  (cr_HasOrdinal r = true ∧ proper r ∧ cr_Ordinal r = mx' ∧
    ((codexExplicitRecordOrdinal (cr_Payload r) = Some mx' ∧ mx < mx' ∧ 0 ≤ mx') ∨
     (codexExplicitRecordOrdinal (cr_Payload r) = None ∧ mx' = i64 (mx + 1)))).

Lemma lineStep_spec l partial offset line trav mx :
  line_of l partial offset line (lineStep l partial offset line trav mx).1 ∧
  assigns mx (lineStep l partial offset line trav mx).1 (lineStep l partial offset line trav mx).2.
Proof.
  unfold lineStep, interpretLine, lineRecord. simpl. destruct partial; simpl; [by split; [|left]|].
  case_decide; simpl; [by split; [|left]|].
  destruct (decodeEnvelope (TrimSpace l)) as [env|]; simpl; [|by split; [|left]].
  case_bool_decide; simpl; [by split; [|left]|].
  destruct (recognizedCodexEnvelopeType (en_Type env)) eqn:Et; simpl; [|by split; [|left]].
  destruct (codexExplicitRecordOrdinal (en_Payload env)) as [e|] eqn:Ee.
  - case_decide; [by split; [|left]|]. case_decide; [by split; [|left]|]. split; [done|].
    right. split_and!; [done|done|done|]. left. simpl. split_and!; [done|lia|lia].
  - split; [done|]. right. split_and!; [done|done|done|]. by right.
Qed.

(** *** The records tile the bytes *)

Inductive tiles : Z → Z → string → list codexHistoryRecord → Prop :=
  | tiles_nil offset line : tiles offset line "" []
  | tiles_tail offset line l r :
      l ≠ "" → byte_free newlineByte l → line_of l true offset line r → tiles offset line l [r]
  | tiles_line offset line l rest r rs :
      byte_free newlineByte l → line_of (endLine l) false offset line r →
      tiles (offset + Z.of_nat (String.length (endLine l))) (line + 1) rest rs →
      tiles offset line (endLine l +:+ rest) (r :: rs).

Lemma parseFrom_tiles rest offset line trav mx : tiles offset line rest (parseFrom rest offset line trav mx).
Proof.
  revert offset line trav mx.
  induction rest as [|l Hl Hf|l r Hf IH] using lines_ind; intros offset line trav mx.
  - constructor.
  - rewrite parseFrom_tail by done. constructor; [done|done|]. apply lineStep_spec.
  - rewrite parseFrom_line by done. constructor; [done|apply lineStep_spec|apply IH].
Qed.

Definition recordSlice (data : string) (r : codexHistoryRecord) : string :=
  byteSlice data (cr_ByteStart r) (cr_ByteEndExclusive r).

Lemma tiles_concat offset line rest rs pre :
  tiles offset line rest rs → offset = Z.of_nat (String.length pre) →
  String.concat "" (recordSlice (pre +:+ rest) <$> rs) = rest.
Proof.
  intros Ht. revert pre.
  induction Ht as [offset line|offset line l r Hl Hf Hr|offset line l rest r rs Hf Hr _ IH]; intros pre ->.
  - done.
  - simpl. unfold recordSlice. rewrite (lo_start _ _ _ _ _ Hr), (lo_stop _ _ _ _ _ Hr).
    rewrite <- (str_app_nil l) at 1. by apply slice_mid.
  - assert (recordSlice (pre +:+ (endLine l +:+ rest)) r = endLine l) as Hone.
    { unfold recordSlice. rewrite (lo_start _ _ _ _ _ Hr), (lo_stop _ _ _ _ _ Hr). by apply slice_mid. }
    specialize (IH (pre +:+ endLine l)). rewrite str_app_assoc, str_length_app in IH.
    specialize (IH ltac:(lia)). rewrite fmap_cons, Hone.
    destruct rs as [|r' rs]; simpl in *; [by rewrite <- IH, str_app_nil|]. by rewrite IH.
Qed.

Lemma tiles_lookup offset line rest rs i r :
  tiles offset line rest rs → rs !! i = Some r →
  cr_LineIndex r = line + Z.of_nat i ∧ offset ≤ cr_ByteStart r < cr_ByteEndExclusive r ∧
  cr_ByteEndExclusive r ≤ offset + Z.of_nat (String.length rest) ∧
  match rs !! S i with
  | Some r' => cr_Partial r = false ∧ cr_ByteStart r' = cr_ByteEndExclusive r
  | None => cr_ByteEndExclusive r = offset + Z.of_nat (String.length rest)
  end.
Proof.
  intros Ht. revert i.
  induction Ht as [offset line|offset line l r' Hl Hf [_ Hli Hs He Hp]|offset line l rest r' rs Hf [_ Hli Hs He Hp] Ht IH];
    intros i Hi.
  - done.
  - destruct i; simplify_eq/=. destruct l; [done|]. simpl in *. lia.
  - rewrite str_length_app, endLine_length in *. destruct i as [|i]; simplify_eq/=.
    + clear IH. inversion Ht as [|? ? ? ? ? ? Hr1|? ? ? ? ? ? ? Hr1]; subst; simpl; [lia| |];
        destruct Hr1 as [_ _ Hs1 _ _]; rewrite Hs1, He, ?str_length_app; split_and!; (done || lia).
    + destruct (IH i Hi) as (? & ? & ? & Hn). split_and!; [lia|lia|lia|lia|]. simpl. destruct (rs !! S i); [done|lia].
Qed.

(** *** Ordinals along the lines *)

Inductive chain : Z → list codexHistoryRecord → Z → Prop :=
  | chain_nil mx : chain mx [] mx
  | chain_cons mx r mx1 rs mx' : assigns mx r mx1 → chain mx1 rs mx' → chain mx (r :: rs) mx'.

(** No [int64] ordinal of the file wraps around: an explicit one leaves room for
    the implicit ones that may follow it. *)
Record ordinals_fit (rs : list codexHistoryRecord) : Prop := {
  of_count : Z.of_nat (length rs) < 2 ^ 63;
  of_explicit : ∀ r o, r ∈ rs → codexExplicitRecordOrdinal (cr_Payload r) = Some o →
    o + Z.of_nat (length rs) < 2 ^ 63;
}.

Definition ordinals (rs : list codexHistoryRecord) : list Z := cr_Ordinal <$> ordinalRecords rs.

Lemma ordinalRecords_cons r rs :
  ordinalRecords (r :: rs) = if cr_HasOrdinal r then r :: ordinalRecords rs else ordinalRecords rs.
Proof. unfold ordinalRecords. rewrite filter_cons. by destruct (cr_HasOrdinal r). Qed.

Lemma ordinalRecords_app rs rs' : ordinalRecords (rs ++ rs') = ordinalRecords rs ++ ordinalRecords rs'.
Proof. apply filter_app. Qed.

Lemma assigns_range n mx r mx1 :
  assigns mx r mx1 → -1 ≤ mx → mx + Z.of_nat (S n) < 2 ^ 63 - 1 →
  (∀ o, codexExplicitRecordOrdinal (cr_Payload r) = Some o → o + Z.of_nat (S n) < 2 ^ 63) →
  mx ≤ mx1 ∧ mx1 + Z.of_nat n < 2 ^ 63 - 1 ∧ (cr_HasOrdinal r = true → cr_Ordinal r = mx1 ∧ mx < mx1).
Proof.
  intros Ha Hmx Hn He. destruct Ha as [[Hh ->]|(Hh & _ & Ho & Hm)].
  { rewrite Hh. split_and!; [lia|lia|done]. }
  destruct Hm as [(Hx & ? & ?)|[_ Hm]].
  - specialize (He _ Hx). split_and!; [lia|lia|done].
  - rewrite i64_small in Hm by lia. split_and!; [lia|lia|]. intros _. split; [done|lia].
Qed.

Lemma chain_ascending mx rs mx' n :
  chain mx rs mx' → -1 ≤ mx → (length rs ≤ n)%nat → mx + Z.of_nat n < 2 ^ 63 - 1 →
  (∀ r o, r ∈ rs → codexExplicitRecordOrdinal (cr_Payload r) = Some o → o + Z.of_nat n < 2 ^ 63) →
  StronglySorted Z.lt (ordinals rs) ∧ (∀ o, o ∈ ordinals rs → mx < o ≤ mx') ∧ mx ≤ mx' ∧
  mx' + Z.of_nat (n - length rs) < 2 ^ 63 - 1.
Proof.
  intros Hc. revert n. unfold ordinals.
  induction Hc as [mx|mx r mx1 rs mx' Ha Hc IH]; intros n Hmx Hn Hb He.
  { simpl. split_and!; [constructor|by intros o ?%not_elem_of_nil|lia|]. rewrite Nat.sub_0_r. lia. }
  simpl in Hn. destruct n as [|n]; [lia|].
  destruct (assigns_range n _ _ _ Ha Hmx Hb) as (? & Hb1 & Ho); [intros o; apply He; by left|].
  destruct (IH n) as (IHs & IHo & ? & ?); [lia|lia|lia| |].
  { intros r' o Hr' Hx. assert (o + Z.of_nat (S n) < 2 ^ 63) by (apply (He r'); [by right|done]). lia. }
  rewrite ordinalRecords_cons. destruct (cr_HasOrdinal r).
  - destruct (Ho eq_refl) as [Hr1 ?]. rewrite fmap_cons, Hr1. split_and!; [| |lia|simpl; lia].
    + constructor; [done|]. apply Forall_forall. intros o Hx. specialize (IHo o Hx). lia.
    + intros o [->|Hx]%elem_of_cons; [lia|]. specialize (IHo o Hx). lia.
  - split_and!; [done| |lia|simpl; lia]. intros o Hx. specialize (IHo o Hx). lia.
Qed.

Lemma parseFrom_chain rest offset line trav mx : ∃ mx', chain mx (parseFrom rest offset line trav mx) mx'.
Proof.
  revert offset line trav mx.
  induction rest as [|l Hl Hf|l r Hf IH] using lines_ind; intros offset line trav mx.
  - exists mx. constructor.
  - rewrite parseFrom_tail by done. eexists. econstructor; [apply lineStep_spec|constructor].
  - rewrite parseFrom_line by done. destruct (IH (offset + Z.of_nat (String.length (endLine l))) (line + 1)
      (nextTrav (endLine l) trav) (lineStep (endLine l) false offset line trav mx).2) as [mx' Hc].
    exists mx'. econstructor; [apply lineStep_spec|exact Hc].
Qed.

(** The bytes end with a complete line. *)
Definition whole (data : string) : Prop := data = "" ∨ ∃ d, data = endLine d.

Lemma endLine_app l r : endLine (l +:+ r) = l +:+ endLine r.
Proof. unfold endLine. apply str_app_assoc. Qed.

Lemma whole_tail l : whole l → byte_free newlineByte l → l = "".
Proof. intros [->|[d ->]]; [done|]. unfold endLine. rewrite byte_free_app. by intros [_ [? _]]. Qed.

Lemma str_app_inj (a b b' : string) : a +:+ b = a +:+ b' → b = b'.
Proof. induction a as [|x a IH]; [done|]. rewrite !str_app_cons. intros [= ?]. auto. Qed.

Lemma endLine_inj_suffix l r d : endLine l +:+ r = endLine d → whole r.
Proof.
  unfold endLine. intros E. destruct (decide (r = "")) as [->|Hr]; [by left|right].
  revert d E. induction l as [|x l IH]; intros d E.
  - destruct d as [|y d]; [injection E as E; done|]. injection E as _ E. by exists d.
  - destruct d as [|y d]; [|injection E as _ E; by apply (IH d)].
    injection E as _ E. exfalso. by destruct l.
Qed.

Lemma parseFrom_app data offset line trav mx : whole data →
  ∃ line' trav' mx', chain mx (parseFrom data offset line trav mx) mx' ∧
    ∀ more, parseFrom (data +:+ more) offset line trav mx =
      parseFrom data offset line trav mx ++
      parseFrom more (offset + Z.of_nat (String.length data)) line' trav' mx'.
Proof.
  revert offset line trav mx.
  induction data as [|l Hl Hf|l r Hf IH] using lines_ind; intros offset line trav mx Hw.
  - exists line, trav, mx. split; [constructor|]. intros more. rewrite str_nil_app. simpl. f_equal. lia.
  - by destruct Hl; apply whole_tail.
  - assert (whole r) as Hr.
    { destruct Hw as [Hw|[d Hw]]; [by destruct (endLine_not_nil l r)|by eapply endLine_inj_suffix]. }
    destruct (IH (offset + Z.of_nat (String.length (endLine l))) (line + 1) (nextTrav (endLine l) trav)
      (lineStep (endLine l) false offset line trav mx).2 Hr) as (line' & trav' & mx' & Hc & Happ).
    exists line', trav', mx'. rewrite parseFrom_line by done. split; [econstructor; [apply lineStep_spec|done]|].
    intros more. rewrite str_app_assoc, parseFrom_line, Happ by done. simpl. f_equal. f_equal. f_equal.
    rewrite str_length_app. lia.
Qed.

Lemma whole_complete data offset line trav mx r :
  whole data → r ∈ parseFrom data offset line trav mx → cr_Partial r = false.
Proof.
  revert offset line trav mx.
  induction data as [|l Hl Hf|l rest Hf IH] using lines_ind; intros offset line trav mx Hw Hr.
  - by apply not_elem_of_nil in Hr.
  - by destruct Hl; apply whole_tail.
  - assert (whole rest) as Hrest.
    { destruct Hw as [Hw|[d Hw]]; [by destruct (endLine_not_nil l rest)|by eapply endLine_inj_suffix]. }
    rewrite parseFrom_line in Hr by done. apply elem_of_cons in Hr as [->|Hr]; [|by eapply IH].
    by destruct (lineStep_spec (endLine l) false offset line trav mx) as [[_ _ _ _ ?] _].
Qed.

(** *** Checkpoints *)

Lemma checkpoint_chain mx rs mx' c n :
  chain mx rs mx' → cp_maxOrdinal c = mx → -1 ≤ mx → (length rs ≤ n)%nat → mx + Z.of_nat n < 2 ^ 63 - 1 →
  (∀ r o, r ∈ rs → codexExplicitRecordOrdinal (cr_Payload r) = Some o → o + Z.of_nat n < 2 ^ 63) →
  cp_maxOrdinal (foldl foldCheckpoint c (ordinalRecords rs)) = mx' ∧
  cp_hasValid (foldl foldCheckpoint c (ordinalRecords rs)) =
    cp_hasValid c || bool_decide (ordinalRecords rs ≠ []) ∧
  cp_validRecords (foldl foldCheckpoint c (ordinalRecords rs)) =
    cp_validRecords c + Z.of_nat (length (ordinalRecords rs)).
Proof.
  intros Hc. revert c n.
  induction Hc as [mx|mx r mx1 rs mx' Ha Hc IH]; intros c n Hm Hmx Hn Hb He.
  { simpl. split_and!; [done|by rewrite orb_false_r|lia]. }
  simpl in Hn. destruct n as [|n]; [lia|].
  destruct (assigns_range n _ _ _ Ha Hmx Hb) as (? & Hb1 & Ho); [intros o; apply He; by left|].
  assert (∀ r' o, r' ∈ rs → codexExplicitRecordOrdinal (cr_Payload r') = Some o → o + Z.of_nat n < 2 ^ 63) as He'.
  { intros r' o Hr' Hx. assert (o + Z.of_nat (S n) < 2 ^ 63) by (apply (He r'); [by right|done]). lia. }
  rewrite ordinalRecords_cons. destruct (cr_HasOrdinal r) eqn:Eh.
  - destruct (Ho eq_refl) as [Hr1 ?]. cbn [foldl].
    destruct (IH (foldCheckpoint c r) n) as (E1 & E2 & E3); [|lia|lia|lia|done|].
    { unfold foldCheckpoint. rewrite Hm, Hr1. rewrite (bool_decide_true (mx1 > mx)) by lia. by rewrite orb_true_r. }
    rewrite E1, E2, E3. unfold foldCheckpoint at 1 2. rewrite Hm, Hr1, (bool_decide_true (mx1 > mx)) by lia.
    rewrite orb_true_r. simpl. split_and!; [done|by rewrite orb_true_r|lia].
  - assert (mx1 = mx) as -> by (destruct Ha as [[_ ->]|(Hx & _)]; [done|by rewrite Eh in Hx]).
    apply (IH c n); lia || done.
Qed.

Lemma ordinals_fit_app rs rs' : ordinals_fit (rs ++ rs') → ordinals_fit rs.
Proof.
  intros [Hn He]. rewrite length_app in *. split; [lia|]. intros r o Hr Ho.
  assert (o + Z.of_nat (length rs + length rs') < 2 ^ 63) by (apply (He r); [by apply elem_of_app; left|done]). lia.
Qed.

(** A checkpoint counts the ordinals and holds the highest one. *)
Lemma decodedCheckpoint_chain s mx' :
  chain (-1) (sg_records s) mx' → ordinals_fit (sg_records s) →
  decodedCheckpoint s =
    mkCheckpoint (Z.of_nat (length (ordinals (sg_records s)))) mx' (bool_decide (ordinalRecords (sg_records s) ≠ [])).
Proof.
  intros Hc [Hn He]. unfold decodedCheckpoint.
  destruct (checkpoint_chain _ _ _ emptyCheckpoint (length (sg_records s)) Hc) as (E1 & E2 & E3); [done|lia|lia|lia|done|].
  destruct (foldl _ _ _) as [v m h]. unfold ordinals. rewrite length_fmap. simpl in *. by subst.
Qed.
End record_lemmas.

(** ** The length-prefixed encoding *)

Lemma fmap_agree {A B} (f g : A → B) (l : list A) x : f <$> l = g <$> l → x ∈ l → f x = g x.
Proof. induction l as [|y l IH]; [by intros _ ?%not_elem_of_nil|]. intros [= ? ?] [->|?]%elem_of_cons; auto. Qed.

Lemma PutUint64_length n : String.length (PutUint64 n) = 8%nat.
Proof. done. Qed.

Lemma PutUint64_inj n m : (n < 2 ^ 64)%N → (m < 2 ^ 64)%N → PutUint64 n = PutUint64 m → n = m.
Proof.
  intros Hn Hm E. unfold PutUint64 in E. apply (f_equal String.list_ascii_of_string) in E.
  rewrite !String.list_ascii_of_string_of_list_ascii in E.
  assert (∀ k, (k < 8)%N → (N.shiftr n (8 * k) mod 256 = N.shiftr m (8 * k) mod 256)%N) as Hk.
  { intros k Hk. apply (fmap_agree _ _ _ k) in E.
    - apply (f_equal N_of_ascii) in E. by rewrite !N_ascii_embedding in E by (apply N.mod_lt; done).
    - assert (k = 0 ∨ k = 1 ∨ k = 2 ∨ k = 3 ∨ k = 4 ∨ k = 5 ∨ k = 6 ∨ k = 7)%N as Hc by (clear -Hk; lia).
      rewrite !elem_of_cons. tauto. }
  apply N.bits_inj. intros i.
  destruct (N.lt_ge_cases i 64) as [Hi|Hi].
  - specialize (Hk (i / 8)%N ltac:(apply N.Div0.div_lt_upper_bound; lia)).
    apply (f_equal (λ x, N.testbit x (i mod 8))) in Hk. change 256%N with (2 ^ 8)%N in Hk.
    rewrite !N.mod_pow2_bits_low in Hk by (apply N.mod_lt; done). rewrite !N.shiftr_spec' in Hk.
    replace (i mod 8 + 8 * (i / 8))%N with i in Hk; [done|]. pose proof (N.div_mod i 8 ltac:(done)). lia.
  - rewrite <- (N.mod_small n (2 ^ 64)), <- (N.mod_small m (2 ^ 64)) by done.
    by rewrite !N.mod_pow2_bits_high.
Qed.

(** A field shorter than the width of its prefix. *)
Definition encodable (value : string) : Prop := (N.of_nat (String.length value) < 2 ^ 64)%N.

Lemma str_app_split (a b x y : string) :
  String.length a = String.length b → a +:+ x = b +:+ y → a = b ∧ x = y.
Proof.
  revert b. induction a as [|c a IH]; intros [|d b] Hl E; [done|done|done|].
  rewrite !str_app_cons in E. injection E as -> E. injection Hl as Hl. destruct (IH b) as [-> ->]; auto.
Qed.

Lemma lengthPrefixed_split a b x y : encodable a → encodable b →
  lengthPrefixed a +:+ x = lengthPrefixed b +:+ y → a = b ∧ x = y.
Proof.
  intros Ha Hb E. unfold lengthPrefixed in E. rewrite !str_app_assoc in E.
  apply str_app_split in E as [E1 E2]; [|done]. apply PutUint64_inj in E1; [|done|done].
  apply str_app_split in E2 as [-> ->]; [done|lia].
Qed.

Lemma writeAll_cons f l : writeAll (f :: l) = lengthPrefixed f +:+ writeAll l.
Proof. unfold writeAll. destruct l as [|g l]; [by rewrite str_app_nil|done]. Qed.

Lemma writeAll_inj l l' : Forall encodable l → Forall encodable l' → writeAll l = writeAll l' → l = l'.
Proof.
  intros Hl. revert l'. induction Hl as [|f l Hf _ IH]; intros l' Hl' E; destruct Hl' as [|g l' Hg Hl'].
  - done.
  - by rewrite writeAll_cons in E.
  - by rewrite writeAll_cons in E.
  - rewrite !writeAll_cons in E. apply lengthPrefixed_split in E as [-> E]; [|done|done]. f_equal. auto.
Qed.

Lemma pretty_N_go_free x s : byte_free "<"%char s → byte_free "<"%char (pretty_N_go x s).
Proof.
  revert s. induction (N.lt_wf_0 x) as [x _ IH]. intros s Hs. destruct (decide (x = 0)%N) as [->|Hx].
  - by rewrite pretty_N_go_0.
  - rewrite pretty_N_go_step by lia. apply IH; [apply N.div_lt; lia|]. split; [|done].
    unfold pretty_N_char. repeat case_match; done.
Qed.

Lemma pretty_N_free (n : N) : byte_free "<"%char (pretty n).
Proof. unfold pretty, pretty_N. destruct (decide (n = 0%N)); [done|]. by apply pretty_N_go_free. Qed.

Lemma pretty_Z_not_nil (z : Z) : pretty z ≠ "<nil>".
Proof.
  intros E. assert (byte_free "<"%char (pretty z)) as Hf.
  { destruct z as [|p|p]; [done|exact (pretty_N_free (Npos p))|]. split; [done|exact (pretty_N_free (Npos p))]. }
  rewrite E in Hf. by destruct Hf.
Qed.

Lemma codexOptionalInt64_inj a b : codexOptionalInt64 a = codexOptionalInt64 b → a = b.
Proof.
  destruct a as [a|], b as [b|]; simpl; intros E.
  - f_equal. by apply pretty_Z_inj.
  - by apply pretty_Z_not_nil in E.
  - symmetry in E. by apply pretty_Z_not_nil in E.
  - done.
Qed.

Lemma showBool_inj a b : showBool a = showBool b → a = b.
Proof. by destruct a, b. Qed.

(** ** The records of a file *)

Section file_records.
Context `{J : CodexJson}.

Lemma parse_from data : parseCodexHistoryRecords data = parseFrom data 0 0 0 (-1).
Proof. done. Qed.

Lemma tiles_raw offset line rest rs pre i r :
  tiles offset line rest rs → offset = Z.of_nat (String.length pre) → rs !! i = Some r →
  cr_RawJSON r = TrimSuffix (recordSlice (pre +:+ rest) r) (str1 newlineByte).
Proof.
  intros Ht. revert pre i.
  induction Ht as [offset line|offset line l r' Hl Hf [Hr _ Hs He _]|offset line l rest r' rs Hf [Hr _ Hs He _] _ IH];
    intros pre i -> Hi.
  - done.
  - destruct i; simplify_eq/=. rewrite Hr. unfold recordSlice. rewrite Hs, He. f_equal.
    rewrite <- (str_app_nil l) at 2. symmetry. by apply slice_mid.
  - destruct i as [|i]; simplify_eq/=.
    + rewrite Hr. unfold recordSlice. rewrite Hs, He. f_equal. symmetry. by apply slice_mid.
    + rewrite (IH (pre +:+ endLine l) i); [by rewrite str_app_assoc|rewrite str_length_app; lia|done].
Qed.

Lemma tiles_last_whole offset line rest rs r :
  tiles offset line rest rs → last rs = Some r → cr_Partial r = false → whole rest.
Proof.
  intros Ht. induction Ht as [offset line|offset line l r' Hl Hf Hr|offset line l rest r' rs Hf Hr Ht IH]; intros Hla Hp.
  - done.
  - simplify_eq/=. by rewrite (lo_partial _ _ _ _ _ Hr) in Hp.
  - right. inversion Ht as [|? ? ? r1 ? ? ?|? ? ? ? r1 rs1]; subst.
    + exists l. by rewrite str_app_nil.
    + destruct (IH Hla Hp) as [->|[d ->]]; [done|]. exists (endLine l +:+ d). by rewrite endLine_app.
    + destruct (IH Hla Hp) as [E|[d ->]]; [by destruct (endLine_not_nil l0 rest0)|].
      exists (endLine l +:+ d). by rewrite endLine_app.
Qed.

(** Splitting a rollout into records loses no byte: the byte ranges of the
    records, in order, are the whole file; each record starts where the previous
    one ends, carries its line number and the bytes of its line without the
    newline; only the last can be partial, and it is exactly when the file does not
    end with a newline. *)
Theorem records_tile data :
  let rs := parseCodexHistoryRecords data in
  String.concat "" (recordSlice data <$> rs) = data ∧
  ∀ i r, rs !! i = Some r →
    cr_LineIndex r = Z.of_nat i ∧ cr_RawJSON r = TrimSuffix (recordSlice data r) (str1 newlineByte) ∧
    0 ≤ cr_ByteStart r < cr_ByteEndExclusive r ∧
    match rs !! S i with
    | Some r' => cr_Partial r = false ∧ cr_ByteStart r' = cr_ByteEndExclusive r
    | None => cr_ByteEndExclusive r = Z.of_nat (String.length data) ∧ (cr_Partial r = false ↔ whole data)
    end.
Proof.
  intros rs. assert (tiles 0 0 data rs) as Ht by apply parseFrom_tiles.
  split; [by apply (tiles_concat _ _ _ _ "" Ht)|]. intros i r Hi.
  destruct (tiles_lookup _ _ _ _ _ _ Ht Hi) as (Hl & Hb & He & Hn).
  split_and!; [lia|by apply (tiles_raw _ _ _ _ "" i r Ht)|lia|lia|].
  destruct (rs !! S i) as [r'|] eqn:Es; [done|]. split; [lia|]. split.
  - apply (tiles_last_whole _ _ _ _ r Ht). rewrite last_lookup. apply lookup_ge_None in Es.
    apply lookup_lt_Some in Hi as Hlt. by replace (pred (length rs)) with i by lia.
  - intros Hw. apply (whole_complete data 0 0 0 (-1) r Hw). apply list_elem_of_lookup. by exists i.
Qed.

Lemma chain_proper mx rs mx' r : chain mx rs mx' → r ∈ rs → cr_HasOrdinal r = true → proper r.
Proof.
  intros Hc. induction Hc as [mx|mx r' mx1 rs mx' Ha _ IH]; [by intros ?%not_elem_of_nil|].
  intros [->|Hr]%elem_of_cons Ho; [|auto]. destruct Ha as [[E _]|(_ & ? & _)]; congruence.
Qed.

Lemma chain_implicit mx rs mx' n :
  chain mx rs mx' → -1 ≤ mx → (length rs ≤ n)%nat → mx + Z.of_nat n < 2 ^ 63 →
  (∀ r, r ∈ rs → cr_HasOrdinal r = true → codexExplicitRecordOrdinal (cr_Payload r) = None) →
  ordinals rs = seqZ (mx + 1) (Z.of_nat (length (ordinals rs))).
Proof.
  intros Hc. revert n. unfold ordinals.
  induction Hc as [mx|mx r mx1 rs mx' Ha _ IH]; intros n Hmx Hn Hb He; [done|].
  simpl in Hn. destruct n as [|n]; [lia|]. rewrite ordinalRecords_cons.
  assert (∀ r', r' ∈ rs → cr_HasOrdinal r' = true → codexExplicitRecordOrdinal (cr_Payload r') = None) as He'
    by (intros r' ?; apply He; by right).
  destruct Ha as [[Hh ->]|(Hh & _ & Ho & Hm)]; rewrite Hh; [apply (IH n); (lia || done)|].
  rewrite (He r ltac:(by left) Hh) in Hm. destruct Hm as [[? _]|[_ Hm]]; [done|]. rewrite i64_small in Hm by lia.
  rewrite fmap_cons. cbn [length]. rewrite seqZ_cons by lia. f_equal; [lia|].
  rewrite (IH n) at 1 by (lia || done). f_equal; lia.
Qed.

Lemma chain_last mx rs mx' : chain mx rs mx' → mx' = default mx (last (ordinals rs)).
Proof.
  unfold ordinals. induction 1 as [mx|mx r mx1 rs mx' Ha _ IH]; [done|]. rewrite ordinalRecords_cons.
  destruct Ha as [[-> ->]|(-> & _ & <- & _)]; [done|]. rewrite fmap_cons, last_cons, IH.
  by destruct (last _).
Qed.

(** When no explicit ordinal is close enough to the end of [int64] to
    overflow, the ordinals of a file increase strictly from line to line and are
    not negative, only complete, decoded, advancing records of a recognized type
    carry one, and the checkpoint of the file is the number of its ordinals and the
    last of them; without explicit ordinals they are exactly 0, 1, 2, ... *)
Theorem ordinals_ascending s :
  let rs := sg_records s in
  rs = parseCodexHistoryRecords (sg_data s) → ordinals_fit rs →
  StronglySorted Z.lt (ordinals rs) ∧
  (∀ r, r ∈ rs → cr_HasOrdinal r = true → 0 ≤ cr_Ordinal r ∧ proper r) ∧
  decodedCheckpoint s =
    mkCheckpoint (Z.of_nat (length (ordinals rs))) (default (-1) (last (ordinals rs))) (bool_decide (ordinals rs ≠ [])) ∧
  ((∀ r, r ∈ rs → cr_HasOrdinal r = true → codexExplicitRecordOrdinal (cr_Payload r) = None) →
    ordinals rs = seqZ 0 (Z.of_nat (length (ordinals rs)))).
Proof.
  intros rs Hp Hfit. destruct (parseFrom_chain (sg_data s) 0 0 0 (-1)) as [mx' Hc].
  rewrite <- parse_from, <- Hp in Hc. fold rs in Hc. destruct Hfit as [Hn He].
  destruct (chain_ascending _ _ _ (length rs) Hc) as (Hs & Ho & _); [lia|lia|lia|done|].
  split_and!; [done| | |].
  - intros r Hr Hh. split; [|by eapply chain_proper].
    assert (-1 < cr_Ordinal r ≤ mx'); [|lia]. apply Ho. apply list_elem_of_fmap. exists r. split; [done|].
    apply list_elem_of_filter. by split.
  - rewrite (decodedCheckpoint_chain s mx') by done. fold rs. f_equal.
    + by apply (chain_last (-1)).
    + apply bool_decide_ext. unfold ordinals. by destruct (ordinalRecords rs).
  - intros Hi. by apply (chain_implicit (-1) rs mx' (length rs)); try lia.
Qed.
End file_records.

(** ** A referenced parent that keeps growing *)

Lemma str_drop_app_le n (a b : string) :
  (n ≤ String.length a)%nat → str_drop n (a +:+ b) = str_drop n a +:+ b.
Proof.
  revert n. induction a as [|x a IH]; intros [|n] Hn; simpl in Hn; [done|lia|done|].
  rewrite str_app_cons. apply IH. lia.
Qed.

Lemma str_take_app_le n (a b : string) : (n ≤ String.length a)%nat → str_take n (a +:+ b) = str_take n a.
Proof.
  revert n. induction a as [|x a IH]; intros [|n] Hn; simpl in Hn; [by destruct b|lia|done|].
  rewrite str_app_cons. simpl. f_equal. apply IH. lia.
Qed.

Lemma str_drop_len n (a : string) : String.length (str_drop n a) = (String.length a - n)%nat.
Proof. revert n. induction a as [|x a IH]; intros [|n]; simpl; auto. Qed.

Lemma slice_app (a b : string) i j :
  0 ≤ i → j ≤ Z.of_nat (String.length a) → byteSlice (a +:+ b) i j = byteSlice a i j.
Proof.
  intros Hi Hj. unfold byteSlice. destruct (decide (i ≤ j)).
  - rewrite str_drop_app_le by lia. apply str_take_app_le. rewrite str_drop_len. lia.
  - replace (Z.to_nat (j - i)) with 0%nat by lia. done.
Qed.

Lemma byteSpan_spec rs :
  byteSpan rs = (-1, -1) ∧ rs = [] ∨
  ∃ r, r ∈ rs ∧ (byteSpan rs).2 = cr_ByteEndExclusive r.
Proof.
  destruct (decide (rs = [])) as [->|Hn]; [by left|right].
  destruct (exists_last Hn) as (rs' & r & ->). exists r. split; [apply elem_of_app; right; by left|].
  unfold byteSpan. by rewrite foldl_app.
Qed.

Section growth.
Context `{J : CodexJson}.

(** The same segment read after [more] was appended to its file. *)
Definition extend (s : codexDecodedSegment) (more : string) : codexDecodedSegment :=
  mkDecoded (sg_descriptor s) (sg_isCurrent s) (sg_ordinal s) (sg_data s +:+ more)
    (parseCodexHistoryRecords (sg_data s +:+ more)) (sg_readFailed s) (sg_proofFailed s).

Lemma parse_app data more : whole data → ordinals_fit (parseCodexHistoryRecords (data +:+ more)) →
  ∃ later mx, parseCodexHistoryRecords (data +:+ more) = parseCodexHistoryRecords data ++ later ∧
    chain (-1) (parseCodexHistoryRecords data) mx ∧ -1 ≤ mx < 2 ^ 63 - 1 ∧
    (∀ r, r ∈ later → cr_HasOrdinal r = true → mx < cr_Ordinal r) ∧
    (∀ r, r ∈ later → Z.of_nat (String.length data) ≤ cr_ByteStart r).
Proof.
  intros Hw Hfit. destruct (parseFrom_app data 0 0 0 (-1) Hw) as (line' & trav' & mx & Hc & Happ).
  set (later := parseFrom more (0 + Z.of_nat (String.length data)) line' trav' mx) in *.
  assert (parseCodexHistoryRecords (data +:+ more) = parseCodexHistoryRecords data ++ later) as E by apply Happ.
  exists later, mx. rewrite E in Hfit. destruct Hfit as [Hn He]. rewrite length_app in *.
  assert (∀ rs, rs ⊆ parseCodexHistoryRecords data ++ later → ∀ r o, r ∈ rs →
    codexExplicitRecordOrdinal (cr_Payload r) = Some o →
    o + Z.of_nat (length (parseCodexHistoryRecords data) + length later) < 2 ^ 63) as Hsub
    by (intros rs Hrs r o Hr; apply He; by apply Hrs).
  destruct (chain_ascending _ _ _ (length (parseCodexHistoryRecords data) + length later) Hc)
    as (_ & _ & Hmx & Hroom); [lia|rewrite <- parse_from; lia|lia|apply Hsub; set_solver|].
  rewrite <- parse_from in Hroom.
  destruct (parseFrom_chain more (0 + Z.of_nat (String.length data)) line' trav' mx) as [mx' Hc'].
  destruct (chain_ascending _ _ _ (length later) Hc') as (_ & Ho & _); [lia|done|lia| |].
  { intros r o Hr Hx. pose proof (Hsub later ltac:(set_solver) r o Hr Hx). lia. }
  split_and!; [done|done|lia|lia| |].
  - intros r Hr Hh. apply Ho. apply list_elem_of_fmap. exists r. split; [done|]. by apply list_elem_of_filter.
  - intros r Hr. apply list_elem_of_lookup in Hr as [i Hi].
    pose proof (parseFrom_tiles more (0 + Z.of_nat (String.length data)) line' trav' mx) as Ht.
    destruct (tiles_lookup _ _ _ _ _ _ Ht Hi) as (_ & ? & _). lia.
Qed.

(** What a proof of an ordinal range says. *)
Lemma prove_range s mode threadID index :
  codexProveReference s mode threadID index = None → ordinalKind (Kind (rf_Coordinates (sg_descriptor s))) = true →
  ∃ start stop, Start (rf_Coordinates (sg_descriptor s)) = Some start ∧
    EndExclusive (rf_Coordinates (sg_descriptor s)) = Some stop ∧
    cp_hasValid (decodedCheckpoint s) = true ∧ stop ≤ i64 (cp_maxOrdinal (decodedCheckpoint s) + 1).
Proof.
  unfold codexProveReference. intros H Hk. rewrite Hk in H.
  destruct (bool_decide _ && _); [done|]. destruct (bool_decide (mode = _ ∧ _)); [done|].
  destruct (Start _) as [start|], (EndExclusive _) as [stop|]; simpl in H; try done.
  exists start, stop. destruct (cp_hasValid _); [|done]. simpl in H.
  destruct (bool_decide (stop > _)) eqn:E; simpl in H; [done|]. apply bool_decide_eq_false in E.
  split_and!; (done || lia).
Qed.

(** The records appended after a proven bound are outside it. *)
Lemma appended_out_of_bounds s more mode threadID index later mx :
  sg_records s = parseCodexHistoryRecords (sg_data s) → ordinals_fit (sg_records s) →
  codexProveReference s mode threadID index = None → ordinalKind (Kind (rf_Coordinates (sg_descriptor s))) = true →
  chain (-1) (sg_records s) mx → -1 ≤ mx < 2 ^ 63 - 1 →
  (∀ r, r ∈ later → cr_HasOrdinal r = true → mx < cr_Ordinal r) →
  ∀ r, r ∈ ordinalRecords later →
    atOrPast (cr_Ordinal r) (EndExclusive (rf_Coordinates (sg_descriptor s))) = true ∧
    codexRecordInBounds (extend s more) r None = false.
Proof.
  intros Hp Hfit Hprove Hk Hc Hmx Hlater r [Hh Hr]%list_elem_of_filter.
  destruct (prove_range _ _ _ _ Hprove Hk) as (start & stop & Es & Ee & _ & Hstop).
  rewrite (decodedCheckpoint_chain s mx Hc Hfit) in Hstop. simpl in Hstop. rewrite i64_small in Hstop by lia.
  specialize (Hlater r Hr Hh).
  assert (atOrPast (cr_Ordinal r) (EndExclusive (rf_Coordinates (sg_descriptor s))) = true) as Ha.
  { rewrite Ee. simpl. apply bool_decide_eq_true. lia. }
  split; [done|]. unfold codexRecordInBounds. simpl. rewrite Hk, Ha. simpl. by rewrite andb_false_r.
Qed.

Lemma find_partial_whole data : whole data → List.find cr_Partial (parseCodexHistoryRecords data) = None.
Proof.
  intros Hw. destruct (List.find _ _) as [r|] eqn:E; [|done]. apply List.find_some in E as [Hr Hp].
  apply list_elem_of_In in Hr. by rewrite (whole_complete data 0 0 0 (-1) r Hw Hr) in Hp.
Qed.

Lemma whole_app a b : whole a → whole b → whole (a +:+ b).
Proof.
  intros Ha [->|[d ->]]; [by rewrite str_app_nil|]. right. exists (a +:+ d). by rewrite endLine_app.
Qed.

Lemma record_inside data r :
  r ∈ parseCodexHistoryRecords data → 0 ≤ cr_ByteStart r ∧ cr_ByteEndExclusive r ≤ Z.of_nat (String.length data).
Proof.
  intros [i Hi]%list_elem_of_lookup. pose proof (parseFrom_tiles data 0 0 0 (-1)) as Ht.
  destruct (tiles_lookup _ _ _ _ _ _ Ht Hi) as (_ & ? & ? & _). lia.
Qed.

(** A parent that keeps growing after the captured cutoff does not disturb its
    child: if the reference was proven on the bytes read before, appending complete
    records to the parent leaves its bounded bytes, its bounded checkpoint and every
    field it contributes to the capture fingerprint unchanged, so a fingerprint over
    any segments around it is unchanged too. *)
Theorem parent_append_stable s more mode threadID index :
  sg_records s = parseCodexHistoryRecords (sg_data s) → whole (sg_data s) → whole more →
  ordinals_fit (parseCodexHistoryRecords (sg_data s +:+ more)) →
  ordinalKind (Kind (rf_Coordinates (sg_descriptor s))) = true →
  codexProveReference s mode threadID index = None →
  boundedData (extend s more) = boundedData s ∧
  boundedCheckpoint (extend s more) = boundedCheckpoint s ∧
  segmentFields (extend s more) = segmentFields s ∧
  ∀ a completeness before after,
    codexFingerprint a completeness (before ++ extend s more :: after) =
    codexFingerprint a completeness (before ++ s :: after).
Proof.
  intros Hp Hw Hwm Hfit Hk Hprove.
  destruct (parse_app _ _ Hw Hfit) as (later & mx & E & Hc & Hmx & Hlater & _). rewrite <- Hp in E, Hc.
  assert (ordinals_fit (sg_records s)) as Hfit' by (rewrite E in Hfit; by eapply ordinals_fit_app).
  pose proof (appended_out_of_bounds s more mode threadID index later mx Hp Hfit' Hprove Hk Hc Hmx Hlater) as Hout.
  destruct (prove_range _ _ _ _ Hprove Hk) as (start & stop & Es & Ee & _).
  assert (boundedCheckpoint (extend s more) = boundedCheckpoint s) as Hcp.
  { unfold boundedCheckpoint. simpl. rewrite E, ordinalRecords_app, filter_app.
    rewrite (proj2 (filter_nil_iff _ (ordinalRecords later))), app_nil_r; [done|].
    intros r Hr. destruct (Hout r Hr) as [_ Hx]. by rewrite Hx. }
  assert (boundedData (extend s more) = boundedData s) as Hb.
  { unfold boundedData. simpl. rewrite Es, Ee, E, ordinalRecords_app, filter_app.
    rewrite (proj2 (filter_nil_iff _ (ordinalRecords later))), app_nil_r.
    2:{ intros r Hr [_ Hx]. destruct (Hout r Hr) as [Hy _]. rewrite Ee in Hy. congruence. }
    set (l := filter _ _). destruct (byteSpan_spec l) as [[-> _]|(r & Hr & Hlast)]; [done|].
    destruct (byteSpan l) as [first last]. simpl in Hlast. case_decide; [done|].
    assert (r ∈ sg_records s) as Hin by (by apply list_elem_of_filter in Hr as [_ [_ ?]%list_elem_of_filter]).
    rewrite Hp in Hin. apply record_inside in Hin as [_ Hin]. rewrite <- Hlast in Hin.
    rewrite str_length_app. rewrite !decide_False by lia. apply slice_app; lia. }
  assert (segmentFields (extend s more) = segmentFields s) as Hf.
  { unfold segmentFields. rewrite Hcp, Hb. unfold partialTail. simpl. rewrite Hp.
    rewrite !find_partial_whole by (done || by apply whole_app). done. }
  split_and!; [done|done|done|]. intros a completeness before after. unfold codexFingerprint.
  rewrite !bind_app, !bind_cons. by rewrite Hf.
Qed.

(** ** The authority signature *)

(** What the signature covers of a reference and of an authority. *)
Definition signedReference (r : CodexReference) :=
  (rf_Pointer r, rf_PhysicalSourceID r, rf_Mode r, rf_HistoryKind r, rf_ThroughCompleted r, rf_Inclusion r,
   rf_Coordinates r, rf_CopyBoundary r, rf_OriginalOwnershipProven r).
Definition signedAuthority (a : CodexSourceAuthority) :=
  (au_StableThreadID a, au_Kind a, au_CurrentPointer a, au_PhysicalSourceID a, TrimSpace (au_HistoryMode a),
   au_RootID a, au_ParentID a, au_ForkSourceID a, au_HistoryBaseThreadID a, au_CopyBoundary a,
   au_OriginalOwnershipProven a, signedReference <$> au_References a).

Lemma referenceFields_inj r r' : referenceFields r = referenceFields r' → signedReference r = signedReference r'.
Proof.
  unfold referenceFields, signedReference. intros E. injection E as E1 E2 E3 E4 E5 E6 E7 E8 E9 E10 E11 E12 E13.
  apply showBool_inj in E5, E13. apply codexOptionalInt64_inj in E8, E9, E10, E11, E12.
  destruct (rf_Coordinates r), (rf_Coordinates r'). simpl in *. congruence.
Qed.

Lemma references_inj l l' : l ≫= referenceFields = l' ≫= referenceFields → signedReference <$> l = signedReference <$> l'.
Proof.
  revert l'. induction l as [|r l IH]; intros [|r' l'] E; [done|done|done|].
  rewrite !bind_cons in E. apply app_inj_1 in E as [E1 E2]; [|done].
  rewrite !fmap_cons, (referenceFields_inj _ _ E1), (IH _ E2). done.
Qed.

Lemma signature_fields a b :
  Forall encodable (authorityFields a) → Forall encodable (authorityFields b) →
  codexAuthoritySignature a = codexAuthoritySignature b → signedAuthority a = signedAuthority b.
Proof.
  intros Ha Hb E. apply writeAll_inj in E; [|done|done]. unfold authorityFields in E.
  apply app_inj_1 in E as [E Er]; [|done]. injection E as E1 E2 E3 E4 E5 E6 E7 E8 E9 E10 E11.
  apply references_inj in Er. apply codexOptionalInt64_inj in E10. apply showBool_inj in E11.
  unfold signedAuthority. congruence.
Qed.

(** The canonical signature of an authority is unambiguous: two authorities
    whose signatures are the same bytes agree on every covered field (the history
    mode up to surrounding space) and on the number, order and covered fields of
    their references, an absent bound never being confused with a number. *)
Theorem codexAuthoritySignature_injective a b :
  Forall encodable (authorityFields a) → Forall encodable (authorityFields b) →
  codexAuthoritySignature a = codexAuthoritySignature b → signedAuthority a = signedAuthority b.
Proof. apply signature_fields. Qed.
End growth.

(** ** The fuel of the traversal *)

Lemma foldl_agree {A B} (f g : B → A → B) (l : list A) b :
  (∀ x b, x ∈ l → f b x = g b x) → foldl f b l = foldl g b l.
Proof.
  revert b. induction l as [|x l IH]; intros b Hfg; [done|]. simpl. rewrite (Hfg x) by by left.
  apply IH. intros y c Hy. apply Hfg. by right.
Qed.

Section traversal.
Context `{J : CodexJson}.
Hypothesis object_part : ∀ v o k w, Object_Unmarshal v = Some o → o !! k = Some w → (String.length w < String.length v)%nat.
Hypothesis array_part : ∀ v l w, Array_Unmarshal v = Some l → w ∈ l → (String.length w < String.length v)%nat.

(** The decoded parts of a value are proper parts of its text, so fuel beyond the
    length of the text changes nothing. *)
Lemma visit_fuel_enough f f' value pointer positions :
  (String.length value < f)%nat → (String.length value < f')%nat →
  visitValue f value pointer positions = visitValue f' value pointer positions.
Proof.
  revert f' value pointer positions. induction f as [|f IH]; intros f' value pointer positions Hf Hf'; [lia|].
  destruct f' as [|f']; [lia|]. cbn [visitValue]. destruct (Object_Unmarshal value) as [o|] eqn:Eo; [|done].
  assert (∀ k, default "" (o !! k) ≠ "" → (String.length (default "" (o !! k)) < String.length value)%nat) as Hpart.
  { intros k Hk. destruct (o !! k) as [w|] eqn:Ek; [|done]. by apply (object_part _ _ _ _ Eo Ek). }
  rewrite (foldl_agree _ (λ positions name,
    match Array_Unmarshal (default "" (o !! name)) with
    | Some blocks => foldl (λ positions (ib : nat * string),
        visitValue f' ib.2 (pointer +:+ "/" +:+ name +:+ "/" +:+ pretty ib.1) positions) positions (imap pair blocks)
    | None => positions
    end)).
  2:{ intros name ps _. destruct (Array_Unmarshal _) as [blocks|] eqn:Ea; [|done]. apply foldl_agree.
      intros [i b] ps' Hb. apply elem_of_lookup_imap in Hb as (j & b' & [= <- <-] & Hb').
      apply list_elem_of_lookup_2 in Hb'. pose proof (array_part _ _ _ Ea Hb') as Hl.
      assert (default "" (o !! name) ≠ "") as Hne by (intros Hx; rewrite Hx in Hl; simpl in Hl; lia).
      specialize (Hpart name Hne). apply IH; simpl; lia. }
  destruct (bool_decide (default "" (o !! "item") ≠ "" ∧ _)) eqn:Hi; [|done].
  apply bool_decide_eq_true in Hi as [Hi _]. specialize (Hpart _ Hi).
  by rewrite (IH f') by lia.
Qed.
End traversal.

(** ** Examples *)

(** A decoder for examples: the first byte of a line is its type, and the payload
    is the rest; a payload that starts with [#] has an explicit ordinal; an object has
    one field, its text. *)
Definition demoType (c : ascii) : option string :=
  if decide (c = "R"%char) then Some codexTypeResponse
  else if decide (c = "E"%char) then Some codexTypeEventMsg
  else if decide (c = "M"%char) then Some codexTypeSessionMeta
  else if decide (c = "C"%char) then Some codexTypeCompacted
  else if decide (c = "?"%char) then Some "something_else"
  else None.

Definition digit (s : string) : option Z :=
  match s with
  | String c "" => let n := Z.of_N (N_of_ascii c) - 48 in if decide (0 ≤ n ≤ 9) then Some n else None
  | _ => None
  end.

#[export] Instance demoCodexJson : CodexJson := {|
  decodeEnvelope s := match s with
    | String c payload => type ← demoType c; Some (mkEnvelope "" type payload "")
    | "" => None
    end;
  decodeOrdinalProbe s := match s with String "#" o => Some o | _ => Some "" end;
  decodeInt64 s := if decide (s = "null") then Some 0 else digit s;
  decodeString s := match s with String "034" t => Some (TrimSuffix t (str1 "034"%char)) | _ => None end;
  decodeTypePayload s := None;
  Object_Unmarshal s := Some {["" := s]};
  Object_Marshal m := m !! "";
  Array_Unmarshal s := None;
  Delivery_Fields s := None;
  Time_UnixMilli s := None;
  Sum256_Hex s := s;
|}.

Definition demoLines (l : list string) : string := String.concat "" (endLine <$> l).

(** Two records of a parent, referenced up to ordinal 2. *)
Definition demoReference : CodexReference :=
  mkReference None "/parent" "src_parent" "legacy" "before" true
    (mkCoordinates CoordinateKindCodexReferenceRange (Some 0) (Some 2) None None)
    SegmentInclusionInherited None true.
Definition demoSegment (data : string) : codexDecodedSegment :=
  mkDecoded demoReference false 0 data (parseCodexHistoryRecords data) false false.
Definition demoParent : string := demoLines ["Ra"; "Eb"].

Definition demoAuthority : CodexSourceAuthority :=
  mkAuthority "t" CodexAuthorityDetachedFile "/current" "src_current" "" "" "" "" "" None false [demoReference] [] false.

Lemma ordinals_fit_demo rs :
  (length rs < 1000)%nat →
  Forall (λ r, match codexExplicitRecordOrdinal (cr_Payload r) with Some o => o < 1000 | None => True end) rs →
  ordinals_fit rs.
Proof.
  intros Hn Hf. split; [lia|]. intros r o Hr Ho. rewrite Forall_forall in Hf. specialize (Hf r Hr). rewrite Ho in Hf. lia.
Qed.

Lemma ordinals_ascending_witness :
  ordinals (parseCodexHistoryRecords (demoLines ["Ra"; ""; "?x"; "R#4"; "R#2"; "Eb"] +:+ "Rc")) = [0; 4; 5] ∧
  StronglySorted Z.lt (ordinals (sg_records (demoSegment demoParent))).
Proof.
  split; [by vm_compute|]. apply (ordinals_ascending (demoSegment demoParent)); [done|].
  apply ordinals_fit_demo; [vm_compute; lia|]. repeat constructor.
Defined.

Lemma parent_append_stable_witness :
  parseCodexHistoryRecords (demoParent +:+ demoLines ["Rc"; "Rd"]) ≠ parseCodexHistoryRecords demoParent ∧
  boundedData (extend (demoSegment demoParent) (demoLines ["Rc"; "Rd"])) = demoParent.
Proof.
  split; [by vm_compute|].
  assert (∀ l, whole (demoLines l)) as Hw.
  { induction l as [|x l IH] using rev_ind; [by left|]. unfold demoLines. rewrite fmap_app.
    destruct (decide (l = [])) as [->|Hl]; [by right; exists x|].
    assert (∀ k, k ≠ [] → String.concat "" (k ++ [endLine x]) = String.concat "" k +:+ endLine x) as Hc.
    { induction k as [|y k IHk]; [done|]. intros _. destruct k as [|z k]; [done|].
      change (String.concat "" ((y :: z :: k) ++ [endLine x])) with (y +:+ ("" +:+ String.concat "" ((z :: k) ++ [endLine x]))).
      rewrite IHk by done. change (String.concat "" (y :: z :: k)) with (y +:+ ("" +:+ String.concat "" (z :: k))).
      by rewrite !str_app_assoc. }
    rewrite Hc by (by destruct l). right. eexists. symmetry. apply endLine_app. }
  destruct (parent_append_stable (demoSegment demoParent) (demoLines ["Rc"; "Rd"]) CodexHistoryModeLegacy "t" 0)
    as [-> _]; [done|apply Hw|apply Hw| |done|done|done].
  apply ordinals_fit_demo; [vm_compute; lia|]. repeat constructor.
Defined.

Lemma codexAuthoritySignature_injective_witness :
  codexAuthoritySignature demoAuthority = codexAuthoritySignature demoAuthority ∧
  signedAuthority demoAuthority = signedAuthority demoAuthority.
Proof.
  split; [done|]. apply codexAuthoritySignature_injective; [repeat constructor|repeat constructor|done].
Defined.

(** A growing parent caught in the middle of a line does change the child's
    fingerprint, through the partial tail. *)
Example partial_parent_unstable :
  boundedData (extend (demoSegment demoParent) "Rc") = boundedData (demoSegment demoParent) ∧
  segmentFields (extend (demoSegment demoParent) "Rc") ≠ segmentFields (demoSegment demoParent).
Proof. split; [done|]. by vm_compute. Qed.

(** A null ordinal is read as the explicit ordinal 0: the second such record is a
    regression and is skipped, although it declares no number. *)
Example null_ordinal_regresses :
  ordinals (parseCodexHistoryRecords (demoLines ["R"; "R#null"; "R"])) = [0; 1] ∧
  cr_Regressed <$> parseCodexHistoryRecords (demoLines ["R"; "R#null"; "R"]) = [false; true; false].
Proof. by vm_compute. Qed.
