(* ===== verification/ThinkingLevel.v ===== *)
(** * Thinking-level evidence

    [src/internal/ingest/thinking_level.go] and
    [src/internal/transcript/thinking_history.go]: the mapping of a harness's native
    spelling to a canonical level, the session seed with the collapsed history of
    later changes, and the two walks that build them.  The canonical levels and the
    validation of raw spellings are the schema package's ([ThinkingLib]). *)
From S2P Require Import Prelude.

Local Open Scope string_scope.
Local Open Scope list_scope.

Class ThinkingLib := {
  ThinkingLevel_IsValid : string → bool;
  NewThinkingLevelRaw : string → option string;
  ThinkingLevelOff : string;
  tl_RoleAssistant : string;
}.

Section levels.
Context `{T : ThinkingLib}.

(** ** Mapping one native value *)

(** [thinkingLevelMapping], also [schema.ThinkingLevelChange]. *)
Record thinkingLevelMapping := mkLevel { Level : string; Raw : string }.
#[export] Instance thinkingLevelMapping_eq : EqDecision thinkingLevelMapping.
Proof. solve_decision. Defined.

Definition noLevel : thinkingLevelMapping := mkLevel "" "".
Definition IsZero (m : thinkingLevelMapping) : bool := bool_decide (Level m = "" ∧ Raw m = "").

Record thinkingLevelRule := mkRule { source : string; aliases : gmap string string }.

Definition codexEffortRule : thinkingLevelRule :=
  mkRule "Codex turn_context.payload.effort"
    (<["none" := ThinkingLevelOff]> (<["persistent" := ThinkingLevelOff]> {["custom" := ""]})).
Definition claudeEffortRule : thinkingLevelRule :=
  mkRule "Claude Code assistant effort" {["none" := ThinkingLevelOff]}.
Definition claudeLegacyLevelRule : thinkingLevelRule :=
  mkRule "Claude Code thinkingMetadata.level" {["none" := ThinkingLevelOff]}.
Definition openCodeVariantRule : thinkingLevelRule :=
  mkRule "OpenCode model.variant" (<["none" := ThinkingLevelOff]> {["default" := ""]}).
Definition piThinkingLevelRule : thinkingLevelRule := mkRule "Pi thinkingLevel" ∅.

(** [thinkingLevelRule.apply]; the diagnostic is its location, the rule's source. *)
Definition rule_apply (r : thinkingLevelRule) (native : string) : thinkingLevelMapping * option string :=
  if decide (native = "") then (noLevel, None)
  else if ThinkingLevel_IsValid native then (mkLevel native "", None)
  else
    let level := default "" (aliases r !! native) in
    match NewThinkingLevelRaw native with
    | None => (mkLevel level "", Some (source r))
    | Some raw => (mkLevel level raw, None)
    end.

Definition mapCodexEffort : string → thinkingLevelMapping * option string := rule_apply codexEffortRule.
Definition mapClaudeEffort : string → thinkingLevelMapping * option string := rule_apply claudeEffortRule.
Definition mapClaudeLegacyLevel : string → thinkingLevelMapping * option string := rule_apply claudeLegacyLevelRule.
Definition mapOpenCodeVariant : string → thinkingLevelMapping * option string := rule_apply openCodeVariantRule.
Definition mapPiThinkingLevel : string → thinkingLevelMapping * option string := rule_apply piThinkingLevelRule.

(** ** The session seed and its history *)

Record ThinkingLevelHistoryState := mkHistory {
  s_Level : string;
  s_Raw : string;
  s_History : list thinkingLevelMapping;
}.

Definition emptyHistory : ThinkingLevelHistoryState := mkHistory "" "" [].

Definition Observe (s : ThinkingLevelHistoryState) (level raw : string) : ThinkingLevelHistoryState :=
  if bool_decide (level = "" ∧ raw = "") then s
  else if bool_decide (s_Level s = "" ∧ s_Raw s = "") then mkHistory level raw (s_History s)
  else
    let recent := default (mkLevel (s_Level s) (s_Raw s)) (last (s_History s)) in
    if bool_decide (level = Level recent ∧ raw = Raw recent) then s
    else mkHistory (s_Level s) (s_Raw s) (s_History s ++ [mkLevel level raw]).

(** [applyThinkingLevelSeed] on the three metadata fields; [None] is a nil
    pointer.  The flag is whether it set the seed. *)
Definition applyThinkingLevelSeed (meta : option ThinkingLevelHistoryState) (mapping : thinkingLevelMapping) :
    option ThinkingLevelHistoryState * bool :=
  match meta with
  | None => (None, false)
  | Some m =>
      if IsZero mapping then (meta, false)
      else if bool_decide (s_Level m ≠ "" ∨ s_Raw m ≠ "") then (meta, false)
      else (Some (mkHistory (Level mapping) (Raw mapping) (s_History m)), true)
  end.

Definition applyThinkingLevelObservation (meta : option ThinkingLevelHistoryState) (mapping : thinkingLevelMapping) :
    option ThinkingLevelHistoryState :=
  match meta with
  | None => None
  | Some m => if IsZero mapping then meta else Some (Observe m (Level mapping) (Raw mapping))
  end.

(** ** The history of the folded turns *)

Record Turn := mkTurn { t_Depth : Z; t_Role : string; t_Level : string; t_Raw : string }.

Definition observeTurn (acc : ThinkingLevelHistoryState * bool) (turn : Turn) : ThinkingLevelHistoryState * bool :=
  if bool_decide (t_Depth turn ≠ 0%Z ∨ t_Role turn ≠ tl_RoleAssistant) then acc
  else if bool_decide (t_Level turn = "" ∧ t_Raw turn = "") then acc
  else (Observe acc.1 (t_Level turn) (t_Raw turn), true).

Definition thinkingLevelHistoryFromTurns (turns : list Turn) : list thinkingLevelMapping * bool :=
  let '(state, found) := foldl observeTurn (emptyHistory, false) turns in (s_History state, found).

Definition sessionThinkingHistory (turns : list Turn) (stored : list thinkingLevelMapping) : list thinkingLevelMapping :=
  let '(history, ok) := thinkingLevelHistoryFromTurns turns in if ok then history else stored.

(** ** What they compute *)

(** Consecutive duplicates removed. *)
Fixpoint changes (prev : thinkingLevelMapping) (l : list thinkingLevelMapping) : list thinkingLevelMapping :=
  match l with
  | [] => []
  | x :: l => if decide (x = prev) then changes prev l else x :: changes x l
  end.

Definition observed (l : list thinkingLevelMapping) : list thinkingLevelMapping :=
  filter (λ m, IsZero m = false) l.

(** The seed and the changes after it. *)
Definition history_of (l : list thinkingLevelMapping) : ThinkingLevelHistoryState :=
  match observed l with
  | [] => emptyHistory
  | x :: l => mkHistory (Level x) (Raw x) (changes x l)
  end.

Definition observeAll (s : ThinkingLevelHistoryState) (l : list thinkingLevelMapping) : ThinkingLevelHistoryState :=
  foldl (λ s m, Observe s (Level m) (Raw m)) s l.

Lemma IsZero_false m : IsZero m = false ↔ m ≠ noLevel.
Proof.
  unfold IsZero. rewrite bool_decide_eq_false. destruct m as [l r]. simpl. split.
  - intros Hn [= -> ->]. by apply Hn.
  - intros Hn [-> ->]. by apply Hn.
Qed.

Lemma Observe_zero s m : IsZero m = true → Observe s (Level m) (Raw m) = s.
Proof. unfold IsZero, Observe. by intros ->. Qed.

Lemma observeAll_seeded seed hist l : IsZero seed = false →
  observeAll (mkHistory (Level seed) (Raw seed) hist) l =
    mkHistory (Level seed) (Raw seed) (hist ++ changes (default seed (last hist)) (observed l)).
Proof.
  intros Hs. revert hist. induction l as [|m l IH]; intros hist; [by rewrite app_nil_r|]. unfold observed in *.
  cbn [observeAll foldl]. rewrite filter_cons. destruct (IsZero m) eqn:Em.
  - rewrite Observe_zero by done. apply IH.
  - destruct (decide _) as [_|?]; [|done]. unfold Observe. fold (IsZero m). rewrite Em. cbn [s_Level s_Raw s_History].
    fold (IsZero seed). rewrite Hs. destruct seed as [sl sr], m as [ml mr]. cbn [Level Raw] in *.
    cbn [changes]. destruct (default _ (last hist)) as [dl dr] eqn:Ed. cbn [Level Raw].
    destruct (decide (mkLevel ml mr = mkLevel dl dr)) as [[= -> ->]|Hne].
    + rewrite bool_decide_true by done. rewrite <- Ed. apply IH.
    + rewrite bool_decide_false by (intros [-> ->]; by apply Hne).
      specialize (IH (hist ++ [mkLevel ml mr])). rewrite last_snoc in IH.
      etrans; [apply IH|]. by rewrite <- app_assoc.
Qed.

Lemma observeAll_history l : observeAll emptyHistory l = history_of l.
Proof.
  unfold history_of, observed. induction l as [|m l IH]; [done|]. cbn [observeAll foldl]. rewrite filter_cons.
  destruct (IsZero m) eqn:Em.
  - rewrite Observe_zero by done. apply IH.
  - destruct (decide _) as [_|?]; [|done]. unfold Observe. fold (IsZero m). rewrite Em. simpl.
    etrans; [by apply (observeAll_seeded m [] l)|]. done.
Qed.

(** ** The session's seed *)

(** [sessionThinkingSeed] ([thinking_seed_default.go]). *)
Fixpoint sessionThinkingSeed (turns : list Turn) (stored : thinkingLevelMapping) : thinkingLevelMapping :=
  match turns with
  | [] => stored
  | turn :: turns =>
      if bool_decide (t_Depth turn = 0%Z ∧ t_Role turn = tl_RoleAssistant ∧ (t_Level turn ≠ "" ∨ t_Raw turn ≠ ""))
      then mkLevel (t_Level turn) (t_Raw turn) else sessionThinkingSeed turns stored
  end.

(** The observations of the root assistant turns. *)
Definition root_turn (t : Turn) : Prop := t_Depth t = 0%Z ∧ t_Role t = tl_RoleAssistant.
#[export] Instance root_turn_dec t : Decision (root_turn t).
Proof. unfold root_turn. apply _. Defined.
Definition turn_level (t : Turn) : thinkingLevelMapping := mkLevel (t_Level t) (t_Raw t).
Definition root_levels (turns : list Turn) : list thinkingLevelMapping := turn_level <$> filter root_turn turns.

Lemma observeTurn_skip acc t : ¬ (root_turn t ∧ IsZero (turn_level t) = false) → observeTurn acc t = acc.
Proof.
  intros Hn. unfold observeTurn. case_bool_decide as Hd; [done|].
  destruct (decide (t_Level t = "" ∧ t_Raw t = "")) as [Hz|Hz]; [by rewrite bool_decide_true|].
  destruct Hn. split; [unfold root_turn|unfold IsZero; by apply bool_decide_eq_false].
  destruct (decide (t_Depth t = 0%Z)), (decide (t_Role t = tl_RoleAssistant)); tauto.
Qed.

Lemma observeTurn_take acc t :
  root_turn t → IsZero (turn_level t) = false → observeTurn acc t = (Observe acc.1 (t_Level t) (t_Raw t), true).
Proof.
  intros [Hd Hr] Hz. unfold observeTurn. rewrite bool_decide_false by tauto.
  unfold IsZero in Hz. apply bool_decide_eq_false in Hz. by rewrite bool_decide_false.
Qed.

Lemma observeTurns_fold turns acc :
  foldl observeTurn acc turns =
    (observeAll acc.1 (root_levels turns), acc.2 || bool_decide (observed (root_levels turns) ≠ [])).
Proof.
  unfold root_levels, observed. revert acc. induction turns as [|t turns IH]; intros [s b].
  { simpl. by rewrite orb_false_r. }
  cbn [foldl]. rewrite IH, filter_cons. destruct (decide (root_turn t)) as [Hr|Hr].
  - rewrite fmap_cons, filter_cons. cbn [observeAll foldl]. destruct (IsZero (turn_level t)) eqn:Ez.
    + rewrite observeTurn_skip by (intros [_ ?]; congruence).
      destruct (decide (true = false)) as [?|_]; [done|]. f_equal. cbn [fst].
      by rewrite (Observe_zero s (turn_level t) Ez).
    + rewrite observeTurn_take by done. destruct (decide (false = false)) as [_|?]; [|done]. cbn [fst snd turn_level Level Raw].
      by rewrite (bool_decide_true (_ :: _ ≠ [])), orb_true_r.
  - by rewrite observeTurn_skip by tauto.
Qed.

Lemma seed_first turns stored :
  sessionThinkingSeed turns stored = default stored (head (observed (root_levels turns))).
Proof.
  unfold root_levels, observed. induction turns as [|t turns IH]; [done|]. cbn [sessionThinkingSeed]. rewrite filter_cons.
  destruct (decide (root_turn t)) as [[Hd Hr]|Hr].
  - rewrite fmap_cons, filter_cons. destruct (decide (IsZero (turn_level t) = false)) as [Hz|Hz].
    + rewrite bool_decide_true; [done|]. split_and!; [done|done|].
      unfold IsZero in Hz. apply bool_decide_eq_false in Hz. simpl in Hz.
      destruct (decide (t_Level t = "")); tauto.
    + rewrite bool_decide_false; [exact IH|]. intros (_ & _ & Hx). apply Hz. unfold IsZero.
      apply bool_decide_eq_false. simpl. tauto.
  - rewrite bool_decide_false; [exact IH|]. intros (? & ? & _). by apply Hr.
Qed.

(** The level a session starts at and its history of changes are read off the
    same observations: when a root assistant turn carries evidence, the seed is the
    first observation and the history the later ones without consecutive repetitions
    (so no change repeats the level before it); otherwise both are the stored ones.
    The walk over a transcript's own observations records the same pair. *)
Theorem thinking_history_exact turns seed stored obs :
  match observed (root_levels turns) with
  | [] => sessionThinkingSeed turns seed = seed ∧ sessionThinkingHistory turns stored = stored
  | x :: l => sessionThinkingSeed turns seed = x ∧ sessionThinkingHistory turns stored = changes x l
  end ∧
  foldl applyThinkingLevelObservation (Some emptyHistory) obs = Some (history_of obs).
Proof.
  split.
  - rewrite seed_first. unfold sessionThinkingHistory, thinkingLevelHistoryFromTurns.
    rewrite observeTurns_fold. cbn [fst snd]. rewrite observeAll_history. unfold history_of.
    by destruct (observed _).
  - rewrite <- observeAll_history. generalize emptyHistory. induction obs as [|m obs IH]; intros s; [done|].
    cbn [foldl]. unfold observeAll. cbn [foldl]. rewrite <- IH. unfold applyThinkingLevelObservation at 2.
    destruct (IsZero m) eqn:Em; [by rewrite Observe_zero|done].
Qed.

Lemma changes_hd x l : match changes x l with [] => True | y :: _ => y ≠ x end.
Proof. induction l as [|y l IH]; [done|]. cbn [changes]. by case_decide. Qed.

Lemma changes_alternate x l i y z :
  (x :: changes x l) !! i = Some y → (x :: changes x l) !! S i = Some z → y ≠ z.
Proof.
  revert x i. induction l as [|w l IH]; intros x i; cbn [changes]; [by destruct i|].
  case_decide; [apply IH|]. destruct i as [|i]; [intros [= ->] [= ->]; congruence|]. apply IH.
Qed.

(** Nothing is invented about a level: a canonical spelling maps to itself
    without raw evidence; any other native spelling keeps its exact bytes as raw
    evidence when the schema accepts them, with a level only if the rule lists it,
    and is reported when they are refused; an absent spelling maps to nothing. *)
Theorem rule_apply_exact r native :
  (∀ n raw, NewThinkingLevelRaw n = Some raw → raw = n) →
  let '(m, diagnostic) := rule_apply r native in
  (native = "" → m = noLevel ∧ diagnostic = None) ∧
  (native ≠ "" → ThinkingLevel_IsValid native = true → m = mkLevel native "" ∧ diagnostic = None) ∧
  (native ≠ "" → ThinkingLevel_IsValid native = false →
    Level m = default "" (aliases r !! native) ∧
    (Raw m = native ∧ diagnostic = None ∨ Raw m = "" ∧ diagnostic = Some (source r))).
Proof.
  intros Hraw. unfold rule_apply. case_decide as Hn; [by split_and!|].
  destruct (ThinkingLevel_IsValid native) eqn:Ev; [by split_and!|].
  destruct (NewThinkingLevelRaw native) as [raw|] eqn:Er; split_and!; try done.
  - intros _ _. simpl. split; [done|]. left. by rewrite (Hraw _ _ Er).
  - intros _ _. simpl. split; [done|]. by right.
Qed.
End levels.

(** ** Examples *)

#[export] Instance demoThinking : ThinkingLib := {|
  ThinkingLevel_IsValid s := bool_decide (s ∈ ["off"; "low"; "high"]);
  NewThinkingLevelRaw s := if decide (s = " ") then None else Some s;
  ThinkingLevelOff := "off";
  tl_RoleAssistant := "assistant";
|}.

Lemma rule_apply_exact_witness :
  mapCodexEffort "none" = (mkLevel "off" "none", None) ∧
  (let '(m, _) := rule_apply codexEffortRule "turbo" in Raw m = "turbo").
Proof.
  split; [done|]. assert (∀ n raw : string, NewThinkingLevelRaw n = Some raw → raw = n) as Hraw.
  { intros n raw. simpl. case_decide; [done|]. by intros [= ->]. }
  destruct (rule_apply_exact codexEffortRule "turbo" Hraw) as (_ & _ & H).
  destruct (H ltac:(done) ltac:(done)) as [_ [[E _]|[_ E]]]; [exact E|done].
Defined.

Example history_demo :
  history_of [mkLevel "" ""; mkLevel "low" ""; mkLevel "low" ""; mkLevel "" "x"; mkLevel "low" ""] =
    mkHistory "low" "" [mkLevel "" "x"; mkLevel "low" ""].
Proof. done. Qed.
