(* ===== verification/CodexReplay.v ===== *)
(** * Replay of captured Codex records

    [src/internal/ingest/codex_history_replay.go], with [codex_delivery.go], the
    node keys of [codex_control_records.go] and [codex_unknown.go], and the ref
    registry of [codex_history.go]: the reduction of decoded segments
    ([CodexRecords]) into the graph of captured nodes, with correlations, native
    instruction turns, legacy rollback, surviving checkpoints and completeness.

    A step of the replay maps a state to a state or to the reason it fails; an
    index out of range is the reason [Panicked].  [prepareCodexRecordParsed], which
    separates unknown evidence from a record, is the class [CodexPrepare]. *)
From stdpp Require Import pretty.
From S2P Require Import Prelude GoStrings IndexFormat CodexRecords ThinkingLevel.
From Stdlib Require Import Ascii.

Local Open Scope string_scope.
Local Open Scope list_scope.
Local Open Scope Z_scope.

(** ** Data *)

Record codexItemBody := mkBody {
  ib_Type : string;
  ib_Role : string;
  ib_ID : string;
  ib_CallID : string;
  ib_TurnID : string;
  ib_Name : string;
  ib_Content : string;
  ib_Summary : string;
  ib_SummaryText : string;
  ib_RawContent : string;
  ib_Output : string;
  ib_Arguments : string;
  ib_Input : string;
  ib_Command : string;
  ib_AggregatedOutput : string;
  ib_Stdout : string;
  ib_Changes : string;
  ib_Delivery : codexDelivery;
}.

Definition noBody : codexItemBody :=
  mkBody "" "" "" "" "" "" "" "" "" "" "" "" "" "" "" "" "" noDelivery.

Record codexHistoryReplayPayload := mkPayload {
  pl_Type : string;
  pl_Role : string;
  pl_ID : string;
  pl_ItemID : string;
  pl_CallID : string;
  pl_TurnID : string;
  pl_Name : string;
  pl_Summary : option string;
  pl_NumTurns : option Z;
  pl_Ordinal : option Z;
  pl_Content : string;
  pl_Item : string;
  pl_Delivery : codexDelivery;
  pl_ReplacementHistory : string;
  pl_ReplacementMetadata : string;
}.

Definition noPayload : codexHistoryReplayPayload :=
  mkPayload "" "" "" "" "" "" "" None None None "" "" noDelivery "" "".

Record UnknownPublicPosition := mkPublic { up_SourceRef : string; up_RecordIndex : Z; up_Position : Z }.
Record UnknownSourcePosition := mkPosition {
  us_SourceID : string;
  us_Line : Z;
  us_JSONPointer : string;
  us_Public : option UnknownPublicPosition;
}.

(** [prepareCodexRecordParsed]: the interpretation copy of a record, empty when
    the whole record was retained, and its retained evidence; [None] is an error. *)
Record codexPreparedRecord (RU : Type) := mkPrepared {
  pp_JSON : string;
  pp_Envelope : gmap string string;
  pp_Unknown : list RU;
}.
Arguments mkPrepared {RU}.
Arguments pp_JSON {RU}.
Arguments pp_Envelope {RU}.
Arguments pp_Unknown {RU}.

(** The struct decoding of payloads and items; the second component is the raw
    [delivery], empty when absent.  [RoleSystem] is the schema's constant. *)
Class CodexPrepare := {
  RetainedUnknown : Type;
  prepareCodexRecordParsed : string → UnknownSourcePosition → bool → option (codexPreparedRecord RetainedUnknown);
  decodePayloadFields : string → option (codexHistoryReplayPayload * string);
  decodeBodyFields : string → option (codexItemBody * string);
  decodeNativeIDs : string → option (string * string * string);
  decodeEffortField : string → option string;
  RoleSystem : string;
}.

Section data.
Context `{P : CodexPrepare}.

Record CodexCapturedNode := mkNode {
  cn_RetainedUnknown : list RetainedUnknown;
  cn_NativeKey : string;
  cn_Ref : string;
  cn_SegmentOrdinal : Z;
  cn_Ordinal : Z;
  cn_LineIndex : Z;
  cn_ByteStart : Z;
  cn_ByteEndExclusive : Z;
  cn_EnvelopeType : string;
  cn_TimestampMs : option Z;
  cn_NativeType : string;
  cn_NativeRole : string;
  cn_ItemID : string;
  cn_CallID : string;
  cn_TurnID : string;
  cn_Ownership : CodexOwnership;
  cn_Payload : string;
  cn_Metadata : string;
}.
End data.

Inductive CodexCorrelationKind :=
  | CodexCorrelationPairedResponseEvent
  | CodexCorrelationRepeatedItemCompleted
  | CodexCorrelationSameThreadRollover.

Record CodexCapturedCorrelation := mkCorrelation {
  co_Kind : CodexCorrelationKind;
  co_ItemID : string;
  co_EventOrdinal : option Z;
  co_ResponseOrdinal : option Z;
  co_Refs : list string;
}.

Record CodexCapturedControl := mkControl {
  ct_NodeIndex : Z;
  ct_SegmentOrdinal : Z;
  ct_Ordinal : Z;
  ct_ThinkingLevel : thinkingLevelMapping;
}.

(** Why a replay stops. *)
Inductive replayError :=
  | Panicked
  | RefRefused (key : string)
  | PrepareRefused
  | PayloadRefused
  | AuthorityKindInvalid
  | StableThreadMissing
  | CurrentMissing
  | AuthorityUnresolved.

(** ** The replay state *)

Section state.
Context `{P : CodexPrepare}.

(** [codexReplayState]; the boundary reducer's [pending] map and the registry's
    [byKey] map are fields of their own. *)
Record codexReplayState := mkState {
  registry : gmap string string;
  nodes : list CodexCapturedNode;
  controls : list CodexCapturedControl;
  correlations : list CodexCapturedCorrelation;
  diagnostics : list DiagnosticEntry;
  responseByItem : gmap string Z;
  itemNodeByID : gmap string Z;
  eventOrdinal : gmap string Z;
  seenKeys : gset string;
  openTurns : gmap string Z;
  pending : gmap string bool;
  turns : list (list nat);
  checkpoints : list Z;
  incomplete : bool;
}.

Definition newCodexReplayState (reg : gmap string string) : codexReplayState :=
  mkState reg [] [] [] [] ∅ ∅ ∅ ∅ ∅ ∅ [] [] false.

Definition setRegistry v (s : codexReplayState) := mkState v (nodes s) (controls s) (correlations s) (diagnostics s)
  (responseByItem s) (itemNodeByID s) (eventOrdinal s) (seenKeys s) (openTurns s) (pending s) (turns s)
  (checkpoints s) (incomplete s).
Definition setNodes v (s : codexReplayState) := mkState (registry s) v (controls s) (correlations s) (diagnostics s)
  (responseByItem s) (itemNodeByID s) (eventOrdinal s) (seenKeys s) (openTurns s) (pending s) (turns s)
  (checkpoints s) (incomplete s).
Definition addControl v (s : codexReplayState) := mkState (registry s) (nodes s) (controls s ++ [v])
  (correlations s) (diagnostics s) (responseByItem s) (itemNodeByID s) (eventOrdinal s) (seenKeys s)
  (openTurns s) (pending s) (turns s) (checkpoints s) (incomplete s).
Definition correlate v (s : codexReplayState) := mkState (registry s) (nodes s) (controls s)
  (correlations s ++ [v]) (diagnostics s) (responseByItem s) (itemNodeByID s) (eventOrdinal s) (seenKeys s)
  (openTurns s) (pending s) (turns s) (checkpoints s) (incomplete s).
Definition diagnose v (s : codexReplayState) := mkState (registry s) (nodes s) (controls s) (correlations s)
  (diagnostics s ++ [v]) (responseByItem s) (itemNodeByID s) (eventOrdinal s) (seenKeys s) (openTurns s)
  (pending s) (turns s) (checkpoints s) (incomplete s).
Definition setResponse id i (s : codexReplayState) := mkState (registry s) (nodes s) (controls s) (correlations s)
  (diagnostics s) (<[id := i]> (responseByItem s)) (itemNodeByID s) (eventOrdinal s) (seenKeys s) (openTurns s)
  (pending s) (turns s) (checkpoints s) (incomplete s).
Definition setItem id i (s : codexReplayState) := mkState (registry s) (nodes s) (controls s) (correlations s)
  (diagnostics s) (responseByItem s) (<[id := i]> (itemNodeByID s)) (eventOrdinal s) (seenKeys s) (openTurns s)
  (pending s) (turns s) (checkpoints s) (incomplete s).
Definition setEvents v (s : codexReplayState) := mkState (registry s) (nodes s) (controls s) (correlations s)
  (diagnostics s) (responseByItem s) (itemNodeByID s) v (seenKeys s) (openTurns s) (pending s) (turns s)
  (checkpoints s) (incomplete s).
Definition addSeen k (s : codexReplayState) := mkState (registry s) (nodes s) (controls s) (correlations s)
  (diagnostics s) (responseByItem s) (itemNodeByID s) (eventOrdinal s) ({[k]} ∪ seenKeys s) (openTurns s)
  (pending s) (turns s) (checkpoints s) (incomplete s).
Definition setOpenTurns v (s : codexReplayState) := mkState (registry s) (nodes s) (controls s) (correlations s)
  (diagnostics s) (responseByItem s) (itemNodeByID s) (eventOrdinal s) (seenKeys s) v (pending s) (turns s)
  (checkpoints s) (incomplete s).
Definition setPending v (s : codexReplayState) := mkState (registry s) (nodes s) (controls s) (correlations s)
  (diagnostics s) (responseByItem s) (itemNodeByID s) (eventOrdinal s) (seenKeys s) (openTurns s) v (turns s)
  (checkpoints s) (incomplete s).
Definition setTurns v (s : codexReplayState) := mkState (registry s) (nodes s) (controls s) (correlations s)
  (diagnostics s) (responseByItem s) (itemNodeByID s) (eventOrdinal s) (seenKeys s) (openTurns s) (pending s) v
  (checkpoints s) (incomplete s).
Definition addCheckpoint i (s : codexReplayState) := mkState (registry s) (nodes s) (controls s) (correlations s)
  (diagnostics s) (responseByItem s) (itemNodeByID s) (eventOrdinal s) (seenKeys s) (openTurns s) (pending s)
  (turns s) (checkpoints s ++ [i]) (incomplete s).
Definition setIncomplete (s : codexReplayState) := mkState (registry s) (nodes s) (controls s) (correlations s)
  (diagnostics s) (responseByItem s) (itemNodeByID s) (eventOrdinal s) (seenKeys s) (openTurns s) (pending s)
  (turns s) (checkpoints s) true.

Definition step := result replayError codexReplayState.
End state.

(** ** Native types *)

Definition codexEventSubAgentActivity := "sub_agent_activity".
Definition codexEventPatchApplyEnd := "patch_apply_end".
Definition codexEventThreadSettingsApplied := "thread_settings_applied".
Definition codexEventWebSearchEnd := "web_search_end".

Definition isCodexNativeControlKind (kind : string) : bool :=
  bool_decide (kind ∈ [codexTypeWorldState; codexEventSubAgentActivity; codexEventPatchApplyEnd;
                       codexEventThreadSettingsApplied; codexEventWebSearchEnd]).

Definition codexResponseMessage := "message".

Definition codexNativeResponseTypes : gmap string string := list_to_map
  [("message", "message"); ("agent_message", "message"); ("reasoning", "reasoning");
   ("function_call", "function_call"); ("custom_tool_call", "custom_tool_call");
   ("function_call_output", "function_call_output"); ("custom_tool_call_output", "custom_tool_call_output")].

Definition codexResponseNativeType (payloadType : string) : option string := codexNativeResponseTypes !! payloadType.

Definition codexCanonicalNativeItemTypes : gmap string (string * string) := list_to_map
  [("UserMessage", ("message", "user")); ("AgentMessage", ("message", "assistant"));
   ("Reasoning", ("reasoning", "assistant")); ("FunctionCallOutput", ("function_call_output", "tool"));
   ("CommandExecution", ("command_execution", "assistant")); ("FileChange", ("file_change", "assistant"));
   ("SubAgentActivity", ("sub_agent_activity", "assistant"));
   ("CollabAgentToolCall", ("collab_agent_tool_call", "assistant"));
   ("ContextCompaction", ("context_compaction", "system")); ("Extension", ("extension", "assistant"));
   ("Plan", ("plan", "assistant")); ("HookPrompt", ("hook_prompt", "system"));
   ("WebSearch", ("web_search", "assistant")); ("ImageView", ("image_view", "user"));
   ("ImageGeneration", ("image_generation", "assistant")); ("McpToolCall", ("mcp_tool_call", "assistant"));
   ("DynamicToolCall", ("dynamic_tool_call", "assistant")); ("EnteredReviewMode", ("entered_review_mode", "system"));
   ("ExitedReviewMode", ("exited_review_mode", "system"))].

(** [codexItemNativeType]: the native type and role, when recognized. *)
Definition codexItemNativeType (body : codexItemBody) : option (string * string) :=
  match codexResponseNativeType (ib_Type body) with
  | Some mapped => Some (mapped, ib_Role body)
  | None => codexCanonicalNativeItemTypes !! ib_Type body
  end.

Definition codexItemBodyCarriesPayload (body : codexItemBody) : bool :=
  existsb (λ raw, negb (absent_or_null raw))
    [ib_Content body; ib_Summary body; ib_SummaryText body; ib_RawContent body; ib_Output body; ib_Arguments body;
     ib_Input body; ib_Command body; ib_AggregatedOutput body; ib_Stdout body; ib_Changes body].

Definition codexItemIsAdmission (event : codexHistoryReplayPayload) (body : codexItemBody) (nativeType : string) : bool :=
  bool_decide (nativeType = "message" ∧ ib_Role body = "user")
  || bool_decide (ib_Type body = "UserMessage")
  || isCorrelated (pl_Delivery event) || isCorrelated (ib_Delivery body).

Definition bodyChangedMetadata (metadata : string) : bool := negb (absent_or_null metadata).

(** ** The legacy boundary reducer *)

(** [codexLegacyBoundaryReducer.admit]: whether a turn opens, and the new map. *)
Definition reducerAdmit (pending : gmap string bool) (id : string) : bool * gmap string bool :=
  if decide (id = "") then (true, pending)
  else
    match pending !! id with
    | Some opened => (negb opened, delete id pending)
    | None => (true, <[id := true]> pending)
    end.

Definition admitResponse (pending : gmap string bool) (payload : codexHistoryReplayPayload) : bool * gmap string bool :=
  if decide (pl_Type payload ≠ codexResponseMessage) then (false, pending)
  else if bool_decide (pl_Role payload = "user") || isCorrelated (pl_Delivery payload)
  then reducerAdmit pending (pl_ID payload)
  else (false, pending).

Definition pendUnopened (pending : gmap string bool) (id : string) : gmap string bool :=
  if decide (id = "") then pending
  else match pending !! id with Some _ => pending | None => <[id := false]> pending end.

Definition correlated (pending : gmap string bool) (id : string) : gmap string bool :=
  if decide (id = "") then pending else delete id pending.

(** [appendTurnNode]. *)
Definition appendTurnNode (turns : list (list nat)) (index : nat) : list (list nat) :=
  match last turns with
  | None => turns ++ [[index]]
  | Some turn => take (length turns - 1) turns ++ [turn ++ [index]]
  end.

Definition codexOwnershipIsOwn (o : CodexOwnership) : bool := bool_decide (o = CodexOwnershipOwn).

(** [json.Unmarshal] of the payload and of an item body, with the delivery's own
    decoder. *)
Section decoding.
Context `{J : CodexJson} `{P : CodexPrepare}.

Definition decodeDelivery (raw : string) : option codexDelivery :=
  if decide (raw = "") then Some noDelivery else codexDelivery_UnmarshalJSON raw.

Definition decodePayload (raw : string) : option codexHistoryReplayPayload :=
  '(p, delivery) ← decodePayloadFields raw;
  d ← decodeDelivery delivery;
  Some (mkPayload (pl_Type p) (pl_Role p) (pl_ID p) (pl_ItemID p) (pl_CallID p) (pl_TurnID p) (pl_Name p)
    (pl_Summary p) (pl_NumTurns p) (pl_Ordinal p) (pl_Content p) (pl_Item p) d (pl_ReplacementHistory p)
    (pl_ReplacementMetadata p)).

Definition decodeBody (raw : string) : option codexItemBody :=
  '(b, delivery) ← decodeBodyFields raw;
  d ← decodeDelivery delivery;
  Some (mkBody (ib_Type b) (ib_Role b) (ib_ID b) (ib_CallID b) (ib_TurnID b) (ib_Name b) (ib_Content b)
    (ib_Summary b) (ib_SummaryText b) (ib_RawContent b) (ib_Output b) (ib_Arguments b) (ib_Input b)
    (ib_Command b) (ib_AggregatedOutput b) (ib_Stdout b) (ib_Changes b) d).

(** [codexDecodeItemBody]: the body, whether one is present, whether it is malformed. *)
Definition codexDecodeItemBody (raw : string) : codexItemBody * bool * bool :=
  if absent_or_null raw then (noBody, false, false)
  else
    match decodeBody (TrimSpace raw) with
    | None => (noBody, true, true)
    | Some body => if decide (ib_Type body = "") then (noBody, true, true) else (body, true, false)
    end.

(** [codexArrayState]: length, present, malformed. *)
Definition codexArrayState (raw : string) : nat * bool * bool :=
  if absent_or_null raw then (0%nat, false, false)
  else match Array_Unmarshal (TrimSpace raw) with
       | None => (0%nat, true, true)
       | Some values => (length values, true, false)
       end.

Definition codexReplacementHistoryAligned (payload : codexHistoryReplayPayload) : bool :=
  let '(historyLen, historyPresent, historyMalformed) := codexArrayState (pl_ReplacementHistory payload) in
  let '(metadataLen, metadataPresent, metadataMalformed) := codexArrayState (pl_ReplacementMetadata payload) in
  if historyMalformed || metadataMalformed then false
  else if negb historyPresent && negb metadataPresent then true
  else if historyPresent && negb metadataPresent then true
  else if negb historyPresent && metadataPresent then false
  else bool_decide (historyLen = metadataLen).

(** [strings.EqualFold] of a key and a lower-case ASCII word: the letters fold, and
    the two non-ASCII runes whose simple folding is an ASCII letter. *)
Definition lower_ascii (c : ascii) : ascii :=
  if between 65 90 c then ascii_of_N (N_of_ascii c + 32) else c.
Fixpoint fold_word (s : string) : string :=
  match s with
  | String "197" (String "191" s) => String "s" (fold_word s)
  | String "226" (String "132" (String "170" s)) => String "k" (fold_word s)
  | String c s => String (lower_ascii c) (fold_word s)
  | EmptyString => EmptyString
  end.
Definition folds_to (key word : string) : bool := bool_decide (key ≠ word) && bool_decide (fold_word key = word).

(** [codexPreparedRecord.replayPayload]: [None] is an error. *)
Definition replayPayload (prepared : codexPreparedRecord RetainedUnknown) : option string :=
  if existsb (λ '(key, _), folds_to key "payload" || folds_to key "type" || folds_to key "timestamp")
       (map_to_list (pp_Envelope prepared))
  then en_Payload <$> decodeEnvelope (pp_JSON prepared)
  else
    match pp_Envelope prepared !! "timestamp" with
    | Some raw => _ ← decodeString raw; Some (default "" (pp_Envelope prepared !! "payload"))
    | None => Some (default "" (pp_Envelope prepared !! "payload"))
    end.
End decoding.

(** [record.Payload = payload]. *)
Definition setPayload (payload : string) (r : codexHistoryRecord) : codexHistoryRecord :=
  mkRecord (cr_RawJSON r) (cr_TraversalPosition r) (cr_LineIndex r) (cr_Ordinal r) (cr_HasOrdinal r)
    (cr_Regressed r) (cr_Blank r) (cr_ByteStart r) (cr_ByteEndExclusive r) (cr_EnvelopeType r)
    (cr_TimestampMs r) payload (cr_Metadata r) (cr_Partial r) (cr_Malformed r).

Definition codexRecordLocation (threadID : string) (r : codexHistoryRecord) : string :=
  if cr_HasOrdinal r
  then "thread " +:+ threadID +:+ " decoded ordinal " +:+ pretty (cr_Ordinal r) +:+ " (line " +:+ pretty (cr_LineIndex r) +:+ ")"
  else "thread " +:+ threadID +:+ " line " +:+ pretty (cr_LineIndex r).

Definition nul : string := str1 "000"%char.

Section replay.
Context `{J : CodexJson} `{P : CodexPrepare} `{SL : SchemaLib} `{T : ThinkingLib}.
(** [CodexRefRegistry.allocate]. *)
Variable allocate : nat → string.
Variable threadID : string.

Definition codexPublicPosition (stream : string) (line position : Z) : UnknownPublicPosition :=
  mkPublic ("src_" +:+ Sum256_Hex ("codex" +:+ nul +:+ stream)) (line - 1) position.

Definition codexNativeUnknownPosition (segment : codexDecodedSegment) (record : codexHistoryRecord) : UnknownSourcePosition :=
  let d := sg_descriptor segment in
  let stream := if decide (rf_PhysicalSourceID d = "") then rf_Pointer d else rf_PhysicalSourceID d in
  let line := cr_LineIndex record + 1 in
  mkPosition (rf_PhysicalSourceID d) line "" (Some (codexPublicPosition (threadID +:+ nul +:+ stream) line (cr_TraversalPosition record))).

(** [codexNativeKey]: the item key of the first native id, else the position key. *)
Definition positionKey (segment : codexDecodedSegment) (record : codexHistoryRecord) (nativeType : string) : string :=
  "codex|" +:+ threadID +:+ "|pos|" +:+ rf_PhysicalSourceID (sg_descriptor segment) +:+ "|" +:+
  pretty (cr_ByteStart record) +:+ "|" +:+ nativeType.

Definition codexNativeKey (segment : codexDecodedSegment) (record : codexHistoryRecord) (nativeType : string) : string :=
  if isCodexNativeControlKind nativeType then positionKey segment record nativeType
  else if decide (cr_Payload record = "") then positionKey segment record nativeType
  else
    match decodeNativeIDs (cr_Payload record) with
    | None => positionKey segment record nativeType
    | Some (id, itemID, nested) =>
        let itemID := if decide (id = "") then (if decide (itemID = "") then nested else itemID) else id in
        if decide (itemID = "") then positionKey segment record nativeType
        else "codex|" +:+ threadID +:+ "|item|" +:+ itemID +:+ "|" +:+ nativeType
    end.

Definition opaqueKey (segment : codexDecodedSegment) (record : codexHistoryRecord) : string :=
  "codex|" +:+ threadID +:+ "|opaque|" +:+ rf_PhysicalSourceID (sg_descriptor segment) +:+ "|" +:+
  pretty (cr_ByteStart record).

(** [CodexRefRegistry.RefFor]: the ref, and the registry. *)
Definition RefFor (reg : gmap string string) (nativeKey : string) : result replayError (string * gmap string string) :=
  match reg !! nativeKey with
  | Some ref => Ok (ref, reg)
  | None =>
      let ref := allocate (size reg) in
      require bool_decide (ref ≠ "") else RefRefused nativeKey in
      require SourceEntryRef_Validate ref else RefRefused nativeKey in
      Ok (ref, <[nativeKey := ref]> reg)
  end.

(** [state.nodes[index]]; -1 and any index past the end panic. *)
Definition nodeAt (st : codexReplayState) (index : Z) : result replayError CodexCapturedNode :=
  if decide (index < 0) then Err Panicked
  else match nodes st !! Z.to_nat index with Some n => Ok n | None => Err Panicked end.

Definition nodeIndexForRef (st : codexReplayState) (ref : string) : Z :=
  match list_find (λ n, cn_Ref n = ref) (nodes st) with Some (i, _) => Z.of_nat i | None => -1 end.

(** [emitNode]: the index of the node, and whether it was seen before. *)
Definition emitNode (st : codexReplayState) (segment : codexDecodedSegment) (record : codexHistoryRecord)
    (ownership : CodexOwnership) (nativeType role itemID callID turnID : string) :
    result replayError (Z * bool * codexReplayState) :=
  let key := codexNativeKey segment record nativeType in
  if decide (key ∈ seenKeys st) then
    let? out := RefFor (registry st) key in
    let '(ref, reg) := out in
    let st := correlate (mkCorrelation CodexCorrelationSameThreadRollover itemID None None [ref]) (setRegistry reg st) in
    Ok (nodeIndexForRef st ref, true, st)
  else
    let? out := RefFor (registry st) key in
    let '(ref, reg) := out in
    let st := addSeen key (setRegistry reg st) in
    let node := mkNode [] key ref (sg_ordinal segment) (cr_Ordinal record) (cr_LineIndex record)
      (cr_ByteStart record) (cr_ByteEndExclusive record) (cr_EnvelopeType record) (cr_TimestampMs record)
      nativeType role itemID callID turnID ownership (cr_Payload record) (cr_Metadata record) in
    let st := setNodes (nodes st ++ [node]) st in
    let index := (length (nodes st) - 1)%nat in
    let st := if codexOwnershipIsOwn ownership && negb (isCodexNativeControlKind nativeType)
              then setTurns (appendTurnNode (turns st) index) st else st in
    Ok (Z.of_nat index, false, st).

(** [emitNode] where the caller drops the index. *)
Definition emit (st : codexReplayState) (segment : codexDecodedSegment) (record : codexHistoryRecord)
    (ownership : CodexOwnership) (nativeType role itemID callID turnID : string) : step :=
  let? out := emitNode st segment record ownership nativeType role itemID callID turnID in Ok out.2.

Definition emitUnknown (st : codexReplayState) (segment : codexDecodedSegment) (record : codexHistoryRecord)
    (ownership : CodexOwnership) (evidence : list RetainedUnknown) : step :=
  match evidence with
  | [] => Ok st
  | _ :: _ =>
      let key := opaqueKey segment record in
      if decide (key ∈ seenKeys st) then Ok st
      else
        let? out := RefFor (registry st) key in
        let '(ref, reg) := out in
        let st := addSeen key (setRegistry reg st) in
        let ordinal := if cr_HasOrdinal record then cr_Ordinal record else -1 in
        let node := mkNode evidence key ref (sg_ordinal segment) ordinal (cr_LineIndex record)
          (cr_ByteStart record) (cr_ByteEndExclusive record) (cr_EnvelopeType record) None "" "" "" "" "" ownership "" "" in
        let st := setNodes (nodes st ++ [node]) st in
        Ok (if codexOwnershipIsOwn ownership then setTurns (appendTurnNode (turns st) (length (nodes st) - 1)) st else st)
  end.

(** *** Turn contexts and compactions *)

Definition replayTurnContext (st : codexReplayState) (segment : codexDecodedSegment) (record : codexHistoryRecord) :
    codexReplayState :=
  let effort :=
    if decide (cr_Payload record = "") then ""
    else default "" (raw ← decodeEffortField (cr_Payload record); decodeString raw) in
  let '(mapping, diagnostic) := mapCodexEffort effort in
  let st := match diagnostic with
            | Some _ => diagnose (mkDiagnostic "thinking_level_raw_dropped" (codexRecordLocation threadID record)) st
            | None => st
            end in
  addControl (mkControl (Z.of_nat (length (nodes st))) (sg_ordinal segment) (cr_Ordinal record) mapping) st.

Definition replayCompaction (st : codexReplayState) (segment : codexDecodedSegment) (record : codexHistoryRecord)
    (payload : codexHistoryReplayPayload) (ownership : CodexOwnership) : step :=
  let st := if codexReplacementHistoryAligned payload then st
            else diagnose (mkDiagnostic "codex_checkpoint_metadata_misaligned" (codexRecordLocation threadID record))
                   (setIncomplete st) in
  if bool_decide (default "" (pl_Summary payload) = "") then Ok st
  else
    let? out := emitNode st segment record ownership "compacted_summary" "system" "" "" "" in
    let '(index, _, st) := out in
    Ok (addCheckpoint index st).

(** *** Responses *)

(** The correlation of two records of one item, through the node that owns it. *)
Definition correlateNode (kind : CodexCorrelationKind) (itemID : string) (event response : option Z)
    (node : CodexCapturedNode) : codexReplayState → codexReplayState :=
  correlate (mkCorrelation kind itemID event response [cn_Ref node]).

(** [state.boundary.correlated(id); delete(state.eventOrdinal, id)]. *)
Definition settleItem (id : string) (st : codexReplayState) : codexReplayState :=
  setEvents (delete id (eventOrdinal st)) (setPending (correlated (pending st) id) st).

Definition openTurn (opens : bool) (pending : gmap string bool) (st : codexReplayState) : codexReplayState :=
  let st := setPending pending st in
  if opens then setTurns (turns st ++ [[]]) st else st.

Definition legacyOwn (mode : CodexHistoryMode) (ownership : CodexOwnership) : bool :=
  bool_decide (mode = CodexHistoryModeLegacy) && bool_decide (ownership = CodexOwnershipOwn).

(** The pairing of a new node with the event marker that waited for it. *)
Definition pairEvent (st : codexReplayState) (id : string) (index : Z) (record : codexHistoryRecord) : step :=
  match eventOrdinal st !! id with
  | None => Ok st
  | Some event =>
      let? node := nodeAt st index in
      Ok (settleItem id (correlateNode CodexCorrelationPairedResponseEvent id (Some event) (Some (cr_Ordinal record)) node st))
  end.

Definition replayResponseItem (st : codexReplayState) (segment : codexDecodedSegment) (record : codexHistoryRecord)
    (payload : codexHistoryReplayPayload) (ownership : CodexOwnership) (mode : CodexHistoryMode) : step :=
  match codexResponseNativeType (pl_Type payload) with
  | None => Ok st
  | Some nativeType =>
      let st := if legacyOwn mode ownership
                then let '(opens, p) := admitResponse (pending st) payload in openTurn opens p st
                else st in
      let id := pl_ID payload in
      if decide (id = "") then
        emit st segment record ownership nativeType (pl_Role payload) "" (pl_CallID payload) (pl_TurnID payload)
      else
        match itemNodeByID st !! id with
        | Some index =>
            let st := setResponse id index st in
            let? node := nodeAt st index in
            if decide (cn_SegmentOrdinal node ≠ sg_ordinal segment) then
              Ok (correlateNode CodexCorrelationSameThreadRollover id None None node st)
            else
              Ok (settleItem id (correlateNode CodexCorrelationPairedResponseEvent id (Some (cn_Ordinal node))
                (Some (cr_Ordinal record)) node st))
        | None =>
            match responseByItem st !! id with
            | Some existing =>
                let? node := nodeAt st existing in
                Ok (correlateNode CodexCorrelationRepeatedItemCompleted id (Some (cn_Ordinal node))
                  (Some (cr_Ordinal record)) node st)
            | None =>
                let? out := emitNode st segment record ownership nativeType (pl_Role payload) id (pl_CallID payload)
                  (pl_TurnID payload) in
                let '(index, _, st) := out in
                pairEvent (setItem id index (setResponse id index st)) id index record
            end
        end
  end.

(** *** Event messages *)

Definition replayItemStarted (st : codexReplayState) (payload : codexHistoryReplayPayload) : codexReplayState :=
  if decide (pl_ID payload = "") then st else setPending (pendUnopened (pending st) (pl_ID payload)) st.

Definition replayTurnOpened (st : codexReplayState) (record : codexHistoryRecord) (payload : codexHistoryReplayPayload) :
    codexReplayState :=
  if decide (pl_TurnID payload = "") then st
  else setOpenTurns (<[pl_TurnID payload := cr_Ordinal record]> (openTurns st)) st.

Definition replayTurnCompleted (st : codexReplayState) (record : codexHistoryRecord)
    (payload : codexHistoryReplayPayload) : codexReplayState :=
  if decide (pl_TurnID payload = "") then st
  else
    match openTurns st !! pl_TurnID payload with
    | Some _ => setOpenTurns (delete (pl_TurnID payload) (openTurns st)) st
    | None => diagnose (mkDiagnostic "codex_lifecycle_unbalanced" (codexRecordLocation threadID record)) st
    end.

Definition replayTurnAborted (st : codexReplayState) (record : codexHistoryRecord)
    (payload : codexHistoryReplayPayload) : codexReplayState :=
  let st := if decide (pl_TurnID payload = "") then st
            else setOpenTurns (delete (pl_TurnID payload) (openTurns st)) st in
  diagnose (mkDiagnostic "codex_turn_aborted" (codexRecordLocation threadID record)) st.

Definition setOwnership (o : CodexOwnership) (n : CodexCapturedNode) : CodexCapturedNode :=
  mkNode (cn_RetainedUnknown n) (cn_NativeKey n) (cn_Ref n) (cn_SegmentOrdinal n) (cn_Ordinal n) (cn_LineIndex n)
    (cn_ByteStart n) (cn_ByteEndExclusive n) (cn_EnvelopeType n) (cn_TimestampMs n) (cn_NativeType n)
    (cn_NativeRole n) (cn_ItemID n) (cn_CallID n) (cn_TurnID n) o (cn_Payload n) (cn_Metadata n).

(** [state.nodes[index].Ownership = CodexOwnershipReverted] over a list of indices. *)
Fixpoint revert (ns : list CodexCapturedNode) (indices : list nat) : option (list CodexCapturedNode) :=
  match indices with
  | [] => Some ns
  | i :: indices =>
      n ← ns !! i;
      revert (<[i := setOwnership CodexOwnershipReverted n]> ns) indices
  end.

Definition replayThreadRolledBack (st : codexReplayState) (record : codexHistoryRecord)
    (payload : codexHistoryReplayPayload) (mode : CodexHistoryMode) : step :=
  if decide (mode ≠ CodexHistoryModeLegacy) then
    Ok (diagnose (mkDiagnostic "codex_paginated_rollback_anomaly" (codexRecordLocation threadID record)) st)
  else
    match pl_NumTurns payload with
    | None => Ok st
    | Some n =>
        if decide (n ≤ 0) then Ok st
        else
          let count := Z.of_nat (length (turns st)) in
          let '(st, k) :=
            if decide (n > count)
            then (diagnose (mkDiagnostic "codex_rollback_beyond_history" (codexRecordLocation threadID record)) st, count)
            else (st, n) in
          let keep := Z.to_nat (count - k) in
          match revert (nodes st) (concat (drop keep (turns st))) with
          | None => Err Panicked
          | Some ns => Ok (setTurns (take keep (turns st)) (setNodes ns st))
          end
    end.

(** The identity of a completed item: of the body, else of the event. *)
Definition eventItemID (event : codexHistoryReplayPayload) (body : codexItemBody) : string :=
  if decide (ib_ID body = "") then (if decide (pl_ID event = "") then pl_ItemID event else pl_ID event) else ib_ID body.

(** A repeated completion replaces the state of the item and keeps its identity. *)
Definition replaceNode (n : CodexCapturedNode) (segment : codexDecodedSegment) (record : codexHistoryRecord)
    (nativeType role callID turnID : string) : CodexCapturedNode :=
  mkNode (cn_RetainedUnknown n) (cn_NativeKey n) (cn_Ref n) (sg_ordinal segment) (cr_Ordinal record)
    (cr_LineIndex record) (cr_ByteStart record) (cr_ByteEndExclusive record) (cr_EnvelopeType record)
    (cr_TimestampMs record) nativeType role (cn_ItemID n) callID turnID (cn_Ownership n) (cr_Payload record)
    (if bodyChangedMetadata (cr_Metadata record) then cr_Metadata record else cn_Metadata n).

Definition applyItemBody (st : codexReplayState) (segment : codexDecodedSegment) (record : codexHistoryRecord)
    (event : codexHistoryReplayPayload) (body : codexItemBody) (nativeType role : string)
    (ownership : CodexOwnership) (mode : CodexHistoryMode) : step :=
  let itemID := eventItemID event body in
  let callID := ib_CallID body in
  let turnID := if decide (ib_TurnID body = "") then pl_TurnID event else ib_TurnID body in
  match itemNodeByID st !! itemID with
  | Some index =>
      let? node := nodeAt st index in
      let crossSegment := bool_decide (cn_SegmentOrdinal node ≠ sg_ordinal segment) in
      let node := replaceNode node segment record nativeType role callID turnID in
      let st := setNodes (<[Z.to_nat index := node]> (nodes st)) st in
      let kind := if crossSegment then CodexCorrelationSameThreadRollover else CodexCorrelationRepeatedItemCompleted in
      let st := correlateNode kind itemID (Some (cr_Ordinal record)) (Some (cn_Ordinal node)) node st in
      Ok (setPending (correlated (pending st) itemID) st)
  | None =>
      let st := if legacyOwn mode ownership && codexItemIsAdmission event body nativeType
                then let '(opens, p) := reducerAdmit (pending st) itemID in openTurn opens p st
                else st in
      let? out := emitNode st segment record ownership nativeType role itemID callID turnID in
      let '(index, _, st) := out in
      pairEvent (setItem itemID index st) itemID index record
  end.

(** The completion marker: what [replayItemCompleted] does when no body is applied. *)
Definition replayMarker (st : codexReplayState) (record : codexHistoryRecord) (payload : codexHistoryReplayPayload)
    (itemID : string) (ownership : CodexOwnership) (mode : CodexHistoryMode) : step :=
  if decide (itemID = "") then Ok st
  else
    let st := setEvents (<[itemID := cr_Ordinal record]> (eventOrdinal st)) st in
    match itemNodeByID st !! itemID with
    | Some index =>
        let? node := nodeAt st index in
        Ok (correlateNode CodexCorrelationRepeatedItemCompleted itemID (Some (cr_Ordinal record))
          (Some (cn_Ordinal node)) node st)
    | None =>
        if isCorrelated (pl_Delivery payload) then
          Ok (if legacyOwn mode ownership
              then let '(opens, p) := reducerAdmit (pending st) itemID in openTurn opens p st
              else st)
        else Ok (setPending (pendUnopened (pending st) itemID) st)
    end.

Definition replayItemCompleted (st : codexReplayState) (segment : codexDecodedSegment) (record : codexHistoryRecord)
    (payload : codexHistoryReplayPayload) (ownership : CodexOwnership) (mode : CodexHistoryMode) : step :=
  let '(body, hasBody, bodyMalformed) := codexDecodeItemBody (pl_Item payload) in
  let st := if bodyMalformed
            then diagnose (mkDiagnostic "codex_item_body_malformed"
                   ("decoded ordinal " +:+ pretty (cr_Ordinal record) +:+ " (source line " +:+
                    pretty (cr_LineIndex record + 1) +:+ ")")) st
            else st in
  let itemID := eventItemID payload body in
  if hasBody && negb bodyMalformed then
    match codexItemNativeType body with
    | Some (nativeType, role) =>
        if decide (itemID = "") then replayMarker st record payload itemID ownership mode
        else applyItemBody st segment record payload body nativeType role ownership mode
    | None =>
        let st := if codexItemBodyCarriesPayload body
                  then diagnose (mkDiagnostic "codex_item_variant_unknown" (codexRecordLocation threadID record)) st
                  else st in
        replayMarker st record payload itemID ownership mode
    end
  else replayMarker st record payload itemID ownership mode.

(** [replayEventMessage] through [codexNativeEventDispatch]. *)
Inductive nativeEvent :=
  | MirroredEvent | ItemStarted | ItemCompleted | TurnOpened | TurnCompleted | ThreadRolledBack | TurnAborted
  | ControlEvent.

Definition codexNativeEventDispatch : gmap string nativeEvent := list_to_map
  [("token_count", MirroredEvent); ("user_message", MirroredEvent); ("agent_message", MirroredEvent);
   ("agent_reasoning", MirroredEvent); ("item_started", ItemStarted); ("item_completed", ItemCompleted);
   ("turn_started", TurnOpened); ("task_started", TurnOpened); ("turn_complete", TurnCompleted);
   ("task_complete", TurnCompleted); ("thread_rolled_back", ThreadRolledBack); ("turn_aborted", TurnAborted);
   (codexEventSubAgentActivity, ControlEvent); (codexEventPatchApplyEnd, ControlEvent);
   (codexEventThreadSettingsApplied, ControlEvent); (codexEventWebSearchEnd, ControlEvent)].

Definition replayEventMessage (st : codexReplayState) (segment : codexDecodedSegment) (record : codexHistoryRecord)
    (payload : codexHistoryReplayPayload) (ownership : CodexOwnership) (mode : CodexHistoryMode) : step :=
  match codexNativeEventDispatch !! pl_Type payload with
  | None | Some MirroredEvent => Ok st
  | Some ItemStarted => Ok (replayItemStarted st payload)
  | Some ItemCompleted => replayItemCompleted st segment record payload ownership mode
  | Some TurnOpened => Ok (replayTurnOpened st record payload)
  | Some TurnCompleted => Ok (replayTurnCompleted st record payload)
  | Some ThreadRolledBack => replayThreadRolledBack st record payload mode
  | Some TurnAborted => Ok (replayTurnAborted st record payload)
  | Some ControlEvent => emit st segment record ownership (pl_Type payload) RoleSystem "" "" ""
  end.

(** *** Records and segments *)

(** The payload the dispatch reads; a response drops its summary first. *)
Definition dispatchPayload (record : codexHistoryRecord) : result replayError (option codexHistoryReplayPayload) :=
  if decide (cr_Payload record = "") then Ok (Some noPayload)
  else if decide (cr_EnvelopeType record = codexTypeResponse) then
    match Object_Unmarshal (cr_Payload record) with
    | None => Err PayloadRefused
    | Some fields =>
        match Object_Marshal (delete "summary" fields) with
        | None => Err PayloadRefused
        | Some raw => Ok (decodePayload raw)
        end
    end
  else Ok (decodePayload (cr_Payload record)).

(** The [switch] on the envelope type. *)
Definition dispatchRecord (st : codexReplayState) (segment : codexDecodedSegment) (record : codexHistoryRecord)
    (payload : codexHistoryReplayPayload) (ownership : CodexOwnership) (mode : CodexHistoryMode) : step :=
  let type := cr_EnvelopeType record in
  if decide (type = codexTypeSessionMeta) then Ok st
  else if decide (type = codexTypeTurnContext) then Ok (replayTurnContext st segment record)
  else if decide (type = codexTypeResponse) then replayResponseItem st segment record payload ownership mode
  else if decide (type = codexTypeEventMsg) then replayEventMessage st segment record payload ownership mode
  else if decide (type = codexTypeCompacted) then replayCompaction st segment record payload ownership
  else if decide (type = codexTypeWorldState) then
    emit st segment record ownership codexTypeWorldState RoleSystem "" "" ""
  else Ok st.

Definition replayRecord (st : codexReplayState) (segment : codexDecodedSegment) (record : codexHistoryRecord)
    (ownership : CodexOwnership) (mode : CodexHistoryMode) : step :=
  match prepareCodexRecordParsed (cr_RawJSON record) (codexNativeUnknownPosition segment record) true with
  | None => Err PrepareRefused
  | Some prepared =>
      if decide (pp_JSON prepared = "") then emitUnknown st segment record ownership (pp_Unknown prepared)
      else
        match replayPayload prepared with
        | None => Err PayloadRefused
        | Some raw =>
            let record := setPayload raw record in
            let? payload := dispatchPayload record in
            let? st := match payload with
                       | None => Ok (diagnose (mkDiagnostic "codex_record_malformed" (codexRecordLocation threadID record)) st)
                       | Some payload => dispatchRecord st segment record payload ownership mode
                       end in
            emitUnknown st segment record ownership (pp_Unknown prepared)
        end
  end.

(** One round of the loop of [replaySegment]. *)
Definition replayOne (segment : codexDecodedSegment) (clampEnd : option Z) (mode : CodexHistoryMode)
    (st : codexReplayState) (record : codexHistoryRecord) : step :=
  if cr_Partial record || cr_Blank record then Ok st
  else if cr_Malformed record then
    Ok (diagnose (mkDiagnostic "codex_record_malformed" (codexRecordLocation threadID record)) st)
  else if cr_Regressed record then
    Ok (diagnose (mkDiagnostic "codex_ordinal_regression" (codexRecordLocation threadID record)) st)
  else if negb (cr_HasOrdinal record) then
    if negb (codexUnknownInBounds segment record) then Ok st
    else
      match prepareCodexRecordParsed (cr_RawJSON record) (codexNativeUnknownPosition segment record) true with
      | None => Err PrepareRefused
      | Some prepared => emitUnknown st segment record (codexUnknownOwnership segment record) (pp_Unknown prepared)
      end
  else if negb (codexRecordInBounds segment record clampEnd) then Ok st
  else
    let ownership := codexSegmentOwnership segment (cr_Ordinal record) in
    if decide (ownership = CodexOwnershipReverted) then Ok st
    else replayRecord st segment record ownership mode.

Definition replaySegment (st : codexReplayState) (segment : codexDecodedSegment) (mode : CodexHistoryMode) : step :=
  if sg_readFailed segment || bool_decide (rf_Inclusion (sg_descriptor segment) = SegmentInclusionExcludedReverted)
  then Ok st
  else
    let checkpoint := decodedCheckpoint segment in
    if sg_proofFailed segment && negb (cp_hasValid checkpoint) then Ok st
    else
      let clampEnd := if sg_proofFailed segment then Some (i64 (cp_maxOrdinal checkpoint + 1)) else None in
      res_fold (λ _ st record, replayOne segment clampEnd mode st record) 0 st (sg_records segment).

Definition replaySegments (st : codexReplayState) (decoded : list codexDecodedSegment) (mode : CodexHistoryMode) : step :=
  res_fold (λ _ st segment, replaySegment st segment mode) 0 st decoded.
End replay.

(** ** The capture *)

Section capture.
Context `{J : CodexJson} `{P : CodexPrepare} `{SL : SchemaLib} `{T : ThinkingLib}.

Record CodexCapturedRecord := mkCapturedRecord {
  kr_DecodedOrdinal : option Z;
  kr_LineIndex : Z;
  kr_ByteStart : Z;
  kr_ByteEndExclusive : Z;
  kr_EnvelopeType : string;
  kr_Payload : string;
  kr_Metadata : string;
  kr_Partial : bool;
  kr_Malformed : bool;
}.

Record CodexCapturedSegment := mkCapturedSegment {
  ks_Ordinal : Z;
  ks_Descriptor : CodexReference;
  ks_Data : string;
  ks_Records : list CodexCapturedRecord;
}.

Record CodexCapturedHistory := mkHistoryCapture {
  h_StableThreadID : string;
  h_AuthorityKind : string;
  h_Pointer : string;
  h_PhysicalSourceID : string;
  h_Mode : CodexHistoryMode;
  h_Completeness : string;
  h_Nodes : list CodexCapturedNode;
  h_Segments : list ContextSegment;
  h_CapturedSegments : list CodexCapturedSegment;
  h_Correlations : list CodexCapturedCorrelation;
  h_MainRefs : list string;
  h_InheritedRefs : list string;
  h_EarlierRefs : list string;
  h_RevertedRefs : list string;
  h_CheckpointRefs : list string;
  h_RawBytes : string;
  h_Fingerprint : string;
  h_Diagnostics : list DiagnosticEntry;
  h_Controls : list CodexCapturedControl;
}.

(** [buildCodexSegments] and [buildCodexCapturedSegments]. *)
Definition buildCodexSegments (decoded : list codexDecodedSegment) (ns : list CodexCapturedNode) : list ContextSegment :=
  (λ s, mkSegment (sg_ordinal s) (rf_LogicalSessionID (sg_descriptor s)) (rf_PhysicalSourceID (sg_descriptor s))
          (rf_Coordinates (sg_descriptor s)) (effectiveInclusion s)
          (cn_Ref <$> filter (λ n, cn_SegmentOrdinal n = sg_ordinal s) ns)) <$> decoded.

Definition capturedRecord (r : codexHistoryRecord) : CodexCapturedRecord :=
  mkCapturedRecord (if cr_HasOrdinal r then Some (cr_Ordinal r) else None) (cr_LineIndex r) (cr_ByteStart r)
    (cr_ByteEndExclusive r) (cr_EnvelopeType r) (cr_Payload r) (cr_Metadata r) (cr_Partial r) (cr_Malformed r).

Definition buildCodexCapturedSegments (decoded : list codexDecodedSegment) : list CodexCapturedSegment :=
  (λ s, mkCapturedSegment (sg_ordinal s) (sg_descriptor s) (boundedData s) (capturedRecord <$> sg_records s)) <$> decoded.

Definition codexRefsForOwnership (ns : list CodexCapturedNode) (o : CodexOwnership) : list string :=
  cn_Ref <$> filter (λ n, cn_Ownership n = o) ns.

(** [checkpointRefs]: an index out of range panics. *)
Fixpoint checkpointRefs (st : codexReplayState) (indices : list Z) : result replayError (list string) :=
  match indices with
  | [] => Ok []
  | i :: indices =>
      let? node := nodeAt st i in
      let? refs := checkpointRefs st indices in
      Ok (if bool_decide (cn_Ownership node = CodexOwnershipOwn ∧ cn_NativeType node = "compacted_summary")
          then cn_Ref node :: refs else refs)
  end.

(** *** Resolving the references *)

(** The ambient I/O of a capture: [source.ReadCodexSource]. *)
Variable ReadCodexSource : string → option string.

Definition setInclusion (inclusion : string) (r : CodexReference) : CodexReference :=
  mkReference (rf_LogicalSessionID r) (rf_Pointer r) (rf_PhysicalSourceID r) (rf_Mode r) (rf_HistoryKind r)
    (rf_ThroughCompleted r) (rf_Coordinates r) inclusion (rf_CopyBoundary r) (rf_OriginalOwnershipProven r).
Definition setCoordinates (c : SegmentCoordinates) (r : CodexReference) : CodexReference :=
  mkReference (rf_LogicalSessionID r) (rf_Pointer r) (rf_PhysicalSourceID r) (rf_Mode r) (rf_HistoryKind r)
    (rf_ThroughCompleted r) c (rf_Inclusion r) (rf_CopyBoundary r) (rf_OriginalOwnershipProven r).

(** A dependency whose bytes are not used. *)
Definition failedReference (index : Z) (ref : CodexReference) : codexDecodedSegment :=
  mkDecoded (setInclusion SegmentInclusionInvalidIncomplete ref) false index "" [] true false.

(** One round of the loop over the references: the pointers seen, the segment and
    its diagnostics. *)
Definition decodeReference (a : CodexSourceAuthority) (mode : CodexHistoryMode) (seenPointers : gset string)
    (index : Z) (ref : CodexReference) : gset string * codexDecodedSegment * list DiagnosticEntry :=
  let location := codexReferenceLocation (au_StableThreadID a) index in
  if decide (rf_Pointer ref ∈ seenPointers) then
    (seenPointers, failedReference index ref, [mkDiagnostic "codex_reference_cycle" location])
  else
    let seenPointers := {[rf_Pointer ref]} ∪ seenPointers in
    if negb (codexReferenceBoundsValid ref) then
      (seenPointers, failedReference index ref, [mkDiagnostic "codex_reference_bounds_invalid" location])
    else
      match ReadCodexSource (rf_Pointer ref) with
      | None => (seenPointers, failedReference index ref, [mkDiagnostic "codex_reference_unavailable" location])
      | Some data =>
          let records := parseCodexHistoryRecords data in
          let descriptor := setCoordinates (codexRangeCoordinates records (rf_Coordinates ref)) ref in
          let segment := mkDecoded descriptor false index data records false false in
          match codexProveReference segment mode (au_StableThreadID a) index with
          | None => (seenPointers, segment, [])
          | Some proof => (seenPointers, mkDecoded descriptor false index data records false true, [proof])
          end
      end.

Fixpoint decodeReferences (a : CodexSourceAuthority) (mode : CodexHistoryMode) (seenPointers : gset string)
    (index : Z) (refs : list CodexReference) : list codexDecodedSegment * list DiagnosticEntry :=
  match refs with
  | [] => ([], [])
  | ref :: refs =>
      let '(seenPointers, segment, ds) := decodeReference a mode seenPointers index ref in
      let '(segments, ds') := decodeReferences a mode seenPointers (index + 1) refs in
      (segment :: segments, ds ++ ds')
  end.

Definition currentSegment (a : CodexSourceAuthority) (mode : CodexHistoryMode) (ordinal : Z) (data : string) :
    codexDecodedSegment :=
  let records := parseCodexHistoryRecords data in
  mkDecoded
    (mkReference None (au_CurrentPointer a) (au_PhysicalSourceID a) (CodexHistoryMode_String mode) "" false
      (codexRangeCoordinates records (mkCoordinates CoordinateKindCodexOrdinalRange None None None None))
      SegmentInclusionSameThreadSurvivingOwn (au_CopyBoundary a) (au_OriginalOwnershipProven a))
    true ordinal data records false false.

(** The copied prefix of the current segment is shorter than its boundary. *)
Definition prefixIncomplete (s : codexDecodedSegment) : bool :=
  negb (sg_readFailed s || sg_proofFailed s) && sg_isCurrent s &&
  match rf_CopyBoundary (sg_descriptor s) with
  | Some boundary => bool_decide (cp_validRecords (decodedCheckpoint s) < boundary)
  | None => false
  end.

Definition replayCodexHistory (allocate : nat → string) (a : CodexSourceAuthority) (reg : gmap string string) :
    result replayError (CodexCapturedHistory * gmap string string) :=
  require CodexSourceAuthorityKind_IsValid (au_Kind a) else AuthorityKindInvalid in
  require bool_decide (au_StableThreadID a ≠ "") else StableThreadMissing in
  let mode := resolveCodexHistoryMode (au_HistoryMode a) in
  let '(references, referenceDiagnostics) := decodeReferences a mode {[au_CurrentPointer a]} 0 (au_References a) in
  match ReadCodexSource (au_CurrentPointer a) with
  | None => Err CurrentMissing
  | Some currentData =>
      let current := currentSegment a mode (Z.of_nat (length references)) currentData in
      let decoded := references ++ [current] in
      let? st := replaySegments allocate (au_StableThreadID a) (newCodexReplayState reg) decoded mode in
      let unsupported := bool_decide (mode = CodexHistoryModeUnsupported) in
      let location := "thread " +:+ au_StableThreadID a in
      let complete := negb (unsupported || au_DerivationIncomplete a
        || existsb (λ s, sg_readFailed s || sg_proofFailed s) decoded || existsb prefixIncomplete decoded
        || incomplete st) in
      let completeness := if complete then GenerationCompletenessComplete else GenerationCompletenessIncompleteNew in
      let ds := au_DerivationDiagnostics a ++ referenceDiagnostics
        ++ (if unsupported then [mkDiagnostic "codex_history_mode_unsupported" location] else [])
        ++ (if existsb prefixIncomplete decoded then [mkDiagnostic "codex_copied_prefix_incomplete" location] else [])
        ++ diagnostics st in
      let? checkpointed := checkpointRefs st (checkpoints st) in
      Ok (mkHistoryCapture (au_StableThreadID a) (au_Kind a) (au_CurrentPointer a) (au_PhysicalSourceID a) mode
        completeness (nodes st) (buildCodexSegments decoded (nodes st)) (buildCodexCapturedSegments decoded)
        (correlations st)
        (codexRefsForOwnership (nodes st) CodexOwnershipOwn)
        (codexRefsForOwnership (nodes st) CodexOwnershipInherited)
        (codexRefsForOwnership (nodes st) CodexOwnershipUncertainEarlier)
        (codexRefsForOwnership (nodes st) CodexOwnershipReverted)
        checkpointed currentData (codexFingerprint a completeness decoded) ds (controls st), registry st)
  end.
End capture.

(** ** The replay as a transition system

    Every operation is a sequence of moves on the part of the state that holds the
    graph; the invariants are proved on the moves. *)

Section moves.
Context `{J : CodexJson} `{P : CodexPrepare} `{SL : SchemaLib} `{T : ThinkingLib}.
Variable allocate : nat → string.
Variable threadID : string.

(** The invariant of the graph: keys are distinct and are the seen ones, the
    registry owns every node's ref, stored indices are positions of nodes, and the
    open turns are disjoint sets of own nodes. *)
Record inv (st : codexReplayState) : Prop := {
  i_keys : NoDup (cn_NativeKey <$> nodes st);
  i_seen : ∀ k, k ∈ seenKeys st ↔ k ∈ cn_NativeKey <$> nodes st;
  i_reg : ∀ n, n ∈ nodes st → registry st !! cn_NativeKey n = Some (cn_Ref n);
  i_items : ∀ id i, itemNodeByID st !! id = Some i → 0 ≤ i < Z.of_nat (length (nodes st));
  i_responses : ∀ id i, responseByItem st !! id = Some i → 0 ≤ i < Z.of_nat (length (nodes st));
  i_checkpoints : ∀ i, i ∈ checkpoints st → 0 ≤ i < Z.of_nat (length (nodes st));
  i_disjoint : NoDup (concat (turns st));
  i_turns : ∀ i, i ∈ concat (turns st) → ∃ n, nodes st !! i = Some n ∧ cn_Ownership n = CodexOwnershipOwn;
  i_owned : ∀ n, n ∈ nodes st → cn_Ownership n ≠ CodexOwnershipExcluded;
}.

Definition graph (st : codexReplayState) :=
  (registry st, nodes st, seenKeys st, turns st, itemNodeByID st, responseByItem st, checkpoints st).

(** The record as the replay reads it: its payload is the prepared one. *)
Definition prepared_as (segment : codexDecodedSegment) (record r : codexHistoryRecord) : Prop :=
  ∃ prepared raw,
    prepareCodexRecordParsed (cr_RawJSON record) (codexNativeUnknownPosition threadID segment record) true = Some prepared ∧
    replayPayload prepared = Some raw ∧ r = setPayload raw record.

(** A node carries the coordinates of a record of a segment, and its prepared
    payload or, for evidence kept aside, none. *)
Record cites (segment : codexDecodedSegment) (record : codexHistoryRecord) (n : CodexCapturedNode) : Prop := {
  ci_segment : cn_SegmentOrdinal n = sg_ordinal segment;
  ci_line : cn_LineIndex n = cr_LineIndex record;
  ci_start : cn_ByteStart n = cr_ByteStart record;
  ci_stop : cn_ByteEndExclusive n = cr_ByteEndExclusive record;
  ci_type : cn_EnvelopeType n = cr_EnvelopeType record;
  ci_ordinal : cn_Ordinal n = if cr_HasOrdinal record then cr_Ordinal record else -1;
  ci_payload : (∃ r, prepared_as segment record r ∧ cn_Payload n = cr_Payload r) ∨ cn_NativeType n = "" ∧ cn_Payload n = "";
}.

(** The native key under which a record introduces a node of a native type. *)
Definition introduces (segment : codexDecodedSegment) (record : codexHistoryRecord) (key nativeType : string) : Prop :=
  (∃ r, prepared_as segment record r ∧ key = codexNativeKey threadID segment r nativeType) ∨
  key = opaqueKey threadID segment record ∧ nativeType = "".

(** The record is a response with this id, or the completion of this item. *)
Definition names (segment : codexDecodedSegment) (record : codexHistoryRecord) (id : string) : Prop :=
  ∃ r payload, prepared_as segment record r ∧ dispatchPayload r = Ok (Some payload) ∧
    (cr_EnvelopeType record = codexTypeResponse ∧ id = pl_ID payload ∨
     cr_EnvelopeType record = codexTypeEventMsg ∧ codexNativeEventDispatch !! pl_Type payload = Some ItemCompleted ∧
     ∃ body, codexDecodeItemBody (pl_Item payload) = (body, true, false) ∧ id = eventItemID payload body).

(** The record names the item and its own native key is registered under the ref. *)
Definition registers (reg : gmap string string) (segment : codexDecodedSegment) (record : codexHistoryRecord)
    (id ref : string) : Prop :=
  names segment record id ∧ ∃ key nativeType, introduces segment record key nativeType ∧ reg !! key = Some ref.

Inductive move (segment : codexDecodedSegment) (record : codexHistoryRecord) (ownership : CodexOwnership) :
    codexReplayState → codexReplayState → Prop :=
  | move_skip st st' : graph st' = graph st → move segment record ownership st st'
  | move_open st st' :
      graph st' = graph (setTurns (turns st ++ [[]]) st) → move segment record ownership st st'
  | move_index st st' i n :
      nodeAt st i = Ok n →
      registry st' = registry st → nodes st' = nodes st → seenKeys st' = seenKeys st → turns st' = turns st →
      (∀ id j, itemNodeByID st' !! id = Some j →
        itemNodeByID st !! id = Some j ∨ j = i ∧ registers (registry st) segment record id (cn_Ref n)) →
      (∀ id j, responseByItem st' !! id = Some j → responseByItem st !! id = Some j ∨ j = i) →
      (∀ j, j ∈ checkpoints st' → j ∈ checkpoints st ∨ j = i) →
      move segment record ownership st st'
  | move_emit st st' n reg (turn : bool) :
      cn_NativeKey n ∉ seenKeys st →
      RefFor allocate (registry st) (cn_NativeKey n) = Ok (cn_Ref n, reg) →
      introduces segment record (cn_NativeKey n) (cn_NativeType n) → cites segment record n → cn_Ownership n = ownership →
      (turn = true → ownership = CodexOwnershipOwn) →
      graph st' = graph (setTurns (if turn then appendTurnNode (turns st) (length (nodes st)) else turns st)
        (setNodes (nodes st ++ [n]) (addSeen (cn_NativeKey n) (setRegistry reg st)))) →
      move segment record ownership st st'
  | move_replace st st' i n n' id :
      nodes st !! i = Some n → itemNodeByID st !! id = Some (Z.of_nat i) → names segment record id → cites segment record n' →
      cn_NativeKey n' = cn_NativeKey n → cn_Ref n' = cn_Ref n → cn_Ownership n' = cn_Ownership n →
      graph st' = graph (setNodes (<[i := n']> (nodes st)) st) → move segment record ownership st st'
  | move_rollback st st' keep ns :
      revert (nodes st) (concat (drop keep (turns st))) = Some ns →
      graph st' = graph (setTurns (take keep (turns st)) (setNodes ns st)) → move segment record ownership st st'.

(** *** Registry *)

Lemma RefFor_known reg k r : reg !! k = Some r → RefFor allocate reg k = Ok (r, reg).
Proof. unfold RefFor. by intros ->. Qed.

Lemma RefFor_ok reg k r reg' :
  RefFor allocate reg k = Ok (r, reg') →
  reg' !! k = Some r ∧ reg ⊆ reg' ∧ (reg !! k = None → r = allocate (size reg) ∧ reg' = <[k := r]> reg) ∧
  (is_Some (reg !! k) → reg' = reg).
Proof.
  unfold RefFor. destruct (reg !! k) as [r0|] eqn:E.
  - intros [= -> ->]. split_and!; [done|done|by intros ?|done].
  - intros [? [? [= <- <-]]%res_guard_ok]%res_guard_ok. split_and!; [by rewrite lookup_insert_eq| |done|by intros [? ?]].
    by apply insert_subseteq.
Qed.

Lemma RefFor_not_panic reg k e : RefFor allocate reg k = Err e → e ≠ Panicked.
Proof. unfold RefFor. destruct (reg !! k); [done|]. unfold res_guard. repeat case_match; congruence. Qed.

(** *** Turns and rollback *)

Lemma appendTurnNode_concat ts i : concat (appendTurnNode ts i) = concat ts ++ [i].
Proof.
  unfold appendTurnNode. destruct (last ts) as [t|] eqn:E; [|apply last_None in E; by subst].
  apply last_Some in E as [l ->]. rewrite length_app, take_app_le by (simpl; lia). simpl.
  rewrite take_ge by lia. rewrite !concat_app. simpl. by rewrite !app_nil_r, app_assoc.
Qed.

Lemma revert_ok ns ix :
  (∀ i, i ∈ ix → (i < length ns)%nat) →
  ∃ ns', revert ns ix = Some ns' ∧ length ns' = length ns ∧
    ∀ i, ns' !! i = (λ n, if decide (i ∈ ix) then setOwnership CodexOwnershipReverted n else n) <$> ns !! i.
Proof.
  revert ns. induction ix as [|i ix IH]; intros ns Hin.
  { exists ns. split_and!; [done|done|]. intros i. by destruct (ns !! i). }
  destruct (lookup_lt_is_Some_2 ns i ltac:(apply Hin; by left)) as [n Hn]. cbn [revert]. rewrite Hn. cbn.
  destruct (IH (<[i := setOwnership CodexOwnershipReverted n]> ns)) as (ns' & E & Hl & Hns).
  { intros j Hj. rewrite length_insert. apply Hin. by right. }
  exists ns'. rewrite length_insert in Hl. split_and!; [done|done|]. intros j. rewrite Hns.
  destruct (decide (i = j)) as [<-|Hij].
  - rewrite list_lookup_insert_eq by (by eapply lookup_lt_Some). rewrite Hn. simpl.
    rewrite (decide_True (P := i ∈ i :: ix)) by by left. by case_decide.
  - rewrite list_lookup_insert_ne by done. destruct (ns !! j) as [m|]; [|done]. simpl.
    destruct (decide (j ∈ ix)), (decide (j ∈ i :: ix)) as [Hx|Hx]; try done.
    + destruct Hx. by right.
    + apply elem_of_cons in Hx as [->|?]; done.
Qed.

Lemma turns_split (ts : list (list nat)) keep : concat ts = concat (take keep ts) ++ concat (drop keep ts).
Proof. by rewrite <- concat_app, take_drop. Qed.

(** *** The invariant on the moves *)

Lemma nodeAt_ok st i n : nodeAt st i = Ok n ↔ 0 ≤ i ∧ nodes st !! Z.to_nat i = Some n.
Proof.
  unfold nodeAt. case_decide; [by split; [|lia]|]. destruct (nodes st !! Z.to_nat i); split; try done.
  - intros [= ->]. split; [lia|done].
  - by intros [_ [= ->]].
  - by intros [_ ?].
Qed.

Lemma nodeAt_range st i : 0 ≤ i < Z.of_nat (length (nodes st)) → ∃ n, nodeAt st i = Ok n.
Proof.
  intros Hi. destruct (lookup_lt_is_Some_2 (nodes st) (Z.to_nat i)) as [n Hn]; [lia|].
  exists n. apply nodeAt_ok. split; [lia|done].
Qed.

Lemma elem_of_updated {A} (l : list A) i x y z :
  l !! i = Some x → z ∈ <[i := y]> l → z = y ∨ z ∈ l.
Proof.
  intros Hi [j Hj]%list_elem_of_lookup. destruct (decide (i = j)) as [<-|Hij].
  - rewrite list_lookup_insert_eq in Hj by (by eapply lookup_lt_Some). simplify_eq. by left.
  - rewrite list_lookup_insert_ne in Hj by done. right. by eapply list_elem_of_lookup_2.
Qed.

Lemma fmap_updated {A B} (f : A → B) (l : list A) i x y : l !! i = Some x → f y = f x → f <$> <[i := y]> l = f <$> l.
Proof.
  intros Hi Hf. rewrite list_fmap_insert. apply list_insert_id. by rewrite list_lookup_fmap, Hi, Hf.
Qed.

Lemma inv_graph st st' : graph st' = graph st → inv st → inv st'.
Proof.
  unfold graph. intros [= E1 E2 E3 E4 E5 E6 E7] [? ? ? ? ? ? ? ? ?].
  split; rewrite ?E1, ?E2, ?E3, ?E4, ?E5, ?E6, ?E7; done.
Qed.

Lemma inv_emit st n reg turn :
  inv st → cn_NativeKey n ∉ seenKeys st → RefFor allocate (registry st) (cn_NativeKey n) = Ok (cn_Ref n, reg) →
  cn_Ownership n ≠ CodexOwnershipExcluded → (turn = true → cn_Ownership n = CodexOwnershipOwn) →
  inv (setTurns (if turn then appendTurnNode (turns st) (length (nodes st)) else turns st)
    (setNodes (nodes st ++ [n]) (addSeen (cn_NativeKey n) (setRegistry reg st)))).
Proof.
  intros H Hk Hreg Hx Hturn. destruct H as [Hkeys Hseen Hr Hit Hre Hch Hdis Htu Hown].
  destruct (RefFor_ok _ _ _ _ Hreg) as (Hn & Hsub & _).
  assert (∀ i, i ∈ concat (turns st) → (i < length (nodes st))%nat) as Hlt.
  { intros i Hi. destruct (Htu i Hi) as (m & Hm & _). by eapply lookup_lt_Some. }
  assert (∀ i m, nodes st !! i = Some m → (nodes st ++ [n]) !! i = Some m) as Hext.
  { intros i m Hm. by apply lookup_app_l_Some. }
  split; simpl.
  - rewrite fmap_app. apply NoDup_app. split_and!; [done| |apply NoDup_singleton].
    intros k Hk1 ->%list_elem_of_singleton. by apply Hk, Hseen.
  - intros k. rewrite fmap_app, elem_of_app, elem_of_union, elem_of_singleton, Hseen. simpl.
    rewrite list_elem_of_singleton. tauto.
  - intros m [Hm| ->%list_elem_of_singleton]%elem_of_app; [|done]. by eapply lookup_weaken; [apply Hr|].
  - intros id i Hi. rewrite length_app. specialize (Hit id i Hi). lia.
  - intros id i Hi. rewrite length_app. specialize (Hre id i Hi). lia.
  - intros i Hi. rewrite length_app. specialize (Hch i Hi). lia.
  - destruct turn; [|done]. rewrite appendTurnNode_concat. apply NoDup_app. split_and!; [done| |apply NoDup_singleton].
    intros i Hi ->%list_elem_of_singleton. specialize (Hlt _ Hi). lia.
  - intros i Hi.
    assert (i ∈ concat (turns st) ∨ turn = true ∧ i = length (nodes st)) as [Hi'|[Ht ->]].
    { destruct turn; [|by left]. rewrite appendTurnNode_concat in Hi.
      apply elem_of_app in Hi as [?| ->%list_elem_of_singleton]; auto. }
    + destruct (Htu i Hi') as (m & Hm & ?). exists m. auto.
    + exists n. split; [|auto]. rewrite lookup_app_r, Nat.sub_diag by lia. done.
  - intros m [Hm| ->%list_elem_of_singleton]%elem_of_app; auto.
Qed.

Lemma inv_replace st i n n' :
  inv st → nodes st !! i = Some n → cn_NativeKey n' = cn_NativeKey n → cn_Ref n' = cn_Ref n →
  cn_Ownership n' = cn_Ownership n → inv (setNodes (<[i := n']> (nodes st)) st).
Proof.
  intros H Hi Ek Er Eo. destruct H as [Hkeys Hseen Hr Hit Hre Hch Hdis Htu Hown].
  assert (n ∈ nodes st) as Hn by (by eapply list_elem_of_lookup_2).
  split; simpl; rewrite ?length_insert, ?(fmap_updated cn_NativeKey _ _ n n' Hi Ek); try done.
  - intros m Hm. destruct (elem_of_updated _ _ _ _ _ Hi Hm) as [->|Hm']; [rewrite Ek, Er|]; auto.
  - intros j Hj. destruct (Htu j Hj) as (m & Hm & Ho). destruct (decide (i = j)) as [<-|Hij].
    + rewrite list_lookup_insert_eq by (by eapply lookup_lt_Some). exists n'. split; [done|]. congruence.
    + rewrite list_lookup_insert_ne by done. by exists m.
  - intros m Hm. destruct (elem_of_updated _ _ _ _ _ Hi Hm) as [->|Hm']; [rewrite Eo|]; auto.
Qed.

Lemma inv_rollback st keep ns :
  inv st → revert (nodes st) (concat (drop keep (turns st))) = Some ns →
  inv (setTurns (take keep (turns st)) (setNodes ns st)).
Proof.
  intros H E. destruct H as [Hkeys Hseen Hr Hit Hre Hch Hdis Htu Hown].
  rewrite (turns_split (turns st) keep) in Hdis, Htu. apply NoDup_app in Hdis as (Hd1 & Hd2 & _).
  destruct (revert_ok (nodes st) (concat (drop keep (turns st)))) as (ns' & E' & Hl & Hns).
  { intros i Hi. destruct (Htu i) as (m & Hm & _); [apply elem_of_app; by right|]. by eapply lookup_lt_Some. }
  rewrite E in E'. injection E' as <-.
  assert (∀ (f : CodexCapturedNode → string), (∀ n, f (setOwnership CodexOwnershipReverted n) = f n) → f <$> ns = f <$> nodes st) as Hf.
  { intros f Hfn. apply list_eq. intros i. rewrite !list_lookup_fmap, Hns. destruct (nodes st !! i) as [n|]; [|done].
    simpl. case_decide; [by rewrite Hfn|done]. }
  assert (∀ m, m ∈ ns → ∃ n, n ∈ nodes st ∧ (m = n ∨ m = setOwnership CodexOwnershipReverted n)) as Hin.
  { intros m [i Hi]%list_elem_of_lookup. rewrite Hns in Hi. destruct (nodes st !! i) as [n|] eqn:Hn; [|done].
    exists n. split; [by eapply list_elem_of_lookup_2|]. simpl in Hi. case_decide; simplify_eq; auto. }
  split; simpl; rewrite ?Hl, ?(Hf cn_NativeKey) by done; try done.
  - intros m Hm. destruct (Hin m Hm) as (n & Hn & [->| ->]); by apply Hr in Hn.
  - intros i Hi. destruct (Htu i) as (n & Hn & Ho); [apply elem_of_app; by left|].
    exists n. split; [|done]. rewrite Hns, Hn. simpl. rewrite decide_False; [done|]. intros Hx. by apply (Hd2 i).
  - intros m Hm. destruct (Hin m Hm) as (n & Hn & [->| ->]); [by apply Hown|done].
Qed.

Lemma move_keeps_inv segment record ownership st st' :
  ownership ≠ CodexOwnershipExcluded → move segment record ownership st st' → inv st → inv st'.
Proof.
  intros Hx Hm H.
  destruct Hm as [st st' E|st st' E|st st' i n Hn E1 E2 E3 E4 Hit Hre Hch|st st' n reg turn Hk Hreg _ _ Ho Ht E
    |st st' i n n' id Hi _ _ _ Ek Er Eo E|st st' keep ns E1 E].
  - by eapply inv_graph.
  - eapply inv_graph; [done|]. destruct H. split; simpl; rewrite ?concat_app, ?app_nil_r; done.
  - apply nodeAt_ok in Hn as [? Hn]. apply lookup_lt_Some in Hn.
    destruct H. split; rewrite ?E1, ?E2, ?E3, ?E4; try done.
    + intros id j [?|[-> _]]%Hit; [by eapply i_items0|lia].
    + intros id j [?| ->]%Hre; [by eapply i_responses0|lia].
    + intros j [?| ->]%Hch; [by eapply i_checkpoints0|lia].
  - eapply inv_graph; [done|]. apply inv_emit; [done|done|done|congruence|]. rewrite Ho. done.
  - eapply inv_graph; [done|]. by eapply inv_replace.
  - eapply inv_graph; [done|]. by apply inv_rollback.
Qed.

Lemma moves_inv segment record ownership st st' :
  ownership ≠ CodexOwnershipExcluded → rtc (move segment record ownership) st st' → inv st → inv st'.
Proof. intros Hx. induction 1 as [|? ? ? Hm _ IH]; [done|]. intros H. apply IH. by eapply move_keeps_inv. Qed.

(** *** The operations are sequences of moves *)

Section operations.
Variables (segment : codexDecodedSegment) (record : codexHistoryRecord) (ownership : CodexOwnership).
Hypothesis ownership_held : ownership ≠ CodexOwnershipExcluded.

Local Notation moves := (rtc (move segment record ownership)).

(** A step that does not panic and moves. *)
Definition safe (st : codexReplayState) (r : step) : Prop :=
  match r with Ok st' => moves st st' | Err e => e ≠ Panicked end.

Lemma moves_skip st st' : graph st' = graph st → moves st st'.
Proof. intros. by apply rtc_once, move_skip. Qed.

Lemma safe_skip st st' : graph st' = graph st → safe st (Ok st').
Proof. apply moves_skip. Qed.

Lemma safe_trans st st' r : moves st st' → safe st' r → safe st r.
Proof. destruct r; simpl; [|done]. intros. by etrans. Qed.

(** Moves only depend on the graph they start from. *)
Lemma safe_from st st' r : graph st' = graph st → safe st' r → safe st r.
Proof. intros E. apply safe_trans. by apply moves_skip. Qed.

Lemma safe_openTurn st opens p : moves st (openTurn opens p st).
Proof. destruct opens; [by apply rtc_once, move_open|by apply moves_skip]. Qed.

(** What an emission gives its caller. *)
Definition emitted (st : codexReplayState) (r : result replayError (Z * bool * codexReplayState)) : Prop :=
  match r with
  | Ok (index, _, st') => moves st st' ∧ inv st' ∧ ∃ n, nodeAt st' index = Ok n ∧
      ∃ key nativeType, introduces segment record key nativeType ∧ registry st' !! key = Some (cn_Ref n)
  | Err e => e ≠ Panicked
  end.

Lemma nodeIndexForRef_found st n : n ∈ nodes st → ∃ m, nodeAt st (nodeIndexForRef st (cn_Ref n)) = Ok m ∧ cn_Ref m = cn_Ref n.
Proof.
  intros Hn. unfold nodeIndexForRef.
  destruct (list_find _ (nodes st)) as [[i m]|] eqn:E.
  - apply list_find_Some in E as (Hi & Hm & _). exists m. split; [|done]. apply nodeAt_ok. split; [lia|].
    by rewrite Nat2Z.id.
  - apply list_find_None in E. rewrite Forall_forall in E. by destruct (E n Hn).
Qed.

(** What a node copies of the prepared record. *)
Definition copied (r : codexHistoryRecord) (n : CodexCapturedNode) : Prop :=
  cn_SegmentOrdinal n = sg_ordinal segment ∧ cn_Ordinal n = cr_Ordinal r ∧ cn_LineIndex n = cr_LineIndex r ∧
  cn_ByteStart n = cr_ByteStart r ∧ cn_ByteEndExclusive n = cr_ByteEndExclusive r ∧
  cn_EnvelopeType n = cr_EnvelopeType r ∧ cn_Payload n = cr_Payload r.

Lemma node_cites r n : prepared_as segment record r → cr_HasOrdinal r = true → copied r n → cites segment record n.
Proof.
  intros Hp Hh (E1 & E2 & E3 & E4 & E5 & E6 & E7). pose proof Hp as (prepared & raw & _ & _ & ->).
  simpl in *. split; try done; [by rewrite Hh|left; by eexists].
Qed.

Lemma emitNode_emitted st r nativeType role itemID callID turnID :
  inv st → prepared_as segment record r → cr_HasOrdinal r = true →
  emitted st (emitNode allocate threadID st segment r ownership nativeType role itemID callID turnID).
Proof.
  intros H Hp Hh. unfold emitNode. set (key := codexNativeKey threadID segment r nativeType).
  assert (introduces segment record key nativeType) as Hkey by (left; by exists r). case_decide as Hk.
  - pose proof Hk as Hk'. apply (i_seen _ H), list_elem_of_fmap in Hk' as (n & En & Hn).
    pose proof (i_reg _ H n Hn) as Hreg. rewrite <- En in Hreg. rewrite (RefFor_known _ _ _ Hreg). simpl.
    split; [by apply moves_skip|]. split; [by eapply inv_graph, H|].
    destruct (nodeIndexForRef_found (correlate
      (mkCorrelation CodexCorrelationSameThreadRollover itemID None None [cn_Ref n]) (setRegistry (registry st) st)) n Hn)
      as (m & Hm & Em).
    exists m. split; [exact Hm|]. exists key, nativeType. split; [done|]. simpl. by rewrite Em.
  - destruct (RefFor allocate (registry st) key) as [[ref reg]|e] eqn:Hreg; simpl;
      [|by eapply RefFor_not_panic].
    set (n := mkNode _ _ _ _ _ _ _ _ _ _ _ _ _ _ _ _ _ _).
    assert (moves st (setTurns (if codexOwnershipIsOwn ownership && negb (isCodexNativeControlKind nativeType)
      then appendTurnNode (turns st) (length (nodes st)) else turns st)
      (setNodes (nodes st ++ [n]) (addSeen key (setRegistry reg st))))) as Hm.
    { apply rtc_once. eapply (move_emit _ _ _ _ _ n reg); [exact Hk|exact Hreg|exact Hkey| |done| |done].
      - by apply (node_cites r).
      - intros [Ho _]%andb_true_iff. by apply bool_decide_eq_true in Ho. }
    replace (length (nodes st ++ [n]) - 1)%nat with (length (nodes st)) by (rewrite length_app; simpl; lia).
    match goal with |- rtc _ _ ?x ∧ _ => set (st' := x) end.
    assert (graph st' = graph (setTurns (if codexOwnershipIsOwn ownership && negb (isCodexNativeControlKind nativeType)
      then appendTurnNode (turns st) (length (nodes st)) else turns st)
      (setNodes (nodes st ++ [n]) (addSeen key (setRegistry reg st))))) as Eg.
    { unfold st'. by destruct (_ && _). }
    split; [etrans; [exact Hm|by apply moves_skip]|]. split.
    + eapply inv_graph; [exact Eg|]. by eapply moves_inv.
    + exists n. assert (nodes st' = nodes st ++ [n] ∧ registry st' = reg) as [En Er] by (by unfold graph in Eg; simplify_eq/=).
      split; [|exists key, nativeType; split; [done|]; rewrite Er; by apply (RefFor_ok _ _ _ _ Hreg)].
      apply nodeAt_ok. split; [lia|]. by rewrite Nat2Z.id, En, lookup_app_r, Nat.sub_diag by lia.
Qed.

Lemma emit_safe st r nativeType role itemID callID turnID :
  inv st → prepared_as segment record r → cr_HasOrdinal r = true →
  safe st (emit allocate threadID st segment r ownership nativeType role itemID callID turnID).
Proof.
  intros H Hr Hh. unfold emit.
  pose proof (emitNode_emitted st r nativeType role itemID callID turnID H Hr Hh) as He.
  destruct (emitNode _ _ _ _ _ _ _ _ _ _ _) as [[[i b] st']|e]; simpl in *; [|done]. by destruct He.
Qed.

Lemma emitUnknown_safe st evidence :
  inv st → safe st (emitUnknown allocate threadID st segment record ownership evidence).
Proof.
  intros H. unfold emitUnknown. destruct evidence as [|x xs]; [apply rtc_refl|].
  case_decide as Hk; [apply rtc_refl|].
  destruct (RefFor allocate (registry st) _) as [[ref reg]|e] eqn:Hreg; simpl; [|by eapply RefFor_not_panic].
  set (n := mkNode _ _ _ _ _ _ _ _ _ _ _ _ _ _ _ _ _ _).
  apply rtc_once. eapply (move_emit _ _ _ _ _ n reg (codexOwnershipIsOwn ownership)); [exact Hk|exact Hreg|by right| |done| |].
  - split; try done. by right.
  - intros Ho. by apply bool_decide_eq_true in Ho.
  - rewrite length_app. simpl. replace (length (nodes st) + 1 - 1)%nat with (length (nodes st)) by lia.
    by destruct (codexOwnershipIsOwn ownership).
Qed.

(** The record an operation reads: the record with its prepared payload. *)
Variable r : codexHistoryRecord.
Hypothesis r_prepared : prepared_as segment record r.
Hypothesis r_ordinal : cr_HasOrdinal r = true.

Lemma nodeAt_graph st st' i : graph st' = graph st → nodeAt st' i = nodeAt st i.
Proof. unfold graph, nodeAt. intros [= _ -> _ _ _ _ _]. done. Qed.

Lemma item_node st id i : inv st → itemNodeByID st !! id = Some i → ∃ n, nodeAt st i = Ok n.
Proof. intros H Hi. by apply nodeAt_range, (i_items _ H id). Qed.

Lemma response_node st id i : inv st → responseByItem st !! id = Some i → ∃ n, nodeAt st i = Ok n.
Proof. intros H Hi. by apply nodeAt_range, (i_responses _ H id). Qed.

Lemma moves_item st id i n :
  nodeAt st i = Ok n → registers (registry st) segment record id (cn_Ref n) → moves st (setItem id i st).
Proof.
  intros Hn Hreg. apply rtc_once. apply (move_index _ _ _ _ _ i n); try done; simpl; intros; auto.
  destruct (decide (id0 = id)) as [->|]; [|by rewrite lookup_insert_ne in H by done; left].
  rewrite lookup_insert_eq in H. simplify_eq. by right.
Qed.

Lemma moves_response st id i n : nodeAt st i = Ok n → moves st (setResponse id i st).
Proof.
  intros Hn. apply rtc_once. apply (move_index _ _ _ _ _ i n); try done; simpl; intros; auto.
  destruct (decide (id0 = id)) as [->|]; [|by rewrite lookup_insert_ne in H by done; left].
  rewrite lookup_insert_eq in H. simplify_eq. by right.
Qed.

Lemma moves_checkpoint st i n : nodeAt st i = Ok n → moves st (addCheckpoint i st).
Proof.
  intros Hn. apply rtc_once. apply (move_index _ _ _ _ _ i n); try done; simpl; intros; auto.
  rewrite elem_of_app, list_elem_of_singleton in H. done.
Qed.

Lemma pairEvent_safe st id index n : nodeAt st index = Ok n → safe st (pairEvent st id index r).
Proof.
  intros Hn. unfold pairEvent. destruct (eventOrdinal st !! id); [|apply rtc_refl]. rewrite Hn. simpl.
  by apply moves_skip.
Qed.

Lemma replayCompaction_safe st payload :
  inv st → safe st (replayCompaction allocate threadID st segment r payload ownership).
Proof.
  intros H. unfold replayCompaction. set (st1 := if codexReplacementHistoryAligned payload then _ else _).
  assert (graph st1 = graph st) as E by (unfold st1; by destruct (codexReplacementHistoryAligned _)).
  case_bool_decide; [by apply moves_skip|]. apply (safe_from _ _ _ E).
  assert (inv st1) as Hinv1 by (by eapply inv_graph).
  pose proof (emitNode_emitted st1 r "compacted_summary" "system" "" "" "" Hinv1 r_prepared r_ordinal) as He.
  destruct (emitNode _ _ _ _ _ _ _ _ _ _ _) as [[[i b] st2]|e]; simpl in *; [|done].
  destruct He as (Hm & _ & n & Hn & _). etrans; [exact Hm|]. by eapply moves_checkpoint.
Qed.

Lemma replayResponseItem_safe st payload mode :
  inv st → names segment record (pl_ID payload) →
  safe st (replayResponseItem allocate threadID st segment r payload ownership mode).
Proof.
  intros H Hid. unfold replayResponseItem. destruct (codexResponseNativeType (pl_Type payload)) as [ty|]; [|apply rtc_refl].
  set (st1 := if legacyOwn mode ownership then _ else _).
  assert (moves st st1) as Hm.
  { unfold st1. destruct (legacyOwn mode ownership); [|apply rtc_refl].
    destruct (admitResponse _ _) as [opens p]. apply safe_openTurn. }
  apply (safe_trans _ _ _ Hm). assert (inv st1) as Hinv1 by (by eapply moves_inv). clearbody st1. clear Hm H st.
  case_decide; [by apply emit_safe|].
  destruct (itemNodeByID st1 !! pl_ID payload) as [index|] eqn:Ei.
  { destruct (item_node _ _ _ Hinv1 Ei) as [n Hn].
    assert (nodeAt (setResponse (pl_ID payload) index st1) index = Ok n) as -> by exact Hn. simpl.
    assert (moves st1 (setResponse (pl_ID payload) index st1)) as Hm by (by eapply moves_response).
    case_decide; simpl; (etrans; [exact Hm|]); by apply moves_skip. }
  destruct (responseByItem st1 !! pl_ID payload) as [existing|] eqn:Er.
  { destruct (response_node _ _ _ Hinv1 Er) as [n ->]. simpl. by apply moves_skip. }
  pose proof (emitNode_emitted st1 r ty (pl_Role payload) (pl_ID payload) (pl_CallID payload) (pl_TurnID payload) Hinv1 r_prepared r_ordinal) as He.
  destruct (emitNode _ _ _ _ _ _ _ _ _ _ _) as [[[i b] st2]|e]; simpl in *; [|done].
  destruct He as (Hm & _ & n & Hn & Hkey). apply (safe_trans _ _ _ Hm).
  apply (safe_trans _ (setResponse (pl_ID payload) i st2)); [by eapply moves_response|].
  apply (safe_trans _ (setItem (pl_ID payload) i (setResponse (pl_ID payload) i st2))); [by eapply moves_item|].
  by eapply pairEvent_safe.
Qed.

Lemma turn_nodes st keep i : inv st → i ∈ concat (drop keep (turns st)) → (i < length (nodes st))%nat.
Proof.
  intros H Hi. destruct (i_turns _ H i) as (n & Hn & _); [|by eapply lookup_lt_Some].
  rewrite (turns_split _ keep). apply elem_of_app. by right.
Qed.

Lemma replayThreadRolledBack_safe st payload mode :
  inv st → safe st (replayThreadRolledBack threadID st r payload mode).
Proof.
  intros H. unfold replayThreadRolledBack. case_decide; [by apply moves_skip|].
  destruct (pl_NumTurns payload) as [n|]; [|apply rtc_refl]. case_decide; [apply rtc_refl|].
  set (count := Z.of_nat (length (turns st))).
  set (out := if decide (n > count) then _ else _).
  assert (graph out.1 = graph st) as E by (unfold out; by case_decide).
  destruct out as [st1 k]. cbn [fst] in E. apply (safe_from _ _ _ E).
  assert (inv st1) as Hinv1 by (by eapply inv_graph).
  destruct (revert_ok (nodes st1) (concat (drop (Z.to_nat (count - k)) (turns st1)))) as (ns & En & _).
  { intros i. by apply turn_nodes. }
  rewrite En. apply rtc_once. by eapply move_rollback.
Qed.

Lemma applyItemBody_safe st event body nativeType role mode :
  inv st → names segment record (eventItemID event body) →
  safe st (applyItemBody allocate threadID st segment r event body nativeType role ownership mode).
Proof.
  intros H Hid. unfold applyItemBody. set (itemID := eventItemID event body). set (turnID := if decide _ then _ else _).
  destruct (itemNodeByID st !! itemID) as [index|] eqn:Ei.
  { destruct (item_node _ _ _ H Ei) as [n Hn]. rewrite Hn. simpl. apply nodeAt_ok in Hn as [Hi Hn].
    apply rtc_once. eapply (move_replace _ _ _ _ _ _ n (replaceNode n segment r nativeType role (ib_CallID body) turnID) itemID);
      [exact Hn|by rewrite Z2Nat.id|exact Hid| |done|done|done|done]. by apply (node_cites r). }
  set (st1 := if _ && _ then _ else st).
  assert (moves st st1) as Hm.
  { unfold st1. destruct (legacyOwn mode ownership && _); [|apply rtc_refl].
    destruct (reducerAdmit _ _) as [opens p]. apply safe_openTurn. }
  apply (safe_trans _ _ _ Hm). assert (inv st1) as Hinv1 by (by eapply moves_inv).
  pose proof (emitNode_emitted st1 r nativeType role itemID (ib_CallID body) turnID Hinv1 r_prepared r_ordinal) as He.
  destruct (emitNode _ _ _ _ _ _ _ _ _ _ _) as [[[i b] st2]|e]; simpl in *; [|done].
  destruct He as (Hm2 & _ & n & Hn & Hkey). apply (safe_trans _ _ _ Hm2).
  apply (safe_trans _ (setItem itemID i st2)); [by eapply moves_item|]. by eapply pairEvent_safe.
Qed.

Lemma replayMarker_safe st payload itemID mode : inv st → safe st (replayMarker st r payload itemID ownership mode).
Proof.
  intros H. unfold replayMarker. case_decide; [apply rtc_refl|].
  set (st1 := setEvents _ st). apply (safe_from _ st1); [done|]. assert (inv st1) as Hinv1 by (by eapply inv_graph, H).
  destruct (itemNodeByID st1 !! itemID) as [index|] eqn:Ei.
  { destruct (item_node _ _ _ Hinv1 Ei) as [n ->]. simpl. by apply moves_skip. }
  destruct (isCorrelated _); [|by apply moves_skip]. destruct (legacyOwn mode ownership); [|apply rtc_refl].
  destruct (reducerAdmit _ _) as [opens p]. apply safe_openTurn.
Qed.

Lemma replayItemCompleted_safe st payload mode :
  inv st →
  (∀ body, codexDecodeItemBody (pl_Item payload) = (body, true, false) → names segment record (eventItemID payload body)) →
  safe st (replayItemCompleted allocate threadID st segment r payload ownership mode).
Proof.
  intros H Hid. unfold replayItemCompleted.
  destruct (codexDecodeItemBody (pl_Item payload)) as [[body hasBody] malformed] eqn:Ed.
  set (st1 := if malformed then _ else st). assert (graph st1 = graph st) as E by (unfold st1; by destruct malformed).
  apply (safe_from _ _ _ E). assert (inv st1) as Hinv1 by (by eapply inv_graph).
  destruct (hasBody && negb malformed) eqn:Eb; [|by apply replayMarker_safe].
  apply andb_true_iff in Eb as [-> ->%negb_true_iff].
  destruct (codexItemNativeType body) as [[nativeType role]|].
  - case_decide; [by apply replayMarker_safe|]. apply applyItemBody_safe; [done|by apply Hid].
  - set (st2 := if codexItemBodyCarriesPayload body then _ else st1).
    assert (graph st2 = graph st1) as E2 by (unfold st2; by destruct (codexItemBodyCarriesPayload body)).
    apply (safe_from _ _ _ E2). apply replayMarker_safe. by eapply inv_graph.
Qed.

Lemma dispatchRecord_safe st payload mode :
  inv st → dispatchPayload r = Ok (Some payload) → cr_EnvelopeType r = cr_EnvelopeType record →
  safe st (dispatchRecord allocate threadID st segment r payload ownership mode).
Proof.
  intros H Hp Et. unfold dispatchRecord, replayEventMessage. rewrite Et.
  repeat (case_decide; [|]); try apply rtc_refl; try (by apply emit_safe); try (by apply replayCompaction_safe).
  - apply moves_skip. unfold replayTurnContext. destruct (mapCodexEffort _) as [m [d|]]; done.
  - apply replayResponseItem_safe; [done|]. exists r, payload. split; [done|]. split; [done|]. by left.
  - destruct (codexNativeEventDispatch !! pl_Type payload) as [[]|] eqn:Ed;
      try apply rtc_refl; try (by apply emit_safe); try (by apply replayThreadRolledBack_safe);
      try (apply moves_skip).
    2:{ apply replayItemCompleted_safe; [done|]. intros body Hb. exists r, payload. split; [done|]. split; [done|].
        right. split; [done|]. split; [done|]. by exists body. }
    + unfold replayItemStarted. by case_decide.
    + unfold replayTurnOpened. by case_decide.
    + unfold replayTurnCompleted. case_decide; [done|]. by destruct (openTurns st !! _).
    + unfold replayTurnAborted. by case_decide.
Qed.
End operations.

(** *** Records, segments, captures *)

Lemma codexSegmentOwnership_held segment ordinal : codexSegmentOwnership segment ordinal ≠ CodexOwnershipExcluded.
Proof. unfold codexSegmentOwnership. by repeat case_match. Qed.

Lemma codexUnknownOwnership_held segment record : codexUnknownOwnership segment record ≠ CodexOwnershipExcluded.
Proof.
  unfold codexUnknownOwnership. repeat case_match; try done; apply codexSegmentOwnership_held.
Qed.

Lemma replayRecord_safe st segment record ownership mode :
  ownership ≠ CodexOwnershipExcluded → cr_HasOrdinal record = true → inv st →
  safe segment record ownership st (replayRecord allocate threadID st segment record ownership mode).
Proof.
  intros Hx Hh H. unfold replayRecord.
  destruct (prepareCodexRecordParsed _ _ _) as [prepared|] eqn:Ep; [|done].
  case_decide; [by apply emitUnknown_safe|]. destruct (replayPayload prepared) as [raw|] eqn:Eraw; [|done].
  set (r := setPayload raw record). assert (prepared_as segment record r) as Hr by (by exists prepared, raw).
  destruct (dispatchPayload r) as [payload|e] eqn:Ed; simpl.
  2:{ unfold dispatchPayload in Ed. repeat case_match; simplify_eq; done. }
  set (out := match payload with Some _ => _ | None => _ end).
  assert (safe segment record ownership st out) as Ho.
  { unfold out. destruct payload as [payload|]; [by apply dispatchRecord_safe|by apply moves_skip]. }
  destruct out as [st'|e]; simpl in *; [|done].
  eapply safe_trans; [exact Ho|].
  change (emitUnknown allocate threadID st' segment r) with (emitUnknown allocate threadID st' segment record).
  apply emitUnknown_safe. by eapply moves_inv.
Qed.

(** A record the replay of a segment may take nodes from, and their ownership. *)
Definition clampOf (segment : codexDecodedSegment) : option Z :=
  if sg_proofFailed segment then Some (i64 (cp_maxOrdinal (decodedCheckpoint segment) + 1)) else None.

Record admitted (segment : codexDecodedSegment) (record : codexHistoryRecord) (o : CodexOwnership) : Prop := {
  ad_read : sg_readFailed segment = false;
  ad_inclusion : rf_Inclusion (sg_descriptor segment) ≠ SegmentInclusionExcludedReverted;
  ad_complete : cr_Partial record = false;
  ad_filled : cr_Blank record = false;
  ad_decoded : cr_Malformed record = false;
  ad_advances : cr_Regressed record = false;
  ad_ordinal : cr_HasOrdinal record = true →
    codexRecordInBounds segment record (clampOf segment) = true ∧
    o = codexSegmentOwnership segment (cr_Ordinal record) ∧ o ≠ CodexOwnershipReverted;
  ad_unknown : cr_HasOrdinal record = false →
    codexUnknownInBounds segment record = true ∧ o = codexUnknownOwnership segment record;
}.

(** One move of the replay of some segments. *)
Definition replayMove (decoded : list codexDecodedSegment) (st st' : codexReplayState) : Prop :=
  graph st' = graph st ∨
  ∃ segment record o, segment ∈ decoded ∧ record ∈ sg_records segment ∧ admitted segment record o ∧
    move segment record o st st'.

Definition replays (decoded : list codexDecodedSegment) (st : codexReplayState) (r : step) : Prop :=
  match r with Ok st' => rtc (replayMove decoded) st st' ∧ inv st' | Err e => e ≠ Panicked end.

Lemma replays_safe decoded segment record o st r :
  segment ∈ decoded → record ∈ sg_records segment → admitted segment record o → o ≠ CodexOwnershipExcluded →
  inv st → safe segment record o st r → replays decoded st r.
Proof.
  intros Hs Hr Ha Ho H. destruct r as [st'|e]; simpl; [|done]. intros Hm. split; [|by eapply moves_inv].
  eapply rtc_congruence with (f := id); [|exact Hm]. intros x y Hxy. right. by exists segment, record, o.
Qed.

Lemma replays_skip decoded st st' : inv st → graph st' = graph st → replays decoded st (Ok st').
Proof. intros H E. split; [apply rtc_once; by left|by eapply inv_graph]. Qed.

Lemma replayOne_replays decoded segment mode st record :
  segment ∈ decoded → record ∈ sg_records segment → sg_readFailed segment = false →
  rf_Inclusion (sg_descriptor segment) ≠ SegmentInclusionExcludedReverted → inv st →
  replays decoded st (replayOne allocate threadID segment (clampOf segment) mode st record).
Proof.
  intros Hs Hr Hread Hinc H. unfold replayOne.
  destruct (cr_Partial record) eqn:Ep; [by apply replays_skip|].
  destruct (cr_Blank record) eqn:Eb; [by apply replays_skip|]. simpl.
  destruct (cr_Malformed record) eqn:Em; [by apply replays_skip|].
  destruct (cr_Regressed record) eqn:Er; [by apply replays_skip|].
  destruct (cr_HasOrdinal record) eqn:Eh; simpl.
  - destruct (codexRecordInBounds segment record (clampOf segment)) eqn:Ei; simpl; [|by apply replays_skip].
    case_decide as Ho; [by apply replays_skip|].
    eapply replays_safe; [done|done| | |done|].
    + split; try done; intros Hx; (congruence || by split_and!).
    + apply codexSegmentOwnership_held.
    + apply replayRecord_safe; [apply codexSegmentOwnership_held|done|done].
  - destruct (codexUnknownInBounds segment record) eqn:Ei; simpl; [|by apply replays_skip].
    destruct (prepareCodexRecordParsed _ _ _) as [prepared|]; [|done].
    eapply replays_safe; [done|done| | |done|].
    + split; try done; intros Hx; (congruence || by split).
    + apply codexUnknownOwnership_held.
    + by apply emitUnknown_safe.
Qed.

Lemma res_fold_replays {A} decoded (f : nat → codexReplayState → A → step) l i st :
  (∀ i st x, x ∈ l → inv st → replays decoded st (f i st x)) → inv st → replays decoded st (res_fold f i st l).
Proof.
  revert i st. induction l as [|x l IH]; intros i st Hf H; [by split; [apply rtc_refl|]|].
  cbn [res_fold]. pose proof (Hf i st x ltac:(by left) H) as Hx. destruct (f i st x) as [st'|e]; simpl in *; [|done].
  destruct Hx as [Hm H']. specialize (IH (S i) st'). unfold replays in *.
  assert (∀ i st y, y ∈ l → inv st → match f i st y with Ok st' => rtc (replayMove decoded) st st' ∧ inv st' | Err e => e ≠ Panicked end)
    as Hl by (intros j s y Hy; apply Hf; by right).
  specialize (IH Hl H'). destruct (res_fold _ _ _ _) as [st''|e]; [|done]. destruct IH as [Hm' ?].
  split; [by etrans|done].
Qed.

Lemma replaySegment_replays decoded st segment mode :
  segment ∈ decoded → inv st → replays decoded st (replaySegment allocate threadID st segment mode).
Proof.
  intros Hs H. unfold replaySegment. destruct (sg_readFailed segment) eqn:Er; [by apply replays_skip|]. simpl.
  case_bool_decide as Hi; [by apply replays_skip|].
  destruct (sg_proofFailed segment && _); [by apply replays_skip|].
  apply res_fold_replays; [|done]. intros i st' record Hr H'. by apply replayOne_replays.
Qed.

Lemma replaySegments_replays st decoded mode :
  inv st → replays decoded st (replaySegments allocate threadID st decoded mode).
Proof. intros H. apply res_fold_replays; [|done]. intros i st' segment Hs H'. by apply replaySegment_replays. Qed.

Lemma inv_new reg : inv (newCodexReplayState reg).
Proof.
  split; simpl.
  - constructor.
  - intros k. by rewrite elem_of_empty, elem_of_nil.
  - by intros n ?%not_elem_of_nil.
  - intros id i. by rewrite lookup_empty.
  - intros id i. by rewrite lookup_empty.
  - by intros i ?%not_elem_of_nil.
  - constructor.
  - by intros i ?%not_elem_of_nil.
  - by intros n ?%not_elem_of_nil.
Qed.
End moves.
