(* ===== verification/CodexCapture.v ===== *)
(** * Captured Codex histories

    What a capture of [CodexReplay] guarantees: it never panics, its refs partition
    its nodes, every node is grounded in a proven record, rollback reverts exactly
    the trailing turns, capturing again with the same registry reproduces it; and
    the bounded retry of [codex_history.go]. *)
From stdpp Require Import pretty.
From S2P Require Import Prelude GoStrings IndexFormat CodexRecords ThinkingLevel CodexReplay.
From Stdlib Require Import Ascii.

Local Open Scope string_scope.
Local Open Scope list_scope.
Local Open Scope Z_scope.

(** ** Replaying with a registry that already knows the keys *)

Section mirror.
Context `{J : CodexJson} `{P : CodexPrepare} `{SL : SchemaLib} `{T : ThinkingLib}.
Variables (allocate allocate' : nat → string) (threadID : string).
(** A registry that extends every registry of the first run. *)
Variable R : gmap string string.

Lemma RefFor_mirror reg k r reg' :
  RefFor allocate reg k = Ok (r, reg') → reg' ⊆ R → RefFor allocate' R k = Ok (r, R).
Proof.
  intros H Hsub. apply RefFor_ok in H as (Hk & _). apply RefFor_known. by eapply lookup_weaken.
Qed.

(** The second run of a step: the same result, with the larger registry. *)
Definition mirrors (r r' : step) : Prop := ∀ st', r = Ok st' → registry st' ⊆ R → r' = Ok (setRegistry R st').

Lemma mirrors_ok st st' : st' = setRegistry R st → mirrors (Ok st) (Ok st').
Proof. by intros -> ? [= ->] _. Qed.

Lemma emitNode_registry st segment r o ty role id call turn i b st' :
  emitNode allocate threadID st segment r o ty role id call turn = Ok (i, b, st') → registry st ⊆ registry st'.
Proof.
  unfold emitNode. case_decide; intros ([ref reg] & Hrf%RefFor_ok & E)%res_bind_ok; destruct Hrf as (_ & Hs & _).
  - by simplify_eq/=.
  - destruct (_ && _); by simplify_eq/=.
Qed.

Lemma emitNode_mirror st segment r o ty role id call turn i b st' :
  emitNode allocate threadID st segment r o ty role id call turn = Ok (i, b, st') → registry st' ⊆ R →
  emitNode allocate' threadID (setRegistry R st) segment r o ty role id call turn = Ok (i, b, setRegistry R st').
Proof.
  unfold emitNode. cbn [seenKeys setRegistry registry].
  case_decide; intros ([ref reg] & Hrf & E)%res_bind_ok Hsub.
  - simplify_eq/=. by rewrite (RefFor_mirror _ _ _ _ Hrf Hsub).
  - assert (reg ⊆ R) as Hreg by (destruct (_ && _); by simplify_eq/=).
    rewrite (RefFor_mirror _ _ _ _ Hrf Hreg). simpl in *. destruct (_ && _); by simplify_eq/=.
Qed.

Lemma emit_mirror st segment r o ty role id call turn :
  mirrors (emit allocate threadID st segment r o ty role id call turn)
          (emit allocate' threadID (setRegistry R st) segment r o ty role id call turn).
Proof.
  intros st' ([[i b] st2] & H & [= <-])%res_bind_ok Hsub. unfold emit.
  by rewrite (emitNode_mirror _ _ _ _ _ _ _ _ _ _ _ _ H Hsub).
Qed.

Lemma emitUnknown_mirror st segment r o evidence :
  mirrors (emitUnknown allocate threadID st segment r o evidence)
          (emitUnknown allocate' threadID (setRegistry R st) segment r o evidence).
Proof.
  unfold emitUnknown. destruct evidence as [|x xs]; [by apply mirrors_ok|]. cbn [seenKeys setRegistry registry].
  case_decide; [by apply mirrors_ok|]. intros st' ([ref reg] & Hrf & E)%res_bind_ok Hsub.
  assert (reg ⊆ R) as Hreg by (destruct (codexOwnershipIsOwn _); by simplify_eq/=).
  rewrite (RefFor_mirror _ _ _ _ Hrf Hreg). simpl in *. destruct (codexOwnershipIsOwn o); by simplify_eq/=.
Qed.

Lemma emitUnknown_registry st segment r o evidence st' :
  emitUnknown allocate threadID st segment r o evidence = Ok st' → registry st ⊆ registry st'.
Proof.
  unfold emitUnknown. destruct evidence as [|x xs]; [by intros [= ->]|]. case_decide; [by intros [= ->]|].
  intros ([ref reg] & Hrf%RefFor_ok & E)%res_bind_ok. destruct Hrf as (_ & Hs & _).
  destruct (codexOwnershipIsOwn o); by simplify_eq/=.
Qed.

Lemma pairEvent_mirror st id i r : mirrors (pairEvent st id i r) (pairEvent (setRegistry R st) id i r).
Proof.
  unfold pairEvent. cbn [eventOrdinal setRegistry]. destruct (eventOrdinal st !! id); [|by apply mirrors_ok].
  change (nodeAt (setRegistry R st) i) with (nodeAt st i). destruct (nodeAt st i); [by apply mirrors_ok|done].
Qed.

Lemma pairEvent_registry st id i r st' : pairEvent st id i r = Ok st' → registry st' = registry st.
Proof.
  unfold pairEvent. destruct (eventOrdinal st !! id); [|by intros [= ->]].
  by intros (n & _ & [= <-])%res_bind_ok.
Qed.

Lemma openTurn_mirror opens p st : openTurn opens p (setRegistry R st) = setRegistry R (openTurn opens p st).
Proof. by destruct opens. Qed.

Lemma replayCompaction_mirror st segment r payload o :
  mirrors (replayCompaction allocate threadID st segment r payload o)
          (replayCompaction allocate' threadID (setRegistry R st) segment r payload o).
Proof.
  unfold replayCompaction. set (st1 := if codexReplacementHistoryAligned payload then st else _).
  assert ((if codexReplacementHistoryAligned payload then setRegistry R st
    else diagnose (mkDiagnostic "codex_checkpoint_metadata_misaligned" (codexRecordLocation threadID r))
      (setIncomplete (setRegistry R st))) = setRegistry R st1) as ->.
  { unfold st1. by destruct (codexReplacementHistoryAligned payload). }
  case_bool_decide; [by apply mirrors_ok|]. intros st' ([[i b] st2] & H1 & [= <-])%res_bind_ok Hsub.
  by rewrite (emitNode_mirror _ _ _ _ _ _ _ _ _ _ _ _ H1 Hsub).
Qed.

Lemma replayResponseItem_mirror st segment r payload o mode :
  mirrors (replayResponseItem allocate threadID st segment r payload o mode)
          (replayResponseItem allocate' threadID (setRegistry R st) segment r payload o mode).
Proof.
  unfold replayResponseItem. destruct (codexResponseNativeType (pl_Type payload)) as [ty|]; [|by apply mirrors_ok].
  set (st1 := if legacyOwn mode o then let '(opens, p) := admitResponse (pending st) payload in _ else st).
  assert ((if legacyOwn mode o then let '(opens, p) := admitResponse (pending (setRegistry R st)) payload in
    openTurn opens p (setRegistry R st) else setRegistry R st) = setRegistry R st1) as ->.
  { unfold st1. destruct (legacyOwn mode o); [|done]. cbn [pending setRegistry].
    destruct (admitResponse _ _) as [opens p]. apply openTurn_mirror. }
  clearbody st1. case_decide; [by apply emit_mirror|]. cbn [itemNodeByID responseByItem setRegistry].
  destruct (itemNodeByID st1 !! pl_ID payload) as [index|].
  { change (nodeAt (setResponse (pl_ID payload) index (setRegistry R st1)) index) with (nodeAt st1 index).
    change (nodeAt (setResponse (pl_ID payload) index st1) index) with (nodeAt st1 index).
    destruct (nodeAt st1 index) as [n|]; [|done]. simpl. case_decide; by apply mirrors_ok. }
  destruct (responseByItem st1 !! pl_ID payload) as [existing|].
  { change (nodeAt (setRegistry R st1) existing) with (nodeAt st1 existing).
    destruct (nodeAt st1 existing) as [n|]; [|done]. by apply mirrors_ok. }
  intros st' ([[i b] st2] & H1 & H2)%res_bind_ok Hsub. pose proof (pairEvent_registry _ _ _ _ _ H2) as E.
  cbn in E. rewrite E in Hsub. rewrite (emitNode_mirror _ _ _ _ _ _ _ _ _ _ _ _ H1 Hsub). simpl.
  apply (pairEvent_mirror _ _ _ _ _ H2). by rewrite E.
Qed.

Lemma replayThreadRolledBack_mirror st r payload mode :
  mirrors (replayThreadRolledBack threadID st r payload mode)
          (replayThreadRolledBack threadID (setRegistry R st) r payload mode).
Proof.
  unfold replayThreadRolledBack. case_decide; [by apply mirrors_ok|].
  destruct (pl_NumTurns payload) as [n|]; [|by apply mirrors_ok]. case_decide; [by apply mirrors_ok|].
  cbn [turns setRegistry]. case_decide; cbn [turns nodes diagnose setRegistry];
    (destruct (revert _ _); [by apply mirrors_ok|done]).
Qed.

Lemma applyItemBody_mirror st segment r event body ty role o mode :
  mirrors (applyItemBody allocate threadID st segment r event body ty role o mode)
          (applyItemBody allocate' threadID (setRegistry R st) segment r event body ty role o mode).
Proof.
  unfold applyItemBody. cbn [itemNodeByID setRegistry].
  destruct (itemNodeByID st !! eventItemID event body) as [index|].
  { change (nodeAt (setRegistry R st) index) with (nodeAt st index).
    destruct (nodeAt st index) as [n|]; [|done]. by apply mirrors_ok. }
  set (st1 := if _ && _ then let '(opens, p) := reducerAdmit (pending st) _ in _ else st).
  assert ((if legacyOwn mode o && codexItemIsAdmission event body ty
    then let '(opens, p) := reducerAdmit (pending (setRegistry R st)) (eventItemID event body) in openTurn opens p (setRegistry R st)
    else setRegistry R st) = setRegistry R st1) as ->.
  { unfold st1. destruct (legacyOwn mode o && _); [|done]. cbn [pending setRegistry].
    destruct (reducerAdmit _ _) as [opens p]. apply openTurn_mirror. }
  intros st' ([[i b] st2] & H1 & H2)%res_bind_ok Hsub. pose proof (pairEvent_registry _ _ _ _ _ H2) as E.
  cbn in E. rewrite E in Hsub. rewrite (emitNode_mirror _ _ _ _ _ _ _ _ _ _ _ _ H1 Hsub). simpl.
  apply (pairEvent_mirror _ _ _ _ _ H2). by rewrite E.
Qed.

Lemma replayMarker_mirror st r payload id o mode :
  mirrors (replayMarker st r payload id o mode) (replayMarker (setRegistry R st) r payload id o mode).
Proof.
  unfold replayMarker. case_decide; [by apply mirrors_ok|].
  cbn [itemNodeByID setEvents setRegistry pending eventOrdinal].
  destruct (itemNodeByID st !! id) as [index|].
  { unfold nodeAt at 1 2. cbn [nodes setEvents setRegistry]. repeat case_match; done || by apply mirrors_ok. }
  destruct (isCorrelated _); [|by apply mirrors_ok]. destruct (legacyOwn mode o); [|by apply mirrors_ok].
  destruct (reducerAdmit _ _) as [[] p]; by apply mirrors_ok.
Qed.

Lemma replayItemCompleted_mirror st segment r payload o mode :
  mirrors (replayItemCompleted allocate threadID st segment r payload o mode)
          (replayItemCompleted allocate' threadID (setRegistry R st) segment r payload o mode).
Proof.
  unfold replayItemCompleted. destruct (codexDecodeItemBody (pl_Item payload)) as [[body hasBody] []]; cbn [negb].
  - rewrite andb_false_r. apply (replayMarker_mirror (diagnose _ st)).
  - destruct (hasBody && true); [|apply replayMarker_mirror]. destruct (codexItemNativeType body) as [[ty role]|].
    + case_decide; [apply replayMarker_mirror|apply applyItemBody_mirror].
    + destruct (codexItemBodyCarriesPayload body); [apply (replayMarker_mirror (diagnose _ st))|apply replayMarker_mirror].
Qed.

Lemma dispatchRecord_mirror st segment r payload o mode :
  mirrors (dispatchRecord allocate threadID st segment r payload o mode)
          (dispatchRecord allocate' threadID (setRegistry R st) segment r payload o mode).
Proof.
  unfold dispatchRecord, replayEventMessage. repeat (case_decide; [|]); try by apply mirrors_ok.
  - apply mirrors_ok. unfold replayTurnContext. by destruct (mapCodexEffort _) as [m [d|]].
  - apply replayResponseItem_mirror.
  - destruct (codexNativeEventDispatch !! pl_Type payload) as [[]|]; try by apply mirrors_ok.
    + apply mirrors_ok. unfold replayItemStarted. by case_decide.
    + apply replayItemCompleted_mirror.
    + apply mirrors_ok. unfold replayTurnOpened. by case_decide.
    + apply mirrors_ok. unfold replayTurnCompleted. case_decide; [done|]. cbn [openTurns setRegistry].
      by destruct (openTurns st !! _).
    + apply replayThreadRolledBack_mirror.
    + apply mirrors_ok. unfold replayTurnAborted. by case_decide.
    + apply emit_mirror.
  - apply replayCompaction_mirror.
  - apply emit_mirror.
Qed.

Lemma replayRecord_mirror st segment r o mode :
  mirrors (replayRecord allocate threadID st segment r o mode)
          (replayRecord allocate' threadID (setRegistry R st) segment r o mode).
Proof.
  unfold replayRecord. destruct (prepareCodexRecordParsed _ _ _) as [prepared|]; [|done].
  case_decide; [apply emitUnknown_mirror|]. destruct (replayPayload prepared) as [raw|]; [|done].
  destruct (dispatchPayload _) as [payload|e]; [|done]. simpl.
  intros st' (st1 & H1 & H2)%res_bind_ok Hsub.
  pose proof (emitUnknown_registry _ _ _ _ _ _ H2) as Hreg.
  assert (registry st1 ⊆ R) as Hsub1 by (by etrans).
  destruct payload as [payload|].
  - rewrite (dispatchRecord_mirror _ _ _ _ _ _ _ H1 Hsub1). simpl. by apply (emitUnknown_mirror _ _ _ _ _ _ H2).
  - simplify_eq/=. by apply (emitUnknown_mirror _ _ _ _ _ _ H2).
Qed.

Lemma replayOne_mirror segment clamp mode st r :
  mirrors (replayOne allocate threadID segment clamp mode st r)
          (replayOne allocate' threadID segment clamp mode (setRegistry R st) r).
Proof.
  unfold replayOne. destruct (cr_Partial r || cr_Blank r); [by apply mirrors_ok|].
  destruct (cr_Malformed r); [by apply mirrors_ok|]. destruct (cr_Regressed r); [by apply mirrors_ok|].
  destruct (cr_HasOrdinal r); cbn [negb].
  - destruct (codexRecordInBounds segment r clamp); [|by apply mirrors_ok]. cbn [negb].
    case_decide; [by apply mirrors_ok|]. apply replayRecord_mirror.
  - destruct (codexUnknownInBounds segment r); [|by apply mirrors_ok]. cbn [negb].
    destruct (prepareCodexRecordParsed _ _ _); [|done]. apply emitUnknown_mirror.
Qed.

Lemma move_registry segment record o st st' : move allocate threadID segment record o st st' → registry st ⊆ registry st'.
Proof.
  intros Hm. destruct Hm as [st st' E|st st' E|st st' i n _ E|st st' n reg turn _ Hreg _ _ _ _ E|st st' i n n' id _ _ _ _ _ _ _ E
    |st st' keep ns _ E]; 
    try (unfold graph in E; injection E as Er _ _ _ _ _ _; rewrite Er; done).
  - by rewrite E.
  - apply RefFor_ok in Hreg as (_ & Hs & _). unfold graph in E. injection E as -> _ _ _ _ _ _. done.
Qed.

Lemma replayMoves_registry decoded st st' : rtc (replayMove allocate threadID decoded) st st' → registry st ⊆ registry st'.
Proof.
  induction 1 as [|x y z Hm _ IH]; [done|]. etrans; [|exact IH].
  destruct Hm as [E|(segment & record & o & _ & _ & _ & Hm)]; [|by eapply move_registry].
  unfold graph in E. injection E as -> _ _ _ _ _ _. done.
Qed.

Lemma res_fold_mirror {A} decoded (f f' : nat → codexReplayState → A → step) l i st :
  (∀ i st x, x ∈ l → inv st → mirrors (f i st x) (f' i (setRegistry R st) x) ∧ replays allocate threadID decoded st (f i st x)) →
  inv st → mirrors (res_fold f i st l) (res_fold f' i (setRegistry R st) l).
Proof.
  revert i st. induction l as [|x l IH]; intros i st Hf H; [by apply mirrors_ok|]. cbn [res_fold].
  destruct (Hf i st x ltac:(by left) H) as [Hm Hr]. intros st' (st1 & E1 & E2)%res_bind_ok Hsub.
  rewrite E1 in Hr. destruct Hr as [_ Hinv].
  assert (replays allocate threadID decoded st1 (res_fold f (S i) st1 l)) as Hl.
  { apply res_fold_replays; [|done]. intros j s y Hy Hs. by apply (Hf j s y); [right|]. }
  rewrite E2 in Hl. destruct Hl as [Hl _]. apply replayMoves_registry in Hl.
  rewrite (Hm _ E1) by (by etrans). simpl. apply IH; [|done|done|done].
  intros j s y Hy Hs. apply Hf; [by right|done].
Qed.

Lemma replaySegments_mirror st decoded mode :
  inv st → mirrors (replaySegments allocate threadID st decoded mode)
                   (replaySegments allocate' threadID (setRegistry R st) decoded mode).
Proof.
  intros H. apply (res_fold_mirror decoded); [|done]. intros i st1 segment Hs H1.
  split; [|by apply replaySegment_replays]. unfold replaySegment.
  destruct (sg_readFailed segment || _) eqn:Er; [by apply mirrors_ok|].
  apply orb_false_iff in Er as [Er Ei]. apply bool_decide_eq_false in Ei.
  destruct (sg_proofFailed segment && _); [by apply mirrors_ok|].
  apply (res_fold_mirror decoded); [|done]. intros j st2 record Hr H2. split; [apply replayOne_mirror|].
  by apply replayOne_replays.
Qed.
End mirror.

(** ** What a capture guarantees *)

Section capture.
Context `{J : CodexJson} `{P : CodexPrepare} `{SL : SchemaLib} `{T : ThinkingLib}.
Variable ReadCodexSource : string → option string.

Lemma checkpointRefs_setRegistry reg st l : checkpointRefs (setRegistry reg st) l = checkpointRefs st l.
Proof. induction l as [|i l IH]; [done|]. cbn [checkpointRefs]. by rewrite IH. Qed.

(** C30: a capture is reproducible: capturing the same source again with the
    registry the first capture left (or any registry that extends it) gives the same
    history, ref for ref and correlation for correlation, and allocates nothing,
    whatever the allocator. *)
Theorem capture_reproducible allocate allocate' a reg h reg' R :
  replayCodexHistory ReadCodexSource allocate a reg = Ok (h, reg') → reg' ⊆ R →
  replayCodexHistory ReadCodexSource allocate' a R = Ok (h, R).
Proof.
  unfold replayCodexHistory. intros [-> [-> H]%res_guard_ok]%res_guard_ok Hsub. cbn [res_guard].
  destruct (decodeReferences _ _ _ _ _ _) as [references ds]. destruct (ReadCodexSource _) as [data|]; [|done].
  apply res_bind_ok in H as (st & Hst & H). apply res_bind_ok in H as (refs & Hrefs & [= <- <-]).
  rewrite (replaySegments_mirror allocate allocate' _ R _ _ _ (inv_new reg) st Hst Hsub : replaySegments allocate' _ (newCodexReplayState R) _ _ = _).
  cbn [res_bind]. change (checkpoints (setRegistry R st)) with (checkpoints st).
  rewrite checkpointRefs_setRegistry, Hrefs. done.
Qed.

(** *** Reachable states *)

Section reachable.
Variables (allocate : nat → string) (threadID : string) (decoded : list codexDecodedSegment).

Lemma moves_invariant (I : codexReplayState → Prop) st st' :
  (∀ s s', graph s' = graph s → I s → I s') →
  (∀ segment record o s s', segment ∈ decoded → record ∈ sg_records segment → admitted segment record o →
    move allocate threadID segment record o s s' → I s → I s') →
  rtc (replayMove allocate threadID decoded) st st' → I st → I st'.
Proof.
  intros Hg Hm. induction 1 as [|x y z Hxy _ IH]; [done|]. intros Hx. apply IH.
  destruct Hxy as [E|(segment & record & o & ? & ? & ? & Hmv)]; [by eapply Hg|by eapply Hm].
Qed.

Lemma admitted_held segment record o : admitted segment record o → o ≠ CodexOwnershipExcluded.
Proof.
  intros [_ _ _ _ _ _ Ho Hu]. destruct (cr_HasOrdinal record).
  - destruct (Ho eq_refl) as (_ & -> & _). apply codexSegmentOwnership_held.
  - destruct (Hu eq_refl) as (_ & ->). apply codexUnknownOwnership_held.
Qed.

Lemma reachable_inv reg st : rtc (replayMove allocate threadID decoded) (newCodexReplayState reg) st → inv st.
Proof.
  intros H. eapply (moves_invariant inv); [| |exact H|apply inv_new].
  - intros s s' E. by apply inv_graph.
  - intros segment record o s s' _ _ Ha Hm. eapply move_keeps_inv; [by eapply admitted_held|exact Hm].
Qed.

(** A record the replay may take nodes from, with the ownership it gives them. *)
Definition source (segment : codexDecodedSegment) (record : codexHistoryRecord) (o : CodexOwnership) : Prop :=
  segment ∈ decoded ∧ record ∈ sg_records segment ∧ admitted segment record o.

(** The node was introduced by the record: its native key is one of the record, and
    its ownership is the record's, unless a rollback reverted a node of the thread. *)
Record introduced (n : CodexCapturedNode) (segment : codexDecodedSegment) (record : codexHistoryRecord)
    (o : CodexOwnership) : Prop := {
  in_source : source segment record o;
  in_key : ∃ nativeType, introduces threadID segment record (cn_NativeKey n) nativeType;
  in_owner : cn_Ownership n = o ∨ cn_Ownership n = CodexOwnershipReverted ∧ o = CodexOwnershipOwn;
}.

(** The item is one under which a record registered the node's ref. *)
Definition itemOf (reg : gmap string string) (id ref : string) : Prop :=
  ∃ segment record o, source segment record o ∧ registers threadID reg segment record id ref.

(** The node cites the record that introduced it or a record that completes an item
    the node is registered under. *)
Definition grounded (reg : gmap string string) (n : CodexCapturedNode) : Prop :=
  ∃ segment record o, introduced n segment record o ∧
    (cites threadID segment record n ∧ introduces threadID segment record (cn_NativeKey n) (cn_NativeType n) ∨
     ∃ segment' record' o' id, source segment' record' o' ∧ cites threadID segment' record' n ∧
       names threadID segment' record' id ∧ itemOf reg id (cn_Ref n)).

(** Every node is grounded and every item indexed is one of the node it leads to. *)
Record groundedState (st : codexReplayState) : Prop := {
  gs_inv : inv st;
  gs_nodes : ∀ n, n ∈ nodes st → grounded (registry st) n;
  gs_items : ∀ id i, itemNodeByID st !! id = Some i →
    ∃ n, nodes st !! Z.to_nat i = Some n ∧ itemOf (registry st) id (cn_Ref n);
}.

Lemma itemOf_mono reg reg' id ref : reg ⊆ reg' → itemOf reg id ref → itemOf reg' id ref.
Proof.
  intros Hs (segment & record & o & Hsrc & Hn & key & ty & Hk & Hr). exists segment, record, o. split; [done|].
  split; [done|]. exists key, ty. split; [done|]. by eapply lookup_weaken.
Qed.

Lemma grounded_mono reg reg' n : reg ⊆ reg' → grounded reg n → grounded reg' n.
Proof.
  intros Hs (segment & record & o & Hi & Hc). exists segment, record, o. split; [done|].
  destruct Hc as [Hc|(segment' & record' & o' & id & ? & ? & ? & Hit)]; [by left|right].
  exists segment', record', o', id. repeat (split; [done|]). by eapply itemOf_mono.
Qed.

Lemma introduced_owner n n' segment record o :
  introduced n segment record o → cn_NativeKey n' = cn_NativeKey n →
  (cn_Ownership n' = cn_Ownership n ∨ cn_Ownership n' = CodexOwnershipReverted ∧ cn_Ownership n = CodexOwnershipOwn) →
  introduced n' segment record o.
Proof.
  intros [Hs Hk Ho] Ek Eo. split; [done|by rewrite Ek|].
  destruct Eo as [->|[-> E]]; [done|right]. split; [done|]. destruct Ho as [<-|[E' ->]]; congruence.
Qed.

Lemma grounded_revert reg n :
  cn_Ownership n = CodexOwnershipOwn → grounded reg n → grounded reg (setOwnership CodexOwnershipReverted n).
Proof.
  intros Eo (segment & record & o & Hi & Hc). exists segment, record, o.
  split; [apply (introduced_owner n); [done|done|by right]|].
  assert (∀ s r, cites threadID s r n → cites threadID s r (setOwnership CodexOwnershipReverted n)) as Hcs by (intros s r []; by split).
  destruct Hc as [[Hc ?]|(segment' & record' & o' & id & Hs & Hc & ?)]; [left; auto|right].
  exists segment', record', o', id. auto.
Qed.

Lemma graph_grounded s s' : graph s' = graph s → groundedState s → groundedState s'.
Proof.
  intros E [Hi Hn Hit]. split; [by eapply inv_graph| |]; unfold graph in E; injection E as E1 E2 _ _ E3 _ _; by rewrite ?E1, ?E2, ?E3.
Qed.

Lemma move_state_inv segment record o s s' :
  source segment record o → move allocate threadID segment record o s s' → inv s → inv s'.
Proof. intros (_ & _ & Ha) Hm. by eapply move_keeps_inv; [eapply admitted_held|]. Qed.

Lemma emit_grounded segment record s n reg turn :
  source segment record (cn_Ownership n) → introduces threadID segment record (cn_NativeKey n) (cn_NativeType n) → cites threadID segment record n →
  RefFor allocate (registry s) (cn_NativeKey n) = Ok (cn_Ref n, reg) →
  let s' := setTurns turn (setNodes (nodes s ++ [n]) (addSeen (cn_NativeKey n) (setRegistry reg s))) in
  groundedState s → inv s' → groundedState s'.
Proof.
  intros Hs Hk Hc Hreg s' [Hi Hn Hit] Hi'. apply RefFor_ok in Hreg as (_ & Hsub & _). split; [done| |]; simpl.
  - intros m [Hm| ->%list_elem_of_singleton]%elem_of_app; [by eapply grounded_mono, Hn|].
    exists segment, record, (cn_Ownership n). split; [|by left]. split; [done|by eexists|by left].
  - intros id i E. destruct (Hit id i E) as (m & Hm & Hx). exists m.
    split; [by apply lookup_app_l_Some|by eapply itemOf_mono].
Qed.

Lemma replace_grounded segment record o s i n n' id :
  source segment record o → nodes s !! i = Some n → itemNodeByID s !! id = Some (Z.of_nat i) →
  names threadID segment record id → cites threadID segment record n' → cn_NativeKey n' = cn_NativeKey n →
  cn_Ref n' = cn_Ref n → cn_Ownership n' = cn_Ownership n →
  let s' := setNodes (<[i := n']> (nodes s)) s in groundedState s → inv s' → groundedState s'.
Proof.
  intros Hs Hni Eid Hnm Hc Ek Er Eo s' [Hi Hn Hit] Hi'. split; [done| |]; simpl.
  - intros m Hm. destruct (elem_of_updated _ _ _ _ _ Hni Hm) as [->|?]; [|by apply Hn].
    destruct (Hn n) as (segment0 & record0 & o0 & Hint & _); [by eapply list_elem_of_lookup_2|].
    exists segment0, record0, o0. split; [eapply introduced_owner; [done|done|by left]|]. right.
    exists segment, record, o, id. split; [done|]. split; [done|]. split; [done|]. rewrite Er.
    destruct (Hit _ _ Eid) as (m & Hm' & Hx). rewrite Nat2Z.id in Hm'. by simplify_eq.
  - intros id' j E. destruct (Hit id' j E) as (m & Hm & Hx). destruct (decide (i = Z.to_nat j)) as [->|Hij].
    + exists n'. rewrite list_lookup_insert_eq by (by eapply lookup_lt_Some). simplify_eq. by rewrite Er.
    + exists m. by rewrite list_lookup_insert_ne.
Qed.

Lemma rollback_grounded s keep ns :
  revert (nodes s) (concat (drop keep (turns s))) = Some ns →
  let s' := setTurns (take keep (turns s)) (setNodes ns s) in groundedState s → inv s' → groundedState s'.
Proof.
  intros Er s' [Hi Hn Hit] Hi'.
  destruct (revert_ok (nodes s) (concat (drop keep (turns s)))) as (ns' & E' & _ & Hns); [intros i; by apply turn_nodes|].
  rewrite Er in E'. injection E' as <-. split; [done| |]; simpl.
  - intros m [i Hm]%list_elem_of_lookup. rewrite Hns in Hm. destruct (nodes s !! i) as [n|] eqn:En; [|done].
    assert (grounded (registry s) n) as Hg by (apply Hn; by eapply list_elem_of_lookup_2).
    simpl in Hm. case_decide as Hin; simplify_eq; [|done]. apply grounded_revert; [|done].
    destruct (i_turns _ Hi i) as (n' & En' & Ho); [|by simplify_eq].
    rewrite (turns_split _ keep). apply elem_of_app. by right.
  - intros id i E. destruct (Hit id i E) as (m & Hm & Hx). rewrite Hns, Hm. simpl. eexists. split; [done|]. by case_decide.
Qed.

Lemma reachable_grounded reg st :
  rtc (replayMove allocate threadID decoded) (newCodexReplayState reg) st → groundedState st.
Proof.
  intros H. eapply (moves_invariant groundedState); [exact graph_grounded| |exact H|].
  2:{ split; [apply inv_new|by intros n ?%not_elem_of_nil|]. intros id i. simpl. by rewrite lookup_empty. }
  intros segment record o s s' Hs Hr Ha Hm Hg. assert (source segment record o) as Hsrc by done.
  pose proof (move_state_inv _ _ _ _ _ Hsrc Hm (gs_inv _ Hg)) as Hi'.
  destruct Hm as [s s' E|s s' E|s s' i n Hn E1 E2 _ _ Hit _ _|s s' n reg1 turn _ Hreg Hk Hc Ho _ E
    |s s' i n n' id Hi Eid Hnm Hc Ek Er Eo E|s s' keep ns Er E].
  - by eapply graph_grounded.
  - eapply graph_grounded; [exact E|]. destruct Hg as [Hi Hn Hit]. split; [by eapply inv_graph|done|done].
  - destruct Hg as [Hi Hns Hits]. split; [done|by rewrite E1, E2|]. intros id j Hj. rewrite E1, E2.
    destruct (Hit id j Hj) as [?|[-> Hreg]]; [by apply Hits|]. apply nodeAt_ok in Hn as [_ Hn].
    exists n. split; [done|]. by exists segment, record, o.
  - eapply graph_grounded; [exact E|]. subst o. eapply emit_grounded; try done. by eapply inv_graph.
  - eapply graph_grounded; [exact E|]. eapply replace_grounded; try done. by eapply inv_graph.
  - eapply graph_grounded; [exact E|]. apply rollback_grounded; try done. by eapply inv_graph.
Qed.

Lemma grounded_segment reg n : grounded reg n → ∃ segment, segment ∈ decoded ∧ cn_SegmentOrdinal n = sg_ordinal segment.
Proof.
  intros (segment & record & o & Hi & Hc).
  destruct Hc as [[Hc _]|(segment' & record' & o' & id & Hs & Hc & _)]; (eexists; split; [|exact (ci_segment _ _ _ _ Hc)]).
  - apply (in_source _ _ _ _ Hi).
  - apply Hs.
Qed.

(** Refs are distinct when the allocator never repeats itself nor what the
    registry already holds. *)
Record fresh (reg : gmap string string) : Prop := {
  fr_allocator : ∀ m n, allocate m = allocate n → m = n;
  fr_registry : ∀ k k' v, reg !! k = Some v → reg !! k' = Some v → k = k';
  fr_future : ∀ k v n, reg !! k = Some v → (size reg ≤ n)%nat → allocate n ≠ v;
}.

Lemma RefFor_fresh reg k r reg' : RefFor allocate reg k = Ok (r, reg') → fresh reg → fresh reg'.
Proof.
  intros H. apply RefFor_ok in H as (_ & _ & Hnew & Hold). intros [Ha Hr Hf].
  destruct (reg !! k) as [v|] eqn:Ek; [by rewrite Hold by by eexists|].
  destruct (Hnew eq_refl) as [-> ->]. split; [done| |].
  - intros k1 k2 v. destruct (decide (k1 = k)) as [->|H1], (decide (k2 = k)) as [->|H2];
      rewrite ?lookup_insert_eq, ?lookup_insert_ne by done; try done; [| |apply Hr].
    + intros [= <-] E. by destruct (Hf k2 (allocate (size reg)) (size reg) E).
    + intros E [= <-]. by destruct (Hf k1 (allocate (size reg)) (size reg) E).
  - intros k1 v n. rewrite map_size_insert, Ek. destruct (decide (k1 = k)) as [->|H1].
    + rewrite lookup_insert_eq. intros [= <-] Hn E. apply Ha in E. lia.
    + rewrite lookup_insert_ne by done. intros E Hn. apply (Hf k1); [done|lia].
Qed.

Lemma reachable_fresh reg st :
  rtc (replayMove allocate threadID decoded) (newCodexReplayState reg) st → fresh reg → fresh (registry st).
Proof.
  intros H Hf. eapply (moves_invariant (λ s, fresh (registry s))); [| |exact H|exact Hf].
  - unfold graph. intros s s' E Hs. injection E as -> _ _ _ _ _ _. done.
  - intros segment record o s s' Hs Hr Ha Hm IH.
    destruct Hm as [s s' E|s s' E|s s' i n _ E _ _ _ _ _ _|s s' n reg1 turn _ Hreg _ _ _ _ E|s s' i n n' id _ _ _ _ _ _ _ E
      |s s' keep ns _ E]; try (unfold graph in E; injection E as E _ _ _ _ _ _); rewrite E; try done.
    by eapply RefFor_fresh.
Qed.
End reachable.

Lemma refs_distinct allocate st : inv st → fresh allocate (registry st) → NoDup (cn_Ref <$> nodes st).
Proof.
  intros H Hf. apply NoDup_alt. intros i j ref Hi Hj. rewrite list_lookup_fmap in Hi, Hj.
  destruct (nodes st !! i) as [n|] eqn:En; [|done]. destruct (nodes st !! j) as [m|] eqn:Em; [|done].
  injection Hi as Hi. injection Hj as Hj. pose proof (i_reg _ H n ltac:(by eapply list_elem_of_lookup_2)) as Hn.
  pose proof (i_reg _ H m ltac:(by eapply list_elem_of_lookup_2)) as Hm. rewrite Hi in Hn. rewrite Hj in Hm.
  pose proof (fr_registry _ _ Hf _ _ _ Hn Hm) as Ek. pose proof (i_keys _ H) as Hk. rewrite NoDup_alt in Hk.
  apply (Hk i j (cn_NativeKey n)); rewrite list_lookup_fmap; [by rewrite En|by rewrite Em, Ek].
Qed.

(** *** Partitions of the refs *)

Lemma filter_partition4 (ns : list CodexCapturedNode) :
  (∀ n, n ∈ ns → cn_Ownership n ≠ CodexOwnershipExcluded) →
  codexRefsForOwnership ns CodexOwnershipOwn ++ codexRefsForOwnership ns CodexOwnershipInherited
  ++ codexRefsForOwnership ns CodexOwnershipUncertainEarlier ++ codexRefsForOwnership ns CodexOwnershipReverted
  ≡ₚ cn_Ref <$> ns.
Proof.
  unfold codexRefsForOwnership. induction ns as [|n ns IH]; intros Hx; [done|].
  assert (∀ m, m ∈ ns → cn_Ownership m ≠ CodexOwnershipExcluded) as Hns by (intros m ?; apply Hx; by right).
  specialize (IH Hns). specialize (Hx n ltac:(by left)). rewrite !filter_cons.
  destruct (cn_Ownership n); try done;
    repeat first [rewrite decide_True by done|rewrite decide_False by done]; rewrite ?fmap_cons; simpl; rewrite <- IH.
  - done.
  - by rewrite <- !Permutation_middle.
  - by rewrite <- !Permutation_middle.
  - by rewrite <- !Permutation_middle.
Qed.

Lemma filter_partition_by (ordinals : list Z) (ns : list CodexCapturedNode) :
  NoDup ordinals → (∀ n, n ∈ ns → cn_SegmentOrdinal n ∈ ordinals) →
  (ordinals ≫= λ o, cn_Ref <$> filter (λ n, cn_SegmentOrdinal n = o) ns) ≡ₚ cn_Ref <$> ns.
Proof.
  intros Hnd. induction ns as [|n ns IH]; intros Hin.
  { clear. induction ordinals as [|o os IH]; [done|]. rewrite bind_cons, IH. done. }
  rewrite fmap_cons, <- IH by (intros m ?; apply Hin; by right).
  specialize (Hin n ltac:(by left)). clear IH. induction Hnd as [|o os Ho Hnd IH]; [by apply not_elem_of_nil in Hin|].
  rewrite !bind_cons, filter_cons. destruct (decide (cn_SegmentOrdinal n = o)) as [E|E].
  - rewrite fmap_cons. simpl. apply Permutation_skip, Permutation_app_head.
    assert (∀ o', o' ∈ os → cn_SegmentOrdinal n ≠ o') as Hos.
    { intros o' Ho' Hx. apply Ho. rewrite <- E, Hx. exact Ho'. }
    clear -Hos. induction os as [|o' os IH]; [done|]. rewrite !bind_cons, filter_cons.
    rewrite decide_False by (apply Hos; by left). rewrite IH; [done|]. intros o2 Ho2. apply Hos. by right.
  - apply elem_of_cons in Hin as [Hin|Hin]; [done|].
    etrans; [apply Permutation_app_head, (IH Hin)|]. by rewrite Permutation_middle.
Qed.

Lemma decodeReference_ordinal a mode seen index ref : sg_ordinal (decodeReference ReadCodexSource a mode seen index ref).1.2 = index.
Proof. unfold decodeReference. repeat case_match; done. Qed.

Lemma decodeReferences_ordinals a mode seen index refs :
  sg_ordinal <$> (decodeReferences ReadCodexSource a mode seen index refs).1 = seqZ index (Z.of_nat (length refs)) ∧
  length (decodeReferences ReadCodexSource a mode seen index refs).1 = length refs.
Proof.
  revert seen index. induction refs as [|ref refs IH]; intros seen index; [done|]. cbn [decodeReferences].
  pose proof (decodeReference_ordinal a mode seen index ref) as Ho.
  destruct (decodeReference _ _ _ _ _ _) as [[seen' segment] ds]. specialize (IH seen' (index + 1)).
  destruct (decodeReferences _ _ _ _ _ _) as [segments ds']. cbn [fst snd] in *. destruct IH as [IH1 IH2].
  rewrite fmap_cons, IH1, Ho. cbn [length]. rewrite IH2. split; [|done]. rewrite (seqZ_cons index) by lia. f_equal. f_equal; lia.
Qed.

Lemma bind_fmap_list {A B C} (f : A → B) (g : B → list C) (l : list A) : (f <$> l) ≫= g = l ≫= λ x, g (f x).
Proof. induction l as [|x l IH]; [done|]. rewrite fmap_cons, !bind_cons. by rewrite IH. Qed.

(** The parts of a successful capture. *)
Lemma capture_parts allocate a reg h reg' :
  replayCodexHistory ReadCodexSource allocate a reg = Ok (h, reg') →
  ∃ decoded st, NoDup (sg_ordinal <$> decoded) ∧
    replaySegments allocate (au_StableThreadID a) (newCodexReplayState reg) decoded (h_Mode h) = Ok st ∧
    h_Nodes h = nodes st ∧ h_Segments h = buildCodexSegments decoded (nodes st) ∧
    h_CapturedSegments h = buildCodexCapturedSegments decoded ∧
    h_Fingerprint h = codexFingerprint a (h_Completeness h) decoded ∧ registry st = reg' ∧
    checkpointRefs st (checkpoints st) = Ok (h_CheckpointRefs h) ∧
    h_MainRefs h = codexRefsForOwnership (nodes st) CodexOwnershipOwn ∧
    h_InheritedRefs h = codexRefsForOwnership (nodes st) CodexOwnershipInherited ∧
    h_EarlierRefs h = codexRefsForOwnership (nodes st) CodexOwnershipUncertainEarlier ∧
    h_RevertedRefs h = codexRefsForOwnership (nodes st) CodexOwnershipReverted.
Proof.
  unfold replayCodexHistory. intros [_ [_ H]%res_guard_ok]%res_guard_ok.
  pose proof (decodeReferences_ordinals a (resolveCodexHistoryMode (au_HistoryMode a)) {[au_CurrentPointer a]} 0
    (au_References a)) as [Ho Hl].
  destruct (decodeReferences _ _ _ _ _ _) as [references ds]. destruct (ReadCodexSource _) as [data|]; [|done].
  apply res_bind_ok in H as (st & Hst & H). apply res_bind_ok in H as (refs & Hrefs & [= <- <-]).
  eexists _, st. split_and!; [|exact Hst|done..|exact Hrefs|done|done|done|done].
  rewrite fmap_app. cbn [fst] in *. rewrite Ho. simpl. rewrite Hl.
  pose proof (seqZ_S 0 (length (au_References a))) as E. rewrite Z.add_0_l in E. rewrite <- E. apply NoDup_seqZ.
Qed.

Lemma checkpointRefs_spec st l refs :
  checkpointRefs st l = Ok refs → ∀ r, r ∈ refs → ∃ n, n ∈ nodes st ∧ cn_Ownership n = CodexOwnershipOwn ∧ cn_Ref n = r.
Proof.
  revert refs. induction l as [|i l IH]; intros refs; cbn [checkpointRefs]; [by intros [= <-] r ?%not_elem_of_nil|].
  intros (n & Hn & (refs' & E & [= <-])%res_bind_ok)%res_bind_ok r. apply nodeAt_ok in Hn as [_ Hn].
  case_bool_decide as Ho; [|by apply IH]. intros [->|Hr]%elem_of_cons; [|by eapply IH].
  exists n. split_and!; [by eapply list_elem_of_lookup_2|by destruct Ho|done].
Qed.

Lemma checkpointRefs_total st l :
  (∀ i, i ∈ l → 0 ≤ i < Z.of_nat (length (nodes st))) → ∃ refs, checkpointRefs st l = Ok refs.
Proof.
  induction l as [|i l IH]; intros Hl; [by eexists|]. cbn [checkpointRefs].
  destruct (nodeAt_range st i) as [n ->]; [apply Hl; by left|].
  destruct IH as [refs ->]; [intros j ?; apply Hl; by right|]. simpl. by eexists.
Qed.

(** A capture never panics: whatever the records, the references, the registry
    and the allocator, every index the replay stores (of an item, a response, a
    checkpoint or a turn) is the position of a node, so no access is out of range. *)
Theorem capture_never_panics allocate a reg :
  replayCodexHistory ReadCodexSource allocate a reg ≠ Err Panicked.
Proof.
  unfold replayCodexHistory, res_guard. destruct (CodexSourceAuthorityKind_IsValid _); [|done].
  case_bool_decide; [|done]. destruct (decodeReferences _ _ _ _ _ _) as [references ds].
  destruct (ReadCodexSource _) as [data|]; [|done].
  set (decoded := references ++ _). set (mode := resolveCodexHistoryMode _).
  pose proof (replaySegments_replays allocate (au_StableThreadID a) _ decoded mode (inv_new reg)) as Hr.
  destruct (replaySegments _ _ _ _ _) as [st|e]; simpl in *; [|congruence]. destruct Hr as [_ Hinv].
  destruct (checkpointRefs_total st (checkpoints st)) as [refs ->]; [|done]. apply Hinv.
Qed.

(** C31: every node of a capture is grounded in the record that introduced it and in
    the record it cites.  A record introduced it: a complete, decoded, advancing
    record inside the native bounds of a readable and not excluded segment (inside
    the proven ordinals when the proof of the reference failed), whose own native key
    (of its prepared payload, or its opaque position) is the node's; and the node's
    ownership is the one this record has in its segment, or [reverted] where that was
    the thread's own.  The position, ordinal, type and prepared payload it carries are
    those of this same record, and its native type is the one of its key; or they are
    those of another such record that completes an item under which a record
    registered the node's ref.  If the allocator repeats no ref, that record
    has the node's native key. *)
Theorem replay_grounded allocate threadID reg decoded mode st :
  replaySegments allocate threadID (newCodexReplayState reg) decoded mode = Ok st →
  (∀ n, n ∈ nodes st →
    ∃ segment record o, introduced threadID decoded n segment record o ∧
      (cites threadID segment record n ∧ introduces threadID segment record (cn_NativeKey n) (cn_NativeType n) ∨
       ∃ segment' record' o' id, source decoded segment' record' o' ∧ cites threadID segment' record' n ∧
         names threadID segment' record' id ∧ itemOf threadID decoded (registry st) id (cn_Ref n))) ∧
  (fresh allocate reg → ∀ n id, n ∈ nodes st → itemOf threadID decoded (registry st) id (cn_Ref n) →
    ∃ segment record o, source decoded segment record o ∧ names threadID segment record id ∧
      ∃ nativeType, introduces threadID segment record (cn_NativeKey n) nativeType).
Proof.
  intros E. pose proof (replaySegments_replays allocate threadID _ decoded mode (inv_new reg)) as Hr.
  rewrite E in Hr. destruct Hr as [Hm Hinv]. split; [apply (gs_nodes _ _ _ (reachable_grounded _ _ _ _ _ Hm))|].
  intros Hf n id Hn (segment & record & o & Hs & Hnm & key & ty & Hk & Hreg). exists segment, record, o.
  split; [done|]. split; [done|]. exists ty. pose proof (reachable_fresh _ _ _ _ _ Hm Hf) as Hf'.
  by rewrite (fr_registry _ _ Hf' _ _ _ (i_reg _ Hinv _ Hn) Hreg).
Qed.

(** The refs of a capture partition its nodes, twice: by ownership (main,
    inherited, earlier and reverted) and by the segment that captured them; surviving
    checkpoints are main refs; native keys are distinct and the registry left behind,
    an extension of the one given, holds the ref of every one of them; and refs are
    distinct if the allocator does not repeat itself. *)
Theorem capture_graph allocate a reg h reg' :
  replayCodexHistory ReadCodexSource allocate a reg = Ok (h, reg') →
  h_MainRefs h ++ h_InheritedRefs h ++ h_EarlierRefs h ++ h_RevertedRefs h ≡ₚ cn_Ref <$> h_Nodes h ∧
  (h_Segments h ≫= CapturedRefs) ≡ₚ cn_Ref <$> h_Nodes h ∧
  (∀ r, r ∈ h_CheckpointRefs h → r ∈ h_MainRefs h) ∧
  NoDup (cn_NativeKey <$> h_Nodes h) ∧ reg ⊆ reg' ∧
  (∀ n, n ∈ h_Nodes h → reg' !! cn_NativeKey n = Some (cn_Ref n)) ∧
  (fresh allocate reg → NoDup (cn_Ref <$> h_Nodes h)).
Proof.
  intros H. destruct (capture_parts _ _ _ _ _ H) as (decoded & st & Hnd & Hst & En & Es & _ & _ & Er & Hc & E1 & E2 & E3 & E4).
  pose proof (replaySegments_replays allocate (au_StableThreadID a) _ decoded (h_Mode h) (inv_new reg)) as Hr.
  rewrite Hst in Hr. destruct Hr as [Hm Hinv]. rewrite En, Es, E1, E2, E3, E4, <- Er. split_and!.
  - apply filter_partition4, (i_owned _ Hinv).
  - unfold buildCodexSegments. rewrite bind_fmap_list. simpl.
    etrans; [|apply (filter_partition_by (sg_ordinal <$> decoded)); [done|]].
    + by rewrite bind_fmap_list.
    + intros n Hn. destruct (grounded_segment _ _ _ _ (gs_nodes _ _ _ (reachable_grounded _ _ _ _ _ Hm) n Hn)) as (segment & Hs & ->).
      apply list_elem_of_fmap. by exists segment.
  - intros r Hx. destruct (checkpointRefs_spec _ _ _ Hc r Hx) as (n & Hn & Ho & <-). unfold codexRefsForOwnership.
    apply list_elem_of_fmap. exists n. split; [done|]. by apply list_elem_of_filter.
  - apply (i_keys _ Hinv).
  - by apply (replayMoves_registry _ _ _ _ _ Hm).
  - apply (i_reg _ Hinv).
  - intros Hf. eapply refs_distinct; [done|]. by eapply reachable_fresh.
Qed.

(** C32: in a legacy rollout a rollback of [n] turns reverts exactly the nodes of the
    last [n] open instruction turns (of all of them when fewer are open, which is
    reported) and keeps the earlier turns, whose nodes stay the thread's own; no other
    node changes.  In any other mode it changes no node and no turn. *)
Theorem rollback_exact allocate threadID decoded reg st r payload mode n :
  rtc (replayMove allocate threadID decoded) (newCodexReplayState reg) st →
  pl_NumTurns payload = Some n → 0 < n →
  let keep := (length (turns st) - Z.to_nat n)%nat in
  ∃ st', replayThreadRolledBack threadID st r payload mode = Ok st' ∧
    if decide (mode = CodexHistoryModeLegacy) then
      turns st' = take keep (turns st) ∧
      (∀ i, nodes st' !! i = (λ m, if decide (i ∈ concat (drop keep (turns st)))
                                   then setOwnership CodexOwnershipReverted m else m) <$> nodes st !! i) ∧
      (∀ i, i ∈ concat (turns st') → ∃ m, nodes st' !! i = Some m ∧ cn_Ownership m = CodexOwnershipOwn) ∧
      (diagnostics st' = diagnostics st ++
        if decide (n > Z.of_nat (length (turns st)))
        then [mkDiagnostic "codex_rollback_beyond_history" (codexRecordLocation threadID r)] else [])
    else nodes st' = nodes st ∧ turns st' = turns st ∧
      diagnostics st' = diagnostics st ++ [mkDiagnostic "codex_paginated_rollback_anomaly" (codexRecordLocation threadID r)].
Proof.
  clear ReadCodexSource. intros Hreach Hn Hpos keep. pose proof (reachable_inv _ _ _ _ _ Hreach) as Hinv.
  unfold replayThreadRolledBack. destruct (decide (mode = CodexHistoryModeLegacy)) as [->|Hmode].
  2:{ rewrite decide_True by done. by eexists. }
  rewrite decide_False, Hn, decide_False by (done || lia || tauto).
  destruct (revert_ok (nodes st) (concat (drop keep (turns st)))) as (ns & Ens & _ & Hns).
  { intros i. by apply turn_nodes. }
  destruct (decide (n > Z.of_nat (length (turns st)))) as [Hgt|Hle]; cbn [turns nodes diagnose].
  - assert (Z.to_nat (Z.of_nat (length (turns st)) - Z.of_nat (length (turns st))) = keep) as -> by lia.
    rewrite Ens. eexists. split; [done|]. split_and!; [done|exact Hns| |done].
    assert (keep = 0%nat) as -> by lia. by intros i ?%not_elem_of_nil.
  - assert (Z.to_nat (Z.of_nat (length (turns st)) - n) = keep) as -> by lia.
    rewrite Ens. eexists. split; [done|]. split_and!; [done|exact Hns| |by rewrite app_nil_r].
    assert (inv (setTurns (take keep (turns st)) (setNodes ns st))) as Hinv' by (by eapply inv_rollback).
    apply (i_turns _ Hinv').
Qed.
End capture.

(** ** Capture with retry *)

Section retry.
Context `{J : CodexJson} `{P : CodexPrepare} `{SL : SchemaLib} `{T : ThinkingLib}.
(** The source as time passes: what the [t]-th capture resolves and reads. *)
Variable Resolve : nat → option CodexSourceAuthority.
Variable Read : nat → string → option string.
(** The registry's allocator, and those of the registries of the rechecks. *)
Variables (allocate : nat → string) (recheck : nat → nat → string).

Definition CaptureCodexHistory (t : nat) (alloc : nat → string) (reg : gmap string string) :
    result replayError (CodexCapturedHistory * gmap string string) :=
  match Resolve t with
  | None => Err AuthorityUnresolved
  | Some a => replayCodexHistory (Read t) alloc a reg
  end.

Definition maxCodexCaptureAttempts : nat := 3.

(** The three ways [CaptureCodexHistoryWithRetry] returns. *)
Inductive captureOutcome :=
  | Stable (h : CodexCapturedHistory)
  | Failed (e : replayError)
  | SourceChanged (last : option CodexCapturedHistory) (attempts : nat).

(** The remaining attempts of the loop; an attempt captures and then rechecks with a
    registry of its own ([codexCaptureIsStable]). *)
Fixpoint captureAttempts (n t : nat) (reg : gmap string string) (last : option CodexCapturedHistory) : captureOutcome :=
  match n with
  | O => SourceChanged last maxCodexCaptureAttempts
  | S n =>
      match CaptureCodexHistory t allocate reg with
      | Err e => Failed e
      | Ok (captured, reg) =>
          match CaptureCodexHistory (S t) (recheck t) ∅ with
          | Err e => Failed e
          | Ok (again, _) =>
              if decide (h_Fingerprint again = h_Fingerprint captured) then Stable captured
              else captureAttempts n (S (S t)) reg (Some captured)
          end
      end
  end.

Definition CaptureCodexHistoryWithRetry (reg : gmap string string) : captureOutcome :=
  captureAttempts maxCodexCaptureAttempts 0 reg None.

(** What a fingerprint hashes. *)
Definition fingerprintFields (a : CodexSourceAuthority) (completeness : string) (segments : list codexDecodedSegment) :=
  codexAuthoritySignature a :: completeness :: (segments ≫= segmentFields).

Lemma cons_split {A} (x y : A) l k : x :: l = y :: k → x = y ∧ l = k.
Proof. by intros [= -> ->]. Qed.

Lemma captureAttempts_stable n t reg last h :
  captureAttempts n t reg last = Stable h →
  ∃ k reg1 reg2 reg3 again, (k < n)%nat ∧
    CaptureCodexHistory (t + 2 * k) allocate reg1 = Ok (h, reg2) ∧
    CaptureCodexHistory (S (t + 2 * k)) (recheck (t + 2 * k)) ∅ = Ok (again, reg3) ∧
    h_Fingerprint again = h_Fingerprint h.
Proof.
  revert t reg last. induction n as [|n IH]; intros t reg last; [done|]. cbn [captureAttempts].
  destruct (CaptureCodexHistory t allocate reg) as [[captured reg2]|e] eqn:E1; [|done].
  destruct (CaptureCodexHistory (S t) _ ∅) as [[again reg3]|e] eqn:E2; [|done].
  case_decide as Hf.
  - intros [= <-]. exists 0%nat, reg, reg2, reg3, again. rewrite Nat.add_0_r. split_and!; [lia|done|done|done].
  - intros Hs. destruct (IH _ _ _ Hs) as (k & r1 & r2 & r3 & again' & Hk & H1 & H2 & H3).
    exists (S k), r1, r2, r3, again'. replace (t + 2 * S k)%nat with (S (S t) + 2 * k)%nat by lia.
    split_and!; [lia|done|done|done].
Qed.

(** A capture is only returned as stable when a second, independent resolution
    and capture of the source right after it agreed: if the digest does not collide
    on the two inputs, the second saw the same authority, the same completeness and,
    segment by segment, the same coordinates, checkpoints and digests of the bounded
    bytes and of the partial tail; at most three attempts are made. *)
Theorem retry_stable reg h :
  CaptureCodexHistoryWithRetry reg = Stable h →
  ∃ k a a' again decoded decoded', (k < maxCodexCaptureAttempts)%nat ∧
    Resolve (2 * k) = Some a ∧ Resolve (S (2 * k)) = Some a' ∧
    h_CapturedSegments h = buildCodexCapturedSegments decoded ∧
    h_CapturedSegments again = buildCodexCapturedSegments decoded' ∧
    (let x := writeAll (fingerprintFields a (h_Completeness h) decoded) in
     let y := writeAll (fingerprintFields a' (h_Completeness again) decoded') in
     (Sum256_Hex y = Sum256_Hex x → y = x) →
     Forall encodable (authorityFields a) → Forall encodable (authorityFields a') →
     Forall encodable (fingerprintFields a (h_Completeness h) decoded) →
     Forall encodable (fingerprintFields a' (h_Completeness again) decoded') →
     signedAuthority a = signedAuthority a' ∧ h_Completeness h = h_Completeness again ∧
     decoded ≫= segmentFields = decoded' ≫= segmentFields).
Proof.
  intros Hs. destruct (captureAttempts_stable _ _ _ _ _ Hs) as (k & r1 & r2 & r3 & again & Hk & H1 & H2 & Hf).
  unfold CaptureCodexHistory in H1, H2. simpl in H1, H2.
  destruct (Resolve (k + (k + 0))) as [a|] eqn:Ea; [|done]. destruct (Resolve (S (k + (k + 0)))) as [a'|] eqn:Ea'; [|done].
  destruct (capture_parts _ _ _ _ _ _ H1) as (decoded & st & _ & _ & _ & _ & Hc & Hfp & _).
  destruct (capture_parts _ _ _ _ _ _ H2) as (decoded' & st' & _ & _ & _ & _ & Hc' & Hfp' & _).
  exists k, a, a', again, decoded, decoded'. split_and!; [done|done|done|done|done|].
  intros x y Hhash Ha Ha' Hl Hl'. rewrite Hfp, Hfp' in Hf. specialize (Hhash Hf).
  apply (writeAll_inj _ _ Hl' Hl) in Hhash. apply cons_split in Hhash as [E1 Hhash].
  apply cons_split in Hhash as [E2 E3].
  split_and!; [|by symmetry|by symmetry]. apply signature_fields; [exact Ha|exact Ha'|by symmetry].
Qed.
End retry.

(** ** Examples *)

#[local] Existing Instance demoSchema.

(** A payload is a letter and an identity: [u] and [a] are user and assistant
    messages, [k] a completed item, [b] a rollback, [s] a compaction summary. *)
#[export] Instance demoPrepare : CodexPrepare := {|
  RetainedUnknown := string;
  prepareCodexRecordParsed raw _ _ :=
    env ← decodeEnvelope raw;
    Some (if recognizedCodexEnvelopeType (en_Type env) then mkPrepared raw {["payload" := en_Payload env]} []
          else mkPrepared "" ∅ [raw]);
  decodePayloadFields p :=
    match p with
    | String c id =>
        if decide (c = "u"%char) then
          Some (mkPayload "message" "user" id "" "" "" "" None None None "" "" noDelivery "" "", "")
        else if decide (c = "a"%char) then
          Some (mkPayload "message" "assistant" id "" "" "" "" None None None "" "" noDelivery "" "", "")
        else if decide (c = "k"%char) then
          Some (mkPayload "item_completed" "" "" "" "" "" "" None None None "" id noDelivery "" "", "")
        else if decide (c = "b"%char) then
          Some (mkPayload "thread_rolled_back" "" "" "" "" "" "" None (digit id) None "" "" noDelivery "" "", "")
        else if decide (c = "s"%char) then
          Some (mkPayload "" "" "" "" "" "" "" (Some id) None None "" "" noDelivery "" "", "")
        else None
    | "" => None
    end;
  decodeBodyFields b := Some (mkBody "UserMessage" "" b "" "" "" "" "" "" "" "" "" "" "" "" "" "" noDelivery, "");
  decodeNativeIDs p :=
    match p with
    | String c id =>
        if decide (c = "k"%char) then Some ("", "", id)
        else if decide (c = "u"%char ∨ c = "a"%char) then Some (id, "", "") else Some ("", "", "")
    | "" => None
    end;
  decodeEffortField _ := None;
  RoleSystem := "system";
|}.

Definition demoAllocate (n : nat) : string := "e" +:+ pretty n.

Definition demoParentFile : string := demoLines ["Rup"; "Raq"; "Rur"].

(** A source with one parent and a current file. *)
Definition demoRead (current : list string) (pointer : string) : option string :=
  if decide (pointer = "/parent") then Some demoParentFile
  else if decide (pointer = "/current") then Some (demoLines current) else None.

Definition demoCapture (current : list string) : result replayError (CodexCapturedHistory * gmap string string) :=
  replayCodexHistory (demoRead current) demoAllocate demoAuthority ∅.

(** The item of each node and its ownership, and the completeness. *)
Definition outcome (current : list string) : option (list (string * CodexOwnership) * string) :=
  match demoCapture current with
  | Ok (h, _) => Some ((λ n, (cn_ItemID n, cn_Ownership n)) <$> h_Nodes h, h_Completeness h)
  | Err _ => None
  end.

(** Two records of the parent are inherited; the rollback removes the second
    instruction turn of the current file with its answer. *)
Example rollback_demo :
  outcome ["Ru1"; "Ra2"; "Ru3"; "Ra4"; "?z"; "Eb1"; "Cs"; "Csum"] =
    Some ([("p", CodexOwnershipInherited); ("q", CodexOwnershipInherited);
           ("1", CodexOwnershipOwn); ("2", CodexOwnershipOwn);
           ("3", CodexOwnershipReverted); ("4", CodexOwnershipReverted);
           ("", CodexOwnershipReverted); ("", CodexOwnershipOwn)], "complete").
Proof. by vm_compute. Qed.

(** A response, its completed item and a repeated response are one user input, but
    the reducer forgets the input once the first two are paired: the third record
    opens a second, empty turn, and the rollback of one turn removes only that. *)
Example repeated_response_opens_turn :
  outcome ["Ru1"; "Ra2"; "Ek1"; "Eb1"] =
    Some ([("p", CodexOwnershipInherited); ("q", CodexOwnershipInherited);
           ("1", CodexOwnershipReverted); ("2", CodexOwnershipReverted)], "complete") ∧
  outcome ["Ru1"; "Ra2"; "Ek1"; "Ru1"; "Eb1"] =
    Some ([("p", CodexOwnershipInherited); ("q", CodexOwnershipInherited);
           ("1", CodexOwnershipOwn); ("2", CodexOwnershipOwn)], "complete").
Proof. by vm_compute. Qed.

Definition demoCurrent : list string := ["Ru1"; "Ra2"; "Ru3"].

Lemma demoAllocate_fresh : fresh demoAllocate ∅.
Proof.
  split; [|by intros k k' v; rewrite lookup_empty|by intros k v n; rewrite lookup_empty].
  intros m n [= E]. by apply pretty_nat_inj in E.
Qed.

Lemma demoCapture_ok : ∃ h reg, demoCapture demoCurrent = Ok (h, reg).
Proof.
  assert (match demoCapture demoCurrent with Ok _ => True | Err _ => False end) as H by (by vm_compute).
  destruct (demoCapture demoCurrent) as [[h reg]|]; [by exists h, reg|done].
Qed.

Lemma capture_graph_witness :
  ∃ h reg, demoCapture demoCurrent = Ok (h, reg) ∧ NoDup (cn_Ref <$> h_Nodes h).
Proof.
  destruct demoCapture_ok as (h & reg & E). exists h, reg. split; [exact E|].
  apply (capture_graph (demoRead demoCurrent) demoAllocate demoAuthority ∅ h reg E). apply demoAllocate_fresh.
Defined.

Lemma capture_reproducible_witness :
  ∃ h reg, demoCapture demoCurrent = Ok (h, reg) ∧
    replayCodexHistory (demoRead demoCurrent) (λ _, "") demoAuthority reg = Ok (h, reg).
Proof.
  destruct demoCapture_ok as (h & reg & E). exists h, reg. split; [exact E|].
  by apply (capture_reproducible (demoRead demoCurrent) demoAllocate (λ _, "") demoAuthority ∅ h reg reg E).
Defined.

Definition demoReplay : step :=
  replaySegments demoAllocate "t" (newCodexReplayState ∅)
    [currentSegment demoAuthority CodexHistoryModeLegacy 0 (demoLines demoCurrent)] CodexHistoryModeLegacy.

Lemma demoReplay_ok : ∃ st, demoReplay = Ok st ∧ length (nodes st) = 3%nat ∧ turns st = [[0%nat; 1%nat]; [2%nat]].
Proof.
  assert (match demoReplay with
    | Ok st => length (nodes st) = 3%nat ∧ turns st = [[0%nat; 1%nat]; [2%nat]] | Err _ => False end) as H by (by vm_compute).
  destruct demoReplay as [st|]; [by exists st|done].
Qed.

Lemma replay_grounded_witness :
  ∃ st n, demoReplay = Ok st ∧ n ∈ nodes st ∧
    ∃ segment record o, introduced "t" [currentSegment demoAuthority CodexHistoryModeLegacy 0 (demoLines demoCurrent)]
      n segment record o.
Proof.
  destruct demoReplay_ok as (st & E & Hl & _). destruct (nodes st) as [|n ns] eqn:En; [done|].
  exists st, n. split; [done|]. assert (n ∈ nodes st) as Hn by (rewrite En; by left). split; [exact Hn|].
  destruct (proj1 (replay_grounded demoAllocate "t" ∅ _ CodexHistoryModeLegacy st E) n Hn) as (segment & record & o & Hi & _).
  by exists segment, record, o.
Defined.

Lemma rollback_exact_witness :
  ∃ st st', demoReplay = Ok st ∧
    replayThreadRolledBack "t" st (lineRecord "" 0 0 0 0 false)
      (mkPayload "thread_rolled_back" "" "" "" "" "" "" None (Some 1) None "" "" noDelivery "" "") CodexHistoryModeLegacy = Ok st' ∧
    turns st' = [[0%nat; 1%nat]].
Proof.
  destruct demoReplay_ok as (st & E & _ & Ht).
  pose proof (replaySegments_replays demoAllocate "t" _
    [currentSegment demoAuthority CodexHistoryModeLegacy 0 (demoLines demoCurrent)] CodexHistoryModeLegacy (inv_new ∅)) as Hr.
  fold demoReplay in Hr. rewrite E in Hr. destruct Hr as [Hr _].
  destruct (rollback_exact demoAllocate "t" _ ∅ st (lineRecord "" 0 0 0 0 false)
    (mkPayload "thread_rolled_back" "" "" "" "" "" "" None (Some 1) None "" "" noDelivery "" "")
    CodexHistoryModeLegacy 1 Hr eq_refl eq_refl) as (st' & E' & H).
  exists st, st'. split; [done|]. split; [done|]. simpl in H. destruct H as [-> _]. by rewrite Ht.
Defined.

(** A source whose first recheck sees another file. *)
Definition demoGrowing (t : nat) : string → option string := demoRead (if decide (t = 0%nat) then [] else demoCurrent).
Definition demoRetry : captureOutcome :=
  CaptureCodexHistoryWithRetry (λ _, Some demoAuthority) demoGrowing demoAllocate (λ _, demoAllocate) ∅.

Lemma retry_stable_witness :
  ∃ h, demoRetry = Stable h ∧ ∃ k a, (k < maxCodexCaptureAttempts)%nat ∧ Some demoAuthority = Some a.
Proof.
  assert (match demoRetry with Stable h => True | _ => False end) as H by (by vm_compute).
  destruct demoRetry as [h| |] eqn:E; [|destruct H|destruct H]. exists h. split; [done|].
  destruct (retry_stable (λ _, Some demoAuthority) demoGrowing demoAllocate (λ _, demoAllocate) ∅ h E)
    as (k & a & _ & _ & _ & _ & Hk & Ha & _).
  exists k, a. by split.
Defined.
