(* ===== verification/Negotiation.v ===== *)
(** * Contract versions: what the village accepts and serves

    [src/internal/village/negotiate.go], the envelope settling of
    [pull_contract.go] and [pull.go], and the push preflight
    [src/internal/push/negotiate.go].  A version header is compared digit by digit,
    never converted to an integer; the first theorem says that this is the
    comparison by value.  Errors keep their kind, not their prose. *)
From S2P Require Import Prelude GoStrings GoText.
From Stdlib Require Import Ascii.
Local Open Scope string_scope.
Local Open Scope list_scope.

(** ** Versions *)

Definition digit (c : ascii) : bool := between 48 57 c.

(** The loop of [leadingDigits]. *)
Fixpoint digit_run (s : string) : string :=
  match s with
  | String c s => if digit c then String c (digit_run s) else ""
  | EmptyString => ""
  end.
Definition leadingDigits (s : string) : string := TrimLeft (digit_run s) "0".

(** [strings.SplitN] for at least one piece. *)
Fixpoint SplitN (c : ascii) (n : nat) (s : string) : list string :=
  match n with
  | O | 1 => [s]
  | S n' =>
    match IndexByte s c with
    | Some i => str_take i s :: SplitN c n' (str_drop (S i) s)
    | None => [s]
    end
  end.

Definition dot : ascii := "."%char.
Definition semverParts (v : string) : string * string * string :=
  let parts := SplitN dot 3 v in
  let part i := leadingDigits (default "" (parts !! i)) in
  (part 0, part 1, part 2).

(** [strings.Compare]. *)
Fixpoint Compare (a b : string) : Z :=
  match a, b with
  | EmptyString, EmptyString => 0
  | EmptyString, String _ _ => -1
  | String _ _, EmptyString => 1
  | String x a, String y b =>
    if decide (x = y) then Compare a b
    else if decide (N_of_ascii x < N_of_ascii y)%N then -1 else 1
  end.

Definition compareDigits (a b : string) : Z :=
  if decide (String.length a ≠ String.length b) then
    if decide (String.length a < String.length b)%nat then -1 else 1
  else Compare a b.

Definition compareSemver (a b : string) : Z :=
  let '(a0, a1, a2) := semverParts a in
  let '(b0, b1, b2) := semverParts b in
  let c := compareDigits a0 b0 in
  if decide (c ≠ 0%Z) then c
  else let c := compareDigits a1 b1 in
       if decide (c ≠ 0%Z) then c else compareDigits a2 b2.

Definition sameMinor (a b : string) : bool :=
  let '(a0, a1, _) := semverParts a in
  let '(b0, b1, _) := semverParts b in
  bool_decide (a0 = b0) && bool_decide (a1 = b1).

Definition CanDowngrade (cli target : string) : bool :=
  bool_decide ((semverParts cli).1.1 = (semverParts target).1.1).

(** ** The push window *)

Inductive ContractNegotiation :=
  | NegotiationWithin | NegotiationOlderThanMin | NegotiationAheadOfCurrent | NegotiationUnadvertised.

Definition ClassifyContract (cli min current : string) : ContractNegotiation :=
  if decide (min = "" ∧ current = "") then NegotiationUnadvertised
  else if decide (current ≠ "" ∧ (0 < compareSemver cli current)%Z) then NegotiationAheadOfCurrent
  else if decide (min ≠ "" ∧ (compareSemver cli min < 0)%Z) then NegotiationOlderThanMin
  else NegotiationWithin.

(** The versions and capabilities a village advertises. *)
Record SchemaVersionResponse := {
  PushContractVersion : string;
  MinPushContractVersion : string;
  ContentCapabilities : list string;
  PullVersion : string;
  MinPullVersion : string;
  MaxPullVersion : string;
}.

Record RemoteCapabilitySupport := {
  Capabilities : list string;
  Known : bool;
  Unavailable : bool;
}.

(** The schema package: the required tokens a receiver does not advertise, and
    the tokens it knows. *)
Class CapabilityLib := {
  MissingContentCapabilities : list string → list string → list string;
  KnownContentCapabilities : list string → list string;
}.

Definition Shortfall `{CapabilityLib} (s : RemoteCapabilitySupport) (required : list string) : list string :=
  if Known s then MissingContentCapabilities (Capabilities s) required else KnownContentCapabilities required.

Inductive NegotiationError := UpgradeCLI (cli min : string) | CannotDowngrade (cli current : string).

Definition PublishSchemaVersion : string := "0.1.1".

(** [Pipeline.negotiate]: the answer of the version query is [None] when the query
    failed, [Some None] when it had no body. *)
Definition negotiate (answer : option (option SchemaVersionResponse))
    : result NegotiationError (string * RemoteCapabilitySupport) :=
  let cli := PublishSchemaVersion in
  match answer with
  | None => Ok (cli, {| Capabilities := []; Known := false; Unavailable := true |})
  | Some None => Ok (cli, {| Capabilities := []; Known := false; Unavailable := false |})
  | Some (Some resp) =>
    let support := {| Capabilities := ContentCapabilities resp; Known := true; Unavailable := false |} in
    match ClassifyContract cli (MinPushContractVersion resp) (PushContractVersion resp) with
    | NegotiationOlderThanMin => Err (UpgradeCLI cli (MinPushContractVersion resp))
    | NegotiationAheadOfCurrent =>
      require CanDowngrade cli (PushContractVersion resp) else CannotDowngrade cli (PushContractVersion resp) in
      Ok (PushContractVersion resp, support)
    | _ => Ok (cli, support)
    end
  end.

(** ** The pull window *)

Definition PullContractVersion : string := "0.3.0".
Definition MinPullContractVersion : string := "0.2.0".
Definition readablePullEnvelopes : list string := [PullContractVersion; MinPullContractVersion].

Definition readablePullEnvelope (version : string) : option string :=
  head (filter (λ e, sameMinor version e = true) readablePullEnvelopes).

(** The version the village is expected to serve. *)
Definition served_version (cliCurrent current max : string) : string :=
  if decide (max ≠ "") then (if decide (compareSemver max cliCurrent < 0)%Z then max else cliCurrent) else current.

Definition NegotiatePullWindow (cliMin cliCurrent min current max : string) : option string :=
  let served := served_version cliCurrent current max in
  if decide (served = "" ∨ (compareSemver served cliMin < 0)%Z) then None
  else if decide ((0 < compareSemver served cliCurrent)%Z ∧ sameMinor served cliCurrent = false) then None
  else if decide (min ≠ "" ∧ (0 < compareSemver min served)%Z) then None
  else readablePullEnvelope served.

Inductive PullError := PreflightFailed | VillageTooOld | Incompatible.

Definition NegotiatePull (answer : option (option SchemaVersionResponse)) : result PullError string :=
  match answer with
  | None => Err PreflightFailed
  | Some None => Err VillageTooOld
  | Some (Some resp) =>
    require bool_decide (¬ (MinPullVersion resp = "" ∧ PullVersion resp = "")) else VillageTooOld in
    match NegotiatePullWindow MinPullContractVersion PullContractVersion (MinPullVersion resp) (PullVersion resp) (MaxPullVersion resp) with
    | Some e => Ok e
    | None => Err Incompatible
    end
  end.

(** The expression [^[0-9]+\.[0-9]+\.[0-9]+$]. *)
Definition digits (s : string) : bool := all_bytes digit s && bool_decide (s ≠ "").
Definition wellFormedPullContract (s : string) : bool :=
  match split_on dot s with [a; b; c] => digits a && digits b && digits c | _ => false end.

Definition servedPullEnvelope (negotiated header : string) : result PullError string :=
  let raw := TrimSpace header in
  if wellFormedPullContract raw then
    match readablePullEnvelope raw with Some e => Ok e | None => Err Incompatible end
  else if decide (negotiated ≠ "") then Ok negotiated
  else Ok MinPullContractVersion.

(** ** Comparison by value *)

(** The number a run of digits denotes. *)
Fixpoint number (s : string) : N :=
  match s with
  | String c s => ((N_of_ascii c - 48) * 10 ^ N.of_nat (String.length s) + number s)%N
  | EmptyString => 0
  end.

Definition sign (c : comparison) : Z := match c with Eq => 0 | Lt => -1 | Gt => 1 end.

Definition canonical (s : string) : Prop := all_bytes digit s = true ∧ ∀ r, s ≠ String "0" r.

Lemma digit_value c : digit c = true → (48 ≤ N_of_ascii c < 58)%N.
Proof. unfold digit, between. intros [?%N.leb_le ?%N.leb_le]%andb_true_iff. lia. Qed.

Lemma number_bound s : all_bytes digit s = true → (number s < 10 ^ N.of_nat (String.length s))%N.
Proof.
  induction s as [|c s IH]; [done|]. cbn [all_bytes number String.length]. intros [Hc%digit_value Hs]%andb_true_iff.
  specialize (IH Hs). rewrite Nat2N.inj_succ, N.pow_succ_r'. nia.
Qed.

Lemma number_floor c s : digit c = true → c ≠ "0"%char → (10 ^ N.of_nat (String.length s) ≤ number (String c s))%N.
Proof.
  intros Hc%digit_value H0. cbn [number]. assert (N_of_ascii c ≠ 48)%N.
  { intros Heq. apply H0. rewrite <-(ascii_N_embedding c), Heq. reflexivity. }
  nia.
Qed.

Lemma Compare_number a b :
  all_bytes digit a = true → all_bytes digit b = true → String.length a = String.length b →
  Compare a b = sign (number a ?= number b)%N.
Proof.
  revert b. induction a as [|x a IH]; intros [|y b] Ha Hb Hl; try done.
  cbn [all_bytes] in Ha, Hb. apply andb_true_iff in Ha as [Hx%digit_value Ha], Hb as [Hy%digit_value Hb].
  injection Hl as Hl. cbn [Compare number]. rewrite Hl.
  pose proof (number_bound a Ha) as Ba. pose proof (number_bound b Hb) as Bb. rewrite Hl in Ba.
  destruct (decide (x = y)) as [->|Hne].
  - rewrite (IH b Ha Hb Hl). f_equal. set (k := (_ * _)%N).
    destruct (N.compare_spec (number a) (number b)), (N.compare_spec (k + number a) (k + number b)); done || lia.
  - assert (N_of_ascii x ≠ N_of_ascii y) as Hn.
    { intros Heq. apply Hne. by rewrite <-(ascii_N_embedding x), Heq, ascii_N_embedding. }
    destruct (decide (N_of_ascii x < N_of_ascii y)%N) as [Hlt|Hge]; symmetry.
    + destruct (N.compare_spec ((N_of_ascii x - 48) * 10 ^ N.of_nat (String.length b) + number a)
        ((N_of_ascii y - 48) * 10 ^ N.of_nat (String.length b) + number b)) as [H|H|H]; [exfalso; nia|done|exfalso; nia].
    + destruct (N.compare_spec ((N_of_ascii x - 48) * 10 ^ N.of_nat (String.length b) + number a)
        ((N_of_ascii y - 48) * 10 ^ N.of_nat (String.length b) + number b)) as [H|H|H]; [exfalso; nia|exfalso; nia|done].
Qed.

Lemma shorter_smaller a b :
  canonical a → canonical b → (String.length a < String.length b)%nat → (number a < number b)%N.
Proof.
  intros [Ha _] [Hb H0] Hl. destruct b as [|c b]; [cbn in Hl; lia|].
  cbn [all_bytes] in Hb. apply andb_true_iff in Hb as [Hc Hb].
  pose proof (number_bound a Ha) as Ba. pose proof (number_floor c b Hc ltac:(intros ->; by apply (H0 b))) as Bb.
  cbn [String.length] in Hl. eapply N.lt_le_trans; [exact Ba|]. etransitivity; [|exact Bb].
  apply N.pow_le_mono_r; lia.
Qed.

Lemma compareDigits_number a b : canonical a → canonical b → compareDigits a b = sign (number a ?= number b)%N.
Proof.
  intros Ha Hb. unfold compareDigits. destruct (decide _) as [Hne|Heq%dec_stable].
  - destruct (decide (String.length a < String.length b)%nat) as [Hlt|Hge].
    + pose proof (shorter_smaller a b Ha Hb Hlt) as H. by apply N.compare_lt_iff in H as ->.
    + pose proof (shorter_smaller b a Hb Ha ltac:(lia)) as H. by apply N.compare_gt_iff in H as ->.
  - apply Compare_number; [apply Ha|apply Hb|done].
Qed.

(** Leading zeros do not change the number. *)
Lemma strip_zeros fuel s :
  (String.length s ≤ fuel)%nat → all_bytes digit s = true →
  canonical (strip_all fuel ["0"] s) ∧ number (strip_all fuel ["0"] s) = number s.
Proof.
  revert s. induction fuel as [|fuel IH]; intros s Hl Hs; cbn [strip_all].
  - destruct s; [by split_and!|cbn in Hl; lia].
  - destruct s as [|c s]; [by split_and!|]. cbn [cut_any cut_prefix].
    destruct (decide ("0"%char = c)) as [<-|Hc].
    + cbn [String.length] in Hl. cbn [all_bytes] in Hs. apply andb_true_iff in Hs as [_ Hs].
      destruct (IH s ltac:(lia) Hs) as [H1 H2]. split; [exact H1|]. rewrite H2. reflexivity.
    + split_and!; [split; [exact Hs|intros r [=]; congruence]|reflexivity].
Qed.

Lemma digit_run_digits s : all_bytes digit (digit_run s) = true.
Proof. induction s as [|c s IH]; [done|]. cbn. destruct (digit c) eqn:E; [|done]. cbn. by rewrite E, IH. Qed.

Lemma leadingDigits_ok s : canonical (leadingDigits s) ∧ number (leadingDigits s) = number (digit_run s).
Proof. unfold leadingDigits, TrimLeft, trim_front. apply strip_zeros; [done|apply digit_run_digits]. Qed.

(** The three numbers of a version. *)
Definition version := (N * N * N)%type.
Definition version_of (v : string) : version :=
  let parts := SplitN dot 3 v in
  let part i := number (digit_run (default "" (parts !! i))) in
  (part 0, part 1, part 2).

Definition ver_compare (a b : version) : comparison :=
  match a.1.1 ?= b.1.1 with
  | Eq => match a.1.2 ?= b.1.2 with Eq => a.2 ?= b.2 | c => c end
  | c => c
  end%N.
Definition ver_le (a b : version) : Prop := ver_compare a b ≠ Gt.
Definition ver_lt (a b : version) : Prop := ver_compare a b = Lt.
#[export] Instance comparison_eq_dec : EqDecision comparison.
Proof. solve_decision. Defined.
#[export] Instance ver_lt_dec a b : Decision (ver_lt a b).
Proof. unfold ver_lt. apply _. Defined.

Lemma sign_eq c : sign c = 0%Z ↔ c = Eq.
Proof. by destruct c. Qed.

(** Version headers are compared by the value of their three numbers, however long
    the runs of digits are and however many zeros lead them. *)
Lemma compareSemver_value a b :
  compareSemver a b = sign (ver_compare (version_of a) (version_of b))
  ∧ (sameMinor a b = true ↔ (version_of a).1 = (version_of b).1)
  ∧ (CanDowngrade a b = true ↔ (version_of a).1.1 = (version_of b).1.1).
Proof.
  assert (∀ x y, compareDigits (leadingDigits x) (leadingDigits y) = sign (number (digit_run x) ?= number (digit_run y))%N) as Hc.
  { intros x y. destruct (leadingDigits_ok x) as [Cx Nx], (leadingDigits_ok y) as [Cy Ny].
    by rewrite compareDigits_number, Nx, Ny. }
  assert (∀ x y, leadingDigits x = leadingDigits y ↔ number (digit_run x) = number (digit_run y)) as He.
  { intros x y. destruct (leadingDigits_ok x) as [Cx Nx], (leadingDigits_ok y) as [Cy Ny]. split; [by intros H; rewrite <-Nx, <-Ny, H|].
    intros H. specialize (Hc x y). rewrite H, N.compare_refl in Hc. unfold compareDigits in Hc.
    destruct (decide _) as [_|Hl%dec_stable]; [by destruct (decide _)|].
    clear -Hc Hl. revert Hc Hl. generalize (leadingDigits x) as s, (leadingDigits y) as t.
    induction s as [|a s IH]; intros [|b t] Hc Hl; try done. cbn in Hc. injection Hl as Hl.
    destruct (decide (a = b)) as [->|]; [f_equal; by apply IH|]. by destruct (decide _). }
  unfold compareSemver, sameMinor, CanDowngrade, semverParts, version_of.
  generalize (SplitN dot 3 a) as pa, (SplitN dot 3 b) as pb. intros pa pb. split_and!.
  - rewrite !Hc. unfold ver_compare. cbn [fst snd].
    destruct (_ ?= _)%N; cbn [sign]; repeat case_decide; try done.
    all: destruct (_ ?= _)%N; cbn [sign] in *; try done; lia.
  - rewrite andb_true_iff, !bool_decide_eq_true, !He. cbn [fst]. split; [by intros [-> ->]|by intros [= -> ->]].
  - cbn [fst snd]. by rewrite bool_decide_eq_true, He.
Qed.

Definition demoLong : string := "0.00000000000000000000000000000000000000010.0-rc1".
Example compare_long : compareSemver demoLong "0.9.7" = 1%Z ∧ sameMinor demoLong "0.10" = true.
Proof. split; vm_compute; reflexivity. Qed.

(** ** What a push emits *)

Lemma compareSemver_lt a b : (compareSemver a b < 0)%Z ↔ ver_lt (version_of a) (version_of b).
Proof. destruct (compareSemver_value a b) as [-> _]. unfold ver_lt. by destruct (ver_compare _ _). Qed.

Lemma ver_compare_antisym a b : ver_compare b a = CompOpp (ver_compare a b).
Proof.
  unfold ver_compare. rewrite (N.compare_antisym a.1.1), (N.compare_antisym a.1.2), (N.compare_antisym a.2).
  by destruct (a.1.1 ?= b.1.1)%N, (a.1.2 ?= b.1.2)%N.
Qed.

Lemma compareSemver_gt a b : (0 < compareSemver a b)%Z ↔ ver_lt (version_of b) (version_of a).
Proof.
  destruct (compareSemver_value a b) as [-> _]. unfold ver_lt. rewrite (ver_compare_antisym (version_of a)).
  by destruct (ver_compare _ _).
Qed.

Lemma ver_not_lt a b : ¬ ver_lt a b ↔ ver_le b a.
Proof. unfold ver_lt, ver_le. rewrite (ver_compare_antisym a b). by destruct (ver_compare a b). Qed.

Lemma ver_le_refl a : ver_le a a.
Proof. unfold ver_le, ver_compare. by rewrite !N.compare_refl. Qed.

Lemma ver_lt_le a b : ver_lt a b → ver_le a b.
Proof. unfold ver_lt, ver_le. by intros ->. Qed.

(** A push emits a contract the village accepts: the CLI's own, or the village's
    current one when the CLI is ahead within the same major version; it lies in the
    advertised window.  The run is refused exactly when the CLI is below the floor or
    a major version ahead, and without an answer the CLI's own contract is emitted
    with every capability the payload needs counted as missing. *)
Theorem negotiate_within_window `{CapabilityLib} answer :
  let cli := PublishSchemaVersion in
  match answer with
  | Some (Some resp) =>
    let min := MinPushContractVersion resp in
    let current := PushContractVersion resp in
    let ahead := current ≠ "" ∧ ver_lt (version_of current) (version_of cli) in
    match negotiate answer with
    | Ok (emit, support) =>
      Known support = true ∧ Capabilities support = ContentCapabilities resp
      ∧ (emit = cli ∧ ¬ ahead ∨ emit = current ∧ ahead ∧ (version_of cli).1.1 = (version_of current).1.1)
      ∧ (current ≠ "" → ver_le (version_of emit) (version_of current))
      ∧ (min ≠ "" → (current ≠ "" → ver_le (version_of min) (version_of current)) → ver_le (version_of min) (version_of emit))
    | Err (UpgradeCLI _ _) => min ≠ "" ∧ ver_lt (version_of cli) (version_of min) ∧ ¬ ahead
    | Err (CannotDowngrade _ _) => ahead ∧ (version_of cli).1.1 ≠ (version_of current).1.1
    end
  | _ => ∃ support, negotiate answer = Ok (cli, support) ∧ ∀ required, Shortfall support required = KnownContentCapabilities required
  end.
Proof.
  intros cli. destruct answer as [[resp|]|]; [|by eexists..]. intros min current ahead. unfold negotiate.
  fold cli. fold min. fold current. unfold ClassifyContract.
  pose proof (compareSemver_gt cli current) as Hgt. pose proof (compareSemver_lt cli min) as Hlt.
  destruct (decide (min = "" ∧ current = "")) as [[Hm Hc]|Hadv].
  { assert (¬ ahead) by (unfold ahead; tauto). split_and!; auto; done. }
  destruct (decide (current ≠ "" ∧ _)) as [[Hc Hahead]|Hna].
  - apply Hgt in Hahead. assert (CanDowngrade cli current = true ↔ _) as Hd by apply (compareSemver_value cli current).
    destruct (CanDowngrade cli current); cbn [res_guard].
    + split_and!; try done; [|intros; apply ver_le_refl|auto]. right. split_and!; [done|done|by apply Hd].
    + split; [done|]. intros H1%Hd. done.
  - assert (¬ ahead) as Hnahead by (unfold ahead; rewrite <-Hgt; tauto).
    destruct (decide (min ≠ "" ∧ _)) as [[Hm Hbelow]|Hok].
    + split_and!; [done|by apply Hlt|done].
    + split_and!; try done; [by left| |].
      * intros Hc. apply ver_not_lt. intros ?. apply Hnahead. done.
      * intros Hm _. apply ver_not_lt. intros ?%Hlt. apply Hok. done.
Qed.

(** ** What a pull reads *)

(** A village with the requestable envelope ([max] not empty) serves the highest
    version it supports at or below the requested one and refuses one below its
    floor; an older village serves its current version and names none. *)
Definition village_serves (requested min current max : string) : option (string * string) :=
  if decide (max ≠ "") then
    let v := if decide (ver_lt (version_of max) (version_of requested)) then max else requested in
    if decide (min ≠ "" ∧ ver_lt (version_of v) (version_of min)) then None else Some (v, v)
  else if decide (min ≠ "" ∧ ver_lt (version_of current) (version_of min)) then None else Some (current, "").

(** Digits and dots are not trimmed. *)
Lemma digit_cases c : digit c = true → c ∈ ["0"; "1"; "2"; "3"; "4"; "5"; "6"; "7"; "8"; "9"]%char.
Proof.
  intros H%digit_value. rewrite <-(ascii_N_embedding c). set (n := N_of_ascii c) in *. clearbody n.
  assert (n ∈ [48; 49; 50; 51; 52; 53; 54; 55; 56; 57]%N) as Hn by (rewrite !elem_of_cons; lia). clear H.
  repeat (apply elem_of_cons in Hn as [->|Hn]; [cbn; rewrite !elem_of_cons; tauto|]). by apply elem_of_nil in Hn.
Qed.

Lemma trim_front_digit ps c s : ps = space_strings ∨ ps = str_rev <$> space_strings → digit c = true →
  trim_front ps (String c s) = String c s.
Proof.
  intros Hps Hc%digit_cases.
  destruct Hps as [->| ->]; repeat (apply elem_of_cons in Hc as [->|Hc]; [reflexivity|]); by apply elem_of_nil in Hc.
Qed.

Lemma split_on_three c s x y z : split_on c s = [x; y; z] → s = x +:+ String c (y +:+ String c z).
Proof.
  revert x y z. assert (∀ s x, split_on c s = [x] → s = x) as H1.
  { clear s. induction s as [|a s IH]; intros x; cbn; [by intros [= <-]|].
    pose proof (split_on_not_nil c s). case_decide; [by intros [= _ ?]|]. destruct (split_on c s) as [|w [|]]; [done| |done].
    intros [= <-]. by rewrite (IH w). }
  assert (∀ s x y, split_on c s = [x; y] → s = x +:+ String c y) as H2.
  { clear s. induction s as [|a s IH]; intros x y; cbn; [done|].
    case_decide as Ha; [intros [= <- H]; by rewrite Ha, (H1 _ _ H)|].
    pose proof (split_on_not_nil c s). destruct (split_on c s) as [|w ws]; [done|]. intros [= <- ->]. by rewrite (IH w y). }
  induction s as [|a s IH]; intros x y z; cbn; [done|].
  case_decide as Ha; [intros [= <- H]; by rewrite Ha, (H2 _ _ _ H)|].
  pose proof (split_on_not_nil c s). destruct (split_on c s) as [|w ws]; [done|]. intros [= <- ->]. by rewrite (IH w y z).
Qed.

Lemma digits_last s : digits s = true → ∃ c r, str_rev s = String c r ∧ digit c = true.
Proof.
  unfold digits. intros [H Hne%bool_decide_eq_true]%andb_true_iff.
  assert (∃ s' c, s = s' +:+ str1 c ∧ digit c = true) as (s' & c & -> & Hc).
  { revert Hne.
    induction s as [|a s IH]; [done|]. cbn in H. apply andb_true_iff in H as [Ha H]. intros _.
    destruct s as [|b s]; [by exists "", a|]. destruct (IH H ltac:(done)) as (s' & c & -> & Hc). by exists (String a s'), c. }
  exists c, (str_rev s'). split; [|done]. by rewrite str_rev_app.
Qed.

Lemma wellFormed_trimmed v : wellFormedPullContract v = true → TrimSpace v = v.
Proof.
  unfold wellFormedPullContract. destruct (split_on dot v) as [|a [|b [|c [|]]]] eqn:E; try done.
  intros [[Ha Hb]%andb_true_iff Hc]%andb_true_iff. apply split_on_three in E.
  assert (∃ x r, v = String x r ∧ digit x = true) as (x & r & Hv & Hx).
  { unfold digits in Ha. apply andb_true_iff in Ha as [Ha Hne%bool_decide_eq_true]. destruct a as [|x a]; [done|].
    cbn in Ha. apply andb_true_iff in Ha as [Hx _]. eexists x, _. split; [|done]. by rewrite E, str_app_cons. }
  destruct (digits_last c Hc) as (y & q & Hrev & Hy).
  unfold TrimSpace. rewrite Hv, trim_front_digit, <-Hv by (done || by left).
  assert (str_rev v = String y (q +:+ str_rev (a +:+ String dot (b +:+ str1 dot)))) as Hrv.
  { change (String y (q +:+ ?z)) with (String y q +:+ z). rewrite <-Hrev, <-str_rev_app, E. f_equal.
    by rewrite !str_app_assoc, !str_app_cons, !str_app_assoc. }
  unfold trim_back. rewrite Hrv, trim_front_digit by (done || by right). by rewrite <-Hrv, str_rev_rev.
Qed.

Lemma readable_spec v e : readablePullEnvelope v = Some e →
  e ∈ readablePullEnvelopes ∧ (version_of v).1 = (version_of e).1.
Proof.
  unfold readablePullEnvelope. intros H%head_Some_elem_of. apply list_elem_of_filter in H as [H ?].
  split; [done|]. by apply compareSemver_value.
Qed.

Lemma readable_idem v e : readablePullEnvelope v = Some e → readablePullEnvelope e = Some e.
Proof. intros [H _]%readable_spec. repeat (apply elem_of_cons in H as [->|H]; [reflexivity|]). by apply elem_of_nil in H. Qed.

Lemma readable_in_window v e : readablePullEnvelope v = Some e →
  v ≠ "" ∧ ¬ (compareSemver v MinPullContractVersion < 0)%Z
  ∧ ((0 < compareSemver v PullContractVersion)%Z → sameMinor v PullContractVersion = true).
Proof.
  intros [He Hm]%readable_spec. rewrite compareSemver_lt, compareSemver_gt.
  assert (sameMinor v PullContractVersion = true ↔ (version_of v).1 = (version_of PullContractVersion).1) as ->
    by apply compareSemver_value.
  destruct (version_of v) as [[a b] c] eqn:Hv. cbn in Hm.
  apply elem_of_cons in He as [->|He%list_elem_of_singleton]; [|subst e];
    [change (version_of PullContractVersion) with (0, 3, 0)%N in Hm|change (version_of MinPullContractVersion) with (0, 2, 0)%N in Hm];
    injection Hm as -> ->; (split; [intros ->; vm_compute in Hv; congruence|]);
    change (version_of MinPullContractVersion) with (0, 2, 0)%N; change (version_of PullContractVersion) with (0, 3, 0)%N;
    unfold ver_lt, ver_compare; cbn; split; done || (by destruct c) || by destruct (_ ?= _)%N.
Qed.

Lemma readable_complete v e : e ∈ readablePullEnvelopes → (version_of v).1 = (version_of e).1 → readablePullEnvelope v = Some e.
Proof.
  intros He Hm. unfold readablePullEnvelope, readablePullEnvelopes. rewrite !filter_cons, filter_nil.
  assert (∀ x, sameMinor v x = true ↔ (version_of e).1 = (version_of x).1) as Hs.
  { intros x. rewrite <-Hm. apply compareSemver_value. }
  destruct (decide (sameMinor v PullContractVersion = true)) as [H|H]; rewrite Hs in H;
    [|destruct (decide (sameMinor v MinPullContractVersion = true)) as [H2|H2]; rewrite Hs in H2];
    apply elem_of_cons in He as [->|He%list_elem_of_singleton]; try subst e; done || by vm_compute in H.
Qed.

Lemma NegotiatePullWindow_alt min current max :
  let served := served_version PullContractVersion current max in
  NegotiatePullWindow MinPullContractVersion PullContractVersion min current max
  = if decide (min ≠ "" ∧ ver_lt (version_of served) (version_of min)) then None else readablePullEnvelope served.
Proof.
  intros served. unfold NegotiatePullWindow. fold served. pose proof (compareSemver_gt min served) as Hf.
  destruct (readablePullEnvelope served) as [e|] eqn:E; [|by repeat case_decide].
  destruct (readable_in_window served e E) as (H1 & H2 & H3).
  rewrite decide_False by tauto. rewrite decide_False by (intros [H4 H5]; rewrite H3 in H5; done).
  repeat case_decide; tauto || done.
Qed.

Lemma village_serves_alt min current max :
  let served := served_version PullContractVersion current max in
  village_serves PullContractVersion min current max
  = if decide (min ≠ "" ∧ ver_lt (version_of served) (version_of min)) then None
    else Some (served, if decide (max ≠ "") then served else "").
Proof.
  unfold village_serves, served_version. pose proof (compareSemver_lt max PullContractVersion) as Hlt.
  destruct (decide (max ≠ "")) as [Hm|Hm]; [|done].
  destruct (decide (compareSemver max PullContractVersion < 0)%Z) as [H|H]; rewrite Hlt in H;
    [by rewrite (decide_True _ _ H)|by rewrite (decide_False _ _ H)].
Qed.

(** A pull proceeds exactly when the envelope the village will serve is one the CLI
    reads, and what it then reads off the response is the envelope it settled before:
    a requestable village names its version in the header, an older one names none. *)
Theorem pull_envelope_agrees min current max e :
  (max ≠ "" → wellFormedPullContract max = true) →
  NegotiatePullWindow MinPullContractVersion PullContractVersion min current max = Some e
  ↔ ∃ v header, village_serves PullContractVersion min current max = Some (v, header)
      ∧ e ∈ readablePullEnvelopes ∧ (version_of v).1 = (version_of e).1
      ∧ servedPullEnvelope e header = Ok e.
Proof.
  intros Hmax. rewrite NegotiatePullWindow_alt, village_serves_alt.
  set (served := served_version PullContractVersion current max).
  destruct (decide (min ≠ "" ∧ _)) as [Hf|Hf]; [split; [done|by intros (? & ? & ? & _)]|].
  split.
  - intros He. destruct (readable_spec served e He) as [Hin Hm]. eexists _, _. split; [done|]. split_and!; [done..|].
    unfold servedPullEnvelope. destruct (decide (max ≠ "")) as [Hne|Hne].
    + assert (wellFormedPullContract served = true) as Hw.
      { unfold served, served_version. rewrite (decide_True _ _ Hne). case_decide; [by apply Hmax|reflexivity]. }
      by rewrite wellFormed_trimmed, Hw, He.
    + change (wellFormedPullContract (TrimSpace "")) with false. cbn [andb].
      assert (e ≠ "") as Hne' by (intros ->; apply elem_of_cons in Hin as [[=]|[=]%list_elem_of_singleton]).
      by rewrite decide_True.
  - intros (v & header & [= <- <-] & Hin & Hm & _). by apply readable_complete.
Qed.

Lemma pull_envelope_agrees_witness :
  NegotiatePullWindow MinPullContractVersion PullContractVersion "0.2.0" "0.2.0" "0.3.7" = Some "0.3.0"
  ∧ ∃ v header, village_serves PullContractVersion "0.2.0" "0.2.0" "0.3.7" = Some (v, header)
      ∧ servedPullEnvelope "0.3.0" header = Ok "0.3.0".
Proof.
  assert (NegotiatePullWindow MinPullContractVersion PullContractVersion "0.2.0" "0.2.0" "0.3.7" = Some "0.3.0") as H
    by (vm_compute; reflexivity).
  split; [exact H|].
  destruct (proj1 (pull_envelope_agrees "0.2.0" "0.2.0" "0.3.7" "0.3.0" (λ _, eq_refl)) H) as (v & h & H1 & _ & _ & H2).
  exists v, h. exact (conj H1 H2).
Defined.
