(* ===== verification/PushTargets.v ===== *)
(** * What a push may send

    The selection half of [src/internal/push]: the base candidates
    ([candidates.go]), the repository scope ([scope.go]), the run's configuration
    and its saved selection ([types.go]), the narrowing of [pipeline.go] with the
    sessions that inherit their root's selection, the capture of a publication
    input ([content_snapshot.go], [publication_input.go], [isRunWide] of
    [errors.go]), the preflight, the order of a bounded run and the concurrency.

    The read of a committed capture, with the hydration of its transcript, is the
    class [CaptureReader]; a read gives the same answer during the selection of one
    run.  Prose is left out. *)
From S2P Require Import Prelude GoStrings GoText GoPaths Selection.
From Stdlib Require Import Ascii.
Local Open Scope string_scope.
Local Open Scope list_scope.

(** [ingest.PushSessionRow]: the columns the pipeline reads. *)
Record PushSessionRow := {
  SessionID : string;
  ModelHarness : string;
  HostSlug : string;
  ProjectHash : string;
  ProjectPath : string;
  PushedAt : option Z;
  GitBranch : option string;
  GitRemote : string;
  TokensTotal : Z;
}.

(** ** Base candidates *)

Definition PushMethodAll : string := "all".
Definition PushMethodBySource : string := "by-source".
Definition PushMethodIndividual : string := "individual".

Record PushCandidateQuery := {
  q_Force : bool;
  q_SourceProvider : string;
  q_Method : string;
  q_Sources : list string;
}.

Definition filterByProvider (sessions : list PushSessionRow) (provider : string) : list PushSessionRow :=
  filter (λ s, ModelHarness s = provider) sessions.

(** [all] is the answer of [AllPushableSessions]. *)
Definition QueryPushCandidates {E} (all : result E (list PushSessionRow)) (q : PushCandidateQuery)
    : result E (list PushSessionRow) :=
  if q_Force q then
    let? sessions := all in
    Ok (if decide (q_SourceProvider q ≠ "") then filterByProvider sessions (q_SourceProvider q) else sessions)
  else if decide (q_SourceProvider q ≠ "") then
    let? sessions := all in Ok (filterByProvider sessions (q_SourceProvider q))
  else if decide (q_Method q = PushMethodBySource) then
    if decide (q_Sources q = []) then Ok []
    else let? sessions := all in Ok (q_Sources q ≫= λ provider, filterByProvider sessions provider)
  else all.

(** ** Repository scope *)

Inductive IdentityBasis := IdentityFromRemote | IdentityFromPath.

Record RecordedUnderRoot := { Hash : string; RecordedDirectory : string }.

Record RepositoryScope := {
  ScopeRoot : string;
  Identity : string;
  Basis : IdentityBasis;
  admitted : gset string;
  alsoRecorded : list string;
  unadmitted : list RecordedUnderRoot;
}.

(** The loop over [alsoRecorded]: the directories named so far and the identities
    admitted so far. *)
Definition admit_recorded (identity : string) (st : list string * gset string) (recorded : RecordedUnderRoot)
    : list string * gset string :=
  if decide (Hash recorded = "" ∨ Hash recorded = identity) then st
  else ((if decide (Hash recorded ∈ st.2) then st.1 else st.1 ++ [RecordedDirectory recorded]), {[Hash recorded]} ∪ st.2).

Definition NewRepositoryScope (root identity : string) (basis : IdentityBasis)
    (also unadm : list RecordedUnderRoot) : RepositoryScope :=
  let '(dirs, adm) := foldl (admit_recorded identity) ([], {[identity]}) also in
  {| ScopeRoot := root; Identity := identity; Basis := basis; admitted := adm;
     alsoRecorded := sort_strings dirs;
     unadmitted := sort_by (λ r, [RecordedDirectory r]) (filter (λ r, ¬ (Hash r = "" ∨ Hash r ∈ adm)) unadm) |}.

(** A nil scope is [None]. *)
Definition Unadmitted (s : option RepositoryScope) : list RecordedUnderRoot :=
  match s with Some s => unadmitted s | None => [] end.
Definition Admits (s : option RepositoryScope) (projectHash : string) : bool :=
  match s with Some s => bool_decide (projectHash ∈ admitted s) | None => true end.
Definition Hashes (s : option RepositoryScope) : list string :=
  match s with Some s => sort_strings (elements (admitted s)) | None => [] end.

(** ** The saved selection *)

Definition SessionSelection : Type := gmap string BranchMatch.

Definition Decision_ (s : option SessionSelection) (sessionID : string) : BranchMatch :=
  match s with Some d => default BranchMatchNo (d !! sessionID) | None => BranchMatchYes end.

(** [PipelineConfig]: the fields the run decides by.  [UpdateHold] answers with the
    empty string to let an update through. *)
Record PipelineConfig := {
  DryRun : bool;
  Force : bool;
  SourceProvider : string;
  Visibility_ : string;
  ChangeVisibility : bool;
  License : string;
  ChangeLicense : bool;
  Concurrency : Z;
  FilterSessionIDs : list string;
  PinnedSessionIDs : option (gmap string bool);
  UpdateHold : option (string → string);
  Selection : option SessionSelection;
  InheritSelection : gmap string string;
  Repository : option RepositoryScope;
  LastGood : bool;
}.

Definition SelectionInheritedFrom (c : PipelineConfig) (sessionID : string) : option string :=
  match InheritSelection c !! sessionID with
  | None => None
  | Some root =>
    if decide (Selection c = None) then None
    else if decide (Decision_ (Selection c) sessionID = BranchMatchYes ∨ Decision_ (Selection c) root ≠ BranchMatchYes)
    then None else Some root
  end.

Definition selectionDecision (c : PipelineConfig) (sessionID : string) : BranchMatch :=
  match SelectionInheritedFrom c sessionID with
  | Some _ => BranchMatchYes
  | None => Decision_ (Selection c) sessionID
  end.

(** One iteration of [inheritingSelection]; the decisions read are those of the
    saved selection, so the order of the map does not matter. *)
Definition inherit_one (c : PipelineConfig) (sessionID : string) (out : SessionSelection) : SessionSelection :=
  match SelectionInheritedFrom c sessionID with Some _ => <[sessionID := BranchMatchYes]> out | None => out end.

Definition inheritingSelection (c : PipelineConfig) : option SessionSelection :=
  match Selection c with
  | None => None
  | Some decisions =>
    if decide (InheritSelection c = ∅) then Some decisions
    else Some (foldr (inherit_one c) decisions (map_to_list (InheritSelection c)).*1)
  end.

(** ** Narrowing *)

Definition keepSessions (sessions : list PushSessionRow) (keep : gmap string bool) : list PushSessionRow :=
  filter (λ s, default false (keep !! SessionID s) = true) sessions.

Definition ApplyRepositoryScope (sessions : list PushSessionRow) (scope : option RepositoryScope) : list PushSessionRow :=
  match scope with None => sessions | Some _ => filter (λ s, Admits scope (ProjectHash s) = true) sessions end.

Definition ApplySelection (sessions : list PushSessionRow) (sel : option SessionSelection)
    : list PushSessionRow * list PushSessionRow :=
  match sel with
  | None => (sessions, [])
  | Some _ =>
    (filter (λ s, Decision_ sel (SessionID s) = BranchMatchYes) sessions,
     filter (λ s, Decision_ sel (SessionID s) = BranchMatchWithheldConflict) sessions)
  end.

Definition dropInheritedWithoutRoot (kept : list PushSessionRow) (c : PipelineConfig) : list PushSessionRow :=
  if decide (InheritSelection c = ∅) then kept
  else
    let present : gset string := list_to_set (SessionID <$> kept) in
    filter (λ s, match SelectionInheritedFrom c (SessionID s) with
                 | Some root => bool_decide (root ∈ present) | None => true end = true) kept.

Definition NarrowCandidates (sessions : list PushSessionRow) (c : PipelineConfig) : list PushSessionRow * list PushSessionRow :=
  let sessions :=
    if decide (FilterSessionIDs c = []) then sessions
    else keepSessions sessions (list_to_map ((λ id, (id, true)) <$> FilterSessionIDs c)) in
  let sessions := match PinnedSessionIDs c with Some pinned => keepSessions sessions pinned | None => sessions end in
  let '(kept, withheld) := ApplySelection sessions (inheritingSelection c) in
  let kept := ApplyRepositoryScope kept (Repository c) in
  (dropInheritedWithoutRoot kept c, ApplyRepositoryScope withheld (Repository c)).

(** ** The publication input of a session *)

Inductive NotReadyReason := NotReadyNeedsIngest | NotReadyLatestAttemptKept | NotReadyNoModelReply.

(** What the read of a capture can fail with; [SqliteError] carries the extended
    result code. *)
Inductive LoadError :=
  | ContextDone
  | SqliteError (code : Z)
  | PoolClosed
  | OtherLoadError (message : string)
  | IdentityChanged | OutsideRepository | SelectionChanged
  | NotReady (reason : NotReadyReason).

(** [PublicationInputBundle] with the metadata the capture checks read. *)
Record PublicationInput := {
  in_Ready : bool;
  in_LatestAttemptPending : bool;
  in_SessionID : string;
  in_ProjectHash : string;
  in_ModelHarness : string;
  in_Model : string;
  in_Branch : option string;
  in_Remote : option string;
  in_ProjectPath : string;
  in_AssistantReply : list bool;        (* per entry: an assistant reply *)
  in_ReceiptProjectHash : string;
}.

(** [LoadPublicationInputSelected] of a session, with or without [LastGood]. *)
Class CaptureReader := {
  LoadPublicationInputSelected : string → bool → result LoadError PublicationInput;
}.

Definition hasModelReply (input : PublicationInput) : bool := existsb id (in_AssistantReply input).

Definition ValidatePublicationInput (input : PublicationInput) : result LoadError unit :=
  require negb (in_LatestAttemptPending input) else NotReady NotReadyLatestAttemptKept in
  require in_Ready input else NotReady NotReadyNeedsIngest in
  require negb (bool_decide (in_Model input = "") && negb (hasModelReply input)) else NotReady NotReadyNoModelReply in
  require bool_decide (in_Model input ≠ "") else NotReady NotReadyNeedsIngest in
  Ok tt.

Definition stringValue (v : option string) : string := default "" v.

(** The SQLite primary result codes of [runWideSQLiteCodes]: interrupt, corrupt,
    not a database, cannot open, I/O error, no memory, full, misuse. *)
Definition runWideSQLiteCodes : list Z := [9; 11; 26; 14; 10; 7; 13; 21]%Z.

Definition isRunWide (e : LoadError) : bool :=
  match e with
  | ContextDone | PoolClosed => true
  | SqliteError code => bool_decide (Z.land code 255 ∈ runWideSQLiteCodes)
  | _ => false
  end.

Section reading.
Context `{RemoteLib} `{CaptureReader}.

Definition readPublicationInput (c : PipelineConfig) (candidate : PushSessionRow) : result LoadError PublicationInput :=
  let? input := LoadPublicationInputSelected (SessionID candidate) (LastGood c) in
  if negb (in_Ready input) then Ok input
  else
    require bool_decide (in_SessionID input = SessionID candidate ∧ in_ProjectHash input = ProjectHash candidate
                         ∧ in_ModelHarness input = ModelHarness candidate) else IdentityChanged in
    require Admits (Repository c) (in_ProjectHash input) else OutsideRepository in
    match Selection c with
    | None => Ok input
    | Some _ =>
      require bool_decide (selectionDecision c (in_SessionID input) = BranchMatchYes
        ∧ stringValue (in_Branch input) = stringValue (GitBranch candidate)
        ∧ NormalizeRemoteForMatch (stringValue (in_Remote input)) = NormalizeRemoteForMatch (GitRemote candidate)
        ∧ in_ProjectPath input = ProjectPath candidate) else SelectionChanged in
      Ok input
    end.

(** The capture and the policy check of one session, as upload, preflight and the
    readiness of a root make them. *)
Definition publishable (c : PipelineConfig) (row : PushSessionRow) : result LoadError PublicationInput :=
  let? input := readPublicationInput c row in
  let? _u := ValidatePublicationInput input in
  Ok input.

Definition is_ok {E A} (r : result E A) : bool := match r with Ok _ => true | Err _ => false end.

(** The row of a map lookup that misses. *)
Definition zeroRow : PushSessionRow :=
  {| SessionID := ""; ModelHarness := ""; HostSlug := ""; ProjectHash := ""; ProjectPath := ""; PushedAt := None;
     GitBranch := None; GitRemote := ""; TokensTotal := 0 |}.

(** [rows]: the last row of an identifier wins. *)
Definition rows_by_id (kept : list PushSessionRow) : gmap string PushSessionRow :=
  foldl (λ m s, <[SessionID s := s]> m) ∅ kept.

(** The loop of [dropInheritedWithUnreadyRoot]: the readiness of a root is read
    once and remembered. *)
Fixpoint ready_loop (c : PipelineConfig) (rows : gmap string PushSessionRow) (ready : gmap string bool)
    (kept : list PushSessionRow) : list PushSessionRow :=
  match kept with
  | [] => []
  | s :: kept =>
    match SelectionInheritedFrom c (SessionID s) with
    | None => s :: ready_loop c rows ready kept
    | Some root =>
      let '(rootReady, ready) :=
        match ready !! root with
        | Some known => (known, ready)
        | None => let now := is_ok (publishable c (default zeroRow (rows !! root))) in (now, <[root := now]> ready)
        end in
      if rootReady then s :: ready_loop c rows ready kept else ready_loop c rows ready kept
    end
  end.

Definition dropInheritedWithUnreadyRoot (c : PipelineConfig) (kept : list PushSessionRow) : list PushSessionRow :=
  if decide (InheritSelection c = ∅) then kept else ready_loop c (rows_by_id kept) ∅ kept.

(** [PushConfig]: the saved push settings. *)
Record PushConfig := {
  Method : string;
  Sources : list string;
  PushVisibility : string;
  PushLicense : string;
}.

(** [getTargetSessions]: the sessions to push, the number of candidates before any
    selection, and the sessions reported as withheld. *)
Definition getTargetSessions {E} (all : result E (list PushSessionRow)) (cfg : PushConfig) (c : PipelineConfig)
    : result E (list PushSessionRow * nat * list PushSessionRow) :=
  let? base := QueryPushCandidates all {| q_Force := Force c; q_SourceProvider := SourceProvider c;
                                          q_Method := Method cfg; q_Sources := Sources cfg |} in
  let '(kept, withheld) := NarrowCandidates base c in
  Ok (dropInheritedWithUnreadyRoot c kept, length base, withheld).

(** ** Preflight *)

(** The sessions still valid, the sessions refused with their reason, and the error
    that stopped the scan; [cancelled i] is the context before candidate [i]. *)
Fixpoint preflight_from (c : PipelineConfig) (cancelled : nat → bool) (i : nat) (sessions : list PushSessionRow)
    (valid : list PushSessionRow) (refused : list (PushSessionRow * LoadError))
    : list PushSessionRow * list (PushSessionRow * LoadError) * option LoadError :=
  match sessions with
  | [] => (valid, refused, None)
  | s :: sessions =>
    if cancelled i then (valid, refused, Some ContextDone)
    else
      match publishable c s with
      | Ok _ => preflight_from c cancelled (S i) sessions (valid ++ [s]) refused
      | Err e =>
        if isRunWide e then (valid, refused, Some e)
        else preflight_from c cancelled (S i) sessions valid (refused ++ [(s, e)])
      end
  end.

Definition preflight (c : PipelineConfig) (cancelled : nat → bool) (sessions : list PushSessionRow) :=
  preflight_from c cancelled 0 sessions [] [].
End reading.

(** ** Order and concurrency *)

(** [sort.SliceStable] with a comparison. *)
Section stable.
Context {A : Type} (less : A → A → bool).
Fixpoint stable_insert (x : A) (l : list A) : list A :=
  match l with
  | [] => [x]
  | y :: l' => if less y x then y :: stable_insert x l' else x :: l
  end.
Definition SliceStable (l : list A) : list A := foldr stable_insert [] l.
End stable.

Definition cheaper (a b : PushSessionRow) : bool :=
  if decide (TokensTotal a ≠ TokensTotal b) then bool_decide (TokensTotal a < TokensTotal b)%Z
  else negb (String.leb (SessionID b) (SessionID a)).

Definition orderForBudget (bounded : bool) (sessions : list PushSessionRow) : list PushSessionRow :=
  if negb bounded || bool_decide (length sessions < 2)%nat then sessions else SliceStable cheaper sessions.

Definition DefaultConcurrencyForCPU (numCPU : Z) : Z := Z.max 1 (Z.quot numCPU 2).

Definition ResolveConcurrency (flagSet : bool) (flagVal cfgVal numCPU : Z) : option Z :=
  if flagSet then (if decide (flagVal ≤ 0)%Z then None else Some flagVal)
  else if decide (0 < cfgVal)%Z then Some cfgVal
  else Some (DefaultConcurrencyForCPU numCPU).

Definition DefaultConcurrency : Z := 5.
Definition runConcurrency (c : PipelineConfig) : Z := if decide (Concurrency c ≤ 0)%Z then DefaultConcurrency else Concurrency c.

(** ** The sessions sent *)

Definition chosen (c : PipelineConfig) (s : PushSessionRow) : Prop :=
  FilterSessionIDs c = [] ∨ SessionID s ∈ FilterSessionIDs c.
Definition pinned (c : PipelineConfig) (s : PushSessionRow) : Prop :=
  match PinnedSessionIDs c with None => True | Some m => default false (m !! SessionID s) = true end.
#[export] Instance pinned_dec c s : Decision (pinned c s).
Proof. unfold pinned. destruct (PinnedSessionIDs c); apply _. Defined.

(** Every filter but the saved selection. *)
Definition passes (c : PipelineConfig) (s : PushSessionRow) : Prop :=
  chosen c s ∧ pinned c s ∧ Admits (Repository c) (ProjectHash s) = true.
#[export] Instance passes_dec c s : Decision (passes c s).
Proof. unfold passes, chosen. apply _. Defined.

Lemma filter_everything {A} (P : A → Prop) `{!∀ x, Decision (P x)} (l : list A) : (∀ x, P x) → filter P l = l.
Proof. intros HP. induction l as [|x l IH]; [done|]. by rewrite filter_cons, decide_True, IH. Qed.

Lemma inherited_spec c id root : SelectionInheritedFrom c id = Some root ↔
  InheritSelection c !! id = Some root ∧ Selection c ≠ None
  ∧ Decision_ (Selection c) id ≠ BranchMatchYes ∧ Decision_ (Selection c) root = BranchMatchYes.
Proof.
  unfold SelectionInheritedFrom. destruct (InheritSelection c !! id) as [r|]; [|naive_solver].
  destruct (decide (Selection c = None)); [naive_solver|].
  destruct (decide (_ ∨ _)) as [Hd|Hd]; (split; [intros [= ->]|intros ([= ->] & ? & ? & ?)]); try done; [tauto|].
  split_and!; [done..|tauto|]. by destruct (decide (Decision_ (Selection c) root = BranchMatchYes)); [|tauto].
Qed.

Lemma inherited_none c id : InheritSelection c = ∅ → SelectionInheritedFrom c id = None.
Proof. unfold SelectionInheritedFrom. intros ->. by rewrite lookup_empty. Qed.

Lemma inherit_fold c d l id : foldr (inherit_one c) d l !! id
  = match SelectionInheritedFrom c id with
    | Some _ => if decide (id ∈ l) then Some BranchMatchYes else d !! id
    | None => d !! id
    end.
Proof.
  unfold SessionSelection in *. induction l as [|k l IH]; cbn [foldr]; [by destruct (SelectionInheritedFrom c id)|].
  unfold inherit_one at 1; unfold SessionSelection in *. destruct (SelectionInheritedFrom c k) eqn:Ek.
  - destruct (decide (id = k)) as [->|Hne].
    + rewrite lookup_insert_eq, Ek, decide_True; [done|by left].
    + rewrite lookup_insert_ne, IH by done. destruct (SelectionInheritedFrom c id); [|done].
      repeat case_decide; set_solver.
  - rewrite IH. destruct (SelectionInheritedFrom c id) eqn:E; [|done].
    assert (id ≠ k) by (intros ->; congruence). repeat case_decide; set_solver.
Qed.

Lemma inheriting_decision c id : Decision_ (inheritingSelection c) id = selectionDecision c id.
Proof.
  unfold inheritingSelection, selectionDecision. destruct (Selection c) as [d|] eqn:Es.
  - destruct (decide (InheritSelection c = ∅)) as [H|H]; [by rewrite inherited_none|].
    unfold Decision_ at 1. rewrite inherit_fold. destruct (SelectionInheritedFrom c id) as [root|] eqn:E; [|done].
    apply inherited_spec in E as [E _]. rewrite decide_True; [done|]. apply list_elem_of_fmap.
    exists (id, root). split; [done|]. by apply elem_of_map_to_list.
  - destruct (SelectionInheritedFrom c id) as [root|] eqn:E; [|done]. apply inherited_spec in E as (_ & E & _). done.
Qed.

Lemma ApplyRepositoryScope_filter l scope :
  ApplyRepositoryScope l scope = filter (λ s, Admits scope (ProjectHash s) = true) l.
Proof.
  destruct scope; [done|]. cbn. symmetry. by apply filter_everything.
Qed.

Lemma ApplySelection_filter l c :
  ApplySelection l (inheritingSelection c)
  = (filter (λ s, selectionDecision c (SessionID s) = BranchMatchYes) l,
     filter (λ s, selectionDecision c (SessionID s) = BranchMatchWithheldConflict) l).
Proof.
  assert (∀ b, filter (λ s, Decision_ (inheritingSelection c) (SessionID s) = b) l
             = filter (λ s, selectionDecision c (SessionID s) = b) l) as Hf.
  { intros b. apply list_filter_iff. intros s. by rewrite inheriting_decision. }
  rewrite <-!Hf. unfold ApplySelection. destruct (inheritingSelection c) as [d|]; [done|]. cbn. f_equal.
  - symmetry. by apply filter_everything.
  - symmetry. apply filter_nil_iff. by intros x _.
Qed.

Lemma keep_chosen c l :
  (if decide (FilterSessionIDs c = []) then l
   else keepSessions l (list_to_map ((λ id, (id, true)) <$> FilterSessionIDs c)))
  = filter (chosen c) l.
Proof.
  unfold chosen. destruct (decide _) as [H|H].
  - symmetry. apply filter_everything. by left.
  - apply list_filter_iff. intros s.
    assert (∀ ids : list string, (list_to_map ((λ id, (id, true)) <$> ids) : gmap string bool) !! SessionID s
            = if decide (SessionID s ∈ ids) then Some true else None) as Hm.
    { induction ids as [|i ids IH]; cbn; [done|]. destruct (decide (i = SessionID s)) as [->|Hne].
      - rewrite lookup_insert_eq, decide_True; [done|by left].
      - rewrite lookup_insert_ne, IH by done. repeat case_decide; set_solver. }
    rewrite Hm. case_decide; cbn; naive_solver.
Qed.

Lemma keep_pinned c l :
  match PinnedSessionIDs c with Some m => keepSessions l m | None => l end = filter (pinned c) l.
Proof.
  destruct (PinnedSessionIDs c) as [m|] eqn:E.
  - apply list_filter_iff. intros s. unfold pinned. by rewrite E.
  - symmetry. apply filter_everything. intros s. unfold pinned. by rewrite E.
Qed.

(** The sessions kept by every filter, before the inheritance is checked. *)
Definition eligible (c : PipelineConfig) (s : PushSessionRow) : Prop :=
  passes c s ∧ selectionDecision c (SessionID s) = BranchMatchYes.

Definition conflicting (c : PipelineConfig) (s : PushSessionRow) : Prop :=
  passes c s ∧ selectionDecision c (SessionID s) = BranchMatchWithheldConflict.

#[export] Instance eligible_dec c s : Decision (eligible c s).
Proof. unfold eligible. apply _. Defined.
#[export] Instance conflicting_dec c s : Decision (conflicting c s).
Proof. unfold conflicting. apply _. Defined.

Lemma Narrow_filters base c :
  NarrowCandidates base c = (dropInheritedWithoutRoot (filter (eligible c) base) c, filter (conflicting c) base).
Proof.
  unfold NarrowCandidates. rewrite keep_chosen. rewrite keep_pinned, ApplySelection_filter, !ApplyRepositoryScope_filter.
  rewrite !list_filter_filter. f_equal; [f_equal|]; apply list_filter_iff; intros s; unfold eligible, conflicting, passes; tauto.
Qed.

(** The row whose readiness decides for the sessions that inherit from [root]. *)
Definition root_row (c : PipelineConfig) (base : list PushSessionRow) (root : string) : option PushSessionRow :=
  last (filter (λ r, SessionID r = root ∧ passes c r) base).

Section sending.
Context `{RemoteLib} `{CaptureReader}.

Definition sendable (c : PipelineConfig) (base : list PushSessionRow) (s : PushSessionRow) : bool :=
  bool_decide (passes c s)
  && (bool_decide (Decision_ (Selection c) (SessionID s) = BranchMatchYes)
      || match SelectionInheritedFrom c (SessionID s) with
         | Some root => match root_row c base root with Some r => is_ok (publishable c r) | None => false end
         | None => false
         end).

Lemma rows_by_id_last l root : rows_by_id l !! root = last (filter (λ r, SessionID r = root) l).
Proof.
  unfold rows_by_id. induction l as [|s l IH] using rev_ind; [done|].
  rewrite foldl_app, filter_app. cbn [foldl]. rewrite filter_cons, filter_nil.
  destruct (decide (SessionID s = root)) as [->|Hne].
  - by rewrite lookup_insert_eq, last_snoc.
  - by rewrite lookup_insert_ne, app_nil_r, IH by done.
Qed.

Lemma ready_loop_filter c rows ready kept :
  let root_ready root := is_ok (publishable c (default zeroRow (rows !! root))) in
  (∀ root b, ready !! root = Some b → b = root_ready root) →
  ready_loop c rows ready kept
  = filter (λ s, match SelectionInheritedFrom c (SessionID s) with Some root => root_ready root | None => true end = true) kept.
Proof.
  intros root_ready. revert ready. induction kept as [|s kept IH]; intros ready Hready; [done|].
  cbn [ready_loop]. rewrite filter_cons. destruct (SelectionInheritedFrom c (SessionID s)) as [root|].
  2: { rewrite decide_True by done. f_equal. by apply IH. }
  destruct (ready !! root) as [b|] eqn:E.
  - rewrite <-(Hready _ _ E). destruct b; [rewrite decide_True by done; f_equal|]; by apply IH.
  - fold (root_ready root).
    assert (∀ root' b, <[root := root_ready root]> ready !! root' = Some b → b = root_ready root') as Hready'.
    { intros root' b [[-> <-]|[_ Hb]]%lookup_insert_Some; [done|by apply Hready]. }
    destruct (root_ready root); [rewrite decide_True by done; f_equal|]; by apply IH.
Qed.

Lemma root_eligible c root r : Decision_ (Selection c) root = BranchMatchYes → SessionID r = root →
  passes c r → eligible c r ∧ SelectionInheritedFrom c (SessionID r) = None.
Proof.
  intros Hd <- Hp. assert (SelectionInheritedFrom c (SessionID r) = None) as Hn.
  { destruct (SelectionInheritedFrom c (SessionID r)) eqn:E; [|done]. apply inherited_spec in E as (_ & _ & E & _). done. }
  split; [|done]. split; [done|]. unfold selectionDecision. by rewrite Hn.
Qed.

Lemma eligible_inherited c s : eligible c s ↔
  passes c s ∧ (Decision_ (Selection c) (SessionID s) = BranchMatchYes ∨ is_Some (SelectionInheritedFrom c (SessionID s))).
Proof.
  unfold eligible, selectionDecision. destruct (SelectionInheritedFrom c (SessionID s)) as [root|] eqn:E.
  - split; [intros [? _]; split; [done|by right; eexists]|by intros [? _]].
  - split; [naive_solver|]. intros [? [?|[? [=]]]]. done.
Qed.

Lemma targets_filter c base :
  dropInheritedWithUnreadyRoot c (NarrowCandidates base c).1 = filter (λ s, sendable c base s = true) base.
Proof.
  rewrite Narrow_filters. cbn [fst]. unfold dropInheritedWithUnreadyRoot, dropInheritedWithoutRoot.
  destruct (decide (InheritSelection c = ∅)) as [He|He].
  - apply list_filter_iff. intros s. rewrite eligible_inherited. unfold sendable.
    rewrite andb_true_iff, orb_true_iff, !bool_decide_eq_true, (inherited_none c _ He). split.
    + intros [? [?|[? [=]]]]. auto.
    + intros [? [?|[=]]]. auto.
  - set (present := list_to_set _ : gset string). rewrite list_filter_filter.
    set (K := filter _ base). rewrite ready_loop_filter by (by intros ? ? ?%lookup_empty_Some).
    unfold K. rewrite list_filter_filter. apply list_filter_iff. intros s. fold K.
    rewrite eligible_inherited. unfold sendable. rewrite andb_true_iff, orb_true_iff, !bool_decide_eq_true.
    destruct (SelectionInheritedFrom c (SessionID s)) as [root|] eqn:E; [|naive_solver].
    pose proof (proj1 (inherited_spec c _ _) E) as (_ & _ & Hown & Hroot).
    assert (root ∈ present ↔ root_row c base root ≠ None) as Hpres.
    { unfold root_row, present. rewrite last_None, elem_of_list_to_set, list_elem_of_fmap, filter_not_nil_iff. split.
      - intros (r & -> & [[Hp _] Hr]%list_elem_of_filter). eauto.
      - intros (r & Hr & <- & Hp). exists r. split; [done|]. apply list_elem_of_filter. split; [|done].
        by apply (root_eligible c (SessionID r)). }
    assert (root ∈ present → rows_by_id K !! root = root_row c base root) as Hrow.
    { intros Hin. rewrite rows_by_id_last. unfold root_row, K. rewrite list_filter_filter. f_equal.
      apply list_filter_iff. intros r. split; [intros (<- & _ & [? _]); done|].
      intros [Hr Hp]. destruct (root_eligible c root r Hroot Hr Hp) as [He' Hn]. rewrite Hn. done. }
    assert (bool_decide (root ∈ present) = true ↔ root_row c base root ≠ None) as Hb by (by rewrite bool_decide_eq_true).
    destruct (root_row c base root) as [r|].
    + assert (root ∈ present) as Hin by by apply Hpres. rewrite (Hrow Hin). cbn [default].
      rewrite Hb. naive_solver.
    + rewrite Hb. naive_solver.
Qed.

(** C12: a run sends exactly the candidates that pass every filter (the wizard's choice,
    the pinned sessions, the repository scope) and that the saved selection admits, or
    that inherit it from a root session which the selection admits, which passes the
    same filters, is sent by the same run and is ready to publish; the order of the
    candidates is kept, and the sessions reported as withheld are the conflicting ones
    that pass the same filters. *)
Theorem targets_exact {E} (all : result E (list PushSessionRow)) cfg c base :
  QueryPushCandidates all {| q_Force := Force c; q_SourceProvider := SourceProvider c;
                             q_Method := Method cfg; q_Sources := Sources cfg |} = Ok base →
  let sent := filter (λ s, sendable c base s = true) base in
  getTargetSessions all cfg c = Ok (sent, length base, filter (conflicting c) base)
  ∧ ∀ s root, s ∈ sent → SelectionInheritedFrom c (SessionID s) = Some root →
      ∃ r, r ∈ sent ∧ SessionID r = root ∧ Decision_ (Selection c) root = BranchMatchYes ∧ is_ok (publishable c r) = true.
Proof.
  intros Hq sent. split.
  - unfold getTargetSessions. rewrite Hq. cbn [res_bind]. destruct (NarrowCandidates base c) as [kept withheld] eqn:En.
    pose proof (targets_filter c base) as Ht. rewrite En in Ht. cbn [fst] in Ht. rewrite Ht.
    rewrite Narrow_filters in En. by injection En as _ <-.
  - intros s root [Hs Hin]%list_elem_of_filter Ei. unfold sendable in Hs. rewrite Ei in Hs.
    pose proof (proj1 (inherited_spec c _ _) Ei) as (_ & _ & Hown & Hroot).
    apply andb_true_iff in Hs as [_ Hs]. rewrite bool_decide_eq_false_2 in Hs by done. cbn [orb] in Hs.
    destruct (root_row c base root) as [r|] eqn:Er; [|done]. exists r.
    apply last_Some_elem_of, list_elem_of_filter in Er as ((Hr & Hp) & Hb).
    split_and!; [|done|done|done]. apply list_elem_of_filter. split; [|done]. unfold sendable.
    rewrite andb_true_iff, orb_true_iff, !bool_decide_eq_true. split; [done|left]. by rewrite Hr.
Qed.
End sending.

(** ** Scope, order and preflight *)

Lemma admit_fold identity also st :
  let '(dirs, adm) := foldl (admit_recorded identity) st also in
  (identity ∈ st.2 → length st.1 + 1 = size st.2 → length dirs + 1 = size adm)
  ∧ (∀ h, h ∈ adm ↔ h ∈ st.2 ∨ h ≠ "" ∧ h ≠ identity ∧ ∃ r, r ∈ also ∧ Hash r = h)
  ∧ (∀ d, d ∈ dirs → d ∈ st.1 ∨ ∃ r, r ∈ also ∧ RecordedDirectory r = d ∧ Hash r ∈ adm).
Proof.
  revert st. induction also as [|r also IH]; intros st; cbn [foldl].
  - destruct st as [dirs adm]. cbn. split_and!; [done| |auto]. intros h. split; [auto|].
    by intros [?|(_ & _ & ? & []%elem_of_nil & _)].
  - specialize (IH (admit_recorded identity st r)). destruct (foldl _ _ also) as [dirs adm].
    destruct IH as (H1 & H2 & H3). unfold admit_recorded in H1, H2, H3.
    destruct (decide (Hash r = "" ∨ Hash r = identity)) as [Hd|Hd].
    + split_and!; [done| |].
      * intros h. rewrite H2. setoid_rewrite elem_of_cons. split; [naive_solver|].
        intros [?|(? & ? & q & [->|?] & <-)]; [auto|tauto|right]. split_and!; eauto.
      * intros d Hdir. destruct (H3 d Hdir) as [?|(q & ? & ? & ?)]; [auto|right]. exists q. split_and!; [by right|done..].
    + cbn [fst snd] in H1, H2, H3. split_and!.
      * intros Hi Hl. apply H1; [set_solver|]. destruct (decide (Hash r ∈ st.2)) as [Hin|Hnin].
        -- by replace ({[Hash r]} ∪ st.2) with st.2 by set_solver.
        -- rewrite size_union, size_singleton, length_app by set_solver. cbn. lia.
      * intros h. rewrite H2. setoid_rewrite elem_of_cons. rewrite elem_of_union, elem_of_singleton. split.
        -- intros [[->|?]|(? & ? & q & ? & <-)]; [right|auto|right]; [|naive_solver]. split_and!; [tauto|tauto|]. exists r. auto.
        -- intros [?|(? & ? & q & [->|?] & <-)]; [auto|auto|]. right. split_and!; eauto.
      * intros d Hdir. destruct (H3 d Hdir) as [Hs|(q & ? & ? & ?)].
        -- destruct (decide (Hash r ∈ st.2)); [by left|]. apply elem_of_app in Hs as [?|Hs%list_elem_of_singleton]; [by left|right].
           exists r. split_and!; [by left|done|]. apply H2. left. set_solver.
        -- right. exists q. split_and!; [by right|done..].
Qed.

(** A scope admits its own identity and the recorded ones, names one directory for
    each of the others, and reports as unreachable only identities it does not admit. *)
Lemma scope_exact root identity basis also unadm :
  let s := NewRepositoryScope root identity basis also unadm in
  (∀ h, Admits (Some s) h = true ↔ h = identity ∨ h ≠ "" ∧ ∃ r, r ∈ also ∧ Hash r = h)
  ∧ (length (alsoRecorded s) + 1 = size (admitted s))%nat
  ∧ (∀ d, d ∈ alsoRecorded s → ∃ r, r ∈ also ∧ RecordedDirectory r = d ∧ Admits (Some s) (Hash r) = true)
  ∧ (∀ r, r ∈ Unadmitted (Some s) ↔ r ∈ unadm ∧ Hash r ≠ "" ∧ Admits (Some s) (Hash r) = false)
  ∧ (∀ h, h ∈ Hashes (Some s) ↔ Admits (Some s) h = true).
Proof.
  intros s. subst s. unfold NewRepositoryScope. pose proof (admit_fold identity also ([], {[identity]})) as H.
  destruct (foldl _ _ also) as [dirs adm]. destruct H as (H1 & H2 & H3). cbn [fst snd] in *. unfold Admits, Hashes, Unadmitted.
  cbn [admitted alsoRecorded unadmitted]. assert (∀ h, bool_decide (h ∈ adm) = false ↔ h ∉ adm) as Hf by (intros h; apply bool_decide_eq_false).
  split_and!.
  - intros h. rewrite bool_decide_eq_true, H2, elem_of_singleton. split; [naive_solver|].
    intros [->|(? & r & ? & ?)]; [auto|]. destruct (decide (h = identity)); [auto|right]. eauto.
  - rewrite <-H1; [by rewrite sort_strings_perm|set_solver|by rewrite size_singleton].
  - intros d Hd. rewrite sort_strings_perm in Hd. destruct (H3 d Hd) as [[]%elem_of_nil|(r & ? & ? & ?)].
    exists r. split_and!; [done..|by apply bool_decide_eq_true].
  - intros r. rewrite elem_of_sort_by, list_elem_of_filter, Hf. tauto.
  - intros h. by rewrite sort_strings_perm, elem_of_elements, bool_decide_eq_true.
Qed.

Section stable_facts.
Context {A : Type} (less : A → A → bool).
Notation le x y := (less y x = false).
Hypothesis le_trans : ∀ x y z, le x y → le y z → le x z.
Hypothesis less_le : ∀ x y, less x y = true → le x y.

Lemma stable_insert_perm x l : stable_insert less x l ≡ₚ x :: l.
Proof. induction l as [|y l IH]; [done|]. cbn. destruct (less y x); [|done]. rewrite IH. constructor. Qed.

Lemma SliceStable_perm l : SliceStable less l ≡ₚ l.
Proof. induction l as [|x l IH]; [done|]. cbn. rewrite stable_insert_perm. by constructor. Qed.

Lemma stable_insert_sorted x l : StronglySorted (λ a b, le a b) l → StronglySorted (λ a b, le a b) (stable_insert less x l).
Proof.
  induction 1 as [|y l Hs IH Hy]; cbn; [by repeat constructor|]. destruct (less y x) eqn:E.
  - constructor; [done|]. rewrite stable_insert_perm. constructor; [by apply less_le|done].
  - constructor; [by constructor|]. constructor; [done|]. eapply Forall_impl; [exact Hy|]. intros z Hz. by eapply le_trans.
Qed.

Lemma SliceStable_sorted l : StronglySorted (λ a b, le a b) (SliceStable less l).
Proof. induction l as [|x l IH]; cbn; [constructor|]. by apply stable_insert_sorted. Qed.

(** Elements that are not told apart keep their order. *)
Lemma SliceStable_stable x l :
  filter (λ y, le x y ∧ le y x) (SliceStable less l) = filter (λ y, le x y ∧ le y x) l.
Proof.
  induction l as [|y l IH]; [done|]. cbn [SliceStable foldr]. fold (SliceStable less l).
  rewrite filter_cons, <-IH. clear IH. generalize (SliceStable less l) as m. induction m as [|z m IH]; cbn [stable_insert].
  - by rewrite filter_cons, filter_nil.
  - destruct (less z y) eqn:E; [|by rewrite filter_cons].
    rewrite !(filter_cons _ z), IH. repeat case_decide; try done.
    exfalso. destruct H as [H1 H2], H0 as [H3 H4]. enough (le y z) by congruence. by eapply le_trans.
Qed.
End stable_facts.

Lemma cheaper_le a b : cheaper b a = false ↔
  (TokensTotal a < TokensTotal b)%Z ∨ TokensTotal a = TokensTotal b ∧ string_le (SessionID a) (SessionID b).
Proof.
  unfold cheaper, string_le. destruct (decide (TokensTotal b ≠ TokensTotal a)) as [H|H%dec_stable].
  - rewrite bool_decide_eq_false. lia.
  - rewrite negb_false_iff. split; [auto|]. intros [?|[_ ?]]; [lia|done].
Qed.

(** The order of a bounded run: a permutation, cheapest first, ties kept; an
    unbounded run keeps the order. *)
Lemma orderForBudget_exact bounded sessions :
  orderForBudget bounded sessions ≡ₚ sessions
  ∧ (bounded = true → StronglySorted (λ a b, (TokensTotal a ≤ TokensTotal b)%Z) (orderForBudget bounded sessions))
  ∧ (bounded = false → orderForBudget bounded sessions = sessions).
Proof.
  assert (∀ x y z, cheaper y x = false → cheaper z y = false → cheaper z x = false) as Ht.
  { intros x y z. rewrite !cheaper_le. intros [?|[? H1]] [?|[? H2]]; [left; lia|left; lia|left; lia|right].
    split; [lia|]. by transitivity (SessionID y). }
  assert (∀ x y, cheaper x y = true → cheaper y x = false) as Hl.
  { intros x y H. apply cheaper_le. apply not_false_iff_true in H. rewrite cheaper_le in H.
    destruct (total string_le (SessionID x) (SessionID y)), (Z.lt_trichotomy (TokensTotal x) (TokensTotal y)) as [|[Heq|]];
      try rewrite Heq in *; tauto. }
  unfold orderForBudget. destruct bounded; cbn [negb orb]; [|by split_and!].
  destruct (bool_decide_reflect (length sessions < 2)%nat) as [Hs|Hs].
  - split_and!; [done|intros _|done]. destruct sessions as [|s [|]]; [constructor|by repeat constructor|cbn in Hs; lia].
  - split_and!; [by apply SliceStable_perm|intros _|done].
    pose proof (SliceStable_sorted cheaper Ht Hl sessions) as Hsort. revert Hsort. generalize (SliceStable cheaper sessions) as m.
    induction 1 as [|x m Hm IH Hx]; constructor; [done|]. eapply Forall_impl; [exact Hx|].
    intros y [?|[? _]]%cheaper_le; lia.
Qed.

Section preflighting.
Context `{RemoteLib} `{CaptureReader}.

Lemma preflight_from_exact c cancelled i sessions valid refused valid' refused' err :
  preflight_from c cancelled i sessions valid refused = (valid', refused', err) →
  ∃ n v r, (n ≤ length sessions)%nat ∧ valid' = valid ++ v ∧ refused' = refused ++ r
  ∧ v = filter (λ s, is_ok (publishable c s) = true) (take n sessions)
  ∧ r.*1 = filter (λ s, is_ok (publishable c s) = false) (take n sessions)
  ∧ (∀ s e, (s, e) ∈ r → publishable c s = Err e ∧ isRunWide e = false)
  ∧ match err with
    | None => n = length sessions
    | Some e => (cancelled (i + n)%nat = true ∧ e = ContextDone)
                ∨ ∃ s, sessions !! n = Some s ∧ publishable c s = Err e ∧ isRunWide e = true
    end.
Proof.
  revert i valid refused. induction sessions as [|s sessions IH]; intros i valid refused; cbn [preflight_from].
  - intros [= <- <- <-]. exists 0, [], []. rewrite !app_nil_r. split_and!; try done. by intros ? ? ?%elem_of_nil.
  - destruct (cancelled i) eqn:Ec.
    { intros [= <- <- <-]. exists 0, [], []. rewrite !app_nil_r. split_and!; try done; [cbn; lia|by intros ? ? ?%elem_of_nil|].
      left. by rewrite Nat.add_0_r. }
    destruct (publishable c s) as [input|e] eqn:Ep; [|destruct (isRunWide e) eqn:Er].
    + intros (n & v & r & Hn & -> & -> & -> & Hr & Hall & Herr)%IH. exists (S n), (s :: filter (λ s, is_ok (publishable c s) = true) (take n sessions)), r.
      cbn [take length]. rewrite !filter_cons, Ep. cbn [is_ok]. rewrite decide_True, decide_False, <-app_assoc by done.
      split_and!; try done; [lia|]. destruct err; [|lia]. by rewrite Nat.add_succ_r.
    + intros [= <- <- <-]. exists 0, [], []. rewrite !app_nil_r. split_and!; try done; [cbn; lia|by intros ? ? ?%elem_of_nil|].
      right. by exists s.
    + intros (n & v & r & Hn & -> & -> & -> & Hr & Hall & Herr)%IH.
      exists (S n), (filter (λ s, is_ok (publishable c s) = true) (take n sessions)), ((s, e) :: r).
      cbn [take length]. rewrite !filter_cons, Ep. cbn [is_ok fmap list_fmap fst].
      rewrite decide_False, decide_True, <-app_assoc, Hr by done.
      split_and!; try done; [lia| |].
      * intros s' e' [[= -> ->]|Hin]%elem_of_cons; [done|by apply Hall].
      * destruct err; [|lia]. by rewrite Nat.add_succ_r.
Qed.

(** The preflight loses no candidate: it splits the sessions it reads, in order, into
    those ready to publish and those refused with their own reason, none of which
    stops the run; it reads all of them unless the run is cancelled or the store fails
    as a whole, and then nothing is sent. *)
Theorem preflight_partition c cancelled sessions valid refused err :
  preflight c cancelled sessions = (valid, refused, err) →
  ∃ n, valid = filter (λ s, is_ok (publishable c s) = true) (take n sessions)
  ∧ refused.*1 = filter (λ s, is_ok (publishable c s) = false) (take n sessions)
  ∧ (∀ s e, (s, e) ∈ refused → publishable c s = Err e ∧ isRunWide e = false)
  ∧ match err with
    | None => n = length sessions
    | Some e => (cancelled n = true ∧ e = ContextDone)
                ∨ ∃ s, sessions !! n = Some s ∧ publishable c s = Err e ∧ isRunWide e = true
    end.
Proof.
  intros (n & v & r & _ & -> & -> & -> & Hr & Hall & Herr)%preflight_from_exact. exists n. by split_and!.
Qed.
End preflighting.

(** ** Concrete runs *)

Definition demoRow (id : string) (tokens : Z) : PushSessionRow :=
  {| SessionID := id; ModelHarness := "claude"; HostSlug := "host"; ProjectHash := "p"; ProjectPath := "/work";
     PushedAt := None; GitBranch := Some "main"; GitRemote := ""; TokensTotal := tokens |}.

Definition demoInput (id : string) (ready : bool) : PublicationInput :=
  {| in_Ready := ready; in_LatestAttemptPending := false; in_SessionID := id; in_ProjectHash := "p"; in_ModelHarness := "claude";
     in_Model := "model"; in_Branch := Some "main"; in_Remote := None; in_ProjectPath := "/work"; in_AssistantReply := [true];
     in_ReceiptProjectHash := "p" |}.

(** The session [late] has no verified capture yet. *)
Definition demoReader : CaptureReader :=
  {| LoadPublicationInputSelected := λ id _, Ok (demoInput id (bool_decide (id ≠ "late"))) |}.

Definition demoRows : list PushSessionRow :=
  [demoRow "root" 9; demoRow "agent" 1; demoRow "other" 4; demoRow "late" 2; demoRow "orphan" 3].

(** [agent] follows [root], [orphan] follows [late]; neither is selected by itself. *)
Definition demoConfig : PipelineConfig :=
  {| DryRun := false; Force := false; SourceProvider := ""; Visibility_ := ""; ChangeVisibility := false; License := "";
     ChangeLicense := false; Concurrency := 0; FilterSessionIDs := []; PinnedSessionIDs := None; UpdateHold := None;
     Selection := Some {["root" := BranchMatchYes; "late" := BranchMatchYes; "other" := BranchMatchWithheldConflict]};
     InheritSelection := {["agent" := "root"; "orphan" := "late"]};
     Repository := Some (NewRepositoryScope "/work" "p" IdentityFromPath [] []); LastGood := false |}.

Definition demoPush : PushConfig := {| Method := "all"; Sources := []; PushVisibility := ""; PushLicense := "" |}.

Lemma targets_exact_witness :
  getTargetSessions (E := string) (H := plainRemotes) (H0 := demoReader) (Ok demoRows) demoPush demoConfig
  = Ok ([demoRow "root" 9; demoRow "agent" 1; demoRow "late" 2], 5%nat, [demoRow "other" 4]).
Proof.
  pose proof (targets_exact (H := plainRemotes) (H0 := demoReader) (E := string) (Ok demoRows) demoPush demoConfig demoRows eq_refl) as [Ht _].
  rewrite Ht. vm_compute. reflexivity.
Defined.

Lemma preflight_partition_witness : ∃ n, (["root"; "agent"; "other"; "orphan"] : list string) =
  SessionID <$> filter (λ s, is_ok (publishable (H := plainRemotes) (H0 := demoReader)
    {| DryRun := false; Force := false; SourceProvider := ""; Visibility_ := ""; ChangeVisibility := false; License := "";
       ChangeLicense := false; Concurrency := 0; FilterSessionIDs := []; PinnedSessionIDs := None; UpdateHold := None;
       Selection := None; InheritSelection := ∅; Repository := None; LastGood := false |} s) = true) (take n demoRows) ∧ n = 5.
Proof.
  destruct (preflight_partition (H := plainRemotes) (H0 := demoReader)
    {| DryRun := false; Force := false; SourceProvider := ""; Visibility_ := ""; ChangeVisibility := false; License := "";
       ChangeLicense := false; Concurrency := 0; FilterSessionIDs := []; PinnedSessionIDs := None; UpdateHold := None;
       Selection := None; InheritSelection := ∅; Repository := None; LastGood := false |}
    (λ _, false) demoRows _ _ _ eq_refl) as (n & Hv & _ & _ & Hn).
  exists n. split; [|exact Hn]. rewrite <-Hv. vm_compute. reflexivity.
Defined.
