(* ===== verification/PushSession.v ===== *)
(** * Publishing one session

    [pushSession] of [src/internal/push/pipeline.go] with [alreadyHeld],
    [updateHeldReason] and [unfinishedFirstPublish], the visibility resolution of
    [src/internal/config/policy.go], and the receipts and attempts of
    [src/internal/store/publications.go] as tables.

    What is sent is a log of calls; what the village, the account check and the
    store answer is given per run ([Answers]).  The schema package is the class
    [SchemaPublish]; the redactor, the construction of the content and of the metadata
    document ([content.go], [mapper.go]) and [encoding/json] are the class
    [ContentBuilder], and the redaction of the transcript document is built on it.
    Only redacted metadata and entries reach what is built from them.
    Errors keep the return statement they come from and the text of the error they
    wrap, which the connection check of the run reads. *)
From S2P Require Import Prelude GoStrings GoText Selection Negotiation PushTargets.
From Stdlib Require Import Ascii.
Local Open Scope string_scope.
Local Open Scope list_scope.

(** ** Visibility *)

Definition VisibilityPrivate : string := "private".
Definition VisibilityPublic : string := "public".
Definition ImplementedVisibilities : list string := [VisibilityPrivate; VisibilityPublic].
Definition FallbackVisibility : string := VisibilityPrivate.

Definition EffectiveVisibility (requested : string) (cfg : PushConfig) : string :=
  let configured :=
    if decide (requested ≠ "") then requested
    else if decide (PushVisibility cfg ≠ "") then PushVisibility cfg else FallbackVisibility in
  if decide (configured ∈ ImplementedVisibilities) then configured else FallbackVisibility.

Definition VisibilityChangeRefusal (requested : string) : bool :=
  negb (bool_decide (requested = "" ∨ requested ∈ ImplementedVisibilities)).

Definition resolveVisibility (c : PipelineConfig) (cfg : PushConfig) : string := EffectiveVisibility (Visibility_ c) cfg.
Definition resolveLicense (c : PipelineConfig) (cfg : PushConfig) : string :=
  if decide (License c ≠ "") then License c else PushLicense cfg.
Definition changesVisibility (c : PipelineConfig) : bool := ChangeVisibility c && bool_decide (Visibility_ c ≠ "").
Definition changesLicense (c : PipelineConfig) : bool := ChangeLicense c && bool_decide (License c ≠ "").

(** ** Receipts and operations *)

Record Receipt := {
  rc_TranscriptID : string;
  rc_TranscriptURL : string;
  rc_ContentHash : string;
  rc_Fingerprint : string;
  rc_Visibility : string;
  rc_AppliedVisibility : string;
  rc_License : option string;
  rc_PublishedAt : Z;
  rc_UpdatedAt : Z;
  rc_Created : bool;
}.
#[export] Instance Receipt_eq_dec : EqDecision Receipt.
Proof. solve_decision. Defined.

Definition set_Created (b : bool) (r : Receipt) : Receipt :=
  {| rc_TranscriptID := rc_TranscriptID r; rc_TranscriptURL := rc_TranscriptURL r; rc_ContentHash := rc_ContentHash r;
     rc_Fingerprint := rc_Fingerprint r; rc_Visibility := rc_Visibility r; rc_AppliedVisibility := rc_AppliedVisibility r;
     rc_License := rc_License r; rc_PublishedAt := rc_PublishedAt r; rc_UpdatedAt := rc_UpdatedAt r; rc_Created := b |}.
Definition set_Visibility (v : string) (updatedAt : Z) (r : Receipt) : Receipt :=
  {| rc_TranscriptID := rc_TranscriptID r; rc_TranscriptURL := rc_TranscriptURL r; rc_ContentHash := rc_ContentHash r;
     rc_Fingerprint := rc_Fingerprint r; rc_Visibility := v; rc_AppliedVisibility := v;
     rc_License := rc_License r; rc_PublishedAt := rc_PublishedAt r; rc_UpdatedAt := updatedAt; rc_Created := rc_Created r |}.

Inductive LicenseOperation := LicensePreserve | LicenseReplace (license : string).

(** The schema package. *)
Class SchemaPublish := {
  Request : Type;
  Operation : Type;
  request_ContentHash : Request → string;
  CanonicalizePublishRequest : Request → option Operation;
  FingerprintPublishOperation : Operation → option string;
  operation_ContentHash : Operation → string;
  operation_License : Operation → LicenseOperation;
  with_License : LicenseOperation → Operation → Operation;
  receipt_Validate : Receipt → bool;
  NewProjectHash : string → bool;
}.

(** [RawJSONPathPolicy] of the schema package. *)
Record RawJSONPathPolicy := { MaxDocumentBytes : Z; MaxDocumentDepth : Z; OpaqueMetadataPointers : list string }.

(** The parts of a committed capture, the redactor of the run, [encoding/json] and the
    construction of the content and of the metadata document.  The construction notes
    in the metadata whether the content is partial, so it returns both; a required
    capability is a token. *)
Class ContentBuilder `{SchemaPublish} := {
  UnifiedMetadata : Type;
  SessionEntries : Type;
  SessionDetail : Type;
  Quality : Type;
  Associations : Type;
  SessionOrigin : Type;
  in_Metadata : PublicationInput → UnifiedMetadata;
  in_Entries : PublicationInput → SessionEntries;
  in_Detail : PublicationInput → option SessionDetail;
  in_Quality : PublicationInput → Quality;
  in_Associations : PublicationInput → Associations;
  in_SessionOrigin : PublicationInput → SessionOrigin;
  (* the redactor *)
  RedactMetadata : UnifiedMetadata → UnifiedMetadata;
  RedactEntries : SessionEntries → option SessionEntries;
  Json : Type;
  RedactJSON : Json → Json;
  Retained : Type;
  redactRetainedRecords : list Retained → option (list Retained);
  (* documents *)
  json_Decode : string → option Json;
  json_Encode : Json → option string;
  ScanRawJSONDocument : RawJSONPathPolicy → string → bool;
  Content : Type;
  content_Encode : Content → option string;
  content_Decode : string → option Content;
  DecodeTranscriptContentRaw : string → bool;
  content_Kind : Content → string;
  has_SessionDetail : Content → bool;
  RetainedUnknown : Content → list Retained;
  with_RetainedUnknown : list Retained → Content → Content;
  content_Partial : Content → bool;
  restoreObservedModels : Content → Content → option Content;
  (* construction *)
  BuildPublishTranscriptContent : option SessionDetail → UnifiedMetadata → SessionEntries → string → SessionOrigin
    → option (Content * UnifiedMetadata);
  MapMetadata : UnifiedMetadata → Quality → SessionEntries → Associations → string → option string;
  ScanPublication : Content → option (list string);
  buildAuthoritativeRequest : string → string → option Request;
}.

(** ** The redacted transcript document *)

Definition transcriptInputRedactionCapBytes : Z := Z.shiftl 64 20.
Definition PushTranscriptDocumentCapBytes : Z := Z.shiftl 128 20.

Definition transcriptDocumentPolicy (limitBytes : Z) : RawJSONPathPolicy :=
  {| MaxDocumentBytes := limitBytes; MaxDocumentDepth := 64; OpaqueMetadataPointers := ["/sessionDetail/nativeMetadata/*/data"] |}.

Section document.
Context `{ContentBuilder}.

Definition redactJSONDocumentWithInputCap (document : string) (maxDocumentBytes : Z) : option string :=
  if ScanRawJSONDocument {| MaxDocumentBytes := maxDocumentBytes; MaxDocumentDepth := 64; OpaqueMetadataPointers := [] |} document then
    decoded ← json_Decode document; json_Encode (RedactJSON decoded)
  else None.

(** What is taken over from the content as it was built: the observed models and the
    retained records, which were redacted on their own. *)
Definition restoreDetail (content : Content) (retained : list Retained) (check : Content) : option Content :=
  if has_SessionDetail content then
    check ← restoreObservedModels content check;
    if decide (0 < length retained)%nat then
      let check := with_RetainedUnknown retained check in
      if content_Partial check then Some check else None
    else Some check
  else Some check.

Definition marshalBuiltTranscriptContentWithPolicy (content : Content) (inputLimitBytes outputLimitBytes : Z) : option string :=
  retained ← (if has_SessionDetail content then redactRetainedRecords (RetainedUnknown content) else Some []);
  b ← content_Encode content;
  if negb (DecodeTranscriptContentRaw b) then None
  else
    b ← (if decide (0 < length retained)%nat then content_Encode (with_RetainedUnknown [] content) else Some b);
    redacted ← redactJSONDocumentWithInputCap b inputLimitBytes;
    if negb (ScanRawJSONDocument (transcriptDocumentPolicy outputLimitBytes) redacted) then None
    else
      check ← content_Decode redacted;
      if negb (bool_decide (content_Kind check = content_Kind content)) then None
      else if negb (Bool.eqb (has_SessionDetail content) (has_SessionDetail check)) then None
      else
        check ← restoreDetail content retained check;
        final ← content_Encode check;
        if DecodeTranscriptContentRaw final then Some final else None.

Definition marshalBuiltTranscriptContent (content : Content) : option string :=
  marshalBuiltTranscriptContentWithPolicy content transcriptInputRedactionCapBytes PushTranscriptDocumentCapBytes.

(** The bytes are the encoding of the redacted document of the content, with only the
    observed models and the separately redacted retained records put back. *)
Definition redacted_body (content : Content) (bytes : string) : Prop :=
  ∃ document decoded redacted shown final retained,
    (content_Encode content = Some document ∨ content_Encode (with_RetainedUnknown [] content) = Some document)
    ∧ json_Decode document = Some decoded ∧ json_Encode (RedactJSON decoded) = Some redacted
    ∧ content_Decode redacted = Some shown
    ∧ (if has_SessionDetail content then redactRetainedRecords (RetainedUnknown content) = Some retained else retained = [])
    ∧ restoreDetail content retained shown = Some final ∧ content_Encode final = Some bytes.

Lemma marshalBuilt_redacted content bytes :
  marshalBuiltTranscriptContent content = Some bytes → redacted_body content bytes.
Proof.
  unfold marshalBuiltTranscriptContent, marshalBuiltTranscriptContentWithPolicy.
  intros (retained & Hret & (b & Hb & Hm)%bind_Some)%bind_Some. destruct (negb _); [done|].
  apply bind_Some in Hm as (document & Hdoc & (redacted & Hred & Hm)%bind_Some). destruct (negb _); [done|].
  apply bind_Some in Hm as (shown & Hshown & Hm). destruct (negb _); [done|]. destruct (negb _); [done|].
  apply bind_Some in Hm as (final & Hfin & (out & Hout & Hm)%bind_Some). destruct (DecodeTranscriptContentRaw out); [|done].
  injection Hm as <-. unfold redactJSONDocumentWithInputCap in Hred. destruct (ScanRawJSONDocument _ document); [|done].
  apply bind_Some in Hred as (decoded & Hdec & Henc). exists document, decoded, redacted, shown, final, retained.
  split_and!; try done; [case_decide; [by right|left; congruence]|]. destruct (has_SessionDetail content); [done|congruence].
Qed.
End document.

Definition alreadyHeld `{SchemaPublish} (receipt : Receipt) (operation : Operation) (fingerprint : string) : bool :=
  if negb (receipt_Validate receipt) || bool_decide (rc_ContentHash receipt ≠ operation_ContentHash operation) then false
  else if decide (rc_Fingerprint receipt = fingerprint) then true
  else match operation_License operation, rc_License receipt with
       | LicensePreserve, Some license =>
         bool_decide (FingerprintPublishOperation (with_License (LicenseReplace license) operation) = Some (rc_Fingerprint receipt))
       | _, _ => false
       end.

(** ** The tables of publications *)

Inductive Stage := StagePublish | StageValidate | StageVisibility | StagePersistence.
#[export] Instance Stage_eq_dec : EqDecision Stage.
Proof. solve_decision. Defined.

(** village origin, owner, project and session: the primary key of the receipts. *)
Definition key := (string * string * string * string)%type.

Record Attempt := { at_Origin : string; at_Owner : string; at_Session : string; at_Time : Z; at_Stage : Stage }.

(** A row of [sessions]: its project and its publication cursor. *)
Record SessionRow := { row_Project : string; row_PushedAt : option Z; row_License : option string }.

Record Ledger := {
  publications : gmap key Receipt;
  sessions : gmap string SessionRow;
  attempts : list Attempt;       (* in order of insertion *)
}.

Inductive SaveError := ReceiptInvalid | IdentityIncomplete | StoreFailed | ConstraintFailed | SessionNotUpdated.

(** The [CHECK] constraints of [session_publications]. *)
Definition row_checks (r : Receipt) : bool :=
  bool_decide (String.length (rc_Fingerprint r) = 64%nat ∧ String.length (rc_ContentHash r) = 64%nat
               ∧ rc_Visibility r ∈ ["private"; "group"; "public"]
               ∧ (0 < rc_PublishedAt r)%Z ∧ (rc_PublishedAt r ≤ rc_UpdatedAt r)%Z).

(** A superseded key: the same account, transcript and session under another project. *)
Definition superseded (origin owner project session transcript : string) (kv : key * Receipt) : Prop :=
  let '(o, w, p, s) := kv.1 in
  o = origin ∧ w = owner ∧ rc_TranscriptID kv.2 = transcript ∧ s = session ∧ p ≠ project.
#[export] Instance superseded_dec origin owner project session transcript kv :
  Decision (superseded origin owner project session transcript kv).
Proof. unfold superseded. destruct kv as [[[[o w] p] s] r]. apply _. Defined.

(** Another receipt of the account for the same transcript. *)
Definition same_transcript (origin owner project session transcript : string) (kv : key * Receipt) : Prop :=
  let '(o, w, p, s) := kv.1 in
  o = origin ∧ w = owner ∧ rc_TranscriptID kv.2 = transcript ∧ (p, s) ≠ (project, session).
#[export] Instance same_transcript_dec origin owner project session transcript kv :
  Decision (same_transcript origin owner project session transcript kv).
Proof. unfold same_transcript. destruct kv as [[[[o w] p] s] r]. apply _. Defined.

(** [SavePublication]: one transaction; [fault] is a failing connection. *)
Definition SavePublication `{SchemaPublish} (fault : bool) (origin owner project session : string) (receipt : Receipt)
    (l : Ledger) : result SaveError Ledger :=
  require receipt_Validate receipt else ReceiptInvalid in
  require bool_decide (origin ≠ "" ∧ owner ≠ "" ∧ session ≠ "" ∧ project ≠ "") else IdentityIncomplete in
  require negb fault else StoreFailed in
  let kept := filter (λ kv, ¬ superseded origin owner project session (rc_TranscriptID receipt) kv) (publications l) in
  require row_checks receipt
    && bool_decide (filter (same_transcript origin owner project session (rc_TranscriptID receipt)) (map_to_list kept) = [])
    else ConstraintFailed in
  match sessions l !! session with
  | Some row =>
    require bool_decide (row_Project row = project) else SessionNotUpdated in
    Ok {| publications := <[(origin, owner, project, session) := receipt]> kept;
          sessions := <[session := {| row_Project := project; row_PushedAt := Some (rc_UpdatedAt receipt);
                                      row_License := rc_License receipt |}]> (sessions l);
          attempts := attempts l |}
  | None => Err SessionNotUpdated
  end.

Definition Publication (origin owner project session : string) (l : Ledger) : option Receipt :=
  publications l !! (origin, owner, project, session).

Definition of_account (origin owner session : string) (k : key) : Prop :=
  let '(o, w, _, s) := k in o = origin ∧ w = owner ∧ s = session.
#[export] Instance of_account_dec origin owner session k : Decision (of_account origin owner session k).
Proof. unfold of_account. destruct k as [[[o w] p] s]. apply _. Defined.

Definition PublishedToVillage (origin owner session : string) (l : Ledger) : bool :=
  bool_decide (filter (λ kv, of_account origin owner session kv.1) (map_to_list (publications l)) ≠ []).

(** The newest attempt: the latest time, then the last inserted. *)
Definition newer (acc : option Attempt) (a : Attempt) : option Attempt :=
  match acc with
  | Some b => if decide (at_Time b ≤ at_Time a)%Z then Some a else Some b
  | None => Some a
  end.
Definition LatestSessionPublicationAttempt (origin owner session : string) (l : Ledger) : option Attempt :=
  foldl newer None (filter (λ a, at_Origin a = origin ∧ at_Owner a = owner ∧ at_Session a = session) (attempts l)).

(** [RecordPublicationAttempt]: a failing call or a row that is not there leaves the
    table as it was. *)
Definition RecordPublicationAttempt (fault : bool) (now : Z) (origin owner project session : string) (stage : Stage)
    (message : string) (l : Ledger) : Ledger :=
  if fault || bool_decide (origin = "" ∨ owner = "" ∨ project = "" ∨ session = "" ∨ message = "") then l
  else match sessions l !! session with
       | Some row =>
         if decide (row_Project row = project ∧ (0 < now)%Z) then
           {| publications := publications l; sessions := sessions l;
              attempts := attempts l ++ [{| at_Origin := origin; at_Owner := owner; at_Session := session;
                                            at_Time := now; at_Stage := stage |}] |}
         else l
       | None => l
       end.

(** ** Results *)

Inductive PushStatus := PushStatusNew | PushStatusUpdated | PushStatusSkipped | PushStatusError | PushStatusHeld.
#[export] Instance PushStatus_eq_dec : EqDecision PushStatus.
Proof. solve_decision. Defined.

Inductive PushErrorKind :=
  | InputRefused (e : LoadError)
  | EntriesNotRedacted | ContentInvalid | ProjectHashInvalid | ReceiptUnread | MetadataUnmapped | ScanFailed
  | NotSerialized | RequestInvalid | CapabilitiesMissing | NotCanonical | NotFingerprinted
  | AccountChanged | UploadFailed (rejected : bool) | ReceiptMismatch | ObservationUnrecorded | AttemptUnread
  | AccountChangedBeforeVisibility | VisibilityUpdateFailed | VisibilityUpdateInconsistent | ReceiptNotSaved (e : option SaveError).

(** [sr_Error] carries the text of the wrapped error. *)
Record SessionPushResult := {
  sr_SessionID : string;
  sr_HostSlug : string;
  sr_Status : PushStatus;
  sr_Error : option (PushErrorKind * string);
  sr_HeldReason : string;
  sr_RequiredCapabilities : list string;
}.

Definition isConnectionMessage (msg : string) : bool :=
  Contains msg "connection refused" || Contains msg "no such host" || Contains msg "network is unreachable"
  || Contains msg "i/o timeout".
Definition isConnectionError (e : option (PushErrorKind * string)) : bool :=
  match e with Some (_, msg) => isConnectionMessage msg | None => false end.

(** ** The push of one session *)

Inductive PublishAnswer :=
  | Published (receipt : Receipt) (statusCode : Z)
  | PublishFailed (statusCode : Z) (message : string).

(** [OwnerTranscriptUpdateResponse]. *)
Record OwnerUpdate := { up_TranscriptID : string; up_TranscriptURL : string; up_Visibility : string; up_UpdatedAt : Z }.

(** The account whose village is pushed to. *)
Record Credentials := { VillageURL : string; UserID : string }.

Section push.
Context `{RemoteLib} `{CaptureReader} `{CapabilityLib} `{SP : SchemaPublish} `{!ContentBuilder}.

Inductive Call :=
  | CallPublish (request : Request) (content : string)
  | CallUpdateOwner (transcript visibility : string).

Record World := { ledger : Ledger; calls : list Call }.

(** What the village, the account and the store answer during one call of
    [pushSession]; [account_current] is asked before the upload, before the
    visibility update and at the save. *)
Record Answers := {
  PublishAuthoritative : Request → PublishAnswer;
  UpdateOwner : string → string → result string OwnerUpdate;
  account_current : bool * bool * bool;
  observed : bool;
  read_receipt_fault : bool;
  read_published_fault : bool;
  read_attempt_fault : bool;
  save_fault : bool;
  record_fault : bool;
  now : Z;
}.

Variables (creds : Credentials) (cfg : PushConfig) (c : PipelineConfig) (ans : Answers).

(** A statement of [pushSession]: the world after it, and a value or the result
    that is returned there. *)
Definition act (A : Type) := World → World * result SessionPushResult A.
Definition act_bind {A B} (m : act A) (k : A → act B) : act B :=
  λ w, match m w with (w, Ok a) => k a w | (w, Err r) => (w, Err r) end.
Notation "'do?' x ':=' m 'in' k" := (act_bind m (λ x, k)) (at level 10, x binder, m at level 100, k at level 200).

Definition return_ {A} (r : SessionPushResult) : act A := λ w, (w, Err r).
Definition value_ {A} (a : A) : act A := λ w, (w, Ok a).

Definition outcome (sess : PushSessionRow) (status : PushStatus) (required : list string) : SessionPushResult :=
  {| sr_SessionID := SessionID sess; sr_HostSlug := HostSlug sess; sr_Status := status; sr_Error := None;
     sr_HeldReason := ""; sr_RequiredCapabilities := required |}.
Definition failed (sess : PushSessionRow) (e : PushErrorKind) (text : string) (required : list string) : SessionPushResult :=
  {| sr_SessionID := SessionID sess; sr_HostSlug := HostSlug sess; sr_Status := PushStatusError; sr_Error := Some (e, text);
     sr_HeldReason := ""; sr_RequiredCapabilities := required |}.
Definition heldBack (sess : PushSessionRow) (reason : string) : SessionPushResult :=
  {| sr_SessionID := SessionID sess; sr_HostSlug := HostSlug sess; sr_Status := PushStatusHeld; sr_Error := None;
     sr_HeldReason := reason; sr_RequiredCapabilities := [] |}.

Definition or_fail {A} (sess : PushSessionRow) (o : option A) (e : PushErrorKind) : result SessionPushResult A :=
  match o with Some a => Ok a | None => Err (failed sess e "" []) end.

(** What is known of a session before anything is sent. *)
Record Prepared := {
  pr_Input : PublicationInput;
  pr_Meta : UnifiedMetadata;             (* redacted *)
  pr_Entries : SessionEntries;           (* redacted *)
  pr_Previous : option Receipt;
  pr_PublishedBefore : bool;
  pr_Request : Request;
  pr_Bytes : string;
  pr_Required : list string;
}.

(** Everything up to the dry-run divergence: reads only. *)
Definition prepare (sess : PushSessionRow) (license emit : string) (l : Ledger) : result SessionPushResult Prepared :=
  match publishable c sess with
  | Err e => Err (failed sess (InputRefused e) (match e with OtherLoadError m => m | _ => "" end) [])
  | Ok input =>
    let meta := RedactMetadata (in_Metadata input) in
    let? entries := or_fail sess (RedactEntries (in_Entries input)) EntriesNotRedacted in
    let? built := or_fail sess (BuildPublishTranscriptContent (in_Detail input) meta entries emit (in_SessionOrigin input)) ContentInvalid in
    let '(content, meta) := built in
    let project := in_ReceiptProjectHash input in
    require NewProjectHash project else failed sess ProjectHashInvalid "" [] in
    require negb (read_receipt_fault ans) else failed sess ReceiptUnread "" [] in
    let previous := Publication (VillageURL creds) (UserID creds) project (SessionID sess) l in
    let? publishedBefore :=
      match previous with
      | Some _ => Ok true
      | None => require negb (read_published_fault ans) else failed sess ReceiptUnread "" [] in
                Ok (PublishedToVillage (VillageURL creds) (UserID creds) (SessionID sess) l)
      end in
    let license := if publishedBefore && negb (changesLicense c) then "" else license in
    let? metadata := or_fail sess (MapMetadata meta (in_Quality input) entries (in_Associations input) license) MetadataUnmapped in
    let? required := or_fail sess (ScanPublication content) ScanFailed in
    let? bytes := or_fail sess (marshalBuiltTranscriptContent content) NotSerialized in
    let? request := or_fail sess (buildAuthoritativeRequest metadata bytes) RequestInvalid in
    Ok {| pr_Input := input; pr_Meta := meta; pr_Entries := entries; pr_Previous := previous; pr_PublishedBefore := publishedBefore; pr_Request := request;
          pr_Bytes := bytes; pr_Required := required |}
  end.

Definition updateHeldReason (sessionID : string) (held publishedBefore : bool) : string :=
  if held || negb publishedBefore then ""
  else match UpdateHold c with Some ask => ask sessionID | None => "" end.

(** The village already holds what the operation would leave it holding. *)
Definition held_unchanged (sess : PushSessionRow) (pr : Prepared) (operation : Operation) (fingerprint : string) : bool :=
  negb (Force c) && bool_decide (PushedAt sess ≠ None)
  && match pr_Previous pr with Some receipt => alreadyHeld receipt operation fingerprint | None => false end.

(** The forecast of a dry run. *)
Definition forecast (sess : PushSessionRow) (pr : Prepared) : SessionPushResult :=
  let status := if decide (PushedAt sess ≠ None) then PushStatusUpdated else PushStatusNew in
  let held := match CanonicalizePublishRequest (pr_Request pr) with
              | Some operation =>
                match FingerprintPublishOperation operation with
                | Some fingerprint => held_unchanged sess pr operation fingerprint
                | None => false
                end
              | None => false
              end in
  let status := if held && negb (changesVisibility c) then PushStatusSkipped else status in
  let reason := updateHeldReason (SessionID sess) held (pr_PublishedBefore pr) in
  if decide (reason ≠ "") then heldBack sess reason else outcome sess status (pr_Required pr).

Definition record_attempt (sess : PushSessionRow) (project : string) (stage : Stage) (message : string) : World → World :=
  λ w, {| ledger := RecordPublicationAttempt (record_fault ans) (now ans) (VillageURL creds) (UserID creds) project
                      (SessionID sess) stage message (ledger w);
          calls := calls w |}.

(** The messages of the pipeline's own errors are not empty. *)
Definition own_message : string := "publication did not complete".

(** The upload, its checks and the local observation of it. *)
Definition upload (sess : PushSessionRow) (pr : Prepared) (fingerprint : string) : act (Receipt * Z) := λ w,
  let project := in_ReceiptProjectHash (pr_Input pr) in
  let w := {| ledger := ledger w; calls := calls w ++ [CallPublish (pr_Request pr) (pr_Bytes pr)] |} in
  match PublishAuthoritative ans (pr_Request pr) with
  | PublishFailed statusCode message =>
    (record_attempt sess project StagePublish message w,
     Err (failed sess (UploadFailed (negb (bool_decide (statusCode = 0%Z) || isConnectionMessage message))) message []))
  | Published receipt statusCode =>
    if decide (rc_ContentHash receipt ≠ request_ContentHash (pr_Request pr) ∨ rc_Fingerprint receipt ≠ fingerprint)
    then (record_attempt sess project StageValidate own_message w, Err (failed sess ReceiptMismatch "" []))
    else if observed ans then (w, Ok (receipt, statusCode)) else (w, Err (failed sess ObservationUnrecorded "" []))
  end.

(** [unfinishedFirstPublish]. *)
Definition unfinishedFirstPublish (sess : PushSessionRow) (l : Ledger) : result unit bool :=
  if read_attempt_fault ans then Err tt
  else Ok match LatestSessionPublicationAttempt (VillageURL creds) (UserID creds) (SessionID sess) l with
          | Some attempt => bool_decide (at_Stage attempt ≠ StagePersistence)
          | None => false
          end.

(** Whether this upload opens the transcript. *)
Definition first_publish (sess : PushSessionRow) (pr : Prepared) (receipt : Receipt) : act bool := λ w,
  if negb (rc_Created receipt) && negb (pr_PublishedBefore pr) && negb (changesVisibility c)
     && bool_decide (rc_Visibility receipt = VisibilityPrivate) then
    match unfinishedFirstPublish sess (ledger w) with
    | Ok b => (w, Ok b)
    | Err _ => (w, Err (failed sess AttemptUnread "" []))
    end
  else (w, Ok (rc_Created receipt)).

(** The visibility convergence. *)
Definition converge (sess : PushSessionRow) (pr : Prepared) (visibility : string) (held firstPublish : bool) (receipt : Receipt)
    : act Receipt := λ w,
  let project := in_ReceiptProjectHash (pr_Input pr) in
  if (firstPublish || changesVisibility c) && bool_decide (visibility = VisibilityPrivate ∨ visibility = VisibilityPublic)
     && (held || bool_decide (rc_Visibility receipt ≠ visibility)) then
    if negb (account_current ans).1.2 then (w, Err (failed sess AccountChangedBeforeVisibility "" []))
    else
      let w := {| ledger := ledger w; calls := calls w ++ [CallUpdateOwner (rc_TranscriptID receipt) visibility] |} in
      match UpdateOwner ans (rc_TranscriptID receipt) visibility with
      | Err message =>
        (record_attempt sess project StageVisibility own_message w, Err (failed sess VisibilityUpdateFailed message []))
      | Ok updated =>
        if decide (up_Visibility updated ≠ visibility ∨ up_TranscriptID updated ≠ rc_TranscriptID receipt
                   ∨ up_TranscriptURL updated ≠ rc_TranscriptURL receipt)
        then (record_attempt sess project StageVisibility own_message w, Err (failed sess VisibilityUpdateInconsistent "" []))
        else (w, Ok (set_Visibility visibility (up_UpdatedAt updated) receipt))
      end
  else (w, Ok receipt).

(** The save of the terminal receipt. *)
Definition save (sess : PushSessionRow) (pr : Prepared) (receipt : Receipt) : act unit := λ w,
  let project := in_ReceiptProjectHash (pr_Input pr) in
  let saved := if (account_current ans).2 then
                 match SavePublication (save_fault ans) (VillageURL creds) (UserID creds) project (SessionID sess) receipt (ledger w) with
                 | Ok l => Ok l
                 | Err e => Err (Some e)
                 end
               else Err None in
  match saved with
  | Ok l => ({| ledger := l; calls := calls w |}, Ok tt)
  | Err e => (record_attempt sess project StagePersistence own_message w, Err (failed sess (ReceiptNotSaved e) "" []))
  end.

Definition statusOK : Z := 200.

(** From the receipt on the village to the terminal receipt. *)
Definition finish (sess : PushSessionRow) (pr : Prepared) (visibility : string) (held : bool) (receipt : Receipt) (statusCode : Z)
    : act SessionPushResult :=
  do? firstPublish := first_publish sess pr receipt in
  do? receipt := converge sess pr visibility held firstPublish receipt in
  do? _u := save sess pr receipt in
  value_ (outcome sess (if decide (statusCode = statusOK) then PushStatusUpdated else PushStatusNew) (pr_Required pr)).

(** The real run, after the dry-run divergence. *)
Definition publish (sess : PushSessionRow) (pr : Prepared) (visibility : string) (support : RemoteCapabilitySupport)
    : act SessionPushResult :=
  if decide (Shortfall support (pr_Required pr) ≠ []) then return_ (failed sess CapabilitiesMissing "" (pr_Required pr))
  else match CanonicalizePublishRequest (pr_Request pr) with
  | None => return_ (failed sess NotCanonical "" [])
  | Some operation =>
    match FingerprintPublishOperation operation with
    | None => return_ (failed sess NotFingerprinted "" [])
    | Some fingerprint =>
      let held := held_unchanged sess pr operation fingerprint in
      if held && negb (changesVisibility c) then return_ (outcome sess PushStatusSkipped [])
      else
        let reason := updateHeldReason (SessionID sess) held (pr_PublishedBefore pr) in
        if decide (reason ≠ "") then return_ (heldBack sess reason)
        else if negb (account_current ans).1.1 then return_ (failed sess AccountChanged "" [])
        else
          do? answer :=
            match (if held then pr_Previous pr else None) with
            | Some receipt => value_ (set_Created false receipt, statusOK)
            | None => upload sess pr fingerprint
            end in
          finish sess pr visibility held answer.1 answer.2
    end
  end.

(** [pushSession]: the world after it and the session's result. *)
Definition pushSession (sess : PushSessionRow) (visibility license emit : string) (support : RemoteCapabilitySupport) (w : World)
    : World * SessionPushResult :=
  match prepare sess license emit (ledger w) with
  | Err r => (w, r)
  | Ok pr =>
    if DryRun c then (w, forecast sess pr)
    else match publish sess pr visibility support w with
         | (w, Ok r) | (w, Err r) => (w, r)
         end
  end.
End push.
Arguments World {SP}.
Arguments Answers {SP}.
