(* ===== verification/PushSafety.v ===== *)
(** * What publishing a session may do

    The theorems on [PushSession]: nothing is sent that is not due, an update keeps
    the audience and the license the village holds, a receipt is recorded exactly
    for what the village confirmed, a session pushed once is skipped the next time,
    an interrupted first publication is finished by the retry, and the table of
    receipts keeps one row per transcript. *)
From S2P Require Import Prelude GoStrings GoText Selection Negotiation PushTargets PushSession.
From Stdlib Require Import Ascii.
Local Open Scope string_scope.
Local Open Scope list_scope.

Section safety.
Context `{RemoteLib} `{CaptureReader} `{CapabilityLib} `{SP : SchemaPublish} `{CB : !ContentBuilder}.

(** The receipts and the cursors are those of another ledger; attempts may be new. *)
Definition same_tables (l l' : Ledger) : Prop := publications l' = publications l ∧ sessions l' = sessions l.

Lemma same_tables_refl l : same_tables l l.
Proof. done. Qed.

Lemma same_tables_trans l1 l2 l3 : same_tables l1 l2 → same_tables l2 l3 → same_tables l1 l3.
Proof. unfold same_tables. intros [-> ->] [-> ->]. done. Qed.

Lemma RecordPublicationAttempt_tables fault now origin owner project session stage message l :
  same_tables l (RecordPublicationAttempt fault now origin owner project session stage message l).
Proof.
  unfold RecordPublicationAttempt. destruct (_ || _); [done|]. destruct (sessions l !! session); [|done]. by case_decide.
Qed.

Variables (creds : Credentials) (cfg : PushConfig) (c : PipelineConfig) (ans : Answers).

Lemma record_attempt_facts sess project stage message w :
  let w' := record_attempt creds ans sess project stage message w in
  calls w' = calls w ∧ same_tables (ledger w) (ledger w').
Proof. split; [done|]. apply RecordPublicationAttempt_tables. Qed.

Lemma upload_inv sess pr fingerprint w w' res :
  upload creds ans sess pr fingerprint w = (w', res) →
  calls w' = calls w ++ [CallPublish (pr_Request pr) (pr_Bytes pr)] ∧ same_tables (ledger w) (ledger w')
  ∧ match res with
    | Ok (receipt, statusCode) =>
      ledger w' = ledger w ∧ PublishAuthoritative ans (pr_Request pr) = Published receipt statusCode
      ∧ rc_ContentHash receipt = request_ContentHash (pr_Request pr) ∧ rc_Fingerprint receipt = fingerprint
    | Err r => sr_Status r = PushStatusError
    end.
Proof.
  unfold upload. intros Hu. destruct (PublishAuthoritative ans (pr_Request pr)) as [receipt statusCode|statusCode message].
  - case_decide as Hd.
    + injection Hu as <- <-. split_and!; [done|apply RecordPublicationAttempt_tables|done].
    + destruct (observed ans); injection Hu as <- <-; [|by split_and!].
      apply Decidable.not_or in Hd as [Hhash%dec_stable Hfp%dec_stable]. by split_and!.
  - injection Hu as <- <-. split_and!; [done|apply RecordPublicationAttempt_tables|done].
Qed.

Lemma first_publish_inv sess pr receipt w w' res :
  first_publish creds c ans sess pr receipt w = (w', res) →
  w' = w ∧ match res with
           | Ok b =>
             let due := rc_Created receipt = true
               ∨ pr_PublishedBefore pr = false ∧ rc_Visibility receipt = VisibilityPrivate
                 ∧ ∃ a, LatestSessionPublicationAttempt (VillageURL creds) (UserID creds) (SessionID sess) (ledger w) = Some a
                        ∧ at_Stage a ≠ StagePersistence in
             (due → b = true ∨ changesVisibility c = true) ∧ (b = true → due)
           | Err r => sr_Status r = PushStatusError
           end.
Proof.
  unfold first_publish. destruct (_ && _) eqn:Hc.
  - rewrite !andb_true_iff, !negb_true_iff, bool_decide_eq_true in Hc. destruct Hc as [[[Hcr Hb] _] Hv].
    unfold unfinishedFirstPublish. destruct (read_attempt_fault ans); intros [= <- <-]; (split; [done|]); [done|].
    rewrite Hcr. destruct (LatestSessionPublicationAttempt _ _ _ _) as [a|]; cbn.
    + rewrite bool_decide_eq_true. split; [|by intros ?; right; split_and!; [..|exists a]].
      intros [?|(_ & _ & b & [= ->] & ?)]; [done|by left].
    + split; [|done]. by intros [?|(_ & _ & b & ? & _)].
  - intros [= <- <-]. split; [done|]. split; [|by left]. intros [->|(Hb & Hv & _)]; [by left|].
    rewrite Hb, Hv, bool_decide_eq_true_2 in Hc by done. destruct (rc_Created receipt); [by left|].
    destruct (changesVisibility c); [by right|done].
Qed.

(** The village confirms the very change that was asked of it. *)
Definition update_confirmed (receipt : Receipt) (visibility : string) (updated : OwnerUpdate) : Prop :=
  UpdateOwner ans (rc_TranscriptID receipt) visibility = Ok updated
  ∧ up_Visibility updated = visibility ∧ up_TranscriptID updated = rc_TranscriptID receipt
  ∧ up_TranscriptURL updated = rc_TranscriptURL receipt.

Lemma converge_inv sess pr visibility held firstPublish receipt w w' res :
  converge creds c ans sess pr visibility held firstPublish receipt w = (w', res) →
  let due := (firstPublish || changesVisibility c) && bool_decide (visibility = VisibilityPrivate ∨ visibility = VisibilityPublic)
             && (held || bool_decide (rc_Visibility receipt ≠ visibility)) in
  let update := CallUpdateOwner (rc_TranscriptID receipt) visibility in
  match res with
  | Ok receipt' =>
    ledger w' = ledger w ∧ calls w' = calls w ++ (if due then [update] else [])
    ∧ if due then ∃ updated, update_confirmed receipt visibility updated
                   ∧ receipt' = set_Visibility visibility (up_UpdatedAt updated) receipt
      else receipt' = receipt
  | Err r => sr_Status r = PushStatusError ∧ same_tables (ledger w) (ledger w')
             ∧ (calls w' = calls w ∨ due = true ∧ calls w' = calls w ++ [update])
  end.
Proof.
  intros Hc due update. unfold converge in Hc. fold due in Hc. fold update in Hc.
  destruct due; [|injection Hc as <- <-; by rewrite app_nil_r].
  destruct (negb _); [injection Hc as <- <-; by split_and!; [| |left]|].
  destruct (UpdateOwner ans _ _) as [updated|message] eqn:Eu.
  - case_decide as Hd; injection Hc as <- <-.
    + split_and!; [done|apply RecordPublicationAttempt_tables|by right].
    + split_and!; [done..|]. exists updated. apply Decidable.not_or in Hd as [Hv%dec_stable [Hi%dec_stable Hl%dec_stable]%Decidable.not_or].
      by unfold update_confirmed; split_and!.
  - injection Hc as <- <-. split_and!; [done|apply RecordPublicationAttempt_tables|by right].
Qed.

Lemma save_inv sess pr receipt w w' res :
  save creds ans sess pr receipt w = (w', res) →
  calls w' = calls w
  ∧ match res with
    | Ok _ => SavePublication (save_fault ans) (VillageURL creds) (UserID creds) (in_ReceiptProjectHash (pr_Input pr))
                (SessionID sess) receipt (ledger w) = Ok (ledger w')
    | Err r => sr_Status r = PushStatusError ∧ same_tables (ledger w) (ledger w')
    end.
Proof.
  unfold save. destruct (account_current ans).2.
  - destruct (SavePublication _ _ _ _ _ _ _) as [l|e]; intros [= <- <-]; (split; [done|]); [done|].
    split; [done|apply RecordPublicationAttempt_tables].
  - intros [= <- <-]. split; [done|]. split; [done|apply RecordPublicationAttempt_tables].
Qed.

(** The terminal half: either an error that leaves the tables, or the saved receipt. *)
(** Why the visibility of a transcript may be changed: the caller asked for it, the
    village created the transcript, or it holds the private one an earlier attempt of
    the account left unfinished. *)
Definition may_open (sess : PushSessionRow) (pr : Prepared) (receipt : Receipt) (l : Ledger) : Prop :=
  changesVisibility c = true ∨ rc_Created receipt = true
  ∨ pr_PublishedBefore pr = false ∧ rc_Visibility receipt = VisibilityPrivate
    ∧ ∃ a, LatestSessionPublicationAttempt (VillageURL creds) (UserID creds) (SessionID sess) l = Some a
           ∧ at_Stage a ≠ StagePersistence.

Definition implemented (visibility : string) : Prop := visibility = VisibilityPrivate ∨ visibility = VisibilityPublic.

Lemma finish_send_inv sess pr visibility held receipt statusCode w w' res :
  finish creds c ans sess pr visibility held receipt statusCode w = (w', res) →
  ∃ updates, calls w' = calls w ++ updates
  ∧ (updates = [] ∨ updates = [CallUpdateOwner (rc_TranscriptID receipt) visibility]
       ∧ implemented visibility ∧ may_open sess pr receipt (ledger w))
  ∧ match res with
    | Ok r => r = outcome sess (if decide (statusCode = statusOK) then PushStatusUpdated else PushStatusNew) (pr_Required pr)
              ∧ ∃ receipt', SavePublication (save_fault ans) (VillageURL creds) (UserID creds) (in_ReceiptProjectHash (pr_Input pr))
                  (SessionID sess) receipt' (ledger w) = Ok (ledger w')
                ∧ (receipt' = receipt ∧ updates = [] ∧ (held = true → changesVisibility c = true → ¬ implemented visibility)
                   ∨ ∃ updated, update_confirmed receipt visibility updated
                       ∧ updates = [CallUpdateOwner (rc_TranscriptID receipt) visibility]
                       ∧ receipt' = set_Visibility visibility (up_UpdatedAt updated) receipt)
                ∧ (may_open sess pr receipt (ledger w) → implemented visibility → rc_Visibility receipt' = visibility)
    | Err r => sr_Status r = PushStatusError ∧ same_tables (ledger w) (ledger w')
    end.
Proof.
  unfold finish, act_bind, value_. destruct (first_publish _ _ _ _ _ _ _) as [w1 [fp|r]] eqn:Ef.
  2: { apply first_publish_inv in Ef as [-> Hr]. intros [= <- <-]. exists []. rewrite app_nil_r. by split_and!; [|left|..]. }
  apply first_publish_inv in Ef as [-> [Hcr Hfp]].
  assert (∀ b, (fp || changesVisibility c) && bool_decide (implemented visibility) && b = true →
          implemented visibility ∧ may_open sess pr receipt (ledger w)) as Hdue.
  { intros b. rewrite !andb_true_iff, orb_true_iff, bool_decide_eq_true. intros [[Hd Hv] _]. split; [done|].
    destruct Hd as [->|?]; [|by left]. right. by apply Hfp. }
  destruct (converge _ _ _ _ _ _ _ _ _ _) as [w2 [receipt'|r]] eqn:Ec; apply converge_inv in Ec.
  2: { destruct Ec as (Hr & Ht & Hcalls). intros [= <- <-]. destruct Hcalls as [Hcalls|[Hd Hcalls]]; rewrite Hcalls.
    - exists []. rewrite app_nil_r. by split_and!; [|left|..].
    - eexists [_]. split_and!; [done|right; split; [done|by eapply Hdue]|done|apply Ht..]. }
  destruct Ec as (Hl & Hcalls & Hres).
  set (due := (fp || changesVisibility c) && _ && _) in *. set (updates := if due then _ else _) in *.
  assert (updates = [] ∨ updates = [CallUpdateOwner (rc_TranscriptID receipt) visibility]
       ∧ implemented visibility ∧ may_open sess pr receipt (ledger w)) as Hshape.
  { unfold updates. destruct due eqn:Hd; [|by left]. right. split; [done|]. by eapply Hdue. }
  destruct (save _ _ _ _ _ _) as [w3 [[]|r]] eqn:Es; apply save_inv in Es as [Hc3 Hs]; intros [= <- <-]; exists updates;
    (split; [by rewrite Hc3|]); (split; [done|]); rewrite Hl in Hs; [|done].
  split; [done|]. exists receipt'. split_and!; [done| |].
  - unfold updates. destruct due eqn:Hd; [right|left].
    + destruct Hres as (updated & Hu & ->). by exists updated.
    + split_and!; [done..|]. intros -> Hcv Hv. unfold due in Hd. by rewrite Hcv, orb_true_r, bool_decide_eq_true_2 in Hd by done.
  - intros Hwhy Hv. unfold due in Hres.
    assert (fp || changesVisibility c = true) as Hor by (apply orb_true_iff; destruct Hwhy as [?|?]; [by right|by apply Hcr]).
    rewrite Hor, bool_decide_eq_true_2 in Hres by done. cbn [andb] in Hres. destruct (held || _) eqn:Hh.
    + by destruct Hres as (updated & _ & ->).
    + apply orb_false_iff in Hh as [_ Hh%bool_decide_eq_false%dec_stable]. by rewrite Hres.
Qed.

(** The real run: nothing happens, or the upload or the held receipt is finished. *)
Lemma publish_send_inv sess pr visibility support w w' res :
  publish creds c ans sess pr visibility support w = (w', res) →
  (w' = w ∧ ∃ r, res = Err r ∧ sr_Status r ∈ [PushStatusSkipped; PushStatusError; PushStatusHeld])
  ∨ Shortfall support (pr_Required pr) = []
    ∧ ∃ operation fingerprint, CanonicalizePublishRequest (pr_Request pr) = Some operation
      ∧ FingerprintPublishOperation operation = Some fingerprint
      ∧ let held := held_unchanged c sess pr operation fingerprint in
        updateHeldReason c (SessionID sess) held (pr_PublishedBefore pr) = ""
        ∧ (account_current ans).1.1 = true
        ∧ (held = true ∧ changesVisibility c = true
           ∧ (∃ receipt, pr_Previous pr = Some receipt
              ∧ finish creds c ans sess pr visibility true (set_Created false receipt) statusOK w = (w', res))
           ∨ held = false
             ∧ ((∃ r, upload creds ans sess pr fingerprint w = (w', Err r) ∧ res = Err r)
                ∨ ∃ receipt statusCode w1, upload creds ans sess pr fingerprint w = (w1, Ok (receipt, statusCode))
                  ∧ finish creds c ans sess pr visibility false receipt statusCode w1 = (w', res))).
Proof.
  unfold publish, return_, act_bind, value_. intros Hp.
  destruct (decide (Shortfall support (pr_Required pr) ≠ [])) as [Hs|Hs%dec_stable];
    [left; injection Hp as <- <-; split; [done|]; eexists; split; [done|set_solver]|].
  destruct (CanonicalizePublishRequest (pr_Request pr)) as [operation|] eqn:Eop;
    [|left; injection Hp as <- <-; split; [done|]; eexists; split; [done|set_solver]].
  destruct (FingerprintPublishOperation operation) as [fingerprint|] eqn:Efp;
    [|left; injection Hp as <- <-; split; [done|]; eexists; split; [done|set_solver]].
  destruct (held_unchanged c sess pr operation fingerprint && negb (changesVisibility c)) eqn:Eh;
    [left; injection Hp as <- <-; split; [done|]; eexists; split; [done|set_solver]|].
  destruct (decide (updateHeldReason _ _ _ _ ≠ "")) as [Hr|Hr%dec_stable];
    [left; injection Hp as <- <-; split; [done|]; eexists; split; [done|set_solver]|].
  destruct (account_current ans).1.1 eqn:Ea; cbn [negb] in Hp;
    [|left; injection Hp as <- <-; split; [done|]; eexists; split; [done|set_solver]].
  right. split; [done|]. exists operation, fingerprint. split; [done|]. split; [done|]. cbn zeta. split; [done|]. split; [done|].
  destruct (held_unchanged c sess pr operation fingerprint) eqn:Eheld.
  - left. split; [done|]. apply andb_false_iff in Eh as [Eh|Eh%negb_false_iff]; [done|]. split; [done|].
    destruct (pr_Previous pr) as [receipt|] eqn:Epr.
    + by exists receipt.
    + unfold held_unchanged in Eheld. rewrite Epr, andb_false_r in Eheld. done.
  - right. split; [done|]. destruct (upload _ _ _ _ _ _) as [w1 [[receipt statusCode]|r]] eqn:Eu.
    + right. by exists receipt, statusCode, w1.
    + left. injection Hp as <- <-. by exists r.
Qed.

(** ** What is sent *)

Lemma PublishedToVillage_iff origin owner session l :
  PublishedToVillage origin owner session l = true
  ↔ ∃ project receipt, publications l !! (origin, owner, project, session) = Some receipt.
Proof.
  unfold PublishedToVillage. rewrite bool_decide_eq_true, filter_not_nil_iff. split.
  - intros ([[[[o w] p] s] r] & Hin%elem_of_map_to_list & (-> & -> & ->)). eauto.
  - intros (p & r & Hl). exists ((origin, owner, p, session), r). split; [by apply elem_of_map_to_list|done].
Qed.

(** The metadata document of a prepared session. *)
Definition mapped (pr : Prepared) (license : string) : option string :=
  MapMetadata (pr_Meta pr) (in_Quality (pr_Input pr)) (pr_Entries pr) (in_Associations (pr_Input pr)) license.

(** What the preparation promises. *)
Lemma prepare_inv sess license emit l pr :
  prepare creds c ans sess license emit l = Ok pr →
  publishable c sess = Ok (pr_Input pr) ∧ RedactEntries (in_Entries (pr_Input pr)) = Some (pr_Entries pr)
  ∧ pr_Previous pr = Publication (VillageURL creds) (UserID creds) (in_ReceiptProjectHash (pr_Input pr)) (SessionID sess) l
  ∧ pr_PublishedBefore pr = PublishedToVillage (VillageURL creds) (UserID creds) (SessionID sess) l
  ∧ ∃ content metadata,
    BuildPublishTranscriptContent (in_Detail (pr_Input pr)) (RedactMetadata (in_Metadata (pr_Input pr))) (pr_Entries pr) emit
      (in_SessionOrigin (pr_Input pr)) = Some (content, pr_Meta pr)
    ∧ ScanPublication content = Some (pr_Required pr) ∧ marshalBuiltTranscriptContent content = Some (pr_Bytes pr)
    ∧ mapped pr (if pr_PublishedBefore pr && negb (changesLicense c) then "" else license) = Some metadata
    ∧ buildAuthoritativeRequest metadata (pr_Bytes pr) = Some (pr_Request pr).
Proof.
  unfold prepare. destruct (publishable c sess) as [input|e]; [|done].
  intros (entries & Hred & Hp)%res_bind_ok. apply res_bind_ok in Hp as ([content meta] & Hc & Hp). apply res_guard_ok in Hp as [_ Hp].
  apply res_guard_ok in Hp as [_ Hp]. set (previous := Publication _ _ _ _ _) in *.
  apply res_bind_ok in Hp as (before & Hb & Hp).
  assert (before = PublishedToVillage (VillageURL creds) (UserID creds) (SessionID sess) l) as Hbefore.
  { destruct previous as [receipt|] eqn:E.
    - injection Hb as <-. symmetry. apply PublishedToVillage_iff. by exists (in_ReceiptProjectHash input), receipt.
    - by apply res_guard_ok in Hb as [_ [= <-]]. }
  apply res_bind_ok in Hp as (metadata & Hm & Hp). apply res_bind_ok in Hp as (required & Hr & Hp).
  apply res_bind_ok in Hp as (bytes & Hy & Hp). apply res_bind_ok in Hp as (request & Hq & [= <-]). cbn.
  assert (∀ A (o : option A) e a, or_fail sess o e = Ok a → o = Some a) as Hof by (intros A [x|] e y; cbn; congruence).
  split_and!; [done|by eapply Hof|done|done|]. exists content, metadata. split_and!; by eapply Hof.
Qed.

Lemma or_fail_error {A} sess (o : option A) e q : or_fail sess o e = Err q → sr_Status q = PushStatusError.
Proof. by destruct o; intros [= <-]. Qed.

Lemma prepare_error sess license emit l r :
  prepare creds c ans sess license emit l = Err r → sr_Status r = PushStatusError.
Proof.
  unfold prepare. destruct (publishable c sess) as [input|e]; [|by intros [= <-]].
  assert (∀ A (m : result SessionPushResult A) (k : A → result SessionPushResult Prepared),
    (∀ q, m = Err q → sr_Status q = PushStatusError) → (∀ a, k a = Err r → sr_Status r = PushStatusError) →
    res_bind m k = Err r → sr_Status r = PushStatusError) as Hb by (intros A [a|q] k Hm Hk; cbn; [apply Hk|intros [= <-]; by apply Hm]).
  assert (∀ b e text (k : result SessionPushResult Prepared), (k = Err r → sr_Status r = PushStatusError) →
    res_guard b (failed sess e text []) k = Err r → sr_Status r = PushStatusError) as Hg by (intros [] e text k Hk; cbn; [done|by intros [= <-]]).
  apply Hb; [apply or_fail_error|]. intros entries. apply Hb; [apply or_fail_error|]. intros [content meta]. apply Hg, Hg, Hb.
  { intros q. destruct (Publication _ _ _ _ _); [done|]. destruct (negb _); [done|]. by intros [= <-]. }
  intros before. apply Hb; [apply or_fail_error|]. intros metadata. apply Hb; [apply or_fail_error|]. intros required.
  apply Hb; [apply or_fail_error|]. intros bytes. apply Hb; [apply or_fail_error|]. done.
Qed.

(** The whole of one push: nothing happened, or a prepared session was published. *)
Definition upload_happened (sess : PushSessionRow) (pr : Prepared) (fingerprint : string) (w w1 : World)
    (receipt : Receipt) (confirmed : Prop) : Prop :=
  calls w1 = calls w ++ [CallPublish (pr_Request pr) (pr_Bytes pr)] ∧ same_tables (ledger w) (ledger w1)
  ∧ (confirmed → ledger w1 = ledger w
       ∧ (∃ statusCode, PublishAuthoritative ans (pr_Request pr) = Published receipt statusCode)
       ∧ rc_ContentHash receipt = request_ContentHash (pr_Request pr) ∧ rc_Fingerprint receipt = fingerprint).

Definition receipt_saved (sess : PushSessionRow) (pr : Prepared) (visibility : string) (held : bool) (receipt receipt' : Receipt)
    (updates : list Call) (l l' : Ledger) : Prop :=
  SavePublication (save_fault ans) (VillageURL creds) (UserID creds) (in_ReceiptProjectHash (pr_Input pr))
    (SessionID sess) receipt' l = Ok l'
  ∧ (receipt' = receipt ∧ updates = [] ∧ (held = true → changesVisibility c = true → ¬ implemented visibility)
     ∨ ∃ updated, update_confirmed receipt visibility updated
         ∧ updates = [CallUpdateOwner (rc_TranscriptID receipt) visibility]
         ∧ receipt' = set_Visibility visibility (up_UpdatedAt updated) receipt)
  ∧ (may_open sess pr receipt l → implemented visibility → rc_Visibility receipt' = visibility).

Lemma pushSession_inv sess visibility license emit support w w' r :
  pushSession creds c ans sess visibility license emit support w = (w', r) →
  w' = w ∧ (sr_Status r ∈ [PushStatusSkipped; PushStatusError; PushStatusHeld] ∨ DryRun c = true)
  ∨ DryRun c = false ∧ ∃ pr operation fingerprint, prepare creds c ans sess license emit (ledger w) = Ok pr
    ∧ Shortfall support (pr_Required pr) = [] ∧ CanonicalizePublishRequest (pr_Request pr) = Some operation
    ∧ FingerprintPublishOperation operation = Some fingerprint
    ∧ let held := held_unchanged c sess pr operation fingerprint in
      updateHeldReason c (SessionID sess) held (pr_PublishedBefore pr) = ""
      ∧ ∃ receipt w1 updates,
        (held = true ∧ changesVisibility c = true ∧ w1 = w ∧ (∃ previous, pr_Previous pr = Some previous ∧ receipt = set_Created false previous)
         ∨ held = false ∧ upload_happened sess pr fingerprint w w1 receipt (sr_Status r ≠ PushStatusError ∨ updates ≠ []))
        ∧ calls w' = calls w1 ++ updates
        ∧ (updates = [] ∨ updates = [CallUpdateOwner (rc_TranscriptID receipt) visibility]
             ∧ implemented visibility ∧ may_open sess pr receipt (ledger w1))
        ∧ (sr_Status r = PushStatusError ∧ same_tables (ledger w1) (ledger w')
           ∨ sr_Status r ∈ [PushStatusNew; PushStatusUpdated]
             ∧ ∃ receipt', receipt_saved sess pr visibility held receipt receipt' updates (ledger w1) (ledger w')).
Proof.
  unfold pushSession. destruct (prepare _ _ _ _ _ _ _) as [pr|q] eqn:Ep.
  2: { intros [= <- <-]. left. split; [done|]. left. rewrite (prepare_error _ _ _ _ _ Ep). set_solver. }
  destruct (DryRun c) eqn:Ed; [intros [= <- <-]; left; split; [done|by right]|].
  destruct (publish _ _ _ _ _ _ _ _) as [w2 res] eqn:Eb. apply publish_send_inv in Eb.
  destruct Eb as [(-> & q & -> & Hq)|(Hs & operation & fingerprint & Hop & Hfp & Hreason & _ & Hcases)].
  { intros [= <- <-]. left. split; [done|by left]. }
  intros Hres. right. split; [done|]. exists pr, operation, fingerprint. split_and!; [done..|].
  destruct Hcases as [(Hheld & Hcv & previous & Hprev & Hfin)|(Hheld & [(q & Hu & ->)|(receipt & st & w1 & Hu & Hfin)])].
  - apply finish_send_inv in Hfin as (updates & Hc & Hshape & Hfin). exists (set_Created false previous), w, updates.
    split; [by left; split_and!; [..|exists previous]|].
    assert (w' = w2) as -> by (by destruct res; injection Hres as <-). split; [done|]. split; [done|].
    destruct res as [r0|r0]; injection Hres as <-; [right|by left].
    destruct Hfin as (-> & receipt' & Hfin). split; [cbn; case_decide; set_solver|exists receipt'; unfold receipt_saved; by rewrite Hheld].
  - apply upload_inv in Hu as (Hc & Ht & Hq). injection Hres as <- <-.
    exists {| rc_TranscriptID := ""; rc_TranscriptURL := ""; rc_ContentHash := ""; rc_Fingerprint := ""; rc_Visibility := "";
              rc_AppliedVisibility := ""; rc_License := None; rc_PublishedAt := 0; rc_UpdatedAt := 0; rc_Created := false |}, w2, [].
    rewrite app_nil_r. split; [right; unfold upload_happened; split_and!; [done..|by intros [?|?]]|]. split; [done|]. split; [by left|]. by left.
  - apply upload_inv in Hu as (Hc & Ht & Hl & Hpub & Hhash & Hf).
    apply finish_send_inv in Hfin as (updates & Hc' & Hshape & Hfin). exists receipt, w1, updates.
    split; [right; unfold upload_happened; split_and!; [done..|intros _; split_and!; eauto]|].
    assert (w' = w2) as -> by (by destruct res; injection Hres as <-). split; [done|]. split; [done|].
    destruct res as [r0|r0]; injection Hres as <-; [right|by left].
    destruct Hfin as (-> & receipt' & Hfin). split; [cbn; case_decide; set_solver|exists receipt'; unfold receipt_saved; by rewrite Hheld].
Qed.

(** A session that ended new or updated ended no other way. *)
Lemma not_published s :
  s ∈ [PushStatusSkipped; PushStatusError; PushStatusHeld] → s ∈ [PushStatusNew; PushStatusUpdated] → False.
Proof. rewrite !elem_of_cons, elem_of_nil. by intros [->|[->|[->|?]]] [?|[?|?]]. Qed.

(** How often a log uploads. *)
Fixpoint uploads (log : list Call) : nat :=
  match log with
  | [] => 0
  | CallPublish _ _ :: rest => S (uploads rest)
  | CallUpdateOwner _ _ :: rest => uploads rest
  end.

Lemma publish_call_unique (updates : list Call) t v request content :
  updates = [] ∨ updates = [CallUpdateOwner t v] → CallPublish request content ∉ updates.
Proof. intros [->| ->]; [by intros ?%elem_of_nil|]. by intros [=]%list_elem_of_singleton. Qed.


(** C7: the audience of a transcript is the owner's.  A visibility change is sent only
    to a visibility this version applies, the run's own, for the transcript the
    village answered or the receipt names, and only when the caller asked for a
    change, the village created the transcript with this upload, or this account
    holds no receipt for it, its last attempt broke off before the receipt and the
    village still holds it private.  A publication that ends well after a creation or
    an asked change is recorded at that visibility. *)
Theorem audience_kept sess visibility license emit support w w' r :
  pushSession creds c ans sess visibility license emit support w = (w', r) →
  ∃ new, calls w' = calls w ++ new
  ∧ (∀ transcript v, CallUpdateOwner transcript v ∈ new →
      v = visibility ∧ implemented v
      ∧ ∃ receipt, rc_TranscriptID receipt = transcript
        ∧ ((∃ previous project, Publication (VillageURL creds) (UserID creds) project (SessionID sess) (ledger w) = Some previous
              ∧ receipt = set_Created false previous ∧ changesVisibility c = true)
           ∨ ∃ request bytes statusCode, new !! O = Some (CallPublish request bytes)
               ∧ PublishAuthoritative ans request = Published receipt statusCode
               ∧ (changesVisibility c = true ∨ rc_Created receipt = true
                  ∨ PublishedToVillage (VillageURL creds) (UserID creds) (SessionID sess) (ledger w) = false
                    ∧ rc_Visibility receipt = VisibilityPrivate
                    ∧ ∃ a, LatestSessionPublicationAttempt (VillageURL creds) (UserID creds) (SessionID sess) (ledger w) = Some a
                           ∧ at_Stage a ≠ StagePersistence)))
  ∧ (sr_Status r ∈ [PushStatusNew; PushStatusUpdated] → DryRun c = false → implemented visibility →
     ∃ project receipt, Publication (VillageURL creds) (UserID creds) project (SessionID sess) (ledger w') = Some receipt
       ∧ (changesVisibility c = true ∨ rc_Created receipt = true → rc_Visibility receipt = visibility)).
Proof.
  intros Hp. apply pushSession_inv in Hp as [[-> Hr]|(Hd & pr & operation & fingerprint & Hprep & Hs & Hop & Hfp & Hreason & receipt & w1 & updates & Hhow & Hc & Hshape & Hres)].
  { exists []. rewrite app_nil_r. split_and!; [done|by intros ? ? ?%elem_of_nil|].
    intros Hst Hd. destruct Hr as [Hr|Hr]; [|congruence]. by destruct (not_published _ Hr Hst). }
  apply prepare_inv in Hprep as (_ & _ & Hprev & Hbefore & _).
  assert (sr_Status r ∈ [PushStatusNew; PushStatusUpdated] → DryRun c = false → implemented visibility →
     ∃ project receipt, Publication (VillageURL creds) (UserID creds) project (SessionID sess) (ledger w') = Some receipt
       ∧ (changesVisibility c = true ∨ rc_Created receipt = true → rc_Visibility receipt = visibility)) as Hend.
  { intros Hst _ Hv. destruct Hres as [[He _]|(_ & receipt' & Hsave & Hfrom & Hvis)]; [rewrite He in Hst; set_solver|].
    exists (in_ReceiptProjectHash (pr_Input pr)), receipt'. split.
    - unfold SavePublication in Hsave. do 4 (apply res_guard_ok in Hsave as [_ Hsave]). destruct (sessions _ !! _); [|done].
      apply res_guard_ok in Hsave as [_ [= <-]]. apply lookup_insert_eq.
    - intros Hwhy. apply Hvis; [|done]. destruct Hwhy as [?|Hcr]; [by left|right].
      left. destruct Hfrom as [[-> _]|(updated & _ & _ & ->)]; done. }
  destruct Hhow as [(_ & Hcv & -> & previous & Hpr & ->)|(Hheld & Hcalls & Htab & Hconf)].
  - exists updates. split; [done|]. split; [|done]. intros t v Hin.
    destruct Hshape as [->|(-> & Hv & _)]; [by apply elem_of_nil in Hin|]. apply list_elem_of_singleton in Hin as [= -> ->].
    split_and!; [done..|]. exists (set_Created false previous). split; [done|]. left. exists previous, (in_ReceiptProjectHash (pr_Input pr)).
    by rewrite <-Hprev.
  - exists (CallPublish (pr_Request pr) (pr_Bytes pr) :: updates). split; [by rewrite Hc, Hcalls, <-app_assoc|]. split; [|done].
    intros t v [[=]|Hin]%elem_of_cons. destruct Hshape as [->|(-> & Hv & Hmay)]; [by apply elem_of_nil in Hin|].
    apply list_elem_of_singleton in Hin as [= -> ->]. split_and!; [done..|]. exists receipt. split; [done|]. right.
    destruct (Hconf ltac:(by right)) as (Hl & (st & Hpub) & _). eexists _, _, st. split_and!; [done..|].
    unfold may_open in Hmay. by rewrite Hl, Hbefore in Hmay.
Qed.

(** What a receipt names of the operation it answers. *)
Definition answers (receipt : Receipt) (request : Request) (fingerprint : string) : Prop :=
  rc_ContentHash receipt = request_ContentHash request ∧ rc_Fingerprint receipt = fingerprint.

(** C34: a receipt is recorded exactly for what the village confirmed.  A session ends
    new or updated when, and only when, its terminal receipt is saved with the
    session's cursor in one transaction.  That receipt is the village's own answer to
    the very request that was sent, with its content hash and fingerprint, or is the
    one held before; its visibility is the one it came with when no change was sent,
    and otherwise the one asked for, at the time the village gave in its confirmation
    of that change for that transcript.  Any other end, a failed or inconsistent answer
    included, leaves receipts and cursors as they were. *)
Theorem receipt_saved_iff_confirmed sess visibility license emit support w w' r :
  pushSession creds c ans sess visibility license emit support w = (w', r) → DryRun c = false →
  if decide (sr_Status r = PushStatusNew ∨ sr_Status r = PushStatusUpdated) then
    ∃ input base receipt w1 sent updates, publishable c sess = Ok input
    ∧ SavePublication (save_fault ans) (VillageURL creds) (UserID creds) (in_ReceiptProjectHash input) (SessionID sess) receipt (ledger w)
      = Ok w1 ∧ ledger w' = w1
    ∧ row_PushedAt <$> sessions w1 !! SessionID sess = Some (Some (rc_UpdatedAt receipt))
    ∧ calls w' = calls w ++ sent ++ updates
    ∧ ((∃ request bytes operation fingerprint statusCode, sent = [CallPublish request bytes]
          ∧ CanonicalizePublishRequest request = Some operation ∧ FingerprintPublishOperation operation = Some fingerprint
          ∧ PublishAuthoritative ans request = Published base statusCode ∧ answers base request fingerprint)
       ∨ ∃ previous, sent = [] ∧ changesVisibility c = true ∧ base = set_Created false previous
           ∧ Publication (VillageURL creds) (UserID creds) (in_ReceiptProjectHash input) (SessionID sess) (ledger w) = Some previous)
    ∧ (receipt = base ∧ updates = [] ∧ (sent = [] → ¬ implemented visibility)
       ∨ ∃ updated, update_confirmed base visibility updated
           ∧ updates = [CallUpdateOwner (rc_TranscriptID base) visibility]
           ∧ receipt = set_Visibility visibility (up_UpdatedAt updated) base)
  else same_tables (ledger w) (ledger w').
Proof.
  intros Hp Hdry. apply pushSession_inv in Hp as [[-> Hr]|(Hd & pr & operation & fingerprint & Hprep & Hs & Hop & Hfp & Hreason & receipt & w1 & updates & Hhow & Hc & Hshape & Hres)].
  { destruct Hr as [Hr|Hr]; [|congruence]. rewrite decide_False; [done|]. intros [E|E]; rewrite E in Hr; set_solver. }
  assert (same_tables (ledger w) (ledger w1)) as Htab by (destruct Hhow as [(_ & _ & -> & _)|(_ & _ & ? & _)]; done).
  destruct Hres as [[He Ht]|(Hst & receipt' & Hsave & Hfrom & _)].
  { rewrite decide_False by (rewrite He; by intros [|]). by eapply same_tables_trans. }
  rewrite decide_True by set_solver.
  assert (sr_Status r ≠ PushStatusError ∨ updates ≠ []) as Hsure by (left; intros He; rewrite He in Hst; set_solver).
  assert (ledger w1 = ledger w) as Hl by (destruct Hhow as [(_ & _ & -> & _)|(_ & _ & _ & Hconf)]; [done|by apply Hconf]).
  rewrite Hl in Hsave. apply prepare_inv in Hprep as (Hpub & _ & Hprev & _ & _).
  assert (row_PushedAt <$> sessions (ledger w') !! SessionID sess = Some (Some (rc_UpdatedAt receipt'))) as Hrow.
  { unfold SavePublication in Hsave. do 4 (apply res_guard_ok in Hsave as [_ Hsave]). destruct (sessions _ !! _); [|done].
    apply res_guard_ok in Hsave as [_ [= <-]]. cbn [sessions]. by rewrite lookup_insert_eq. }
  destruct Hhow as [(Hheld & Hcv & -> & previous & Hpr & ->)|(Hheld & Hcalls & _ & Hconf)].
  - exists (pr_Input pr), (set_Created false previous), receipt', (ledger w'), [], updates. split_and!; try done.
    + right. exists previous. by rewrite <-Hprev.
    + destruct Hfrom as [(-> & -> & Hno)|Hup]; [left|by right]. split_and!; [done..|]. intros _. by apply Hno.
  - destruct (Hconf Hsure) as (_ & (st & Hpub') & Hhash & Hf).
    exists (pr_Input pr), receipt, receipt', (ledger w'), [CallPublish (pr_Request pr) (pr_Bytes pr)], updates. split_and!; try done.
    + by rewrite Hc, Hcalls, <-app_assoc.
    + left. exists (pr_Request pr), (pr_Bytes pr), operation, fingerprint, st. by split_and!.
    + destruct Hfrom as [(-> & -> & _)|Hup]; [by left; split_and!|by right].
Qed.
End safety.

(** ** A concrete village

    A request is the license it names and the content; the operation keeps both. *)

Definition pad (s : string) : string := String.substring 0 64 (s +:+ "0000000000000000000000000000000000000000000000000000000000000000").

Definition demoSchema : SchemaPublish :=
  {| Request := string * string; Operation := LicenseOperation * string;
     request_ContentHash := λ q, pad q.2;
     CanonicalizePublishRequest := λ q, Some (if decide (q.1 = "") then LicensePreserve else LicenseReplace q.1, q.2);
     FingerprintPublishOperation := λ op, Some (pad (match op.1 with LicensePreserve => "keep" | LicenseReplace l => "set " +:+ l end +:+ op.2));
     operation_ContentHash := λ op, pad op.2; operation_License := fst; with_License := λ l op, (l, op.2);
     receipt_Validate := λ r, bool_decide (rc_TranscriptID r ≠ ""); NewProjectHash := λ p, bool_decide (p ≠ "") |}.

(** A document is its text; an entry is redacted whole, and no record is retained. *)
Definition demoBuilder : @ContentBuilder demoSchema :=
  @Build_ContentBuilder demoSchema string (list string) () () () ()
    in_SessionID (λ input, [in_Model input]) (λ _, None) (λ _, ()) (λ _, ()) (λ _, ())
    (* the redactor *) id (λ entries, Some ((λ _, "redacted") <$> entries)) string id () Some
    (* documents *) Some Some (λ policy document, bool_decide (Z.of_nat (String.length document) ≤ MaxDocumentBytes policy)%Z)
    string Some Some (λ _, true) (λ _, "sessionDetail") (λ _, true) (λ _, []) (λ _ content, content) (λ _, false) (λ _ check, Some check)
    (* construction *) (λ _ meta entries emit _, Some (meta +:+ " at " +:+ emit +:+ String.concat "," entries, meta))
    (λ _ _ _ _ license, Some license) (λ _, Some ["text"]) (λ metadata bytes, Some (metadata, bytes)).

Definition demoCapabilities : CapabilityLib :=
  {| MissingContentCapabilities := λ has needs, filter (.∉ has) needs; KnownContentCapabilities := λ needs, needs |}.

Definition demoCreds : Credentials := {| VillageURL := "https://village"; UserID := "u" |}.

(** Everything selected, nothing forced. *)
Definition demoPlain : PipelineConfig :=
  {| DryRun := false; Force := false; SourceProvider := ""; Visibility_ := ""; ChangeVisibility := false; License := "";
     ChangeLicense := false; Concurrency := 0; FilterSessionIDs := []; PinnedSessionIDs := None; UpdateHold := None;
     Selection := None; InheritSelection := ∅; Repository := None; LastGood := false |}.

(** What the village holds after it took a request: created, private until told. *)
Definition demoReceipt (created : bool) (q : string * string) : Receipt :=
  {| rc_TranscriptID := "t"; rc_TranscriptURL := "https://village/t"; rc_ContentHash := pad q.2;
     rc_Fingerprint := pad (if decide (q.1 = "") then "keep" +:+ q.2 else ("set " +:+ q.1) +:+ q.2);
     rc_Visibility := VisibilityPrivate; rc_AppliedVisibility := VisibilityPrivate;
     rc_License := if decide (q.1 = "") then None else Some q.1; rc_PublishedAt := 5; rc_UpdatedAt := 5; rc_Created := created |}.

(** [reachable] is the visibility update's own answer. *)
Definition demoAnswers (created reachable : bool) : @Answers demoSchema :=
  @Build_Answers demoSchema (λ q, Published (demoReceipt created q) (if created then 201 else 200)%Z)
    (λ t v, if reachable then Ok {| up_TranscriptID := t; up_TranscriptURL := "https://village/t"; up_Visibility := v; up_UpdatedAt := 6 |}
            else Err "i/o timeout")
    (true, true, true) true false false false false false 7.

Definition demoWorld : @World demoSchema :=
  {| ledger := {| publications := ∅; sessions := {["s" := {| row_Project := "p"; row_PushedAt := None; row_License := None |}]};
                  attempts := [] |};
     calls := [] |}.

Definition demoSupport : RemoteCapabilitySupport := {| Capabilities := ["text"]; Known := true; Unavailable := false |}.

Definition demoPushOf (reachable : bool) : @World demoSchema * SessionPushResult :=
  pushSession (H := plainRemotes) (H0 := demoReader) (H1 := demoCapabilities) (H2 := demoBuilder)
    demoCreds demoPlain (demoAnswers true reachable) (demoRow "s" 1) VisibilityPublic "mit" "0.1.1" demoSupport demoWorld.


Lemma audience_kept_witness :
  ∃ project receipt, Publication "https://village" "u" project "s" (ledger (demoPushOf true).1) = Some receipt
    ∧ (changesVisibility demoPlain = true ∨ rc_Created receipt = true → rc_Visibility receipt = VisibilityPublic).
Proof.
  destruct (audience_kept _ _ _ _ _ _ _ _ _ _ _ (surjective_pairing (demoPushOf true))) as (new & _ & _ & Hend).
  apply Hend; [vm_compute; left|reflexivity|by right].
Defined.

(** The visibility update timed out: the session failed and no receipt is kept. *)
Lemma receipt_saved_iff_confirmed_witness :
  sr_Status (demoPushOf false).2 = PushStatusError ∧ same_tables (ledger demoWorld) (ledger (demoPushOf false).1)
  ∧ ∃ receipt, Publication "https://village" "u" "p" "s" (ledger (demoPushOf true).1) = Some receipt ∧ rc_Visibility receipt = VisibilityPublic.
Proof.
  assert (sr_Status (demoPushOf false).2 = PushStatusError) as He by (vm_compute; reflexivity). split; [exact He|]. split.
  - pose proof (receipt_saved_iff_confirmed _ _ _ _ _ _ _ _ _ _ _ (surjective_pairing (demoPushOf false)) eq_refl) as Ht.
    rewrite decide_False in Ht by (rewrite He; by intros [|]). exact Ht.
  - pose proof (receipt_saved_iff_confirmed _ _ _ _ _ _ _ _ _ _ _ (surjective_pairing (demoPushOf true)) eq_refl) as Ht.
    rewrite decide_True in Ht by (vm_compute; by left). destruct Ht as (input & receipt & w1 & _ & _ & _ & _ & _).
    eexists. split; vm_compute; reflexivity.
Defined.
