(* ===== verification/PushLedger.v ===== *)
(** * Publishing again

    The theorems on runs that follow each other: a session that was published is
    skipped by the next run over the same capture, a first publication that broke
    off before its audience was set is finished by the retry, and the table of
    receipts keeps one receipt per account and transcript. *)
From S2P Require Import Prelude GoStrings GoText Selection Negotiation PushTargets PushSession PushSafety.
From Stdlib Require Import Ascii.
Local Open Scope string_scope.
Local Open Scope list_scope.

(** What the schema package and the village document of a publication: the content
    hash is the one of the content bytes and survives canonicalization; metadata
    without a license gives the operation with a license to preserve, and putting the
    license back gives the operation that names it. *)
Class PublishLaws `{ContentBuilder} := {
  canonical_content_hash q op :
    CanonicalizePublishRequest q = Some op → operation_ContentHash op = request_ContentHash q;
  request_hash_of_bytes m m' bytes q q' :
    buildAuthoritativeRequest m bytes = Some q → buildAuthoritativeRequest m' bytes = Some q' →
    request_ContentHash q = request_ContentHash q';
  license_left_out meta quality entries associations license m bytes q op :
    license ≠ "" → MapMetadata meta quality entries associations license = Some m → buildAuthoritativeRequest m bytes = Some q →
    CanonicalizePublishRequest q = Some op →
    operation_License op = LicenseReplace license
    ∧ ∃ m0 q0 op0, MapMetadata meta quality entries associations "" = Some m0 ∧ buildAuthoritativeRequest m0 bytes = Some q0
      ∧ CanonicalizePublishRequest q0 = Some op0 ∧ FingerprintPublishOperation op0 ≠ None
      ∧ operation_License op0 = LicensePreserve ∧ with_License (LicenseReplace license) op0 = op;
}.

Section again.
Context `{RemoteLib} `{CaptureReader} `{CapabilityLib} `{SP : SchemaPublish} `{CB : !ContentBuilder}.
Variables (creds : Credentials) (c : PipelineConfig).

(** ** The receipt of a publication *)

Lemma SavePublication_inv fault origin owner project session receipt l l' :
  SavePublication fault origin owner project session receipt l = Ok l' →
  receipt_Validate receipt = true ∧ row_checks receipt = true
  ∧ Publication origin owner project session l' = Some receipt
  ∧ attempts l' = attempts l
  ∧ (row_PushedAt <$> sessions l' !! session = Some (Some (rc_UpdatedAt receipt)))
  ∧ (∀ s, s ≠ session → sessions l' !! s = sessions l !! s)
  ∧ publications l' = <[(origin, owner, project, session) := receipt]>
      (filter (λ kv, ¬ superseded origin owner project session (rc_TranscriptID receipt) kv) (publications l))
  ∧ (∀ k r, publications l' !! k = Some r →
       k = (origin, owner, project, session) ∨
       publications l !! k = Some r ∧ ¬ same_transcript origin owner project session (rc_TranscriptID receipt) (k, r)).
Proof.
  unfold SavePublication. intros [Hv [_ [_ [Hrow Hp]%res_guard_ok]%res_guard_ok]%res_guard_ok]%res_guard_ok.
  destruct (sessions l !! session) as [row|] eqn:Er; [|done]. apply res_guard_ok in Hp as [_ [= <-]].
  apply andb_true_iff in Hrow as [Hrow Huniq%bool_decide_eq_true]. unfold Publication. cbn [publications attempts sessions].
  split_and!; [done|done|apply lookup_insert_eq|done|by rewrite lookup_insert_eq| |done|].
  - intros s Hs. by rewrite lookup_insert_ne.
  - intros k r Hk. destruct (decide (k = (origin, owner, project, session))) as [->|Hne]; [by left|]. right.
    rewrite lookup_insert_ne in Hk by done. pose proof Hk as Hk'. apply map_lookup_filter_Some in Hk as [Hk _]. split; [done|].
    rewrite filter_nil_iff in Huniq. apply Huniq. by apply elem_of_map_to_list.
Qed.

(** One receipt per account and transcript, each one within the checks of its
    columns. *)
Definition ledger_ok (l : Ledger) : Prop :=
  (∀ o w p s p' s' r r', publications l !! (o, w, p, s) = Some r → publications l !! (o, w, p', s') = Some r' →
     rc_TranscriptID r = rc_TranscriptID r' → (p, s) = (p', s'))
  ∧ ∀ k r, publications l !! k = Some r → row_checks r = true.

Lemma SavePublication_ledger_ok fault origin owner project session receipt l l' :
  SavePublication fault origin owner project session receipt l = Ok l' → ledger_ok l → ledger_ok l'.
Proof.
  intros (_ & Hrow & Hsaved & _ & _ & _ & _ & Hall)%SavePublication_inv [Huniq Hchecks]. unfold Publication in Hsaved. split.
  - assert (∀ p s r, publications l' !! (origin, owner, p, s) = Some r → rc_TranscriptID r = rc_TranscriptID receipt →
            (p, s) = (project, session)) as Hnew.
    { intros p s r [[= -> ->]|[_ Hn]]%Hall Ht; [done|]. apply dec_stable. intros Hne. by apply Hn. }
    intros o w p s p' s' r r' Hl Hl' Ht. pose proof Hl as [Hk|[Hr _]]%Hall; [injection Hk as -> -> -> ->|].
    + rewrite Hsaved in Hl. injection Hl as <-. by rewrite (Hnew p' s' r').
    + pose proof Hl' as [Hk|[Hr' _]]%Hall; [injection Hk as -> -> -> ->|by eapply Huniq].
      rewrite Hsaved in Hl'. injection Hl' as <-. by apply (Hnew p s r).
  - intros k r Hk. pose proof Hk as [->|[Hr _]]%Hall; [by pose proof (eq_trans (eq_sym Hk) Hsaved) as [= ->]|by eapply Hchecks].
Qed.

(** ** What a failed publication records *)

(** The stage an error is recorded with; the errors before the upload record none. *)
Definition failure_stage (e : PushErrorKind) : option Stage :=
  match e with
  | UploadFailed _ => Some StagePublish
  | ReceiptMismatch => Some StageValidate
  | VisibilityUpdateFailed | VisibilityUpdateInconsistent => Some StageVisibility
  | ReceiptNotSaved _ => Some StagePersistence
  | _ => None
  end.

Definition records (ans : Answers) (sess : PushSessionRow) (pr : Prepared) (r : SessionPushResult) (l l' : Ledger) : Prop :=
  match sr_Error r ≫= λ e, failure_stage e.1 with
  | Some stage => ∃ message,
      l' = RecordPublicationAttempt (record_fault ans) (now ans) (VillageURL creds) (UserID creds)
             (in_ReceiptProjectHash (pr_Input pr)) (SessionID sess) stage message l
  | None => l' = l
  end.

Lemma upload_records ans sess pr fingerprint w w' res :
  upload creds ans sess pr fingerprint w = (w', res) →
  match res with Ok _ => ledger w' = ledger w | Err r => records ans sess pr r (ledger w) (ledger w') end.
Proof.
  unfold upload. intros Hu. destruct (PublishAuthoritative ans (pr_Request pr)).
  - case_decide; [injection Hu as <- <-; by eexists|]. by destruct (observed ans); injection Hu as <- <-.
  - injection Hu as <- <-. by eexists.
Qed.

Lemma converge_records ans sess pr visibility held fp receipt w w' res :
  converge creds c ans sess pr visibility held fp receipt w = (w', res) →
  match res with Ok _ => ledger w' = ledger w | Err r => records ans sess pr r (ledger w) (ledger w') end.
Proof.
  unfold converge. intros Hc. destruct (_ && _); [|by injection Hc as <- <-].
  destruct (negb _); [by injection Hc as <- <-|]. destruct (UpdateOwner ans _ _).
  - case_decide; injection Hc as <- <-; [by eexists|done].
  - injection Hc as <- <-. by eexists.
Qed.

Lemma finish_records ans sess pr visibility held receipt statusCode w w' r :
  finish creds c ans sess pr visibility held receipt statusCode w = (w', Err r) →
  records ans sess pr r (ledger w) (ledger w').
Proof.
  unfold finish, act_bind, value_. destruct (first_publish _ _ _ _ _ _ _) as [w1 [fp|q]] eqn:Ef.
  2: { intros [= <- <-]. unfold first_publish in Ef. destruct (_ && _); [|done].
       destruct (unfinishedFirstPublish _ _ _ _); [done|]. by injection Ef as <- <-. }
  apply first_publish_inv in Ef as [-> _].
  destruct (converge _ _ _ _ _ _ _ _ _ _) as [w2 [receipt'|q]] eqn:Ec; apply converge_records in Ec; [|by intros [= <- <-]].
  unfold save. destruct (account_current ans).2; [destruct (SavePublication _ _ _ _ _ _ _)|]; intros [= <- <-]; rewrite <-Ec; by eexists.
Qed.

(** Every failure of a real run is recorded with the stage it happened in, and nothing
    else changes the table of attempts. *)
Lemma pushSession_records ans sess visibility license emit support w w' r :
  pushSession creds c ans sess visibility license emit support w = (w', r) →
  sr_Status r ∉ [PushStatusNew; PushStatusUpdated] →
  ledger w' = ledger w ∨ ∃ pr, records ans sess pr r (ledger w) (ledger w').
Proof.
  unfold pushSession. destruct (prepare _ _ _ _ _ _ _) as [pr|q]; [|intros [= <- <-]; by left].
  destruct (DryRun c); [intros [= <- <-]; by left|].
  destruct (publish _ _ _ _ _ _ _ _) as [w2 res] eqn:Eb. apply publish_send_inv in Eb.
  destruct Eb as [(-> & q & -> & Hq)|(Hs & operation & fingerprint & Hop & Hfp & Hreason & _ & Hcases)];
    [intros [= <- <-]; by left|].
  intros Hres Hst. assert (∀ held receipt st w1, finish creds c ans sess pr visibility held receipt st w1 = (w2, res) →
    ledger w1 = ledger w → ledger w' = ledger w ∨ ∃ pr, records ans sess pr r (ledger w) (ledger w')) as Hfin.
  { intros held receipt st w1 Hf Hl. destruct res as [q|q]; injection Hres as <- <-.
    - apply finish_send_inv in Hf as (updates & _ & _ & -> & _). exfalso. apply Hst. cbn. case_decide; set_solver.
    - right. exists pr. rewrite <-Hl. by eapply finish_records. }
  destruct Hcases as [(_ & _ & previous & _ & Hf)|(_ & [(q & Hu & ->)|(receipt & st & w1 & Hu & Hf)])]; [by eapply Hfin| |].
  - injection Hres as <- <-. right. exists pr. by apply upload_records in Hu.
  - eapply Hfin; [done|]. by apply upload_records in Hu.
Qed.

Lemma newest_elem l acc a : foldl newer acc l = Some a → a ∈ l ∨ acc = Some a.
Proof.
  revert acc. induction l as [|b l IH]; intros acc Hl; [by right|]. cbn in Hl. apply IH in Hl as [?|Hb]; [left; by right|].
  destruct acc as [b'|]; cbn in Hb; [case_decide|]; injection Hb as <-; [left; by left|by right|left; by left].
Qed.

Lemma latest_appended origin owner session l a :
  at_Origin a = origin → at_Owner a = owner → at_Session a = session →
  (∀ b, b ∈ attempts l → (at_Time b ≤ at_Time a)%Z) →
  LatestSessionPublicationAttempt origin owner session
    {| publications := publications l; sessions := sessions l; attempts := attempts l ++ [a] |} = Some a.
Proof.
  intros Ho Hw Hs Hlate. unfold LatestSessionPublicationAttempt. cbn [attempts].
  rewrite filter_app, filter_cons_True, filter_nil, foldl_app by done. cbn [foldl]. destruct (foldl newer None _) as [b|] eqn:E; [|done].
  apply newest_elem in E as [[_ Hb]%list_elem_of_filter|?]; [|done]. cbn. by rewrite decide_True by auto.
Qed.

Lemma attempts_grow_Record fault t origin owner project session stage message l :
  attempts l `prefix_of` attempts (RecordPublicationAttempt fault t origin owner project session stage message l).
Proof.
  unfold RecordPublicationAttempt. destruct (_ || _); [done|]. destruct (sessions l !! session); [|done].
  case_decide; [|done]. by apply prefix_app_r.
Qed.

(** What one push does to the tables: nothing, or the save of one receipt of its own
    account and session. *)
Lemma pushSession_tables ans sess visibility license emit support w w' r :
  pushSession creds c ans sess visibility license emit support w = (w', r) →
  same_tables (ledger w) (ledger w') ∨
  ∃ l1 project receipt, same_tables (ledger w) l1
    ∧ SavePublication (save_fault ans) (VillageURL creds) (UserID creds) project (SessionID sess) receipt l1 = Ok (ledger w').
Proof.
  intros Hp. apply pushSession_inv in Hp as [[-> _]|(_ & pr & op & fp & _ & _ & _ & _ & _ & receipt & w1 & updates & Hhow & _ & _ & Hres)]; [by left|].
  assert (same_tables (ledger w) (ledger w1)) as Ht by (destruct Hhow as [(_ & _ & -> & _)|(_ & _ & ? & _)]; done).
  destruct Hres as [[_ Ht']|(_ & receipt' & Hsave & _)]; [left; by eapply same_tables_trans|right].
  by exists (ledger w1), (in_ReceiptProjectHash (pr_Input pr)), receipt'.
Qed.

(** The receipts stay well formed whatever the village answers.  A push keeps one
    receipt per account and transcript, every receipt within the checks of its
    columns, and leaves the receipts of every other account or session and the
    cursors of every other session as they were. *)
Theorem receipts_stay_unique ans sess visibility license emit support w w' r :
  pushSession creds c ans sess visibility license emit support w = (w', r) → ledger_ok (ledger w) →
  ledger_ok (ledger w')
  ∧ (∀ o u p s, (o, u, s) ≠ (VillageURL creds, UserID creds, SessionID sess) →
       publications (ledger w') !! (o, u, p, s) = publications (ledger w) !! (o, u, p, s))
  ∧ ∀ s, s ≠ SessionID sess → sessions (ledger w') !! s = sessions (ledger w) !! s.
Proof.
  intros [[Hp Hs]|(l1 & project & receipt & [Hp Hs] & Hsave)]%pushSession_tables Hok.
  { unfold ledger_ok. rewrite Hp, Hs. split; [exact Hok|]. by split. }
  assert (ledger_ok l1) as Hok1 by (unfold ledger_ok; by rewrite Hp).
  split; [by eapply SavePublication_ledger_ok|]. apply SavePublication_inv in Hsave as (_ & _ & _ & _ & _ & Hsess & Hpub & _).
  split; [|intros s Hne; by rewrite Hsess, Hs]. intros o u p s Hne. rewrite Hpub, lookup_insert_ne, <-Hp by congruence.
  destruct (publications l1 !! (o, u, p, s)) as [q|] eqn:E.
  - apply map_lookup_filter_Some_2; [done|]. cbn. intros (-> & -> & _ & -> & _). done.
  - apply map_lookup_filter_None. by left.
Qed.

(** ** The next run *)

Lemma error_not_published : PushStatusError ∉ [PushStatusNew; PushStatusUpdated].
Proof. intros Hst. apply (not_published PushStatusError); [right; by left|done]. Qed.

(** The preparation of a session that holds a receipt, over the same capture. *)
Lemma prepare_again ans ans' sess sess' license emit l l' pr receipt m0 q0 :
  prepare creds c ans sess license emit l = Ok pr →
  publishable c sess' = publishable c sess → SessionID sess' = SessionID sess → read_receipt_fault ans' = false →
  Publication (VillageURL creds) (UserID creds) (in_ReceiptProjectHash (pr_Input pr)) (SessionID sess) l' = Some receipt →
  mapped pr (if changesLicense c then license else "") = Some m0 →
  buildAuthoritativeRequest m0 (pr_Bytes pr) = Some q0 →
  prepare creds c ans' sess' license emit l' =
    Ok {| pr_Input := pr_Input pr; pr_Meta := pr_Meta pr; pr_Entries := pr_Entries pr; pr_Previous := Some receipt; pr_PublishedBefore := true; pr_Request := q0;
          pr_Bytes := pr_Bytes pr; pr_Required := pr_Required pr |}.
Proof.
  intros Hp Hcap Hid Hf Hpub Hm Hq. unfold prepare in *. rewrite Hcap, Hid. destruct (publishable c sess) as [input|e]; [|done].
  apply res_bind_ok in Hp as (entries & Hred & Hp). apply res_bind_ok in Hp as ([content meta] & Hc & Hp). apply res_guard_ok in Hp as [Hh Hp].
  apply res_guard_ok in Hp as [_ Hp]. apply res_bind_ok in Hp as (before & _ & Hp).
  apply res_bind_ok in Hp as (metadata & _ & Hp). apply res_bind_ok in Hp as (required & Hr & Hp).
  apply res_bind_ok in Hp as (bytes & Hy & Hp). apply res_bind_ok in Hp as (request & _ & [= <-]). cbn in *.
  assert (∀ A (o : option A) e a, or_fail sess o e = Ok a → o = Some a) as Hof by (intros A [x|] e y; cbn; congruence).
  apply Hof in Hred, Hc, Hr, Hy. rewrite Hred. cbn. rewrite Hc. cbn. rewrite Hh, Hf, Hpub. unfold mapped in Hm. cbn in *. by destruct (changesLicense c); cbn in *; rewrite Hm, Hr; cbn; rewrite Hy; cbn; rewrite Hq.
Qed.

(** The village reports the license it was given. *)
Definition reports_license (ans : Answers) : Prop :=
  ∀ q receipt statusCode op license, PublishAuthoritative ans q = Published receipt statusCode →
    CanonicalizePublishRequest q = Some op → operation_License op = LicenseReplace license → rc_License receipt = Some license.

(** The request of the next run, and that the receipt covers it. *)
Lemma next_request `{!PublishLaws} ans sess license emit l pr op fp receipt :
  prepare creds c ans sess license emit l = Ok pr →
  CanonicalizePublishRequest (pr_Request pr) = Some op → FingerprintPublishOperation op = Some fp →
  receipt_Validate receipt = true → rc_ContentHash receipt = request_ContentHash (pr_Request pr) → rc_Fingerprint receipt = fp →
  (∀ L, operation_License op = LicenseReplace L → rc_License receipt = Some L) →
  ∃ m0 q0 op0 fp0, mapped pr (if changesLicense c then license else "") = Some m0
    ∧ buildAuthoritativeRequest m0 (pr_Bytes pr) = Some q0 ∧ CanonicalizePublishRequest q0 = Some op0
    ∧ FingerprintPublishOperation op0 = Some fp0 ∧ alreadyHeld receipt op0 fp0 = true.
Proof.
  intros (_ & _ & _ & _ & content & m & _ & _ & _ & Hm & Hq)%prepare_inv Hop Hfp Hval Hhash Hfpr Hlic.
  assert (alreadyHeld receipt op fp = true) as Hsame.
  { unfold alreadyHeld. rewrite Hval, Hhash, (canonical_content_hash _ _ Hop), Hfpr.
    rewrite bool_decide_eq_false_2 by auto. cbn. by rewrite decide_True. }
  destruct (decide (changesLicense c = true ∨ pr_PublishedBefore pr = true ∨ license = "")) as [Hd|Hd].
  { exists m, (pr_Request pr), op, fp. split_and!; [|done..]. rewrite <-Hm.
    destruct Hd as [->|[->| ->]]; destruct (changesLicense c); try done; cbn; by destruct (pr_PublishedBefore pr). }
  assert (changesLicense c = false ∧ pr_PublishedBefore pr = false ∧ license ≠ "") as (Hcl & Hb & Hl).
  { destruct (changesLicense c), (pr_PublishedBefore pr); split_and!; naive_solver. }
  rewrite Hb, Hcl in Hm. cbn in Hm. rewrite Hcl.
  destruct (license_left_out _ _ _ _ _ _ _ _ _ Hl Hm Hq Hop) as (Hol & m0 & q0 & op0 & Hm0 & Hq0 & Hop0 & Hf0 & Hpres & Hwith).
  destruct (FingerprintPublishOperation op0) as [fp0|] eqn:Efp0; [|done]. exists m0, q0, op0, fp0. split_and!; try done.
  unfold alreadyHeld. rewrite Hval, (canonical_content_hash _ _ Hop0), Hhash.
  rewrite bool_decide_eq_false_2 by (intros Hne; apply Hne; by eapply request_hash_of_bytes). cbn.
  case_decide; [done|]. rewrite Hpres, (Hlic _ Hol), Hwith, Hfp, Hfpr. by apply bool_decide_eq_true_2.
Qed.

(** C6: publishing again changes nothing.  When a run without force or an asked visibility
    change has published a session, the next run over the same capture skips it: it
    sends nothing, leaves every table, and needs no answer of the village, also when
    the first run named the license and the second one leaves it to the village. *)
Theorem published_again_is_skipped `{!PublishLaws} ans ans' sess sess' visibility visibility' license emit support w w1 r :
  pushSession creds c ans sess visibility license emit support w = (w1, r) →
  sr_Status r ∈ [PushStatusNew; PushStatusUpdated] →
  DryRun c = false → Force c = false → changesVisibility c = false → reports_license ans →
  publishable c sess' = publishable c sess → SessionID sess' = SessionID sess →
  PushedAt sess' = sessions (ledger w1) !! SessionID sess ≫= row_PushedAt → read_receipt_fault ans' = false →
  pushSession creds c ans' sess' visibility' license emit support w1 = (w1, outcome sess' PushStatusSkipped []).
Proof.
  intros Hp Hst Hdry Hforce Hcv Hvil Hcap Hid Hcur Hfault.
  apply pushSession_inv in Hp as [[-> [Hr|?]]|(_ & pr & op & fp & Hprep & Hs & Hop & Hfp & _ & receipt & w' & updates & Hhow & _ & _ & Hres)];
    [by destruct (not_published _ Hr Hst)|congruence|].
  destruct Hres as [[He _]|(_ & receipt' & Hsave & Hfrom & _)]; [rewrite He in Hst; by destruct (error_not_published Hst)|].
  destruct Hhow as [(_ & ? & _)|(_ & _ & _ & Hconf)]; [congruence|].
  destruct Hconf as (Hl & (st & Hpub) & Hhash & Hf). { left. intros He. rewrite He in Hst. by destruct (error_not_published Hst). }
  rewrite Hl in Hsave. apply SavePublication_inv in Hsave as (Hval & _ & Hsaved & _ & Hcursor & _).
  assert (rc_ContentHash receipt' = rc_ContentHash receipt ∧ rc_Fingerprint receipt' = rc_Fingerprint receipt
          ∧ rc_License receipt' = rc_License receipt) as (Hh' & Hf' & Hl') by (destruct Hfrom as [[-> _]|(updated & _ & _ & ->)]; done).
  destruct (next_request _ _ _ _ _ _ _ _ receipt' Hprep Hop Hfp Hval) as (m0 & q0 & op0 & fp0 & Hm0 & Hq0 & Hop0 & Hfp0 & Hheld);
    [congruence|congruence|intros L HL; rewrite Hl'; by eapply Hvil|].
  unfold pushSession, publish, return_. rewrite (prepare_again _ ans' _ sess' _ _ _ _ _ receipt' m0 q0 Hprep) by done. rewrite Hdry. cbn.
  rewrite decide_False, Hop0, Hfp0 by (intros Hne; by apply Hne). unfold held_unchanged. cbn.
  assert (PushedAt sess' ≠ None) as Hpa.
  { rewrite Hcur. destruct (sessions (ledger w1) !! SessionID sess) as [row|]; [|done]. injection Hcursor as Hc. cbn. by rewrite Hc. }
  by rewrite Hforce, (bool_decide_eq_true_2 _ Hpa), Hheld, Hcv.
Qed.

(** C8: a first publication that broke off is finished by the retry.  When the first push
    of a session failed after the upload began, before the receipt was to be saved, and
    the failure is on record, a later push that ends well against a village that still
    holds the transcript private publishes it at the visibility of that run, although
    the village no longer reports it as created. *)
Theorem retry_finishes_first_publish c' ans ans' sess sess' visibility visibility' license license' emit emit' support support' w w1 w2 r r' e message :
  pushSession creds c ans sess visibility license emit support w = (w1, r) →
  sr_Status r = PushStatusError → sr_Error r = Some (e, message) → failure_stage e ≠ Some StagePersistence → attempts (ledger w1) ≠ attempts (ledger w) →
  (∀ a, a ∈ attempts (ledger w) → (at_Time a ≤ now ans)%Z) →
  PublishedToVillage (VillageURL creds) (UserID creds) (SessionID sess) (ledger w) = false →
  SessionID sess' = SessionID sess → DryRun c' = false → implemented visibility' →
  (∀ q receipt statusCode, PublishAuthoritative ans' q = Published receipt statusCode → rc_Visibility receipt = VisibilityPrivate) →
  pushSession creds c' ans' sess' visibility' license' emit' support' w1 = (w2, r') →
  sr_Status r' ∈ [PushStatusNew; PushStatusUpdated] →
  ∃ project receipt, Publication (VillageURL creds) (UserID creds) project (SessionID sess) (ledger w2) = Some receipt
    ∧ rc_Visibility receipt = visibility'.
Proof.
  intros Hp Hst He Hstage Hrec Hclock Hnew Hid Hdry Himp Hvil Hp2 Hst2.
  destruct (pushSession_records _ _ _ _ _ _ _ _ _ Hp ltac:(rewrite Hst; exact error_not_published)) as [Hl|[pr Hrecs]]; [by rewrite Hl in Hrec|].
  unfold records in Hrecs. rewrite He in Hrecs. cbn in Hrecs. destruct (failure_stage e) as [stage|]; [|by rewrite Hrecs in Hrec].
  destruct Hrecs as [m Hw1]. 
  assert (∃ a, ledger w1 = {| publications := publications (ledger w); sessions := sessions (ledger w); attempts := attempts (ledger w) ++ [a] |}
          ∧ at_Origin a = VillageURL creds ∧ at_Owner a = UserID creds ∧ at_Session a = SessionID sess ∧ at_Time a = now ans ∧ at_Stage a = stage)
    as (a & Hl1 & Ho & Hu & Hs & Ht & Hsa).
  { rewrite Hw1 in Hrec. unfold RecordPublicationAttempt in *. destruct (_ || _); [done|]. destruct (sessions (ledger w) !! SessionID sess); [|done].
    case_decide; [|done]. by eexists. }
  apply pushSession_inv in Hp2 as [[-> [Hr|?]]|(_ & pr' & op & fp & Hprep & _ & _ & _ & _ & receipt & w' & updates & Hhow & _ & _ & Hres)];
    [by destruct (not_published _ Hr Hst2)|congruence|].
  destruct Hres as [[Hr _]|(_ & receipt' & Hsave & Hfrom & Hvis)]; [rewrite Hr in Hst2; by destruct (error_not_published Hst2)|].
  apply prepare_inv in Hprep as (_ & _ & Hprev & Hbefore & _). rewrite Hid in *.
  assert (PublishedToVillage (VillageURL creds) (UserID creds) (SessionID sess) (ledger w1) = false) as Hnew1 by (by rewrite Hl1).
  destruct Hhow as [(_ & _ & _ & previous & Hpr & _)|(_ & _ & _ & Hconf)].
  { rewrite Hprev in Hpr. exfalso. enough (PublishedToVillage (VillageURL creds) (UserID creds) (SessionID sess) (ledger w1) = true) by congruence.
    apply PublishedToVillage_iff. by eexists _, _. }
  destruct Hconf as (Hl & (st & Hpub) & _). { left. intros Hr. rewrite Hr in Hst2. by destruct (error_not_published Hst2). }
  apply SavePublication_inv in Hsave as (_ & _ & Hsaved & _). eexists _, receipt'. split; [done|]. apply Hvis; [|done].
  right. right. rewrite Hbefore, Hl. split_and!; [done|by eapply Hvil|]. exists a. rewrite Hid, Hl1. split; [|by rewrite Hsa; intros ->].
  apply latest_appended; [done..|]. rewrite Ht. done.
Qed.
End again.

Lemma receipts_stay_unique_witness : ledger_ok (ledger (demoPushOf true).1).
Proof.
  apply (receipts_stay_unique _ _ _ _ _ _ _ _ _ _ _ (surjective_pairing (demoPushOf true))).
  unfold ledger_ok. change (publications (ledger demoWorld)) with (∅ : gmap key Receipt).
  split; [intros o w p s p' s' r r' Hl|intros k r Hl]; by rewrite lookup_empty in Hl.
Defined.

#[local] Instance demoLaws : @PublishLaws demoSchema demoBuilder.
Proof.
  split.
  - by intros q op [= <-].
  - by intros m m' bytes q q' [= <-] [= <-].
  - intros meta quality entries associations license m bytes q op Hl [= <-] [= <-] [= <-]. cbn. rewrite decide_False by done. split; [done|].
    by eexists "", ("", bytes), (LicensePreserve, bytes).
Defined.

Lemma published_again_is_skipped_witness :
  pushSession (H := plainRemotes) (H0 := demoReader) (H1 := demoCapabilities) (H2 := demoBuilder) demoCreds demoPlain (demoAnswers false false)
    {| SessionID := "s"; ModelHarness := "claude"; HostSlug := "host"; ProjectHash := "p"; ProjectPath := "/work";
       PushedAt := Some 6%Z; GitBranch := Some "main"; GitRemote := ""; TokensTotal := 1 |}
    VisibilityPrivate "mit" "0.1.1" demoSupport (demoPushOf true).1
  = ((demoPushOf true).1, outcome
    {| SessionID := "s"; ModelHarness := "claude"; HostSlug := "host"; ProjectHash := "p"; ProjectPath := "/work";
       PushedAt := Some 6%Z; GitBranch := Some "main"; GitRemote := ""; TokensTotal := 1 |} PushStatusSkipped []).
Proof.
  eapply (published_again_is_skipped demoCreds demoPlain _ _ _ _ _ _ _ _ _ _ _ _ (surjective_pairing (demoPushOf true)));
    [vm_compute; left|reflexivity..| |reflexivity|reflexivity|vm_compute; reflexivity|reflexivity].
  intros q receipt st op license [= <- <-] [= <-]. cbn. destruct (decide (q.1 = "")); [done|]. by intros [= <-].
Defined.

(** The first run created the transcript and could not open it; the second one is told
    of an update and opens it. *)
Lemma retry_finishes_first_publish_witness :
  ∃ project receipt, Publication "https://village" "u" project "s"
    (ledger (pushSession (H := plainRemotes) (H0 := demoReader) (H1 := demoCapabilities) (H2 := demoBuilder) demoCreds demoPlain
       (demoAnswers false true) (demoRow "s" 1) VisibilityPublic "mit" "0.1.1" demoSupport (demoPushOf false).1).1) = Some receipt
    ∧ rc_Visibility receipt = VisibilityPublic.
Proof.
  eapply (retry_finishes_first_publish demoCreds demoPlain demoPlain _ (demoAnswers false true) _ (demoRow "s" 1) _ VisibilityPublic _ "mit" _ "0.1.1"
    _ demoSupport _ _ _ _ _ VisibilityUpdateFailed "i/o timeout" (surjective_pairing (demoPushOf false)));
    [vm_compute; reflexivity|vm_compute; reflexivity|done|vm_compute; discriminate|by intros a ?%elem_of_nil|vm_compute; reflexivity
    |reflexivity|reflexivity|by right|by intros q receipt st [= <- <-]|apply surjective_pairing|vm_compute; right; left].
Defined.
