(* ===== verification/PushRun.v ===== *)
(** * A whole push run

    [Run] of [src/internal/push/pipeline.go]: the sequential half up to the
    negotiation, the pool of uploads with its abort on connection failures, the
    counters of [PushResult] and the reason of an empty run.

    The pool is a transition system: the loop starts a goroutine while a slot of the
    group is free, a goroutine looks at the abort flag under the mutex, pushes its
    session, and records the result under the mutex.  [pushSession] is one step: the
    sessions of a run are different rows, and each save is one transaction. *)
From S2P Require Import Prelude GoStrings GoText Selection Negotiation PushTargets PushSession PushSafety PushLedger.
From Stdlib Require Import Ascii.
Local Open Scope string_scope.
Local Open Scope list_scope.

(** ** Results *)

Inductive EmptyCode := EmptyStoreHasNoSessions | EmptyFiltersExcludedAll | EmptyNothingChanged | EmptyCodeUnknown.
#[export] Instance EmptyCode_eq_dec : EqDecision EmptyCode.
Proof. solve_decision. Defined.

Record PushResult := {
  rs_Sessions : list SessionPushResult;
  rs_New : Z;
  rs_Updated : Z;
  rs_Skipped : Z;
  rs_Errors : Z;
  rs_Held : Z;
  rs_Empty : option EmptyCode;      (* with its reason *)
  rs_BaseCandidateCount : nat;
}.

Definition newResult (base : nat) : PushResult :=
  {| rs_Sessions := []; rs_New := 0; rs_Updated := 0; rs_Skipped := 0; rs_Errors := 0; rs_Held := 0; rs_Empty := None;
     rs_BaseCandidateCount := base |}.

Definition set_Empty (code : EmptyCode) (r : PushResult) : PushResult :=
  {| rs_Sessions := rs_Sessions r; rs_New := rs_New r; rs_Updated := rs_Updated r; rs_Skipped := rs_Skipped r;
     rs_Errors := rs_Errors r; rs_Held := rs_Held r; rs_Empty := Some code; rs_BaseCandidateCount := rs_BaseCandidateCount r |}.

Definition countStatus (s : PushStatus) (r : PushResult) : PushResult :=
  let 'Build_PushResult ss n u k e h ec b := r in
  match s with
  | PushStatusNew => Build_PushResult ss (n + 1) u k e h ec b
  | PushStatusUpdated => Build_PushResult ss n (u + 1) k e h ec b
  | PushStatusSkipped => Build_PushResult ss n u (k + 1) e h ec b
  | PushStatusError => Build_PushResult ss n u k (e + 1) h ec b
  | PushStatusHeld => Build_PushResult ss n u k e (h + 1) ec b
  end.

(** A session's result, appended and counted. *)
Definition add_result (sr : SessionPushResult) (r : PushResult) : PushResult :=
  let 'Build_PushResult ss n u k e h ec b := r in countStatus (sr_Status sr) (Build_PushResult (ss ++ [sr]) n u k e h ec b).

(** ** Why a run was empty *)

Definition scopedEmptyReason {E} (c : PipelineConfig) (scope : RepositoryScope) (all : result E (list PushSessionRow)) : EmptyCode :=
  match all with
  | Err _ => EmptyCodeUnknown
  | Ok all =>
    let recorded := ApplyRepositoryScope all (Some scope) in
    if decide (recorded = []) then if decide (all = []) then EmptyStoreHasNoSessions else EmptyFiltersExcludedAll
    else if decide ((ApplySelection recorded (Selection c)).1 = []) then EmptyFiltersExcludedAll
    else EmptyNothingChanged
  end.

Definition emptyReason {E} (c : PipelineConfig) (all : result E (list PushSessionRow)) (baseCount : nat) : EmptyCode :=
  match Repository c with
  | Some scope => scopedEmptyReason c scope all
  | None =>
    if decide (Selection c ≠ None ∧ (0 < baseCount)%nat) then EmptyFiltersExcludedAll
    else match all with
         | Ok (_ :: _) => EmptyNothingChanged
         | _ => EmptyStoreHasNoSessions
         end
  end.

Definition connectionAbortThreshold : Z := 3.

Section run.
Context `{RemoteLib} `{CaptureReader} `{CapabilityLib} `{SP : SchemaPublish} `{CB : !ContentBuilder}.

(** ** The sequential half *)

Inductive RunError (E : Type) :=
  | VisibilityRefused
  | IndividualNeedsPicker
  | TargetsUnread (e : E)
  | PreflightStopped (e : LoadError)
  | AccountScopeChanged
  | ContractRefused (e : NegotiationError)
  | ConnectionsLost (failures : Z).
#[global] Arguments VisibilityRefused {E}.
#[global] Arguments IndividualNeedsPicker {E}.
#[global] Arguments TargetsUnread {E} e.
#[global] Arguments PreflightStopped {E} e.
#[global] Arguments AccountScopeChanged {E}.
#[global] Arguments ContractRefused {E} e.
#[global] Arguments ConnectionsLost {E} failures.

(** What a run reads before its uploads: the candidates of its base query, every
    pushable session, the context at each preflight check, the account check, the
    version query, and whether the context has a deadline. *)
Record RunInputs (E : Type) := {
  ri_Candidates : result E (list PushSessionRow);
  ri_AllPushable : result E (list PushSessionRow);
  ri_Cancelled : nat → bool;
  ri_AccountUnchanged : bool;
  ri_Version : option (option SchemaVersionResponse);
  ri_Deadline : bool;
}.
#[global] Arguments ri_Candidates {E} r.
#[global] Arguments ri_AllPushable {E} r.
#[global] Arguments ri_Cancelled {E} r.
#[global] Arguments ri_AccountUnchanged {E} r.
#[global] Arguments ri_Version {E} r.
#[global] Arguments ri_Deadline {E} r.

(** How the sequential half ends: the run returns, it forecasts, or it uploads. *)
Inductive RunPlan (E : Type) :=
  | Returns (result : option PushResult) (err : option (RunError E))
  | Forecasts (result : PushResult) (sessions : list PushSessionRow)
  | Uploads (result : PushResult) (sessions : list PushSessionRow) (emit : string) (support : RemoteCapabilitySupport) (limit : Z).
#[global] Arguments Returns {E} result err.
#[global] Arguments Forecasts {E} result sessions.
#[global] Arguments Uploads {E} result sessions emit support limit.

Definition entryReadFailure (sess : PushSessionRow) (e : LoadError) : SessionPushResult :=
  failed sess (InputRefused e) (match e with OtherLoadError m => m | _ => "" end) [].

(** [Run] before its uploads. *)
Definition planRun {E} (cfg : PushConfig) (c : PipelineConfig) (i : RunInputs E) : RunPlan E :=
  if changesVisibility c && VisibilityChangeRefusal (Visibility_ c) then Returns None (Some VisibilityRefused)
  else if decide (Method cfg = PushMethodIndividual ∧ SourceProvider c = "") then Returns None (Some IndividualNeedsPicker)
  else match getTargetSessions (ri_Candidates i) cfg c with
  | Err e => Returns None (Some (TargetsUnread e))
  | Ok (sessions, baseCount, _) =>
    if decide (sessions = []) then Returns (Some (set_Empty (emptyReason c (ri_AllPushable i) baseCount) (newResult baseCount))) None
    else if DryRun c then Forecasts (newResult baseCount) sessions
    else
      let '(valid, refused, stopped) := preflight c (ri_Cancelled i) sessions in
      let result := foldl (λ r q, add_result (entryReadFailure q.1 q.2) r) (newResult baseCount) refused in
      match stopped with
      | Some e => Returns (Some result) (Some (PreflightStopped e))
      | None =>
        if decide (valid = []) then Returns (Some result) None
        else if negb (ri_AccountUnchanged i) then Returns (Some result) (Some AccountScopeChanged)
        else match negotiate (ri_Version i) with
        | Err e => Returns (Some result) (Some (ContractRefused e))
        | Ok (emit, support) => Uploads result (orderForBudget (ri_Deadline i) valid) emit support (runConcurrency c)
        end
      end
  end.

(** The loop of a dry run; nothing is sent, so the world is a ledger to read. *)
Definition forecastRun (creds : Credentials) (cfg : PushConfig) (c : PipelineConfig) (ans : PushSessionRow → Answers) (w : World)
    (result : PushResult) (sessions : list PushSessionRow) : World * PushResult :=
  foldl (λ wr sess,
    let '(w, r) := wr in
    let '(w, sr) := pushSession creds c (ans sess) sess (resolveVisibility c cfg) (resolveLicense c cfg) PublishSchemaVersion
                      {| Capabilities := []; Known := false; Unavailable := false |} w in
    (w, add_result sr r)) (w, result) sessions.

(** ** The pool of uploads *)

Record Pool := {
  waiting : list PushSessionRow;                           (* the loop has not reached them *)
  starting : list PushSessionRow;                          (* a goroutine before the abort check *)
  pushing : list PushSessionRow;
  pushed : list (PushSessionRow * SessionPushResult);      (* before the mutex *)
  skipped : list PushSessionRow;                           (* returned at the abort check *)
  reported : list PushSessionRow;                          (* in the order of the results *)
  world : World;
  results : PushResult;
  connErrors : Z;
  abortErr : option Z;
}.

Definition inFlight (p : Pool) : nat := length (starting p) + length (pushing p) + length (pushed p).

Definition startPool (sessions : list PushSessionRow) (w : World) (result : PushResult) : Pool :=
  {| waiting := sessions; starting := []; pushing := []; pushed := []; skipped := []; reported := []; world := w;
     results := result; connErrors := 0; abortErr := None |}.

(** The critical section after a push: the connection counter and the abort flag. *)
Definition nextConnErrors (n : Z) (sr : SessionPushResult) : Z :=
  if bool_decide (sr_Status sr = PushStatusError) && isConnectionError (sr_Error sr) then (n + 1)%Z
  else if decide (sr_Status sr ≠ PushStatusError) then 0%Z else n.
Definition nextAbort (n : Z) (sr : SessionPushResult) (abort : option Z) : option Z :=
  if bool_decide (sr_Status sr = PushStatusError) && isConnectionError (sr_Error sr)
     && bool_decide (connectionAbortThreshold ≤ n + 1)%Z then Some (n + 1)%Z else abort.

Variables (creds : Credentials) (c : PipelineConfig) (ans : PushSessionRow → Answers).
Variables (visibility license emit : string) (support : RemoteCapabilitySupport) (limit : Z).

(** What the scheduler lets happen next; an index picks a goroutine. *)
Inductive Event := EvStart | EvCheck (i : nat) | EvPush (i : nat) | EvReport (i : nat).

Definition step (e : Event) (p : Pool) : option Pool :=
  let 'Build_Pool wt st pg pd sk rp w r n a := p in
  match e with
  | EvStart =>
    match wt with
    | s :: wt => if decide (Z.of_nat (inFlight p) < limit)%Z then Some (Build_Pool wt (st ++ [s]) pg pd sk rp w r n a) else None
    | [] => None
    end
  | EvCheck i =>
    s ← st !! i;
    let st := delete i st in
    match a with
    | Some _ => Some (Build_Pool wt st pg pd (sk ++ [s]) rp w r n a)
    | None => Some (Build_Pool wt st (pg ++ [s]) pd sk rp w r n a)
    end
  | EvPush i =>
    s ← pg !! i;
    let '(w, sr) := pushSession creds c (ans s) s visibility license emit support w in
    Some (Build_Pool wt st (delete i pg) (pd ++ [(s, sr)]) sk rp w r n a)
  | EvReport i =>
    q ← pd !! i;
    Some (Build_Pool wt st pg (delete i pd) sk (rp ++ [q.1]) w (add_result q.2 r) (nextConnErrors n q.2) (nextAbort n q.2 a))
  end.

Fixpoint steps (es : list Event) (p : Pool) : option Pool :=
  match es with [] => Some p | e :: es => p ← step e p; steps es p end.

(** The group has returned. *)
Definition finished (p : Pool) : Prop := waiting p = [] ∧ inFlight p = O.

(** [Run] after [g.Wait]: the abort, or the reason of a run in which every session was
    skipped; the audit log that follows only warns. *)
Definition finishRun {E} (i : RunInputs E) (p : Pool) : option PushResult * option (RunError E) :=
  let r := results p in
  match abortErr p with
  | Some n => (Some r, Some (ConnectionsLost n))
  | None =>
    if decide ((0 < rs_Skipped r)%Z ∧ rs_New r = 0%Z ∧ rs_Updated r = 0%Z ∧ rs_Errors r = 0%Z ∧ rs_Held r = 0%Z) then
      (Some (set_Empty match Repository c with
                       | Some _ => emptyReason c (ri_AllPushable i) (rs_BaseCandidateCount r)
                       | None => EmptyNothingChanged
                       end r), None)
    else (Some r, None)
  end.

(** ** Counting *)

Definition add_results (l : list SessionPushResult) (r : PushResult) : PushResult := foldl (λ r sr, add_result sr r) r l.

Definition count_status (s : PushStatus) (l : list SessionPushResult) : Z := Z.of_nat (length (filter (λ sr, sr_Status sr = s) l)).

Lemma count_status_snoc s l sr : count_status s (l ++ [sr]) = (count_status s l + if decide (sr_Status sr = s) then 1 else 0)%Z.
Proof. unfold count_status. rewrite filter_app, length_app, filter_cons, filter_nil. case_decide; cbn [length]; lia. Qed.

(** The counters are the numbers of results with each status. *)
Lemma add_results_counts l r :
  let r' := add_results l r in
  rs_Sessions r' = rs_Sessions r ++ l
  ∧ rs_New r' = (rs_New r + count_status PushStatusNew l)%Z ∧ rs_Updated r' = (rs_Updated r + count_status PushStatusUpdated l)%Z
  ∧ rs_Skipped r' = (rs_Skipped r + count_status PushStatusSkipped l)%Z ∧ rs_Errors r' = (rs_Errors r + count_status PushStatusError l)%Z
  ∧ rs_Held r' = (rs_Held r + count_status PushStatusHeld l)%Z
  ∧ rs_Empty r' = rs_Empty r ∧ rs_BaseCandidateCount r' = rs_BaseCandidateCount r.
Proof.
  unfold add_results. induction l as [|sr l IH] using rev_ind; cbn zeta.
  { rewrite app_nil_r. unfold count_status. cbn. rewrite !Z.add_0_r. by split_and!. }
  rewrite foldl_snoc. destruct (foldl _ r l) as [ss n u k e h ec b]. cbn in IH. destruct IH as (-> & -> & -> & -> & -> & -> & -> & ->).
  rewrite !count_status_snoc, app_assoc. unfold add_result.
  destruct (sr_Status sr); cbn [rs_Sessions rs_New rs_Updated rs_Skipped rs_Errors rs_Held rs_Empty rs_BaseCandidateCount countStatus]; split_and!; try done.
  all: first [rewrite decide_True by done; lia | rewrite decide_False by done; lia].
Qed.

(** ** The abort on connection failures *)

Definition isConnectionFailure (sr : SessionPushResult) : Prop := sr_Status sr = PushStatusError ∧ isConnectionError (sr_Error sr) = true.
#[local] Instance isConnectionFailure_dec sr : Decision (isConnectionFailure sr).
Proof. unfold isConnectionFailure. apply _. Defined.

Definition failures (l : list SessionPushResult) : Z := Z.of_nat (length (filter isConnectionFailure l)).

(** A window of failed sessions with three connection failures among them. *)
Definition lost_connection (l : list SessionPushResult) : Prop :=
  ∃ before window after, l = before ++ window ++ after ∧ Forall (λ sr, sr_Status sr = PushStatusError) window
    ∧ (connectionAbortThreshold ≤ failures window)%Z.

(** Three consecutive connection failures. *)
Definition three_in_a_row (l : list SessionPushResult) : Prop :=
  ∃ before window after, l = before ++ window ++ after ∧ Forall isConnectionFailure window
    ∧ Z.of_nat (length window) = connectionAbortThreshold.

Definition only_connection_failures (l : list SessionPushResult) : Prop :=
  ∀ sr, sr ∈ l → sr_Status sr = PushStatusError → isConnectionFailure sr.

Lemma failures_all window : Forall isConnectionFailure window → failures window = Z.of_nat (length window).
Proof.
  unfold failures. intros Hall. induction Hall as [|sr window Hf _ IH]; [done|].
  rewrite filter_cons, decide_True by done. cbn [length]. lia.
Qed.

Lemma three_in_a_row_lost l : three_in_a_row l → lost_connection l.
Proof.
  intros (before & window & after & -> & Hall & Hlen). exists before, window, after.
  split; [done|]. split; [by eapply Forall_impl; [done|intros sr []]|]. rewrite failures_all by done. lia.
Qed.

Lemma lost_in_a_row l : only_connection_failures l → lost_connection l → three_in_a_row l.
Proof.
  intros Hony (before & window & after & -> & Hall & H3). unfold connectionAbortThreshold in *.
  assert (Forall isConnectionFailure window) as Hf.
  { rewrite Forall_forall in Hall |- *. intros sr Hsr. apply Hony; [set_solver|by apply Hall]. }
  rewrite failures_all in H3 by done. exists before, (take 3 window), (drop 3 window ++ after).
  rewrite (app_assoc (take 3 window)), take_drop. split; [done|]. split; [by apply Forall_take|].
  rewrite length_take. unfold connectionAbortThreshold. lia.
Qed.

Definition conn_count (l : list SessionPushResult) : Z := foldl nextConnErrors 0%Z l.

Lemma failures_nonneg l : (0 ≤ failures l)%Z.
Proof. unfold failures. lia. Qed.

Lemma failures_snoc l sr : failures (l ++ [sr]) = (failures l + if decide (isConnectionFailure sr) then 1 else 0)%Z.
Proof. unfold failures. rewrite filter_app, length_app, filter_cons, filter_nil. case_decide; cbn [length]; lia. Qed.

Lemma failure_test sr :
  bool_decide (sr_Status sr = PushStatusError) && isConnectionError (sr_Error sr) = bool_decide (isConnectionFailure sr).
Proof. apply eq_true_iff_eq. by rewrite andb_true_iff, !bool_decide_eq_true. Qed.

Lemma nextConnErrors_eq n sr :
  nextConnErrors n sr = if decide (isConnectionFailure sr) then (n + 1)%Z else if decide (sr_Status sr = PushStatusError) then n else 0%Z.
Proof.
  unfold nextConnErrors. rewrite failure_test. repeat case_decide; try case_bool_decide; done.
Qed.

(** The counter is the number of connection failures since the last session that did
    not fail. *)
Lemma conn_count_window l :
  ∃ before window, l = before ++ window ∧ Forall (λ sr, sr_Status sr = PushStatusError) window ∧ conn_count l = failures window
    ∧ (∀ before' window', l = before' ++ window' → Forall (λ sr, sr_Status sr = PushStatusError) window' → (failures window' ≤ failures window)%Z).
Proof.
  induction l as [|sr l (before & window & -> & Hall & Hc & Hmax)] using rev_ind.
  { exists [], []. split_and!; [done..|]. by intros [] [] [=]. }
  unfold conn_count in *. rewrite foldl_snoc, Hc, nextConnErrors_eq. destruct (decide (sr_Status sr = PushStatusError)) as [Hs|Hs].
  - exists before, (window ++ [sr]). rewrite app_assoc, failures_snoc. split_and!; [done| | |].
    + apply Forall_app. split; [done|by repeat constructor].
    + case_decide; lia.
    + intros before' window' Heq Hall'. destruct window' as [|x window' _] using rev_ind; [pose proof (failures_nonneg window); change (failures []) with 0%Z; case_decide; lia|].
      rewrite app_assoc in Heq. apply app_inj_tail in Heq as [Heq <-]. rewrite failures_snoc.
      apply Forall_app in Hall' as [Hall' _]. specialize (Hmax _ _ Heq Hall'). lia.
  - rewrite decide_False by (by intros []). exists (before ++ window ++ [sr]), []. rewrite app_nil_r, app_assoc. split_and!; [done..|].
    intros before' window' Heq Hall'. destruct window' as [|x window' _] using rev_ind; [done|].
    rewrite app_assoc in Heq. apply app_inj_tail in Heq as [_ <-]. apply Forall_app in Hall' as [_ Hx]. by inversion Hx.
Qed.

Lemma lost_connection_snoc l sr :
  lost_connection (l ++ [sr]) ↔ lost_connection l ∨ (connectionAbortThreshold ≤ conn_count (l ++ [sr]))%Z.
Proof.
  destruct (conn_count_window (l ++ [sr])) as (b & w & Heq & Hall & Hc & Hmax). split.
  - intros (before & window & after & E & Hw & H3). destruct after as [|x after _] using rev_ind.
    + right. rewrite app_nil_r in E. specialize (Hmax _ _ E Hw). lia.
    + left. rewrite !app_assoc in E. apply app_inj_tail in E as [E _]. exists before, window, after. by rewrite <-app_assoc in E.
  - intros [(before & window & after & -> & Hw & H3)|H3].
    + exists before, window, (after ++ [sr]). by rewrite <-!app_assoc.
    + exists b, w, []. rewrite app_nil_r. split_and!; [done..|]. lia.
Qed.

(** Both fields of the critical section, over the results in their order. *)
Definition section_fold (l : list SessionPushResult) : Z * option Z :=
  foldl (λ na sr, (nextConnErrors na.1 sr, nextAbort na.1 sr na.2)) (0%Z, None) l.

Lemma section_fold_spec l : (section_fold l).1 = conn_count l ∧ ((section_fold l).2 ≠ None ↔ lost_connection l).
Proof.
  induction l as [|sr l [IHc IHa]] using rev_ind.
  - split; [done|]. split; [done|]. intros ([] & [] & [] & [=] & _ & H3). by vm_compute in H3.
  - unfold section_fold, conn_count in *. rewrite !foldl_snoc. cbn. rewrite IHc. split; [done|].
    destruct (conn_count_window l) as (b & w & Hl & Hall & Hc & _).
    assert (connectionAbortThreshold ≤ conn_count l → lost_connection l)%Z as Hlong.
    { intros H3. exists b, w, []. rewrite app_nil_r. split_and!; [done..|lia]. }
    rewrite lost_connection_snoc, <-IHa. unfold conn_count in *. rewrite foldl_snoc, nextConnErrors_eq. unfold nextAbort. rewrite failure_test.
    destruct (decide (isConnectionFailure sr)) as [Hf|Hf].
    + rewrite bool_decide_eq_true_2 by done. cbn [andb]. case_bool_decide; naive_solver.
    + rewrite bool_decide_eq_false_2 by done. cbn [andb]. case_decide; [naive_solver|].
      split; [by left|]. intros [?|H3]; [done|by vm_compute in H3].
Qed.

(** ** The pool *)

Lemma uploads_app l l' : uploads (l ++ l') = (uploads l + uploads l')%nat.
Proof. induction l as [|[] l IH]; cbn; [done|by rewrite IH|done]. Qed.

(** One push uploads at most once and reports its own session. *)
Lemma pushSession_uploads sess w w' r :
  pushSession creds c (ans sess) sess visibility license emit support w = (w', r) → (uploads (calls w') ≤ S (uploads (calls w)))%nat.
Proof.
  intros [[-> _]|(_ & pr & op & fp & _ & _ & _ & _ & _ & receipt & w1 & updates & Hhow & Hc & Hshape & _)]%pushSession_inv; [lia|].
  assert (uploads updates = O) as Hu by (destruct Hshape as [->|[-> _]]; done). rewrite Hc, uploads_app, Hu.
  destruct Hhow as [(_ & _ & -> & _)|(_ & Hc1 & _)]; [lia|]. rewrite Hc1, uploads_app. cbn. lia.
Qed.

Lemma pushSession_ledger_ok sess w w' r :
  pushSession creds c (ans sess) sess visibility license emit support w = (w', r) → ledger_ok (ledger w) → ledger_ok (ledger w').
Proof.
  intros [[Hp _]|(l1 & project & receipt & [Hp _] & Hsave)]%pushSession_tables Hok; [unfold ledger_ok; by rewrite Hp|].
  eapply SavePublication_ledger_ok; [done|]. unfold ledger_ok. by rewrite Hp.
Qed.

Lemma pushSession_reports sess w w' r :
  pushSession creds c (ans sess) sess visibility license emit support w = (w', r) → sr_SessionID r = SessionID sess.
Proof.
  unfold pushSession. destruct (prepare _ _ _ _ _ _ _) as [pr|q] eqn:Ep.
  - destruct (DryRun c).
    + intros [= <- <-]. unfold forecast. by repeat case_decide.
    + unfold publish, upload, finish, first_publish, converge, save, act_bind, return_, value_, unfinishedFirstPublish. intros Hp.
      repeat (case_match; simplify_eq/=; try done).
  - intros [= <- <-]. unfold prepare, res_guard, res_bind, or_fail in Ep. repeat (case_match; simplify_eq/=; try done).
Qed.

Variables (sessions : list PushSessionRow) (w0 : World) (r0 : PushResult).

(** What every reachable pool keeps. *)
Record pool_inv (p : Pool) : Prop := {
  pi_rows : sessions ≡ₚ waiting p ++ starting p ++ pushing p ++ (fst <$> pushed p) ++ skipped p ++ reported p;
  pi_results : ∃ new, results p = add_results new r0 ∧ sr_SessionID <$> new = SessionID <$> reported p
                      ∧ (connErrors p, abortErr p) = section_fold new;
  pi_own : Forall (λ q, sr_SessionID q.2 = SessionID q.1) (pushed p);
  pi_limit : (Z.of_nat (inFlight p) ≤ limit)%Z;
  pi_skipped : abortErr p = None → skipped p = [];
  pi_uploads : (uploads (calls (world p)) ≤ uploads (calls w0) + length (pushed p) + length (reported p))%nat;
  pi_ledger : ledger_ok (ledger w0) → ledger_ok (ledger (world p));
}.

Lemma pool_inv_start : (0 ≤ limit)%Z → pool_inv (startPool sessions w0 r0).
Proof.
  intros Hl. split; cbn; [by rewrite !app_nil_r|by exists []|constructor|done|done|lia|done].
Qed.

(** Both sides list the same rows around the one that moves. *)
Ltac move_row Hrows Hdel :=
  rewrite Hrows, ?Hdel, ?fmap_app; cbn [app fmap list_fmap fst]; rewrite <-?app_assoc; cbn [app];
  rewrite <-?Permutation_middle, ?app_nil_r; reflexivity.

Lemma length_delete_some {A} (l : list A) i x : l !! i = Some x → length l = S (length (delete i l)).
Proof. intros Hl. by rewrite (delete_Permutation l i x Hl) at 1. Qed.

Lemma pool_inv_step e p p' : step e p = Some p' → pool_inv p → pool_inv p'.
Proof.
  destruct p as [wt st pg pd sk rp w r n a]. intros Hs [Hrows (new & Hr & Hids & Hfold) Hown Hlim Hsk Hup Hok]. cbn in *.
  unfold inFlight in Hlim; cbn in Hlim. destruct e as [|i|i|i].
  - destruct wt as [|s wt]; [done|]. case_decide as Hfree; [|done]. injection Hs as <-. unfold inFlight in Hfree; cbn in Hfree.
    split; cbn; [move_row Hrows Hrows|by exists new|done| |done..]. unfold inFlight; cbn. rewrite length_app. cbn. lia.
  - apply bind_Some in Hs as (s & Hi & Hs). pose proof (delete_Permutation _ _ _ Hi) as Hdel. pose proof (length_delete_some _ _ _ Hi) as Hlen.
    revert Hs Hdel Hlen. generalize (delete i st) as st'. intros st' Hs Hdel Hlen.
    destruct a as [m|]; injection Hs as <-; split; cbn; try done; try (by exists new).
    + move_row Hrows Hdel.
    + unfold inFlight; cbn. lia.
    + move_row Hrows Hdel.
    + unfold inFlight; cbn. rewrite length_app. cbn. lia.
  - apply bind_Some in Hs as (s & Hi & Hs). pose proof (delete_Permutation _ _ _ Hi) as Hdel. pose proof (length_delete_some _ _ _ Hi) as Hlen.
    revert Hs Hdel Hlen. generalize (delete i pg) as pg'. intros pg' Hs Hdel Hlen.
    destruct (pushSession _ _ _ _ _ _ _ _ _) as [w' sr] eqn:Ep. injection Hs as <-. split; cbn; [move_row Hrows Hdel|by exists new| | |done| |].
    + apply Forall_app. split; [done|]. constructor; [by eapply pushSession_reports|constructor].
    + unfold inFlight; cbn. rewrite length_app. cbn. lia.
    + apply pushSession_uploads in Ep. rewrite length_app. cbn. lia.
    + intros H0k. eapply pushSession_ledger_ok; [done|]. by apply Hok.
  - apply bind_Some in Hs as ([s sr] & Hi & Hs). pose proof (delete_Permutation _ _ _ Hi) as Hdel. pose proof (length_delete_some _ _ _ Hi) as Hlen.
    revert Hs Hdel Hlen. generalize (delete i pd) as pd'. intros pd' Hs Hdel Hlen. injection Hs as <-. cbn [fst snd] in *. split; cbn.
    + move_row Hrows Hdel.
    + exists (new ++ [sr]). rewrite !fmap_app, Hids. unfold add_results, section_fold in *. rewrite !foldl_snoc, <-Hr, <-Hfold. split; [done|].
      split; [|done]. pose proof (proj1 (Forall_lookup _ _) Hown i (s, sr) Hi) as Hid. cbn in *. by rewrite Hid.
    + by rewrite Hdel in Hown; inversion Hown.
    + unfold inFlight; cbn. lia.
    + unfold nextAbort. case_match; [done|]. done.
    + rewrite length_app. cbn. lia.
    + done.
Qed.

Lemma pool_inv_steps es p p' : steps es p = Some p' → pool_inv p → pool_inv p'.
Proof.
  revert p. induction es as [|e es IH]; cbn; intros p Hs Hp; [by injection Hs as <-|].
  apply bind_Some in Hs as (q & Hq & Hs). apply (IH q); [done|]. by eapply pool_inv_step.
Qed.

(** What is left to do: a session passes four points. *)
Definition work (p : Pool) : nat :=
  4 * length (waiting p) + 3 * length (starting p) + 2 * length (pushing p) + length (pushed p).

Lemma step_spends e p p' : step e p = Some p' → (work p' < work p)%nat.
Proof.
  destruct p as [wt st pg pd sk rp w r n a]. unfold work. destruct e as [|i|i|i]; cbn [step].
  - destruct wt as [|s wt]; [done|]. case_decide; [|done]. intros [= <-]. cbn [waiting starting pushing pushed].
    rewrite length_app. cbn [length]. lia.
  - intros (s & Hi%length_delete_some & Hs)%bind_Some. destruct a; injection Hs as <-; cbn [waiting starting pushing pushed];
      rewrite ?length_app; cbn [length]; lia.
  - intros (s & Hi%length_delete_some & Hs)%bind_Some. destruct (pushSession _ _ _ _ _ _ _ _ _). injection Hs as <-.
    cbn [waiting starting pushing pushed]. rewrite length_app. cbn [length]. lia.
  - intros (s & Hi%length_delete_some & [= <-])%bind_Some. cbn [waiting starting pushing pushed]. lia.
Qed.

(** A pool that is not finished can always move. *)
Lemma step_enabled p : (0 < limit)%Z → ¬ finished p → ∃ e p', step e p = Some p'.
Proof.
  destruct p as [wt st pg pd sk rp w r n a]. unfold finished, inFlight. cbn. intros Hl Hnot.
  destruct st as [|s st].
  2: { exists (EvCheck 0). cbn. by destruct a; eexists. }
  destruct pg as [|s pg].
  2: { exists (EvPush 0). cbn. destruct (pushSession _ _ _ _ _ _ _ _ _). by eexists. }
  destruct pd as [|q pd]; [|exists (EvReport 0); by eexists].
  destruct wt as [|s wt]; [by destruct Hnot|]. exists EvStart. cbn. unfold inFlight. cbn. rewrite decide_True by lia. by eexists.
Qed.

Lemma steps_app es es' p : steps (es ++ es') p = steps es p ≫= steps es'.
Proof. revert p. induction es as [|e es IH]; intros p; cbn; [done|]. destruct (step e p); cbn; [by rewrite IH|done]. Qed.

Lemma finishes p : (0 < limit)%Z → ∃ es p', steps es p = Some p' ∧ finished p'.
Proof.
  intros Hl. remember (work p) as n eqn:Hn. revert p Hn. induction (lt_wf n) as [n _ IH]. intros p ->.
  destruct (decide (waiting p = [] ∧ inFlight p = O)) as [Hd|Hd]; [by exists [], p|].
  destruct (step_enabled p Hl Hd) as (e & q & Hq). destruct (IH (work q) (step_spends _ _ _ Hq) q eq_refl) as (es & p' & Hs & Hf).
  exists (e :: es), p'. split; [|done]. cbn. by rewrite Hq.
Qed.

Lemma steps_work es p p' : steps es p = Some p' → (length es + work p' ≤ work p)%nat.
Proof.
  revert p. induction es as [|e es IH]; cbn [steps length]; intros p Hs; [injection Hs as <-; lia|].
  apply bind_Some in Hs as (q & Hq%step_spends & Hs%IH). lia.
Qed.

(** C11: the pool of uploads always comes to an end.  With a free slot to give, every
    schedule takes at most four steps per session, a pool that is not finished can move
    whatever was scheduled before, and so every reachable pool can be finished. *)
Theorem pool_terminates es p :
  (0 < limit)%Z → steps es (startPool sessions w0 r0) = Some p →
  (length es + work p ≤ 4 * length sessions)%nat
  ∧ (¬ finished p → ∃ e p', step e p = Some p')
  ∧ ∃ es' p', steps (es ++ es') (startPool sessions w0 r0) = Some p' ∧ finished p'.
Proof.
  intros Hl Hs. split_and!.
  - apply steps_work in Hs. unfold work at 2 in Hs. cbn [startPool waiting starting pushing pushed length] in Hs. lia.
  - by apply step_enabled.
  - destruct (finishes p Hl) as (es' & p' & Hs' & Hf). exists es', p'. split; [|done]. by rewrite steps_app, Hs.
Qed.

(** C10: the run stops for a lost connection and for nothing else.  In every reachable
    pool, of the results reported so far and in their order: three consecutive
    connection failures raise the abort; it is raised only when three sessions failed
    on the connection with no session that did not fail between them, and, where no
    session failed otherwise, only when those three are consecutive; a session is left
    out only after the abort, and no more sessions are in flight than the limit
    allows. *)
Theorem abort_exact es p :
  (0 ≤ limit)%Z → steps es (startPool sessions w0 r0) = Some p →
  ∃ new, rs_Sessions (results p) = rs_Sessions r0 ++ new
  ∧ (three_in_a_row new → abortErr p ≠ None)
  ∧ (abortErr p ≠ None → lost_connection new ∧ (only_connection_failures new → three_in_a_row new))
  ∧ (skipped p ≠ [] → abortErr p ≠ None)
  ∧ (Z.of_nat (inFlight p) ≤ limit)%Z.
Proof.
  intros Hl Hs. apply pool_inv_steps in Hs as [_ (new & Hr & _ & Hf) _ Hlim Hsk _ _]; [|by apply pool_inv_start].
  destruct (section_fold_spec new) as [_ Hab]. rewrite <-Hf in Hab. cbn in Hab. exists new.
  destruct (add_results_counts new r0) as (Hss & _). rewrite Hr. split_and!; [done| | | |done].
  - intros Hrow. by apply Hab, three_in_a_row_lost.
  - intros Ha%Hab. split; [done|]. intros Ho. by apply lost_in_a_row.
  - intros Hne Hnone. auto.
Qed.
End run.

(** The refused candidates of the preflight are counted like pushed ones. *)
Lemma refused_results refused r :
  foldl (λ r (q : PushSessionRow * LoadError), add_result (entryReadFailure q.1 q.2) r) r refused
  = add_results ((λ q, entryReadFailure q.1 q.2) <$> refused) r.
Proof. revert r. induction refused as [|q refused IH]; intros r; cbn; [done|]. by rewrite IH. Qed.

Lemma filter_split {A} (f : A → bool) (l : list A) :
  filter (λ x, f x = true) l ++ filter (λ x, f x = false) l ≡ₚ l.
Proof.
  induction l as [|x l IH]; [done|]. rewrite !filter_cons. destruct (f x); do 2 (case_decide; try done); cbn [app].
  - by rewrite IH.
  - by rewrite <-Permutation_middle, IH.
Qed.

Section whole.
Context `{RemoteLib} `{CaptureReader} `{CapabilityLib} `{SP : SchemaPublish} `{CB : !ContentBuilder}.

Lemma planRun_uploads {E} cfg c (i : RunInputs E) result sessions emit support limit :
  planRun cfg c i = Uploads result sessions emit support limit →
  DryRun c = false ∧ (0 < limit)%Z ∧ sessions ≠ []
  ∧ ∃ targets base withheld refused, getTargetSessions (ri_Candidates i) cfg c = Ok (targets, base, withheld)
    ∧ sessions ++ refused.*1 ≡ₚ targets ∧ (∀ s, s ∈ sessions → is_ok (publishable c s) = true)
    ∧ result = add_results ((λ q, entryReadFailure q.1 q.2) <$> refused) (newResult base)
    ∧ negotiate (ri_Version i) = Ok (emit, support).
Proof.
  unfold planRun. destruct (_ && _); [done|]. case_decide; [done|].
  destruct (getTargetSessions _ _ _) as [[[targets base] withheld]|e]; [|done]. case_decide; [done|].
  destruct (DryRun c); [done|]. destruct (preflight c (ri_Cancelled i) targets) as [[valid refused] stopped] eqn:Ep.
  apply preflight_from_exact in Ep as (n & v & r & _ & -> & -> & Hv & Hr & _ & Hn). destruct stopped; [done|]. subst n.
  rewrite take_ge in Hv, Hr by done. cbn [app]. case_decide as Hne; [done|]. destruct (negb _); [done|].
  destruct (negotiate _) as [[em su]|e]; [|done]. intros [= <- <- <- <- <-].
  destruct (orderForBudget_exact (ri_Deadline i) v) as (Hperm & _). split; [done|]. split.
  { unfold runConcurrency, DefaultConcurrency. case_decide; lia. }
  split. { intros Hnil. rewrite Hnil in Hperm. by apply Permutation_nil in Hperm. }
  exists targets, base, withheld, r. split; [done|]. split_and!; [| |by rewrite refused_results|done].
  - rewrite Hperm, Hv, Hr. apply (filter_split (λ s, is_ok (publishable c s))).
  - intros s Hin. rewrite Hperm, Hv in Hin. by apply list_elem_of_filter in Hin as [].
Qed.

(** C9: a run accounts for every session it set out to send.  However the uploads
    interleave, when the group has returned each target session stands exactly once
    among the results, refused by the preflight or reported by its push, or was left
    out after the connection was lost; each counter is the number of results with its
    status; there is at most one upload per reported session; and the receipts are
    still one per account and transcript. *)
Theorem run_accounts_for_every_target {E} creds cfg c ans (i : RunInputs E) result sessions emit support limit visibility license es w p :
  planRun cfg c i = Uploads result sessions emit support limit →
  steps creds c ans visibility license emit support limit es (startPool sessions w result) = Some p → finished p →
  (∃ targets base withheld, getTargetSessions (ri_Candidates i) cfg c = Ok (targets, base, withheld)
    ∧ (sr_SessionID <$> rs_Sessions (results p)) ++ (SessionID <$> skipped p) ≡ₚ SessionID <$> targets)
  ∧ (abortErr p = None → skipped p = [])
  ∧ rs_New (results p) = count_status PushStatusNew (rs_Sessions (results p))
  ∧ rs_Updated (results p) = count_status PushStatusUpdated (rs_Sessions (results p))
  ∧ rs_Skipped (results p) = count_status PushStatusSkipped (rs_Sessions (results p))
  ∧ rs_Errors (results p) = count_status PushStatusError (rs_Sessions (results p))
  ∧ rs_Held (results p) = count_status PushStatusHeld (rs_Sessions (results p))
  ∧ (uploads (calls (world p)) ≤ uploads (calls w) + length (reported p))%nat
  ∧ (ledger_ok (ledger w) → ledger_ok (ledger (world p))).
Proof.
  intros (Hdry & Hlim & _ & targets & base & withheld & refused & Ht & Hperm & _ & -> & _)%planRun_uploads Hs [Hwait Hfl].
  pose proof Hs as Hs'. apply pool_inv_steps with (sessions := sessions) (w0 := w) (r0 := add_results ((λ q, entryReadFailure q.1 q.2) <$> refused) (newResult base)) in Hs' as [Hrows (new & Hr & Hids & _) _ _ Hsk Hup Hok];
    [|apply pool_inv_start; lia].
  assert (starting p = [] ∧ pushing p = [] ∧ pushed p = []) as (Est & Epg & Epd).
  { unfold inFlight in Hfl. destruct (starting p), (pushing p), (pushed p); cbn in Hfl; try lia; done. }
  rewrite Hwait, Est, Epg, Epd in Hrows. cbn in Hrows. rewrite Epd in Hup. cbn in Hup. rewrite Nat.add_0_r in Hup.
  assert (results p = add_results (((λ q, entryReadFailure q.1 q.2) <$> refused) ++ new) (newResult base)) as Hall.
  { rewrite Hr. unfold add_results. by rewrite foldl_app. }
  destruct (add_results_counts (((λ q, entryReadFailure q.1 q.2) <$> refused) ++ new) (newResult base)) as (Hss & Hn & Hu & Hk & He & Hh & _).
  rewrite Hall. cbn [newResult rs_Sessions rs_New rs_Updated rs_Skipped rs_Errors rs_Held app] in *. rewrite Hss.
  split_and!; try done; try (rewrite ?Hn, ?Hu, ?Hk, ?He, ?Hh; lia).
  exists targets, base, withheld. split; [done|]. rewrite <-Hperm, fmap_app, fmap_app, Hids, Hrows, fmap_app, <-list_fmap_compose.
  rewrite (list_fmap_ext (sr_SessionID ∘ (λ q : PushSessionRow * LoadError, entryReadFailure q.1 q.2)) (SessionID ∘ fst)) by done.
  rewrite list_fmap_compose, Permutation_app_comm, (Permutation_app_comm (SessionID <$> refused.*1)). by rewrite app_assoc.
Qed.
End whole.

(** ** Concrete runs *)

Definition demoInputs : RunInputs string :=
  {| ri_Candidates := Ok [demoRow "s" 1; demoRow "late" 2]; ri_AllPushable := Ok [demoRow "s" 1; demoRow "late" 2];
     ri_Cancelled := λ _, false; ri_AccountUnchanged := true; ri_Version := Some None; ri_Deadline := false |}.

(** One session at a time. *)
Definition oneByOne (n : nat) : list Event := mjoin (replicate n [EvStart; EvCheck 0; EvPush 0; EvReport 0]).

(** A village that cannot be reached. *)
Definition deadAnswers : @Answers demoSchema :=
  @Build_Answers demoSchema (λ _, PublishFailed 0 "dial tcp: connection refused") (λ _ _, Err "i/o timeout")
    (true, true, true) true false false false false false 7.

Definition demoNoReceiver : CapabilityLib :=
  {| MissingContentCapabilities := λ _ _, []; KnownContentCapabilities := λ _, [] |}.

Definition demoPool (ans : @Answers demoSchema) (rows : list PushSessionRow) (result : PushResult) (es : list Event) : option (@Pool demoSchema) :=
  steps (H := plainRemotes) (H0 := demoReader) (H1 := demoNoReceiver) (CB := demoBuilder) demoCreds demoPlain (λ _, ans) VisibilityPublic "mit" "0.1.1" demoSupport
    2 es (startPool rows demoWorld result).

Lemma pool_terminates_witness :
  ∃ es p, demoPool deadAnswers [demoRow "a" 1; demoRow "b" 1] (newResult 2) (EvStart :: EvStart :: EvCheck 1 :: es) = Some p ∧ finished p.
Proof.
  destruct (pool_terminates (H := plainRemotes) (H0 := demoReader) (H1 := demoNoReceiver) (CB := demoBuilder) demoCreds demoPlain (λ _, deadAnswers)
    VisibilityPublic "mit" "0.1.1" demoSupport 2 [demoRow "a" 1; demoRow "b" 1] demoWorld (newResult 2) [EvStart; EvStart; EvCheck 1] _ eq_refl eq_refl)
    as (_ & _ & es & p & Hs & Hf).
  exists es, p. split; [exact Hs|exact Hf].
Defined.

Lemma abort_exact_witness :
  ∃ p, demoPool deadAnswers (demoRow "a" 1 :: demoRow "b" 1 :: demoRow "c" 1 :: [demoRow "d" 1]) (newResult 4)
         (oneByOne 3 ++ [EvStart; EvCheck 0]) = Some p
    ∧ skipped p = [demoRow "d" 1] ∧ three_in_a_row (rs_Sessions (results p)) ∧ abortErr p ≠ None.
Proof.
  destruct (demoPool deadAnswers (demoRow "a" 1 :: demoRow "b" 1 :: demoRow "c" 1 :: [demoRow "d" 1]) (newResult 4) (oneByOne 3 ++ [EvStart; EvCheck 0]))
    as [p|] eqn:E; [|vm_compute in E; discriminate].
  assert (Some (skipped p, rs_Sessions (results p)) = Some ([demoRow "d" 1], (λ id, failed (demoRow id 1) (UploadFailed false) "dial tcp: connection refused" []) <$> ["a"; "b"; "c"])) as [= Hsk Hss].
  { change (Some (skipped p, rs_Sessions (results p))) with ((λ p, (skipped p, rs_Sessions (results p))) <$> Some p). rewrite <-E. vm_compute. reflexivity. }
  exists p. split; [reflexivity|]. split; [exact Hsk|].
  destruct (abort_exact _ _ _ _ _ _ _ 2 _ _ _ _ p ltac:(lia) E) as (new & Hn & Habort & _).
  assert (three_in_a_row (rs_Sessions (results p))) as Hrow.
  { rewrite Hss. eexists [], _, []. rewrite app_nil_r. split; [reflexivity|]. split; [by repeat constructor|reflexivity]. }
  split; [exact Hrow|]. apply Habort. cbn in Hn. by rewrite <-Hn.
Defined.

Definition noReceiver : RemoteCapabilitySupport := {| Capabilities := []; Known := false; Unavailable := false |}.

Definition demoUploads : option (@Pool demoSchema) :=
  match planRun (H := plainRemotes) (H0 := demoReader) demoPush demoPlain demoInputs with
  | Uploads result sessions emit support limit =>
    steps (H := plainRemotes) (H0 := demoReader) (H1 := demoNoReceiver) (CB := demoBuilder) demoCreds demoPlain (λ _, demoAnswers true true)
      VisibilityPublic "mit" emit support limit (oneByOne 1) (startPool sessions demoWorld result)
  | _ => None
  end.

(** One session is published, the other one is refused by the preflight. *)
Lemma run_accounts_for_every_target_witness :
  ∃ p, demoUploads = Some p ∧ rs_New (results p) = 1%Z ∧ rs_Errors (results p) = 1%Z
    ∧ (sr_SessionID <$> rs_Sessions (results p)) ++ (SessionID <$> skipped p) ≡ₚ ["s"; "late"].
Proof.
  assert ((λ p, (waiting p, inFlight p, rs_New (results p), rs_Errors (results p))) <$> demoUploads = Some ([], O, 1%Z, 1%Z)) as Hp
    by (vm_compute; reflexivity).
  destruct demoUploads as [p|] eqn:E; [|discriminate Hp]. exists p. split; [reflexivity|]. injection Hp as Hwait Hfl Hn1 He1.
  destruct (run_accounts_for_every_target (H := plainRemotes) (H0 := demoReader) (H1 := demoNoReceiver) (CB := demoBuilder) demoCreds demoPush demoPlain
    (λ _, demoAnswers true true) demoInputs _ _ _ _ _ VisibilityPublic "mit" (oneByOne 1) demoWorld p eq_refl E (conj Hwait Hfl))
    as ((targets & base & withheld & Ht & Hperm) & _).
  split; [exact Hn1|]. split; [exact He1|]. rewrite Hperm. vm_compute in Ht. injection Ht as <- _ _. reflexivity.
Defined.

(** The count of connection failures is documented as a count of consecutive ones, but
    a session that failed for another reason neither ends nor counts in it. *)
Example failures_counted_across :
  let lost := failed (demoRow "a" 1) (UploadFailed false) "dial tcp: connection refused" [] in
  let other := failed (demoRow "b" 1) ContentInvalid "" [] in
  section_fold [lost; other; lost; other; lost] = (3%Z, Some 3%Z).
Proof. reflexivity. Qed.

(** A run whose pinned sessions exclude every candidate says that nothing changed. *)
Example pinned_out_reads_as_unchanged :
  let c := {| DryRun := false; Force := false; SourceProvider := ""; Visibility_ := ""; ChangeVisibility := false; License := "";
              ChangeLicense := false; Concurrency := 0; FilterSessionIDs := []; PinnedSessionIDs := Some ∅; UpdateHold := None;
              Selection := None; InheritSelection := ∅; Repository := None; LastGood := false |} in
  planRun (H := plainRemotes) (H0 := demoReader) demoPush c demoInputs
  = Returns (Some (set_Empty EmptyNothingChanged (newResult 2))) None.
Proof. reflexivity. Qed.
