(* ===== verification/HookScript.v ===== *)
(** * Generated Git hooks: the text Peasant writes and reads back

    [src/internal/githooks/script.go] with the events, bindings and warnings of
    [githooks.go] it uses: the upload invocation as a token list rendered for a
    shell or as an argument list, the generated hook and the by-hand section
    filled from their templates, the framing that decides ownership, and the
    facts read back out of a hook.  Error values keep the return statement they
    come from, not their prose. *)
From stdpp Require Import pretty.
From S2P Require Import Prelude GoStrings GoText AutoPublish.
From Stdlib Require Import Ascii.
Local Open Scope string_scope.
Local Open Scope list_scope.

(** ** Events and bindings *)

Definition EventPostCommit : string := "post-commit".
Definition EventPrePush : string := "pre-push".

Definition Event_Validate (e : string) : bool := bool_decide (e ∈ AllEvents).

Definition Timing (e : string) : string :=
  if decide (e = EventPostCommit) then "after the commit has been created"
  else if decide (e = EventPrePush) then "before the push starts, while Git has not contacted the remote yet"
  else "at an unsupported point".

Definition Impact (e : string) : string :=
  if decide (e = EventPostCommit) then "the commit is already recorded and is not changed"
  else if decide (e = EventPrePush) then "the push itself is unaffected and carries on"
  else "the Git operation is unaffected".

Definition DefaultUploadBudget : Z := 5000000000.

Record Binding := {
  RequireAutoPublishRule : bool;
  AutoPublishEvent : string;
  ConfigPath : string;
  ConfigDir : string;
  DataDir : string;
  StateDir : string;
  Timeout : Z;
}.

Definition forEvent (b : Binding) (event : string) : Binding :=
  if RequireAutoPublishRule b then
    {| RequireAutoPublishRule := true; AutoPublishEvent := event; ConfigPath := ConfigPath b;
       ConfigDir := ConfigDir b; DataDir := DataDir b; StateDir := StateDir b; Timeout := Timeout b |}
  else b.

Definition UploadBudget (b : Binding) : Z :=
  if decide (0 < Timeout b)%Z then Timeout b else DefaultUploadBudget.

(** ** Invocations *)

Record token := { value : string; quoted : bool }.
Definition bare (v : string) : token := {| value := v; quoted := false |}.
Definition quoted_ (v : string) : token := {| value := v; quoted := true |}.

Definition bound_flag (flag v : string) : list token :=
  if decide (v ≠ "") then [bare flag; quoted_ v] else [].

Definition boundTokens (b : Binding) : list token :=
  [bare "peasant"] ++ bound_flag "--config" (ConfigPath b) ++ bound_flag "--config-dir" (ConfigDir b)
  ++ bound_flag "--data-dir" (DataDir b) ++ bound_flag "--state-dir" (StateDir b).

Definition uploadTokens (root : string) (b : Binding) : list token :=
  boundTokens b
  ++ [bare "village"; bare "push"; bare "--non-interactive"; bare "--quiet";
      bare "--timeout"; bare (Duration_String (UploadBudget b))]
  ++ (if RequireAutoPublishRule b then
        bare "--require-auto-publish-rule"
        :: (if decide (AutoPublishEvent b ≠ "") then [bare "--auto-publish-event"; bare (AutoPublishEvent b)] else [])
      else [])
  ++ (if decide (root ≠ "") then [bare "--repository"; quoted_ root] else []).

(** [ShellQuote] and [shellUnquote]. *)
Definition quote_escape : string := "'\''".
Definition ShellQuote (s : string) : string := "'" +:+ ReplaceAll s "'" quote_escape +:+ "'".

Definition shellUnquote (s : string) : string :=
  if decide (String.length s < 2)%nat then s
  else if HasPrefix s "'" && HasSuffix s "'" then
    ReplaceAll (str_drop 1 (str_take (String.length s - 1) s)) quote_escape "'"
  else s.

Definition render_token (t : token) : string := if quoted t then ShellQuote (value t) else value t.
Definition renderShell (tokens : list token) : string := String.concat " " (render_token <$> tokens).
Definition renderArgv (tokens : list token) : list string := value <$> tokens.

Definition CommandPrefix (b : Binding) : string := renderShell (boundTokens b).
Definition CommandLine (b : Binding) : string := renderShell (uploadTokens "" b).
Definition RepositoryCommand (root : string) (b : Binding) : string := renderShell (uploadTokens root b).
Definition RepositoryArgv (root : string) (b : Binding) : list string := renderArgv (uploadTokens root b).

Definition manualTokens (root : string) (b : Binding) : list token :=
  boundTokens b ++ [bare "village"; bare "push"]
  ++ (if decide (root ≠ "") then [bare "--repository"; quoted_ root] else []).
Definition ManualCommand (root : string) (b : Binding) : string := renderShell (manualTokens root b).

Definition statusTokens (root : string) (b : Binding) : list token :=
  boundTokens b ++ [bare "village"; bare "hooks"; bare "status"; bare "--dir"; quoted_ root].
Definition StatusCommandWithBinding (root : string) (b : Binding) : string := renderShell (statusTokens root b).

Definition uninstallTokens (event root : string) (b : Binding) : list token :=
  boundTokens b ++ [bare "village"; bare "hooks"; bare "uninstall"; bare "--event"; bare event;
                    bare "--dir"; quoted_ root].
Definition UninstallCommandWithBinding (event root : string) (b : Binding) : string :=
  renderShell (uninstallTokens event root b).

Definition installTokens (event root : string) (b : Binding) : list token :=
  boundTokens b ++ [bare "village"; bare "hooks"; bare "install"; bare "--event"; bare event;
                    bare "--dir"; quoted_ root].
Definition InstallCommandWithBinding (event root : string) (b : Binding) : string :=
  renderShell (installTokens event root b).

Definition budgetTokens (event root : string) (budget : Z) (b : Binding) : list token :=
  installTokens event root b ++ [bare "--timeout"; bare (Duration_String budget)].
Definition InstallCommandWithBudget (event root : string) (budget : Z) (b : Binding) : string :=
  renderShell (budgetTokens event root budget b).

Definition ManualRecovery (root : string) (b : Binding) : string :=
  "cd " +:+ ShellQuote root +:+ " && " +:+ ManualCommand root b.

(** ** Markers *)

Definition scriptShebang : string := "#!/bin/sh".
Definition ScriptMarkerBegin : string := "# BEGIN GENERATED FROM peasant village hooks".
Definition ScriptMarkerEnd : string := "# END GENERATED FROM peasant village hooks".
Definition ManualMarkerPrefix : string := "# BEGIN peasant village upload".
Definition headerCommandPrefix : string := "#   command    : ".
Definition embeddedRepositoryAssignment : string := "peasant_hook_repository=".
Definition binarySniffLimit : nat := 512.

Definition posixShellCommands : list string :=
  ["sh"; "bash"; "dash"; "ash"; "busybox"; "ksh"; "ksh93"; "mksh"; "pdksh"; "zsh"].

Inductive HookLanguage := LangUnclassified | LangPOSIXShell | LangOther | LangBinary.
#[export] Instance HookLanguage_eq_dec : EqDecision HookLanguage.
Proof. solve_decision. Defined.

(** The first argument of [env] that is neither an option nor an assignment. *)
Fixpoint env_argument (args : list string) : option string :=
  match args with
  | [] => None
  | a :: args => if HasPrefix a "-" || Contains a "=" then env_argument args else Some (Base a)
  end.

Definition ClassifyHookLanguage (content : string) : HookLanguage * string :=
  let head := str_take binarySniffLimit content in
  if ContainsByte head "000" then (LangBinary, "")
  else
    let shebang := default "" (split_on nl (unixLines head) !! 0) in
    match cut_prefix "#!" shebang with
    | None => (LangPOSIXShell, "")
    | Some rest =>
      match Fields rest with
      | [] => (LangPOSIXShell, "")
      | first :: args =>
        let name := Base first in
        let name := if decide (name = "env") then default name (env_argument args) else name in
        if decide (Base first = "env" ∧ name = "env") then (LangOther, "env")
        else if decide (name ∈ posixShellCommands) then (LangPOSIXShell, name)
        else (LangOther, name)
      end
    end.

Definition ContainsManualSection (content : string) : bool := Contains content ManualMarkerPrefix.
Definition ContainsGeneratedSection (content : string) : bool := Contains content ScriptMarkerBegin.

Definition scriptLines (content : string) : list string :=
  split_on nl (unixLines content).

Definition blank (line : string) : bool := bool_decide (TrimSpace line = "").

(** The loop that drops trailing blank lines, on the reversed list. *)
Fixpoint drop_blank (lines : list string) : list string :=
  match lines with
  | [] => []
  | l :: lines' => if blank l then drop_blank lines' else lines
  end.

Definition IsManaged (content : string) : bool :=
  let lines := rev (drop_blank (rev (scriptLines content))) in
  bool_decide (3 ≤ length lines)%nat
  && bool_decide (lines !! 0 = Some scriptShebang)
  && bool_decide (lines !! 1 = Some ScriptMarkerBegin)
  && bool_decide (last lines = Some ScriptMarkerEnd).

(** The value of the first line that has the prefix. *)
Fixpoint first_value (prefix : string) (lines : list string) : option string :=
  match lines with
  | [] => None
  | l :: lines => match cut_prefix prefix l with Some v => Some v | None => first_value prefix lines end
  end.

Definition EmbeddedRepository (content : string) : string :=
  default "" (shellUnquote <$> first_value embeddedRepositoryAssignment (scriptLines content)).
Definition EmbeddedCommand (content : string) : string :=
  default "" (TrimSpace <$> first_value headerCommandPrefix (scriptLines content)).

(** ** Templates *)

(** A template is written here with a tilde for the double quote; neither
    template contains a tilde. *)
Fixpoint quotes (s : string) : string :=
  match s with
  | EmptyString => ""
  | String c s => String (if decide (c = "~"%char) then "034" else c) (quotes s)
  end.

Definition scriptTemplate : string := Eval vm_compute in quotes
"#!/bin/sh
# BEGIN GENERATED FROM peasant village hooks
#
# Peasant generated this file. It uploads this repository's recorded sessions to
# your village, and does nothing else.
#
#   event      : {{EVENT}}
#   timing     : git runs it {{TIMING}}
#   repository : {{ROOT}}
#   hook file  : {{PATH}}
#   command    : {{SCOPED_COMMAND}}
#
# The scope is a project identity, not a path. When this repository has an origin
# remote peasant can normalize, the identity is derived from it and every clone
# of that remote resolves to the same scope. Otherwise - no origin remote, or an
# origin that is not a network remote, such as a local path or a file:// URL -
# the identity is the worktree path the sessions were recorded in, which belongs
# to this directory alone. Run the inspect command below to see which of the two
# this repository actually uses.
#
# The command runs non-interactively, so it answers on your behalf every
# confirmation it would otherwise ask you for, including the one about who can
# see a published session. It does not decide that here: the upload resolves who
# can see a session when it runs, and prints what it actually applied. That
# output is the only statement of it that cannot be out of date - this file was
# written once, when the hook was installed, and your configuration can change
# afterwards without it.
#
# The upload is synchronous: it needs network access and a valid village login,
# and it adds its own latency to the git command. It never blocks git, because
# this file always exits 0 and a failed upload only prints a warning.
#
# The whole upload is capped at {{BUDGET}} so a village that stops answering cannot
# hold git up. Giving up is a warning, not a failure, and the next commit or push
# tries again. If an upload genuinely needs longer - a large first push - run it
# once by hand without the time budget (the same bound paths, without the flags
# that exist only for a hook):
#
#   cd {{ROOT_Q}} && {{MANUAL_COMMAND}}
#
#   inspect   : {{STATUS}}
#   uninstall : {{UNINSTALL}}
#
# Do not edit this file by hand. 'peasant village hooks' rewrites or removes it
# only while its first two lines and its last line are still intact.

set -u
{{STDIN}}
peasant_hook_event={{EVENT_Q}}
peasant_hook_repository={{ROOT_Q}}
peasant_hook_file={{PATH_Q}}
peasant_hook_timing={{TIMING_Q}}
peasant_hook_impact={{IMPACT_Q}}
peasant_hook_command_prefix={{COMMAND_PREFIX_Q}}
peasant_hook_uninstall={{UNINSTALL_Q}}
peasant_hook_recovery={{RECOVERY_Q}}

# Quote a path discovered at runtime as one POSIX shell argument. The repository
# known at install time was quoted by the Go builder; this is only for the new
# root Git reports after that original path has moved.
#
# It closes over every embedded quote with parameter expansion and a case test -
# both shell builtins - rather than piping through sed. sed is a separate program
# that has to be found on PATH, and when it is not, the substitution yields
# NOTHING: the commands below then read --dir '' and cannot work, which is
# exactly the state a user reaches after renaming their repository and the one
# moment these commands exist for. A builtin cannot go missing.
peasant_hook_quote() {
	peasant_hook_quote_rest=$1
	peasant_hook_quote_done=''
	while :; do
		case $peasant_hook_quote_rest in
		*\'*)
			# End the open quote, emit an escaped quote, reopen: '\''
			peasant_hook_quote_done=~$peasant_hook_quote_done${peasant_hook_quote_rest%%\'*}'\\''~
			peasant_hook_quote_rest=${peasant_hook_quote_rest#*\'}
			;;
		*)
			printf ~'%s'~ ~$peasant_hook_quote_done$peasant_hook_quote_rest~
			return 0
			;;
		esac
	done
}

# $3 is what the failure means for the village. It is a parameter because a
# non-zero exit does NOT imply nothing was published: an upload can succeed and
# the run still fail afterwards, and the budget message peasant prints above says
# so itself. Asserting 'nothing reached the village' there contradicted peasant's
# own output three lines earlier.
peasant_hook_warn() {
	printf 'peasant: peasant online upload did not complete\n' >&2
	printf '  what  : %s\n' ~$1~ >&2
	printf '  why   : %s\n' ~$2~ >&2
	printf '  where : repository %s, hook %s\n' ~$peasant_hook_repository~ ~$peasant_hook_file~ >&2
	printf '  when  : %s (%s)\n' ~$peasant_hook_timing~ ~$peasant_hook_event~ >&2
	printf '  means : %s, and %s\n' ~$3~ ~$peasant_hook_impact~ >&2
	printf '  fix   : %s\n' ~$4~ >&2
	printf '  stop  : %s\n' ~$peasant_hook_uninstall~ >&2
}

# Every command this hook prints is rendered against the repository pinned above,
# because that is the only path it knew at install time. If that directory is
# gone the repository was moved or renamed, and all three - where, fix, and the
# uninstall escape hatch - name a directory that does not exist, so following any
# of them fails. Ask git where the worktree is NOW and re-point them.
#
# A linked worktree is not this case: it runs its main worktree's hooks
# directory, and that main worktree is still there, so this test is false and
# nothing below changes.
if [ ! -d ~$peasant_hook_repository~ ]; then
	peasant_hook_root_now=$(git rev-parse --show-toplevel 2>/dev/null) || peasant_hook_root_now=''
	if [ -n ~$peasant_hook_root_now~ ]; then
		peasant_hook_root_now_q=$(peasant_hook_quote ~$peasant_hook_root_now~)
		peasant_hook_uninstall=~$peasant_hook_command_prefix village hooks uninstall --event $peasant_hook_event --dir $peasant_hook_root_now_q~
		peasant_hook_warn \
			~the repository this hook was installed for is not at $peasant_hook_repository any more~ \
			~it was moved or renamed; this hook pins its upload to that old path, and git resolves this worktree as $peasant_hook_root_now~ \
			'nothing reached peasant online: the upload was not attempted, because the repository it names is not there' \
			~refresh this hook against where the repository is now: $peasant_hook_command_prefix village hooks install --event $peasant_hook_event --dir $peasant_hook_root_now_q~
	else
		peasant_hook_warn \
			~the repository this hook was installed for is not at $peasant_hook_repository any more~ \
			'it was moved or renamed, and git could not name the worktree this hook is running in either' \
			'nothing reached peasant online: the upload was not attempted, because the repository it names is not there' \
			~cd into the repository and refresh this hook there: $peasant_hook_command_prefix village hooks install --event $peasant_hook_event --dir .~
	fi
	exit 0
fi

if ! command -v peasant >/dev/null 2>&1; then
	peasant_hook_warn \
		'the peasant command was not found' \
		'git ran this hook with a PATH that does not contain the peasant binary' \
		'nothing reached peasant online, because the upload never started' \
		~install peasant or put it on the PATH git uses, then retry with: $peasant_hook_recovery~
	exit 0
fi

{{SCOPED_COMMAND}} </dev/null
peasant_hook_status=$?
if [ ~$peasant_hook_status~ -ne 0 ]; then
	# peasant exits {{NOTHING_ATTEMPTED}} when it failed before making a single village
	# request - an expired login is the common one. Claiming that ~whatever
	# finished is on the village and is recorded as published~ there describes an
	# upload that never started.
	if [ ~$peasant_hook_status~ -eq {{NOTHING_ATTEMPTED}} ]; then
		peasant_hook_meaning='nothing reached peasant online: the upload never started, so nothing was published and nothing was recorded as published'
	else
		peasant_hook_meaning='whatever the upload finished before it stopped is on peasant online and is recorded as published; the peasant output above says what did and did not get through'
	fi
	peasant_hook_warn \
		~the peasant online upload command exited $peasant_hook_status~ \
		'the upload failed, most often an expired peasant online login, no network, or a rejected payload' \
		~$peasant_hook_meaning~ \
		~retry by hand with this exact bound command - it runs without this hook's quiet output and without its time budget, so it prints the full result and is not cut off (add --verbose for per-session detail, and run peasant village login first if the login expired): $peasant_hook_recovery~
fi

exit 0
# END GENERATED FROM peasant village hooks
".

Definition manualTemplate : string := Eval vm_compute in quotes
"# BEGIN peasant village upload ({{EVENT}}) -- added by hand, not managed by peasant
# Add this to {{PATH}}, as the last thing that runs: put it at the end of the
# file, or directly above a final 'exit' line if the file has one, because
# nothing below an 'exit' ever runs.
# Wherever you put it, it does not change what your hook reports to git: it
# always succeeds itself, and then restores the status your own commands left.
peasant_hook_previous_status=$?
{{STDIN_NOTE}}(
	if command -v peasant >/dev/null 2>&1; then
		{{SCOPED_COMMAND}} </dev/null \
			|| printf 'peasant: peasant online upload failed for %s ({{EVENT}}); {{IMPACT}}; retry by hand with: %s\n' {{ROOT_Q}} {{RECOVERY_Q}} >&2
	else
		printf 'peasant: the peasant command is not on PATH, peasant online upload skipped for %s ({{EVENT}})\n' {{ROOT_Q}} >&2
	fi
) || true
# Restore the status your commands left, in a subshell: a bare 'exit' here would
# make every line below this section unreachable.
(exit ~$peasant_hook_previous_status~)
# END peasant village upload ({{EVENT}})
".

Definition stdinSection (event : string) : string :=
  if decide (event ≠ EventPrePush) then "" else
"
# git streams the refs being pushed on this hook's stdin. Drain them so git
# is never left writing into a pipe nobody reads.
while read -r peasant_hook_pushed_ref; do :; done
".

Definition stdinNote (event : string) : string :=
  if decide (event ≠ EventPrePush) then "" else
"# Your pre-push hook receives the refs being pushed on stdin. If your own
# commands read them, add this section after that read.
".

Definition ExitNothingAttempted : string := "3".

(** ** Rendering *)

Inductive HookError :=
  | UnsupportedEvent
  | UnembeddableValue (field : string)
  | NegativeBudget
  | MissingRootOrPath.

Definition unembeddable : string := String "010" (String "013" (String "000" "")).

Definition script_fields (root path : string) (b : Binding) : list (string * string) :=
  [("repository root", root); ("hook path", path); ("--config", ConfigPath b);
   ("--config-dir", ConfigDir b); ("--data-dir", DataDir b); ("--state-dir", StateDir b)].

Definition validateScriptInputs (event root path : string) (b : Binding) : result HookError unit :=
  require Event_Validate event else UnsupportedEvent in
  let? _u := res_iter (λ _ f, require negb (ContainsAny f.2 unembeddable) else UnembeddableValue f.1 in Ok tt)
               O (script_fields root path b) in
  require bool_decide (0 ≤ Timeout b)%Z else NegativeBudget in
  require negb (blank root || blank path) else MissingRootOrPath in Ok tt.

Definition script_values (event root path : string) (b : Binding) : list (string * string) :=
  [("{{EVENT}}", event);
   ("{{EVENT_Q}}", ShellQuote event);
   ("{{TIMING}}", Timing event);
   ("{{TIMING_Q}}", ShellQuote (Timing event));
   ("{{IMPACT_Q}}", ShellQuote (Impact event));
   ("{{ROOT}}", root);
   ("{{ROOT_Q}}", ShellQuote root);
   ("{{PATH}}", path);
   ("{{PATH_Q}}", ShellQuote path);
   ("{{SCOPED_COMMAND}}", RepositoryCommand root b);
   ("{{MANUAL_COMMAND}}", ManualCommand root b);
   ("{{RECOVERY_Q}}", ShellQuote (ManualRecovery root b));
   ("{{COMMAND_PREFIX_Q}}", ShellQuote (CommandPrefix b));
   ("{{BUDGET}}", Duration_String (UploadBudget b));
   ("{{STATUS}}", StatusCommandWithBinding root b);
   ("{{UNINSTALL}}", UninstallCommandWithBinding event root b);
   ("{{UNINSTALL_Q}}", ShellQuote (UninstallCommandWithBinding event root b));
   ("{{NOTHING_ATTEMPTED}}", ExitNothingAttempted);
   ("{{STDIN}}", stdinSection event)].

Definition Script (event root path : string) (b : Binding) : result HookError string :=
  let b := forEvent b event in
  let? _u := validateScriptInputs event root path b in
  Ok (Replace (script_values event root path b) scriptTemplate).

Definition manual_values (event root path : string) (b : Binding) : list (string * string) :=
  [("{{EVENT}}", event);
   ("{{IMPACT}}", Impact event);
   ("{{ROOT}}", root);
   ("{{ROOT_Q}}", ShellQuote root);
   ("{{PATH}}", path);
   ("{{SCOPED_COMMAND}}", RepositoryCommand root b);
   ("{{RECOVERY_Q}}", ShellQuote (ManualRecovery root b));
   ("{{STDIN_NOTE}}", stdinNote event)].

Definition ManualSnippet (event root path : string) (b : Binding) : result HookError string :=
  let b := forEvent b event in
  let? _u := validateScriptInputs event root path b in
  Ok (Replace (manual_values event root path b) manualTemplate).

(** ** Quoting *)

Definition quote_pairs : list (string * string) := [("'", quote_escape)].

Lemma ReplaceAll_quote_cons c s :
  ReplaceAll (String c s) "'" quote_escape
  = (if decide (c = "'"%char) then quote_escape else str1 c) +:+ ReplaceAll s "'" quote_escape.
Proof.
  unfold ReplaceAll, Replace. cbn [replace_from first_match fst]. unfold HasPrefix. cbn [cut_prefix].
  destruct (decide ("'"%char = c)) as [<-|Hc]; [by rewrite decide_True|]. by rewrite decide_False by congruence.
Qed.

Lemma ReplaceAll_unquote s :
  ReplaceAll (ReplaceAll s "'" quote_escape) quote_escape "'" = s.
Proof.
  induction s as [|c s IH]; [done|]. rewrite ReplaceAll_quote_cons.
  destruct (decide (c = "'"%char)) as [->|Hc].
  - unfold ReplaceAll at 1, Replace. unfold quote_escape at 2. cbn [replace_from first_match fst].
    change (String "'" (String "\" (String "'" (String "'" ""))) +:+ ReplaceAll s "'" quote_escape)
      with (String "'" (String "\" (String "'" (String "'" (ReplaceAll s "'" quote_escape))))).
    cbn. f_equal. exact IH.
  - change (str1 c +:+ ?t) with (String c t). unfold ReplaceAll at 1, Replace. cbn [replace_from first_match fst].
    assert (HasPrefix (String c (ReplaceAll s "'" quote_escape)) quote_escape = false) as ->
      by (unfold HasPrefix, quote_escape; cbn [cut_prefix]; by rewrite decide_False by congruence).
    f_equal. exact IH.
Qed.

Lemma HasSuffix_app s t : HasSuffix (s +:+ t) t = true.
Proof. unfold HasSuffix. rewrite str_rev_app. apply HasPrefix_app. Qed.

Lemma ShellQuote_alt s : ShellQuote s = ("'" +:+ ReplaceAll s "'" quote_escape) +:+ "'".
Proof. done. Qed.

Lemma shellUnquote_quote s : shellUnquote (ShellQuote s) = s.
Proof.
  rewrite ShellQuote_alt. unfold shellUnquote. rewrite HasSuffix_app, str_length_app, str_app_assoc, HasPrefix_app.
  rewrite decide_False by (change (String.length "'") with 1%nat; rewrite str_length_app; cbn; lia).
  rewrite <-str_app_assoc. change (String.length "'") with 1%nat. rewrite Nat.add_sub, str_take_all.
  change (str_drop 1 ("'" +:+ ?q)) with (str_drop 0 q). cbn [andb].
  assert (∀ q, str_drop 0 q = q) as -> by by destruct q. apply ReplaceAll_unquote.
Qed.

Lemma ReplaceAll_quote_free c s : c ≠ "'"%char → c ≠ "\"%char → byte_free c s → byte_free c (ReplaceAll s "'" quote_escape).
Proof.
  intros Hq Hb H. apply replace_from_bytes_free; [done|]. constructor; [|done].
  cbn. repeat split; congruence.
Qed.

Lemma ShellQuote_free c s : c ≠ "'"%char → c ≠ "\"%char → byte_free c s → byte_free c (ShellQuote s).
Proof.
  intros Hq Hb H. unfold ShellQuote. rewrite !byte_free_app. cbn. split_and!; [congruence|done| |congruence|done].
  by apply ReplaceAll_quote_free.
Qed.

(** ** Words a shell reads as they are *)

Definition word_byte (c : ascii) : bool :=
  between 48 57 c || between 65 90 c || between 97 122 c || between 128 255 c
  || bool_decide (c = "-"%char) || bool_decide (c = "."%char) || bool_decide (c = "/"%char) || bool_decide (c = "_"%char).

Definition word (s : string) : bool := all_bytes word_byte s && bool_decide (s ≠ "").

Definition token_ok (t : token) : Prop := quoted t = true ∨ word (value t) = true.
Lemma digit_word d : (0 ≤ d < 10)%Z → word_byte (digit_char d) = true.
Proof.
  intros H. assert (d ∈ [0; 1; 2; 3; 4; 5; 6; 7; 8; 9]%Z) as Hd by (rewrite !elem_of_cons; lia).
  clear H. repeat (apply elem_of_cons in Hd as [->|Hd]; [by vm_compute|]). by apply elem_of_nil in Hd.
Qed.

Lemma fmtFrac_word prec v print acc : all_bytes word_byte acc = true → all_bytes word_byte (fmtFrac prec v print acc).1 = true.
Proof.
  revert v print acc. induction prec as [|prec IH]; intros v print acc H; cbn [fmtFrac].
  - by destruct print; cbn [fst all_bytes]; rewrite ?H.
  - apply IH. destruct (_ || _); [|done]. cbn [all_bytes]. rewrite digit_word, H; [done|]. apply Z.mod_pos_bound. lia.
Qed.

Lemma pretty_go_word n s : all_bytes word_byte s = true → all_bytes word_byte (pretty_N_go n s) = true.
Proof.
  revert s. induction (N.lt_wf_0 n) as [n _ IH]. intros s Hs.
  destruct (decide (n = 0)%N) as [->|Hn]; [by rewrite pretty_N_go_0|].
  rewrite pretty_N_go_step by lia. apply IH; [apply N.div_lt; lia|]. cbn [all_bytes]. rewrite Hs, andb_true_r.
  unfold pretty_N_char. by repeat case_match.
Qed.

Lemma fmtInt_word v acc : all_bytes word_byte acc = true → all_bytes word_byte (fmtInt v acc) = true.
Proof.
  intros H. unfold fmtInt, pretty, pretty_N. rewrite all_bytes_app, H, andb_true_r.
  case_decide; [done|]. by apply pretty_go_word.
Qed.

Lemma fmtInt_nonempty v acc : fmtInt v acc = "" → acc = "".
Proof. unfold fmtInt. by destruct (pretty (Z.to_N v)); [destruct acc|]. Qed.

Lemma fmtFrac_nonempty prec v print acc : acc ≠ "" → (fmtFrac prec v print acc).1 ≠ "".
Proof.
  revert v print acc. induction prec as [|prec IH]; intros v print acc H; cbn [fmtFrac]; [by destruct print|].
  apply IH. by destruct (_ || _).
Qed.

Lemma word_cons c s : word_byte c = true → word s = true → word (String c s) = true.
Proof.
  unfold word. intros Hc [H _]%andb_true_iff. apply andb_true_iff. split; [|by apply bool_decide_eq_true].
  cbn [all_bytes]. by rewrite Hc, H.
Qed.

Lemma neg_word (d : Z) s : word s = true → word (if decide (d < 0)%Z then String "-" s else s) = true.
Proof. intros Hw. case_decide; [|done]. by apply word_cons. Qed.

Lemma fmtInt_ok v acc : word acc = true → word (fmtInt v acc) = true.
Proof.
  unfold word. intros [H1 H2%bool_decide_eq_true]%andb_true_iff. rewrite fmtInt_word by done.
  apply bool_decide_eq_true. by intros ?%fmtInt_nonempty.
Qed.

Lemma fmtFrac_ok prec v print acc : word acc = true → word (fmtFrac prec v print acc).1 = true.
Proof.
  unfold word. intros [H1 H2%bool_decide_eq_true]%andb_true_iff. rewrite fmtFrac_word by done.
  apply bool_decide_eq_true. by apply fmtFrac_nonempty.
Qed.

Lemma Duration_word d : word (Duration_String d) = true.
Proof.
  unfold Duration_String. case_decide.
  - case_decide; [done|].
    destruct (if decide (_ < 1000)%Z then _ else _) as [prec u] eqn:E.
    assert (word u = true) as Hu by (repeat case_decide; injection E as <- <-; done).
    pose proof (fmtFrac_ok prec (Z.abs d) false u Hu) as Hf. destruct (fmtFrac _ _ _ _) as [frac v].
    by apply neg_word, fmtInt_ok.
  - pose proof (fmtFrac_ok 9 (Z.abs d) false "s" eq_refl) as H1. destruct (fmtFrac _ _ _ _) as [frac secs].
    set (s := fmtInt (secs mod 60)%Z frac). assert (word s = true) as Hs by by apply fmtInt_ok.
    case_decide; [|by apply neg_word].
    assert (word (fmtInt ((secs / 60) mod 60)%Z (String "m" s)) = true) as Hm by by apply fmtInt_ok, word_cons.
    apply neg_word. case_decide; [|done]. by apply fmtInt_ok, word_cons.
Qed.

(** ** The shell's reading of a command line *)

(** Field splitting and quote removal of a POSIX shell on a simple command
    without expansions: blanks separate fields, single quotes keep every byte, a
    backslash keeps the next one.  Any other byte than a plain one is refused: it
    may be an operator, an expansion or a pattern. *)
Inductive quoting := Bare | Single | Escape.

Fixpoint shell_read (q : quoting) (field : option string) (s : string) : option (list string) :=
  match s with
  | EmptyString =>
    match q with Bare => Some (option_list field) | _ => None end
  | String c s =>
    let keep := Some (default "" field +:+ str1 c) in
    match q with
    | Single => if decide (c = "'"%char) then shell_read Bare field s else shell_read Single keep s
    | Escape => shell_read Bare keep s
    | Bare =>
      if decide (c = " "%char) then app (option_list field) <$> shell_read Bare None s
      else if decide (c = "'"%char) then shell_read Single (Some (default "" field)) s
      else if decide (c = "\"%char) then shell_read Escape (Some (default "" field)) s
      else if word_byte c then shell_read Bare keep s
      else None
    end
  end.

Definition shell_fields (s : string) : option (list string) := shell_read Bare None s.

Lemma shell_read_word field w s :
  all_bytes word_byte w = true → w ≠ "" → shell_read Bare field (w +:+ s) = shell_read Bare (Some (default "" field +:+ w)) s.
Proof.
  revert field. induction w as [|c w IH]; [done|]. intros field [Hc Hw]%andb_true_iff _.
  rewrite str_app_cons. cbn [shell_read].
  do 3 (destruct (decide (c = _)) as [->|_]; [by vm_compute in Hc|]). rewrite Hc.
  destruct w as [|c' w]; [done|]. rewrite IH by done. cbn [from_option id]. by rewrite str_app_assoc.
Qed.

Lemma shell_read_escaped f v s :
  shell_read Single (Some f) (ReplaceAll v "'" quote_escape +:+ "'" +:+ s) = shell_read Bare (Some (f +:+ v)) s.
Proof.
  revert f. induction v as [|c v IH]; intros f; [by rewrite str_app_nil|].
  rewrite ReplaceAll_quote_cons, str_app_assoc. destruct (decide (c = "'"%char)) as [->|Hc].
  - change (quote_escape +:+ ?t) with (String "'" (String "\" (String "'" (String "'" t)))).
    cbn [shell_read from_option id]. rewrite !decide_True, !decide_False by done. cbn [from_option id].
    rewrite IH, str_app_assoc. done.
  - change (str1 c +:+ ?t) with (String c t). cbn [shell_read]. rewrite decide_False by done. cbn [from_option id].
    by rewrite IH, str_app_assoc.
Qed.

Lemma shell_read_token t s :
  token_ok t → shell_read Bare None (render_token t +:+ s) = shell_read Bare (Some (value t)) s.
Proof.
  unfold token_ok, render_token. destruct (quoted t).
  - intros _. rewrite ShellQuote_alt, !str_app_assoc. change ("'" +:+ ?t) with (String "'" t) at 1.
    cbn [shell_read]. rewrite decide_False, decide_True by done. apply shell_read_escaped.
  - intros [[=]|[Hw Hn%bool_decide_eq_true]%andb_true_iff]. by apply shell_read_word.
Qed.

Lemma shell_fields_render ts : Forall token_ok ts → shell_fields (renderShell ts) = Some (renderArgv ts).
Proof.
  unfold shell_fields, renderShell, renderArgv. induction 1 as [|t ts Ht Hts IH]; [done|].
  destruct ts as [|t' ts]; cbn [fmap list_fmap].
  - cbn [String.concat]. rewrite <-(str_app_nil (render_token t)). by rewrite shell_read_token.
  - change (String.concat " " (render_token t :: render_token t' :: (render_token <$> ts)))
      with (render_token t +:+ String " " (String.concat " " (render_token <$> t' :: ts))).
    rewrite shell_read_token by done. cbn [shell_read]. rewrite decide_True by done.
    rewrite IH. done.
Qed.

(** ** Commands *)

(** Every token of a literal list is quoted or a plain word. *)
Ltac tokens :=
  repeat (apply Forall_cons_2; [first [by left | right; first [done | apply Duration_word | assumption]]|]);
  try apply Forall_nil_2.

Lemma bound_flag_ok flag v : word flag = true → Forall token_ok (bound_flag flag v).
Proof. intros H. unfold bound_flag. case_decide; tokens. Qed.

Lemma boundTokens_ok b : Forall token_ok (boundTokens b).
Proof. unfold boundTokens. rewrite !Forall_app. split_and!; try (by apply bound_flag_ok). tokens. Qed.

Lemma Event_word e : Event_Validate e = true → word e = true.
Proof. intros H%bool_decide_eq_true. unfold AllEvents in H. apply elem_of_cons in H as [->|H%list_elem_of_singleton]; [done|by subst]. Qed.

Lemma repository_ok root : Forall token_ok (if decide (root ≠ "") then [bare "--repository"; quoted_ root] else []).
Proof. case_decide; tokens. Qed.

Lemma uploadTokens_ok event root b : Event_Validate event = true → Forall token_ok (uploadTokens root (forEvent b event)).
Proof.
  intros He%Event_word. unfold uploadTokens. rewrite !Forall_app. split_and!.
  - apply boundTokens_ok.
  - tokens.
  - unfold forEvent. destruct (RequireAutoPublishRule b) eqn:E; cbn; [|by rewrite E].
    apply Forall_cons_2; [by right|]. case_decide; tokens.
  - apply repository_ok.
Qed.

Lemma after_bound ts b : Forall token_ok ts → Forall token_ok (boundTokens b ++ ts).
Proof. intros H. apply Forall_app. split; [apply boundTokens_ok|done]. Qed.

Lemma manualTokens_ok root b : Forall token_ok (manualTokens root b).
Proof. unfold manualTokens. apply after_bound, Forall_app. split; [tokens|apply repository_ok]. Qed.

Lemma statusTokens_ok root b : Forall token_ok (statusTokens root b).
Proof. apply after_bound. tokens. Qed.

Lemma uninstallTokens_ok event root b : word event = true → Forall token_ok (uninstallTokens event root b).
Proof. intros H. apply after_bound. tokens. Qed.

Lemma installTokens_ok event root b : word event = true → Forall token_ok (installTokens event root b).
Proof. intros H. apply after_bound. tokens. Qed.

Lemma budgetTokens_ok event root budget b : word event = true → Forall token_ok (budgetTokens event root budget b).
Proof. intros H. unfold budgetTokens. apply Forall_app. split; [by apply installTokens_ok|tokens]. Qed.

(** Every command Peasant writes into a hook or prints reads back, under the
    shell's quoting rules, as exactly the argument list it was built from: whatever
    bytes the paths hold, each of them is one argument, and the upload ends with the
    repository it is confined to. *)
Theorem commands_read_back event root budget b :
  Event_Validate event = true →
  let bound := forEvent b event in
  shell_fields (RepositoryCommand root bound) = Some (RepositoryArgv root bound)
  ∧ (root ≠ "" → last (RepositoryArgv root bound) = Some root)
  ∧ shell_fields (ManualCommand root b) = Some (renderArgv (manualTokens root b))
  ∧ shell_fields (StatusCommandWithBinding root b) = Some (renderArgv (statusTokens root b))
  ∧ shell_fields (UninstallCommandWithBinding event root b) = Some (renderArgv (uninstallTokens event root b))
  ∧ shell_fields (InstallCommandWithBinding event root b) = Some (renderArgv (installTokens event root b))
  ∧ shell_fields (InstallCommandWithBudget event root budget b) = Some (renderArgv (budgetTokens event root budget b)).
Proof.
  intros H bound. pose proof (Event_word event H) as Hw.
  split; [by apply shell_fields_render, uploadTokens_ok|].
  split; [intros Hr; unfold RepositoryArgv, uploadTokens, renderArgv; rewrite (decide_True _ _ Hr), !fmap_app, !app_assoc, last_app; done|].
  split_and!; apply shell_fields_render;
    auto using manualTokens_ok, statusTokens_ok, uninstallTokens_ok, installTokens_ok, budgetTokens_ok.
Qed.

Definition demoBinding : Binding :=
  {| RequireAutoPublishRule := true; AutoPublishEvent := ""; ConfigPath := "/home/o'brien/my config.toml";
     ConfigDir := ""; DataDir := "/srv/$(data)"; StateDir := ""; Timeout := 90000000000 |}.

Lemma commands_read_back_witness :
  Event_Validate EventPrePush = true
  ∧ shell_fields (RepositoryCommand "/work/it's here" (forEvent demoBinding EventPrePush))
    = Some ["peasant"; "--config"; "/home/o'brien/my config.toml"; "--data-dir"; "/srv/$(data)"; "village"; "push";
            "--non-interactive"; "--quiet"; "--timeout"; "1m30s"; "--require-auto-publish-rule";
            "--auto-publish-event"; "pre-push"; "--repository"; "/work/it's here"].
Proof.
  split; [reflexivity|]. refine (eq_trans (proj1 (commands_read_back EventPrePush "/work/it's here" 0 demoBinding eq_refl)) _).
  vm_compute. reflexivity.
Defined.

(** ** Bytes of the rendered values *)

Lemma word_free c s : word s = true → word_byte c = false → byte_free c s.
Proof. intros [H _]%andb_true_iff Hc. by apply (all_bytes_free word_byte). Qed.

Lemma render_free c ts :
  c ≠ "'"%char → c ≠ "\"%char → c ≠ " "%char → Forall (λ t, byte_free c (value t)) ts → byte_free c (renderShell ts).
Proof.
  intros Hq Hb Hs Hts. apply free_concat; [by cbn; split_and!|]. apply Forall_fmap. eapply Forall_impl; [exact Hts|].
  intros t Ht. cbn. unfold render_token. destruct (quoted t); [by apply ShellQuote_free|done].
Qed.

(** The paths of a request hold none of [c]. *)
Definition paths_free (c : ascii) (root path : string) (b : Binding) : Prop :=
  Forall (λ f, byte_free c f.2) (script_fields root path b).

Lemma validate_ok event root path b :
  validateScriptInputs event root path b = Ok tt ↔
  Event_Validate event = true ∧ (∀ c, ContainsByte unembeddable c = true → paths_free c root path b)
  ∧ (0 ≤ Timeout b)%Z ∧ blank root = false ∧ blank path = false.
Proof.
  unfold validateScriptInputs. rewrite res_guard_ok, res_seq_ok, !res_guard_ok, res_iter_ok, bool_decide_eq_true, negb_true_iff, orb_false_iff.
  assert ((∀ i f, script_fields root path b !! i = Some f →
            res_guard (negb (ContainsAny f.2 unembeddable)) (UnembeddableValue f.1) (Ok tt) = Ok tt)
          ↔ ∀ c, ContainsByte unembeddable c = true → paths_free c root path b) as ->; [|tauto].
  unfold paths_free. setoid_rewrite Forall_forall. split.
  - intros H c Hc f Hf. apply list_elem_of_lookup in Hf as [i Hi].
    specialize (H i f Hi). apply res_guard_ok in H as [H%negb_true_iff _]. by eapply ContainsAny_false in H.
  - intros H i f Hi. apply res_guard_ok. split; [|done]. apply negb_true_iff, ContainsAny_false.
    intros c Hc. apply H; [done|by eapply list_elem_of_lookup_2].
Qed.

(** ** The lines of a generated hook *)

Definition stdinMark : string := "{{STDIN}}".

Fixpoint lines_until (mark : string) (lines : list string) : list string :=
  match lines with
  | [] => []
  | l :: lines => if decide (l = mark) then [] else l :: lines_until mark lines
  end.

Definition lines_before : list string := Eval vm_compute in lines_until stdinMark (split_on nl scriptTemplate).
Definition lines_after : list string := Eval vm_compute in drop (S (length lines_before)) (split_on nl scriptTemplate).

Lemma template_cut : split_on nl scriptTemplate = lines_before ++ stdinMark :: lines_after.
Proof. vm_compute. reflexivity. Qed.

(** A constant text without a line break or NUL. *)
Lemma text_free c s : ContainsByte unembeddable c = true → ContainsAny s unembeddable = false → byte_free c s.
Proof. intros Hc Hs. by eapply ContainsAny_false in Hs. Qed.

Lemma unembeddable_cases c : ContainsByte unembeddable c = true → c = nl ∨ c = cr ∨ c = "000"%char.
Proof. unfold ContainsByte, unembeddable. cbn [IndexByte]. do 3 (case_decide; [by subst; auto|]). done. Qed.

Section script.
Context (event root path : string) (b : Binding) (c : ascii).
Hypothesis event_ok : Event_Validate event = true.
Hypothesis bound : forEvent b event = b.
Hypothesis c_ok : ContainsByte unembeddable c = true.
Hypothesis fields_ok : paths_free c root path b.

Lemma c_plain : c ≠ "'"%char ∧ c ≠ "\"%char ∧ c ≠ " "%char ∧ word_byte c = false.
Proof. destruct (unembeddable_cases c c_ok) as [->|[->| ->]]; split_and!; first [discriminate|reflexivity]. Qed.

Lemma fields_free : byte_free c root ∧ byte_free c path ∧ byte_free c (ConfigPath b)
  ∧ byte_free c (ConfigDir b) ∧ byte_free c (DataDir b) ∧ byte_free c (StateDir b).
Proof. pose proof fields_ok as H. unfold paths_free, script_fields in H. rewrite !Forall_cons in H. cbn [snd] in H. tauto. Qed.

Definition value_free (t : token) : Prop := byte_free c (value t).

Ltac value_tokens :=
  repeat (apply Forall_cons_2; [first [exact (word_free c _ (Duration_word _) (proj2 (proj2 (proj2 c_plain))))
    | assumption | apply text_free; [exact c_ok|vm_compute; reflexivity]]|]); try apply Forall_nil_2.

Lemma flag_free flag v : word flag = true → byte_free c v → Forall value_free (bound_flag flag v).
Proof.
  intros Hf Hv. unfold bound_flag. case_decide; [|done].
  repeat (apply Forall_cons_2; [first [assumption | exact (word_free c _ Hf (proj2 (proj2 (proj2 c_plain))))]|]). done.
Qed.

Lemma boundTokens_free : Forall value_free (boundTokens b).
Proof.
  destruct fields_free as (_ & _ & ? & ? & ? & ?). unfold boundTokens. rewrite !Forall_app.
  split_and!; try (by apply flag_free). value_tokens.
Qed.

Lemma event_free : byte_free c event.
Proof. exact (word_free c _ (Event_word event event_ok) (proj2 (proj2 (proj2 c_plain)))). Qed.

Lemma repository_free : Forall value_free (if decide (root ≠ "") then [bare "--repository"; quoted_ root] else []).
Proof. destruct fields_free as (? & _). case_decide; value_tokens. Qed.

Lemma command_free ts : Forall value_free (boundTokens b ++ ts) → byte_free c (renderShell (boundTokens b ++ ts)).
Proof. intros H. destruct c_plain as (? & ? & ? & _). by apply render_free. Qed.

Lemma RepositoryCommand_free : byte_free c (RepositoryCommand root b).
Proof.
  apply command_free. rewrite !Forall_app. split_and!; [apply boundTokens_free|value_tokens| |apply repository_free].
  destruct (RequireAutoPublishRule b) eqn:E; [|done].
  assert (AutoPublishEvent b = event) as -> by (rewrite <-bound; unfold forEvent; by rewrite E).
  pose proof event_free. apply Forall_cons_2; [by apply text_free|]. case_decide; value_tokens.
Qed.

Lemma ManualCommand_free : byte_free c (ManualCommand root b).
Proof. apply command_free. rewrite !Forall_app. split_and!; [apply boundTokens_free|value_tokens|apply repository_free]. Qed.

Lemma StatusCommand_free : byte_free c (StatusCommandWithBinding root b).
Proof. destruct fields_free as (? & _). apply command_free. rewrite !Forall_app. split; [apply boundTokens_free|value_tokens]. Qed.

Lemma UninstallCommand_free : byte_free c (UninstallCommandWithBinding event root b).
Proof.
  destruct fields_free as (? & _). pose proof event_free. apply command_free. rewrite !Forall_app.
  split; [apply boundTokens_free|value_tokens].
Qed.

Lemma CommandPrefix_free : byte_free c (CommandPrefix b).
Proof. destruct c_plain as (? & ? & ? & _). apply render_free; [done..|apply boundTokens_free]. Qed.

Lemma quoted_free s : byte_free c s → byte_free c (ShellQuote s).
Proof. destruct c_plain as (? & ? & _). by apply ShellQuote_free. Qed.

Lemma ManualRecovery_free : byte_free c (ManualRecovery root b).
Proof.
  destruct fields_free as (? & _). unfold ManualRecovery. rewrite !byte_free_app.
  split_and!; [by apply text_free|by apply quoted_free|by apply text_free|apply ManualCommand_free].
Qed.

Lemma Timing_free : byte_free c (Timing event).
Proof. unfold Timing. repeat case_decide; by apply text_free. Qed.
Lemma Impact_free : byte_free c (Impact event).
Proof. unfold Impact. repeat case_decide; by apply text_free. Qed.

(** Every value but the standard input section fits in its line. *)
Lemma line_values_free : Forall (λ kv, byte_free c kv.2) (take 18 (script_values event root path b)).
Proof.
  destruct fields_free as (? & ? & _). pose proof event_free.
  unfold script_values. cbn [take].
  repeat (apply Forall_cons_2; [cbn [snd]|]); try apply Forall_nil_2;
    auto using quoted_free, Timing_free, Impact_free, RepositoryCommand_free, ManualCommand_free, ManualRecovery_free,
      CommandPrefix_free, StatusCommand_free, UninstallCommand_free, text_free.
  exact (word_free c _ (Duration_word _) (proj2 (proj2 (proj2 c_plain)))).
Qed.

Lemma manual_values_free : Forall (λ kv, byte_free c kv.2) (take 7 (manual_values event root path b)).
Proof.
  destruct fields_free as (? & ? & _). pose proof event_free.
  unfold manual_values. cbn [take].
  repeat (apply Forall_cons_2; [cbn [snd]|]); try apply Forall_nil_2;
    auto using quoted_free, Impact_free, RepositoryCommand_free, ManualRecovery_free.
Qed.
End script.

(** The values of a line, whatever they are. *)
Definition values_of (v1 v2 v3 v4 v5 v6 v7 v8 v9 v10 v11 v12 v13 v14 v15 v16 v17 v18 : string) : list (string * string) :=
  [("{{EVENT}}", v1); ("{{EVENT_Q}}", v2); ("{{TIMING}}", v3); ("{{TIMING_Q}}", v4); ("{{IMPACT_Q}}", v5);
   ("{{ROOT}}", v6); ("{{ROOT_Q}}", v7); ("{{PATH}}", v8); ("{{PATH_Q}}", v9); ("{{SCOPED_COMMAND}}", v10);
   ("{{MANUAL_COMMAND}}", v11); ("{{RECOVERY_Q}}", v12); ("{{COMMAND_PREFIX_Q}}", v13); ("{{BUDGET}}", v14);
   ("{{STATUS}}", v15); ("{{UNINSTALL}}", v16); ("{{UNINSTALL_Q}}", v17); ("{{NOTHING_ATTEMPTED}}", v18)].

Section line_facts.
Variables v1 v2 v3 v4 v5 v6 v7 v8 v9 v10 v11 v12 v13 v14 v15 v16 v17 v18 : string.
Local Notation values := (values_of v1 v2 v3 v4 v5 v6 v7 v8 v9 v10 v11 v12 v13 v14 v15 v16 v17 v18).

Lemma head_lines : take 2 (Replace values <$> lines_before) = [scriptShebang; ScriptMarkerBegin].
Proof. vm_compute. reflexivity. Qed.

Lemma end_lines : drop (length lines_after - 2) (Replace values <$> lines_after) = [ScriptMarkerEnd; ""].
Proof. vm_compute. reflexivity. Qed.

Lemma command_line : first_value headerCommandPrefix (Replace values <$> lines_before) = Some (v10 +:+ "").
Proof. vm_compute. reflexivity. Qed.

Lemma no_assignment_before : first_value embeddedRepositoryAssignment (Replace values <$> lines_before) = None.
Proof. vm_compute. reflexivity. Qed.

Lemma assignment_after : first_value embeddedRepositoryAssignment (Replace values <$> lines_after) = Some (v7 +:+ "").
Proof. vm_compute. reflexivity. Qed.

(** The line that runs the upload. *)
Lemma upload_line : (Replace values <$> lines_after) !! 91 = Some (v10 +:+ " </dev/null").
Proof. vm_compute. reflexivity. Qed.

Lemma stdin_line sec : Replace (values ++ [(stdinMark, sec)]) stdinMark = sec +:+ "".
Proof. vm_compute. reflexivity. Qed.

Lemma values_keys : Forall (λ kv, kv.1 ≠ "" ∧ byte_free nl kv.1) values.
Proof.
  unfold values_of. repeat (apply Forall_cons_2; [split; [done|by apply text_free]|]). apply Forall_nil_2.
Qed.
End line_facts.

(** ** Ownership *)

Lemma drop_blank_spec lines :
  ∃ blanks, lines = blanks ++ drop_blank lines ∧ Forall (λ l, blank l = true) blanks
    ∧ (∀ l, head (drop_blank lines) = Some l → blank l = false).
Proof.
  induction lines as [|l lines (bl & Hl & Hb & Hd)]; [by exists []|]. cbn [drop_blank].
  destruct (blank l) eqn:E.
  - exists (l :: bl). split; [cbn; by f_equal|]. split; [by constructor|done].
  - exists []. split_and!; [done..|]. by intros ? [= <-].
Qed.

Lemma drop_blank_skip bl x lines :
  Forall (λ l, blank l = true) bl → blank x = false → drop_blank (bl ++ x :: lines) = x :: lines.
Proof. intros Hbl Hx. induction Hbl as [|l bl Hl Hbl IH]; cbn [app drop_blank]; by rewrite ?Hx, ?Hl. Qed.

(** A managed text is framed by its first two lines and its last line that is not blank. *)
Lemma IsManaged_iff content :
  IsManaged content = true ↔
  ∃ middle blanks, scriptLines content = [scriptShebang; ScriptMarkerBegin] ++ middle ++ [ScriptMarkerEnd] ++ blanks
    ∧ Forall (λ l, blank l = true) blanks.
Proof.
  unfold IsManaged. destruct (drop_blank_spec (rev (scriptLines content))) as (bl & Hl & Hb & Hd).
  apply (f_equal (@rev _)) in Hl. rewrite rev_involutive, rev_app_distr in Hl.
  set (lines := rev (drop_blank (rev (scriptLines content)))) in *.
  rewrite !andb_true_iff, !bool_decide_eq_true. split.
  - intros [[[Hn H0] H1] Hlast]. rewrite Hl. destruct lines as [|l0 [|l1 lines']]; [cbn in Hn; lia..|].
    cbn in H0, H1. injection H0 as ->. injection H1 as ->.
    destruct lines' as [|x lines' _] using rev_ind; [cbn in Hn; lia|].
    change (scriptShebang :: ScriptMarkerBegin :: lines' ++ [x]) with ((scriptShebang :: ScriptMarkerBegin :: lines') ++ [x]) in Hlast.
    rewrite last_snoc in Hlast. injection Hlast as ->.
    exists lines', (rev bl). split; [cbn [app]; by rewrite <-app_assoc|]. by apply Forall_rev.
  - intros (middle & blanks & Heq & Hbl).
    assert (lines = [scriptShebang; ScriptMarkerBegin] ++ middle ++ [ScriptMarkerEnd]) as ->.
    { unfold lines. rewrite Heq. rewrite (app_assoc middle), app_assoc, rev_app_distr.
      rewrite app_assoc, rev_app_distr. cbn [rev app]. rewrite drop_blank_skip; [|by apply Forall_rev|done].
      cbn [rev]. by rewrite !rev_app_distr, rev_involutive. }
    split_and!; [rewrite !length_app; cbn; lia|done..|]. by rewrite app_assoc, last_snoc.
Qed.

(** ** The generated hook *)

Lemma forEvent_idem b event : forEvent (forEvent b event) event = forEvent b event.
Proof. unfold forEvent. destruct (RequireAutoPublishRule b) eqn:E; cbn; by rewrite ?E. Qed.

Section generated.
Context (event root path : string) (b : Binding) (s : string).
Hypothesis Hs : Script event root path b = Ok s.

Let bound : Binding := forEvent b event.
Local Notation values :=
  (values_of event (ShellQuote event) (Timing event) (ShellQuote (Timing event)) (ShellQuote (Impact event)) root
     (ShellQuote root) path (ShellQuote path) (RepositoryCommand root bound) (ManualCommand root bound)
     (ShellQuote (ManualRecovery root bound)) (ShellQuote (CommandPrefix bound)) (Duration_String (UploadBudget bound))
     (StatusCommandWithBinding root bound) (UninstallCommandWithBinding event root bound)
     (ShellQuote (UninstallCommandWithBinding event root bound)) ExitNothingAttempted).

Lemma script_values_cut : script_values event root path bound = values ++ [(stdinMark, stdinSection event)].
Proof. reflexivity. Qed.

Lemma Script_valid : Event_Validate event = true
  ∧ (∀ c, ContainsByte unembeddable c = true → paths_free c root path bound)
  ∧ blank root = false ∧ s = Replace (script_values event root path bound) scriptTemplate.
Proof.
  unfold Script in Hs. apply res_seq_ok in Hs as [(He & Hf & _ & Hr & _)%validate_ok [= <-]]. by split_and!.
Qed.

Lemma values_free c : ContainsByte unembeddable c = true → Forall (λ kv, byte_free c kv.2) values.
Proof.
  destruct Script_valid as (He & Hf & _). intros Hc. exact (line_values_free event root path bound c He (forEvent_idem b event) Hc (Hf c Hc)).
Qed.

Lemma stdin_free c : c = cr ∨ c = "000"%char → byte_free c (stdinSection event).
Proof.
  intros Hc. apply ContainsByte_free. unfold stdinSection. destruct Hc as [->| ->]; case_decide; reflexivity.
Qed.

Lemma template_free c : c = cr ∨ c = "000"%char → byte_free c scriptTemplate.
Proof. intros Hc. apply ContainsByte_free. by destruct Hc as [->| ->]; vm_compute. Qed.

Lemma script_free c : c = cr ∨ c = "000"%char → byte_free c s.
Proof.
  intros Hc. destruct Script_valid as (_ & _ & _ & Heq). rewrite Heq. apply replace_from_bytes_free; [by apply template_free|].
  rewrite script_values_cut.
  apply Forall_app. split; [apply values_free; by destruct Hc as [->| ->]|].
  apply Forall_cons_2; [by apply stdin_free|apply Forall_nil_2].
Qed.

Lemma fill_line l : byte_free nl l → Contains l stdinMark = false →
  split_on nl (Replace (script_values event root path bound) l) = [Replace values l].
Proof.
  intros Hl Hm. rewrite script_values_cut.
  rewrite Replace_absent by done. apply split_on_free, replace_from_bytes_free; [done|]. by apply values_free.
Qed.

Lemma fill_lines ls : Forall (λ l, ContainsByte l nl = false ∧ Contains l stdinMark = false) ls →
  (ls ≫= λ l, split_on nl (Replace (script_values event root path bound) l)) = Replace values <$> ls.
Proof.
  induction 1 as [|l ls [Hl%ContainsByte_free Hm] Hls IH]; [done|]. rewrite bind_cons, fmap_cons, fill_line, IH by done. done.
Qed.

(** The lines of the hook are the lines of the template, each filled in place;
    only the standard input section of a pre-push hook adds lines. *)
Lemma script_lines :
  scriptLines s = (Replace values <$> lines_before) ++ split_on nl (stdinSection event) ++ (Replace values <$> lines_after).
Proof.
  unfold scriptLines. rewrite unixLines_free by (apply script_free; by left). destruct Script_valid as (_ & _ & _ & Heq). rewrite Heq.
  rewrite split_Replace, template_cut, bind_app, bind_cons.
  - rewrite !fill_lines; [|by repeat (apply Forall_cons_2; [split; vm_compute; reflexivity|])..].
    rewrite script_values_cut.
    by rewrite stdin_line, str_app_nil.
  - rewrite script_values_cut.
    apply Forall_app. split; [apply values_keys|]. apply Forall_cons_2; [|apply Forall_nil_2]. split; [done|by apply text_free].
Qed.
End generated.

Lemma TrimSpace_framed t u : String "p" t = u +:+ "'" → TrimSpace (u +:+ "'") = u +:+ "'".
Proof.
  intros H. unfold TrimSpace. assert (trim_front space_strings (u +:+ "'") = u +:+ "'") as -> by (by rewrite <-H).
  unfold trim_back. rewrite str_rev_app. change (str_rev "'" +:+ ?r) with (String "'" r).
  assert (∀ r, trim_front (str_rev <$> space_strings) (String "'" r) = String "'" r) as -> by done.
  change (String "'" (str_rev u)) with (str_rev "'" +:+ str_rev u). by rewrite <-str_rev_app, str_rev_rev.
Qed.

Lemma concat_snoc sep l x : ∃ y, String.concat sep (l ++ [x]) = y +:+ x.
Proof.
  induction l as [|a l [y IH]]; [by exists ""|]. exists (a +:+ sep +:+ y).
  rewrite !str_app_assoc, <-IH. by destruct l.
Qed.

Lemma RepositoryCommand_trimmed root b : root ≠ "" →
  TrimSpace (RepositoryCommand root b) = RepositoryCommand root b.
Proof.
  intros Hr.
  assert (∃ t, RepositoryCommand root b = String "p" t) as [t Ht].
  { unfold RepositoryCommand, uploadTokens, boundTokens, renderShell. cbn [app fmap list_fmap].
    match goal with |- ∃ t, String.concat " " (_ :: ?l) = _ => destruct l end; by eexists. }
  assert (∃ u, RepositoryCommand root b = u +:+ "'") as [u Hu].
  { unfold RepositoryCommand, uploadTokens, renderShell. rewrite (decide_True _ _ Hr).
    change [bare "--repository"; quoted_ root] with ([bare "--repository"] ++ [quoted_ root]).
    rewrite !app_assoc, fmap_app. match goal with |- ∃ u, String.concat " " (?l ++ _) = _ => destruct (concat_snoc " " l (render_token (quoted_ root))) as [y Hy] end.
    exists (y +:+ "'" +:+ ReplaceAll root "'" quote_escape). cbn [fmap list_fmap]. rewrite Hy.
    change (render_token (quoted_ root)) with (ShellQuote root). by rewrite ShellQuote_alt, !str_app_assoc. }
  rewrite Hu. apply (TrimSpace_framed t). by rewrite <-Ht.
Qed.

Lemma first_value_app prefix l1 l2 :
  first_value prefix (l1 ++ l2) = match first_value prefix l1 with Some v => Some v | None => first_value prefix l2 end.
Proof. induction l1 as [|l l1 IH]; [done|]. cbn [app first_value]. by destruct (cut_prefix prefix l). Qed.

Lemma blank_nonempty s : blank s = false → s ≠ "".
Proof. by intros H ->. Qed.

Lemma str_take_free c n s : byte_free c s → byte_free c (str_take n s).
Proof. revert n. induction s as [|a s IH]; intros [|n]; cbn; [done..|]. intros [? ?]. auto. Qed.

Lemma split_on_take c s n l0 : split_on c s !! 0 = Some l0 → (String.length l0 < n)%nat →
  split_on c (str_take n s) !! 0 = Some l0.
Proof.
  revert n l0. induction s as [|a s IH]; intros [|n] l0 H Hn; cbn in *; try lia; try done.
  destruct (decide (a = c)); [done|]. destruct (split_on c s) as [|w ws] eqn:E; [by apply split_on_not_nil in E|].
  injection H as <-. cbn in Hn. specialize (IH n w eq_refl ltac:(lia)).
  destruct (split_on c (str_take n s)) as [|w' ws']; [done|]. by injection IH as ->.
Qed.

(** A generated hook is framed as Peasant's and names what it was generated for. *)
Lemma script_identity event root path b s :
  Script event root path b = Ok s →
  IsManaged s = true ∧ EmbeddedRepository s = root ∧ EmbeddedCommand s = RepositoryCommand root (forEvent b event).
Proof.
  intros Hs. pose proof (script_lines event root path b s Hs) as Hl.
  destruct (Script_valid event root path b s Hs) as (He & _ & Hr%blank_nonempty & _).
  match type of Hl with _ = (Replace ?vs <$> _) ++ _ => set (values := vs) in Hl end.
  split_and!.
  - apply IsManaged_iff. rewrite Hl. rewrite <-(take_drop 2 (Replace values <$> lines_before)).
    rewrite <-(take_drop (length lines_after - 2) (Replace values <$> lines_after)).
    unfold values. rewrite head_lines, end_lines.
    exists (drop 2 (Replace values <$> lines_before) ++ split_on nl (stdinSection event) ++ take (length lines_after - 2) (Replace values <$> lines_after)), [""].
    split; [|by repeat constructor]. by rewrite <-!app_assoc.
  - unfold EmbeddedRepository. rewrite Hl, !first_value_app. unfold values. rewrite no_assignment_before, assignment_after.
    assert (first_value embeddedRepositoryAssignment (split_on nl (stdinSection event)) = None) as ->
      by (unfold stdinSection; by case_decide).
    cbn [fmap option_fmap option_map from_option id]. rewrite str_app_nil. apply shellUnquote_quote.
  - unfold EmbeddedCommand. rewrite Hl, first_value_app. unfold values. rewrite command_line.
    cbn [fmap option_fmap option_map from_option id]. rewrite str_app_nil. by apply RepositoryCommand_trimmed.
Qed.

(** C36: a generated hook reads back as what it was generated from: it is framed as
    Peasant's, it names the repository and the exact upload command it runs, that
    command is a line of its own, Git runs it with the shell, and the paths it holds
    add no line to it: the hook has the lines of its template and, for a pre-push
    hook, the four that drain the standard input. *)
Theorem script_reads_back event root path b s :
  Script event root path b = Ok s →
  let bound := forEvent b event in
  IsManaged s = true ∧ EmbeddedRepository s = root ∧ EmbeddedCommand s = RepositoryCommand root bound
  ∧ (RepositoryCommand root bound +:+ " </dev/null") ∈ scriptLines s
  ∧ ClassifyHookLanguage s = (LangPOSIXShell, "sh")
  ∧ length (scriptLines s)
    = (length (split_on nl scriptTemplate) + if decide (event = EventPrePush) then 4 else 0)%nat.
Proof.
  intros Hs bound. pose proof (script_lines event root path b s Hs) as Hl.
  destruct (Script_valid event root path b s Hs) as (He & _ & Hr%blank_nonempty & _).
  match type of Hl with _ = (Replace ?vs <$> _) ++ _ => set (values := vs) in Hl end.
  destruct (script_identity event root path b s Hs) as (Hm & Her & Hec). split_and!; [done..| | |].
  - rewrite Hl. rewrite !elem_of_app. right; right. eapply list_elem_of_lookup_2. apply upload_line.
  - assert (scriptLines s !! 0 = Some scriptShebang) as H0.
    { rewrite Hl, <-(take_drop 2 (Replace values <$> lines_before)). unfold values. by rewrite head_lines. }
    pose proof (script_free event root path b s Hs cr (or_introl eq_refl)) as Hcr.
    unfold ClassifyHookLanguage. assert (ContainsByte (str_take binarySniffLimit s) "000" = false) as ->.
    { apply ContainsByte_free, str_take_free, (script_free event root path b s Hs). by right. }
    rewrite unixLines_free by by apply str_take_free. unfold scriptLines in H0. rewrite unixLines_free in H0 by done.
    rewrite (split_on_take nl s binarySniffLimit _ H0) by (vm_compute; lia). reflexivity.
  - rewrite Hl, !length_app, !length_fmap. unfold stdinSection.
    destruct (decide (event = EventPrePush)) as [->|Hne]; [reflexivity|]. rewrite decide_True by done. reflexivity.
Qed.

(** ** The by-hand section *)

Definition manual_of (v1 v2 v3 v4 v5 v6 v7 v8 : string) : list (string * string) :=
  [("{{EVENT}}", v1); ("{{IMPACT}}", v2); ("{{ROOT}}", v3); ("{{ROOT_Q}}", v4); ("{{PATH}}", v5);
   ("{{SCOPED_COMMAND}}", v6); ("{{RECOVERY_Q}}", v7); ("{{STDIN_NOTE}}", v8)].

Definition manual_lines : list string := Eval vm_compute in split_on nl manualTemplate.
Definition manual_first : string := Eval vm_compute in default "" (manual_lines !! 0).
Definition manual_middle : list string := Eval vm_compute in drop 1 (take (length manual_lines - 2) manual_lines).
Definition manual_last : string := Eval vm_compute in default "" (manual_lines !! (length manual_lines - 2)).

Lemma manual_cut : split_on nl manualTemplate = [manual_first] ++ manual_middle ++ [manual_last] ++ [""].
Proof. vm_compute. reflexivity. Qed.

Section manual_facts.
Variables v1 v2 v3 v4 v5 v6 v7 v8 : string.
Local Notation values := (manual_of v1 v2 v3 v4 v5 v6 v7 v8).

Lemma manual_keys : Forall (λ kv, kv.1 ≠ "" ∧ byte_free nl kv.1) values.
Proof. unfold manual_of. repeat (apply Forall_cons_2; [split; [done|by apply text_free]|]). apply Forall_nil_2. Qed.

Lemma manual_first_line : Replace values manual_first = "# BEGIN peasant village upload (" +:+ v1 +:+ ") -- added by hand, not managed by peasant".
Proof. vm_compute. reflexivity. Qed.

Lemma manual_last_line : Replace values manual_last = "# END peasant village upload (" +:+ v1 +:+ ")".
Proof. vm_compute. reflexivity. Qed.

Lemma manual_prefix : HasPrefix (Replace values manualTemplate) ManualMarkerPrefix = true.
Proof. vm_compute. reflexivity. Qed.

Lemma manual_line_feed : ∃ body, Replace values manualTemplate = body +:+ str1 nl.
Proof.
  assert (manualTemplate = str_take (String.length manualTemplate - 1) manualTemplate +:+ String nl "") as ->
    by (vm_compute; reflexivity).
  unfold Replace at 1. rewrite replace_from_free by (apply manual_keys || lia). by eexists.
Qed.
End manual_facts.

(** Text that ends a line contributes its own lines, whatever follows. *)
Lemma unixLines_feed a : ∃ y, unixLines (a +:+ str1 nl) = y +:+ str1 nl.
Proof.
  unfold unixLines, ReplaceAll, Replace. set (kvs := [(crlf, str1 nl)]).
  enough (∀ n, (n ≤ String.length a)%nat → ∃ y, replace_from kvs n (a +:+ str1 nl) = y +:+ str1 nl) as H by (apply H; lia).
  induction a as [|x a IH]; intros n Hn.
  - destruct n; [by exists ""|cbn in Hn; lia].
  - rewrite str_app_cons. destruct n as [|n]; cbn [replace_from]; [|apply IH; cbn in Hn; lia].
    destruct (first_match kvs _) as [[k v]|] eqn:E.
    + apply first_match_Some in E as [E Hp]. apply list_elem_of_singleton in E as [= -> ->].
      destruct a as [|z a].
      * exists "". reflexivity.
      * destruct (IH 1%nat) as [y Hy]; [cbn; lia|]. exists (str1 nl +:+ y). cbn [pred String.length crlf str1]. by rewrite Hy, str_app_assoc.
    + destruct (IH 0%nat) as [y Hy]; [lia|]. exists (String x y). by rewrite Hy.
Qed.

Lemma scriptLines_feed a : a = "" ∨ (∃ a', a = a' +:+ str1 nl) →
  ∃ L, ∀ t, scriptLines (a +:+ t) = L ++ scriptLines t.
Proof.
  unfold scriptLines. intros [->|[a' ->]]; [by exists []|]. destruct (unixLines_feed a') as [y Hy].
  exists (split_on nl y). intros t. rewrite unixLines_app, Hy, str_app_assoc. apply split_on_app.
Qed.

Lemma HasSuffix_iff s t : HasSuffix s t = true ↔ ∃ u, s = u +:+ t.
Proof.
  unfold HasSuffix. rewrite HasPrefix_iff. split.
  - intros [r Hr]. exists (str_rev r). by rewrite <-(str_rev_rev s), Hr, str_rev_app, str_rev_rev.
  - intros [u ->]. exists (str_rev u). apply str_rev_app.
Qed.

Section manual.
Context (event root path : string) (b : Binding) (m : string).
Hypothesis Hm : ManualSnippet event root path b = Ok m.

Lemma manual_values_of : let bound := forEvent b event in
  manual_values event root path bound
  = manual_of event (Impact event) root (ShellQuote root) path (RepositoryCommand root bound)
      (ShellQuote (ManualRecovery root bound)) (stdinNote event).
Proof. reflexivity. Qed.

Lemma manual_valid : Event_Validate event = true
  ∧ m = Replace (manual_values event root path (forEvent b event)) manualTemplate.
Proof. unfold ManualSnippet in Hm. by apply res_seq_ok in Hm as [(He & _)%validate_ok [= <-]]. Qed.

Lemma manual_feed : ∃ m', m = m' +:+ str1 nl.
Proof. destruct manual_valid as [_ Heq]. rewrite Heq. apply manual_line_feed. Qed.

Lemma manual_free : byte_free cr m.
Proof.
  unfold ManualSnippet in Hm. apply res_seq_ok in Hm as [(He & Hf & _)%validate_ok [= <-]].
  apply replace_from_bytes_free; [by apply ContainsByte_free|].
  change (manual_values event root path (forEvent b event))
    with (take 7 (manual_values event root path (forEvent b event)) ++ [("{{STDIN_NOTE}}", stdinNote event)]).
  apply Forall_app. split.
  - apply manual_values_free; [exact He|apply forEvent_idem|done|by apply Hf].
  - apply Forall_cons_2; [|apply Forall_nil_2]. apply ContainsByte_free. unfold stdinNote. cbn [snd]. by case_decide.
Qed.

(** The section's own lines, and the one its last line feed opens. *)
Lemma manual_section_lines : ∃ middle,
  scriptLines m = [("# BEGIN peasant village upload (" +:+ event +:+ ") -- added by hand, not managed by peasant")] ++ middle
    ++ ["# END peasant village upload (" +:+ event +:+ ")"] ++ [""].
Proof.
  unfold scriptLines. rewrite unixLines_free by apply manual_free. destruct manual_valid as [He Heq]. rewrite Heq.
  pose proof (word_free nl _ (Event_word event He) eq_refl) as Hfree.
  rewrite split_Replace by apply manual_keys.
  rewrite manual_cut, !bind_app. cbn [mbind list_bind]. rewrite !app_nil_r.
  rewrite manual_values_of, manual_first_line, manual_last_line, !split_on_free; [by eexists|..];
    rewrite ?byte_free_app; split_and?; done || by apply text_free.
Qed.
End manual.

Lemma last_nonblank (l1 l2 r1 r2 : list string) x y :
  blank x = false → blank y = false → Forall (λ l, blank l = true) r1 → Forall (λ l, blank l = true) r2 →
  l1 ++ [x] ++ r1 = l2 ++ [y] ++ r2 → l1 = l2 ∧ x = y ∧ r1 = r2.
Proof.
  intros Hx Hy H1 H2 Heq. apply (f_equal (@rev _)) in Heq. rewrite !rev_app_distr in Heq. cbn [rev app] in Heq.
  rewrite <-!app_assoc in Heq. cbn [app] in Heq. apply Forall_rev in H1, H2.
  assert (rev r1 = rev r2 ∧ x :: rev l1 = y :: rev l2) as [Hr [= -> Hl]].
  { revert Heq H1 H2. generalize (rev r1) as a, (rev r2) as c. induction a as [|z a IH]; intros [|w c] Heq Ha Hc; cbn in Heq.
    - done.
    - injection Heq as -> _. apply Forall_cons in Hc as [Hw _]. congruence.
    - injection Heq as <- _. apply Forall_cons in Ha as [Hz _]. congruence.
    - injection Heq as -> Heq. apply Forall_cons in Ha as [_ Ha], Hc as [_ Hc]. destruct (IH c Heq Ha Hc) as [-> ?]. done. }
  apply (f_equal (@rev _)) in Hr, Hl. by rewrite !rev_involutive in Hr, Hl.
Qed.

Lemma manual_end_shown event : Event_Validate event = true → blank ("# END peasant village upload (" +:+ event +:+ ")") = false.
Proof.
  intros H%bool_decide_eq_true. unfold AllEvents in H.
  apply elem_of_cons in H as [->|H%list_elem_of_singleton]; [done|by subst].
Qed.

(** Pasting the by-hand section anywhere between two lines of a file Peasant
    does not own never makes the file Peasant's: it is not rewritten or removed by a
    later command, and the section stays recognizable in it. *)
Theorem manual_never_owned event root path b m above below :
  ManualSnippet event root path b = Ok m →
  above = "" ∨ HasSuffix above (str1 nl) = true →
  IsManaged (above +:+ below) = false →
  IsManaged (above +:+ m +:+ below) = false ∧ ContainsManualSection (above +:+ m +:+ below) = true.
Proof.
  intros Hm Ha Hun. destruct (scriptLines_feed above) as [L HL]; [by rewrite HasSuffix_iff in Ha|].
  destruct (manual_feed _ _ _ _ _ Hm) as [m' Hm']. destruct (manual_section_lines _ _ _ _ _ Hm) as [middle Hmid].
  destruct (scriptLines_feed m) as [M HM]; [by right; eauto|].
  split.
  2:{ unfold ContainsManualSection. destruct (manual_valid _ _ _ _ _ Hm) as [_ ->].
      pose proof (manual_prefix event (Impact event) root (ShellQuote root) path (RepositoryCommand root (forEvent b event))
        (ShellQuote (ManualRecovery root (forEvent b event))) (stdinNote event)) as [r Hr]%HasPrefix_iff.
      rewrite manual_values_of, Hr, str_app_assoc. apply Contains_app. }
  apply not_true_iff_false. intros (mid & blanks & Heq & Hbl)%IsManaged_iff.
  apply not_true_iff_false in Hun. apply Hun, IsManaged_iff. rewrite HL. rewrite HL, HM in Heq.
  set (F := "# BEGIN peasant village upload (" +:+ event +:+ ") -- added by hand, not managed by peasant") in *.
  set (E := "# END peasant village upload (" +:+ event +:+ ")") in *.
  assert (M = [F] ++ middle ++ [E]) as ->.
  { specialize (HM ""). rewrite str_app_nil, Hmid in HM. change (scriptLines "") with [""] in HM.
    apply (app_inv_tail [""]). by rewrite <-HM, <-!app_assoc. }
  destruct L as [|l0 [|l1 L]]; [done..|].
  cbn [app] in Heq. injection Heq as -> -> Heq.
  destruct (drop_blank_spec (rev (scriptLines below))) as (bl & Hsb & Hbb & Hd).
  apply (f_equal (@rev _)) in Hsb. rewrite rev_involutive, rev_app_distr in Hsb.
  destruct (drop_blank (rev (scriptLines below))) as [|x rest].
  - exfalso. rewrite Hsb in Heq. cbn [rev app] in Heq. rewrite <-!app_assoc in Heq.
    destruct (last_nonblank (L ++ F :: middle) mid (rev bl) blanks E ScriptMarkerEnd) as (_ & [=] & _);
      [|done|by apply Forall_rev|done|by rewrite <-!app_assoc].
    apply manual_end_shown. by destruct (manual_valid _ _ _ _ _ Hm).
  - rewrite Hsb in Heq |- *. cbn [rev] in Heq |- *.
    destruct (last_nonblank (L ++ ([F] ++ middle ++ [E]) ++ rev rest) mid (rev bl) blanks x ScriptMarkerEnd) as (_ & -> & _);
      [by apply (Hd x)|done|by apply Forall_rev|done|cbn [app]; rewrite <-!app_assoc; cbn [app]; rewrite <-!app_assoc in Heq; cbn [app] in Heq; rewrite <-?app_assoc; rewrite <-?app_assoc in Heq; exact Heq|].
    exists (L ++ rev rest), (rev bl). split; [cbn [app]; by rewrite <-!app_assoc|by apply Forall_rev].
Qed.

Definition demoHook : string := "#!/usr/bin/env bash" +:+ str1 nl +:+ "make check" +:+ str1 nl.

Lemma manual_never_owned_witness : ∃ m,
  ManualSnippet EventPrePush "/work/it's here" "/work/it's here/.git/hooks/pre-push" demoBinding = Ok m
  ∧ IsManaged demoHook = false
  ∧ IsManaged (demoHook +:+ m +:+ "") = false ∧ ContainsManualSection (demoHook +:+ m +:+ "") = true.
Proof.
  destruct (ManualSnippet EventPrePush "/work/it's here" "/work/it's here/.git/hooks/pre-push" demoBinding) as [m|e] eqn:Hm;
    [|vm_compute in Hm; discriminate Hm].
  exists m. split; [reflexivity|]. split; [vm_compute; reflexivity|].
  assert (HasSuffix demoHook (str1 nl) = true) as Hfeed by (vm_compute; reflexivity).
  assert (IsManaged (demoHook +:+ "") = false) as Hun by (vm_compute; reflexivity).
  exact (manual_never_owned EventPrePush _ _ demoBinding m demoHook "" Hm (or_intror Hfeed) Hun).
Defined.

Lemma script_reads_back_witness : ∃ s,
  Script EventPrePush "/work/it's here" "/work/it's here/.git/hooks/pre-push" demoBinding = Ok s
  ∧ IsManaged s = true ∧ EmbeddedRepository s = "/work/it's here".
Proof.
  destruct (Script EventPrePush "/work/it's here" "/work/it's here/.git/hooks/pre-push" demoBinding) as [s|e] eqn:Hs;
    [|vm_compute in Hs; discriminate Hs].
  exists s. split; [reflexivity|].
  destruct (script_reads_back EventPrePush _ _ demoBinding s Hs) as (H1 & H2 & _). exact (conj H1 H2).
Defined.
