(* ===== verification/HookLifecycle.v ===== *)
(** * The life of a repository's hooks

    [src/internal/githooks/lifecycle.go] with the slots, plans and results of
    [githooks.go]: inspecting a hook slot, deciding what an operation may do with
    it, and the writes and deletions of install and uninstall, over a file system.

    The file system maps cleaned absolute paths, as lists of elements, to nodes; a
    system call resolves the links of a path as the kernel does.  Every call can
    fail ([Faults]).  Git answers are the interface [GitResolver].  Reasons and
    messages are prose and are left out, except for the choices they depend on
    (refusal, warnings, the owner of a shared directory).  [Slot.Size] is read by no
    decision and is left out.  Paths and modes are those of Unix. *)
From stdpp Require Import pretty.
From S2P Require Import Prelude GoStrings GoText AutoPublish HookScript.
From Stdlib Require Import Ascii.
Local Open Scope string_scope.
Local Open Scope list_scope.

(** ** The file system *)

Inductive node :=
  | File (content : string) (mode : Z)
  | Link (target : string)
  | Directory (mode : Z)
  | Special (mode : Z).

#[export] Instance node_eq_dec : EqDecision node.
Proof. solve_decision. Defined.

Notation path := (list string).
Notation fs := (gmap path node).

Inductive errno := ENOENT | ENOTDIR | ELOOP | EACCES | EEXIST | EISDIR | EIO.
#[export] Instance errno_eq_dec : EqDecision errno.
Proof. solve_decision. Defined.

(** The elements of a cleaned absolute path, and the path of some elements. *)
Definition elems (p : string) : path := filter (λ e, e ≠ "") (split_on slash (Clean p)).
Definition of_elems (es : path) : string := "/" +:+ join_slash es.

Definition node_at (f : fs) (p : path) : option node :=
  match p with [] => Some (Directory 493) | _ => f !! p end.

(** Following a path: links are resolved where they stand, a link budget bounds
    the walk, and a node that is not a directory ends it. *)
Fixpoint walk (links : nat) (f : fs) : path → path → result errno path :=
  fix go (dest pending : path) :=
    match pending with
    | [] => Ok dest
    | e :: rest =>
      if decide (e = "" ∨ e = ".") then go dest rest
      else if decide (e = "..") then go (removelast dest) rest
      else
        match node_at f (dest ++ [e]) with
        | None => Err ENOENT
        | Some (Link t) =>
          match links with
          | O => Err ELOOP
          | S links => walk links f (if IsAbs t then [] else dest) (split_on slash t ++ rest)
          end
        | Some (Directory _) => go (dest ++ [e]) rest
        | Some _ => if decide (rest = []) then Ok (dest ++ [e]) else Err ENOTDIR
        end
    end.

(** [filepath.EvalSymlinks] follows at most 255 links, the kernel at most 40. *)
Definition EvalSymlinks (f : fs) (p : path) : result errno path := walk 255 f [] p.
Definition kernel_walk (f : fs) (p : path) : result errno path := walk 40 f [] p.

(** The directory entry a call names: the links of its directory are followed, its
    last element is not. *)
Definition locate (f : fs) (p : path) : result errno path :=
  match last p with
  | None => Ok []
  | Some base =>
    let? dir := kernel_walk f (removelast p) in
    match node_at f dir with
    | Some (Directory _) => Ok (dir ++ [base])
    | Some _ => Err ENOTDIR
    | None => Err ENOENT
    end
  end.

Definition lstat (f : fs) (p : path) : result errno node :=
  let? es := locate f p in
  match node_at f es with Some n => Ok n | None => Err ENOENT end.

Definition stat (f : fs) (p : path) : result errno node :=
  let? es := kernel_walk f p in
  match node_at f es with Some n => Ok n | None => Err ENOENT end.

Definition readlink (f : fs) (p : path) : option string :=
  match lstat f p with Ok (Link t) => Some t | _ => None end.

(** Failures of the system calls of one operation that the state of the file
    system does not explain: permissions, a full disk, a failing device. *)
Record Faults := {
  lstat_fault : option errno;
  read_fault : bool;
  mkdir_fault : option errno;
  open_fault : option errno;
  write_fault : option nat;      (* bytes written before the failure *)
  chmod_fault : bool;
  close_fault : bool;
  rename_fault : bool;
  remove_fault : bool;
  cleanup_fault : bool;          (* the removal of a file just created *)
  umask : Z;
  temp_suffix : string;          (* the random part of a temporary name *)
}.

(** ** Slots *)

Inductive Ownership := OwnershipAbsent | OwnershipPeasant | OwnershipForeign.
Inductive Refusal := RefusalNone | RefusalSharedPath | RefusalForeignFile.
Inductive Action := ActionCreate | ActionReplace | ActionRefuse.
Inductive Outcome :=
  | OutcomeCreated | OutcomeReplaced | OutcomeRemoved | OutcomeNotPresent | OutcomeRefused | OutcomeFailed.
Inductive WarningKind :=
  | WarningCommittableHook | WarningSharedWithLinkedWorktrees | WarningRepositoryMoved | WarningHookNotExecutable.
Inductive intent := intentInstall | intentStatus | intentUninstall.
#[export] Instance Ownership_eq_dec : EqDecision Ownership.
Proof. solve_decision. Defined.
#[export] Instance Refusal_eq_dec : EqDecision Refusal.
Proof. solve_decision. Defined.
#[export] Instance Outcome_eq_dec : EqDecision Outcome.
Proof. solve_decision. Defined.
#[export] Instance WarningKind_eq_dec : EqDecision WarningKind.
Proof. solve_decision. Defined.
#[export] Instance intent_eq_dec : EqDecision intent.
Proof. solve_decision. Defined.

Record Repository := { RequestedDir : string; Root : string; GitDir : string }.

Record Slot := {
  s_Event : string;
  s_Path : string;
  s_RequireAutoPublishRule : bool;
  s_Ownership : Ownership;
  s_Mode : Z;
  s_HandAdded : bool;
  s_GeneratedRemnant : bool;
  s_EmbeddedRoot : string;
  s_EmbeddedCommand : string;
  s_Language : HookLanguage;
  s_Interpreter : string;
  s_LinkTarget : string;
  s_Unreadable : bool;
}.

Definition emptySlot (event p : string) : Slot :=
  {| s_Event := event; s_Path := p; s_RequireAutoPublishRule := false; s_Ownership := OwnershipAbsent; s_Mode := 0;
     s_HandAdded := false; s_GeneratedRemnant := false; s_EmbeddedRoot := ""; s_EmbeddedCommand := "";
     s_Language := LangUnclassified; s_Interpreter := ""; s_LinkTarget := ""; s_Unreadable := false |}.

Definition ModeSymlink : Z := 511.
Definition ScriptMode : Z := 493.

Definition executableByGit (mode : Z) : bool := bool_decide (Z.land mode 73 ≠ 0%Z).

Definition FileToEdit (s : Slot) : string := if decide (s_LinkTarget s ≠ "") then s_LinkTarget s else s_Path s.
Definition Managed (s : Slot) : bool := bool_decide (s_Ownership s = OwnershipPeasant).
Definition CarriesUploadSection (s : Slot) : bool :=
  bool_decide (s_Ownership s = OwnershipForeign) && (s_HandAdded s || s_GeneratedRemnant s).
Definition UploadsFromForeignFile (s : Slot) : bool := CarriesUploadSection s && executableByGit (s_Mode s).

(** ** Paths through links *)

(** [resolveExisting]: the longest existing prefix of a path, given by its elements
    in reverse, resolved, with the rest attached. *)
Fixpoint resolve_up (f : fs) (rev_es pending : path) : path :=
  match EvalSymlinks f (rev rev_es) with
  | Ok resolved => resolved ++ pending
  | Err _ => match rev_es with [] => pending | e :: rest => resolve_up f rest (e :: pending) end
  end.
Definition resolveExisting (f : fs) (p : string) : path := resolve_up f (rev (elems p)) [].

(** [filepath.Rel] of two cleaned absolute paths. *)
Fixpoint Rel (base targ : path) : path :=
  match base, targ with
  | b :: base', t :: targ' => if decide (b = t) then Rel base' targ' else replicate (length base) ".." ++ targ
  | _, _ => replicate (length base) ".." ++ targ
  end.

Definition pathWithin (f : fs) (root p : string) : bool :=
  bool_decide (head (Rel (resolveExisting f root) (resolveExisting f p)) ≠ Some "..").

Definition dirOf (p : string) : string := of_elems (removelast (elems p)).

Definition LinkLeavesHooksDirectory (f : fs) (s : Slot) : bool :=
  if decide (s_LinkTarget s = "") then false else negb (pathWithin f (dirOf (s_Path s)) (s_LinkTarget s)).

Definition AcceptsShellSection (f : fs) (s : Slot) : bool :=
  if s_Unreadable s || LinkLeavesHooksDirectory f s then false
  else bool_decide (s_Language s = LangPOSIXShell).

Definition privateHookPath (f : fs) (s : Slot) (repo : Repository) : bool :=
  let hooksDir := dirOf (s_Path s) in
  if bool_decide (GitDir repo ≠ "") && pathWithin f (GitDir repo) hooksDir then true
  else pathWithin f (Root repo) hooksDir.

Definition sameHookFile (f : fs) (a b : string) : bool :=
  bool_decide (elems a = elems b ∨ resolveExisting f a = resolveExisting f b).

(** ** Inspection *)

Inductive LifecycleError :=
  | NoEventRequested
  | ScriptError (e : HookError)
  | NotAbsolute
  | GitFailed
  | InspectFailed (e : errno)
  | ReadFailed
  | NoHooksDirectory (e : errno)
  | CreateFailed (e : errno)
  | WriteFailed
  | ChmodFailed
  | CloseFailed
  | StageFailed (e : errno)
  | StageWriteFailed
  | SwapFailed
  | RemoveFailed
  | NoLongerPlainFile
  | NoLongerManaged.

Definition guardFlag : string := "--require-auto-publish-rule".

(** [linkTarget]. *)
Definition linkTarget (f : fs) (p : string) : string :=
  match EvalSymlinks f (elems p) with
  | Ok resolved => of_elems resolved
  | Err _ =>
    match readlink f (elems p) with
    | None => p
    | Some hop => if IsAbs hop then Clean hop else Clean (dirOf p +:+ "/" +:+ hop)
    end
  end.

Definition classifyForeign (s : Slot) (content : string) : Slot :=
  let '(language, interpreter) := ClassifyHookLanguage content in
  {| s_Event := s_Event s; s_Path := s_Path s; s_RequireAutoPublishRule := s_RequireAutoPublishRule s;
     s_Ownership := s_Ownership s; s_Mode := s_Mode s;
     s_HandAdded := ContainsManualSection content; s_GeneratedRemnant := ContainsGeneratedSection content;
     s_EmbeddedRoot := s_EmbeddedRoot s; s_EmbeddedCommand := s_EmbeddedCommand s;
     s_Language := language; s_Interpreter := interpreter;
     s_LinkTarget := s_LinkTarget s; s_Unreadable := s_Unreadable s |}.

(** [readRegularTarget]: the regular file behind the path, links followed. *)
Definition readRegularTarget (flt : Faults) (f : fs) (p : path) : option (string * Z) :=
  if read_fault flt then None
  else match stat f p with Ok (File content mode) => Some (content, mode) | _ => None end.

(** [readRegularSlot]: the path itself, a link refused. *)
Definition readRegularSlot (flt : Faults) (f : fs) (p : path) : option string :=
  if read_fault flt then None
  else match lstat f p with Ok (File content _) => Some content | _ => None end.

Definition foreignSlot (event p : string) (mode : Z) (target : string) (unreadable guarded : bool) : Slot :=
  {| s_Event := event; s_Path := p; s_RequireAutoPublishRule := guarded; s_Ownership := OwnershipForeign; s_Mode := mode;
     s_HandAdded := false; s_GeneratedRemnant := false; s_EmbeddedRoot := ""; s_EmbeddedCommand := "";
     s_Language := LangUnclassified; s_Interpreter := ""; s_LinkTarget := target; s_Unreadable := unreadable |}.

Definition inspect (flt : Faults) (f : fs) (event p : string) : result LifecycleError Slot :=
  match lstat_fault flt with
  | Some e => Err (InspectFailed e)
  | None =>
    match lstat f (elems p) with
    | Err ENOENT => Ok (emptySlot event p)
    | Err e => Err (InspectFailed e)
    | Ok (Link _) =>
      let target := linkTarget f p in
      match readRegularTarget flt f (elems p) with
      | None => Ok (foreignSlot event p ModeSymlink target true false)
      | Some (content, mode) =>
        Ok (classifyForeign (foreignSlot event p mode target false (Contains content guardFlag)) content)
      end
    | Ok (Directory mode) | Ok (Special mode) => Ok (foreignSlot event p mode "" true false)
    | Ok (File content mode) =>
      if read_fault flt then Err ReadFailed
      else if IsManaged content then
        Ok {| s_Event := event; s_Path := p; s_RequireAutoPublishRule := Contains content guardFlag;
              s_Ownership := OwnershipPeasant; s_Mode := mode; s_HandAdded := false; s_GeneratedRemnant := false;
              s_EmbeddedRoot := EmbeddedRepository content; s_EmbeddedCommand := EmbeddedCommand content;
              s_Language := LangUnclassified; s_Interpreter := ""; s_LinkTarget := ""; s_Unreadable := false |}
      else Ok (classifyForeign (foreignSlot event p mode "" false (Contains content guardFlag)) content)
    end
  end.

(** ** Planning *)

(** The names in a directory, in order, with their nodes. *)
Definition ReadDir (f : fs) (p : path) : option (list (string * node)) :=
  match kernel_walk f p with
  | Err _ => None
  | Ok dir =>
    match node_at f dir with
    | Some (Directory _) =>
      let names := omap (λ q : path, if decide (removelast q = dir) then last q else None) (map_to_list f).*1 in
      Some (omap (λ n, pair n <$> (f !! (dir ++ [n]))) (sort_strings names))
    | _ => None
    end
  end.

Definition linkedWorktreesShown : nat := 3.

(** The loop of [linkedWorktrees]; [total] is the number of entries. *)
Fixpoint worktree_names (total : nat) (names : list string) (entries : list (string * node)) : list string :=
  match entries with
  | [] => names
  | (name, Directory _) :: entries =>
    if decide (length names = linkedWorktreesShown)
    then names ++ ["and " +:+ pretty (total - linkedWorktreesShown)%nat +:+ " more"]
    else worktree_names total (names ++ [name]) entries
  | _ :: entries => worktree_names total names entries
  end.

Definition linkedWorktrees (f : fs) (repo : Repository) : list string :=
  if decide (GitDir repo = "") then []
  else match ReadDir f (elems (GitDir repo) ++ ["worktrees"]) with
       | None => []
       | Some entries => worktree_names (length entries) [] entries
       end.

Definition slotWarnings (f : fs) (s : Slot) (repo : Repository) : list WarningKind :=
  let owned := bool_decide (s_Ownership s = OwnershipPeasant) in
  let runs := executableByGit (s_Mode s) in
  (if owned && bool_decide (linkedWorktrees f repo ≠ []) then [WarningSharedWithLinkedWorktrees] else [])
  ++ (if bool_decide (GitDir repo ≠ "") && negb (pathWithin f (GitDir repo) (s_Path s)) then [WarningCommittableHook] else [])
  ++ (if owned && bool_decide (s_EmbeddedRoot s ≠ "" ∧ s_EmbeddedRoot s ≠ Root repo) then [WarningRepositoryMoved] else [])
  ++ (if owned && negb runs then [WarningHookNotExecutable] else []).

Record Plan := {
  p_Slot : Slot;
  p_Action : Action;
  p_Refusal : Refusal;
  p_Script : string;
  p_Manual : string;
  p_Warnings : list WarningKind;
  p_Owner : string;     (* the repository a shared path is explained with *)
}.

Definition lift_script {A} (r : result HookError A) : result LifecycleError A :=
  match r with Ok a => Ok a | Err e => Err (ScriptError e) end.

Definition planFor (f : fs) (s : Slot) (repo : Repository) (b : Binding) (op : intent) (owner : string) : result LifecycleError Plan :=
  let b := forEvent b (s_Event s) in
  if negb (privateHookPath f s repo) then
    Ok {| p_Slot := s; p_Action := ActionRefuse; p_Refusal := RefusalSharedPath; p_Script := ""; p_Manual := "";
          p_Warnings := []; p_Owner := owner |}
  else
    match s_Ownership s with
    | OwnershipForeign =>
      let? manual :=
        (if bool_decide (op ≠ intentUninstall) && negb (CarriesUploadSection s) && AcceptsShellSection f s
         then lift_script (ManualSnippet (s_Event s) (Root repo) (FileToEdit s) b) else Ok "") in
      Ok {| p_Slot := s; p_Action := ActionRefuse; p_Refusal := RefusalForeignFile; p_Script := ""; p_Manual := manual;
            p_Warnings := []; p_Owner := "" |}
    | own =>
      let? script := lift_script (Script (s_Event s) (Root repo) (s_Path s) b) in
      Ok {| p_Slot := s; p_Action := match own with OwnershipPeasant => ActionReplace | _ => ActionCreate end;
            p_Refusal := RefusalNone; p_Script := script; p_Manual := ""; p_Warnings := slotWarnings f s repo; p_Owner := "" |}
    end.

(** [Plan.Uploads]. *)
Definition Uploads (p : Plan) : bool :=
  if UploadsFromForeignFile (p_Slot p) then true
  else if negb (Managed (p_Slot p)) then false
  else negb (existsb (λ w, bool_decide (w = WarningHookNotExecutable ∨ w = WarningRepositoryMoved)) (p_Warnings p)).

(** What the lifecycle asks Git, and [filepath.Abs] of the working directory. *)
Class GitResolver := {
  git_Root : string → option string;
  git_GitDir : string → option string;
  git_HookPath : string → string → option string;
  Abs : string → option string;
}.

Definition from_git {A} (r : option A) : result LifecycleError A :=
  match r with Some a => Ok a | None => Err GitFailed end.

Section lifecycle.
Context `{G : GitResolver}.

Definition absoluteDir (dir : string) : result LifecycleError string :=
  match Abs (if blank dir then "." else dir) with Some a => Ok a | None => Err NotAbsolute end.

(** The events requested, in report order, without repetition. *)
Definition normalizeEvents (events : list string) (requireExplicit : bool) : result LifecycleError (list string) :=
  if decide (events = []) then
    if requireExplicit then Err NoEventRequested else Ok AllEvents
  else
    let? _u := res_iter (λ _ e, require Event_Validate e else ScriptError UnsupportedEvent in Ok tt) O events in
    Ok (filter (λ e, e ∈ events) AllEvents).

(** [hooksDirectoryOwner]: the nearest enclosing worktree, if Git runs this very
    file for the event there; the directories are given by their elements in
    reverse. *)
Fixpoint owner_up (f : fs) (s : Slot) (rev_es : path) : string :=
  match git_Root (of_elems (rev rev_es)) with
  | Some root =>
    match git_HookPath root (s_Event s) with
    | Some owned => if sameHookFile f owned (s_Path s) then root else ""
    | None => ""
    end
  | None => match rev_es with [] => "" | _ :: rest => owner_up f s rest end
  end.
Definition hooksDirectoryOwner (f : fs) (s : Slot) : string := owner_up f s (rev (removelast (elems (s_Path s)))).

Record Request := { req_Dir : string; req_Events : list string; req_Binding : Binding }.

Section planning.
(** The failures met for each event while planning, and while mutating. *)
Variables faults later : string → Faults.

Fixpoint plan_events (f : fs) (requested : string) (repo : Repository) (b : Binding) (op : intent) (events : list string)
    : result LifecycleError (list Plan) :=
  match events with
  | [] => Ok []
  | event :: events =>
    let? p := from_git (git_HookPath requested event) in
    let? s := inspect (faults event) f event p in
    let owner := if negb (privateHookPath f s repo) then hooksDirectoryOwner f s else "" in
    let? plan := planFor f s repo b op owner in
    let? plans := plan_events f requested repo b op events in
    Ok (plan :: plans)
  end.

Definition plan (f : fs) (req : Request) (op : intent) (requireExplicit : bool) : result LifecycleError (Repository * list Plan) :=
  let? events := normalizeEvents (req_Events req) requireExplicit in
  let? requested := absoluteDir (req_Dir req) in
  let? root := from_git (git_Root requested) in
  let? gitDir := from_git (git_GitDir requested) in
  let repo := {| RequestedDir := requested; Root := root; GitDir := gitDir |} in
  let? plans := plan_events f requested repo (req_Binding req) op events in
  Ok (repo, plans).

Definition Status (f : fs) (req : Request) : result LifecycleError (Repository * list Plan) := plan f req intentStatus false.

(** ** Mutation *)

(** A call on the file system: its state after the call, and what it returned. *)
Definition call (A : Type) := fs → fs * result LifecycleError A.
Definition call_bind {A B} (m : call A) (k : A → call B) : call B :=
  λ f, match m f with (f, Ok a) => k a f | (f, Err e) => (f, Err e) end.
Notation "'do?' x ':=' m 'in' k" := (call_bind m (λ x, k)) (at level 10, x binder, m at level 100, k at level 200).

(** [os.MkdirAll], from the root down: the prefix [have] exists. *)
Fixpoint mkdir_all (flt : Faults) (have missing : path) : call unit := λ f,
  match missing with
  | [] => (f, Ok tt)
  | e :: rest =>
    let p := have ++ [e] in
    match stat f p with
    | Ok (Directory _) => mkdir_all flt p rest f
    | Ok _ => (f, Err (NoHooksDirectory ENOTDIR))
    | Err _ =>
      match mkdir_fault flt, locate f p with
      | Some e, _ => (f, Err (NoHooksDirectory e))
      | None, Err e => (f, Err (NoHooksDirectory e))
      | None, Ok es =>
        match node_at f es with
        | Some _ => (f, Err (NoHooksDirectory EEXIST))
        | None => mkdir_all flt p rest (<[es := Directory (Z.land 493 (Z.lnot (umask flt)))]> f)
        end
      end
    end
  end.

Definition ensureHooksDir (flt : Faults) (dir : path) : call unit := mkdir_all flt [] dir.

(** [os.OpenFile] with [O_CREATE|O_EXCL]. *)
Definition create_exclusive (flt : Faults) (fail : errno → LifecycleError) (mode : Z) (p : path) : call path := λ f,
  match open_fault flt, locate f p with
  | Some e, _ => (f, Err (fail e))
  | None, Err e => (f, Err (fail e))
  | None, Ok es =>
    match node_at f es with
    | Some _ => (f, Err (fail EEXIST))
    | None => (<[es := File "" mode]> f, Ok es)
    end
  end.

(** Writing, setting the mode and closing an open file; [es] is its entry. *)
Definition write_file (flt : Faults) (es : path) (script : string) (mode : Z) : fs → fs * bool := λ f,
  match write_fault flt with
  | Some n => (<[es := File (str_take n script) mode]> f, false)
  | None => (<[es := File script mode]> f, true)
  end.
Definition chmod_file (flt : Faults) (es : path) (script : string) : fs → fs * bool := λ f,
  if chmod_fault flt then (f, false) else (<[es := File script ScriptMode]> f, true).

(** [os.Remove] of a file just created; its own failure is ignored. *)
Definition cleanup (flt : Faults) (es : path) : fs → fs := λ f, if cleanup_fault flt then f else delete es f.

Definition createHook (flt : Faults) (p : path) (script : string) : call unit :=
  do? _u := ensureHooksDir flt (removelast p) in
  let mode := Z.land ScriptMode (Z.lnot (umask flt)) in
  do? es := create_exclusive flt CreateFailed mode p in λ f,
  let '(f, written) := write_file flt es script mode f in
  if negb written then (cleanup flt es f, Err WriteFailed)
  else
    let '(f, changed) := chmod_file flt es script f in
    if negb changed then (cleanup flt es f, Err ChmodFailed)
    else if close_fault flt then (cleanup flt es f, Err CloseFailed)
    else (f, Ok tt).

Definition verifyOwned (flt : Faults) (p : path) : call unit := λ f,
  match readRegularSlot flt f p with
  | None => (f, Err NoLongerPlainFile)
  | Some content => if IsManaged content then (f, Ok tt) else (f, Err NoLongerManaged)
  end.

(** [os.Rename] over a file. *)
Definition rename_over (flt : Faults) (from : path) (p : path) : fs → fs * bool := λ f,
  if rename_fault flt then (f, false)
  else match locate f p, f !! from with
       | Ok es, Some n =>
         match node_at f es with
         | Some (Directory _) => (f, false)
         | _ => (<[es := n]> (delete from f), true)
         end
       | _, _ => (f, false)
       end.

(** [os.CreateTemp] names the staged file; a name that is taken is an error here,
    where the library draws another one a bounded number of times. *)
Definition replaceHook (flt : Faults) (p : path) (script : string) : call unit :=
  do? _u := verifyOwned flt p in
  let mode := Z.land 384 (Z.lnot (umask flt)) in
  let temp := removelast p ++ [".peasant-hook-" +:+ temp_suffix flt] in
  do? es := create_exclusive flt StageFailed mode temp in λ f,
  let '(f, written) := write_file flt es script mode f in
  if negb written then (cleanup flt es f, Err StageWriteFailed)
  else
    let '(f, changed) := chmod_file flt es script f in
    if negb changed then (cleanup flt es f, Err StageWriteFailed)
    else if close_fault flt then (cleanup flt es f, Err StageWriteFailed)
    else
      let '(f, renamed) := rename_over flt es p f in
      if negb renamed then (cleanup flt es f, Err SwapFailed) else (f, Ok tt).

Definition removeHook (flt : Faults) (p : path) : call unit :=
  do? _u := verifyOwned flt p in λ f,
  if remove_fault flt then (f, Err RemoveFailed)
  else match locate f p with
       | Ok es => (delete es f, Ok tt)
       | Err _ => (f, Err RemoveFailed)
       end.

Record Result := {
  r_Slot : Slot;
  r_Outcome : Outcome;
  r_Refusal : Refusal;
  r_Manual : string;
  r_Warnings : list WarningKind;
  r_Err : option LifecycleError;
}.

Definition writtenHookWarnings (f : fs) (s : Slot) (repo : Repository) : list WarningKind :=
  slotWarnings f
    {| s_Event := s_Event s; s_Path := s_Path s; s_RequireAutoPublishRule := s_RequireAutoPublishRule s;
       s_Ownership := OwnershipPeasant; s_Mode := ScriptMode; s_HandAdded := s_HandAdded s;
       s_GeneratedRemnant := s_GeneratedRemnant s; s_EmbeddedRoot := Root repo; s_EmbeddedCommand := s_EmbeddedCommand s;
       s_Language := s_Language s; s_Interpreter := s_Interpreter s; s_LinkTarget := s_LinkTarget s;
       s_Unreadable := s_Unreadable s |} repo.

Definition outcome_of (s : Slot) (o : Outcome) (r : Refusal) (manual : string) (ws : list WarningKind) (e : option LifecycleError) : Result :=
  {| r_Slot := s; r_Outcome := o; r_Refusal := r; r_Manual := manual; r_Warnings := ws; r_Err := e |}.

Definition written (f : fs) (s : Slot) (repo : Repository) (o : Outcome) (r : result LifecycleError unit) : Result :=
  match r with
  | Ok _ => outcome_of s o RefusalNone "" (writtenHookWarnings f s repo) None
  | Err e => outcome_of s OutcomeFailed RefusalNone "" [] (Some e)
  end.

Definition installOne (flt : Faults) (pl : Plan) (repo : Repository) (f : fs) : fs * Result :=
  let s := p_Slot pl in
  match p_Action pl with
  | ActionRefuse => (f, outcome_of s OutcomeRefused (p_Refusal pl) (p_Manual pl) [] None)
  | ActionCreate => let '(f, r) := createHook flt (elems (s_Path s)) (p_Script pl) f in (f, written f s repo OutcomeCreated r)
  | ActionReplace => let '(f, r) := replaceHook flt (elems (s_Path s)) (p_Script pl) f in (f, written f s repo OutcomeReplaced r)
  end.

Definition uninstallOne (flt : Faults) (pl : Plan) (f : fs) : fs * Result :=
  let s := p_Slot pl in
  if decide (p_Refusal pl = RefusalSharedPath ∧ s_Ownership s = OwnershipPeasant)
  then (f, outcome_of s OutcomeRefused (p_Refusal pl) "" [] None)
  else match s_Ownership s with
  | OwnershipAbsent => (f, outcome_of s OutcomeNotPresent RefusalNone "" [] None)
  | OwnershipForeign =>
    if s_Unreadable s then (f, outcome_of s OutcomeRefused RefusalForeignFile "" [] None)
    else if negb (CarriesUploadSection s) then (f, outcome_of s OutcomeNotPresent RefusalNone "" [] None)
    else (f, outcome_of s OutcomeRefused RefusalForeignFile "" [] None)
  | OwnershipPeasant =>
    let '(f, r) := removeHook flt (elems (s_Path s)) f in
    (f, match r with
        | Ok _ => outcome_of s OutcomeRemoved RefusalNone "" [] None
        | Err e => outcome_of s OutcomeFailed RefusalNone "" [] (Some e)
        end)
  end.

(** One event after the other; [step_] is the operation on one of them. *)
Fixpoint each_plan (step_ : Plan → fs → fs * Result) (plans : list Plan) (f : fs) : fs * list Result :=
  match plans with
  | [] => (f, [])
  | pl :: plans =>
    let '(f, r) := step_ pl f in
    let '(f, rs) := each_plan step_ plans f in
    (f, r :: rs)
  end.

Definition Install (req : Request) (f : fs) : result LifecycleError (fs * list Result) :=
  let? planned := plan f req intentInstall true in
  Ok (each_plan (λ pl, installOne (later (s_Event (p_Slot pl))) pl planned.1) planned.2 f).

Definition Uninstall (req : Request) (f : fs) : result LifecycleError (fs * list Result) :=
  let? planned := plan f req intentUninstall false in
  Ok (each_plan (λ pl, uninstallOne (later (s_Event (p_Slot pl))) pl) planned.2 f).

Definition Blocked (results : list Result) : bool :=
  existsb (λ r, bool_decide (r_Outcome r = OutcomeRefused ∨ r_Outcome r = OutcomeFailed)) results.
End planning.

(** [Lifecycle.Uploads]. *)
Definition Lifecycle_Uploads (faults : string → Faults) (f : fs) (root : string) (activeEvents : list string) (b : Binding) : bool :=
  match Status faults f {| req_Dir := root; req_Events := []; req_Binding := b |} with
  | Err _ => false
  | Ok (_, plans) =>
    existsb (λ p, Uploads p && (negb (s_RequireAutoPublishRule (p_Slot p)) || bool_decide (s_Event (p_Slot p) ∈ activeEvents))) plans
  end.
End lifecycle.
