(* ===== verification/HookSafety.v ===== *)
(** * What installing and removing hooks may do

    The theorems on [HookLifecycle]: walks in growing file systems, every call's
    effect, the first rule (only Peasant's own intact files change), all-or-nothing
    mutations, the effect of an install and its undoing, and what the offered
    section and the reports promise. *)
From S2P Require Import Prelude GoStrings GoText AutoPublish HookScript HookLifecycle.
From Stdlib Require Import Ascii.
Local Open Scope string_scope.
Local Open Scope list_scope.

(** ** Walks and growing file systems *)

Lemma node_at_mono (f f' : fs) p n : f ⊆ f' → node_at f p = Some n → node_at f' p = Some n.
Proof. intros Hsub. destruct p; [done|]. cbn. intros H. by apply (lookup_weaken f). Qed.

(** A walk that succeeds meets existing nodes only, so it succeeds in every larger
    file system. *)
Lemma walk_mono (links : nat) (f f' : fs) dest pending r :
  f ⊆ f' → walk links f dest pending = Ok r → walk links f' dest pending = Ok r.
Proof.
  intros Hsub. revert dest pending.
  induction links as [|links IHl]; intros dest pending; revert dest;
    (induction pending as [|e rest IH]; intros dest; [done|]); cbn [walk];
    (destruct (decide (e = "" ∨ e = ".")); [apply IH|]); (destruct (decide (e = "..")); [apply IH|]);
    destruct (node_at f (dest ++ [e])) as [nd|] eqn:E; try done; rewrite (node_at_mono _ _ _ _ Hsub E);
    destruct nd; try done; first [apply IH|apply IHl].
Qed.

Lemma locate_mono (f f' : fs) p es : f ⊆ f' → locate f p = Ok es → locate f' p = Ok es.
Proof.
  intros Hsub. unfold locate. destruct (last p) as [base|]; [|done].
  intros (dir & Hw & H)%res_bind_ok. unfold kernel_walk in *. rewrite (walk_mono _ _ _ _ _ _ Hsub Hw). cbn [res_bind].
  destruct (node_at f dir) as [n|] eqn:E; [|done]. by rewrite (node_at_mono _ _ _ _ Hsub E).
Qed.

(** What a walk sees of a node: the target of a link, or whether it is a directory. *)
Inductive shape := SLink (target : string) | SDirectory | SLeaf.
Definition shape_of (n : node) : shape :=
  match n with Link t => SLink t | Directory _ => SDirectory | _ => SLeaf end.

Definition same_shapes (f f' : fs) : Prop := ∀ q, shape_of <$> f !! q = shape_of <$> f' !! q.

Lemma walk_shapes (links : nat) (f f' : fs) dest pending :
  same_shapes f f' → walk links f dest pending = walk links f' dest pending.
Proof.
  intros Hs. revert dest pending.
  induction links as [|links IHl]; intros dest pending; revert dest;
    (induction pending as [|e rest IH]; intros dest; [done|]); cbn [walk];
    (destruct (decide (e = "" ∨ e = ".")); [apply IH|]); (destruct (decide (e = "..")); [apply IH|]);
    (assert (shape_of <$> node_at f (dest ++ [e]) = shape_of <$> node_at f' (dest ++ [e])) as Hn
       by (unfold node_at; destruct (dest ++ [e]); [done|apply Hs]));
    destruct (node_at f _) as [[]|], (node_at f' _) as [[]|]; cbn in Hn; try done; simplify_eq; auto.
Qed.

Lemma locate_shapes (f f' : fs) p : same_shapes f f' → locate f p = locate f' p.
Proof.
  intros Hs. unfold locate, kernel_walk. destruct (last p); [|done]. rewrite (walk_shapes _ f f') by done.
  destruct (walk 40 f' [] (removelast p)) as [dir|]; [|done]. cbn [res_bind].
  assert (shape_of <$> node_at f dir = shape_of <$> node_at f' dir) as Hn by (unfold node_at; destruct dir; [done|apply Hs]).
  by destruct (node_at f dir) as [[]|], (node_at f' dir) as [[]|].
Qed.

Lemma same_shapes_file (f : fs) es c m c' m' :
  f !! es = Some (File c m) → same_shapes (<[es := File c' m']> f) f.
Proof. intros H q. destruct (decide (q = es)) as [->|Hq]; [by rewrite lookup_insert_eq, H|by rewrite lookup_insert_ne]. Qed.

(** The file system with more directories, and nothing else changed. *)
Definition grown (f f' : fs) : Prop := ∀ q, f' !! q = f !! q ∨ f !! q = None ∧ ∃ m, f' !! q = Some (Directory m).

Lemma grown_refl f : grown f f.
Proof. by left. Qed.

Lemma grown_insert (f f' : fs) es m : grown f f' → f' !! es = None → grown f (<[es := Directory m]> f').
Proof.
  intros Hg Hes q. destruct (decide (q = es)) as [->|Hq].
  - right. split; [|eexists; apply lookup_insert_eq]. destruct (Hg es) as [H|[H _]]; congruence.
  - rewrite lookup_insert_ne by done. apply Hg.
Qed.

Lemma grown_sub f f' : grown f f' → f ⊆ f'.
Proof. intros Hg. apply map_subseteq_spec. intros q n Hn. destruct (Hg q) as [H|[H _]]; congruence. Qed.

Lemma node_at_none (f : fs) es : node_at f es = None → f !! es = None ∧ es ≠ [].
Proof. by destruct es. Qed.

Lemma locate_last f p es : locate f p = Ok es → last es = last p.
Proof.
  unfold locate. destruct (last p) as [base|] eqn:E; [|by intros [= <-]].
  intros (dir & _ & H)%res_bind_ok. destruct (node_at f dir) as [[]|]; try done. injection H as <-. by rewrite last_snoc.
Qed.

(** ** The calls *)

Lemma mkdir_all_grown flt have missing f f0 f' r :
  grown f0 f → mkdir_all flt have missing f = (f', r) → grown f0 f'.
Proof.
  revert have f. induction missing as [|e rest IH]; intros have f Hg; cbn [mkdir_all]; [by intros [= <- _]|].
  destruct (stat f (have ++ [e])) as [[]|]; try (intros [= <- _]; done); [by apply IH|].
  destruct (mkdir_fault flt); [by intros [= <- _]|]. destruct (locate f (have ++ [e])) as [es|]; [|by intros [= <- _]].
  destruct (node_at f es) eqn:E; [by intros [= <- _]|]. apply IH, grown_insert; [done|]. by apply node_at_none in E as [E _].
Qed.

Lemma create_exclusive_ok flt fail mode p f f' es :
  create_exclusive flt fail mode p f = (f', Ok es) →
  locate f p = Ok es ∧ f !! es = None ∧ es ≠ [] ∧ f' = <[es := File "" mode]> f.
Proof.
  unfold create_exclusive. destruct (open_fault flt); [done|]. destruct (locate f p) as [es'|]; [|done].
  destruct (node_at f es') eqn:E; [done|]. intros [= <- <-]. apply node_at_none in E as [? ?]. done.
Qed.

Lemma create_exclusive_err flt fail mode p f f' e : create_exclusive flt fail mode p f = (f', Err e) → f' = f.
Proof.
  unfold create_exclusive. destruct (open_fault flt); [by intros [= <-]|]. destruct (locate f p) as [es'|]; [|by intros [= <-]].
  destruct (node_at f es'); [by intros [= <-]|done].
Qed.

(** The fate of a file being created: complete, or gone unless its removal fails too. *)
Lemma fill_created (flt : Faults) (f : fs) (es : path) mode script f' (b : bool) :
  f !! es = None →
  (let '(f, written) := write_file flt es script mode (<[es := File "" mode]> f) in
   if negb written then (cleanup flt es f, false)
   else let '(f, changed) := chmod_file flt es script f in
        if negb changed then (cleanup flt es f, false)
        else if close_fault flt then (cleanup flt es f, false) else (f, true)) = (f', b) →
  b = false ∧ f ⊆ f' ∧ (cleanup_fault flt = false → f' = f) ∨ b = true ∧ f' = <[es := File script ScriptMode]> f.
Proof.
  intros Hes.
  assert (∀ n, f ⊆ cleanup flt es (<[es := n]> f) ∧ (cleanup_fault flt = false → cleanup flt es (<[es := n]> f) = f)) as Hc.
  { intros n. unfold cleanup. destruct (cleanup_fault flt); [split; [by apply insert_subseteq|done]|]. by rewrite delete_insert_id. }
  unfold write_file, chmod_file.
  destruct (write_fault flt); cbn [negb]; rewrite insert_insert_eq; [intros [= <- <-]; left; by split; [|apply Hc]|].
  destruct (chmod_fault flt); cbn [negb]; [intros [= <- <-]; left; by split; [|apply Hc]|].
  rewrite insert_insert_eq. destruct (close_fault flt); intros [= <- <-]; [left; by split; [|apply Hc]|by right].
Qed.

(** Creating a hook: either the slot, free before, holds the complete script, or
    only missing directories were created. *)
Lemma createHook_spec flt p script f f' r :
  createHook flt p script f = (f', r) →
  ∃ f1, grown f f1 ∧
    match r with
    | Ok _ => ∃ es, locate f1 p = Ok es ∧ f1 !! es = None ∧ es ≠ [] ∧ f' = <[es := File script ScriptMode]> f1
    | Err _ => f1 ⊆ f' ∧ (cleanup_fault flt = false → f' = f1)
    end.
Proof.
  unfold createHook, call_bind. destruct (ensureHooksDir flt (removelast p) f) as [f1 [[]|e]] eqn:Ed;
    apply (mkdir_all_grown _ _ _ _ f) in Ed as Hg; try apply grown_refl; [|by intros [= <- <-]; eauto].
  destruct (create_exclusive _ _ _ _ _) as [f2 [es|e]] eqn:Ec;
    [|apply create_exclusive_err in Ec as ->; intros [= <- <-]; eauto].
  apply create_exclusive_ok in Ec as (Hl & Hes & Hne & ->). intros H. exists f1. split; [done|].
  destruct (fill_created flt f1 es (Z.land ScriptMode (Z.lnot (umask flt))) script f' (match r with Ok _ => true | Err _ => false end) Hes) as [(Hb & Hr)|[Hb ->]].
  - destruct (write_file _ _ _ _ _) as [f3 []]; cbn [negb] in *; [|by injection H as <- <-].
    destruct (chmod_file _ _ _ _) as [f4 []]; cbn [negb] in *; [|by injection H as <- <-].
    destruct (close_fault flt); by injection H as <- <-.
  - by destruct r.
  - destruct r; [|done]. eauto.
Qed.

Lemma verifyOwned_ok flt p f f' : verifyOwned flt p f = (f', Ok tt) →
  f' = f ∧ ∃ es c m, locate f p = Ok es ∧ f !! es = Some (File c m) ∧ es ≠ [] ∧ IsManaged c = true.
Proof.
  unfold verifyOwned, readRegularSlot, lstat. destruct (read_fault flt); [done|].
  destruct (locate f p) as [es|] eqn:El; [|done]. cbn [res_bind]. destruct (node_at f es) as [[c m| | |]|] eqn:E; try done.
  destruct (IsManaged c) eqn:Em; [|done]. intros [= <-]. split; [done|]. exists es, c, m. by destruct es.
Qed.

Lemma verifyOwned_err flt p f f' e : verifyOwned flt p f = (f', Err e) → f' = f.
Proof. unfold verifyOwned. destruct (readRegularSlot _ _ _); [|by intros [= <-]]. by case_match; intros [= <-]. Qed.

(** Replacing a hook: only a managed file is replaced, by the complete script. *)
Lemma replaceHook_spec flt p script f f' r :
  replaceHook flt p script f = (f', r) →
  match r with
  | Ok _ => ∃ es c m, locate f p = Ok es ∧ f !! es = Some (File c m) ∧ es ≠ [] ∧ IsManaged c = true
                ∧ f' = <[es := File script ScriptMode]> f
  | Err _ => f ⊆ f' ∧ (cleanup_fault flt = false → f' = f)
  end.
Proof.
  unfold replaceHook, call_bind. destruct (verifyOwned flt p f) as [f1 [[]|e]] eqn:Ev;
    [|apply verifyOwned_err in Ev as ->; by intros [= <- <-]].
  apply verifyOwned_ok in Ev as (-> & es & c & m & Hl & Hes & Hroot & Hm).
  destruct (create_exclusive _ _ _ _ _) as [f2 [ts|e]] eqn:Ec; [|apply create_exclusive_err in Ec as ->; by intros [= <- <-]].
  apply create_exclusive_ok in Ec as (_ & Hts & _ & ->). set (mode := Z.land 384 (Z.lnot (umask flt))).
  assert (∀ n, f ⊆ cleanup flt ts (<[ts := n]> f) ∧ (cleanup_fault flt = false → cleanup flt ts (<[ts := n]> f) = f)) as Hc.
  { intros n. unfold cleanup. destruct (cleanup_fault flt); [split; [by apply insert_subseteq|done]|]. by rewrite delete_insert_id. }
  unfold write_file, chmod_file.
  destruct (write_fault flt); cbn [negb]; rewrite insert_insert_eq; [by intros [= <- <-]|].
  destruct (chmod_fault flt); cbn [negb]; [by intros [= <- <-]|]. rewrite insert_insert_eq.
  destruct (close_fault flt); [by intros [= <- <-]|].
  unfold rename_over. destruct (rename_fault flt); cbn [negb]; [by intros [= <- <-]|].
  rewrite (locate_mono f _ p es) by (done || by apply insert_subseteq). rewrite lookup_insert_eq.
  assert (es ≠ ts) as Hne by congruence.
  assert (node_at (<[ts := File script ScriptMode]> f) es = Some (File c m)) as ->
    by (destruct es; [done|]; cbn [node_at]; by rewrite lookup_insert_ne).
  cbn [negb]. intros [= <- <-]. exists es, c, m. rewrite delete_insert_id by done. done.
Qed.

Lemma removeHook_spec flt p f f' r :
  removeHook flt p f = (f', r) →
  match r with
  | Ok _ => ∃ es c m, locate f p = Ok es ∧ f !! es = Some (File c m) ∧ IsManaged c = true ∧ f' = delete es f
  | Err _ => f' = f
  end.
Proof.
  unfold removeHook, call_bind. destruct (verifyOwned flt p f) as [f1 [[]|e]] eqn:Ev;
    [|apply verifyOwned_err in Ev as ->; by intros [= <- <-]].
  apply verifyOwned_ok in Ev as (-> & es & c & m & Hl & Hes & Hroot & Hm).
  destruct (remove_fault flt); [by intros [= <- <-]|]. rewrite Hl. intros [= <- <-]. eauto 10.
Qed.

(** ** Plans *)

Lemma inspect_slot flt f event p s : inspect flt f event p = Ok s → s_Event s = event ∧ s_Path s = p.
Proof.
  unfold inspect. destruct (lstat_fault flt); [done|].
  destruct (lstat f (elems p)) as [[c m|t|m|m]|[]]; try done; try (by intros [= <-]).
  - destruct (read_fault flt); [done|]. destruct (IsManaged c); [by intros [= <-]|].
    unfold classifyForeign. destruct (ClassifyHookLanguage c). by intros [= <-].
  - destruct (readRegularTarget _ _ _) as [[c m]|]; [|by intros [= <-]].
    unfold classifyForeign. destruct (ClassifyHookLanguage c). by intros [= <-].
Qed.

Lemma lift_script_ok {A} (r : result HookError A) a : lift_script r = Ok a → r = Ok a.
Proof. destruct r; [by intros [= ->]|done]. Qed.

(** What a plan decided, case by case. *)
Lemma planFor_ok f s repo b op owner pl :
  planFor f s repo b op owner = Ok pl →
  p_Slot pl = s ∧
  if privateHookPath f s repo then
    match s_Ownership s with
    | OwnershipForeign => p_Action pl = ActionRefuse ∧ p_Refusal pl = RefusalForeignFile ∧ p_Warnings pl = []
        ∧ (p_Manual pl ≠ "" → op ≠ intentUninstall ∧ CarriesUploadSection s = false ∧ AcceptsShellSection f s = true)
    | own => p_Action pl = (match own with OwnershipPeasant => ActionReplace | _ => ActionCreate end)
        ∧ p_Refusal pl = RefusalNone ∧ p_Manual pl = "" ∧ p_Warnings pl = slotWarnings f s repo
        ∧ Script (s_Event s) (Root repo) (s_Path s) (forEvent b (s_Event s)) = Ok (p_Script pl)
    end
  else p_Action pl = ActionRefuse ∧ p_Refusal pl = RefusalSharedPath ∧ p_Manual pl = "" ∧ p_Warnings pl = [].
Proof.
  unfold planFor. destruct (privateHookPath f s repo); cbn [negb]; [|by intros [= <-]].
  destruct (s_Ownership s).
  1, 2: by intros (script & Hs%lift_script_ok & [= <-])%res_bind_ok.
  intros (manual & Hm & [= <-])%res_bind_ok. split_and!; [done..|]. cbn [p_Manual]. intros Hne.
  destruct (bool_decide (op ≠ intentUninstall)) eqn:Eo; [|by injection Hm as <-].
  destruct (CarriesUploadSection s); [by injection Hm as <-|].
  destruct (AcceptsShellSection f s); [|by injection Hm as <-]. by apply bool_decide_eq_true in Eo.
Qed.

Section plans.
Context `{G : GitResolver} (faults later : string → Faults).

Lemma plan_events_slots f requested repo b op events plans :
  plan_events faults f requested repo b op events = Ok plans →
  ∀ pl, pl ∈ plans → ∃ event, event ∈ events ∧ s_Event (p_Slot pl) = event ∧ git_HookPath requested event = Some (s_Path (p_Slot pl)).
Proof.
  revert plans. induction events as [|event events IH]; intros plans; [by intros [= <-] pl Hpl%elem_of_nil|].
  cbn [plan_events]. intros (p & Hp & (s & Hs & (pl' & Hpl' & (pls & Hpls & [= <-])%res_bind_ok)%res_bind_ok)%res_bind_ok)%res_bind_ok pl [->|Hpl]%elem_of_cons.
  - apply inspect_slot in Hs as [He Hpath]. apply planFor_ok in Hpl' as [-> _]. exists event. split; [by left|]. split; [done|].
    destruct (git_HookPath requested event) as [p'|]; [|done]. injection Hp as ->. by rewrite Hpath.
  - destruct (IH pls Hpls pl Hpl) as (e & He & H). exists e. split; [by right|done].
Qed.

Lemma normalizeEvents_known events explicit es : normalizeEvents events explicit = Ok es → ∀ e, e ∈ es → e ∈ AllEvents.
Proof.
  unfold normalizeEvents. case_decide; [destruct explicit; [done|by intros [= <-]]|].
  intros [_ [= <-]]%res_seq_ok e He. by apply list_elem_of_filter in He as [_ He].
Qed.

Lemma plan_slots f req op explicit repo plans :
  plan faults f req op explicit = Ok (repo, plans) →
  ∀ pl, pl ∈ plans → ∃ dir, s_Event (p_Slot pl) ∈ AllEvents ∧ git_HookPath dir (s_Event (p_Slot pl)) = Some (s_Path (p_Slot pl)).
Proof.
  unfold plan. intros (events & He & (dir & _ & (root & _ & (gd & _ & (pls & Hp & [= _ <-])%res_bind_ok)%res_bind_ok)%res_bind_ok)%res_bind_ok)%res_bind_ok pl Hpl.
  destruct (plan_events_slots _ _ _ _ _ _ _ Hp pl Hpl) as (e & Hin & <- & Hpath). exists dir.
  split; [by apply (normalizeEvents_known _ _ _ He)|done].
Qed.

(** ** The first rule: only Peasant's own files change *)

Definition owned (n : node) : Prop := ∃ c m, n = File c m ∧ IsManaged c = true.

(** Existing entries stay, but for owned files at an entry named like the slot. *)
Definition spares (p : path) (f f' : fs) : Prop :=
  ∀ q n, f !! q = Some n → f' !! q = Some n ∨ owned n ∧ last q = last p.

Lemma sub_spares p f f' : f ⊆ f' → spares p f f'.
Proof. intros Hsub q n Hn. left. by apply (lookup_weaken f). Qed.

Lemma owned_spares (p : path) (f f' : fs) (es : path) c m :
  locate f p = Ok es → f !! es = Some (File c m) → IsManaged c = true → (∀ q, q ≠ es → f' !! q = f !! q) → spares p f f'.
Proof.
  intros Hl Hes Hm Hf q n Hn. destruct (decide (q = es)) as [->|Hq]; [|left; by rewrite Hf].
  right. split; [|by apply (locate_last f)]. exists c, m. split; [congruence|done].
Qed.

Lemma installOne_spares flt pl repo f f' r :
  installOne flt pl repo f = (f', r) → spares (elems (s_Path (p_Slot pl))) f f'.
Proof.
  unfold installOne. destruct (p_Action pl).
  - destruct (createHook _ _ _ _) as [f2 r2] eqn:E. intros [= <- <-]. apply createHook_spec in E as (f1 & Hg%grown_sub & H).
    apply sub_spares. destruct r2; [|transitivity f1; [done|apply H]]. destruct H as (es & _ & Hes & _ & ->).
    transitivity f1; [done|]. by apply insert_subseteq.
  - destruct (replaceHook _ _ _ _) as [f2 r2] eqn:E. intros [= <- <-]. apply replaceHook_spec in E.
    destruct r2; [|by destruct E as [E _]; apply sub_spares]. destruct E as (es & c & m & Hl & Hes & _ & Hm & ->).
    eapply owned_spares; [done..|]. intros q Hq. by apply lookup_insert_ne.
  - intros [= <- <-]. by apply sub_spares.
Qed.

Lemma uninstallOne_spares flt pl f f' r :
  uninstallOne flt pl f = (f', r) → spares (elems (s_Path (p_Slot pl))) f f'.
Proof.
  unfold uninstallOne. case_decide; [intros [= <- <-]; by apply sub_spares|].
  destruct (s_Ownership (p_Slot pl)); [by intros [= <- <-]; apply sub_spares| |
    repeat case_match; intros [= <- <-]; by apply sub_spares].
  destruct (removeHook _ _ _) as [f2 r2] eqn:E. intros [= <- <-]. apply removeHook_spec in E.
  destruct r2; [|by subst; apply sub_spares]. destruct E as (es & c & m & Hl & Hes & Hm & ->).
  eapply owned_spares; [done..|]. intros q Hq. by apply lookup_delete_ne.
Qed.

Lemma each_plan_spares step_ plans f f' rs :
  (∀ pl f f' r, step_ pl f = (f', r) → spares (elems (s_Path (p_Slot pl))) f f') →
  each_plan step_ plans f = (f', rs) →
  ∀ q n, f !! q = Some n → f' !! q = Some n ∨ owned n ∧ ∃ pl, pl ∈ plans ∧ last q = last (elems (s_Path (p_Slot pl))).
Proof.
  intros Hstep. revert f rs. induction plans as [|pl plans IH]; intros f rs; cbn [each_plan]; [by intros [= <- <-]; left|].
  destruct (step_ pl f) as [f1 r] eqn:E1. destruct (each_plan step_ plans f1) as [f2 rs2] eqn:E2. intros [= <- <-] q n Hn.
  destruct (Hstep _ _ _ _ E1 q n Hn) as [H1|[Ho Hl]]; [|right; split; [done|]; exists pl; split; [by left|done]].
  destruct (IH _ _ E2 q n H1) as [H2|[Ho (pl' & Hin & Hl)]]; [by left|]. right. split; [done|]. exists pl'. split; [by right|done].
Qed.

(** C35: whatever fails, installing or removing hooks never changes a file, a link or a
    directory Peasant does not own: an entry that changed was an intact generated
    hook, at an entry with the name of a slot Git reports for a managed event. *)
Theorem foreign_files_untouched req f f' rs :
  Install faults later req f = Ok (f', rs) ∨ Uninstall faults later req f = Ok (f', rs) →
  ∀ q n, f !! q = Some n → f' !! q = Some n ∨
    owned n ∧ ∃ dir event p, event ∈ AllEvents ∧ git_HookPath dir event = Some p ∧ last q = last (elems p).
Proof.
  intros H q n Hn.
  enough (∃ repo plans op explicit, plan faults f req op explicit = Ok (repo, plans) ∧
    (f' !! q = Some n ∨ owned n ∧ ∃ pl, pl ∈ plans ∧ last q = last (elems (s_Path (p_Slot pl))))) as (repo & plans & op & ex & Hp & [Hq|[Ho (pl & Hin & Hl)]]).
  - by left.
  - right. split; [done|]. destruct (plan_slots _ _ _ _ _ _ Hp pl Hin) as (dir & He & Hpath). eauto 10.
  - destruct H as [([repo plans] & Hp & [= H])%res_bind_ok|([repo plans] & Hp & [= H])%res_bind_ok];
      do 4 eexists; (split; [exact Hp|]); eapply each_plan_spares; [|exact H|exact Hn| |exact H|exact Hn]; cbn; intros;
      eauto using installOne_spares, uninstallOne_spares.
Qed.
End plans.

(** ** Each mutation *)

(** C38: the mutation of one event is all or nothing, as long as a file Peasant has
    just created can be removed again: a success leaves the complete executable
    script at the slot, which was free or held an intact generated hook, and a
    refusal or failure leaves every file as it was; missing directories may have
    been created in either case. *)
Theorem install_all_or_nothing flt pl repo f f' r :
  installOne flt pl repo f = (f', r) → cleanup_fault flt = false →
  ∃ f1, grown f f1 ∧
    match r_Outcome r with
    | OutcomeCreated => ∃ es, locate f1 (elems (s_Path (p_Slot pl))) = Ok es ∧ f1 !! es = None
        ∧ f' = <[es := File (p_Script pl) ScriptMode]> f1
    | OutcomeReplaced => ∃ es n, f1 = f ∧ locate f (elems (s_Path (p_Slot pl))) = Ok es ∧ f !! es = Some n ∧ owned n
        ∧ f' = <[es := File (p_Script pl) ScriptMode]> f
    | OutcomeRefused => f' = f ∧ p_Action pl = ActionRefuse
    | OutcomeFailed => f' = f1 ∧ r_Err r ≠ None
    | _ => False
    end.
Proof.
  unfold installOne. destruct (p_Action pl); intros H Hc.
  - destruct (createHook _ _ _ _) as [f2 r2] eqn:E. injection H as <- <-. apply createHook_spec in E as (f1 & Hg & H).
    exists f1. split; [done|]. destruct r2; cbn; [|by destruct H as [_ H]; split; [apply H|]]. destruct H as (es & ? & ? & _ & ->). eauto.
  - destruct (replaceHook _ _ _ _) as [f2 r2] eqn:E. injection H as <- <-. apply replaceHook_spec in E.
    exists f. split; [apply grown_refl|]. destruct r2; cbn; [|by destruct E as [_ E]; split; [apply E|]].
    destruct E as (es & c & m & Hl & Hes & _ & Hm & ->). exists es, (File c m). unfold owned. eauto 10.
  - injection H as <- <-. exists f. split; [apply grown_refl|done].
Qed.

(** A written hook is found by the next inspection. *)
Lemma installed_lstat flt pl repo f f' r :
  installOne flt pl repo f = (f', r) → r_Outcome r = OutcomeCreated ∨ r_Outcome r = OutcomeReplaced →
  ∃ es, es ≠ [] ∧ locate f' (elems (s_Path (p_Slot pl))) = Ok es ∧ f' !! es = Some (File (p_Script pl) ScriptMode).
Proof.
  unfold installOne. destruct (p_Action pl).
  - destruct (createHook _ _ _ _) as [f2 r2] eqn:E. intros [= <- <-] Ho. apply createHook_spec in E as (f1 & Hg & H).
    destruct r2; [|by destruct Ho]. destruct H as (es & Hl & Hes & Hne & ->). exists es. split; [done|].
    split; [|apply lookup_insert_eq]. apply (locate_mono f1); [by apply insert_subseteq|done].
  - destruct (replaceHook _ _ _ _) as [f2 r2] eqn:E. intros [= <- <-] Ho. apply replaceHook_spec in E.
    destruct r2; [|by destruct Ho]. destruct E as (es & c & m & Hl & Hes & Hne & Hm & ->). exists es.
    rewrite (locate_shapes _ f) by (by eapply same_shapes_file). split_and!; [done..|apply lookup_insert_eq].
  - intros [= <- <-] [[=]|[=]].
Qed.

Definition readable (flt : Faults) : Prop := lstat_fault flt = None ∧ read_fault flt = false.

Lemma inspect_file flt f event p es c m :
  readable flt → locate f (elems p) = Ok es → es ≠ [] → f !! es = Some (File c m) → IsManaged c = true →
  inspect flt f event p =
    Ok {| s_Event := event; s_Path := p; s_RequireAutoPublishRule := Contains c guardFlag;
          s_Ownership := OwnershipPeasant; s_Mode := m; s_HandAdded := false; s_GeneratedRemnant := false;
          s_EmbeddedRoot := EmbeddedRepository c; s_EmbeddedCommand := EmbeddedCommand c;
          s_Language := LangUnclassified; s_Interpreter := ""; s_LinkTarget := ""; s_Unreadable := false |}.
Proof.
  intros [H1 H2] Hl Hne Hes Hm. unfold inspect, lstat. rewrite H1, Hl. cbn [res_bind].
  assert (node_at f es = Some (File c m)) as -> by by destruct es. by rewrite H2, Hm.
Qed.

Lemma written_script f0 f s repo b op owner pl flt f' r :
  planFor f0 s repo b op owner = Ok pl → installOne flt pl repo f = (f', r) →
  r_Outcome r = OutcomeCreated ∨ r_Outcome r = OutcomeReplaced →
  p_Slot pl = s ∧ Script (s_Event s) (Root repo) (s_Path s) (forEvent b (s_Event s)) = Ok (p_Script pl).
Proof.
  intros [Hslot Hcase]%planFor_ok Hi Ho. split; [done|].
  assert (p_Action pl ≠ ActionRefuse) as Ha.
  { intros Ha. unfold installOne in Hi. rewrite Ha in Hi. injection Hi as <- <-. by destruct Ho. }
  destruct (privateHookPath f0 s repo); [|by destruct Hcase].
  destruct (s_Ownership s); [apply Hcase..|by destruct Hcase].
Qed.

(** A successful install takes effect: the next status finds at that slot an
    intact hook of Peasant's that Git can execute, written for this repository, whose
    command is the upload of this repository under the bound paths, and reports that
    Git runs an upload from it. *)
Theorem install_takes_effect flt flt' f0 f s repo b owner pl f' r :
  planFor f0 s repo b intentInstall owner = Ok pl →
  installOne flt pl repo f = (f', r) →
  r_Outcome r = OutcomeCreated ∨ r_Outcome r = OutcomeReplaced →
  readable flt' →
  ∃ s', inspect flt' f' (s_Event s) (s_Path s) = Ok s'
    ∧ s_Ownership s' = OwnershipPeasant ∧ executableByGit (s_Mode s') = true
    ∧ s_EmbeddedRoot s' = Root repo ∧ s_EmbeddedCommand s' = RepositoryCommand (Root repo) (forEvent b (s_Event s))
    ∧ ∀ b' owner' pl', planFor f' s' repo b' intentStatus owner' = Ok pl' → Uploads pl' = true.
Proof.
  intros Hp Hi Ho Hr. destruct (written_script _ _ _ _ _ _ _ _ _ _ _ Hp Hi Ho) as [Hslot Hs].
  destruct (script_identity _ _ _ _ _ Hs) as (Hm & Her & Hec). rewrite forEvent_idem in Hec.
  destruct (installed_lstat _ _ _ _ _ _ Hi Ho) as (es & Hne & Hl & Hes). rewrite Hslot in Hl.
  eexists. split; [by eapply inspect_file|]. cbn. split_and!; [done..|].
  intros b' owner' pl' [Hs' Hc']%planFor_ok. unfold Uploads. rewrite Hs'. cbn in Hc' |- *.
  destruct (privateHookPath _ _ _).
  - destruct Hc' as (_ & _ & _ & -> & _). unfold slotWarnings. cbn [s_Ownership s_Mode s_EmbeddedRoot].
    rewrite Her. change (executableByGit ScriptMode) with true.
    destruct (bool_decide (Root repo ≠ "" ∧ Root repo ≠ Root repo)) eqn:Eb; [by apply bool_decide_eq_true in Eb as [_ []]|].
    cbn. by repeat case_match.
  - by destruct Hc' as (_ & _ & _ & ->).
Qed.

(** C37: uninstalling what an install created leaves the file system as it was, but
    for the directories the install had to create. *)
Theorem uninstall_undoes_install flt flt' f s repo b b' owner owner' pl pl' f1 r f2 r2 s' :
  planFor f s repo b intentInstall owner = Ok pl →
  installOne flt pl repo f = (f1, r) → r_Outcome r = OutcomeCreated →
  readable flt' → remove_fault flt' = false →
  inspect flt' f1 (s_Event s) (s_Path s) = Ok s' →
  planFor f1 s' repo b' intentUninstall owner' = Ok pl' → privateHookPath f1 s' repo = true →
  uninstallOne flt' pl' f1 = (f2, r2) →
  r_Outcome r2 = OutcomeRemoved ∧ grown f f2.
Proof.
  intros Hp Hi Ho Hr Hrm Hin Hp' Hpriv Hu.
  destruct (written_script _ _ _ _ _ _ _ _ _ _ _ Hp Hi (or_introl Ho)) as [Hslot Hs].
  destruct (script_identity _ _ _ _ _ Hs) as (Hm & _).
  assert (∃ g es, grown f g ∧ g !! es = None ∧ es ≠ [] ∧ locate f1 (elems (s_Path s)) = Ok es
    ∧ f1 = <[es := File (p_Script pl) ScriptMode]> g) as (g & es & Hg & Hnone & Hne & Hl & ->).
  { unfold installOne in Hi. rewrite Hslot in Hi. destruct (p_Action pl).
    - destruct (createHook _ _ _ _) as [f3 r3] eqn:E. injection Hi as <- <-.
      apply createHook_spec in E as (g & Hg & H). destruct r3; [|done]. destruct H as (es & Hl & Hes & Hne & ->).
      exists g, es. split_and!; [done..| |done]. apply (locate_mono g); [by apply insert_subseteq|done].
    - destruct (replaceHook _ _ _ _) as [f3 [u|e]]; by injection Hi as <- <-.
    - by injection Hi as <- <-. }
  rewrite (inspect_file flt' _ _ _ _ _ _ Hr Hl Hne (lookup_insert_eq _ _ _) Hm) in Hin. injection Hin as <-.
  apply planFor_ok in Hp' as [Hslot' Hcase']. rewrite Hpriv in Hcase'. cbn in Hcase'. destruct Hcase' as (_ & Hrf & _).
  unfold uninstallOne in Hu. rewrite Hslot', Hrf in Hu. cbn in Hu. unfold removeHook, call_bind, verifyOwned, readRegularSlot, lstat in Hu.
  destruct Hr as [_ Hread]. rewrite Hread, Hl in Hu. cbn [res_bind] in Hu.
  assert (node_at (<[es := File (p_Script pl) ScriptMode]> g) es = Some (File (p_Script pl) ScriptMode)) as Hn
    by (destruct es; [done|apply lookup_insert_eq]).
  rewrite Hn, Hm, Hrm, Hl in Hu. injection Hu as <- <-. split; [done|]. by rewrite delete_insert_id.
Qed.

(** ** Honest advice *)

(** The bytes Git would run for a slot. *)
Definition executed (f : fs) (p : string) (content : string) : Prop :=
  ∃ mode, stat f (elems p) = Ok (File content mode) ∨ lstat f (elems p) = Ok (File content mode).

Lemma classified_fields s content :
  let s' := classifyForeign s content in
  s_Ownership s' = s_Ownership s ∧ s_Unreadable s' = s_Unreadable s ∧ s_LinkTarget s' = s_LinkTarget s ∧ s_Path s' = s_Path s
  ∧ s_Language s' = (ClassifyHookLanguage content).1 ∧ s_HandAdded s' = ContainsManualSection content
  ∧ s_GeneratedRemnant s' = ContainsGeneratedSection content.
Proof. unfold classifyForeign. by destruct (ClassifyHookLanguage content). Qed.

(** A foreign slot that could be read was classified by the bytes Git runs. *)
Lemma inspect_foreign flt f event p s :
  inspect flt f event p = Ok s → s_Ownership s = OwnershipForeign → s_Unreadable s = false →
  ∃ content, executed f p content ∧ s_Language s = (ClassifyHookLanguage content).1
    ∧ s_HandAdded s = ContainsManualSection content ∧ s_GeneratedRemnant s = ContainsGeneratedSection content.
Proof.
  unfold inspect. destruct (lstat_fault flt); [done|].
  destruct (lstat f (elems p)) as [[c m|t|m|m]|[]] eqn:El; try done; try (by intros [= <-]).
  - destruct (read_fault flt); [done|]. destruct (IsManaged c); [by intros [= <-]|]. intros [= <-] _ _.
    destruct (classified_fields (foreignSlot event p m "" false (Contains c guardFlag)) c) as (_ & _ & _ & _ & ? & ? & ?).
    exists c. split; [|done]. exists m. by right.
  - unfold readRegularTarget. destruct (read_fault flt); [by intros [= <-]|].
    destruct (stat f (elems p)) as [[c m|t'|m|m]|] eqn:Es; try (by intros [= <-]). intros [= <-] _ _.
    destruct (classified_fields (foreignSlot event p m (linkTarget f p) false (Contains c guardFlag)) c) as (_ & _ & _ & _ & ? & ? & ?).
    exists c. split; [|done]. exists m. by left.
Qed.

Lemma carries_false s : s_Ownership s = OwnershipForeign → CarriesUploadSection s = false →
  s_HandAdded s = false ∧ s_GeneratedRemnant s = false.
Proof. intros Ho. unfold CarriesUploadSection. rewrite Ho. cbn. by intros [? ?]%orb_false_iff. Qed.

(** The by-hand shell section is offered only for a file of this repository alone
    that was read, that Git runs with a POSIX shell and that carries no upload
    section yet, and never while uninstalling. *)
Theorem section_offered_only_to_shells flt f event p s repo b op owner pl :
  inspect flt f event p = Ok s → planFor f s repo b op owner = Ok pl → p_Manual pl ≠ "" →
  op ≠ intentUninstall ∧ privateHookPath f s repo = true ∧ LinkLeavesHooksDirectory f s = false ∧
  ∃ content, executed f p content ∧ (ClassifyHookLanguage content).1 = LangPOSIXShell
    ∧ ContainsManualSection content = false ∧ ContainsGeneratedSection content = false.
Proof.
  intros Hi [Hs Hc]%planFor_ok Hm. destruct (privateHookPath f s repo) eqn:Epriv; [|by destruct Hc as (_ & _ & ? & _)].
  destruct (s_Ownership s) eqn:Eo; [by destruct Hc as (_ & _ & ? & _)..|].
  destruct Hc as (_ & _ & _ & Hoffer). destruct (Hoffer Hm) as (Hop & Hcar & Hacc).
  destruct (carries_false s Eo Hcar) as [Hh Hg]. unfold AcceptsShellSection in Hacc.
  destruct (s_Unreadable s) eqn:Eu; [done|]. destruct (LinkLeavesHooksDirectory f s) eqn:El; [done|].
  cbn [orb] in Hacc. apply bool_decide_eq_true in Hacc. split_and!; [done..|].
  destruct (inspect_foreign _ _ _ _ _ Hi Eo Eu) as (c & Hex & Hl & H1 & H2). exists c. split_and!; congruence.
Qed.

Lemma inspect_absent flt f event p s :
  inspect flt f event p = Ok s → s_Ownership s = OwnershipAbsent → lstat f (elems p) = Err ENOENT.
Proof.
  unfold inspect. destruct (lstat_fault flt); [done|].
  destruct (lstat f (elems p)) as [[c m|t|m|m]|[]] eqn:El; try done; try (by intros [= <-]).
  - destruct (read_fault flt); [done|]. destruct (IsManaged c); [by intros [= <-]|]. intros [= <-].
    by destruct (classified_fields (foreignSlot event p m "" false (Contains c guardFlag)) c) as (-> & _).
  - destruct (readRegularTarget _ _ _) as [[c m]|]; intros [= <-]; [|done].
    by destruct (classified_fields (foreignSlot event p m (linkTarget f p) false (Contains c guardFlag)) c) as (-> & _).
Qed.

(** When an uninstall reports nothing of Peasant's to remove, the slot is empty or
    what Git would run there was read and carries no upload section. *)
Theorem nothing_removed_honestly flt flt' f event p s repo b owner pl f' r :
  inspect flt f event p = Ok s → planFor f s repo b intentUninstall owner = Ok pl →
  uninstallOne flt' pl f = (f', r) → r_Outcome r = OutcomeNotPresent →
  f' = f ∧ (lstat f (elems p) = Err ENOENT ∨ ∃ content, executed f p content
    ∧ ContainsManualSection content = false ∧ ContainsGeneratedSection content = false).
Proof.
  intros Hi [Hs _]%planFor_ok Hu Ho. unfold uninstallOne in Hu. rewrite Hs in Hu.
  case_decide; [by injection Hu as <- <-|]. destruct (s_Ownership s) eqn:Eo.
  - injection Hu as <- <-. split; [done|]. left. by eapply inspect_absent.
  - destruct (removeHook _ _ _) as [f2 [u|e]]; by injection Hu as <- <-.
  - destruct (s_Unreadable s) eqn:Eu; [by injection Hu as <- <-|].
    destruct (CarriesUploadSection s) eqn:Ec; [by injection Hu as <- <-|]. injection Hu as <- <-. split; [done|].
    destruct (carries_false s Eo Ec) as [Hh Hg]. destruct (inspect_foreign _ _ _ _ _ Hi Eo Eu) as (c & Hex & _ & H1 & H2).
    right. exists c. split_and!; congruence.
Qed.

(** ** A concrete repository *)

Definition healthy : Faults :=
  {| lstat_fault := None; read_fault := false; mkdir_fault := None; open_fault := None; write_fault := None;
     chmod_fault := false; close_fault := false; rename_fault := false; remove_fault := false; cleanup_fault := false;
     umask := 18; temp_suffix := "1" |}.

#[local] Instance demoGit : GitResolver :=
  {| git_Root := λ dir, if HasPrefix dir "/work" then Some "/work" else None;
     git_GitDir := λ _, Some "/work/.git";
     git_HookPath := λ _ event, Some ("/work/.git/hooks/" +:+ event);
     Abs := λ dir, if IsAbs dir then Some (Clean dir) else Some (Clean ("/work/" +:+ dir)) |}.

Definition prePush : path := ["work"; ".git"; "hooks"; "pre-push"].

(** A repository whose user wrote a pre-push hook. *)
Definition demoFS : fs := list_to_map
  [(["work"], Directory 493); (["work"; ".git"], Directory 493); (["work"; ".git"; "hooks"], Directory 493);
   (prePush, File demoHook 493)].

Definition demoRequest : Request := {| req_Dir := ""; req_Events := ["pre-push"; "post-commit"]; req_Binding := demoBinding |}.
Definition demoRepo : Repository := {| RequestedDir := "/work"; Root := "/work"; GitDir := "/work/.git" |}.
Definition demoFree : Slot := emptySlot EventPostCommit "/work/.git/hooks/post-commit".

(** The disclosure of linked worktrees counts every directory entry after the third,
    not the worktrees: one more is announced as two. *)
Example linked_worktrees_overcount :
  let dir := [".git"; "worktrees"] in
  linkedWorktrees
    (list_to_map ([([".git"], Directory 493); (dir, Directory 493); (dir ++ ["note"], File "" 420)]
                  ++ ((λ n, (dir ++ [n], Directory 493)) <$> ["a"; "b"; "c"; "d"])))
    {| RequestedDir := "/"; Root := "/"; GitDir := "/.git" |}
  = ["a"; "b"; "c"; "and 2 more"].
Proof. vm_compute. reflexivity. Qed.

(** The free slot is filled, the user's own hook is refused with a section to paste. *)
Example demo_install :
  match Install (λ _, healthy) (λ _, healthy) demoRequest demoFS with
  | Ok (_, rs) => (λ r, (r_Outcome r, bool_decide (r_Manual r = ""))) <$> rs
  | Err _ => []
  end = [(OutcomeCreated, true); (OutcomeRefused, false)].
Proof. vm_compute. reflexivity. Qed.

(** A full disk leaves nothing behind. *)
Example demo_full_disk :
  let full := {| lstat_fault := None; read_fault := false; mkdir_fault := None; open_fault := None; write_fault := Some 100%nat;
                 chmod_fault := false; close_fault := false; rename_fault := false; remove_fault := false; cleanup_fault := false;
                 umask := 18; temp_suffix := "1" |} in
  match Install (λ _, healthy) (λ _, full) demoRequest demoFS with
  | Ok (f, rs) => (bool_decide (f = demoFS), r_Outcome <$> rs)
  | Err _ => (false, [])
  end = (true, [OutcomeFailed; OutcomeRefused]).
Proof. vm_compute. reflexivity. Qed.

Definition result_or {E A} (d : A) (r : result E A) : A := match r with Ok a => a | Err _ => d end.

Definition is_ok {E A} (r : result E A) : bool := match r with Ok _ => true | Err _ => false end.

Definition noPlan : Plan :=
  {| p_Slot := demoFree; p_Action := ActionRefuse; p_Refusal := RefusalNone; p_Script := ""; p_Manual := "";
     p_Warnings := []; p_Owner := "" |}.
Definition demoPlan : Plan := result_or noPlan (planFor demoFS demoFree demoRepo demoBinding intentInstall "").
Definition demoInstalled : fs := (installOne healthy demoPlan demoRepo demoFS).1.
Definition demoResult : Result := (installOne healthy demoPlan demoRepo demoFS).2.

Lemma demoPlan_ok : planFor demoFS demoFree demoRepo demoBinding intentInstall "" = Ok demoPlan.
Proof. vm_compute. reflexivity. Qed.
Lemma demoResult_ok : installOne healthy demoPlan demoRepo demoFS = (demoInstalled, demoResult).
Proof. apply surjective_pairing. Qed.
Lemma demo_created : r_Outcome demoResult = OutcomeCreated.
Proof. vm_compute. reflexivity. Qed.

Lemma foreign_files_untouched_witness : ∃ f' rs,
  Install (λ _, healthy) (λ _, healthy) demoRequest demoFS = Ok (f', rs) ∧ f' !! prePush = Some (File demoHook 493).
Proof.
  assert (is_ok (Install (λ _, healthy) (λ _, healthy) demoRequest demoFS) = true) as Hok by (vm_compute; reflexivity).
  destruct (Install (λ _, healthy) (λ _, healthy) demoRequest demoFS) as [[f' rs]|e] eqn:H; [|discriminate Hok].
  exists f', rs. split; [reflexivity|].
  assert (demoFS !! prePush = Some (File demoHook 493)) as Hq by (vm_compute; reflexivity).
  destruct (foreign_files_untouched (λ _, healthy) (λ _, healthy) demoRequest demoFS f' rs (or_introl H) prePush _ Hq)
    as [Hk|[(c & m & Hc & Hm) _]]; [exact Hk|].
  injection Hc as <- _. vm_compute in Hm. discriminate Hm.
Defined.

Lemma install_all_or_nothing_witness :
  cleanup_fault healthy = false ∧ ∃ f1, grown demoFS f1 ∧
    ∃ es, locate f1 (elems "/work/.git/hooks/post-commit") = Ok es ∧ demoInstalled = <[es := File (p_Script demoPlan) ScriptMode]> f1.
Proof.
  split; [reflexivity|].
  destruct (install_all_or_nothing healthy demoPlan demoRepo demoFS demoInstalled demoResult demoResult_ok eq_refl) as (f1 & Hg & H).
  exists f1. split; [exact Hg|]. rewrite demo_created in H. destruct H as (es & Hl & _ & Hf). exists es. exact (conj Hl Hf).
Defined.

Lemma install_takes_effect_witness : ∃ s',
  inspect healthy demoInstalled EventPostCommit "/work/.git/hooks/post-commit" = Ok s'
  ∧ s_Ownership s' = OwnershipPeasant ∧ s_EmbeddedRoot s' = "/work".
Proof.
  destruct (install_takes_effect healthy healthy demoFS demoFS demoFree demoRepo demoBinding "" demoPlan demoInstalled demoResult
    demoPlan_ok demoResult_ok (or_introl demo_created) (conj eq_refl eq_refl)) as (s' & Hi & Ho & _ & Hr & _).
  exists s'. exact (conj Hi (conj Ho Hr)).
Defined.

Definition demoOwned : Slot := result_or demoFree (inspect healthy demoInstalled EventPostCommit "/work/.git/hooks/post-commit").
Definition demoRemoval : Plan := result_or noPlan (planFor demoInstalled demoOwned demoRepo demoBinding intentUninstall "").

Lemma uninstall_undoes_install_witness : ∃ f2 r2,
  uninstallOne healthy demoRemoval demoInstalled = (f2, r2) ∧ r_Outcome r2 = OutcomeRemoved ∧ grown demoFS f2.
Proof.
  destruct (uninstallOne healthy demoRemoval demoInstalled) as [f2 r2] eqn:Hu. exists f2, r2. split; [reflexivity|].
  assert (inspect healthy demoInstalled EventPostCommit "/work/.git/hooks/post-commit" = Ok demoOwned) as Hin by (vm_compute; reflexivity).
  assert (planFor demoInstalled demoOwned demoRepo demoBinding intentUninstall "" = Ok demoRemoval) as Hp by (vm_compute; reflexivity).
  assert (privateHookPath demoInstalled demoOwned demoRepo = true) as Hv by (vm_compute; reflexivity).
  exact (uninstall_undoes_install healthy healthy demoFS demoFree demoRepo demoBinding demoBinding "" "" demoPlan demoRemoval
    demoInstalled demoResult f2 r2 demoOwned demoPlan_ok demoResult_ok demo_created (conj eq_refl eq_refl) eq_refl Hin Hp Hv Hu).
Defined.

Definition demoForeign : Slot := result_or demoFree (inspect healthy demoFS EventPrePush "/work/.git/hooks/pre-push").
Definition demoOffer (op : intent) : Plan := result_or noPlan (planFor demoFS demoForeign demoRepo demoBinding op "").

Lemma section_offered_only_to_shells_witness : ∃ content,
  executed demoFS "/work/.git/hooks/pre-push" content ∧ (ClassifyHookLanguage content).1 = LangPOSIXShell.
Proof.
  assert (inspect healthy demoFS EventPrePush "/work/.git/hooks/pre-push" = Ok demoForeign) as Hi by (vm_compute; reflexivity).
  assert (planFor demoFS demoForeign demoRepo demoBinding intentInstall "" = Ok (demoOffer intentInstall)) as Hp by (vm_compute; reflexivity).
  assert (p_Manual (demoOffer intentInstall) ≠ "") as Hm by (vm_compute; discriminate).
  destruct (section_offered_only_to_shells healthy demoFS EventPrePush _ demoForeign demoRepo demoBinding intentInstall "" _ Hi Hp Hm)
    as (_ & _ & _ & c & Hc & Hl & _).
  exists c. exact (conj Hc Hl).
Defined.

Lemma nothing_removed_honestly_witness : ∃ f' r,
  uninstallOne healthy (demoOffer intentUninstall) demoFS = (f', r) ∧ r_Outcome r = OutcomeNotPresent ∧ f' = demoFS.
Proof.
  assert (inspect healthy demoFS EventPrePush "/work/.git/hooks/pre-push" = Ok demoForeign) as Hi by (vm_compute; reflexivity).
  assert (planFor demoFS demoForeign demoRepo demoBinding intentUninstall "" = Ok (demoOffer intentUninstall)) as Hp by (vm_compute; reflexivity).
  assert (r_Outcome (uninstallOne healthy (demoOffer intentUninstall) demoFS).2 = OutcomeNotPresent) as Ho by (vm_compute; reflexivity).
  destruct (uninstallOne healthy (demoOffer intentUninstall) demoFS) as [f' r] eqn:Hu. exists f', r. split; [reflexivity|].
  split; [exact Ho|].
  exact (proj1 (nothing_removed_honestly healthy healthy demoFS EventPrePush _ demoForeign demoRepo demoBinding "" _ f' r Hi Hp Hu Ho)).
Defined.
